(* ===== verification/_CoqProject ===== *)
-Q . S2P
Prelude.v
Endianconv.v
Intset.v
Util.v
Glob.v
Adlist.v
AdlistSpec.v
Bits.v
Crc.v
CrcSpec.v
Geohash.v
Bitops.v
BitopsSpec.v
Dict.v
DictRep.v
DictRehash.v
DictOps.v
DictDelete.v
DictCursor.v
DictScan.v
DictIter.v
DictSpec.v
Sds.v
SdsRep.v
SdsOps.v
SdsText.v
SdsSpec.v
Ziplist.v
ZiplistRep.v
ZiplistCascade.v
ZiplistValue.v
ZiplistInsert.v
ZiplistDelete.v
ZiplistNav.v
ZiplistMerge.v
ZiplistValid.v
ZiplistSpec.v
Listpack.v
ListpackRep.v
ListpackNav.v
ListpackEdit.v
ListpackValid.v
ListpackSpec.v
Lzf.v
LzfFormat.v
LzfCompress.v
LzfFrame.v
LzfSpec.v
Object.v
ObjectSpec.v
Rio.v
RioSpec.v
Rdb.v
RdbLen.v
RdbInt.v
RdbSave.v
RdbLoad.v
RdbDump.v
RdbSpec.v
Skiplist.v
SkiplistRep.v
SkiplistUpdate.v
SkiplistOps.v
SkiplistOrder.v
SkiplistSet.v
SkiplistQuery.v
SkiplistSpec.v
