(* ===== verification/Prelude.v ===== *)
(** * A verification of the data-structure core of Redis 6.2

    The program is the C code under [src/framework/redis/redis-6.2/src/].  Its
    keyspace is built from a few memory layouts that the commands manipulate
    through narrow interfaces: dynamic strings ([sds.c]), hash tables
    ([dict.c]), and the compact encodings of small collections, integer sets
    ([intset.c]), ziplists ([ziplist.c]) and listpacks ([listpack.c]).  They
    rest on conversions between numbers and strings ([util.c]), on byte-order
    conversion ([endianconv.c]), on compression ([lzf_c.c], [lzf_d.c]) and on
    glob matching ([util.c], used by KEYS, SCAN and the channel patterns).
    Linked lists ([adlist.c]) hold the server's own queues, bitmaps
    ([bitops.c]) and geohash cells ([geohash.c]) are operations on strings and
    scores, and the checksums protect dumps ([crc64.c]) and assign keys to
    cluster slots ([crc16.c], [cluster.c]).  Sorted sets keep their elements in
    skip lists ([t_zset.c]).  Values are reference-counted objects ([object.c]),
    of which the string objects are modelled; they are saved and loaded through
    streams ([rio.c]) in the dump format ([rdb.c], [cluster.c]), which uses the
    strings, the compression and the checksums.  The development models these parts, one component
    after the other, and proves that each implements the mathematical object it
    stands for: a byte string, a finite map, a set of integers, a list of
    values, a list sorted by score.

    ** The model

    Every C function is a Rocq function of the same name, and every macro that
    is a constant a definition of the same name.  [Prelude] has the parts all
    components share.  A computation is an [outcome]: it returns,
    fails an [assert], leaves the memory block a pointer points into, or spends
    the fuel of a loop.  Integers are [Z] with the conversion to their width
    ([u8] ... [s64]) written where the C code converts or may wrap.  A block of
    memory is the list of its bytes and a pointer into it an offset; [rd],
    [rdn], [wrn] and [memmove] fault outside the block, so a theorem that a
    function returns says that it stays inside.  The allocator ([zmalloc],
    [zrealloc], [malloc_usable_size]) and the byte order of the host are
    parameters, the classes [Allocator] with its laws and [HostOrder]: the
    theorems hold for every allocator that returns at least what is asked for,
    with arbitrary contents, and for both byte orders.

    Loops whose length the arguments bound are structural recursions or have
    fuel computed from the sizes of the blocks, tables and heaps involved (the
    number of bytes of a string, of entries of a heap, of buckets of a table,
    plus the rounds that only detect the end); the theorems state that the
    function returns, hence that the fuel is enough.

    ** The files

    - [Prelude]: the outcome monad, machine integers, blocks, C strings, byte
      orders and the allocator, with their lemmas and the tactics.
    - [Endianconv]: [endianconv.c].
    - [Intset]: [intset.c] on the bytes of the block; [rep] relates a
      block to a sorted list of integers.
    - [Util]: [ll2string], [string2ll], [digits10] and the byte scanners of
      [util.c].
    - [Glob]: [stringmatchlen] of [util.c] with its early exits.
    - [Adlist] (definitions), [AdlistSpec]: [adlist.c]; the nodes are a heap,
      [list_rep] relates a list to its nodes and values.
    - [Bits]: functions built from shifts and masks are linear, so that an
      equality between them is checked on the words with one bit set.
    - [Crc] (definitions), [CrcSpec]: [crc64.c], [crcspeed.c], [crc16.c] and
      [keyHashSlot] of [cluster.c].
    - [Geohash]: the integer part of [geohash.c].
    - [Bitops] (definitions), [BitopsSpec]: the low-level part of [bitops.c].
    - [Sds] (definitions), [SdsRep], [SdsOps], [SdsText], [SdsSpec]: [sds.c] and
      [sds.h] with the five header layouts; [rep] relates a string to its bytes
      and its capacity.
    - [Ziplist] (definitions), [ZiplistRep], [ZiplistCascade], [ZiplistValue],
      [ZiplistInsert], [ZiplistDelete], [ZiplistNav], [ZiplistMerge],
      [ZiplistValid], [ZiplistSpec]: [ziplist.c] on the bytes of the block;
      a block represents a list of strings and integers.
    - [Listpack] (definitions), [ListpackRep], [ListpackNav], [ListpackEdit],
      [ListpackValid], [ListpackSpec]: [listpack.c] on the bytes of the block.
      [valid] says that a block is a list of encoded elements whose lengths read
      back where they are, [rep] that no length is read outside its entry, which
      holds for the blocks the code writes.
    - [Lzf] (definitions), [LzfFormat], [LzfCompress], [LzfFrame], [LzfSpec]: [lzf_c.c]
      and [lzf_d.c] with the settings of [lzfP.h]; [expands] is the format, a
      relation between compressed bytes and the bytes they stand for.
    - [Object] (definitions), [ObjectSpec]: the string objects of [object.c] with
      the shared integers of [server.c] and the clocks of [evict.c].  The objects
      are a heap; [holds] relates an object, in any of its encodings, to its
      bytes.  The fields of the server and the allocation of objects are classes.
    - [Rio] (definitions), [RioSpec]: [rio.h] and [rio.c] over any backend, which
      is a class; its laws are what [writing] and [reading] rest on, and the
      in-memory backend is an instance.
    - [Rdb] (definitions), [RdbLen], [RdbInt], [RdbSave], [RdbLoad], [RdbDump],
      [RdbSpec]: types, times, lengths, numbers and strings of [rdb.c], the bulk
      objects of [aof.c] and the footer of dumped values of [cluster.c].
      [len_form] and [string_form] are the format, [saved_form] the part of it
      that is written.
    - [Dict] (definitions), [DictRep], [DictRehash], [DictOps], [DictDelete],
      [DictCursor], [DictScan], [DictIter], [DictSpec]: [dict.c] and [dict.h] on
      the pointers of the chains.  The entries are a heap from addresses to
      records; [dict_rep] relates a dictionary, in any state of an incremental
      rehashing, to a finite map from the contents of the keys to the entries
      that hold them, and accounts for every entry of the heap.
    - [Skiplist] (definitions), [SkiplistRep], [SkiplistUpdate], [SkiplistOps],
      [SkiplistOrder], [SkiplistSet], [SkiplistQuery], [SkiplistSpec]: the skip
      list of [t_zset.c] with the structures of [server.h].  The nodes are a
      heap; [Rep] relates a skip list to the list of its nodes with their
      heights and says what every level of every node holds, [holds] adds the
      order.  The scores and the elements are types with the comparison the code
      uses ([Score], [Element]), instantiated by IEEE 754 numbers and by byte
      strings; the numbers [random] returns are an argument.

    ** What the theorems show

    - Integer sets: adding (with the upgrade of the encoding), removing and
      finding refine the operations on the set; the integrity check accepts
      exactly the valid blocks and never reads outside, up to 2^31 elements.
    - Numbers: [ll2string] prints and [string2ll] accepts exactly the canonical
      decimal forms of the 64-bit integers.
    - Glob: the matcher agrees with a reference matcher on the tokens of the
      pattern for every non-empty string and never reads past its arguments, if
      these have less than 2^31 bytes.
    - Strings: building, growing, cutting, resizing, formatting, splitting and
      joining give the expected bytes across all header layouts; quoting and
      parsing arguments is a round trip; the numbers of pieces and arguments at
      which the [int] counters overflow are exact.
    - Ziplists: insertion, deletion, replacement and merging, with the cascade
      of length updates, refine the operations on the list of values;
      navigation, search and the integrity check are exact.
    - Listpacks: insertion, replacement, deletion and appending refine the
      operations on the list of strings; the integrity check accepts exactly the
      valid blocks, navigation is exact on them, and every block the operations
      produce passes it.
    - Compression: what [lzf_compress] writes, whatever its uninitialised hash
      table holds, decompresses to its input; [lzf_decompress] stays inside its
      buffers on any bytes and returns exactly what the format says.
    - String objects: whatever their encodings, objects are compared, measured and
      converted as their bytes; choosing a better encoding keeps the bytes, the
      references and the other objects, uses the shared numbers where that is
      allowed and removes free space.
    - Dump format: lengths, types, times and binary numbers are read as they were
      saved, on hosts of either byte order; a string object is loaded from what
      was saved of it, as a number, verbatim or, below 2^32 bytes, compressed; loading from any bytes
      gives null or what the bytes stand for, except for lengths near 2^64; the
      footer of a dumped value is accepted, and no longer after one byte of the
      value has changed.  The theorems hold for every backend with the laws.
    - Hash tables: insertion, lookup and deletion refine those of the finite
      map while rehashing proceeds; rehashing keeps the map, does bounded work
      per call and ends, unless an iterator or the resize mode holds it back; a scan by cursor misses no key that stays, whatever
      resizing happens between its calls, and ends; a safe iterator returns
      every entry once while the caller deletes.
    - Linked lists: a sequence of operations does to the values what it says,
      takes and gives back only free nodes and touches no other list; copying
      leaves the original, and on failure the whole heap, as it was.
    - Checksums: the table-driven routines for both byte orders and any
      alignment compute the bit-by-bit checksum; the slot of a key is that of
      its hash tag.
    - Bitmaps: the word-parallel count and search agree with the bits; fields
      are read as written and overflow is detected exactly.
    - Geohash: interleaving is invertible and the neighbours of a cell are the
      adjacent ones.
    - Skip lists: a sequence of insertions, deletions, score updates and range
      deletions keeps exactly the nodes of the sorted list, with all levels,
      spans and backward pointers; ranks and the ends of ranges are those of the
      list.
    - Some theorems record where the code departs from what it documents:
      merging with an empty ziplist, indexing an empty ziplist, a pattern of stars
      against the empty string, formats that end in a percent sign, resizing under
      jemalloc, a listpack the integrity check should not accept, the comparison
      of strings whose lengths are a multiple of 2^32 apart, saving compressed
      strings of 4 GiB, loading strings with lengths near 2^64, and the places
      where a length or a count is cut to an [int]: matching C strings, checking
      integer sets, splitting, and writing to an append-only file.

    Each component has a file or a section of examples: every theorem with a
    hypothesis is applied to concrete data there.

    ** What is not modelled

    The event loop, networking, files and child processes, replication, cluster,
    sentinel, scripting, modules and the command implementations are input and output or
    glue around these structures; the tools (redis-cli, redis-benchmark, the
    checkers), the bundled dependencies under [deps/] and the tests are outside
    the server's data structures.  Among the data structures, quicklists, radix
    trees, zipmaps and HyperLogLogs are not modelled yet, nor is the dump format of
    values other than strings.  Within the
    modelled files, printing for debugging, the random
    selection of elements and test code are left out.  Floating point
    occurs in the modelled parts only as the order of scores; conversions from
    and to it are left out; the dump format has its bits.  The notes and the Java
    examples of the repository are not part of the program. *)
From stdpp Require Export base tactics option list sets numbers sorting.
From Stdlib Require Export ZArith Lia ZifyBool.
From Stdlib Require Ascii String.
Export String.StringSyntax.
#[global] Open Scope Z_scope.

(** * The outcome monad

    C code either returns, fails an [assert] (the process aborts), touches
    memory outside the block a pointer points into, or is still running when
    the fuel that bounds a loop of the model is spent. *)

Inductive outcome (A : Type) : Type :=
| Ret (a : A)
| Panic
| Fault
| OutOfFuel.
Arguments Ret {A} a.
Arguments Panic {A}.
Arguments Fault {A}.
Arguments OutOfFuel {A}.

#[global] Instance outcome_ret : MRet outcome := fun A a => Ret a.
#[global] Instance outcome_bind : MBind outcome := fun A B f m =>
  match m with
  | Ret a => f a
  | Panic => Panic
  | Fault => Fault
  | OutOfFuel => OutOfFuel
  end.

(** A failed [assert] ends the process. *)
Definition c_assert (b : bool) : outcome unit := if b then Ret tt else Panic.

(** [safe m]: [m] returns or stops in an [assert]; it neither leaves its
    memory block nor runs out of fuel. *)
Definition safe {A} (m : outcome A) : Prop := m <> Fault /\ m <> OutOfFuel.

(** * Machine integers *)

(** Conversion to an unsigned and to a (two's complement) signed type of [w]
    bits. *)
Definition wrapu (w v : Z) : Z := v mod 2 ^ w.
Definition wraps (w v : Z) : Z := (v + 2 ^ (w - 1)) mod 2 ^ w - 2 ^ (w - 1).

Abbreviation u8 := (wrapu 8).
Abbreviation u16 := (wrapu 16).
Abbreviation u32 := (wrapu 32).
Abbreviation u64 := (wrapu 64).
Abbreviation s8 := (wraps 8).
Abbreviation s16 := (wraps 16).
Abbreviation s32 := (wraps 32).
Abbreviation s64 := (wraps 64).

(** The truth value of a C comparison as an [int]. *)
Definition b2z (b : bool) : Z := if b then 1 else 0.

(** * Byte blocks *)

Definition zlen {A} (l : list A) : Z := Z.of_nat (length l).

(** [p[i]] *)
Definition rd (b : list Z) (i : Z) : outcome Z :=
  if 0 <=? i then
    match b !! Z.to_nat i with Some v => Ret v | None => Fault end
  else Fault.

(** The [n] bytes at [i]: the source side of [memcpy], [memcmp], ... *)
Definition rdn (b : list Z) (i n : Z) : outcome (list Z) :=
  if (0 <=? i) && (0 <=? n) && (i + n <=? zlen b)
  then Ret (take (Z.to_nat n) (drop (Z.to_nat i) b)) else Fault.

(** Overwrite the bytes at [i] with [bs]. *)
Definition wrn (b : list Z) (i : Z) (bs : list Z) : outcome (list Z) :=
  if (0 <=? i) && (i + zlen bs <=? zlen b)
  then Ret (take (Z.to_nat i) b ++ bs ++ drop (Z.to_nat i + length bs) b)
  else Fault.

(** [p[i] = v] on an [unsigned char] or [char] array. *)
Definition wr (b : list Z) (i v : Z) : outcome (list Z) := wrn b i [u8 v].

(** [memmove(p+dst, p+src, n)]; also [memcpy] within one block. *)
Definition memmove (b : list Z) (dst src n : Z) : outcome (list Z) :=
  bs ← rdn b src n; wrn b dst bs.

(** Bytes are numbers below 256. *)
Definition is_byte (v : Z) : Prop := 0 <= v < 256.
Definition bytes_ok (b : list Z) : Prop := Forall is_byte b.

(** The bytes of a string literal, without the terminator. *)
Definition cstr (s : String.string) : list Z :=
  (λ a, Z.of_N (Ascii.N_of_ascii a)) <$> String.list_ascii_of_string s.
#[global] Arguments cstr s%_string_scope.

(** * C strings and characters

    [strlen] of the block from its start.  The character classes are those of
    the C locale, the only one the server uses for [LC_CTYPE]. *)
Fixpoint strlen (b : list Z) : outcome Z :=
  match b with
  | [] => Fault
  | c :: b => if c =? 0 then Ret 0 else n ← strlen b; Ret (n + 1)
  end.

(** The C string at the start of a block. *)
Fixpoint until0 (b : list Z) : list Z :=
  match b with
  | [] => []
  | c :: b => if c =? 0 then [] else c :: until0 b
  end.

Definition tolower (c : Z) : Z := if (65 <=? c) && (c <=? 90) then c + 32 else c.
Definition toupper (c : Z) : Z := if (97 <=? c) && (c <=? 122) then c - 32 else c.
Definition isdigit (c : Z) : bool := (48 <=? c) && (c <=? 57).
Definition isspace (c : Z) : bool := (c =? 32) || ((9 <=? c) && (c <=? 13)).
Definition isprint (c : Z) : bool := (32 <=? c) && (c <=? 126).

(** * Byte orders *)

Fixpoint le_enc (n : nat) (v : Z) : list Z :=
  match n with
  | O => []
  | S n => v mod 256 :: le_enc n (v / 256)
  end.

Fixpoint le_dec (bs : list Z) : Z :=
  match bs with
  | [] => 0
  | x :: bs => x + 256 * le_dec bs
  end.

Definition be_enc (n : nat) (v : Z) : list Z := reverse (le_enc n v).
Definition be_dec (bs : list Z) : Z := le_dec (reverse bs).

(** * The allocator

    [zmalloc]/[zrealloc] stop the process when memory is exhausted, so the
    code that calls them only sees a block of at least the requested size
    whose new bytes hold anything.  [usable_size] is what
    [malloc_usable_size] reports, [junk] the bytes of a fresh block and
    [try_ok] whether [ztrymalloc] succeeds. *)
Class Allocator := {
  usable_size : Z → Z;
  junk : Z → list Z;
  try_ok : Z → bool;
}.

Class AllocatorLaws (A : Allocator) : Prop := {
  usable_size_ge : ∀ n, 0 <= n → n <= usable_size n;
  usable_size_fits : ∀ n, 0 <= n < 2 ^ 63 → usable_size n < 2 ^ 64;
  junk_length : ∀ n, length (junk n) = Z.to_nat n;
  junk_bytes : ∀ n, bytes_ok (junk n);
}.

(** [zmalloc(n)], [zrealloc(b, n)]: the old bytes that still fit are kept. *)
Definition zmalloc {A : Allocator} (n : Z) : list Z := junk n.
Definition zrealloc {A : Allocator} (b : list Z) (n : Z) : list Z :=
  take (Z.to_nat n) (b ++ drop (length b) (junk n)).

(** An allocator that hands out zeroed blocks of exactly the size asked for:
    the concrete instance used by the examples. *)
#[local] Instance exact_alloc : Allocator := {|
  usable_size n := n;
  junk n := replicate (Z.to_nat n) 0;
  try_ok _ := true;
|}.

(** * Automation *)

Create HintDb redis.
Create Rewrite HintDb len.
Create Rewrite HintDb zlen.

(** Split the conditionals of the goal, keeping the arithmetic facts. *)
Ltac case_cond :=
  match goal with
  | |- context [if ?b then _ else _] =>
      let E := fresh "Hc" in destruct b eqn:E
  end.

(** Euclidean division facts for [v / k]. *)
Ltac dm v k :=
  pose proof (Z.div_mod v k ltac:(lia)); pose proof (Z.mod_pos_bound v k ltac:(lia)).

(** Run the binds whose first computation has returned. *)
Ltac run := cbn [mbind outcome_bind mret outcome_ret].

(** Turn boolean arithmetic facts in the context into propositions. *)
Ltac to_prop :=
  repeat match goal with
  | H : (_ && _)%bool = true |- _ => apply andb_true_iff in H; destruct H
  | H : (_ || _)%bool = false |- _ => apply orb_false_iff in H; destruct H
  | H : negb _ = true |- _ => apply negb_true_iff in H
  | H : negb _ = false |- _ => apply negb_false_iff in H
  | H : (_ <? _) = true |- _ => apply Z.ltb_lt in H
  | H : (_ <? _) = false |- _ => apply Z.ltb_ge in H
  | H : (_ <=? _) = true |- _ => apply Z.leb_le in H
  | H : (_ <=? _) = false |- _ => apply Z.leb_gt in H
  | H : (_ =? _) = true |- _ => apply Z.eqb_eq in H
  | H : (_ =? _) = false |- _ => apply Z.eqb_neq in H
  end.

Ltac len_norm :=
  unfold zlen in *; cbn [length] in *; autorewrite with len in *; cbn [length] in *.

(** Arithmetic about lengths of blocks. *)
Ltac zl := len_norm; lia.

#[export] Hint Rewrite @length_app @length_take @length_drop @length_reverse
  @length_replicate @length_fmap @length_insert : len.

(** Decide the boolean test [b] of the goal with arithmetic. *)
Tactic Notation "test" constr(b) "true" := replace b with true by (symmetry; first [lia | zl]).
Tactic Notation "test" constr(b) "false" := replace b with false by (symmetry; first [lia | zl]).

(** * Lemmas on outcomes *)

Section outcomes.
Context {A B : Type}.
Implicit Types m : outcome A.

Lemma bind_Ret (a : A) (f : A → outcome B) : (Ret a ≫= f) = f a.
Proof. reflexivity. Qed.

Lemma bind_inv m (f : A → outcome B) b :
  m ≫= f = Ret b → ∃ a, m = Ret a ∧ f a = Ret b.
Proof. destruct m; simpl; try discriminate; eauto. Qed.

Lemma bind_ext m (f g : A → outcome B) :
  (∀ a, m = Ret a → f a = g a) → m ≫= f = m ≫= g.
Proof. destruct m; simpl; auto. Qed.

Lemma safe_Ret (a : A) : safe (Ret a).
Proof. split; discriminate. Qed.

Lemma safe_bind m (f : A → outcome B) :
  safe m → (∀ a, m = Ret a → safe (f a)) → safe (m ≫= f).
Proof. intros [H1 H2] Hf. destruct m; simpl; [by apply Hf|split; done|done|done]. Qed.

End outcomes.

Lemma bind_assoc {A B C} (m : outcome A) (f : A → outcome B) (g : B → outcome C) :
  (m ≫= f) ≫= g = m ≫= (λ a, f a ≫= g).
Proof. by destruct m. Qed.

Lemma ret_pair {A B} (a a' : A) (b b' : B) : a = a' → b = b' → Ret (a, b) = Ret (a', b').
Proof. by intros -> ->. Qed.

Lemma c_assert_true b : b = true → c_assert b = Ret tt.
Proof. by intros ->. Qed.

Lemma safe_assert b : safe (c_assert b).
Proof. by destruct b. Qed.

#[export] Hint Resolve safe_Ret safe_assert : redis.

(** Invert a chain of binds that returned. *)
Ltac bind_inv :=
  repeat match goal with
  | H : mbind _ _ = Ret _ |- _ =>
      let x := fresh "x" in let H1 := fresh "Hb" in
      apply bind_inv in H; destruct H as (x & H1 & H)
  | H : Ret _ = Ret _ |- _ => injection H as H
  | H : mret _ = Ret _ |- _ => injection H as H
  | H : c_assert ?b = Ret ?x |- _ =>
      destruct b eqn:?; [clear H; try destruct x | discriminate H]
  end.

(** * Lemmas on machine integers *)

Lemma wrapu_id w v : 0 <= v < 2 ^ w → wrapu w v = v.
Proof. apply Z.mod_small. Qed.

Lemma wrapu_range w v : 0 <= w → 0 <= wrapu w v < 2 ^ w.
Proof. intros. apply Z.mod_pos_bound. lia. Qed.

Lemma wraps_id w v : 0 < w → - 2 ^ (w - 1) <= v < 2 ^ (w - 1) → wraps w v = v.
Proof.
  intros Hw Hv. unfold wraps.
  assert (2 ^ w = 2 * 2 ^ (w - 1)) by (rewrite <- Z.pow_succ_r; [f_equal|]; lia).
  rewrite Z.mod_small; lia.
Qed.

Lemma wraps_range w v : 0 < w → - 2 ^ (w - 1) <= wraps w v < 2 ^ (w - 1).
Proof.
  intros Hw. unfold wraps.
  assert (2 ^ w = 2 * 2 ^ (w - 1)) by (rewrite <- Z.pow_succ_r; [f_equal|]; lia).
  pose proof (Z.mod_pos_bound (v + 2 ^ (w - 1)) (2 ^ w)). lia.
Qed.

Lemma wraps_wrapu w v : 0 <= w → wraps w (wrapu w v) = wraps w v.
Proof. intros. unfold wraps, wrapu. by rewrite Zplus_mod_idemp_l. Qed.

(** [machine]: remove conversions that do not change the value. *)
Ltac machine :=
  repeat first
    [ rewrite wrapu_id by (cbn; lia)
    | rewrite wraps_id by (cbn; lia) ].

(** * Lemmas on blocks *)

Lemma zlen_nonneg {A} (l : list A) : 0 <= zlen l.
Proof. unfold zlen. lia. Qed.

Lemma zlen_app {A} (l k : list A) : zlen (l ++ k) = zlen l + zlen k.
Proof. zl. Qed.

Lemma zlen_cons {A} (x : A) l : zlen (x :: l) = 1 + zlen l.
Proof. zl. Qed.

Lemma zlen_nil {A} : zlen (@nil A) = 0.
Proof. reflexivity. Qed.

Lemma zlen_inv {A} (l : list A) n : zlen l = n → length l = Z.to_nat n.
Proof. unfold zlen. lia. Qed.

Lemma zlen_replicate {A} n (x : A) : zlen (replicate n x) = Z.of_nat n.
Proof. unfold zlen. by rewrite length_replicate. Qed.

#[export] Hint Rewrite @zlen_app @zlen_cons @zlen_nil @zlen_replicate : zlen.

Ltac zlr := autorewrite with zlen in *.

Lemma rd_app a x c i : zlen a = i → rd (a ++ x :: c) i = Ret x.
Proof.
  intros <-. unfold rd. test (0 <=? zlen a) true.
  unfold zlen. rewrite Nat2Z.id, list_lookup_middle by done. done.
Qed.

Lemma rd_ok b i : 0 <= i < zlen b → ∃ v, rd b i = Ret v ∧ b !! Z.to_nat i = Some v.
Proof.
  intros H. unfold rd. test (0 <=? i) true.
  destruct (lookup_lt_is_Some_2 b (Z.to_nat i)) as [v Hv]; [zl|].
  exists v. by rewrite Hv.
Qed.

Lemma rd_inv b i v : rd b i = Ret v → 0 <= i < zlen b ∧ b !! Z.to_nat i = Some v.
Proof.
  unfold rd. case_cond; [|done]. to_prop.
  destruct (b !! Z.to_nat i) eqn:E; [|done]. intros [= ->].
  apply lookup_lt_Some in E as ?. split; [zl|done].
Qed.

Lemma rd_byte b i v : bytes_ok b → rd b i = Ret v → 0 <= v < 256.
Proof.
  intros Hb [_ Hv]%rd_inv. by eapply Forall_lookup_1 in Hb.
Qed.

Lemma rdn_app a m c i n :
  zlen a = i → zlen m = n → rdn (a ++ m ++ c) i n = Ret m.
Proof.
  intros <- <-. unfold rdn.
  test ((0 <=? zlen a) && (0 <=? zlen m) && (zlen a + zlen m <=? zlen (a ++ m ++ c))) true.
  unfold zlen. rewrite !Nat2Z.id, drop_app_length, take_app_length. done.
Qed.

Lemma rdn_ok b i n :
  0 <= i → 0 <= n → i + n <= zlen b →
  ∃ a m c, b = a ++ m ++ c ∧ zlen a = i ∧ zlen m = n ∧ rdn b i n = Ret m.
Proof.
  intros Hi Hn Hb.
  exists (take (Z.to_nat i) b), (take (Z.to_nat n) (drop (Z.to_nat i) b)),
    (drop (Z.to_nat n) (drop (Z.to_nat i) b)).
  rewrite !take_drop. repeat split; [zl|zl|].
  unfold rdn. by test ((0 <=? i) && (0 <=? n) && (i + n <=? zlen b)) true.
Qed.

Lemma rdn_inv b i n m :
  rdn b i n = Ret m →
  0 <= i ∧ 0 <= n ∧ i + n <= zlen b ∧ ∃ a c, b = a ++ m ++ c ∧ zlen a = i ∧ zlen m = n.
Proof.
  intros H. unfold rdn in H. case_match; [|done]. to_prop.
  destruct (rdn_ok b i n) as (a & m' & c & -> & Ha & Hm & Hr); [done..|].
  rewrite rdn_app in Hr by done.
  unfold rdn in Hr. injection H as <-.
  repeat split; [done..|]. exists a, c.
  rewrite <- Ha, <- Hm. unfold zlen. rewrite !Nat2Z.id, drop_app_length, take_app_length.
  done.
Qed.

Lemma rdn_app0 m c n : zlen m = n → rdn (m ++ c) 0 n = Ret m.
Proof. by apply (rdn_app []). Qed.

Lemma rdn_all b n : zlen b = n → rdn b 0 n = Ret b.
Proof.
  intros. rewrite <- (app_nil_r b) at 1. by apply (rdn_app []).
Qed.

Lemma rdn_bytes b i n m : bytes_ok b → rdn b i n = Ret m → bytes_ok m.
Proof.
  intros Hb (_ & _ & _ & a & c & -> & _)%rdn_inv.
  unfold bytes_ok in *. rewrite !Forall_app in Hb. tauto.
Qed.

Lemma wrn_app a m c i m' :
  zlen a = i → zlen m = zlen m' → wrn (a ++ m ++ c) i m' = Ret (a ++ m' ++ c).
Proof.
  intros <- Hm. unfold wrn.
  test ((0 <=? zlen a) && (zlen a + zlen m' <=? zlen (a ++ m ++ c))) true.
  unfold zlen in *. rewrite Nat2Z.id, take_app_length.
  rewrite <- drop_drop, drop_app_length, drop_app_length' by lia. done.
Qed.

Lemma wrn_app0 m c m' : zlen m = zlen m' → wrn (m ++ c) 0 m' = Ret (m' ++ c).
Proof. by apply (wrn_app []). Qed.

Lemma wrn_ok b i bs :
  0 <= i → i + zlen bs <= zlen b →
  ∃ a m c, b = a ++ m ++ c ∧ zlen a = i ∧ zlen m = zlen bs ∧ wrn b i bs = Ret (a ++ bs ++ c).
Proof.
  intros Hi Hb.
  destruct (rdn_ok b i (zlen bs)) as (a & m & c & -> & Ha & Hm & _); [done|apply zlen_nonneg|done|].
  exists a, m, c. by rewrite wrn_app.
Qed.

Lemma wrn_inv b i bs b' :
  wrn b i bs = Ret b' → 0 <= i ∧ i + zlen bs <= zlen b ∧ zlen b' = zlen b.
Proof.
  unfold wrn. case_cond; [|done]. to_prop. intros [= <-]. repeat split; zl.
Qed.

Lemma wr_app a x c i v : zlen a = i → wr (a ++ x :: c) i v = Ret (a ++ u8 v :: c).
Proof. intros. unfold wr. by apply (wrn_app a [x] c i [u8 v]). Qed.

Lemma wr_byte_app a x c i v :
  zlen a = i → is_byte v → wr (a ++ x :: c) i v = Ret (a ++ v :: c).
Proof. intros. rewrite wr_app by done. by rewrite wrapu_id. Qed.

Lemma memmove_app b dst src n a m c a' m' c' :
  b = a ++ m ++ c → zlen a = src → zlen m = n →
  b = a' ++ m' ++ c' → zlen a' = dst → zlen m' = n →
  memmove b dst src n = Ret (a' ++ m ++ c').
Proof.
  intros E Ha Hm E' Ha' Hm'. unfold memmove.
  rewrite E at 1. rewrite rdn_app by done. simpl. rewrite E'. apply wrn_app; congruence.
Qed.

Lemma zlen_take {A} n (l : list A) : 0 <= n <= zlen l → zlen (take (Z.to_nat n) l) = n.
Proof. intros. zl. Qed.

Lemma zlen_drop {A} n (l : list A) : 0 <= n <= zlen l → zlen (drop (Z.to_nat n) l) = zlen l - n.
Proof. intros. zl. Qed.

(** Cut a list at a position. *)
Lemma zsplit {A} n (l : list A) :
  0 <= n <= zlen l → ∃ l1 l2, l = l1 ++ l2 ∧ zlen l1 = n ∧ zlen l2 = zlen l - n.
Proof.
  intros. exists (take (Z.to_nat n) l), (drop (Z.to_nat n) l).
  rewrite take_drop, zlen_take, zlen_drop by done. done.
Qed.

Lemma zlen_zero {A} (l : list A) : zlen l = 0 → l = [].
Proof. destruct l; [done|zl]. Qed.

Lemma zlen_one {A} (l : list A) : zlen l = 1 → ∃ x, l = [x].
Proof. destruct l as [|x [|y l]]; [done|eauto|]. unfold zlen. simpl. lia. Qed.

Lemma zlen_pos {A} (l : list A) : 0 < zlen l → ∃ x l', l = x :: l'.
Proof. destruct l; [done|eauto]. Qed.

Lemma zapp_inj {A} (l1 l2 k1 k2 : list A) :
  l1 ++ l2 = k1 ++ k2 → zlen l1 = zlen k1 → l1 = k1 ∧ l2 = k2.
Proof. intros H Hl. apply app_inj_1 in H; [done|zl]. Qed.

(** Side conditions of the block lemmas: lengths and byte ranges. *)
Ltac side := solve [ done | auto with redis | zlr; done | zlr; lia | zl ].

(** * Lemmas on C strings *)

Lemma strlen_app l b : 0 ∉ l → strlen (l ++ 0 :: b) = Ret (zlen l).
Proof.
  induction l as [|a l IH]; [done|]. rewrite not_elem_of_cons. intros [Ha Hl]. simpl.
  test (a =? 0) false. rewrite IH by done. run. f_equal. zl.
Qed.

Lemma strlen_until0 l b : strlen (l ++ 0 :: b) = Ret (zlen (until0 l)).
Proof.
  induction l as [|a l IH]; [done|]. simpl. destruct (a =? 0); [done|].
  rewrite IH. run. f_equal. zl.
Qed.

Lemma until0_prefix l b : ∃ r, l ++ 0 :: b = until0 l ++ 0 :: r.
Proof.
  induction l as [|a l [r IH]]; [by exists b|]. simpl. destruct (a =? 0) eqn:E.
  - apply Z.eqb_eq in E as ->. by exists (l ++ 0 :: b).
  - exists r. simpl. by rewrite IH.
Qed.

Lemma until0_le l : zlen (until0 l) <= zlen l.
Proof. induction l as [|a l IH]; [done|]. simpl. destruct (a =? 0); zlr; pose proof (zlen_nonneg l); lia. Qed.

(** * Lemmas on byte orders *)

Lemma length_le_enc n v : length (le_enc n v) = n.
Proof. revert v. induction n; simpl; auto. Qed.

Lemma zlen_le_enc n v : zlen (le_enc n v) = Z.of_nat n.
Proof. unfold zlen. by rewrite length_le_enc. Qed.

Lemma le_enc_bytes n v : bytes_ok (le_enc n v).
Proof.
  revert v. induction n; intros v; simpl; constructor; [|apply IHn].
  apply Z.mod_pos_bound. lia.
Qed.

Lemma pow256 n : 2 ^ (8 * Z.of_nat (S n)) = 256 * 2 ^ (8 * Z.of_nat n).
Proof. rewrite Nat2Z.inj_succ, Z.mul_succ_r, Z.pow_add_r by lia. lia. Qed.

Lemma le_dec_enc n v : le_dec (le_enc n v) = v mod 2 ^ (8 * Z.of_nat n).
Proof.
  revert v. induction n; intros v; cbn [le_enc le_dec].
  - simpl. by rewrite Z.mod_1_r.
  - rewrite IHn, pow256, Z.rem_mul_r by lia. lia.
Qed.

Lemma le_enc_dec bs : bytes_ok bs → le_enc (length bs) (le_dec bs) = bs.
Proof.
  induction 1 as [|x bs Hx _ IH]; [done|]. unfold is_byte in Hx. cbn [length le_dec le_enc].
  replace (x + 256 * le_dec bs) with (le_dec bs * 256 + x) by lia.
  rewrite Z.div_add_l, Z.div_small, Z.add_0_r by lia.
  rewrite Z.add_comm, Z.mod_add, Z.mod_small by lia. by rewrite IH.
Qed.

Lemma le_dec_range bs : bytes_ok bs → 0 <= le_dec bs < 2 ^ (8 * zlen bs).
Proof.
  unfold zlen. induction 1 as [|x bs Hx _ IH]; [simpl; lia|]. unfold is_byte in Hx.
  cbn [length]. rewrite pow256. cbn [le_dec]. lia.
Qed.

Lemma le_enc_mod n v : le_enc n (v mod 2 ^ (8 * Z.of_nat n)) = le_enc n v.
Proof.
  rewrite <- le_dec_enc. rewrite <- (length_le_enc n v) at 1.
  apply le_enc_dec, le_enc_bytes.
Qed.

Lemma le_enc_wraps n v :
  (0 < n)%nat → le_enc n (wraps (8 * Z.of_nat n) v) = le_enc n v.
Proof.
  intros. rewrite <- le_enc_mod, <- (le_enc_mod n v). f_equal. unfold wraps.
  set (w := 8 * Z.of_nat n). set (h := 2 ^ (w - 1)).
  rewrite Zminus_mod_idemp_l. f_equal. lia.
Qed.

Lemma le_dec_app bs cs : le_dec (bs ++ cs) = le_dec bs + 2 ^ (8 * zlen bs) * le_dec cs.
Proof.
  induction bs as [|x bs IH].
  - change (zlen []) with 0. simpl. lia.
  - cbn [app le_dec]. rewrite IH. unfold zlen. cbn [length]. rewrite pow256. ring.
Qed.

Lemma length_be_enc n v : length (be_enc n v) = n.
Proof. unfold be_enc. by rewrite length_reverse, length_le_enc. Qed.

Lemma be_enc_bytes n v : bytes_ok (be_enc n v).
Proof. unfold be_enc, bytes_ok. apply Forall_reverse, le_enc_bytes. Qed.

Lemma be_dec_enc n v : be_dec (be_enc n v) = v mod 2 ^ (8 * Z.of_nat n).
Proof. unfold be_dec, be_enc. by rewrite reverse_involutive, le_dec_enc. Qed.

#[export] Hint Rewrite length_le_enc length_be_enc : len.
#[export] Hint Rewrite zlen_le_enc : zlen.
#[export] Hint Resolve le_enc_bytes be_enc_bytes : redis.

#[global] Arguments le_enc : simpl never.
#[global] Arguments le_dec : simpl never.
#[global] Arguments be_enc : simpl never.
#[global] Arguments be_dec : simpl never.
#[global] Arguments wrapu : simpl never.
#[global] Arguments wraps : simpl never.
#[global] Arguments zlen : simpl never.

(** * Lemmas on the allocator *)

Section allocator.
Context {A : Allocator} {L : AllocatorLaws A}.

Lemma zlen_zmalloc n : 0 <= n → zlen (zmalloc n) = n.
Proof. intros. unfold zmalloc, zlen. rewrite junk_length. lia. Qed.

Lemma zlen_zrealloc b n : 0 <= n → zlen (zrealloc b n) = n.
Proof.
  intros. unfold zrealloc, zlen.
  rewrite length_take, length_app, length_drop, junk_length. lia.
Qed.

Lemma zrealloc_grow b n :
  zlen b <= n → ∃ g, zrealloc b n = b ++ g ∧ zlen g = n - zlen b ∧ bytes_ok g.
Proof.
  intros. exists (drop (length b) (junk n)). unfold zrealloc.
  rewrite take_ge by (rewrite length_app, length_drop, junk_length; zl).
  repeat split; [unfold zlen in *; rewrite length_drop, junk_length; lia|].
  apply Forall_drop, junk_bytes.
Qed.

Lemma zrealloc_shrink b n : 0 <= n <= zlen b → zrealloc b n = take (Z.to_nat n) b.
Proof. intros. unfold zrealloc. by rewrite take_app_le by zl. Qed.

Lemma zrealloc_app b c n : zlen b = n → zrealloc (b ++ c) n = b.
Proof.
  intros Hn. rewrite zrealloc_shrink by zl.
  apply zlen_inv in Hn. by rewrite <- Hn, take_app_length.
Qed.

(** What fits is kept. *)
Lemma zrealloc_prefix p q n :
  zlen p <= n → ∃ r, zrealloc (p ++ q) n = p ++ r ∧ zlen r = n - zlen p.
Proof.
  intros Hn. pose proof (zlen_nonneg p). pose proof (zlen_zrealloc (p ++ q) n ltac:(lia)) as Hl.
  unfold zrealloc in *. rewrite <- (app_assoc p q).
  replace (Z.to_nat n) with (length p + (Z.to_nat n - length p))%nat by zl.
  rewrite take_app_add. eexists. split; [done|].
  rewrite <- (app_assoc p q) in Hl.
  replace (Z.to_nat n) with (length p + (Z.to_nat n - length p))%nat in Hl by zl.
  rewrite take_app_add in Hl. zlr. lia.
Qed.

End allocator.

Lemma exact_alloc_laws : AllocatorLaws exact_alloc.
Proof.
  split; simpl; intros; [done|lia| |].
  - by rewrite length_replicate.
  - apply Forall_replicate. unfold is_byte; lia.
Qed.

(** * Bytes and bits *)

Lemma lor_shiftl a c n : 0 <= n → 0 <= c < 2 ^ n → Z.lor (Z.shiftl a n) c = a * 2 ^ n + c.
Proof.
  intros Hn Hc. rewrite <- Z.shiftl_mul_pow2 by done. symmetry.
  rewrite <- Z.lxor_lor; [apply Z.add_nocarry_lxor|];
  (apply Z.bits_inj'; intros i Hi; rewrite Z.land_spec, Z.shiftl_spec, Z.bits_0 by done;
   destruct (Z.lt_ge_cases i n);
   [by rewrite Z.testbit_neg_r by lia
   |rewrite andb_comm, <- (Z.mod_small c (2 ^ n)), Z.mod_pow2_bits_high by lia; done]).
Qed.

Lemma land_255 v : Z.land v 255 = v mod 256.
Proof. apply (Z.land_ones v 8). lia. Qed.

(** Every byte is below 256: a check of all of them. *)
Lemma all_bytes (f : Z → bool) : forallb f (seqZ 0 256) = true → ∀ c, is_byte c → f c = true.
Proof. intros Hf c Hc. rewrite forallb_forall in Hf. apply Hf, list_elem_of_In, elem_of_seqZ. unfold is_byte in Hc. lia. Qed.

(** * Accesses by decomposition of the block *)

(** Normal form of concatenations, to compare decompositions. *)
Ltac lapp := repeat (rewrite <- app_assoc || rewrite app_nil_r || cbn [app]).

Lemma rd_at b i x a c : b = a ++ x :: c → zlen a = i → rd b i = Ret x.
Proof. intros ->. apply rd_app. Qed.

Lemma rdn_at b i n m a c : b = a ++ m ++ c → zlen a = i → zlen m = n → rdn b i n = Ret m.
Proof. intros ->. apply rdn_app. Qed.

Lemma wrn_at b i m' a m c :
  b = a ++ m ++ c → zlen a = i → zlen m = zlen m' → wrn b i m' = Ret (a ++ m' ++ c).
Proof. intros ->. apply wrn_app. Qed.

Lemma wr_at b i v a x c :
  b = a ++ x :: c → zlen a = i → is_byte v → wr b i v = Ret (a ++ v :: c).
Proof. intros ->. apply wr_byte_app. Qed.

(** Shifting [m] over the bytes [j] that follow it. *)
Lemma memmove_shift a m j c dst src n :
  zlen a = src → zlen m = n → dst = src + zlen j →
  ∃ j', zlen j' = zlen j ∧ memmove (a ++ m ++ j ++ c) dst src n = Ret (a ++ j' ++ m ++ c).
Proof.
  intros Ha Hm ->. pose proof (zlen_nonneg j). pose proof (zlen_nonneg m).
  destruct (zsplit (zlen j) (m ++ j)) as (j' & m' & E & Hj & Hm'); [zlr; lia|]. zlr.
  exists j'. split; [done|].
  rewrite (memmove_app _ _ _ _ a m (j ++ c) (a ++ j') m' c); [by lapp|done|done|done| |zl|lia].
  rewrite (app_assoc m j c), E. by lapp.
Qed.
