(* ===== verification/Endianconv.v ===== *)
(** Byte-order conversion: [src/.../redis-6.2/src/endianconv.c] and the
    [...ifbe] macros of [endianconv.h].

    The integers Redis stores in its compact encodings are little endian on
    every host.  The host's own order is a parameter ([HostOrder]): [load]
    and [store] are the accesses the compiler emits for a [uintN_t], and the
    lemmas show that a [load] (or [store]) combined with the [ifbe] macro
    reads (or writes) little-endian bytes whatever the host's order is. *)
From S2P Require Import Prelude.

(** [BYTE_ORDER]: [true] on a big-endian host. *)
Class HostOrder := big_endian : bool.

(** The bytes of an [n]-byte integer in memory, and back. *)
Definition nat_enc {H : HostOrder} (n : nat) (v : Z) : list Z :=
  if big_endian then be_enc n v else le_enc n v.
Definition nat_dec {H : HostOrder} (bs : list Z) : Z :=
  if big_endian then be_dec bs else le_dec bs.

(** Reading and writing an unsigned integer of [n] bytes at offset [i]. *)
Definition load {H : HostOrder} (n : nat) (b : list Z) (i : Z) : outcome Z :=
  bs ← rdn b i (Z.of_nat n); Ret (nat_dec bs).
Definition store {H : HostOrder} (n : nat) (b : list Z) (i v : Z) : outcome (list Z) :=
  wrn b i (nat_enc n v).

(** The swap [t = x[i]; x[i] = x[j]; x[j] = t] the functions are made of. *)
Definition swap_bytes (x : list Z) (i j : Z) : outcome (list Z) :=
  t ← rd x i;
  xj ← rd x j;
  x ← wr x i xj;
  wr x j t.

Definition memrev16 (x : list Z) (p : Z) : outcome (list Z) :=
  swap_bytes x p (p + 1).

Definition memrev32 (x : list Z) (p : Z) : outcome (list Z) :=
  x ← swap_bytes x p (p + 3);
  swap_bytes x (p + 1) (p + 2).

Definition memrev64 (x : list Z) (p : Z) : outcome (list Z) :=
  x ← swap_bytes x p (p + 7);
  x ← swap_bytes x (p + 1) (p + 6);
  x ← swap_bytes x (p + 2) (p + 5);
  swap_bytes x (p + 3) (p + 4).

Definition intrev16 {H : HostOrder} (v : Z) : outcome Z :=
  x ← memrev16 (nat_enc 2 v) 0; Ret (nat_dec x).
Definition intrev32 {H : HostOrder} (v : Z) : outcome Z :=
  x ← memrev32 (nat_enc 4 v) 0; Ret (nat_dec x).
Definition intrev64 {H : HostOrder} (v : Z) : outcome Z :=
  x ← memrev64 (nat_enc 8 v) 0; Ret (nat_dec x).

Definition memrev16ifbe {H : HostOrder} (x : list Z) (p : Z) : outcome (list Z) :=
  if big_endian then memrev16 x p else Ret x.
Definition memrev32ifbe {H : HostOrder} (x : list Z) (p : Z) : outcome (list Z) :=
  if big_endian then memrev32 x p else Ret x.
Definition memrev64ifbe {H : HostOrder} (x : list Z) (p : Z) : outcome (list Z) :=
  if big_endian then memrev64 x p else Ret x.
Definition intrev16ifbe {H : HostOrder} (v : Z) : outcome Z :=
  if big_endian then intrev16 v else Ret v.
Definition intrev32ifbe {H : HostOrder} (v : Z) : outcome Z :=
  if big_endian then intrev32 v else Ret v.
Definition intrev64ifbe {H : HostOrder} (v : Z) : outcome Z :=
  if big_endian then intrev64 v else Ret v.

(** The host-independent meaning: a little-endian integer of [n] bytes. *)
Definition ld_le (n : nat) (b : list Z) (i : Z) : outcome Z :=
  bs ← rdn b i (Z.of_nat n); Ret (le_dec bs).
Definition st_le (n : nat) (b : list Z) (i v : Z) : outcome (list Z) :=
  wrn b i (le_enc n v).

(** * Reversing blocks *)

Lemma swap_bytes_app a x m y c i j :
  is_byte x → is_byte y →
  zlen a = i → j = i + 1 + zlen m →
  swap_bytes (a ++ x :: m ++ y :: c) i j = Ret (a ++ y :: m ++ x :: c).
Proof.
  intros Hx Hy Ha ->. unfold swap_bytes.
  rewrite (rd_app a _ _ i) by done. simpl.
  assert (E : ∀ z, a ++ z :: m ++ y :: c = (a ++ z :: m) ++ y :: c)
    by (intros; by rewrite <- app_assoc).
  rewrite (E x), rd_app by zl. simpl.
  rewrite <- (E x), wr_byte_app by done. simpl.
  rewrite (E y), wr_byte_app by (done || zl). by rewrite <- app_assoc.
Qed.

(** Take a block of known length apart. *)
Ltac block4 m := destruct m as [|?m0 [|?m1 [|?m2 [|?m3 [|]]]]]; try (exfalso; zl).
Ltac inv_bytes :=
  repeat match goal with
  | H : bytes_ok (_ :: _) |- _ => apply Forall_cons_1 in H; destruct H as [? H]
  | H : Forall is_byte (_ :: _) |- _ => apply Forall_cons_1 in H; destruct H as [? H]
  end.

Lemma memrev16_app a m c p :
  zlen a = p → zlen m = 2 → bytes_ok m →
  memrev16 (a ++ m ++ c) p = Ret (a ++ reverse m ++ c).
Proof.
  intros Ha Hm Hb. destruct m as [|x0 [|x1 [|]]]; try (exfalso; zl). inv_bytes.
  unfold memrev16. apply (swap_bytes_app a x0 [] x1 c); (done || zl).
Qed.

Lemma memrev32_app a m c p :
  zlen a = p → zlen m = 4 → bytes_ok m →
  memrev32 (a ++ m ++ c) p = Ret (a ++ reverse m ++ c).
Proof.
  intros Ha Hm Hb. destruct m as [|x0 [|x1 [|x2 [|x3 [|]]]]]; try (exfalso; zl). inv_bytes.
  unfold memrev32. simpl app.
  rewrite (swap_bytes_app a x0 [x1; x2] x3 c) by (done || zl). simpl.
  pose proof (swap_bytes_app (a ++ [x3]) x1 [] x2 (x0 :: c) (p + 1) (p + 2)) as E.
  rewrite <- !app_assoc in E. simpl in E. apply E; (done || zl).
Qed.

Lemma memrev64_app a m c p :
  zlen a = p → zlen m = 8 → bytes_ok m →
  memrev64 (a ++ m ++ c) p = Ret (a ++ reverse m ++ c).
Proof.
  intros Ha Hm Hb.
  destruct m as [|x0 [|x1 [|x2 [|x3 [|x4 [|x5 [|x6 [|x7 [|]]]]]]]]]; try (exfalso; zl).
  inv_bytes. unfold memrev64. simpl app.
  rewrite (swap_bytes_app a x0 [x1; x2; x3; x4; x5; x6] x7 c) by (done || zl). simpl.
  pose proof (swap_bytes_app (a ++ [x7]) x1 [x2; x3; x4; x5] x6 (x0 :: c) (p + 1) (p + 6)) as E1.
  pose proof (swap_bytes_app (a ++ [x7; x6]) x2 [x3; x4] x5 (x1 :: x0 :: c) (p + 2) (p + 5)) as E2.
  pose proof (swap_bytes_app (a ++ [x7; x6; x5]) x3 [] x4 (x2 :: x1 :: x0 :: c) (p + 3) (p + 4)) as E3.
  rewrite <- !app_assoc in E1, E2, E3. simpl in E1, E2, E3.
  rewrite E1 by (done || zl). simpl. rewrite E2 by (done || zl). simpl.
  apply E3; (done || zl).
Qed.

Section order.
Context {H : HostOrder}.

Lemma length_nat_enc n v : length (nat_enc n v) = n.
Proof. unfold nat_enc. case_cond; by autorewrite with len. Qed.

Lemma zlen_nat_enc n v : zlen (nat_enc n v) = Z.of_nat n.
Proof. unfold zlen. by rewrite length_nat_enc. Qed.

Lemma nat_enc_bytes n v : bytes_ok (nat_enc n v).
Proof. unfold nat_enc. case_cond; auto with redis. Qed.

Lemma nat_dec_enc n v : nat_dec (nat_enc n v) = v mod 2 ^ (8 * Z.of_nat n).
Proof. unfold nat_enc, nat_dec. case_cond; auto using be_dec_enc, le_dec_enc. Qed.

Lemma reverse_be_enc n v : reverse (be_enc n v) = le_enc n v.
Proof. unfold be_enc. apply reverse_involutive. Qed.

(** The integer macros undo the host's order. *)
Lemma intrev32ifbe_dec bs :
  bytes_ok bs → zlen bs = 4 → intrev32ifbe (nat_dec bs) = Ret (le_dec bs).
Proof.
  intros Hb Hl. unfold intrev32ifbe, intrev32, nat_dec, nat_enc.
  destruct big_endian; [|done].
  assert (be_enc 4 (be_dec bs) = bs) as ->.
  { unfold be_enc, be_dec. replace 4%nat with (length (reverse bs)) by zl.
    rewrite le_enc_dec, reverse_involutive; [done|by apply Forall_reverse]. }
  pose proof (memrev32_app [] bs [] 0) as E. rewrite !app_nil_r in E. simpl in E.
  rewrite E by done. simpl. unfold be_dec. by rewrite reverse_involutive.
Qed.

Lemma intrev16ifbe_dec bs :
  bytes_ok bs → zlen bs = 2 → intrev16ifbe (nat_dec bs) = Ret (le_dec bs).
Proof.
  intros Hb Hl. unfold intrev16ifbe, intrev16, nat_dec, nat_enc.
  destruct big_endian; [|done].
  assert (be_enc 2 (be_dec bs) = bs) as ->.
  { unfold be_enc, be_dec. replace 2%nat with (length (reverse bs)) by zl.
    rewrite le_enc_dec, reverse_involutive; [done|by apply Forall_reverse]. }
  pose proof (memrev16_app [] bs [] 0) as E. rewrite !app_nil_r in E. simpl in E.
  rewrite E by done. simpl. unfold be_dec. by rewrite reverse_involutive.
Qed.

Lemma intrev32ifbe_val v :
  0 <= v < 2 ^ 32 → ∃ w, intrev32ifbe v = Ret w ∧ nat_enc 4 w = le_enc 4 v.
Proof.
  intros Hv. unfold intrev32ifbe, intrev32, nat_dec, nat_enc.
  destruct big_endian; [|by exists v].
  pose proof (memrev32_app [] (be_enc 4 v) [] 0) as E. rewrite !app_nil_r in E. simpl in E.
  rewrite E by (auto with redis; zl). simpl. rewrite reverse_be_enc.
  eexists; split; [done|]. unfold be_enc, be_dec.
  rewrite <- (length_le_enc 4 v) at 1. rewrite <- (length_reverse (le_enc 4 v)).
  rewrite le_enc_dec, reverse_involutive; [done|]. apply Forall_reverse, le_enc_bytes.
Qed.

Lemma intrev16ifbe_val v :
  0 <= v < 2 ^ 16 → ∃ w, intrev16ifbe v = Ret w ∧ nat_enc 2 w = le_enc 2 v.
Proof.
  intros Hv. unfold intrev16ifbe, intrev16, nat_dec, nat_enc.
  destruct big_endian; [|by exists v].
  pose proof (memrev16_app [] (be_enc 2 v) [] 0) as E. rewrite !app_nil_r in E. simpl in E.
  rewrite E by (auto with redis; zl). simpl. rewrite reverse_be_enc.
  eexists; split; [done|]. unfold be_enc, be_dec.
  rewrite <- (length_le_enc 2 v) at 1. rewrite <- (length_reverse (le_enc 2 v)).
  rewrite le_enc_dec, reverse_involutive; [done|]. apply Forall_reverse, le_enc_bytes.
Qed.

(** A load through the macro reads a little-endian integer. *)
Lemma load32_le b i :
  bytes_ok b → (load 4 b i ≫= intrev32ifbe) = ld_le 4 b i.
Proof.
  intros Hb. unfold load, ld_le. destruct (rdn b i (Z.of_nat 4)) as [bs| | |] eqn:E; try done.
  simpl. apply intrev32ifbe_dec; [by eapply rdn_bytes|].
  apply rdn_inv in E as (_ & _ & _ & ? & ? & _ & _ & ?). done.
Qed.

Lemma load16_le b i :
  bytes_ok b → (load 2 b i ≫= intrev16ifbe) = ld_le 2 b i.
Proof.
  intros Hb. unfold load, ld_le. destruct (rdn b i (Z.of_nat 2)) as [bs| | |] eqn:E; try done.
  simpl. apply intrev16ifbe_dec; [by eapply rdn_bytes|].
  apply rdn_inv in E as (_ & _ & _ & ? & ? & _ & _ & ?). done.
Qed.

(** A store of a converted value writes little-endian bytes. *)
Lemma store32_le b i v :
  0 <= v < 2 ^ 32 → (intrev32ifbe v ≫= store 4 b i) = st_le 4 b i v.
Proof.
  intros Hv. destruct (intrev32ifbe_val v Hv) as (w & -> & Hw).
  simpl. unfold store, st_le. by rewrite Hw.
Qed.

Lemma store16_le b i v :
  0 <= v < 2 ^ 16 → (intrev16ifbe v ≫= store 2 b i) = st_le 2 b i v.
Proof.
  intros Hv. destruct (intrev16ifbe_val v Hv) as (w & -> & Hw).
  simpl. unfold store, st_le. by rewrite Hw.
Qed.

(** The same by decomposition of the block. *)
Lemma load32_at b i a bs c :
  b = a ++ bs ++ c → zlen a = i → zlen bs = 4 → bytes_ok bs →
  (load 4 b i ≫= intrev32ifbe) = Ret (le_dec bs).
Proof.
  intros -> Ha Hl Hb. unfold load. change (Z.of_nat 4) with 4. rewrite rdn_app by done.
  by apply intrev32ifbe_dec.
Qed.

Lemma load16_at b i a bs c :
  b = a ++ bs ++ c → zlen a = i → zlen bs = 2 → bytes_ok bs →
  (load 2 b i ≫= intrev16ifbe) = Ret (le_dec bs).
Proof.
  intros -> Ha Hl Hb. unfold load. change (Z.of_nat 2) with 2. rewrite rdn_app by done.
  by apply intrev16ifbe_dec.
Qed.

Lemma store32_at b i v a m c :
  b = a ++ m ++ c → zlen a = i → zlen m = 4 → 0 <= v < 2 ^ 32 →
  (intrev32ifbe v ≫= store 4 b i) = Ret (a ++ le_enc 4 v ++ c).
Proof. intros -> Ha Hl Hv. rewrite store32_le by done. unfold st_le. apply wrn_app; [done|zl]. Qed.

Lemma store16_at b i v a m c :
  b = a ++ m ++ c → zlen a = i → zlen m = 2 → 0 <= v < 2 ^ 16 →
  (intrev16ifbe v ≫= store 2 b i) = Ret (a ++ le_enc 2 v ++ c).
Proof. intros -> Ha Hl Hv. rewrite store16_le by done. unfold st_le. apply wrn_app; [done|zl]. Qed.

(** A store of a host-order value followed by the in-place conversion. *)
Lemma nat_enc_rev n v :
  (if big_endian then reverse (nat_enc n v) else nat_enc n v) = le_enc n v.
Proof. unfold nat_enc. destruct big_endian; [apply reverse_be_enc|done]. Qed.

Lemma store16_rev b i v a m c :
  b = a ++ m ++ c → zlen a = i → zlen m = 2 →
  (store 2 b i v ≫= λ b, memrev16ifbe b i) = Ret (a ++ le_enc 2 v ++ c).
Proof.
  intros -> Ha Hl. unfold store. rewrite wrn_app by (done || by rewrite zlen_nat_enc). run.
  rewrite <- (nat_enc_rev 2 v). unfold memrev16ifbe. destruct big_endian; [|done].
  apply memrev16_app; [done|apply zlen_nat_enc|apply nat_enc_bytes].
Qed.

Lemma store32_rev b i v a m c :
  b = a ++ m ++ c → zlen a = i → zlen m = 4 →
  (store 4 b i v ≫= λ b, memrev32ifbe b i) = Ret (a ++ le_enc 4 v ++ c).
Proof.
  intros -> Ha Hl. unfold store. rewrite wrn_app by (done || by rewrite zlen_nat_enc). run.
  rewrite <- (nat_enc_rev 4 v). unfold memrev32ifbe. destruct big_endian; [|done].
  apply memrev32_app; [done|apply zlen_nat_enc|apply nat_enc_bytes].
Qed.

Lemma store64_rev b i v a m c :
  b = a ++ m ++ c → zlen a = i → zlen m = 8 →
  (store 8 b i v ≫= λ b, memrev64ifbe b i) = Ret (a ++ le_enc 8 v ++ c).
Proof.
  intros -> Ha Hl. unfold store. rewrite wrn_app by (done || by rewrite zlen_nat_enc). run.
  rewrite <- (nat_enc_rev 8 v). unfold memrev64ifbe. destruct big_endian; [|done].
  apply memrev64_app; [done|apply zlen_nat_enc|apply nat_enc_bytes].
Qed.

(** The in-place conversion of a copy of little-endian bytes. *)
Lemma nat_dec_rev bs : (if big_endian then nat_dec (reverse bs) else nat_dec bs) = le_dec bs.
Proof. unfold nat_dec, be_dec. destruct big_endian; [by rewrite reverse_involutive|done]. Qed.

Lemma memrev16ifbe_val {B} bs (f : Z → outcome B) :
  zlen bs = 2 → bytes_ok bs → (x ← memrev16ifbe bs 0; f (nat_dec x)) = f (le_dec bs).
Proof.
  intros Hl Hb. rewrite <- nat_dec_rev. unfold memrev16ifbe. destruct big_endian; [|done].
  pose proof (memrev16_app [] bs [] 0) as E. rewrite !app_nil_r in E. simpl in E. by rewrite E.
Qed.

Lemma memrev32ifbe_val {B} bs (f : Z → outcome B) :
  zlen bs = 4 → bytes_ok bs → (x ← memrev32ifbe bs 0; f (nat_dec x)) = f (le_dec bs).
Proof.
  intros Hl Hb. rewrite <- nat_dec_rev. unfold memrev32ifbe. destruct big_endian; [|done].
  pose proof (memrev32_app [] bs [] 0) as E. rewrite !app_nil_r in E. simpl in E. by rewrite E.
Qed.

Lemma memrev64ifbe_val {B} bs (f : Z → outcome B) :
  zlen bs = 8 → bytes_ok bs → (x ← memrev64ifbe bs 0; f (nat_dec x)) = f (le_dec bs).
Proof.
  intros Hl Hb. rewrite <- nat_dec_rev. unfold memrev64ifbe. destruct big_endian; [|done].
  pose proof (memrev64_app [] bs [] 0) as E. rewrite !app_nil_r in E. simpl in E. by rewrite E.
Qed.

(** A host-order value converted in place holds its little-endian bytes. *)
Lemma memrev32ifbe_enc v : memrev32ifbe (nat_enc 4 v) 0 = Ret (le_enc 4 v).
Proof.
  rewrite <- (nat_enc_rev 4 v). unfold memrev32ifbe. destruct big_endian; [|done].
  pose proof (memrev32_app [] (nat_enc 4 v) [] 0) as E. rewrite !app_nil_r in E. simpl in E.
  apply E; [done|apply zlen_nat_enc|apply nat_enc_bytes].
Qed.

End order.
