(* ===== verification/Intset.v ===== *)
(** Integer sets: [src/.../redis-6.2/src/intset.c].

    An [intset] is one block: a [uint32_t] encoding (2, 4 or 8, the size of an
    element), a [uint32_t] length and the elements, all little endian, in
    strictly increasing order.  The model works on the bytes of the block.

    [rep vs b] says that block [b] holds the sorted set [vs]; the theorems
    show that every operation refines its counterpart on sorted lists of
    integers, on hosts of either byte order, and that the integrity check
    used on untrusted payloads is memory safe and accepts exactly the blocks
    that represent a nonempty set. *)
From S2P Require Import Prelude Endianconv.

Module Intset.
Section intset.
Context {H : HostOrder} {A : Allocator}.

Definition INTSET_ENC_INT16 : Z := 2.
Definition INTSET_ENC_INT32 : Z := 4.
Definition INTSET_ENC_INT64 : Z := 8.

Definition INT16_MIN : Z := - 2 ^ 15.
Definition INT16_MAX : Z := 2 ^ 15 - 1.
Definition INT32_MIN : Z := - 2 ^ 31.
Definition INT32_MAX : Z := 2 ^ 31 - 1.
Definition SIZE_MAX : Z := 2 ^ 64 - 1.

(** [struct intset]: two [uint32_t] fields, then [contents]. *)
Definition sizeof_intset : Z := 8.
Definition is_encoding (ist : list Z) : outcome Z := load 4 ist 0 ≫= intrev32ifbe.
Definition is_length (ist : list Z) : outcome Z := load 4 ist 4 ≫= intrev32ifbe.
Definition set_encoding (ist : list Z) (v : Z) : outcome (list Z) :=
  intrev32ifbe (u32 v) ≫= store 4 ist 0.
Definition set_length (ist : list Z) (v : Z) : outcome (list Z) :=
  intrev32ifbe (u32 v) ≫= store 4 ist 4.

Definition _intsetValueEncoding (v : Z) : Z :=
  if (v <? INT32_MIN) || (INT32_MAX <? v) then INTSET_ENC_INT64
  else if (v <? INT16_MIN) || (INT16_MAX <? v) then INTSET_ENC_INT32
  else INTSET_ENC_INT16.

Definition _intsetGetEncoded (ist : list Z) (pos enc : Z) : outcome Z :=
  if enc =? INTSET_ENC_INT64 then
    v64 ← rdn ist (sizeof_intset + pos * 8) 8;
    v64 ← memrev64ifbe v64 0;
    Ret (s64 (nat_dec v64))
  else if enc =? INTSET_ENC_INT32 then
    v32 ← rdn ist (sizeof_intset + pos * 4) 4;
    v32 ← memrev32ifbe v32 0;
    Ret (s32 (nat_dec v32))
  else
    v16 ← rdn ist (sizeof_intset + pos * 2) 2;
    v16 ← memrev16ifbe v16 0;
    Ret (s16 (nat_dec v16)).

Definition _intsetGet (ist : list Z) (pos : Z) : outcome Z :=
  enc ← is_encoding ist;
  _intsetGetEncoded ist pos (u8 enc).

Definition _intsetSet (ist : list Z) (pos value : Z) : outcome (list Z) :=
  encoding ← is_encoding ist;
  if encoding =? INTSET_ENC_INT64 then
    ist ← store 8 ist (sizeof_intset + pos * 8) value;
    memrev64ifbe ist (sizeof_intset + pos * 8)
  else if encoding =? INTSET_ENC_INT32 then
    ist ← store 4 ist (sizeof_intset + pos * 4) value;
    memrev32ifbe ist (sizeof_intset + pos * 4)
  else
    ist ← store 2 ist (sizeof_intset + pos * 2) value;
    memrev16ifbe ist (sizeof_intset + pos * 2).

Definition intsetNew : outcome (list Z) :=
  let ist := zmalloc sizeof_intset in
  ist ← set_encoding ist INTSET_ENC_INT16;
  store 4 ist 4 0.

Definition intsetResize (ist : list Z) (len : Z) : outcome (list Z) :=
  enc ← is_encoding ist;
  let size := u64 (u32 len * enc) in
  _ ← c_assert (size <=? SIZE_MAX - sizeof_intset);
  Ret (zrealloc ist (sizeof_intset + size)).

(** The binary search; the result is [(min, mid, cur)] when the loop ends. *)
Fixpoint intsetSearch_loop (fuel : nat) (ist : list Z) (value min max mid cur : Z)
    : outcome (Z * Z * Z) :=
  if min <=? max then
    match fuel with
    | O => OutOfFuel
    | S fuel =>
        let mid := s32 (u32 (u32 min + u32 max) / 2) in
        cur ← _intsetGet ist mid;
        if cur <? value then intsetSearch_loop fuel ist value (s32 (mid + 1)) max mid cur
        else if value <? cur then intsetSearch_loop fuel ist value min (s32 (mid - 1)) mid cur
        else Ret (min, mid, cur)
    end
  else Ret (min, mid, cur).

(** The return value and [*pos]. *)
Definition intsetSearch (ist : list Z) (value : Z) : outcome (bool * Z) :=
  length ← is_length ist;
  let max := s32 (u32 (length - 1)) in
  if length =? 0 then Ret (false, 0)
  else
    last ← _intsetGet ist max;
    if last <? value then Ret (false, length)
    else
      first ← _intsetGet ist 0;
      if value <? first then Ret (false, 0)
      else
        r ← intsetSearch_loop (Z.to_nat length) ist value 0 max (-1) (-1);
        let '(min, mid, cur) := r in
        if value =? cur then Ret (true, u32 mid) else Ret (false, u32 min).

(** [while(length--) _intsetSet(is,length+prepend,_intsetGetEncoded(is,length,curenc));] *)
Fixpoint intsetUpgrade_loop (length : nat) (ist : list Z) (prepend curenc : Z)
    : outcome (list Z) :=
  match length with
  | O => Ret ist
  | S length =>
      let pos := s32 (Z.of_nat length) in
      v ← _intsetGetEncoded ist pos curenc;
      ist ← _intsetSet ist (s32 (pos + prepend)) v;
      intsetUpgrade_loop length ist prepend curenc
  end.

Definition intsetUpgradeAndAdd (ist : list Z) (value : Z) : outcome (list Z) :=
  curenc ← is_encoding ist;
  let newenc := _intsetValueEncoding value in
  length ← is_length ist;
  let prepend := if value <? 0 then 1 else 0 in
  ist ← set_encoding ist newenc;
  ist ← intsetResize ist (u32 (length + 1));
  ist ← intsetUpgrade_loop (Z.to_nat length) ist prepend (u8 curenc);
  ist ← (if prepend =? 1 then _intsetSet ist 0 value
        else l ← is_length ist; _intsetSet ist (s32 l) value);
  l ← is_length ist;
  set_length ist (l + 1).

Definition intsetMoveTail (ist : list Z) (from to : Z) : outcome (list Z) :=
  length ← is_length ist;
  let bytes := u32 (length - from) in
  encoding ← is_encoding ist;
  let sz := if encoding =? INTSET_ENC_INT64 then 8
            else if encoding =? INTSET_ENC_INT32 then 4 else 2 in
  memmove ist (sizeof_intset + to * sz) (sizeof_intset + from * sz) (u32 (bytes * sz)).

(** The new block and [*success]. *)
Definition intsetAdd (ist : list Z) (value : Z) : outcome (list Z * bool) :=
  let valenc := _intsetValueEncoding value in
  encoding ← is_encoding ist;
  if encoding <? valenc then
    ist ← intsetUpgradeAndAdd ist value; Ret (ist, true)
  else
    r ← intsetSearch ist value;
    let '(found, pos) := r in
    if (found : bool) then Ret (ist, false)
    else
      length ← is_length ist;
      ist ← intsetResize ist (u32 (length + 1));
      ist ← (if pos <? length then intsetMoveTail ist pos (u32 (pos + 1)) else Ret ist);
      ist ← _intsetSet ist (s32 pos) value;
      length ← is_length ist;
      ist ← set_length ist (length + 1);
      Ret (ist, true).

Definition intsetRemove (ist : list Z) (value : Z) : outcome (list Z * bool) :=
  let valenc := _intsetValueEncoding value in
  encoding ← is_encoding ist;
  if valenc <=? encoding then
    r ← intsetSearch ist value;
    let '(found, pos) := r in
    if (found : bool) then
      len ← is_length ist;
      ist ← (if pos <? u32 (len - 1) then intsetMoveTail ist (u32 (pos + 1)) pos else Ret ist);
      ist ← intsetResize ist (u32 (len - 1));
      ist ← set_length ist (len - 1);
      Ret (ist, true)
    else Ret (ist, false)
  else Ret (ist, false).

Definition intsetFind (ist : list Z) (value : Z) : outcome bool :=
  let valenc := _intsetValueEncoding value in
  encoding ← is_encoding ist;
  if valenc <=? encoding then r ← intsetSearch ist value; Ret r.1 else Ret false.

(** [rand()] is an argument. *)
Definition intsetRandom (ist : list Z) (rand : Z) : outcome Z :=
  len ← is_length ist;
  _ ← c_assert (negb (len =? 0));
  _intsetGet ist (s32 (rand mod len)).

(** [Some v]: the function returns 1 and sets [*value]. *)
Definition intsetGet (ist : list Z) (pos : Z) : outcome (option Z) :=
  length ← is_length ist;
  if pos <? length then v ← _intsetGet ist (s32 pos); Ret (Some v) else Ret None.

Definition intsetLen (ist : list Z) : outcome Z := is_length ist.

Definition intsetBlobLen (ist : list Z) : outcome Z :=
  length ← is_length ist;
  encoding ← is_encoding ist;
  Ret (u64 (sizeof_intset + u64 (length * encoding))).

(** [for (i=1; i<count; i++)] with [n] iterations left. *)
Fixpoint intsetValidate_loop (n : nat) (ist : list Z) (i prev : Z) : outcome bool :=
  match n with
  | O => Ret true
  | S n =>
      cur ← _intsetGet ist (s32 i);
      if cur <=? prev then Ret false
      else intsetValidate_loop n ist (i + 1) cur
  end.

Definition intsetValidateIntegrity (p : list Z) (size : Z) (deep : bool) : outcome bool :=
  if size <? sizeof_intset then Ret false
  else
    encoding ← is_encoding p;
    let record_size :=
      if encoding =? INTSET_ENC_INT64 then Some INTSET_ENC_INT64
      else if encoding =? INTSET_ENC_INT32 then Some INTSET_ENC_INT32
      else if encoding =? INTSET_ENC_INT16 then Some INTSET_ENC_INT16
      else None in
    match record_size with
    | None => Ret false
    | Some record_size =>
        count ← is_length p;
        if negb (u64 (sizeof_intset + u64 (count * record_size)) =? size) then Ret false
        else if count =? 0 then Ret false
        else if negb deep then Ret true
        else
          prev ← _intsetGet p 0;
          intsetValidate_loop (Z.to_nat (count - 1)) p 1 prev
    end.

(** * The abstract set *)

(** Element size in bytes: the encoding. *)
Definition enc_ok (n : nat) : Prop := n = 2%nat ∨ n = 4%nat ∨ n = 8%nat.

Definition fits (n : nat) (v : Z) : Prop :=
  - 2 ^ (8 * Z.of_nat n - 1) <= v < 2 ^ (8 * Z.of_nat n - 1).

Fixpoint elems (n : nat) (vs : list Z) : list Z :=
  match vs with
  | [] => []
  | v :: vs => le_enc n v ++ elems n vs
  end.

(** A block: header fields and the bytes that follow. *)
Definition layout (n : nat) (len : Z) (data : list Z) : list Z :=
  le_enc 4 (Z.of_nat n) ++ le_enc 4 len ++ data.

(** Block [b] holds exactly the set [vs]. *)
Definition rep (vs : list Z) (b : list Z) : Prop :=
  ∃ n, enc_ok n ∧ b = layout n (zlen vs) (elems n vs) ∧
    Forall (fits n) vs ∧ StronglySorted Z.lt vs.

(** The bound below which the 32-bit byte counts of [intsetMoveTail] do not
    wrap. *)
Definition small (vs : list Z) : Prop := 8 * (zlen vs + 1) < 2 ^ 32.

(** * Header and elements *)

Lemma zlen_elems n vs : zlen (elems n vs) = Z.of_nat n * zlen vs.
Proof.
  induction vs as [|v vs IH]; simpl; [zl|].
  rewrite zlen_app, IH, zlen_le_enc, zlen_cons. lia.
Qed.

Lemma elems_app n vs ws : elems n (vs ++ ws) = elems n vs ++ elems n ws.
Proof. induction vs as [|v vs IH]; simpl; [done|]. by rewrite IH, app_assoc. Qed.

Lemma elems_cons n v ws : elems n (v :: ws) = le_enc n v ++ elems n ws.
Proof. reflexivity. Qed.

Lemma is_encoding_layout n len d :
  enc_ok n → is_encoding (layout n len d) = Ret (Z.of_nat n).
Proof.
  intros Hn. unfold is_encoding, load, layout.
  rewrite rdn_app0 by (zlr; done). run.
  rewrite intrev32ifbe_dec, le_dec_enc by side.
  rewrite Z.mod_small; [done|]. destruct Hn as [-> | [-> | ->]]; simpl; lia.
Qed.

Lemma is_length_layout n len d :
  0 <= len < 2 ^ 32 → is_length (layout n len d) = Ret len.
Proof.
  intros Hn. unfold is_length, load, layout.
  rewrite rdn_app by (zlr; done). run.
  rewrite intrev32ifbe_dec, le_dec_enc by side.
  by rewrite Z.mod_small.
Qed.

Lemma set_length_layout n len d v :
  0 <= v < 2 ^ 32 → set_length (layout n len d) v = Ret (layout n v d).
Proof.
  intros Hv. unfold set_length. rewrite wrapu_id, store32_le by done.
  unfold st_le, layout. apply wrn_app; by zlr.
Qed.

Lemma set_encoding_layout n len d m :
  enc_ok m → set_encoding (layout n len d) (Z.of_nat m) = Ret (layout m len d).
Proof.
  intros Hm. assert (0 <= Z.of_nat m < 2 ^ 32) by (destruct Hm as [-> | [-> | ->]]; simpl; lia).
  unfold set_encoding. rewrite wrapu_id, store32_le by done.
  unfold st_le, layout. apply wrn_app0; by zlr.
Qed.

(** Decoding one element after the byte-order macro. *)
Lemma dec16 bs : bytes_ok bs → zlen bs = 2 →
  ∃ x, memrev16ifbe bs 0 = Ret x ∧ nat_dec x = le_dec bs.
Proof.
  intros Hb Hl. unfold memrev16ifbe, nat_dec. destruct big_endian; [|eauto].
  pose proof (memrev16_app [] bs [] 0) as E. rewrite !app_nil_r in E. simpl in E.
  rewrite E by done. eexists; split; [done|]. unfold be_dec. by rewrite reverse_involutive.
Qed.

Lemma dec32 bs : bytes_ok bs → zlen bs = 4 →
  ∃ x, memrev32ifbe bs 0 = Ret x ∧ nat_dec x = le_dec bs.
Proof.
  intros Hb Hl. unfold memrev32ifbe, nat_dec. destruct big_endian; [|eauto].
  pose proof (memrev32_app [] bs [] 0) as E. rewrite !app_nil_r in E. simpl in E.
  rewrite E by done. eexists; split; [done|]. unfold be_dec. by rewrite reverse_involutive.
Qed.

Lemma dec64 bs : bytes_ok bs → zlen bs = 8 →
  ∃ x, memrev64ifbe bs 0 = Ret x ∧ nat_dec x = le_dec bs.
Proof.
  intros Hb Hl. unfold memrev64ifbe, nat_dec. destruct big_endian; [|eauto].
  pose proof (memrev64_app [] bs [] 0) as E. rewrite !app_nil_r in E. simpl in E.
  rewrite E by done. eexists; split; [done|]. unfold be_dec. by rewrite reverse_involutive.
Qed.

(** [_intsetGetEncoded] reads the [n] bytes at [pos] as a signed integer. *)
Lemma getEncoded_bytes n ist pos m :
  enc_ok n → bytes_ok m →
  rdn ist (sizeof_intset + pos * Z.of_nat n) (Z.of_nat n) = Ret m →
  _intsetGetEncoded ist pos (Z.of_nat n) = Ret (wraps (8 * Z.of_nat n) (le_dec m)).
Proof.
  intros Hn Hm Hr. assert (zlen m = Z.of_nat n).
  { by apply rdn_inv in Hr as (_ & _ & _ & ? & ? & _ & _ & ?). }
  destruct Hn as [-> | [-> | ->]]; unfold _intsetGetEncoded.
  all: change (Z.of_nat 2) with 2 in *; change (Z.of_nat 4) with 4 in *;
    change (Z.of_nat 8) with 8 in *; simpl Z.eqb; cbv iota; rewrite Hr; run.
  - destruct (dec16 m) as (x & -> & Hx); [done..|]. simpl. by rewrite Hx.
  - destruct (dec32 m) as (x & -> & Hx); [done..|]. simpl. by rewrite Hx.
  - destruct (dec64 m) as (x & -> & Hx); [done..|]. simpl. by rewrite Hx.
Qed.

Lemma wraps_le_dec_enc n v :
  enc_ok n → fits n v → wraps (8 * Z.of_nat n) (le_dec (le_enc n v)) = v.
Proof.
  intros Hn Hv. assert (0 < Z.of_nat n) by (destruct Hn as [-> | [-> | ->]]; simpl; lia).
  rewrite le_dec_enc. change (v mod _) with (wrapu (8 * Z.of_nat n) v).
  rewrite wraps_wrapu by lia. apply wraps_id; [lia|done].
Qed.

Lemma getEncoded_elem n h l1 v c ist :
  enc_ok n → fits n v → zlen h = sizeof_intset → ist = h ++ elems n l1 ++ le_enc n v ++ c →
  _intsetGetEncoded ist (zlen l1) (Z.of_nat n) = Ret v.
Proof.
  intros Hn Hv Hh ->. rewrite (getEncoded_bytes n _ _ (le_enc n v)); auto with redis.
  - by rewrite wraps_le_dec_enc.
  - rewrite app_assoc. apply rdn_app; [|by rewrite zlen_le_enc].
    rewrite zlen_app, zlen_elems. lia.
Qed.

Lemma get_layout n len l1 v l2 :
  enc_ok n → fits n v →
  _intsetGet (layout n len (elems n (l1 ++ v :: l2))) (zlen l1) = Ret v.
Proof.
  intros Hn Hv. unfold _intsetGet. rewrite is_encoding_layout by done. run.
  rewrite wrapu_id by (destruct Hn as [-> | [-> | ->]]; simpl; lia).
  apply (getEncoded_elem n (le_enc 4 (Z.of_nat n) ++ le_enc 4 len) l1 v (elems n l2)); try done.
  unfold layout. by rewrite elems_app, elems_cons, !app_assoc.
Qed.

Lemma set_layout n len a m c v pos :
  enc_ok n → zlen m = Z.of_nat n → zlen a = pos * Z.of_nat n →
  _intsetSet (layout n len (a ++ m ++ c)) pos v = Ret (layout n len (a ++ le_enc n v ++ c)).
Proof.
  intros Hn Hm Ha. unfold _intsetSet. rewrite is_encoding_layout by done. run.
  unfold layout. set (h := le_enc 4 (Z.of_nat n) ++ le_enc 4 len).
  assert (zlen h = sizeof_intset) as Hh by done.
  assert (∀ m, le_enc 4 (Z.of_nat n) ++ le_enc 4 len ++ a ++ m ++ c = (h ++ a) ++ m ++ c) as E
    by (intros; unfold h; by rewrite <- !app_assoc).
  rewrite !E. clearbody h. set (p := h ++ a) in *.
  assert (zlen p = sizeof_intset + pos * Z.of_nat n) as Hp by (unfold p; zlr; lia).
  clearbody p. unfold sizeof_intset in *.
  destruct Hn as [-> | [-> | ->]]; simpl Z.eqb; cbv iota; unfold store;
    rewrite wrn_app by (rewrite ?zlen_nat_enc; done); simpl;
    unfold memrev16ifbe, memrev32ifbe, memrev64ifbe, nat_enc; destruct big_endian; try done.
  - rewrite memrev16_app by side. by rewrite reverse_be_enc.
  - rewrite memrev32_app by side. by rewrite reverse_be_enc.
  - rewrite memrev64_app by side. by rewrite reverse_be_enc.
Qed.

(** * Searching *)

Lemma get_lookup n len vs i v :
  enc_ok n → Forall (fits n) vs → 0 <= i → vs !! Z.to_nat i = Some v →
  _intsetGet (layout n len (elems n vs)) i = Ret v.
Proof.
  intros Hn Hf Hi Hv. pose proof (lookup_lt_Some _ _ _ Hv).
  assert (fits n v) by (by eapply Forall_lookup_1 in Hf).
  rewrite <- (take_drop_middle vs (Z.to_nat i) v Hv).
  pose proof (get_layout n len (take (Z.to_nat i) vs) v (drop (S (Z.to_nat i)) vs)) as E.
  rewrite zlen_take in E by zl. by apply E.
Qed.

Lemma sorted_lt vs i j x y :
  StronglySorted Z.lt vs → vs !! i = Some x → vs !! j = Some y → (i < j)%nat → x < y.
Proof.
  intros Hs. revert i j. induction Hs as [|v vs Hs IH Hf]; intros i j Hi Hj Hij; [done|].
  destruct j as [|j]; [lia|]. destruct i as [|i]; simpl in *.
  - injection Hi as ->. by eapply Forall_lookup_1 in Hf.
  - apply (IH i j); [done..|lia].
Qed.

Lemma sorted_not_elem vs v i :
  StronglySorted Z.lt vs →
  (∀ j x, vs !! j = Some x → (j < i)%nat → x < v) →
  (∀ j x, vs !! j = Some x → (i <= j)%nat → v < x) → v ∉ vs.
Proof.
  intros Hs H1 H2 [j Hj]%list_elem_of_lookup.
  destruct (decide (j < i)%nat) as [Hl|Hl]; [specialize (H1 j v Hj Hl)|specialize (H2 j v Hj)]; lia.
Qed.

(** What a search reports: whether [v] is there, and where it goes. *)
Definition search_spec (vs : list Z) (v : Z) (r : bool * Z) : Prop :=
  ∃ l1 l2, vs = l1 ++ l2 ∧ r = (bool_decide (v ∈ vs), zlen l1) ∧
    Forall (λ x, x < v) l1 ∧ (if r.1 then head l2 = Some v else Forall (λ x, v < x) l2).

Lemma search_miss vs v i :
  StronglySorted Z.lt vs → 0 <= i <= zlen vs →
  (∀ j x, vs !! j = Some x → (j < Z.to_nat i)%nat → x < v) →
  (∀ j x, vs !! j = Some x → (Z.to_nat i <= j)%nat → v < x) →
  search_spec vs v (false, i).
Proof.
  intros Hs Hi H1 H2. exists (take (Z.to_nat i) vs), (drop (Z.to_nat i) vs).
  rewrite take_drop, zlen_take by done. repeat split.
  - rewrite bool_decide_eq_false_2; [done|by eapply sorted_not_elem].
  - apply Forall_lookup_2. intros j x [Hx ?]%lookup_take_Some. eauto.
  - simpl. apply Forall_lookup_2. intros j x Hx. rewrite lookup_drop in Hx. eapply H2; [done|lia].
Qed.

Lemma search_hit vs v i :
  StronglySorted Z.lt vs → 0 <= i → vs !! Z.to_nat i = Some v → search_spec vs v (true, i).
Proof.
  intros Hs Hi Hv. pose proof (lookup_lt_Some _ _ _ Hv).
  exists (take (Z.to_nat i) vs), (drop (Z.to_nat i) vs).
  rewrite take_drop, zlen_take by zl. repeat split.
  - rewrite bool_decide_eq_true_2; [done|]. apply list_elem_of_lookup. eauto.
  - apply Forall_lookup_2. intros j x [Hx ?]%lookup_take_Some. by eapply sorted_lt.
  - simpl. by rewrite head_lookup, lookup_drop, Nat.add_0_r.
Qed.

Lemma search_loop_spec n len vs v fuel min max mid cur :
  enc_ok n → Forall (fits n) vs → StronglySorted Z.lt vs → zlen vs < 2 ^ 31 →
  0 <= min → max < zlen vs → min <= max + 1 → (Z.to_nat (max - min + 1) <= fuel)%nat →
  (∀ j x, vs !! j = Some x → (j < Z.to_nat min)%nat → x < v) →
  (∀ j x, vs !! j = Some x → (Z.to_nat (max + 1) <= j)%nat → v < x) →
  (min <= max ∨ cur ≠ v) →
  ∃ min' mid' cur',
    intsetSearch_loop fuel (layout n len (elems n vs)) v min max mid cur = Ret (min', mid', cur') ∧
    search_spec vs v (if v =? cur' then (true, u32 mid') else (false, u32 min')).
Proof.
  intros Hn Hf Hs Hl. revert min max mid cur.
  induction fuel as [|fuel IH]; intros min max mid cur Hmin Hmax Hmm Hfuel H1 H2 Hcur; simpl.
  - test (min <=? max) false. eexists _, _, _; split; [done|]. test (v =? cur) false.
    assert (max + 1 = min) as E by lia. rewrite E in H2.
    machine. apply search_miss; (done || lia).
  - case_cond; to_prop.
    2: { eexists _, _, _; split; [done|]. test (v =? cur) false.
         assert (max + 1 = min) as E by lia. rewrite E in H2.
         machine. apply search_miss; (done || lia). }
    pose proof (Z.div_mod (min + max) 2) as Hdm. pose proof (Z.mod_pos_bound (min + max) 2).
    set (m := (min + max) / 2) in *.
    assert (s32 (u32 (u32 min + u32 max) / 2) = m) as Em.
    { rewrite !wrapu_id by (rewrite ?wrapu_id by lia; lia). fold m. by rewrite wraps_id by (simpl; lia). }
    rewrite !Em. destruct (lookup_lt_is_Some_2 vs (Z.to_nat m)) as [c Hm]; [zl|].
    rewrite (get_lookup n len vs m c) by (done || lia). run.
    destruct (Z.ltb_spec c v); [|destruct (Z.ltb_spec v c)].
    + machine. apply IH; try lia; [|done].
      intros j x Hx Hj. destruct (decide (j = Z.to_nat m)) as [->|]; [by simplify_eq|].
      pose proof (sorted_lt vs j (Z.to_nat m) x c Hs Hx Hm). lia.
    + machine. apply IH; try lia; [done|].
      intros j x Hx Hj. replace (m - 1 + 1) with m in Hj by lia.
      destruct (decide (j = Z.to_nat m)) as [->|]; [by simplify_eq|].
      pose proof (sorted_lt vs (Z.to_nat m) j c x Hs Hm Hx). lia.
    + assert (c = v) as -> by lia. eexists _, _, _; split; [done|].
      rewrite Z.eqb_refl. machine. apply search_hit; (done || lia).
Qed.

Lemma search_layout n vs v :
  enc_ok n → Forall (fits n) vs → StronglySorted Z.lt vs → zlen vs < 2 ^ 31 →
  ∃ r, intsetSearch (layout n (zlen vs) (elems n vs)) v = Ret r ∧ search_spec vs v r.
Proof.
  intros Hn Hf Hs Hl. unfold intsetSearch. pose proof (zlen_nonneg vs).
  rewrite is_length_layout by lia. run.
  destruct (Z.eqb_spec (zlen vs) 0) as [E|E].
  { eexists; split; [done|]. apply zlen_zero in E as ->. by apply (search_miss [] v 0). }
  machine.
  destruct (lookup_lt_is_Some_2 vs (Z.to_nat (zlen vs - 1))) as [c Hc]; [zl|].
  rewrite (get_lookup n _ vs (zlen vs - 1) c) by (done || lia). run.
  destruct (Z.ltb_spec c v).
  { eexists; split; [done|]. apply search_miss; try lia; [done| |].
    - intros j x Hx ?. destruct (decide (j = Z.to_nat (zlen vs - 1))) as [->|]; [by simplify_eq|].
      pose proof (sorted_lt vs j _ x c Hs Hx Hc). lia.
    - intros j x Hx%lookup_lt_Some ?. zl. }
  destruct (lookup_lt_is_Some_2 vs (Z.to_nat 0)) as [d Hd]; [zl|].
  rewrite (get_lookup n _ vs 0 d) by (done || lia). run.
  change (Z.to_nat 0) with 0%nat in Hd.
  destruct (Z.ltb_spec v d).
  { eexists; split; [done|]. apply search_miss; try lia; [done|].
    intros j x Hx ?. destruct (decide (j = 0%nat)) as [->|]; [by simplify_eq|].
    pose proof (sorted_lt vs _ j d x Hs Hd Hx). lia. }
  destruct (search_loop_spec n (zlen vs) vs v (Z.to_nat (zlen vs)) 0 (zlen vs - 1) (-1) (-1))
    as (a & m & c' & -> & Hr); try lia; try done.
  - intros j x Hx%lookup_lt_Some ?. zl.
  - run. eexists; split; [|exact Hr]. by destruct (v =? c').
Qed.

(** * Resizing and moving *)

Lemma enc_bounds n : enc_ok n → 2 <= Z.of_nat n <= 8.
Proof. intros [-> | [-> | ->]]; simpl; lia. Qed.

Lemma enc_size n : enc_ok n →
  (if Z.of_nat n =? INTSET_ENC_INT64 then 8
   else if Z.of_nat n =? INTSET_ENC_INT32 then 4 else 2) = Z.of_nat n.
Proof. by intros [-> | [-> | ->]]. Qed.

Lemma resize_layout n len d l :
  enc_ok n → 0 <= l < 2 ^ 32 →
  intsetResize (layout n len d) l = Ret (zrealloc (layout n len d) (sizeof_intset + l * Z.of_nat n)).
Proof.
  intros Hn Hl. pose proof (enc_bounds n Hn). unfold intsetResize.
  rewrite is_encoding_layout by done. run. rewrite !wrapu_id by (rewrite ?wrapu_id; nia).
  rewrite c_assert_true; [done|]. unfold SIZE_MAX, sizeof_intset. nia.
Qed.

Lemma zlen_iset n len d : zlen (layout n len d) = sizeof_intset + zlen d.
Proof. unfold layout, sizeof_intset. zlr. lia. Qed.

Lemma layout_app n len d g : layout n len d ++ g = layout n len (d ++ g).
Proof. unfold layout. by rewrite <- !app_assoc. Qed.

Lemma resize_grow {L : AllocatorLaws A} n len d l :
  enc_ok n → 0 <= l < 2 ^ 32 → zlen d <= l * Z.of_nat n →
  ∃ g, intsetResize (layout n len d) l = Ret (layout n len (d ++ g)) ∧
    zlen g = l * Z.of_nat n - zlen d.
Proof.
  intros Hn Hl Hd. rewrite resize_layout by done.
  destruct (zrealloc_grow (layout n len d) (sizeof_intset + l * Z.of_nat n)) as (g & -> & Hg & _).
  { rewrite zlen_iset. lia. }
  exists g. rewrite layout_app. split; [done|]. rewrite zlen_iset in Hg. lia.
Qed.

Lemma resize_cut {L : AllocatorLaws A} n len d g l :
  enc_ok n → 0 <= l < 2 ^ 32 → zlen d = l * Z.of_nat n →
  intsetResize (layout n len (d ++ g)) l = Ret (layout n len d).
Proof.
  intros Hn Hl Hd. rewrite resize_layout by done.
  rewrite <- layout_app, zrealloc_app by (rewrite zlen_iset; lia). done.
Qed.

(** Opening a gap of one element before [ws]. *)
Lemma moveTail_right n l1 ws g :
  enc_ok n → 8 * (zlen l1 + zlen ws) < 2 ^ 32 → zlen g = Z.of_nat n →
  ∃ x, zlen x = Z.of_nat n ∧
  intsetMoveTail (layout n (zlen l1 + zlen ws) (elems n (l1 ++ ws) ++ g)) (zlen l1) (zlen l1 + 1) =
    Ret (layout n (zlen l1 + zlen ws) (elems n l1 ++ x ++ elems n ws)).
Proof.
  intros Hn Hl Hg. pose proof (enc_bounds n Hn).
  pose proof (zlen_nonneg l1). pose proof (zlen_nonneg ws).
  destruct (zsplit (Z.of_nat n) (elems n ws ++ g)) as (x & y & E & Hx & Hy).
  { zlr. rewrite zlen_elems. nia. }
  exists x. split; [done|]. unfold intsetMoveTail.
  rewrite is_length_layout by lia. run. rewrite is_encoding_layout by done. run.
  rewrite enc_size by done.
  replace (zlen l1 + zlen ws - zlen l1) with (zlen ws) by lia.
  rewrite !wrapu_id by (rewrite ?wrapu_id; nia).
  rewrite zlen_app, zlen_elems in Hy.
  set (h := le_enc 4 (Z.of_nat n) ++ le_enc 4 (zlen l1 + zlen ws)).
  assert (zlen h = sizeof_intset) as Hh by done.
  erewrite (memmove_app _ _ _ _ (h ++ elems n l1) (elems n ws) g (h ++ elems n l1 ++ x) y []).
  - unfold layout, h. by rewrite app_nil_r, <- !app_assoc.
  - unfold layout, h. by rewrite elems_app, <- !app_assoc.
  - zlr. rewrite zlen_elems. lia.
  - rewrite zlen_elems. lia.
  - unfold layout, h. by rewrite app_nil_r, elems_app, <- !app_assoc, <- E.
  - zlr. rewrite zlen_elems. lia.
  - lia.
Qed.

(** Closing the gap left by a removed element [v]. *)
Lemma moveTail_left n l1 v ws :
  enc_ok n → 8 * (zlen l1 + 1 + zlen ws) < 2 ^ 32 →
  ∃ x, zlen x = Z.of_nat n ∧
  intsetMoveTail (layout n (zlen l1 + 1 + zlen ws) (elems n (l1 ++ v :: ws)))
    (zlen l1 + 1) (zlen l1) =
    Ret (layout n (zlen l1 + 1 + zlen ws) (elems n (l1 ++ ws) ++ x)).
Proof.
  intros Hn Hl. pose proof (enc_bounds n Hn).
  pose proof (zlen_nonneg l1). pose proof (zlen_nonneg ws).
  destruct (zsplit (zlen (elems n ws)) (le_enc n v ++ elems n ws)) as (y & x & E & Hy & Hx).
  { zlr. rewrite zlen_elems. nia. }
  rewrite zlen_app, zlen_le_enc in Hx.
  exists x. split; [lia|]. unfold intsetMoveTail.
  rewrite is_length_layout by lia. run. rewrite is_encoding_layout by done. run.
  rewrite enc_size by done.
  replace (zlen l1 + 1 + zlen ws - (zlen l1 + 1)) with (zlen ws) by lia.
  rewrite !wrapu_id by (rewrite ?wrapu_id; nia).
  set (h := le_enc 4 (Z.of_nat n) ++ le_enc 4 (zlen l1 + 1 + zlen ws)).
  assert (zlen h = sizeof_intset) as Hh by done.
  erewrite (memmove_app _ _ _ _ (h ++ elems n l1 ++ le_enc n v) (elems n ws) []
    (h ++ elems n l1) y x).
  - unfold layout, h. by rewrite elems_app, <- !app_assoc.
  - unfold layout, h. by rewrite elems_app, elems_cons, app_nil_r, <- !app_assoc.
  - zlr. rewrite zlen_elems. lia.
  - rewrite zlen_elems. lia.
  - unfold layout, h. by rewrite elems_app, elems_cons, E, <- !app_assoc.
  - zlr. rewrite zlen_elems. lia.
  - rewrite Hy, zlen_elems. lia.
Qed.

(** The conditional move of [intsetAdd] leaves one slot between [l1] and [l2]. *)
Lemma open_gap n l1 l2 g :
  enc_ok n → 8 * (zlen l1 + zlen l2) < 2 ^ 32 → zlen g = Z.of_nat n →
  ∃ x, zlen x = Z.of_nat n ∧
    (if zlen l1 <? zlen l1 + zlen l2
     then intsetMoveTail (layout n (zlen l1 + zlen l2) (elems n (l1 ++ l2) ++ g)) (zlen l1) (zlen l1 + 1)
     else Ret (layout n (zlen l1 + zlen l2) (elems n (l1 ++ l2) ++ g))) =
    Ret (layout n (zlen l1 + zlen l2) (elems n l1 ++ x ++ elems n l2)).
Proof.
  intros Hn Hl Hg. pose proof (zlen_nonneg l2).
  destruct (Z.ltb_spec (zlen l1) (zlen l1 + zlen l2)); [apply moveTail_right; (done || lia)|].
  assert (l2 = []) as -> by (apply zlen_zero; lia). exists g. split; [lia|].
  by rewrite !app_nil_r.
Qed.

(** The conditional move of [intsetRemove] leaves the dead bytes at the end. *)
Lemma close_gap n l1 v l2 :
  enc_ok n → 8 * (zlen l1 + 1 + zlen l2) < 2 ^ 32 →
  ∃ x, (if zlen l1 <? zlen l1 + 1 + zlen l2 - 1
        then intsetMoveTail (layout n (zlen l1 + 1 + zlen l2) (elems n (l1 ++ v :: l2))) (zlen l1 + 1) (zlen l1)
        else Ret (layout n (zlen l1 + 1 + zlen l2) (elems n (l1 ++ v :: l2)))) =
    Ret (layout n (zlen l1 + 1 + zlen l2) (elems n (l1 ++ l2) ++ x)).
Proof.
  intros Hn Hl. pose proof (zlen_nonneg l2).
  destruct (Z.ltb_spec (zlen l1) (zlen l1 + 1 + zlen l2 - 1)).
  - destruct (moveTail_left n l1 v l2) as (x & _ & ->); [done|lia|]. by exists x.
  - assert (l2 = []) as -> by (apply zlen_zero; lia). exists (le_enc n v).
    by rewrite elems_app, !app_nil_r, elems_cons, app_nil_r.
Qed.

(** * Upgrading *)

Lemma upgrade_loop c n l g done_ t p len :
  enc_ok c → enc_ok n → (c <= n)%nat → Forall (fits c) l →
  p = 0 ∨ p = 1 → zlen l < 2 ^ 31 - 1 →
  zlen (elems c l ++ g) = (zlen l + p) * Z.of_nat n →
  ∃ g', zlen g' = p * Z.of_nat n ∧
  intsetUpgrade_loop (length l) (layout n len (elems c l ++ g ++ elems n done_ ++ t)) p (Z.of_nat c) =
    Ret (layout n len (g' ++ elems n (l ++ done_) ++ t)).
Proof.
  intros Hc Hn Hcn. pose proof (enc_bounds c Hc). pose proof (enc_bounds n Hn).
  revert g done_. induction l as [|v l IH] using rev_ind; intros g done_ Hf Hp Hl Hg.
  - exists g. simpl in Hg. change (zlen []) with 0 in Hg. split; [lia|done].
  - rewrite length_app, Nat.add_1_r. simpl.
    apply Forall_app in Hf as [Hf Hv]. apply Forall_cons_1 in Hv as [Hv _]. zlr.
    pose proof (zlen_nonneg l). rewrite zlen_elems, zlen_app in Hg.
    change (zlen [v]) with 1 in *.
    rewrite elems_app. simpl elems. rewrite app_nil_r, <- !app_assoc.
    change (Z.of_nat (length l)) with (zlen l). rewrite !wraps_id by (rewrite ?wraps_id; simpl; lia).
    rewrite (getEncoded_elem c (le_enc 4 (Z.of_nat n) ++ le_enc 4 len) l v
      (g ++ elems n done_ ++ t)) by (done || (unfold layout; by rewrite <- !app_assoc)).
    run.
    destruct (zsplit ((zlen l + p) * Z.of_nat n) (elems c l ++ le_enc c v ++ g)) as (a & m & E & Ha & Hm).
    { zlr. rewrite zlen_elems. nia. }
    zlr. rewrite zlen_elems in Hm.
    replace (elems c l ++ le_enc c v ++ g ++ elems n done_ ++ t)
      with (a ++ m ++ elems n done_ ++ t) by (rewrite app_assoc, <- E, <- !app_assoc; done).
    rewrite set_layout by (done || lia). run.
    assert (∃ g1, a = elems c l ++ g1) as [g1 ->].
    { destruct (zsplit (zlen (elems c l)) a) as (a1 & g1 & -> & Ha1 & _).
      { pose proof (zlen_nonneg (elems c l)). rewrite zlen_elems in *. nia. }
      exists g1. rewrite <- app_assoc in E. apply zapp_inj in E as [-> _]; [done|lia]. }
    rewrite <- app_assoc.
    replace (le_enc n v ++ elems n done_ ++ t) with (elems n (v :: done_) ++ t)
      by (simpl; by rewrite <- app_assoc).
    destruct (IH g1 (v :: done_)) as (g' & Hg' & ->); [done|done|lia|lia|].
    by exists g'.
Qed.

(** * The operations refine the abstract set *)

Lemma value_encoding v :
  fits 8 v → ∃ m, _intsetValueEncoding v = Z.of_nat m ∧ enc_ok m ∧
    (∀ n, enc_ok n → fits n v ↔ (m <= n)%nat).
Proof.
  intros Hv. unfold _intsetValueEncoding, fits, INT32_MIN, INT32_MAX, INT16_MIN, INT16_MAX in *.
  simpl in Hv.
  destruct (orb _ _) eqn:E1; [exists 8%nat|destruct (orb _ _) eqn:E2 in |- *; [exists 4%nat|exists 2%nat]];
    (split; [done|]; split; [by (left + (right; left) + (right; right))|]);
    intros n [-> | [-> | ->]]; simpl; lia.
Qed.

Lemma fits_mono n m v : enc_ok n → enc_ok m → (n <= m)%nat → fits n v → fits m v.
Proof.
  intros [-> | [-> | ->]] [-> | [-> | ->]] Hle; unfold fits; simpl; lia.
Qed.

Lemma insert_sorted l1 l2 v :
  StronglySorted Z.lt (l1 ++ l2) → Forall (λ x, x < v) l1 → Forall (λ x, v < x) l2 →
  StronglySorted Z.lt (l1 ++ v :: l2).
Proof.
  induction l1 as [|x l1 IH]; simpl; intros Hs H1 H2.
  - by constructor.
  - apply StronglySorted_inv in Hs as [Hs Hx]. apply Forall_cons_1 in H1 as [Hxv H1].
    constructor; [by apply IH|]. apply Forall_app in Hx as [Hx1 Hx2].
    apply Forall_app; split; [done|]. by constructor.
Qed.

Lemma remove_sorted l1 l2 v :
  StronglySorted Z.lt (l1 ++ v :: l2) → StronglySorted Z.lt (l1 ++ l2).
Proof.
  induction l1 as [|x l1 IH]; simpl; intros Hs; apply StronglySorted_inv in Hs as [Hs Hx]; [done|].
  constructor; [by apply IH|]. apply Forall_app in Hx as [? [? ?]%Forall_cons_1].
  by apply Forall_app.
Qed.

Lemma remove_distinct l1 l2 v :
  StronglySorted Z.lt (l1 ++ v :: l2) → v ∉ l1 ++ l2.
Proof.
  intros Hs Hin. apply elem_of_app in Hin as [Hin|Hin].
  - induction l1 as [|x l1 IH]; [by apply elem_of_nil in Hin|]. simpl in Hs.
    apply StronglySorted_inv in Hs as [Hs Hx]. apply elem_of_cons in Hin as [->|Hin]; [|by apply IH].
    apply Forall_app in Hx as [_ [Hx _]%Forall_cons_1]. lia.
  - assert (StronglySorted Z.lt (v :: l2)) as [_ Hf]%StronglySorted_inv.
    { clear Hin. induction l1 as [|x l1 IH]; [done|]. apply IH. by apply StronglySorted_inv in Hs as [? _]. }
    rewrite Forall_forall in Hf. specialize (Hf v Hin). lia.
Qed.

Lemma upgrade_layout {L : AllocatorLaws A} c n vs v :
  enc_ok c → enc_ok n → (c <= n)%nat → _intsetValueEncoding v = Z.of_nat n →
  Forall (fits c) vs → small vs →
  intsetUpgradeAndAdd (layout c (zlen vs) (elems c vs)) v =
    Ret (layout n (zlen vs + 1) (elems n (if v <? 0 then v :: vs else vs ++ [v]))).
Proof.
  intros Hc Hn Hcn Hv Hf Hs. unfold small in Hs.
  pose proof (enc_bounds c Hc). pose proof (enc_bounds n Hn). pose proof (zlen_nonneg vs).
  unfold intsetUpgradeAndAdd. rewrite is_encoding_layout by done. run.
  rewrite is_length_layout by lia. run. rewrite Hv, set_encoding_layout by done. run.
  rewrite !wrapu_id by lia.
  destruct (resize_grow n (zlen vs) (elems c vs) (zlen vs + 1)) as (g & -> & Hg);
    [done|lia|rewrite zlen_elems; nia|]. rewrite zlen_elems in Hg. run.
  replace (Z.to_nat (zlen vs)) with (length vs) by (unfold zlen; lia).
  destruct (Z.ltb_spec v 0) as [Hneg|Hpos]; simpl Z.eqb; cbv iota.
  - destruct (upgrade_loop c n vs g [] [] 1 (zlen vs)) as (g' & Hg' & E);
      [done..|by right|lia|zlr; rewrite zlen_elems; lia|].
    rewrite !app_nil_r in E. rewrite E. run.
    rewrite <- (app_nil_l (g' ++ _)), set_layout by (done || lia). run.
    rewrite is_length_layout by lia. run. by rewrite set_length_layout by lia.
  - destruct (zsplit (zlen vs * Z.of_nat n - Z.of_nat c * zlen vs) g) as (g1 & g2 & -> & Hg1 & Hg2);
      [nia|].
    destruct (upgrade_loop c n vs g1 [] g2 0 (zlen vs)) as (g' & Hg' & E);
      [done..|by left|lia|zlr; rewrite zlen_elems; lia|].
    rewrite app_nil_l, app_nil_r in E. rewrite E. run.
    apply zlen_zero in Hg' as ->. rewrite is_length_layout by lia. run.
    rewrite wraps_id by (simpl; lia). rewrite app_nil_l, <- (app_nil_r (_ ++ g2)), <- app_assoc.
    rewrite set_layout by (rewrite ?zlen_elems; done || lia). run.
    rewrite is_length_layout by lia. run. rewrite set_length_layout by lia.
    by rewrite elems_app.
Qed.

Lemma rep_elem_fits vs b v : rep vs b → v ∈ vs → fits 8 v.
Proof.
  intros (n & Hn & _ & Hf & _) Hv. rewrite Forall_forall in Hf.
  apply (fits_mono n 8); [done|by right; right| |by apply Hf].
  destruct Hn as [-> | [-> | ->]]; lia.
Qed.

Lemma upgrade_sorted n m vs v :
  enc_ok n → enc_ok m → (∀ k, enc_ok k → fits k v ↔ (m <= k)%nat) → (n < m)%nat →
  Forall (fits n) vs → StronglySorted Z.lt vs →
  (v ∉ vs) ∧ StronglySorted Z.lt (if v <? 0 then v :: vs else vs ++ [v]).
Proof.
  intros Hn Hm Hv Hnm Hf Hs.
  assert (~ fits n v) as Hnf by (rewrite Hv by done; lia).
  assert (∀ x, x ∈ vs → fits n x) as Hx by (by apply Forall_forall).
  split; [by intros ?%Hx|]. unfold fits in *.
  assert (0 < 2 ^ (8 * Z.of_nat n - 1)) by (apply Z.pow_pos_nonneg; [lia|];
    destruct Hn as [-> | [-> | ->]]; simpl; lia).
  destruct (Z.ltb_spec v 0).
  - constructor; [done|]. apply Forall_forall. intros x ?%Hx. lia.
  - replace (vs ++ [v]) with (vs ++ v :: []) by done.
    apply insert_sorted; [by rewrite app_nil_r| |done].
    apply Forall_forall. intros x ?%Hx. lia.
Qed.

(** [intsetAdd] on a block that holds the set [vs] returns a block that
    holds [vs] with [value] added, in order and without duplicates, upgrading
    the encoding when the value needs it; [*success] says whether the value
    was new.  This holds on hosts of either byte order, for any 64-bit value
    and sets below 2^29 elements (where the 32-bit byte counts are exact). *)
Theorem intsetAdd_refines {L : AllocatorLaws A} vs b value :
  rep vs b → fits 8 value → small vs →
  ∃ b' vs', intsetAdd b value = Ret (b', bool_decide (value ∉ vs)) ∧
    rep vs' b' ∧ (∀ x, x ∈ vs' ↔ x = value ∨ x ∈ vs).
Proof.
  intros (n & Hn & -> & Hf & Hs) Hv Hsm.
  destruct (value_encoding value Hv) as (m & Em & Hm & Hmf).
  pose proof (zlen_nonneg vs). unfold intsetAdd. rewrite is_encoding_layout, Em by done. run.
  destruct (Z.ltb_spec (Z.of_nat n) (Z.of_nat m)) as [Hlt|Hge].
  - destruct (upgrade_sorted n m vs value) as [Hni Hso]; [done..|lia|done|done|].
    rewrite (upgrade_layout n m) by (done || lia). run.
    rewrite bool_decide_eq_true_2 by done.
    eexists _, (if value <? 0 then value :: vs else vs ++ [value]).
    split; [done|]. split; [|destruct (value <? 0); set_solver].
    exists m. split; [done|]. repeat split; [|destruct (value <? 0)|done].
    + f_equal. destruct (value <? 0); zlr; lia.
    + constructor; [apply Hmf; done|]. eapply Forall_impl; [done|]. intros x. apply fits_mono; (done || lia).
    + apply Forall_app; split; [|by constructor; [apply Hmf|]].
      eapply Forall_impl; [done|]. intros x. apply fits_mono; (done || lia).
  - unfold small in Hsm. destruct (search_layout n vs value) as (r & -> & l1 & l2 & -> & -> & H1 & H2);
      [done..|lia|]. run. simpl in H2. zlr. pose proof (zlen_nonneg l1). pose proof (zlen_nonneg l2).
    case_bool_decide as Hin.
    { rewrite bool_decide_eq_false_2 by tauto. eexists _, (l1 ++ l2); split; [done|].
      split; [exists n; by zlr|]. set_solver. }
    rewrite bool_decide_eq_true_2 by done.
    rewrite is_length_layout by lia. run. rewrite !wrapu_id by lia.
    pose proof (enc_bounds n Hn).
    destruct (resize_grow n (zlen l1 + zlen l2) (elems n (l1 ++ l2)) (zlen l1 + zlen l2 + 1)) as (g & -> & Hg);
      [done|lia|rewrite zlen_elems; zlr; nia|]. rewrite zlen_elems in Hg. zlr. run.
    destruct (open_gap n l1 l2 g) as (x & Hx & ->); [done|lia|lia|].
    run. rewrite wraps_id by (simpl; lia).
    rewrite set_layout by (rewrite ?zlen_elems; done || lia). run.
    rewrite is_length_layout by lia. run. rewrite set_length_layout by lia. run.
    eexists _, (l1 ++ value :: l2); split; [done|]. split; [|set_solver].
    exists n. repeat split; [done| | |by apply insert_sorted].
    + rewrite elems_app, elems_cons. f_equal. zlr. lia.
    + apply Forall_app in Hf as [? ?]. apply Forall_app; split; [done|].
      constructor; [apply Hmf; [done|lia]|done].
Qed.

(** [intsetRemove] on a block that holds [vs] returns a block that holds
    [vs] without [value], and [*success] says whether it was there. *)
Theorem intsetRemove_refines {L : AllocatorLaws A} vs b value :
  rep vs b → fits 8 value → small vs →
  ∃ b' vs', intsetRemove b value = Ret (b', bool_decide (value ∈ vs)) ∧
    rep vs' b' ∧ (∀ x, x ∈ vs' ↔ x ≠ value ∧ x ∈ vs).
Proof.
  intros Hr Hv Hsm. pose proof Hr as (n & Hn & -> & Hf & Hs).
  destruct (value_encoding value Hv) as (m & Em & Hm & Hmf).
  pose proof (zlen_nonneg vs). unfold intsetRemove. rewrite is_encoding_layout, Em by done. run.
  destruct (Z.leb_spec (Z.of_nat m) (Z.of_nat n)) as [Hle|Hgt].
  2: { assert (value ∉ vs) as Hni.
       { rewrite Forall_forall in Hf. intros Hin%Hf. apply Hmf in Hin; [lia|done]. }
       rewrite bool_decide_eq_false_2 by done. eexists _, vs; split; [done|]. split; [done|]. set_solver. }
  unfold small in Hsm. destruct (search_layout n vs value) as (r & -> & l1 & l2 & -> & -> & H1 & H2);
    [done..|lia|]. run. simpl in H2.
  case_bool_decide as Hin.
  2: { eexists _, (l1 ++ l2); split; [done|]. split; [done|]. set_solver. }
  destruct l2 as [|w l2]; [done|]. injection H2 as ->. zlr.
  pose proof (zlen_nonneg l1). pose proof (zlen_nonneg l2). pose proof (enc_bounds n Hn).
  rewrite is_length_layout by lia. run. rewrite !wrapu_id by lia.
  replace (zlen l1 + (1 + zlen l2)) with (zlen l1 + 1 + zlen l2) by lia.
  destruct (close_gap n l1 value l2) as (x & ->); [done|lia|].
  run. rewrite resize_cut by (rewrite ?zlen_elems; zlr; done || lia). run.
  rewrite set_length_layout by lia. run.
  pose proof (remove_distinct l1 l2 value Hs) as Hnd.
  eexists _, (l1 ++ l2); split; [done|]. split; [|set_solver].
  exists n. repeat split; [done| | |by eapply remove_sorted].
  - f_equal. zlr. lia.
  - apply Forall_app in Hf as [? [? ?]%Forall_cons_1]. by apply Forall_app.
Qed.

(** Membership: on a block that holds [vs], [intsetFind] (a binary
    search) returns whether the value is in [vs], and [intsetGet] returns the
    element at a position exactly when the position is below the length. *)
Theorem intsetFind_spec vs b value pos :
  rep vs b → fits 8 value → small vs → 0 <= pos →
  intsetFind b value = Ret (bool_decide (value ∈ vs)) ∧
  intsetGet b pos = Ret (vs !! Z.to_nat pos).
Proof.
  intros (n & Hn & -> & Hf & Hs) Hv Hsm Hp. unfold small in Hsm. pose proof (zlen_nonneg vs).
  destruct (value_encoding value Hv) as (m & Em & Hm & Hmf). split.
  - unfold intsetFind. rewrite is_encoding_layout, Em by done. run.
    destruct (Z.leb_spec (Z.of_nat m) (Z.of_nat n)) as [Hle|Hgt].
    + destruct (search_layout n vs value) as (r & -> & l1 & l2 & E & -> & _); [done..|lia|]. done.
    + rewrite bool_decide_eq_false_2; [done|].
      rewrite Forall_forall in Hf. intros Hin%Hf. apply Hmf in Hin; [lia|done].
  - unfold intsetGet. rewrite is_length_layout by lia. run.
    destruct (Z.ltb_spec pos (zlen vs)).
    + destruct (lookup_lt_is_Some_2 vs (Z.to_nat pos)) as [v Hl]; [zl|].
      rewrite wraps_id by (simpl; lia). by rewrite (get_lookup n _ vs pos v), Hl.
    + rewrite lookup_ge_None_2; [done|zl].
Qed.

(** A new intset is empty, and the size queries agree with the set: the
    length is the number of elements and the blob length is the size of the
    block. *)
Theorem intset_sizes {L : AllocatorLaws A} vs b :
  rep vs b → small vs →
  (∃ b0, intsetNew = Ret b0 ∧ rep [] b0) ∧
  intsetLen b = Ret (zlen vs) ∧ intsetBlobLen b = Ret (zlen b).
Proof.
  intros (n & Hn & -> & Hf & Hs) Hsm. unfold small in Hsm. pose proof (zlen_nonneg vs).
  pose proof (enc_bounds n Hn). repeat split.
  - unfold intsetNew, set_encoding.
    rewrite wrapu_id, store32_le by (unfold INTSET_ENC_INT16; lia). unfold st_le.
    destruct (zsplit 4 (zmalloc sizeof_intset)) as (x & y & E & Hx & Hy);
      [by rewrite zlen_zmalloc|]. rewrite zlen_zmalloc in Hy by done. rewrite E.
    rewrite wrn_app0 by (zlr; done). run. unfold store. rewrite <- (app_nil_r y).
    rewrite wrn_app by (rewrite ?zlen_nat_enc; zlr; done).
    eexists; split; [done|]. exists 2%nat. split; [by left|]. split; [|by split; constructor].
    unfold nat_enc. by destruct big_endian.
  - unfold intsetLen. by rewrite is_length_layout by lia.
  - unfold intsetBlobLen. rewrite is_length_layout by lia. run.
    rewrite is_encoding_layout by done. run. unfold sizeof_intset.
    rewrite !wrapu_id by (rewrite ?wrapu_id; nia). rewrite zlen_iset, zlen_elems.
    unfold sizeof_intset. f_equal. lia.
Qed.

(** C1. An intset block refines a sorted set of integers: on hosts of either
    byte order, for any 64-bit value and sets below 2^29 elements (where the
    32-bit byte counts are exact), a new block is empty, [intsetAdd] returns a
    block that holds the set with the value, upgrading the encoding when the
    value needs it, [intsetRemove] one that holds the set without it, both say
    whether the set changed, [intsetFind] decides membership, [intsetGet] returns
    the element of a position and the size functions agree with the set. *)
Theorem intset_refines {L : AllocatorLaws A} vs b value pos :
  rep vs b → fits 8 value → small vs → 0 <= pos →
  (∃ b0, intsetNew = Ret b0 ∧ rep [] b0) ∧
  (∃ b' vs', intsetAdd b value = Ret (b', bool_decide (value ∉ vs)) ∧
     rep vs' b' ∧ (∀ x, x ∈ vs' ↔ x = value ∨ x ∈ vs)) ∧
  (∃ b' vs', intsetRemove b value = Ret (b', bool_decide (value ∈ vs)) ∧
     rep vs' b' ∧ (∀ x, x ∈ vs' ↔ x ≠ value ∧ x ∈ vs)) ∧
  intsetFind b value = Ret (bool_decide (value ∈ vs)) ∧
  intsetGet b pos = Ret (vs !! Z.to_nat pos) ∧
  intsetLen b = Ret (zlen vs) ∧ intsetBlobLen b = Ret (zlen b).
Proof.
  intros Hr Hv Hs Hp. destruct (intsetFind_spec vs b value pos Hr Hv Hs Hp) as [? ?].
  destruct (intset_sizes vs b Hr Hs) as (? & ? & ?).
  split_and!; auto using intsetAdd_refines, intsetRemove_refines.
Qed.

(** * Integrity of untrusted payloads *)

(** Any bytes of the right length are the image of some integers. *)
Lemma elems_parse n count d :
  enc_ok n → bytes_ok d → zlen d = Z.of_nat n * Z.of_nat count →
  ∃ vs, length vs = count ∧ d = elems n vs ∧ Forall (fits n) vs.
Proof.
  intros Hn. pose proof (enc_bounds n Hn). revert d. induction count as [|count IH]; intros d Hb Hd.
  - exists []. split; [done|]. split; [apply zlen_zero; lia|done].
  - destruct (zsplit (Z.of_nat n) d) as (x & y & -> & Hx & Hy); [lia|].
    apply Forall_app in Hb as [Hbx Hby]. destruct (IH y Hby) as (vs & <- & -> & Hf); [lia|].
    exists (wraps (8 * Z.of_nat n) (le_dec x) :: vs). split; [done|]. split.
    + rewrite elems_cons, le_enc_wraps by lia.
      assert (le_enc n (le_dec x) = x) as ->; [|done].
      replace n with (length x) by zl. by apply le_enc_dec.
    + constructor; [|done]. unfold fits. apply wraps_range. lia.
Qed.

Lemma layout_parse p :
  bytes_ok p → sizeof_intset <= zlen p →
  ∃ e count d, 0 <= e < 2 ^ 32 ∧ 0 <= count < 2 ^ 32 ∧ bytes_ok d ∧
    p = le_enc 4 e ++ le_enc 4 count ++ d.
Proof.
  intros Hb Hl. unfold sizeof_intset in Hl.
  destruct (zsplit 4 p) as (x & p1 & -> & Hx & Hp1); [lia|].
  destruct (zsplit 4 p1) as (y & d & -> & Hy & Hd); [lia|].
  unfold bytes_ok in Hb. rewrite !Forall_app in Hb. destruct Hb as (Hbx & Hby & Hbd).
  exists (le_dec x), (le_dec y), d.
  pose proof (le_dec_range x Hbx) as H1. pose proof (le_dec_range y Hby) as H2.
  rewrite Hx in H1. rewrite Hy in H2. repeat split; try lia; [done|].
  replace 4%nat with (length x) at 1 by zl. replace 4%nat with (length y) by zl.
  by rewrite !le_enc_dec.
Qed.

Lemma validate_loop n len l1 x l2 :
  enc_ok n → Forall (fits n) (l1 ++ x :: l2) → zlen (l1 ++ x :: l2) <= 2 ^ 31 →
  ∃ r, intsetValidate_loop (length l2) (layout n len (elems n (l1 ++ x :: l2))) (zlen l1 + 1) x = Ret r ∧
    (r = true ↔ StronglySorted Z.lt (x :: l2)).
Proof.
  intros Hn. revert l1 x. induction l2 as [|y l2 IH]; intros l1 x Hf Hl; simpl.
  - exists true. split; [done|]. split; [|done]. by repeat constructor.
  - pose proof (zlen_nonneg l1). pose proof (zlen_nonneg l2).
    assert (l1 ++ x :: y :: l2 = (l1 ++ [x]) ++ y :: l2) as E by (by rewrite <- app_assoc).
    rewrite E in *. zlr. rewrite wraps_id by (simpl; lia).
    replace (zlen l1 + 1) with (zlen (l1 ++ [x])) by zl.
    rewrite get_layout; [|done|by apply Forall_app in Hf as [_ [? _]%Forall_cons_1]]. run.
    destruct (Z.leb_spec y x).
    + exists false. split; [done|]. split; [done|].
      intros [_ [? _]%Forall_cons_1]%StronglySorted_inv. lia.
    + destruct (IH (l1 ++ [x]) y) as (r & -> & Hr); [done|zlr; lia|].
      exists r. split; [done|]. rewrite Hr. split.
      * intros Hs. constructor; [done|]. apply StronglySorted_inv in Hs as Hs'. destruct Hs' as [_ Hf2].
        constructor; [done|]. eapply Forall_impl; [done|]. simpl. lia.
      * by intros [? _]%StronglySorted_inv.
Qed.

(** A position of 2^31 is negative as an [int]: the element is read before the
    block. *)
Lemma get_negative n len d : enc_ok n → _intsetGet (layout n len d) (s32 (2 ^ 31)) = Fault.
Proof.
  intros Hn. unfold _intsetGet. rewrite is_encoding_layout by done. run. change (s32 (2 ^ 31)) with (- 2 ^ 31).
  unfold _intsetGetEncoded. destruct Hn as [-> | [-> | ->]]; cbn [Z.of_nat Pos.of_succ_nat Pos.succ]; done.
Qed.

Lemma validate_over n len l1 x m1 y m2 :
  enc_ok n → Forall (fits n) (l1 ++ x :: m1 ++ y :: m2) → zlen (l1 ++ x :: m1) = 2 ^ 31 →
  let run := intsetValidate_loop (length (m1 ++ y :: m2)) (layout n len (elems n (l1 ++ x :: m1 ++ y :: m2))) (zlen l1 + 1) x in
  run = Fault ∧ StronglySorted Z.lt (x :: m1) ∨ run = Ret false ∧ ¬ StronglySorted Z.lt (x :: m1).
Proof.
  intros Hn. revert l1 x. induction m1 as [|z m1 IH]; intros l1 x Hf Hl; cbn [app length intsetValidate_loop] in *.
  - left. split; [|by repeat constructor]. replace (zlen l1 + 1) with (2 ^ 31) by (zlr; lia). by rewrite get_negative.
  - pose proof (zlen_nonneg l1). pose proof (zlen_nonneg m1).
    assert (∀ r, l1 ++ x :: z :: r = (l1 ++ [x]) ++ z :: r) as E by (intros; by rewrite <- app_assoc).
    rewrite E in *. zlr. rewrite wraps_id by (simpl; lia).
    replace (zlen l1 + 1) with (zlen (l1 ++ [x])) by zl.
    rewrite get_layout; [|done|by apply Forall_app in Hf as [_ [? _]%Forall_cons_1]]. run.
    destruct (Z.leb_spec z x).
    + right. split; [done|]. intros [_ [? _]%Forall_cons_1]%StronglySorted_inv. lia.
    + destruct (IH (l1 ++ [x]) z) as [[-> Hs]|[-> Hs]]; [done|zlr; lia|left|right]; (split; [done|]).
      * constructor; [done|]. apply StronglySorted_inv in Hs as Hs'. destruct Hs' as [_ Hf2].
        constructor; [done|]. eapply Forall_impl; [done|]. simpl. lia.
      * by intros [? _]%StronglySorted_inv.
Qed.

Lemma enc_ok_fields e p :
  0 <= e < 2 ^ 32 →
  (∃ n, enc_ok n ∧ e = Z.of_nat n) ∨
  (e ≠ INTSET_ENC_INT64 ∧ e ≠ INTSET_ENC_INT32 ∧ e ≠ INTSET_ENC_INT16 ∧
   ∀ c n len d, p = le_enc 4 e ++ c → enc_ok n → p ≠ layout n len d).
Proof.
  intros He. unfold INTSET_ENC_INT64, INTSET_ENC_INT32, INTSET_ENC_INT16.
  destruct (decide (e = 8)) as [->|]; [left; exists 8%nat; split; [by right; right|done]|].
  destruct (decide (e = 4)) as [->|]; [left; exists 4%nat; split; [by right; left|done]|].
  destruct (decide (e = 2)) as [->|]; [left; exists 2%nat; split; [by left|done]|].
  right. repeat split; [done..|]. intros c k len d -> Hn E. unfold layout in E.
  apply zapp_inj in E as [E _]; [|by zlr]. apply (f_equal le_dec) in E. rewrite !le_dec_enc in E.
  destruct Hn as [-> | [-> | ->]]; rewrite !Z.mod_small in E; simpl in *; lia.
Qed.

Lemma layout_inj n m c1 c2 d1 d2 :
  layout n c1 d1 = layout m c2 d2 → enc_ok n → enc_ok m → 0 <= c1 < 2 ^ 32 → 0 <= c2 < 2 ^ 32 → n = m ∧ c1 = c2 ∧ d1 = d2.
Proof.
  intros E Hn Hm H1 H2. pose proof (enc_bounds n Hn). pose proof (enc_bounds m Hm). unfold layout in E.
  apply zapp_inj in E as [E1 E]; [|by zlr]. apply zapp_inj in E as [E2 E]; [|by zlr].
  apply (f_equal le_dec) in E1, E2. rewrite !le_dec_enc in E1, E2.
  rewrite !Z.mod_small in E1, E2 by (simpl; lia). apply Nat2Z.inj in E1. by subst.
Qed.

Lemma rep_layout_inv vs n c d :
  rep vs (layout n c d) → enc_ok n → 0 <= c < 2 ^ 32 → zlen vs < 2 ^ 32 →
  c = zlen vs ∧ d = elems n vs ∧ Forall (fits n) vs ∧ StronglySorted Z.lt vs.
Proof.
  intros (m & Hm & E & Hf & Hs) Hn Hc Hl. pose proof (zlen_nonneg vs). by apply layout_inj in E as (-> & -> & ->).
Qed.

Lemma elems_inj n vs ws :
  enc_ok n → Forall (fits n) vs → Forall (fits n) ws → length vs = length ws →
  elems n vs = elems n ws → vs = ws.
Proof.
  intros Hn Hv. revert ws. induction Hv as [|v vs Hv _ IH]; intros [|w ws] Hw Hl E; try done.
  apply Forall_cons_1 in Hw as [Hw Hws]. rewrite !elems_cons in E.
  apply zapp_inj in E as [E1 E2]; [|by zlr]. injection Hl as Hl. f_equal; [|by apply IH].
  rewrite <- (wraps_le_dec_enc n v), <- (wraps_le_dec_enc n w) by done. by rewrite E1.
Qed.

(** More than 2^31 elements, the first 2^31 of them in order. *)
Definition overlong (p : list Z) : Prop :=
  ∃ n l1 y l2, enc_ok n ∧ Forall (fits n) (l1 ++ y :: l2) ∧ StronglySorted Z.lt l1 ∧ zlen l1 = 2 ^ 31 ∧
    zlen (l1 ++ y :: l2) < 2 ^ 32 ∧ p = layout n (zlen (l1 ++ y :: l2)) (elems n (l1 ++ y :: l2)).

(** The nonempty sets that the header can describe. *)
Definition holds_set (p : list Z) : Prop := ∃ vs, vs ≠ [] ∧ zlen vs < 2 ^ 32 ∧ rep vs p.

Definition validates (p : list Z) : Prop :=
  (¬ overlong p → ∃ r, intsetValidateIntegrity p (zlen p) true = Ret r ∧ (r = true ↔ holds_set p)) ∧
  (overlong p → intsetValidateIntegrity p (zlen p) true = Fault) ∧
  (∃ r', intsetValidateIntegrity p (zlen p) false = Ret r' ∧ (holds_set p ∨ overlong p → r' = true)).

Lemma overlong_layout n vs : enc_ok n → Forall (fits n) vs → zlen vs < 2 ^ 32 →
  overlong (layout n (zlen vs) (elems n vs)) ↔ ∃ l1 y l2, vs = l1 ++ y :: l2 ∧ zlen l1 = 2 ^ 31 ∧ StronglySorted Z.lt l1.
Proof.
  intros Hn Hf Hz. pose proof (zlen_nonneg vs). split.
  - intros (m & l1 & y & l2 & Hm & Hf2 & Hs & Hl1 & Hz2 & E). pose proof (zlen_nonneg (l1 ++ y :: l2)).
    apply layout_inj in E as (-> & E & E2); [|done..]. exists l1, y, l2. split; [|done].
    apply (elems_inj m); [done..| |done]. unfold zlen in E. lia.
  - intros (l1 & y & l2 & -> & Hl1 & Hs). exists n, l1, y, l2. by split_and!.
Qed.

(** Blocks that no elements fill exactly are rejected. *)
Lemma validates_none p :
  intsetValidateIntegrity p (zlen p) true = Ret false → intsetValidateIntegrity p (zlen p) false = Ret false →
  (∀ n vs, enc_ok n → vs ≠ [] → zlen vs < 2 ^ 32 → p ≠ layout n (zlen vs) (elems n vs)) → validates p.
Proof.
  intros E1 E2 Hno. assert (¬ holds_set p) as H1.
  { intros (vs & Hne & Hz & n & Hn & -> & _). by destruct (Hno n vs). }
  assert (¬ overlong p) as H2.
  { intros (n & l1 & y & l2 & Hn & _ & _ & _ & Hz & ->). by destruct (Hno n (l1 ++ y :: l2)); [|destruct l1|..]. }
  split_and!; [intros _; exists false; naive_solver|naive_solver|exists false; naive_solver].
Qed.

(** The deep check on a block that its elements fill. *)
Lemma validate_elements n x vs :
  enc_ok n → Forall (fits n) (x :: vs) → zlen (x :: vs) < 2 ^ 32 →
  let p := layout n (zlen (x :: vs)) (elems n (x :: vs)) in
  let run := intsetValidate_loop (length vs) p 1 x in
  (¬ overlong p → ∃ r, run = Ret r ∧ (r = true ↔ StronglySorted Z.lt (x :: vs))) ∧ (overlong p → run = Fault).
Proof.
  intros Hn Hf Hz p run. assert (Ho := overlong_layout n (x :: vs) Hn Hf Hz). fold p in Ho.
  destruct (Z.le_gt_cases (zlen (x :: vs)) (2 ^ 31)) as [Hs|Hs].
  - destruct (validate_loop n (zlen (x :: vs)) [] x vs Hn Hf Hs) as (r & Er & Hr). split; [intros _; by exists r|].
    intros (l1 & y & l2 & E & Hl1 & _)%Ho. rewrite E in Hs. zlr. pose proof (zlen_nonneg l2). lia.
  - destruct (zsplit (2 ^ 31 - 1) vs) as (m1 & m & -> & Hm1 & Hm); [zlr; lia|]. destruct m as [|y m2]; [zlr; lia|].
    destruct (validate_over n (zlen (x :: m1 ++ y :: m2)) [] x m1 y m2 Hn Hf) as [[Er Hso]|[Er Hso]]; [cbn [app]; zlr; lia|..];
      (change (run = Fault) in Er || change (run = Ret false) in Er).
    + split; [|done]. intros []. apply Ho. exists (x :: m1), y, m2. split_and!; [done|zlr; lia|done].
    + split; [intros _; exists false; split; [done|]; split; [done|]|].
      * intros Hall. destruct Hso. by apply (StronglySorted_app_1_l _ (x :: m1) (y :: m2)).
      * intros (l1 & z & l2 & E & Hl1 & Hso1)%Ho. destruct Hso.
        change (x :: m1 ++ y :: m2) with ((x :: m1) ++ y :: m2) in E. apply zapp_inj in E as [<- _]; [done|zlr; lia].
Qed.

(** The check on a block with a well-formed encoding field. *)
Lemma validate_layout n count d :
  enc_ok n → 0 <= count < 2 ^ 32 → bytes_ok d → validates (layout n count d).
Proof.
  intros Hn Hc Hd. pose proof (enc_bounds n Hn). pose proof (zlen_nonneg d).
  assert (Hfill : ∀ m vs, enc_ok m → zlen vs < 2 ^ 32 → layout n count d = layout m (zlen vs) (elems m vs) →
    m = n ∧ count = zlen vs ∧ zlen d = count * Z.of_nat n).
  { intros m vs Hm Hz E. pose proof (zlen_nonneg vs). apply layout_inj in E as (-> & -> & ->); [|done..].
    split_and!; [done..|]. rewrite zlen_elems. lia. }
  assert (Hdef : ∀ deep, intsetValidateIntegrity (layout n count d) (zlen (layout n count d)) deep =
    if negb (8 + count * Z.of_nat n =? 8 + zlen d) then Ret false
    else if count =? 0 then Ret false
    else if negb deep then Ret true
    else prev ← _intsetGet (layout n count d) 0; intsetValidate_loop (Z.to_nat (count - 1)) (layout n count d) 1 prev).
  { intros deep. unfold intsetValidateIntegrity. rewrite zlen_iset. unfold sizeof_intset. test (8 + zlen d <? 8) false.
    rewrite is_encoding_layout, is_length_layout by done. run.
    assert ((if Z.of_nat n =? INTSET_ENC_INT64 then Some INTSET_ENC_INT64
             else if Z.of_nat n =? INTSET_ENC_INT32 then Some INTSET_ENC_INT32
             else if Z.of_nat n =? INTSET_ENC_INT16 then Some INTSET_ENC_INT16 else None) =
            Some (Z.of_nat n)) as -> by (by destruct Hn as [-> | [-> | ->]]).
    by rewrite !wrapu_id by (rewrite ?wrapu_id; nia). }
  destruct (Z.eqb_spec (8 + count * Z.of_nat n) (8 + zlen d)) as [E|E]; cbn [negb] in Hdef.
  2: { apply validates_none; [apply Hdef..|]. intros m vs Hm _ Hz Ep. destruct (Hfill m vs Hm Hz Ep) as (_ & _ & ?). lia. }
  destruct (Z.eqb_spec count 0) as [->|Hc0].
  { apply validates_none; [apply Hdef..|]. intros m vs Hm Hne Hz Ep. destruct (Hfill m vs Hm Hz Ep) as (_ & E0 & _).
    destruct Hne. by apply zlen_zero. }
  destruct (elems_parse n (Z.to_nat count) d Hn Hd) as (vs & Hvs & -> & Hf); [lia|].
  assert (count = zlen vs) as -> by (unfold zlen; lia). destruct vs as [|x vs]; [done|].
  pose proof (get_layout n (zlen (x :: vs)) [] x vs) as G. change (zlen []) with 0 in G. cbn [app] in G.
  rewrite !G in Hdef by (done || by apply Forall_cons_1 in Hf as [? _]).
  replace (Z.to_nat (zlen (x :: vs) - 1)) with (length vs) in Hdef by zl.
  destruct (validate_elements n x vs Hn Hf) as [Hv1 Hv2]; [lia|]. split_and!.
  - intros Ho. destruct (Hv1 Ho) as (r & Er & Hr). exists r. rewrite Hdef. split; [exact Er|]. rewrite Hr. split.
    + intros Hso. exists (x :: vs). split_and!; [done|lia|]. by exists n.
    + intros (ws & _ & Hz & Hw). apply rep_layout_inv in Hw as (E0 & E1 & Hfw & Hso); [|done..].
      assert (x :: vs = ws) as ->; [|done]. apply (elems_inj n); try done. unfold zlen in E0. lia.
  - intros Ho. rewrite Hdef. exact (Hv2 Ho).
  - exists true. by rewrite Hdef.
Qed.

(** C2. [intsetValidateIntegrity] on any block of bytes of the given size: the deep
    check returns without reading outside the block and accepts exactly the
    blocks that represent a nonempty set, except for a block of more than 2^31
    elements of which the first 2^31 are in order.  There the position, an [int]
    in [_intsetGet], turns negative and the element is read before the block.  No
    block of at most 2^32 + 8 bytes is of this kind.  The shallow check always
    returns and accepts every block that represents a nonempty set. *)
Theorem intsetValidateIntegrity_exact p :
  bytes_ok p →
  (¬ overlong p → ∃ r, intsetValidateIntegrity p (zlen p) true = Ret r ∧ (r = true ↔ holds_set p)) ∧
  (overlong p → intsetValidateIntegrity p (zlen p) true = Fault) ∧
  (∃ r', intsetValidateIntegrity p (zlen p) false = Ret r' ∧ (holds_set p ∨ overlong p → r' = true)) ∧
  (zlen p <= 2 ^ 32 + 8 → ¬ overlong p).
Proof.
  intros Hb. assert (validates p) as (H1 & H2 & H3).
  2: { split_and!; [done..|]. intros Hl (n & l1 & y & l2 & Hn & _ & _ & Hz & _ & ->). rewrite zlen_iset, zlen_elems in Hl.
       pose proof (enc_bounds n Hn). pose proof (zlen_nonneg l2). unfold sizeof_intset in Hl. zlr. nia. }
  destruct (Z.ltb_spec (zlen p) sizeof_intset) as [Hs|Hs].
  { apply validates_none; [unfold intsetValidateIntegrity; by test (zlen p <? sizeof_intset) true..|].
    intros n vs _ _ _ ->. rewrite zlen_iset in Hs. pose proof (zlen_nonneg (elems n vs)). unfold sizeof_intset in Hs. lia. }
  destruct (layout_parse p Hb Hs) as (e & count & d & He & Hc & Hd & Ep).
  destruct (enc_ok_fields e p He) as [(n & Hn & ->)|(N8 & N4 & N2 & Hno)].
  - change (p = layout n count d) in Ep. subst p. by apply validate_layout.
  - assert (Hdef : ∀ deep, intsetValidateIntegrity p (zlen p) deep = Ret false).
    { intros deep. unfold intsetValidateIntegrity. test (zlen p <? sizeof_intset) false.
      assert (is_encoding p = Ret e) as ->.
      { unfold is_encoding, load. rewrite Ep, rdn_app0 by (zlr; done). run.
        rewrite intrev32ifbe_dec, le_dec_enc by side. by rewrite Z.mod_small. }
      run. test (e =? INTSET_ENC_INT64) false. test (e =? INTSET_ENC_INT32) false. by test (e =? INTSET_ENC_INT16) false. }
    apply validates_none; [apply Hdef..|]. intros n vs Hn _ _. by eapply Hno.
Qed.

End intset.

(** * Concrete runs *)

(** The block of the set {-5, 7} with 2-byte elements. *)
Definition demo : list Z := [2; 0; 0; 0; 2; 0; 0; 0; 251; 255; 7; 0].

Lemma demo_rep : rep [-5; 7] demo.
Proof.
  exists 2%nat. split; [by left|]. split; [done|]. split.
  - repeat constructor; unfold fits; simpl; lia.
  - repeat constructor; lia.
Qed.

Example add_run : @intsetAdd false exact_alloc demo 70000 =
  Ret ([4; 0; 0; 0; 3; 0; 0; 0; 251; 255; 255; 255; 7; 0; 0; 0; 112; 17; 1; 0], true).
Proof. vm_compute. reflexivity. Qed.

Lemma intset_refines_witness :
  (∃ b0, @intsetNew true exact_alloc = Ret b0 ∧ rep [] b0) ∧
  (∃ b' vs', @intsetAdd true exact_alloc demo 70000 = Ret (b', bool_decide (70000 ∉ [-5; 7])) ∧
     rep vs' b' ∧ (∀ x, x ∈ vs' ↔ x = 70000 ∨ x ∈ [-5; 7])) ∧
  (∃ b' vs', @intsetRemove true exact_alloc demo 70000 = Ret (b', bool_decide (70000 ∈ [-5; 7])) ∧
     rep vs' b' ∧ (∀ x, x ∈ vs' ↔ x ≠ 70000 ∧ x ∈ [-5; 7])) ∧
  @intsetFind true demo 70000 = Ret (bool_decide (70000 ∈ [-5; 7])) ∧
  @intsetGet true demo 1 = Ret ([-5; 7] !! Z.to_nat 1) ∧
  @intsetLen true demo = Ret (zlen [-5; 7]) ∧ @intsetBlobLen true demo = Ret (zlen demo).
Proof.
  apply (@intset_refines true exact_alloc exact_alloc_laws [-5; 7] demo 70000 1).
  - exact demo_rep.
  - unfold fits. simpl. lia.
  - unfold small. vm_compute. reflexivity.
  - lia.
Defined.

Lemma intsetValidateIntegrity_exact_witness :
  ∃ r, @intsetValidateIntegrity false demo (zlen demo) true = Ret r ∧ (r = true ↔ holds_set demo).
Proof.
  destruct (@intsetValidateIntegrity_exact false demo) as (Hdeep & _ & _ & Hsmall).
  - repeat constructor; unfold is_byte; lia.
  - apply Hdeep, Hsmall. vm_compute. discriminate.
Defined.

End Intset.
