(* ===== verification/Util.v ===== *)
(** Number and string conversions: [src/.../redis-6.2/src/util.c].

    The reference notion is [dec v], the canonical decimal representation of
    an integer (no leading zeros, no sign but ['-']).  The theorems show that
    the table-driven [ll2string] writes exactly [dec v], that [string2ll]
    accepts exactly the canonical representations of 64-bit integers, and
    that [digits10]/[sdigits10] compute their lengths. *)
From S2P Require Import Prelude.

Module Util.

Definition LLONG_MIN : Z := - 2 ^ 63.
Definition LLONG_MAX : Z := 2 ^ 63 - 1.
Definition ULLONG_MAX : Z := 2 ^ 64 - 1.
(** [long] has 64 bits. *)
Definition LONG_MIN : Z := - 2 ^ 63.
Definition LONG_MAX : Z := 2 ^ 63 - 1.

(** [mempbrk]: [Some j] stands for [&s[j]]. *)
Fixpoint mempbrk_in (c : Z) (chars : list Z) : bool :=
  match chars with
  | [] => false
  | ch :: chars => if c =? ch then true else mempbrk_in c chars
  end.

Fixpoint mempbrk_at (s chars : list Z) (j : Z) : option Z :=
  match s with
  | [] => None
  | c :: s => if mempbrk_in c chars then Some j else mempbrk_at s chars (j + 1)
  end.

Definition mempbrk (s chars : list Z) : option Z := mempbrk_at s chars 0.

(** [memmapchars]: the two sets have the same length [setlen]. *)
Fixpoint mapchar (c : Z) (set : list (Z * Z)) : Z :=
  match set with
  | [] => c
  | (from, to) :: set => if c =? from then to else mapchar c set
  end.

Definition memmapchars (s : list Z) (from to : list Z) : list Z :=
  (λ c, mapchar c (zip from to)) <$> s.

(** [digits10]: the recursive call divides by 10^12, so a 64-bit value
    recurses once. *)
Fixpoint digits10_fuel (fuel : nat) (v : Z) : Z :=
  if v <? 10 then 1
  else if v <? 100 then 2
  else if v <? 1000 then 3
  else if v <? 1000000000000 then
    if v <? 100000000 then
      if v <? 1000000 then
        if v <? 10000 then 4
        else 5 + b2z (100000 <=? v)
      else 7 + b2z (10000000 <=? v)
    else if v <? 10000000000 then 9 + b2z (1000000000 <=? v)
    else 11 + b2z (100000000000 <=? v)
  else
    match fuel with
    | O => 0
    | S fuel => 12 + digits10_fuel fuel (v / 1000000000000)
    end.

Definition digits10 (v : Z) : Z := digits10_fuel 1 v.

Definition sdigits10 (v : Z) : Z :=
  if v <? 0 then
    let uv := if negb (v =? LLONG_MIN) then u64 (- v) else u64 LLONG_MAX + 1 in
    digits10 uv + 1
  else digits10 v.

Definition digits : list Z :=
  cstr "0001020304050607080910111213141516171819" ++
  cstr "2021222324252627282930313233343536373839" ++
  cstr "4041424344454647484950515253545556575859" ++
  cstr "6061626364656667686970717273747576777879" ++
  cstr "8081828384858687888990919293949596979899".

(** [while (value >= 100)]; returns [dst], [value] and [next]. *)
Fixpoint ll2string_loop (fuel : nat) (dst : list Z) (value next : Z)
    : outcome (list Z * Z * Z) :=
  if 100 <=? value then
    match fuel with
    | O => OutOfFuel
    | S fuel =>
        let i := (value mod 100) * 2 in
        let value := value / 100 in
        d1 ← rd digits (i + 1);
        dst ← wr dst next d1;
        d0 ← rd digits i;
        dst ← wr dst (u32 (next - 1)) d0;
        ll2string_loop fuel dst value (u32 (next - 2))
    end
  else Ret (dst, value, next).

(** The destination after the call and the return value. *)
Definition ll2string (dst : list Z) (dstlen svalue : Z) : outcome (list Z * Z) :=
  let '(value, negative) :=
    if svalue <? 0 then
      (if negb (svalue =? LLONG_MIN) then u64 (- svalue) else u64 LLONG_MAX + 1, 1)
    else (svalue, 0) in
  let length := u32 (digits10 value + negative) in
  if dstlen <=? length then Ret (dst, 0)
  else
    let next := length in
    dst ← wr dst next 0;
    let next := u32 (next - 1) in
    r ← ll2string_loop 10 dst value next;
    let '(dst, value, next) := r in
    dst ← (if value <? 10 then wr dst next (48 + value)
           else
             let i := value * 2 in
             d1 ← rd digits (i + 1);
             dst ← wr dst next d1;
             d0 ← rd digits i;
             wr dst (u32 (next - 1)) d0);
    dst ← (if negative =? 1 then wr dst 0 45 else Ret dst);
    Ret (dst, length).

(** [while (plen < slen && p[0] >= '0' && p[0] <= '9')]; [None]: overflow. *)
Fixpoint string2ll_loop (fuel : nat) (s : list Z) (slen plen v : Z)
    : outcome (option (Z * Z)) :=
  if plen <? slen then
    match fuel with
    | O => OutOfFuel
    | S fuel =>
        c ← rd s plen;
        if (48 <=? c) && (c <=? 57) then
          if ULLONG_MAX / 10 <? v then Ret None
          else
            let v := u64 (v * 10) in
            if ULLONG_MAX - (c - 48) <? v then Ret None
            else
              let v := u64 (v + (c - 48)) in
              string2ll_loop fuel s slen (plen + 1) v
        else Ret (Some (plen, v))
    end
  else Ret (Some (plen, v)).

(** [Some v]: the function returns 1 and sets [*value]. *)
Definition string2ll (s : list Z) (slen : Z) : outcome (option Z) :=
  if slen =? 0 then Ret None
  else
    c ← rd s 0;
    if (slen =? 1) && (c =? 48) then Ret (Some 0)
    else
      let negative := c =? 45 in
      let plen := if negative then 1 else 0 in
      if negative && (plen =? slen) then Ret None
      else
        c ← rd s plen;
        if (49 <=? c) && (c <=? 57) then
          r ← string2ll_loop (Z.to_nat slen) s slen (plen + 1) (c - 48);
          match r with
          | None => Ret None
          | Some (plen, v) =>
              if plen <? slen then Ret None
              else if negative then
                if u64 (- (LLONG_MIN + 1)) + 1 <? v then Ret None
                else Ret (Some (s64 (u64 (- v))))
              else
                if LLONG_MAX <? v then Ret None else Ret (Some v)
          end
        else Ret None.

Definition string2l (s : list Z) (slen : Z) : outcome (option Z) :=
  llval ← string2ll s slen;
  match llval with
  | None => Ret None
  | Some llval =>
      if (llval <? LONG_MIN) || (LONG_MAX <? llval) then Ret None
      else Ret (Some llval)
  end.

(** * Canonical decimal representations *)

(** Digits of a nonnegative integer, most significant first; [n] bounds their
    number. *)
Fixpoint udec_n (n : nat) (v : Z) : list Z :=
  match n with
  | O => []
  | S n => (if v <? 10 then [] else udec_n n (v / 10)) ++ [48 + v mod 10]
  end.

(** 20 digits are enough for 64 bits. *)
Definition udec (v : Z) : list Z := udec_n 20 v.

Definition dec (v : Z) : list Z := if v <? 0 then 45 :: udec (- v) else udec v.

Definition int64 (v : Z) : Prop := LLONG_MIN <= v <= LLONG_MAX.

(** * Facts about decimal representations *)

Lemma udec_n_enough n m v :
  0 <= v < 10 ^ Z.of_nat n → 0 <= v < 10 ^ Z.of_nat m → (0 < n)%nat → (0 < m)%nat →
  udec_n n v = udec_n m v.
Proof.
  revert m v. induction n as [|n IH]; intros [|m] v Hn Hm Pn Pm; try lia. simpl.
  destruct (Z.ltb_spec v 10); [done|]. f_equal.
  rewrite Nat2Z.inj_succ, Z.pow_succ_r in Hn, Hm by lia.
  pose proof (Z.div_pos v 10). pose proof (Z.mul_div_le v 10).
  assert (0 < n)%nat by (destruct n; [simpl in Hn; lia|lia]).
  assert (0 < m)%nat by (destruct m; [simpl in Hm; lia|lia]).
  apply IH; [split; [lia|] | split; [lia|] | done | done].
  all: apply Z.div_lt_upper_bound; lia.
Qed.

Lemma udec_n_S n v :
  udec_n (S n) v = (if v <? 10 then [] else udec_n n (v / 10)) ++ [48 + v mod 10].
Proof. reflexivity. Qed.

Lemma udec_unfold v :
  0 <= v < 10 ^ 20 → udec v = (if v <? 10 then [] else udec (v / 10)) ++ [48 + v mod 10].
Proof.
  intros Hv. unfold udec. rewrite (udec_n_S 19 v). destruct (Z.ltb_spec v 10); [done|].
  rewrite (udec_n_enough 19 20 (v / 10)); [done| | |lia|lia];
    (split; [apply Z.div_pos; lia|]); apply Z.div_lt_upper_bound; simpl; lia.
Qed.

Lemma udec_n_max n v : zlen (udec_n n v) <= Z.of_nat n.
Proof.
  revert v. induction n as [|n IH]; intros v; [done|]. rewrite udec_n_S.
  specialize (IH (v / 10)). case_cond; zl.
Qed.

Lemma udec_max v : zlen (udec v) <= 20.
Proof. apply udec_n_max. Qed.

#[local] Opaque udec.

Lemma udec_small v : 0 <= v < 10 → udec v = [48 + v].
Proof.
  intros. rewrite udec_unfold by lia. test (v <? 10) true. by rewrite Z.mod_small.
Qed.

Lemma udec_snoc w d :
  0 < w → 0 <= d < 10 → 10 * w + d < 10 ^ 20 → udec (10 * w + d) = udec w ++ [48 + d].
Proof.
  intros Hw Hd Hb. rewrite udec_unfold by lia. test (10 * w + d <? 10) false.
  replace (10 * w + d) with (w * 10 + d) by lia.
  rewrite Z.div_add_l, Z.div_small, Z.add_0_r by lia.
  replace ((w * 10 + d) mod 10) with d; [done|].
  by rewrite (Z.add_comm (w * 10)), Z.mod_add, Z.mod_small by lia.
Qed.

(** The length is determined by the powers of ten around the value. *)
Lemma udec_length k v :
  0 < k <= 20 → 0 <= v < 10 ^ k → (k = 1 ∨ 10 ^ (k - 1) <= v) → zlen (udec v) = k.
Proof.
  intros Hk. revert v. replace k with (Z.of_nat (S (Z.to_nat (k - 1)))) by lia.
  assert (Z.to_nat (k - 1) < 20)%nat by lia. generalize dependent (Z.to_nat (k - 1)).
  clear k Hk. intros n. induction n as [|n IH]; intros Hn v Hv Hk.
  - rewrite udec_small; [done|]. simpl in Hv. lia.
  - replace (Z.of_nat (S (S n)) - 1) with (Z.of_nat (S n)) in Hk by lia.
    rewrite Nat2Z.inj_succ, Z.pow_succ_r in Hv by lia.
    assert (10 ^ Z.of_nat (S n) <= 10 ^ 19) by (apply Z.pow_le_mono_r; lia).
    destruct Hk as [Hk|Hk]; [lia|].
    assert (10 ^ Z.of_nat (S n) = 10 * 10 ^ Z.of_nat n) as E
      by (rewrite Nat2Z.inj_succ, Z.pow_succ_r; lia).
    assert (0 < 10 ^ Z.of_nat n) by (apply Z.pow_pos_nonneg; lia).
    rewrite udec_unfold by lia. test (v <? 10) false. rewrite zlen_app, IH.
    + change (zlen [_]) with 1. lia.
    + lia.
    + split; [apply Z.div_pos; lia|]. apply Z.div_lt_upper_bound; lia.
    + right. replace (Z.of_nat (S n) - 1) with (Z.of_nat n) by lia.
      apply Z.div_le_lower_bound; lia.
Qed.

(** The digits counted by [digits10]. *)
Definition digit_count (v d : Z) : Prop :=
  0 < d ∧ 0 <= v < 10 ^ d ∧ (d = 1 ∨ 10 ^ (d - 1) <= v).

Lemma digits10_small f v : 0 <= v < 10 ^ 12 → digit_count v (digits10_fuel f v).
Proof.
  intros Hv. unfold digit_count. destruct f; cbn [digits10_fuel];
    repeat case_cond; to_prop; unfold b2z; repeat case_cond; to_prop; simpl; lia.
Qed.

Lemma digits10_count v : 0 <= v < 2 ^ 64 → digit_count v (digits10 v).
Proof.
  intros Hv. destruct (Z.ltb_spec v (10 ^ 12)) as [Hs|Hs]; [apply digits10_small; lia|].
  assert (digit_count (v / 1000000000000) (digits10_fuel 0 (v / 1000000000000))) as Hd.
  { apply digits10_small. split; [apply Z.div_pos; lia|].
    apply Z.div_lt_upper_bound; simpl in *; lia. }
  unfold digits10. cbn [digits10_fuel] in Hd |- *. simpl in Hs.
  do 4 (case_cond; to_prop; [lia|]).
  set (d := if v / 1000000000000 <? 10 then 1 else _) in *. clearbody d.
  destruct Hd as (Hd & Hlt & Hge). unfold digit_count.
  rewrite Z.pow_add_r by lia. change (10 ^ 12) with 1000000000000.
  assert (v = 1000000000000 * (v / 1000000000000) + v mod 1000000000000) by (apply Z.div_mod; lia).
  pose proof (Z.mod_pos_bound v 1000000000000).
  split; [lia|]. split; [lia|]. right.
  replace (12 + d - 1) with (12 + (d - 1)) by lia. rewrite Z.pow_add_r by lia.
  change (10 ^ 12) with 1000000000000. destruct Hge as [->|Hge]; [simpl; lia|].
  apply Z.le_trans with (1000000000000 * (v / 1000000000000)); [|lia].
  apply Z.mul_le_mono_nonneg_l; lia.
Qed.

Lemma digits10_udec v : 0 <= v < 2 ^ 64 → digits10 v = zlen (udec v).
Proof.
  intros Hv. destruct (digits10_count v Hv) as (Hd & Hlt & Hge).
  symmetry. apply udec_length; [|done|done]. split; [done|].
  destruct (Z.le_gt_cases (digits10 v) 20) as [?|Hgt]; [done|]. destruct Hge as [?|Hge]; [lia|].
  assert (10 ^ 20 <= 10 ^ (digits10 v - 1)) by (apply Z.pow_le_mono_r; lia). lia.
Qed.

Lemma udec_bounds v : 0 <= v < 2 ^ 64 → 1 <= zlen (udec v) <= 20.
Proof.
  intros Hv. split.
  - rewrite udec_unfold by lia. zlr. change (zlen [_]) with 1.
    pose proof (zlen_nonneg (if v <? 10 then [] else udec (v / 10))). lia.
  - apply udec_max.
Qed.

(** * [ll2string] *)

(** The table holds the two digits of every number below 100. *)
Lemma digits_table k :
  0 <= k < 100 → rd digits (k * 2) = Ret (48 + k / 10) ∧ rd digits (k * 2 + 1) = Ret (48 + k mod 10).
Proof.
  intros Hk. replace k with (Z.of_nat (Z.to_nat k)) by lia.
  assert (Z.to_nat k < 100)%nat as Hn by lia. revert Hn. generalize (Z.to_nat k). clear k Hk.
  intros n Hn. do 100 (destruct n as [|n]; [vm_compute; done|]). lia.
Qed.

Lemma udec_two v :
  100 <= v < 2 ^ 64 →
  udec v = udec (v / 100) ++ [48 + (v mod 100) / 10; 48 + (v mod 100) mod 10].
Proof.
  intros Hv. dm v 10.
  rewrite udec_unfold by lia. test (v <? 10) false. rewrite udec_unfold by lia.
  test (v / 10 <? 10) false. rewrite Z.div_div by lia. rewrite <- app_assoc. simpl app.
  change (10 * 10) with 100. dm (v / 10) 10.
  assert (v mod 100 = v mod 10 + 10 * ((v / 10) mod 10)) as ->.
  { change 100 with (10 * 10). by rewrite Z.rem_mul_r. }
  rewrite <- (Z.div_unique (v mod 10 + 10 * ((v / 10) mod 10)) 10 ((v / 10) mod 10) (v mod 10)) by lia.
  by rewrite <- (Z.mod_unique (v mod 10 + 10 * ((v / 10) mod 10)) 10 ((v / 10) mod 10) (v mod 10)) by lia.
Qed.

Lemma udec_low2 v :
  10 <= v < 100 → udec v = [48 + v / 10; 48 + v mod 10].
Proof.
  intros Hv. dm v 10.
  rewrite udec_unfold by lia. test (v <? 10) false. by rewrite udec_small by lia.
Qed.

(** Two table digits written at the end of the hole [m]. *)
Lemma write2 a m x y c next d0 d1 :
  is_byte d0 → is_byte d1 → next = zlen a + zlen m + 1 → 0 < next < 2 ^ 32 →
  (dst ← wr (a ++ m ++ x :: y :: c) next d1; wr dst (u32 (next - 1)) d0) =
    Ret (a ++ m ++ d0 :: d1 :: c).
Proof.
  intros H0 H1 -> Hn. rewrite wrapu_id by lia.
  replace (a ++ m ++ x :: y :: c) with ((a ++ m ++ [x]) ++ y :: c) by (by rewrite <- !app_assoc).
  rewrite wr_byte_app by (done || zl). run. rewrite <- !app_assoc. simpl app.
  replace (a ++ m ++ x :: d1 :: c) with ((a ++ m) ++ x :: d1 :: c) by (by rewrite <- !app_assoc).
  rewrite wr_byte_app by (done || zl). by rewrite <- app_assoc.
Qed.

Lemma digit_byte d : 0 <= d < 10 → is_byte (48 + d).
Proof. unfold is_byte. lia. Qed.

(** The loop leaves a hole for the digits of the remaining value. *)
Lemma ll2string_loop_spec fuel a m c value :
  0 <= value < 100 ^ Z.of_nat (S fuel) → value < 2 ^ 64 → zlen m = zlen (udec value) →
  zlen a <= 1 →
  ∃ m' c' v', ll2string_loop fuel (a ++ m ++ c) value (zlen a + zlen m - 1) =
      Ret (a ++ m' ++ c', v', zlen a + zlen m' - 1) ∧
    0 <= v' < 100 ∧ zlen m' = zlen (udec v') ∧ udec v' ++ c' = udec value ++ c.
Proof.
  revert m c value. induction fuel as [|fuel IH]; intros m c value Hv Hv2 Hm Ha; cbn [ll2string_loop].
  - test (100 <=? value) false. exists m, c, value. repeat split; (done || lia).
  - destruct (Z.leb_spec 100 value); [|exists m, c, value; repeat split; (done || lia)].
    rewrite udec_two in Hm by lia. rewrite zlen_app in Hm. change (zlen [_; _]) with 2 in Hm.
    pose proof (udec_bounds (value / 100)) as Hb. pose proof (Z.div_pos value 100).
    assert (value / 100 < 2 ^ 64) by (apply Z.div_lt_upper_bound; lia).
    destruct (zsplit (zlen (udec (value / 100))) m) as (m1 & q & -> & Hm1 & Hq); [lia|].
    destruct q as [|x [|y [|? ?]]]; try (exfalso; zl).
    pose proof (zlen_nonneg a). pose proof (Z.mod_pos_bound value 100).
    dm (value mod 100) 10.
    destruct (digits_table (value mod 100)) as [-> ->]; [lia|]. run.
    rewrite <- app_assoc. simpl app. zlr.
    pose proof (write2 a m1 x y c (zlen a + (zlen m1 + (1 + (1 + 0))) - 1)
      (48 + value mod 100 / 10) (48 + (value mod 100) mod 10)) as W.
    rewrite <- bind_assoc, W by (try apply digit_byte; lia). run.
    rewrite wrapu_id by lia.
    destruct (IH m1 (48 + value mod 100 / 10 :: 48 + (value mod 100) mod 10 :: c) (value / 100))
      as (m' & c' & v' & E & Hv' & Hm' & Hc'); try done.
    + split; [lia|]. apply Z.div_lt_upper_bound; [lia|].
      rewrite Nat2Z.inj_succ, Z.pow_succ_r in Hv by lia. lia.
    + exists m', c', v'. split; [|split; [done|split; [done|]]].
      * rewrite <- E. f_equal. lia.
      * rewrite Hc', (udec_two value), <- app_assoc by lia. done.
Qed.

(** The last one or two digits fill the hole. *)
Lemma ll2string_last a m c v :
  0 <= v < 100 → zlen m = zlen (udec v) → zlen a <= 1 →
  (if v <? 10 then wr (a ++ m ++ c) (zlen a + zlen m - 1) (48 + v)
   else
     d1 ← rd digits (v * 2 + 1);
     dst ← wr (a ++ m ++ c) (zlen a + zlen m - 1) d1;
     d0 ← rd digits (v * 2);
     wr dst (u32 (zlen a + zlen m - 1 - 1)) d0) = Ret (a ++ udec v ++ c).
Proof.
  intros Hv Hm Ha. destruct (Z.ltb_spec v 10).
  - rewrite udec_small in * by lia. destruct m as [|x [|]]; try (exfalso; zl). simpl app.
    rewrite wr_byte_app; [done|zl|apply digit_byte; lia].
  - rewrite udec_low2 in * by lia. destruct m as [|x [|y [|]]]; try (exfalso; zl). simpl app.
    destruct (digits_table v) as [-> ->]; [lia|]. run. dm v 10. pose proof (zlen_nonneg a).
    apply (write2 a [] x y c); try (apply digit_byte; lia); zlr; lia.
Qed.

Lemma abs_value v :
  int64 v → (if negb (v =? LLONG_MIN) then u64 (- v) else u64 LLONG_MAX + 1) = - v ∨ 0 <= v.
Proof.
  unfold int64, LLONG_MIN, LLONG_MAX. intros Hv. destruct (Z.ltb_spec v 0); [left|by right].
  destruct (Z.eqb_spec v (- 2 ^ 63)) as [->|]; simpl; [done|]. by rewrite wrapu_id by lia.
Qed.

Lemma zlen_dec_bounds v : int64 v → 1 <= zlen (dec v) <= 21.
Proof.
  unfold int64, LLONG_MIN, LLONG_MAX. intros Hv. unfold dec. destruct (Z.ltb_spec v 0); zlr.
  - pose proof (udec_bounds (- v)). lia.
  - pose proof (udec_bounds v). lia.
Qed.

(** For every 64-bit integer [ll2string] writes its canonical decimal
    representation and a terminating NUL at the start of the destination,
    leaves the rest untouched and returns the length, when the destination
    has room for both; otherwise it returns 0 and changes nothing. *)
Theorem ll2string_spec dst dstlen v :
  int64 v → 0 <= dstlen <= zlen dst →
  ll2string dst dstlen v =
    Ret (if zlen (dec v) <? dstlen
         then (dec v ++ 0 :: drop (length (dec v) + 1) dst, zlen (dec v))
         else (dst, 0)).
Proof.
  intros Hv Hd. pose proof (zlen_dec_bounds v Hv) as Hlen. unfold ll2string.
  set (neg := if v <? 0 then 1 else 0). set (value := if v <? 0 then - v else v).
  assert ((if v <? 0
           then (if negb (v =? LLONG_MIN) then u64 (- v) else u64 LLONG_MAX + 1, 1)
           else (v, 0)) = (value, neg)) as ->.
  { unfold value, neg. destruct (abs_value v Hv) as [->|?]; [by destruct (v <? 0)|].
    by test (v <? 0) false. }
  assert (0 <= value <= 2 ^ 63).
  { unfold int64, LLONG_MIN, LLONG_MAX in Hv. unfold value. destruct (Z.ltb_spec v 0); lia. }
  assert (dec v = (if v <? 0 then [45] else []) ++ udec value) as Edec
    by (unfold dec, value; by destruct (v <? 0)).
  assert (zlen (if v <? 0 then [45] else []) = neg) as Hneg by (unfold neg; by destruct (v <? 0)).
  rewrite digits10_udec by lia.
  assert (zlen (udec value) + neg = zlen (dec v)) as -> by (rewrite Edec, zlen_app; lia).
  rewrite wrapu_id by lia.
  destruct (Z.leb_spec dstlen (zlen (dec v))); [by test (zlen (dec v) <? dstlen) false|].
  test (zlen (dec v) <? dstlen) true.
  destruct (zsplit (zlen (dec v)) dst) as (h & t & -> & Hh & Ht); [lia|].
  destruct t as [|x t]; [zlr; lia|].
  rewrite wr_byte_app by (done || unfold is_byte; lia). run. rewrite wrapu_id by lia.
  replace (drop (length (dec v) + 1) (h ++ x :: t)) with t.
  2: { rewrite <- drop_drop, drop_app_length' by zl. done. }
  destruct (zsplit neg h) as (a & m & -> & Ha & Hm); [unfold neg in *; destruct (v <? 0); lia|].
  rewrite Edec, zlen_app in Hh. zlr. rewrite <- app_assoc.
  pose proof (ll2string_loop_spec 10 a m (0 :: t) value) as L. change (100 ^ Z.of_nat 11) with (100 ^ 11) in L.
  destruct L as (m' & c' & v' & E & Hv' & Hm' & Hc'); [lia|lia|lia|unfold neg in *; destruct (v <? 0); lia|].
  replace (zlen (dec v) - 1) with (zlen a + zlen m - 1) by (rewrite Edec, zlen_app; lia).
  rewrite E. run. rewrite ll2string_last by (done || unfold neg in *; destruct (v <? 0); lia). run.
  rewrite Hc', Edec, <- app_assoc. unfold neg in *. destruct (v <? 0).
  - destruct a as [|y [|]]; try (exfalso; zl). simpl Z.eqb. cbv iota.
    pose proof (wr_byte_app [] y (udec value ++ 0 :: t) 0 45) as W. simpl app in W |- *.
    rewrite W; [done|done|unfold is_byte; lia].
  - apply zlen_zero in Ha as ->. done.
Qed.

(** [digits10] and [sdigits10] count the characters of the decimal
    representation of every 64-bit value. *)
Theorem digits10_spec u v :
  0 <= u < 2 ^ 64 → int64 v →
  digits10 u = zlen (udec u) ∧ sdigits10 v = zlen (dec v).
Proof.
  intros Hu Hv. split; [by apply digits10_udec|]. unfold sdigits10, dec.
  pose proof Hv as Hv'. unfold int64, LLONG_MIN, LLONG_MAX in Hv'.
  destruct (Z.ltb_spec v 0).
  - destruct (abs_value v Hv) as [->|?]; [|lia]. rewrite digits10_udec by lia. zlr. lia.
  - by rewrite digits10_udec by lia.
Qed.

(** * [string2ll] *)

Definition is_digit (c : Z) : Prop := 48 <= c <= 57.

(** The value of [ds] read after a prefix of value [v]. *)
Definition dval (v : Z) (ds : list Z) : Z := fold_left (λ v c, v * 10 + (c - 48)) ds v.

Lemma dval_snoc v ds c : dval v (ds ++ [c]) = dval v ds * 10 + (c - 48).
Proof. unfold dval. by rewrite fold_left_app. Qed.

Lemma dval_mono v ds : 0 <= v → Forall is_digit ds → v <= dval v ds.
Proof.
  intros Hv Hd. revert v Hv. induction Hd as [|c ds Hc _ IH]; intros v Hv; [done|].
  unfold is_digit in Hc. simpl. specialize (IH (v * 10 + (c - 48))). unfold dval in *. lia.
Qed.

(** Digits that do not start with zero are the representation of their value. *)
Lemma udec_dval c ds :
  49 <= c <= 57 → Forall is_digit ds → dval (c - 48) ds < 10 ^ 20 →
  udec (dval (c - 48) ds) = c :: ds.
Proof.
  intros Hc. induction ds as [|d ds IH] using rev_ind; intros Hd Hb.
  - simpl. rewrite udec_small by lia. f_equal. lia.
  - apply Forall_app in Hd as [Hd [Hdd _]%Forall_cons_1]. unfold is_digit in Hdd.
    rewrite dval_snoc in Hb |- *. pose proof (dval_mono (c - 48) ds ltac:(lia) Hd).
    replace (dval (c - 48) ds * 10 + (d - 48)) with (10 * dval (c - 48) ds + (d - 48)) by lia.
    rewrite udec_snoc by lia. rewrite IH by (done || lia). simpl. do 3 f_equal. lia.
Qed.

(** Conversely, positive numbers are written this way. *)
Lemma udec_inv_n n v :
  0 < v < 10 ^ Z.of_nat n → (n <= 20)%nat →
  ∃ c ds, udec v = c :: ds ∧ 49 <= c <= 57 ∧ Forall is_digit ds ∧ dval (c - 48) ds = v.
Proof.
  revert v. induction n as [|n IH]; intros v Hv Hn; [simpl in Hv; lia|].
  assert (10 ^ Z.of_nat (S n) <= 10 ^ 20) by (apply Z.pow_le_mono_r; lia).
  dm v 10. rewrite udec_unfold by lia. destruct (Z.ltb_spec v 10).
  - exists (48 + v), []. rewrite Z.mod_small by lia. repeat split; try lia; [done|]. simpl. lia.
  - rewrite Nat2Z.inj_succ, Z.pow_succ_r in Hv by lia.
    destruct (IH (v / 10)) as (c & ds & -> & Hc & Hd & Hval); [|lia|].
    { split; [lia|]. apply Z.div_lt_upper_bound; lia. }
    exists c, (ds ++ [48 + v mod 10]). split; [done|]. split; [done|]. split.
    + apply Forall_app. split; [done|]. constructor; [unfold is_digit; lia|done].
    + rewrite dval_snoc, Hval. lia.
Qed.

Lemma udec_inv v :
  0 < v < 10 ^ 20 →
  ∃ c ds, udec v = c :: ds ∧ 49 <= c <= 57 ∧ Forall is_digit ds ∧ dval (c - 48) ds = v.
Proof. intros Hv. by apply (udec_inv_n 20). Qed.

(** The parsing loop reads digits while the value fits in 64 bits. *)
Lemma string2ll_loop_spec h t fuel v :
  (length t <= fuel)%nat → 0 <= v <= ULLONG_MAX →
  ∃ r, string2ll_loop fuel (h ++ t) (zlen (h ++ t)) (zlen h) v = Ret r ∧
    match r with
    | Some (plen, w) => if plen <? zlen (h ++ t) then ~ Forall is_digit t
                        else Forall is_digit t ∧ w = dval v t ∧ w <= ULLONG_MAX
    | None => Forall is_digit t → ULLONG_MAX < dval v t
    end.
Proof.
  revert h fuel v. induction t as [|c t IH]; intros h fuel v Hf Hv.
  - exists (Some (zlen h, v)). rewrite app_nil_r. test (zlen h <? zlen h) false.
    split; [|by repeat split; (done || lia)].
    destruct fuel; cbn [string2ll_loop]; by test (zlen h <? zlen h) false.
  - destruct fuel as [|fuel]; [simpl in Hf; lia|]. cbn [string2ll_loop].
    test (zlen h <? zlen (h ++ c :: t)) true. rewrite rd_app by done. run.
    destruct ((48 <=? c) && (c <=? 57)) eqn:Hc.
    2: { exists (Some (zlen h, v)). split; [done|]. test (zlen h <? zlen (h ++ c :: t)) true.
         intros [Hd _]%Forall_cons_1. unfold is_digit in Hd. lia. }
    to_prop. dm ULLONG_MAX 10. unfold ULLONG_MAX in *.
    assert (2 ^ 64 - 1 < v * 10 + (c - 48) →
      Forall is_digit (c :: t) → 2 ^ 64 - 1 < dval v (c :: t)) as Hov.
    { intros Hlt [_ Hd]%Forall_cons_1. change (dval v (c :: t)) with (dval (v * 10 + (c - 48)) t).
      pose proof (dval_mono (v * 10 + (c - 48)) t ltac:(lia) Hd). lia. }
    destruct (Z.ltb_spec ((2 ^ 64 - 1) / 10) v) as [Hbig|Hsm].
    { exists None. split; [done|]. apply Hov. lia. }
    rewrite wrapu_id by lia.
    destruct (Z.ltb_spec (2 ^ 64 - 1 - (c - 48)) (v * 10)) as [Hbig|Hsm2].
    { exists None. split; [done|]. apply Hov. lia. }
    rewrite wrapu_id by lia.
    destruct (IH (h ++ [c]) fuel (v * 10 + (c - 48))) as (r & E & Hr); [simpl in Hf; lia|lia|].
    replace (zlen (h ++ [c])) with (zlen h + 1) in E by zl.
    rewrite <- app_assoc in E, Hr. simpl app in E, Hr. exists r. split; [done|].
    change (dval v (c :: t)) with (dval (v * 10 + (c - 48)) t).
    assert (is_digit c) by (unfold is_digit; lia).
    destruct r as [[plen w]|].
    + destruct (plen <? zlen (h ++ c :: t)).
      * by intros [_ Hd]%Forall_cons_1.
      * destruct Hr as (? & ? & ?). split; [by constructor|done].
    + intros [_ Hd]%Forall_cons_1. auto.
Qed.

(** What the parser accepts, in terms of the bytes. *)
Lemma string2ll_pos_iff c t v :
  49 <= c <= 57 → 0 < v <= ULLONG_MAX →
  (c :: t = udec v ↔ Forall is_digit t ∧ v = dval (c - 48) t).
Proof.
  unfold ULLONG_MAX. intros Hc Hv. split.
  - intros E. destruct (udec_inv v) as (c' & ds & E' & Hc' & Hd & Hval); [lia|].
    rewrite E' in E. by simplify_eq.
  - intros [Hd ->]. by rewrite udec_dval by (done || lia).
Qed.

Lemma udec_head_digit v c t : 0 < v <= ULLONG_MAX → udec v = c :: t → 49 <= c <= 57.
Proof.
  unfold ULLONG_MAX. intros Hv E. destruct (udec_inv v) as (c' & ds & E' & Hc' & _); [lia|].
  rewrite E' in E. by simplify_eq.
Qed.

(** The loop after the first digit [d], as used by [string2ll]: either the
    rest of the string is not the representation of a 64-bit value, or the
    loop consumed it and computed the value. *)
Lemma string2ll_digits pre d t :
  49 <= d <= 57 →
  let s := pre ++ d :: t in
  ∃ r, string2ll_loop (Z.to_nat (zlen s)) s (zlen s) (zlen pre + 1) (d - 48) = Ret r ∧
    ((∃ plen w, r = Some (plen, w) ∧ zlen s <= plen ∧ 0 < w <= ULLONG_MAX ∧ d :: t = udec w) ∨
     ((r = None ∨ ∃ plen w, r = Some (plen, w) ∧ plen < zlen s) ∧
      ∀ w, 0 < w <= ULLONG_MAX → d :: t ≠ udec w)).
Proof.
  intros Hd s. destruct (string2ll_loop_spec (pre ++ [d]) t (Z.to_nat (zlen s)) (d - 48)) as (r & E & Hr);
    [unfold s; zl|unfold ULLONG_MAX; lia|].
  replace (zlen (pre ++ [d])) with (zlen pre + 1) in E by zl.
  rewrite <- app_assoc in E, Hr. simpl app in E, Hr. fold s in E, Hr. exists r. split; [done|].
  destruct r as [[plen w]|].
  - destruct (Z.ltb_spec plen (zlen s)).
    + right. split; [right; eauto|]. intros w' Hw E'. by apply string2ll_pos_iff in E' as [? _].
    + left. destruct Hr as (Hdig & -> & Hle).
      pose proof (dval_mono (d - 48) t ltac:(lia) Hdig).
      exists plen, (dval (d - 48) t). repeat split; try lia. apply string2ll_pos_iff; (done || lia).
  - right. split; [by left|]. intros w Hw E'. apply string2ll_pos_iff in E' as [Hdig ->]; [|done..].
    specialize (Hr Hdig). lia.
Qed.

Lemma udec_inj v w :
  0 < v <= ULLONG_MAX → 0 < w <= ULLONG_MAX → udec v = udec w → v = w.
Proof.
  unfold ULLONG_MAX. intros Hv Hw E.
  destruct (udec_inv v) as (c & ds & Ev & _ & _ & Hdv); [lia|].
  destruct (udec_inv w) as (c' & ds' & Ew & _ & _ & Hdw); [lia|].
  rewrite Ev, Ew in E. by simplify_eq.
Qed.

Lemma dec_head v c t : int64 v → dec v = c :: t →
  (v < 0 ∧ c = 45 ∧ udec (- v) = t) ∨ (v = 0 ∧ c = 48 ∧ t = []) ∨ (0 < v ∧ 49 <= c <= 57 ∧ udec v = c :: t).
Proof.
  unfold int64, LLONG_MIN, LLONG_MAX. intros Hv. unfold dec. destruct (Z.ltb_spec v 0).
  - intros [= <- <-]. left. done.
  - intros E. right. destruct (Z.eq_dec v 0) as [->|Hne].
    + left. rewrite udec_small in E by lia. by simplify_eq.
    + right. split; [lia|]. split; [|done]. apply (udec_head_digit v c t); [unfold ULLONG_MAX; lia|done].
Qed.

(** The end of [string2ll]: the checks on the loop's result. *)
Lemma string2ll_finish pre d t bound (f : Z → Z) :
  49 <= d <= 57 → bound <= ULLONG_MAX →
  let s := pre ++ d :: t in
  ∃ o, (r ← string2ll_loop (Z.to_nat (zlen s)) s (zlen s) (zlen pre + 1) (d - 48);
        match r with
        | None => Ret None
        | Some (plen, v) =>
            if plen <? zlen s then Ret None
            else if bound <? v then Ret None else Ret (Some (f v))
        end) = Ret o ∧
    ((∃ w, 0 < w <= bound ∧ d :: t = udec w ∧ o = Some (f w)) ∨
     (o = None ∧ ∀ w, 0 < w <= bound → d :: t ≠ udec w)).
Proof.
  intros Hd Hb s. destruct (string2ll_digits pre d t Hd) as (r & Er & Hr). fold s in Er, Hr.
  rewrite Er. run.
  destruct Hr as [(plen & w & -> & Hp & Hw & Eu)|[Hr Hno]].
  - test (plen <? zlen s) false. destruct (Z.ltb_spec bound w).
    + exists None. split; [done|]. right. split; [done|]. intros w' Hw' E. rewrite Eu in E.
      apply udec_inj in E; lia.
    + exists (Some (f w)). split; [done|]. left. exists w. repeat split; (done || lia).
  - exists None. split.
    + destruct Hr as [->|(plen & w & -> & Hp)]; [done|]. by test (plen <? zlen s) true.
    + right. split; [done|]. intros w Hw. apply Hno. lia.
Qed.

(** What [string2ll] computes on every input. *)
Lemma string2ll_spec s :
  ∃ o, string2ll s (zlen s) = Ret o ∧ ∀ v, o = Some v ↔ int64 v ∧ s = dec v.
Proof.
  destruct s as [|c t].
  { exists None. split; [done|]. intros v. split; [done|]. intros [Hv E].
    pose proof (zlen_dec_bounds v Hv). rewrite <- E in *. zl. }
  unfold string2ll. test (zlen (c :: t) =? 0) false. change (rd (c :: t) 0) with (Ret c). run.
  destruct ((zlen (c :: t) =? 1) && (c =? 48)) eqn:E0; to_prop.
  { exists (Some 0). split; [done|]. assert (t = []) as -> by (apply zlen_zero; zlr; lia). subst c.
    intros v. split; [intros [= <-]; by repeat split|]. intros [Hv E].
    symmetry in E. apply dec_head in E as [(_ & ? & _)|[(-> & _)|(_ & ? & _)]]; (done || lia). }
  destruct (Z.eqb_spec c 45) as [->|Hc]; cbn [andb].
  - destruct t as [|d t].
    { exists None. split; [done|]. intros v. split; [done|]. intros [Hv E]. symmetry in E.
      apply dec_head in E as [(? & _ & E)|[(_ & ? & _)|(_ & ? & _)]]; try lia; [|done].
      unfold int64, LLONG_MIN in Hv. pose proof (udec_bounds (- v)). rewrite E in *. zl. }
    test (1 =? zlen (45 :: d :: t)) false. change (rd (45 :: d :: t) 1) with (Ret d). run.
    assert (∀ v, int64 v → 45 :: d :: t = dec v → 0 < - v <= 2 ^ 63 ∧ d :: t = udec (- v)) as Hinv.
    { intros v Hv E. symmetry in E.
      apply dec_head in E as [(? & _ & ->)|[(_ & ? & _)|(_ & ? & _)]]; try (done || lia).
      unfold int64, LLONG_MIN in Hv. split; [lia|done]. }
    destruct ((49 <=? d) && (d <=? 57)) eqn:Hd; to_prop.
    + destruct (string2ll_finish [45] d t (2 ^ 63) (λ v, s64 (u64 (- v)))) as (o & E & Ho);
        [lia|unfold ULLONG_MAX; lia|]. exists o. split; [exact E|]. intros v.
      destruct Ho as [(w & Hw & Ew & ->)|[-> Hno]].
      * rewrite wraps_wrapu, wraps_id by (simpl; lia). split.
        -- intros [= <-]. split; [unfold int64, LLONG_MIN, LLONG_MAX; lia|]. unfold dec.
           test (- w <? 0) true. by rewrite Z.opp_involutive, Ew.
        -- intros [Hv [? E']%Hinv]; [|done]. rewrite Ew in E'.
           apply udec_inj in E'; unfold ULLONG_MAX; [f_equal|..]; lia.
      * split; [done|]. intros [Hv [? E']%Hinv]; [|done]. by destruct (Hno (- v)).
    + exists None. split; [done|]. intros v. split; [done|]. intros [Hv [? E]%Hinv]; [|done].
      symmetry in E. apply udec_head_digit in E; unfold ULLONG_MAX; lia.
  - change (rd (c :: t) 0) with (Ret c). run.
    destruct ((49 <=? c) && (c <=? 57)) eqn:Hd; to_prop.
    + destruct (string2ll_finish [] c t LLONG_MAX (λ v, v)) as (o & E & Ho);
        [lia|unfold LLONG_MAX, ULLONG_MAX; lia|]. exists o. split; [exact E|]. intros v.
      destruct Ho as [(w & Hw & Ew & ->)|[-> Hno]].
      * unfold LLONG_MAX in Hw. split.
        -- intros [= <-]. split; [unfold int64, LLONG_MIN, LLONG_MAX; lia|]. unfold dec.
           by test (w <? 0) false.
        -- intros [Hv E']. symmetry in E'.
           apply dec_head in E' as [(_ & ? & _)|[(_ & ? & _)|(? & _ & E')]]; try (done || lia).
           rewrite Ew in E'. unfold int64, LLONG_MAX in Hv.
           apply udec_inj in E'; unfold ULLONG_MAX; [f_equal|..]; lia.
      * split; [done|]. intros [Hv E']. symmetry in E'. unfold int64 in Hv.
        apply dec_head in E' as [(_ & ? & _)|[(_ & ? & _)|(? & _ & E')]]; try (done || lia).
        exfalso. by apply (Hno v); [lia|].
    + exists None. split; [done|]. intros v. split; [done|]. intros [Hv E]. symmetry in E.
      apply dec_head in E as [(_ & ? & _)|[(_ & -> & ->)|(_ & ? & _)]]; (done || lia).
Qed.

Lemma dec_inj v w : int64 v → int64 w → dec v = dec w → v = w.
Proof.
  intros Hv Hw E. destruct (string2ll_spec (dec v)) as (o & _ & Ho).
  assert (o = Some v) as E1 by (by apply Ho). assert (o = Some w) as E2 by (apply Ho; by rewrite E).
  congruence.
Qed.

(** C3. For every 64-bit integer [ll2string] writes its canonical decimal
    representation and a terminating NUL at the start of the destination,
    leaves the rest untouched and returns the length, when the destination has
    room for both; otherwise it returns 0 and changes nothing.  [string2ll]
    accepts exactly these representations and returns their value: no leading
    zeros, spaces, plus sign or overflow get through, so each function undoes
    the other. *)
Theorem ll2string_string2ll :
  (∀ dst dstlen v, int64 v → 0 <= dstlen <= zlen dst →
     ll2string dst dstlen v =
       Ret (if zlen (dec v) <? dstlen
            then (dec v ++ 0 :: drop (length (dec v) + 1) dst, zlen (dec v))
            else (dst, 0))) ∧
  (∀ s, ∃ o, string2ll s (zlen s) = Ret o ∧ ∀ v, o = Some v ↔ int64 v ∧ s = dec v).
Proof. split; [apply ll2string_spec|apply string2ll_spec]. Qed.

Lemma ll2string_string2ll_witness :
  ll2string (replicate 9 7) 9 (-120034) = Ret (cstr "-120034" ++ [0; 7], 7) ∧
  ll2string (replicate 9 7) 7 (-120034) = Ret (replicate 9 7, 0) ∧
  string2ll (cstr "-120034") 7 = Ret (Some (-120034)).
Proof.
  destruct ll2string_string2ll as [HL HS]. split_and!.
  - rewrite (HL (replicate 9 7) 9 (-120034)); [vm_compute; reflexivity|by vm_compute..].
  - rewrite (HL (replicate 9 7) 7 (-120034)); [vm_compute; reflexivity|by vm_compute..].
  - destruct (HS (cstr "-120034")) as (o & E & Ho). change 7 with (zlen (cstr "-120034")). rewrite E. f_equal.
    apply Ho. split; [by vm_compute|reflexivity].
Defined.

Lemma digits10_spec_witness :
  digits10 18446744073709551615 = zlen (cstr "18446744073709551615") ∧
  sdigits10 LLONG_MIN = zlen (cstr "-9223372036854775808").
Proof.
  exact (digits10_spec 18446744073709551615 LLONG_MIN
    ltac:(by vm_compute) ltac:(by vm_compute)).
Defined.

End Util.
