(* ===== verification/Glob.v ===== *)
(** Glob-style pattern matching: [stringmatchlen_impl], [stringmatchlen] and
    [stringmatch] of [src/.../redis-6.2/src/util.c].

    The reference is a matcher on the tokens of the pattern.  The theorem
    shows that the backtracking loop of the code, with its flag that cuts the
    search short, decides the same question on every non-empty string and
    stays inside the NUL-terminated pattern. *)
From S2P Require Import Prelude.

Module Glob.

(** The characters with a meaning in a pattern. *)
Definition STAR : Z := 42.
Definition QUESTION : Z := 63.
Definition LBRACKET : Z := 91.
Definition BACKSLASH : Z := 92.
Definition RBRACKET : Z := 93.
Definition CARET : Z := 94.
Definition DASH : Z := 45.

(** * The code *)

(** The lengths are of type [int]. *)
Definition int_sub (n k : Z) : Z := s32 (n - k).

(** [while (patternLen && pattern[1] == '*')] *)
Fixpoint skip_star_run (fuel : nat) (pat : list Z) (p plen : Z) : outcome (Z * Z) :=
  match fuel with
  | O => OutOfFuel
  | S fuel =>
    if plen =? 0 then Ret (p, plen)
    else
      c ← rd pat (p + 1);
      if c =? STAR then skip_star_run fuel pat (p + 1) (int_sub plen 1)
      else Ret (p, plen)
  end.

(** [while ( *pattern == '*')] at the end of the string *)
Fixpoint skip_stars (fuel : nat) (pat : list Z) (p plen : Z) : outcome (Z * Z) :=
  match fuel with
  | O => OutOfFuel
  | S fuel =>
    c ← rd pat p;
    if c =? STAR then skip_stars fuel pat (p + 1) (int_sub plen 1)
    else Ret (p, plen)
  end.

(** Two characters are compared as they are, or folded with [tolower]. *)
Definition char_eq (nocase : bool) (a b : Z) : bool :=
  if nocase then tolower (s8 a) =? tolower (s8 b) else a =? b.

(** The range test of a class; [char] is signed. *)
Definition in_range (nocase : bool) (a b c : Z) : bool :=
  let start := s8 a in
  let end_ := s8 b in
  let ch := s8 c in
  let '(start, end_) := if end_ <? start then (end_, start) else (start, end_) in
  let '(start, end_, ch) :=
    if nocase then (tolower start, tolower end_, tolower ch)
    else (start, end_, ch) in
  (start <=? ch) && (ch <=? end_).

(** The loop over the members of a class; [string] points to [s] in [str]. *)
Fixpoint class_loop (fuel : nat) (nocase : bool) (pat : list Z) (p plen : Z) (str : list Z) (s : Z)
    (matched : bool) : outcome (Z * Z * bool) :=
  match fuel with
  | O => OutOfFuel
  | S fuel =>
    c0 ← rd pat p;
    if (c0 =? BACKSLASH) && (2 <=? plen) then
      c1 ← rd pat (p + 1);
      c ← rd str s;
      class_loop fuel nocase pat (p + 2) (int_sub plen 2) str s ((c1 =? c) || matched)
    else if c0 =? RBRACKET then Ret (p, plen, matched)
    else if plen =? 0 then Ret (p - 1, plen + 1, matched)
    else
      dash ← (if 3 <=? plen then c1 ← rd pat (p + 1); Ret (c1 =? DASH) else Ret false);
      if dash : bool then
        c2 ← rd pat (p + 2);
        c ← rd str s;
        class_loop fuel nocase pat (p + 3) (int_sub plen 3) str s (in_range nocase c0 c2 c || matched)
      else
        c ← rd str s;
        class_loop fuel nocase pat (p + 1) (int_sub plen 1) str s (char_eq nocase c0 c || matched)
  end.

(** [case '[']: where the class ends and whether it matches. *)
Definition match_class (fuel : nat) (nocase : bool) (pat : list Z) (p plen : Z) (str : list Z) (s : Z)
    : outcome (Z * Z * bool) :=
  c1 ← rd pat (p + 1);
  let not := c1 =? CARET in
  let '(p1, plen1) := if not then (p + 2, int_sub plen 2) else (p + 1, int_sub plen 1) in
  '(p2, plen2, matched) ← class_loop fuel nocase pat p1 plen1 str s false;
  Ret (p2, plen2, if not then negb matched else matched).

(** One iteration of the main loop on a pattern character other than a star:
    [None] for [return 0], otherwise where the pattern continues. *)
Definition match_one (fuel : nat) (nocase : bool) (pat : list Z) (p plen : Z) (str : list Z) (s : Z)
    : outcome (option (Z * Z)) :=
  c0 ← rd pat p;
  if c0 =? QUESTION then Ret (Some (p + 1, int_sub plen 1))
  else if c0 =? LBRACKET then
    '(p2, plen2, matched) ← match_class fuel nocase pat p plen str s;
    if matched : bool then Ret (Some (p2 + 1, int_sub plen2 1)) else Ret None
  else
    let '(p1, plen1) :=
      if (c0 =? BACKSLASH) && (2 <=? plen) then (p + 1, int_sub plen 1) else (p, plen) in
    c1 ← rd pat p1;
    c ← rd str s;
    if char_eq nocase c1 c then Ret (Some (p1 + 1, int_sub plen1 1)) else Ret None.

(** The function and the loop of its star case.  [pattern] and [string] point to
    [p] in [pat] and to [s] in [str]; the result carries [*skipLongerMatches]. *)
Fixpoint stringmatchlen_impl (fuel : nat) (nocase : bool) (pat : list Z) (p plen : Z)
    (str : list Z) (s slen : Z) (skip : bool) : outcome (bool * bool) :=
  match fuel with
  | O => OutOfFuel
  | S fuel =>
    if (plen =? 0) || (slen =? 0) then Ret ((plen =? 0) && (slen =? 0), skip)
    else
      c0 ← rd pat p;
      if c0 =? STAR then
        '(p1, plen1) ← skip_star_run (S (length pat)) pat p plen;
        if plen1 =? 1 then Ret (true, skip)
        else star_loop fuel nocase pat p1 plen1 str s slen skip
      else
        r ← match_one (S (length pat)) nocase pat p plen str s;
        match r with
        | None => Ret (false, skip)
        | Some (p1, plen1) =>
          if int_sub slen 1 =? 0 then
            '(_, plen2) ← skip_stars (S (length pat)) pat p1 plen1;
            Ret (plen2 =? 0, skip)
          else stringmatchlen_impl fuel nocase pat p1 plen1 str (s + 1) (int_sub slen 1) skip
        end
  end
with star_loop (fuel : nat) (nocase : bool) (pat : list Z) (p plen : Z)
    (str : list Z) (s slen : Z) (skip : bool) : outcome (bool * bool) :=
  match fuel with
  | O => OutOfFuel
  | S fuel =>
    if slen =? 0 then Ret (false, true)
    else
      '(r, skip) ← stringmatchlen_impl fuel nocase pat (p + 1) (int_sub plen 1) str s slen skip;
      if r : bool then Ret (true, skip)
      else if skip : bool then Ret (false, skip)
      else star_loop fuel nocase pat p plen str (s + 1) (int_sub slen 1) skip
  end.

(** The pattern is the first [patternLen] bytes of the block [pat], the string
    the first [stringLen] bytes of [str]. *)
Definition stringmatchlen (pat : list Z) (patternLen : Z) (str : list Z) (stringLen : Z)
    (nocase : bool) : outcome bool :=
  '(r, _) ← stringmatchlen_impl (S (2 * length pat + length str))
             nocase pat 0 patternLen str 0 stringLen false;
  Ret r.

(** The lengths are converted from [size_t] to [int]. *)
Definition stringmatch (pattern string : list Z) (nocase : bool) : outcome bool :=
  patternLen ← strlen pattern;
  stringLen ← strlen string;
  stringmatchlen pattern (s32 patternLen) string (s32 stringLen) nocase.

(** * The reference matcher *)

Inductive item :=
| Exact (c : Z)            (* an escaped member, compared as it is *)
| Chr (c : Z)
| Range (a b : Z).

Inductive tok :=
| Star
| Any
| Class (neg : bool) (items : list item)
| Lit (c : Z).

(** The members of a class and what follows it; the class may be left open. *)
Fixpoint class_items (n : nat) (l : list Z) : list item * list Z :=
  match n with
  | O => ([], [])
  | S n =>
    match l with
    | [] => ([], [])
    | a :: l1 =>
      let single := let '(its, r) := class_items n l1 in (Chr a :: its, r) in
      if a =? BACKSLASH then
        match l1 with
        | b :: l2 => let '(its, r) := class_items n l2 in (Exact b :: its, r)
        | [] => single
        end
      else if a =? RBRACKET then ([], l1)
      else
        match l1 with
        | d :: b :: l2 =>
          if d =? DASH then let '(its, r) := class_items n l2 in (Range a b :: its, r)
          else single
        | _ => single
        end
    end
  end.

(** Characters are signed; the case is ignored by folding to lower case.  The
    ends of a range are ordered before they are folded. *)
Definition fold (nocase : bool) (c : Z) : Z := if nocase then tolower (s8 c) else s8 c.

Definition same (nocase : bool) (a c : Z) : Prop := a = c ∨ nocase = true ∧ fold nocase a = fold nocase c.

Definition between (nocase : bool) (a b c : Z) : Prop :=
  ∃ lo hi, (lo = a ∧ hi = b ∨ lo = b ∧ hi = a) ∧ s8 lo <= s8 hi ∧ fold nocase lo <= fold nocase c <= fold nocase hi.

Definition item_ok (nocase : bool) (c : Z) (i : item) : Prop :=
  match i with
  | Exact a => a = c
  | Chr a => same nocase a c
  | Range a b => between nocase a b c
  end.

Definition tok_ok (nocase : bool) (c : Z) (t : tok) : Prop :=
  match t with
  | Star => False
  | Any => True
  | Class false its => ∃ i, i ∈ its ∧ item_ok nocase c i
  | Class true its => ∀ i, i ∈ its → ¬ item_ok nocase c i
  | Lit a => same nocase a c
  end.

(** The first token of a non-empty pattern and the rest of it. *)
Definition next_tok (a : Z) (l : list Z) : tok * list Z :=
  if a =? STAR then (Star, l)
  else if a =? QUESTION then (Any, l)
  else if a =? LBRACKET then
    match l with
    | b :: l' =>
      if b =? CARET then let '(its, r) := class_items (length l') l' in (Class true its, r)
      else let '(its, r) := class_items (length l) l in (Class false its, r)
    | [] => (Class false [], [])
    end
  else if a =? BACKSLASH then
    match l with b :: l' => (Lit b, l') | [] => (Lit a, []) end
  else (Lit a, l).

Fixpoint tokens_n (n : nat) (l : list Z) : list tok :=
  match n, l with
  | S n, a :: l => let '(t, r) := next_tok a l in t :: tokens_n n r
  | _, _ => []
  end.

Definition tokens (l : list Z) : list tok := tokens_n (length l) l.

(** A star matches any run of characters, any other token one character. *)
Fixpoint gmatch (nocase : bool) (ts : list tok) (s : list Z) : Prop :=
  match ts with
  | [] => s = []
  | Star :: ts => ∃ u s', s = u ++ s' ∧ gmatch nocase ts s'
  | t :: ts => ∃ c s', s = c :: s' ∧ tok_ok nocase c t ∧ gmatch nocase ts s'
  end.

(** The same predicates as the code computes them. *)
Definition item_b (nocase : bool) (c : Z) (i : item) : bool :=
  match i with
  | Exact a => a =? c
  | Chr a => char_eq nocase a c
  | Range a b => in_range nocase a b c
  end.

Definition tok_b (nocase : bool) (c : Z) (t : tok) : bool :=
  match t with
  | Star => false
  | Any => true
  | Class neg its => xorb neg (existsb (item_b nocase c) its)
  | Lit a => char_eq nocase a c
  end.

Lemma char_eq_spec nocase a c : char_eq nocase a c = true ↔ same nocase a c.
Proof.
  unfold char_eq, same, fold. destruct nocase; rewrite Z.eqb_eq; [|naive_solver].
  split; [by right|]. intros [->|[_ ?]]; done.
Qed.

Lemma in_range_spec nocase a b c : in_range nocase a b c = true ↔ between nocase a b c.
Proof.
  unfold in_range, between, fold. destruct (Z.ltb_spec (s8 b) (s8 a)).
  - destruct nocase; rewrite andb_true_iff, !Z.leb_le; (split; [intros ?; exists b, a; split_and!; [by right|lia..]|]);
      intros (lo & hi & [[-> ->]|[-> ->]] & ? & ?); lia.
  - destruct nocase; rewrite andb_true_iff, !Z.leb_le; (split; [intros ?; exists a, b; split_and!; [by left|lia..]|]);
      intros (lo & hi & [[-> ->]|[-> ->]] & ? & ?); try lia; replace (s8 b) with (s8 a) in * by lia; lia.
Qed.

Lemma item_b_spec nocase c i : item_b nocase c i = true ↔ item_ok nocase c i.
Proof. destruct i; [apply Z.eqb_eq|apply char_eq_spec|apply in_range_spec]. Qed.

Lemma tok_b_spec nocase c t : tok_b nocase c t = true ↔ tok_ok nocase c t.
Proof.
  destruct t as [| |neg its|a]; [done|done| |apply char_eq_spec].
  assert (He : existsb (item_b nocase c) its = true ↔ ∃ i, i ∈ its ∧ item_ok nocase c i).
  { rewrite existsb_exists. setoid_rewrite item_b_spec. setoid_rewrite list_elem_of_In. done. }
  cbn [tok_b tok_ok]. destruct neg; [|by rewrite xorb_false_l].
  rewrite xorb_true_l, negb_true_iff, <- not_true_iff_false, He. naive_solver.
Qed.

(** * Tokens *)

Lemma class_items_rest n l : (length (class_items n l).2 <= length l)%nat.
Proof.
  revert l. induction n as [|n IH]; intros l; [simpl; lia|].
  assert (Hs : ∀ k i, (length (let '(its, r) := class_items n k in (i :: its, r)).2 <= length k)%nat).
  { intros k i. specialize (IH k). by destruct (class_items n k). }
  destruct l as [|a l1]; [done|]. simpl.
  destruct (a =? BACKSLASH).
  { destruct l1 as [|b l2]; [specialize (Hs [])|specialize (Hs l2)]; etrans; [apply Hs| |apply Hs|]; simpl; lia. }
  destruct (a =? RBRACKET); [simpl; lia|].
  destruct l1 as [|d [|b l2]]; [| |destruct (d =? DASH)]; (etrans; [apply Hs|]); simpl; lia.
Qed.

Lemma next_tok_rest a l : (length (next_tok a l).2 <= length l)%nat.
Proof.
  unfold next_tok. destruct (a =? STAR); [done|]. destruct (a =? QUESTION); [done|].
  destruct (a =? LBRACKET).
  - destruct l as [|b l']; [done|]. destruct (b =? CARET).
    + pose proof (class_items_rest (length l') l'). destruct (class_items _ _). simpl in *. lia.
    + pose proof (class_items_rest (length (b :: l')) (b :: l')). by destruct (class_items _ _).
  - destruct (a =? BACKSLASH); [|done]. destruct l; simpl; lia.
Qed.

Lemma tokens_n_enough n l : (length l <= n)%nat → tokens_n n l = tokens l.
Proof.
  unfold tokens. revert l. induction n as [n IH] using lt_wf_ind. intros [|a l] Hn; [by destruct n|].
  destruct n as [|n]; [simpl in Hn; lia|]. simpl in *.
  pose proof (next_tok_rest a l) as Hr. destruct (next_tok a l) as [t r]. simpl in Hr. f_equal.
  rewrite (IH n) by lia. destruct (decide (length l = n)) as [<-|]; [|by rewrite (IH (length l)) by lia].
  rewrite (IH (length l)) by lia. done.
Qed.

Lemma tokens_cons a l : tokens (a :: l) = (next_tok a l).1 :: tokens (next_tok a l).2.
Proof.
  unfold tokens at 1. simpl. pose proof (next_tok_rest a l) as Hr.
  destruct (next_tok a l) as [t r]. simpl in *. by rewrite tokens_n_enough.
Qed.

Lemma tokens_star l : tokens (STAR :: l) = Star :: tokens l.
Proof. apply tokens_cons. Qed.

Lemma next_tok_not_star a l : a ≠ STAR → (next_tok a l).1 ≠ Star.
Proof.
  intros Ha. unfold next_tok. test (a =? STAR) false.
  repeat case_match; simpl; congruence.
Qed.

(** * The loops of the code *)

Lemma int_sub_id n k : - 2 ^ 31 <= n - k < 2 ^ 31 → int_sub n k = n - k.
Proof. intros. unfold int_sub. by apply wraps_id. Qed.

(** The position between the read and the unread part of the pattern. *)
Definition at_pos (pat : list Z) (p plen : Z) (l : list Z) : Prop :=
  ∃ pre, pat = pre ++ l ++ [0] ∧ p = zlen pre ∧ plen = zlen l ∧ zlen l < 2 ^ 31.

Lemma at_pos_nonneg pat p plen l : at_pos pat p plen l → 0 <= plen ∧ (length l < length pat)%nat.
Proof. intros (pre & -> & -> & -> & Hint). split; zl. Qed.

Lemma at_pos_end pat p plen l : at_pos pat p plen l → (plen =? 0) = bool_decide (l = []).
Proof.
  intros (pre & -> & -> & -> & Hint). destruct l; [done|].
  rewrite bool_decide_eq_false_2 by done. zl.
Qed.

Lemma at_pos_step pat p plen a l :
  at_pos pat p plen (a :: l) → at_pos pat (p + 1) (int_sub plen 1) l.
Proof.
  intros (pre & -> & -> & -> & Hint). exists (pre ++ [a]). zlr. pose proof (zlen_nonneg l). rewrite int_sub_id by lia.
  split_and!; [by lapp|lia..].
Qed.

(** The character under the pointer: the terminator at the end. *)
Lemma at_pos_rd pat p plen l :
  at_pos pat p plen l → rd pat p = Ret (default 0 (head l)).
Proof. intros (pre & -> & -> & -> & Hint). destruct l; simpl; by apply rd_app. Qed.

Lemma at_pos_rd_cons pat p plen a l : at_pos pat p plen (a :: l) → rd pat p = Ret a.
Proof. apply at_pos_rd. Qed.

Lemma at_pos_rd1 pat p plen a l :
  at_pos pat p plen (a :: l) → rd pat (p + 1) = Ret (default 0 (head l)).
Proof. intros H. by apply at_pos_step, at_pos_rd in H. Qed.

Lemma star_head l : (default 0 (head l) =? STAR) = true → ∃ l', l = STAR :: l'.
Proof. destruct l as [|a l]; simpl; [done|]. intros H. apply Z.eqb_eq in H as ->. eauto. Qed.

Lemma skip_star_run_spec fuel pat p plen l :
  at_pos pat p plen (STAR :: l) → (length l < fuel)%nat →
  ∃ k l' p' plen', l = replicate k STAR ++ l' ∧ head l' ≠ Some STAR ∧
    skip_star_run fuel pat p plen = Ret (p', plen') ∧ at_pos pat p' plen' (STAR :: l').
Proof.
  revert p plen l. induction fuel as [|fuel IH]; intros p plen l Hat Hf; [lia|].
  cbn [skip_star_run]. rewrite (at_pos_end _ _ _ _ Hat), (at_pos_rd1 _ _ _ _ _ Hat). run. cbn.
  destruct (default 0 (head l) =? STAR) eqn:E.
  - destruct (star_head _ E) as [l1 ->].
    destruct (IH _ _ _ (at_pos_step _ _ _ _ _ Hat)) as (k & l' & p' & plen' & -> & Hh & Hr & Hat'); [simpl in Hf; lia|].
    by exists (S k), l', p', plen'.
  - exists 0%nat, l, p, plen. split_and!; [done| |done|done].
    destruct l; [done|]. simpl in *. intros [= ->]. done.
Qed.

Lemma skip_stars_spec fuel pat p plen l :
  at_pos pat p plen l → (length l < fuel)%nat →
  ∃ k l' p', l = replicate k STAR ++ l' ∧ head l' ≠ Some STAR ∧
    skip_stars fuel pat p plen = Ret (p', zlen l').
Proof.
  revert p plen l. induction fuel as [|fuel IH]; intros p plen l Hat Hf; [lia|].
  cbn [skip_stars]. rewrite (at_pos_rd _ _ _ _ Hat). run.
  destruct (default 0 (head l) =? STAR) eqn:E.
  - destruct (star_head _ E) as [l1 ->].
    destruct (IH _ _ _ (at_pos_step _ _ _ _ _ Hat)) as (k & l' & p' & -> & Hh & Hr); [simpl in Hf; lia|].
    by exists (S k), l', p'.
  - exists 0%nat, l, p. destruct Hat as (pre & -> & -> & -> & Hint).
    split_and!; [done| |done]. destruct l; [done|]. simpl in *. intros [= ->]. done.
Qed.

(** The end of a class is one before where the pattern continues. *)
Definition class_ends (nocase : bool) (pat : list Z) (c : Z) (m : bool)
    (out : outcome (Z * Z * bool)) (cl : list item * list Z) : Prop :=
  ∃ p' plen', out = Ret (p', plen', existsb (item_b nocase c) cl.1 || m) ∧
    at_pos pat (p' + 1) (int_sub plen' 1) cl.2.

Lemma class_ends_cons nocase pat c m out i cl :
  class_ends nocase pat c (item_b nocase c i || m) out cl →
  class_ends nocase pat c m out (let '(its, r) := cl in (i :: its, r)).
Proof.
  destruct cl as [its r]. intros (p' & plen' & -> & Hat). exists p', plen'. split; [|done].
  simpl. by destruct (item_b nocase c i), (existsb _ _), m.
Qed.

Lemma at_pos_steps pat p plen a b l :
  at_pos pat p plen (a :: b :: l) → at_pos pat (p + 2) (int_sub plen 2) l.
Proof.
  intros (pre & -> & -> & -> & Hint). exists (pre ++ [a; b]). zlr. pose proof (zlen_nonneg l). rewrite int_sub_id by lia.
  split_and!; [by lapp|lia..].
Qed.

Lemma at_pos_steps3 pat p plen a b d l :
  at_pos pat p plen (a :: b :: d :: l) → at_pos pat (p + 3) (int_sub plen 3) l.
Proof.
  intros (pre & -> & -> & -> & Hint). exists (pre ++ [a; b; d]). zlr. pose proof (zlen_nonneg l). rewrite int_sub_id by lia.
  split_and!; [by lapp|lia..].
Qed.

Lemma class_loop_spec nocase fuel n pat p plen l str s c m :
  at_pos pat p plen l → rd str s = Ret c → (length l < fuel)%nat → (length l <= n)%nat →
  class_ends nocase pat c m (class_loop fuel nocase pat p plen str s m) (class_items n l).
Proof.
  intros Hat Hc. revert n p plen l m Hat. induction fuel as [|fuel IH]; intros n p plen l m Hat Hf Hn; [lia|].
  cbn [class_loop]. destruct l as [|a l1].
  { rewrite (at_pos_rd _ _ _ _ Hat). run. destruct Hat as (pre & -> & -> & -> & Hint). exists (zlen pre - 1), 1. split; [by destruct n|].
    exists pre. split_and!; [by destruct n|lia|by destruct n|by destruct n]. }
  destruct n as [|n]; [simpl in Hn; lia|]. simpl in Hn, Hf.
  rewrite (at_pos_rd_cons _ _ _ _ _ Hat). run. rewrite Hc.
  pose proof (at_pos_step _ _ _ _ _ Hat) as Hat1.
  assert (Hlen : plen = 1 + zlen l1) by (destruct Hat as (pre & _ & _ & -> & _); zl).
  assert (Hone := class_ends_cons nocase pat c m _ (Chr a) _ (IH n _ _ _ _ Hat1 ltac:(lia) ltac:(lia))).
  cbn [class_items].
  destruct (a =? BACKSLASH) eqn:Ea; cbn [andb].
  { destruct l1 as [|b l2].
    - test (2 <=? plen) false. apply Z.eqb_eq in Ea as ->. simpl. test (plen =? 0) false.
      test (3 <=? plen) false. exact Hone.
    - test (2 <=? plen) true. rewrite (at_pos_rd_cons _ _ _ _ _ Hat1). run. simpl in Hf, Hn.
      apply (class_ends_cons _ _ _ _ _ (Exact b)), IH; [by apply at_pos_steps in Hat|lia..]. }
  destruct (a =? RBRACKET) eqn:Eb.
  { exists p, plen. by split. }
  test (plen =? 0) false. destruct l1 as [|d [|b l2]].
  - by test (3 <=? plen) false.
  - by test (3 <=? plen) false.
  - test (3 <=? plen) true. rewrite (at_pos_rd_cons _ _ _ _ _ Hat1). run.
    destruct (d =? DASH); [|exact Hone]. pose proof (at_pos_steps _ _ _ _ _ _ Hat) as Hat2.
    rewrite (at_pos_rd_cons _ _ _ _ _ Hat2). run. simpl in Hf, Hn. apply at_pos_steps3 in Hat.
    apply (class_ends_cons _ _ _ _ _ (Range a b)), IH; [done|lia..].
Qed.

Lemma match_class_spec nocase fuel pat p plen l str s c :
  at_pos pat p plen (LBRACKET :: l) → rd str s = Ret c → (length l < fuel)%nat →
  ∃ p' plen', match_class fuel nocase pat p plen str s =
      Ret (p', plen', tok_b nocase c (next_tok LBRACKET l).1) ∧
    at_pos pat (p' + 1) (int_sub plen' 1) (next_tok LBRACKET l).2.
Proof.
  intros Hat Hc Hf. unfold match_class. rewrite (at_pos_rd1 _ _ _ _ _ Hat). run.
  unfold next_tok. cbn [Z.eqb LBRACKET STAR QUESTION BACKSLASH Pos.eqb].
  destruct l as [|b l'].
  { apply at_pos_step in Hat. destruct (class_loop_spec nocase fuel 0 _ _ _ _ str s c false Hat)
      as (p' & plen' & E & Hat'); [done|simpl in *; lia|done|]. simpl.
    rewrite E. run. exists p', plen'. done. }
  change (default 0 (head (b :: l'))) with b. destruct (b =? CARET).
  - apply at_pos_steps in Hat. destruct (class_loop_spec nocase fuel (length l') _ _ _ _ str s c false Hat)
      as (p' & plen' & E & Hat'); [done|simpl in *; lia|done|]. rewrite E. run.
    exists p', plen'. destruct (class_items _ _). simpl. by rewrite orb_false_r.
  - apply at_pos_step in Hat. destruct (class_loop_spec nocase fuel (length (b :: l')) _ _ _ _ str s c false Hat)
      as (p' & plen' & E & Hat'); [done|simpl in *; lia|done|]. rewrite E. run.
    exists p', plen'. destruct (class_items _ _). simpl. rewrite orb_false_r. by destruct (existsb _ _).
Qed.

Lemma match_one_spec nocase fuel pat p plen a l str s c :
  at_pos pat p plen (a :: l) → rd str s = Ret c → (length l < fuel)%nat → a ≠ STAR →
  ∃ p' plen', match_one fuel nocase pat p plen str s =
      Ret (if tok_b nocase c (next_tok a l).1 then Some (p', plen') else None) ∧
    at_pos pat p' plen' (next_tok a l).2.
Proof.
  intros Hat Hc Hf Ha. unfold match_one. rewrite (at_pos_rd_cons _ _ _ _ _ Hat). run.
  pose proof (at_pos_step _ _ _ _ _ Hat) as Hat1.
  assert (Hlen : plen = 1 + zlen l) by (destruct Hat as (pre & _ & _ & -> & _); zl).
  destruct (a =? LBRACKET) eqn:E1.
  { apply Z.eqb_eq in E1 as ->. simpl.
    destruct (match_class_spec nocase fuel _ _ _ _ str s c Hat Hc Hf) as (p' & plen' & -> & Hat').
    run. exists (p' + 1), (int_sub plen' 1). split; [|done]. by destruct (tok_b _ _ _). }
  unfold next_tok. test (a =? STAR) false. rewrite E1.
  destruct (a =? QUESTION) eqn:E2; [by exists (p + 1), (int_sub plen 1)|].
  destruct (a =? BACKSLASH) eqn:E3; cbn [andb].
  - destruct l as [|b l'].
    + test (2 <=? plen) false. rewrite (at_pos_rd_cons _ _ _ _ _ Hat). run. rewrite Hc. run. exists (p + 1), (int_sub plen 1).
      split; [|done]. simpl. by destruct (char_eq _ _ _).
    + test (2 <=? plen) true. rewrite (at_pos_rd_cons _ _ _ _ _ Hat1). run. rewrite Hc. run.
      exists (p + 1 + 1), (int_sub (int_sub plen 1) 1).
      split; [|by apply at_pos_step in Hat1]. simpl. by destruct (char_eq _ _ _).
  - rewrite (at_pos_rd_cons _ _ _ _ _ Hat). run. rewrite Hc. run. exists (p + 1), (int_sub plen 1).
    split; [|done]. simpl. by destruct (char_eq _ _ _).
Qed.

(** * The search *)

Lemma gmatch_cons nocase t ts s :
  t ≠ Star → gmatch nocase (t :: ts) s ↔
  ∃ c s', s = c :: s' ∧ tok_ok nocase c t ∧ gmatch nocase ts s'.
Proof. by destruct t. Qed.

Lemma gmatch_star_run nocase k l s :
  gmatch nocase (tokens (STAR :: replicate k STAR ++ l)) s ↔
  ∃ u s', s = u ++ s' ∧ gmatch nocase (tokens l) s'.
Proof.
  rewrite tokens_star. revert s. induction k as [|k IH]; intros s; [done|].
  change (replicate (S k) STAR ++ l) with (STAR :: replicate k STAR ++ l).
  rewrite tokens_star. split.
  - intros (u & s' & -> & (v & s'' & -> & H)%IH). exists (u ++ v), s''. by rewrite (assoc_L (++)).
  - intros (u & s' & -> & H). exists [], (u ++ s'). split; [done|]. apply IH. eauto.
Qed.

(** Only a pattern of stars matches the empty string. *)
Lemma gmatch_nil nocase k l :
  head l ≠ Some STAR → gmatch nocase (tokens (replicate k STAR ++ l)) [] ↔ l = [].
Proof.
  intros Hl. induction k as [|k IH].
  - destruct l as [|a l]; [done|]. simpl. rewrite tokens_cons.
    assert (Ha : a ≠ STAR) by (intros ->; done).
    rewrite gmatch_cons by (by apply next_tok_not_star). split; [|done]. by intros (? & ? & ? & _).
  - change (replicate (S k) STAR ++ l) with (STAR :: replicate k STAR ++ l).
    rewrite tokens_star, <-IH. split.
    + intros (u & s' & [-> ->]%symmetry%app_nil & H). done.
    + intros H. by exists [], [].
Qed.

(** [no_suffix ts s]: [ts] matches [s] from nowhere. *)
Definition no_suffix (nocase : bool) (ts : list tok) (s : list Z) : Prop :=
  ∀ u s', s = u ++ s' → ¬ gmatch nocase ts s'.

Lemma no_suffix_cons nocase t ts c s :
  t ≠ Star → no_suffix nocase ts s → no_suffix nocase (t :: ts) (c :: s).
Proof.
  intros Ht Hs u s' E (d & s'' & -> & _ & H)%(gmatch_cons _ _ _ _ Ht).
  destruct u as [|x u]; simplify_eq/=; [by apply (Hs [] s'')|].
  apply (Hs (u ++ [d]) s''); [by rewrite <-(assoc_L (++))|done].
Qed.

(** The answer is right, and the flag is only raised when the rest of the
    pattern matches from nowhere in the rest of the string. *)
Definition search_ok (nocase : bool) (ts : list tok) (s : list Z) (out : outcome (bool * bool)) : Prop :=
  ∃ b sk, out = Ret (b, sk) ∧ (b = true ↔ gmatch nocase ts s) ∧
    (b = false → sk = true → no_suffix nocase ts s).

Lemma search_ok_star nocase k l s out (b sk : bool) :
  out = Ret (b, sk) →
  (if b then ∃ u s', s = u ++ s' ∧ gmatch nocase (tokens l) s' else no_suffix nocase (tokens l) s) →
  search_ok nocase (tokens (STAR :: replicate k STAR ++ l)) s out.
Proof.
  intros -> Hb. exists b, sk. split; [done|]. rewrite gmatch_star_run. destruct b.
  - done.
  - split; [|intros _ _ u s' ->].
    + split; [done|]. intros (u & s' & -> & H). by destruct (Hb u s').
    + rewrite gmatch_star_run. intros (v & s'' & -> & H). apply (Hb (u ++ v) s''); [by rewrite (assoc_L (++))|done].
Qed.

Lemma search_ok_tok nocase t ts c s out :
  t ≠ Star → tok_ok nocase c t → search_ok nocase ts s out →
  search_ok nocase (t :: ts) (c :: s) out.
Proof.
  intros Ht Hc (b & sk & -> & Hb & Hsk). exists b, sk. split; [done|]. split.
  - rewrite Hb, gmatch_cons by done. naive_solver.
  - intros. by apply no_suffix_cons, Hsk.
Qed.

Lemma search_ok_fail nocase t ts c s :
  t ≠ Star → ¬ tok_ok nocase c t →
  search_ok nocase (t :: ts) (c :: s) (Ret (false, false)).
Proof.
  intros Ht Hc. exists false, false. split; [done|]. split; [|done].
  rewrite gmatch_cons by done. naive_solver.
Qed.

(** The end of the string: only stars may be left. *)
Lemma skip_stars_ok nocase fuel pat p plen l :
  at_pos pat p plen l → (length l < fuel)%nat →
  search_ok nocase (tokens l) [] ('(_, plen2) ← skip_stars fuel pat p plen; Ret (plen2 =? 0, false)).
Proof.
  intros Hat Hf. destruct (skip_stars_spec _ _ _ _ _ Hat Hf) as (k & l' & p' & -> & Hh & ->). run.
  exists (zlen l' =? 0), false. split; [done|]. split; [|done].
  rewrite gmatch_nil by done. rewrite Z.eqb_eq. split; [apply zlen_zero|by intros ->].
Qed.

(** [at_str str i slen s]: what is left of the string in the block is [s]. *)
Definition at_str (str : list Z) (i slen : Z) (s : list Z) : Prop :=
  ∃ pre post, str = pre ++ s ++ post ∧ i = zlen pre ∧ slen = zlen s ∧ zlen s < 2 ^ 31.

Lemma at_str_end str i slen s : at_str str i slen s → (slen =? 0) = bool_decide (s = []).
Proof. intros (pre & post & -> & -> & -> & _). destruct s; [done|]. rewrite bool_decide_eq_false_2 by done. zl. Qed.

Lemma at_str_rd str i slen c s : at_str str i slen (c :: s) → rd str i = Ret c.
Proof. intros (pre & post & -> & -> & _). by apply rd_app. Qed.

Lemma at_str_step str i slen c s : at_str str i slen (c :: s) → at_str str (i + 1) (int_sub slen 1) s.
Proof.
  intros (pre & post & -> & -> & -> & Hint). exists (pre ++ [c]), post. zlr. pose proof (zlen_nonneg s). rewrite int_sub_id by lia.
  split_and!; [by lapp|lia..].
Qed.

Definition impl_ok (fuel : nat) (nocase : bool) (pat str : list Z) : Prop :=
  ∀ p plen l i slen s, at_pos pat p plen l → at_str str i slen s → s ≠ [] → (2 * length l + length s < fuel)%nat →
    search_ok nocase (tokens l) s (stringmatchlen_impl fuel nocase pat p plen str i slen false).

Lemma star_loop_spec nocase fuel pat str p plen l i slen s :
  (∀ f, (f < fuel)%nat → impl_ok f nocase pat str) →
  at_pos pat p plen (STAR :: l) → at_str str i slen s → l ≠ [] → head l ≠ Some STAR →
  (2 * length l + length s + 1 < fuel)%nat →
  ∃ b sk : bool, star_loop fuel nocase pat p plen str i slen false = Ret (b, sk) ∧
    if b then ∃ u s', s = u ++ s' ∧ gmatch nocase (tokens l) s' else no_suffix nocase (tokens l) s.
Proof.
  revert i slen s. induction fuel as [|fuel IH]; intros i slen s Himpl Hat Hst Hl Hh Hf; [lia|].
  assert (Hnil : ¬ gmatch nocase (tokens l) []).
  { intros H. by apply (gmatch_nil nocase 0) in H. }
  cbn [star_loop]. rewrite (at_str_end _ _ _ _ Hst). destruct s as [|c rest].
  { exists false, true. split; [done|]. by intros u s' [-> ->]%symmetry%app_nil. }
  rewrite bool_decide_eq_false_2 by done.
  simpl in Hf. destruct (Himpl fuel ltac:(lia) _ _ _ _ _ (c :: rest) (at_pos_step _ _ _ _ _ Hat) Hst)
    as (b & sk & -> & Hb & Hsk); [done|simpl; lia|]. run.
  destruct b; [exists true, sk; split; [done|]; exists [], (c :: rest); naive_solver|].
  destruct sk; [exists false, true; auto|].
  destruct (IH (i + 1) (int_sub slen 1) rest) as (b & sk & -> & Hr); [intros; apply Himpl; lia|done|by eapply at_str_step|done..|lia|].
  exists b, sk. split; [done|]. destruct b.
  - destruct Hr as (u & s' & -> & H). by exists (c :: u), s'.
  - intros [|x u] s' E; simplify_eq/=; [naive_solver|by eapply Hr].
Qed.

Lemma stringmatchlen_impl_spec nocase fuel pat str : impl_ok fuel nocase pat str.
Proof.
  induction fuel as [fuel IH] using lt_wf_ind. intros p plen l i slen s Hat Hst Hs Hf.
  destruct fuel as [|fuel]; [lia|]. destruct s as [|c rest]; [done|]. cbn [stringmatchlen_impl].
  destruct (at_pos_nonneg _ _ _ _ Hat) as [_ Hpat]. rewrite (at_pos_end _ _ _ _ Hat), (at_str_end _ _ _ _ Hst).
  rewrite (bool_decide_eq_false_2 (c :: rest = [])) by done. rewrite andb_false_r, orb_false_r.
  destruct l as [|a l]; cbn [bool_decide decide decide_rel].
  { exists false, false. split; [done|]. split; [split; [done|intros H; by inversion H]|done]. }
  rewrite bool_decide_eq_false_2 by done. rewrite (at_pos_rd_cons _ _ _ _ _ Hat). run. simpl in Hpat.
  destruct (a =? STAR) eqn:E.
  - apply Z.eqb_eq in E as ->.
    destruct (skip_star_run_spec (S (length pat)) _ _ _ _ Hat) as (k & l' & p' & plen' & -> & Hh & -> & Hat'); [lia|]. run.
    simpl in Hf. rewrite length_app, length_replicate in Hf.
    assert (Hplen : plen' = 1 + zlen l') by (destruct Hat' as (? & _ & _ & -> & _); zl).
    destruct (decide (l' = [])) as [->|Hl'].
    + test (plen' =? 1) true.
      apply (search_ok_star _ _ _ _ _ true false); [done|].
      exists (c :: rest), []. by rewrite app_nil_r.
    + replace (plen' =? 1) with false by (destruct l'; [done|zl]).
      destruct (star_loop_spec nocase fuel pat str _ _ l' _ _ (c :: rest) ltac:(intros; apply IH; lia) Hat' Hst)
        as (b & sk & E & Hb); [done..|simpl; lia|]. by eapply search_ok_star.
  - assert (Ha : a ≠ STAR) by lia.
    destruct (match_one_spec nocase (S (length pat)) _ _ _ _ _ str i c Hat (at_str_rd _ _ _ _ _ Hst) ltac:(lia) Ha)
      as (p' & plen' & -> & Hat').
    run. rewrite tokens_cons. pose proof (next_tok_not_star a l Ha) as Ht. pose proof (next_tok_rest a l) as Hr.
    destruct (next_tok a l) as [t r]. simpl fst in *; simpl snd in *. pose proof (tok_b_spec nocase c t) as Hb.
    destruct (tok_b nocase c t); [|apply search_ok_fail; [done|naive_solver]].
    apply search_ok_tok; [done|by apply Hb|]. simpl in Hf. apply at_str_step in Hst. rewrite (at_str_end _ _ _ _ Hst).
    destruct rest as [|c' rest].
    + apply skip_stars_ok; [done|lia].
    + rewrite bool_decide_eq_false_2 by done. apply IH; [lia|done..|simpl in *; lia].
Qed.

(** * What the functions decide *)

(** C7. [stringmatchlen] on a NUL-terminated pattern and the bytes of a string,
    each of less than 2^31 bytes (the lengths are of type [int]), always returns,
    never reads past the terminator or the end of the string, and answers whether
    the reference matcher accepts the string; the flag that stops the search early
    never changes the answer.  The empty string is the exception: only the empty
    pattern matches it.  [stringmatch] does the same on two C strings of less than
    2^31 bytes; its conversion of the lengths from [size_t] to [int] drops the
    high bits of longer ones, so that a string of 2^32 bytes is matched as the
    empty one. *)
Theorem stringmatchlen_exact nocase (pattern string rest : list Z) :
  (zlen pattern < 2 ^ 31 → zlen string < 2 ^ 31 →
   ∃ b, stringmatchlen (pattern ++ [0]) (zlen pattern) (string ++ rest) (zlen string) nocase = Ret b ∧
     (b = true ↔ if decide (string = []) then pattern = [] else gmatch nocase (tokens pattern) string) ∧
     (0 ∉ pattern → 0 ∉ string → stringmatch (pattern ++ [0]) (string ++ [0]) nocase = Ret b)) ∧
  (0 ∉ pattern → 0 ∉ string → zlen pattern < 2 ^ 31 → zlen string = 2 ^ 32 →
   stringmatch (pattern ++ [0]) (string ++ [0]) nocase = Ret (bool_decide (pattern = []))).
Proof.
  assert (Hempty : ∀ str, zlen pattern < 2 ^ 31 →
    stringmatchlen (pattern ++ [0]) (zlen pattern) str 0 nocase = Ret (bool_decide (pattern = []))).
  { intros str Hp. unfold stringmatchlen. cbn [stringmatchlen_impl]. rewrite orb_true_r, andb_true_r. run.
    rewrite (at_pos_end (pattern ++ [0]) 0 (zlen pattern) pattern); [done|by exists []]. }
  pose proof (zlen_nonneg pattern). split.
  - intros Hp Hs. assert (Hall : ∀ post, ∃ b, stringmatchlen (pattern ++ [0]) (zlen pattern) (string ++ post) (zlen string) nocase = Ret b ∧
      (b = true ↔ if decide (string = []) then pattern = [] else gmatch nocase (tokens pattern) string)).
    { intros post. destruct (decide (string = [])) as [->|Hne].
      - eexists. split; [by apply Hempty|]. apply bool_decide_eq_true.
      - unfold stringmatchlen.
        destruct (stringmatchlen_impl_spec nocase (S (2 * length (pattern ++ [0]) + length (string ++ post)))
          (pattern ++ [0]) (string ++ post) 0 (zlen pattern) pattern 0 (zlen string) string) as (b & sk & -> & Hb & _);
          [by exists []|by exists [], post|done|zl|]. run. eauto. }
    destruct (Hall rest) as (b & E & Hb). exists b. split_and!; [done..|]. intros Hp0 Hs0.
    unfold stringmatch. rewrite !strlen_app by done. run. pose proof (zlen_nonneg string).
    rewrite !wraps_id by (simpl; lia). destruct (Hall [0]) as (b' & -> & Hb'). f_equal. destruct b, b'; naive_solver.
  - intros Hp0 Hs0 Hp Hs. unfold stringmatch. rewrite !strlen_app by done. run. rewrite Hs, wraps_id by (simpl; lia).
    by apply Hempty.
Qed.

Lemma stringmatchlen_exact_witness :
  stringmatchlen (cstr "h[^a-c]*l?o\*" ++ [0]) 13 (cstr "hEy lllXo*") 10 false = Ret true ∧
  stringmatch (cstr "a*b*C" ++ [0]) (cstr "xaabbc" ++ [0]) true = Ret false.
Proof.
  split; [vm_compute; reflexivity|].
  destruct (proj1 (stringmatchlen_exact true (cstr "a*b*C") (cstr "xaabbc") []) ltac:(by vm_compute) ltac:(by vm_compute)) as (b & E & _ & Hm).
  rewrite (Hm ltac:(by vm_compute; set_solver) ltac:(by vm_compute; set_solver)), <- E.
  vm_compute. reflexivity.
Defined.

End Glob.
