(* ===== verification/Adlist.v ===== *)
(** Doubly linked lists: [src/.../redis-6.2/src/adlist.c] and [adlist.h].

    The nodes live in a heap of their own and a null pointer is 0.  [list_rep]
    relates a list to the addresses of its nodes and to their values.  The
    values are pointers the list does not look into; the functions set with
    [listSetDupMethod] and [listSetMatchMethod] and the addresses the allocator
    returns are arguments of the model. *)
From stdpp Require Import gmap.
From S2P Require Import Prelude.

Module Adlist.

(** * Data (adlist.h) *)

Record listNode := ListNode { prev : Z; next : Z; value : Z }.

Inductive direction := AL_START_HEAD | AL_START_TAIL.

Record listIter := ListIter { it_next : Z; it_direction : direction }.

(** The struct [list]; the free method has no effect on the list. *)
Record list_t := List_t {
  head : Z;
  tail : Z;
  dup : option (Z → Z);
  match_ : option (Z → Z → bool);
  len : Z;
}.

Abbreviation heap := (gmap Z listNode).

(** The address of a new node. *)
Class NodeAlloc := new_node : gset Z → Z.
Class NodeAllocLaws (A : NodeAlloc) : Prop :=
  new_node_fresh : ∀ X, (new_node X ∉ X) ∧ new_node X ≠ 0.

Definition set_ends (l : list_t) (h t n : Z) : list_t := List_t h t (dup l) (match_ l) n.

(** [*p], and assignments to the fields of a node. *)
Definition deref (h : heap) (p : Z) : outcome listNode :=
  match h !! p with Some n => Ret n | None => Fault end.
Definition set_prev (h : heap) (p q : Z) : outcome heap :=
  n ← deref h p; Ret (<[p := ListNode q (next n) (value n)]> h).
Definition set_next (h : heap) (p q : Z) : outcome heap :=
  n ← deref h p; Ret (<[p := ListNode (prev n) q (value n)]> h).

(** * Operations (adlist.c) *)

Definition listCreate : list_t := List_t 0 0 None None 0.

(** [while(len--)] *)
Fixpoint empty_loop (n : nat) (h : heap) (current : Z) : outcome heap :=
  match n with
  | O => Ret h
  | S n => nd ← deref h current; empty_loop n (delete current h) (next nd)
  end.

Definition listEmpty (h : heap) (l : list_t) : outcome (heap * list_t) :=
  h ← empty_loop (Z.to_nat (len l)) h (head l);
  Ret (h, set_ends l 0 0 0).

Section operations.
Context {A : NodeAlloc}.

Definition listAddNodeHead (h : heap) (l : list_t) (v : Z) : outcome (heap * list_t) :=
  let node := new_node (dom h) in
  if len l =? 0 then
    Ret (<[node := ListNode 0 0 v]> h, set_ends l node node (u64 (len l + 1)))
  else
    h ← set_prev (<[node := ListNode 0 (head l) v]> h) (head l) node;
    Ret (h, set_ends l node (tail l) (u64 (len l + 1))).

Definition listAddNodeTail (h : heap) (l : list_t) (v : Z) : outcome (heap * list_t) :=
  let node := new_node (dom h) in
  if len l =? 0 then
    Ret (<[node := ListNode 0 0 v]> h, set_ends l node node (u64 (len l + 1)))
  else
    h ← set_next (<[node := ListNode (tail l) 0 v]> h) (tail l) node;
    Ret (h, set_ends l (head l) node (u64 (len l + 1))).

Definition listInsertNode (h : heap) (l : list_t) (old_node v : Z) (after : bool)
    : outcome (heap * list_t) :=
  let node := new_node (dom h) in
  old ← deref h old_node;
  let '(nd, l) :=
    if after then
      (ListNode old_node (next old) v,
       if tail l =? old_node then set_ends l (head l) node (len l) else l)
    else
      (ListNode (prev old) old_node v,
       if head l =? old_node then set_ends l node (tail l) (len l) else l) in
  let h := <[node := nd]> h in
  h ← (if negb (prev nd =? 0) then set_next h (prev nd) node else Ret h);
  h ← (if negb (next nd =? 0) then set_prev h (next nd) node else Ret h);
  Ret (h, set_ends l (head l) (tail l) (u64 (len l + 1))).

Definition listDelNode (h : heap) (l : list_t) (node : Z) : outcome (heap * list_t) :=
  nd ← deref h node;
  '(h, l) ← (if negb (prev nd =? 0) then h ← set_next h (prev nd) (next nd); Ret (h, l)
             else Ret (h, set_ends l (next nd) (tail l) (len l)));
  '(h, l) ← (if negb (next nd =? 0) then h ← set_prev h (next nd) (prev nd); Ret (h, l)
             else Ret (h, set_ends l (head l) (prev nd) (len l)));
  Ret (delete node h, set_ends l (head l) (tail l) (u64 (len l - 1))).

Definition listGetIterator (l : list_t) (d : direction) : listIter :=
  match d with
  | AL_START_HEAD => ListIter (head l) d
  | AL_START_TAIL => ListIter (tail l) d
  end.
Definition listRewind (l : list_t) : listIter := ListIter (head l) AL_START_HEAD.
Definition listRewindTail (l : list_t) : listIter := ListIter (tail l) AL_START_TAIL.

(** The iterator moved on, and the node or 0. *)
Definition listNext (h : heap) (it : listIter) : outcome (listIter * Z) :=
  let current := it_next it in
  if negb (current =? 0) then
    nd ← deref h current;
    match it_direction it with
    | AL_START_HEAD => Ret (ListIter (next nd) (it_direction it), current)
    | AL_START_TAIL => Ret (ListIter (prev nd) (it_direction it), current)
    end
  else Ret (it, current).

(** [while((node = listNext(&iter)) != NULL)] of [listDup]; [None] is the null
    pointer returned when the dup method fails, after the copy is released. *)
Fixpoint dup_loop (fuel : nat) (h : heap) (it : listIter) (copy : list_t)
    : outcome (heap * option list_t) :=
  match fuel with
  | O => OutOfFuel
  | S fuel =>
    '(it, node) ← listNext h it;
    if node =? 0 then Ret (h, Some copy)
    else
      nd ← deref h node;
      let v := match dup copy with Some f => f (value nd) | None => value nd end in
      if bool_decide (is_Some (dup copy)) && (v =? 0) then '(h, _) ← listEmpty h copy; Ret (h, None)
      else
        '(h, copy) ← listAddNodeTail h copy v;
        dup_loop fuel h it copy
  end.

Definition listDup (h : heap) (orig : list_t) : outcome (heap * option list_t) :=
  dup_loop (S (Z.to_nat (len orig))) h (listRewind orig) (List_t 0 0 (dup orig) (match_ orig) 0).

End operations.

Fixpoint search_loop (fuel : nat) (h : heap) (l : list_t) (key : Z) (it : listIter) : outcome Z :=
  match fuel with
  | O => OutOfFuel
  | S fuel =>
    '(it, node) ← listNext h it;
    if node =? 0 then Ret 0
    else
      nd ← deref h node;
      if match match_ l with Some f => f (value nd) key | None => key =? value nd end then Ret node
      else search_loop fuel h l key it
  end.

Definition listSearchKey (h : heap) (l : list_t) (key : Z) : outcome Z :=
  search_loop (S (Z.to_nat (len l))) h l key (listRewind l).

(** [while(index-- && n) n = ...]; [fuel] bounds the nodes passed. *)
Fixpoint index_loop (fuel : nat) (h : heap) (d : direction) (index n : Z) : outcome Z :=
  match fuel with
  | O => OutOfFuel
  | S fuel =>
    if (index =? 0) || (n =? 0) then Ret n
    else
      nd ← deref h n;
      index_loop fuel h d (index - 1) (match d with AL_START_HEAD => next nd | AL_START_TAIL => prev nd end)
  end.

Definition listIndex (h : heap) (l : list_t) (index : Z) : outcome Z :=
  let fuel := S (Z.to_nat (len l)) in
  if index =? - 2 ^ 63 then Fault (* [-index] is not a [long] *)
  else if index <? 0 then index_loop fuel h AL_START_TAIL (- index - 1) (tail l)
  else index_loop fuel h AL_START_HEAD index (head l).

Definition listRotateTailToHead (h : heap) (l : list_t) : outcome (heap * list_t) :=
  if len l <=? 1 then Ret (h, l)
  else
    let t := tail l in
    nt ← deref h t;
    h ← set_next h (prev nt) 0;
    h ← set_prev h (head l) t;
    h ← set_prev h t 0;
    h ← set_next h t (head l);
    Ret (h, set_ends l t (prev nt) (len l)).

Definition listRotateHeadToTail (h : heap) (l : list_t) : outcome (heap * list_t) :=
  if len l <=? 1 then Ret (h, l)
  else
    let hd := head l in
    nh ← deref h hd;
    h ← set_prev h (next nh) 0;
    h ← set_next h (tail l) hd;
    h ← set_next h hd 0;
    h ← set_prev h hd (tail l);
    Ret (h, set_ends l (next nh) hd (len l)).

Definition listJoin (h : heap) (l o : list_t) : outcome (heap * list_t * list_t) :=
  if len o =? 0 then Ret (h, l, o)
  else
    h ← set_prev h (head o) (tail l);
    '(h, hd) ← (if negb (tail l =? 0) then h ← set_next h (tail l) (head o); Ret (h, head l)
                else Ret (h, head o));
    Ret (h, set_ends l hd (tail o) (u64 (len l + len o)), set_ends o 0 0 0).

(** * Representation *)

(** The first and the last of a list of nodes, or the pointer beyond it. *)
Definition first (nx : Z) (l : list Z) : Z := match l with [] => nx | x :: _ => x end.
Definition final (pv : Z) (l : list Z) : Z := default pv (last l).

(** The nodes [l] hold the values [vs] and are linked in both directions;
    [pv] and [nx] are the nodes before and behind. *)
Fixpoint seg (h : heap) (pv : Z) (l vs : list Z) (nx : Z) : Prop :=
  match l, vs with
  | [], [] => True
  | x :: l, v :: vs => h !! x = Some (ListNode pv (first nx l) v) ∧ seg h x l vs nx
  | _, _ => False
  end.

Record list_rep (h : heap) (L : list_t) (l vs : list Z) : Prop := {
  rep_head : head L = first 0 l;
  rep_tail : tail L = final 0 l;
  rep_len : len L = zlen l;
  rep_seg : seg h 0 l vs 0;
  rep_nodup : NoDup l;
  rep_nonnull : 0 ∉ l;
  rep_small : zlen l < 2 ^ 64;
}.

(** [h'] differs from [h] in the nodes [l] only. *)
Definition frame (l : list Z) (h h' : heap) : Prop :=
  (∀ y, y ∉ l → h' !! y = h !! y) ∧ dom h' = dom h.

(** * Lemmas on segments *)

Lemma seg_length h pv l vs nx : seg h pv l vs nx → length vs = length l.
Proof. revert pv vs. induction l as [|x l IH]; intros pv [|v vs]; simpl; try done. intros [_ Hs]. by rewrite (IH x vs). Qed.

Lemma first_app nx l k : first nx (l ++ k) = first (first nx k) l.
Proof. by destruct l. Qed.

Lemma final_app pv l k : final pv (l ++ k) = final (final pv l) k.
Proof. unfold final. rewrite last_app. by destruct (last k). Qed.

Lemma final_cons pv x l : final pv (x :: l) = final x l.
Proof. unfold final. rewrite last_cons. by destruct (last l). Qed.

Lemma final_snoc pv l x : final pv (l ++ [x]) = x.
Proof. unfold final. by rewrite last_snoc. Qed.

Lemma final_in pv l : l ≠ [] → final pv l ∈ l ∧ ∀ q, final q l = final pv l.
Proof. destruct l as [|x l _] using rev_ind; [done|]. intros _. rewrite final_snoc. split; [set_solver|]. intros q. apply final_snoc. Qed.

Lemma first_in nx l : l ≠ [] → first nx l ∈ l ∧ ∀ q, first q l = first nx l.
Proof. destruct l; [done|]. intros _. split; [set_solver|done]. Qed.

Lemma seg_app h pv l1 l2 vs1 vs2 nx :
  length l1 = length vs1 →
  seg h pv (l1 ++ l2) (vs1 ++ vs2) nx ↔ seg h pv l1 vs1 (first nx l2) ∧ seg h (final pv l1) l2 vs2 nx.
Proof.
  revert pv vs1. induction l1 as [|x l1 IH]; intros pv [|v vs1] Hl; try done.
  - simpl. tauto.
  - simpl. rewrite (IH x vs1) by (simpl in Hl; lia). rewrite final_cons, first_app. tauto.
Qed.

Lemma seg_split h pv l1 l2 vs nx :
  seg h pv (l1 ++ l2) vs nx →
  ∃ vs1 vs2, vs = vs1 ++ vs2 ∧ length l1 = length vs1 ∧
    seg h pv l1 vs1 (first nx l2) ∧ seg h (final pv l1) l2 vs2 nx.
Proof.
  intros Hs. exists (take (length l1) vs), (drop (length l1) vs). rewrite take_drop.
  assert (length l1 = length (take (length l1) vs)) as Hl.
  { apply seg_length in Hs. rewrite length_app in Hs. rewrite length_take. lia. }
  split_and!; [done..| |]; apply (seg_app h pv l1 l2 (take (length l1) vs) (drop (length l1) vs)); try done;
    by rewrite take_drop.
Qed.

Lemma seg_agree h h' pv l vs nx : (∀ x, x ∈ l → h' !! x = h !! x) → seg h pv l vs nx → seg h' pv l vs nx.
Proof.
  revert pv vs. induction l as [|x l IH]; intros pv [|v vs] Hx; simpl; try done.
  intros [He Hs]. split; [by rewrite Hx by set_solver|]. apply IH; [set_solver|done].
Qed.

Lemma seg_insert h pv l vs nx x n : x ∉ l → seg h pv l vs nx → seg (<[x := n]> h) pv l vs nx.
Proof. intros Hx. apply seg_agree. intros y Hy. rewrite lookup_insert_ne; [done|set_solver]. Qed.

Lemma seg_delete h pv l vs nx x : x ∉ l → seg h pv l vs nx → seg (delete x h) pv l vs nx.
Proof. intros Hx. apply seg_agree. intros y Hy. rewrite lookup_delete_ne; [done|set_solver]. Qed.

Lemma deref_node h x n : h !! x = Some n → deref h x = Ret n.
Proof. intros Hx. unfold deref. by rewrite Hx. Qed.

Lemma set_prev_node h x p n v q :
  h !! x = Some (ListNode p n v) → set_prev h x q = Ret (<[x := ListNode q n v]> h).
Proof. intros Hx. unfold set_prev. by rewrite (deref_node _ _ _ Hx). Qed.

Lemma set_next_node h x p n v q :
  h !! x = Some (ListNode p n v) → set_next h x q = Ret (<[x := ListNode p q v]> h).
Proof. intros Hx. unfold set_next. by rewrite (deref_node _ _ _ Hx). Qed.

Lemma frame_refl l h : frame l h h.
Proof. done. Qed.

Lemma frame_trans l1 l2 h h1 h2 : frame l1 h h1 → frame l2 h1 h2 → frame (l1 ++ l2) h h2.
Proof.
  intros [H1 D1] [H2 D2]. split; [|congruence]. intros y [? ?]%not_elem_of_app. by rewrite H2, H1.
Qed.

Lemma frame_update l h x n n' : h !! x = Some n → x ∈ l → frame l h (<[x := n']> h).
Proof.
  intros Hx Hl. split.
  - intros y Hy. rewrite lookup_insert_ne; [done|set_solver].
  - rewrite dom_insert_L. apply elem_of_dom_2 in Hx. set_solver.
Qed.

Lemma seg_frame l' h h' pv l vs nx : frame l' h h' → l ## l' → seg h pv l vs nx → seg h' pv l vs nx.
Proof. intros [Hf _] Hd. apply seg_agree. intros x Hx. apply Hf. set_solver. Qed.

(** Relink the first node of a segment, if there is one. *)
Lemma relink_first h pv l vs nx q :
  seg h pv l vs nx → NoDup l → 0 ∉ l →
  ∃ h', (if negb (first 0 l =? 0) then set_prev h (first 0 l) q else Ret h) = Ret h' ∧
    seg h' q l vs nx ∧ frame l h h'.
Proof.
  destruct l as [|x l], vs as [|v vs]; try done; intros Hs Hd H0.
  - by exists h.
  - destruct Hs as [Hx Hs]. apply NoDup_cons in Hd as [Hn Hd]. apply not_elem_of_cons in H0 as [H0 _].
    cbn [first]. test (x =? 0) false. cbn [negb]. rewrite (set_prev_node _ _ _ _ _ _ Hx).
    eexists. split; [done|]. split; [|eapply frame_update; [done|set_solver]].
    simpl. rewrite lookup_insert_eq. split; [done|by apply seg_insert].
Qed.

(** Relink the last node of a segment, if there is one. *)
Lemma relink_last h pv l vs nx q :
  seg h pv l vs nx → NoDup l → 0 ∉ l →
  ∃ h', (if negb (final 0 l =? 0) then set_next h (final 0 l) q else Ret h) = Ret h' ∧
    seg h' pv l vs q ∧ frame l h h'.
Proof.
  destruct l as [|x l _] using rev_ind; intros Hs Hd H0.
  - exists h. destruct vs; done.
  - apply seg_split in Hs as (vs1 & vs2 & -> & Hl & Hs1 & Hs2).
    destruct vs2 as [|v [|? ?]]; simpl in Hs2; [done| |naive_solver]. destruct Hs2 as [Hx _].
    rewrite <- Permutation_cons_append in Hd. apply NoDup_cons in Hd as [Hn Hd].
    assert (x ≠ 0) by (intros ->; apply H0; set_solver).
    rewrite final_snoc. test (x =? 0) false. cbn [negb].
    rewrite (set_next_node _ _ _ _ _ _ Hx). eexists. split; [done|]. split; [|eapply frame_update; [done|set_solver]].
    apply seg_app; [done|]. split; [by apply seg_insert|]. simpl. by rewrite lookup_insert_eq.
Qed.

(** The end pointers are null exactly for an empty list. *)
Lemma first_null l : 0 ∉ l → (first 0 l =? 0) = bool_decide (l = []).
Proof. destruct l; [done|]. rewrite not_elem_of_cons. intros [? _]. rewrite bool_decide_false by done. simpl. lia. Qed.

Lemma final_null l : 0 ∉ l → (final 0 l =? 0) = bool_decide (l = []).
Proof.
  destruct l as [|x l _] using rev_ind; [done|]. intros H0. rewrite final_snoc, bool_decide_false by (by destruct l).
  assert (x ≠ 0) by (intros ->; apply H0; set_solver). lia.
Qed.

End Adlist.
