(* ===== verification/AdlistSpec.v ===== *)
(** Theorems about doubly linked lists (component [Adlist]): every operation
    has the effect of the corresponding operation on the list of values and
    touches no node of another list. *)
From stdpp Require Import gmap.
From S2P Require Import Prelude Adlist.

Module AdlistSpec.
Import Adlist.

(** What a call leaves: the list has the nodes [l] with the values [vs] and
    the methods it had, and no node outside [t] was touched. *)
Record updated (h : heap) (L : list_t) (h' : heap) (L' : list_t) (l vs t : list Z) : Prop := {
  upd_rep : list_rep h' L' l vs;
  upd_dup : dup L' = dup L;
  upd_match : match_ L' = match_ L;
  upd_frame : ∀ y, y ∉ t → h' !! y = h !! y;
}.

(** Operations of a client that reaches nodes through [listIndex]. *)
Inductive op :=
  | AddHead (v : Z) | AddTail (v : Z)
  | InsertAt (i v : Z) (after : bool)
  | DelAt (i : Z)
  | RotateTail | RotateHead | Clear.

Definition op_ok (o : op) : Prop :=
  match o with InsertAt i _ _ | DelAt i => - 2 ^ 63 < i < 2 ^ 63 | _ => True end.

Definition run_op {A : NodeAlloc} (h : heap) (L : list_t) (o : op) : outcome (heap * list_t) :=
  match o with
  | AddHead v => listAddNodeHead h L v
  | AddTail v => listAddNodeTail h L v
  | InsertAt i v after =>
      node ← listIndex h L i;
      if node =? 0 then Ret (h, L) else listInsertNode h L node v after
  | DelAt i =>
      node ← listIndex h L i;
      if node =? 0 then Ret (h, L) else listDelNode h L node
  | RotateTail => listRotateTailToHead h L
  | RotateHead => listRotateHeadToTail h L
  | Clear => listEmpty h L
  end.

Fixpoint run_ops {A : NodeAlloc} (h : heap) (L : list_t) (os : list op) : outcome (heap * list_t) :=
  match os with
  | [] => Ret (h, L)
  | o :: os => '(h, L) ← run_op h L o; run_ops h L os
  end.

(** The same operations on a sequence; an index counts from the end when it
    is negative. *)
Definition index_of (n : nat) (i : Z) : option nat :=
  if 0 <=? i then if i <? Z.of_nat n then Some (Z.to_nat i) else None
  else if - i <=? Z.of_nat n then Some (Z.to_nat (Z.of_nat n + i)) else None.

Definition spec_op (vs : list Z) (o : op) : list Z :=
  match o with
  | AddHead v => v :: vs
  | AddTail v => vs ++ [v]
  | InsertAt i v after =>
      match index_of (length vs) i with
      | Some k => let k := if after then S k else k in take k vs ++ v :: drop k vs
      | None => vs
      end
  | DelAt i =>
      match index_of (length vs) i with
      | Some k => take k vs ++ drop (S k) vs
      | None => vs
      end
  | RotateTail => match reverse vs with v :: r => v :: reverse r | [] => [] end
  | RotateHead => match vs with v :: vs => vs ++ [v] | [] => [] end
  | Clear => []
  end.

(** Between [h] and [h'] a list with the nodes [l] has become one with the
    nodes [l']: its new nodes were free, the nodes it gave up are free, and
    every other node is as it was. *)
Record exchange (h : heap) (l : list Z) (h' : heap) (l' : list Z) : Prop := {
  ex_new : ∀ y, y ∈ l' → y ∉ l → h !! y = None;
  ex_old : ∀ y, y ∈ l → y ∉ l' → h' !! y = None;
  ex_other : ∀ y, y ∉ l → y ∉ l' → h' !! y = h !! y;
}.

(** The test of [listSearchKey]. *)
Definition key_matches (L : list_t) (key v : Z) : bool :=
  match match_ L with Some f => f v key | None => key =? v end.

(** The values of a copy; [None] when the dup method gives the null pointer. *)
Definition dup_value (L : list_t) (v : Z) : option Z :=
  match dup L with Some f => if f v =? 0 then None else Some (f v) | None => Some v end.

(** An allocator, and two lists in one heap; the methods of the second compare
    modulo 10, double a value and cannot copy 7. *)
#[local] Instance ex_nodes : NodeAlloc := λ X, fresh ({[0]} ∪ X).

Definition ex_heap : heap :=
  list_to_map [(1, ListNode 0 5 10); (5, ListNode 1 3 20); (3, ListNode 5 0 30);
               (8, ListNode 0 9 1); (9, ListNode 8 0 17)].
Definition ex_list : list_t := List_t 1 3 None None 3.
Definition ex_second : list_t :=
  List_t 8 9 (Some (λ v, if v =? 7 then 0 else 2 * v)) (Some (λ v key, v `mod` 10 =? key)) 2.
Definition ex_ops : list op :=
  [InsertAt (-1) 25 false; DelAt 0; RotateTail; AddTail 40; InsertAt 9 0 true; RotateHead].

Lemma seg_dom h pv l vs nx x : seg h pv l vs nx → x ∈ l → x ∈ dom h.
Proof.
  revert pv vs. induction l as [|y l IH]; intros pv [|v vs]; simpl; try done; [set_solver|].
  intros [Hy Hs] [->|Hx]%elem_of_cons; [by eapply elem_of_dom_2|by eapply IH].
Qed.

(** A new node between the segments [a] and [b]. *)
Lemma link_between h a b vsa vsb x v :
  seg h 0 a vsa (first 0 b) → seg h (final 0 a) b vsb 0 → NoDup (a ++ b) → 0 ∉ a ++ b →
  x ∉ dom h → x ≠ 0 →
  ∃ h1 h2, let h0 := <[x := ListNode (final 0 a) (first 0 b) v]> h in
    (if negb (final 0 a =? 0) then set_next h0 (final 0 a) x else Ret h0) = Ret h1 ∧
    (if negb (first 0 b =? 0) then set_prev h1 (first 0 b) x else Ret h1) = Ret h2 ∧
    seg h2 0 (a ++ x :: b) (vsa ++ v :: vsb) 0 ∧
    (∀ y, y ∉ a ++ x :: b → h2 !! y = h !! y) ∧ dom h2 = {[x]} ∪ dom h.
Proof.
  intros Ha Hb Hnd H0 Hx Hx0. apply NoDup_app in Hnd as (Hda & Hdis & Hdb).
  apply not_elem_of_app in H0 as [H0a H0b].
  assert (x ∉ a) by (intros Hi; exact (Hx (seg_dom _ _ _ _ _ _ Ha Hi))).
  assert (x ∉ b) by (intros Hi; exact (Hx (seg_dom _ _ _ _ _ _ Hb Hi))).
  set (h0 := <[x := ListNode (final 0 a) (first 0 b) v]> h).
  destruct (relink_last h0 0 a vsa (first 0 b) x) as (h1 & E1 & Hs1 & Hf1); [by apply seg_insert|done..|].
  destruct (relink_first h1 (final 0 a) b vsb 0 x) as (h2 & E2 & Hs2 & Hf2); [|done..|].
  { eapply seg_frame; [exact Hf1|set_solver|]. by apply seg_insert. }
  exists h1, h2. cbn zeta. split_and!; [done..| | |].
  - apply seg_app; [by apply seg_length in Ha|]. cbn [first]. split.
    + eapply seg_frame; [exact Hf2|set_solver|done].
    + simpl. split; [|done]. destruct Hf1 as [Hf1 _], Hf2 as [Hf2 _].
      rewrite Hf2, Hf1 by done. apply lookup_insert_eq.
  - intros y Hy. destruct Hf1 as [Hf1 _], Hf2 as [Hf2 _]. rewrite Hf2, Hf1 by set_solver.
    apply lookup_insert_ne. set_solver.
  - destruct Hf1 as [_ D1], Hf2 as [_ D2]. rewrite D2, D1. apply dom_insert_L.
Qed.

(** The representation of a list without node [x]. *)
Lemma unlink_node h a x b vs :
  seg h 0 (a ++ x :: b) vs 0 → NoDup (a ++ x :: b) → 0 ∉ a ++ x :: b →
  ∃ vsa v vsb h1 h2, vs = vsa ++ v :: vsb ∧ length vsa = length a ∧
    h !! x = Some (ListNode (final 0 a) (first 0 b) v) ∧
    (if negb (final 0 a =? 0) then set_next h (final 0 a) (first 0 b) else Ret h) = Ret h1 ∧
    (if negb (first 0 b =? 0) then set_prev h1 (first 0 b) (final 0 a) else Ret h1) = Ret h2 ∧
    seg (delete x h2) 0 (a ++ b) (vsa ++ vsb) 0 ∧
    (∀ y, y ∉ a ++ x :: b → delete x h2 !! y = h !! y) ∧ dom (delete x h2) = dom h ∖ {[x]}.
Proof.
  intros (vsa & vs2 & -> & Hl & Ha & Hxb)%seg_split Hnd H0.
  destruct vs2 as [|v vsb]; simpl in Hxb; [done|]. destruct Hxb as [Hx Hb]. cbn [first] in Ha.
  apply NoDup_app in Hnd as (Hda & Hdis & Hdb). apply NoDup_cons in Hdb as [Hxb Hdb].
  assert (x ∉ a) as Hxa by (intros Hi; apply (Hdis x Hi); set_solver).
  assert ((0 ∉ a) ∧ (0 ∉ b)) as [H0a H0b] by set_solver.
  destruct (relink_last h 0 a vsa x (first 0 b)) as (h1 & E1 & Hs1 & Hf1); [done..|].
  destruct (relink_first h1 x b vsb 0 (final 0 a)) as (h2 & E2 & Hs2 & Hf2); [|done..|].
  { eapply seg_frame; [exact Hf1|set_solver|done]. }
  exists vsa, v, vsb, h1, h2. split_and!; [done..| | |].
  - apply seg_app; [done|]. split; apply seg_delete; try done. eapply seg_frame; [exact Hf2|set_solver|done].
  - intros y Hy. destruct Hf1 as [Hf1 _], Hf2 as [Hf2 _]. rewrite lookup_delete_ne by set_solver.
    rewrite Hf2, Hf1 by set_solver. done.
  - destruct Hf1 as [_ D1], Hf2 as [_ D2]. by rewrite dom_delete_L, D2, D1.
Qed.

Section updates.
Context {A : NodeAlloc} {AL : NodeAllocLaws A}.

Lemma grown_rep h L a b vsa vsb x v hd tl :
  seg h 0 (a ++ x :: b) (vsa ++ v :: vsb) 0 → NoDup (a ++ b) → 0 ∉ a ++ b → x ∉ a ++ b → x ≠ 0 →
  zlen (a ++ b) + 1 < 2 ^ 64 → len L = zlen (a ++ b) →
  hd = first 0 (a ++ x :: b) → tl = final 0 (a ++ x :: b) →
  list_rep h (set_ends L hd tl (u64 (len L + 1))) (a ++ x :: b) (vsa ++ v :: vsb).
Proof.
  intros Hs Hd H0 Hx Hx0 Hn Hl -> ->. pose proof (zlen_nonneg (a ++ b)). split; cbn; try done.
  - rewrite wrapu_id, Hl by lia. zlr. lia.
  - rewrite <- Permutation_middle. by apply NoDup_cons.
  - set_solver.
  - zlr. lia.
Qed.

Lemma listAddNodeHead_spec h L l vs v :
  list_rep h L l vs → zlen l + 1 < 2 ^ 64 →
  ∃ h' L' x, listAddNodeHead h L v = Ret (h', L') ∧ (x ∉ dom h) ∧
    updated h L h' L' (x :: l) (v :: vs) (x :: l).
Proof.
  intros [Hh Ht Hl Hs Hd H0 _] Hn. destruct (new_node_fresh (dom h)) as [Hx Hx0].
  set (x := new_node (dom h)) in *.
  destruct (link_between h [] l [] vs x v) as (h1 & h2 & E1 & E2 & Hs2 & Hf2 & _); [done..|].
  cbn in E1. injection E1 as <-. cbn [app first final last default] in *.
  assert (x ∉ l) by (intros Hi; exact (Hx (seg_dom _ _ _ _ _ _ Hs Hi))).
  unfold listAddNodeHead. fold x. rewrite Hl, Hh. destruct l as [|y l].
  - cbn in E2. injection E2 as <-. eexists _, _, x. split; [done|]. split; [done|]. split; [|done..].
    rewrite <- Hl. by apply (grown_rep _ L [] [] []).
  - zlr. pose proof (zlen_nonneg l). test (1 + zlen l =? 0) false.
    apply not_elem_of_cons in H0 as H0'. rewrite (proj2 (Z.eqb_neq (first 0 (y :: l)) 0)) in E2 by (cbn; naive_solver).
    cbn [negb] in E2. change (final 0 []) with 0 in E2. rewrite E2. run. eexists _, _, x. split; [done|]. split; [done|]. split; [|done..].
    rewrite Ht. replace (1 + zlen l) with (len L) by (rewrite Hl; zlr; lia).
    apply (grown_rep _ L [] (y :: l) []); zlr; try done.
Qed.

Lemma listAddNodeTail_spec h L l vs v :
  list_rep h L l vs → zlen l + 1 < 2 ^ 64 →
  ∃ h' L' x, listAddNodeTail h L v = Ret (h', L') ∧ (x ∉ dom h) ∧
    updated h L h' L' (l ++ [x]) (vs ++ [v]) (l ++ [x]).
Proof.
  intros [Hh Ht Hl Hs Hd H0 _] Hn. destruct (new_node_fresh (dom h)) as [Hx Hx0].
  set (x := new_node (dom h)) in *.
  destruct (link_between h l [] vs [] x v) as (h1 & h2 & E1 & E2 & Hs2 & Hf2 & _);
    [done|by destruct vs|by rewrite app_nil_r..|done|done|].
  cbn [first Z.eqb negb] in E2. injection E2 as <-.
  assert (x ∉ l) by (intros Hi; exact (Hx (seg_dom _ _ _ _ _ _ Hs Hi))).
  unfold listAddNodeTail. fold x. rewrite Hl, Ht. rewrite final_null in E1 by done.
  destruct (bool_decide_reflect (l = [])) as [->|Hne].
  - cbn in E1. injection E1 as <-. eexists _, _, x. split; [done|]. split; [done|]. split; [|done..].
    rewrite <- Hl. by apply (grown_rep _ L [] [] vs []); destruct vs.
  - assert (zlen l ≠ 0) by (by intros ?%zlen_zero). test (zlen l =? 0) false.
    cbn [negb first] in E1. rewrite E1. run. eexists _, _, x. split; [done|]. split; [done|]. split; [|done..].
    rewrite Hh, <- Hl. apply grown_rep; rewrite ?app_nil_r; try done.
    + rewrite first_app. by destruct l.
    + by rewrite final_app.
Qed.

(** Insertion next to a node of the list. *)
Lemma listInsertNode_spec h L l1 y l2 vs v (after : bool) a b :
  list_rep h L (l1 ++ y :: l2) vs → zlen (l1 ++ y :: l2) + 1 < 2 ^ 64 →
  a = (if after then l1 ++ [y] else l1) → b = (if after then l2 else y :: l2) →
  ∃ h' L' x, listInsertNode h L y v after = Ret (h', L') ∧ (x ∉ dom h) ∧
    updated h L h' L' (a ++ x :: b) (take (length a) vs ++ v :: drop (length a) vs) (a ++ x :: b).
Proof.
  intros [Hh Ht Hl Hs Hd H0 _] Hn Ea Eb. destruct (new_node_fresh (dom h)) as [Hx Hx0].
  set (x := new_node (dom h)) in *.
  assert (l1 ++ y :: l2 = a ++ b) as Eab by (subst; destruct after; [by rewrite <- app_assoc|done]).
  assert (∃ v0, h !! y = Some (ListNode (final 0 l1) (first 0 l2) v0)) as [v0 Hy].
  { apply seg_split in Hs as (? & [|v0 ?] & _ & _ & _ & Hy); [done|]. exists v0. apply Hy. }
  rewrite Eab in *. pose proof Hs as Hs'. apply seg_split in Hs' as (vsa & vsb & -> & Hla & Ha & Hb).
  rewrite take_app_length', drop_app_length' by done.
  destruct (link_between h a b vsa vsb x v) as (h1 & h2 & E1 & E2 & Hs2 & Hf2 & _); [done..|].
  assert (x ∉ a ++ b) as Hxab by (intros Hi; exact (Hx (seg_dom _ _ _ _ _ _ Hs Hi))).
  assert (y ≠ 0) as Hy0 by (intros ->; apply H0; rewrite <- Eab; set_solver).
  unfold listInsertNode. fold x. rewrite (deref_node _ _ _ Hy). run. cbn [prev next].
  assert ((if after then (ListNode y (first 0 l2) v, if tail L =? y then set_ends L (head L) x (len L) else L)
           else (ListNode (final 0 l1) y v, if head L =? y then set_ends L x (tail L) (len L) else L)) =
    (ListNode (final 0 a) (first 0 b) v,
     set_ends L (first 0 (a ++ x :: b)) (final 0 (a ++ x :: b)) (len L))) as ->.
  { rewrite <- Eab in Hd, Hh, Ht. rewrite Ea, Eb. rewrite first_app in Hh. rewrite final_app, final_cons in Ht.
    cbn [first] in Hh. rewrite Hh, Ht. apply NoDup_app in Hd as (_ & Hd1 & Hd2).
    apply NoDup_cons in Hd2 as [Hd2 _]. destruct after.
    - rewrite final_snoc. f_equal. rewrite <- app_assoc, first_app, !final_app, !final_cons. cbn [app first].
      destruct (decide (l2 = [])) as [->|Hne]; [cbn; by test (y =? y) true|].
      destruct (final_in y l2 Hne) as [Hin Hall]. assert (final y l2 ≠ y) by (by intros Hy'; rewrite Hy' in Hin).
      test (final y l2 =? y) false. rewrite (Hall x). destruct L. cbn in *. by subst.
    - f_equal. rewrite first_app, !final_app, !final_cons. cbn [first].
      destruct (decide (l1 = [])) as [->|Hne]; [cbn; by test (y =? y) true|].
      destruct (first_in y l1 Hne) as [Hin Hall].
      assert (first y l1 ≠ y) by (intros Hy'; rewrite Hy' in Hin; apply (Hd1 y Hin); set_solver).
      test (first y l1 =? y) false. rewrite (Hall x). destruct L. cbn in *. by subst. }
  cbn [prev next]. rewrite E1. run. rewrite E2. run. eexists _, _, x. split; [done|]. split; [done|].
  split; [|done..]. cbn [set_ends head tail len]. by apply (grown_rep _ L).
Qed.

Lemma listDelNode_spec h L a x b vs :
  list_rep h L (a ++ x :: b) vs →
  ∃ h' L', listDelNode h L x = Ret (h', L') ∧ dom h' = dom h ∖ {[x]} ∧
    updated h L h' L' (a ++ b) (take (length a) vs ++ drop (S (length a)) vs) (a ++ x :: b).
Proof.
  intros [Hh Ht Hl Hs Hd H0 Hn].
  destruct (unlink_node h a x b vs Hs Hd H0) as (vsa & v & vsb & h1 & h2 & -> & Hla & Hx & E1 & E2 & Hs' & Hf & Hdom).
  rewrite take_app_length', drop_app by done. rewrite drop_ge, Hla by lia.
  replace (S (length a) - length a)%nat with 1%nat by lia. cbn [app drop].
  assert ((0 ∉ a) ∧ (0 ∉ b)) as [H0a H0b] by set_solver. zlr. pose proof (zlen_nonneg a). pose proof (zlen_nonneg b).
  unfold listDelNode. rewrite (deref_node _ _ _ Hx). run. cbn [prev next].
  exists (delete x h2), (set_ends L (first 0 (a ++ b)) (final 0 (a ++ b)) (zlen a + zlen b)). split_and!.
  - rewrite final_null, first_null in * by done. rewrite !first_app, !final_app in *. cbn [first] in *. rewrite final_cons in Ht.
    destruct (bool_decide_reflect (a = [])) as [->|Hna], (bool_decide_reflect (b = [])) as [->|Hnb]; cbn [negb] in *.
    all: try (injection E1 as <-); try (injection E2 as <-); rewrite ?E1; run; rewrite ?E2; run.
    all: cbn [set_ends head tail len dup match_]; rewrite Hl, wrapu_id by (zlr; lia).
    all: apply (f_equal Ret), (f_equal (pair _)); unfold set_ends; cbn [head tail len dup match_ first app]; f_equal.
    all: rewrite ?Hh, ?Ht; first [done | by apply first_in | by apply final_in | zlr; lia].
  - done.
  - split; [|done..]. apply NoDup_app in Hd as (Hda & Hdd & [_ Hdb]%NoDup_cons). split; cbn; try done; zlr; try lia.
    + apply NoDup_app. split_and!; [done|set_solver|done].
    + set_solver.
Qed.



End updates.

(** ** Rotation, join and release *)

Lemma permuted_rep h L l l' vs hd tl :
  seg h 0 l' vs 0 → l' ≡ₚ l → NoDup l → 0 ∉ l → zlen l < 2 ^ 64 → len L = zlen l →
  hd = first 0 l' → tl = final 0 l' → list_rep h (set_ends L hd tl (len L)) l' vs.
Proof.
  intros Hs Hp Hd H0 Hn Hl -> ->. assert (zlen l' = zlen l) by (unfold zlen; by rewrite Hp).
  split; cbn; try done; rewrite ?Hp; try done; lia.
Qed.

Lemma listRotateTailToHead_spec h L a t vsa v :
  list_rep h L (a ++ [t]) (vsa ++ [v]) →
  ∃ h' L', listRotateTailToHead h L = Ret (h', L') ∧ dom h' = dom h ∧
    updated h L h' L' (t :: a) (v :: vsa) (a ++ [t]).
Proof.
  intros Hrep. pose proof Hrep as [Hh Ht Hl Hs Hd H0 Hn]. unfold listRotateTailToHead. rewrite Hl, Ht, Hh, final_snoc.
  zlr. pose proof (zlen_nonneg a). destruct (decide (a = [])) as [->|Hna].
  { assert (vsa = []) as -> by (apply seg_length in Hs; destruct vsa; simpl in Hs; [done|rewrite length_app in Hs; simpl in Hs; lia]).
    cbn. eexists _, _. split; [done|]. split; [done|]. by split. }
  assert (zlen a ≠ 0) by (by intros ?%zlen_zero). test (zlen a + (1 + 0) <=? 1) false.
  assert (length a = length vsa) as Hla by (apply seg_length in Hs; rewrite !length_app in Hs; simpl in Hs; lia).
  pose proof Hs as Hs'. apply seg_app in Hs' as [Ha Hb]; [|done]. destruct Hb as [Hx _]. cbn [first] in *.
  pose proof Hd as Hd'. apply NoDup_app in Hd' as (Hda & Hdd & _). assert (t ∉ a) by set_solver. assert (0 ∉ a) by set_solver.
  destruct (relink_last h 0 a vsa t 0 Ha) as (h1 & E1 & Hs1 & Hf1); [done..|].
  destruct (relink_first h1 0 a vsa 0 t Hs1) as (h2 & E2 & Hs2 & Hf2); [done..|].
  rewrite final_null, first_null, bool_decide_false in * by done. cbn [negb] in *.
  rewrite (deref_node _ _ _ Hx). run. cbn [prev]. rewrite E1. run. rewrite first_app. cbn [first].
  rewrite (proj2 (first_in 0 a Hna) t), E2. run.
  assert (h2 !! t = Some (ListNode (final 0 a) 0 v)) as Hx2 by (by rewrite (proj1 Hf2), (proj1 Hf1)).
  rewrite (set_prev_node _ _ _ _ _ _ Hx2). run.
  erewrite set_next_node by apply lookup_insert_eq. run. rewrite insert_insert_eq. eexists _, _. split; [done|].
  split; [|split; [|done..|]].
  - rewrite dom_insert_L, (proj2 Hf2), (proj2 Hf1). apply elem_of_dom_2 in Hx. set_solver.
  - rewrite <- Hl. apply (permuted_rep _ _ (a ++ [t])); try done; try (zlr; lia).
    + simpl. rewrite lookup_insert_eq. split; [done|by apply seg_insert].
    + apply Permutation_cons_append.
    + rewrite final_cons. by apply final_in.
  - intros y Hy. rewrite lookup_insert_ne, (proj1 Hf2), (proj1 Hf1) by set_solver. done.
Qed.

Lemma listRotateHeadToTail_spec h L x b v vsb :
  list_rep h L (x :: b) (v :: vsb) →
  ∃ h' L', listRotateHeadToTail h L = Ret (h', L') ∧ dom h' = dom h ∧
    updated h L h' L' (b ++ [x]) (vsb ++ [v]) (x :: b).
Proof.
  intros Hrep. pose proof Hrep as [Hh Ht Hl Hs Hd H0 Hn]. unfold listRotateHeadToTail. rewrite Hl, Ht, Hh, final_cons.
  zlr. pose proof (zlen_nonneg b). destruct Hs as [Hx Hb]. destruct (decide (b = [])) as [->|Hnb].
  { destruct vsb; [|done]. cbn. eexists _, _. split; [done|]. split; [done|]. by split. }
  assert (zlen b ≠ 0) by (by intros ?%zlen_zero). test (1 + zlen b <=? 1) false.
  apply NoDup_cons in Hd as Hd'. destruct Hd' as [Hxb Hdb]. apply not_elem_of_cons in H0 as H0'. destruct H0' as [_ H0b].
  destruct (relink_first h x b vsb 0 0 Hb) as (h1 & E1 & Hs1 & Hf1); [done..|].
  destruct (relink_last h1 0 b vsb 0 x Hs1) as (h2 & E2 & Hs2 & Hf2); [done..|].
  rewrite final_null, first_null, bool_decide_false in * by done. cbn [negb] in *.
  cbn [first]. rewrite (deref_node _ _ _ Hx). run. cbn [next first]. rewrite E1. run.
  rewrite (proj2 (final_in 0 b Hnb) x), E2. run.
  assert (h2 !! x = Some (ListNode 0 (first 0 b) v)) as Hx2 by (by rewrite (proj1 Hf2), (proj1 Hf1)).
  rewrite (set_next_node _ _ _ _ _ _ Hx2). run.
  erewrite set_prev_node by apply lookup_insert_eq. run. rewrite insert_insert_eq. eexists _, _. split; [done|].
  split; [|split; [|done..|]].
  - rewrite dom_insert_L, (proj2 Hf2), (proj2 Hf1). apply elem_of_dom_2 in Hx. set_solver.
  - rewrite <- Hl. apply (permuted_rep _ _ (x :: b)); try done; try (zlr; lia).
    + apply seg_app; [by apply seg_length in Hs1|]. split; [by apply seg_insert|]. simpl. by rewrite lookup_insert_eq.
    + symmetry. apply Permutation_cons_append.
    + rewrite first_app. by apply first_in.
    + by rewrite final_snoc.
  - intros y Hy. rewrite lookup_insert_ne, (proj1 Hf2), (proj1 Hf1) by set_solver. done.
Qed.

Lemma listJoin_spec h L O l1 l2 vs1 vs2 :
  list_rep h L l1 vs1 → list_rep h O l2 vs2 → l1 ## l2 → zlen l1 + zlen l2 < 2 ^ 64 →
  ∃ h' L' O', listJoin h L O = Ret (h', L', O') ∧ dom h' = dom h ∧
    updated h L h' L' (l1 ++ l2) (vs1 ++ vs2) (l1 ++ l2) ∧ updated h O h' O' [] [] (l1 ++ l2).
Proof.
  intros HL HO Hdis Hn. pose proof HL as [Hh Ht Hl Hs Hd H0 _]. pose proof HO as [Hh' Ht' Hl' Hs' Hd' H0' _].
  unfold listJoin. rewrite Hl'. destruct (decide (l2 = [])) as [->|Hne].
  { destruct vs2; [|done]. cbn. rewrite !app_nil_r. eexists _, _, _. split; [done|]. split; [done|]. by split. }
  assert (zlen l2 ≠ 0) by (by intros ?%zlen_zero). test (zlen l2 =? 0) false.
  pose proof (zlen_nonneg l1). pose proof (zlen_nonneg l2).
  destruct (relink_first h 0 l2 vs2 0 (final 0 l1) Hs') as (h1 & E1 & Hs1 & Hf1); [done..|].
  destruct (relink_last h1 0 l1 vs1 0 (first 0 l2)) as (h2 & E2 & Hs2 & Hf2); [|done..|].
  { eapply seg_frame; [exact Hf1|set_solver|exact Hs]. }
  rewrite final_null, first_null in * by done. rewrite (bool_decide_false (l2 = [])) in * by done. cbn [negb] in *.
  rewrite Hh', Ht, E1. run. rewrite final_null by done.
  exists h2, (set_ends L (first 0 (l1 ++ l2)) (final 0 (l1 ++ l2)) (zlen l1 + zlen l2)), (set_ends O 0 0 0).
  split_and!.
  - rewrite Hl, Ht', wrapu_id, first_app, final_app by lia.
    rewrite (proj2 (final_in 0 l2 Hne) (final 0 l1)), Hh.
    destruct (bool_decide_reflect (l1 = [])) as [->|Hne1]; cbn [negb] in *; [by injection E2 as <-|].
    rewrite E2. run. by rewrite (proj2 (first_in 0 l1 Hne1) (first 0 l2)).
  - by rewrite (proj2 Hf2), (proj2 Hf1).
  - split; [|done..|].
    + split; cbn; try done; zlr; try lia; [|apply NoDup_app; split_and!; [done|set_solver|done]|set_solver].
      apply seg_app; [by apply seg_length in Hs2|]. split; [done|]. eapply seg_frame; [exact Hf2|set_solver|done].
    + intros y Hy. rewrite (proj1 Hf2), (proj1 Hf1) by set_solver. done.
  - split; [by split; cbn; try apply NoDup_nil_2; try apply not_elem_of_nil|done..|].
    intros y Hy. rewrite (proj1 Hf2), (proj1 Hf1) by set_solver. done.
Qed.

Lemma empty_loop_spec h pv l vs :
  seg h pv l vs 0 → NoDup l →
  ∃ h', empty_loop (length l) h (first 0 l) = Ret h' ∧ (∀ y, y ∉ l → h' !! y = h !! y) ∧ dom h' = dom h ∖ list_to_set l.
Proof.
  revert h pv vs. induction l as [|x l IH]; intros h pv [|v vs] Hs Hd; try done.
  - exists h. split_and!; [done..|set_solver].
  - destruct Hs as [Hx Hs]. apply NoDup_cons in Hd as [Hxl Hd]. simpl. rewrite (deref_node _ _ _ Hx). run. cbn [next].
    destruct (IH (delete x h) x vs) as (h' & -> & Hf & Hdom); [by apply seg_delete|done|].
    exists h'. split_and!; [done| |].
    + intros y [Hy ?]%not_elem_of_cons. rewrite Hf by done. by apply lookup_delete_ne.
    + rewrite Hdom, dom_delete_L. set_solver.
Qed.

Lemma listEmpty_spec h L l vs :
  list_rep h L l vs →
  ∃ h' L', listEmpty h L = Ret (h', L') ∧ dom h' = dom h ∖ list_to_set l ∧ updated h L h' L' [] [] l.
Proof.
  intros [Hh Ht Hl Hs Hd H0 _]. destruct (empty_loop_spec h 0 l vs Hs Hd) as (h' & E & Hf & Hdom).
  unfold listEmpty. rewrite Hl, Hh. unfold zlen. rewrite Nat2Z.id, E. run. eexists _, _. split; [done|]. split; [done|].
  split; [by split; cbn; try apply NoDup_nil_2; try apply not_elem_of_nil|done..].
Qed.

(** ** Queries *)

Lemma listNext_head h pv l vs nx x :
  seg h pv (x :: l) vs nx → x ≠ 0 →
  ∃ v vs', vs = v :: vs' ∧ seg h x l vs' nx ∧ deref h x = Ret (ListNode pv (first nx l) v) ∧
    listNext h (ListIter x AL_START_HEAD) = Ret (ListIter (first nx l) AL_START_HEAD, x).
Proof.
  destruct vs as [|v vs]; [done|]. intros [Hx Hs] Hx0. exists v, vs. apply deref_node in Hx as Hd.
  split_and!; [done..|]. unfold listNext. cbn [it_next it_direction]. test (x =? 0) false. cbn [negb]. by rewrite Hd.
Qed.

Lemma key_search_spec h L key pv l vs :
  seg h pv l vs 0 → 0 ∉ l →
  search_loop (S (length l)) h L key (ListIter (first 0 l) AL_START_HEAD) =
    Ret (match List.find (λ p, key_matches L key p.2) (zip l vs) with Some p => p.1 | None => 0 end).
Proof.
  revert pv vs. induction l as [|x l IH]; intros pv vs Hs H0; [by destruct vs|].
  apply not_elem_of_cons in H0 as [H0 H0l].
  destruct (listNext_head _ _ _ _ _ _ Hs ltac:(done)) as (v & vs' & -> & Hs' & Hd & Hn).
  change (length (x :: l)) with (S (length l)). remember (S (length l)) as n eqn:En. cbn [search_loop first zip zip_with List.find snd].
  rewrite Hn. run. test (x =? 0) false. rewrite Hd. run. cbn [value]. fold (key_matches L key v).
  destruct (key_matches L key v); [done|]. by apply (IH x).
Qed.

Lemma index_loop_head h pv l vs k :
  seg h pv l vs 0 → 0 ∉ l → 0 ≤ k →
  index_loop (S (length l)) h AL_START_HEAD k (first 0 l) = Ret (default 0 (l !! Z.to_nat k)).
Proof.
  revert pv vs k. induction l as [|x l IH]; intros pv vs k Hs H0 Hk.
  - simpl. rewrite orb_true_r. by destruct (Z.to_nat k).
  - apply not_elem_of_cons in H0 as [H0 H0l]. destruct vs as [|v vs]; [done|]. destruct Hs as [Hx Hs].
    change (length (x :: l)) with (S (length l)). remember (S (length l)) as n eqn:En. cbn [index_loop first].
    test (x =? 0) false. destruct (Z.eqb_spec k 0) as [->|Hk0]; [done|]. cbn [orb].
    rewrite (deref_node _ _ _ Hx). run. cbn [next]. rewrite (IH x vs) by (done || lia).
    by replace (Z.to_nat k) with (S (Z.to_nat (k - 1))) by lia.
Qed.

Lemma index_loop_tail h l vs nx k :
  seg h 0 l vs nx → 0 ∉ l → 0 ≤ k →
  index_loop (S (length l)) h AL_START_TAIL k (final 0 l) = Ret (default 0 (reverse l !! Z.to_nat k)).
Proof.
  revert vs nx k. induction l as [|x l IH] using rev_ind; intros vs nx k Hs H0 Hk.
  - simpl. rewrite orb_true_r. by destruct (Z.to_nat k).
  - apply seg_split in Hs as (vs1 & [|v ?] & -> & _ & Hs & Hx); [done|]. destruct Hx as [Hx _].
    rewrite length_app, Nat.add_comm, final_snoc, reverse_snoc. assert (x ≠ 0) by set_solver.
    change (length [x] + length l)%nat with (S (length l)). remember (S (length l)) as n eqn:En. cbn [index_loop].
    test (x =? 0) false. destruct (Z.eqb_spec k 0) as [->|Hk0]; [done|]. cbn [orb].
    rewrite (deref_node _ _ _ Hx). run. cbn [prev]. rewrite (IH vs1 x) by (set_solver || done || lia).
    by replace (Z.to_nat k) with (S (Z.to_nat (k - 1))) by lia.
Qed.

Lemma listIndex_spec h L l vs i :
  list_rep h L l vs → - 2 ^ 63 < i < 2 ^ 63 →
  listIndex h L i = Ret (match index_of (length vs) i with Some k => default 0 (l !! k) | None => 0 end).
Proof.
  intros [Hh Ht Hl Hs Hd H0 _] Hi. unfold listIndex, index_of. rewrite (seg_length _ _ _ _ _ Hs), Hl, Hh, Ht.
  unfold zlen. rewrite Nat2Z.id. test (i =? - 2 ^ 63) false. destruct (Z.ltb_spec i 0).
  - test (0 <=? i) false. rewrite (index_loop_tail h l vs 0) by (done || lia). f_equal.
    destruct (Z.leb_spec (- i) (Z.of_nat (length l))).
    + rewrite reverse_lookup by lia. do 2 f_equal. lia.
    + rewrite lookup_ge_None_2; [done|]. rewrite length_reverse. lia.
  - test (0 <=? i) true. rewrite (index_loop_head h 0 l vs) by (done || lia). f_equal.
    destruct (Z.ltb_spec i (Z.of_nat (length l))); [done|]. rewrite lookup_ge_None_2; [done|lia].
Qed.

(** ** Sequences of operations *)

Lemma exchange_refl h l : exchange h l h l.
Proof. split; naive_solver. Qed.

Lemma exchange_trans h l h1 l1 h2 l2 : exchange h l h1 l1 → exchange h1 l1 h2 l2 → exchange h l h2 l2.
Proof.
  intros [N1 O1 E1] [N2 O2 E2]. split; intros y Hy Hy'; destruct (decide (y ∈ l1)).
  - by apply N1.
  - rewrite <- E1 by done. by apply N2.
  - by apply O2.
  - rewrite E2 by done. by apply O1.
  - rewrite O2 by done. symmetry. by apply N1.
  - rewrite E2 by done. by apply E1.
Qed.

Lemma exchange_grow h h' l l' x :
  x ∉ dom h → (∀ y, y ∈ l' ↔ y = x ∨ y ∈ l) → (∀ y, y ∉ l' → h' !! y = h !! y) → exchange h l h' l'.
Proof.
  intros Hx Hl Hf. split; intros y Hy Hy'.
  - apply Hl in Hy as [->|Hy]; [by apply not_elem_of_dom|done].
  - destruct Hy'. apply Hl. by right.
  - by apply Hf.
Qed.

Lemma exchange_shrink h h' l l' (D : gset Z) :
  dom h' = dom h ∖ D → (∀ y, y ∈ l ↔ y ∈ D ∨ y ∈ l') → (∀ y, y ∉ l → h' !! y = h !! y) → exchange h l h' l'.
Proof.
  intros HD Hl Hf. split; intros y Hy Hy'.
  - destruct Hy'. apply Hl. by right.
  - apply not_elem_of_dom. rewrite HD. apply Hl in Hy. set_solver.
  - by apply Hf.
Qed.

Lemma index_of_split (l : list Z) n i k :
  index_of n i = Some k → length l = n → ∃ a x b, l = a ++ x :: b ∧ length a = k ∧ l !! k = Some x.
Proof.
  unfold index_of. intros Hk Hn. assert (k < length l)%nat as Hlt by (repeat case_match; simplify_eq; lia).
  apply lookup_lt_is_Some in Hlt as [x Hx]. pose proof (take_drop_middle l k x Hx) as E.
  exists (take k l), x, (drop (S k) l). split_and!; [done| |done]. rewrite length_take. apply lookup_lt_Some in Hx. lia.
Qed.

Section sequences.
Context {A : NodeAlloc} {AL : NodeAllocLaws A}.

(** What every operation establishes. *)
Definition op_result (h : heap) (L : list_t) (l : list Z) (r : outcome (heap * list_t)) (vs : list Z) : Prop :=
  ∃ h' L' l', r = Ret (h', L') ∧ list_rep h' L' l' vs ∧ dup L' = dup L ∧ match_ L' = match_ L ∧
    exchange h l h' l'.

Lemma run_InsertAt h L l vs i v after :
  list_rep h L l vs → - 2 ^ 63 < i < 2 ^ 63 → zlen l + 1 < 2 ^ 64 →
  op_result h L l (run_op h L (InsertAt i v after)) (spec_op vs (InsertAt i v after)).
Proof.
  intros Hrep Hi Hn. cbn [run_op spec_op]. rewrite (listIndex_spec _ _ _ _ _ Hrep Hi). run.
  pose proof (seg_length _ _ _ _ _ (rep_seg _ _ _ _ Hrep)) as Hlen.
  destruct (index_of (length vs) i) as [k|] eqn:Hk; [|exists h, L, l; split_and!; [done..|apply exchange_refl]].
  destruct (index_of_split l _ _ _ Hk ltac:(done)) as (a & x & b & -> & <- & Hx). rewrite Hx. change (default 0 (Some x)) with x.
  assert (x ≠ 0) by (intros ->; apply (rep_nonnull _ _ _ _ Hrep); set_solver). test (x =? 0) false.
  destruct (listInsertNode_spec h L a x b vs v after _ _ Hrep Hn eq_refl eq_refl) as (h' & L' & y & E & Hy & [Hr Hd Hm Hf]).
  eexists h', L', _. split; [exact E|].
  assert (∀ z, z ∈ (if after then a ++ [x] else a) ++ y :: (if after then b else x :: b) ↔ z = y ∨ z ∈ a ++ x :: b)
    by (intros z; destruct after; set_solver).
  split; [|split_and!; [done..|eapply exchange_grow; [exact Hy|done|exact Hf]]].
  destruct after; [|exact Hr]. rewrite length_app, Nat.add_comm in Hr. exact Hr.
Qed.

Lemma run_DelAt h L l vs i :
  list_rep h L l vs → - 2 ^ 63 < i < 2 ^ 63 →
  op_result h L l (run_op h L (DelAt i)) (spec_op vs (DelAt i)).
Proof.
  intros Hrep Hi. cbn [run_op spec_op]. rewrite (listIndex_spec _ _ _ _ _ Hrep Hi). run.
  pose proof (seg_length _ _ _ _ _ (rep_seg _ _ _ _ Hrep)) as Hlen.
  destruct (index_of (length vs) i) as [k|] eqn:Hk; [|exists h, L, l; split_and!; [done..|apply exchange_refl]].
  destruct (index_of_split l _ _ _ Hk ltac:(done)) as (a & x & b & -> & <- & Hx). rewrite Hx. change (default 0 (Some x)) with x.
  assert (x ≠ 0) by (intros ->; apply (rep_nonnull _ _ _ _ Hrep); set_solver). test (x =? 0) false.
  destruct (listDelNode_spec h L a x b vs Hrep) as (h' & L' & E & HD & [Hr Hd Hm Hf]).
  eexists h', L', _. split; [exact E|]. split_and!; [exact Hr|done..|].
  eapply exchange_shrink; [exact HD| |exact Hf]. set_solver.
Qed.

Lemma run_op_spec h L l vs o :
  list_rep h L l vs → op_ok o → zlen l + 1 < 2 ^ 64 → op_result h L l (run_op h L o) (spec_op vs o).
Proof.
  intros Hrep Ho Hn. destruct o as [v|v|i v after|i| | |]; [..|].
  - destruct (listAddNodeHead_spec h L l vs v Hrep Hn) as (h' & L' & x & E & Hx & [Hr Hd Hm Hf]).
    exists h', L', (x :: l). split_and!; [done..|]. eapply exchange_grow; [exact Hx|set_solver|exact Hf].
  - destruct (listAddNodeTail_spec h L l vs v Hrep Hn) as (h' & L' & x & E & Hx & [Hr Hd Hm Hf]).
    exists h', L', (l ++ [x]). split_and!; [done..|]. eapply exchange_grow; [exact Hx|set_solver|exact Hf].
  - by apply run_InsertAt.
  - by apply run_DelAt.
  - cbn [run_op spec_op]. pose proof (seg_length _ _ _ _ _ (rep_seg _ _ _ _ Hrep)) as Hlen.
    destruct vs as [|v vs _] using rev_ind; destruct l as [|t l _] using rev_ind; rewrite ?length_app in Hlen; simpl in Hlen; try lia.
    + unfold listRotateTailToHead. rewrite (rep_len _ _ _ _ Hrep). exists h, L, []. split_and!; [done..|apply exchange_refl].
    + rewrite reverse_snoc, reverse_involutive.
      destruct (listRotateTailToHead_spec h L l t vs v Hrep) as (h' & L' & E & HD & [Hr Hd Hm Hf]).
      exists h', L', (t :: l). split_and!; [done..|]. apply (exchange_shrink _ _ _ _ ∅); [set_solver..|done].
  - cbn [run_op spec_op]. destruct vs as [|v vs], l as [|x l]; try (by destruct (rep_seg _ _ _ _ Hrep)).
    + unfold listRotateHeadToTail. rewrite (rep_len _ _ _ _ Hrep). exists h, L, []. split_and!; [done..|apply exchange_refl].
    + destruct (listRotateHeadToTail_spec h L x l v vs Hrep) as (h' & L' & E & HD & [Hr Hd Hm Hf]).
      exists h', L', (l ++ [x]). split_and!; [done..|]. apply (exchange_shrink _ _ _ _ ∅); [set_solver..|done].
  - destruct (listEmpty_spec h L l vs Hrep) as (h' & L' & E & HD & [Hr Hd Hm Hf]).
    exists h', L', []. split_and!; [done..|]. eapply exchange_shrink; [exact HD|set_solver|done].
Qed.

Lemma spec_op_length vs o : zlen (spec_op vs o) ≤ zlen vs + 1.
Proof.
  unfold zlen. destruct o as [v|v|i v after|i| | |]; cbn [spec_op].
  5: { destruct vs as [|v vs _] using rev_ind; [done|]. rewrite reverse_snoc, reverse_involutive, length_app. simpl. lia. }
  all: repeat case_match; rewrite ?length_app, ?length_cons, ?length_take, ?length_drop; cbn [length]; lia.
Qed.

Lemma run_ops_spec os h L l vs :
  list_rep h L l vs → Forall op_ok os → zlen vs + zlen os < 2 ^ 64 →
  op_result h L l (run_ops h L os) (foldl spec_op vs os).
Proof.
  revert h L l vs. induction os as [|o os IH]; intros h L l vs Hrep Hok Hn.
  { exists h, L, l. split_and!; [done..|apply exchange_refl]. }
  apply Forall_cons in Hok as [Ho Hok]. zlr. pose proof (zlen_nonneg os). pose proof (spec_op_length vs o).
  assert (zlen l = zlen vs) by (unfold zlen; by rewrite (seg_length _ _ _ _ _ (rep_seg _ _ _ _ Hrep))).
  destruct (run_op_spec h L l vs o Hrep Ho) as (h1 & L1 & l1 & E1 & Hr1 & Hd1 & Hm1 & Hx1); [lia|].
  destruct (IH h1 L1 l1 _ Hr1 Hok) as (h2 & L2 & l2 & E2 & Hr2 & Hd2 & Hm2 & Hx2); [lia|].
  exists h2, L2, l2. split_and!; [by cbn [run_ops]; rewrite E1|done|congruence..|]. by eapply exchange_trans.
Qed.

(** ** Copy *)

Lemma dup_loop_spec h L hc C lc wc pv l vs :
  seg h pv l vs 0 → 0 ∉ l → list_rep hc C lc wc → dup C = dup L → exchange h [] hc lc →
  zlen lc + zlen l < 2 ^ 64 →
  match mapM (dup_value L) vs with
  | Some ws => ∃ h' C' l', dup_loop (S (length l)) hc (ListIter (first 0 l) AL_START_HEAD) C = Ret (h', Some C') ∧
      list_rep h' C' l' (wc ++ ws) ∧ dup C' = dup C ∧ match_ C' = match_ C ∧ exchange h [] h' l'
  | None => dup_loop (S (length l)) hc (ListIter (first 0 l) AL_START_HEAD) C = Ret (h, None)
  end.
Proof.
  revert hc C lc wc pv vs. induction l as [|x l IH]; intros hc C lc wc pv vs Hs H0 HC Hd Hx Hn.
  { destruct vs; [|done]. cbn. exists hc, C, lc. rewrite app_nil_r. by split_and!. }
  apply not_elem_of_cons in H0 as [H0 H0l]. zlr. pose proof (zlen_nonneg l).
  assert (seg hc pv (x :: l) vs 0) as Hsc.
  { eapply seg_agree; [|exact Hs]. intros y Hy. pose proof (seg_dom _ _ _ _ _ _ Hs Hy) as Hdom. apply elem_of_dom in Hdom as [? Hy'].
    apply (ex_other _ _ _ _ Hx); [set_solver|]. intros Hyc. rewrite (ex_new _ _ _ _ Hx y Hyc) in Hy'; [done|set_solver]. }
  destruct (listNext_head _ _ _ _ _ _ Hsc ltac:(done)) as (v & vs' & -> & _ & Hdr & Hnx). destruct Hs as [_ Hs].
  change (length (x :: l)) with (S (length l)). remember (S (length l)) as n eqn:En. cbn [dup_loop first mapM].
  rewrite Hnx. run. test (x =? 0) false. rewrite Hdr. run. cbn [value]. rewrite Hd.
  change (dup_value L v) with (match dup L with Some f => if f v =? 0 then None else Some (f v) | None => Some v end).
  assert (∀ w, match mapM (dup_value L) vs' with
    | Some ws => ∃ h' C' l', ('(h, copy) ← listAddNodeTail hc C w; dup_loop n h (ListIter (first 0 l) AL_START_HEAD) copy) = Ret (h', Some C') ∧
        list_rep h' C' l' (wc ++ w :: ws) ∧ dup C' = dup C ∧ match_ C' = match_ C ∧ exchange h [] h' l'
    | None => ('(h, copy) ← listAddNodeTail hc C w; dup_loop n h (ListIter (first 0 l) AL_START_HEAD) copy) = Ret (h, None)
    end) as Hstep.
  { intros w. destruct (listAddNodeTail_spec hc C lc wc w HC) as (h1 & C1 & y & -> & Hy & [Hr1 Hd1 Hm1 Hf1]); [lia|].
    run. rewrite <- Hd1, <- Hm1. specialize (IH h1 C1 (lc ++ [y]) (wc ++ [w]) x vs' Hs H0l Hr1).
    destruct (mapM (dup_value L) vs') as [ws|]; [|apply IH; [congruence| |zlr; lia]]; [|].
    - rewrite cons_middle, app_assoc. apply IH; [congruence| |zlr; lia].
      eapply exchange_trans; [exact Hx|]. eapply exchange_grow; [exact Hy|set_solver|exact Hf1].
    - eapply exchange_trans; [exact Hx|]. eapply exchange_grow; [exact Hy|set_solver|exact Hf1]. }
  rewrite Hd in Hstep. destruct (dup L) as [f|].
  - rewrite bool_decide_true by eauto. cbn [andb]. destruct (f v =? 0) eqn:Hfv.
    + cbn. destruct (listEmpty_spec hc C lc wc HC) as (h' & C' & -> & HD & [_ _ _ Hf]). cbn. do 2 f_equal.
      assert (exchange h [] h' []) as [_ _ He].
      { eapply exchange_trans; [exact Hx|]. eapply exchange_shrink; [exact HD|set_solver|exact Hf]. }
      apply map_eq. intros y. apply He; set_solver.
    + specialize (Hstep (f v)). cbn. destruct (mapM (dup_value L) vs'); exact Hstep.
  - rewrite bool_decide_false by (by intros [? ?]). specialize (Hstep v). cbn. destruct (mapM (dup_value L) vs'); exact Hstep.
Qed.

Lemma listDup_spec h L l vs :
  list_rep h L l vs →
  match mapM (dup_value L) vs with
  | Some ws => ∃ h' C l', listDup h L = Ret (h', Some C) ∧ list_rep h' C l' ws ∧
      dup C = dup L ∧ match_ C = match_ L ∧ exchange h [] h' l'
  | None => listDup h L = Ret (h, None)
  end.
Proof.
  intros [Hh Ht Hl Hs Hd H0 Hn]. unfold listDup, listRewind. rewrite Hl, Hh. unfold zlen at 1 2. rewrite Nat2Z.id.
  apply (dup_loop_spec h L h (List_t 0 0 (dup L) (match_ L) 0) [] [] 0 l vs); try done.
  - by split; cbn; try apply NoDup_nil_2; try apply not_elem_of_nil.
Qed.

Lemma exchange_keeps h h' L l vs l' : exchange h [] h' l' → list_rep h L l vs → list_rep h' L l vs.
Proof.
  intros Hx Hr. destruct Hr as [Hh Ht Hl Hs Hd H0 Hn]. split; try done. eapply seg_agree; [|exact Hs].
  intros y Hy. pose proof (seg_dom _ _ _ _ _ _ Hs Hy) as [? Hy']%elem_of_dom.
  apply (ex_other _ _ _ _ Hx); [set_solver|]. intros Hyc. rewrite (ex_new _ _ _ _ Hx y Hyc) in Hy'; [done|set_solver].
Qed.

(** ** Claims *)

(** [listDup] gives a second list, made of new nodes, with the copies of the
    values and the methods of the first, which it leaves as it was; when the dup
    method fails on a value the nodes built so far are given back and the heap is
    the one before the call. [listJoin] then moves every node of the copy behind
    those of the first list and leaves the copy empty. *)
Lemma dup_join_spec h L l vs :
  list_rep h L l vs → 2 * zlen l < 2 ^ 64 →
  match mapM (dup_value L) vs with
  | Some ws => ∃ h' C l', listDup h L = Ret (h', Some C) ∧ list_rep h' C l' ws ∧ list_rep h' L l vs ∧
      dup C = dup L ∧ match_ C = match_ L ∧ exchange h [] h' l' ∧
      ∃ h2 L2 C2, listJoin h' L C = Ret (h2, L2, C2) ∧ list_rep h2 L2 (l ++ l') (vs ++ ws) ∧
        list_rep h2 C2 [] [] ∧ exchange h l h2 (l ++ l')
  | None => listDup h L = Ret (h, None)
  end.
Proof.
  intros Hr Hn. pose proof (listDup_spec h L l vs Hr) as HD. destruct (mapM (dup_value L) vs) as [ws|] eqn:Hw; [|done].
  destruct HD as (h' & C & l' & E & HC & Hd & Hm & Hx). pose proof (exchange_keeps _ _ _ _ _ _ Hx Hr) as HL.
  assert (l ## l') as Hdis.
  { intros y Hy Hy'. pose proof (seg_dom _ _ _ _ _ _ (rep_seg _ _ _ _ Hr) Hy) as Hdom.
    apply elem_of_dom in Hdom as [? Hdom]. rewrite (ex_new _ _ _ _ Hx y Hy') in Hdom; [done|set_solver]. }
  assert (zlen l' = zlen l) as Hll.
  { unfold zlen. f_equal. rewrite <- (seg_length _ _ _ _ _ (rep_seg _ _ _ _ HC)), <- (length_mapM _ _ _ Hw).
    apply (seg_length _ _ _ _ _ (rep_seg _ _ _ _ Hr)). }
  destruct (listJoin_spec h' L C l l' vs ws HL HC Hdis) as (h2 & L2 & C2 & EJ & HJ & [HL2 _ _ Hf] & [HC2 _ _ _]); [lia|].
  exists h', C, l'. split_and!; [done..|]. exists h2, L2, C2. split_and!; [done..|]. split.
  - intros y [Hy|Hy]%elem_of_app Hy'; [done|]. apply (ex_new _ _ _ _ Hx); [done|set_solver].
  - set_solver.
  - intros y Hy Hy'. rewrite Hf by done. apply (ex_other _ _ _ _ Hx); set_solver.
Qed.

(** C21. Any sequence of additions, insertions and deletions by index, rotations
    and clearings, run on a list among other nodes, returns and leaves a list
    that holds what the same operations leave in the sequence of its values;
    the list keeps its methods, every node it has taken was free, every node it
    has given up is free (there is no leak), and no other node has changed.  In
    the list that results [listIndex] finds the node of every index, from either
    end, and [listSearchKey] the first node whose value matches.

    [listDup] gives a second list, made of new nodes, with the copies of the
    values and the methods of the first, which it leaves as it was; when the dup
    method fails on a value the nodes built so far are given back and the heap is
    the one before the call.  [listJoin] then moves every node of the copy behind
    those of the first list and leaves the copy empty. *)
Theorem adlist_run_refines h L l vs :
  list_rep h L l vs →
  (∀ os, Forall op_ok os → zlen vs + zlen os < 2 ^ 64 →
   ∃ h' L' l', run_ops h L os = Ret (h', L') ∧ list_rep h' L' l' (foldl spec_op vs os) ∧
     dup L' = dup L ∧ match_ L' = match_ L ∧ exchange h l h' l' ∧
     (∀ i, - 2 ^ 63 < i < 2 ^ 63 →
       listIndex h' L' i = Ret (match index_of (length l') i with Some k => default 0 (l' !! k) | None => 0 end)) ∧
     (∀ key, listSearchKey h' L' key =
       Ret (match List.find (λ p, key_matches L key p.2) (zip l' (foldl spec_op vs os)) with Some p => p.1 | None => 0 end))) ∧
  (2 * zlen l < 2 ^ 64 →
   match mapM (dup_value L) vs with
   | Some ws => ∃ h' C l', listDup h L = Ret (h', Some C) ∧ list_rep h' C l' ws ∧ list_rep h' L l vs ∧
       dup C = dup L ∧ match_ C = match_ L ∧ exchange h [] h' l' ∧
       ∃ h2 L2 C2, listJoin h' L C = Ret (h2, L2, C2) ∧ list_rep h2 L2 (l ++ l') (vs ++ ws) ∧
         list_rep h2 C2 [] [] ∧ exchange h l h2 (l ++ l')
   | None => listDup h L = Ret (h, None)
   end).
Proof.
  intros Hr. split; [|intros Hn; by apply dup_join_spec]. intros os Hok Hn.
  destruct (run_ops_spec os h L l vs Hr Hok Hn) as (h' & L' & l' & E & Hr' & Hd & Hm & Hx).
  exists h', L', l'. split_and!; [done..| |].
  - intros i Hi. rewrite <- (seg_length _ _ _ _ _ (rep_seg _ _ _ _ Hr')). by apply listIndex_spec.
  - intros key. unfold key_matches. rewrite <- Hm. unfold listSearchKey, listRewind.
    rewrite (rep_len _ _ _ _ Hr'), (rep_head _ _ _ _ Hr'). unfold zlen. rewrite Nat2Z.id.
    apply (key_search_spec h' L' key 0); apply Hr'.
Qed.

End sequences.

(** ** Examples *)

Lemma ex_nodes_laws : NodeAllocLaws ex_nodes.
Proof. intros X. pose proof (is_fresh ({[0]} ∪ X)) as Hf. rewrite not_elem_of_union, not_elem_of_singleton in Hf. unfold new_node, ex_nodes. tauto. Qed.

Lemma ex_list_rep : list_rep ex_heap ex_list [1; 5; 3] [10; 20; 30].
Proof. split; try (by vm_compute); apply (bool_decide_unpack _); by vm_compute. Qed.

Lemma ex_second_rep : list_rep ex_heap ex_second [8; 9] [1; 17].
Proof. split; try (by vm_compute); apply (bool_decide_unpack _); by vm_compute. Qed.

Lemma adlist_run_refines_witness :
  ∃ h' L' l', run_ops ex_heap ex_list ex_ops = Ret (h', L') ∧ list_rep h' L' l' [20; 25; 40; 30].
Proof.
  destruct (proj1 (adlist_run_refines (AL := ex_nodes_laws) ex_heap ex_list [1; 5; 3] [10; 20; 30] ex_list_rep) ex_ops)
    as (h' & L' & l' & E & Hr & _).
  - repeat constructor; lia.
  - by vm_compute.
  - exists h', L', l'. split; [exact E|exact Hr].
Defined.

End AdlistSpec.
