(* ===== verification/Bits.v ===== *)
(** Words as vectors of bits: functions built from shifts, masks and exclusive
    or are linear over the two-element field, so two of them agree on all the
    words of a width when they agree on the words with one bit set.  This turns
    an equality over 2^64 words into 64 computations.  The same holds of the
    functions built from shifts, masks and inclusive or. *)
From S2P Require Import Prelude.

Module Bits.

Class Linear (f : Z → Z) : Prop :=
  linear : ∀ x y, f (Z.lxor x y) = Z.lxor (f x) (f y).

Class Additive (f : Z → Z) : Prop :=
  additive : ∀ x y, f (Z.lor x y) = Z.lor (f x) (f y).

(** [f] applied [n] times. *)
Fixpoint iterate (n : nat) (f : Z → Z) (x : Z) : Z :=
  match n with O => x | S n => iterate n f (f x) end.

(** The functions agree on the words with one bit set, below [n]. *)
Definition agree_on_bits (n : nat) (f g : Z → Z) : bool :=
  forallb (λ i, f (2 ^ Z.of_nat i) =? g (2 ^ Z.of_nat i)) (seq 0 n).

(** * Bit-level lemmas *)

Lemma testbit_word n x i : 0 ≤ x < 2 ^ n → n ≤ i → Z.testbit x i = false.
Proof.
  intros Hx Hi. destruct (Z.eq_dec x 0) as [->|]; [apply Z.bits_0|].
  apply Z.bits_above_log2; [lia|]. apply Z.lt_le_trans with n; [|done]. apply Z.log2_lt_pow2; lia.
Qed.

Lemma word_bits n x y :
  0 ≤ x < 2 ^ n → 0 ≤ y < 2 ^ n → (∀ i, 0 ≤ i < n → Z.testbit x i = Z.testbit y i) → x = y.
Proof.
  intros Hx Hy Hb. apply Z.bits_inj'. intros i Hi. destruct (Z.lt_ge_cases i n); [by apply Hb|].
  by rewrite !(testbit_word n).
Qed.

(** A word whose bits from [n] on are clear. *)
Lemma bits_word n x : 0 ≤ n → 0 ≤ x → (∀ i, n ≤ i → Z.testbit x i = false) → x < 2 ^ n.
Proof.
  intros Hn Hx Hb. destruct (Z.eq_dec x 0) as [->|]; [lia|]. apply Z.log2_lt_pow2; [lia|].
  destruct (Z.lt_ge_cases (Z.log2 x) n) as [|Hge]; [done|]. specialize (Hb _ Hge). by rewrite Z.bit_log2 in Hb by lia.
Qed.

Lemma lxor_word n x y : 0 ≤ n → 0 ≤ x < 2 ^ n → 0 ≤ y < 2 ^ n → 0 ≤ Z.lxor x y < 2 ^ n.
Proof.
  intros Hn Hx Hy. assert (0 ≤ Z.lxor x y) by (apply Z.lxor_nonneg; lia). split; [done|].
  apply bits_word; [done..|]. intros i Hi. by rewrite Z.lxor_spec, !(testbit_word n).
Qed.

Lemma lor_word n x y : 0 ≤ n → 0 ≤ x < 2 ^ n → 0 ≤ y < 2 ^ n → 0 ≤ Z.lor x y < 2 ^ n.
Proof.
  intros Hn Hx Hy. assert (0 ≤ Z.lor x y) by (apply Z.lor_nonneg; lia). split; [done|].
  apply bits_word; [done..|]. intros i Hi. by rewrite Z.lor_spec, !(testbit_word n).
Qed.

Lemma land_word n x y : 0 ≤ n → 0 ≤ y < 2 ^ n → 0 ≤ Z.land x y < 2 ^ n.
Proof.
  intros Hn Hy. assert (0 ≤ Z.land x y) by (apply Z.land_nonneg; lia). split; [done|].
  apply bits_word; [done..|]. intros i Hi. by rewrite Z.land_spec, (testbit_word n y), andb_false_r.
Qed.

(** A mask of one bit. *)
Lemma land_pow2 x i : 0 ≤ i → Z.land x (2 ^ i) = if Z.testbit x i then 2 ^ i else 0.
Proof.
  intros Hi. apply Z.bits_inj'. intros j Hj. rewrite Z.land_spec, Z.pow2_bits_eqb by lia. destruct (Z.eqb_spec i j) as [<-|].
  - destruct (Z.testbit x i) eqn:E; [by rewrite Z.pow2_bits_true|by rewrite Z.bits_0].
  - rewrite andb_false_r. destruct (Z.testbit x i); [by rewrite Z.pow2_bits_false by lia|by rewrite Z.bits_0].
Qed.

Lemma land_pow2_test x i : 0 ≤ i → negb (Z.land x (2 ^ i) =? 0) = Z.testbit x i.
Proof. intros Hi. rewrite land_pow2 by done. destruct (Z.testbit x i); [|done]. by rewrite (proj2 (Z.eqb_neq (2 ^ i) 0)) by lia. Qed.

(** The low and the high part of a word. *)
Lemma lxor_split n x : 0 ≤ n → x = Z.lxor (Z.land x (Z.ones n)) (Z.shiftl (Z.shiftr x n) n).
Proof.
  intros Hn. apply Z.bits_inj'. intros i Hi. rewrite Z.lxor_spec, Z.land_spec, Z.shiftl_spec by lia.
  destruct (Z.lt_ge_cases i n).
  - rewrite Z.ones_spec_low, andb_true_r, (Z.testbit_neg_r _ (i - n)), xorb_false_r by lia. done.
  - rewrite Z.ones_spec_high, andb_false_r, Z.shiftr_spec by lia. rewrite xorb_false_l. f_equal. lia.
Qed.

Lemma land_high n x y : 0 ≤ n → 0 ≤ x < 2 ^ n → Z.land x (Z.shiftl y n) = 0.
Proof.
  intros Hn Hx. apply Z.bits_inj'. intros i Hi. rewrite Z.land_spec, Z.bits_0. destruct (Z.lt_ge_cases i n).
  - by rewrite Z.shiftl_spec_low, andb_false_r.
  - by rewrite (testbit_word n).
Qed.

Lemma add_lxor n x y : 0 ≤ n → 0 ≤ x < 2 ^ n → x + 2 ^ n * y = Z.lxor x (Z.shiftl y n).
Proof.
  intros Hn Hx. rewrite Z.mul_comm, <- Z.shiftl_mul_pow2 by lia. by apply Z.add_nocarry_lxor, land_high.
Qed.

(** Disjoint parts of a word. *)
Lemma lor_masks p q m n : Z.land m n = 0 → Z.lor (Z.land p m) (Z.land q n) = Z.lxor (Z.land p m) (Z.land q n).
Proof.
  intros Hmn. symmetry. apply Z.lxor_lor. apply Z.bits_inj'. intros i _. rewrite !Z.land_spec, Z.bits_0.
  assert (Z.testbit m i && Z.testbit n i = false) as Hi by (by rewrite <- Z.land_spec, Hmn, Z.bits_0).
  by destruct (Z.testbit p i), (Z.testbit q i), (Z.testbit m i), (Z.testbit n i).
Qed.

Lemma lor_high w n x y :
  0 ≤ w → 0 ≤ n → 0 ≤ x < 2 ^ n → Z.lor x (wrapu w (Z.shiftl y n)) = Z.lxor x (wrapu w (Z.shiftl y n)).
Proof.
  intros Hw Hn Hx. symmetry. apply Z.lxor_lor. apply Z.bits_inj'. intros i Hi. unfold wrapu.
  rewrite Z.land_spec, Z.bits_0, <- Z.land_ones, Z.land_spec by done. destruct (Z.lt_ge_cases i n).
  - by rewrite Z.shiftl_spec_low, andb_false_r.
  - by rewrite (testbit_word n).
Qed.

(** * Linear functions *)

#[export] Typeclasses Opaque Z.lxor Z.lor Z.land Z.shiftl Z.shiftr Z.testbit wrapu iterate.

#[export] Instance linear_id : Linear (λ x, x).
Proof. done. Qed.

#[export] Instance linear_zero : Linear (λ _, 0).
Proof. done. Qed.

Lemma linear_comp f g : Linear f → Linear g → Linear (λ x, f (g x)).
Proof. intros Hf Hg x y. by rewrite Hg, Hf. Qed.

#[export] Instance linear_lxor f g : Linear f → Linear g → Linear (λ x, Z.lxor (f x) (g x)).
Proof.
  intros Hf Hg x y. rewrite Hf, Hg, !Z.lxor_assoc. f_equal. by rewrite <- !Z.lxor_assoc, (Z.lxor_comm (f y)).
Qed.

#[export] Instance linear_shiftl f n : Linear f → Linear (λ x, Z.shiftl (f x) n).
Proof. intros Hf x y. by rewrite Hf, Z.shiftl_lxor. Qed.

#[export] Instance linear_shiftr f n : Linear f → Linear (λ x, Z.shiftr (f x) n).
Proof. intros Hf x y. by rewrite Hf, Z.shiftr_lxor. Qed.

#[export] Instance linear_land f m : Linear f → Linear (λ x, Z.land (f x) m).
Proof. intros Hf x y. rewrite Hf. apply Z.bits_inj'. intros i _. rewrite !Z.land_spec, !Z.lxor_spec, !Z.land_spec. by destruct (Z.testbit (f x) i), (Z.testbit (f y) i), (Z.testbit m i). Qed.

#[export] Instance linear_wrapu f n : Linear f → Linear (λ x, wrapu n (f x)).
Proof.
  intros Hf x y. unfold wrapu. rewrite Hf. destruct (Z.lt_ge_cases n 0).
  - by rewrite Z.pow_neg_r, !Z.mod_0_r.
  - rewrite <- !Z.land_ones by done. exact (linear_land (λ x, x) _ linear_id _ _).
Qed.

#[export] Instance linear_bit f n c : Linear f → Linear (λ x, if Z.testbit (f x) n then c else 0).
Proof. intros Hf x y. rewrite Hf, Z.lxor_spec. destruct (Z.testbit (f x) n), (Z.testbit (f y) n); cbn; by rewrite ?Z.lxor_nilpotent, ?Z.lxor_0_r. Qed.

#[export] Instance linear_iterate n f g : Linear f → Linear g → Linear (λ x, iterate n f (g x)).
Proof. intros Hf. revert g. induction n as [|n IH]; intros g Hg; [done|]. apply (IH (λ x, f (g x))), linear_comp; done. Qed.

Lemma linear_at_zero f : Linear f → f 0 = 0.
Proof. intros Hf. pose proof (Hf 0 0) as H0. change (f 0 = Z.lxor (f 0) (f 0)) in H0. by rewrite Z.lxor_nilpotent in H0. Qed.

(** Functions that agree on the single bits agree on the words. *)
Lemma linear_agree n f g :
  Linear f → Linear g → agree_on_bits n f g = true → ∀ x, 0 ≤ x < 2 ^ Z.of_nat n → f x = g x.
Proof.
  intros Hf Hg Hb. induction n as [|n IH]; intros x Hx.
  - assert (x = 0) as -> by (cbn in Hx; lia). by rewrite !linear_at_zero.
  - unfold agree_on_bits in *. rewrite seq_S, forallb_app in Hb. apply andb_true_iff in Hb as [Hb Hn].
    cbn in Hn. rewrite andb_true_r in Hn. apply Z.eqb_eq in Hn.
    destruct (Z.lt_ge_cases x (2 ^ Z.of_nat n)) as [|Hge]; [apply IH; [done|lia]|].
    replace x with (Z.lxor (x - 2 ^ Z.of_nat n) (2 ^ Z.of_nat n)).
    + rewrite Hf, Hg, Hn, (IH Hb); [done|]. rewrite Nat2Z.inj_succ, Z.pow_succ_r in Hx by lia. lia.
    + pose proof (add_lxor (Z.of_nat n) (x - 2 ^ Z.of_nat n) 1) as He.
      rewrite Z.shiftl_1_l, Z.mul_1_r in He. rewrite <- He; [lia|lia|].
      rewrite Nat2Z.inj_succ, Z.pow_succ_r in Hx by lia. lia.
Qed.

(** * Functions that distribute over inclusive or *)

#[export] Instance additive_id : Additive (λ x, x).
Proof. done. Qed.

#[export] Instance additive_lor f g : Additive f → Additive g → Additive (λ x, Z.lor (f x) (g x)).
Proof.
  intros Hf Hg x y. rewrite Hf, Hg, <- !Z.lor_assoc. f_equal. by rewrite !Z.lor_assoc, (Z.lor_comm (f y)).
Qed.

#[export] Instance additive_shiftl f n : Additive f → Additive (λ x, Z.shiftl (f x) n).
Proof. intros Hf x y. by rewrite Hf, Z.shiftl_lor. Qed.

#[export] Instance additive_shiftr f n : Additive f → Additive (λ x, Z.shiftr (f x) n).
Proof. intros Hf x y. by rewrite Hf, Z.shiftr_lor. Qed.

#[export] Instance additive_land f m : Additive f → Additive (λ x, Z.land (f x) m).
Proof. intros Hf x y. by rewrite Hf, Z.land_lor_distr_l. Qed.

#[export] Instance additive_wrapu f n : Additive f → Additive (λ x, wrapu n (f x)).
Proof.
  intros Hf x y. unfold wrapu. rewrite Hf. destruct (Z.lt_ge_cases n 0).
  - by rewrite Z.pow_neg_r, !Z.mod_0_r.
  - rewrite <- !Z.land_ones by done. apply Z.land_lor_distr_l.
Qed.

#[export] Instance additive_wrapu_fn n : Additive (wrapu n).
Proof. exact (additive_wrapu (λ x, x) n _). Qed.

#[export] Instance additive_bit f n c : Additive f → Additive (λ x, if Z.testbit (f x) n then c else 0).
Proof. intros Hf x y. rewrite Hf, Z.lor_spec. destruct (Z.testbit (f x) n), (Z.testbit (f y) n); cbn; by rewrite ?Z.lor_diag, ?Z.lor_0_r. Qed.

Lemma additive_agree n f g :
  Additive f → Additive g → f 0 = g 0 → agree_on_bits n f g = true → ∀ x, 0 ≤ x < 2 ^ Z.of_nat n → f x = g x.
Proof.
  intros Hf Hg H0 Hb. induction n as [|n IH]; intros x Hx.
  - by assert (x = 0) as -> by (cbn in Hx; lia).
  - unfold agree_on_bits in *. rewrite seq_S, forallb_app in Hb. apply andb_true_iff in Hb as [Hb Hn].
    cbn in Hn. rewrite andb_true_r in Hn. apply Z.eqb_eq in Hn. rewrite Nat2Z.inj_succ, Z.pow_succ_r in Hx by lia.
    destruct (Z.lt_ge_cases x (2 ^ Z.of_nat n)) as [|Hge]; [apply IH; [done|lia]|].
    replace x with (Z.lor (x - 2 ^ Z.of_nat n) (2 ^ Z.of_nat n)).
    + rewrite Hf, Hg, Hn, (IH Hb); [done|lia].
    + pose proof (add_lxor (Z.of_nat n) (x - 2 ^ Z.of_nat n) 1) as He. rewrite Z.shiftl_1_l, Z.mul_1_r in He.
      rewrite <- Z.lxor_lor, <- He; [lia|lia|lia|]. apply Z.bits_inj'. intros i Hi. rewrite Z.land_spec, Z.bits_0, Z.pow2_bits_eqb by lia.
      destruct (Z.eqb_spec (Z.of_nat n) i) as [<-|]; [|apply andb_false_r]. rewrite (testbit_word (Z.of_nat n)) by lia. done.
Qed.

Lemma iterate_add m n f x : iterate (m + n) f x = iterate n f (iterate m f x).
Proof. revert x. induction m as [|m IH]; intros x; [done|]. apply IH. Qed.

Lemma iterate_S n f x : iterate (S n) f x = f (iterate n f x).
Proof. revert x. induction n as [|n IH]; intros x; [done|]. apply (IH (f x)). Qed.

End Bits.
