(* ===== verification/Crc.v ===== *)
(** Checksums: [src/.../redis-6.2/src/crc64.c] and [crcspeed.c] (the checksum of
    RDB files and of [DUMP] payloads), [crc16.c] and the hash slots of
    [cluster.c].

    The bit-by-bit [_crc64] is the definition of the checksum.  [crc64] computes
    it from tables, eight bytes at a time once the pointer is aligned, with one
    routine per byte order; the address of the buffer is an argument. *)
From S2P Require Import Prelude Endianconv Bits.

Module Crc.
Import Bits.

(** * crc64.c *)

Definition POLY : Z := 0xad93d23594c935a9.

(** [for (size_t i = 1; i < data_len; i++)] *)
Fixpoint reflect_loop (n : nat) (data ret : Z) : Z :=
  match n with
  | O => ret
  | S n =>
    let data := Z.shiftr data 1 in
    reflect_loop n data (Z.lor (u64 (Z.shiftl ret 1)) (Z.land data 1))
  end.

Definition crc_reflect (data : Z) (data_len : nat) : Z :=
  reflect_loop (data_len - 1) data (Z.land data 1).

(** One bit of the byte [c], selected by [i]. *)
Definition crc_bit (c crc i : Z) : Z :=
  let bit := Z.land crc 0x8000000000000000 in
  let bit := if negb (Z.land c i =? 0) then b2z (bit =? 0) else bit in
  let crc := u64 (Z.shiftl crc 1) in
  if negb (bit =? 0) then Z.lxor crc POLY else crc.

(** [for (uint_fast8_t i = 0x01; i & 0xff; i <<= 1)] *)
Definition crc_byte (crc c : Z) : Z :=
  Z.land (foldl (crc_bit c) crc [1; 2; 4; 8; 16; 32; 64; 128]) 0xffffffffffffffff.

Definition _crc64 (crc : Z) (data : list Z) : Z :=
  Z.lxor (crc_reflect (Z.land (foldl crc_byte crc data) 0xffffffffffffffff) 64) 0.

(** * crcspeed.c *)

(** [table[k][n]] *)
Definition table_entry (table : list (list Z)) (k n : Z) : outcome Z :=
  match table !! Z.to_nat k with Some row => rd row n | None => Fault end.

(** [for (int k = 1; k < 8; k++)]: the entries of one column below the first. *)
Fixpoint nested (row0 : list Z) (k : nat) (crc : Z) : outcome (list Z) :=
  match k with
  | O => Ret []
  | S k =>
    t ← rd row0 (Z.land crc 0xff);
    let crc := Z.lxor t (Z.shiftr crc 8) in
    rest ← nested row0 k crc;
    Ret (crc :: rest)
  end.

(** [for (int n = 0; n < 256; n++)]: the columns. *)
Fixpoint columns (row0 : list Z) (ns : list Z) : outcome (list (list Z)) :=
  match ns with
  | [] => Ret []
  | n :: ns =>
    crc ← rd row0 n;
    col ← nested row0 7 crc;
    rest ← columns row0 ns;
    Ret ((crc :: col) :: rest)
  end.

Definition crcspeed64little_init (crcfn : Z → list Z → Z) : outcome (list (list Z)) :=
  let row0 := map (λ n, crcfn 0 [n]) (seqZ 0 256) in
  cols ← columns row0 (seqZ 0 256);
  Ret (map (λ k, map (λ col : list Z, col !!! k) cols) (seq 0 8)).

Definition rev8 (a : Z) : Z :=
  let m := 0xff00ff00ff00ff in
  let a := Z.lor (Z.land (Z.shiftr a 8) m) (u64 (Z.shiftl (Z.land a m) 8)) in
  let m := 0xffff0000ffff in
  let a := Z.lor (Z.land (Z.shiftr a 16) m) (u64 (Z.shiftl (Z.land a m) 16)) in
  Z.lor (Z.shiftr a 32) (u64 (Z.shiftl a 32)).

Definition crcspeed64big_init (fn : Z → list Z → Z) : outcome (list (list Z)) :=
  big_table ← crcspeed64little_init fn;
  Ret (map (map rev8) big_table).

(** The byte-wise steps of the two routines. *)
Definition little_byte (table : list (list Z)) (crc c : Z) : outcome Z :=
  t ← table_entry table 0 (Z.land (Z.lxor crc c) 0xff);
  Ret (Z.lxor t (Z.shiftr crc 8)).
Definition big_byte (table : list (list Z)) (crc c : Z) : outcome Z :=
  t ← table_entry table 0 (Z.lxor (Z.shiftr crc 56) c);
  Ret (Z.lxor t (u64 (Z.shiftl crc 8))).

(** Eight bytes at once: [crc] has been combined with the word. *)
Definition little_word (table : list (list Z)) (crc : Z) : outcome Z :=
  t7 ← table_entry table 7 (Z.land crc 0xff);
  t6 ← table_entry table 6 (Z.land (Z.shiftr crc 8) 0xff);
  t5 ← table_entry table 5 (Z.land (Z.shiftr crc 16) 0xff);
  t4 ← table_entry table 4 (Z.land (Z.shiftr crc 24) 0xff);
  t3 ← table_entry table 3 (Z.land (Z.shiftr crc 32) 0xff);
  t2 ← table_entry table 2 (Z.land (Z.shiftr crc 40) 0xff);
  t1 ← table_entry table 1 (Z.land (Z.shiftr crc 48) 0xff);
  t0 ← table_entry table 0 (Z.shiftr crc 56);
  Ret (Z.lxor (Z.lxor (Z.lxor (Z.lxor (Z.lxor (Z.lxor (Z.lxor t7 t6) t5) t4) t3) t2) t1) t0).
Definition big_word (table : list (list Z)) (crc : Z) : outcome Z :=
  t0 ← table_entry table 0 (Z.land crc 0xff);
  t1 ← table_entry table 1 (Z.land (Z.shiftr crc 8) 0xff);
  t2 ← table_entry table 2 (Z.land (Z.shiftr crc 16) 0xff);
  t3 ← table_entry table 3 (Z.land (Z.shiftr crc 24) 0xff);
  t4 ← table_entry table 4 (Z.land (Z.shiftr crc 32) 0xff);
  t5 ← table_entry table 5 (Z.land (Z.shiftr crc 40) 0xff);
  t6 ← table_entry table 6 (Z.land (Z.shiftr crc 48) 0xff);
  t7 ← table_entry table 7 (Z.shiftr crc 56);
  Ret (Z.lxor (Z.lxor (Z.lxor (Z.lxor (Z.lxor (Z.lxor (Z.lxor t0 t1) t2) t3) t4) t5) t6) t7).

(** The loops the routines share: bytes up to an aligned address, whole words,
    and the bytes that remain. *)
Fixpoint align_loop (byte : Z → Z → outcome Z) (crc next : Z) (buf : list Z) : outcome (Z * list Z) :=
  match buf with
  | c :: buf' =>
    if Z.land next 7 =? 0 then Ret (crc, buf)
    else crc ← byte crc c; align_loop byte crc (next + 1) buf'
  | [] => Ret (crc, buf)
  end.

Fixpoint word_loop {H : HostOrder} (word : Z → outcome Z) (fuel : nat) (crc : Z) (buf : list Z)
    : outcome (Z * list Z) :=
  match fuel with
  | O => OutOfFuel
  | S fuel =>
    if 8 <=? zlen buf then
      w ← load 8 buf 0;
      crc ← word (Z.lxor crc w);
      word_loop word fuel crc (drop 8 buf)
    else Ret (crc, buf)
  end.

Fixpoint tail_loop (byte : Z → Z → outcome Z) (crc : Z) (buf : list Z) : outcome Z :=
  match buf with
  | [] => Ret crc
  | c :: buf => crc ← byte crc c; tail_loop byte crc buf
  end.

Definition crcspeed64little {H : HostOrder} (table : list (list Z)) (crc next : Z) (buf : list Z) : outcome Z :=
  '(crc, buf) ← align_loop (little_byte table) crc next buf;
  '(crc, buf) ← word_loop (little_word table) (S (length buf)) crc buf;
  tail_loop (little_byte table) crc buf.

Definition crcspeed64big {H : HostOrder} (table : list (list Z)) (crc next : Z) (buf : list Z) : outcome Z :=
  let crc := rev8 crc in
  '(crc, buf) ← align_loop (big_byte table) crc next buf;
  '(crc, buf) ← word_loop (big_word table) (S (length buf)) crc buf;
  crc ← tail_loop (big_byte table) crc buf;
  Ret (rev8 crc).

(** [*(char * )&n] is 1 on a little-endian host. *)
Definition crcspeed64native {H : HostOrder} (table : list (list Z)) (crc next : Z) (buf : list Z) : outcome Z :=
  first ← rd (nat_enc 8 1) 0;
  if negb (first =? 0) then crcspeed64little table crc next buf else crcspeed64big table crc next buf.

Definition crcspeed64native_init {H : HostOrder} (fn : Z → list Z → Z) : outcome (list (list Z)) :=
  first ← rd (nat_enc 8 1) 0;
  if negb (first =? 0) then crcspeed64little_init fn else crcspeed64big_init fn.

Definition crc64_init {H : HostOrder} : outcome (list (list Z)) := crcspeed64native_init _crc64.

Definition crc64 {H : HostOrder} (crc64_table : list (list Z)) (crc next : Z) (s : list Z) : outcome Z :=
  crcspeed64native crc64_table crc next s.

(** * crc16.c *)

Definition crc16tab : list Z :=
  [0x0000; 0x1021; 0x2042; 0x3063; 0x4084; 0x50a5; 0x60c6; 0x70e7;
   0x8108; 0x9129; 0xa14a; 0xb16b; 0xc18c; 0xd1ad; 0xe1ce; 0xf1ef;
   0x1231; 0x0210; 0x3273; 0x2252; 0x52b5; 0x4294; 0x72f7; 0x62d6;
   0x9339; 0x8318; 0xb37b; 0xa35a; 0xd3bd; 0xc39c; 0xf3ff; 0xe3de;
   0x2462; 0x3443; 0x0420; 0x1401; 0x64e6; 0x74c7; 0x44a4; 0x5485;
   0xa56a; 0xb54b; 0x8528; 0x9509; 0xe5ee; 0xf5cf; 0xc5ac; 0xd58d;
   0x3653; 0x2672; 0x1611; 0x0630; 0x76d7; 0x66f6; 0x5695; 0x46b4;
   0xb75b; 0xa77a; 0x9719; 0x8738; 0xf7df; 0xe7fe; 0xd79d; 0xc7bc;
   0x48c4; 0x58e5; 0x6886; 0x78a7; 0x0840; 0x1861; 0x2802; 0x3823;
   0xc9cc; 0xd9ed; 0xe98e; 0xf9af; 0x8948; 0x9969; 0xa90a; 0xb92b;
   0x5af5; 0x4ad4; 0x7ab7; 0x6a96; 0x1a71; 0x0a50; 0x3a33; 0x2a12;
   0xdbfd; 0xcbdc; 0xfbbf; 0xeb9e; 0x9b79; 0x8b58; 0xbb3b; 0xab1a;
   0x6ca6; 0x7c87; 0x4ce4; 0x5cc5; 0x2c22; 0x3c03; 0x0c60; 0x1c41;
   0xedae; 0xfd8f; 0xcdec; 0xddcd; 0xad2a; 0xbd0b; 0x8d68; 0x9d49;
   0x7e97; 0x6eb6; 0x5ed5; 0x4ef4; 0x3e13; 0x2e32; 0x1e51; 0x0e70;
   0xff9f; 0xefbe; 0xdfdd; 0xcffc; 0xbf1b; 0xaf3a; 0x9f59; 0x8f78;
   0x9188; 0x81a9; 0xb1ca; 0xa1eb; 0xd10c; 0xc12d; 0xf14e; 0xe16f;
   0x1080; 0x00a1; 0x30c2; 0x20e3; 0x5004; 0x4025; 0x7046; 0x6067;
   0x83b9; 0x9398; 0xa3fb; 0xb3da; 0xc33d; 0xd31c; 0xe37f; 0xf35e;
   0x02b1; 0x1290; 0x22f3; 0x32d2; 0x4235; 0x5214; 0x6277; 0x7256;
   0xb5ea; 0xa5cb; 0x95a8; 0x8589; 0xf56e; 0xe54f; 0xd52c; 0xc50d;
   0x34e2; 0x24c3; 0x14a0; 0x0481; 0x7466; 0x6447; 0x5424; 0x4405;
   0xa7db; 0xb7fa; 0x8799; 0x97b8; 0xe75f; 0xf77e; 0xc71d; 0xd73c;
   0x26d3; 0x36f2; 0x0691; 0x16b0; 0x6657; 0x7676; 0x4615; 0x5634;
   0xd94c; 0xc96d; 0xf90e; 0xe92f; 0x99c8; 0x89e9; 0xb98a; 0xa9ab;
   0x5844; 0x4865; 0x7806; 0x6827; 0x18c0; 0x08e1; 0x3882; 0x28a3;
   0xcb7d; 0xdb5c; 0xeb3f; 0xfb1e; 0x8bf9; 0x9bd8; 0xabbb; 0xbb9a;
   0x4a75; 0x5a54; 0x6a37; 0x7a16; 0x0af1; 0x1ad0; 0x2ab3; 0x3a92;
   0xfd2e; 0xed0f; 0xdd6c; 0xcd4d; 0xbdaa; 0xad8b; 0x9de8; 0x8dc9;
   0x7c26; 0x6c07; 0x5c64; 0x4c45; 0x3ca2; 0x2c83; 0x1ce0; 0x0cc1;
   0xef1f; 0xff3e; 0xcf5d; 0xdf7c; 0xaf9b; 0xbfba; 0x8fd9; 0x9ff8;
   0x6e17; 0x7e36; 0x4e55; 0x5e74; 0x2e93; 0x3eb2; 0x0ed1; 0x1ef0].

(** [crc = (crc<<8) ^ crc16tab[((crc>>8) ^ *buf++)&0x00FF]] *)
Definition crc16_byte (crc c : Z) : outcome Z :=
  t ← rd crc16tab (Z.land (Z.lxor (Z.shiftr crc 8) c) 0x00FF);
  Ret (u16 (Z.lxor (Z.shiftl crc 8) t)).

Definition crc16 (buf : list Z) : outcome Z := tail_loop crc16_byte 0 buf.

(** * Hash slots (cluster.c) *)

(** [for (s = 0; s < keylen; s++) if (key[s] == c) break;] from index [s]. *)
Fixpoint scan_char (c : Z) (key : list Z) (s : Z) : Z :=
  match key with
  | [] => s
  | k :: key => if k =? c then s else scan_char c key (s + 1)
  end.

Definition keyHashSlot (key : list Z) : outcome Z :=
  let keylen := zlen key in
  let s := scan_char 123 key 0 in
  if s =? keylen then crc ← crc16 key; Ret (Z.land crc 0x3FFF)
  else
    let e := scan_char 125 (drop (Z.to_nat (s + 1)) key) (s + 1) in
    if (e =? keylen) || (e =? s + 1) then crc ← crc16 key; Ret (Z.land crc 0x3FFF)
    else
      tag ← rdn key (s + 1) (e - s - 1);
      crc ← crc16 tag;
      Ret (Z.land crc 0x3FFF).

End Crc.
