(* ===== verification/CrcSpec.v ===== *)
(** Theorems about the checksums (component [Crc]): the table-driven routines
    of both byte orders compute the bit-by-bit checksum, piece by piece and for
    any alignment; the table of [crc16] is that of its polynomial; the hash slot
    of a key depends on its hash tag alone. *)
From S2P Require Import Prelude Endianconv Bits Crc.

Module CrcSpec.
Import Bits Crc.

(** The checksum with the low bit first: one bit, and one byte. *)
Definition rpoly : Z := crc_reflect POLY 64.
Definition divide (v : Z) : Z := Z.lxor (Z.shiftr v 1) (if Z.testbit v 0 then rpoly else 0).
Definition update (v c : Z) : Z := iterate 8 divide (Z.lxor v c).

Definition is_word (v : Z) : Prop := 0 ≤ v < 2 ^ 64.

(** One bit and one byte of CRC-16/XMODEM, the high bit first. *)
Definition divide16 (v : Z) : Z := Z.lxor (u16 (Z.shiftl v 1)) (if Z.testbit v 15 then 0x1021 else 0).
Definition update16 (v c : Z) : Z := iterate 8 divide16 (Z.lxor v (Z.shiftl c 8)).

(** The part of a key that is hashed: what is between the first opening brace
    and the first closing brace behind it, if that is something, and the whole
    key otherwise. *)
Inductive hashed : list Z → list Z → Prop :=
| hashed_tag pre tag post :
    123 ∉ pre → 125 ∉ tag → tag ≠ [] → hashed (pre ++ 123 :: tag ++ 125 :: post) tag
| hashed_empty pre post : 123 ∉ pre → hashed (pre ++ 123 :: 125 :: post) (pre ++ 123 :: 125 :: post)
| hashed_open pre post : 123 ∉ pre → 125 ∉ post → hashed (pre ++ 123 :: post) (pre ++ 123 :: post)
| hashed_plain key : 123 ∉ key → hashed key key.

(** * The bit-by-bit routine *)

#[local] Typeclasses Opaque reflect_loop crc_reflect divide.

Lemma reflect_step ret data : Z.lor (u64 (Z.shiftl ret 1)) (Z.land data 1) = Z.lxor (u64 (Z.shiftl ret 1)) (Z.land data 1).
Proof.
  symmetry. apply Z.lxor_lor. apply Z.bits_inj'. intros i Hi. rewrite !Z.land_spec, Z.bits_0. unfold wrapu.
  rewrite <- Z.land_ones, Z.land_spec by done. destruct (Z.eq_dec i 0) as [->|].
  - by rewrite Z.shiftl_spec_low.
  - rewrite (testbit_word 1 1) by lia. by rewrite !andb_false_r.
Qed.

#[local] Instance linear_reflect_loop n f g : Linear f → Linear g → Linear (λ x, reflect_loop n (f x) (g x)).
Proof.
  revert f g. induction n as [|n IH]; intros f g Hf Hg; [done|]. intros x y. cbn [reflect_loop]. rewrite !reflect_step.
  apply (IH (λ x, Z.shiftr (f x) 1) (λ x, Z.lxor (u64 (Z.shiftl (g x) 1)) (Z.land (Z.shiftr (f x) 1) 1))); apply _.
Qed.

#[local] Instance linear_reflect f n : Linear f → Linear (λ x, crc_reflect (f x) n).
Proof. intros Hf. apply (linear_reflect_loop (n - 1) f (λ x, Z.land (f x) 1)); apply _. Qed.

#[local] Instance linear_divide f : Linear f → Linear (λ x, divide (f x)).
Proof. intros Hf. unfold divide. apply _. Qed.

#[local] Instance linear_divide_fn : Linear divide.
Proof. exact (linear_divide (λ x, x) _). Qed.

Lemma crc_bit_xor c u i :
  is_word u →
  crc_bit c u i = Z.lxor (Z.lxor (u64 (Z.shiftl u 1)) (if Z.testbit u 63 then POLY else 0))
                    (if negb (Z.land c i =? 0) then POLY else 0).
Proof.
  intros Hu. unfold crc_bit.
  rewrite (land_pow2 u 63 ltac:(lia) : Z.land u 0x8000000000000000 = if Z.testbit u 63 then 2 ^ 63 else 0).
  destruct (Z.land c i =? 0), (Z.testbit u 63); cbn [negb b2z Z.eqb Z.pow]; rewrite ?Z.lxor_0_r; try done.
  by rewrite Z.lxor_assoc, Z.lxor_nilpotent, Z.lxor_0_r.
Qed.

Lemma crc_bit_word c u i : is_word u → is_word (crc_bit c u i).
Proof.
  intros Hu. rewrite crc_bit_xor by done. pose proof (wrapu_range 64 (Z.shiftl u 1)).
  repeat apply lxor_word; try lia; case_match; unfold POLY; lia.
Qed.

Lemma crc_bit_reflect c u i :
  is_word u →
  crc_reflect (crc_bit c u i) 64 = divide (Z.lxor (crc_reflect u 64) (b2z (negb (Z.land c i =? 0)))).
Proof.
  intros Hu. rewrite crc_bit_xor by done.
  rewrite (linear_reflect (λ x, x) 64 linear_id), (linear_divide (λ x, x) linear_id). f_equal; [|by case_match].
  exact (linear_agree 64 (λ u, crc_reflect (Z.lxor (u64 (Z.shiftl u 1)) (if Z.testbit u 63 then POLY else 0)) 64)
    (λ u, divide (crc_reflect u 64)) _ _ ltac:(by vm_compute) u Hu).
Qed.

(** * Division by bytes *)

Lemma divide_double x : divide (Z.shiftl x 1) = x.
Proof.
  unfold divide. rewrite Z.shiftl_spec_low, Z.lxor_0_r, Z.shiftr_shiftl_l by lia. apply Z.shiftl_0_r.
Qed.

Lemma iterate_shift n x : iterate n divide (Z.shiftl x (Z.of_nat n)) = x.
Proof.
  revert x. induction n as [|n IH]; intros x; [apply Z.shiftl_0_r|].
  rewrite Nat2Z.inj_succ, <- Z.add_1_r, <- Z.shiftl_shiftl by lia. cbn [iterate]. by rewrite divide_double.
Qed.

Lemma iterate_shift8 x : iterate 8 divide (Z.shiftl x 8) = x.
Proof. exact (iterate_shift 8 x). Qed.

(** The low byte is looked up, the rest is shifted. *)
Lemma iterate_low n k x :
  n = (8 + k)%nat →
  iterate n divide x = Z.lxor (iterate n divide (Z.land x 255)) (iterate k divide (Z.shiftr x 8)).
Proof.
  intros ->.
  rewrite (lxor_split 8 x) at 1 by lia. rewrite (linear_iterate (8 + k) divide (λ x, x) _ _). f_equal.
  rewrite iterate_add. f_equal. apply iterate_shift8.
Qed.

Lemma divide_bit k v x :
  iterate (S k) divide (Z.lxor v x) = iterate k divide (Z.lxor (divide (Z.lxor v (Z.land x 1))) (Z.shiftr x 1)).
Proof.
  cbn [iterate]. f_equal. rewrite (lxor_split 1 x) at 1 by lia.
  rewrite <- Z.lxor_assoc, (linear_divide (λ x, x) _). by rewrite divide_double.
Qed.

Lemma byte_bit c i : 0 ≤ i → b2z (negb (Z.land c (2 ^ i) =? 0)) = Z.land (Z.shiftr c i) 1.
Proof.
  intros Hi. rewrite (Z.land_ones _ 1) by lia. change (2 ^ 1) with 2. rewrite Z.shiftr_div_pow2, <- Z.testbit_spec' by done.
  rewrite land_pow2_test by done. by destruct (Z.testbit c i).
Qed.

Lemma crc_byte_word u c : is_word u → is_word (crc_byte u c).
Proof. intros _. unfold crc_byte. apply land_word; lia. Qed.

Lemma crc_byte_reflect u c :
  is_word u → is_byte c → crc_reflect (crc_byte u c) 64 = update (crc_reflect u 64) c.
Proof.
  intros Hu Hc. unfold crc_byte, update.
  assert (∀ l u, is_word u → is_word (foldl (crc_bit c) u l)) as Hw.
  { intros l. induction l as [|i l IH]; intros w Hw; [done|]. by apply IH, crc_bit_word. }
  rewrite (Z.land_ones _ 64), Z.mod_small by (try apply Hw; done). cbn [foldl].
  rewrite !crc_bit_reflect by (repeat apply crc_bit_word; done).
  rewrite (byte_bit c 0 ltac:(lia) : b2z (negb (Z.land c 1 =? 0)) = _), (byte_bit c 1 ltac:(lia) : b2z (negb (Z.land c 2 =? 0)) = _).
  rewrite (byte_bit c 2 ltac:(lia) : b2z (negb (Z.land c 4 =? 0)) = _), (byte_bit c 3 ltac:(lia) : b2z (negb (Z.land c 8 =? 0)) = _).
  rewrite (byte_bit c 4 ltac:(lia) : b2z (negb (Z.land c 16 =? 0)) = _), (byte_bit c 5 ltac:(lia) : b2z (negb (Z.land c 32 =? 0)) = _).
  rewrite (byte_bit c 6 ltac:(lia) : b2z (negb (Z.land c 64 =? 0)) = _), (byte_bit c 7 ltac:(lia) : b2z (negb (Z.land c 128 =? 0)) = _).
  rewrite Z.shiftr_0_r, !divide_bit, !Z.shiftr_shiftr by lia. cbn [iterate].
  change (1 + 1) with 2. change (2 + 1) with 3. change (3 + 1) with 4. change (4 + 1) with 5.
  change (5 + 1) with 6. change (6 + 1) with 7. change (7 + 1) with 8.
  rewrite (Z.shiftr_eq_0 c 8); [by rewrite Z.lxor_0_r|apply Hc|].
  destruct (Z.eq_dec c 0) as [->|]; [done|]. apply Z.log2_lt_pow2; [|apply Hc]. destruct Hc. lia.
Qed.

Lemma divide_word v : is_word v → is_word (divide v).
Proof.
  intros Hv. unfold divide. apply lxor_word; [lia| |case_match; [by vm_compute|lia]].
  rewrite Z.shiftr_div_pow2 by lia. change (2 ^ 1) with 2. unfold is_word in Hv. split; [apply Z.div_pos; lia|].
  apply Z.div_lt_upper_bound; lia.
Qed.

Lemma iterate_word n v : is_word v → is_word (iterate n divide v).
Proof. revert v. induction n as [|n IH]; intros v Hv; [done|]. by apply IH, divide_word. Qed.

Lemma byte_word c : is_byte c → is_word c.
Proof. unfold is_byte, is_word. lia. Qed.

Lemma update_word v c : is_word v → is_byte c → is_word (update v c).
Proof. intros Hv Hc%byte_word. apply iterate_word, lxor_word; [lia|done..]. Qed.

Lemma updates_word v data : is_word v → bytes_ok data → is_word (foldl update v data).
Proof. intros Hv Hd. revert v Hv. induction Hd as [|c data Hc Hd IH]; intros v Hv; [done|]. by apply IH, update_word. Qed.

Lemma reflect_word u : is_word u → is_word (crc_reflect u 64).
Proof.
  intros Hu. assert (∀ n data ret, is_word ret → is_word (reflect_loop n data ret)) as Hl.
  { intros n. induction n as [|n IH]; intros data ret Hr; [done|]. apply IH, lor_word; [lia|by apply wrapu_range|apply land_word; lia]. }
  apply Hl, land_word; lia.
Qed.

Lemma _crc64_update u data :
  is_word u → bytes_ok data → _crc64 u data = foldl update (crc_reflect u 64) data.
Proof.
  intros Hu Hd. unfold _crc64. rewrite Z.lxor_0_r.
  assert (∀ u, is_word u → is_word (foldl crc_byte u data)) as Hw.
  { clear. induction data as [|c l IH]; intros w Hw; [done|]. by apply IH, crc_byte_word. }
  rewrite (Z.land_ones _ 64), Z.mod_small by (try apply Hw; done). clear Hw.
  revert u Hu. induction Hd as [|c data Hc Hd IH]; intros u Hu; cbn [foldl]; [reflexivity|].
  by rewrite IH, crc_byte_reflect by (try apply crc_byte_word; done).
Qed.

(** Several bytes at once. *)
Lemma iterate_byte v c x :
  is_byte c → iterate 8 divide (Z.lxor v (c + 256 * x)) = Z.lxor (update v c) x.
Proof.
  intros Hc. unfold update. change 256 with (2 ^ 8). rewrite add_lxor by (done || lia).
  rewrite <- Z.lxor_assoc, (linear_iterate 8 divide (λ x, x) _ _). by rewrite iterate_shift8.
Qed.

Lemma iterate_bytes bs v :
  bytes_ok bs → iterate (8 * length bs) divide (Z.lxor v (le_dec bs)) = foldl update v bs.
Proof.
  intros Hb. revert v. induction Hb as [|c bs Hc Hb IH]; intros v; [apply Z.lxor_0_r|].
  cbn [length foldl le_dec]. replace (8 * S (length bs))%nat with (8 + 8 * length bs)%nat by lia.
  rewrite (iterate_add 8). change (le_dec (c :: bs)) with (c + 256 * le_dec bs). by rewrite iterate_byte, IH.
Qed.

(** * The tables *)

#[local] Opaque divide iterate.

(** The table holds the remainders of the bytes shifted by [k + 1] bytes,
    through the byte order's [e]. *)
Definition table_ok (e : Z → Z) (t : list (list Z)) : Prop :=
  ∀ k n, 0 ≤ k < 8 → is_byte n → table_entry t k n = Ret (e (iterate (8 * S (Z.to_nat k)) divide n)).

Lemma rd_map_seqZ (f : Z → Z) n : is_byte n → rd (map f (seqZ 0 256)) n = Ret (f n).
Proof.
  intros Hn. destruct (rd_ok (map f (seqZ 0 256)) n) as (v & -> & Hv).
  { unfold zlen. rewrite length_map, length_seqZ. exact Hn. }
  change (map f (seqZ 0 256)) with (f <$> seqZ 0 256) in Hv. rewrite list_lookup_fmap, lookup_seqZ_lt in Hv by (destruct Hn; lia).
  cbn in Hv. injection Hv as <-. do 2 f_equal. destruct Hn. lia.
Qed.

Lemma update_split x : Z.lxor (iterate 8 divide (Z.land x 255)) (Z.shiftr x 8) = iterate 8 divide x.
Proof. symmetry. by apply (iterate_low 8 0). Qed.

Lemma low_byte x : is_byte (Z.land x 255).
Proof. apply (land_word 8); lia. Qed.

Lemma column_spec k x :
  iterate 8 divide x :: map (λ j, iterate (8 * S j) divide (iterate 8 divide x)) (seq 0 k) =
    map (λ j, iterate (8 * S j) divide x) (seq 0 (S k)).
Proof.
  rewrite <- (cons_seq k 0), map_cons, <- (seq_shift k 0), map_map. apply (f_equal2 cons); [reflexivity|]. apply map_ext. intros j.
  rewrite <- (iterate_add 8). f_equal. lia.
Qed.

Lemma byte_land c : is_byte c → Z.land c 255 = c.
Proof. intros Hc. change 255 with (Z.ones 8). rewrite Z.land_ones, Z.mod_small by (lia || exact Hc). done. Qed.

Section columns.
Context (row0 : list Z) (Hrow : ∀ n, is_byte n → rd row0 n = Ret (iterate 8 divide n)).

Lemma nested_spec k x : nested row0 k x = Ret (map (λ j, iterate (8 * S j) divide x) (seq 0 k)).
Proof.
  revert x. induction k as [|k IH]; intros x; [done|]. cbn [nested]. rewrite Hrow by apply low_byte. run.
  rewrite update_split, IH. run. by rewrite column_spec.
Qed.

Lemma columns_spec ns :
  Forall is_byte ns →
  columns row0 ns = Ret (map (λ n, map (λ j, iterate (8 * S j) divide n) (seq 0 8)) ns).
Proof.
  induction 1 as [|n ns Hn Hns IH]; [reflexivity|]. cbn [columns]. rewrite Hrow by done. rewrite bind_Ret, nested_spec, bind_Ret, IH, bind_Ret.
  rewrite (column_spec 7), map_cons. reflexivity.
Qed.

End columns.

Lemma bytes_seqZ : Forall is_byte (seqZ 0 256).
Proof. apply Forall_forall. intros n Hn%elem_of_seqZ. unfold is_byte. lia. Qed.

Lemma row0_spec : map (λ n, _crc64 0 [n]) (seqZ 0 256) = map (iterate 8 divide) (seqZ 0 256).
Proof.
  apply map_ext_in. intros n Hn. pose proof (proj1 (Forall_forall _ _) bytes_seqZ n ltac:(by apply list_elem_of_In)) as Hb.
  rewrite _crc64_update by (try done; by apply Forall_singleton).
  replace (crc_reflect 0 64) with 0 by (by vm_compute). cbn [foldl]. unfold update. by rewrite Z.lxor_0_l.
Qed.

Lemma little_init_spec : ∃ t, crcspeed64little_init _crc64 = Ret t ∧ table_ok (λ x, x) t.
Proof.
  unfold crcspeed64little_init. rewrite row0_spec, columns_spec by (apply rd_map_seqZ || apply bytes_seqZ).
  run. eexists. split; [reflexivity|].
  intros k n Hk Hn. unfold table_entry. rewrite list_lookup_fmap, lookup_seq_lt by lia. cbn [fmap option_fmap option_map].
  rewrite map_map, rd_map_seqZ by done. f_equal.
  rewrite (list_lookup_total_correct _ _ (iterate (8 * S (Z.to_nat k)) divide n)); [done|].
  rewrite list_lookup_fmap, lookup_seq_lt by lia. done.
Qed.

(** * Reversed bytes *)

(** [rev8] with disjoint parts. *)
Definition rev8_xor (a : Z) : Z :=
  let m := 0xff00ff00ff00ff in
  let a := Z.lxor (Z.land (Z.shiftr a 8) m) (u64 (Z.shiftl (Z.land a m) 8)) in
  let m := 0xffff0000ffff in
  let a := Z.lxor (Z.land (Z.shiftr a 16) m) (u64 (Z.shiftl (Z.land a m) 16)) in
  Z.lxor (Z.shiftr a 32) (u64 (Z.shiftl a 32)).

Lemma u64_word x : is_word (u64 x).
Proof. by apply wrapu_range. Qed.

Lemma rev8_half p a m n :
  0 ≤ n → Z.land m (Z.land (Z.shiftl m n) (Z.ones 64)) = 0 →
  Z.lor (Z.land p m) (u64 (Z.shiftl (Z.land a m) n)) = Z.lxor (Z.land p m) (u64 (Z.shiftl (Z.land a m) n)).
Proof.
  intros Hn Hm. unfold wrapu. rewrite <- Z.land_ones, Z.shiftl_land, <- Z.land_assoc by lia. by apply lor_masks.
Qed.

Lemma rev8_eq a : rev8 a = rev8_xor a.
Proof.
  unfold rev8, rev8_xor. rewrite !rev8_half by (done || lia). apply (lor_high 64 32); [done..|].
  rewrite Z.shiftr_div_pow2 by lia. match goal with |- 0 ≤ ?x / _ < _ => assert (is_word x) as Hw end.
  { apply lxor_word; [lia|apply (land_word 64); lia|apply u64_word]. }
  unfold is_word in Hw. split; [apply Z.div_pos; lia|]. apply Z.div_lt_upper_bound; lia.
Qed.

#[local] Instance linear_rev8 f : Linear f → Linear (λ x, rev8 (f x)).
Proof.
  intros Hf. cut (Linear (λ x, rev8_xor (f x))); [|unfold rev8_xor; apply _].
  intros Hx x y. rewrite !rev8_eq. apply Hx.
Qed.

#[local] Instance linear_rev8_fn : Linear rev8.
Proof. exact (linear_rev8 (λ x, x) _). Qed.

#[local] Typeclasses Opaque rev8.

Lemma rev8_lxor x y : rev8 (Z.lxor x y) = Z.lxor (rev8 x) (rev8 y).
Proof. apply (linear_rev8 (λ x, x) _). Qed.

Ltac on_bits n f g x Hx := exact (linear_agree n f g _ _ ltac:(by vm_compute) x Hx).

Lemma rev8_rev8 x : is_word x → rev8 (rev8 x) = x.
Proof. intros Hx. on_bits 64%nat (λ x, rev8 (rev8 x)) (λ x : Z, x) x Hx. Qed.

Lemma rev8_word x : is_word (rev8 x).
Proof.
  unfold rev8. match goal with |- is_word (Z.lor (Z.shiftr ?a 32) _) => assert (is_word a) as Ha end.
  { apply lor_word; [lia|apply (land_word 64); lia|apply u64_word]. }
  unfold is_word in Ha. apply lor_word; [lia| |apply u64_word]. rewrite Z.shiftr_div_pow2 by lia.
  split; [apply Z.div_pos; lia|]. apply Z.div_lt_upper_bound; lia.
Qed.

Lemma rev8_shift x : is_word x → u64 (Z.shiftl (rev8 x) 8) = rev8 (Z.shiftr x 8).
Proof. intros Hx. on_bits 64%nat (λ x, u64 (Z.shiftl (rev8 x) 8)) (λ x, rev8 (Z.shiftr x 8)) x Hx. Qed.

Lemma rev8_top x : is_word x → Z.shiftr (rev8 x) 56 = Z.land x 255.
Proof. intros Hx. on_bits 64%nat (λ x, Z.shiftr (rev8 x) 56) (λ x, Z.land x 255) x Hx. Qed.

Lemma rev8_byte i j x :
  i ∈ [0; 8; 16; 24; 32; 40; 48] → j = 56 - i → is_word x →
  Z.land (Z.shiftr (rev8 x) i) 255 = Z.land (Z.shiftr x j) 255.
Proof.
  intros Hi -> Hx. repeat (apply elem_of_cons in Hi as [->|Hi]); [..|by apply not_elem_of_nil in Hi].
  all: match goal with |- Z.land (Z.shiftr _ ?i) _ = Z.land (Z.shiftr _ ?j) _ =>
    on_bits 64%nat (λ x, Z.land (Z.shiftr (rev8 x) i) 255) (λ x, Z.land (Z.shiftr x j) 255) x Hx end.
Qed.

Lemma rev8_low c : is_byte c → rev8 c = Z.shiftl c 56.
Proof. intros Hc. on_bits 8%nat (λ c, rev8 c) (λ c, Z.shiftl c 56) c Hc. Qed.

Lemma rev8_shiftl x : 0 ≤ x < 2 ^ 56 → rev8 (Z.shiftl x 8) = Z.shiftr (rev8 x) 8.
Proof. intros Hx. on_bits 56%nat (λ x, rev8 (Z.shiftl x 8)) (λ x, Z.shiftr (rev8 x) 8) x Hx. Qed.

Lemma be_dec_cons c bs : bytes_ok bs → be_dec (c :: bs) = Z.lxor (be_dec bs) (Z.shiftl c (8 * zlen bs)).
Proof.
  intros Hb. pose proof (zlen_nonneg bs). assert (zlen (reverse bs) = zlen bs) as Hr by (unfold zlen; by rewrite length_reverse).
  unfold be_dec. rewrite reverse_cons, le_dec_app. replace (le_dec [c]) with c by (change (le_dec [c]) with (c + 256 * 0); lia). rewrite Hr.
  apply add_lxor; [lia|]. rewrite <- Hr. apply le_dec_range. by apply Forall_reverse.
Qed.

Lemma rev8_le_dec bs :
  bytes_ok bs → zlen bs ≤ 8 → rev8 (le_dec bs) = Z.shiftl (be_dec bs) (64 - 8 * zlen bs).
Proof.
  induction 1 as [|c bs Hc Hb IH]; intros Hn; [by vm_compute|]. zlr. pose proof (zlen_nonneg bs).
  change (le_dec (c :: bs)) with (c + 2 ^ 8 * le_dec bs).
  assert (0 ≤ le_dec bs < 2 ^ 56) as Hr.
  { pose proof (le_dec_range bs Hb) as [Hl Hu]. split; [done|]. eapply Z.lt_le_trans; [exact Hu|]. apply Z.pow_le_mono_r; lia. }
  rewrite add_lxor, rev8_lxor, rev8_low, rev8_shiftl by (done || lia).
  rewrite IH, be_dec_cons, Z.shiftl_lxor, Z.shiftl_shiftl, Z.shiftr_shiftl_l by (done || lia). rewrite Z.lxor_comm.
  f_equal; f_equal; lia.
Qed.

Lemma be_dec_rev8 bs : zlen bs = 8 → bytes_ok bs → be_dec bs = rev8 (le_dec bs).
Proof. intros Hl Hb. rewrite rev8_le_dec, Hl by (done || lia). by rewrite Z.shiftl_0_r. Qed.

(** * The steps of the routines *)

(** A register seen through the byte order, and the steps that update it. *)
Record steps_ok (H : HostOrder) (e : Z → Z) (byte : Z → Z → outcome Z) (word : Z → outcome Z) : Prop := {
  byte_ok : ∀ v c, is_word v → is_byte c → byte (e v) c = Ret (e (update v c));
  word_ok : ∀ v bs, is_word v → bytes_ok bs → zlen bs = 8 →
    word (Z.lxor (e v) (nat_dec bs)) = Ret (e (foldl update v bs));
}.

Lemma update_lookup v c : is_byte c → Z.lxor (iterate 8 divide (Z.land (Z.lxor v c) 255)) (Z.shiftr v 8) = update v c.
Proof.
  intros Hc. unfold update. rewrite <- (update_split (Z.lxor v c)), Z.shiftr_lxor, (Z.shiftr_div_pow2 c) by lia.
  rewrite (Z.div_small c) by exact Hc. by rewrite Z.lxor_0_r.
Qed.

Lemma word_lookup x :
  Z.lxor (Z.lxor (Z.lxor (Z.lxor (Z.lxor (Z.lxor (Z.lxor
    (iterate 64 divide (Z.land x 255))
    (iterate 56 divide (Z.land (Z.shiftr x 8) 255))) (iterate 48 divide (Z.land (Z.shiftr x 16) 255)))
    (iterate 40 divide (Z.land (Z.shiftr x 24) 255))) (iterate 32 divide (Z.land (Z.shiftr x 32) 255)))
    (iterate 24 divide (Z.land (Z.shiftr x 40) 255))) (iterate 16 divide (Z.land (Z.shiftr x 48) 255)))
    (iterate 8 divide (Z.shiftr x 56)) = iterate 64 divide x.
Proof.
  rewrite (iterate_low 64 56 x), (iterate_low 56 48 (Z.shiftr x 8)), Z.shiftr_shiftr by (done || lia). change (8 + 8) with 16.
  rewrite (iterate_low 48 40 (Z.shiftr x 16)), Z.shiftr_shiftr by (done || lia). change (16 + 8) with 24.
  rewrite (iterate_low 40 32 (Z.shiftr x 24)), Z.shiftr_shiftr by (done || lia). change (24 + 8) with 32.
  rewrite (iterate_low 32 24 (Z.shiftr x 32)), Z.shiftr_shiftr by (done || lia). change (32 + 8) with 40.
  rewrite (iterate_low 24 16 (Z.shiftr x 40)), Z.shiftr_shiftr by (done || lia). change (40 + 8) with 48.
  rewrite (iterate_low 16 8 (Z.shiftr x 48)), Z.shiftr_shiftr by (done || lia). change (48 + 8) with 56.
  rewrite !Z.lxor_assoc. reflexivity.
Qed.

Lemma lxor_backwards a b c d e f g h :
  Z.lxor (Z.lxor (Z.lxor (Z.lxor (Z.lxor (Z.lxor (Z.lxor a b) c) d) e) f) g) h =
  Z.lxor (Z.lxor (Z.lxor (Z.lxor (Z.lxor (Z.lxor (Z.lxor h g) f) e) d) c) b) a.
Proof.
  apply Z.bits_inj'. intros i _. rewrite !Z.lxor_spec.
  by destruct (Z.testbit a i), (Z.testbit b i), (Z.testbit c i), (Z.testbit d i), (Z.testbit e i), (Z.testbit f i),
    (Z.testbit g i), (Z.testbit h i).
Qed.

Lemma little_steps t :
  table_ok (λ x, x) t → steps_ok false (λ x, x) (little_byte t) (little_word t).
Proof.
  intros Ht. split.
  - intros v c Hv Hc. unfold little_byte. rewrite (Ht 0) by (lia || apply low_byte). run. by rewrite update_lookup.
  - intros v bs Hv Hb Hl. unfold nat_dec, big_endian. set (x := Z.lxor v (le_dec bs)).
    assert (is_word x) as Hx. { apply lxor_word; [lia|done|]. pose proof (le_dec_range bs Hb) as Hr. by rewrite Hl in Hr. }
    assert (is_byte (Z.shiftr x 56)) as Hh.
    { rewrite Z.shiftr_div_pow2 by lia. unfold is_word in Hx. split; [apply Z.div_pos; lia|apply Z.div_lt_upper_bound; lia]. }
    unfold little_word. rewrite !Ht by (lia || apply low_byte || done). rewrite !bind_Ret. f_equal.
    etransitivity; [exact (word_lookup x)|]. rewrite <- (iterate_bytes bs v Hb). apply zlen_inv in Hl. by rewrite Hl.
Qed.

Lemma big_steps t : table_ok rev8 t → steps_ok true rev8 (big_byte t) (big_word t).
Proof.
  intros Ht. split.
  - intros v c Hv Hc. unfold big_byte. rewrite rev8_top, rev8_shift by done.
    assert (Z.lxor (Z.land v 255) c = Z.land (Z.lxor v c) 255) as ->.
    { rewrite (linear_land (λ x, x) 255 _). by rewrite (byte_land c). }
    rewrite (Ht 0) by (lia || apply low_byte). run. by rewrite <- rev8_lxor, update_lookup.
  - intros v bs Hv Hb Hl. unfold nat_dec, big_endian. rewrite be_dec_rev8, <- rev8_lxor by done. set (x := Z.lxor v (le_dec bs)).
    assert (is_word x) as Hx. { apply lxor_word; [lia|done|]. pose proof (le_dec_range bs Hb) as Hr. by rewrite Hl in Hr. }
    assert (is_byte (Z.shiftr x 56)) as Hh.
    { rewrite Z.shiftr_div_pow2 by lia. unfold is_word in Hx. split; [apply Z.div_pos; lia|apply Z.div_lt_upper_bound; lia]. }
    pose proof (rev8_byte 0 56 x ltac:(set_solver) eq_refl Hx) as B0. rewrite Z.shiftr_0_r, (byte_land (Z.shiftr x 56)) in B0 by done.
    unfold big_word. rewrite B0, (rev8_byte 8 48 x), (rev8_byte 16 40 x), (rev8_byte 24 32 x), (rev8_byte 32 24 x),
      (rev8_byte 40 16 x), (rev8_byte 48 8 x), rev8_top by (done || set_solver).
    rewrite !Ht by (lia || apply low_byte || done). rewrite !bind_Ret. f_equal. rewrite <- !rev8_lxor. f_equal.
    rewrite <- (iterate_bytes bs v Hb), (zlen_inv _ _ Hl), lxor_backwards. apply word_lookup.
Qed.

Section loops.
Context {H : HostOrder} {e : Z → Z} {byte : Z → Z → outcome Z} {word : Z → outcome Z} (Hok : steps_ok H e byte word).

Lemma align_loop_spec buf v next :
  is_word v → bytes_ok buf →
  ∃ pre rest, buf = pre ++ rest ∧ align_loop byte (e v) next buf = Ret (e (foldl update v pre), rest).
Proof.
  intros Hv Hb. revert v next Hv. induction Hb as [|c buf Hc Hb IH]; intros v next Hv; [by exists [], []|].
  cbn [align_loop]. case_match; [by exists [], (c :: buf)|]. rewrite (byte_ok _ _ _ _ Hok) by done. run.
  destruct (IH (update v c) (next + 1)) as (pre & rest & -> & E); [by apply update_word|].
  by exists (c :: pre), rest.
Qed.

Lemma word_loop_spec fuel buf v :
  (length buf < fuel)%nat → is_word v → bytes_ok buf →
  ∃ pre rest, buf = pre ++ rest ∧ word_loop word fuel (e v) buf = Ret (e (foldl update v pre), rest).
Proof.
  revert buf v. induction fuel as [|fuel IH]; intros buf v Hf Hv Hb; [lia|]. cbn [word_loop].
  destruct (Z.leb_spec 8 (zlen buf)) as [Hl|]; [|by exists [], buf].
  assert (zlen (take 8 buf) = 8) as Ht by (apply (zlen_take 8); lia).
  rewrite <- (take_drop 8 buf) in Hb. apply Forall_app in Hb as [Hb1 Hb2].
  pose proof (rdn_app0 (take 8 buf) (drop 8 buf) 8 Ht) as E0. rewrite take_drop in E0.
  unfold load. change (Z.of_nat 8) with 8. rewrite E0. run. rewrite (word_ok _ _ _ _ Hok) by done. run.
  destruct (IH (drop 8 buf) (foldl update v (take 8 buf))) as (pre & rest & E & E2).
  - rewrite length_drop. unfold zlen in Hl. lia.
  - by apply updates_word.
  - done.
  - exists (take 8 buf ++ pre), rest. rewrite <- app_assoc, <- E, take_drop. split; [done|]. by rewrite E2, foldl_app.
Qed.

Lemma tail_loop_spec buf v :
  is_word v → bytes_ok buf → tail_loop byte (e v) buf = Ret (e (foldl update v buf)).
Proof.
  intros Hv Hb. revert v Hv. induction Hb as [|c buf Hc Hb IH]; intros v Hv; [done|].
  cbn [tail_loop]. rewrite (byte_ok _ _ _ _ Hok) by done. run. by apply IH, update_word.
Qed.

Lemma loops_spec {B} buf v next (k : outcome Z → outcome B) :
  is_word v → bytes_ok buf →
  ('(crc, buf) ← align_loop byte (e v) next buf;
   '(crc, buf) ← word_loop word (S (length buf)) crc buf;
   k (tail_loop byte crc buf)) = k (Ret (e (foldl update v buf))).
Proof.
  intros Hv Hb. destruct (align_loop_spec buf v next Hv Hb) as (p1 & r1 & -> & ->). run.
  apply Forall_app in Hb as [Hp1 Hr1].
  destruct (word_loop_spec (S (length r1)) r1 (foldl update v p1)) as (p2 & r2 & -> & ->); [lia|by apply updates_word|done|].
  run. apply Forall_app in Hr1 as [Hp2 Hr2]. rewrite tail_loop_spec by (try done; by repeat apply updates_word).
  by rewrite !foldl_app.
Qed.

End loops.

Lemma big_init_spec : ∃ t, crcspeed64big_init _crc64 = Ret t ∧ table_ok rev8 t.
Proof.
  destruct little_init_spec as (t & E & Ht). unfold crcspeed64big_init. rewrite E. run. eexists. split; [reflexivity|].
  intros k n Hk Hn. specialize (Ht k n Hk Hn). unfold table_entry in *. change (map (map rev8) t) with (map rev8 <$> t).
  rewrite list_lookup_fmap. destruct (t !! Z.to_nat k) as [row|]; [|done]. cbn [fmap option_fmap option_map].
  apply rd_inv in Ht as [Hr Hv]. unfold rd. rewrite list_lookup_fmap, Hv.
  by rewrite (proj2 (Z.leb_le 0 n)) by lia.
Qed.

(** The register after [data], whatever the host and the alignment. *)
Lemma crc64_native {H : HostOrder} :
  ∃ t, crc64_init = Ret t ∧
    ∀ v next data, is_word v → bytes_ok data → crc64 t v next data = Ret (foldl update v data).
Proof.
  unfold crc64_init, crc64, crcspeed64native_init, crcspeed64native, nat_enc. destruct H.
  - destruct big_init_spec as (t & E & Ht). exists t. split; [exact E|]. intros v next data Hv Hb.
    etransitivity; [exact (loops_spec (big_steps t Ht) data v next (λ r, crc ← r; Ret (rev8 crc)) Hv Hb)|].
    rewrite bind_Ret, rev8_rev8 by by apply updates_word. done.
  - destruct little_init_spec as (t & E & Ht). exists t. split; [exact E|]. intros v next data Hv Hb.
    exact (loops_spec (little_steps t Ht) data v next (λ r, r) Hv Hb).
Qed.

(** * crc16 and the hash slots *)

#[local] Instance linear_divide16 : Linear divide16.
Proof. unfold divide16. apply _. Qed.

(** The table is that of the polynomial. *)
Lemma crc16tab_ok c : is_byte c → rd crc16tab c = Ret (iterate 8 divide16 (Z.shiftl c 8)).
Proof.
  assert (crc16tab = map (λ c, iterate 8 divide16 (Z.shiftl c 8)) (seqZ 0 256)) as -> by (by vm_compute).
  intros Hc. exact (rd_map_seqZ (λ c, iterate 8 divide16 (Z.shiftl c 8)) c Hc).
Qed.

Lemma divide16_range v : 0 ≤ divide16 v < 2 ^ 16.
Proof. unfold divide16. apply lxor_word; [lia|by apply wrapu_range|case_match; lia]. Qed.

Lemma update16_range v c : 0 ≤ update16 v c < 2 ^ 16.
Proof. unfold update16. rewrite iterate_S. apply divide16_range. Qed.

Lemma crc16_byte_spec v c :
  0 ≤ v < 2 ^ 16 → is_byte c → crc16_byte v c = Ret (update16 v c).
Proof.
  intros Hv Hc. assert (is_byte (Z.shiftr v 8)) as Hh.
  { rewrite Z.shiftr_div_pow2 by lia. split; [apply Z.div_pos; lia|apply Z.div_lt_upper_bound; lia]. }
  unfold crc16_byte. rewrite (byte_land (Z.lxor _ _)) by (by apply (lxor_word 8)). rewrite crc16tab_ok by (by apply (lxor_word 8)). run.
  f_equal. rewrite (linear_wrapu (λ x, x) 16 _), (wrapu_id _ (iterate _ _ _)) by apply (update16_range 0).
  assert (u16 (Z.shiftl v 8) = iterate 8 divide16 (Z.land v 255)) as ->
    by on_bits 16%nat (λ v, u16 (Z.shiftl v 8)) (λ v, iterate 8 divide16 (Z.land v 255)) v Hv.
  rewrite <- (linear_iterate 8 divide16 (λ x, x) _ _), Z.shiftl_lxor, <- Z.lxor_assoc.
  unfold update16. change 255 with (Z.ones 8). by rewrite <- (lxor_split 8 v) by lia.
Qed.

Lemma crc16_spec buf : bytes_ok buf → crc16 buf = Ret (foldl update16 0 buf).
Proof.
  intros Hb. unfold crc16. assert (∀ v, 0 ≤ v < 2 ^ 16 → tail_loop crc16_byte v buf = Ret (foldl update16 v buf)) as HL.
  - induction Hb as [|c buf Hc Hb IH]; intros v Hv; [done|]. cbn [tail_loop]. rewrite crc16_byte_spec by done. run.
    apply IH, update16_range.
  - by apply HL.
Qed.

Lemma scan_found c pre post s : c ∉ pre → scan_char c (pre ++ c :: post) s = s + zlen pre.
Proof.
  revert s. induction pre as [|x pre IH]; intros s Hc; cbn [app scan_char].
  - rewrite Z.eqb_refl, zlen_nil. lia.
  - apply not_elem_of_cons in Hc as [Hx Hc]. test (x =? c) false. rewrite IH by done. zlr. lia.
Qed.

Lemma scan_missing c key s : c ∉ key → scan_char c key s = s + zlen key.
Proof.
  revert s. induction key as [|x key IH]; intros s Hc; cbn [scan_char]; [rewrite zlen_nil; lia|].
  apply not_elem_of_cons in Hc as [Hx Hc]. test (x =? c) false. rewrite IH by done. zlr. lia.
Qed.

Lemma scan_shift c key s : scan_char c key s = s + scan_char c key 0.
Proof.
  revert s. induction key as [|x key IH]; intros s; cbn [scan_char]; [lia|]. case_match; [lia|]. rewrite IH, (IH (0 + 1)). lia.
Qed.

Lemma scan_range c key : 0 ≤ scan_char c key 0 ≤ zlen key.
Proof.
  induction key as [|x key IH]; cbn [scan_char]; [done|]. zlr. case_match; [pose proof (zlen_nonneg key); lia|]. rewrite scan_shift. lia.
Qed.

Lemma hashed_total key : ∃ part, hashed key part.
Proof.
  destruct (decide (123 ∈ key)) as [Hin|]; [|by exists key; constructor].
  apply list_elem_of_split_l in Hin as (pre & post & -> & Hpre).
  destruct (decide (125 ∈ post)) as [Hin|]; [|by eexists; apply hashed_open].
  apply list_elem_of_split_l in Hin as (tag & post' & -> & Htag).
  destruct tag; [by eexists; apply hashed_empty|by eexists; apply hashed_tag].
Qed.

Lemma keyHashSlot_open pre rest :
  123 ∉ pre → bytes_ok (pre ++ 123 :: rest) →
  keyHashSlot (pre ++ 123 :: rest) =
    (let n := scan_char 125 rest 0 in
     part ← (if (n =? zlen rest) || (n =? 0) then Ret (pre ++ 123 :: rest) else rdn rest 0 n);
     crc ← crc16 part; Ret (Z.land crc 0x3FFF)).
Proof.
  intros Hp Hb. pose proof (zlen_nonneg pre). pose proof (zlen_nonneg rest). unfold keyHashSlot. rewrite scan_found by done. zlr.
  test (0 + zlen pre =? zlen pre + (1 + zlen rest)) false.
  assert (drop (Z.to_nat (0 + zlen pre + 1)) (pre ++ 123 :: rest) = rest) as ->.
  { replace (Z.to_nat (0 + zlen pre + 1)) with (S (length pre)) by (unfold zlen; lia). rewrite cons_middle, app_assoc.
    apply drop_app_length'. rewrite length_app. simpl. lia. }
  rewrite scan_shift. pose proof (scan_range 125 rest). cbn zeta. set (n := scan_char 125 rest 0) in *.
  replace (0 + zlen pre + 1 + n =? zlen pre + (1 + zlen rest)) with (n =? zlen rest)
    by (destruct (Z.eqb_spec n (zlen rest)), (Z.eqb_spec (0 + zlen pre + 1 + n) (zlen pre + (1 + zlen rest))); done || lia).
  replace (0 + zlen pre + 1 + n =? 0 + zlen pre + 1) with (n =? 0)
    by (destruct (Z.eqb_spec n 0), (Z.eqb_spec (0 + zlen pre + 1 + n) (0 + zlen pre + 1)); done || lia).
  destruct ((n =? zlen rest) || (n =? 0)); [done|]. replace (0 + zlen pre + 1 + n - (0 + zlen pre) - 1) with n by lia.
  destruct (rdn_ok rest 0 n) as (a & m & c & -> & Ha & Hm & ->); [lia..|]. apply zlen_zero in Ha as ->. cbn [app].
  rewrite cons_middle, app_assoc, rdn_app by (zlr; lia). done.
Qed.

Lemma keyHashSlot_part key part :
  hashed key part → bytes_ok key → keyHashSlot key = Ret (Z.land (foldl update16 0 part) 0x3FFF).
Proof.
  intros Hh Hb. assert (∀ p, bytes_ok p → (crc ← crc16 p; Ret (Z.land crc 0x3FFF)) = Ret (Z.land (foldl update16 0 p) 0x3FFF)) as Hc.
  { intros p Hp. by rewrite crc16_spec. }
  destruct Hh as [pre tag post Hp Ht Hne|pre post Hp|pre post Hp Ht|key Hp].
  - rewrite keyHashSlot_open, scan_found by done. cbn zeta. zlr. pose proof (zlen_nonneg tag). pose proof (zlen_nonneg post).
    assert (zlen tag ≠ 0) by (by intros ?%zlen_zero). test (0 + zlen tag =? zlen tag + (1 + zlen post)) false.
    test (0 + zlen tag =? 0) false. cbn [orb]. rewrite rdn_app0 by lia. run. apply Hc.
    apply Forall_app in Hb as [_ [_ [Hb _]%Forall_app]%Forall_cons]. done.
  - rewrite keyHashSlot_open by done. cbn zeta. cbn [scan_char Z.eqb Pos.eqb]. rewrite orb_true_r. run. by apply Hc.
  - rewrite keyHashSlot_open, scan_missing by done. cbn zeta. test (0 + zlen post =? zlen post) true. cbn [orb]. run. by apply Hc.
  - unfold keyHashSlot. rewrite scan_missing by done. test (0 + zlen key =? zlen key) true. by apply Hc.
Qed.

(** * Claims *)

(** C22. On a host of either byte order the tables [crc64_init] builds make
    [crc64] return the checksum of the bit-by-bit [_crc64], whose register is
    the bit-reversed one, for every buffer at every address; and the checksum
    of a buffer may be computed in pieces, wherever it is cut and wherever the
    pieces lie. *)
Theorem crc64_correct {H : HostOrder} (c next1 next2 : Z) (s1 s2 : list Z) :
  0 ≤ c < 2 ^ 64 → bytes_ok (s1 ++ s2) →
  ∃ t, crc64_init = Ret t ∧
    crc64 t (crc_reflect c 64) next1 (s1 ++ s2) = Ret (_crc64 c (s1 ++ s2)) ∧
    (crc ← crc64 t (crc_reflect c 64) next1 s1; crc64 t crc next2 s2) = Ret (_crc64 c (s1 ++ s2)).
Proof.
  intros Hc Hb. destruct crc64_native as (t & E & Ht). exists t. split; [done|]. pose proof (reflect_word c Hc) as Hr.
  apply Forall_app in Hb as Hb'. destruct Hb' as [Hb1 Hb2].
  rewrite _crc64_update, !Ht by done. split; [done|]. run. rewrite Ht by (try done; by apply updates_word). by rewrite foldl_app.
Qed.

(** C23. [keyHashSlot] returns, for every key, the CRC-16/XMODEM of the hashed part
    of the key modulo 16384; so keys with the same hash tag share a slot. *)
Theorem keyHashSlot_spec (key part : list Z) :
  bytes_ok key → hashed key part →
  ∃ crc, crc16 part = Ret crc ∧ crc = foldl update16 0 part ∧
    keyHashSlot key = Ret (crc mod 16384) ∧ 0 ≤ crc mod 16384 < 16384 ∧
    (∀ key', bytes_ok key' → hashed key' part → keyHashSlot key' = keyHashSlot key).
Proof.
  intros Hb Hh. exists (foldl update16 0 part). assert (bytes_ok part) as Hp.
  { destruct Hh; try done. apply Forall_app in Hb as [_ [_ [Hb _]%Forall_app]%Forall_cons]. done. }
  split_and!; [by apply crc16_spec|done| |by apply Z.mod_pos_bound| |].
  - rewrite (keyHashSlot_part key part) by done. change 0x3FFF with (Z.ones 14). by rewrite Z.land_ones by lia.
  - apply Z.mod_pos_bound. lia.
  - intros key' Hb' Hh'. by rewrite !(keyHashSlot_part _ part).
Qed.

(** * Examples *)

Lemma crc64_correct_witness :
  ∃ t, crc64_init (H := true) = Ret t ∧ crc64 (H := true) t 0 3 (cstr "123456789") = Ret 0xe9c6d914c4b8d9ca.
Proof.
  destruct (crc64_correct (H := true) 0 3 8 (cstr "12345") (cstr "6789") ltac:(lia)) as (t & E & Ht & _).
  - repeat (constructor; [by vm_compute|]). constructor.
  - exists t. split; [exact E|]. rewrite <- (eq_refl : _crc64 0 (cstr "12345" ++ cstr "6789") = 0xe9c6d914c4b8d9ca). exact Ht.
Defined.

Lemma keyHashSlot_spec_witness : keyHashSlot (cstr "user{1000}.x") = keyHashSlot (cstr "{1000}y").
Proof.
  destruct (keyHashSlot_spec (cstr "{1000}y") (cstr "1000")) as (crc & _ & _ & _ & _ & Hs).
  - repeat (constructor; [by vm_compute|]). constructor.
  - apply (hashed_tag [] (cstr "1000") (cstr "y")); vm_compute; set_solver.
  - apply Hs; [repeat (constructor; [by vm_compute|]); constructor|].
    apply (hashed_tag (cstr "user") (cstr "1000") (cstr ".x")); vm_compute; set_solver.
Defined.

End CrcSpec.
