(* ===== verification/Geohash.v ===== *)
(** Geohash cells: the integer part of [src/.../redis-6.2/src/geohash.c].

    A cell is identified by the interleaved bits of its latitude (even
    positions) and longitude (odd positions) at a precision of [step] bits each.
    The conversions between degrees and fixed point are floating-point code and
    are not modelled. *)
From S2P Require Import Prelude Bits.

Module Geohash.
Import Bits.

(** * Interleaving *)

(** [x = (x | (x << S)) & B] and [x = (x | (x >> S)) & B] *)
Definition spread_step (S B x : Z) : Z := Z.land (Z.lor x (u64 (Z.shiftl x S))) B.
Definition squash_step (S B x : Z) : Z := Z.land (Z.lor x (Z.shiftr x S)) B.

Definition B0 : Z := 0x5555555555555555.
Definition B1 : Z := 0x3333333333333333.
Definition B2 : Z := 0x0F0F0F0F0F0F0F0F.
Definition B3 : Z := 0x00FF00FF00FF00FF.
Definition B4 : Z := 0x0000FFFF0000FFFF.
Definition B5 : Z := 0x00000000FFFFFFFF.

Definition interleave64 (xlo ylo : Z) : Z :=
  let x := u32 xlo in
  let y := u32 ylo in
  let x := spread_step 16 B4 x in
  let y := spread_step 16 B4 y in
  let x := spread_step 8 B3 x in
  let y := spread_step 8 B3 y in
  let x := spread_step 4 B2 x in
  let y := spread_step 4 B2 y in
  let x := spread_step 2 B1 x in
  let y := spread_step 2 B1 y in
  let x := spread_step 1 B0 x in
  let y := spread_step 1 B0 y in
  Z.lor x (u64 (Z.shiftl y 1)).

Definition deinterleave64 (interleaved : Z) : Z :=
  let x := interleaved in
  let y := Z.shiftr interleaved 1 in
  let x := squash_step 0 B0 x in
  let y := squash_step 0 B0 y in
  let x := squash_step 1 B1 x in
  let y := squash_step 1 B1 y in
  let x := squash_step 2 B2 x in
  let y := squash_step 2 B2 y in
  let x := squash_step 4 B3 x in
  let y := squash_step 4 B3 y in
  let x := squash_step 8 B4 x in
  let y := squash_step 8 B4 y in
  let x := squash_step 16 B5 x in
  let y := squash_step 16 B5 y in
  Z.lor x (u64 (Z.shiftl y 32)).

(** * Neighbours *)

Record GeoHashBits := Hash { bits : Z; step : Z }.

Record GeoHashNeighbors := Neighbors {
  north : GeoHashBits;
  east : GeoHashBits;
  west : GeoHashBits;
  south : GeoHashBits;
  north_east : GeoHashBits;
  south_east : GeoHashBits;
  north_west : GeoHashBits;
  south_west : GeoHashBits;
}.

(** [v >> n] on a 64-bit word; shifting by a negative amount or by 64 and more
    is undefined. *)
Definition shr64 (v n : Z) : outcome Z :=
  if (0 <=? n) && (n <? 64) then Ret (Z.shiftr v n) else Fault.

Definition geohash_move_x (hash : GeoHashBits) (d : Z) : outcome GeoHashBits :=
  if d =? 0 then Ret hash
  else
    let x := Z.land (bits hash) 0xaaaaaaaaaaaaaaaa in
    let y := Z.land (bits hash) 0x5555555555555555 in
    zz ← shr64 0x5555555555555555 (64 - step hash * 2);
    let x := if 0 <? d then u64 (x + u64 (zz + 1))
             else u64 (Z.lor x zz - u64 (zz + 1)) in
    m ← shr64 0xaaaaaaaaaaaaaaaa (64 - step hash * 2);
    let x := Z.land x m in
    Ret (Hash (Z.lor x y) (step hash)).

Definition geohash_move_y (hash : GeoHashBits) (d : Z) : outcome GeoHashBits :=
  if d =? 0 then Ret hash
  else
    let x := Z.land (bits hash) 0xaaaaaaaaaaaaaaaa in
    let y := Z.land (bits hash) 0x5555555555555555 in
    zz ← shr64 0xaaaaaaaaaaaaaaaa (64 - step hash * 2);
    let y := if 0 <? d then u64 (y + u64 (zz + 1))
             else u64 (Z.lor y zz - u64 (zz + 1)) in
    m ← shr64 0x5555555555555555 (64 - step hash * 2);
    let y := Z.land y m in
    Ret (Hash (Z.lor x y) (step hash)).

Definition geohashNeighbors (hash : GeoHashBits) : outcome GeoHashNeighbors :=
  e ← geohash_move_x hash 1;
  e ← geohash_move_y e 0;
  w ← geohash_move_x hash (-1);
  w ← geohash_move_y w 0;
  s ← geohash_move_x hash 0;
  s ← geohash_move_y s (-1);
  n ← geohash_move_x hash 0;
  n ← geohash_move_y n 1;
  nw ← geohash_move_x hash (-1);
  nw ← geohash_move_y nw 1;
  ne ← geohash_move_x hash 1;
  ne ← geohash_move_y ne 1;
  se ← geohash_move_x hash 1;
  se ← geohash_move_y se (-1);
  sw ← geohash_move_x hash (-1);
  sw ← geohash_move_y sw (-1);
  Ret (Neighbors n e w s ne se nw sw).

(** * Specification *)

(** The bits of [x] at the even positions: the bits of [x] from [n] on are
    ignored. *)
Fixpoint spread (n : nat) (x : Z) : Z :=
  match n with
  | O => 0
  | S n => x mod 2 + 4 * spread n (x / 2)
  end.

(** The cell at latitude [lat] and longitude [lon], in units of the precision. *)
Definition cell (n : nat) (lat lon : Z) : Z := spread n lat + 2 * spread n lon.

(** * Interleaving is cell numbering *)

#[local] Typeclasses Opaque spread_step squash_step.

#[local] Instance additive_spread_step f S B : Additive f → Additive (λ x, spread_step S B (f x)).
Proof. intros Hf. unfold spread_step. apply _. Qed.

#[local] Instance additive_squash_step f S B : Additive f → Additive (λ x, squash_step S B (f x)).
Proof. intros Hf. unfold squash_step. apply _. Qed.

#[local] Instance additive_interleave f g : Additive f → Additive g → Additive (λ x, interleave64 (f x) (g x)).
Proof. intros Hf Hg. unfold interleave64. apply _. Qed.

#[local] Instance additive_deinterleave f : Additive f → Additive (λ x, deinterleave64 (f x)).
Proof. intros Hf. unfold deinterleave64. apply _. Qed.

#[local] Instance additive_deinterleave_fn : Additive deinterleave64.
Proof. exact (additive_deinterleave (λ x, x) _). Qed.

#[local] Typeclasses Opaque interleave64 deinterleave64.

Lemma deinterleave_interleave w :
  0 ≤ w < 2 ^ 64 → deinterleave64 (interleave64 w (Z.shiftr w 32)) = w.
Proof.
  intros Hw. exact (additive_agree 64 (λ w, deinterleave64 (interleave64 w (Z.shiftr w 32))) (λ w, w) _ _ eq_refl ltac:(by vm_compute) w Hw).
Qed.

Lemma interleave_deinterleave z :
  0 ≤ z < 2 ^ 64 → interleave64 (deinterleave64 z) (Z.shiftr (deinterleave64 z) 32) = z.
Proof.
  intros Hz. exact (additive_agree 64 (λ z, interleave64 (deinterleave64 z) (Z.shiftr (deinterleave64 z) 32)) (λ z, z) _ _ eq_refl
    ltac:(by vm_compute) z Hz).
Qed.

(** Two low bits and the rest. *)
Lemma land_4 a b c d : 0 ≤ b < 4 → 0 ≤ d < 4 → Z.land (b + 4 * a) (d + 4 * c) = Z.land b d + 4 * Z.land a c.
Proof.
  intros Hb Hd. change 4 with (2 ^ 2) in *. rewrite !add_lxor by (done || lia || by apply (land_word 2)).
  apply Z.bits_inj'. intros i Hi. rewrite !Z.land_spec, !Z.lxor_spec, !Z.land_spec.
  destruct (Z.lt_ge_cases i 2).
  - by rewrite !Z.shiftl_spec_low, !xorb_false_r by lia.
  - rewrite !Z.shiftl_spec, Z.land_spec, (testbit_word 2 b), (testbit_word 2 d) by lia. by rewrite !xorb_false_l.
Qed.

Lemma spread_range n x : 0 ≤ 3 * spread n x < 4 ^ Z.of_nat n.
Proof.
  revert x. induction n as [|n IH]; intros x; [done|]. cbn [spread]. specialize (IH (x / 2)).
  pose proof (Z.mod_pos_bound x 2). rewrite Nat2Z.inj_succ, Z.pow_succ_r by lia. lia.
Qed.

Lemma spread_step_eq n b x : 0 ≤ b < 2 → spread (S n) (b + 2 * x) = b + 4 * spread n x.
Proof.
  intros Hb. cbn [spread]. replace ((b + 2 * x) / 2) with x by (Z.div_mod_to_equations; lia).
  by replace ((b + 2 * x) mod 2) with b by (Z.div_mod_to_equations; lia).
Qed.

Lemma spread_id n x : 0 ≤ x < 2 ^ Z.of_nat n → ∃ b x', x = b + 2 * x' ∧ 0 ≤ b < 2 ∧ (∀ m, n = S m → 0 ≤ x' < 2 ^ Z.of_nat m).
Proof.
  intros Hx. exists (x mod 2), (x / 2). split; [Z.div_mod_to_equations; lia|]. split; [by apply Z.mod_pos_bound|].
  intros m ->. rewrite Nat2Z.inj_succ, Z.pow_succ_r in Hx by lia. Z.div_mod_to_equations. lia.
Qed.

(** The masks of a precision: ones at the even positions. *)
Definition ones_at (n : nat) : Z := spread n (-1).

Lemma ones_at_S n : ones_at (S n) = 1 + 4 * ones_at n.
Proof. done. Qed.

Lemma spread_masked n x : Z.land (spread n x) (ones_at n) = spread n x.
Proof.
  revert x. induction n as [|n IH]; intros x; [done|]. rewrite ones_at_S. cbn [spread]. pose proof (Z.mod_pos_bound x 2).
  rewrite land_4, IH by lia. assert (x mod 2 = 0 ∨ x mod 2 = 1) as [-> | ->] by lia; done.
Qed.

(** Even and odd positions do not meet. *)
Lemma spread_disjoint n x y : Z.land (spread n x) (2 * spread n y) = 0.
Proof.
  revert x y. induction n as [|n IH]; intros x y; [done|]. cbn [spread].
  pose proof (Z.mod_pos_bound x 2). pose proof (Z.mod_pos_bound y 2).
  replace (2 * (y mod 2 + 4 * spread n (y / 2))) with (2 * (y mod 2) + 4 * (2 * spread n (y / 2))) by lia.
  rewrite land_4, IH by lia. assert (x mod 2 = 0 ∨ x mod 2 = 1) as [-> | ->] by lia;
    assert (y mod 2 = 0 ∨ y mod 2 = 1) as [-> | ->] by lia; done.
Qed.

Lemma spread_odd_masked n x : Z.land (2 * spread n x) (2 * ones_at n) = 2 * spread n x.
Proof. rewrite !(Z.mul_comm 2), <- !(Z.shiftl_mul_pow2 _ 1) by lia. by rewrite <- Z.shiftl_land, spread_masked. Qed.

Lemma mod_double b x m : 0 ≤ b < 2 → 0 < m → (b + 2 * x) mod (2 * m) = b + 2 * (x mod m).
Proof.
  intros Hb Hm. symmetry. apply (Z.mod_unique_pos _ _ (x / m)); pose proof (Z.mod_pos_bound x m Hm); [lia|].
  pose proof (Z.div_mod x m). lia.
Qed.

(** Ones in the gaps do not change what the mask keeps. *)
Lemma fill_x n x : Z.land (2 * spread n x + ones_at n) (2 * ones_at n) = 2 * spread n x.
Proof.
  rewrite Z.add_comm, Z.add_nocarry_lxor by apply spread_disjoint.
  rewrite (linear_land (λ x, x) _ _), spread_odd_masked. unfold ones_at. by rewrite spread_disjoint.
Qed.

Lemma fill_y n x : Z.land (spread n x + 2 * ones_at n) (ones_at n) = spread n x.
Proof.
  rewrite Z.add_nocarry_lxor by apply spread_disjoint. rewrite (linear_land (λ x, x) _ _), spread_masked.
  unfold ones_at. by rewrite (Z.land_comm (2 * _)), spread_disjoint, Z.lxor_0_r.
Qed.

Ltac cell_step n x b x' IH Hx :=
  let Hb := fresh "Hb" in let Hx' := fresh "Hx'" in
  revert x Hx; induction n as [|n IH]; intros x Hx; [done|];
  destruct (spread_id _ _ Hx) as (b & x' & -> & Hb & Hx'%(λ H, H n eq_refl));
  specialize (IH x' Hx'); rewrite spread_step_eq, ones_at_S by done; rewrite Nat2Z.inj_succ, Z.pow_succ_r in * by lia;
  assert (b = 0 ∨ b = 1) as [-> | ->] by lia.

(** A carry passes through the gaps filled with ones, a borrow through the
    empty ones. *)
Lemma carry_x n x :
  0 ≤ x < 2 ^ Z.of_nat n →
  Z.land (2 * spread n x + (ones_at n + 1)) (2 * ones_at n) = 2 * spread n ((x + 1) mod 2 ^ Z.of_nat n).
Proof.
  intros Hx. cell_step n x b x' IH Hx; replace (2 * (1 + 4 * ones_at n)) with (2 + 4 * (2 * ones_at n)) by lia.
  - replace (2 * (0 + 4 * spread n x') + (1 + 4 * ones_at n + 1)) with (2 + 4 * (2 * spread n x' + ones_at n)) by lia.
    replace (0 + 2 * x' + 1) with (1 + 2 * x') by lia. rewrite land_4, fill_x, mod_double, spread_step_eq, Z.mod_small by lia. change (Z.land 2 2) with 2. lia.
  - replace (2 * (1 + 4 * spread n x') + (1 + 4 * ones_at n + 1)) with (0 + 4 * (2 * spread n x' + (ones_at n + 1))) by lia.
    replace (1 + 2 * x' + 1) with (0 + 2 * (x' + 1)) by lia. rewrite land_4, IH, mod_double, spread_step_eq by lia. change (Z.land 0 2) with 0. lia.
Qed.

Lemma borrow_x n x :
  0 ≤ x < 2 ^ Z.of_nat n →
  Z.land (2 * spread n x - 1) (2 * ones_at n) = 2 * spread n ((x - 1) mod 2 ^ Z.of_nat n).
Proof.
  intros Hx. cell_step n x b x' IH Hx; replace (2 * (1 + 4 * ones_at n)) with (2 + 4 * (2 * ones_at n)) by lia.
  - replace (2 * (0 + 4 * spread n x') - 1) with (3 + 4 * (2 * spread n x' - 1)) by lia.
    replace (0 + 2 * x' - 1) with (1 + 2 * (x' - 1)) by lia. rewrite land_4, IH, mod_double, spread_step_eq by lia. change (Z.land 3 2) with 2. lia.
  - replace (2 * (1 + 4 * spread n x') - 1) with (1 + 4 * (2 * spread n x')) by lia.
    replace (1 + 2 * x' - 1) with (0 + 2 * x') by lia. rewrite land_4, spread_odd_masked, mod_double, spread_step_eq, Z.mod_small by lia. change (Z.land 1 2) with 0. lia.
Qed.

Lemma carry_y n x :
  0 ≤ x < 2 ^ Z.of_nat n →
  Z.land (spread n x + (2 * ones_at n + 1)) (ones_at n) = spread n ((x + 1) mod 2 ^ Z.of_nat n).
Proof.
  intros Hx. cell_step n x b x' IH Hx.
  - replace (0 + 4 * spread n x' + (2 * (1 + 4 * ones_at n) + 1)) with (3 + 4 * (spread n x' + 2 * ones_at n)) by lia.
    replace (0 + 2 * x' + 1) with (1 + 2 * x') by lia. rewrite land_4, fill_y, mod_double, spread_step_eq, Z.mod_small by lia. change (Z.land 3 1) with 1. lia.
  - replace (1 + 4 * spread n x' + (2 * (1 + 4 * ones_at n) + 1)) with (0 + 4 * (spread n x' + (2 * ones_at n + 1))) by lia.
    replace (1 + 2 * x' + 1) with (0 + 2 * (x' + 1)) by lia. rewrite land_4, IH, mod_double, spread_step_eq by lia. change (Z.land 0 1) with 0. lia.
Qed.

Lemma borrow_y n x :
  0 ≤ x < 2 ^ Z.of_nat n →
  Z.land (spread n x - 1) (ones_at n) = spread n ((x - 1) mod 2 ^ Z.of_nat n).
Proof.
  intros Hx. cell_step n x b x' IH Hx.
  - replace (0 + 4 * spread n x' - 1) with (3 + 4 * (spread n x' - 1)) by lia.
    replace (0 + 2 * x' - 1) with (1 + 2 * (x' - 1)) by lia. rewrite land_4, IH, mod_double, spread_step_eq by lia. change (Z.land 3 1) with 1. lia.
  - replace (1 + 4 * spread n x' - 1) with (0 + 4 * spread n x') by lia.
    replace (1 + 2 * x' - 1) with (0 + 2 * x') by lia. rewrite land_4, spread_masked, mod_double, spread_step_eq, Z.mod_small by lia. change (Z.land 0 1) with 0. lia.
Qed.

(** [interleave64] numbers the cells. *)

Lemma spread_lor n x : spread (S n) x = Z.lor (Z.land x 1) (Z.shiftl (spread n (Z.shiftr x 1)) 2).
Proof.
  cbn [spread]. change (Z.land x 1) with (Z.land x (Z.ones 1)). rewrite Z.land_ones, Z.shiftr_div_pow2 by lia. change (2 ^ 1) with 2. change 4 with (2 ^ 2).
  pose proof (Z.mod_pos_bound x 2). rewrite add_lxor by lia. apply Z.lxor_lor, land_high; lia.
Qed.

#[local] Instance additive_spread n f : Additive f → Additive (λ x, spread n (f x)).
Proof.
  revert f. induction n as [|n IH]; intros f Hf; [by intros x y|]. intros x y. rewrite !spread_lor.
  apply (additive_lor (λ x, Z.land (f x) 1) (λ x, Z.shiftl (spread n (Z.shiftr (f x) 1)) 2)).
  - apply _.
  - apply (additive_shiftl (λ x, spread n (Z.shiftr (f x) 1))), IH, _.
Qed.

#[local] Typeclasses Opaque spread.

Lemma lor_cell n x y : Z.lor (spread n x) (2 * spread n y) = cell n x y.
Proof. unfold cell. by rewrite Z.add_nocarry_lxor, Z.lxor_lor by apply spread_disjoint. Qed.

Lemma interleave64_cell x y : 0 ≤ x < 2 ^ 32 → 0 ≤ y < 2 ^ 32 → interleave64 x y = cell 32 x y.
Proof.
  assert (∀ x, 0 ≤ x < 2 ^ 32 →
    spread_step 1 B0 (spread_step 2 B1 (spread_step 4 B2 (spread_step 8 B3 (spread_step 16 B4 (u32 x))))) = spread 32 x) as Hs.
  { intros z Hz. exact (additive_agree 32
      (λ x, spread_step 1 B0 (spread_step 2 B1 (spread_step 4 B2 (spread_step 8 B3 (spread_step 16 B4 (u32 x))))))
      (λ x, spread 32 x) _ _ eq_refl ltac:(by vm_compute) z Hz). }
  intros Hx Hy. unfold interleave64. rewrite !Hs by done. pose proof (spread_range 32 y) as Hr. change (4 ^ Z.of_nat 32) with (2 ^ 64) in Hr.
  rewrite <- lor_cell. f_equal. rewrite Z.shiftl_mul_pow2, Z.mul_comm by lia. apply wrapu_id. lia.
Qed.

Lemma spread_enough m n x : 0 ≤ x < 2 ^ Z.of_nat n → (n ≤ m)%nat → spread m x = spread n x.
Proof.
  revert m x. induction n as [|n IH]; intros m x Hx Hm.
  - assert (x = 0) as -> by (cbn in Hx; lia). clear. induction m as [|m IHm]; [done|]. cbn [spread]. change (0 / 2) with 0. rewrite IHm. done.
  - destruct m as [|m]; [lia|]. cbn [spread]. do 2 f_equal. apply IH; [|lia].
    rewrite Nat2Z.inj_succ, Z.pow_succ_r in Hx by lia. Z.div_mod_to_equations. lia.
Qed.

(** The shifted constants are the masks of the precision. *)
Lemma masks n :
  (1 ≤ n ≤ 32)%nat →
  shr64 0x5555555555555555 (64 - Z.of_nat n * 2) = Ret (ones_at n) ∧
  shr64 0xaaaaaaaaaaaaaaaa (64 - Z.of_nat n * 2) = Ret (2 * ones_at n).
Proof.
  intros Hn. unfold shr64. rewrite (proj2 (Z.leb_le 0 _)), (proj2 (Z.ltb_lt _ 64)) by lia. cbn [andb].
  assert (forallb (λ n, (Z.shiftr 0x5555555555555555 (64 - Z.of_nat n * 2) =? ones_at n) &&
    (Z.shiftr 0xaaaaaaaaaaaaaaaa (64 - Z.of_nat n * 2) =? 2 * ones_at n)) (seq 1 32) = true) as Hall by (by vm_compute).
  rewrite forallb_forall in Hall. specialize (Hall n ltac:(apply in_seq; lia)).
  apply andb_true_iff in Hall as [->%Z.eqb_eq ->%Z.eqb_eq]. done.
Qed.

(** * Moves *)

(** The cell of the coordinates [lat] and [lon] at the precision of [n] bits. *)
Definition hash_at (n : nat) (lat lon : Z) : GeoHashBits := Hash (interleave64 lat lon) (Z.of_nat n).

Section moves.
Context (n : nat) (Hn : (1 ≤ n ≤ 32)%nat).

Lemma coord_32 x : 0 ≤ x < 2 ^ Z.of_nat n → 0 ≤ x < 2 ^ 32.
Proof. intros Hx. assert (2 ^ Z.of_nat n ≤ 2 ^ 32) by (apply Z.pow_le_mono_r; lia). lia. Qed.

Lemma hash_at_cell lat lon :
  0 ≤ lat < 2 ^ Z.of_nat n → 0 ≤ lon < 2 ^ Z.of_nat n → hash_at n lat lon = Hash (cell n lat lon) (Z.of_nat n).
Proof.
  intros Hlat Hlon. unfold hash_at. rewrite interleave64_cell by by apply coord_32. unfold cell.
  by rewrite !(spread_enough 32 n) by (done || lia).
Qed.

Lemma cell_parts lat lon :
  0 ≤ lat < 2 ^ Z.of_nat n → 0 ≤ lon < 2 ^ Z.of_nat n →
  Z.land (cell n lat lon) 0xaaaaaaaaaaaaaaaa = 2 * spread n lon ∧
  Z.land (cell n lat lon) 0x5555555555555555 = spread n lat.
Proof.
  intros Hlat Hlon. change 0xaaaaaaaaaaaaaaaa with (2 * ones_at 32). change 0x5555555555555555 with (ones_at 32).
  rewrite <- lor_cell, !Z.land_lor_distr_l. rewrite <- !(spread_enough 32 n) by (done || lia).
  rewrite spread_odd_masked, spread_masked. split.
  - unfold ones_at. by rewrite spread_disjoint.
  - unfold ones_at. by rewrite (Z.land_comm (2 * _)), spread_disjoint, Z.lor_0_r.
Qed.

(** Wrapping around does not matter below the mask. *)
Lemma land_u64 v m : 0 ≤ m < 2 ^ 64 → Z.land (u64 v) m = Z.land v m.
Proof.
  intros Hm. unfold wrapu. rewrite <- Z.land_ones, <- Z.land_assoc by lia. f_equal.
  rewrite Z.land_comm, Z.land_ones, Z.mod_small by lia. done.
Qed.

Lemma ones_at_range : 0 ≤ ones_at n ∧ 2 * ones_at n + 1 < 2 ^ 64.
Proof.
  pose proof (spread_range n (-1)) as Hr. fold (ones_at n) in Hr. assert (4 ^ Z.of_nat n ≤ 2 ^ 64); [|lia].
  change 4 with (2 ^ 2). rewrite <- Z.pow_mul_r by lia. apply Z.pow_le_mono_r; lia.
Qed.

Lemma geohash_move_x_spec lat lon d :
  0 ≤ lat < 2 ^ Z.of_nat n → 0 ≤ lon < 2 ^ Z.of_nat n → -1 ≤ d ≤ 1 →
  geohash_move_x (hash_at n lat lon) d = Ret (hash_at n lat ((lon + d) mod 2 ^ Z.of_nat n)).
Proof.
  intros Hlat Hlon Hd. pose proof ones_at_range as Hr. assert (0 < 2 ^ Z.of_nat n) as Hp by lia.
  pose proof (Z.mod_pos_bound (lon + d) _ Hp) as Hm. rewrite !hash_at_cell by done. unfold geohash_move_x.
  destruct (Z.eqb_spec d 0) as [->|Hd0]; [by rewrite Z.add_0_r, Z.mod_small|]. cbn [bits step].
  destruct (cell_parts lat lon Hlat Hlon) as [-> ->]. destruct (masks n Hn) as [-> ->]. run. do 2 f_equal.
  rewrite <- lor_cell, Z.lor_comm. f_equal. destruct (Z.ltb_spec 0 d).
  - assert (d = 1) as -> by lia. rewrite land_u64, (wrapu_id 64 (ones_at n + 1)) by lia. by apply carry_x.
  - assert (d = -1) as -> by lia. rewrite land_u64, (wrapu_id 64 (ones_at n + 1)) by lia.
    rewrite <- Z.lxor_lor, <- Z.add_nocarry_lxor by (rewrite Z.land_comm; apply spread_disjoint).
    replace (2 * spread n lon + ones_at n - (ones_at n + 1)) with (2 * spread n lon - 1) by lia. by apply borrow_x.
Qed.

Lemma geohash_move_y_spec lat lon d :
  0 ≤ lat < 2 ^ Z.of_nat n → 0 ≤ lon < 2 ^ Z.of_nat n → -1 ≤ d ≤ 1 →
  geohash_move_y (hash_at n lat lon) d = Ret (hash_at n ((lat + d) mod 2 ^ Z.of_nat n) lon).
Proof.
  intros Hlat Hlon Hd. pose proof ones_at_range as Hr. assert (0 < 2 ^ Z.of_nat n) as Hp by lia.
  pose proof (Z.mod_pos_bound (lat + d) _ Hp) as Hm. rewrite !hash_at_cell by done. unfold geohash_move_y.
  destruct (Z.eqb_spec d 0) as [->|Hd0]; [by rewrite Z.add_0_r, Z.mod_small|]. cbn [bits step].
  destruct (cell_parts lat lon Hlat Hlon) as [-> ->]. destruct (masks n Hn) as [-> ->]. run. do 2 f_equal.
  rewrite <- lor_cell, Z.lor_comm. f_equal. destruct (Z.ltb_spec 0 d).
  - assert (d = 1) as -> by lia. rewrite land_u64, (wrapu_id 64 (2 * ones_at n + 1)) by lia. by apply carry_y.
  - assert (d = -1) as -> by lia. rewrite land_u64, (wrapu_id 64 (2 * ones_at n + 1)) by lia.
    rewrite <- Z.lxor_lor, <- Z.add_nocarry_lxor by apply spread_disjoint.
    replace (spread n lat + 2 * ones_at n - (2 * ones_at n + 1)) with (spread n lat - 1) by lia. by apply borrow_y.
Qed.

End moves.

(** C24. [deinterleave64] undoes [interleave64] and conversely, and [geohashNeighbors]
    gives the eight cells around a cell: at a precision of 1 to 32 bits the
    coordinates of the neighbours are one more and one less, around the edge of
    the map, in each direction. *)
Theorem geohash_cells (n : nat) (lat lon : Z) :
  (1 ≤ n ≤ 32)%nat → 0 ≤ lat < 2 ^ Z.of_nat n → 0 ≤ lon < 2 ^ Z.of_nat n →
  deinterleave64 (interleave64 lat lon) = lat + 2 ^ 32 * lon ∧
  (∀ z, 0 ≤ z < 2 ^ 64 → interleave64 (deinterleave64 z) (Z.shiftr (deinterleave64 z) 32) = z) ∧
  let move x d := (x + d) mod 2 ^ Z.of_nat n in
  geohashNeighbors (hash_at n lat lon) =
    Ret (Neighbors
      (hash_at n (move lat 1) lon) (hash_at n lat (move lon 1))
      (hash_at n lat (move lon (-1))) (hash_at n (move lat (-1)) lon)
      (hash_at n (move lat 1) (move lon 1)) (hash_at n (move lat (-1)) (move lon 1))
      (hash_at n (move lat 1) (move lon (-1))) (hash_at n (move lat (-1)) (move lon (-1)))).
Proof.
  intros Hn Hlat Hlon. pose proof (coord_32 n Hn lat Hlat). pose proof (coord_32 n Hn lon Hlon). split_and!.
  - pose proof (deinterleave_interleave (lat + 2 ^ 32 * lon) ltac:(lia)) as Hr.
    assert (interleave64 (lat + 2 ^ 32 * lon) (Z.shiftr (lat + 2 ^ 32 * lon) 32) = interleave64 lat lon) as Ei; [|by rewrite <- Ei].
    unfold interleave64, wrapu. rewrite Z.shiftr_div_pow2 by lia. replace ((lat + 2 ^ 32 * lon) / 2 ^ 32) with lon by (Z.div_mod_to_equations; lia).
    by replace ((lat + 2 ^ 32 * lon) mod 2 ^ 32) with (lat mod 2 ^ 32) by (Z.div_mod_to_equations; lia).
  - apply interleave_deinterleave.
  - cbn zeta. assert (∀ x d, 0 ≤ (x + d) mod 2 ^ Z.of_nat n < 2 ^ Z.of_nat n) by (intros; apply Z.mod_pos_bound; lia).
    unfold geohashNeighbors. repeat first
      [ rewrite (geohash_move_x_spec n Hn) by (done || lia) | rewrite (geohash_move_y_spec n Hn) by (done || lia) | rewrite bind_Ret ].
    by rewrite !Z.add_0_r, !(Z.mod_small lat), !(Z.mod_small lon).
Qed.

Lemma geohash_cells_witness :
  geohashNeighbors (Hash 0x1 1) =
    Ret (Neighbors (Hash 0 1) (Hash 3 1) (Hash 3 1) (Hash 0 1) (Hash 2 1) (Hash 2 1) (Hash 2 1) (Hash 2 1)).
Proof. destruct (geohash_cells 1 1 0 ltac:(lia) ltac:(lia) ltac:(lia)) as (_ & _ & E). exact E. Defined.

End Geohash.
