(* ===== verification/Bitops.v ===== *)
(** Operations on bitmaps: the low-level functions of
    [src/.../redis-6.2/src/bitops.c].

    A bitmap is an array of bytes; its bit 0 is the most significant bit of the
    first byte.  The functions that read whole words take the address of the
    array, since they start at an aligned one, and depend on the byte order. *)
From S2P Require Import Prelude Endianconv Bits.

Module Bitops.

(** * Counting (redisPopcount) *)

Definition bitsinbyte : list Z :=
  [0;1;1;2;1;2;2;3;1;2;2;3;2;3;3;4;1;2;2;3;2;3;3;4;2;3;3;4;3;4;4;5;
   1;2;2;3;2;3;3;4;2;3;3;4;3;4;4;5;2;3;3;4;3;4;4;5;3;4;4;5;4;5;5;6;
   1;2;2;3;2;3;3;4;2;3;3;4;3;4;4;5;2;3;3;4;3;4;4;5;3;4;4;5;4;5;5;6;
   2;3;3;4;3;4;4;5;3;4;4;5;4;5;5;6;3;4;4;5;4;5;5;6;4;5;5;6;5;6;6;7;
   1;2;2;3;2;3;3;4;2;3;3;4;3;4;4;5;2;3;3;4;3;4;4;5;3;4;4;5;4;5;5;6;
   2;3;3;4;3;4;4;5;3;4;4;5;4;5;5;6;3;4;4;5;4;5;5;6;4;5;5;6;5;6;6;7;
   2;3;3;4;3;4;4;5;3;4;4;5;4;5;5;6;3;4;4;5;4;5;5;6;4;5;5;6;5;6;6;7;
   3;4;4;5;4;5;5;6;4;5;5;6;5;6;6;7;4;5;5;6;5;6;6;7;5;6;6;7;6;7;7;8].

(** [while((unsigned long)p & 3 && count)] *)
Fixpoint count_align (p : Z) (buf : list Z) (bits : Z) : outcome (Z * list Z) :=
  match buf with
  | c :: buf' =>
    if negb (Z.land p 3 =? 0) then
      n ← rd bitsinbyte c;
      count_align (p + 1) buf' (bits + n)
    else Ret (bits, buf)
  | [] => Ret (bits, buf)
  end.

(** The counts of the pairs, of the nibbles and of the bytes of a word. *)
Definition pairs_nibbles (aux : Z) : Z :=
  let aux := u32 (aux - Z.land (Z.shiftr aux 1) 0x55555555) in
  u32 (Z.land aux 0x33333333 + Z.land (Z.shiftr aux 2) 0x33333333).
Definition byte_counts (aux : Z) : Z := Z.land (u32 (aux + Z.shiftr aux 4)) 0x0F0F0F0F.

(** [while(count>=28)] *)
Fixpoint count_blocks {H : HostOrder} (fuel : nat) (buf : list Z) (bits : Z) : outcome (Z * list Z) :=
  match fuel with
  | O => OutOfFuel
  | S fuel =>
    if 28 <=? zlen buf then
      aux1 ← load 4 buf 0;
      aux2 ← load 4 buf 4;
      aux3 ← load 4 buf 8;
      aux4 ← load 4 buf 12;
      aux5 ← load 4 buf 16;
      aux6 ← load 4 buf 20;
      aux7 ← load 4 buf 24;
      let aux1 := pairs_nibbles aux1 in
      let aux2 := pairs_nibbles aux2 in
      let aux3 := pairs_nibbles aux3 in
      let aux4 := pairs_nibbles aux4 in
      let aux5 := pairs_nibbles aux5 in
      let aux6 := pairs_nibbles aux6 in
      let aux7 := pairs_nibbles aux7 in
      let sum := u32 (byte_counts aux1 + byte_counts aux2 + byte_counts aux3 + byte_counts aux4 +
                      byte_counts aux5 + byte_counts aux6 + byte_counts aux7) in
      count_blocks fuel (drop 28 buf) (bits + Z.shiftr (u32 (sum * 0x01010101)) 24)
    else Ret (bits, buf)
  end.

(** [while(count--)] *)
Fixpoint count_bytes (buf : list Z) (bits : Z) : outcome Z :=
  match buf with
  | [] => Ret bits
  | c :: buf => n ← rd bitsinbyte c; count_bytes buf (bits + n)
  end.

Definition redisPopcount {H : HostOrder} (p : Z) (s : list Z) : outcome Z :=
  '(bits, buf) ← count_align p s 0;
  '(bits, buf) ← count_blocks (S (length buf)) buf bits;
  count_bytes buf bits.

(** * Searching (redisBitpos) *)

Definition ULONG_MAX : Z := 2 ^ 64 - 1.

(** [while((unsigned long)c & (sizeof( *l)-1) && count)]: the bytes that are
    left, the position, and whether a byte to look into was found. *)
Fixpoint skip_align (skipval c : Z) (buf : list Z) (pos : Z) : list Z * Z * bool :=
  match buf with
  | x :: buf' =>
    if negb (Z.land c 7 =? 0) then
      if negb (x =? skipval) then (buf, pos, true)
      else skip_align skipval (c + 1) buf' (pos + 8)
    else (buf, pos, false)
  | [] => (buf, pos, false)
  end.

(** [while (count >= sizeof( *l))] *)
Fixpoint skip_words {H : HostOrder} (fuel : nat) (skipval : Z) (buf : list Z) (pos : Z)
    : outcome (list Z * Z) :=
  match fuel with
  | O => OutOfFuel
  | S fuel =>
    if 8 <=? zlen buf then
      l ← load 8 buf 0;
      if negb (l =? skipval) then Ret (buf, pos)
      else skip_words fuel skipval (drop 8 buf) (pos + 64)
    else Ret (buf, pos)
  end.

(** [for (j = 0; j < sizeof( *l); j++)] *)
Fixpoint load_word (n : nat) (buf : list Z) (word : Z) : Z :=
  match n with
  | O => word
  | S n =>
    let word := u64 (Z.shiftl word 8) in
    match buf with
    | c :: buf => load_word n buf (Z.lor word c)
    | [] => load_word n [] word
    end
  end.

(** [while(one)] *)
Fixpoint scan_bits (n : nat) (one word bit pos : Z) : outcome Z :=
  match n with
  | O => OutOfFuel
  | S n =>
    if one =? 0 then Panic
    else if b2z (negb (Z.land one word =? 0)) =? bit then Ret pos
    else scan_bits n (Z.shiftr one 1) word bit (pos + 1)
  end.

Definition redisBitpos {H : HostOrder} (c : Z) (s : list Z) (bit : Z) : outcome Z :=
  let skipval := if negb (bit =? 0) then 0 else 255 in
  let '(buf, pos, found) := skip_align skipval c s 0 in
  '(buf, pos) ← (if negb found then
                   let skipval := if negb (bit =? 0) then 0 else ULONG_MAX in
                   skip_words (S (length buf)) skipval buf pos
                 else Ret (buf, pos));
  let word := load_word 8 buf 0 in
  if (bit =? 1) && (word =? 0) then Ret (-1)
  else
    let one := ULONG_MAX in
    let one := Z.shiftr one 1 in
    let one := u64 (Z.lnot one) in
    scan_bits 65 one word bit pos.

(** * Bit fields *)

(** [for (j = 0; j < bits; j++)]; [n] is [bits - j]. *)
Fixpoint set_loop (n : nat) (p : list Z) (offset value : Z) : outcome (list Z) :=
  match n with
  | O => Ret p
  | S n =>
    let bitval := b2z (negb (Z.land value (Z.shiftl 1 (Z.of_nat n)) =? 0)) in
    let byte := Z.shiftr offset 3 in
    let bit := 7 - Z.land offset 7 in
    byteval ← rd p byte;
    let byteval := Z.land byteval (u64 (Z.lnot (Z.shiftl 1 bit))) in
    let byteval := Z.lor byteval (Z.shiftl bitval bit) in
    p ← wr p byte (Z.land byteval 255);
    set_loop n p (u64 (offset + 1)) value
  end.

(** The offset and the size are below 2^64; shifting by 64 bits and more is
    undefined. *)
Definition setUnsignedBitfield (p : list Z) (offset bits value : Z) : outcome (list Z) :=
  if bits <=? 64 then set_loop (Z.to_nat bits) p offset value else Fault.

Definition setSignedBitfield (p : list Z) (offset bits value : Z) : outcome (list Z) :=
  let uv := u64 value in
  setUnsignedBitfield p offset bits uv.

Fixpoint get_loop (n : nat) (p : list Z) (offset value : Z) : outcome Z :=
  match n with
  | O => Ret value
  | S n =>
    let byte := Z.shiftr offset 3 in
    let bit := 7 - Z.land offset 7 in
    byteval ← rd p byte;
    let bitval := Z.land (Z.shiftr byteval bit) 1 in
    get_loop n p (u64 (offset + 1)) (Z.lor (u64 (Z.shiftl value 1)) bitval)
  end.

Definition getUnsignedBitfield (p : list Z) (offset bits : Z) : outcome Z :=
  get_loop (Z.to_nat bits) p offset 0.

Definition getSignedBitfield (p : list Z) (offset bits : Z) : outcome Z :=
  u ← getUnsignedBitfield p offset bits;
  let value := s64 u in
  if (bits <? 64) && negb (Z.land (u64 value) (Z.shiftl 1 (bits - 1)) =? 0) then
    Ret (s64 (Z.lor (u64 value) (u64 (Z.shiftl (2 ^ 64 - 1) bits))))
  else Ret value.

(** * Overflow control *)

Inductive owtype := BFOVERFLOW_WRAP | BFOVERFLOW_SAT | BFOVERFLOW_FAIL.

(** The result, and what is stored through [limit] when something is. *)
Definition checkUnsignedBitfieldOverflow (value incr bits : Z) (ow : owtype) : Z * option Z :=
  let max := if bits =? 64 then 2 ^ 64 - 1 else u64 (Z.shiftl 1 bits - 1) in
  let maxincr := s64 (max - value) in
  let minincr := s64 (- value) in
  let handle_wrap :=
    let mask := u64 (Z.shiftl (2 ^ 64 - 1) bits) in
    let res := u64 (value + incr) in
    (1, Some (Z.land res (u64 (Z.lnot mask)))) in
  if (max <? value) || ((0 <? incr) && (maxincr <? incr)) then
    match ow with
    | BFOVERFLOW_WRAP => handle_wrap
    | BFOVERFLOW_SAT => (1, Some max)
    | BFOVERFLOW_FAIL => (1, None)
    end
  else if (incr <? 0) && (incr <? minincr) then
    match ow with
    | BFOVERFLOW_WRAP => handle_wrap
    | BFOVERFLOW_SAT => (-1, Some 0)
    | BFOVERFLOW_FAIL => (-1, None)
    end
  else (0, None).

(** [minincr] may overflow, which C leaves undefined; it is two's complement
    here and the result does not depend on it then. *)
Definition checkSignedBitfieldOverflow (value incr bits : Z) (ow : owtype) : Z * option Z :=
  let max := if bits =? 64 then 2 ^ 63 - 1 else Z.shiftl 1 (bits - 1) - 1 in
  let min := - max - 1 in
  let maxincr := s64 (max - value) in
  let minincr := s64 (min - value) in
  let handle_wrap :=
    let msb := u64 (Z.shiftl 1 (bits - 1)) in
    let c := u64 (u64 value + u64 incr) in
    let c :=
      if bits <? 64 then
        let mask := u64 (Z.shiftl (2 ^ 64 - 1) bits) in
        if negb (Z.land c msb =? 0) then Z.lor c mask else Z.land c (u64 (Z.lnot mask))
      else c in
    (1, Some (s64 c)) in
  if (max <? value) || (negb (bits =? 64) && (maxincr <? incr)) ||
     ((0 <=? value) && (0 <? incr) && (maxincr <? incr)) then
    match ow with
    | BFOVERFLOW_WRAP => handle_wrap
    | BFOVERFLOW_SAT => (1, Some max)
    | BFOVERFLOW_FAIL => (1, None)
    end
  else if (value <? min) || (negb (bits =? 64) && (incr <? minincr)) ||
     ((value <? 0) && (incr <? 0) && (incr <? minincr)) then
    match ow with
    | BFOVERFLOW_WRAP => handle_wrap
    | BFOVERFLOW_SAT => (-1, Some min)
    | BFOVERFLOW_FAIL => (-1, None)
    end
  else (0, None).

End Bitops.
