(* ===== verification/BitopsSpec.v ===== *)
(** Theorems about bitmaps (component [Bitops]): the fast routines agree with
    the bits of the map, fields are read as they were written and nothing else
    changes, and overflow is detected exactly. *)
From S2P Require Import Prelude Endianconv Bits Bitops.

Module BitopsSpec.
Import Bits Bitops.

(** Bit [i] of a bitmap, which is padded with zeroes on the right. *)
Definition bit_at (p : list Z) (i : Z) : bool :=
  match p !! Z.to_nat (i / 8) with Some c => Z.testbit c (7 - i mod 8) | None => false end.

(** The number of bits set in a byte and in a bitmap. *)
Definition count8 (c : Z) : Z :=
  b2z (Z.testbit c 0) + b2z (Z.testbit c 1) + b2z (Z.testbit c 2) + b2z (Z.testbit c 3) +
  b2z (Z.testbit c 4) + b2z (Z.testbit c 5) + b2z (Z.testbit c 6) + b2z (Z.testbit c 7).
Definition popcount (s : list Z) : Z := foldr (λ c n, count8 c + n) 0 s.

(** * Fields *)

Lemma wr_lookup p k v :
  0 ≤ k < zlen p →
  ∃ p', wr p k v = Ret p' ∧ zlen p' = zlen p ∧
    (∀ n, p' !! n = if decide (n = Z.to_nat k) then Some (u8 v) else p !! n) ∧ (bytes_ok p → bytes_ok p').
Proof.
  intros Hk. destruct (lookup_lt_is_Some_2 p (Z.to_nat k)) as [x Hx]; [unfold zlen in Hk; lia|].
  apply list_elem_of_split_length in Hx as (a & c & -> & Ha).
  rewrite (wr_app a x c k v) by (unfold zlen; lia). eexists. split; [done|]. split_and!.
  - by rewrite !zlen_app, !zlen_cons.
  - intros n. case_decide as Hn.
    + rewrite lookup_app_r by lia. by replace (n - length a)%nat with 0%nat by lia.
    + destruct (Nat.lt_ge_cases n (length a)); [by rewrite !lookup_app_l by lia|]. rewrite !lookup_app_r by lia.
      by destruct (n - length a)%nat eqn:E; [lia|].
  - intros [Hba [_ Hbc]%Forall_cons]%Forall_app. apply Forall_app. split; [done|]. apply Forall_cons. split; [|done].
    by apply (wrapu_range 8).
Qed.

Lemma bit_index off : 0 ≤ off → Z.shiftr off 3 = off / 8 ∧ Z.land off 7 = off mod 8.
Proof.
  intros Ho. split; [by rewrite Z.shiftr_div_pow2|]. change 7 with (Z.ones 3). by rewrite Z.land_ones.
Qed.

(** One bit of a byte is replaced. *)
Lemma set_bit_testbit b (v : bool) k j :
  is_byte b → 0 ≤ k < 8 → 0 ≤ j < 8 →
  Z.testbit (u8 (Z.land (Z.lor (Z.land b (u64 (Z.lnot (Z.shiftl 1 k)))) (Z.shiftl (b2z v) k)) 255)) j =
    if j =? k then v else Z.testbit b j.
Proof.
  intros Hb Hk Hj. unfold wrapu. rewrite <- !Z.land_ones by lia. change 255 with (Z.ones 8).
  rewrite !Z.land_spec, Z.lor_spec, !Z.land_spec, Z.lnot_spec, !Z.ones_spec_low, !andb_true_r, !Z.shiftl_spec by lia.
  destruct (Z.eqb_spec j k) as [->|Hne].
  - rewrite Z.sub_diag. change (Z.testbit 1 0) with true. rewrite andb_false_r. by destruct v.
  - assert (Z.testbit 1 (j - k) = false) as ->.
    { destruct (Z.lt_ge_cases j k); [apply Z.testbit_neg_r; lia|]. apply (testbit_word 1); lia. }
    assert (Z.testbit (b2z v) (j - k) = false) as ->; [|by rewrite andb_true_r, orb_false_r].
    destruct (Z.lt_ge_cases j k); [apply Z.testbit_neg_r; lia|]. destruct v; [apply (testbit_word 1); cbn; lia|apply Z.bits_0].
Qed.

Lemma set_loop_spec n p off value :
  0 ≤ off → off + Z.of_nat n ≤ 8 * zlen p → zlen p < 2 ^ 60 → bytes_ok p →
  ∃ p', set_loop n p off value = Ret p' ∧ zlen p' = zlen p ∧ bytes_ok p' ∧
    ∀ i, 0 ≤ i → bit_at p' i =
      if (off <=? i) && (i <? off + Z.of_nat n) then Z.testbit value (Z.of_nat n - 1 - (i - off)) else bit_at p i.
Proof.
  revert p off. induction n as [|n IH]; intros p off Ho Hn Hs Hb.
  { exists p. split_and!; [done..|]. intros i Hi. by rewrite (proj2 (andb_false_iff _ _)) by lia. }
  cbn [set_loop]. destruct (bit_index off Ho) as [-> ->]. rewrite (Z.shiftl_1_l (Z.of_nat n)), land_pow2_test by lia.
  pose proof (Z.mod_pos_bound off 8 ltac:(lia)) as Hm.
  assert (0 ≤ off / 8 < zlen p) as Hi by (split; [apply Z.div_pos; lia|apply Z.div_lt_upper_bound; lia]).
  destruct (rd_ok p (off / 8) Hi) as (b & -> & Hx). run. pose proof (Forall_lookup_1 _ _ _ _ Hb Hx) as Hbb.
  match goal with |- context [wr p _ ?v] => destruct (wr_lookup p (off / 8) v Hi) as (p1 & -> & Hl1 & Hp1 & Hb1) end.
  run. rewrite wrapu_id by lia. destruct (IH p1 (off + 1)) as (p2 & -> & Hl2 & Hb2 & Hp2); [lia..|by apply Hb1|].
  exists p2. split_and!; [done|lia|done|]. intros i Hi0. rewrite Hp2 by done.
  destruct (Z.eq_dec i off) as [->|Hne].
  - rewrite (proj2 (Z.leb_gt (off + 1) off)), (proj2 (Z.leb_le off off)), (proj2 (Z.ltb_lt off (off + _))) by lia. cbn [andb].
    unfold bit_at. rewrite Hp1, decide_True by done. rewrite set_bit_testbit, Z.eqb_refl by (done || lia). f_equal. lia.
  - assert ((off + 1 <=? i) && (i <? off + 1 + Z.of_nat n) = (off <=? i) && (i <? off + Z.of_nat (S n))) as -> by lia.
    case_match; [f_equal; lia|]. unfold bit_at. rewrite Hp1. case_decide as Hd; [|done].
    assert (i / 8 = off / 8) as E8 by (pose proof (Z.div_pos i 8); lia). rewrite E8, Hx.
    rewrite set_bit_testbit by (done || (Z.div_mod_to_equations; lia)).
    rewrite (proj2 (Z.eqb_neq (7 - i mod 8) (7 - off mod 8))); [done|]. Z.div_mod_to_equations. lia.
Qed.

Lemma bit_top value n : 0 ≤ n → value mod 2 ^ (n + 1) = b2z (Z.testbit value n) * 2 ^ n + value mod 2 ^ n.
Proof.
  intros Hn. rewrite Z.add_1_r, Z.pow_succ_r by done. assert (0 < 2 ^ n) by lia.
  replace (b2z (Z.testbit value n)) with ((value / 2 ^ n) mod 2) by (rewrite <- Z.testbit_spec' by done; by destruct (Z.testbit value n)).
  rewrite Z.mul_comm, Z.rem_mul_r by lia. lia.
Qed.

Lemma lor_bit v b : 0 ≤ v → Z.lor (2 * v) (b2z b) = 2 * v + b2z b.
Proof.
  intros Hv. rewrite <- Z.lxor_lor, <- Z.add_nocarry_lxor; [done|..].
  all: rewrite Z.land_comm; replace (2 * v) with (Z.shiftl v 1) by (rewrite Z.shiftl_mul_pow2; lia).
  all: apply land_high; destruct b; cbn; lia.
Qed.

Lemma get_loop_spec n p off v value :
  0 ≤ off → off + Z.of_nat n ≤ 8 * zlen p → zlen p < 2 ^ 60 → bytes_ok p →
  (∀ j, 0 ≤ j < Z.of_nat n → bit_at p (off + j) = Z.testbit value (Z.of_nat n - 1 - j)) →
  0 ≤ v → (v + 1) * 2 ^ Z.of_nat n ≤ 2 ^ 64 →
  get_loop n p off v = Ret (v * 2 ^ Z.of_nat n + value mod 2 ^ Z.of_nat n).
Proof.
  revert p off v. induction n as [|n IH]; intros p off v Ho Hn Hs Hb Hbit Hv Hv2.
  { cbn [get_loop]. f_equal. change (2 ^ Z.of_nat 0) with 1. rewrite Z.mod_1_r. lia. }
  cbn [get_loop]. destruct (bit_index off Ho) as [-> ->]. pose proof (Z.mod_pos_bound off 8 ltac:(lia)) as Hm.
  assert (0 ≤ off / 8 < zlen p) as Hi by (split; [apply Z.div_pos; lia|apply Z.div_lt_upper_bound; lia]).
  destruct (rd_ok p (off / 8) Hi) as (b & -> & Hx). run.
  rewrite Nat2Z.inj_succ, Z.pow_succ_r in * by lia. assert (0 < 2 ^ Z.of_nat n) by lia.
  assert (Z.land (Z.shiftr b (7 - off mod 8)) 1 = b2z (Z.testbit value (Z.of_nat n))) as ->.
  { specialize (Hbit 0 ltac:(lia)). rewrite Z.add_0_r in Hbit. replace (Z.succ (Z.of_nat n) - 1 - 0) with (Z.of_nat n) in Hbit by lia.
    rewrite <- Hbit. unfold bit_at. rewrite Hx. change 1 with (Z.ones 1) at 1. rewrite Z.land_ones, Z.shiftr_div_pow2 by lia.
    change (2 ^ 1) with 2. rewrite <- Z.testbit_spec' by lia. by destruct (Z.testbit b _). }
  assert ((v + 1) * 2 ≤ (v + 1) * (2 * 2 ^ Z.of_nat n)) by (apply Z.mul_le_mono_nonneg_l; lia).
  rewrite Z.shiftl_mul_pow2, (Z.mul_comm v) by lia. change (2 ^ 1) with 2.
  rewrite (wrapu_id 64 (2 * v)), lor_bit, (wrapu_id 64 (off + 1)) by lia. rewrite (IH p (off + 1)); try done; try lia.
  - f_equal. pose proof (bit_top value (Z.of_nat n) ltac:(lia)) as Ht. rewrite Z.add_1_r, Z.pow_succ_r in Ht by lia. rewrite Ht. destruct (Z.testbit value (Z.of_nat n)); cbn [b2z]; lia.
  - intros j Hj. rewrite <- Z.add_assoc, Hbit by lia. f_equal. lia.
  - destruct (Z.testbit value (Z.of_nat n)); cbn [b2z]; lia.
  - destruct (Z.testbit value (Z.of_nat n)); cbn [b2z]; nia.
Qed.

(** * Counting *)

Definition word4 (a b c d : Z) : Z := a + 256 * (b + 256 * (c + 256 * d)).

Lemma land_byte x y m n : is_byte x → is_byte m → Z.land (x + 256 * y) (m + 256 * n) = Z.land x m + 256 * Z.land y n.
Proof.
  intros Hx Hm. change 256 with (2 ^ 8) in *. rewrite !add_lxor by (lia || done || by apply (land_word 8)).
  apply Z.bits_inj'. intros i Hi. rewrite !Z.land_spec, !Z.lxor_spec, !Z.land_spec. destruct (Z.lt_ge_cases i 8).
  - by rewrite !Z.shiftl_spec_low, !xorb_false_r by lia.
  - rewrite !Z.shiftl_spec, Z.land_spec, (testbit_word 8 x), (testbit_word 8 m) by (lia || done). by rewrite !xorb_false_l.
Qed.

Lemma land_word4 a b c d m :
  is_byte a → is_byte b → is_byte c → is_byte d → is_byte m →
  Z.land (word4 a b c d) (word4 m m m m) = word4 (Z.land a m) (Z.land b m) (Z.land c m) (Z.land d m).
Proof. intros Ha Hb Hc Hd Hm. unfold word4. by rewrite !land_byte. Qed.

(** What the steps do to a byte. *)
Definition pairs8 (b : Z) : Z := b - Z.land (b / 2) 0x55.
Definition nibbles8 (a : Z) : Z := Z.land a 0x33 + Z.land (a / 4) 0x33.

Lemma pairs8_range b : is_byte b → is_byte (pairs8 b).
Proof.
  intros Hb. assert (is_byte (pairs8 b) ↔ ((0 <=? pairs8 b) && (pairs8 b <? 256)) = true) as -> by (unfold is_byte; lia).
  revert b Hb. apply all_bytes. by vm_compute.
Qed.

Lemma nibbles8_spec b :
  is_byte b → let a := nibbles8 (pairs8 b) in 0 ≤ a ≤ 68 ∧ a mod 16 ≤ 4 ∧ (a + a / 16) mod 16 = count8 b.
Proof.
  intros Hb. cbn zeta. set (f b := let a := nibbles8 (pairs8 b) in
    (0 <=? a) && (a <=? 68) && (a mod 16 <=? 4) && ((a + a / 16) mod 16 =? count8 b)).
  assert (f b = true) as Hf by (revert b Hb; apply all_bytes; by vm_compute). unfold f in Hf. lia.
Qed.

(** A mask without the bits a shift brings in from the next byte. *)
Lemma land_half x c : is_byte x → 0 ≤ c < 2 → Z.land (x / 2 + 128 * c) 0x55 = Z.land (x / 2) 0x55.
Proof.
  intros Hx Hc. assert (c = 0 ∨ c = 1) as [-> | ->] by lia; [by rewrite Z.mul_0_r, Z.add_0_r|]. apply Z.eqb_eq.
  revert x Hx. apply (all_bytes (λ x, Z.land (x / 2 + 128 * 1) 85 =? Z.land (x / 2) 85)). by vm_compute.
Qed.

Lemma land_quarter x c : is_byte x → 0 ≤ c < 4 → Z.land (x / 4 + 64 * c) 0x33 = Z.land (x / 4) 0x33.
Proof.
  intros Hx Hc. apply Z.eqb_eq. revert x Hx.
  assert (c = 0 ∨ c = 1 ∨ c = 2 ∨ c = 3) as [-> |[-> |[-> | ->]]] by lia; apply all_bytes; by vm_compute.
Qed.

Lemma swar_pairs a b c d :
  is_byte a → is_byte b → is_byte c → is_byte d →
  u32 (word4 a b c d - Z.land (Z.shiftr (word4 a b c d) 1) 0x55555555) = word4 (pairs8 a) (pairs8 b) (pairs8 c) (pairs8 d).
Proof.
  intros Ha Hb Hc Hd.
  pose proof (pairs8_range a Ha). pose proof (pairs8_range b Hb). pose proof (pairs8_range c Hc). pose proof (pairs8_range d Hd).
  change 0x55555555 with (word4 0x55 0x55 0x55 0x55). rewrite Z.shiftr_div_pow2 by lia. change (2 ^ 1) with 2. unfold is_byte in *.
  replace (word4 a b c d / 2) with (word4 (a / 2 + 128 * (b mod 2)) (b / 2 + 128 * (c mod 2)) (c / 2 + 128 * (d mod 2)) (d / 2 + 128 * 0))
    by (unfold word4; Z.div_mod_to_equations; lia).
  rewrite land_word4, !land_half by (unfold is_byte; Z.div_mod_to_equations; lia).
  unfold pairs8, word4 in *. rewrite wrapu_id by lia. lia.
Qed.

Lemma swar_nibbles a b c d :
  is_byte a → is_byte b → is_byte c → is_byte d →
  u32 (Z.land (word4 a b c d) 0x33333333 + Z.land (Z.shiftr (word4 a b c d) 2) 0x33333333) =
    word4 (nibbles8 a) (nibbles8 b) (nibbles8 c) (nibbles8 d).
Proof.
  intros Ha Hb Hc Hd. change 0x33333333 with (word4 0x33 0x33 0x33 0x33). rewrite Z.shiftr_div_pow2 by lia. change (2 ^ 2) with 4.
  rewrite land_word4 by done. unfold is_byte in *.
  replace (word4 a b c d / 4) with (word4 (a / 4 + 64 * (b mod 4)) (b / 4 + 64 * (c mod 4)) (c / 4 + 64 * (d mod 4)) (d / 4 + 64 * 0))
    by (unfold word4; Z.div_mod_to_equations; lia).
  rewrite land_word4, !land_quarter by (unfold is_byte; Z.div_mod_to_equations; lia).
  assert (∀ x, 0 ≤ Z.land x 0x33 < 64) as Hl by (intros x; apply (land_word 6); lia).
  pose proof (Hl a). pose proof (Hl b). pose proof (Hl c). pose proof (Hl d).
  pose proof (Hl (a / 4)). pose proof (Hl (b / 4)). pose proof (Hl (c / 4)). pose proof (Hl (d / 4)). clear Hl.
  unfold nibbles8, word4. rewrite wrapu_id by lia. lia.
Qed.

Lemma swar_bytes a b c d :
  0 ≤ a ≤ 68 → 0 ≤ b ≤ 68 → 0 ≤ c ≤ 68 → 0 ≤ d ≤ 68 → b mod 16 ≤ 4 → c mod 16 ≤ 4 → d mod 16 ≤ 4 →
  byte_counts (word4 a b c d) =
    word4 ((a + a / 16) mod 16) ((b + b / 16) mod 16) ((c + c / 16) mod 16) ((d + d / 16) mod 16).
Proof.
  intros Ha Hb Hc Hd Hb' Hc' Hd'. unfold byte_counts. change 0x0F0F0F0F with (word4 0x0F 0x0F 0x0F 0x0F).
  rewrite Z.shiftr_div_pow2 by lia. change (2 ^ 4) with 16.
  replace (word4 a b c d + word4 a b c d / 16) with
    (word4 (a + a / 16 + 16 * (b mod 16)) (b + b / 16 + 16 * (c mod 16)) (c + c / 16 + 16 * (d mod 16)) (d + d / 16))
    by (unfold word4; Z.div_mod_to_equations; lia).
  rewrite wrapu_id by (unfold word4; Z.div_mod_to_equations; lia).
  rewrite land_word4 by (unfold is_byte; Z.div_mod_to_equations; lia). change 0x0F with (Z.ones 4). rewrite !Z.land_ones by lia.
  change (2 ^ 4) with 16. rewrite !(Z.mul_comm 16), !Z.mod_add by lia. done.
Qed.

Lemma swar_spec a b c d :
  is_byte a → is_byte b → is_byte c → is_byte d →
  byte_counts (pairs_nibbles (word4 a b c d)) = word4 (count8 a) (count8 b) (count8 c) (count8 d).
Proof.
  intros Ha Hb Hc Hd. unfold pairs_nibbles. rewrite swar_pairs by done. rewrite swar_nibbles by by apply pairs8_range.
  destruct (nibbles8_spec a Ha) as (? & ? & <-), (nibbles8_spec b Hb) as (? & ? & <-).
  destruct (nibbles8_spec c Hc) as (? & ? & <-), (nibbles8_spec d Hd) as (? & ? & <-). by apply swar_bytes.
Qed.

Lemma count8_range c : 0 ≤ count8 c ≤ 8.
Proof. unfold count8. repeat match goal with |- context [Z.testbit c ?i] => destruct (Z.testbit c i) end; cbn; lia. Qed.

(** The multiplication adds the bytes up in the most significant one. *)
Lemma add_bytes a b c d :
  0 ≤ a → 0 ≤ b → 0 ≤ c → 0 ≤ d → a + b + c + d < 256 →
  Z.shiftr (u32 (u32 (word4 a b c d) * 0x01010101)) 24 = a + b + c + d.
Proof.
  intros Ha Hb Hc Hd Hs. rewrite (wrapu_id 32 (word4 _ _ _ _)) by (unfold word4; lia).
  rewrite Z.shiftr_div_pow2 by lia. unfold wrapu, word4. Z.div_mod_to_equations. lia.
Qed.

(** A word of four bytes, in either order. *)
Lemma load4 {H : HostOrder} w :
  bytes_ok w → zlen w = 4 →
  ∃ a b c d, byte_counts (pairs_nibbles (nat_dec w)) = word4 (count8 a) (count8 b) (count8 c) (count8 d) ∧
    popcount w = count8 a + count8 b + count8 c + count8 d.
Proof.
  intros Hb Hl%zlen_inv. destruct w as [|a [|b [|c [|d [|? ?]]]]]; try done. unfold bytes_ok in Hb.
  rewrite !Forall_cons in Hb. destruct Hb as (Ha & Hb & Hc & Hd & _). unfold nat_dec. destruct big_endian.
  - exists d, c, b, a. split; [|cbn [popcount foldr]; lia]. rewrite <- swar_spec by done. do 2 f_equal.
    change (be_dec [a; b; c; d]) with (d + 256 * (c + 256 * (b + 256 * (a + 256 * 0)))). unfold word4. lia.
  - exists a, b, c, d. split; [|cbn [popcount foldr]; lia]. rewrite <- swar_spec by done. do 2 f_equal.
    change (le_dec [a; b; c; d]) with (a + 256 * (b + 256 * (c + 256 * (d + 256 * 0)))). unfold word4. lia.
Qed.

Lemma popcount_app s t : popcount (s ++ t) = popcount s + popcount t.
Proof. induction s as [|c s IH]; [done|]. cbn [app popcount foldr] in *. unfold popcount in *. lia. Qed.

Lemma bitsinbyte_spec c : is_byte c → rd bitsinbyte c = Ret (count8 c).
Proof.
  intros Hc. assert (bitsinbyte = map count8 (seqZ 0 256)) as -> by (by vm_compute).
  destruct (rd_ok (map count8 (seqZ 0 256)) c) as (v & -> & Hv); [exact Hc|].
  change (map count8 (seqZ 0 256)) with (count8 <$> seqZ 0 256) in Hv. unfold is_byte in Hc.
  rewrite list_lookup_fmap, lookup_seqZ_lt in Hv by lia. injection Hv as <-. do 2 f_equal. lia.
Qed.

Lemma count_align_spec p buf n :
  bytes_ok buf → ∃ a c, buf = a ++ c ∧ count_align p buf n = Ret (n + popcount a, c).
Proof.
  intros Hb. revert p n. induction Hb as [|x buf Hx Hb IH]; intros p n.
  - exists [], []. split; [done|]. cbn. do 2 f_equal. lia.
  - cbn [count_align]. case_match; [|exists [], (x :: buf); split; [done|]; do 2 f_equal; cbn; lia].
    rewrite bitsinbyte_spec by done. run. destruct (IH (p + 1) (n + count8 x)) as (a & c & -> & ->).
    exists (x :: a), c. split; [done|]. do 2 f_equal. cbn [popcount foldr]. unfold popcount. lia.
Qed.

Lemma count_bytes_spec buf n : bytes_ok buf → count_bytes buf n = Ret (n + popcount buf).
Proof.
  intros Hb. revert n. induction Hb as [|x buf Hx Hb IH]; intros n; cbn [count_bytes].
  - f_equal. cbn. lia.
  - rewrite bitsinbyte_spec by done. run. rewrite IH. f_equal. cbn [popcount foldr]. unfold popcount. lia.
Qed.

(** A block of seven words. *)
Lemma block_split buf :
  28 ≤ zlen buf → ∃ w1 w2 w3 w4 w5 w6 w7 r, buf = w1 ++ w2 ++ w3 ++ w4 ++ w5 ++ w6 ++ w7 ++ r ∧
    Forall (λ w : list Z, zlen w = 4) [w1; w2; w3; w4; w5; w6; w7].
Proof.
  intros Hl. do 7 (destruct (zsplit 4 buf) as (?w & r & -> & ?Hw & ?Hr); [lia|]; rename r into buf).
  eexists _, _, _, _, _, _, _, _. split; [reflexivity|]. by repeat constructor.
Qed.

Definition small (n : Z) : Prop := 0 ≤ n ≤ 8.

Lemma block_sum a1 b1 c1 d1 a2 b2 c2 d2 a3 b3 c3 d3 a4 b4 c4 d4 a5 b5 c5 d5 a6 b6 c6 d6 a7 b7 c7 d7 :
  small a1 → small b1 → small c1 → small d1 → small a2 → small b2 → small c2 → small d2 →
  small a3 → small b3 → small c3 → small d3 → small a4 → small b4 → small c4 → small d4 →
  small a5 → small b5 → small c5 → small d5 → small a6 → small b6 → small c6 → small d6 →
  small a7 → small b7 → small c7 → small d7 →
  Z.shiftr (u32 (u32 (word4 a1 b1 c1 d1 + word4 a2 b2 c2 d2 + word4 a3 b3 c3 d3 + word4 a4 b4 c4 d4 +
    word4 a5 b5 c5 d5 + word4 a6 b6 c6 d6 + word4 a7 b7 c7 d7) * 0x01010101)) 24 =
  a1 + b1 + c1 + d1 + (a2 + b2 + c2 + d2) + (a3 + b3 + c3 + d3) + (a4 + b4 + c4 + d4) +
  (a5 + b5 + c5 + d5) + (a6 + b6 + c6 + d6) + (a7 + b7 + c7 + d7).
Proof.
  unfold small. intros. match goal with |- context [u32 ?w * _] => replace w with
    (word4 (a1 + a2 + a3 + a4 + a5 + a6 + a7) (b1 + b2 + b3 + b4 + b5 + b6 + b7)
           (c1 + c2 + c3 + c4 + c5 + c6 + c7) (d1 + d2 + d3 + d4 + d5 + d6 + d7)) by (unfold word4; lia) end.
  rewrite add_bytes by lia. lia.
Qed.

Lemma count_blocks_spec {H : HostOrder} fuel buf n :
  (length buf < fuel)%nat → bytes_ok buf →
  ∃ a c, buf = a ++ c ∧ count_blocks fuel buf n = Ret (n + popcount a, c).
Proof.
  revert buf n. induction fuel as [|fuel IH]; intros buf n Hf Hb; [lia|]. cbn [count_blocks].
  destruct (Z.leb_spec 28 (zlen buf)) as [Hl|]; [|exists [], buf; split; [done|]; do 2 f_equal; cbn; lia].
  destruct (block_split buf Hl) as (w1 & w2 & w3 & w4 & w5 & w6 & w7 & r & -> & Hw).
  rewrite !Forall_cons in Hw. destruct Hw as (H1 & H2 & H3 & H4 & H5 & H6 & H7 & _).
  unfold bytes_ok in Hb. rewrite !Forall_app in Hb. destruct Hb as (B1 & B2 & B3 & B4 & B5 & B6 & B7 & Br).
  destruct (load4 w1 B1 H1) as (a1 & b1 & c1 & d1 & E1 & P1), (load4 w2 B2 H2) as (a2 & b2 & c2 & d2 & E2 & P2),
    (load4 w3 B3 H3) as (a3 & b3 & c3 & d3 & E3 & P3), (load4 w4 B4 H4) as (a4 & b4 & c4 & d4 & E4 & P4),
    (load4 w5 B5 H5) as (a5 & b5 & c5 & d5 & E5 & P5), (load4 w6 B6 H6) as (a6 & b6 & c6 & d6 & E6 & P6),
    (load4 w7 B7 H7) as (a7 & b7 & c7 & d7 & E7 & P7).
  unfold load. change (Z.of_nat 4) with 4.
  rewrite (rdn_at _ 0 4 w1 [] (w2 ++ w3 ++ w4 ++ w5 ++ w6 ++ w7 ++ r)), (rdn_at _ 4 4 w2 w1 (w3 ++ w4 ++ w5 ++ w6 ++ w7 ++ r)),
    (rdn_at _ 8 4 w3 (w1 ++ w2) (w4 ++ w5 ++ w6 ++ w7 ++ r)), (rdn_at _ 12 4 w4 (w1 ++ w2 ++ w3) (w5 ++ w6 ++ w7 ++ r)),
    (rdn_at _ 16 4 w5 (w1 ++ w2 ++ w3 ++ w4) (w6 ++ w7 ++ r)), (rdn_at _ 20 4 w6 (w1 ++ w2 ++ w3 ++ w4 ++ w5) (w7 ++ r)),
    (rdn_at _ 24 4 w7 (w1 ++ w2 ++ w3 ++ w4 ++ w5 ++ w6) r) by (done || (lapp; done) || (zlr; lia)).
  rewrite !bind_Ret. cbn zeta. rewrite E1, E2, E3, E4, E5, E6, E7. clear E1 E2 E3 E4 E5 E6 E7.
  rewrite block_sum by apply count8_range.
  replace (drop 28 _) with r by (rewrite !app_assoc, drop_app_length'; [done|]; symmetry; apply (zlen_inv _ 28); zlr; lia).
  rewrite <- P1, <- P2, <- P3, <- P4, <- P5, <- P6, <- P7. clear P1 P2 P3 P4 P5 P6 P7.
  destruct (IH r (n + (popcount w1 + popcount w2 + popcount w3 + popcount w4 + popcount w5 + popcount w6 + popcount w7)))
    as (a & c & -> & E); [rewrite !length_app in Hf; apply zlen_inv in H1; lia|done|].
  exists (w1 ++ w2 ++ w3 ++ w4 ++ w5 ++ w6 ++ w7 ++ a), c. split; [by lapp|].
  rewrite !popcount_app, E. do 2 f_equal. lia.
Qed.

Lemma redisPopcount_spec {H : HostOrder} p s : bytes_ok s → redisPopcount p s = Ret (popcount s).
Proof.
  intros Hb. unfold redisPopcount. destruct (count_align_spec p s 0 Hb) as (a & c & -> & ->). run.
  apply Forall_app in Hb as [_ Hc]. destruct (count_blocks_spec (S (length c)) c (0 + popcount a)) as (a' & c' & -> & ->); [lia|done|].
  run. apply Forall_app in Hc as [_ Hc']. rewrite count_bytes_spec by done. f_equal. rewrite !popcount_app. lia.
Qed.

(** * Searching *)

(** [r] is the position of the first bit that is [b], or -1 for none. *)
Definition first_bit (s : list Z) (b : bool) (r : Z) : Prop :=
  (r = -1 ∧ b = true ∧ ∀ i, 0 ≤ i → bit_at s i = false) ∨
  (0 ≤ r ∧ bit_at s r = b ∧ ∀ i, 0 ≤ i < r → bit_at s i = negb b).

(** The byte without a bit [b]. *)
Definition skip8 (b : bool) : Z := if b then 0 else 255.

Lemma bit_at_app a c i :
  0 ≤ i → bit_at (a ++ c) i = if i <? 8 * zlen a then bit_at a i else bit_at c (i - 8 * zlen a).
Proof.
  intros Hi. unfold bit_at. pose proof (Z.div_pos i 8 Hi ltac:(lia)). destruct (Z.ltb_spec i (8 * zlen a)).
  - rewrite lookup_app_l; [done|]. unfold zlen in *. Z.div_mod_to_equations. lia.
  - rewrite lookup_app_r by (unfold zlen in *; Z.div_mod_to_equations; lia).
    replace (i - 8 * zlen a) with (i + - zlen a * 8) by lia. rewrite Z.div_add, Z.mod_add by lia.
    replace (Z.to_nat (i / 8 + - zlen a)) with (Z.to_nat (i / 8) - length a)%nat by (unfold zlen; lia). done.
Qed.

Lemma bit_at_skip a b i : Forall (λ x, x = skip8 b) a → 0 ≤ i < 8 * zlen a → bit_at a i = negb b.
Proof.
  intros Ha Hi. unfold bit_at. destruct (lookup_lt_is_Some_2 a (Z.to_nat (i / 8))) as [x Hx].
  { unfold zlen in Hi. Z.div_mod_to_equations. lia. }
  rewrite Hx. apply (Forall_lookup_1 _ _ _ _ Ha) in Hx as ->. pose proof (Z.mod_pos_bound i 8).
  destruct b; cbn [skip8 negb]; [apply Z.bits_0|]. change 255 with (Z.ones 8). apply Z.ones_spec_low. lia.
Qed.

Lemma bit_at_end s i : 8 * zlen s ≤ i → bit_at s i = false.
Proof.
  intros Hi. unfold bit_at. rewrite lookup_ge_None_2; [done|]. unfold zlen in Hi. Z.div_mod_to_equations. lia.
Qed.

Lemma first_bit_skip a c b r :
  Forall (λ x, x = skip8 b) a → first_bit c b r → first_bit (a ++ c) b (if r =? -1 then -1 else 8 * zlen a + r).
Proof.
  intros Ha Hr. pose proof (zlen_nonneg a). destruct Hr as [(-> & -> & Hn)|(Hr & Hb & Hn)].
  - left. split_and!; [done..|]. intros i Hi. rewrite bit_at_app by done.
    destruct (Z.ltb_spec i (8 * zlen a)); [by apply (bit_at_skip a true)|apply Hn; lia].
  - right. rewrite (proj2 (Z.eqb_neq r (-1))) by lia. split_and!; [lia| |].
    + rewrite bit_at_app by lia. rewrite (proj2 (Z.ltb_ge _ _)) by lia. rewrite <- Hb. f_equal. lia.
    + intros i Hi. rewrite bit_at_app by lia. destruct (Z.ltb_spec i (8 * zlen a)); [apply bit_at_skip; [done|lia]|apply Hn; lia].
Qed.

Lemma skip_align_spec b p buf pos :
  ∃ a c f, skip_align (skip8 b) p buf pos = (c, pos + 8 * zlen a, f) ∧ buf = a ++ c ∧ Forall (λ x, x = skip8 b) a ∧
    (f = true → ∃ x c', c = x :: c' ∧ x ≠ skip8 b).
Proof.
  revert p pos. induction buf as [|x buf IH]; intros p pos.
  - exists [], [], false. cbn [skip_align]. rewrite (@zlen_nil Z). split_and!; [do 2 f_equal; lia|done..].
  - cbn [skip_align]. destruct (negb (Z.land p 7 =? 0)).
    + destruct (Z.eqb_spec x (skip8 b)) as [->|Hx]; cbn [negb].
      * destruct (IH (p + 1) (pos + 8)) as (a & c & f & -> & -> & Ha & Hf). exists (skip8 b :: a), c, f.
        split_and!; [do 2 f_equal; zlr; lia|done|by constructor|done].
      * exists [], (x :: buf), true. split_and!; [rewrite (@zlen_nil Z); do 2 f_equal; lia|done..|]. intros _. by exists x, buf.
    + exists [], (x :: buf), false. split_and!; [rewrite (@zlen_nil Z); do 2 f_equal; lia|done..].
Qed.

(** A byte that differs from the skipped one has the bit. *)
Lemma byte_not_skip x b : is_byte x → x ≠ skip8 b → ∃ i, 0 ≤ i < 8 ∧ Z.testbit x (7 - i) = b.
Proof.
  intros Hx Hne.
  assert ((x =? skip8 b) || existsb (λ i, eqb (Z.testbit x (7 - i)) b) (seqZ 0 8) = true) as [He|He]%orb_true_iff
    by (revert x Hx Hne; intros x Hx _; revert x Hx; apply all_bytes; destruct b; by vm_compute); [by apply Z.eqb_eq in He|].
  apply existsb_exists in He as (i & Hi%list_elem_of_In%elem_of_seqZ & Hb%eqb_prop). exists i. split; [lia|done].
Qed.

Lemma not_all_skip w b :
  bytes_ok w → zlen w = 8 → w ≠ replicate 8 (skip8 b) → ∃ i, 0 ≤ i < 8 * zlen w ∧ bit_at w i = b.
Proof.
  intros Hb Hl Hne. destruct (decide (Forall (λ x, x = skip8 b) w)) as [Ha|Hn].
  { destruct Hne. symmetry. apply replicate_as_Forall. split; [by apply (zlen_inv _ 8)|]. by eapply Forall_impl. }
  apply not_Forall_Exists, Exists_exists in Hn as (x & Hx & Hnx); [|apply _].
  apply list_elem_of_lookup in Hx as [k Hk]. apply lookup_lt_Some in Hk as Hlt.
  destruct (byte_not_skip x b (Forall_lookup_1 _ _ _ _ Hb Hk) Hnx) as (i & Hi & Hbi).
  exists (8 * Z.of_nat k + i). split; [unfold zlen; lia|]. unfold bit_at.
  replace ((8 * Z.of_nat k + i) / 8) with (Z.of_nat k) by (Z.div_mod_to_equations; lia).
  replace ((8 * Z.of_nat k + i) mod 8) with i by (Z.div_mod_to_equations; lia). by rewrite Nat2Z.id, Hk.
Qed.

Lemma le_dec_inj v w : bytes_ok v → bytes_ok w → length v = length w → le_dec v = le_dec w → v = w.
Proof. intros Hv Hw Hl He. rewrite <- (le_enc_dec v Hv), <- (le_enc_dec w Hw), Hl. by rewrite He. Qed.

Lemma nat_dec_inj {H : HostOrder} v w : bytes_ok v → bytes_ok w → length v = length w → nat_dec v = nat_dec w → v = w.
Proof.
  intros Hv Hw Hl. unfold nat_dec. destruct big_endian; [|by apply le_dec_inj].
  intros He%le_dec_inj; [|by apply Forall_reverse..|by rewrite !length_reverse]. by apply (inj reverse).
Qed.

Definition skip64 (b : bool) : Z := if b then 0 else ULONG_MAX.

Lemma nat_dec_skip {H : HostOrder} w b :
  bytes_ok w → zlen w = 8 → nat_dec w = skip64 b ↔ w = replicate 8 (skip8 b).
Proof.
  intros Hb Hl%zlen_inv. assert (nat_dec (replicate 8 (skip8 b)) = skip64 b) as <-
    by (unfold nat_dec; destruct b, big_endian; by vm_compute).
  split; [|by intros ->]. intros He. apply nat_dec_inj in He; [done..| |by rewrite length_replicate].
  apply Forall_replicate. by destruct b.
Qed.

Lemma skip_words_spec {H : HostOrder} b fuel buf pos :
  (length buf < fuel)%nat → bytes_ok buf →
  ∃ a c, skip_words fuel (skip64 b) buf pos = Ret (c, pos + 8 * zlen a) ∧ buf = a ++ c ∧ Forall (λ x, x = skip8 b) a ∧
    (zlen c < 8 ∨ ∃ i, 0 ≤ i < 64 ∧ bit_at c i = b).
Proof.
  revert buf pos. induction fuel as [|fuel IH]; intros buf pos Hf Hb; [lia|]. cbn [skip_words].
  destruct (Z.leb_spec 8 (zlen buf)) as [Hl|Hl].
  - destruct (zsplit 8 buf) as (w & r & -> & Hw & Hr); [lia|]. apply Forall_app in Hb as [Hbw Hbr].
    unfold load. change (Z.of_nat 8) with 8. rewrite rdn_app0 by done. run.
    destruct (Z.eqb_spec (nat_dec w) (skip64 b)) as [He|Hne]; cbn [negb].
    + apply nat_dec_skip in He; [|done..]. subst w. change (drop 8 (replicate 8 (skip8 b) ++ r)) with r.
      destruct (IH r (pos + 64)) as (a & c & E & -> & Ha & Hc); [rewrite length_app, length_replicate in Hf; lia|done|].
      exists (replicate 8 (skip8 b) ++ a), c. rewrite E. split_and!; [do 2 f_equal; zlr; lia|by rewrite app_assoc| |done].
      apply Forall_app. split; [|done]. by apply Forall_replicate.
    + exists [], (w ++ r). rewrite (@zlen_nil Z). split_and!; [do 2 f_equal; lia|done..|]. right.
      destruct (not_all_skip w b) as (i & Hi & Hbi); [done..| |].
      { intros ->. by apply Hne, nat_dec_skip. }
      exists i. split; [lia|]. rewrite bit_at_app by lia. by rewrite (proj2 (Z.ltb_lt i (8 * zlen w))) by lia.
  - exists [], buf. rewrite (@zlen_nil Z). split_and!; [do 2 f_equal; lia|done..|by left].
Qed.

Lemma append_byte w c k :
  0 ≤ w < 2 ^ 56 → is_byte c → 0 ≤ k →
  Z.testbit (Z.lor (u64 (Z.shiftl w 8)) c) k = if k <? 8 then Z.testbit c k else Z.testbit w (k - 8).
Proof.
  intros Hw Hc Hk. rewrite wrapu_id by (rewrite Z.shiftl_mul_pow2; lia). rewrite Z.lor_spec. destruct (Z.ltb_spec k 8).
  - by rewrite Z.shiftl_spec_low.
  - by rewrite Z.shiftl_spec, (testbit_word 8 c), orb_false_r.
Qed.

Lemma append_range w c n :
  0 ≤ w < 2 ^ (56 - n) → 0 ≤ n ≤ 56 → is_byte c → 0 ≤ Z.lor (u64 (Z.shiftl w 8)) c < 2 ^ (64 - n).
Proof.
  intros Hw Hn Hc. assert (2 ^ (64 - n) = 2 ^ (56 - n) * 2 ^ 8) as He by (rewrite <- Z.pow_add_r by lia; f_equal; lia).
  assert (2 ^ (56 - n) ≤ 2 ^ 56) by (apply Z.pow_le_mono_r; lia).
  apply lor_word; [lia| |unfold is_byte in Hc; lia]. rewrite wrapu_id; rewrite Z.shiftl_mul_pow2; lia.
Qed.

Lemma bit_at_cons c r i : 0 ≤ i → bit_at (c :: r) i = if i <? 8 then Z.testbit c (7 - i) else bit_at r (i - 8).
Proof.
  intros Hi. rewrite (bit_at_app [c] r) by done. change (8 * zlen [c]) with 8. destruct (Z.ltb_spec i 8); [|done].
  unfold bit_at. by rewrite Z.div_small, Z.mod_small by lia.
Qed.

Lemma load_word_spec n buf w :
  (n ≤ 8)%nat → bytes_ok buf → 0 ≤ w < 2 ^ (64 - 8 * Z.of_nat n) →
  (∀ i, 0 ≤ i < 8 * Z.of_nat n → Z.testbit (load_word n buf w) (8 * Z.of_nat n - 1 - i) = bit_at buf i) ∧
  (∀ k, 8 * Z.of_nat n ≤ k → Z.testbit (load_word n buf w) k = Z.testbit w (k - 8 * Z.of_nat n)).
Proof.
  intros Hn Hb. revert buf w Hb. induction n as [|n IH]; intros buf w Hb Hw.
  { split; [lia|]. intros k Hk. cbn. f_equal. lia. }
  assert (∃ c r, is_byte c ∧ bytes_ok r ∧ (∀ i, 0 ≤ i → bit_at buf i = bit_at (c :: r) i) ∧
    load_word (S n) buf w = load_word n r (Z.lor (u64 (Z.shiftl w 8)) c)) as (c & r & Hc & Hr & Hbit & ->).
  { destruct Hb as [|c r Hc Hr]; [|by exists c, r]. exists 0, []. cbn [load_word]. rewrite Z.lor_0_r.
    split; [done|]. split; [constructor|]. split; [|done]. intros i Hi. rewrite bit_at_cons, Z.bits_0 by done. by case_match. }
  replace (64 - 8 * Z.of_nat (S n)) with (56 - 8 * Z.of_nat n) in Hw by lia.
  assert (2 ^ (56 - 8 * Z.of_nat n) ≤ 2 ^ 56) by (apply Z.pow_le_mono_r; lia).
  destruct (IH ltac:(lia) r (Z.lor (u64 (Z.shiftl w 8)) c) Hr) as [H1 H2]; [apply append_range; done || lia|]. split.
  - intros i Hi. rewrite Hbit, bit_at_cons by lia. destruct (Z.ltb_spec i 8).
    + rewrite H2, append_byte by (done || lia). rewrite (proj2 (Z.ltb_lt _ 8)) by lia. f_equal. lia.
    + rewrite <- H1 by lia. f_equal. lia.
  - intros k Hk. rewrite H2, append_byte by (done || lia). rewrite (proj2 (Z.ltb_ge _ 8)) by lia. f_equal. lia.
Qed.

(** The mask when [m] bits are left. *)
Definition top_bit (m : nat) : Z := match m with O => 0 | S m => 2 ^ Z.of_nat m end.

Lemma scan_bits_spec m word (b : bool) pos :
  (∃ j, 0 ≤ j < Z.of_nat m ∧ Z.testbit word (Z.of_nat m - 1 - j) = b) →
  ∃ r, scan_bits (S m) (top_bit m) word (b2z b) pos = Ret (pos + r) ∧ 0 ≤ r < Z.of_nat m ∧
    Z.testbit word (Z.of_nat m - 1 - r) = b ∧ ∀ i, 0 ≤ i < r → Z.testbit word (Z.of_nat m - 1 - i) = negb b.
Proof.
  revert pos. induction m as [|m IH]; intros pos (j & Hj & Hb); [lia|].
  assert (top_bit (S m) ≠ 0) as Ht by (cbn; lia). remember (S m) as m' eqn:Em. cbn [scan_bits].
  rewrite (proj2 (Z.eqb_neq _ 0) Ht). subst m'. change (top_bit (S m)) with (2 ^ Z.of_nat m).
  rewrite Z.land_comm, land_pow2_test by lia. assert (Z.of_nat (S m) - 1 - 0 = Z.of_nat m) as E0 by lia.
  destruct (eqb (Z.testbit word (Z.of_nat m)) b) eqn:Eb.
  - apply eqb_prop in Eb. exists 0. rewrite Eb, Z.eqb_refl, Z.add_0_r, E0. split_and!; [done|lia..|done|lia].
  - assert (Z.testbit word (Z.of_nat m) = negb b) as En by (destruct (Z.testbit word (Z.of_nat m)), b; done).
    assert (j ≠ 0) by (intros ->; rewrite E0, En in Hb; by destruct b).
    rewrite En, (proj2 (Z.eqb_neq (b2z (negb b)) (b2z b))) by (by destruct b).
    replace (Z.shiftr (2 ^ Z.of_nat m) 1) with (top_bit m).
    2: { destruct m as [|m]; [done|]. cbn [top_bit]. rewrite Nat2Z.inj_succ, Z.pow_succ_r, Z.mul_comm, <- (Z.shiftl_mul_pow2 _ 1) by lia.
         rewrite Z.shiftr_shiftl_l by lia. by rewrite Z.shiftl_0_r. }
    destruct (IH (pos + 1)) as (r & -> & Hr & Hbr & Hfirst).
    { exists (j - 1). split; [lia|]. rewrite <- Hb. f_equal. lia. }
    exists (r + 1). split_and!; [f_equal; lia|lia..| |].
    + rewrite <- Hbr. f_equal. lia.
    + intros i Hi. destruct (Z.eq_dec i 0) as [->|]; [by rewrite E0|]. rewrite <- (Hfirst (i - 1)) by lia. f_equal. lia.
Qed.

(** The last word decides. *)
Lemma last_word_spec c b pos :
  bytes_ok c → (zlen c < 8 ∨ ∃ i, 0 ≤ i < 64 ∧ bit_at c i = b) →
  ∃ r, (if (b2z b =? 1) && (load_word 8 c 0 =? 0) then Ret (-1) else scan_bits 65 (2 ^ 63) (load_word 8 c 0) (b2z b) pos) =
    Ret (if r =? -1 then -1 else pos + r) ∧ first_bit c b r.
Proof.
  intros Hb Hc. destruct (load_word_spec 8 c 0 ltac:(lia) Hb ltac:(lia)) as [Hw Hw']. set (word := load_word 8 c 0) in *.
  change (8 * Z.of_nat 8) with 64 in *.
  assert ((b = true ∧ word = 0) ∨ ∃ j, 0 ≤ j < 64 ∧ Z.testbit word (64 - 1 - j) = b) as [[-> E0]|Hj].
  { destruct Hc as [Hc|(j & Hj & Hbj)]; [|right; exists j; split; [done|by rewrite Hw]].
    destruct b; [|right; exists 63; split; [lia|]; rewrite Hw by lia; apply bit_at_end; lia].
    destruct (existsb (λ j, Z.testbit word (63 - j)) (seqZ 0 64)) eqn:E.
    - right. apply existsb_exists in E as (j & Hj%list_elem_of_In%elem_of_seqZ & Hbj). exists j. split; [lia|done].
    - left. split; [done|]. apply Z.bits_inj'. intros i Hi. rewrite Z.bits_0.
      destruct (Z.lt_ge_cases i 64); [|rewrite Hw' by done; apply Z.bits_0].
      destruct (Z.testbit word i) eqn:Ei; [|done]. rewrite <- E. symmetry. apply existsb_exists. exists (63 - i).
      split; [apply list_elem_of_In, elem_of_seqZ; lia|]. by replace (63 - (63 - i)) with i by lia. }
  - exists (-1). rewrite E0. split; [done|]. left. split_and!; [done..|]. intros i Hi.
    destruct Hc as [Hc|(j & Hj & Hbj)]; [|by rewrite <- Hw, E0, Z.bits_0 in Hbj by lia].
    destruct (Z.lt_ge_cases i 64); [|apply bit_at_end; lia]. rewrite <- Hw, E0 by lia. apply Z.bits_0.
  - destruct (scan_bits_spec 64 word b pos Hj) as (r & E & Hr & Hbr & Hf). change (Z.of_nat 64) with 64 in *.
    exists r. rewrite (proj2 (Z.eqb_neq r (-1))) by lia.
    assert ((b2z b =? 1) && (word =? 0) = false) as ->.
    { destruct b; [|done]. destruct (Z.eqb_spec word 0) as [E0|]; [|done]. by rewrite E0, Z.bits_0 in Hbr. }
    split; [exact E|]. right. rewrite <- Hw by lia. split_and!; [lia|done|]. intros i Hi. rewrite <- Hw by lia. by apply Hf.
Qed.

Lemma redisBitpos_spec {H : HostOrder} p s (b : bool) :
  bytes_ok s → ∃ r, redisBitpos p s (b2z b) = Ret r ∧ first_bit s b r.
Proof.
  intros Hb. unfold redisBitpos. cbn zeta.
  replace (if negb (b2z b =? 0) then 0 else 255) with (skip8 b) by (by destruct b).
  replace (if negb (b2z b =? 0) then 0 else ULONG_MAX) with (skip64 b) by (by destruct b).
  replace (u64 (Z.lnot (Z.shiftr ULONG_MAX 1))) with (2 ^ 63) by done.
  destruct (skip_align_spec b p s 0) as (a & c & f & -> & -> & Ha & Hf). apply Forall_app in Hb as [_ Hc].
  assert (∃ a' c', (if negb f then skip_words (S (length c)) (skip64 b) c (0 + 8 * zlen a) else Ret (c, 0 + 8 * zlen a)) =
    Ret (c', 8 * zlen (a ++ a')) ∧ c = a' ++ c' ∧ Forall (λ x, x = skip8 b) a' ∧ (zlen c' < 8 ∨ ∃ i, 0 ≤ i < 64 ∧ bit_at c' i = b))
    as (a' & c' & -> & -> & Ha' & Hc').
  { destruct f; cbn [negb].
    - destruct (Hf eq_refl) as (x & c' & -> & Hx). exists [], (x :: c'). rewrite app_nil_r. split_and!; [done..|]. right.
      apply Forall_cons in Hc as [Hbx _]. destruct (byte_not_skip x b Hbx Hx) as (i & Hi & Hbi).
      exists i. split; [lia|]. rewrite bit_at_cons by lia. by rewrite (proj2 (Z.ltb_lt i 8)) by lia.
    - destruct (skip_words_spec b (S (length c)) c (0 + 8 * zlen a)) as (a' & c' & -> & -> & Ha' & Hc'); [lia|done|].
      exists a', c'. split_and!; [|done..]. do 2 f_equal. zlr. lia. }
  run. apply Forall_app in Hc as [_ Hc]. destruct (last_word_spec c' b (8 * zlen (a ++ a')) Hc Hc') as (r & -> & Hr).
  eexists. split; [done|]. rewrite app_assoc. apply first_bit_skip; [|done]. by apply Forall_app.
Qed.

(** * Signed fields and overflow *)

(** The mask [((uint64_t)-1) << bits]. *)
Lemma high_mask n : 0 ≤ n ≤ 64 → u64 (Z.shiftl (2 ^ 64 - 1) n) = Z.shiftl (Z.ones (64 - n)) n.
Proof.
  intros Hn. unfold wrapu. rewrite <- Z.land_ones by lia. apply Z.bits_inj'. intros i Hi. change (2 ^ 64 - 1) with (Z.ones 64).
  rewrite Z.land_spec, !Z.shiftl_spec by lia. destruct (Z.lt_ge_cases i n); [by rewrite !(Z.testbit_neg_r _ (i - n)) by lia|].
  destruct (Z.lt_ge_cases i 64).
  - by rewrite !Z.ones_spec_low by lia.
  - by rewrite (Z.ones_spec_high 64 i), (Z.ones_spec_high (64 - n)), andb_false_r by lia.
Qed.

Lemma high_mask_val n : 0 ≤ n ≤ 64 → Z.shiftl (Z.ones (64 - n)) n = 2 ^ 64 - 2 ^ n.
Proof.
  intros Hn. rewrite Z.shiftl_mul_pow2, Z.ones_equiv by lia.
  replace (2 ^ 64) with (2 ^ (64 - n) * 2 ^ n) by (rewrite <- Z.pow_add_r by lia; f_equal; lia). lia.
Qed.

Lemma low_mask n : 0 ≤ n ≤ 64 → u64 (Z.lnot (2 ^ 64 - 2 ^ n)) = Z.ones n.
Proof.
  intros Hn. rewrite Z.ones_equiv. unfold wrapu, Z.lnot. assert (0 < 2 ^ n ≤ 2 ^ 64) by (split; [lia|apply Z.pow_le_mono_r; lia]).
  symmetry. apply (Z.mod_unique_pos _ _ (-1)); lia.
Qed.

Lemma lor_high_mask c n :
  0 ≤ n ≤ 64 → 0 ≤ c < 2 ^ 64 → Z.lor c (Z.shiftl (Z.ones (64 - n)) n) = c mod 2 ^ n + (2 ^ 64 - 2 ^ n).
Proof.
  intros Hn Hc. rewrite <- high_mask_val by done. rewrite <- Z.land_ones by lia.
  assert (0 ≤ Z.land c (Z.ones n) < 2 ^ n) by (rewrite Z.land_ones by lia; apply Z.mod_pos_bound; lia).
  rewrite Z.add_nocarry_lxor, Z.lxor_lor by (apply land_high; lia). apply Z.bits_inj'. intros i Hi.
  rewrite !Z.lor_spec, Z.land_spec, !Z.shiftl_spec by lia. destruct (Z.lt_ge_cases i n).
  - by rewrite (Z.ones_spec_low n i), andb_true_r by lia.
  - rewrite (Z.ones_spec_high n i), andb_false_r by lia. destruct (Z.lt_ge_cases i 64).
    + by rewrite Z.ones_spec_low, orb_true_r by lia.
    + by rewrite (testbit_word 64 c).
Qed.

(** A two's complement value from its residue. *)
Lemma wraps_residue n v :
  0 < n → wraps n v = if v mod 2 ^ n <? 2 ^ (n - 1) then v mod 2 ^ n else v mod 2 ^ n - 2 ^ n.
Proof.
  intros Hn. unfold wraps. assert (2 ^ n = 2 * 2 ^ (n - 1)) as He by (rewrite <- Z.pow_succ_r by lia; f_equal; lia).
  assert (0 < 2 ^ (n - 1)) by lia. pose proof (Z.mod_pos_bound v (2 ^ n) ltac:(lia)). rewrite <- Z.add_mod_idemp_l by lia.
  destruct (Z.ltb_spec (v mod 2 ^ n) (2 ^ (n - 1))).
  - rewrite Z.mod_small by lia. lia.
  - assert ((v mod 2 ^ n + 2 ^ (n - 1)) mod 2 ^ n = v mod 2 ^ n - 2 ^ (n - 1)) as ->; [|lia].
    symmetry. apply (Z.mod_unique_pos _ _ 1); lia.
Qed.

(** The sign bit of a residue. *)
Lemma sign_bit c n : 0 < n → negb (Z.land c (Z.shiftl 1 (n - 1)) =? 0) = negb (c mod 2 ^ n <? 2 ^ (n - 1)).
Proof.
  intros Hn. rewrite Z.shiftl_1_l, land_pow2_test by lia. pose proof (bit_top c (n - 1) ltac:(lia)) as Ht.
  replace (n - 1 + 1) with n in Ht by lia. pose proof (Z.mod_pos_bound c (2 ^ (n - 1)) ltac:(lia)).
  destruct (Z.testbit c (n - 1)); cbn [b2z] in Ht; destruct (Z.ltb_spec (c mod 2 ^ n) (2 ^ (n - 1))); done || lia.
Qed.

(** Sign extension of the low [n] bits. *)
Lemma sign_extend c n :
  0 < n < 64 → 0 ≤ c < 2 ^ 64 →
  s64 (if negb (Z.land c (Z.shiftl 1 (n - 1)) =? 0) then Z.lor c (u64 (Z.shiftl (2 ^ 64 - 1) n))
       else Z.land c (Z.ones n)) = wraps n c.
Proof.
  intros Hn Hc. rewrite sign_bit, (wraps_residue n c) by lia. pose proof (Z.mod_pos_bound c (2 ^ n) ltac:(lia)).
  assert (2 ^ n = 2 * 2 ^ (n - 1)) by (rewrite <- Z.pow_succ_r by lia; f_equal; lia).
  assert (2 ^ n ≤ 2 ^ 63) by (apply Z.pow_le_mono_r; lia).
  destruct (Z.ltb_spec (c mod 2 ^ n) (2 ^ (n - 1))); cbn [negb].
  - rewrite Z.land_ones by lia. apply wraps_id; lia.
  - rewrite high_mask, lor_high_mask by lia. rewrite wraps_residue by lia.
    rewrite Z.mod_small by lia. rewrite (proj2 (Z.ltb_ge _ _)) by lia. lia.
Qed.

(** What the overflow policies ask for: [v] is the exact result. *)
Definition overflow_policy (lo hi : Z) (wrap : Z → Z) (v : Z) (ow : owtype) : Z * option Z :=
  if (lo <=? v) && (v <=? hi) then (0, None)
  else match ow with
       | BFOVERFLOW_WRAP => (1, Some (wrap v))
       | BFOVERFLOW_SAT => if hi <? v then (1, Some hi) else (-1, Some lo)
       | BFOVERFLOW_FAIL => if hi <? v then (1, None) else (-1, None)
       end.

Lemma checkUnsigned_spec value incr bits ow :
  1 ≤ bits ≤ 63 → 0 ≤ value < 2 ^ bits → - 2 ^ 63 ≤ incr < 2 ^ 63 →
  checkUnsignedBitfieldOverflow value incr bits ow = overflow_policy 0 (2 ^ bits - 1) (wrapu bits) (value + incr) ow.
Proof.
  intros Hb Hv Hi. unfold checkUnsignedBitfieldOverflow. rewrite (proj2 (Z.eqb_neq bits 64)) by lia. rewrite Z.shiftl_1_l.
  assert (0 < 2 ^ bits ≤ 2 ^ 63) by (split; [lia|apply Z.pow_le_mono_r; lia]).
  rewrite (wrapu_id 64 (2 ^ bits - 1)), !wraps_id by lia.
  assert (Z.land (u64 (value + incr)) (u64 (Z.lnot (u64 (Z.shiftl (2 ^ 64 - 1) bits)))) = wrapu bits (value + incr)) as ->.
  { rewrite high_mask, high_mask_val, low_mask, Z.land_ones by lia. unfold wrapu. rewrite Z.mod_mod_divide; [done|].
    exists (2 ^ (64 - bits)). rewrite <- Z.pow_add_r by lia. f_equal. lia. }
  unfold overflow_policy. cbn zeta.
  assert ((2 ^ bits - 1 <? value) || ((0 <? incr) && (2 ^ bits - 1 - value <? incr)) = (2 ^ bits - 1 <? value + incr)) as -> by lia.
  assert ((incr <? 0) && (incr <? - value) = (value + incr <? 0)) as -> by lia.
  destruct (Z.ltb_spec (2 ^ bits - 1) (value + incr)), (Z.ltb_spec (value + incr) 0).
  all: destruct ow; rewrite ?(proj2 (andb_false_iff _ _)) by lia; rewrite ?(proj2 (andb_true_iff _ _)) by lia; done || lia.
Qed.

Lemma wraps_u64 n v : 0 < n ≤ 64 → wraps n (u64 v) = wraps n v.
Proof.
  intros Hn. rewrite !wraps_residue by lia. unfold wrapu. rewrite Z.mod_mod_divide; [done|].
  exists (2 ^ (64 - n)). rewrite <- Z.pow_add_r by lia. f_equal. lia.
Qed.

(** The wrapped sum of the signed routine. *)
Lemma signed_wrap value incr bits :
  1 ≤ bits ≤ 64 →
  s64 (let c := u64 (u64 value + u64 incr) in
       if bits <? 64 then
         if negb (Z.land c (u64 (Z.shiftl 1 (bits - 1))) =? 0) then Z.lor c (u64 (Z.shiftl (2 ^ 64 - 1) bits))
         else Z.land c (u64 (Z.lnot (u64 (Z.shiftl (2 ^ 64 - 1) bits))))
       else c) = wraps bits (value + incr).
Proof.
  intros Hb. cbn zeta. assert (u64 (u64 value + u64 incr) = u64 (value + incr)) as -> by (unfold wrapu; by rewrite <- Z.add_mod).
  destruct (Z.ltb_spec bits 64).
  - assert (u64 (Z.shiftl 1 (bits - 1)) = Z.shiftl 1 (bits - 1)) as ->.
    { rewrite Z.shiftl_1_l. apply wrapu_id. split; [lia|]. apply Z.pow_lt_mono_r; lia. }
    assert (u64 (Z.lnot (u64 (Z.shiftl (2 ^ 64 - 1) bits))) = Z.ones bits) as -> by (by rewrite high_mask, high_mask_val, low_mask by lia).
    rewrite sign_extend by (lia || by apply wrapu_range). apply wraps_u64. lia.
  - assert (bits = 64) as -> by lia. by apply wraps_u64.
Qed.

Lemma checkSigned_spec value incr bits ow :
  1 ≤ bits ≤ 64 → - 2 ^ (bits - 1) ≤ value < 2 ^ (bits - 1) → - 2 ^ 63 ≤ incr < 2 ^ 63 →
  checkSignedBitfieldOverflow value incr bits ow =
    overflow_policy (- 2 ^ (bits - 1)) (2 ^ (bits - 1) - 1) (wraps bits) (value + incr) ow.
Proof.
  intros Hb Hv Hi. unfold checkSignedBitfieldOverflow.
  replace (if bits =? 64 then 2 ^ 63 - 1 else Z.shiftl 1 (bits - 1) - 1) with (2 ^ (bits - 1) - 1)
    by (destruct (Z.eqb_spec bits 64) as [->|]; [done|by rewrite Z.shiftl_1_l]).
  cbn zeta. pose proof (signed_wrap value incr bits Hb) as Hw. cbn zeta in Hw. rewrite Hw. clear Hw.
  replace (- (2 ^ (bits - 1) - 1) - 1) with (- 2 ^ (bits - 1)) by lia.
  assert (bits ≠ 64 → 2 ^ (bits - 1) ≤ 2 ^ 62) by (intros; apply Z.pow_le_mono_r; lia).
  assert (bits = 64 → 2 ^ (bits - 1) = 2 ^ 63) by (by intros ->). set (h := 2 ^ (bits - 1)) in *.
  assert ((h - 1 <? value) || (negb (bits =? 64) && (s64 (h - 1 - value) <? incr)) ||
    ((0 <=? value) && (0 <? incr) && (s64 (h - 1 - value) <? incr)) = (h - 1 <? value + incr)) as ->.
  { destruct (Z.eqb_spec bits 64); [destruct (Z.leb_spec 0 value)|]; try (rewrite wraps_id by lia); lia. }
  assert ((value <? - h) || (negb (bits =? 64) && (incr <? s64 (- h - value))) ||
    ((value <? 0) && (incr <? 0) && (incr <? s64 (- h - value))) = (value + incr <? - h)) as ->.
  { destruct (Z.eqb_spec bits 64); [destruct (Z.ltb_spec value 0)|]; try (rewrite wraps_id by lia); lia. }
  unfold overflow_policy. destruct (Z.ltb_spec (h - 1) (value + incr)), (Z.ltb_spec (value + incr) (- h)).
  all: destruct ow; rewrite ?(proj2 (andb_false_iff _ _)) by lia; rewrite ?(proj2 (andb_true_iff _ _)) by lia; done || lia.
Qed.

Lemma getSigned_spec p off bits value :
  1 ≤ bits ≤ 64 → getUnsignedBitfield p off bits = Ret (value mod 2 ^ bits) →
  getSignedBitfield p off bits = Ret (wraps bits value).
Proof.
  intros Hb E. unfold getSignedBitfield. rewrite E. run. pose proof (Z.mod_pos_bound value (2 ^ bits) ltac:(lia)) as Hm.
  assert (2 ^ bits ≤ 2 ^ 64) by (apply Z.pow_le_mono_r; lia).
  assert (u64 (s64 (value mod 2 ^ bits)) = value mod 2 ^ bits) as Eu.
  { rewrite wraps_residue by lia. unfold wrapu. rewrite (Z.mod_small (_ mod _) (2 ^ 64)) by lia. case_match; [apply Z.mod_small; lia|].
    symmetry. apply (Z.mod_unique_pos _ _ (-1)); lia. }
  assert (wraps bits (value mod 2 ^ bits) = wraps bits value) as Er by (rewrite !wraps_residue by lia; by rewrite Z.mod_mod by lia).
  rewrite Eu. destruct (Z.ltb_spec bits 64); cbn [andb].
  - rewrite <- Er, <- (sign_extend (value mod 2 ^ bits) bits) by lia. case_match; [done|].
    by rewrite Z.land_ones, Z.mod_mod by lia.
  - assert (bits = 64) as -> by lia. by rewrite <- Er.
Qed.

(** * Claims *)

(** C25. For a map at any address and on a host of either byte order
    [redisPopcount] counts the bits that are set, and [redisBitpos] returns the
    position of the first bit with the value asked for, the map being padded
    with zeroes, or -1 when a set bit is asked for and there is none; its panic
    is not reached. *)
Theorem bitmap_scans {H : HostOrder} (p : Z) (s : list Z) (b : bool) :
  bytes_ok s →
  redisPopcount p s = Ret (popcount s) ∧
  ∃ r, redisBitpos p s (b2z b) = Ret r ∧ first_bit s b r.
Proof. intros Hs. split; [by apply redisPopcount_spec|by apply redisBitpos_spec]. Qed.

(** A field of 1 to 64 bits anywhere in a map is read back as it was written,
    modulo its size, unsigned or in two's complement, and writing it changes no
    other bit of the map. *)
Lemma set_get_spec (p : list Z) (off bits value : Z) :
  bytes_ok p → 1 ≤ bits ≤ 64 → 0 ≤ off → off + bits ≤ 8 * zlen p → zlen p < 2 ^ 60 →
  ∃ p', setSignedBitfield p off bits value = Ret p' ∧ setUnsignedBitfield p off bits (u64 value) = Ret p' ∧
    bytes_ok p' ∧ zlen p' = zlen p ∧
    (∀ i, 0 ≤ i → i < off ∨ off + bits ≤ i → bit_at p' i = bit_at p i) ∧
    getUnsignedBitfield p' off bits = Ret (wrapu bits value) ∧
    getSignedBitfield p' off bits = Ret (wraps bits value).
Proof.
  intros Hb Hn Ho Hl Hs. unfold setSignedBitfield, setUnsignedBitfield. rewrite (proj2 (Z.leb_le bits 64)) by lia.
  destruct (set_loop_spec (Z.to_nat bits) p off (u64 value)) as (p' & E & Hl' & Hb' & Hbit); [lia..|done|].
  exists p'. rewrite Z2Nat.id in Hbit by lia.
  assert (getUnsignedBitfield p' off bits = Ret (u64 value mod 2 ^ bits)) as Hg.
  { unfold getUnsignedBitfield. assert (2 ^ bits ≤ 2 ^ 64) by (apply Z.pow_le_mono_r; lia).
    rewrite (get_loop_spec _ p' off 0 (u64 value)); rewrite ?Z2Nat.id by lia; try done; try lia.
    intros j Hj. rewrite Hbit by lia. rewrite (proj2 (Z.leb_le off _)), (proj2 (Z.ltb_lt _ (off + bits))) by lia. cbn [andb]. f_equal. lia. }
  split_and!; [done..| | |].
  - intros i Hi Hout. rewrite Hbit by done. by rewrite (proj2 (andb_false_iff _ _)) by lia.
  - rewrite Hg. unfold wrapu. rewrite Z.mod_mod_divide; [done|]. exists (2 ^ (64 - bits)). rewrite <- Z.pow_add_r by lia. f_equal. lia.
  - rewrite (getSigned_spec p' off bits (u64 value)) by done. f_equal. apply wraps_u64. lia.
Qed.

(** C26. A field of 1 to 64 bits anywhere in a map is read back as it was written,
    modulo its size, unsigned or in two's complement, and writing it changes no
    other bit of the map.  The overflow checks compare the exact sum with the
    bounds of the type: they report nothing when it fits and otherwise give the
    value the policy asks for, wrapped, saturated or none.  An underflow that
    wraps is reported as 1. *)
Theorem bitfield_roundtrip (value bits : Z) :
  (∀ p off, bytes_ok p → 1 ≤ bits ≤ 64 → 0 ≤ off → off + bits ≤ 8 * zlen p → zlen p < 2 ^ 60 →
   ∃ p', setSignedBitfield p off bits value = Ret p' ∧ setUnsignedBitfield p off bits (u64 value) = Ret p' ∧
     bytes_ok p' ∧ zlen p' = zlen p ∧
     (∀ i, 0 ≤ i → i < off ∨ off + bits ≤ i → bit_at p' i = bit_at p i) ∧
     getUnsignedBitfield p' off bits = Ret (wrapu bits value) ∧
     getSignedBitfield p' off bits = Ret (wraps bits value)) ∧
  (∀ incr ow, - 2 ^ 63 ≤ incr < 2 ^ 63 →
   (1 ≤ bits ≤ 63 → 0 ≤ value < 2 ^ bits →
      checkUnsignedBitfieldOverflow value incr bits ow =
        overflow_policy 0 (2 ^ bits - 1) (wrapu bits) (value + incr) ow) ∧
   (1 ≤ bits ≤ 64 → - 2 ^ (bits - 1) ≤ value < 2 ^ (bits - 1) →
      checkSignedBitfieldOverflow value incr bits ow =
        overflow_policy (- 2 ^ (bits - 1)) (2 ^ (bits - 1) - 1) (wraps bits) (value + incr) ow)).
Proof.
  split; [intros p off Hb Hn Ho Hl Hs; by apply set_get_spec|].
  intros incr ow Hi. split; intros Hb Hv; [by apply checkUnsigned_spec|by apply checkSigned_spec].
Qed.

(** * Examples *)

Lemma bitmap_scans_witness :
  redisPopcount (H := true) 1 (replicate 40 7) = Ret 120 ∧
  ∃ r, redisBitpos (H := true) 1 (replicate 40 7) 1 = Ret r ∧ first_bit (replicate 40 7) true r.
Proof. apply (bitmap_scans (H := true) 1 (replicate 40 7) true). apply Forall_replicate. by vm_compute. Defined.

Lemma bitfield_roundtrip_witness :
  (∃ p', setSignedBitfield [0; 0] 7 5 23 = Ret p' ∧ getUnsignedBitfield p' 7 5 = Ret 23 ∧ getSignedBitfield p' 7 5 = Ret (-9)) ∧
  checkUnsignedBitfieldOverflow 250 10 8 BFOVERFLOW_WRAP = (1, Some 4) ∧
  checkSignedBitfieldOverflow (-128) (-1) 8 BFOVERFLOW_SAT = (-1, Some (-128)).
Proof.
  split; [|split].
  - destruct (proj1 (bitfield_roundtrip 23 5) [0; 0] 7) as (p' & E & _ & _ & _ & _ & Eu & Es); [|by vm_compute..|].
    + repeat (constructor; [by vm_compute|]). constructor.
    + exists p'. split; [exact E|]. split; [exact Eu|exact Es].
  - exact (proj1 (proj2 (bitfield_roundtrip 250 8) 10 BFOVERFLOW_WRAP ltac:(lia)) ltac:(lia) ltac:(lia)).
  - exact (proj2 (proj2 (bitfield_roundtrip (-128) 8) (-1) BFOVERFLOW_SAT ltac:(lia)) ltac:(lia) ltac:(split; by vm_compute)).
Defined.

End BitopsSpec.
