(* ===== verification/Dict.v ===== *)
(** Hash tables with incremental rehashing: [src/.../redis-6.2/src/dict.c] and
    [dict.h].

    The operations as the code has them, on the pointers of the chains: the
    entries live in a heap of their own, a table is an array of pointers to
    the first entries of its buckets, and a null pointer is 0.  [DictRep]
    relates this state to a finite map.

    The functions of a [dictType] are supplied by the callers and are
    arguments of the model, as are the addresses the allocator returns. *)
From stdpp Require Import gmap.
From S2P Require Import Prelude.

Module Dict.

(** * Data (dict.h) *)

Record dictEntry := DictEntry { key : Z; val : Z; next : Z }.

(** The destructors only release memory; [privdata] is theirs. *)
Record dictType := DictType {
  hashFunction : Z → Z;
  keyDup : option (Z → Z);
  valDup : option (Z → Z);
  keyCompare : option (Z → Z → bool);
  (* of the bytes to allocate, and of the load [used / size] *)
  expandAllowed : option (Z → Z → Z → bool);
}.

(** [table] is the address of the array and [cells] what it holds; both are
    empty for a null pointer. *)
Record dictht := Dictht { table : Z; cells : list Z; size : Z; sizemask : Z; used : Z }.

Record dict := Dict {
  ht0 : dictht;
  ht1 : dictht;
  rehashidx : Z;
  pauserehash : Z;
  heap : gmap Z dictEntry;
}.

Inductive dictResizeEnable := DICT_RESIZE_ENABLE | DICT_RESIZE_AVOID | DICT_RESIZE_FORBID.
#[global] Instance resize_dec : EqDecision dictResizeEnable.
Proof. solve_decision. Defined.

Definition DICT_OK : Z := 0.
Definition DICT_ERR : Z := 1.
Definition DICT_HT_INITIAL_SIZE : Z := 4.
Definition dict_force_resize_ratio : Z := 5.
Definition LONG_MAX : Z := 2 ^ 63 - 1.

(** Addresses of a new entry and of a new table. *)
Class DictAlloc := {
  new_entry : gset Z → Z;
  new_table : Z → Z → Z;
  calloc_ok : Z → bool;
}.

Class DictAllocLaws (A : DictAlloc) : Prop := {
  new_entry_fresh : ∀ X, (new_entry X ∉ X) ∧ new_entry X ≠ 0;
  new_table_fresh : ∀ p n, new_table p n ≠ p ∧ new_table p n ≠ 0;
}.

Definition dictIsRehashing (d : dict) : bool := negb (rehashidx d =? -1).
Definition dictSize (d : dict) : Z := u64 (used (ht0 d) + used (ht1 d)).
Definition dictSlots (d : dict) : Z := u64 (size (ht0 d) + size (ht1 d)).
Definition get_ht (d : dict) (t : Z) : dictht := if t =? 0 then ht0 d else ht1 d.

Definition set_ht0 (d : dict) (ht : dictht) : dict :=
  Dict ht (ht1 d) (rehashidx d) (pauserehash d) (heap d).
Definition set_ht1 (d : dict) (ht : dictht) : dict :=
  Dict (ht0 d) ht (rehashidx d) (pauserehash d) (heap d).
Definition set_ht (d : dict) (t : Z) (ht : dictht) : dict :=
  if t =? 0 then set_ht0 d ht else set_ht1 d ht.
Definition set_rehashidx (d : dict) (i : Z) : dict :=
  Dict (ht0 d) (ht1 d) i (pauserehash d) (heap d).
Definition set_pause (d : dict) (i : Z) : dict :=
  Dict (ht0 d) (ht1 d) (rehashidx d) i (heap d).
Definition set_heap (d : dict) (h : gmap Z dictEntry) : dict :=
  Dict (ht0 d) (ht1 d) (rehashidx d) (pauserehash d) h.
Definition set_cells (ht : dictht) (c : list Z) : dictht :=
  Dictht (table ht) c (size ht) (sizemask ht) (used ht).
Definition set_used (ht : dictht) (n : Z) : dictht :=
  Dictht (table ht) (cells ht) (size ht) (sizemask ht) n.

Definition dictPauseRehashing (d : dict) : dict := set_pause d (s16 (pauserehash d + 1)).
Definition dictResumeRehashing (d : dict) : dict := set_pause d (s16 (pauserehash d - 1)).

(** [*p] *)
Definition deref (h : gmap Z dictEntry) (p : Z) : outcome dictEntry :=
  match h !! p with Some e => Ret e | None => Fault end.

(** * Creation and resizing (dict.c) *)

Definition _dictReset : dictht := Dictht 0 [] 0 0 0.

Definition dictCreate : dict := Dict _dictReset _dictReset (-1) 0 ∅.

(** [while(1) { if (i >= size) return i; i *= 2; }] *)
Fixpoint next_power_loop (fuel : nat) (i size : Z) : outcome Z :=
  match fuel with
  | O => OutOfFuel
  | S fuel => if size <=? i then Ret i else next_power_loop fuel (u64 (i * 2)) size
  end.

Definition _dictNextPower (size : Z) : outcome Z :=
  if LONG_MAX <=? size then Ret (LONG_MAX + 1)
  else next_power_loop 64 DICT_HT_INITIAL_SIZE size.

Section dict.
Context {A : DictAlloc} (ty : dictType).

(** The result: the dictionary, [DICT_OK] or [DICT_ERR], and [*malloc_failed]
    when the caller asks for it. *)
Definition _dictExpand (d : dict) (sz : Z) (try : bool) : outcome (dict * Z * bool) :=
  if dictIsRehashing d || (sz <? used (ht0 d)) then Ret (d, DICT_ERR, false)
  else
    realsize ← _dictNextPower sz;
    if (realsize <? sz) || (u64 (realsize * 8) <? realsize) then Ret (d, DICT_ERR, false)
    else if realsize =? size (ht0 d) then Ret (d, DICT_ERR, false)
    else if try && negb (calloc_ok (u64 (realsize * 8))) then Ret (d, DICT_ERR, true)
    else
      let n := Dictht (new_table (table (ht0 d)) realsize) (replicate (Z.to_nat realsize) 0)
                 realsize (u64 (realsize - 1)) 0 in
      if table (ht0 d) =? 0 then Ret (set_ht0 d n, DICT_OK, false)
      else Ret (set_rehashidx (set_ht1 d n) 0, DICT_OK, false).

Definition dictExpand (d : dict) (sz : Z) : outcome (dict * Z) :=
  '(d, r, _) ← _dictExpand d sz false; Ret (d, r).

Definition dictTryExpand (d : dict) (sz : Z) : outcome (dict * Z) :=
  '(d, _, malloc_failed) ← _dictExpand d sz true;
  Ret (d, if malloc_failed : bool then DICT_ERR else DICT_OK).

Definition dictResize (can_resize : dictResizeEnable) (d : dict) : outcome (dict * Z) :=
  if negb (bool_decide (can_resize = DICT_RESIZE_ENABLE)) || dictIsRehashing d then Ret (d, DICT_ERR)
  else
    let minimal := used (ht0 d) in
    let minimal := if minimal <? DICT_HT_INITIAL_SIZE then DICT_HT_INITIAL_SIZE else minimal in
    dictExpand d minimal.

(** * Incremental rehashing *)

(** [while(de)]: move the chain at [de] to the second table. *)
Fixpoint move_bucket (fuel : nat) (d : dict) (de : Z) : outcome dict :=
  match fuel with
  | O => OutOfFuel
  | S fuel =>
    if de =? 0 then Ret d
    else
      e ← deref (heap d) de;
      let nextde := next e in
      let h := Z.land (hashFunction ty (key e)) (sizemask (ht1 d)) in
      first ← rd (cells (ht1 d)) h;
      let d := set_heap d (<[de := DictEntry (key e) (val e) first]> (heap d)) in
      cells1 ← wrn (cells (ht1 d)) h [de];
      let d := set_ht1 d (set_cells (ht1 d) cells1) in
      let d := set_ht0 d (set_used (ht0 d) (u64 (used (ht0 d) - 1))) in
      let d := set_ht1 d (set_used (ht1 d) (u64 (used (ht1 d) + 1))) in
      move_bucket fuel d nextde
  end.

(** [while(d->ht[0].table[d->rehashidx] == NULL)]: the dictionary, the visits
    left, and whether the limit was reached. *)
Fixpoint skip_empty (fuel : nat) (d : dict) (empty_visits : Z) : outcome (dict * Z * bool) :=
  match fuel with
  | O => OutOfFuel
  | S fuel =>
    de ← rd (cells (ht0 d)) (rehashidx d);
    if de =? 0 then
      let d := set_rehashidx d (rehashidx d + 1) in
      let empty_visits := empty_visits - 1 in
      if empty_visits =? 0 then Ret (d, empty_visits, true)
      else skip_empty fuel d empty_visits
    else Ret (d, empty_visits, false)
  end.

(** [while(n-- && d->ht[0].used != 0)]; the second result is [true] for the
    [return 1] inside. *)
Fixpoint rehash_loop (n : nat) (d : dict) (empty_visits : Z) : outcome (dict * bool) :=
  match n with
  | O => Ret (d, false)
  | S n =>
    if used (ht0 d) =? 0 then Ret (d, false)
    else
      _ ← c_assert (u64 (rehashidx d) <? size (ht0 d));
      '(d, empty_visits, stop) ← skip_empty (S (length (cells (ht0 d)))) d empty_visits;
      if stop : bool then Ret (d, true)
      else
        de ← rd (cells (ht0 d)) (rehashidx d);
        d ← move_bucket (S (base.size (heap d))) d de;
        cells0 ← wrn (cells (ht0 d)) (rehashidx d) [0];
        let d := set_ht0 d (set_cells (ht0 d) cells0) in
        let d := set_rehashidx d (rehashidx d + 1) in
        rehash_loop n d empty_visits
  end.

(** The callers pass 1 and 100: [n] is positive, and [n * 10] far inside an
    [int]. *)
Definition dictRehash (can_resize : dictResizeEnable) (d : dict) (n : nat) : outcome (dict * Z) :=
  let empty_visits := Z.of_nat n * 10 in
  let s0 := size (ht0 d) in
  let s1 := size (ht1 d) in
  if bool_decide (can_resize = DICT_RESIZE_FORBID) || negb (dictIsRehashing d) then Ret (d, 0)
  else if bool_decide (can_resize = DICT_RESIZE_AVOID) &&
          (((s0 <? s1) && (s1 / s0 <? dict_force_resize_ratio)) ||
           ((s1 <? s0) && (s0 / s1 <? dict_force_resize_ratio))) then Ret (d, 0)
  else
    '(d, stop) ← rehash_loop n d empty_visits;
    if stop : bool then Ret (d, 1)
    else if used (ht0 d) =? 0 then
      let d := set_ht0 d (ht1 d) in
      let d := set_ht1 d _dictReset in
      Ret (set_rehashidx d (-1), 0)
    else Ret (d, 1).

(** [rounds] bounds the calls made before the clock shows that [ms] have
    passed. *)
Fixpoint rehash_ms_loop (rounds : nat) (can_resize : dictResizeEnable) (d : dict) (rehashes : Z)
    : outcome (dict * Z) :=
  '(d, more) ← dictRehash can_resize d 100;
  if more =? 0 then Ret (d, rehashes)
  else
    match rounds with
    | O => Ret (d, rehashes + 100)
    | S rounds => rehash_ms_loop rounds can_resize d (rehashes + 100)
    end.

Definition dictRehashMilliseconds (can_resize : dictResizeEnable) (d : dict) (rounds : nat)
    : outcome (dict * Z) :=
  if 0 <? pauserehash d then Ret (d, 0) else rehash_ms_loop rounds can_resize d 0.

Definition _dictRehashStep (can_resize : dictResizeEnable) (d : dict) : outcome dict :=
  if pauserehash d =? 0 then '(d, _) ← dictRehash can_resize d 1; Ret d else Ret d.

(** [if (dictIsRehashing(d)) _dictRehashStep(d);] *)
Definition rehash_step_if (can_resize : dictResizeEnable) (d : dict) : outcome dict :=
  if dictIsRehashing d then _dictRehashStep can_resize d else Ret d.

(** * Lookup and insertion *)

(** [key==he->key || dictCompareKeys(d, key, he->key)] *)
Definition same_key (k k' : Z) : bool :=
  (k =? k') || match keyCompare ty with Some cmp => cmp k k' | None => k =? k' end.

(** [while(he)]: the entry with the key in a chain, or 0. *)
Fixpoint chain_find (fuel : nat) (h : gmap Z dictEntry) (k he : Z) : outcome Z :=
  match fuel with
  | O => OutOfFuel
  | S fuel =>
    if he =? 0 then Ret 0
    else
      e ← deref h he;
      if same_key k (key e) then Ret he else chain_find fuel h k (next e)
  end.

(** The bucket of a hash value in a table, and the search in it. *)
Definition bucket_find (d : dict) (t : Z) (k hash : Z) : outcome (Z * Z) :=
  let idx := Z.land hash (sizemask (get_ht d t)) in
  he ← rd (cells (get_ht d t)) idx;
  r ← chain_find (S (base.size (heap d))) (heap d) k he;
  Ret (idx, r).

Definition dictTypeExpandAllowed (d : dict) : outcome bool :=
  match expandAllowed ty with
  | None => Ret true
  | Some f =>
    n ← _dictNextPower (u64 (used (ht0 d) + 1));
    Ret (f (u64 (n * 8)) (used (ht0 d)) (size (ht0 d)))
  end.

Definition _dictExpandIfNeeded (can_resize : dictResizeEnable) (d : dict) : outcome (dict * Z) :=
  if dictIsRehashing d then Ret (d, DICT_OK)
  else if size (ht0 d) =? 0 then dictExpand d DICT_HT_INITIAL_SIZE
  else
    allowed ← dictTypeExpandAllowed d;
    if negb allowed then Ret (d, DICT_OK)
    else if (bool_decide (can_resize = DICT_RESIZE_ENABLE) && (size (ht0 d) <=? used (ht0 d))) ||
            (negb (bool_decide (can_resize = DICT_RESIZE_FORBID)) &&
             (dict_force_resize_ratio <? used (ht0 d) / size (ht0 d)))
    then dictExpand d (u64 (used (ht0 d) + 1))
    else Ret (d, DICT_OK).

(** The index, or -1, and [*existing]. *)
Definition _dictKeyIndex (can_resize : dictResizeEnable) (d : dict) (k hash : Z)
    : outcome (dict * Z * Z) :=
  '(d, r) ← _dictExpandIfNeeded can_resize d;
  if r =? DICT_ERR then Ret (d, -1, 0)
  else
    '(idx, he) ← bucket_find d 0 k hash;
    if negb (he =? 0) then Ret (d, -1, he)
    else if negb (dictIsRehashing d) then Ret (d, idx, 0)
    else
      '(idx, he) ← bucket_find d 1 k hash;
      if negb (he =? 0) then Ret (d, -1, he) else Ret (d, idx, 0).

Definition dup (f : option (Z → Z)) (x : Z) : Z := match f with Some f => f x | None => x end.

(** The new entry or 0, and [*existing].  The value of the new entry is left
    as it is, here 0, for the caller to set. *)
Definition dictAddRaw (can_resize : dictResizeEnable) (d : dict) (k : Z) : outcome (dict * Z * Z) :=
  d ← rehash_step_if can_resize d;
  '(d, index, existing) ← _dictKeyIndex can_resize d k (hashFunction ty k);
  if index =? -1 then Ret (d, 0, existing)
  else
    let t := if dictIsRehashing d then 1 else 0 in
    let ht := get_ht d t in
    let entry := new_entry (dom (heap d)) in
    first ← rd (cells ht) index;
    cells' ← wrn (cells ht) index [entry];
    let d := set_heap d (<[entry := DictEntry (dup (keyDup ty) k) 0 first]> (heap d)) in
    let d := set_ht d t (set_used (set_cells ht cells') (u64 (used ht + 1))) in
    Ret (d, entry, existing).

(** [dictSetVal] *)
Definition dictSetVal (d : dict) (entry v : Z) : outcome dict :=
  e ← deref (heap d) entry;
  Ret (set_heap d (<[entry := DictEntry (key e) (dup (valDup ty) v) (next e)]> (heap d))).

Definition dictAdd (can_resize : dictResizeEnable) (d : dict) (k v : Z) : outcome (dict * Z) :=
  '(d, entry, _) ← dictAddRaw can_resize d k;
  if entry =? 0 then Ret (d, DICT_ERR)
  else d ← dictSetVal d entry v; Ret (d, DICT_OK).

Definition dictReplace (can_resize : dictResizeEnable) (d : dict) (k v : Z) : outcome (dict * Z) :=
  '(d, entry, existing) ← dictAddRaw can_resize d k;
  if negb (entry =? 0) then d ← dictSetVal d entry v; Ret (d, 1)
  else d ← dictSetVal d existing v; Ret (d, 0).

Definition dictAddOrFind (can_resize : dictResizeEnable) (d : dict) (k : Z) : outcome (dict * Z) :=
  '(d, entry, existing) ← dictAddRaw can_resize d k;
  Ret (d, if negb (entry =? 0) then entry else existing).

Definition dictFind (can_resize : dictResizeEnable) (d : dict) (k : Z) : outcome (dict * Z) :=
  if dictSize d =? 0 then Ret (d, 0)
  else
    d ← rehash_step_if can_resize d;
    let h := hashFunction ty k in
    '(_, he) ← bucket_find d 0 k h;
    if negb (he =? 0) then Ret (d, he)
    else if negb (dictIsRehashing d) then Ret (d, 0)
    else '(_, he) ← bucket_find d 1 k h; Ret (d, he).

Definition dictFetchValue (can_resize : dictResizeEnable) (d : dict) (k : Z) : outcome (dict * Z) :=
  '(d, he) ← dictFind can_resize d k;
  if he =? 0 then Ret (d, 0) else e ← deref (heap d) he; Ret (d, val e).

(** * Deletion *)

(** [while(he)]: unlink the entry with the key from a chain; the second result
    is the entry, or 0. *)
Fixpoint unlink_loop (fuel : nat) (d : dict) (t idx k he prevHe : Z) (nofree : bool)
    : outcome (dict * Z) :=
  match fuel with
  | O => OutOfFuel
  | S fuel =>
    if he =? 0 then Ret (d, 0)
    else
      e ← deref (heap d) he;
      if same_key k (key e) then
        d ← (if negb (prevHe =? 0) then
               p ← deref (heap d) prevHe;
               Ret (set_heap d (<[prevHe := DictEntry (key p) (val p) (next e)]> (heap d)))
             else
               cells' ← wrn (cells (get_ht d t)) idx [next e];
               Ret (set_ht d t (set_cells (get_ht d t) cells')));
        let d := if nofree then d else set_heap d (delete he (heap d)) in
        let d := set_ht d t (set_used (get_ht d t) (u64 (used (get_ht d t) - 1))) in
        Ret (d, he)
      else unlink_loop fuel d t idx k (next e) he nofree
  end.

Definition bucket_unlink (d : dict) (t k hash : Z) (nofree : bool) : outcome (dict * Z) :=
  let idx := Z.land hash (sizemask (get_ht d t)) in
  he ← rd (cells (get_ht d t)) idx;
  unlink_loop (S (base.size (heap d))) d t idx k he 0 nofree.

Definition dictGenericDelete (can_resize : dictResizeEnable) (d : dict) (k : Z) (nofree : bool)
    : outcome (dict * Z) :=
  if (used (ht0 d) =? 0) && (used (ht1 d) =? 0) then Ret (d, 0)
  else
    d ← rehash_step_if can_resize d;
    let h := hashFunction ty k in
    '(d, he) ← bucket_unlink d 0 k h nofree;
    if negb (he =? 0) then Ret (d, he)
    else if negb (dictIsRehashing d) then Ret (d, 0)
    else bucket_unlink d 1 k h nofree.

Definition dictDelete (can_resize : dictResizeEnable) (d : dict) (k : Z) : outcome (dict * Z) :=
  '(d, he) ← dictGenericDelete can_resize d k false;
  Ret (d, if negb (he =? 0) then DICT_OK else DICT_ERR).

Definition dictUnlink (can_resize : dictResizeEnable) (d : dict) (k : Z) : outcome (dict * Z) :=
  dictGenericDelete can_resize d k true.

Definition dictFreeUnlinkedEntry (d : dict) (he : Z) : outcome dict :=
  if he =? 0 then Ret d
  else _ ← deref (heap d) he; Ret (set_heap d (delete he (heap d))).

(** [while(he)] of [_dictClear]: release a chain, counting down [used]. *)
Fixpoint free_chain (fuel : nat) (h : gmap Z dictEntry) (used he : Z)
    : outcome (gmap Z dictEntry * Z) :=
  match fuel with
  | O => OutOfFuel
  | S fuel =>
    if he =? 0 then Ret (h, used)
    else e ← deref h he; free_chain fuel (delete he h) (u64 (used - 1)) (next e)
  end.

(** [for (i = 0; i < ht->size && ht->used > 0; i++)]; the callback only
    reports progress. *)
Fixpoint clear_loop (n : nat) (h : gmap Z dictEntry) (ht : dictht) (i used : Z)
    : outcome (gmap Z dictEntry) :=
  match n with
  | O => Ret h
  | S n =>
    if (i <? size ht) && (0 <? used) then
      he ← rd (cells ht) i;
      '(h, used) ← free_chain (S (base.size h)) h used he;
      clear_loop n h ht (i + 1) used
    else Ret h
  end.

Definition _dictClear (d : dict) (t : Z) : outcome dict :=
  let ht := get_ht d t in
  h ← clear_loop (S (length (cells ht))) (heap d) ht 0 (used ht);
  Ret (set_ht (set_heap d h) t _dictReset).

Definition dictEmpty (d : dict) : outcome dict :=
  d ← _dictClear d 0;
  d ← _dictClear d 1;
  Ret (set_pause (set_rehashidx d (-1)) 0).

Definition dictRelease (d : dict) : outcome dict :=
  d ← _dictClear d 0;
  _dictClear d 1.

End dict.

(** * Iterators *)

Record dictIterator := DictIterator {
  it_index : Z;
  it_table : Z;
  it_safe : bool;
  it_entry : Z;
  it_nextEntry : Z;
  it_fingerprint : Z;
}.

(** One round of Thomas Wang's hash. *)
Definition fingerprint_round (hash : Z) : Z :=
  let hash := u64 (Z.lxor hash (2 ^ 64 - 1) + Z.shiftl hash 21) in
  let hash := Z.lxor hash (Z.shiftr hash 24) in
  let hash := u64 (hash + Z.shiftl hash 3 + Z.shiftl hash 8) in
  let hash := Z.lxor hash (Z.shiftr hash 14) in
  let hash := u64 (hash + Z.shiftl hash 2 + Z.shiftl hash 4) in
  let hash := Z.lxor hash (Z.shiftr hash 28) in
  u64 (hash + Z.shiftl hash 31).

Definition dictFingerprint (d : dict) : Z :=
  foldl (λ hash i, fingerprint_round (u64 (hash + i))) 0
    [table (ht0 d); size (ht0 d); used (ht0 d); table (ht1 d); size (ht1 d); used (ht1 d)].

(** The fingerprint is set by the first step. *)
Definition dictGetIterator : dictIterator := DictIterator (-1) 0 false 0 0 0.
Definition dictGetSafeIterator : dictIterator := DictIterator (-1) 0 true 0 0 0.

(** The first step pauses rehashing or takes the fingerprint. *)
Definition iter_begin (d : dict) (it : dictIterator) : dict * dictIterator :=
  if (it_index it =? -1) && (it_table it =? 0) then
    if it_safe it then (dictPauseRehashing d, it)
    else (d, DictIterator (it_index it) (it_table it) (it_safe it) (it_entry it) (it_nextEntry it)
               (dictFingerprint d))
  else (d, it).

(** [while (1)]; the entry returned, or 0. *)
Fixpoint dictNext_loop (fuel : nat) (d : dict) (it : dictIterator) : outcome (dict * dictIterator * Z) :=
  match fuel with
  | O => OutOfFuel
  | S fuel =>
    r ← (if it_entry it =? 0 then
           let '(d, it) := iter_begin d it in
           let index := it_index it + 1 in
           let moved :=
             if size (get_ht d (it_table it)) <=? index then
               if dictIsRehashing d && (it_table it =? 0) then Some (1, 0) else None
             else Some (it_table it, index) in
           match moved with
           | None =>
             Ret (d, DictIterator index (it_table it) (it_safe it) (it_entry it) (it_nextEntry it)
                       (it_fingerprint it), false)
           | Some (t, index) =>
             he ← rd (cells (get_ht d t)) index;
             Ret (d, DictIterator index t (it_safe it) he (it_nextEntry it) (it_fingerprint it), true)
           end
         else
           Ret (d, DictIterator (it_index it) (it_table it) (it_safe it) (it_nextEntry it)
                     (it_nextEntry it) (it_fingerprint it), true));
    let '(d, it, more) := r in
    if negb more then Ret (d, it, 0)
    else if negb (it_entry it =? 0) then
      e ← deref (heap d) (it_entry it);
      Ret (d, DictIterator (it_index it) (it_table it) (it_safe it) (it_entry it) (next e)
                (it_fingerprint it), it_entry it)
    else dictNext_loop fuel d it
  end.

Definition dictNext (d : dict) (it : dictIterator) : outcome (dict * dictIterator * Z) :=
  dictNext_loop (S (S (S (length (cells (ht0 d)) + length (cells (ht1 d)))))) d it.

Definition dictReleaseIterator (d : dict) (it : dictIterator) : outcome dict :=
  if negb ((it_index it =? -1) && (it_table it =? 0)) then
    if it_safe it then Ret (dictResumeRehashing d)
    else _ ← c_assert (it_fingerprint it =? dictFingerprint d); Ret d
  else Ret d.

(** * Scanning *)

(** [rev]: the five variables are [s], the mask and [v] of each round. *)
Definition rev_round (s : Z) (mv : Z * Z) : Z * Z :=
  let '(mask, v) := mv in
  let mask := Z.lxor mask (u64 (Z.shiftl mask s)) in
  (mask, Z.lor (Z.land (Z.shiftr v s) mask)
               (Z.land (u64 (Z.shiftl v s)) (Z.lxor mask (2 ^ 64 - 1)))).

Definition rev (v : Z) : Z :=
  (foldl (λ mv s, rev_round s mv) (2 ^ 64 - 1, v) [32; 16; 8; 4; 2; 1]).2.

(** The entries of a chain, in the order [fn] is called on them. *)
Fixpoint emit_chain (fuel : nat) (h : gmap Z dictEntry) (de : Z) : outcome (list Z) :=
  match fuel with
  | O => OutOfFuel
  | S fuel =>
    if de =? 0 then Ret []
    else e ← deref h de; l ← emit_chain fuel h (next e); Ret (de :: l)
  end.

Definition emit_bucket (d : dict) (ht : dictht) (idx : Z) : outcome (list Z) :=
  de ← rd (cells ht) idx; emit_chain (S (base.size (heap d))) (heap d) de.

(** [v |= ~m; v = rev(v); v++; v = rev(v);] *)
Definition next_cursor (v m : Z) : Z :=
  rev (u64 (rev (Z.lor v (Z.lxor m (2 ^ 64 - 1))) + 1)).

(** [do ... while (v & (m0 ^ m1))] over the larger table. *)
Fixpoint scan_loop (fuel : nat) (d : dict) (t1 : dictht) (v m0 m1 : Z) : outcome (list Z * Z) :=
  match fuel with
  | O => OutOfFuel
  | S fuel =>
    l ← emit_bucket d t1 (Z.land v m1);
    let v := next_cursor v m1 in
    if Z.land v (Z.lxor m0 m1) =? 0 then Ret (l, v)
    else '(l', v) ← scan_loop fuel d t1 v m0 m1; Ret (l ++ l', v)
  end.

(** The entries passed to [fn] and the next cursor; [fn] does not change the
    dictionary and [bucketfn] is a null pointer. *)
Definition dictScan (d : dict) (v : Z) : outcome (dict * list Z * Z) :=
  if dictSize d =? 0 then Ret (d, [], 0)
  else
    let d := dictPauseRehashing d in
    '(l, v) ← (if negb (dictIsRehashing d) then
        let t0 := ht0 d in
        let m0 := sizemask t0 in
        l ← emit_bucket d t0 (Z.land v m0);
        Ret (l, next_cursor v m0)
      else
        let '(t0, t1) := if size (ht1 d) <? size (ht0 d) then (ht1 d, ht0 d) else (ht0 d, ht1 d) in
        let m0 := sizemask t0 in
        let m1 := sizemask t1 in
        l ← emit_bucket d t0 (Z.land v m0);
        '(l', v) ← scan_loop (S (length (cells t1))) d t1 v m0 m1;
        Ret (l ++ l', v));
    Ret (dictResumeRehashing d, l, v).

End Dict.
