(* ===== verification/DictRep.v ===== *)
(** The representation of a finite map by a hash table (component [Dict]).

    [chain] relates a pointer to the list of addresses of the entries linked
    from it, [ht_rep] a table to the lists of its buckets, and [dict_rep] a
    dictionary to the finite map it stands for, also in the middle of a
    rehashing.  The lemmas describe the effect of the pointer operations on
    these lists. *)
From stdpp Require Import gmap.
From S2P Require Import Prelude Dict.

Module DictRep.
Import Dict.

(** * Chains *)

Fixpoint chain (h : gmap Z dictEntry) (p : Z) (l : list Z) : Prop :=
  match l with
  | [] => p = 0
  | x :: l => p = x ∧ x ≠ 0 ∧ ∃ e, h !! x = Some e ∧ chain h (next e) l
  end.

(** What the caller can see of an entry: its address, key and value. *)
Record item := Item { addr : Z; ikey : Z; ival : Z }.

(** The functions of a [dictType] agree on the contents of the keys, an
    abstraction of what the key pointers point to. *)
Class DictTypeLaws {K} `{EqDecision K} (ty : dictType) (content : Z → K) : Prop := {
  same_key_content : ∀ p q, same_key ty p q = bool_decide (content p = content q);
  hash_content : ∀ p q, content p = content q → hashFunction ty p = hashFunction ty q;
  hash_range : ∀ p, 0 <= hashFunction ty p < 2 ^ 64;
  dup_content : ∀ p, content (dup (keyDup ty) p) = content p;
}.

Section tables.
Context (ty : dictType).

(** The entry belongs to bucket [j] of a table with the mask. *)
Definition home (h : gmap Z dictEntry) (mask : Z) (j : nat) (x : Z) : Prop :=
  ∃ e, h !! x = Some e ∧ Z.land (hashFunction ty (key e)) mask = Z.of_nat j.

Record ht_rep (h : gmap Z dictEntry) (ht : dictht) (ls : list (list Z)) : Prop := {
  rep_length : length (cells ht) = length ls;
  rep_bucket : ∀ j p l, cells ht !! j = Some p → ls !! j = Some l →
    chain h p l ∧ Forall (home h (sizemask ht) j) l;
  rep_used : used ht = zlen (concat ls);
}.

(** An allocated table of [2 ^ k] buckets. *)
Record alloc_shape (ht : dictht) (k : Z) : Prop := {
  shape_table : table ht ≠ 0;
  shape_k : 2 <= k <= 60;
  shape_size : size ht = 2 ^ k;
  shape_cells : zlen (cells ht) = 2 ^ k;
  shape_mask : sizemask ht = 2 ^ k - 1;
}.

(** Either there is one table, perhaps not allocated yet, or the buckets before
    [rehashidx] of the first table have been moved to the second one. *)
Definition phase (d : dict) (ls0 : list (list Z)) : Prop :=
  (rehashidx d = -1 ∧ ht1 d = _dictReset ∧ (ht0 d = _dictReset ∨ ∃ k, alloc_shape (ht0 d) k)) ∨
  (0 <= rehashidx d <= size (ht0 d) ∧ (∃ k, alloc_shape (ht0 d) k) ∧ (∃ k, alloc_shape (ht1 d) k) ∧
   ∀ j, Z.of_nat j < rehashidx d → ls0 !! j = Some []).

(** [ls0] and [ls1] are the buckets; [U] are the entries that were unlinked
    and still belong to the caller. *)
Record dict_wf (d : dict) (ls0 ls1 : list (list Z)) (U : gset Z) : Prop := {
  wf_ht0 : ht_rep (heap d) (ht0 d) ls0;
  wf_ht1 : ht_rep (heap d) (ht1 d) ls1;
  wf_phase : phase d ls0;
  wf_owns : elements (dom (heap d)) ≡ₚ (concat ls0 ++ concat ls1) ++ elements U;
}.

End tables.

Section items.
Context (ty : dictType) {K : Type} `{Countable K} (content : Z → K).

Definition item_of (h : gmap Z dictEntry) (x : Z) : K * item :=
  match h !! x with
  | Some e => (content (key e), Item x (key e) (val e))
  | None => (content 0, Item x 0 0)
  end.

(** The dictionary represents [m], which maps the content of each key to the
    entry that holds it. *)
Definition rep_with (d : dict) (m : gmap K item) (U : gset Z) (ls0 ls1 : list (list Z)) : Prop :=
  dict_wf ty d ls0 ls1 U ∧
  map_to_list m ≡ₚ item_of (heap d) <$> (concat ls0 ++ concat ls1) ∧
  Z.of_nat (base.size m) <= 2 ^ 60.

Definition dict_rep (d : dict) (m : gmap K item) (U : gset Z) : Prop :=
  ∃ ls0 ls1, rep_with d m U ls0 ls1.

End items.

(** Rehashing changes neither the sizes of the tables nor the pause count. *)
Definition same_shape (d d' : dict) : Prop :=
  pauserehash d' = pauserehash d ∧ size (ht0 d') = size (ht0 d) ∧ size (ht1 d') = size (ht1 d).

(** * Lists of buckets *)

Lemma concat_insert ls j (l : list Z) :
  ls !! j = Some l → ∃ rest, concat ls ≡ₚ l ++ rest ∧
    ∀ l', concat (<[j := l']> ls) ≡ₚ l' ++ rest.
Proof.
  intros Hj. exists (concat (take j ls) ++ concat (drop (S j) ls)).
  assert (Hi : ∀ l', concat (<[j := l']> ls) ≡ₚ l' ++ concat (take j ls) ++ concat (drop (S j) ls)).
  { intros l'. rewrite insert_take_drop by (by eapply lookup_lt_Some).
    rewrite concat_app. cbn [concat]. rewrite !app_assoc. apply Permutation_app_tail, Permutation_app_comm. }
  split; [|done]. rewrite <- (list_insert_id ls j l Hj) at 1. apply Hi.
Qed.

Lemma elem_of_bucket ls j (l : list Z) x : ls !! j = Some l → x ∈ l → x ∈ concat ls.
Proof.
  intros Hj Hx. destruct (concat_insert ls j l Hj) as (rest & Hp & _). rewrite Hp.
  apply elem_of_app. by left.
Qed.

Lemma elem_of_concat ls (x : Z) : x ∈ concat ls → ∃ j l, ls !! j = Some l ∧ x ∈ l.
Proof.
  rewrite list_elem_of_In, in_concat. intros (l & Hl & Hx). apply list_elem_of_In in Hl, Hx.
  apply list_elem_of_lookup in Hl as [j Hj]. eauto.
Qed.

Lemma rd_lookup b j v : b !! j = Some v → rd b (Z.of_nat j) = Ret v.
Proof. intros Hj. unfold rd. test (0 <=? Z.of_nat j) true. by rewrite Nat2Z.id, Hj. Qed.

Lemma wrn_insert b j v : (j < length b)%nat → wrn b (Z.of_nat j) [v] = Ret (<[j := v]> b).
Proof.
  intros Hj. unfold wrn.
  test ((0 <=? Z.of_nat j) && (Z.of_nat j + zlen [v] <=? zlen b)) true.
  rewrite Nat2Z.id, insert_take_drop by done. do 3 f_equal. cbn [length]. f_equal; lia.
Qed.

(** * Chains and the heap *)

Lemma deref_ok h p e : h !! p = Some e → deref h p = Ret e.
Proof. intros He. unfold deref. by rewrite He. Qed.

(** A chain depends on the links of its entries only. *)
Lemma chain_links h h' p l :
  (∀ x, x ∈ l → next <$> h' !! x = next <$> h !! x) → chain h p l → chain h' p l.
Proof.
  revert p. induction l as [|x l IH]; intros p Hx; [done|]. simpl.
  intros (-> & Hn & e & He & Hc). split_and!; [done..|].
  pose proof (Hx x ltac:(set_solver)) as Hxe. rewrite He in Hxe.
  apply fmap_Some in Hxe as (e' & He' & Hne). exists e'. split; [done|]. rewrite <- Hne.
  apply IH; [set_solver|done].
Qed.

Lemma chain_agree h h' p l : (∀ x, x ∈ l → h' !! x = h !! x) → chain h p l → chain h' p l.
Proof. intros Hx. apply chain_links. intros x Hxl. by rewrite Hx. Qed.

Lemma chain_lookup h p l x : chain h p l → x ∈ l → x ≠ 0 ∧ is_Some (h !! x).
Proof.
  revert p. induction l as [|y l IH]; intros p; [set_solver|]. simpl.
  intros (-> & Hn & e & He & Hc). rewrite elem_of_cons. intros [->|Hx]; [|by eapply IH].
  eauto.
Qed.

Lemma chain_zero h p l : chain h p l → p = 0 ↔ l = [].
Proof. destruct l as [|x l]; simpl; [naive_solver|]. intros (-> & Hn & _). naive_solver. Qed.

(** Unlink the entry after [y]. *)
Lemma chain_unlink h p pre y x post ey ex :
  chain h p (pre ++ y :: x :: post) → NoDup (pre ++ y :: x :: post) →
  h !! y = Some ey → h !! x = Some ex →
  chain (<[y := DictEntry (key ey) (val ey) (next ex)]> h) p (pre ++ y :: post).
Proof.
  revert p. induction pre as [|z pre IH]; intros p; simpl.
  - intros (-> & Hn & e & He & Hnx & Hx & e' & He' & Hc) Hd Hy Hx'.
    rewrite Hy in He. injection He as <-. rewrite Hx' in He'. injection He' as <-.
    apply NoDup_cons in Hd as [Hy1 Hd]. apply NoDup_cons in Hd as [Hx1 Hd].
    split_and!; [done..|]. exists (DictEntry (key ey) (val ey) (next ex)).
    rewrite lookup_insert_eq. split; [done|]. eapply chain_agree; [|exact Hc].
    intros u Hu. rewrite lookup_insert_ne; [done|]. set_solver.
  - intros (-> & Hn & e & He & Hc) Hd Hy Hx. apply NoDup_cons in Hd as [Hz Hd].
    split_and!; [done..|]. exists e. rewrite lookup_insert_ne by set_solver.
    split; [done|]. by eapply IH.
Qed.

Lemma home_agree ty h h' mask j x : h' !! x = h !! x → home ty h mask j x → home ty h' mask j x.
Proof. intros E (e & He & Hh). exists e. by rewrite E. Qed.

Section table_lemmas.
Context (ty : dictType).

(** * Tables *)

Lemma mask_ones ht k v : alloc_shape ht k → Z.land v (sizemask ht) = v mod 2 ^ k.
Proof.
  intros [_ Hk _ _ ->]. rewrite <- Z.land_ones by lia. f_equal. rewrite Z.ones_equiv. lia.
Qed.

(** A hash value selects a bucket of an allocated table. *)
Lemma bucket_at h ht ls k v :
  ht_rep ty h ht ls → alloc_shape ht k →
  ∃ j p l, Z.land v (sizemask ht) = Z.of_nat j ∧ cells ht !! j = Some p ∧ ls !! j = Some l ∧
    chain h p l ∧ Forall (home ty h (sizemask ht) j) l.
Proof.
  intros Hr Hs. pose proof Hs as [_ Hk _ Hc _].
  pose proof (Z.mod_pos_bound v (2 ^ k) ltac:(lia)) as Hb.
  exists (Z.to_nat (v mod 2 ^ k)).
  destruct (lookup_lt_is_Some_2 (cells ht) (Z.to_nat (v mod 2 ^ k))) as [p Hp]; [zl|].
  destruct (lookup_lt_is_Some_2 ls (Z.to_nat (v mod 2 ^ k))) as [l Hl].
  { rewrite <- (rep_length ty _ _ _ Hr). zl. }
  exists p, l. rewrite (mask_ones _ k), Z2Nat.id by (done || lia). split; [done|].
  pose proof (rep_bucket ty _ _ _ Hr _ p l Hp Hl). naive_solver.
Qed.

Lemma ht_rep_reset h : ht_rep ty h _dictReset [].
Proof. by split. Qed.

Lemma ht_rep_agree h h' ht ls :
  (∀ x, x ∈ concat ls → h' !! x = h !! x) → ht_rep ty h ht ls → ht_rep ty h' ht ls.
Proof.
  intros Hx [Hl Hb Hu]. split; [done| |done].
  intros j p l Hp Hj. destruct (Hb j p l Hp Hj) as [Hc Hh].
  assert (∀ x, x ∈ l → h' !! x = h !! x) as Hx' by (intros; by eapply Hx, elem_of_bucket).
  split; [by eapply chain_agree|].
  rewrite Forall_forall in Hh |- *. intros x Hxl. eapply home_agree; [by apply Hx'|by apply Hh].
Qed.

(** Changing values keeps the tables. *)
Lemma ht_rep_links h h' ht ls :
  (∀ x, (λ e, (key e, next e)) <$> h' !! x = (λ e, (key e, next e)) <$> h !! x) →
  ht_rep ty h ht ls → ht_rep ty h' ht ls.
Proof.
  intros Hx [Hl Hb Hu]. split; [done| |done].
  intros j p l Hp Hj. destruct (Hb j p l Hp Hj) as [Hc Hh]. split.
  - eapply chain_links; [|done]. intros x _. specialize (Hx x).
    destruct (h' !! x), (h !! x); simpl in *; congruence.
  - eapply Forall_impl; [done|]. intros x (e & He & Eh). specialize (Hx x). rewrite He in Hx.
    apply fmap_Some in Hx as (e' & He' & [= Ek En]). exists e'. by rewrite <- Ek.
Qed.

(** Replace one bucket; the entries outside the bucket are untouched. *)
Lemma ht_rep_update h h' ht ls j l p' l' u :
  ht_rep ty h ht ls → ls !! j = Some l → NoDup (concat ls) →
  (∀ x, x ∈ concat ls → x ∉ l → h' !! x = h !! x) →
  chain h' p' l' → Forall (home ty h' (sizemask ht) j) l' →
  u = zlen (concat ls) + zlen l' - zlen l →
  ht_rep ty h' (Dictht (table ht) (<[j := p']> (cells ht)) (size ht) (sizemask ht) u) (<[j := l']> ls).
Proof.
  intros [Hl Hb Hu] Hj Hd Hx Hc Hh ->.
  destruct (concat_insert ls j l Hj) as (rest & Hp & Hi).
  split; cbn [cells sizemask used].
  - by rewrite !length_insert.
  - intros i p k Hp' Hk. destruct (decide (i = j)) as [->|Hij].
    + apply lookup_lt_Some in Hj as ?. rewrite list_lookup_insert_eq in Hp' by lia.
      rewrite list_lookup_insert_eq in Hk by lia. by simplify_eq.
    + rewrite list_lookup_insert_ne in Hp' by done. rewrite list_lookup_insert_ne in Hk by done. destruct (Hb i p k Hp' Hk) as [Hck Hhk].
      assert (∀ x, x ∈ k → h' !! x = h !! x) as Hx'.
      { intros x Hxk. apply Hx; [by eapply elem_of_bucket|]. intros Hxl.
        rewrite Hp in Hd. destruct (concat_insert (<[j := []]> ls) i k) as (rest' & Hp2 & _).
        { by rewrite list_lookup_insert_ne. }
        rewrite Hi in Hp2. apply NoDup_app in Hd as (_ & Hd & _). apply (Hd x Hxl).
        cbn [app] in Hp2. rewrite Hp2. set_solver. }
      split; [by eapply chain_agree|]. rewrite Forall_forall in Hhk |- *.
      intros x Hxk. eapply home_agree; [by apply Hx'|by apply Hhk].
  - unfold zlen. rewrite Hi, Hp, !length_app. lia.
Qed.

(** Link an entry in front of its bucket. *)
Lemma ht_rep_push h ht ls k x j p l kk v :
  ht_rep ty h ht ls → alloc_shape ht k → NoDup (concat ls) → x ∉ concat ls → x ≠ 0 →
  Z.land (hashFunction ty kk) (sizemask ht) = Z.of_nat j →
  cells ht !! j = Some p → ls !! j = Some l → zlen (concat ls) + 1 < 2 ^ 64 →
  ht_rep ty (<[x := DictEntry kk v p]> h)
    (Dictht (table ht) (<[j := x]> (cells ht)) (size ht) (sizemask ht) (u64 (used ht + 1)))
    (<[j := x :: l]> ls).
Proof.
  intros Hr Hs Hd Hx H0 Hj Hp Hl Hb. destruct (rep_bucket ty _ _ _ Hr j p l Hp Hl) as [Hc Hh].
  assert (∀ y, y ∈ concat ls → <[x := DictEntry kk v p]> h !! y = h !! y) as Hy.
  { intros y Hy. rewrite lookup_insert_ne; [done|]. set_solver. }
  assert (∀ y, y ∈ l → <[x := DictEntry kk v p]> h !! y = h !! y) as Hyl.
  { intros y Hyl. by eapply Hy, elem_of_bucket. }
  eapply ht_rep_update; [done..|by intros; apply Hy| | |].
  - simpl. split_and!; [done..|]. eexists. rewrite lookup_insert_eq. split; [done|].
    by eapply chain_agree.
  - constructor.
    + eexists. by rewrite lookup_insert_eq.
    + rewrite Forall_forall in Hh |- *. intros y Hy'. eapply home_agree; [by apply Hyl|by apply Hh].
  - rewrite (rep_used ty _ _ _ Hr). rewrite wrapu_id; zlr; pose proof (zlen_nonneg (concat ls)); lia.
Qed.

End table_lemmas.

Section item_lemmas.
Context {K : Type} `{Countable K} (content : Z → K).

Lemma item_insert_same h x e kk v n :
  h !! x = Some e → key e = kk → val e = v →
  ∀ y, item_of content (<[x := DictEntry kk v n]> h) y = item_of content h y.
Proof.
  intros He <- <- y. unfold item_of. destruct (decide (x = y)) as [->|Hxy].
  - by rewrite lookup_insert_eq, He.
  - by rewrite lookup_insert_ne.
Qed.

End item_lemmas.

(** * Dictionaries *)

Lemma wf_nodup ty d ls0 ls1 U : dict_wf ty d ls0 ls1 U → NoDup (concat ls0 ++ concat ls1).
Proof.
  intros [_ _ _ Ho]. assert (NoDup ((concat ls0 ++ concat ls1) ++ elements U)) as Hd.
  { rewrite <- Ho. apply NoDup_elements. }
  by apply NoDup_app in Hd as [Hd _].
Qed.

(** A chain of the dictionary is no longer than the heap. *)
Lemma wf_heap ty d ls0 ls1 U l :
  dict_wf ty d ls0 ls1 U → l ⊆+ concat ls0 ++ concat ls1 → (length l <= base.size (heap d))%nat.
Proof.
  intros [_ _ _ Ho] Hl. apply submseteq_length in Hl. apply Permutation_length in Ho.
  rewrite length_app in Ho. rewrite <- size_dom. unfold base.size, set_size. simpl. lia.
Qed.

Lemma bucket_submseteq ls j (l : list Z) : ls !! j = Some l → l ⊆+ concat ls.
Proof.
  intros Hj. destruct (concat_insert ls j l Hj) as (rest & -> & _). by apply submseteq_inserts_r.
Qed.

Lemma wf_bucket ty d ls0 ls1 U t j l :
  dict_wf ty d ls0 ls1 U → (if t =? 0 then ls0 else ls1) !! j = Some l →
  (length l <= base.size (heap d))%nat.
Proof.
  intros Hw Hj. eapply wf_heap; [done|]. apply bucket_submseteq in Hj.
  destruct (t =? 0); [by apply submseteq_inserts_r|by apply submseteq_inserts_l].
Qed.
End DictRep.
