(* ===== verification/DictRehash.v ===== *)
(** Incremental rehashing (component [Dict]): moving a bucket, skipping empty
    buckets, and [dictRehash] as a whole keep the represented map. *)
From stdpp Require Import gmap.
From S2P Require Import Prelude Dict DictRep.

Module DictRehash.
Import Dict DictRep.

Lemma alloc_shape_cells ht k c u :
  alloc_shape ht k → length c = length (cells ht) →
  alloc_shape (Dictht (table ht) c (size ht) (sizemask ht) u) k.
Proof. intros [? ? ? Hc ?] Hl. split; cbn; [done..| |done]. unfold zlen in *. by rewrite Hl. Qed.

Section skip.
Context (ty : dictType).

Lemma rehash_phase d ls0 ls1 U :
  dict_wf ty d ls0 ls1 U → dictIsRehashing d = true →
  0 <= rehashidx d <= size (ht0 d) ∧ (∃ k, alloc_shape (ht0 d) k) ∧ (∃ k, alloc_shape (ht1 d) k) ∧
  ∀ j, Z.of_nat j < rehashidx d → ls0 !! j = Some [].
Proof. intros [_ _ Hp _] Hr. unfold dictIsRehashing in Hr. destruct Hp as [[? _]|Hp]; [lia|done]. Qed.

(** The bucket at [rehashidx]. *)
Lemma current_bucket d ls0 ls1 U :
  dict_wf ty d ls0 ls1 U → dictIsRehashing d = true → rehashidx d < size (ht0 d) →
  ∃ p l, cells (ht0 d) !! Z.to_nat (rehashidx d) = Some p ∧ ls0 !! Z.to_nat (rehashidx d) = Some l ∧
    rd (cells (ht0 d)) (rehashidx d) = Ret p ∧ chain (heap d) p l.
Proof.
  intros Hw Hr Hi. destruct (rehash_phase _ _ _ _ Hw Hr) as (Hi' & [k [_ _ Es Ec _]] & _).
  pose proof (wf_ht0 _ _ _ _ _ Hw) as H0.
  destruct (lookup_lt_is_Some_2 (cells (ht0 d)) (Z.to_nat (rehashidx d))) as [p Hp]; [unfold zlen in Ec; lia|].
  destruct (lookup_lt_is_Some_2 ls0 (Z.to_nat (rehashidx d))) as [l Hl].
  { rewrite <- (rep_length _ _ _ _ H0). by eapply lookup_lt_Some. }
  exists p, l. split_and!; [done..| |by eapply rep_bucket].
  rewrite <- (Z2Nat.id (rehashidx d)) by lia. by apply rd_lookup.
Qed.

Lemma set_rehashidx_wf d i ls0 ls1 U :
  dict_wf ty d ls0 ls1 U → dictIsRehashing d = true → 0 <= i <= size (ht0 d) →
  (∀ j, Z.of_nat j < i → ls0 !! j = Some []) → dict_wf ty (set_rehashidx d i) ls0 ls1 U.
Proof.
  intros Hw Hr Hi He. destruct (rehash_phase _ _ _ _ Hw Hr) as (_ & Hk0 & Hk1 & _).
  destruct Hw as [H0 H1 _ Ho]. split; [done..| |done]. right. done.
Qed.

(** There is an entry left in the first table, at or after [rehashidx]. *)
Lemma bucket_left d ls0 ls1 U :
  dict_wf ty d ls0 ls1 U → dictIsRehashing d = true → used (ht0 d) ≠ 0 →
  ∃ j l, ls0 !! j = Some l ∧ l ≠ [] ∧ rehashidx d <= Z.of_nat j < size (ht0 d).
Proof.
  intros Hw Hr Hu. destruct (rehash_phase _ _ _ _ Hw Hr) as (Hi & [k Hk] & _ & He).
  pose proof (wf_ht0 _ _ _ _ _ Hw) as H0.
  rewrite (rep_used _ _ _ _ H0) in Hu.
  destruct (concat ls0) as [|x c] eqn:Ec; [done|].
  destruct (elem_of_concat ls0 x) as (j & l & Hj & Hx); [rewrite Ec; set_solver|].
  exists j, l. split_and!; [done|intros ->; by apply elem_of_nil in Hx| |].
  - destruct (decide (Z.of_nat j < rehashidx d)) as [Hlt|]; [|lia].
    rewrite (He j Hlt) in Hj. simplify_eq. by apply elem_of_nil in Hx.
  - apply lookup_lt_Some in Hj. rewrite <- (rep_length _ _ _ _ H0) in Hj.
    destruct Hk as [_ _ -> Hc _]. zl.
Qed.

Lemma skip_empty_spec fuel d ev ls0 ls1 U j l :
  dict_wf ty d ls0 ls1 U → dictIsRehashing d = true → 1 <= ev →
  ls0 !! j = Some l → l ≠ [] → rehashidx d <= Z.of_nat j < size (ht0 d) →
  Z.of_nat j - rehashidx d < Z.of_nat fuel →
  ∃ i ev' stop, skip_empty fuel d ev = Ret (set_rehashidx d i, ev', stop) ∧
    dict_wf ty (set_rehashidx d i) ls0 ls1 U ∧ rehashidx d <= i < size (ht0 d) ∧
    ev' = ev - (i - rehashidx d) ∧
    (if stop : bool then ev' = 0 else 1 <= ev' ∧ rd (cells (ht0 d)) i ≠ Ret 0).
Proof.
  revert d ev. induction fuel as [|fuel IH]; intros d ev Hw Hr Hev Hj Hl Hij Hf; [lia|].
  destruct (rehash_phase _ _ _ _ Hw Hr) as (Hi & _ & _ & He).
  destruct (current_bucket _ _ _ _ Hw Hr) as (p & b & Hp & Hb & Hrd & Hc); [lia|].
  unfold dictIsRehashing in Hr. cbn [skip_empty].
  rewrite Hrd. run. destruct (Z.eqb_spec p 0) as [Hp0|Hp0].
  - apply (chain_zero _ _ _ Hc) in Hp0 as ->.
    assert (rehashidx d < Z.of_nat j) as Hlt.
    { destruct (decide (Z.to_nat (rehashidx d) = j)) as [Ej|]; [|lia]. subst j. by simplify_eq. }
    assert (dict_wf ty (set_rehashidx d (rehashidx d + 1)) ls0 ls1 U) as Hw'.
    { apply set_rehashidx_wf; [done|unfold dictIsRehashing; lia|lia|]. intros i Hi'.
      destruct (decide (Z.of_nat i < rehashidx d)) as [|]; [by apply He|].
      by replace i with (Z.to_nat (rehashidx d)) by lia. }
    destruct (Z.eqb_spec (ev - 1) 0) as [Hz|Hz].
    + exists (rehashidx d + 1), (ev - 1), true. split_and!; [done|done|lia..].
    + destruct (IH (set_rehashidx d (rehashidx d + 1)) (ev - 1)) as (i & ev' & stop & E & Hwi & Hi' & Hev' & Hs);
        cbn [set_rehashidx rehashidx ht0] in *; try done; try lia.
      { unfold dictIsRehashing; cbn; lia. }
      exists i, ev', stop. split_and!; [done|done|lia|lia|lia|done].
  - exists (rehashidx d), ev, false. split_and!; try lia.
    + by destruct d.
    + by destruct d.
    + rewrite Hrd. congruence.
Qed.

End skip.

Section rehash.
Context (ty : dictType) {K : Type} `{Countable K} (content : Z → K).

(** The bucket at [de] goes to the second table; only the links of its entries
    change. *)
Lemma move_bucket_spec fuel h0 h1 i pz h de l ls1 k :
  chain h de l → NoDup (l ++ concat ls1) → ht_rep ty h h1 ls1 → alloc_shape h1 k →
  zlen l <= used h0 < 2 ^ 64 → zlen l + zlen (concat ls1) < 2 ^ 64 → (length l < fuel)%nat →
  ∃ h' h1' ls1',
    move_bucket ty fuel (Dict h0 h1 i pz h) de = Ret (Dict (set_used h0 (used h0 - zlen l)) h1' i pz h') ∧
    ht_rep ty h' h1' ls1' ∧ alloc_shape h1' k ∧ concat ls1' ≡ₚ l ++ concat ls1 ∧
    dom h' = dom h ∧ (∀ x, x ∉ l → h' !! x = h !! x) ∧
    (∀ x, item_of content h' x = item_of content h x).
Proof.
  revert fuel h0 h1 h de ls1.
  induction l as [|x l IH]; intros [|fuel] h0 h1 h de ls1 Hc Hd Hr Hs Hu Hb Hf; try (simpl in Hf; lia).
  - simpl in Hc. subst de. exists h, h1, ls1. split_and!; [|done..].
    cbn. zlr. rewrite Z.sub_0_r. by destruct h0.
  - simpl in Hc. destruct Hc as (-> & H0 & e & He & Hc).
    cbn [app] in Hd. apply NoDup_cons in Hd as [Hx Hd]. apply not_elem_of_app in Hx as [Hx Hx1].
    apply NoDup_app in Hd as (Hdl & Hdx & Hd1).
    destruct (bucket_at ty h h1 ls1 k (hashFunction ty (key e)) Hr Hs) as (j & p & b & Ej & Hp & Hb' & _ & _).
    cbn [move_bucket]. test (x =? 0) false. cbn [heap]. rewrite (deref_ok _ _ _ He). run.
    cbn [ht0 ht1 heap set_heap set_ht0 set_ht1]. rewrite Ej, (rd_lookup _ _ _ Hp). run.
    cbn [ht1 cells]. rewrite wrn_insert by (by eapply lookup_lt_Some). run.
    zlr. pose proof (zlen_nonneg l).
    destruct (concat_insert ls1 j b Hb') as (rest & Hpm & Hi).
    pose proof (ht_rep_push ty h h1 ls1 k x j p b (key e) (val e) Hr Hs Hd1 Hx1 H0 Ej Hp Hb' ltac:(lia)) as Hr'.
    assert (concat (<[j := x :: b]> ls1) ≡ₚ x :: concat ls1) as Hp' by (rewrite Hi, Hpm; done).
    destruct (IH fuel (set_used h0 (u64 (used h0 - 1)))
      (Dictht (table h1) (<[j := x]> (cells h1)) (size h1) (sizemask h1) (u64 (used h1 + 1)))
      (<[x := DictEntry (key e) (val e) p]> h) (next e) (<[j := x :: b]> ls1))
      as (h' & h1' & ls1' & E & Hr2 & Hs2 & Hp2 & Hdom & Hout & Hit).
    + eapply chain_agree; [|exact Hc]. intros y Hy. rewrite lookup_insert_ne; [done|set_solver].
    + rewrite Hp'. apply NoDup_app. split; [done|]. split; [|apply NoDup_cons; done].
      intros y Hy. specialize (Hdx y Hy). set_solver.
    + done.
    + apply alloc_shape_cells; [done|by rewrite length_insert].
    + cbn [used set_used]. rewrite wrapu_id by lia. lia.
    + unfold zlen. rewrite Hp'. unfold zlen in *. cbn [length]. lia.
    + simpl in Hf. lia.
    + exists h', h1', ls1'. split_and!; [|done|done| | | |].
      * etransitivity; [exact E|]. unfold set_used. cbn [table cells size sizemask used].
        rewrite wrapu_id by lia. do 3 f_equal. lia.
      * rewrite Hp2, Hp'. symmetry. apply Permutation_middle.
      * rewrite Hdom, dom_insert_L. apply elem_of_dom_2 in He. set_solver.
      * intros y Hy. rewrite Hout by set_solver. rewrite lookup_insert_ne; [done|set_solver].
      * intros y. rewrite Hit. by eapply item_insert_same.
Qed.

Lemma rep_total d m U ls0 ls1 :
  dict_wf ty d ls0 ls1 U → map_to_list m ≡ₚ item_of content (heap d) <$> (concat ls0 ++ concat ls1) →
  zlen (concat ls0) + zlen (concat ls1) = Z.of_nat (base.size m).
Proof.
  intros _ Hm. apply Permutation_length in Hm. rewrite length_fmap, length_app in Hm.
  rewrite <- length_map_to_list, Hm. unfold zlen. lia.
Qed.

(** The buckets keep their entries, perhaps in other tables. *)
Lemma rep_moved d d' m U ls0 ls1 ls0' ls1' :
  map_to_list m ≡ₚ item_of content (heap d) <$> (concat ls0 ++ concat ls1) →
  Z.of_nat (base.size m) <= 2 ^ 60 → dict_wf ty d' ls0' ls1' U →
  concat ls0' ++ concat ls1' ≡ₚ concat ls0 ++ concat ls1 →
  (∀ x, item_of content (heap d') x = item_of content (heap d) x) →
  dict_rep ty content d' m U.
Proof.
  intros Hm Hs Hw Hp Hit. exists ls0', ls1'. split_and!; [done| |done].
  rewrite Hm. rewrite (list_fmap_ext _ _ _ (λ i x _, eq_sym (Hit x))). by rewrite Hp.
Qed.

(** One round of the loop of [dictRehash], after the empty buckets. *)
Lemma rehash_bucket d m U :
  dict_rep ty content d m U → dictIsRehashing d = true → rehashidx d < size (ht0 d) →
  ∃ p d1 c d', rd (cells (ht0 d)) (rehashidx d) = Ret p ∧
    move_bucket ty (S (base.size (heap d))) d p = Ret d1 ∧
    wrn (cells (ht0 d1)) (rehashidx d1) [0] = Ret c ∧
    d' = set_rehashidx (set_ht0 d1 (set_cells (ht0 d1) c)) (rehashidx d1 + 1) ∧
    dict_rep ty content d' m U ∧ rehashidx d' = rehashidx d + 1 ∧ same_shape d d'.
Proof.
  intros (ls0 & ls1 & Hw & Hm & Hsz) Hr Hi. pose proof (rep_total _ _ _ _ _ Hw Hm) as Ht.
  pose proof (wf_nodup _ _ _ _ _ Hw) as Hd. pose proof Hw as [H0 H1 _ Ho].
  destruct (rehash_phase _ _ _ _ _ Hw Hr) as (Hi' & [k Hk] & [k1 Hk1] & He).
  destruct (current_bucket _ _ _ _ _ Hw Hr Hi) as (p & l & Hp & Hl & Hrd & Hc).
  destruct (concat_insert _ _ _ Hl) as (rest & Hpm & Hins).
  pose proof (wf_bucket _ _ _ _ _ 0 _ _ Hw Hl) as Hlen.
  pose proof (Permutation_length Hpm) as Hpl. rewrite length_app in Hpl.
  apply NoDup_app in Hd as (Hd0 & Hdx & Hd1).
  destruct d as [h0 h1 i pz h]. cbn [ht0 ht1 rehashidx pauserehash heap] in *.
  destruct (move_bucket_spec (S (base.size h)) h0 h1 i pz h p l ls1 k1)
    as (h' & h1' & ls1' & E & Hr' & Hs' & Hp' & Hdom & Hout & Hit); [done| |done|done| | |lia|].
  { apply NoDup_app. rewrite Hpm in Hd0. apply NoDup_app in Hd0 as [Hdl _].
    split_and!; [done| |done]. intros x Hx. apply Hdx. by eapply elem_of_bucket. }
  { rewrite (rep_used _ _ _ _ H0). unfold zlen in *. lia. }
  { unfold zlen in *. lia. }
  eexists p, _, _, _. split; [done|]. split; [exact E|]. cbn [ht0 rehashidx set_used cells].
  rewrite <- (Z2Nat.id i) at 1 by lia. split; [apply wrn_insert; by eapply lookup_lt_Some|].
  split; [done|]. cbn [set_ht0 set_rehashidx ht0 ht1 set_used set_cells].
  split; [|split; [done|]].
  2:{ unfold same_shape. cbn. by rewrite (shape_size _ _ Hs'), (shape_size _ _ Hk1). }
  assert (concat (<[Z.to_nat i := []]> ls0) ++ concat ls1' ≡ₚ concat ls0 ++ concat ls1) as Hall.
  { rewrite Hins, Hp', Hpm. cbn [app]. by rewrite !app_assoc, (Permutation_app_comm rest l). }
  eapply (rep_moved (Dict h0 h1 i pz h)); [exact Hm|done| |exact Hall|exact Hit].
  split; cbn [heap ht0 ht1 table cells size sizemask used].
  - eapply (ht_rep_update ty h h' h0 ls0 _ l); [done..| |done|done|].
    + intros x _ Hx. by apply Hout.
    + cbn [set_used used]. rewrite (rep_used _ _ _ _ H0). change (zlen (@nil Z)) with 0. lia.
  - done.
  - right. cbn. split_and!; [lia|lia| |by exists k1|].
    + exists k. apply (alloc_shape_cells h0); [done|by rewrite length_insert].
    + intros j Hj. destruct (decide (j = Z.to_nat i)) as [->|].
      * apply list_lookup_insert_eq. by eapply lookup_lt_Some.
      * rewrite list_lookup_insert_ne by done. apply He. lia.
  - change (elements (dom h') ≡ₚ (concat (<[Z.to_nat i := []]> ls0) ++ concat ls1') ++ elements U). by rewrite Hdom, Hall.
Qed.

Lemma set_rehashidx_rep d i m U ls0 ls1 :
  dict_rep ty content d m U → dict_wf ty d ls0 ls1 U →
  map_to_list m ≡ₚ item_of content (heap d) <$> (concat ls0 ++ concat ls1) →
  dict_wf ty (set_rehashidx d i) ls0 ls1 U → dict_rep ty content (set_rehashidx d i) m U.
Proof. intros (_ & _ & _ & _ & Hsz) _ Hm Hw. by exists ls0, ls1. Qed.

Lemma same_shape_trans d d1 d2 : same_shape d d1 → same_shape d1 d2 → same_shape d d2.
Proof. unfold same_shape. intuition congruence. Qed.

Lemma rehash_loop_spec n d ev m U :
  dict_rep ty content d m U → dictIsRehashing d = true → 1 <= ev →
  ∃ d' stop, rehash_loop ty n d ev = Ret (d', stop) ∧ dict_rep ty content d' m U ∧
    dictIsRehashing d' = true ∧ same_shape d d' ∧
    rehashidx d <= rehashidx d' <= rehashidx d + Z.of_nat n + ev ∧
    (used (ht0 d) ≠ 0 → (0 < n)%nat → rehashidx d < rehashidx d').
Proof.
  revert d ev. induction n as [|n IH]; intros d ev Hd Hr Hev.
  { exists d, false. split_and!; [done..|lia|lia|lia]. }
  cbn [rehash_loop]. destruct (Z.eqb_spec (used (ht0 d)) 0) as [Hu|Hu].
  { exists d, false. split_and!; [done..|lia|lia|lia]. }
  pose proof Hd as (ls0 & ls1 & Hw & Hm & Hsz).
  destruct (rehash_phase _ _ _ _ _ Hw Hr) as (Hi & [k [_ Hk Es Ec _]] & _).
  destruct (bucket_left _ _ _ _ _ Hw Hr Hu) as (j & l & Hj & Hl & Hij).
  pose proof (Z.pow_lt_mono_r 2 k 64 ltac:(lia) ltac:(lia) ltac:(lia)).
  rewrite c_assert_true by (rewrite wrapu_id; lia). run.
  destruct (skip_empty_spec ty (S (length (cells (ht0 d)))) d ev ls0 ls1 U j l)
    as (i & ev' & stop & -> & Hw' & Hi' & -> & Hs); [done..| |]; [unfold zlen in Ec; lia|]. run.
  assert (dictIsRehashing (set_rehashidx d i) = true) as Hr' by (unfold dictIsRehashing; cbn; lia).
  pose proof (set_rehashidx_rep _ i _ _ _ _ Hd Hw Hm Hw') as Hd'.
  destruct stop; cbn iota in Hs.
  { exists (set_rehashidx d i), true. split_and!; [done..|cbn; lia|cbn; lia|cbn; lia]. }
  destruct (rehash_bucket _ _ _ Hd' Hr') as (p & d1 & c & d' & E1 & E2 & E3 & -> & Hd1 & Hi1 & Hsh); [cbn; lia|].
  rewrite E1. run. rewrite E2. run. rewrite E3. run. cbn [set_rehashidx rehashidx] in Hi1.
  destruct (IH _ (ev - (i - rehashidx d)) Hd1) as (d2 & stop & E & Hd2 & Hr2 & Hsh2 & Hb2 & _); [|lia|].
  { unfold dictIsRehashing. cbn in *. lia. }
  exists d2, stop. split; [exact E|]. cbn in *. split_and!; [done|done| |lia|lia|lia].
  by eapply same_shape_trans.
Qed.

(** The second table takes the place of an empty first one. *)
Lemma rehash_done d m U :
  dict_rep ty content d m U → dictIsRehashing d = true → used (ht0 d) = 0 →
  dict_rep ty content (set_rehashidx (set_ht1 (set_ht0 d (ht1 d)) _dictReset) (-1)) m U.
Proof.
  intros (ls0 & ls1 & Hw & Hm & Hsz) Hr Hu.
  destruct (rehash_phase _ _ _ _ _ Hw Hr) as (_ & _ & Hk & _).
  pose proof Hw as [H0 H1 _ Ho]. rewrite (rep_used _ _ _ _ H0) in Hu. apply zlen_zero in Hu.
  rewrite Hu in Hm, Ho. exists ls1, []. unfold rep_with. cbn [concat]. rewrite app_nil_r. split_and!; [|done|done].
  split; cbn [ht0 ht1 heap set_rehashidx set_ht1 set_ht0].
  - done.
  - apply ht_rep_reset.
  - left. by split_and!; [..|right].
  - cbn [concat]. by rewrite app_nil_r.
Qed.

(** [dictRehash] keeps the map.  When it reports work left, it has moved on by
    at least one and at most [11 * n] buckets. *)
Lemma dictRehash_spec cr d n m U :
  dict_rep ty content d m U → (0 < n)%nat →
  ∃ d' r, dictRehash ty cr d n = Ret (d', r) ∧ dict_rep ty content d' m U ∧
    pauserehash d' = pauserehash d ∧
    ((r = 1 ∧ dictIsRehashing d' = true ∧ same_shape d d' ∧
      rehashidx d < rehashidx d' <= rehashidx d + 11 * Z.of_nat n) ∨
     (r = 0 ∧ dictIsRehashing d' = false) ∨
     (r = 0 ∧ d' = d ∧ cr ≠ DICT_RESIZE_ENABLE)).
Proof.
  intros Hd Hn. unfold dictRehash.
  destruct (dictIsRehashing d) eqn:Hr; cbn [negb]; rewrite ?orb_true_r, ?orb_false_r.
  2:{ exists d, 0. naive_solver. }
  case_bool_decide as Hf; [exists d, 0; naive_solver|].
  case_cond.
  { exists d, 0. to_prop. apply bool_decide_eq_true in H0. naive_solver. }
  clear Hc. destruct (Z.eqb_spec (used (ht0 d)) 0) as [Hz|Hz].
  { assert (rehash_loop ty n d (Z.of_nat n * 10) = Ret (d, false)) as ->.
    { destruct n; [lia|]. cbn [rehash_loop]. by rewrite Hz. }
    run. rewrite Hz. eexists _, 0. split_and!; [done|by apply rehash_done|done|]. right. left. done. }
  destruct (rehash_loop_spec n d (Z.of_nat n * 10) m U Hd Hr) as
    (d1 & stop & -> & Hd1 & Hr1 & Hsh & Hb & Hpr); [lia|]. run.
  assert (pauserehash d1 = pauserehash d) as Hps by (by destruct Hsh).
  destruct stop; [|destruct (Z.eqb_spec (used (ht0 d1)) 0)].
  - exists d1, 1. split_and!; [done..|]. left. specialize (Hpr Hz Hn). split_and!; [done..|lia|lia].
  - eexists _, 0. split_and!; [done|by apply rehash_done|done|]. right. left. done.
  - exists d1, 1. split_and!; [done..|]. left. specialize (Hpr Hz Hn). split_and!; [done..|lia|lia].
Qed.

End rehash.
End DictRehash.
