(* ===== verification/DictOps.v ===== *)
(** Resizing, lookup, insertion and deletion (component [Dict]) in terms of the
    represented map. *)
From stdpp Require Import gmap.
From S2P Require Import Prelude Dict DictRep DictRehash.

Module DictOps.
Import Dict DictRep DictRehash.

(** * Sizes *)

Lemma next_power_loop_spec fuel a sz :
  2 <= a <= 63 → (a = 2 ∨ 2 ^ (a - 1) < sz) → sz < 2 ^ 63 → 64 - a <= Z.of_nat fuel →
  ∃ k, next_power_loop fuel (2 ^ a) sz = Ret (2 ^ k) ∧ 2 <= k <= 63 ∧ sz <= 2 ^ k ∧
    (k = 2 ∨ 2 ^ (k - 1) < sz).
Proof.
  revert a. induction fuel as [|fuel IH]; intros a Ha Hm Hsz Hf; [lia|]. cbn [next_power_loop].
  case_cond; to_prop; [exists a; split_and!; (done || lia)|].
  assert (a < 63) as Ha'.
  { destruct (decide (a = 63)) as [->|]; lia. }
  assert (u64 (2 ^ a * 2) = 2 ^ (a + 1)) as ->.
  { rewrite Z.pow_add_r by lia. apply wrapu_id.
    pose proof (Z.pow_lt_mono_r 2 a 63 ltac:(lia) ltac:(lia) ltac:(lia)). lia. }
  apply IH; [lia| |done|lia]. right. by replace (a + 1 - 1) with a by lia.
Qed.

(** [_dictNextPower] is the least power of two, at least 4, that is not below
    its argument; beyond [LONG_MAX] it is [2 ^ 63]. *)
Lemma _dictNextPower_spec sz :
  0 <= sz < 2 ^ 64 →
  ∃ k, _dictNextPower sz = Ret (2 ^ k) ∧ 2 <= k <= 63 ∧ (sz <= 2 ^ 63 → sz <= 2 ^ k) ∧
    (k = 2 ∨ 2 ^ (k - 1) < sz).
Proof.
  intros Hsz. unfold _dictNextPower. case_cond; to_prop; unfold LONG_MAX in *.
  - exists 63. split_and!; [done|lia|lia|lia|lia].
  - destruct (next_power_loop_spec 64 2 sz) as (k & E & Hk & Hle & Hmin); [lia|lia|lia|lia|].
    exists k. split_and!; [exact E|lia|lia|lia|done].
Qed.

(** The test for overflow of the table's size in bytes. *)
Lemma bytes_overflow k : 2 <= k <= 63 → (u64 (2 ^ k * 8) <? 2 ^ k) = negb (k <=? 60).
Proof.
  intros Hk. change 8 with (2 ^ 3). rewrite <- Z.pow_add_r by lia.
  destruct (Z.leb_spec k 60) as [H60|H60]; cbn [negb].
  - pose proof (Z.pow_lt_mono_r 2 (k + 3) 64 ltac:(lia) ltac:(lia) ltac:(lia)).
    pose proof (Z.pow_lt_mono_r 2 k (k + 3) ltac:(lia) ltac:(lia) ltac:(lia)).
    rewrite wrapu_id by lia. lia.
  - replace (k + 3) with (64 + (k - 61)) by lia. unfold wrapu.
    rewrite Z.pow_add_r, Z.mul_comm, Z.mod_mul by lia. pose proof (Z.pow_pos_nonneg 2 k). lia.
Qed.

Lemma pow2_inj a b : 0 <= a → 0 <= b → 2 ^ a = 2 ^ b → a = b.
Proof. intros. by apply (Z.pow_inj_r 2). Qed.

(** * Items *)

Section items.
Context {K : Type} `{Countable K} {content : Z → K}.
Implicit Types m : gmap K item.

(** The items when a new entry joins those of the tables. *)
Lemma items_push h all m x kk v p :
  map_to_list m ≡ₚ item_of content h <$> all → x ∉ all → m !! content kk = None →
  map_to_list (<[content kk := Item x kk v]> m) ≡ₚ
    item_of content (<[x := DictEntry kk v p]> h) <$> (x :: all).
Proof.
  intros Hm Hx Hn. rewrite map_to_list_insert by done. cbn [fmap list_fmap].
  unfold item_of at 1. rewrite lookup_insert_eq. cbn [key val]. rewrite Hm. apply Permutation_skip.
  rewrite (list_fmap_ext (item_of content (<[x := DictEntry kk v p]> h)) (item_of content h)); [done|].
  intros i y Hy%list_elem_of_lookup_2. unfold item_of.
  rewrite lookup_insert_ne; [done|set_solver].
Qed.

(** The items when an entry leaves the list. *)
Lemma items_delete h all rest m x c it :
  map_to_list m ≡ₚ item_of content h <$> all → all ≡ₚ x :: rest → item_of content h x = (c, it) →
  m !! c = Some it ∧ map_to_list (delete c m) ≡ₚ item_of content h <$> rest.
Proof.
  intros Hm Hp Hx. rewrite Hp in Hm. cbn [fmap list_fmap] in Hm. rewrite Hx in Hm.
  assert (m !! c = Some it) as Hc by (rewrite <- elem_of_map_to_list, Hm; set_solver).
  split; [done|]. rewrite <- (map_to_list_delete m c it Hc) in Hm. by apply Permutation_cons_inv in Hm.
Qed.

End items.

Section resize.
Context {A : DictAlloc} {AL : DictAllocLaws A} {ty : dictType}.
Context {K : Type} `{Countable K} {content : Z → K}.
Implicit Types (d : dict) (m : gmap K item) (U : gset Z).
Abbreviation rep := (dict_rep ty content).

(** * Resizing *)

(** A new table of [2 ^ k] empty buckets. *)
Lemma new_table_rep h p k :
  2 <= k <= 60 →
  let n := Dictht (new_table p (2 ^ k)) (replicate (Z.to_nat (2 ^ k)) 0) (2 ^ k) (u64 (2 ^ k - 1)) 0 in
  alloc_shape n k ∧ ht_rep ty h n (replicate (Z.to_nat (2 ^ k)) []).
Proof.
  intros Hk n. pose proof (Z.pow_lt_mono_r 2 k 64 ltac:(lia) ltac:(lia) ltac:(lia)).
  pose proof (Z.pow_pos_nonneg 2 k ltac:(lia) ltac:(lia)). split; split; cbn.
  - apply new_table_fresh.
  - done.
  - done.
  - rewrite zlen_replicate. lia.
  - apply wrapu_id. lia.
  - by rewrite !length_replicate.
  - intros j q l [-> _]%lookup_replicate [-> _]%lookup_replicate. by split.
  - induction (Z.to_nat (2 ^ k)); [done|]. by cbn [replicate concat app].
Qed.

Lemma concat_replicate_nil n : concat (replicate n (@nil Z)) = [].
Proof. by induction n. Qed.

Lemma rep_install d m U k :
  rep d m U → dictIsRehashing d = false → 2 <= k <= 60 → 
  let n := Dictht (new_table (table (ht0 d)) (2 ^ k)) (replicate (Z.to_nat (2 ^ k)) 0) (2 ^ k)
             (u64 (2 ^ k - 1)) 0 in
  rep (if table (ht0 d) =? 0 then set_ht0 d n else set_rehashidx (set_ht1 d n) 0) m U.
Proof.
  intros (ls0 & ls1 & Hw & Hm & Hsz) Hr Hk n. unfold dictIsRehashing in Hr.
  destruct (new_table_rep (heap d) (table (ht0 d)) k Hk) as [Hs Hn]. fold n in Hs, Hn.
  destruct Hw as [H0 H1 Hp Ho].
  destruct Hp as [(Hi & E1 & Hp)|(? & ? & _)]; [|lia].
  assert (ls1 = []) as ->.
  { pose proof (rep_length _ _ _ _ H1) as Hl. rewrite E1 in Hl. by destruct ls1. }
  set (ls := replicate (Z.to_nat (2 ^ k)) []) in *. pose proof (concat_replicate_nil (Z.to_nat (2 ^ k))) as Hls.
  fold ls in Hls. case_cond; to_prop.
  - destruct Hp as [E0|[k0 Hk0]]; [|by destruct Hk0].
    assert (ls0 = []) as ->.
    { pose proof (rep_length _ _ _ _ H0) as Hl. rewrite E0 in Hl. by destruct ls0. }
    exists ls, []. unfold rep_with. rewrite Hls. split_and!; [|done|done]. split; cbn; [done|done| |by rewrite Hls].
    left. split_and!; [done..|]. right. eauto.
  - destruct Hp as [E0|[k0 Hk0]]; [by rewrite E0 in Hc|].
    exists ls0, ls. unfold rep_with. rewrite Hls. split_and!; [|done|done]. split; cbn; [done|done| |by rewrite Hls].
    right. cbn. destruct Hk0 as [? ? Es ? ?]. rewrite Es. split_and!; [lia|lia|by exists k0|by exists k|lia].
Qed.

(** The sizes [_dictExpand] accepts, [2 ^ k] being the size it rounds up to. *)
Lemma _dictExpand_spec d m U sz try :
  rep d m U → 0 <= sz < 2 ^ 64 →
  ∃ k, _dictNextPower sz = Ret (2 ^ k) ∧ 2 <= k <= 63 ∧ (k = 2 ∨ 2 ^ (k - 1) < sz) ∧
   ((dictIsRehashing d = false ∧ used (ht0 d) <= sz <= 2 ^ k ∧ k <= 60 ∧ size (ht0 d) ≠ 2 ^ k ∧
     (try = false ∨ calloc_ok (u64 (2 ^ k * 8)) = true) ∧
     ∃ d', _dictExpand d sz try = Ret (d', DICT_OK, false) ∧ rep d' m U ∧
       (∃ k', alloc_shape (ht0 d') k') ∧ pauserehash d' = pauserehash d ∧
       size (if table (ht0 d) =? 0 then ht0 d' else ht1 d') = 2 ^ k) ∨
    ((dictIsRehashing d = true ∨ sz < used (ht0 d) ∨ 60 < k ∨ size (ht0 d) = 2 ^ k ∨
      (try = true ∧ calloc_ok (u64 (2 ^ k * 8)) = false)) ∧
     ∃ f, _dictExpand d sz try = Ret (d, DICT_ERR, f))).
Proof.
  intros Hd Hsz. destruct (_dictNextPower_spec sz Hsz) as (k & Hk & Hk63 & Hle & Hmin).
  exists k. split_and!; [done|lia|lia|done|]. unfold _dictExpand. rewrite Hk.
  destruct (dictIsRehashing d) eqn:Hr; cbn [orb]; [right; eauto|].
  destruct (Z.ltb_spec sz (used (ht0 d))); [right; split; [auto|eauto]|]. run.
  rewrite bytes_overflow by done. destruct (Z.leb_spec k 60) as [H60|H60]; cbn [negb].
  2:{ rewrite orb_true_r. right. split; [auto|eauto]. }
  pose proof (Z.pow_le_mono_r 2 k 60 ltac:(lia) ltac:(lia)).
  assert (sz <= 2 ^ k) as Hszk.
  { destruct (decide (sz <= 2 ^ 63)); [auto|]. exfalso. revert Hk. unfold _dictNextPower, LONG_MAX.
    test (2 ^ 63 - 1 <=? sz) true. intros [= E]. change (2 ^ 63 = 2 ^ k) in E. apply pow2_inj in E; lia. }
  rewrite orb_false_r. test (2 ^ k <? sz) false.
  destruct (Z.eqb_spec (2 ^ k) (size (ht0 d))) as [E|E]; [right; split; [auto|eauto]|].
  destruct (try && negb (calloc_ok (u64 (2 ^ k * 8)))) eqn:Et.
  { right. to_prop. split; [auto 6|eauto]. }
  left. apply andb_false_iff in Et. rewrite negb_false_iff in Et.
  split_and!; try (done || lia).
  pose proof (rep_install d m U k Hd Hr ltac:(lia)) as Hi.
  pose proof (new_table_rep (heap d) (table (ht0 d)) k ltac:(lia)) as [Hs _].
  destruct (table (ht0 d) =? 0) eqn:Et0; eexists; (split; [done|]); (split; [exact Hi|]); (split; [|done]).
  - eauto.
  - destruct Hd as (ls0 & ls1 & [_ _ Hp _] & _). unfold dictIsRehashing in Hr. cbn.
    destruct Hp as [(_ & _ & [E0|Hp])|(? & _)]; [|done|lia]. rewrite E0 in Et0. done.
Qed.

Lemma rep_used_total d m U :
  rep d m U → 0 <= used (ht0 d) ∧ 0 <= used (ht1 d) ∧
    used (ht0 d) + used (ht1 d) = Z.of_nat (base.size m) ∧ Z.of_nat (base.size m) <= 2 ^ 60.
Proof.
  intros (ls0 & ls1 & Hw & Hm & Hsz). pose proof (rep_total _ _ _ _ _ _ _ Hw Hm) as Ht.
  pose proof Hw as [H0 H1 _ _]. rewrite (rep_used _ _ _ _ H0), (rep_used _ _ _ _ H1).
  pose proof (zlen_nonneg (concat ls0)). pose proof (zlen_nonneg (concat ls1)). lia.
Qed.

Lemma rep_alloc d m U :
  rep d m U → (dictIsRehashing d = false ∧ ht0 d = _dictReset) ∨ ∃ k, alloc_shape (ht0 d) k.
Proof.
  intros (ls0 & ls1 & [_ _ Hp _] & _). unfold dictIsRehashing.
  destruct Hp as [(-> & _ & [?|?])|(_ & ? & _)]; auto.
Qed.

Lemma dictSize_spec d m U : rep d m U → dictSize d = Z.of_nat (base.size m).
Proof. intros (? & ? & E & ?)%rep_used_total. unfold dictSize. rewrite E. apply wrapu_id. lia. Qed.

(** Growing before an insertion cannot fail. *)
Lemma _dictExpandIfNeeded_spec cr d m U :
  rep d m U → Z.of_nat (base.size m) < 2 ^ 60 →
  ∃ d', _dictExpandIfNeeded ty cr d = Ret (d', DICT_OK) ∧ rep d' m U ∧
    (∃ k, alloc_shape (ht0 d') k) ∧ pauserehash d' = pauserehash d.
Proof.
  intros Hd Hsz. pose proof (rep_used_total _ _ _ Hd) as (Hu0 & Hu1 & Hu & _).
  unfold _dictExpandIfNeeded. destruct (rep_alloc _ _ _ Hd) as [[Hr E0]|[k Hk]].
  - rewrite Hr, E0. cbn [size _dictReset Z.eqb].
    destruct (_dictExpand_spec d m U 4 false Hd ltac:(lia)) as (k & Hk & Hk63 & Hmin & Hx).
    assert (k = 2) as ->.
    { change (_dictNextPower 4) with (Ret (2 ^ 2)) in Hk. injection Hk as Hk. apply (pow2_inj 2 k) in Hk; lia. }
    destruct Hx as [(_ & _ & _ & _ & _ & d' & Hd' & Hr' & Hs' & Hp' & _)|[Hx _]].
    + exists d'. unfold dictExpand, DICT_HT_INITIAL_SIZE. by rewrite Hd'.
    + rewrite E0, Hr in Hx. cbn in Hx. intuition (congruence || lia).
  - destruct (dictIsRehashing d) eqn:Hr; [by exists d; eauto|].
    pose proof Hk as [_ Hk60 Es _ _]. pose proof (Z.pow_pos_nonneg 2 k ltac:(lia) ltac:(lia)).
    test (size (ht0 d) =? 0) false.
    assert (u64 (used (ht0 d) + 1) = used (ht0 d) + 1) as Eu by (apply wrapu_id; lia).
    destruct (_dictExpand_spec d m U (used (ht0 d) + 1) false Hd ltac:(lia)) as (k' & Hk' & Hk63 & Hmin & Hx).
    assert (∃ b, dictTypeExpandAllowed ty d = Ret b) as [b ->].
    { unfold dictTypeExpandAllowed. rewrite Eu, Hk'. destruct (expandAllowed ty); eauto. }
    run. destruct b; cbn [negb]; [|by exists d; eauto].
    case_cond; [|by exists d; eauto].
    assert (size (ht0 d) <= used (ht0 d)) as Hle.
    { pose proof (Z.div_le_upper_bound (used (ht0 d)) (size (ht0 d)) 5).
      unfold dict_force_resize_ratio in Hc. lia. }
    rewrite Eu. destruct Hx as [(_ & _ & _ & _ & _ & d' & Hd' & Hr' & Hs' & Hp' & _)|[Hx _]].
    + exists d'. unfold dictExpand. by rewrite Hd'.
    + exfalso. assert (k' <= 60) as Hk'60.
      { destruct Hmin as [->|Hmin]; [lia|]. assert (2 ^ (k' - 1) < 2 ^ 60) as Hlt by lia.
        apply Z.pow_lt_mono_r_iff in Hlt; lia. }
      destruct (_dictNextPower_spec (used (ht0 d) + 1)) as (k2 & Hk2 & _ & Hle2 & _); [lia|].
      rewrite Hk2 in Hk'. injection Hk' as Ek. intuition (congruence || lia).
Qed.

End resize.

Section lookup.
Context {ty : dictType}.
Context {K : Type} `{Countable K} {content : Z → K} {TL : DictTypeLaws ty content}.
Implicit Types (d : dict) (m : gmap K item) (U : gset Z).
Abbreviation rep := (dict_rep ty content).

(** * Lookup *)

(** The entries of the tables are the items of the map. *)
Lemma rep_item d m U ls0 ls1 c it :
  dict_wf ty d ls0 ls1 U → map_to_list m ≡ₚ item_of content (heap d) <$> (concat ls0 ++ concat ls1) →
  m !! c = Some it ↔ ∃ x, x ∈ concat ls0 ++ concat ls1 ∧ item_of content (heap d) x = (c, it).
Proof.
  intros _ Hm. rewrite <- elem_of_map_to_list, Hm, list_elem_of_fmap. naive_solver.
Qed.

Lemma wf_entry d ls0 ls1 U x :
  dict_wf ty d ls0 ls1 U → x ∈ concat ls0 ++ concat ls1 → x ≠ 0 ∧ ∃ e, heap d !! x = Some e.
Proof.
  intros [H0 H1 _ _]. rewrite elem_of_app.
  assert (∀ ht ls, ht_rep ty (heap d) ht ls → x ∈ concat ls → x ≠ 0 ∧ is_Some (heap d !! x)) as Hx.
  { intros ht ls Hr (j & l & Hj & Hl)%elem_of_concat.
    destruct (lookup_lt_is_Some_2 (cells ht) j) as [p Hp].
    { rewrite (rep_length _ _ _ _ Hr). by eapply lookup_lt_Some. }
    destruct (rep_bucket _ _ _ _ Hr j p l Hp Hj) as [Hc _]. by eapply chain_lookup. }
  intros [Hx'|Hx']; [exact (Hx _ _ H0 Hx')|exact (Hx _ _ H1 Hx')].
Qed.

(** The entry of an item. *)
Lemma rep_entry d m U c it :
  rep d m U → m !! c = Some it →
  addr it ≠ 0 ∧ content (ikey it) = c ∧
  ∃ n, heap d !! addr it = Some (DictEntry (ikey it) (ival it) n).
Proof.
  intros (ls0 & ls1 & Hw & Hm & _) Hc. eapply rep_item in Hc as (x & Hx & E); [|done..].
  destruct (wf_entry _ _ _ _ _ Hw Hx) as [H0 [e He]]. unfold item_of in E. rewrite He in E.
  injection E as <- <-. cbn. split_and!; [done..|]. exists (next e). by destruct e.
Qed.

Lemma chain_find_spec fuel h k p l :
  chain h p l → (length l < fuel)%nat →
  ∃ r, chain_find ty fuel h k p = Ret r ∧
    ((r = 0 ∧ ∀ x, x ∈ l → (item_of content h x).1 ≠ content k) ∨
     (r ≠ 0 ∧ r ∈ l ∧ (item_of content h r).1 = content k)).
Proof.
  revert p fuel. induction l as [|x l IH]; intros p [|fuel] Hc Hf; try (simpl in Hf; lia).
  - simpl in Hc. subst p. exists 0. split; [done|]. left. set_solver.
  - simpl in Hc. destruct Hc as (-> & H0 & e & He & Hc). cbn [chain_find]. test (x =? 0) false.
    rewrite (deref_ok _ _ _ He). run. rewrite same_key_content.
    assert ((item_of content h x).1 = content (key e)) as Ei by (unfold item_of; by rewrite He).
    case_bool_decide as Ek.
    + exists x. split; [done|]. right. split_and!; [done|set_solver|congruence].
    + destruct (IH (next e) fuel Hc) as (r & -> & [[-> Hn]|(Hr & Hrl & Hk)]); [simpl in Hf; lia|..].
      * exists 0. split; [done|]. left. split; [done|]. intros y [->|Hy]%elem_of_cons; [congruence|auto].
      * exists r. split; [done|]. right. split_and!; [done|set_solver|done].
Qed.

(** A key is in its bucket or nowhere in the table. *)
Lemma bucket_only h ht ls j l k :
  ht_rep ty h ht ls → ls !! j = Some l → Z.land (hashFunction ty k) (sizemask ht) = Z.of_nat j →
  (∀ x, x ∈ l → (item_of content h x).1 ≠ content k) →
  ∀ x, x ∈ concat ls → (item_of content h x).1 ≠ content k.
Proof.
  intros Hr Hl Ej Hn x (i & l' & Hl' & Hx)%elem_of_concat Ek.
  destruct (decide (i = j)) as [->|Hij]; [simplify_eq; by eapply Hn|].
  destruct (lookup_lt_is_Some_2 (cells ht) i) as [p' Hp'].
  { rewrite (rep_length _ _ _ _ Hr). by eapply lookup_lt_Some. }
  destruct (rep_bucket _ _ _ _ Hr _ _ _ Hp' Hl') as [_ Hh'].
  rewrite Forall_forall in Hh'. destruct (Hh' x Hx) as (e & He & Eh).
  unfold item_of in Ek. rewrite He in Ek. cbn in Ek. apply hash_content in Ek. rewrite Ek, Ej in Eh. lia.
Qed.

Lemma bucket_find_spec d ls0 ls1 U t ls kt k :
  dict_wf ty d ls0 ls1 U → ls = (if t =? 0 then ls0 else ls1) → alloc_shape (get_ht d t) kt →
  ∃ j r, bucket_find ty d t k (hashFunction ty k) = Ret (Z.of_nat j, r) ∧
    Z.land (hashFunction ty k) (sizemask (get_ht d t)) = Z.of_nat j ∧
    ((r = 0 ∧ ∀ x, x ∈ concat ls → (item_of content (heap d) x).1 ≠ content k) ∨
     (r ≠ 0 ∧ r ∈ concat ls ∧ (item_of content (heap d) r).1 = content k)).
Proof.
  intros Hw -> Hs. assert (ht_rep ty (heap d) (get_ht d t) (if t =? 0 then ls0 else ls1)) as Hr.
  { unfold get_ht. destruct Hw as [H0 H1 _ _]. by destruct (t =? 0). }
  destruct (bucket_at _ _ _ _ _ (hashFunction ty k) Hr Hs) as (j & p & l & Ej & Hp & Hl & Hc & Hh).
  pose proof (wf_bucket _ _ _ _ _ _ _ _ Hw Hl) as Hlen.
  unfold bucket_find. rewrite Ej, (rd_lookup _ _ _ Hp). run.
  destruct (chain_find_spec (S (base.size (heap d))) _ k _ _ Hc) as (r & -> & Hf); [lia|]. run.
  exists j, r. split_and!; [done..|]. destruct Hf as [[-> Hn]|(Hr0 & Hrl & Hk)].
  - left. split; [done|]. by eapply bucket_only.
  - right. split_and!; [done|by eapply elem_of_bucket|done].
Qed.

Lemma rep_miss d m U ls0 ls1 k :
  dict_wf ty d ls0 ls1 U → map_to_list m ≡ₚ item_of content (heap d) <$> (concat ls0 ++ concat ls1) →
  (∀ x, x ∈ concat ls0 → (item_of content (heap d) x).1 ≠ content k) →
  (∀ x, x ∈ concat ls1 → (item_of content (heap d) x).1 ≠ content k) → m !! content k = None.
Proof.
  intros Hw Hm Hn0 Hn1. apply eq_None_not_Some. intros [it (x & Hx & E)%(rep_item _ _ _ _ _ _ _ Hw Hm)].
  apply elem_of_app in Hx as [Hx|Hx]; [apply (Hn0 x Hx)|apply (Hn1 x Hx)]; by rewrite E.
Qed.

(** The second table is empty outside rehashing. *)
Lemma wf_single d ls0 ls1 U : dict_wf ty d ls0 ls1 U → dictIsRehashing d = false → ls1 = [].
Proof.
  intros [_ H1 Hp _] Hr. unfold dictIsRehashing in Hr. destruct Hp as [(_ & E1 & _)|(? & _)]; [|lia].
  pose proof (rep_length _ _ _ _ H1) as Hl. rewrite E1 in Hl. by destruct ls1.
Qed.

(** The search through both tables that lookups and insertions share. *)
Lemma tables_find d m U k k0 :
  rep d m U → alloc_shape (ht0 d) k0 →
  ∃ j r, bucket_find ty d 0 k (hashFunction ty k) = Ret (Z.of_nat j, r) ∧
    Z.land (hashFunction ty k) (sizemask (ht0 d)) = Z.of_nat j ∧
    ((r ≠ 0 ∧ addr <$> m !! content k = Some r) ∨
     (r = 0 ∧ dictIsRehashing d = false ∧ m !! content k = None) ∨
     (r = 0 ∧ dictIsRehashing d = true ∧
      ∃ j1 r1, bucket_find ty d 1 k (hashFunction ty k) = Ret (Z.of_nat j1, r1) ∧
        Z.land (hashFunction ty k) (sizemask (ht1 d)) = Z.of_nat j1 ∧
        ((r1 ≠ 0 ∧ addr <$> m !! content k = Some r1) ∨ (r1 = 0 ∧ m !! content k = None)))).
Proof.
  intros (ls0 & ls1 & Hw & Hm & Hsz) Hk0.
  assert (∀ r, r ∈ concat ls0 ++ concat ls1 → (item_of content (heap d) r).1 = content k →
    addr <$> m !! content k = Some r) as Hhit.
  { intros r Hr Hk. destruct (wf_entry _ _ _ _ _ Hw Hr) as [_ [e He]].
    destruct (item_of content (heap d) r) as [c it] eqn:Ei. cbn in Hk. subst c.
    assert (m !! content k = Some it) as -> by (eapply rep_item; eauto).
    unfold item_of in Ei. rewrite He in Ei. injection Ei as _ <-. done. }
  destruct (bucket_find_spec d ls0 ls1 U 0 ls0 k0 k Hw eq_refl Hk0) as (j & r & E & Ej & Hf).
  exists j, r. split_and!; [done..|]. destruct Hf as [[-> Hn]|(Hr0 & Hr & Hk)].
  2:{ left. split; [done|]. apply Hhit; [set_solver|done]. }
  right. destruct (dictIsRehashing d) eqn:Hre.
  - right. split_and!; [done..|]. destruct (rehash_phase _ _ _ _ _ Hw Hre) as (_ & _ & [k1 Hk1] & _).
    destruct (bucket_find_spec d ls0 ls1 U 1 ls1 k1 k Hw eq_refl Hk1) as (j1 & r1 & E1 & Ej1 & Hf1).
    exists j1, r1. split_and!; [done..|]. destruct Hf1 as [[-> Hn1]|(Hr0 & Hr & Hk)].
    + right. split; [done|]. by eapply rep_miss.
    + left. split; [done|]. apply Hhit; [set_solver|done].
  - left. split_and!; [done..|]. eapply rep_miss; [done..|].
    rewrite (wf_single _ _ _ _ Hw Hre). set_solver.
Qed.

Lemma rehash_step_if_spec cr d m U :
  rep d m U → ∃ d', rehash_step_if ty cr d = Ret d' ∧ rep d' m U ∧ pauserehash d' = pauserehash d ∧
    (pauserehash d ≠ 0 → d' = d).
Proof.
  intros Hd. unfold rehash_step_if, _dictRehashStep.
  case_cond; [|by exists d]. destruct (Z.eqb_spec (pauserehash d) 0); [|by exists d].
  destruct (dictRehash_spec ty content cr d 1 m U Hd ltac:(lia)) as (d' & r & -> & Hd' & Hp & _).
  exists d'. split_and!; [done..|lia].
Qed.

(** A map that is not empty has its first table. *)
Lemma rep_alloc_nonempty d m U : rep d m U → base.size m ≠ 0%nat → ∃ k, alloc_shape (ht0 d) k.
Proof.
  intros Hd Hm. destruct (rep_alloc _ _ _ Hd) as [[Hr E0]|?]; [|done].
  pose proof (rep_used_total _ _ _ Hd) as (_ & _ & Hu & _).
  destruct Hd as (ls0 & ls1 & [_ _ Hp _] & _). unfold dictIsRehashing in Hr.
  destruct Hp as [(_ & E1 & _)|(? & _)]; [|lia]. rewrite E0, E1 in Hu. cbn in Hu. lia.
Qed.

Lemma dictFind_spec cr d m U k :
  rep d m U → ∃ d', dictFind ty cr d k = Ret (d', default 0 (addr <$> m !! content k)) ∧
    rep d' m U ∧ pauserehash d' = pauserehash d.
Proof.
  intros Hd. unfold dictFind. rewrite (dictSize_spec _ _ _ Hd).
  destruct (Z.eqb_spec (Z.of_nat (base.size m)) 0) as [Hz|Hz].
  { exists d. assert (m = ∅) as -> by (apply map_size_empty_inv; lia). by rewrite lookup_empty. }
  destruct (rehash_step_if_spec cr _ _ _ Hd) as (d' & -> & Hd' & Hp & _). run.
  destruct (rep_alloc_nonempty _ _ _ Hd') as [k0 Hk0]; [lia|].
  destruct (tables_find _ _ _ k _ Hd' Hk0) as (j & r & -> & _ & Hf). run. exists d'.
  destruct Hf as [[Hr ->]|[(-> & -> & ->)|(-> & -> & j1 & r1 & -> & _ & Hf)]].
  - test (r =? 0) false. done.
  - done.
  - run. by destruct Hf as [[Hr ->]|[-> ->]].
Qed.

Lemma dictFetchValue_spec cr d m U k :
  rep d m U → ∃ d', dictFetchValue ty cr d k = Ret (d', default 0 (ival <$> m !! content k)) ∧
    rep d' m U ∧ pauserehash d' = pauserehash d.
Proof.
  intros Hd. unfold dictFetchValue. destruct (dictFind_spec cr _ _ _ k Hd) as (d' & -> & Hd' & Hp).
  run. exists d'. destruct (m !! content k) as [it|] eqn:E; simpl.
  - destruct (rep_entry _ _ _ _ _ Hd' E) as (Ha & _ & n & He). test (addr it =? 0) false.
    unfold deref. by rewrite He.
  - done.
Qed.

End lookup.

Section insertion.
Context {A : DictAlloc} {AL : DictAllocLaws A} {ty : dictType}.
Context {K : Type} `{Countable K} {content : Z → K} {TL : DictTypeLaws ty content}.
Implicit Types (d : dict) (m : gmap K item) (U : gset Z).
Abbreviation rep := (dict_rep ty content).

(** * Insertion *)

(** Link a new entry into the table that takes insertions. *)
Lemma rep_push d m U t j p x kk v kt :
  rep d m U → t = (if dictIsRehashing d then 1 else 0) → alloc_shape (get_ht d t) kt →
  x ∉ dom (heap d) → x ≠ 0 → m !! content kk = None → Z.of_nat (base.size m) < 2 ^ 60 →
  Z.land (hashFunction ty kk) (sizemask (get_ht d t)) = Z.of_nat j → cells (get_ht d t) !! j = Some p →
  rep (set_ht (set_heap d (<[x := DictEntry kk v p]> (heap d))) t
        (set_used (set_cells (get_ht d t) (<[j := x]> (cells (get_ht d t)))) (u64 (used (get_ht d t) + 1))))
    (<[content kk := Item x kk v]> m) U.
Proof.
  intros (ls0 & ls1 & Hw & Hm & Hsz) Ht Hs Hx H0 Hn Hlt Hj Hp.
  pose proof (rep_total _ _ _ _ _ _ _ Hw Hm) as Htot.
  pose proof (zlen_nonneg (concat ls0)). pose proof (zlen_nonneg (concat ls1)).
  pose proof (wf_nodup _ _ _ _ _ Hw) as Hd. apply NoDup_app in Hd as (Hd0 & _ & Hd1).
  destruct Hw as [Hr0 Hr1 Hph Ho].
  assert ((x ∉ concat ls0) ∧ (x ∉ concat ls1)) as [Hx0 Hx1].
  { rewrite <- elem_of_elements, Ho in Hx. set_solver. }
  set (h' := <[x := DictEntry kk v p]> (heap d)).
  assert (∀ y, y ≠ x → h' !! y = heap d !! y) as Hy by (intros; by apply lookup_insert_ne).
  assert (elements (dom h') ≡ₚ x :: (concat ls0 ++ concat ls1) ++ elements U) as Hown.
  { unfold h'. rewrite dom_insert_L, elements_union_singleton by done. by rewrite Ho. }
  assert (Z.of_nat (base.size (<[content kk := Item x kk v]> m)) <= 2 ^ 60) as Hsz'.
  { rewrite map_size_insert_None by done. lia. }
  pose proof (items_push _ _ _ x kk v p Hm ltac:(set_solver) Hn) as Hit. fold h' in Hit.
  assert (∃ b, (if t =? 0 then ls0 else ls1) !! j = Some b) as [b Hb].
  { apply lookup_lt_is_Some_2. apply lookup_lt_Some in Hp. unfold get_ht in Hp.
    destruct (t =? 0); [by rewrite <- (rep_length _ _ _ _ Hr0)|by rewrite <- (rep_length _ _ _ _ Hr1)]. }
  destruct (concat_insert _ _ _ Hb) as (rest & Hpm & Hins).
  assert (concat (<[j := x :: b]> (if t =? 0 then ls0 else ls1)) ≡ₚ x :: concat (if t =? 0 then ls0 else ls1))
    as Hc by (rewrite Hins, Hpm; done).
  destruct (dictIsRehashing d) eqn:Hre; subst t; cbn [get_ht set_ht Z.eqb] in *.
  - assert (concat ls0 ++ concat (<[j := x :: b]> ls1) ≡ₚ x :: concat ls0 ++ concat ls1) as Hall.
    { rewrite Hc. symmetry. apply Permutation_middle. }
    exists ls0, (<[j := x :: b]> ls1). split_and!; [|by rewrite Hall|done]. split.
    + eapply ht_rep_agree; [|done]. intros y Hyl. apply Hy. set_solver.
    + apply (ht_rep_push ty (heap d) (ht1 d) ls1 kt); (done || lia).
    + right. unfold dictIsRehashing in Hre. destruct Hph as [(? & _)|(? & ? & _ & ?)]; [lia|].
      split; [done|]. split; [done|]. split; [|done]. exists kt. apply (alloc_shape_cells (ht1 d)); [done|apply length_insert].
    + cbn. by rewrite Hown, Hall.
  - assert (concat (<[j := x :: b]> ls0) ++ concat ls1 ≡ₚ x :: concat ls0 ++ concat ls1) as Hall
      by (by rewrite Hc).
    exists (<[j := x :: b]> ls0), ls1. split_and!; [|by rewrite Hall|done]. split.
    + apply (ht_rep_push ty (heap d) (ht0 d) ls0 kt); (done || lia).
    + eapply ht_rep_agree; [|done]. intros y Hyl. apply Hy. set_solver.
    + left. unfold dictIsRehashing in Hre. destruct Hph as [(? & ? & _)|(? & _)]; [|lia].
      split_and!; [done|done|]. right. exists kt. apply (alloc_shape_cells (ht0 d)); [done|apply length_insert].
    + cbn. by rewrite Hown, Hall.
Qed.

(** The index for a new key, in the table that takes insertions. *)
Lemma _dictKeyIndex_spec cr d m U k :
  rep d m U → Z.of_nat (base.size m) < 2 ^ 60 →
  ∃ d' i ex, _dictKeyIndex ty cr d k (hashFunction ty k) = Ret (d', i, ex) ∧ rep d' m U ∧
    pauserehash d' = pauserehash d ∧
    match m !! content k with
    | Some it => i = -1 ∧ ex = addr it
    | None => ex = 0 ∧ ∃ j kt, let t := if dictIsRehashing d' then 1 else 0 in
        i = Z.of_nat j ∧ alloc_shape (get_ht d' t) kt ∧
        Z.land (hashFunction ty k) (sizemask (get_ht d' t)) = Z.of_nat j
    end.
Proof.
  intros Hd Hsz. destruct (_dictExpandIfNeeded_spec cr d m U Hd Hsz) as (d' & E & Hd' & [k0 Hk0] & Hp).
  unfold _dictKeyIndex. rewrite E. run. cbn [DICT_OK DICT_ERR Z.eqb].
  destruct (tables_find d' m U k k0 Hd' Hk0) as (j & r & -> & Ej & Hf). run.
  destruct Hf as [[Hr Hm]|[(-> & Hre & ->)|(-> & Hre & j1 & r1 & E1 & Ej1 & Hf)]].
  - test (r =? 0) false. exists d', (-1), r. split_and!; [done..|].
    destruct (m !! content k); simpl in Hm; by simplify_eq.
  - rewrite Hre. exists d', (Z.of_nat j), 0. split_and!; [done..|].
    exists j, k0. by rewrite Hre.
  - rewrite Hre, E1. cbn [negb Z.eqb]. run. destruct Hf as [[Hr Hm]|[-> ->]].
    + test (r1 =? 0) false. exists d', (-1), r1. split_and!; [done..|].
      destruct (m !! content k); simpl in Hm; by simplify_eq.
    + exists d', (Z.of_nat j1), 0. split_and!; [done..|].
      destruct Hd' as (ls0 & ls1 & Hw & _).
      destruct (rehash_phase _ _ _ _ _ Hw Hre) as (_ & _ & [k1 Hk1] & _). exists j1, k1. by rewrite Hre.
Qed.

(** [dictAddRaw] adds an entry for a new key and finds the entry of a key that
    is there. *)
Lemma dictAddRaw_spec cr d m U k :
  rep d m U → Z.of_nat (base.size m) < 2 ^ 60 →
  ∃ d' r ex, dictAddRaw ty cr d k = Ret (d', r, ex) ∧ pauserehash d' = pauserehash d ∧
    match m !! content k with
    | Some it => r = 0 ∧ ex = addr it ∧ rep d' m U
    | None => r ≠ 0 ∧ ex = 0 ∧ rep d' (<[content k := Item r (dup (keyDup ty) k) 0]> m) U
    end.
Proof.
  intros Hd Hsz. unfold dictAddRaw.
  destruct (rehash_step_if_spec cr _ _ _ Hd) as (d1 & -> & Hd1 & Hp1 & _). run.
  destruct (_dictKeyIndex_spec cr d1 m U k Hd1 Hsz) as (d2 & i & ex & -> & Hd2 & Hp2 & Hk). run.
  destruct (m !! content k) as [it|] eqn:Hm.
  { destruct Hk as [-> ->]. cbn [Z.eqb]. exists d2, 0, (addr it). by rewrite Hp2. }
  destruct Hk as (-> & j & kt & -> & Hs & Hj). set (t := if dictIsRehashing d2 then 1 else 0) in *.
  test (Z.of_nat j =? -1) false.
  destruct (new_entry_fresh (dom (heap d2))) as [Hx H0]. set (x := new_entry (dom (heap d2))) in *.
  destruct (lookup_lt_is_Some_2 (cells (get_ht d2 t)) j) as [p Hp].
  { destruct Hs as [_ Hk _ Hc Hmask]. rewrite Hmask in Hj.
    replace (2 ^ kt - 1) with (Z.ones kt) in Hj by (rewrite Z.ones_equiv; lia).
    rewrite Z.land_ones in Hj by lia. pose proof (Z.mod_pos_bound (hashFunction ty k) (2 ^ kt)). unfold zlen in Hc. lia. }
  rewrite (rd_lookup _ _ _ Hp). run. rewrite wrn_insert by (by eapply lookup_lt_Some). run.
  eexists _, x, 0. split; [done|]. split.
  { unfold set_ht, set_ht0, set_ht1. case_cond; cbn; congruence. }
  split_and!; [done..|]. rewrite <- (dup_content (content := content) k).
  assert (hashFunction ty (dup (keyDup ty) k) = hashFunction ty k) as Eh by apply hash_content, dup_content.
  eapply (rep_push d2 m U t j p x (dup (keyDup ty) k) 0 kt); try done.
  - by rewrite dup_content.
  - by rewrite Eh.
Qed.

(** Overwriting the value of an entry. *)
Lemma dictSetVal_spec d m U c it v :
  rep d m U → m !! c = Some it →
  ∃ d', dictSetVal ty d (addr it) v = Ret d' ∧ pauserehash d' = pauserehash d ∧
    rep d' (<[c := Item (addr it) (ikey it) (dup (valDup ty) v)]> m) U.
Proof.
  intros Hd Hc. destruct (rep_entry _ _ _ _ _ Hd Hc) as (H0 & Hk & n & He).
  unfold dictSetVal, deref. rewrite He. run. cbn [key next]. eexists. split; [done|]. split; [done|].
  set (e' := DictEntry _ _ _). destruct Hd as (ls0 & ls1 & Hw & Hm & Hsz).
  pose proof (wf_nodup _ _ _ _ _ Hw) as Hnd.
  assert (addr it ∈ concat ls0 ++ concat ls1) as Hx.
  { apply (rep_item _ _ _ _ _ _ _ Hw Hm) in Hc as (x & Hx & E). unfold item_of in E.
    destruct (heap d !! x) in E; injection E as _ <-; exact Hx. }
  apply elem_of_Permutation in Hx as [rest Hp].
  destruct (items_delete _ _ _ _ (addr it) c it Hm Hp) as [_ Hdel].
  { unfold item_of. rewrite He. cbn. rewrite Hk. by destruct it. }
  assert (∀ x, (λ e, (key e, next e)) <$> <[addr it := e']> (heap d) !! x =
    (λ e, (key e, next e)) <$> heap d !! x) as Hl.
  { intros x. destruct (decide (addr it = x)) as [<-|]; [by rewrite lookup_insert_eq, He|].
    by rewrite lookup_insert_ne. }
  exists ls0, ls1. split_and!.
  - destruct Hw as [Hr0 Hr1 Hph Ho]. split; cbn; [by eapply ht_rep_links|by eapply ht_rep_links|done|].
    rewrite dom_insert_L. apply elem_of_dom_2 in He. by replace ({[addr it]} ∪ dom (heap d)) with (dom (heap d)) by set_solver.
  - rewrite Hp. rewrite <- insert_delete_eq, <- Hk. cbn [heap set_heap].
    apply (items_push _ rest _ (addr it) (ikey it)).
    + by rewrite Hk.
    + rewrite Hp in Hnd. by apply NoDup_cons in Hnd as [? _].
    + rewrite Hk. apply lookup_delete_eq.
  - rewrite map_size_insert_Some by (by eexists). done.
Qed.

Lemma dictAdd_spec cr d m U k v :
  rep d m U → Z.of_nat (base.size m) < 2 ^ 60 →
  ∃ d' r, dictAdd ty cr d k v = Ret (d', r) ∧ pauserehash d' = pauserehash d ∧
    match m !! content k with
    | Some _ => r = DICT_ERR ∧ rep d' m U
    | None => r = DICT_OK ∧
        ∃ x, rep d' (<[content k := Item x (dup (keyDup ty) k) (dup (valDup ty) v)]> m) U
    end.
Proof.
  intros Hd Hsz. unfold dictAdd.
  destruct (dictAddRaw_spec cr d m U k Hd Hsz) as (d1 & r & ex & -> & Hp & Hr). run.
  destruct (m !! content k) as [it|] eqn:Hm.
  - destruct Hr as (-> & -> & Hd1). exists d1, DICT_ERR. done.
  - destruct Hr as (Hr & -> & Hd1). test (r =? 0) false.
    destruct (dictSetVal_spec d1 _ U (content k) (Item r (dup (keyDup ty) k) 0) v Hd1) as (d2 & E & Hp2 & Hd2).
    { apply lookup_insert_eq. }
    cbn [addr ikey] in *. rewrite E. run. exists d2, DICT_OK. split_and!; [done|congruence|done|].
    exists r. by rewrite insert_insert_eq in Hd2.
Qed.

Lemma dictReplace_spec cr d m U k v :
  rep d m U → Z.of_nat (base.size m) < 2 ^ 60 →
  ∃ d' r x, dictReplace ty cr d k v = Ret (d', r) ∧ pauserehash d' = pauserehash d ∧
    r = b2z (bool_decide (m !! content k = None)) ∧
    rep d' (<[content k := Item x (default (dup (keyDup ty) k) (ikey <$> m !! content k))
                             (dup (valDup ty) v)]> m) U.
Proof.
  intros Hd Hsz. unfold dictReplace.
  destruct (dictAddRaw_spec cr d m U k Hd Hsz) as (d1 & r & ex & -> & Hp & Hr). run.
  destruct (m !! content k) as [it|] eqn:Hm; cbn.
  - destruct Hr as (-> & -> & Hd1). cbn [negb Z.eqb].
    destruct (dictSetVal_spec d1 _ U (content k) it v Hd1 Hm) as (d2 & -> & Hp2 & Hd2).
    exists d2, 0, (addr it). split_and!; [done|congruence|done|done].
  - destruct Hr as (Hr & -> & Hd1). test (r =? 0) false.
    destruct (dictSetVal_spec d1 _ U (content k) (Item r (dup (keyDup ty) k) 0) v Hd1) as (d2 & E & Hp2 & Hd2).
    { apply lookup_insert_eq. }
    cbn [addr ikey negb] in *. rewrite E. run. exists d2, 1, r. split_and!; [done|congruence|done|].
    by rewrite insert_insert_eq in Hd2.
Qed.

End insertion.

Section deletion.
Context {ty : dictType}.
Context {K : Type} `{Countable K} {content : Z → K} {TL : DictTypeLaws ty content}.
Implicit Types (d : dict) (m : gmap K item) (U : gset Z).
Abbreviation rep := (dict_rep ty content).

(** * Deletion *)

Lemma set_ht_used d t h u :
  set_ht (set_heap d h) t (set_used (get_ht (set_heap d h) t) u) =
  set_ht (set_heap d h) t (Dictht (table (get_ht d t)) (cells (get_ht d t)) (size (get_ht d t))
    (sizemask (get_ht d t)) u).
Proof. unfold set_ht, get_ht, set_used. by destruct (t =? 0). Qed.

(** The loop over a bucket; [pre] are the entries already passed.  [h'] is the
    heap after the unlinking and before the entry is released. *)
Lemma unlink_loop_spec fuel d t j k pre l p0 nofree he prev :
  cells (get_ht d t) !! j = Some p0 → chain (heap d) p0 (pre ++ l) → NoDup (pre ++ l) →
  chain (heap d) he l → prev = default 0 (last pre) → (length l < fuel)%nat →
  (unlink_loop ty fuel d t (Z.of_nat j) k he prev nofree = Ret (d, 0) ∧
   ∀ x, x ∈ l → (item_of content (heap d) x).1 ≠ content k) ∨
  ∃ l1 x l2 p' h', l = l1 ++ x :: l2 ∧ (item_of content (heap d) x).1 = content k ∧
    unlink_loop ty fuel d t (Z.of_nat j) k he prev nofree =
      Ret (set_ht (set_heap d (if nofree then h' else delete x h')) t
        (Dictht (table (get_ht d t)) (<[j := p']> (cells (get_ht d t))) (size (get_ht d t))
          (sizemask (get_ht d t)) (u64 (used (get_ht d t) - 1))), x) ∧
    chain h' p' (pre ++ l1 ++ l2) ∧ dom h' = dom (heap d) ∧
    (∀ y, y ∉ pre ++ l1 → h' !! y = heap d !! y) ∧
    (∀ y, item_of content h' y = item_of content (heap d) y).
Proof.
  intros Hj Hc0. revert fuel he prev pre Hc0.
  induction l as [|x l IH]; intros [|fuel] he prev pre Hc0 Hnd Hc Hprev Hf; try (simpl in Hf; lia).
  { simpl in Hc. subst he. left. split; [done|]. set_solver. }
  pose proof Hc as Hcx. simpl in Hc. destruct Hc as (-> & H0 & e & He & Hc).
  cbn [unlink_loop]. test (x =? 0) false. rewrite (deref_ok _ _ _ He). run. rewrite same_key_content.
  assert ((item_of content (heap d) x).1 = content (key e)) as Ei by (unfold item_of; by rewrite He).
  case_bool_decide as Ek.
  - right. destruct pre as [|y pre _] using rev_ind.
    + cbn in Hprev. subst prev. cbn [negb Z.eqb]. exists [], x, l, (next e), (heap d).
      rewrite wrn_insert by (by eapply lookup_lt_Some). run. split_and!; [done|congruence| |done..].
      unfold set_ht, get_ht. destruct (t =? 0), nofree, d; done.
    + rewrite last_snoc in Hprev. cbn in Hprev. subst prev.
      destruct (chain_lookup _ _ _ y Hc0) as [Hy0 [ey Hey]]; [set_solver|].
      test (y =? 0) false. cbn [negb]. rewrite (deref_ok _ _ _ Hey). run.
      rewrite <- app_assoc in Hc0, Hnd. cbn [app] in Hc0, Hnd.
      exists [], x, l, p0, (<[y := DictEntry (key ey) (val ey) (next e)]> (heap d)).
      split_and!; [done|congruence| | | | |].
      * rewrite list_insert_id by done. unfold set_ht, get_ht, set_used.
        destruct (t =? 0), nofree; done.
      * rewrite <- app_assoc. cbn [app]. by eapply chain_unlink.
      * rewrite dom_insert_L. apply elem_of_dom_2 in Hey. set_solver.
      * intros z Hz. rewrite lookup_insert_ne; [done|set_solver].
      * by eapply item_insert_same.
  - destruct (IH fuel (next e) x (pre ++ [x])) as [[E Hn]|(l1 & x' & l2 & p' & h' & -> & Hk & E & Hch & Hdom & Hout & Hit)].
    + by rewrite <- app_assoc.
    + by rewrite <- app_assoc.
    + done.
    + by rewrite last_snoc.
    + simpl in Hf. lia.
    + left. split; [done|]. intros y [->|Hy]%elem_of_cons; [congruence|auto].
    + right. exists (x :: l1), x', l2, p', h'. rewrite <- !app_assoc in *. split_and!; try done.
Qed.

End deletion.
End DictOps.
