(* ===== verification/DictDelete.v ===== *)
(** Deletion, unlinking and clearing (component [Dict]) in terms of the
    represented map. *)
From stdpp Require Import gmap.
From S2P Require Import Prelude Dict DictRep DictRehash DictOps.

Module DictDelete.
Import Dict DictRep DictRehash DictOps.

(** The buckets without [x]. *)
Definition unlinked0 (t : Z) (j : nat) (b : list Z) (ls0 : list (list Z)) : list (list Z) :=
  if t =? 0 then <[j := b]> ls0 else ls0.
Definition unlinked1 (t : Z) (j : nat) (b : list Z) (ls1 : list (list Z)) : list (list Z) :=
  if t =? 0 then ls1 else <[j := b]> ls1.

(** [h'] is [h] without the entries of [l]. *)
Definition without (l : list Z) (h h' : gmap Z dictEntry) : Prop :=
  (∀ x, x ∈ l → h' !! x = None) ∧ (∀ x, x ∉ l → h' !! x = h !! x).

(** Removing an element from an enumeration of a set. *)
Lemma elements_delete (X : gset Z) x rest :
  elements X ≡ₚ x :: rest → elements (X ∖ {[x]}) ≡ₚ rest.
Proof.
  intros Hp. assert (x ∈ X) as Hx by (rewrite <- elem_of_elements, Hp; set_solver).
  apply (Permutation_cons_inv (a := x)). rewrite <- Hp.
  rewrite <- elements_union_singleton by set_solver. f_equiv.
  rewrite <- union_difference_singleton_L by done. done.
Qed.

Section delete.
Context {ty : dictType}.
Context {K : Type} `{Countable K} {content : Z → K} {TL : DictTypeLaws ty content}.
Implicit Types (d : dict) (m : gmap K item) (U : gset Z).

Abbreviation rep := (dict_rep ty content).

(** What unlinking [x] from bucket [j] of table [t] leaves. *)
Definition unlink_post (d d' : dict) (m : gmap K item) (U : gset Z) (ls0 ls1 : list (list Z))
    (t : Z) (j : nat) (b1 : list Z) (x : Z) (b2 : list Z) (c : K) (it : item) (nofree : bool) : Prop :=
  (if t =? 0 then ls0 else ls1) !! j = Some (b1 ++ x :: b2) ∧
  item_of content (heap d) x = (c, it) ∧ m !! c = Some it ∧
  rep_with ty content d' (delete c m) (if nofree then {[x]} ∪ U else U)
    (unlinked0 t j (b1 ++ b2) ls0) (unlinked1 t j (b1 ++ b2) ls1) ∧
  (∀ y, y ∉ b1 ++ [x] → heap d' !! y = heap d !! y) ∧
  same_shape d d' ∧ rehashidx d' = rehashidx d ∧
  (nofree = true → ∃ n, heap d' !! x = Some (DictEntry (ikey it) (ival it) n)).

Lemma home_item h h' mask j x :
  is_Some (h' !! x) → item_of content h' x = item_of content h x →
  home ty h mask j x → home ty h' mask j x.
Proof.
  intros [e' He'] Hit (e & He & Hh). exists e'. split; [done|].
  unfold item_of in Hit. rewrite He, He' in Hit. injection Hit as _ -> _. done.
Qed.

(** The bucket [j] of table [t] after [x] has left it. *)
Lemma unlink_bucket h h' ht ls j b1 x b2 p' :
  ht_rep ty h ht ls → ls !! j = Some (b1 ++ x :: b2) → NoDup (concat ls) →
  chain h' p' (b1 ++ b2) → (∀ y, y ∈ concat ls → y ∉ b1 ++ x :: b2 → h' !! y = h !! y) →
  (∀ y, y ≠ x → item_of content h' y = item_of content h y) → zlen (concat ls) < 2 ^ 64 →
  ht_rep ty h' (Dictht (table ht) (<[j := p']> (cells ht)) (size ht) (sizemask ht) (u64 (used ht - 1)))
    (<[j := b1 ++ b2]> ls).
Proof.
  intros Hr Hj Hd Hc Hout Hit Hb.
  assert (1 <= zlen (concat ls)) as H1.
  { destruct (concat_insert _ _ _ Hj) as (rest & Hp & _). unfold zlen. rewrite Hp, !length_app. simpl. lia. }
  eapply ht_rep_update; [done..| |].
  - destruct (lookup_lt_is_Some_2 (cells ht) j) as [p Hp].
    { rewrite (rep_length _ _ _ _ Hr). by eapply lookup_lt_Some. }
    destruct (rep_bucket _ _ _ _ Hr _ _ _ Hp Hj) as [_ Hh]. rewrite Forall_forall in Hh |- *.
    assert (x ∉ b1 ++ b2) as Hx.
    { destruct (concat_insert _ _ _ Hj) as (rest & Hpr & _). rewrite Hpr in Hd.
      rewrite <- Permutation_middle in Hd. by apply NoDup_app in Hd as [[Hx _]%NoDup_cons _]. }
    intros y Hy. apply (home_item h); [by eapply chain_lookup|apply Hit; set_solver|apply Hh; set_solver].
  - rewrite (rep_used _ _ _ _ Hr), wrapu_id by lia. zlr. lia.
Qed.

Lemma chain_delete h p l x : chain h p l → x ∉ l → chain (delete x h) p l.
Proof. intros Hc Hx. eapply chain_agree; [|done]. intros y Hy. rewrite lookup_delete_ne; [done|set_solver]. Qed.

Lemma unlinked_all t j b1 x b2 ls0 ls1 :
  (if t =? 0 then ls0 else ls1) !! j = Some (b1 ++ x :: b2) →
  concat ls0 ++ concat ls1 ≡ₚ x :: concat (unlinked0 t j (b1 ++ b2) ls0) ++ concat (unlinked1 t j (b1 ++ b2) ls1).
Proof.
  unfold unlinked0, unlinked1. intros Hj. destruct (concat_insert _ _ _ Hj) as (rest & Hpm & Hins).
  destruct (t =? 0); rewrite Hins, Hpm, <- (Permutation_middle b1 b2 x); [done|].
  cbn [app]. by rewrite <- Permutation_middle.
Qed.

(** Removing an entry keeps the moved buckets empty. *)
Lemma phase_unlink d ls0 j b1 x b2 p h u :
  phase d ls0 → ht_rep ty (heap d) (ht0 d) ls0 → ls0 !! j = Some (b1 ++ x :: b2) →
  phase (set_ht0 (set_heap d h) (Dictht (table (ht0 d)) (<[j := p]> (cells (ht0 d))) (size (ht0 d)) (sizemask (ht0 d)) u))
    (<[j := b1 ++ b2]> ls0).
Proof.
  intros [(Hi & E1 & Hp)|(Hi & [k0 Hk0] & Hk1 & He)] Hr Hj.
  - left. split_and!; [done..|]. destruct Hp as [E0|[k0 Hk0]].
    + exfalso. apply lookup_lt_Some in Hj. rewrite <- (rep_length _ _ _ _ Hr), E0 in Hj. simpl in Hj. lia.
    + right. exists k0. apply (alloc_shape_cells (ht0 d)); [done|apply length_insert].
  - right. split; [done|]. split; [|split; [done|]].
    + exists k0. apply (alloc_shape_cells (ht0 d)); [done|apply length_insert].
    + intros i Hi'. rewrite list_lookup_insert_ne; [by apply He|]. intros ->.
      rewrite He in Hj by done. by destruct b1.
Qed.

Lemma bucket_nodup d ls0 ls1 U t j l :
  dict_wf ty d ls0 ls1 U → (if t =? 0 then ls0 else ls1) !! j = Some l → NoDup l.
Proof.
  intros Hw Hl. pose proof (wf_nodup _ _ _ _ _ Hw) as Hnd. apply NoDup_app in Hnd as (Hd0 & _ & Hd1).
  assert (NoDup (concat (if t =? 0 then ls0 else ls1))) as Hn by (by destruct (t =? 0)).
  destruct (concat_insert _ _ _ Hl) as (rest & Hpm & _). rewrite Hpm in Hn. by apply NoDup_app in Hn as [? _].
Qed.

Lemma unlinked_not_in d ls0 ls1 U t j b1 x b2 :
  dict_wf ty d ls0 ls1 U → (if t =? 0 then ls0 else ls1) !! j = Some (b1 ++ x :: b2) →
  (x ∉ concat (unlinked0 t j (b1 ++ b2) ls0) ++ concat (unlinked1 t j (b1 ++ b2) ls1)) ∧ (x ∉ b1 ++ b2).
Proof.
  intros Hw Hj. split.
  - pose proof (wf_nodup _ _ _ _ _ Hw) as Hnd. rewrite (unlinked_all _ _ _ _ _ _ _ Hj) in Hnd.
    by apply NoDup_cons in Hnd as [? _].
  - pose proof (bucket_nodup _ _ _ _ _ _ _ Hw Hj) as Hnd. rewrite <- Permutation_middle in Hnd.
    by apply NoDup_cons in Hnd as [? _].
Qed.

Lemma wf_unlink d U ls0 ls1 t j b1 x b2 p' h2 (nofree : bool) :
  dict_wf ty d ls0 ls1 U → (if t =? 0 then ls0 else ls1) !! j = Some (b1 ++ x :: b2) →
  chain h2 p' (b1 ++ b2) → (∀ y, y ∉ b1 ++ x :: b2 → h2 !! y = heap d !! y) →
  (∀ y, y ≠ x → item_of content h2 y = item_of content (heap d) y) →
  zlen (concat ls0) < 2 ^ 64 → zlen (concat ls1) < 2 ^ 64 →
  dom h2 = (if nofree then dom (heap d) else dom (heap d) ∖ {[x]}) →
  dict_wf ty
    (set_ht (set_heap d h2) t
      (Dictht (table (get_ht d t)) (<[j := p']> (cells (get_ht d t))) (size (get_ht d t))
        (sizemask (get_ht d t)) (u64 (used (get_ht d t) - 1))))
    (unlinked0 t j (b1 ++ b2) ls0) (unlinked1 t j (b1 ++ b2) ls1) (if nofree then {[x]} ∪ U else U).
Proof.
  intros Hw Hj Hc Hout Hit Hb0 Hb1 Hdom.
  pose proof (wf_nodup _ _ _ _ _ Hw) as Hnd. apply NoDup_app in Hnd as (Hd0 & Hdx & Hd1).
  destruct Hw as [Hr0 Hr1 Hph Ho]. pose proof (unlinked_all _ _ _ _ _ _ _ Hj) as Hall.
  assert (elements (dom h2) ≡ₚ (concat (unlinked0 t j (b1 ++ b2) ls0) ++ concat (unlinked1 t j (b1 ++ b2) ls1)) ++
    elements (if nofree then {[x]} ∪ U else U)) as Hown.
  { rewrite Hdom. rewrite Hall in Ho. destruct nofree; [|by apply elements_delete].
    assert (x ∉ U) as HxU.
    { assert (NoDup (elements (dom (heap d)))) as Hn by apply NoDup_elements. rewrite Ho in Hn.
      apply NoDup_cons in Hn as [Hn _]. rewrite <- elem_of_elements. set_solver. }
    rewrite elements_union_singleton, Ho by done. cbn [app]. apply Permutation_middle. }
  unfold unlinked0, unlinked1, set_ht, get_ht in *. destruct (t =? 0); split; try exact Hown.
  - apply (unlink_bucket (heap d) _ _ _ _ _ x); [done..|intros; auto|done|done].
  - eapply ht_rep_agree; [|done]. intros y Hy. apply Hout. intros Hy'. eapply Hdx; [|done].
    by eapply elem_of_bucket.
  - by apply (phase_unlink _ _ _ b1 x b2).
  - eapply ht_rep_agree; [|done]. intros y Hy. apply Hout. intros Hy'. eapply Hdx; [done|].
    by eapply elem_of_bucket.
  - apply (unlink_bucket (heap d) _ _ _ _ _ x); [done..|intros; auto|done|done].
  - destruct Hph as [(Hi & E1 & Hp)|(Hi & Hk0 & [k1 Hk1] & He)].
    + exfalso. apply lookup_lt_Some in Hj. rewrite <- (rep_length _ _ _ _ Hr1), E1 in Hj. simpl in Hj. lia.
    + right. split; [done|]. split; [done|]. split; [|done]. exists k1. apply (alloc_shape_cells (ht1 d)); [done|apply length_insert].
Qed.

Lemma rep_unlink d m U ls0 ls1 t j b1 x b2 p' h' c it (nofree : bool) :
  rep_with ty content d m U ls0 ls1 →
  (if t =? 0 then ls0 else ls1) !! j = Some (b1 ++ x :: b2) →
  item_of content (heap d) x = (c, it) → chain h' p' (b1 ++ b2) → dom h' = dom (heap d) →
  (∀ y, y ∉ b1 → h' !! y = heap d !! y) →
  (∀ y, item_of content h' y = item_of content (heap d) y) →
  unlink_post d
    (set_ht (set_heap d (if nofree then h' else delete x h')) t
      (Dictht (table (get_ht d t)) (<[j := p']> (cells (get_ht d t))) (size (get_ht d t))
        (sizemask (get_ht d t)) (u64 (used (get_ht d t) - 1))))
    m U ls0 ls1 t j b1 x b2 c it nofree.
Proof.
  intros (Hw & Hm & Hsz) Hj Hx Hc Hdom Hout Hit.
  pose proof (rep_total _ _ _ _ _ _ _ Hw Hm) as Htot.
  pose proof (zlen_nonneg (concat ls0)). pose proof (zlen_nonneg (concat ls1)).
  pose proof (unlinked_all _ _ _ _ _ _ _ Hj) as Hall.
  destruct (items_delete (heap d) _ _ m x c it Hm Hall Hx) as [Hmc Hdel].
  assert ((x ∉ concat (unlinked0 t j (b1 ++ b2) ls0) ++ concat (unlinked1 t j (b1 ++ b2) ls1)) ∧ (x ∉ b1 ++ b2))
    as [Hx' Hxb] by (by eapply unlinked_not_in).
  set (h2 := if nofree then h' else delete x h').
  set (d' := set_ht (set_heap d h2) t _). assert (heap d' = h2) as Hd' by (unfold d', set_ht; by destruct (t =? 0)).
  assert (∀ y, y ≠ x → h2 !! y = h' !! y) as Hh2.
  { intros y Hy. unfold h2. destruct nofree; [done|]. by rewrite lookup_delete_ne. }
  assert (∀ y, y ≠ x → item_of content h2 y = item_of content (heap d) y) as Hit2.
  { intros y Hy. rewrite <- Hit. unfold item_of. by rewrite Hh2. }
  unfold unlink_post, rep_with, same_shape. split_and!; [done|done|done| | | | | | | | |].
  - apply (wf_unlink d U ls0 ls1 t j b1 x b2 p' h2 nofree); try (done || lia).
    + eapply chain_agree; [|done]. intros y Hy. apply Hh2. by intros ->.
    + intros y Hy. rewrite Hh2 by set_solver. apply Hout. set_solver.
    + unfold h2. destruct nofree; [done|]. by rewrite dom_delete_L, Hdom.
  - rewrite Hd', Hdel. rewrite (list_fmap_ext (item_of content h2) (item_of content (heap d))); [done|].
    intros i y Hy%list_elem_of_lookup_2. apply Hit2. set_solver.
  - rewrite map_size_delete_Some by (by eexists). lia.
  - intros y Hy. rewrite Hd', Hh2 by set_solver. apply Hout. set_solver.
  - unfold d', set_ht. by destruct (t =? 0).
  - unfold d', set_ht, get_ht. by destruct (t =? 0).
  - unfold d', set_ht, get_ht. by destruct (t =? 0).
  - unfold d', set_ht. by destruct (t =? 0).
  - intros Hn. rewrite Hd'. unfold h2. rewrite Hn. rewrite Hout by set_solver.
    destruct (wf_entry _ _ _ _ x Hw) as [_ [e He]]; [rewrite Hall; set_solver|]. rewrite He.
    unfold item_of in Hx. rewrite He in Hx. injection Hx as _ <-. exists (next e). by destruct e.
Qed.

(** The entry whose key has this content is unlinked from its bucket. *)
Lemma bucket_unlink_spec d m U ls0 ls1 t kt k nofree :
  rep_with ty content d m U ls0 ls1 → alloc_shape (get_ht d t) kt →
  (bucket_unlink ty d t k (hashFunction ty k) nofree = Ret (d, 0) ∧
   ∀ x, x ∈ concat (if t =? 0 then ls0 else ls1) → (item_of content (heap d) x).1 ≠ content k) ∨
  ∃ d' j b1 b2 it, bucket_unlink ty d t k (hashFunction ty k) nofree = Ret (d', addr it) ∧
    unlink_post d d' m U ls0 ls1 t j b1 (addr it) b2 (content k) it nofree.
Proof.
  intros Hrw Hs. pose proof Hrw as (Hw & Hm & Hsz).
  assert (ht_rep ty (heap d) (get_ht d t) (if t =? 0 then ls0 else ls1)) as Hr.
  { unfold get_ht. destruct Hw as [H0 H1 _ _]. by destruct (t =? 0). }
  destruct (bucket_at _ _ _ _ _ (hashFunction ty k) Hr Hs) as (j & p & l & Ej & Hp & Hl & Hc & _).
  pose proof (wf_bucket _ _ _ _ _ _ _ _ Hw Hl) as Hlen.
  unfold bucket_unlink. rewrite Ej, (rd_lookup _ _ _ Hp). run.
  pose proof (bucket_nodup _ _ _ _ _ _ _ Hw Hl) as Hnd.
  destruct (unlink_loop_spec (content := content) (S (base.size (heap d))) d t j k [] l p nofree p 0 Hp Hc Hnd Hc eq_refl)
    as [[-> Hn]|(l1 & x & l2 & p' & h' & -> & Hk & -> & Hch & Hdom & Hout & Hit)]; [lia| |].
  { left. split; [done|]. by eapply bucket_only. }
  right. destruct (item_of content (heap d) x) as [c it] eqn:Ei. cbn in Hk. subst c.
  assert (x = addr it) as Ex by (unfold item_of in Ei; destruct (heap d !! x); by simplify_eq).
  eexists _, j, l1, l2, it. rewrite Ex. split; [done|]. rewrite <- Ex.
  by apply (rep_unlink d m U ls0 ls1 t j l1 x l2 p' h' (content k) it nofree).
Qed.

(** Deleting from a dictionary that is not being rehashed by the call. *)
Lemma delete_tables d m U ls0 ls1 k k0 nofree :
  rep_with ty content d m U ls0 ls1 → alloc_shape (ht0 d) k0 →
  let del := '(d, he) ← bucket_unlink ty d 0 k (hashFunction ty k) nofree;
             if negb (he =? 0) then Ret (d, he)
             else if negb (dictIsRehashing d) then Ret (d, 0)
             else bucket_unlink ty d 1 k (hashFunction ty k) nofree in
  (del = Ret (d, 0) ∧ m !! content k = None) ∨
  ∃ d' t j b1 b2 it, del = Ret (d', addr it) ∧ addr it ≠ 0 ∧
    unlink_post d d' m U ls0 ls1 t j b1 (addr it) b2 (content k) it nofree.
Proof.
  intros Hrw Hk0 del. pose proof Hrw as (Hw & Hm & Hsz).
  assert (dict_rep ty content d m U) as Hd by (by exists ls0, ls1). unfold del. clear del.
  destruct (bucket_unlink_spec d m U ls0 ls1 0 k0 k nofree Hrw Hk0)
    as [[-> Hn]|(d2 & j & b1 & b2 & it & -> & Hpost)]; run.
  2:{ right. pose proof Hpost as (_ & _ & Hmc & _). destruct (rep_entry _ _ _ _ _ Hd Hmc) as (Ha & _).
      test (addr it =? 0) false. exists d2, 0, j, b1, b2, it. done. }
  destruct (dictIsRehashing d) eqn:Hre; cbn [negb Z.eqb].
  2:{ left. split; [done|]. eapply rep_miss; [done..|]. rewrite (wf_single _ _ _ _ Hw Hre). set_solver. }
  destruct (rehash_phase _ _ _ _ _ Hw Hre) as (_ & _ & [k1 Hk1] & _).
  destruct (bucket_unlink_spec d m U ls0 ls1 1 k1 k nofree Hrw Hk1)
    as [[-> Hn1]|(d2 & j & b1 & b2 & it & -> & Hpost)].
  - left. split; [done|]. by eapply rep_miss.
  - right. pose proof Hpost as (_ & _ & Hmc & _). destruct (rep_entry _ _ _ _ _ Hd Hmc) as (Ha & _).
    exists d2, 1, j, b1, b2, it. done.
Qed.

Lemma dictGenericDelete_spec cr d m U k nofree :
  rep d m U →
  ∃ d', dictGenericDelete ty cr d k nofree = Ret (d', default 0 (addr <$> m !! content k)) ∧
    pauserehash d' = pauserehash d ∧
    rep d' (delete (content k) m)
      (if nofree then match m !! content k with Some it => {[addr it]} ∪ U | None => U end else U) ∧
    (nofree = true → ∀ it, m !! content k = Some it →
      ∃ n, heap d' !! addr it = Some (DictEntry (ikey it) (ival it) n)).
Proof.
  intros Hd. unfold dictGenericDelete. pose proof (rep_used_total _ _ _ Hd) as (Hu0 & Hu1 & Hu & _).
  case_cond; to_prop.
  { assert (m = ∅) as -> by (apply map_size_empty_inv; lia). exists d.
    rewrite delete_empty, lookup_empty. split_and!; [done..| |done]. by destruct nofree. }
  destruct (rehash_step_if_spec cr _ _ _ Hd) as (d1 & -> & Hd1 & Hp1 & _). run.
  destruct (rep_alloc_nonempty _ _ _ Hd1) as [k0 Hk0]; [lia|]. destruct Hd1 as (ls0 & ls1 & Hrw).
  destruct (delete_tables d1 m U ls0 ls1 k k0 nofree Hrw Hk0)
    as [[-> Hmc]|(d2 & t & j & b1 & b2 & it & -> & Ha & _ & _ & Hmc & Hd2 & _ & [Hp2 _] & _ & Hf)].
  - exists d1. rewrite Hmc, delete_id by done. split_and!; [done..| |done]. exists ls0, ls1. by destruct nofree.
  - exists d2. rewrite Hmc, <- Hp1. split_and!; [done..| |].
    + eexists _, _. exact Hd2.
    + intros Hnf it' [= <-]. eauto.
Qed.

Lemma rep_not_unlinked d m U c it : rep d m U → m !! c = Some it → addr it ∉ U.
Proof.
  intros (ls0 & ls1 & Hw & Hm & _) Hc HU. apply (rep_item _ _ _ _ _ _ _ Hw Hm) in Hc as (x & Hx & E).
  assert (addr it = x) as Ex by (unfold item_of in E; destruct (heap d !! x); by simplify_eq).
  assert (NoDup ((concat ls0 ++ concat ls1) ++ elements U)) as Hnd.
  { destruct Hw as [_ _ _ Ho]. rewrite <- Ho. apply NoDup_elements. }
  apply NoDup_app in Hnd as (_ & Hd & _). apply (Hd x Hx), elem_of_elements. congruence.
Qed.

(** Releasing an entry that was unlinked before. *)
Lemma rep_free d m U x :
  rep d m U → x ∈ U → x ≠ 0 →
  ∃ d', dictFreeUnlinkedEntry d x = Ret d' ∧ rep d' m (U ∖ {[x]}) ∧ heap d' !! x = None ∧
    pauserehash d' = pauserehash d.
Proof.
  intros (ls0 & ls1 & Hw & Hm & Hsz) HU H0. pose proof Hw as [Hr0 Hr1 Hp Ho].
  assert (x ∈ elements U) as [rest HU']%elem_of_Permutation by (by apply elem_of_elements).
  assert (NoDup ((concat ls0 ++ concat ls1) ++ elements U)) as Hnd by (rewrite <- Ho; apply NoDup_elements).
  apply NoDup_app in Hnd as (_ & Hd & _).
  assert (∀ y, y ∈ concat ls0 ++ concat ls1 → delete x (heap d) !! y = heap d !! y) as Hy.
  { intros y Hy. rewrite lookup_delete_ne; [done|]. intros ->. apply (Hd y Hy). by apply elem_of_elements. }
  assert (is_Some (heap d !! x)) as [e He].
  { apply elem_of_dom, elem_of_elements. rewrite Ho. set_solver. }
  unfold dictFreeUnlinkedEntry. test (x =? 0) false. rewrite (deref_ok _ _ _ He). run.
  eexists. split_and!; [done| |apply lookup_delete_eq|done]. exists ls0, ls1. split_and!; [|cbn|done].
  - split; cbn; [| |done|].
    + eapply ht_rep_agree; [|done]. intros y Hy'. apply Hy. set_solver.
    + eapply ht_rep_agree; [|done]. intros y Hy'. apply Hy. set_solver.
    + rewrite dom_delete_L. apply elements_delete. rewrite Ho, HU', (elements_delete U x rest) by done.
      rewrite <- Permutation_middle. done.
  - rewrite Hm. rewrite (list_fmap_ext (item_of content (delete x (heap d))) (item_of content (heap d))); [done|].
    intros i y Hy'%list_elem_of_lookup_2. unfold item_of. by rewrite Hy.
Qed.

(** * Clearing *)

Lemma chain_size h p l : chain h p l → NoDup l → (length l <= base.size h)%nat.
Proof.
  intros Hc Hd. rewrite <- (size_list_to_set (C := gset Z) l Hd), <- size_dom.
  apply subseteq_size. intros x Hx%elem_of_list_to_set. apply elem_of_dom. by eapply chain_lookup.
Qed.

Lemma free_chain_spec fuel h u p l :
  chain h p l → NoDup l → zlen l <= u < 2 ^ 64 → (length l < fuel)%nat →
  ∃ h', free_chain fuel h u p = Ret (h', u - zlen l) ∧ without l h h'.
Proof.
  revert fuel h u p. induction l as [|x l IH]; intros [|fuel] h u p Hc Hd Hu Hf; try (simpl in Hf; lia).
  - simpl in Hc. subst p. exists h. split; [|by split; [set_solver|]].
    change (Ret (h, u) = Ret (h, u - 0)). by rewrite Z.sub_0_r.
  - simpl in Hc. destruct Hc as (-> & H0 & e & He & Hc). apply NoDup_cons in Hd as [Hx Hd].
    cbn [free_chain]. test (x =? 0) false. rewrite (deref_ok _ _ _ He). run. zlr. pose proof (zlen_nonneg l).
    destruct (IH fuel (delete x h) (u64 (u - 1)) (next e)) as (h' & E & Hin & Hout).
    + by apply chain_delete.
    + done.
    + rewrite wrapu_id by lia. lia.
    + simpl in Hf. lia.
    + exists h'. rewrite E, wrapu_id by lia. split; [apply ret_pair; [done|lia]|]. split.
      * intros y [->|Hy]%elem_of_cons; [|auto]. rewrite Hout by done. apply lookup_delete_eq.
      * intros y Hy. rewrite Hout by set_solver. rewrite lookup_delete_ne; [done|set_solver].
Qed.

Lemma clear_loop_spec n h ht ls i :
  (∀ j p l, (i <= j)%nat → cells ht !! j = Some p → ls !! j = Some l → chain h p l) →
  length (cells ht) = length ls → size ht = zlen (cells ht) → NoDup (concat (drop i ls)) →
  zlen (concat (drop i ls)) < 2 ^ 64 → (length ls < n + i)%nat →
  ∃ h', clear_loop n h ht (Z.of_nat i) (zlen (concat (drop i ls))) = Ret h' ∧ without (concat (drop i ls)) h h'.
Proof.
  revert h i. induction n as [|n IH]; intros h i Hb Hlen Hs Hd Hz Hn.
  { rewrite drop_ge in * by lia. exists h. split; [done|]. by split; [set_solver|]. }
  cbn [clear_loop]. case_cond; to_prop.
  - destruct (lookup_lt_is_Some_2 (cells ht) i) as [p Hp]; [unfold zlen in Hs; lia|].
    destruct (lookup_lt_is_Some_2 ls i) as [l Hl]; [rewrite <- Hlen; by eapply lookup_lt_Some|].
    rewrite (drop_S _ _ _ Hl) in *. cbn [concat] in *. rewrite zlen_app in *.
    apply NoDup_app in Hd as (Hdl & Hdx & Hdr). pose proof (Hb i p l ltac:(lia) Hp Hl) as Hcp.
    rewrite (rd_lookup _ _ _ Hp). run. pose proof (chain_size _ _ _ Hcp Hdl).
    pose proof (zlen_nonneg (concat (drop (S i) ls))). pose proof (zlen_nonneg l).
    destruct (free_chain_spec (S (base.size h)) h (zlen l + zlen (concat (drop (S i) ls))) p l)
      as (h1 & -> & Hin & Hout); [done..|lia|lia|]. run.
    replace (zlen l + zlen (concat (drop (S i) ls)) - zlen l) with (zlen (concat (drop (S i) ls))) by lia.
    replace (Z.of_nat i + 1) with (Z.of_nat (S i)) by lia.
    destruct (IH h1 (S i)) as (h' & -> & Hin' & Hout'); [|done..|lia|lia|].
    { intros j q l' Hj Hq Hl'. eapply chain_agree; [|eapply (Hb j); [lia|done|done]].
      intros x Hx. apply Hout. intros Hxl. apply (Hdx x Hxl).
      apply (elem_of_bucket _ (j - S i) l'); [|done]. rewrite lookup_drop.
      rewrite <- Hl'. f_equal. lia. }
    exists h'. split; [done|]. split.
    + intros x [Hx|Hx]%elem_of_app; [|auto]. rewrite Hout' by auto. auto.
    + intros x [Hx Hx']%not_elem_of_app. rewrite Hout' by done. auto.
  - exists h. split; [done|].
    assert (concat (drop i ls) = []) as ->.
    { apply zlen_zero. pose proof (zlen_nonneg (concat (drop i ls))).
      destruct (decide (i < length ls)%nat); [unfold zlen in *; lia|]. by rewrite drop_ge by lia. }
    by split; [set_solver|].
Qed.

Lemma _dictClear_spec d t ls :
  ht_rep ty (heap d) (get_ht d t) ls → size (get_ht d t) = zlen (cells (get_ht d t)) →
  NoDup (concat ls) → zlen (concat ls) < 2 ^ 64 →
  ∃ h', _dictClear d t = Ret (set_ht (set_heap d h') t _dictReset) ∧ without (concat ls) (heap d) h'.
Proof.
  intros Hr Hs Hd Hz. unfold _dictClear. rewrite (rep_used _ _ _ _ Hr).
  destruct (clear_loop_spec (S (length (cells (get_ht d t)))) (heap d) (get_ht d t) ls 0) as (h' & E & Hw);
    rewrite ?drop_0 in *; [|by eapply rep_length|done..| |].
  - intros j p l _ Hp Hl. by eapply rep_bucket.
  - rewrite (rep_length _ _ _ _ Hr). lia.
  - exists h'. change (Z.of_nat 0) with 0 in E. by rewrite E.
Qed.

(** Both tables are released; the entries the caller holds are kept. *)
Lemma clear_both d m U :
  rep d m U →
  ∃ h', (d1 ← _dictClear d 0; _dictClear d1 1) =
      Ret (Dict _dictReset _dictReset (rehashidx d) (pauserehash d) h') ∧
    dom h' = U ∧ (∀ x, x ∈ U → h' !! x = heap d !! x).
Proof.
  intros (ls0 & ls1 & Hw & Hm & Hsz). pose proof (rep_total _ _ _ _ _ _ _ Hw Hm) as Htot.
  pose proof (zlen_nonneg (concat ls0)). pose proof (zlen_nonneg (concat ls1)).
  pose proof (wf_nodup _ _ _ _ _ Hw) as Hnd. apply NoDup_app in Hnd as (Hd0 & Hdx & Hd1).
  destruct Hw as [H0' H1' Hp Ho].
  assert (∀ ht, ht = _dictReset ∨ (∃ k, alloc_shape ht k) → size ht = zlen (cells ht)) as Hshape.
  { intros ht [->|[k [_ _ Es Ec _]]]; [done|]. by rewrite Es, Ec. }
  destruct (_dictClear_spec d 0 ls0) as (h1 & -> & Hin1 & Hout1); [done| |done|lia|].
  { apply Hshape. destruct Hp as [(_ & _ & Hp)|(_ & Hp & _)]; auto. }
  run. unfold set_ht. cbn [Z.eqb].
  destruct (_dictClear_spec (set_ht0 (set_heap d h1) _dictReset) 1 ls1) as (h2 & -> & Hin2 & Hout2); [| |done|lia|].
  { eapply ht_rep_agree; [|done]. intros x Hx. apply Hout1. set_solver. }
  { apply Hshape. destruct Hp as [(_ & E & _)|(_ & _ & Hp & _)]; [left; exact E|auto]. }
  exists h2. split; [done|].
  assert (∀ x, x ∈ dom (heap d) ↔ x ∈ concat ls0 ∨ x ∈ concat ls1 ∨ x ∈ U) as Hx.
  { intros x. rewrite <- elem_of_elements, Ho, !elem_of_app, elem_of_elements. tauto. }
  assert (∀ x, x ∈ U → (x ∉ concat ls0) ∧ (x ∉ concat ls1)) as HU.
  { intros x Hx'. assert (NoDup ((concat ls0 ++ concat ls1) ++ elements U)) as Hn.
    { rewrite <- Ho. apply NoDup_elements. }
    apply NoDup_app in Hn as (_ & Hn & _). split; intros Hx2; apply (Hn x); set_solver. }
  assert (∀ x, x ∈ U → h2 !! x = heap d !! x) as HUh.
  { intros x Hx'. destruct (HU x Hx'). rewrite Hout2 by done. by apply Hout1. }
  split; [|done]. apply set_eq. intros x. rewrite elem_of_dom. split.
  - intros [e He]. destruct (decide (x ∈ concat ls1)) as [H1x|H1x]; [by rewrite Hin2 in He|].
    rewrite Hout2 in He by done. cbn in He. destruct (decide (x ∈ concat ls0)); [by rewrite Hin1 in He|].
    rewrite Hout1 in He by done. apply elem_of_dom_2, Hx in He. tauto.
  - intros HxU. rewrite HUh by done. apply elem_of_dom, Hx. auto.
Qed.

Lemma rep_empty h p (U : gset Z) : dom h = U → rep (Dict _dictReset _dictReset (-1) p h) ∅ U.
Proof.
  intros Hd. exists [], []. split_and!; [|by rewrite map_to_list_empty|by rewrite map_size_empty; lia].
  split; cbn; [apply ht_rep_reset..| |by rewrite Hd]. left. auto.
Qed.

End delete.
End DictDelete.
