(* ===== verification/DictCursor.v ===== *)
(** The cursor arithmetic of [dictScan] (component [Dict]): [rev] reverses the
    bits of a word, and the step of the cursor is an increment of its reverse
    at the granularity of the table. *)
From stdpp Require Import gmap.
From S2P Require Import Prelude Dict.

Module DictCursor.
Import Dict.

(** One round of [rev] with its mask computed. *)
Definition swap (s mask v : Z) : Z :=
  Z.lor (Z.land (Z.shiftr v s) mask)
        (Z.land (u64 (Z.shiftl v s)) (Z.lxor mask (2 ^ 64 - 1))).

(** Where a round takes a bit from. *)
Definition source (s mask i : Z) : Z := if Z.testbit mask i then i + s else i - s.

(** The shifts and masks of the rounds, the last one first. *)
Definition rounds : list (Z * Z) :=
  [(1, 0x5555555555555555); (2, 0x3333333333333333); (4, 0x0F0F0F0F0F0F0F0F);
   (8, 0x00FF00FF00FF00FF); (16, 0x0000FFFF0000FFFF); (32, 0x00000000FFFFFFFF)].

Lemma rev_rounds v : rev v = foldr (λ r v, swap r.1 r.2 v) v rounds.
Proof. reflexivity. Qed.

Lemma ones_bit i : 0 <= i < 64 → Z.testbit (2 ^ 64 - 1) i = true.
Proof. intros. change (2 ^ 64 - 1) with (Z.ones 64). by apply Z.ones_spec_low. Qed.

Lemma swap_bit s mask v i :
  0 <= s → 0 <= i < 64 → Z.testbit (swap s mask v) i = Z.testbit v (source s mask i).
Proof.
  intros Hs Hi. unfold swap, source, wrapu.
  rewrite Z.lor_spec, !Z.land_spec, Z.lxor_spec, ones_bit by done.
  rewrite Z.shiftr_spec, Z.mod_pow2_bits_low, Z.shiftl_spec by lia.
  destruct (Z.testbit mask i); cbn; rewrite ?andb_true_r, ?andb_false_r, ?orb_false_r; done.
Qed.

Lemma rounds_bit rs v i :
  Forall (λ r, 0 <= r.1) rs →
  (∀ k, (k <= length rs)%nat → 0 <= foldl (λ i r, source r.1 r.2 i) i (take k rs) < 64) →
  Z.testbit (foldr (λ r v, swap r.1 r.2 v) v rs) i =
  Z.testbit v (foldl (λ i r, source r.1 r.2 i) i rs).
Proof.
  revert i. induction rs as [|r rs IH]; intros i Hs Hi; [done|]. simpl.
  apply Forall_cons in Hs as [Hr Hs]. rewrite swap_bit; [|done|apply (Hi 0%nat); lia].
  apply IH; [done|]. intros k Hk. apply (Hi (S k)). simpl. lia.
Qed.

(** The rounds take bit [i] from bit [63 - i]. *)
Lemma rounds_source :
  forallb (λ i, forallb (λ k, let j := foldl (λ i r, source r.1 r.2 i) i (take k rounds) in
                               (0 <=? j) && (j <? 64)) (seq 0 7) &&
                (foldl (λ i r, source r.1 r.2 i) i rounds =? 63 - i)) (seqZ 0 64) = true.
Proof. vm_compute. reflexivity. Qed.

Lemma rev_bit v i : 0 <= i < 64 → Z.testbit (rev v) i = Z.testbit v (63 - i).
Proof.
  intros Hi. pose proof rounds_source as Hr. rewrite forallb_forall in Hr.
  assert (In i (seqZ 0 64)) as Hin by (apply list_elem_of_In, elem_of_seqZ; lia).
  specialize (Hr i Hin). apply andb_true_iff in Hr as [Hk He]. apply Z.eqb_eq in He.
  rewrite rev_rounds, rounds_bit, He; [done|repeat constructor; cbn; lia|].
  intros k Hlt. rewrite forallb_forall in Hk. specialize (Hk k).
  assert (In k (seq 0 7)) as Hkin by (apply in_seq; simpl in Hlt; lia). specialize (Hk Hkin). cbn zeta in Hk. lia.
Qed.

Lemma rev_range v : 0 <= rev v < 2 ^ 64.
Proof.
  assert (∀ a, 0 <= a < 2 ^ 64 ↔ 0 <= a ∧ a = a mod 2 ^ 64) as Ha.
  { intros a. split; [intros; split; [lia|by rewrite Z.mod_small]|].
    intros [H0 E]. rewrite E. by apply Z.mod_pos_bound. }
  rewrite rev_rounds. cbn [foldr rounds fst snd]. set (w := swap 2 _ _). unfold swap.
  apply Ha. split.
  - apply Z.lor_nonneg. split; apply Z.land_nonneg; right; vm_compute; discriminate.
  - apply Z.bits_inj'. intros i Hi. destruct (decide (i < 64)) as [Hlt|Hge].
    + by rewrite Z.mod_pow2_bits_low.
    + rewrite Z.mod_pow2_bits_high by lia. rewrite Z.lor_spec, !Z.land_spec.
      rewrite (Z.bits_above_log2 0x5555555555555555), (Z.bits_above_log2 (Z.lxor _ _));
        [by rewrite !andb_false_r|vm_compute; discriminate| |vm_compute; discriminate|].
      all: eapply Z.lt_le_trans; [|apply Z.nlt_ge, Hge]; by vm_compute.
Qed.

(** Words are equal when their 64 bits are. *)
Lemma word_ext a b :
  0 <= a < 2 ^ 64 → 0 <= b < 2 ^ 64 → (∀ i, 0 <= i < 64 → Z.testbit a i = Z.testbit b i) → a = b.
Proof.
  intros Ha Hb Hi. rewrite <- (Z.mod_small a (2 ^ 64)), <- (Z.mod_small b (2 ^ 64)) by done.
  apply Z.bits_inj'. intros i Hi0. destruct (decide (i < 64)).
  - rewrite !Z.mod_pow2_bits_low by lia. apply Hi. lia.
  - by rewrite !Z.mod_pow2_bits_high by lia.
Qed.

Lemma rev_rev v : 0 <= v < 2 ^ 64 → rev (rev v) = v.
Proof.
  intros Hv. apply word_ext; [apply rev_range|done|]. intros i Hi.
  rewrite !rev_bit by lia. f_equal. lia.
Qed.

Lemma same_low k v w :
  0 <= k → v mod 2 ^ k = w mod 2 ^ k ↔ ∀ i, 0 <= i < k → Z.testbit v i = Z.testbit w i.
Proof.
  intros Hk. split.
  - intros E i Hi. rewrite <- (Z.mod_pow2_bits_low v k i), <- (Z.mod_pow2_bits_low w k i) by lia. by rewrite E.
  - intros Hb. apply Z.bits_inj'. intros i Hi. destruct (decide (i < k)).
    + rewrite !Z.mod_pow2_bits_low by lia. apply Hb. lia.
    + by rewrite !Z.mod_pow2_bits_high by lia.
Qed.

Lemma same_high n a b :
  0 <= n <= 64 → 0 <= a < 2 ^ 64 → 0 <= b < 2 ^ 64 →
  a / 2 ^ n = b / 2 ^ n ↔ ∀ i, n <= i < 64 → Z.testbit a i = Z.testbit b i.
Proof.
  intros Hn Ha Hb. rewrite <- !Z.shiftr_div_pow2 by lia. split.
  - intros E i Hi. replace i with ((i - n) + n) by lia. rewrite <- !Z.shiftr_spec by lia. by rewrite E.
  - intros Hi. apply Z.bits_inj'. intros i Hi0. rewrite !Z.shiftr_spec by lia.
    destruct (decide (i + n < 64)); [apply Hi; lia|].
    rewrite <- (Z.mod_small a (2 ^ 64)), <- (Z.mod_small b (2 ^ 64)) by done.
    by rewrite !Z.mod_pow2_bits_high by lia.
Qed.

(** Two words are in the same bucket of a table with [2 ^ k] buckets when their
    reverses are in the same block of [2 ^ (64 - k)] words. *)
Lemma rev_block k v w :
  0 <= k <= 64 → v mod 2 ^ k = w mod 2 ^ k ↔ rev v / 2 ^ (64 - k) = rev w / 2 ^ (64 - k).
Proof.
  intros Hk. rewrite same_low, same_high by (lia || apply rev_range). split; intros Hb i Hi.
  - rewrite !rev_bit by lia. apply Hb. lia.
  - specialize (Hb (63 - i)). rewrite !rev_bit in Hb by lia.
    replace (63 - (63 - i)) with i in Hb by lia. apply Hb. lia.
Qed.

(** The step of the cursor leads to the next block. *)
Lemma next_cursor_rev v k :
  0 <= k <= 64 →
  rev (next_cursor v (2 ^ k - 1)) = ((rev v / 2 ^ (64 - k) + 1) * 2 ^ (64 - k)) mod 2 ^ 64.
Proof.
  intros Hk. unfold next_cursor. set (u := Z.lor v _). rewrite rev_rev by (by apply wrapu_range).
  assert (∀ i, 0 <= i < 64 → Z.testbit u i = Z.testbit v i || negb (i <? k)) as Hu.
  { intros i Hi. unfold u. rewrite Z.lor_spec, Z.lxor_spec, ones_bit, xorb_true_r by done.
    replace (2 ^ k - 1) with (Z.ones k) by (rewrite Z.ones_equiv; lia).
    destruct (Z.ltb_spec i k); [by rewrite Z.ones_spec_low by lia|by rewrite Z.ones_spec_high by lia]. }
  assert (rev u / 2 ^ (64 - k) = rev v / 2 ^ (64 - k)) as Ed.
  { apply rev_block; [done|]. apply same_low; [lia|]. intros i Hi. rewrite Hu by lia.
    test (i <? k) true. by rewrite orb_false_r. }
  assert (rev u mod 2 ^ (64 - k) = Z.ones (64 - k)) as Em.
  { apply Z.bits_inj'. intros i Hi. destruct (decide (i < 64 - k)).
    - rewrite Z.mod_pow2_bits_low, Z.ones_spec_low, rev_bit, Hu by lia. test (63 - i <? k) false. by rewrite orb_true_r.
    - by rewrite Z.mod_pow2_bits_high, Z.ones_spec_high by lia. }
  pose proof (Z.div_mod (rev u) (2 ^ (64 - k)) ltac:(lia)) as Hdm. rewrite Ed, Em, Z.ones_equiv in Hdm.
  unfold wrapu. f_equal. lia.
Qed.

Lemma next_cursor_range v m : 0 <= next_cursor v m < 2 ^ 64.
Proof. apply rev_range. Qed.

(** The bits in which two masks differ, on a cursor that starts a block of the
    finer one. *)
Lemma mask_diff v k0 k1 :
  0 <= v < 2 ^ 64 → 0 <= k0 <= k1 → k1 <= 64 → rev v mod 2 ^ (64 - k1) = 0 →
  Z.land v (Z.lxor (2 ^ k0 - 1) (2 ^ k1 - 1)) = 0 ↔ rev v mod 2 ^ (64 - k0) = 0.
Proof.
  intros Hv Hk Hk1 Hm.
  assert (∀ k, 2 ^ k - 1 = Z.ones k) as Ho by (intros; rewrite Z.ones_equiv; lia).
  assert (∀ k, 0 <= k <= 64 → rev v mod 2 ^ (64 - k) = 0 ↔ ∀ i, k <= i < 64 → Z.testbit v i = false) as Hz.
  { intros k Hk'. rewrite <- (Z.mod_0_l (2 ^ (64 - k))) at 1 by lia. rewrite same_low by lia. split.
    - intros Hb i Hi. specialize (Hb (63 - i)). rewrite rev_bit, Z.bits_0 in Hb by lia.
      replace (63 - (63 - i)) with i in Hb by lia. apply Hb. lia.
    - intros Hb i Hi. rewrite rev_bit, Z.bits_0 by lia. apply Hb. lia. }
  rewrite Hz in * by lia. rewrite !Ho. split.
  - intros E i Hi. destruct (decide (k1 <= i)); [apply Hm; lia|].
    assert (Z.testbit (Z.land v (Z.lxor (Z.ones k0) (Z.ones k1))) i = false) as Hb by (by rewrite E, Z.bits_0).
    rewrite Z.land_spec, Z.lxor_spec, Z.ones_spec_high, Z.ones_spec_low in Hb by lia.
    cbn in Hb. by rewrite andb_true_r in Hb.
  - intros Hb. apply Z.bits_inj'. intros i Hi. rewrite Z.bits_0, Z.land_spec, Z.lxor_spec.
    destruct (decide (i < k0)); [rewrite !Z.ones_spec_low by lia; by rewrite andb_false_r|].
    destruct (decide (i < 64)); [rewrite Hb by lia; done|].
    rewrite !Z.ones_spec_high by lia. by rewrite andb_false_r.
Qed.

End DictCursor.
