(* ===== verification/DictScan.v ===== *)
(** Scanning with a cursor (component [Dict]): what one call of [dictScan] visits, in terms of the bit-reversed
    hash values. *)
From stdpp Require Import gmap.
From S2P Require Import Prelude Dict DictRep DictRehash DictOps DictCursor.

Module DictScan.
Import Dict DictRep DictRehash DictOps DictCursor.

Lemma emit_chain_spec fuel h p l : chain h p l → (length l < fuel)%nat → emit_chain fuel h p = Ret l.
Proof.
  revert fuel p. induction l as [|x l IH]; intros [|fuel] p Hc Hf; try (simpl in Hf; lia).
  - simpl in Hc. by subst p.
  - simpl in Hc. destruct Hc as (-> & H0 & e & He & Hc). cbn [emit_chain]. test (x =? 0) false.
    rewrite (deref_ok _ _ _ He). run. by rewrite IH by (done || simpl in Hf; lia).
Qed.

(** The number of buckets of the smaller table in use. *)
Definition scan_size (d : dict) : Z :=
  if dictIsRehashing d then Z.min (size (ht0 d)) (size (ht1 d)) else size (ht0 d).

(** The block of reversed hash values that a table with [2 ^ k] buckets puts
    into one bucket. *)
Definition block (k v : Z) : Z := rev v / 2 ^ (64 - k).

Section scan.
Context {ty : dictType}.

(** The entries of [ls] whose reversed hash is in [lo, hi) are in [l]. *)
Definition covers (h : gmap Z dictEntry) (ls : list (list Z)) (l : list Z) (lo hi : Z) : Prop :=
  ∀ x e, x ∈ concat ls → h !! x = Some e → lo <= rev (hashFunction ty (key e)) < hi → x ∈ l.

Lemma emit_bucket_spec d ht ls k v :
  ht_rep ty (heap d) ht ls → alloc_shape ht k → NoDup (concat ls) →
  (∀ l, l ⊆+ concat ls → (length l <= base.size (heap d))%nat) →
  ∃ l, emit_bucket d ht (Z.land v (sizemask ht)) = Ret l ∧ (∀ x, x ∈ l → x ∈ concat ls) ∧
    covers (heap d) ls l (block k v * 2 ^ (64 - k)) ((block k v + 1) * 2 ^ (64 - k)).
Proof.
  intros Hr Hs Hd Hl. destruct (bucket_at _ _ _ _ _ v Hr Hs) as (j & p & l & Ej & Hp & Hj & Hc & Hh).
  exists l. unfold emit_bucket. rewrite Ej, (rd_lookup _ _ _ Hp). run.
  pose proof (Hl l (bucket_submseteq _ _ _ Hj)). rewrite (emit_chain_spec _ _ _ _ Hc) by lia.
  split_and!; [done|intros; by eapply elem_of_bucket|].
  intros x e Hx He Hb. apply elem_of_concat in Hx as (i & l' & Hi & Hx).
  destruct (decide (i = j)) as [->|Hij]; [by simplify_eq|]. exfalso.
  destruct (lookup_lt_is_Some_2 (cells ht) i) as [p' Hp'].
  { rewrite (rep_length _ _ _ _ Hr). by eapply lookup_lt_Some. }
  destruct (rep_bucket _ _ _ _ Hr _ _ _ Hp' Hi) as [_ Hh']. rewrite Forall_forall in Hh'.
  destruct (Hh' x Hx) as (e' & He' & Eh). simplify_eq.
  pose proof (shape_k _ _ Hs) as Hk. rewrite (mask_ones _ k) in Ej, Eh by done.
  apply Hij, Nat2Z.inj. rewrite <- Ej, <- Eh. apply rev_block; [lia|]. unfold block in Hb.
  symmetry. apply Z.div_unique_pos with (rev (hashFunction ty (key e)) - rev v / 2 ^ (64 - k) * 2 ^ (64 - k)); lia.
Qed.

(** Blocks of the coarser table consist of [2 ^ (k1 - k0)] blocks of the finer
    one. *)
Lemma block_coarse k0 k1 v : 0 <= k0 <= k1 → k1 <= 64 → block k0 v = block k1 v / 2 ^ (k1 - k0).
Proof.
  intros Hk Hk1. unfold block. replace (64 - k0) with ((64 - k1) + (k1 - k0)) by lia.
  rewrite Z.pow_add_r, Z.div_div by lia. done.
Qed.

Lemma block_range k v : 0 <= k <= 64 → 0 <= block k v < 2 ^ k.
Proof.
  intros Hk. pose proof (rev_range v). unfold block. split; [apply Z.div_pos; lia|].
  apply Z.div_lt_upper_bound; [lia|]. rewrite <- Z.pow_add_r by lia.
  replace (64 - k + k) with 64 by lia. lia.
Qed.

(** One step of the cursor at the finer granularity, seen from the coarser
    one: either the block of the coarser table is complete, or the cursor is
    at the next block of the finer one within it. *)
Lemma cursor_step k0 k1 v :
  0 <= k0 <= k1 → k1 <= 64 →
  let v1 := next_cursor v (2 ^ k1 - 1) in
  (Z.land v1 (Z.lxor (2 ^ k0 - 1) (2 ^ k1 - 1)) = 0 ∧
   (block k1 v + 1) * 2 ^ (64 - k1) = (block k0 v + 1) * 2 ^ (64 - k0)) ∨
  (Z.land v1 (Z.lxor (2 ^ k0 - 1) (2 ^ k1 - 1)) ≠ 0 ∧
   block k1 v1 = block k1 v + 1 ∧ block k0 v1 = block k0 v ∧ 
   block k1 v + 1 < (block k0 v + 1) * 2 ^ (k1 - k0)).
Proof.
  intros Hk Hk1 v1. pose proof (next_cursor_rev v k1 ltac:(lia)) as Hr. fold v1 in Hr.
  pose proof (block_range k1 v ltac:(lia)) as Hb. change (rev v / 2 ^ (64 - k1)) with (block k1 v) in Hr.
  rewrite (block_coarse k0 k1 v), (block_coarse k0 k1 v1) by lia.
  assert (2 ^ (64 - k0) = 2 ^ (k1 - k0) * 2 ^ (64 - k1)) as E0.
  { rewrite <- Z.pow_add_r by lia. f_equal. lia. }
  assert (2 ^ 64 = 2 ^ k1 * 2 ^ (64 - k1)) as E64 by (rewrite <- Z.pow_add_r by lia; f_equal; lia).
  assert (2 ^ k1 = 2 ^ k0 * 2 ^ (k1 - k0)) as E1 by (rewrite <- Z.pow_add_r by lia; f_equal; lia).
  rewrite E64, Z.mul_mod_distr_r in Hr by lia.
  assert (rev v1 mod 2 ^ (64 - k1) = 0) as Hm by (rewrite Hr; apply Z.mod_mul; lia).
  rewrite (mask_diff v1 k0 k1) by (done || lia || apply next_cursor_range).
  set (q := 2 ^ (k1 - k0)) in *. set (w := 2 ^ (64 - k1)) in *. set (a := block k1 v) in *.
  assert (0 < q) by (unfold q; lia). assert (0 < w) by (unfold w; lia).
  rewrite E0, Hr. rewrite Z.mul_mod_distr_r by lia.
  rewrite Z.mod_mod_divide by (exists (2 ^ k0); lia).
  pose proof (Z.div_mod a q ltac:(lia)) as Ha. pose proof (Z.mod_pos_bound a q ltac:(lia)).
  destruct (decide (a mod q = q - 1)) as [El|El].
  - left. assert ((a + 1) mod q = 0) as ->.
    { replace (a + 1) with ((a / q + 1) * q) by lia. apply Z.mod_mul. lia. }
    split; [lia|]. nia.
  - right. assert ((a + 1) mod q = a mod q + 1) as ->.
    { symmetry. apply Z.mod_unique_pos with (a / q); lia. }
    assert (a + 1 < (a / q + 1) * q) as Hlt by nia.
    assert (a / q < 2 ^ k0) as Hq by (apply Z.div_lt_upper_bound; lia).
    assert (block k1 v1 = a + 1) as Hb1.
    { unfold block. fold w. rewrite Hr, Z.div_mul by lia. apply Z.mod_small. nia. }
    rewrite Hb1. split_and!; [nia|done| |done]. symmetry. apply Z.div_unique_pos with (a mod q + 1); lia.
Qed.

Lemma covers_app h ls l1 l2 a b c : covers h ls l1 a b → covers h ls l2 b c → covers h ls (l1 ++ l2) a c.
Proof.
  intros H1 H2 x e Hx He Hr. apply elem_of_app.
  destruct (decide (rev (hashFunction ty (key e)) < b)); [left; eapply H1|right; eapply H2]; eauto; lia.
Qed.

Lemma covers_mono h ls l l' a b a' b' :
  covers h ls l a b → a <= a' → b' <= b → (∀ x, x ∈ l → x ∈ l') → covers h ls l' a' b'.
Proof. intros Hc Ha Hb Hl x e Hx He Hr. apply Hl. eapply Hc; [done..|lia]. Qed.

(** The loop over the larger table covers the block of the smaller one from
    the cursor on. *)
Lemma scan_loop_spec fuel d t1 ls k0 k1 v :
  ht_rep ty (heap d) t1 ls → alloc_shape t1 k1 → NoDup (concat ls) →
  (∀ l, l ⊆+ concat ls → (length l <= base.size (heap d))%nat) → 0 <= k0 <= k1 →
  (block k0 v + 1) * 2 ^ (k1 - k0) - block k1 v <= Z.of_nat fuel →
  ∃ l v', scan_loop fuel d t1 v (2 ^ k0 - 1) (sizemask t1) = Ret (l, v') ∧ 0 <= v' < 2 ^ 64 ∧
    rev v' = ((block k0 v + 1) * 2 ^ (64 - k0)) mod 2 ^ 64 ∧ (∀ x, x ∈ l → x ∈ concat ls) ∧
    covers (heap d) ls l (block k1 v * 2 ^ (64 - k1)) ((block k0 v + 1) * 2 ^ (64 - k0)).
Proof.
  intros Hr Hs Hd Hl Hk. pose proof (shape_k _ _ Hs) as Hk1.
  revert v. induction fuel as [|fuel IH]; intros v Hf.
  { exfalso. rewrite (block_coarse k0 k1) in Hf by lia.
    pose proof (Z.div_mod (block k1 v) (2 ^ (k1 - k0)) ltac:(lia)).
    pose proof (Z.mod_pos_bound (block k1 v) (2 ^ (k1 - k0)) ltac:(lia)). lia. }
  destruct (emit_bucket_spec d t1 ls k1 v Hr Hs Hd Hl) as (l & E & Hin & Hcov).
  cbn [scan_loop]. rewrite E. run. rewrite (shape_mask _ _ Hs).
  pose proof (next_cursor_range v (2 ^ k1 - 1)) as Hv1.
  pose proof (next_cursor_rev v k1 ltac:(lia)) as Hrev. fold (block k1 v) in Hrev.
  destruct (cursor_step k0 k1 v) as [(Hz & Hb)|(Hz & Hb1 & Hb0 & Hlt)]; [done|lia| |];
    set (v1 := next_cursor v (2 ^ k1 - 1)) in *.
  - rewrite Hz. cbn [Z.eqb]. exists l, v1. rewrite <- Hb. done.
  - rewrite (proj2 (Z.eqb_neq _ _) Hz).
    destruct (IH v1) as (l' & v' & E' & Hv' & Hrev' & Hin' & Hcov'); [rewrite Hb0, Hb1; lia|].
    rewrite (shape_mask _ _ Hs) in E'. rewrite E'. run. exists (l ++ l'), v'.
    rewrite Hb0 in Hrev'. split_and!; [done|lia|lia|done| |].
    + intros x [?|?]%elem_of_app; auto.
    + rewrite Hb0, Hb1 in Hcov'. by eapply covers_app.
Qed.

End scan.

Section scan_rep.
Context {ty : dictType} {K : Type} `{Countable K} {content : Z → K}.
Implicit Types (d : dict) (m : gmap K item) (U : gset Z).
Abbreviation rep := (dict_rep ty content).

Lemma set_pause_rep d p m U : rep d m U → rep (set_pause d p) m U.
Proof. intros (ls0 & ls1 & [H0 H1 Hp Ho] & Hm & Hsz). by exists ls0, ls1. Qed.

(** A rehashing dictionary: the bucket of the smaller table and the loop over
    the larger one. *)
Lemma scan_two d t0 t1 l0 l1 k0 k1 v :
  ht_rep ty (heap d) t0 l0 → alloc_shape t0 k0 → ht_rep ty (heap d) t1 l1 → alloc_shape t1 k1 →
  NoDup (concat l0) → NoDup (concat l1) →
  (∀ l, l ⊆+ concat l0 → (length l <= base.size (heap d))%nat) →
  (∀ l, l ⊆+ concat l1 → (length l <= base.size (heap d))%nat) → k0 <= k1 →
  ∃ l v', (l ← emit_bucket d t0 (Z.land v (sizemask t0));
           '(l', v') ← scan_loop (S (length (cells t1))) d t1 v (sizemask t0) (sizemask t1);
           Ret (l ++ l', v')) = Ret (l, v') ∧ 0 <= v' < 2 ^ 64 ∧
    rev v' = ((block k0 v + 1) * 2 ^ (64 - k0)) mod 2 ^ 64 ∧
    (∀ x, x ∈ l → x ∈ concat l0 ∨ x ∈ concat l1) ∧
    covers (ty := ty) (heap d) l0 l (rev v) ((block k0 v + 1) * 2 ^ (64 - k0)) ∧
    covers (ty := ty) (heap d) l1 l (rev v) ((block k0 v + 1) * 2 ^ (64 - k0)).
Proof.
  intros Hr0 Hs0 Hr1 Hs1 Hd0 Hd1 Hl0 Hl1 Hk.
  destruct (emit_bucket_spec d t0 l0 k0 v Hr0 Hs0 Hd0 Hl0) as (l & -> & Hin & Hcov). run.
  pose proof (shape_k _ _ Hs0) as Hk0. pose proof (shape_k _ _ Hs1) as Hk1.
  assert (∀ k, 2 <= k <= 60 → block k v * 2 ^ (64 - k) <= rev v) as Hle.
  { intros k Hk'. unfold block. pose proof (Z.mul_div_le (rev v) (2 ^ (64 - k)) ltac:(lia)). lia. }
  destruct (scan_loop_spec (S (length (cells t1))) d t1 l1 k0 k1 v Hr1 Hs1 Hd1 Hl1) as
    (l' & v' & E & Hv' & Hrev & Hin' & Hcov'); [lia| |].
  { pose proof (block_range k0 v ltac:(lia)). pose proof (block_range k1 v ltac:(lia)).
    pose proof (shape_cells _ _ Hs1) as Hc. unfold zlen in Hc. rewrite Nat2Z.inj_succ, Hc.
    replace (2 ^ k1) with (2 ^ k0 * 2 ^ (k1 - k0)) by (rewrite <- Z.pow_add_r by lia; f_equal; lia). nia. }
  rewrite (shape_mask _ _ Hs0), E. run. exists (l ++ l'), v'. split_and!; [done|lia|lia|done| | |].
  - intros x [?|?]%elem_of_app; auto.
  - eapply (covers_mono _ _ _ _ _ _ _ _ Hcov); [by apply Hle|lia|].
    intros x Hx. apply elem_of_app. by left.
  - eapply (covers_mono _ _ _ _ _ _ _ _ Hcov'); [by apply Hle|lia|].
    intros x Hx. apply elem_of_app. by right.
Qed.

(** The body of [dictScan] between the pause and the resumption. *)
Lemma scan_body d ls0 ls1 U v :
  dict_wf ty d ls0 ls1 U → (∃ k, alloc_shape (ht0 d) k) →
  ∃ l v' k,
    (if negb (dictIsRehashing d) then
       l ← emit_bucket d (ht0 d) (Z.land v (sizemask (ht0 d)));
       Ret (l, next_cursor v (sizemask (ht0 d)))
     else
       let '(t0, t1) := if size (ht1 d) <? size (ht0 d) then (ht1 d, ht0 d) else (ht0 d, ht1 d) in
       l ← emit_bucket d t0 (Z.land v (sizemask t0));
       '(l', v) ← scan_loop (S (length (cells t1))) d t1 v (sizemask t0) (sizemask t1);
       Ret (l ++ l', v)) = Ret (l, v') ∧
    scan_size d = 2 ^ k ∧ 2 <= k <= 60 ∧ 0 <= v' < 2 ^ 64 ∧
    rev v' = ((block k v + 1) * 2 ^ (64 - k)) mod 2 ^ 64 ∧
    (∀ x, x ∈ l → x ∈ concat ls0 ++ concat ls1) ∧
    covers (ty := ty) (heap d) ls0 l (rev v) ((block k v + 1) * 2 ^ (64 - k)) ∧
    covers (ty := ty) (heap d) ls1 l (rev v) ((block k v + 1) * 2 ^ (64 - k)).
Proof.
  intros Hw [k0 Hk0]. pose proof (wf_nodup _ _ _ _ _ Hw) as Hnd. apply NoDup_app in Hnd as (Hd0 & _ & Hd1).
  assert (∀ l, l ⊆+ concat ls0 → (length l <= base.size (heap d))%nat) as Hl0.
  { intros l Hl. eapply wf_heap; [done|]. by apply submseteq_inserts_r. }
  assert (∀ l, l ⊆+ concat ls1 → (length l <= base.size (heap d))%nat) as Hl1.
  { intros l Hl. eapply wf_heap; [done|]. by apply submseteq_inserts_l. }
  pose proof Hw as [Hr0 Hr1 _ _]. unfold scan_size. pose proof (shape_k _ _ Hk0) as Hkk.
  destruct (dictIsRehashing d) eqn:Hre; cbn [negb].
  - destruct (rehash_phase _ _ _ _ _ Hw Hre) as (_ & _ & [k1 Hk1] & _). pose proof (shape_k _ _ Hk1) as Hkk1.
    rewrite (shape_size _ _ Hk0), (shape_size _ _ Hk1).
    destruct (Z.ltb_spec (2 ^ k1) (2 ^ k0)) as [Hlt|Hlt].
    + apply Z.pow_lt_mono_r_iff in Hlt as Hlt'; [|lia|lia].
      destruct (scan_two d (ht1 d) (ht0 d) ls1 ls0 k1 k0 v) as (l & v' & E & Hv' & Hrev & Hin & Hc1 & Hc0); try (done || lia).
      exists l, v', k1. split_and!; try (done || lia). intros x Hx. apply Hin in Hx. apply elem_of_app. tauto.
    + apply Z.pow_le_mono_r_iff in Hlt as Hlt'; [|lia|lia].
      destruct (scan_two d (ht0 d) (ht1 d) ls0 ls1 k0 k1 v) as (l & v' & E & Hv' & Hrev & Hin & Hc0 & Hc1); try (done || lia).
      exists l, v', k0. split_and!; try (done || lia). intros x Hx. apply Hin in Hx. apply elem_of_app. tauto.
  - destruct (emit_bucket_spec d (ht0 d) ls0 k0 v Hr0 Hk0 Hd0 Hl0) as (l & -> & Hin & Hcov). run.
    exists l, (next_cursor v (sizemask (ht0 d))), k0. pose proof (next_cursor_range v (sizemask (ht0 d))).
    rewrite (shape_size _ _ Hk0). split_and!; try (done || lia).
    + rewrite (shape_mask _ _ Hk0). apply next_cursor_rev. lia.
    + intros x Hx. apply elem_of_app. auto.
    + eapply (covers_mono _ _ _ _ _ _ _ _ Hcov); [|lia|done]. unfold block.
      pose proof (Z.mul_div_le (rev v) (2 ^ (64 - k0)) ltac:(lia)). lia.
    + rewrite (wf_single _ _ _ _ Hw Hre). intros x e Hx. by apply elem_of_nil in Hx.
Qed.

Lemma pause_resume p : - 2 ^ 15 <= p < 2 ^ 15 → s16 (s16 (p + 1) - 1) = p.
Proof.
  intros Hp. destruct (decide (p = 2 ^ 15 - 1)) as [->|]; [done|].
  rewrite (wraps_id 16 (p + 1)) by (cbn; lia).
  replace (p + 1 - 1) with p by lia. apply wraps_id; cbn; lia.
Qed.

(** One call of [dictScan]: the cursor moves to the next block of the smaller
    table or back to 0, and every entry whose reversed hash is between the old
    and the new cursor is visited. *)
Lemma dictScan_spec d m U v :
  rep d m U → 0 <= v < 2 ^ 64 →
  ∃ d' l v', dictScan d v = Ret (d', l, v') ∧ 0 <= v' < 2 ^ 64 ∧ rep d' m U ∧
    (- 2 ^ 15 <= pauserehash d < 2 ^ 15 → d' = d) ∧
    (∀ x, x ∈ l → ∃ c it, m !! c = Some it ∧ addr it = x) ∧
    ((m = ∅ ∧ v' = 0) ∨ ∃ k, scan_size d = 2 ^ k ∧ 2 <= k <= 60 ∧
       rev v' = ((block k v + 1) * 2 ^ (64 - k)) mod 2 ^ 64) ∧
    (∀ c it, m !! c = Some it → rev v <= rev (hashFunction ty (ikey it)) →
       v' = 0 ∨ rev (hashFunction ty (ikey it)) < rev v' → addr it ∈ l).
Proof.
  intros Hd Hv. unfold dictScan. rewrite (dictSize_spec _ _ _ Hd).
  destruct (Z.eqb_spec (Z.of_nat (base.size m)) 0) as [Hz|Hz].
  { exists d, [], 0. assert (m = ∅) as -> by (apply map_size_empty_inv; lia).
    split_and!; [done|lia|lia|done|done| |by left|].
    - intros x Hx. by apply elem_of_nil in Hx.
    - intros c it. by rewrite lookup_empty. }
  pose proof (set_pause_rep _ (s16 (pauserehash d + 1)) _ _ Hd) as Hd1.
  fold (dictPauseRehashing d) in Hd1. set (d1 := dictPauseRehashing d) in *.
  destruct (rep_alloc_nonempty _ _ _ Hd1) as [k0 Hk0]; [lia|].
  destruct Hd1 as (ls0 & ls1 & Hw & Hm & Hsz).
  destruct (scan_body d1 ls0 ls1 U v Hw ltac:(by exists k0)) as
    (l & v' & k & E & Hs & Hk & Hv' & Hrev & Hin & Hc0 & Hc1).
  cbn zeta. rewrite E. run. exists (dictResumeRehashing d1), l, v'. split_and!; [done|lia|lia| | | | |].
  - apply set_pause_rep. by exists ls0, ls1.
  - intros Hp. unfold d1, dictResumeRehashing, dictPauseRehashing, set_pause. cbn.
    rewrite pause_resume by done. by destruct d.
  - intros x Hx. apply Hin in Hx. destruct (wf_entry _ _ _ _ _ Hw Hx) as [_ [e He]].
    exists (content (key e)), (Item x (key e) (val e)). split; [|done].
    apply (rep_item _ _ _ _ _ _ _ Hw Hm). exists x. split; [done|]. unfold item_of. by rewrite He.
  - right. exists k. done.
  - intros c it Hc Hlo Hhi. pose proof Hc as Hc'.
    apply (rep_item _ _ _ _ _ _ _ Hw Hm) in Hc as (x & Hx & Ei).
    destruct (wf_entry _ _ _ _ _ Hw Hx) as [_ [e He]]. unfold item_of in Ei. rewrite He in Ei.
    injection Ei as <- <-. cbn [addr ikey] in *.
    assert (rev (hashFunction ty (key e)) < (block k v + 1) * 2 ^ (64 - k)) as Hlt.
    { pose proof (rev_range (hashFunction ty (key e))). destruct (decide ((block k v + 1) * 2 ^ (64 - k) < 2 ^ 64)).
      - rewrite Z.mod_small in Hrev by (pose proof (block_range k v ltac:(lia)); lia).
        destruct Hhi as [->|?]; [|lia]. exfalso. pose proof (block_range k v ltac:(lia)).
        change (rev 0) with 0 in Hrev. nia.
      - lia. }
    apply elem_of_app in Hx as [Hx|Hx]; [eapply Hc0|eapply Hc1]; done.
Qed.

End scan_rep.
End DictScan.
