(* ===== verification/DictIter.v ===== *)
(** Iterators (component [Dict]): the entries a safe iterator returns, also when
    the caller deletes the entries it is given. *)
From stdpp Require Import gmap.
From S2P Require Import Prelude Dict DictRep DictRehash DictOps DictDelete.

Module DictIter.
Import Dict DictRep DictRehash DictOps DictDelete.

(** The loop of a caller that visits every entry and deletes those whose key
    is a victim. *)
Fixpoint iterate (fuel : nat) (ty : dictType) (cr : dictResizeEnable) (victim : Z → bool) (d : dict)
    (it : dictIterator) : outcome (dict * dictIterator * list Z) :=
  match fuel with
  | O => OutOfFuel
  | S fuel =>
    '(d, it, he) ← dictNext d it;
    if he =? 0 then Ret (d, it, [])
    else
      e ← deref (heap d) he;
      d ← (if victim (key e) then '(d, _) ← dictDelete ty cr d (key e); Ret d else Ret d);
      '(d, it, l) ← iterate fuel ty cr victim d it;
      Ret (d, it, he :: l)
  end.

Section iter.
Context {ty : dictType}.

(** The items that stay when the entries [R] are visited. *)
Definition spared {K} (victim : Z → bool) (R : list Z) (p : K * item) : Prop :=
  ¬ (addr p.2 ∈ R ∧ victim (ikey p.2) = true).
#[global] Instance spared_dec {K} victim R (p : K * item) : Decision (spared victim R p).
Proof. unfold spared. apply _. Defined.

(** The entries in the buckets after bucket [i] of table [t]. *)
Definition after (ls0 ls1 : list (list Z)) (t i : Z) : list Z :=
  if t =? 0 then concat (drop (Z.to_nat (i + 1)) ls0) ++ concat ls1
  else concat (drop (Z.to_nat (i + 1)) ls1).

(** The iterator has still to return [R]. *)
Definition iter_pos (d : dict) (ls0 ls1 : list (list Z)) (it : dictIterator) (R : list Z) : Prop :=
  (it_table it = 0 ∨ it_table it = 1 ∧ dictIsRehashing d = true ∧ 0 <= it_index it) ∧
  -1 <= it_index it ∧
  if it_entry it =? 0 then R = after ls0 ls1 (it_table it) (it_index it)
  else 0 <= it_index it ∧ ∃ l, chain (heap d) (it_nextEntry it) l ∧
    R = l ++ after ls0 ls1 (it_table it) (it_index it).

(** Rounds of the loop of [dictNext] that are left. *)
Definition rounds_left (d : dict) (it : dictIterator) : Z :=
  b2z (negb (it_entry it =? 0)) + Z.max 0 (zlen (cells (get_ht d (it_table it))) - (it_index it + 1)) +
  (if it_table it =? 0 then zlen (cells (ht1 d)) else 0) + 1.

(** A round of the loop after [iter_begin]. *)
Definition next_step (fuel : nat) (d : dict) (it : dictIterator) : outcome (dict * dictIterator * Z) :=
  r ← (if it_entry it =? 0 then
         let index := it_index it + 1 in
         match (if size (get_ht d (it_table it)) <=? index then
                  if dictIsRehashing d && (it_table it =? 0) then Some (1, 0) else None
                else Some (it_table it, index)) with
         | None => Ret (DictIterator index (it_table it) true 0 (it_nextEntry it) (it_fingerprint it), false)
         | Some (t, index) =>
           he ← rd (cells (get_ht d t)) index;
           Ret (DictIterator index t true he (it_nextEntry it) (it_fingerprint it), true)
         end
       else Ret (DictIterator (it_index it) (it_table it) true (it_nextEntry it) (it_nextEntry it)
                   (it_fingerprint it), true));
  let '(it, more) := r in
  if negb more then Ret (d, it, 0)
  else if negb (it_entry it =? 0) then
    e ← deref (heap d) (it_entry it);
    Ret (d, DictIterator (it_index it) (it_table it) (it_safe it) (it_entry it) (next e)
              (it_fingerprint it), it_entry it)
  else dictNext_loop fuel d it.

(** The dictionary after the first call has paused rehashing. *)
Definition begun (d : dict) (it : dictIterator) : dict :=
  if (it_entry it =? 0) && (it_index it =? -1) && (it_table it =? 0) then dictPauseRehashing d else d.

(** What a round of the loop of [dictNext] does, and the rounds after it. *)
Definition next_post (d : dict) (ls0 ls1 : list (list Z)) (R : list Z) (it' : dictIterator) (r : Z) : Prop :=
  it_safe it' = true ∧ 0 <= it_index it' ∧
  match R with
  | [] => r = 0 ∧ iter_pos d ls0 ls1 it' []
  | x :: R => r = x ∧ x ≠ 0 ∧ it_entry it' = x ∧
      (∃ e, heap d !! x = Some e ∧ it_nextEntry it' = next e) ∧ iter_pos d ls0 ls1 it' R
  end.

(** The loop from an iterator that has begun. *)
Definition loop_ok (fuel : nat) (d : dict) (ls0 ls1 : list (list Z)) : Prop :=
  ∀ it R, it_safe it = true → iter_pos d ls0 ls1 it R → 0 <= it_index it →
    rounds_left d it <= Z.of_nat fuel →
    ∃ it' r, dictNext_loop fuel d it = Ret (d, it', r) ∧ next_post d ls0 ls1 R it' r.

Lemma next_unfold fuel d it :
  it_safe it = true → dictNext_loop (S fuel) d it = next_step fuel (begun d it) it.
Proof.
  destruct it as [i t sf e n f]. cbn [it_safe]. intros ->. cbn [dictNext_loop]. unfold next_step, begun, iter_begin.
  cbn [it_index it_table it_safe it_entry it_nextEntry it_fingerprint].
  destruct (Z.eqb_spec e 0) as [->|He]; cbn [andb]; [|done].
  destruct ((i =? -1) && (t =? 0)).
  - destruct (size _ <=? _); [destruct (_ && _)|]; run; [|done|]; by destruct (rd _ _).
  - destruct (size _ <=? _); [destruct (_ && _)|]; run; [|done|]; by destruct (rd _ _).
Qed.

Lemma after_bucket ls0 ls1 t i l :
  t = 0 ∨ t = 1 → -1 <= i → (if t =? 0 then ls0 else ls1) !! Z.to_nat (i + 1) = Some l →
  after ls0 ls1 t i = l ++ after ls0 ls1 t (i + 1).
Proof.
  intros Ht Hi Hl. unfold after. replace (Z.to_nat (i + 1 + 1)) with (S (Z.to_nat (i + 1))) by lia.
  destruct Ht as [-> | ->]; cbn [Z.eqb] in *; rewrite (drop_S _ _ _ Hl); cbn [concat]; by rewrite <- ?app_assoc.
Qed.

Lemma wf_size d ls0 ls1 U t :
  dict_wf ty d ls0 ls1 U → t = 0 ∨ t = 1 →
  size (get_ht d t) = zlen (cells (get_ht d t)) ∧
  length (cells (get_ht d t)) = length (if t =? 0 then ls0 else ls1) ∧
  ht_rep ty (heap d) (get_ht d t) (if t =? 0 then ls0 else ls1).
Proof.
  intros [H0 H1 Hp _] Ht.
  assert (∀ ht, ht = _dictReset ∨ (∃ k, alloc_shape ht k) → size ht = zlen (cells ht)) as Hs.
  { intros ht [->|[k [_ _ Es Ec _]]]; [done|]. by rewrite Es, Ec. }
  destruct Ht as [-> | ->]; unfold get_ht; cbn [Z.eqb]; (split; [apply Hs|split; [by eapply rep_length|done]]).
  - destruct Hp as [(_ & _ & ?)|(_ & ? & _)]; auto.
  - destruct Hp as [(_ & ? & _)|(_ & _ & ? & _)]; auto.
Qed.

(** The iterator has reached a bucket or an entry of it. *)
Lemma next_visit fuel d ls0 ls1 j t he n f l :
  loop_ok fuel d ls0 ls1 → t = 0 ∨ t = 1 ∧ dictIsRehashing d = true → 0 <= j → chain (heap d) he l →
  rounds_left d (DictIterator j t true 0 n f) <= Z.of_nat fuel →
  ∃ it' r, (if negb (he =? 0) then
              e ← deref (heap d) he; Ret (d, DictIterator j t true he (next e) f, he)
            else dictNext_loop fuel d (DictIterator j t true he n f)) = Ret (d, it', r) ∧
    next_post d ls0 ls1 (l ++ after ls0 ls1 t j) it' r.
Proof.
  intros IH Ht Hj Hc Hf. destruct l as [|x l]; simpl in Hc.
  - subst he. cbn [negb Z.eqb app]. apply IH; [done| |done|done]. split; [cbn; naive_solver|]. split; [cbn; lia|done].
  - destruct Hc as (-> & H0 & e & He & Hc). test (x =? 0) false. cbn [negb].
    rewrite (deref_ok _ _ _ He). run. eexists _, x. split; [done|]. cbn [app].
    unfold next_post, iter_pos. cbn. test (x =? 0) false. split_and!; [done..|by eauto|naive_solver|lia|done|eauto].
Qed.

Lemma next_step_spec fuel d it ls0 ls1 U R :
  dict_wf ty d ls0 ls1 U → loop_ok fuel d ls0 ls1 → it_safe it = true → iter_pos d ls0 ls1 it R →
  rounds_left d it <= Z.of_nat (S fuel) →
  ∃ it' r, next_step fuel d it = Ret (d, it', r) ∧ next_post d ls0 ls1 R it' r.
Proof.
  intros Hw IH Hsf (Ht & Hi & HR) Hf. destruct it as [i t sf e n f].
  cbn [it_index it_table it_safe it_entry it_nextEntry it_fingerprint] in *. subst sf.
  unfold next_step, rounds_left in *.
  cbn [it_index it_table it_safe it_entry it_nextEntry it_fingerprint] in *.
  assert (t = 0 ∨ t = 1) as Ht01 by naive_solver.
  destruct (wf_size _ _ _ _ t Hw Ht01) as (Es & El & Hr).
  destruct (Z.eqb_spec e 0) as [->|He]; cbn [negb b2z] in Hf.
  2:{ run. destruct HR as (Hi0 & l & Hc & ->). apply next_visit; [done|naive_solver|done|done|].
      unfold rounds_left. cbn. lia. }
  destruct (Z.leb_spec (size (get_ht d t)) (i + 1)) as [Hge|Hlt].
  - assert (R = (if t =? 0 then concat ls1 else [])) as ->.
    { rewrite HR. unfold after. unfold zlen in Es.
      destruct (t =? 0); rewrite drop_ge by lia; done. }
    destruct (dictIsRehashing d && (t =? 0)) eqn:Hre.
    + apply andb_true_iff in Hre as [Hre Ht0]. rewrite Ht0 in *. apply Z.eqb_eq in Ht0 as ->.
      destruct (rehash_phase _ _ _ _ _ Hw Hre) as (_ & _ & [k1 Hk1] & _).
      destruct (wf_size _ _ _ _ 1 Hw ltac:(auto)) as (Es1 & El1 & Hr1).
      cbn [get_ht Z.eqb] in *. pose proof Hk1 as [_ Hk _ Hc1 _].
      pose proof (Z.pow_pos_nonneg 2 k1 ltac:(lia) ltac:(lia)).
      destruct (cells (ht1 d)) as [|he cs] eqn:Ec; [rewrite zlen_nil in Hc1; lia|].
      destruct ls1 as [|l ls1'] eqn:Els; [done|]. rewrite <- Els in *.
      assert (chain (heap d) he l) as Hch by (eapply (rep_bucket _ _ _ _ Hr1 0%nat); [by rewrite Ec|by rewrite Els]).
      change (get_ht d 1) with (ht1 d). change (rd (he :: cs) 0) with (Ret he). run.
      assert (concat ls1 = l ++ after ls0 ls1 1 0) as -> by (rewrite Els; done).
      apply next_visit; [done|auto|lia|done|]. unfold rounds_left. cbn. rewrite ?Ec. cbn in Hf. zlr. lia.
    + run. eexists _, 0. split; [done|].
      assert ((if t =? 0 then concat ls1 else []) = []) as ->.
      { destruct Ht01 as [-> | ->]; [|done]. rewrite andb_true_r in Hre. cbn.
        by rewrite (wf_single _ _ _ _ Hw Hre). }
      unfold next_post, iter_pos. cbn. split_and!; [done|lia|done|naive_solver lia|lia|].
      unfold after. unfold zlen in Es. destruct Ht01 as [-> | ->]; cbn [Z.eqb] in *.
      * rewrite drop_ge by lia. rewrite andb_true_r in Hre. by rewrite (wf_single _ _ _ _ Hw Hre).
      * rewrite drop_ge by lia. done.
  - destruct (lookup_lt_is_Some_2 (cells (get_ht d t)) (Z.to_nat (i + 1))) as [p Hp]; [unfold zlen in Es; lia|].
    destruct (lookup_lt_is_Some_2 (if t =? 0 then ls0 else ls1) (Z.to_nat (i + 1))) as [l Hl].
    { rewrite <- El. by eapply lookup_lt_Some. }
    destruct (rep_bucket _ _ _ _ Hr _ _ _ Hp Hl) as [Hch _].
    pose proof (rd_lookup _ _ _ Hp) as Hrd. rewrite Z2Nat.id in Hrd by lia. rewrite Hrd. run.
    rewrite HR, (after_bucket _ _ _ _ _ Ht01 Hi Hl).
    apply next_visit; [done|naive_solver|lia|done|]. unfold rounds_left. cbn. lia.
Qed.

Lemma begun_started d it : 0 <= it_index it → begun d it = d.
Proof. intros. unfold begun. test (it_index it =? -1) false. by rewrite andb_false_r. Qed.

Lemma dictNext_loop_ok fuel d ls0 ls1 U : dict_wf ty d ls0 ls1 U → loop_ok fuel d ls0 ls1.
Proof.
  intros Hw. induction fuel as [|fuel IH]; intros it R Hsf Hp Hi Hf.
  - exfalso. revert Hf. unfold rounds_left, b2z. pose proof (zlen_nonneg (cells (ht1 d))).
    destruct (it_table it =? 0), (negb (it_entry it =? 0)); lia.
  - rewrite next_unfold by done.
    rewrite begun_started by done. by eapply next_step_spec.
Qed.

Lemma dictNext_spec d it ls0 ls1 U R :
  dict_wf ty d ls0 ls1 U → it_safe it = true → iter_pos d ls0 ls1 it R →
  ∃ it' r, dictNext d it = Ret (begun d it, it', r) ∧ next_post (begun d it) ls0 ls1 R it' r.
Proof.
  intros Hw Hsf Hp. unfold dictNext. rewrite next_unfold by done.
  assert (dict_wf ty (begun d it) ls0 ls1 U) as Hw'.
  { unfold begun. destruct (_ && _); [|done]. by destruct Hw. }
  eapply next_step_spec; [done|by eapply dictNext_loop_ok|done| |].
  - unfold begun. by destruct (_ && _).
  - destruct Hp as (Ht & Hi & _).
    assert (rounds_left (begun d it) it = rounds_left d it) as ->.
    { unfold begun. by destruct (_ && _). }
    unfold rounds_left, b2z, zlen. unfold get_ht. destruct (it_table it =? 0), (negb (it_entry it =? 0)); lia.
Qed.

Lemma chain_suffix h p b1 x b2 : chain h p (b1 ++ x :: b2) → ∃ e, h !! x = Some e ∧ chain h (next e) b2.
Proof. revert p. induction b1 as [|y b1 IH]; intros p; simpl; naive_solver. Qed.

Lemma bucket_chain h ht ls j l :
  ht_rep ty h ht ls → ls !! j = Some l → ∃ p, cells ht !! j = Some p ∧ chain h p l.
Proof.
  intros Hr Hl. destruct (lookup_lt_is_Some_2 (cells ht) j) as [p Hp].
  { rewrite (rep_length _ _ _ _ Hr). by eapply lookup_lt_Some. }
  exists p. split; [done|]. by eapply rep_bucket.
Qed.

Lemma dict_chain_unique h p l l' : chain h p l → chain h p l' → l = l'.
Proof.
  revert p l'. induction l as [|x l IH]; intros p [|x' l']; simpl; [done|naive_solver..|].
  intros (-> & _ & e & He & Hc) (-> & _ & e' & He' & Hc'). simplify_eq. f_equal. eauto.
Qed.

(** Deleting an entry that is not ahead of the iterator leaves what is ahead. *)
Lemma after_unlinked ls0 ls1 t j b1 x b2 t' i :
  t' = 0 ∨ t' = 1 → (if t =? 0 then ls0 else ls1) !! j = Some (b1 ++ x :: b2) →
  x ∉ after ls0 ls1 t' i →
  after (unlinked0 t j (b1 ++ b2) ls0) (unlinked1 t j (b1 ++ b2) ls1) t' i = after ls0 ls1 t' i.
Proof.
  intros Ht' Hj Hx. unfold after, unlinked0, unlinked1 in *.
  assert (∀ ls, ls !! j = Some (b1 ++ x :: b2) → x ∉ concat (drop (Z.to_nat (i + 1)) ls) →
    drop (Z.to_nat (i + 1)) (<[j := b1 ++ b2]> ls) = drop (Z.to_nat (i + 1)) ls) as Hd.
  { intros ls Hl Hn. destruct (decide (j < Z.to_nat (i + 1))%nat) as [Hlt|Hge].
    - apply list_eq. intros k. rewrite !lookup_drop, list_lookup_insert_ne; [done|lia].
    - exfalso. apply Hn. apply (elem_of_bucket _ (j - Z.to_nat (i + 1)) (b1 ++ x :: b2)); [|set_solver].
      rewrite lookup_drop, <- Hl. f_equal. lia. }
  destruct Ht' as [-> | ->]; cbn [Z.eqb] in *; destruct (t =? 0).
  - rewrite Hd; [done|done|set_solver].
  - exfalso. apply Hx, elem_of_app. right. eapply elem_of_bucket; [done|set_solver].
  - done.
  - by rewrite Hd.
Qed.

End iter.

Section iterate.
Context {ty : dictType}.
Context {K : Type} `{Countable K} {content : Z → K} {TL : DictTypeLaws ty content}.
Implicit Types (d : dict) (m : gmap K item) (U : gset Z).
Abbreviation rep := (dict_rep ty content).

Lemma rep_with_item d m U ls0 ls1 x e :
  rep_with ty content d m U ls0 ls1 → x ∈ concat ls0 ++ concat ls1 → heap d !! x = Some e →
  m !! content (key e) = Some (Item x (key e) (val e)).
Proof.
  intros (Hw & Hm & _) Hx He. apply (rep_item _ _ _ _ _ _ _ Hw Hm). exists x. split; [done|].
  unfold item_of. by rewrite He.
Qed.

Lemma spared_delete victim x R m c i :
  m !! c = Some i → addr i = x → victim (ikey i) = true →
  (∀ c' i', m !! c' = Some i' → addr i' = x → c' = c) →
  filter (spared victim R) (delete c m) = filter (spared victim (x :: R)) m.
Proof.
  intros Hc Ha Hv Hu. apply map_eq. intros c'. apply option_eq. intros i'.
  rewrite !map_lookup_filter_Some, lookup_delete_Some. unfold spared. cbn. split.
  - intros [[Hn Hm] Hs]. split; [done|]. intros [[Hx|Hx]%elem_of_cons Hv']; [|naive_solver].
    apply Hn. symmetry. eauto.
  - intros [Hm Hs]. split; [split; [|done]|set_solver]. intros <-. apply Hs. simplify_eq. split; [set_solver|done].
Qed.

Lemma spared_keep victim x R m c i :
  m !! c = Some i → addr i = x → victim (ikey i) = false →
  (∀ c' i', m !! c' = Some i' → addr i' = x → c' = c) →
  filter (spared victim R) m = filter (spared victim (x :: R)) m.
Proof.
  intros Hc Ha Hv Hu. apply map_filter_ext. intros c' i' Hm. unfold spared. cbn. split; intros Hs [Hx Hv'].
  - apply elem_of_cons in Hx as [Hx|Hx]; [|naive_solver]. assert (c' = c) as -> by eauto. simplify_eq. congruence.
  - apply Hs. split; [set_solver|done].
Qed.

(** Deleting the entry the iterator has just returned. *)
Lemma delete_current cr d m U ls0 ls1 it x e R :
  rep_with ty content d m U ls0 ls1 → pauserehash d ≠ 0 → x ∈ concat ls0 ++ concat ls1 →
  heap d !! x = Some e → it_entry it = x → it_nextEntry it = next e → x ≠ 0 →
  iter_pos d ls0 ls1 it R → x ∉ R →
  ∃ d' ls0' ls1', dictDelete ty cr d (key e) = Ret (d', DICT_OK) ∧
    rep_with ty content d' (delete (content (key e)) m) U ls0' ls1' ∧
    iter_pos d' ls0' ls1' it R ∧ pauserehash d' = pauserehash d ∧
    concat ls0 ++ concat ls1 ≡ₚ x :: concat ls0' ++ concat ls1'.
Proof.
  intros Hrw Hp Hx He Hie Hin H0 Hit HxR. assert (rep d m U) as Hd by (by exists ls0, ls1).
  pose proof (rep_with_item _ _ _ _ _ _ _ Hrw Hx He) as Hm.
  assert (base.size m ≠ 0%nat) as Hsz by (intros ->%map_size_empty_inv; by rewrite lookup_empty in Hm).
  pose proof (rep_used_total _ _ _ Hd) as (Hu0 & Hu1 & Hu & _).
  destruct (rep_alloc_nonempty _ _ _ Hd Hsz) as [k0 Hk0].
  unfold dictDelete, dictGenericDelete. test ((used (ht0 d) =? 0) && (used (ht1 d) =? 0)) false.
  destruct (rehash_step_if_spec cr _ _ _ Hd) as (d1 & -> & _ & _ & Heq). rewrite (Heq Hp). run.
  destruct (delete_tables d m U ls0 ls1 (key e) k0 false Hrw Hk0)
    as [[_ Hmc]|(d2 & t & j & b1 & b2 & i & -> & Ha & Hj & _ & Hmc & Hd2 & Hout & [Hp2 _] & Hri & _)]; [congruence|].
  run. rewrite Hm in Hmc. injection Hmc as <-. cbn [addr] in *. test (x =? 0) false. cbn [negb].
  pose proof Hrw as (Hw & _ & _).
  exists d2, (unlinked0 t j (b1 ++ b2) ls0), (unlinked1 t j (b1 ++ b2) ls1). split_and!; [done|done| |done|].
  - destruct Hit as (Ht & Hi & HR). rewrite Hie in HR. rewrite (proj2 (Z.eqb_neq _ _) H0) in HR.
    destruct HR as (Hi0 & l & Hc & HR). unfold iter_pos, dictIsRehashing. rewrite Hri, Hie.
    rewrite (proj2 (Z.eqb_neq _ _) H0). split_and!; [done|done|done|].
    assert (l = b2) as ->.
    { assert (∃ p, chain (heap d) p (b1 ++ x :: b2)) as [p Hpc].
      { destruct Hw as [Hr0 Hr1 _ _]. destruct (t =? 0).
        - destruct (bucket_chain _ _ _ _ _ Hr0 Hj) as (p & _ & ?). eauto.
        - destruct (bucket_chain _ _ _ _ _ Hr1 Hj) as (p & _ & ?). eauto. }
      apply chain_suffix in Hpc as (e' & He' & Hc'). simplify_eq. rewrite Hin in Hc. by eapply dict_chain_unique. }
    exists b2. split.
    + eapply chain_agree; [|done]. intros y Hy. apply Hout.
      pose proof (bucket_nodup _ _ _ _ _ _ _ Hw Hj) as Hnd.
      apply NoDup_app in Hnd as (_ & Hn1 & Hn2). apply NoDup_cons in Hn2 as [Hn2 _].
      intros [Hy1|Hy1]%elem_of_app; [apply (Hn1 y Hy1); set_solver|set_solver].
    + rewrite (after_unlinked _ _ _ _ _ x); [done|naive_solver|done|set_solver].
  - by apply unlinked_all.
Qed.

Lemma rep_with_begun d it m U ls0 ls1 :
  rep_with ty content d m U ls0 ls1 → rep_with ty content (begun d it) m U ls0 ls1.
Proof. unfold begun. destruct (_ && _); [|done]. by intros ([? ? ? ?] & ? & ?). Qed.

(** The loop visits what is ahead of the iterator and deletes the victims. *)
Lemma iterate_spec fuel cr victim d it m U ls0 ls1 R :
  rep_with ty content d m U ls0 ls1 → it_safe it = true → iter_pos d ls0 ls1 it R →
  NoDup R → (∀ x, x ∈ R → x ∈ concat ls0 ++ concat ls1) → pauserehash (begun d it) ≠ 0 →
  (length R < fuel)%nat →
  ∃ d' it', iterate fuel ty cr victim d it = Ret (d', it', R) ∧ rep d' (filter (spared victim R) m) U ∧
    pauserehash d' = pauserehash (begun d it) ∧ 0 <= it_index it' ∧ it_safe it' = true.
Proof.
  revert fuel d it m ls0 ls1.
  induction R as [|x R IH]; intros [|fuel] d it m ls0 ls1 Hrw Hsf Hit Hnd Hin Hp Hf; try (simpl in Hf; lia);
    cbn [iterate]; pose proof (rep_with_begun _ it _ _ _ _ Hrw) as Hrw';
    destruct (dictNext_spec d it ls0 ls1 U _ (proj1 Hrw) Hsf Hit) as (it' & r & -> & Hpost); run.
  - destruct Hpost as (Hsf' & Hi' & -> & _). exists (begun d it), it'. split_and!; [done| |done..].
    rewrite map_filter_id; [by exists ls0, ls1|]. intros c i _ [Hx _]. by apply elem_of_nil in Hx.
  - destruct Hpost as (Hsf' & Hi' & -> & H0 & Hie & (e & He & Hin') & Hit').
    apply NoDup_cons in Hnd as [HxR Hnd]. test (x =? 0) false. rewrite (deref_ok _ _ _ He). run.
    pose proof (Hin x ltac:(set_solver)) as Hxall.
    pose proof (rep_with_item _ _ _ _ _ _ _ Hrw' Hxall He) as Hm.
    assert (∀ c i, m !! c = Some i → addr i = x → c = content (key e)) as Huniq.
    { intros c i Hc Ha. assert (rep (begun d it) m U) as Hd by (by exists ls0, ls1).
      destruct (rep_entry _ _ _ _ _ Hd Hc) as (_ & Hk & n & Hn). rewrite Ha, He in Hn.
      injection Hn as ->. by cbn. }
    destruct (victim (key e)) eqn:Hv.
    + destruct (delete_current cr (begun d it) m U ls0 ls1 it' x e R) as
        (d2 & ls0' & ls1' & -> & Hrw2 & Hit2 & Hp2 & Hall); try done. run.
      destruct (IH fuel d2 it' (delete (content (key e)) m) ls0' ls1') as (d3 & it3 & -> & Hd3 & Hp3 & Hi3 & Hsf3);
        rewrite ?begun_started in * by done; try done; try congruence.
      { intros y Hy. specialize (Hin y ltac:(set_solver)). rewrite Hall in Hin. set_solver. }
      { simpl in Hf. lia. }
      run. exists d3, it3. split_and!; [done| |congruence|done|done].
      rewrite <- (spared_delete victim x R m (content (key e)) (Item x (key e) (val e))); done.
    + run. destruct (IH fuel (begun d it) it' m ls0 ls1) as (d3 & it3 & -> & Hd3 & Hp3 & Hi3 & Hsf3);
        rewrite ?(begun_started _ it') in * by done; try done.
      { set_solver. }
      { simpl in Hf. lia. }
      run. exists d3, it3. split_and!; [done| |congruence|done|done].
      rewrite <- (spared_keep victim x R m (content (key e)) (Item x (key e) (val e))); done.
Qed.

End iterate.
End DictIter.
