(* ===== verification/DictSpec.v ===== *)
(** Theorems about hash tables (component [Dict]): the operations refine those
    of a finite map, rehashing keeps the map and ends, scanning and iterating
    reach every entry.  The examples apply them to a dictionary in the middle
    of a rehashing. *)
From stdpp Require Import gmap.
From S2P Require Import Prelude Dict DictRep DictRehash DictOps DictDelete DictCursor DictScan DictIter.

Module DictSpec.
Import Dict DictRep DictRehash DictOps DictDelete DictCursor DictScan DictIter.

(** A run of [dictScan] from one cursor to another, with the dictionary each
    call sees and the entries it visits; only the last call returns 0. *)
Inductive scanned : Z → list (dict * list Z) → Z → Prop :=
| scanned_nil v : scanned v [] v
| scanned_cons v d d' l v1 tr v2 :
    dictScan d v = Ret (d', l, v1) → (v1 ≠ 0 ∨ tr = []) → scanned v1 tr v2 →
    scanned v ((d, l) :: tr) v2.

(** The modes in which rehashing must not advance. *)
Definition held_back (can_resize : dictResizeEnable) (d : dict) : Prop :=
  can_resize = DICT_RESIZE_FORBID ∨
  can_resize = DICT_RESIZE_AVOID ∧ size (ht0 d) ≠ size (ht1 d) ∧
    Z.max (size (ht0 d)) (size (ht1 d)) < dict_force_resize_ratio * Z.min (size (ht0 d)) (size (ht1 d)).
#[global] Instance held_back_dec can_resize d : Decision (held_back can_resize d) := _.

(** * An example *)

#[local] Instance ex_alloc : DictAlloc := {|
  new_entry X := fresh ({[0]} ∪ X);
  new_table p n := Z.abs p + Z.abs n + 1;
  calloc_ok _ := true;
|}.

(** Keys are their own contents; neighbours collide. *)
Definition ex_type : dictType := DictType (λ k, u64 (k / 2)) None None None None.

(** The keys 1 to 6 after the first bucket of four has been moved. *)
Definition ex_dict : dict :=
  Dict (Dictht 5 [0; 3; 4; 0] 4 3 3) (Dictht 14 [1; 0; 5; 6; 0; 0; 0; 0] 8 7 3) 1 0
    (list_to_map [(1, DictEntry 1 100 0); (2, DictEntry 2 200 0); (3, DictEntry 3 300 2);
                  (4, DictEntry 4 400 0); (5, DictEntry 5 500 0); (6, DictEntry 6 600 0)]).
Definition ex_map : gmap Z item :=
  list_to_map [(1, Item 1 1 100); (2, Item 2 2 200); (3, Item 3 3 300);
               (4, Item 4 4 400); (5, Item 5 5 500); (6, Item 6 6 600)].

(** Its complete scan. *)
Definition ex_trace : list (dict * list Z) :=
  [(ex_dict, [1]); (ex_dict, [4; 5]); (ex_dict, [3; 2]); (ex_dict, [6])].

Lemma ex_alloc_laws : DictAllocLaws ex_alloc.
Proof.
  split; cbn.
  - intros X. pose proof (is_fresh ({[0]} ∪ X)) as Hf. rewrite not_elem_of_union, not_elem_of_singleton in Hf. tauto.
  - lia.
Qed.

Lemma ex_type_laws : DictTypeLaws ex_type (λ k, k).
Proof.
  split; cbn.
  - intros p q. unfold same_key. cbn. case_bool_decide; lia.
  - by intros p q ->.
  - intros p. by apply wrapu_range.
  - done.
Qed.

#[local] Instance item_eq_dec : EqDecision item.
Proof. solve_decision. Defined.

Lemma ex_dict_rep : dict_rep ex_type (λ k, k) ex_dict ex_map ∅.
Proof.
  exists [[]; [3; 2]; [4]; []], [[1]; []; [5]; [6]; []; []; []; []].
  split_and!; [split| |by vm_compute].
  - split; [done| |done]. intros j p l Hp Hl.
    do 4 (destruct j as [|j]; [cbn in Hp, Hl; simplify_eq; cbn; split;
      [repeat (split_and! || eexists); done|repeat (constructor || eexists); done]|]); done.
  - split; [done| |done]. intros j p l Hp Hl.
    do 8 (destruct j as [|j]; [cbn in Hp, Hl; simplify_eq; cbn; split;
      [repeat (split_and! || eexists); done|repeat (constructor || eexists); done]|]); done.
  - right. cbn. split_and!; [lia|lia|exists 2|exists 3|]; [by split; cbn|by split; cbn|].
    intros [|j] Hj; [done|lia].
  - apply (bool_decide_unpack _). by vm_compute.
  - apply (bool_decide_unpack _). by vm_compute.
Qed.

(** * The theorems *)

Section theorems.
Context {ty : dictType}.
Context {K : Type} `{Countable K} {content : Z → K} {TL : DictTypeLaws ty content}.
Implicit Types (d : dict) (m : gmap K item) (U : gset Z).

(** Lookup refines the lookup of the finite map: [dictFind] returns the
    entry that holds the key, with its key and value, or a null pointer, and
    [dictFetchValue] its value; the step of rehashing made on the way does not
    change the map. *)
Theorem dict_lookup_refines cr d m U k :
  dict_rep ty content d m U →
  (∃ d', dictFind ty cr d k = Ret (d', default 0 (addr <$> m !! content k)) ∧
     dict_rep ty content d' m U ∧
     ∀ it, m !! content k = Some it → addr it ≠ 0 ∧ content (ikey it) = content k ∧
       ∃ n, heap d' !! addr it = Some (DictEntry (ikey it) (ival it) n)) ∧
  (∃ d', dictFetchValue ty cr d k = Ret (d', default 0 (ival <$> m !! content k)) ∧
     dict_rep ty content d' m U).
Proof.
  intros Hd. split.
  - destruct (dictFind_spec cr d m U k Hd) as (d' & E & Hd' & _). exists d'. split_and!; [done..|].
    intros it Hm. exact (rep_entry _ _ _ _ _ Hd' Hm).
  - destruct (dictFetchValue_spec cr d m U k Hd) as (d' & E & Hd' & _). eauto.
Qed.

Section insertion.
Context {A : DictAlloc} {AL : DictAllocLaws A}.

(** Insertion refines the insertion of a finite map, whatever the progress
    of a rehashing and whether or not the table grows: [dictAdd] adds a new key
    and refuses one that is present, [dictReplace] adds or overwrites the value
    and reports which, and [dictAddOrFind] returns the entry of the key. *)
Theorem dict_add_refines cr d m U k v :
  dict_rep ty content d m U → Z.of_nat (base.size m) < 2 ^ 60 →
  (∃ d' r, dictAdd ty cr d k v = Ret (d', r) ∧
     match m !! content k with
     | Some _ => r = DICT_ERR ∧ dict_rep ty content d' m U
     | None => r = DICT_OK ∧ ∃ x,
         dict_rep ty content d' (<[content k := Item x (dup (keyDup ty) k) (dup (valDup ty) v)]> m) U
     end) ∧
  (∃ d' x, dictReplace ty cr d k v = Ret (d', b2z (bool_decide (m !! content k = None))) ∧
     dict_rep ty content d'
       (<[content k := Item x (default (dup (keyDup ty) k) (ikey <$> m !! content k))
                         (dup (valDup ty) v)]> m) U) ∧
  (∃ d' x, dictAddOrFind ty cr d k = Ret (d', x) ∧ x ≠ 0 ∧
     match m !! content k with
     | Some it => x = addr it ∧ dict_rep ty content d' m U
     | None => dict_rep ty content d' (<[content k := Item x (dup (keyDup ty) k) 0]> m) U
     end).
Proof.
  intros Hd Hsz. split_and!.
  - destruct (dictAdd_spec cr d m U k v Hd Hsz) as (d' & r & E & _ & Hr). eauto.
  - destruct (dictReplace_spec cr d m U k v Hd Hsz) as (d' & r & x & E & _ & -> & Hr). eauto.
  - unfold dictAddOrFind.
    destruct (dictAddRaw_spec cr d m U k Hd Hsz) as (d' & r & ex & -> & _ & Hr). run.
    destruct (m !! content k) as [it|] eqn:Hm.
    + destruct Hr as (-> & -> & Hr). destruct (rep_entry _ _ _ _ _ Hd Hm) as (Ha & _). eexists d', _. done.
    + destruct Hr as (H0 & -> & Hr). test (r =? 0) false. by exists d', r.
Qed.

(** C13. Insertion and lookup refine those of a finite map, whatever the progress
    of a rehashing and whether or not the table grows: [dictAdd] adds a new key
    and refuses one that is present, [dictReplace] adds or overwrites the value
    and reports which, [dictAddOrFind] returns the entry of the key, [dictFind]
    returns the entry that holds the key, with its key and value, or a null
    pointer, and [dictFetchValue] its value. *)
Theorem dict_insert_refines cr d m U k v :
  dict_rep ty content d m U → Z.of_nat (base.size m) < 2 ^ 60 →
  (∃ d' r, dictAdd ty cr d k v = Ret (d', r) ∧
     match m !! content k with
     | Some _ => r = DICT_ERR ∧ dict_rep ty content d' m U
     | None => r = DICT_OK ∧ ∃ x,
         dict_rep ty content d' (<[content k := Item x (dup (keyDup ty) k) (dup (valDup ty) v)]> m) U
     end) ∧
  (∃ d' x, dictReplace ty cr d k v = Ret (d', b2z (bool_decide (m !! content k = None))) ∧
     dict_rep ty content d'
       (<[content k := Item x (default (dup (keyDup ty) k) (ikey <$> m !! content k))
                         (dup (valDup ty) v)]> m) U) ∧
  (∃ d' x, dictAddOrFind ty cr d k = Ret (d', x) ∧ x ≠ 0 ∧
     match m !! content k with
     | Some it => x = addr it ∧ dict_rep ty content d' m U
     | None => dict_rep ty content d' (<[content k := Item x (dup (keyDup ty) k) 0]> m) U
     end) ∧
  (∃ d', dictFind ty cr d k = Ret (d', default 0 (addr <$> m !! content k)) ∧
     dict_rep ty content d' m U ∧
     ∀ it, m !! content k = Some it → addr it ≠ 0 ∧ content (ikey it) = content k ∧
       ∃ n, heap d' !! addr it = Some (DictEntry (ikey it) (ival it) n)) ∧
  (∃ d', dictFetchValue ty cr d k = Ret (d', default 0 (ival <$> m !! content k)) ∧
     dict_rep ty content d' m U).
Proof.
  intros Hd Hsz. destruct (dict_add_refines cr d m U k v Hd Hsz) as (H1 & H2 & H3).
  destruct (dict_lookup_refines cr d m U k Hd) as [H4 H5]. done.
Qed.

End insertion.

(** C14. Deletion refines the deletion of the finite map.  [dictDelete] releases
    the entry; [dictUnlink] leaves it, with its key and value, to the caller,
    who releases it with [dictFreeUnlinkedEntry]; [dictEmpty] releases every
    entry of the tables and no entry the caller holds. *)
Theorem dict_delete_refines cr d m U k :
  dict_rep ty content d m U →
  (∃ d', dictDelete ty cr d k = Ret (d', if bool_decide (m !! content k = None) then DICT_ERR else DICT_OK) ∧
     dict_rep ty content d' (delete (content k) m) U) ∧
  (∃ d', dictUnlink ty cr d k = Ret (d', default 0 (addr <$> m !! content k)) ∧
     match m !! content k with
     | Some it => dict_rep ty content d' (delete (content k) m) ({[addr it]} ∪ U) ∧
         (∃ n, heap d' !! addr it = Some (DictEntry (ikey it) (ival it) n)) ∧
         ∃ d2, dictFreeUnlinkedEntry d' (addr it) = Ret d2 ∧
           dict_rep ty content d2 (delete (content k) m) U ∧
           heap d2 !! addr it = None
     | None => dict_rep ty content d' m U
     end) ∧
  (∃ d', dictEmpty d = Ret d' ∧ dict_rep ty content d' ∅ U ∧ dom (heap d') = U ∧
     ∀ x, x ∈ U → heap d' !! x = heap d !! x).
Proof.
  intros Hd. split_and!.
  - destruct (dictGenericDelete_spec cr d m U k false Hd) as (d' & E & _ & Hd' & _). exists d'. split; [|done].
    unfold dictDelete. rewrite E. run. destruct (m !! content k) as [it|] eqn:Hm; [|done]. cbn.
    destruct (rep_entry _ _ _ _ _ Hd Hm) as (Ha & _). by test (addr it =? 0) false.
  - destruct (dictGenericDelete_spec cr d m U k true Hd) as (d' & E & _ & Hd' & Hf). exists d'. split; [done|].
    destruct (m !! content k) as [it|] eqn:Hm; [|by rewrite delete_id in Hd'].
    destruct (rep_entry _ _ _ _ _ Hd Hm) as (Ha & _). split_and!; [done|by apply Hf|].
    destruct (rep_free d' _ _ (addr it) Hd') as (d2 & E2 & Hd2 & Hn & _); [set_solver|done|].
    pose proof (rep_not_unlinked _ _ _ _ _ Hd Hm).
    replace (({[addr it]} ∪ U) ∖ {[addr it]}) with U in Hd2 by set_solver. eauto.
  - destruct (clear_both d m U Hd) as (h & E & Hdom & HU). unfold dictEmpty.
    apply bind_inv in E as (d1 & -> & E). run. rewrite E. run. eexists. split_and!; [done| |done|done].
    by apply rep_empty.
Qed.

(** C15. A call of [dictRehash] keeps the map, whether it stops early, has work
    left or completes.  When it reports work left it has passed at least one
    bucket and at most [11 * n]: [n] that held entries and [10 * n] empty ones.
    Otherwise the rehashing is over or was not allowed to run. *)
Theorem dictRehash_keeps cr d m U n :
  dict_rep ty content d m U → (0 < n)%nat →
  ∃ d' r, dictRehash ty cr d n = Ret (d', r) ∧ dict_rep ty content d' m U ∧
    pauserehash d' = pauserehash d ∧
    ((r = 1 ∧ dictIsRehashing d' = true ∧ same_shape d d' ∧
      rehashidx d < rehashidx d' <= rehashidx d + 11 * Z.of_nat n) ∨
     (r = 0 ∧ dictIsRehashing d' = false) ∨
     (r = 0 ∧ d' = d ∧ cr ≠ DICT_RESIZE_ENABLE)).
Proof. apply dictRehash_spec. Qed.

Lemma rehash_ms_loop_ends rounds d m U acc :
  dict_rep ty content d m U → size (ht0 d) - rehashidx d < Z.of_nat rounds →
  ∃ d' r, rehash_ms_loop ty rounds DICT_RESIZE_ENABLE d acc = Ret (d', r) ∧
    dict_rep ty content d' m U ∧ dictIsRehashing d' = false.
Proof.
  revert d acc. induction rounds as [|rounds IH]; intros d acc Hd Hr.
  - exfalso. destruct Hd as (ls0 & ls1 & [_ _ Hp _] & _). 
    destruct Hp as [(E & _ & [Hp|[k [_ Hk Hp _ _]]])|(? & _)]; [rewrite Hp in Hr; cbn in Hr; lia| |lia].
    pose proof (Z.pow_pos_nonneg 2 k ltac:(lia) ltac:(lia)). lia.
  - cbn [rehash_ms_loop].
    destruct (dictRehash_spec ty content DICT_RESIZE_ENABLE d 100 m U Hd ltac:(lia)) as
      (d' & r & -> & Hd' & _ & [(-> & Hre & (_ & Hs & _) & Hlt)|[[-> Hre]|(_ & _ & ?)]]); [|by eexists d', _|done].
    run. cbn [Z.eqb]. apply IH; [done|]. lia.
Qed.

(** The sizes of a dictionary that is being rehashed are positive. *)
Lemma rehashing_sizes d m U :
  dict_rep ty content d m U → dictIsRehashing d = true → 0 < size (ht0 d) ∧ 0 < size (ht1 d).
Proof.
  unfold dictIsRehashing. intros (ls0 & ls1 & [_ _ [(E & _)|(_ & [k0 [_ H0 E0 _ _]] & [k1 [_ H1 E1 _ _]] & _)] _] & _) Hr;
    [rewrite E in Hr; done|].
  pose proof (Z.pow_pos_nonneg 2 k0 ltac:(lia) ltac:(lia)). pose proof (Z.pow_pos_nonneg 2 k1 ltac:(lia) ltac:(lia)). lia.
Qed.

Lemma div_below a b c : 0 < b → (a / b <? c) = (a <? c * b).
Proof. intros Hb. dm a b. destruct (Z.ltb_spec (a / b) c), (Z.ltb_spec a (c * b)); nia. Qed.

Lemma ratio_guard a b c :
  0 < a → 0 < b →
  ((a <? b) && (b / a <? c) || (b <? a) && (a / b <? c)) = bool_decide (a ≠ b ∧ Z.max a b < c * Z.min a b).
Proof.
  intros Ha Hb. rewrite !div_below by done. case_bool_decide as E.
  - destruct (Z.ltb_spec a b), (Z.ltb_spec b a); cbn [andb orb]; try lia.
    all: rewrite ?Z.max_r, ?Z.min_l, ?Z.max_l, ?Z.min_r in E by lia; lia.
  - apply orb_false_iff. split; apply andb_false_iff.
    + destruct (Z.ltb_spec a b); [right|by left]. rewrite Z.max_r, Z.min_l in E by lia. lia.
    + destruct (Z.ltb_spec b a); [right|by left]. rewrite Z.max_l, Z.min_r in E by lia. lia.
Qed.

(** Where the mode lets it run, [dictRehash] does what it does with resizing
    enabled; where not, nothing. *)
Lemma dictRehash_mode cr d m U n :
  dict_rep ty content d m U →
  dictRehash ty cr d n = if decide (held_back cr d) then Ret (d, 0) else dictRehash ty DICT_RESIZE_ENABLE d n.
Proof.
  intros Hd. unfold dictRehash. destruct (dictIsRehashing d) eqn:Er.
  2:{ cbn [negb]. rewrite !orb_true_r. by case_decide. }
  destruct (rehashing_sizes _ _ _ Hd Er) as [H0 H1]. cbn [negb]. rewrite !orb_false_r, ratio_guard by done.
  rewrite (bool_decide_false (DICT_RESIZE_ENABLE = _)) by done.
  rewrite (bool_decide_false (DICT_RESIZE_ENABLE = _)) by done. cbn [andb].
  set (body := rehash_loop ty n d _ ≫= _). clearbody body.
  destruct (decide (held_back cr d)) as [Hh|Hh]; unfold held_back in Hh.
  - destruct Hh as [->|[-> Hh]]; [done|]. by rewrite (bool_decide_true (_ ≠ _ ∧ _)).
  - rewrite bool_decide_false by tauto. case_bool_decide; [|done]. cbn [andb].
    by rewrite bool_decide_false by tauto.
Qed.

Lemma rehash_ms_loop_mode cr rounds d m U acc :
  dict_rep ty content d m U →
  rehash_ms_loop ty rounds cr d acc =
    if decide (held_back cr d) then Ret (d, acc) else rehash_ms_loop ty rounds DICT_RESIZE_ENABLE d acc.
Proof.
  revert d acc. induction rounds as [|rounds IH]; intros d acc Hd; cbn [rehash_ms_loop];
    rewrite (dictRehash_mode cr _ _ _ _ Hd); case_decide as Hh; try done.
  destruct (dictRehash_spec ty content DICT_RESIZE_ENABLE d 100 m U Hd ltac:(lia)) as
    (d' & r & -> & Hd' & _ & [(-> & _ & (_ & Hs0 & Hs1) & _)|[[-> _]|(_ & _ & ?)]]); [|done..].
  run. cbn [Z.eqb]. rewrite IH by done. rewrite decide_False; [done|]. unfold held_back in *. by rewrite Hs0, Hs1.
Qed.

(** C16. Rehashing ends unless it is held back: when the clock lets
    [dictRehashMilliseconds] make one call of [dictRehash] more than there are
    buckets left, the rehashing is complete and the map is the same.  It is
    held back while an iterator has paused it, while resizing is forbidden, and
    while resizing is avoided and one table is larger than the other by less
    than the factor that forces a resize: then the call returns 0 and changes
    nothing, however often it is repeated. *)
Theorem dictRehashMilliseconds_completes cr d m U rounds :
  dict_rep ty content d m U → size (ht0 d) - rehashidx d < Z.of_nat rounds →
  ∃ d' r, dictRehashMilliseconds ty cr d rounds = Ret (d', r) ∧
    dict_rep ty content d' m U ∧
    ((0 < pauserehash d ∨ held_back cr d) ∧ d' = d ∧ r = 0 ∨
     pauserehash d <= 0 ∧ ¬ held_back cr d ∧ dictIsRehashing d' = false).
Proof.
  intros Hd Hr. unfold dictRehashMilliseconds. destruct (Z.ltb_spec 0 (pauserehash d)) as [Hp|Hp].
  { exists d, 0. auto 10. }
  rewrite (rehash_ms_loop_mode cr _ _ _ _ _ Hd). case_decide as Hh; [exists d, 0; auto 10|].
  destruct (rehash_ms_loop_ends rounds d m U 0 Hd Hr) as (d' & r & E & Hd' & Hre). eauto 10.
Qed.

Lemma scan_reaches v tr c hc :
  scanned v tr 0 → tr ≠ [] → 0 <= v < 2 ^ 64 → rev v <= rev hc →
  (∀ k, content k = c → hashFunction ty k = hc) →
  (∀ d l, (d, l) ∈ tr → ∃ m U it, dict_rep ty content d m U ∧ m !! c = Some it) →
  ∃ d l m U it, (d, l) ∈ tr ∧ dict_rep ty content d m U ∧ m !! c = Some it ∧ addr it ∈ l.
Proof.
  intros Hs. remember 0 as z eqn:Hz in Hs. revert Hz.
  induction Hs as [|v d d' l v1 tr v2 E Hne Hs IH]; [done|]. intros -> _ Hv Hr Hh Hall.
  destruct (Hall d l) as (m & U & it & Hd & Hc); [set_solver|].
  destruct (dictScan_spec d m U v Hd Hv) as (d1 & l1 & v1' & E1 & Hv1 & _ & _ & _ & _ & Hcov).
  rewrite E in E1. injection E1 as <- <- <-.
  destruct (rep_entry _ _ _ _ _ Hd Hc) as (_ & Hk & _). specialize (Hcov c it Hc). rewrite (Hh _ Hk) in Hcov.
  destruct (decide (v1 = 0 ∨ rev hc < rev v1)) as [Hdone|Hmore].
  - exists d, l, m, U, it. split_and!; [set_solver|done|done|auto].
  - destruct Hne as [Hne| ->]; [|inversion Hs; naive_solver].
    destruct IH as (d2 & l2 & m2 & U2 & it2 & Hin & Hd2 & Hc2 & Hl2); try done.
    + intros ->. inversion Hs. naive_solver.
    + apply Z.nlt_ge. tauto.
    + intros d2 l2 Hin. apply (Hall d2 l2). set_solver.
    + exists d2, l2, m2, U2, it2. split_and!; [set_solver|done..].
Qed.

(** C17. A complete scan misses nothing: when calls of [dictScan] that start with
    cursor 0 have returned to cursor 0, every key that was present at each call
    has been visited, even if between the calls the dictionary was modified,
    grown, shrunk or rehashed in any way. *)
Theorem dictScan_complete tr c :
  scanned 0 tr 0 → tr ≠ [] →
  (∀ d l, (d, l) ∈ tr → ∃ m U it, dict_rep ty content d m U ∧ m !! c = Some it) →
  ∃ d l m U it, (d, l) ∈ tr ∧ dict_rep ty content d m U ∧ m !! c = Some it ∧ addr it ∈ l.
Proof.
  intros Hs Hne Hall. destruct tr as [|[d l] tr]; [done|].
  destruct (Hall d l) as (m & U & it & Hd & Hc); [set_solver|].
  destruct (rep_entry _ _ _ _ _ Hd Hc) as (_ & Hk & _).
  apply (scan_reaches 0 _ c (hashFunction ty (ikey it))); try done.
  - apply rev_range.
  - intros k Hkc. apply hash_content. congruence.
Qed.

Lemma scan_advances d m U v d' l v1 k :
  dict_rep ty content d m U → 0 <= v < 2 ^ 64 → dictScan d v = Ret (d', l, v1) →
  0 <= k <= 60 → scan_size d <= 2 ^ k →
  0 <= v1 < 2 ^ 64 ∧ (v1 = 0 ∨ block k v + 1 <= block k v1).
Proof.
  intros Hd Hv E Hk Hs. destruct (dictScan_spec d m U v Hd Hv) as (d1 & l1 & v1' & E1 & Hv1 & _ & _ & _ & Hrev & _).
  rewrite E in E1. injection E1 as <- <- <-. split; [done|].
  destruct Hrev as [[_ ->]|(k' & Es & Hk' & Hrev)]; [by left|]. rewrite Es in Hs.
  apply Z.pow_le_mono_r_iff in Hs; [|lia|lia].
  pose proof (block_range k' v ltac:(lia)) as Hb.
  assert (2 ^ 64 = 2 ^ k' * 2 ^ (64 - k')) as E64 by (rewrite <- Z.pow_add_r by lia; f_equal; lia).
  rewrite E64, Z.mul_mod_distr_r in Hrev by lia.
  destruct (decide (block k' v + 1 = 2 ^ k')) as [Hw|Hw].
  - left. rewrite Hw, Z.mod_same in Hrev by lia. rewrite <- (rev_rev v1), Hrev by done. done.
  - right. rewrite Z.mod_small in Hrev by lia.
    assert (2 ^ (64 - k') = 2 ^ (k - k') * 2 ^ (64 - k)) as Ew by (rewrite <- Z.pow_add_r by lia; f_equal; lia).
    unfold block at 2. rewrite Hrev, Ew, Z.mul_assoc, Z.div_mul by lia.
    rewrite (block_coarse k' k v) by lia.
    pose proof (Z.div_mod (block k v) (2 ^ (k - k')) ltac:(lia)).
    pose proof (Z.mod_pos_bound (block k v) (2 ^ (k - k')) ltac:(lia)). nia.
Qed.

(** C18. A scan ends: [dictScan] returns for every cursor, and as long as the
    smaller table in use has at most [2 ^ k] buckets the cursor is back at 0
    after at most [2 ^ k] calls. *)
Theorem dictScan_ends tr v k :
  scanned 0 tr v → 0 <= k <= 60 →
  (∀ d l, (d, l) ∈ tr → ∃ m U, dict_rep ty content d m U ∧ scan_size d <= 2 ^ k) →
  (∀ d m U w, dict_rep ty content d m U → 0 <= w < 2 ^ 64 → ∃ r, dictScan d w = Ret r) ∧
  Z.of_nat (length tr) <= 2 ^ k ∧ (Z.of_nat (length tr) = 2 ^ k → v = 0).
Proof.
  intros Hs Hk Hall. split.
  { intros d m U w Hd Hw. destruct (dictScan_spec d m U w Hd Hw) as (? & ? & ? & E & _). eauto. }
  assert (∀ w, scanned w tr v → 0 <= w < 2 ^ 64 → tr ≠ [] →
    Z.of_nat (length tr) <= 2 ^ k - block k w ∧ (Z.of_nat (length tr) = 2 ^ k - block k w → v = 0)) as Hgen.
  { clear Hs. revert Hall. induction tr as [|[d l] tr IH]; [done|]. intros Hall w Hs Hw _.
    inversion Hs as [|? ? d' ? v1 ? ? E Hne Hs']; subst.
    destruct (Hall d l) as (m & U & Hd & Hsz); [set_solver|].
    destruct (scan_advances d m U w d' l v1 k Hd Hw E Hk Hsz) as [Hv1 Hadv].
    pose proof (block_range k w ltac:(lia)). pose proof (block_range k v1 ltac:(lia)).
    destruct tr as [|p tr]; [inversion Hs'; subst; cbn; split; [lia|]; intros; destruct Hadv; [done|lia]|].
    destruct (IH (λ d l Hin, Hall d l (list_elem_of_further _ _ _ Hin)) v1 Hs' Hv1) as [Hl Hz]; [done|].
    destruct Hne as [Hne|]; [|done]. destruct Hadv as [|Hadv]; [done|].
    cbn [length] in *. split; [lia|]. intros El. apply Hz. lia. }
  assert (block k 0 = 0) as Hb by (apply Z.div_0_l; lia). specialize (Hgen 0 Hs ltac:(lia)).
  rewrite Hb, Z.sub_0_r in Hgen. destruct tr as [|p tr]; [|by apply Hgen].
  inversion Hs; subst. cbn. split; [lia|done].
Qed.

(** C19. A safe iterator returns every entry exactly once and then a null
    pointer, even when the caller deletes entries it has been given, in the
    middle of a rehashing as well; afterwards the map holds the entries that
    were not deleted, and releasing the iterator resumes rehashing. *)
Theorem dict_iterate_complete cr victim d m U fuel :
  dict_rep ty content d m U → 0 <= pauserehash d < 2 ^ 15 - 1 → (base.size m < fuel)%nat →
  ∃ d1 it l d2, iterate fuel ty cr victim d dictGetSafeIterator = Ret (d1, it, l) ∧
    l ≡ₚ addr <$> (map_to_list m).*2 ∧
    dict_rep ty content d1 (filter (λ p, victim (ikey p.2) = false) m) U ∧
    dictReleaseIterator d1 it = Ret d2 ∧
    dict_rep ty content d2 (filter (λ p, victim (ikey p.2) = false) m) U ∧
    pauserehash d2 = pauserehash d.
Proof.
  intros (ls0 & ls1 & Hrw) Hp Hf. pose proof Hrw as (Hw & Hm & Hsz). set (R := concat ls0 ++ concat ls1) in *.
  assert (R ≡ₚ addr <$> (map_to_list m).*2) as HR.
  { rewrite Hm, <- !list_fmap_compose. rewrite <- (list_fmap_id R) at 1.
    rewrite (list_fmap_ext _ (addr ∘ snd ∘ item_of content (heap d))); [done|].
    intros i x _. cbn. unfold item_of. by destruct (heap d !! x). }
  assert (pauserehash (begun d dictGetSafeIterator) = pauserehash d + 1) as Hb.
  { cbn. apply wraps_id; cbn; lia. }
  destruct (iterate_spec fuel cr victim d dictGetSafeIterator m U ls0 ls1 R) as (d1 & it & E & Hd1 & Hp1 & Hi & Hsf).
  - done.
  - done.
  - unfold iter_pos, after. cbn. split_and!; [by left|lia|done].
  - by eapply wf_nodup.
  - done.
  - lia.
  - rewrite HR, !length_fmap, length_map_to_list. done.
  - assert (filter (spared victim R) m = filter (λ p, victim (ikey p.2) = false) m) as Hfl.
    { apply map_filter_ext. intros c i Hc. unfold spared. cbn.
      assert (addr i ∈ R) by (rewrite HR; apply list_elem_of_fmap_2, (list_elem_of_fmap_2 snd _ (c, i));
        by apply elem_of_map_to_list).
      destruct (victim (ikey i)); naive_solver. }
    rewrite Hfl in Hd1. exists d1, it, R, (dictResumeRehashing d1). split_and!; try done.
    + unfold dictReleaseIterator. test (it_index it =? -1) false. by rewrite Hsf.
    + by apply set_pause_rep.
    + cbn. rewrite Hp1, Hb. replace (pauserehash d + 1 - 1) with (pauserehash d) by lia. apply wraps_id; cbn; lia.
Qed.

Section expansion.
Context {A : DictAlloc} {AL : DictAllocLaws A}.

(** C20. [dictExpand] rounds the size up to the least power of two that is at
    least 4 and not below it, and installs a table of that size exactly when no
    rehashing is in progress, the entries fit, the size in bytes does not
    overflow and the size changes; otherwise it leaves the dictionary alone.
    The map is the same in every case. *)
Theorem dictExpand_exact d m U sz :
  dict_rep ty content d m U → 0 <= sz < 2 ^ 64 →
  ∃ k, _dictNextPower sz = Ret (2 ^ k) ∧ 2 <= k <= 63 ∧ (k = 2 ∨ 2 ^ (k - 1) < sz) ∧
    ((dictIsRehashing d = false ∧ used (ht0 d) <= sz <= 2 ^ k ∧ k <= 60 ∧ size (ht0 d) ≠ 2 ^ k ∧
      ∃ d', dictExpand d sz = Ret (d', DICT_OK) ∧ dict_rep ty content d' m U ∧
        size (if table (ht0 d) =? 0 then ht0 d' else ht1 d') = 2 ^ k) ∨
     ((dictIsRehashing d = true ∨ sz < used (ht0 d) ∨ 60 < k ∨ size (ht0 d) = 2 ^ k) ∧
      dictExpand d sz = Ret (d, DICT_ERR))).
Proof.
  intros Hd Hsz. destruct (_dictExpand_spec d m U sz false Hd Hsz) as (k & Hk & Hk63 & Hmin & Hx).
  exists k. split_and!; [done|lia|lia|done|]. unfold dictExpand.
  destruct Hx as [(Hr & Hu & H60 & Hs & _ & d' & -> & Hd' & _ & _ & Hn)|[Hc [f ->]]].
  - left. split_and!; try (done || lia). by exists d'.
  - right. split; [|done]. destruct Hc as [?|[?|[?|[?|[? _]]]]]; [by auto..|done].
Qed.

End expansion.

End theorems.

(** * The theorems on the example *)

Lemma dict_insert_refines_witness :
  (∃ d' r, dictAdd ex_type DICT_RESIZE_ENABLE ex_dict 7 700 = Ret (d', r) ∧ r = DICT_OK ∧
     ∃ x, dict_rep ex_type (λ k, k) d' (<[7 := Item x 7 700]> ex_map) ∅) ∧
  (∃ d' x, dictReplace ex_type DICT_RESIZE_ENABLE ex_dict 7 700 = Ret (d', 1) ∧
     dict_rep ex_type (λ k, k) d' (<[7 := Item x 7 700]> ex_map) ∅) ∧
  (∃ d' x, dictAddOrFind ex_type DICT_RESIZE_ENABLE ex_dict 7 = Ret (d', x) ∧ x ≠ 0 ∧
     dict_rep ex_type (λ k, k) d' (<[7 := Item x 7 0]> ex_map) ∅) ∧
  (∃ d', dictFind ex_type DICT_RESIZE_ENABLE ex_dict 7 = Ret (d', 0)) ∧
  (∃ d', dictFetchValue ex_type DICT_RESIZE_ENABLE ex_dict 7 = Ret (d', 0)).
Proof.
  destruct (dict_insert_refines (AL := ex_alloc_laws) (TL := ex_type_laws) DICT_RESIZE_ENABLE ex_dict ex_map ∅ 7 700
    ex_dict_rep ltac:(by vm_compute)) as (H1 & H2 & H3 & (d4 & H4 & _) & (d5 & H5 & _)).
  split; [exact H1|]. split; [exact H2|]. split; [exact H3|].
  split; [exists d4; exact H4|exists d5; exact H5].
Defined.

Lemma dict_delete_refines_witness :
  (∃ d', dictDelete ex_type DICT_RESIZE_ENABLE ex_dict 2 = Ret (d', DICT_OK) ∧
     dict_rep ex_type (λ k, k) d' (delete 2 ex_map) ∅) ∧
  (∃ d', dictUnlink ex_type DICT_RESIZE_ENABLE ex_dict 2 = Ret (d', 2) ∧
     dict_rep ex_type (λ k, k) d' (delete 2 ex_map) ({[2]} ∪ ∅) ∧
     (∃ n, heap d' !! 2 = Some (DictEntry 2 200 n)) ∧
     ∃ d2, dictFreeUnlinkedEntry d' 2 = Ret d2 ∧
       dict_rep ex_type (λ k, k) d2 (delete 2 ex_map) ∅ ∧ heap d2 !! 2 = None) ∧
  (∃ d', dictEmpty ex_dict = Ret d' ∧ dict_rep ex_type (λ k, k) d' ∅ ∅ ∧ dom (heap d') = ∅ ∧
     ∀ x, x ∈ (∅ : gset Z) → heap d' !! x = heap ex_dict !! x).
Proof. exact (dict_delete_refines (TL := ex_type_laws) DICT_RESIZE_ENABLE ex_dict ex_map ∅ 2 ex_dict_rep). Defined.

Lemma dictRehash_keeps_witness :
  ∃ d' r, dictRehash ex_type DICT_RESIZE_ENABLE ex_dict 1 = Ret (d', r) ∧
    dict_rep ex_type (λ k, k) d' ex_map ∅ ∧ pauserehash d' = 0 ∧
    ((r = 1 ∧ dictIsRehashing d' = true ∧ same_shape ex_dict d' ∧ 1 < rehashidx d' <= 12) ∨
     (r = 0 ∧ dictIsRehashing d' = false) ∨
     (r = 0 ∧ d' = ex_dict ∧ DICT_RESIZE_ENABLE ≠ DICT_RESIZE_ENABLE)).
Proof. exact (dictRehash_keeps DICT_RESIZE_ENABLE ex_dict ex_map ∅ 1 ex_dict_rep ltac:(lia)). Defined.

Lemma dictRehashMilliseconds_completes_witness :
  (∃ d' r, dictRehashMilliseconds ex_type DICT_RESIZE_ENABLE ex_dict 4 = Ret (d', r) ∧
     dict_rep ex_type (λ k, k) d' ex_map ∅ ∧ dictIsRehashing d' = false) ∧
  dictRehashMilliseconds ex_type DICT_RESIZE_AVOID ex_dict 4 = Ret (ex_dict, 0).
Proof.
  split.
  - destruct (dictRehashMilliseconds_completes DICT_RESIZE_ENABLE ex_dict ex_map ∅ 4 ex_dict_rep ltac:(by vm_compute))
      as (d' & r & E & Hd' & [([Hp|[Hh|[Hh _]]] & _)|(_ & _ & Hr)]); [discriminate Hp|discriminate Hh..|].
    exists d', r. exact (conj E (conj Hd' Hr)).
  - destruct (dictRehashMilliseconds_completes DICT_RESIZE_AVOID ex_dict ex_map ∅ 4 ex_dict_rep ltac:(by vm_compute))
      as (d' & r & E & Hd' & [(_ & -> & ->)|(_ & Hh & _)]); [exact E|].
    exfalso. apply Hh. right. split_and!; [reflexivity|discriminate|reflexivity].
Defined.

Lemma ex_scanned : scanned 0 ex_trace 0.
Proof.
  unfold ex_trace. do 4 (eapply scanned_cons; [by vm_compute|by (left; done) || by right|]). constructor.
Qed.

Lemma ex_trace_in d l : (d, l) ∈ ex_trace → d = ex_dict.
Proof. unfold ex_trace. set_solver. Qed.

Lemma dictScan_complete_witness :
  ∃ d l m U it, (d, l) ∈ ex_trace ∧ dict_rep ex_type (λ k, k) d m U ∧ m !! 5 = Some it ∧ addr it ∈ l.
Proof.
  apply (dictScan_complete (TL := ex_type_laws) ex_trace 5 ex_scanned ltac:(done)).
  intros d l ->%ex_trace_in. exists ex_map, ∅, (Item 5 5 500). split; [exact ex_dict_rep|by vm_compute].
Defined.

Lemma dictScan_ends_witness :
  (∀ d m U w, dict_rep ex_type (λ k, k) d m U → 0 <= w < 2 ^ 64 → ∃ r, dictScan d w = Ret r) ∧
  Z.of_nat (length ex_trace) <= 2 ^ 2 ∧ (Z.of_nat (length ex_trace) = 2 ^ 2 → 0 = 0).
Proof.
  apply (dictScan_ends (TL := ex_type_laws) ex_trace 0 2 ex_scanned ltac:(lia)).
  intros d l ->%ex_trace_in. exists ex_map, ∅. split; [exact ex_dict_rep|by vm_compute].
Defined.

Lemma dict_iterate_complete_witness :
  ∃ d1 it l d2, iterate 7 ex_type DICT_RESIZE_ENABLE Z.even ex_dict dictGetSafeIterator = Ret (d1, it, l) ∧
    l ≡ₚ addr <$> (map_to_list ex_map).*2 ∧
    dict_rep ex_type (λ k, k) d1 (filter (λ p, Z.even (ikey p.2) = false) ex_map) ∅ ∧
    dictReleaseIterator d1 it = Ret d2 ∧
    dict_rep ex_type (λ k, k) d2 (filter (λ p, Z.even (ikey p.2) = false) ex_map) ∅ ∧
    pauserehash d2 = 0.
Proof.
  exact (dict_iterate_complete (TL := ex_type_laws) DICT_RESIZE_ENABLE Z.even ex_dict ex_map ∅ 7 ex_dict_rep
    ltac:(done) ltac:(by vm_compute)).
Defined.

Lemma dictExpand_exact_witness :
  ∃ k, _dictNextPower 5 = Ret (2 ^ k) ∧ 2 <= k <= 63 ∧ (k = 2 ∨ 2 ^ (k - 1) < 5) ∧
    ((dictIsRehashing dictCreate = false ∧ 0 <= 5 <= 2 ^ k ∧ k <= 60 ∧ 0 ≠ 2 ^ k ∧
      ∃ d', dictExpand dictCreate 5 = Ret (d', DICT_OK) ∧ dict_rep ex_type (λ k, k) d' ∅ ∅ ∧
        size (ht0 d') = 2 ^ k) ∨
     ((dictIsRehashing dictCreate = true ∨ 5 < 0 ∨ 60 < k ∨ 0 = 2 ^ k) ∧
      dictExpand dictCreate 5 = Ret (dictCreate, DICT_ERR))).
Proof.
  exact (dictExpand_exact (AL := ex_alloc_laws) (ty := ex_type) (content := λ k, k) dictCreate ∅ ∅ 5
    (rep_empty ∅ 0 ∅ dom_empty_L) ltac:(lia)).
Defined.

End DictSpec.
