(* ===== verification/Sds.v ===== *)
(** Dynamic strings: [src/.../redis-6.2/src/sds.c] and [sds.h].

    An [sds] is a pointer into the middle of a block: behind it the
    characters and a terminator, before it a header of one of five layouts.
    This file holds the operations as the code has them, on the bytes of the
    block; [SdsRep] and [SdsText] hold the proofs.

    [zmalloc] stops the process when memory is exhausted, so only the
    [try] variant of a constructor can return a null pointer. *)
From S2P Require Import Prelude Endianconv Util.

Module Sds.

(** * Layout (sds.h) *)

(** A pointer [s]: its block and the offset it points to. *)
Record sds := Sds { mem : list Z; off : Z }.

Definition SDS_TYPE_5 : Z := 0.
Definition SDS_TYPE_8 : Z := 1.
Definition SDS_TYPE_16 : Z := 2.
Definition SDS_TYPE_32 : Z := 3.
Definition SDS_TYPE_64 : Z := 4.
Definition SDS_TYPE_MASK : Z := 7.
Definition SDS_TYPE_BITS : Z := 3.
Definition SDS_MAX_PREALLOC : Z := 1024 * 1024.
Definition SDS_LLSTR_SIZE : Z := 21.

Definition SDS_TYPE_5_LEN (f : Z) : Z := Z.shiftr f SDS_TYPE_BITS.

Definition sdsHdrSize (type : Z) : Z :=
  let t := Z.land type SDS_TYPE_MASK in
  if t =? SDS_TYPE_5 then 1
  else if t =? SDS_TYPE_8 then 3
  else if t =? SDS_TYPE_16 then 5
  else if t =? SDS_TYPE_32 then 9
  else if t =? SDS_TYPE_64 then 17
  else 0.

Definition sdsReqType (string_size : Z) : Z :=
  if string_size <? Z.shiftl 1 5 then SDS_TYPE_5
  else if string_size <? Z.shiftl 1 8 then SDS_TYPE_8
  else if string_size <? Z.shiftl 1 16 then SDS_TYPE_16
  else if string_size <? Z.shiftl 1 32 then SDS_TYPE_32
  else SDS_TYPE_64.

Definition sdsTypeMaxSize (type : Z) : Z :=
  if type =? SDS_TYPE_5 then Z.shiftl 1 5 - 1
  else if type =? SDS_TYPE_8 then Z.shiftl 1 8 - 1
  else if type =? SDS_TYPE_16 then Z.shiftl 1 16 - 1
  else if type =? SDS_TYPE_32 then Z.shiftl 1 32 - 1
  else u64 (-1).

(** [s[i]], [s[i] = v] and copies into the buffer. *)
Definition s_rd (s : sds) (i : Z) : outcome Z := rd (mem s) (off s + i).
Definition s_rdn (s : sds) (i n : Z) : outcome (list Z) := rdn (mem s) (off s + i) n.
Definition s_wrn (s : sds) (i : Z) (bs : list Z) : outcome sds :=
  m ← wrn (mem s) (off s + i) bs; Ret (Sds m (off s)).
Definition s_wr (s : sds) (i v : Z) : outcome sds :=
  m ← wr (mem s) (off s + i) v; Ret (Sds m (off s)).
Definition s_memmove (s : sds) (dst src n : Z) : outcome sds :=
  m ← memmove (mem s) (off s + dst) (off s + src) n; Ret (Sds m (off s)).

Section header.
Context {H : HostOrder}.

(** The fields of [struct sdshdr8/16/32/64], packed: [len] and [alloc] of
    [w] bytes each, then [flags]. *)
Definition sh_len (w : nat) (s : sds) : outcome Z :=
  load w (mem s) (off s - (2 * Z.of_nat w + 1)).
Definition sh_alloc (w : nat) (s : sds) : outcome Z :=
  load w (mem s) (off s - (Z.of_nat w + 1)).
Definition set_sh_len (w : nat) (s : sds) (v : Z) : outcome sds :=
  m ← store w (mem s) (off s - (2 * Z.of_nat w + 1)) v; Ret (Sds m (off s)).
Definition set_sh_alloc (w : nat) (s : sds) (v : Z) : outcome sds :=
  m ← store w (mem s) (off s - (Z.of_nat w + 1)) v; Ret (Sds m (off s)).

Definition sdslen (s : sds) : outcome Z :=
  flags ← s_rd s (-1);
  let t := Z.land flags SDS_TYPE_MASK in
  if t =? SDS_TYPE_5 then Ret (SDS_TYPE_5_LEN flags)
  else if t =? SDS_TYPE_8 then sh_len 1 s
  else if t =? SDS_TYPE_16 then sh_len 2 s
  else if t =? SDS_TYPE_32 then sh_len 4 s
  else if t =? SDS_TYPE_64 then sh_len 8 s
  else Ret 0.

(** [alloc - len] is an [int] for the short headers. *)
Definition sdsavail (s : sds) : outcome Z :=
  flags ← s_rd s (-1);
  let t := Z.land flags SDS_TYPE_MASK in
  if t =? SDS_TYPE_5 then Ret 0
  else if t =? SDS_TYPE_8 then a ← sh_alloc 1 s; l ← sh_len 1 s; Ret (u64 (a - l))
  else if t =? SDS_TYPE_16 then a ← sh_alloc 2 s; l ← sh_len 2 s; Ret (u64 (a - l))
  else if t =? SDS_TYPE_32 then a ← sh_alloc 4 s; l ← sh_len 4 s; Ret (u32 (a - l))
  else if t =? SDS_TYPE_64 then a ← sh_alloc 8 s; l ← sh_len 8 s; Ret (u64 (a - l))
  else Ret 0.

Definition sdssetlen (s : sds) (newlen : Z) : outcome sds :=
  flags ← s_rd s (-1);
  let t := Z.land flags SDS_TYPE_MASK in
  if t =? SDS_TYPE_5 then s_wr s (-1) (Z.lor SDS_TYPE_5 (Z.shiftl newlen SDS_TYPE_BITS))
  else if t =? SDS_TYPE_8 then set_sh_len 1 s newlen
  else if t =? SDS_TYPE_16 then set_sh_len 2 s newlen
  else if t =? SDS_TYPE_32 then set_sh_len 4 s newlen
  else if t =? SDS_TYPE_64 then set_sh_len 8 s newlen
  else Ret s.

Definition sdsinclen (s : sds) (inc : Z) : outcome sds :=
  flags ← s_rd s (-1);
  let t := Z.land flags SDS_TYPE_MASK in
  if t =? SDS_TYPE_5 then
    let newlen := u8 (SDS_TYPE_5_LEN flags + inc) in
    s_wr s (-1) (Z.lor SDS_TYPE_5 (Z.shiftl newlen SDS_TYPE_BITS))
  else if t =? SDS_TYPE_8 then l ← sh_len 1 s; set_sh_len 1 s (l + inc)
  else if t =? SDS_TYPE_16 then l ← sh_len 2 s; set_sh_len 2 s (l + inc)
  else if t =? SDS_TYPE_32 then l ← sh_len 4 s; set_sh_len 4 s (l + inc)
  else if t =? SDS_TYPE_64 then l ← sh_len 8 s; set_sh_len 8 s (l + inc)
  else Ret s.

Definition sdsalloc (s : sds) : outcome Z :=
  flags ← s_rd s (-1);
  let t := Z.land flags SDS_TYPE_MASK in
  if t =? SDS_TYPE_5 then Ret (SDS_TYPE_5_LEN flags)
  else if t =? SDS_TYPE_8 then sh_alloc 1 s
  else if t =? SDS_TYPE_16 then sh_alloc 2 s
  else if t =? SDS_TYPE_32 then sh_alloc 4 s
  else if t =? SDS_TYPE_64 then sh_alloc 8 s
  else Ret 0.

Definition sdssetalloc (s : sds) (newlen : Z) : outcome sds :=
  flags ← s_rd s (-1);
  let t := Z.land flags SDS_TYPE_MASK in
  if t =? SDS_TYPE_5 then Ret s
  else if t =? SDS_TYPE_8 then set_sh_alloc 1 s newlen
  else if t =? SDS_TYPE_16 then set_sh_alloc 2 s newlen
  else if t =? SDS_TYPE_32 then set_sh_alloc 4 s newlen
  else if t =? SDS_TYPE_64 then set_sh_alloc 8 s newlen
  else Ret s.

End header.
(** * Creation, growth and in-place changes (sds.c) *)

Section operations.
Context {H : HostOrder} {A : Allocator}.

(** A fresh block has all the bytes [malloc_usable_size] reports. *)
Definition s_malloc (n : Z) : list Z := zmalloc (usable_size n).
Definition s_realloc (b : list Z) (n : Z) : list Z := zrealloc b (usable_size n).

(** The pointer [init]: the marker [SDS_NOINIT], a null pointer or bytes. *)
Inductive sds_init :=
| SDS_NOINIT
| INIT_NULL
| INIT_BYTES (bs : list Z).

(** The width of the fields of a header with [len] and [alloc]. *)
Definition hdr_width (type : Z) : nat :=
  if type =? SDS_TYPE_8 then 1
  else if type =? SDS_TYPE_16 then 2
  else if type =? SDS_TYPE_32 then 4
  else 8.

Definition _sdsnewlen (init : sds_init) (initlen : Z) (trymalloc : bool) : outcome (option sds) :=
  let type := sdsReqType initlen in
  let type := if (type =? SDS_TYPE_5) && (initlen =? 0) then SDS_TYPE_8 else type in
  let hdrlen := sdsHdrSize type in
  _ ← c_assert (initlen <? u64 (initlen + hdrlen + 1));
  let size := u64 (hdrlen + initlen + 1) in
  if trymalloc && negb (try_ok size) then Ret None
  else
    let sh := s_malloc size in
    let usable := usable_size size in
    sh ← match init with
         | INIT_NULL => wrn sh 0 (replicate (Z.to_nat (hdrlen + initlen + 1)) 0)
         | _ => Ret sh
         end;
    let s := Sds sh hdrlen in
    let usable := u64 (usable - hdrlen - 1) in
    let usable := if sdsTypeMaxSize type <? usable then sdsTypeMaxSize type else usable in
    s ← (if type =? SDS_TYPE_5 then
           s_wr s (-1) (Z.lor type (Z.shiftl initlen SDS_TYPE_BITS))
         else
           s ← set_sh_len (hdr_width type) s initlen;
           s ← set_sh_alloc (hdr_width type) s usable;
           s_wr s (-1) type);
    s ← match init with
        | INIT_BYTES bs =>
          if initlen =? 0 then Ret s else bs ← rdn bs 0 initlen; s_wrn s 0 bs
        | _ => Ret s
        end;
    s ← s_wr s initlen 0;
    Ret (Some s).

(** The functions that use [zmalloc] never see a null pointer. *)
Definition not_null (r : option sds) : outcome sds :=
  match r with Some s => Ret s | None => Fault end.

Definition sdsnewlen (init : sds_init) (initlen : Z) : outcome sds :=
  r ← _sdsnewlen init initlen false; not_null r.

Definition sdstrynewlen (init : sds_init) (initlen : Z) : outcome (option sds) :=
  _sdsnewlen init initlen true.

Definition sdsempty : outcome sds := sdsnewlen (INIT_BYTES [0]) 0.

Definition sdsnew (init : option (list Z)) : outcome sds :=
  match init with
  | None => sdsnewlen INIT_NULL 0
  | Some c => initlen ← strlen c; sdsnewlen (INIT_BYTES c) initlen
  end.

Definition sdsdup (s : sds) : outcome sds :=
  len ← sdslen s;
  bs ← s_rdn s 0 len;
  sdsnewlen (INIT_BYTES bs) len.

Definition sdsupdatelen (s : sds) : outcome sds :=
  reallen ← strlen (drop (Z.to_nat (off s)) (mem s));
  sdssetlen s reallen.

Definition sdsclear (s : sds) : outcome sds :=
  s ← sdssetlen s 0;
  s_wr s 0 0.

Definition sdsMakeRoomFor (s : sds) (addlen : Z) : outcome sds :=
  avail ← sdsavail s;
  flags ← s_rd s (-1);
  let oldtype := Z.land flags SDS_TYPE_MASK in
  if addlen <=? avail then Ret s
  else
    len ← sdslen s;
    let reqlen := u64 (len + addlen) in
    _ ← c_assert (len <? reqlen);
    let newlen := if reqlen <? SDS_MAX_PREALLOC then u64 (reqlen * 2)
                  else u64 (reqlen + SDS_MAX_PREALLOC) in
    let type := sdsReqType newlen in
    let type := if type =? SDS_TYPE_5 then SDS_TYPE_8 else type in
    let hdrlen := sdsHdrSize type in
    _ ← c_assert (reqlen <? u64 (hdrlen + newlen + 1));
    let size := u64 (hdrlen + newlen + 1) in
    s ← (if oldtype =? type then Ret (Sds (s_realloc (mem s) size) hdrlen)
         else
           bs ← s_rdn s 0 (len + 1);
           newsh ← wrn (s_malloc size) hdrlen bs;
           s ← s_wr (Sds newsh hdrlen) (-1) type;
           sdssetlen s len);
    let usable := u64 (usable_size size - hdrlen - 1) in
    let usable := if sdsTypeMaxSize type <? usable then sdsTypeMaxSize type else usable in
    sdssetalloc s usable.

(** [use_jemalloc] is the build flag [USE_JEMALLOC]. *)
Definition sdsResize (use_jemalloc : bool) (s : sds) (size : Z) (would_regrow : bool) : outcome sds :=
  flags ← s_rd s (-1);
  let oldtype := Z.land flags SDS_TYPE_MASK in
  let oldhdrlen := sdsHdrSize oldtype in
  len ← sdslen s;
  alloc ← sdsalloc s;
  if alloc =? size then Ret s
  else
    let len := if size <? len then size else len in
    let type := sdsReqType size in
    let type := if would_regrow && (type =? SDS_TYPE_5) then SDS_TYPE_8 else type in
    let hdrlen := sdsHdrSize type in
    let use_realloc := (oldtype =? type) || ((type <? oldtype) && (SDS_TYPE_8 <? type)) in
    let newlen := if use_realloc then u64 (oldhdrlen + size + 1) else u64 (hdrlen + size + 1) in
    let alloc_already_optimal := use_jemalloc && (usable_size newlen =? zlen (mem s)) in
    s ← (if use_realloc && negb alloc_already_optimal then
           Ret (Sds (s_realloc (mem s) newlen) oldhdrlen)
         else if negb alloc_already_optimal then
           bs ← s_rdn s 0 len;
           newsh ← wrn (s_malloc newlen) hdrlen bs;
           s_wr (Sds newsh hdrlen) (-1) type
         else Ret s);
    s ← s_wr s len 0;
    s ← sdssetlen s len;
    sdssetalloc s size.

Definition sdsRemoveFreeSpace (use_jemalloc : bool) (s : sds) (would_regrow : bool) : outcome sds :=
  len ← sdslen s;
  sdsResize use_jemalloc s len would_regrow.

Definition sdsAllocSize (s : sds) : outcome Z :=
  alloc ← sdsalloc s;
  flags ← s_rd s (-1);
  Ret (sdsHdrSize flags + alloc + 1).

Definition sdsIncrLen (s : sds) (incr : Z) : outcome sds :=
  flags ← s_rd s (-1);
  let t := Z.land flags SDS_TYPE_MASK in
  '(s, len) ←
    (if t =? SDS_TYPE_5 then
       let oldlen := SDS_TYPE_5_LEN flags in
       _ ← c_assert (((0 <? incr) && (oldlen + incr <? 32)) ||
                     ((incr <? 0) && (u32 (- incr) <=? oldlen)));
       s ← s_wr s (-1) (Z.lor SDS_TYPE_5 (Z.shiftl (oldlen + incr) SDS_TYPE_BITS));
       Ret (s, oldlen + incr)
     else if (t =? SDS_TYPE_8) || (t =? SDS_TYPE_16) then
       let w := hdr_width t in
       l ← sh_len w s; a ← sh_alloc w s;
       _ ← c_assert (((0 <=? incr) && (incr <=? a - l)) ||
                     ((incr <? 0) && (u32 (- incr) <=? l)));
       s ← set_sh_len w s (l + incr);
       l ← sh_len w s;
       Ret (s, l)
     else if t =? SDS_TYPE_32 then
       l ← sh_len 4 s; a ← sh_alloc 4 s;
       _ ← c_assert (((0 <=? incr) && (u32 incr <=? u32 (a - l))) ||
                     ((incr <? 0) && (u32 (- incr) <=? l)));
       s ← set_sh_len 4 s (l + incr);
       l ← sh_len 4 s;
       Ret (s, l)
     else if t =? SDS_TYPE_64 then
       l ← sh_len 8 s; a ← sh_alloc 8 s;
       _ ← c_assert (((0 <=? incr) && (u64 incr <=? u64 (a - l))) ||
                     ((incr <? 0) && (u64 (- incr) <=? l)));
       s ← set_sh_len 8 s (l + incr);
       l ← sh_len 8 s;
       Ret (s, l)
     else Ret (s, 0));
  s_wr s len 0.

Definition sdsgrowzero (s : sds) (len : Z) : outcome sds :=
  curlen ← sdslen s;
  if len <=? curlen then Ret s
  else
    s ← sdsMakeRoomFor s (len - curlen);
    s ← s_wrn s curlen (replicate (Z.to_nat (len - curlen + 1)) 0);
    sdssetlen s len.

(** [t] is the memory the second argument points to. *)
Definition sdscatlen (s : sds) (t : list Z) (len : Z) : outcome sds :=
  curlen ← sdslen s;
  s ← sdsMakeRoomFor s len;
  bs ← rdn t 0 len;
  s ← s_wrn s curlen bs;
  s ← sdssetlen s (u64 (curlen + len));
  s_wr s (u64 (curlen + len)) 0.

Definition sdscat (s : sds) (t : list Z) : outcome sds :=
  n ← strlen t; sdscatlen s t n.

Definition sdscatsds (s t : sds) : outcome sds :=
  n ← sdslen t;
  bs ← s_rdn t 0 n;
  sdscatlen s bs n.

Definition sdscpylen (s : sds) (t : list Z) (len : Z) : outcome sds :=
  alloc ← sdsalloc s;
  s ← (if alloc <? len then l ← sdslen s; sdsMakeRoomFor s (u64 (len - l)) else Ret s);
  bs ← rdn t 0 len;
  s ← s_wrn s 0 bs;
  s ← s_wr s len 0;
  sdssetlen s len.

Definition sdscpy (s : sds) (t : list Z) : outcome sds :=
  n ← strlen t; sdscpylen s t n.

(** * Numbers *)

(** [do { *p++ = '0' + (v % 10); v /= 10; } while (v)] *)
Fixpoint ll2str_digits (fuel : nat) (buf : list Z) (p v : Z) : outcome (list Z * Z) :=
  match fuel with
  | O => OutOfFuel
  | S fuel =>
    buf ← wr buf p (48 + v mod 10);
    let v := v / 10 in
    if v =? 0 then Ret (buf, p + 1) else ll2str_digits fuel buf (p + 1) v
  end.

(** [while (s < p)]: swap the ends. *)
Fixpoint ll2str_reverse (fuel : nat) (buf : list Z) (s p : Z) : outcome (list Z) :=
  match fuel with
  | O => OutOfFuel
  | S fuel =>
    if s <? p then
      aux ← rd buf s;
      x ← rd buf p;
      buf ← wr buf s x;
      buf ← wr buf p aux;
      ll2str_reverse fuel buf (s + 1) (p - 1)
    else Ret buf
  end.

Definition sdsll2str (buf : list Z) (value : Z) : outcome (list Z * Z) :=
  let v := if value <? 0 then u64 (- value) else value in
  '(buf, p) ← ll2str_digits 20 buf 0 v;
  '(buf, p) ← (if value <? 0 then buf ← wr buf p 45; Ret (buf, p + 1) else Ret (buf, p));
  let l := p in
  buf ← wr buf p 0;
  buf ← ll2str_reverse 21 buf 0 (p - 1);
  Ret (buf, l).

Definition sdsull2str (buf : list Z) (v : Z) : outcome (list Z * Z) :=
  '(buf, p) ← ll2str_digits 20 buf 0 v;
  let l := p in
  buf ← wr buf p 0;
  buf ← ll2str_reverse 21 buf 0 (p - 1);
  Ret (buf, l).

(** [char buf[SDS_LLSTR_SIZE]] on the stack. *)
Definition llstr_buf : list Z := junk SDS_LLSTR_SIZE.

Definition sdsfromlonglong (value : Z) : outcome sds :=
  '(buf, len) ← sdsll2str llstr_buf value;
  sdsnewlen (INIT_BYTES buf) len.

(** * Formatting *)

(** The C library formats: [out] is the text [vsnprintf] would produce for
    the arguments, of which it stores what fits.  The loop asks again with a
    larger buffer; [buf] is the buffer and [buflen] its size. *)
Definition vsnprintf (buf : list Z) (buflen : Z) (out : list Z) : outcome (list Z * Z) :=
  buf ← wrn buf 0 (take (Z.to_nat (buflen - 1)) out ++ [0]);
  Ret (buf, zlen out).

Fixpoint vprintf_loop (fuel : nat) (buf : list Z) (buflen : Z) (out : list Z) : outcome (list Z * Z) :=
  match fuel with
  | O => OutOfFuel
  | S fuel =>
    '(buf, bufstrlen) ← vsnprintf buf buflen out;
    if buflen <=? bufstrlen then
      let buflen := bufstrlen + 1 in
      vprintf_loop fuel (s_malloc buflen) buflen out
    else Ret (buf, bufstrlen)
  end.

Definition sdscatvprintf (s : sds) (fmt out : list Z) : outcome sds :=
  n ← strlen fmt;
  let buflen := u64 (n * 2) in
  '(buf, buflen) ← (if 1024 <? buflen then Ret (s_malloc buflen, buflen)
                    else Ret (junk 1024, 1024));
  '(buf, bufstrlen) ← vprintf_loop 2 buf buflen out;
  sdscatlen s buf bufstrlen.

Definition sdscatprintf (s : sds) (fmt out : list Z) : outcome sds := sdscatvprintf s fmt out.

(** The variable arguments of [sdscatfmt]; reading one at another type is
    undefined. *)
Inductive va_arg :=
| VA_str (t : list Z)              (* a C string *)
| VA_sds (t : sds)
| VA_int (v : Z)                   (* int *)
| VA_llong (v : Z)                 (* long long *)
| VA_uint (v : Z)                  (* unsigned int *)
| VA_ullong (v : Z).               (* unsigned long long *)

(** Append [l] bytes at [i] and account for them. *)
Definition fmt_put (s : sds) (i : Z) (bs : list Z) (l : Z) : outcome (sds * Z) :=
  avail ← sdsavail s;
  s ← (if avail <? l then sdsMakeRoomFor s l else Ret s);
  bs ← rdn bs 0 l;
  s ← s_wrn s i bs;
  s ← sdsinclen s l;
  Ret (s, i + l).

Definition fmt_char (s : sds) (i c : Z) : outcome (sds * Z) :=
  s ← s_wr s i c;
  s ← sdsinclen s 1;
  Ret (s, i + 1).

(** [switch (next)]: the conversion, the arguments left. *)
Definition fmt_conv (s : sds) (i next : Z) (args : list va_arg)
    : outcome (sds * Z * list va_arg) :=
  if next =? 115 (* s *) then
    match args with
    | VA_str t :: args => l ← strlen t; '(s, i) ← fmt_put s i t l; Ret (s, i, args)
    | _ => Fault
    end
  else if next =? 83 (* S *) then
    match args with
    | VA_sds t :: args =>
      l ← sdslen t; bs ← s_rdn t 0 l; '(s, i) ← fmt_put s i bs l; Ret (s, i, args)
    | _ => Fault
    end
  else if (next =? 105 (* i *)) || (next =? 73 (* I *)) then
    match args with
    | VA_int num :: args =>
      if next =? 105 then
        '(buf, l) ← sdsll2str llstr_buf num; '(s, i) ← fmt_put s i buf l; Ret (s, i, args)
      else Fault
    | VA_llong num :: args =>
      if next =? 73 then
        '(buf, l) ← sdsll2str llstr_buf num; '(s, i) ← fmt_put s i buf l; Ret (s, i, args)
      else Fault
    | _ => Fault
    end
  else if (next =? 117 (* u *)) || (next =? 85 (* U *)) then
    match args with
    | VA_uint unum :: args =>
      if next =? 117 then
        '(buf, l) ← sdsull2str llstr_buf unum; '(s, i) ← fmt_put s i buf l; Ret (s, i, args)
      else Fault
    | VA_ullong unum :: args =>
      if next =? 85 then
        '(buf, l) ← sdsull2str llstr_buf unum; '(s, i) ← fmt_put s i buf l; Ret (s, i, args)
      else Fault
    | _ => Fault
    end
  else '(s, i) ← fmt_char s i next; Ret (s, i, args).

(** [while ( *f)] *)
Fixpoint fmt_loop (fuel : nat) (s : sds) (i : Z) (fmt : list Z) (f : Z) (args : list va_arg)
    : outcome (sds * Z) :=
  match fuel with
  | O => OutOfFuel
  | S fuel =>
    c ← rd fmt f;
    if c =? 0 then Ret (s, i)
    else
      avail ← sdsavail s;
      s ← (if avail =? 0 then sdsMakeRoomFor s 1 else Ret s);
      if c =? 37 then
        next ← rd fmt (f + 1);
        '(s, i, args) ← fmt_conv s i next args;
        fmt_loop fuel s i fmt (f + 2) args
      else
        '(s, i) ← fmt_char s i c;
        fmt_loop fuel s i fmt (f + 1) args
  end.

Definition sdscatfmt (s : sds) (fmt : list Z) (args : list va_arg) : outcome sds :=
  initlen ← sdslen s;
  n ← strlen fmt;
  s ← sdsMakeRoomFor s (u64 (n * 2));
  '(s, i) ← fmt_loop (S (length fmt)) s initlen fmt 0 args;
  s_wr s i 0.

(** * Trimming, ranges, comparison *)

(** [strchr(cset, c) != NULL]; the terminator belongs to the string. *)
Fixpoint strchr (cset : list Z) (c : Z) : outcome bool :=
  match cset with
  | [] => Fault
  | x :: cset => if x =? c then Ret true else if x =? 0 then Ret false else strchr cset c
  end.

(** [while (sp <= end && strchr(cset, *sp)) sp++] *)
Fixpoint trim_left (fuel : nat) (s : sds) (cset : list Z) (sp end_ : Z) : outcome Z :=
  match fuel with
  | O => OutOfFuel
  | S fuel =>
    if sp <=? end_ then
      c ← s_rd s sp;
      b ← strchr cset c;
      if b : bool then trim_left fuel s cset (sp + 1) end_ else Ret sp
    else Ret sp
  end.

(** [while (ep > sp && strchr(cset, *ep)) ep--] *)
Fixpoint trim_right (fuel : nat) (s : sds) (cset : list Z) (sp ep : Z) : outcome Z :=
  match fuel with
  | O => OutOfFuel
  | S fuel =>
    if sp <? ep then
      c ← s_rd s ep;
      b ← strchr cset c;
      if b : bool then trim_right fuel s cset sp (ep - 1) else Ret ep
    else Ret ep
  end.

Definition sdstrim (s : sds) (cset : list Z) : outcome sds :=
  n ← sdslen s;
  let end_ := n - 1 in
  sp ← trim_left (S (Z.to_nat n)) s cset 0 end_;
  ep ← trim_right (S (Z.to_nat n)) s cset sp end_;
  let len := if ep <? sp then 0 else ep - sp + 1 in
  s ← (if sp =? 0 then Ret s else s_memmove s 0 sp len);
  s ← s_wr s len 0;
  sdssetlen s len.

Definition sdssubstr (s : sds) (start len : Z) : outcome sds :=
  oldlen ← sdslen s;
  let '(start, len) := if oldlen <=? start then (0, 0) else (start, len) in
  let len := if oldlen - start <? len then oldlen - start else len in
  s ← (if len =? 0 then Ret s else s_memmove s 0 start len);
  s ← s_wr s len 0;
  sdssetlen s len.

(** The arguments are [ssize_t]; [len + start] is computed unsigned. *)
Definition sdsrange (s : sds) (start end_ : Z) : outcome sds :=
  len ← sdslen s;
  if len =? 0 then Ret s
  else
    let start := if start <? 0 then s64 (len + start) else start in
    let end_ := if end_ <? 0 then s64 (len + end_) else end_ in
    let newlen := if end_ <? start then 0 else u64 (end_ - start + 1) in
    sdssubstr s (u64 start) newlen.

(** [for (j = 0; j < len; j++) s[j] = f(s[j])] *)
Fixpoint map_loop (n : nat) (f : Z → Z) (s : sds) (j : Z) : outcome sds :=
  match n with
  | O => Ret s
  | S n =>
    c ← s_rd s j;
    s ← s_wr s j (f (s8 c));
    map_loop n f s (j + 1)
  end.

Definition sdstolower (s : sds) : outcome sds :=
  len ← sdslen s; map_loop (Z.to_nat len) tolower s 0.

Definition sdstoupper (s : sds) : outcome sds :=
  len ← sdslen s; map_loop (Z.to_nat len) toupper s 0.

(** [memcmp]: the difference of the first bytes that differ. *)
Fixpoint memcmp (a b : list Z) : Z :=
  match a, b with
  | x :: a, y :: b => if x =? y then memcmp a b else x - y
  | _, _ => 0
  end.

Definition sdscmp (s1 s2 : sds) : outcome Z :=
  l1 ← sdslen s1;
  l2 ← sdslen s2;
  let minlen := if l1 <? l2 then l1 else l2 in
  b1 ← s_rdn s1 0 minlen;
  b2 ← s_rdn s2 0 minlen;
  let cmp := memcmp b1 b2 in
  Ret (if cmp =? 0 then (if l2 <? l1 then 1 else if l1 <? l2 then -1 else 0) else cmp).

(** The inner loop of [sdsmapchars] is the lookup [Util.mapchar]. *)
Definition sdsmapchars (s : sds) (from to : list Z) (setlen : Z) : outcome sds :=
  l ← sdslen s;
  from ← rdn from 0 setlen;
  to ← rdn to 0 setlen;
  map_loop (Z.to_nat l) (λ c, Util.mapchar (u8 c) (zip from to)) s 0.

(** * Splitting and joining *)

(** [s_realloc] of an array of [n] pointers, where [n] is an [int]: a negative
    number becomes a size near 2^64, for which the allocator aborts. *)
Definition realloc_pointers (n : Z) : outcome unit := if n <? 0 then Panic else Ret tt.

(** Room for the next element and the final one; both numbers are of type [int]. *)
Definition grow_slots (slots elements : Z) : outcome Z :=
  if slots <? s32 (elements + 2) then
    let slots := s32 (slots * 2) in _ ← realloc_pointers slots; Ret slots
  else Ret slots.

(** [tokens[elements] = t]: the array has [slots] places. *)
Definition put_token (tokens : list sds) (slots : Z) (t : sds) : outcome (list sds) :=
  if zlen tokens <? slots then Ret (tokens ++ [t]) else Fault.

(** The separator test at [j]. *)
Definition sep_at (s : list Z) (j : Z) (sep : list Z) (seplen : Z) : outcome bool :=
  c ← rd s j;
  c0 ← rd sep 0;
  if (seplen =? 1) && (c =? c0) then Ret true
  else
    a ← rdn s j seplen;
    b ← rdn sep 0 seplen;
    Ret (memcmp a b =? 0).

Fixpoint split_loop (fuel : nat) (s : list Z) (len : Z) (sep : list Z) (seplen : Z)
    (j start slots : Z) (tokens : list sds) : outcome (Z * Z * list sds) :=
  match fuel with
  | O => OutOfFuel
  | S fuel =>
    if j <? len - (seplen - 1) then
      slots ← grow_slots slots (zlen tokens);
      b ← sep_at s j sep seplen;
      if b : bool then
        bs ← rdn s start (j - start);
        t ← sdsnewlen (INIT_BYTES bs) (j - start);
        tokens ← put_token tokens slots t;
        split_loop fuel s len sep seplen (j + seplen) (j + seplen) slots tokens
      else split_loop fuel s len sep seplen (j + 1) start slots tokens
    else Ret (start, slots, tokens)
  end.

(** [None] is the null pointer; [*count] is the length of the list. *)
Definition sdssplitlen (s : list Z) (len : Z) (sep : list Z) (seplen : Z)
    : outcome (option (list sds)) :=
  if (seplen <? 1) || (len <? 0) then Ret None
  else if len =? 0 then Ret (Some [])
  else
    '(start, slots, tokens) ← split_loop (S (Z.to_nat len)) s len sep seplen 0 0 5 [];
    bs ← rdn s start (len - start);
    t ← sdsnewlen (INIT_BYTES bs) (len - start);
    tokens ← put_token tokens slots t;
    Ret (Some tokens).

Fixpoint join_loop (join : sds) (argv : list (list Z)) (sep : list Z) : outcome sds :=
  match argv with
  | [] => Ret join
  | a :: argv =>
    join ← sdscat join a;
    join ← match argv with [] => Ret join | _ => sdscat join sep end;
    join_loop join argv sep
  end.

Definition sdsjoin (argv : list (list Z)) (sep : list Z) : outcome sds :=
  join ← sdsempty; join_loop join argv sep.

Fixpoint joinsds_loop (join : sds) (argv : list sds) (sep : list Z) (seplen : Z) : outcome sds :=
  match argv with
  | [] => Ret join
  | a :: argv =>
    join ← sdscatsds join a;
    join ← match argv with [] => Ret join | _ => sdscatlen join sep seplen end;
    joinsds_loop join argv sep seplen
  end.

Definition sdsjoinsds (argv : list sds) (sep : list Z) (seplen : Z) : outcome sds :=
  join ← sdsempty; joinsds_loop join argv sep seplen.

(** * Quoted representation *)

(** [printf] with [%02x] *)
Definition hex_char (d : Z) : Z := if d <? 10 then 48 + d else 87 + d.
Definition fmt_02x (c : Z) : list Z := [hex_char (c / 16); hex_char (c mod 16)].

Fixpoint repr_loop (s : sds) (p : list Z) : outcome sds :=
  match p with
  | [] => Ret s
  | c :: p =>
    s ← (if (c =? 92) || (c =? 34) then
           sdscatprintf s (cstr "\%c" ++ [0]) [92; c]
         else if c =? 10 then sdscatlen s (cstr "\n") 2
         else if c =? 13 then sdscatlen s (cstr "\r") 2
         else if c =? 9 then sdscatlen s (cstr "\t") 2
         else if c =? 7 then sdscatlen s (cstr "\a") 2
         else if c =? 8 then sdscatlen s (cstr "\b") 2
         else if isprint (s8 c) then sdscatprintf s (cstr "%c" ++ [0]) [c]
         else sdscatprintf s (cstr "\x%02x" ++ [0]) (cstr "\x" ++ fmt_02x c));
    repr_loop s p
  end.

Definition sdscatrepr (s : sds) (p : list Z) (len : Z) : outcome sds :=
  s ← sdscatlen s [34] 1;
  p ← rdn p 0 len;
  s ← repr_loop s p;
  sdscatlen s [34] 1.

Definition is_hex_digit (c : Z) : bool :=
  ((48 <=? c) && (c <=? 57)) || ((97 <=? c) && (c <=? 102)) || ((65 <=? c) && (c <=? 70)).

Definition hex_digit_to_int (c : Z) : Z :=
  if (48 <=? c) && (c <=? 57) then c - 48
  else if (97 <=? c) && (c <=? 102) then c - 87
  else if (65 <=? c) && (c <=? 70) then c - 55
  else 0.

(** [while ( *p && isspace( *p)) p++] *)
Fixpoint skip_blanks (fuel : nat) (line : list Z) (p : Z) : outcome Z :=
  match fuel with
  | O => OutOfFuel
  | S fuel =>
    c ← rd line p;
    if negb (c =? 0) && isspace (s8 c) then skip_blanks fuel line (p + 1) else Ret p
  end.

(** A test that reads memory, guarded by another one. *)
Definition cand (b : bool) (m : outcome bool) : outcome bool := if b then m else Ret false.

(** [*p == '\' && *(p+1) == 'x' && is_hex_digit( *(p+2)) && is_hex_digit( *(p+3))] *)
Definition hex_escape (line : list Z) (p : Z) : outcome bool :=
  c ← rd line p;
  cand (c =? 92) (c1 ← rd line (p + 1);
  cand (c1 =? 120) (c2 ← rd line (p + 2);
  cand (is_hex_digit c2) (c3 ← rd line (p + 3); Ret (is_hex_digit c3)))).

(** A closing quote must be followed by a blank or the end. *)
Definition closes (line : list Z) (p : Z) : outcome bool :=
  c1 ← rd line (p + 1);
  Ret ((c1 =? 0) || isspace (s8 c1)).

Definition unescape (c : Z) : Z :=
  if c =? 110 then 10
  else if c =? 114 then 13
  else if c =? 116 then 9
  else if c =? 98 then 8
  else if c =? 97 then 7
  else c.

(** One round inside double quotes: [None] for [goto err], otherwise [p],
    [current] and [done]. *)
Definition inq_step (line : list Z) (p : Z) (current : sds) : outcome (option (Z * sds * bool)) :=
  hex ← hex_escape line p;
  c ← rd line p;
  if hex : bool then
    h ← rd line (p + 2);
    l ← rd line (p + 3);
    current ← sdscatlen current [u8 (hex_digit_to_int h * 16 + hex_digit_to_int l)] 1;
    Ret (Some (p + 3, current, false))
  else
    esc ← cand (c =? 92) (c1 ← rd line (p + 1); Ret (negb (c1 =? 0)));
    if esc : bool then
      c1 ← rd line (p + 1);
      current ← sdscatlen current [unescape c1] 1;
      Ret (Some (p + 1, current, false))
    else if c =? 34 then
      ok ← closes line p;
      Ret (if ok : bool then Some (p, current, true) else None)
    else if c =? 0 then Ret None
    else
      current ← sdscatlen current [c] 1;
      Ret (Some (p, current, false)).

(** One round inside single quotes. *)
Definition insq_step (line : list Z) (p : Z) (current : sds) : outcome (option (Z * sds * bool)) :=
  c ← rd line p;
  esc ← cand (c =? 92) (c1 ← rd line (p + 1); Ret (c1 =? 39));
  if esc : bool then
    current ← sdscatlen current [39] 1;
    Ret (Some (p + 1, current, false))
  else if c =? 39 then
    ok ← closes line p;
    Ret (if ok : bool then Some (p, current, true) else None)
  else if c =? 0 then Ret None
  else
    current ← sdscatlen current [c] 1;
    Ret (Some (p, current, false)).

(** [if ( *p) p++] *)
Definition advance (line : list Z) (p : Z) : outcome Z :=
  c ← rd line p; Ret (if c =? 0 then p else p + 1).

(** [while (!done)] *)
Fixpoint token_loop (fuel : nat) (line : list Z) (p : Z) (inq insq : bool) (current : sds)
    : outcome (option (Z * sds)) :=
  match fuel with
  | O => OutOfFuel
  | S fuel =>
    if inq || insq then
      r ← (if inq then inq_step line p current else insq_step line p current);
      match r with
      | None => Ret None
      | Some (p, current, done) =>
        p ← advance line p;
        if done : bool then Ret (Some (p, current))
        else token_loop fuel line p inq insq current
      end
    else
      c ← rd line p;
      if (c =? 32) || (c =? 10) || (c =? 13) || (c =? 9) || (c =? 0) then
        p ← advance line p; Ret (Some (p, current))
      else
        '(inq, insq, current) ←
          (if c =? 34 then Ret (true, false, current)
           else if c =? 39 then Ret (false, true, current)
           else current ← sdscatlen current [c] 1; Ret (false, false, current));
        p ← advance line p;
        token_loop fuel line p inq insq current
  end.

(** The outer loop; [vector] is the array of the tokens so far. *)
Fixpoint args_loop (fuel : nat) (line : list Z) (p : Z) (vector : list sds)
    : outcome (option (list sds)) :=
  match fuel with
  | O => OutOfFuel
  | S fuel =>
    p ← skip_blanks (S (length line)) line p;
    c ← rd line p;
    if c =? 0 then Ret (Some vector)
    else
      current ← sdsempty;
      r ← token_loop (S (length line)) line p false false current;
      match r with
      | None => Ret None
      | Some (p, current) =>
        _ ← realloc_pointers (s32 (zlen vector + 1));
        args_loop fuel line p (vector ++ [current])
      end
  end.

Definition sdssplitargs (line : list Z) : outcome (option (list sds)) :=
  args_loop (S (length line)) line 0 [].

(** * Templates *)

(** [strchr] as a position. *)
Fixpoint strchr_pos (b : list Z) (c : Z) : outcome (option Z) :=
  match b with
  | [] => Fault
  | x :: b =>
    if x =? c then Ret (Some 0)
    else if x =? 0 then Ret None
    else r ← strchr_pos b c; Ret (option_map Z.succ r)
  end.

(** [template] is what is left of it from [p]; [cb_func] returns the value of
    a variable, or a null pointer. *)
Fixpoint template_loop (fuel : nat) (cb_func : sds → outcome (option sds)) (template : list Z)
    (res : sds) : outcome (option sds) :=
  match fuel with
  | O => OutOfFuel
  | S fuel =>
    c ← rd template 0;
    if c =? 0 then Ret (Some res)
    else
      sv ← strchr_pos template 123;
      match sv with
      | None => res ← sdscat res template; Ret (Some res)
      | Some sv =>
        res ← (if 0 <? sv then sdscatlen res template sv else Ret res);
        let rest := drop (Z.to_nat (sv + 1)) template in
        c ← rd rest 0;
        if c =? 0 then Ret None
        else if c =? 123 then
          res ← sdscat res [123; 0];
          template_loop fuel cb_func (drop 1 rest) res
        else
          ev ← strchr_pos rest 125;
          match ev with
          | None => Ret None
          | Some ev =>
            varname ← sdsnewlen (INIT_BYTES rest) ev;
            value ← cb_func varname;
            match value with
            | None => Ret None
            | Some value =>
              res ← sdscat res (drop (Z.to_nat (off value)) (mem value));
              template_loop fuel cb_func (drop (Z.to_nat (ev + 1)) rest) res
            end
          end
      end
  end.

Definition sdstemplate (template : list Z) (cb_func : sds → outcome (option sds))
    : outcome (option sds) :=
  res ← sdsempty;
  template_loop (S (length template)) cb_func template res.

End operations.

End Sds.
