(* ===== verification/SdsRep.v ===== *)
(** What the bytes of an [sds] mean, and the header accessors, growth and
    in-place operations of [sds.c] against that meaning.

    [rep s bs]: [s] is a well-formed string with contents [bs]. *)
From S2P Require Import Prelude Endianconv Util Sds.
Import Sds.

Module SdsRep.

Section rep.
Context {H : HostOrder}.

(** * Headers *)

Definition hdr (t len alloc : Z) : list Z :=
  if t =? SDS_TYPE_5 then [len * 8]
  else nat_enc (hdr_width t) len ++ nat_enc (hdr_width t) alloc ++ [t].

Definition type_ok (t : Z) : Prop := 0 <= t <= 4.

(** The room the header accounts for; the shortest one has no [alloc]. *)
Definition cap (t len alloc : Z) : Z := if t =? SDS_TYPE_5 then len else alloc.

(** [s] points behind a header of type [t], at the bytes [data]. *)
Definition hdr_at (s : sds) (t len alloc : Z) (data : list Z) : Prop :=
  mem s = hdr t len alloc ++ data ∧ off s = sdsHdrSize t ∧ type_ok t ∧
  0 <= len <= sdsTypeMaxSize t ∧ 0 <= alloc <= sdsTypeMaxSize t.

(** A buffer with the [len] bytes [bs]; there is room for [cap] bytes and one
    more, whatever they are now. *)
Definition buf (s : sds) (t alloc : Z) (bs free : list Z) : Prop :=
  hdr_at s t (zlen bs) alloc (bs ++ free) ∧
  zlen bs <= cap t (zlen bs) alloc < zlen bs + zlen free.

Definition rep (s : sds) (bs : list Z) : Prop :=
  ∃ t alloc free, buf s t alloc bs (0 :: free).

End rep.

(** The five header types. *)
Ltac types t := let Ht := fresh in
  assert (Ht : t = 0 ∨ t = 1 ∨ t = 2 ∨ t = 3 ∨ t = 4) by (unfold type_ok in *; lia);
  destruct Ht as [->|[->|[->|[->| ->]]]].

(** The largest sizes, as numbers. *)
Ltac maxs :=
  change (sdsTypeMaxSize 0) with 31 in *; change (sdsTypeMaxSize 1) with 255 in *;
  change (sdsTypeMaxSize 2) with 65535 in *; change (sdsTypeMaxSize 3) with 4294967295 in *;
  change (sdsTypeMaxSize 4) with 18446744073709551615 in *.

Section header.
Context {H : HostOrder}.

Lemma zlen_hdr t len alloc : type_ok t → zlen (hdr t len alloc) = sdsHdrSize t.
Proof. intros Ht. types t; unfold hdr; simpl; zlr; rewrite ?zlen_nat_enc; done. Qed.

Lemma hdr_long t len alloc :
  t ≠ 0 → hdr t len alloc = nat_enc (hdr_width t) len ++ nat_enc (hdr_width t) alloc ++ [t].
Proof. intros Ht. unfold hdr, SDS_TYPE_5. by rewrite (proj2 (Z.eqb_neq t 0)). Qed.

Lemma hdr_size_pos t : type_ok t → 1 <= sdsHdrSize t <= 17.
Proof. intros Ht. types t; by vm_compute. Qed.

(** Everything before the flags byte, and the flags byte. *)
Definition hdr_init (t len alloc : Z) : list Z :=
  if t =? SDS_TYPE_5 then [] else nat_enc (hdr_width t) len ++ nat_enc (hdr_width t) alloc.
Definition hdr_flags (t len : Z) : Z := if t =? SDS_TYPE_5 then len * 8 else t.

Lemma hdr_split t len alloc : hdr t len alloc = hdr_init t len alloc ++ [hdr_flags t len].
Proof. unfold hdr, hdr_init, hdr_flags. destruct (t =? SDS_TYPE_5); [done|by lapp]. Qed.

Lemma zlen_hdr_init t len alloc : type_ok t → zlen (hdr_init t len alloc) = sdsHdrSize t - 1.
Proof. intros Ht. pose proof (zlen_hdr t len alloc Ht). rewrite hdr_split in H0. zlr. lia. Qed.

Lemma hdr_flags_type t len :
  type_ok t → 0 <= len <= sdsTypeMaxSize t → Z.land (hdr_flags t len) SDS_TYPE_MASK = t.
Proof.
  intros Ht Hl. unfold hdr_flags, SDS_TYPE_MASK. types t; try done.
  change (Z.land (len * 8) (Z.ones 3) = 0). rewrite Z.land_ones by lia. change (2 ^ 3) with 8.
  by rewrite Z.mod_mul.
Qed.

Lemma flags_at s t len alloc data :
  hdr_at s t len alloc data → s_rd s (-1) = Ret (hdr_flags t len).
Proof.
  intros (Hm & Ho & Ht & _). unfold s_rd. rewrite Hm, Ho, hdr_split.
  apply (rd_at _ _ _ (hdr_init t len alloc) data); [by lapp|]. rewrite zlen_hdr_init by done. lia.
Qed.

Lemma type5_len len : 0 <= len → SDS_TYPE_5_LEN (len * 8) = len.
Proof.
  intros. unfold SDS_TYPE_5_LEN, SDS_TYPE_BITS. rewrite Z.shiftr_div_pow2 by lia.
  change (2 ^ 3) with 8. by rewrite Z.div_mul.
Qed.

Lemma max_size_width t :
  type_ok t → t ≠ 0 → sdsTypeMaxSize t = 2 ^ (8 * Z.of_nat (hdr_width t)) - 1.
Proof. intros Ht H0. types t; [congruence|by vm_compute..]. Qed.

Lemma pow8_width t v : type_ok t → t ≠ 0 → 0 <= v <= sdsTypeMaxSize t →
  v mod 2 ^ (8 * Z.of_nat (hdr_width t)) = v.
Proof. intros Ht H0 Hv. apply Z.mod_small. rewrite max_size_width in Hv by done. lia. Qed.

Lemma sh_len_at s t len alloc data :
  hdr_at s t len alloc data → t ≠ 0 → sh_len (hdr_width t) s = Ret len.
Proof.
  intros (Hm & Ho & Ht & Hl & _) H0. unfold sh_len, load. rewrite Hm, Ho.
  rewrite (rdn_at _ _ _ (nat_enc (hdr_width t) len) [] (nat_enc (hdr_width t) alloc ++ [t] ++ data)).
  - run. rewrite nat_dec_enc. by rewrite pow8_width.
  - rewrite hdr_long by done. by lapp.
  - types t; congruence || done.
  - apply zlen_nat_enc.
Qed.

Lemma sh_alloc_at s t len alloc data :
  hdr_at s t len alloc data → t ≠ 0 → sh_alloc (hdr_width t) s = Ret alloc.
Proof.
  intros (Hm & Ho & Ht & _ & Ha) H0. unfold sh_alloc, load. rewrite Hm, Ho.
  rewrite (rdn_at _ _ _ (nat_enc (hdr_width t) alloc) (nat_enc (hdr_width t) len) ([t] ++ data)).
  - run. rewrite nat_dec_enc. by rewrite pow8_width.
  - rewrite hdr_long by done. by lapp.
  - rewrite zlen_nat_enc. types t; congruence || done.
  - apply zlen_nat_enc.
Qed.

(** A value stored in a field is cut to its width. *)
Lemma set_sh_len_at s t len alloc data v :
  hdr_at s t len alloc data → t ≠ 0 →
  set_sh_len (hdr_width t) s v = Ret (Sds (hdr t v alloc ++ data) (off s)).
Proof.
  intros (Hm & Ho & Ht & Hl & _) H0. unfold set_sh_len, store. rewrite Hm, Ho.
  rewrite (wrn_at _ _ _ [] (nat_enc (hdr_width t) len) (nat_enc (hdr_width t) alloc ++ [t] ++ data)).
  - run. do 2 f_equal. rewrite !hdr_long by done. by lapp.
  - rewrite hdr_long by done. by lapp.
  - types t; congruence || done.
  - by rewrite !zlen_nat_enc.
Qed.

Lemma set_sh_alloc_at s t len alloc data v :
  hdr_at s t len alloc data → t ≠ 0 →
  set_sh_alloc (hdr_width t) s v = Ret (Sds (hdr t len v ++ data) (off s)).
Proof.
  intros (Hm & Ho & Ht & Hl & _) H0. unfold set_sh_alloc, store. rewrite Hm, Ho.
  rewrite (wrn_at _ _ _ (nat_enc (hdr_width t) len) (nat_enc (hdr_width t) alloc) ([t] ++ data)).
  - run. do 2 f_equal. rewrite !hdr_long by done. by lapp.
  - rewrite hdr_long by done. by lapp.
  - rewrite zlen_nat_enc. types t; congruence || done.
  - by rewrite !zlen_nat_enc.
Qed.

Lemma set_type5_at s t len alloc data v :
  hdr_at s t len alloc data → t = 0 → 0 <= v <= 31 →
  s_wr s (-1) (Z.lor SDS_TYPE_5 (Z.shiftl v SDS_TYPE_BITS)) = Ret (Sds (hdr t v alloc ++ data) (off s)).
Proof.
  intros (Hm & Ho & Ht & Hl & _) -> Hv. unfold s_wr. rewrite Hm, Ho. simpl off.
  rewrite Z.lor_0_l. unfold SDS_TYPE_BITS. rewrite Z.shiftl_mul_pow2 by lia. change (2 ^ 3) with 8.
  change (hdr 0 len alloc ++ data) with ([] ++ (len * 8) :: data).
  rewrite wr_byte_app; [done|done|unfold is_byte; lia].
Qed.

(** * Accessors *)

Lemma hdr_at_set_len s t len alloc data v :
  hdr_at s t len alloc data → 0 <= v <= sdsTypeMaxSize t →
  hdr_at (Sds (hdr t v alloc ++ data) (off s)) t v alloc data.
Proof. intros (Hm & Ho & Ht & Hl & Ha) Hv. done. Qed.

Lemma sdslen_at s t len alloc data : hdr_at s t len alloc data → sdslen s = Ret len.
Proof.
  intros Hat. pose proof (sh_len_at _ _ _ _ _ Hat) as Hs. unfold sdslen. rewrite (flags_at _ _ _ _ _ Hat). run.
  destruct Hat as (_ & _ & Ht & Hl & _). rewrite hdr_flags_type by done.
  types t; [|by apply Hs..]. simpl. unfold hdr_flags. simpl. by rewrite type5_len by lia.
Qed.

Lemma sdsalloc_at s t len alloc data :
  hdr_at s t len alloc data → sdsalloc s = Ret (cap t len alloc).
Proof.
  intros Hat. pose proof (sh_alloc_at _ _ _ _ _ Hat) as Hs. unfold sdsalloc. rewrite (flags_at _ _ _ _ _ Hat). run.
  destruct Hat as (_ & _ & Ht & Hl & _). rewrite hdr_flags_type by done.
  types t; [|by apply Hs..]. simpl. unfold hdr_flags. simpl. by rewrite type5_len by lia.
Qed.

Lemma sdsavail_at s t len alloc data :
  hdr_at s t len alloc data → len <= cap t len alloc → sdsavail s = Ret (cap t len alloc - len).
Proof.
  intros Hat Hc. pose proof (sh_len_at _ _ _ _ _ Hat) as Hs. pose proof (sh_alloc_at _ _ _ _ _ Hat) as Ha.
  unfold sdsavail. rewrite (flags_at _ _ _ _ _ Hat). run.
  destruct Hat as (_ & _ & Ht & Hl & Hal). rewrite hdr_flags_type by done.
  types t; maxs; cbn in *; [f_equal; lia|..]; rewrite Ha, Hs by done; run; rewrite wrapu_id by (cbn; lia); done.
Qed.

Lemma sdssetlen_at s t len alloc data v :
  hdr_at s t len alloc data → 0 <= v <= sdsTypeMaxSize t →
  ∃ s', sdssetlen s v = Ret s' ∧ hdr_at s' t v alloc data.
Proof.
  intros Hat Hv. exists (Sds (hdr t v alloc ++ data) (off s)). split; [|by eapply hdr_at_set_len].
  pose proof (set_sh_len_at _ _ _ _ _ v Hat) as Hs. pose proof (set_type5_at _ _ _ _ _ v Hat) as H5.
  unfold sdssetlen. rewrite (flags_at _ _ _ _ _ Hat). run.
  destruct Hat as (_ & _ & Ht & Hl & Hal). rewrite hdr_flags_type by done.
  types t; [by apply H5|by apply Hs..].
Qed.

Lemma sdssetalloc_at s t len alloc data v :
  hdr_at s t len alloc data → 0 <= v <= sdsTypeMaxSize t →
  ∃ s', sdssetalloc s v = Ret s' ∧ hdr_at s' t len v data.
Proof.
  intros Hat Hv. exists (Sds (hdr t len v ++ data) (off s)).
  pose proof (set_sh_alloc_at _ _ _ _ _ v Hat) as Hs.
  unfold sdssetalloc. rewrite (flags_at _ _ _ _ _ Hat). run.
  destruct Hat as (Hm & Ho & Ht & Hl & Hal). rewrite hdr_flags_type by done.
  split; [|done]. types t; [|by apply Hs..]. simpl. destruct s. simpl in *. by subst.
Qed.

Lemma sdsinclen_at s t len alloc data inc :
  hdr_at s t len alloc data → 0 <= inc → len + inc <= sdsTypeMaxSize t →
  ∃ s', sdsinclen s inc = Ret s' ∧ hdr_at s' t (len + inc) alloc data.
Proof.
  intros Hat Hi Hv. exists (Sds (hdr t (len + inc) alloc ++ data) (off s)).
  assert (0 <= len + inc <= sdsTypeMaxSize t) by (destruct Hat as (_ & _ & _ & Hl & _); lia).
  split; [|by eapply hdr_at_set_len].
  pose proof (set_sh_len_at _ _ _ _ _ (len + inc) Hat) as Hs. pose proof (sh_len_at _ _ _ _ _ Hat) as Hr.
  pose proof (set_type5_at _ _ _ _ _ (len + inc) Hat) as H5.
  unfold sdsinclen. rewrite (flags_at _ _ _ _ _ Hat). run.
  destruct Hat as (_ & _ & Ht & Hl & Hal). rewrite hdr_flags_type by done.
  types t; [|cbn in Hr |- *; rewrite Hr by done; by apply Hs..].
  maxs. unfold hdr_flags. simpl. rewrite type5_len, wrapu_id by (cbn in *; lia). by apply H5.
Qed.

(** * The bytes behind the header *)

Lemma s_wrn_at s t len alloc d1 m d2 i m' :
  hdr_at s t len alloc (d1 ++ m ++ d2) → zlen d1 = i → zlen m = zlen m' →
  ∃ s', s_wrn s i m' = Ret s' ∧ hdr_at s' t len alloc (d1 ++ m' ++ d2).
Proof.
  intros (Hm & Ho & Ht & Hl & Ha) Hd Hmm. exists (Sds (hdr t len alloc ++ d1 ++ m' ++ d2) (off s)).
  split; [|done]. unfold s_wrn. rewrite Hm, Ho.
  rewrite (wrn_at _ _ _ (hdr t len alloc ++ d1) m d2); [run; by lapp|by lapp| |done].
  zlr. rewrite zlen_hdr by done. lia.
Qed.

Lemma s_wr_at s t len alloc d1 x d2 i v :
  hdr_at s t len alloc (d1 ++ x :: d2) → zlen d1 = i → is_byte v →
  ∃ s', s_wr s i v = Ret s' ∧ hdr_at s' t len alloc (d1 ++ v :: d2).
Proof.
  intros Hat Hd Hv. destruct (s_wrn_at _ _ _ _ d1 [x] d2 i [v] Hat Hd) as (s' & E & Hat'); [done|].
  exists s'. split; [|done]. unfold s_wr, wr. by rewrite wrapu_id by (unfold is_byte in Hv; lia).
Qed.

Lemma s_rdn_at s t len alloc d1 m d2 i n :
  hdr_at s t len alloc (d1 ++ m ++ d2) → zlen d1 = i → zlen m = n → s_rdn s i n = Ret m.
Proof.
  intros (Hm & Ho & Ht & Hl & Ha) Hd Hn. unfold s_rdn. rewrite Hm, Ho.
  apply (rdn_at _ _ _ _ (hdr t len alloc ++ d1) d2); [by lapp| |done].
  zlr. rewrite zlen_hdr by done. lia.
Qed.

Lemma s_rd_at s t len alloc d1 x d2 i :
  hdr_at s t len alloc (d1 ++ x :: d2) → zlen d1 = i → s_rd s i = Ret x.
Proof.
  intros (Hm & Ho & Ht & Hl & Ha) Hd. unfold s_rd. rewrite Hm, Ho.
  apply (rd_at _ _ _ (hdr t len alloc ++ d1) d2); [by lapp|].
  zlr. rewrite zlen_hdr by done. lia.
Qed.

Lemma s_memmove_at s t len alloc d1 m d2 d3 m' d4 dst src n :
  hdr_at s t len alloc (d1 ++ m ++ d2) → zlen d1 = src → zlen m = n →
  d1 ++ m ++ d2 = d3 ++ m' ++ d4 → zlen d3 = dst → zlen m' = n →
  ∃ s', s_memmove s dst src n = Ret s' ∧ hdr_at s' t len alloc (d3 ++ m ++ d4).
Proof.
  intros Hat Hd Hn E Hd3 Hm'. pose proof (s_rdn_at _ _ _ _ _ _ _ _ _ Hat Hd Hn) as Hr.
  unfold s_memmove, memmove. unfold s_rdn in Hr. rewrite Hr. run. rewrite E in Hat.
  apply (s_wrn_at _ _ _ _ _ _ _ dst m) in Hat; [done|done|lia].
Qed.

(** * Fresh blocks *)

Lemma nat_enc_dec bs : bytes_ok bs → nat_enc (length bs) (nat_dec bs) = bs.
Proof.
  intros Hb. unfold nat_enc, nat_dec. destruct big_endian; [|by apply le_enc_dec].
  unfold be_enc, be_dec. rewrite <- (length_reverse bs) at 1.
  rewrite le_enc_dec by (by apply Forall_reverse). by rewrite reverse_involutive.
Qed.

Lemma nat_dec_range bs : bytes_ok bs → 0 <= nat_dec bs < 2 ^ (8 * zlen bs).
Proof.
  intros Hb. unfold nat_dec. destruct big_endian; [|by apply le_dec_range].
  unfold be_dec. replace (zlen bs) with (zlen (reverse bs)) by zl.
  apply le_dec_range. by apply Forall_reverse.
Qed.

(** Whatever the bytes of a header are, they are some header. *)
Lemma junk_hdr t j :
  type_ok t → bytes_ok j → zlen j = sdsHdrSize t - 1 →
  ∃ l a, j ++ [t] = hdr t l a ∧ 0 <= l <= sdsTypeMaxSize t ∧ 0 <= a <= sdsTypeMaxSize t.
Proof.
  intros Ht Hb Hj. destruct (decide (t = 0)) as [->|H0].
  { exists 0, 0. by rewrite (zlen_zero j) by done. }
  set (w := hdr_width t).
  assert (Hw : zlen j = Z.of_nat w + Z.of_nat w) by (rewrite Hj; unfold w; types t; done).
  destruct (zsplit (Z.of_nat w) j) as (j1 & j2 & -> & H1 & H2); [lia|].
  apply Forall_app in Hb as [Hb1 Hb2]. exists (nat_dec j1), (nat_dec j2).
  pose proof (nat_dec_range j1 Hb1) as R1. pose proof (nat_dec_range j2 Hb2) as R2.
  rewrite hdr_long by done. rewrite max_size_width by done.
  replace (zlen j2) with (Z.of_nat w) in R2 by lia. rewrite H1 in R1. fold w.
  split_and!; try lia. replace w with (length j1) at 1 by zl. replace w with (length j2) by zl.
  rewrite !nat_enc_dec by done. by lapp.
Qed.

(** Writing the type byte of a fresh block makes it a header. *)
Lemma fresh_hdr t b data :
  type_ok t → bytes_ok b → zlen b = sdsHdrSize t →
  ∃ s l a, s_wr (Sds (b ++ data) (sdsHdrSize t)) (-1) t = Ret s ∧ hdr_at s t l a data.
Proof.
  intros Ht Hb Hl. pose proof (hdr_size_pos t Ht).
  destruct (zsplit (sdsHdrSize t - 1) b) as (j & x & -> & Hj & Hx); [lia|]. zlr.
  destruct (zlen_one x) as [y ->]; [lia|].
  apply Forall_app in Hb as [Hb _].
  destruct (junk_hdr t j Ht Hb Hj) as (l & a & E & Hrl & Hra).
  exists (Sds (hdr t l a ++ data) (sdsHdrSize t)), l, a. split; [|done].
  unfold s_wr. simpl. rewrite (wr_at _ _ _ j y data); [run; by rewrite <- E; lapp|by lapp|lia|].
  unfold is_byte, type_ok in *. lia.
Qed.

End header.

(** * Growth *)

Section growth.
Context {H : HostOrder} {A : Allocator} {L : AllocatorLaws A}.

Lemma req_type_fits n :
  0 <= n < 2 ^ 64 → type_ok (sdsReqType n) ∧ n <= sdsTypeMaxSize (sdsReqType n).
Proof.
  intros Hn. unfold sdsReqType, type_ok.
  change (Z.shiftl 1 5) with 32; change (Z.shiftl 1 8) with 256;
  change (Z.shiftl 1 16) with 65536; change (Z.shiftl 1 32) with 4294967296.
  unfold SDS_TYPE_5, SDS_TYPE_8, SDS_TYPE_16, SDS_TYPE_32, SDS_TYPE_64.
  repeat case_cond; maxs; lia.
Qed.

(** The type used for strings that will grow. *)
Definition grow_type (n : Z) : Z :=
  if sdsReqType n =? SDS_TYPE_5 then SDS_TYPE_8 else sdsReqType n.

Lemma grow_type_fits n :
  0 <= n < 2 ^ 64 → type_ok (grow_type n) ∧ grow_type n ≠ 0 ∧ n <= sdsTypeMaxSize (grow_type n).
Proof.
  intros Hn. destruct (req_type_fits n Hn) as [Ht Hm]. unfold grow_type.
  destruct (sdsReqType n =? SDS_TYPE_5) eqn:E; unfold SDS_TYPE_5, SDS_TYPE_8 in *.
  - apply Z.eqb_eq in E. rewrite E in Hm. maxs. unfold type_ok. lia.
  - split_and!; [done|lia|done].
Qed.

(** What is stored as [alloc]. *)
Definition clamp (t usable : Z) : Z := if sdsTypeMaxSize t <? usable then sdsTypeMaxSize t else usable.

Lemma clamp_spec t n usable :
  n <= sdsTypeMaxSize t → n <= usable → n <= clamp t usable <= sdsTypeMaxSize t ∧ clamp t usable <= usable.
Proof. intros. unfold clamp. case_cond; lia. Qed.

Lemma cap_long t len alloc : t ≠ 0 → cap t len alloc = alloc.
Proof. intros. unfold cap, SDS_TYPE_5. by rewrite (proj2 (Z.eqb_neq t 0)). Qed.

(** A block of at least [n] bytes, cut for a header of type [t]. *)
Lemma s_malloc_split t n k :
  type_ok t → 0 <= k → sdsHdrSize t + k <= n →
  ∃ b m r, s_malloc n = b ++ m ++ r ∧ bytes_ok b ∧ zlen b = sdsHdrSize t ∧ zlen m = k ∧
    zlen r = usable_size n - sdsHdrSize t - k.
Proof.
  intros Ht Hk Hn. pose proof (hdr_size_pos t Ht). pose proof (usable_size_ge n ltac:(lia)).
  assert (Hl : zlen (zmalloc (usable_size n)) = usable_size n) by (apply zlen_zmalloc; lia). unfold s_malloc.
  pose proof (junk_bytes (usable_size n)) as Hb. unfold zmalloc in *.
  destruct (zsplit (sdsHdrSize t) (junk (usable_size n))) as (b & l & E & Hlb & Hll); [lia|].
  destruct (zsplit k l) as (m & r & -> & Hm & Hr); [lia|].
  assert (zlen r = usable_size n - sdsHdrSize t - k) by lia.
  exists b, m, r. rewrite E in Hb |- *. apply Forall_app in Hb as [Hb _]. done.
Qed.

(** Moving the string to a block with another header. *)
Lemma move_block t b m r bs n :
  type_ok t → bytes_ok b → zlen b = sdsHdrSize t → zlen m = zlen bs → 0 <= n <= sdsTypeMaxSize t →
  ∃ s a, (newsh ← wrn (b ++ m ++ r) (sdsHdrSize t) bs; s ← s_wr (Sds newsh (sdsHdrSize t)) (-1) t; sdssetlen s n) = Ret s ∧
    hdr_at s t n a (bs ++ r).
Proof.
  intros Ht Hb Hlb Hm Hn. rewrite (wrn_app b m r _ bs) by done. run.
  destruct (fresh_hdr t b (bs ++ r) Ht Hb Hlb) as (s & l & a & -> & Hat). run.
  destruct (sdssetlen_at _ _ _ _ _ n Hat Hn) as (s' & -> & Hat'). eauto.
Qed.

(** The string in a larger block: reallocated when the header type stays, moved
    when it changes. *)
Lemma grow_block s t alloc bs x free type size :
  hdr_at s t (zlen bs) alloc (bs ++ x :: free) → type_ok type → type ≠ 0 →
  zlen bs <= sdsTypeMaxSize type → sdsHdrSize type + zlen bs + 1 <= size →
  ∃ s1 a1 r, (if t =? type then Ret (Sds (s_realloc (mem s) size) (sdsHdrSize type))
     else bs0 ← s_rdn s 0 (zlen bs + 1); newsh ← wrn (s_malloc size) (sdsHdrSize type) bs0;
          s ← s_wr (Sds newsh (sdsHdrSize type)) (-1) type; sdssetlen s (zlen bs)) = Ret s1 ∧
     hdr_at s1 type (zlen bs) a1 (bs ++ x :: r) ∧ zlen r = usable_size size - sdsHdrSize type - zlen bs - 1.
Proof.
  intros Hat Ht H0 Hmax Hsize. pose proof (hdr_size_pos type Ht). pose proof (zlen_nonneg bs).
  pose proof (usable_size_ge size ltac:(lia)) as Hge. destruct (t =? type) eqn:E.
  - apply Z.eqb_eq in E as ->. destruct Hat as (Hm & Ho & _ & Hl & Ha). unfold s_realloc. rewrite Hm.
    destruct (zrealloc_prefix (hdr type (zlen bs) alloc ++ bs ++ [x]) free (usable_size size)) as (r & E & Hr).
    { zlr. rewrite zlen_hdr by done. lia. }
    exists (Sds (hdr type (zlen bs) alloc ++ bs ++ x :: r) (sdsHdrSize type)), alloc, r.
    split_and!; [|done|zlr; rewrite zlen_hdr in Hr by done; lia].
    replace (hdr type (zlen bs) alloc ++ bs ++ x :: free) with ((hdr type (zlen bs) alloc ++ bs ++ [x]) ++ free) by (by lapp).
    rewrite E. by lapp.
  - rewrite (s_rdn_at s t (zlen bs) alloc [] (bs ++ [x]) free 0); [|by lapp|done|zlr; lia]. run.
    destruct (s_malloc_split type size (zlen bs + 1)) as (b & m & r & -> & Hb & Hlb & Hm & Hr); [done|lia..|].
    destruct (move_block type b m r (bs ++ [x]) (zlen bs)) as (s1 & a1 & E1 & Hat1); [done..|zlr; lia|lia|].
    exists s1, a1, r. split_and!; [done|revert Hat1; by lapp|lia].
Qed.

Lemma sdsMakeRoomFor_spec s t alloc bs x free addlen :
  buf s t alloc bs (x :: free) → 0 <= addlen → zlen bs + addlen < 2 ^ 62 →
  ∃ s' t' alloc' free', sdsMakeRoomFor s addlen = Ret s' ∧
    buf s' t' alloc' bs (x :: free') ∧ zlen bs + addlen <= cap t' (zlen bs) alloc'.
Proof.
  intros [Hat Hcap] Ha Hlt. pose proof (zlen_nonneg bs) as Hn. unfold sdsMakeRoomFor.
  rewrite (sdsavail_at _ _ _ _ _ Hat), (flags_at _ _ _ _ _ Hat) by lia. run.
  destruct (addlen <=? _) eqn:E; [exists s, t, alloc, free; split_and!; [done|done|lia..]|].
  rewrite (sdslen_at _ _ _ _ _ Hat), hdr_flags_type by (by destruct Hat as (_ & _ & Ht & Hl & _)). run.
  rewrite (wrapu_id 64 (zlen bs + addlen)) by lia. rewrite (c_assert_true (zlen bs <? _)) by lia. run.
  set (newlen := if _ <? SDS_MAX_PREALLOC then _ else _).
  assert (Hnew : zlen bs + addlen <= newlen < 2 ^ 62 + 2 ^ 21).
  { unfold newlen, SDS_MAX_PREALLOC. case_cond; rewrite wrapu_id; lia. }
  change (if sdsReqType newlen =? SDS_TYPE_5 then SDS_TYPE_8 else sdsReqType newlen) with (grow_type newlen).
  destruct (grow_type_fits newlen) as (Ht & H0 & Hfit); [lia|]. set (type := grow_type newlen) in *.
  pose proof (hdr_size_pos type Ht) as Hh. set (size := sdsHdrSize type + newlen + 1) in *.
  rewrite (wrapu_id 64 size) by lia. rewrite c_assert_true by lia. run.
  pose proof (usable_size_ge size ltac:(lia)) as Hge. pose proof (usable_size_fits size ltac:(lia)) as Hle.
  rewrite (wrapu_id 64 (usable_size size - _ - 1)) by lia.
  change (if sdsTypeMaxSize type <? ?u then _ else ?u) with (clamp type (usable_size size - sdsHdrSize type - 1)).
  destruct (clamp_spec type newlen (usable_size size - sdsHdrSize type - 1)) as [Hc Hc']; [lia..|].
  destruct (grow_block s t alloc bs x free type size Hat Ht H0) as (s1 & a1 & r & -> & Hat1 & Hr); [lia..|]. run.
  destruct (sdssetalloc_at _ _ _ _ _ (clamp type (usable_size size - sdsHdrSize type - 1)) Hat1) as (s2 & -> & Hat2); [lia|].
  exists s2, type, (clamp type (usable_size size - sdsHdrSize type - 1)), r. unfold buf.
  rewrite !cap_long by done. split_and!; [done..|lia|zlr; lia|lia].
Qed.

(** * Creation *)

Lemma init_hdr t b data n a :
  type_ok t → zlen b = sdsHdrSize t → 0 <= n <= sdsTypeMaxSize t → 0 <= a <= sdsTypeMaxSize t →
  ∃ s, (if t =? SDS_TYPE_5 then s_wr (Sds (b ++ data) (sdsHdrSize t)) (-1) (Z.lor t (Z.shiftl n SDS_TYPE_BITS))
        else s ← set_sh_len (hdr_width t) (Sds (b ++ data) (sdsHdrSize t)) n;
             s ← set_sh_alloc (hdr_width t) s a; s_wr s (-1) t) = Ret s ∧ hdr_at s t n a data.
Proof.
  intros Ht Hb Hn Ha. exists (Sds (hdr t n a ++ data) (sdsHdrSize t)). split; [|done].
  destruct (t =? SDS_TYPE_5) eqn:E.
  - apply Z.eqb_eq in E as ->. destruct (zlen_one b) as [y ->]; [done|]. maxs.
    change SDS_TYPE_5 with 0 in *. unfold s_wr. cbn [mem off]. rewrite Z.lor_0_l.
    unfold SDS_TYPE_BITS. rewrite Z.shiftl_mul_pow2 by lia. change (2 ^ 3) with 8. maxs.
    rewrite (wr_at _ _ _ [] y data); [done|done|done|unfold is_byte; lia].
  - assert (H0 : t ≠ 0) by (by intros ->). set (w := hdr_width t).
    assert (Hw : sdsHdrSize t = 2 * Z.of_nat w + 1) by (unfold w; types t; done).
    destruct (zsplit (Z.of_nat w) b) as (j1 & j2 & -> & H1 & H2); [lia|].
    destruct (zsplit (Z.of_nat w) j2) as (j3 & j4 & -> & H3 & H4); [lia|].
    destruct (zlen_one j4) as [y ->]; [lia|].
    unfold set_sh_len, set_sh_alloc, s_wr, store. cbn [mem off].
    rewrite (wrn_at _ _ _ [] j1 (j3 ++ [y] ++ data)); [|by lapp|rewrite Hw; zlr; lia|by rewrite zlen_nat_enc]. run. cbn [mem off].
    rewrite (wrn_at _ _ _ (nat_enc w n) j3 ([y] ++ data)); [|by lapp|rewrite Hw; zlr; rewrite zlen_nat_enc; lia|by rewrite zlen_nat_enc]. run. cbn [mem off].
    rewrite (wr_at _ _ _ (nat_enc w n ++ nat_enc w a) y data).
    + rewrite hdr_long by done. fold w. by lapp.
    + by lapp.
    + rewrite Hw. zlr. rewrite !zlen_nat_enc. lia.
    + unfold is_byte, type_ok in *. lia.
Qed.

(** The type of a new string. *)
Definition new_type (n : Z) : Z :=
  if (sdsReqType n =? SDS_TYPE_5) && (n =? 0) then SDS_TYPE_8 else sdsReqType n.

Lemma new_type_fits n :
  0 <= n < 2 ^ 64 → type_ok (new_type n) ∧ n <= sdsTypeMaxSize (new_type n).
Proof.
  intros Hn. destruct (req_type_fits n Hn) as [Ht Hm]. unfold new_type.
  destruct ((sdsReqType n =? SDS_TYPE_5) && (n =? 0)) eqn:E; [|done].
  change SDS_TYPE_8 with 1. maxs. unfold type_ok. lia.
Qed.

(** What a new string holds. *)
Definition init_ok (init : sds_init) (n : Z) (bs : list Z) : Prop :=
  match init with
  | SDS_NOINIT => zlen bs = n
  | INIT_NULL => bs = replicate (Z.to_nat n) 0
  | INIT_BYTES c => bs = take (Z.to_nat n) c
  end.

Definition init_fits (init : sds_init) (n : Z) : Prop :=
  match init with INIT_BYTES c => n <= zlen c | _ => True end.

(** The contents and the terminator. *)
Lemma init_data init s t n a m x r :
  hdr_at s t n a (m ++ x :: r) → zlen m = n → init_fits init n →
  (init = INIT_NULL → m = replicate (Z.to_nat n) 0) →
  ∃ s' bs, (s ← match init with
        | INIT_BYTES bs => if n =? 0 then Ret s else bs ← rdn bs 0 n; s_wrn s 0 bs
        | _ => Ret s end; s ← s_wr s n 0; Ret (Some s)) = Ret (Some s') ∧
    init_ok init n bs ∧ zlen bs = n ∧ hdr_at s' t n a (bs ++ 0 :: r).
Proof.
  intros Hat Hm Hf Hz. pose proof (zlen_nonneg m).
  assert (Hput : ∀ s1 m1, hdr_at s1 t n a (m1 ++ x :: r) → zlen m1 = n →
    ∃ s', (s ← s_wr s1 n 0; Ret (Some s)) = Ret (Some s') ∧ hdr_at s' t n a (m1 ++ 0 :: r)).
  { intros s1 m1 Hat1 Hm1. destruct (s_wr_at _ _ _ _ _ _ _ _ 0 Hat1 Hm1) as (s' & -> & ?); [by unfold is_byte|]. eauto. }
  destruct init as [| |c]; run.
  - destruct (Hput s m Hat Hm) as (s' & -> & ?). exists s', m. done.
  - destruct (Hput s m Hat Hm) as (s' & -> & ?). exists s', m. split_and!; auto. by apply Hz.
  - simpl in Hf. destruct (n =? 0) eqn:E; run.
    + destruct (Hput s m Hat Hm) as (s' & -> & ?). exists s', m. split_and!; auto.
      simpl. apply Z.eqb_eq in E. rewrite E. rewrite (zlen_zero m) by lia. done.
    + destruct (zsplit n c) as (c1 & c2 & -> & H1 & H2); [lia|].
      rewrite (rdn_at _ _ _ c1 [] c2) by done. run.
      destruct (s_wrn_at s t n a [] m (x :: r) 0 c1 Hat) as (s1 & -> & Hat1); [done|lia|]. run.
      destruct (Hput s1 c1 Hat1 H1) as (s' & -> & ?). exists s', c1. split_and!; auto.
      simpl. by rewrite take_app_length' by zl.
Qed.

(** [memset] clears the header and the contents of a null initialiser. *)
Lemma init_clear init b m r n h k :
  k = h + n + 1 → zlen b = h → zlen m = n + 1 → 0 <= n → 0 <= h →
  ∃ b' m' x, match init with
    | INIT_NULL => wrn (b ++ m ++ r) 0 (replicate (Z.to_nat k) 0)
    | _ => Ret (b ++ m ++ r) end = Ret (b' ++ m' ++ x :: r) ∧
    zlen b' = h ∧ zlen m' = n ∧ (init = INIT_NULL → m' = replicate (Z.to_nat n) 0).
Proof.
  intros -> Hb Hm Hn Hh.
  destruct (zsplit n m) as (m1 & m2 & -> & H1 & H2); [lia|]. destruct (zlen_one m2) as [x ->]; [lia|].
  assert (Hz : wrn (b ++ (m1 ++ [x]) ++ r) 0 (replicate (Z.to_nat (h + n + 1)) 0) =
    Ret (replicate (Z.to_nat h) 0 ++ replicate (Z.to_nat n) 0 ++ 0 :: r)).
  { rewrite (wrn_at _ _ _ [] (b ++ m1 ++ [x]) r); [|by lapp|done|].
    - replace (Z.to_nat (h + n + 1)) with (Z.to_nat h + (Z.to_nat n + 1))%nat by lia.
      rewrite !replicate_add. by lapp.
    - zlr. lia. }
  destruct init; [exists b, m1, x| |exists b, m1, x]; try (split_and!; [by lapp|done..]).
  exists (replicate (Z.to_nat h) 0), (replicate (Z.to_nat n) 0), 0.
  split_and!; [done|..|done]; zlr; lia.
Qed.

Lemma sdsnewlen_raw init n trymalloc :
  0 <= n < 2 ^ 62 → init_fits init n →
  (trymalloc = true ∧ _sdsnewlen init n trymalloc = Ret None) ∨
  ∃ s bs, _sdsnewlen init n trymalloc = Ret (Some s) ∧ init_ok init n bs ∧ rep s bs.
Proof.
  intros Hn Hf. unfold _sdsnewlen. fold (new_type n).
  destruct (new_type_fits n) as [Ht Hm]; [lia|]. set (type := new_type n) in *.
  pose proof (hdr_size_pos type Ht) as Hh. rewrite (wrapu_id 64 (n + _ + 1)) by lia.
  rewrite (c_assert_true (n <? _)) by lia. run. rewrite (wrapu_id 64 (sdsHdrSize type + n + 1)) by lia.
  set (size := sdsHdrSize type + n + 1).
  destruct (trymalloc && negb (try_ok size)) eqn:Etry; [left; by destruct trymalloc|right].
  pose proof (usable_size_ge size ltac:(lia)) as Hge. pose proof (usable_size_fits size ltac:(lia)) as Hle.
  rewrite (wrapu_id 64 (usable_size size - _ - 1)) by lia.
  destruct (clamp_spec type n (usable_size size - sdsHdrSize type - 1)) as [Hc Hc']; [lia..|].
  destruct (s_malloc_split type size (n + 1)) as (b & m & r & -> & Hb & Hlb & Hlm & Hr); [done|lia..|].
  destruct (init_clear init b m r n (sdsHdrSize type) size) as (b' & m' & x & -> & Hlb' & Hlm' & Hz); [lia..|]. run.
  destruct (init_hdr type b' (m' ++ x :: r) n (clamp type (usable_size size - sdsHdrSize type - 1)))
    as (s & E & Hat); [done|lia..|]. unfold clamp in E. rewrite E. clear E. run.
  destruct (init_data init s type n _ m' x r Hat Hlm' Hf Hz) as (s' & bs & -> & Hi & Hlbs & Hat').
  exists s', bs. split_and!; [done..|]. exists type, (clamp type (usable_size size - sdsHdrSize type - 1)), r.
  rewrite <- Hlbs in Hat' at 1. split; [done|]. zlr. unfold cap. case_cond; lia.
Qed.

End growth.
End SdsRep.
