(* ===== verification/SdsOps.v ===== *)
(** The operations of [sds.c] that create, extend, copy, cut and compare
    strings, against the contents they stand for. *)
From S2P Require Import Prelude Endianconv Util Sds SdsRep.
Import Sds SdsRep.

Module SdsOps.

Section ops.
Context {H : HostOrder} {A : Allocator} {L : AllocatorLaws A}.

(** * Closing a string *)

Lemma sds_rep_intro s t alloc d free :
  hdr_at s t (zlen d) alloc (d ++ 0 :: free) →
  (t ≠ 0 → zlen d <= alloc <= zlen d + zlen free) → rep s d.
Proof.
  intros Hat Hr. exists t, alloc, free. split; [done|]. unfold cap, SDS_TYPE_5.
  pose proof (zlen_nonneg free). destruct (Z.eqb_spec t 0); zlr; lia.
Qed.

Lemma buf_intro s t alloc d x free :
  hdr_at s t (zlen d) alloc (d ++ x :: free) →
  (t ≠ 0 → zlen d <= alloc <= zlen d + zlen free) → buf s t alloc d (x :: free).
Proof.
  intros Hat Hr. split; [done|]. unfold cap, SDS_TYPE_5.
  pose proof (zlen_nonneg free). destruct (Z.eqb_spec t 0); zlr; lia.
Qed.

Lemma buf_elim s t alloc d x free :
  buf s t alloc d (x :: free) →
  hdr_at s t (zlen d) alloc (d ++ x :: free) ∧ (t ≠ 0 → zlen d <= alloc <= zlen d + zlen free).
Proof.
  intros [Hat Hc]. split; [done|]. intros H0. rewrite cap_long in Hc by done. zlr. lia.
Qed.

(** The room left: the bytes after the contents, cut at the end of [n] more. *)
Lemma buf_room s t alloc bs x free n :
  buf s t alloc bs (x :: free) → 0 <= n → zlen bs + n <= cap t (zlen bs) alloc →
  ∃ m y r, x :: free = m ++ y :: r ∧ zlen m = n ∧ zlen bs + n <= sdsTypeMaxSize t.
Proof.
  intros [Hat Hc] Hn Hr. destruct (zsplit n (x :: free)) as (m & r & E & Hm & Hl); [zlr; lia|].
  destruct (zlen_pos r) as (y & r' & ->); [lia|]. exists m, y, r'. split_and!; [done..|].
  destruct Hat as (_ & _ & _ & Hlen & Ha). unfold cap in *. destruct (t =? SDS_TYPE_5); lia.
Qed.

(** The two ways the code ends: length first or terminator first. *)
Lemma set_len_end s t len alloc d y free n :
  hdr_at s t len alloc (d ++ y :: free) → zlen d = n → n <= sdsTypeMaxSize t →
  (t ≠ 0 → n <= alloc <= n + zlen free) →
  ∃ s', (s ← sdssetlen s n; s_wr s n 0) = Ret s' ∧ rep s' d.
Proof.
  intros Hat Hd Hn Hr. pose proof (zlen_nonneg d).
  destruct (sdssetlen_at _ _ _ _ _ n Hat) as (s1 & -> & Hat1); [lia|]. run.
  destruct (s_wr_at _ _ _ _ _ _ _ n 0 Hat1) as (s2 & -> & Hat2); [done|by unfold is_byte|].
  exists s2. split; [done|]. subst n. by eapply sds_rep_intro.
Qed.

Lemma end_set_len s t len alloc d y free n :
  hdr_at s t len alloc (d ++ y :: free) → zlen d = n → n <= sdsTypeMaxSize t →
  (t ≠ 0 → n <= alloc <= n + zlen free) →
  ∃ s', (s ← s_wr s n 0; sdssetlen s n) = Ret s' ∧ rep s' d.
Proof.
  intros Hat Hd Hn Hr. pose proof (zlen_nonneg d).
  destruct (s_wr_at _ _ _ _ _ _ _ n 0 Hat) as (s2 & -> & Hat2); [done|by unfold is_byte|]. run.
  destruct (sdssetlen_at _ _ _ _ _ n Hat2) as (s1 & -> & Hat1); [lia|].
  exists s1. split; [done|]. subst n. by eapply sds_rep_intro.
Qed.

(** * Creation *)

Lemma sdsnewlen_spec init n :
  0 <= n < 2 ^ 62 → init_fits init n →
  ∃ s bs, sdsnewlen init n = Ret s ∧ init_ok init n bs ∧ rep s bs.
Proof.
  intros Hn Hf. unfold sdsnewlen.
  destruct (sdsnewlen_raw init n false Hn Hf) as [[? _]|(s & bs & -> & Hi & Hr)]; [done|]. run. eauto.
Qed.

Lemma sdsnew_bytes bs rest n :
  zlen bs = n → n < 2 ^ 62 → ∃ s, sdsnewlen (INIT_BYTES (bs ++ rest)) n = Ret s ∧ rep s bs.
Proof.
  intros Hn Hlt. pose proof (zlen_nonneg bs). destruct (sdsnewlen_spec (INIT_BYTES (bs ++ rest)) n)
    as (s & bs' & E & Hi & Hr); [lia|simpl; zlr; pose proof (zlen_nonneg rest); lia|].
  exists s. split; [done|]. simpl in Hi. by rewrite take_app_length' in Hi by zl; subst.
Qed.

Lemma sdsempty_spec : ∃ s, sdsempty = Ret s ∧ rep s [].
Proof. by apply (sdsnew_bytes [] [0]). Qed.

Lemma rep_len s bs : rep s bs → sdslen s = Ret (zlen bs).
Proof. intros (t & alloc & free & Hat & _). by apply sdslen_at in Hat. Qed.

Lemma rep_read s bs : rep s bs → s_rdn s 0 (zlen bs) = Ret bs.
Proof. intros (t & alloc & free & Hat & _). by apply (s_rdn_at _ _ _ _ [] _ _ _ _ Hat). Qed.

(** * Appending and overwriting *)

Lemma sdscatlen_spec s bs t rest n :
  rep s bs → zlen t = n → zlen bs + n < 2 ^ 62 →
  ∃ s', sdscatlen s (t ++ rest) n = Ret s' ∧ rep s' (bs ++ t).
Proof.
  intros Hrep Ht Hlt. pose proof (zlen_nonneg bs). pose proof (zlen_nonneg t). unfold sdscatlen.
  rewrite (rep_len _ _ Hrep). run. destruct Hrep as (t0 & alloc & free & Hb).
  destruct (sdsMakeRoomFor_spec _ _ _ _ _ _ n Hb) as (s1 & t1 & a1 & f1 & -> & Hb1 & Hc); [lia..|]. run.
  destruct (buf_room _ _ _ _ _ _ n Hb1) as (m & y & r & E & Hm & Hmax); [lia..|].
  apply buf_elim in Hb1 as [Hat Hr]. rewrite E in Hat. assert (Hlen : zlen (0 :: f1) = n + 1 + zlen r) by (rewrite E; zlr; lia).
  rewrite (rdn_app0 t rest) by done. run. rewrite wrapu_id by lia.
  destruct (s_wrn_at _ _ _ _ bs m (y :: r) (zlen bs) t Hat) as (s2 & -> & Hat2); [lia..|]. run.
  rewrite app_assoc in Hat2. apply (set_len_end _ _ _ _ _ _ _ (zlen bs + n) Hat2).
  - zlr. lia.
  - lia.
  - intros H2. zlr. rewrite cap_long in Hc by done. specialize (Hr H2). lia.
Qed.

(** The room from the start of the buffer. *)
Lemma buf_cut s t alloc bs x free n :
  buf s t alloc bs (x :: free) → 0 <= n <= cap t (zlen bs) alloc →
  ∃ m y r, bs ++ x :: free = m ++ y :: r ∧ zlen m = n ∧ n <= sdsTypeMaxSize t ∧
    (t ≠ 0 → n <= alloc <= n + zlen r).
Proof.
  intros [Hat Hc] Hn. destruct (zsplit n (bs ++ x :: free)) as (m & r & E & Hm & Hl); [zlr; lia|].
  assert (Hlen : zlen (bs ++ x :: free) = zlen m + zlen r) by (rewrite E; zlr; lia). zlr.
  destruct (zlen_pos r) as (y & r' & ->); [lia|]. exists m, y, r'. split_and!; [done..| |].
  - destruct Hat as (_ & _ & _ & Hlen' & Ha). unfold cap in *. destruct (t =? SDS_TYPE_5); lia.
  - intros H0. rewrite cap_long in * by done. zlr. lia.
Qed.

Lemma sdscpylen_spec s bs t rest n :
  rep s bs → zlen t = n → n < 2 ^ 62 →
  ∃ s', sdscpylen s (t ++ rest) n = Ret s' ∧ rep s' t.
Proof.
  intros Hrep Ht Hlt. pose proof (zlen_nonneg bs). pose proof (zlen_nonneg t). unfold sdscpylen.
  pose proof (rep_len _ _ Hrep) as Hlen. destruct Hrep as (t0 & alloc & free & Hb).
  rewrite (sdsalloc_at _ _ _ _ _ (proj1 Hb)). run.
  assert (Hroom : ∃ s1 t1 a1 f1, (if cap t0 (zlen bs) alloc <? n then
      l ← sdslen s; sdsMakeRoomFor s (u64 (n - l)) else Ret s) = Ret s1 ∧
      buf s1 t1 a1 bs (0 :: f1) ∧ n <= cap t1 (zlen bs) a1).
  { destruct (_ <? n) eqn:E; [|exists s, t0, alloc, free; split_and!; [done..|lia]].
    rewrite Hlen. run. destruct Hb as [Hat Hc]. rewrite wrapu_id by lia.
    destruct (sdsMakeRoomFor_spec s t0 alloc bs 0 free (n - zlen bs)) as (s1 & t1 & a1 & f1 & -> & Hb1 & Hc1);
      [done|lia..|]. exists s1, t1, a1, f1. split_and!; [done..|lia]. }
  destruct Hroom as (s1 & t1 & a1 & f1 & -> & Hb1 & Hc). run.
  destruct (buf_cut _ _ _ _ _ _ n Hb1) as (m & y & r & E & Hm & Hmax & Hr); [lia..|].
  destruct Hb1 as [Hat _]. rewrite E in Hat. rewrite (rdn_app0 t rest) by done. run.
  destruct (s_wrn_at _ _ _ _ [] m (y :: r) 0 t Hat) as (s2 & -> & Hat2); [done|lia|]. run.
  by apply (end_set_len _ _ _ _ _ _ _ n Hat2).
Qed.

Lemma sdsgrowzero_spec s bs n :
  rep s bs → 0 <= n < 2 ^ 62 →
  ∃ s', sdsgrowzero s n = Ret s' ∧ rep s' (bs ++ replicate (Z.to_nat (n - zlen bs)) 0).
Proof.
  intros Hrep Hn. pose proof (zlen_nonneg bs). unfold sdsgrowzero. rewrite (rep_len _ _ Hrep). run.
  destruct (n <=? zlen bs) eqn:E.
  { exists s. replace (Z.to_nat (n - zlen bs)) with 0%nat by lia. simpl. by rewrite app_nil_r. }
  destruct Hrep as (t0 & alloc & free & Hb).
  destruct (sdsMakeRoomFor_spec _ _ _ _ _ _ (n - zlen bs) Hb) as (s1 & t1 & a1 & f1 & -> & Hb1 & Hc); [lia..|]. run.
  destruct (buf_cut _ _ _ _ _ _ n Hb1) as (m & y & r & E1 & Hm & Hmax & Hr); [lia..|].
  destruct Hb1 as [Hat _]. set (z := replicate (Z.to_nat (n - zlen bs)) 0).
  destruct (zsplit (zlen bs) m) as (m1 & m2 & -> & Hm1 & Hm2); [lia|]. rewrite <- app_assoc in E1.
  apply zapp_inj in E1 as [<- E1]; [|done].
  replace (replicate (Z.to_nat (n - zlen bs + 1)) 0) with (z ++ [0]).
  2:{ unfold z. rewrite <- replicate_S_end. f_equal. lia. }
  rewrite E1 in Hat. replace (bs ++ m2 ++ y :: r) with (bs ++ (m2 ++ [y]) ++ r) in Hat by (by lapp).
  destruct (s_wrn_at _ _ _ _ bs (m2 ++ [y]) r (zlen bs) (z ++ [0]) Hat) as (s2 & -> & Hat2);
    [done|unfold z; zlr; lia|]. run.
  destruct (sdssetlen_at _ _ _ _ _ n Hat2) as (s3 & -> & Hat3); [lia|].
  exists s3. split; [done|]. assert (Hz : zlen (bs ++ z) = n) by (unfold z; zlr; lia).
  apply (sds_rep_intro _ t1 a1 _ r); rewrite Hz; [|done]. revert Hat3. by lapp.
Qed.

Lemma sdsclear_spec s bs : rep s bs → ∃ s', sdsclear s = Ret s' ∧ rep s' [].
Proof.
  intros (t & alloc & free & Hb). destruct (buf_cut _ _ _ _ _ _ 0 Hb) as (m & y & r & E & Hm & Hmax & Hr).
  { destruct Hb. pose proof (zlen_nonneg bs). lia. }
  apply zlen_zero in Hm as ->. destruct Hb as [Hat _]. rewrite E in Hat. unfold sdsclear.
  by apply (set_len_end s t _ alloc [] y r 0 Hat).
Qed.

(** Bytes written behind the string become part of it, and a negative
    increment cuts the string; the string must keep room for the terminator. *)
Lemma sdsIncrLen_spec s t alloc bs x free incr :
  buf s t alloc bs (x :: free) → zlen bs < 2 ^ 62 →
  0 <= zlen bs + incr <= cap t (zlen bs) alloc → (t = 0 → incr ≠ 0) →
  ∃ s', sdsIncrLen s incr = Ret s' ∧ rep s' (take (Z.to_nat (zlen bs + incr)) (bs ++ x :: free)).
Proof.
  intros Hb Hlt Hn H0. pose proof (zlen_nonneg bs).
  destruct (buf_cut _ _ _ _ _ _ _ Hb Hn) as (m & y & r & E & Hm & Hmax & Hr).
  destruct Hb as [Hat Hc]. rewrite E in *. rewrite take_app_length' by zl.
  assert (Hv : 0 <= zlen bs + incr <= sdsTypeMaxSize t) by lia.
  unfold sdsIncrLen. rewrite (flags_at _ _ _ _ _ Hat). run.
  pose proof Hat as (_ & _ & Ht & Hl & Ha). rewrite hdr_flags_type by done.
  set (s1 := Sds (hdr t (zlen bs + incr) alloc ++ m ++ y :: r) (off s)).
  assert (Hat1 : hdr_at s1 t (zlen bs + incr) alloc (m ++ y :: r)) by (by eapply hdr_at_set_len).
  destruct (s_wr_at _ _ _ _ _ _ _ (zlen bs + incr) 0 Hat1) as (s2 & Ew & Hat2); [done|by unfold is_byte|].
  exists s2. split; [|rewrite <- Hm in *; by eapply sds_rep_intro].
  destruct (decide (t = 0)) as [->|Hn0].
  - unfold hdr_flags, cap in *. simpl in Hn |- *. maxs. rewrite type5_len by lia.
    rewrite c_assert_true by (rewrite wrapu_id by lia; specialize (H0 eq_refl); lia). run.
    pose proof (set_type5_at _ _ _ _ _ (zlen bs + incr) Hat eq_refl Hv) as E5.
    change (Z.shiftl (zlen bs + incr) 3) with (Z.lor SDS_TYPE_5 (Z.shiftl (zlen bs + incr) SDS_TYPE_BITS)).
    rewrite E5. run. exact Ew.
  - pose proof (sh_len_at _ _ _ _ _ Hat Hn0) as El. pose proof (sh_alloc_at _ _ _ _ _ Hat Hn0) as Ea.
    pose proof (set_sh_len_at _ _ _ _ _ (zlen bs + incr) Hat Hn0) as Es. pose proof (sh_len_at _ _ _ _ _ Hat1 Hn0) as El1.
    rewrite cap_long in Hn, Hc by done. fold s1 in Es.
    types t; [done|..]; maxs; cbn in *; rewrite El, Ea; run;
      (rewrite c_assert_true; [run; rewrite Es; run; rewrite El1; run; done|]);
      destruct (incr <? 0) eqn:Ei;
      repeat match goal with |- context [wrapu ?w ?v] => rewrite (wrapu_id w v) by lia end; lia.
Qed.

Lemma sds_rep_tail s bs : rep s bs → ∃ free, drop (Z.to_nat (off s)) (mem s) = bs ++ 0 :: free.
Proof.
  intros (t & alloc & free & (Hm & Ho & Ht & _) & _). exists free. rewrite Hm, Ho.
  by rewrite drop_app_length' by (rewrite <- (zlen_hdr t (zlen bs) alloc Ht); zl).
Qed.

Lemma sdsupdatelen_spec s bs :
  rep s bs → ∃ s', sdsupdatelen s = Ret s' ∧ rep s' (until0 bs).
Proof.
  intros Hrep. pose proof (sds_rep_tail _ _ Hrep) as [free' Ed]. pose proof (until0_le bs). pose proof (zlen_nonneg (until0 bs)).
  unfold sdsupdatelen. rewrite Ed, strlen_until0. run. destruct Hrep as (t & alloc & free & Hb).
  destruct (buf_cut _ _ _ _ _ _ (zlen (until0 bs)) Hb) as (m & y & r & E & Hm & Hmax & Hr).
  { destruct Hb. lia. }
  destruct (until0_prefix bs free) as [r' E']. rewrite E' in E. apply zapp_inj in E as [<- [= <- <-]]; [|lia].
  destruct Hb as [Hat _]. rewrite E' in Hat.
  destruct (sdssetlen_at _ _ _ _ _ (zlen (until0 bs)) Hat) as (s' & -> & Hat'); [lia|].
  exists s'. split; [done|]. by eapply sds_rep_intro.
Qed.

Lemma sdsdup_spec s bs : rep s bs → zlen bs < 2 ^ 62 → ∃ s', sdsdup s = Ret s' ∧ rep s' bs.
Proof.
  intros Hrep Hn. unfold sdsdup. rewrite (rep_len _ _ Hrep). run. rewrite (rep_read _ _ Hrep). run.
  pose proof (sdsnew_bytes bs [] (zlen bs) eq_refl Hn) as Hd. by rewrite app_nil_r in Hd.
Qed.

(** * Resizing *)

Lemma max_size_mono t t' : type_ok t → type_ok t' → t <= t' → sdsTypeMaxSize t <= sdsTypeMaxSize t'.
Proof. intros Ht Ht' Hle. types t; types t'; maxs; lia. Qed.

Lemma resize_end s t len alloc d y r n size :
  hdr_at s t len alloc (d ++ y :: r) → zlen d = n → n <= size <= sdsTypeMaxSize t → size <= n + zlen r →
  ∃ s', (s ← s_wr s n 0; s ← sdssetlen s n; sdssetalloc s size) = Ret s' ∧ rep s' d ∧
    (sdsalloc s' = Ret n ∨ sdsalloc s' = Ret size).
Proof.
  intros Hat Hd Hn Hs. pose proof (zlen_nonneg d).
  destruct (s_wr_at _ _ _ _ _ _ _ n 0 Hat) as (s1 & -> & Hat1); [done|by unfold is_byte|]. run.
  destruct (sdssetlen_at _ _ _ _ _ n Hat1) as (s2 & -> & Hat2); [lia|]. run.
  destruct (sdssetalloc_at _ _ _ _ _ size Hat2) as (s3 & -> & Hat3); [lia|].
  exists s3. rewrite (sdsalloc_at _ _ _ _ _ Hat3). unfold cap. split_and!; [done| |case_cond; auto].
  subst n. eapply sds_rep_intro; [done|lia].
Qed.

(** The type a string of [size] bytes is resized to. *)
Definition resize_type (size : Z) (would_regrow : bool) : Z :=
  if would_regrow && (sdsReqType size =? SDS_TYPE_5) then SDS_TYPE_8 else sdsReqType size.

Lemma resize_type_fits size w :
  0 <= size < 2 ^ 64 → type_ok (resize_type size w) ∧ size <= sdsTypeMaxSize (resize_type size w).
Proof.
  intros Hn. unfold resize_type. destruct w; simpl; [|by apply req_type_fits].
  destruct (grow_type_fits size Hn) as (? & _ & ?). done.
Qed.

Lemma resize_keep s t len alloc d rest n size newlen :
  hdr_at s t len alloc (d ++ rest) → zlen d = n → n <= size <= sdsTypeMaxSize t →
  newlen = sdsHdrSize t + size + 1 →
  ∃ s', (s ← Ret (Sds (s_realloc (mem s) newlen) (sdsHdrSize t));
         s ← s_wr s n 0; s ← sdssetlen s n; sdssetalloc s size) = Ret s' ∧ rep s' d ∧
    (sdsalloc s' = Ret n ∨ sdsalloc s' = Ret size).
Proof.
  intros Hat Hd Hn ->. pose proof (zlen_nonneg d). destruct Hat as (Hm & Ho & Ht & Hl & Ha).
  pose proof (hdr_size_pos t Ht). pose proof (usable_size_ge (sdsHdrSize t + size + 1) ltac:(lia)).
  unfold s_realloc. rewrite Hm, app_assoc.
  destruct (zrealloc_prefix (hdr t len alloc ++ d) rest (usable_size (sdsHdrSize t + size + 1))) as (r & -> & Hr).
  { zlr. rewrite zlen_hdr by done. lia. }
  zlr. rewrite zlen_hdr in Hr by done. destruct (zlen_pos r) as (y & r' & ->); [lia|]. run. zlr.
  apply (resize_end _ t len alloc d y r'); [|done|lia..]. split; [by lapp|done].
Qed.

Lemma resize_move s t len alloc d rest n type size newlen :
  hdr_at s t len alloc (d ++ rest) → zlen d = n → type_ok type → n <= size <= sdsTypeMaxSize type →
  newlen = sdsHdrSize type + size + 1 →
  ∃ s', (s ← (bs ← s_rdn s 0 n; newsh ← wrn (s_malloc newlen) (sdsHdrSize type) bs;
           s_wr (Sds newsh (sdsHdrSize type)) (-1) type);
         s ← s_wr s n 0; s ← sdssetlen s n; sdssetalloc s size) = Ret s' ∧ rep s' d ∧
    (sdsalloc s' = Ret n ∨ sdsalloc s' = Ret size).
Proof.
  intros Hat Hd Ht Hn ->. pose proof (zlen_nonneg d). pose proof (hdr_size_pos type Ht).
  pose proof (usable_size_ge (sdsHdrSize type + size + 1) ltac:(lia)).
  rewrite (s_rdn_at _ _ _ _ [] d rest 0 n Hat) by done. run.
  destruct (s_malloc_split type (sdsHdrSize type + size + 1) n) as (b & m & r & -> & Hb & Hlb & Hm & Hr); [done|lia..|].
  rewrite (wrn_app b m r _ d) by lia. run. destruct (zlen_pos r) as (y & r' & ->); [lia|]. zlr.
  destruct (fresh_hdr type b (d ++ y :: r') Ht Hb Hlb) as (s1 & l & a & -> & Hat1). run.
  apply (resize_end _ _ _ _ _ _ _ n size Hat1); lia.
Qed.

(** Resizing keeps what fits.  With the jemalloc shortcut this needs the new
    size to be within the room the string has. *)
Lemma sdsResize_spec jemalloc s bs size would_regrow a :
  rep s bs → 0 <= size < 2 ^ 62 → sdsalloc s = Ret a → jemalloc = false ∨ size <= a →
  ∃ s', sdsResize jemalloc s size would_regrow = Ret s' ∧ rep s' (take (Z.to_nat size) bs) ∧
    (sdsalloc s' = Ret (Z.min size (zlen bs)) ∨ sdsalloc s' = Ret size).
Proof.
  intros Hrep Hs Ea Hj. destruct Hrep as (t & alloc & free & Hb). destruct (Hb) as [Hat Hc].
  pose proof (zlen_nonneg bs). unfold sdsResize.
  rewrite (flags_at _ _ _ _ _ Hat), (sdslen_at _ _ _ _ _ Hat), (sdsalloc_at _ _ _ _ _ Hat). run.
  pose proof Hat as (_ & _ & Ht & Hl & Ha). rewrite hdr_flags_type by done.
  rewrite (sdsalloc_at _ _ _ _ _ Hat) in Ea. injection Ea as <-.
  destruct (_ =? size) eqn:Esz.
  { exists s. split; [done|]. rewrite take_ge by zl. split; [by exists t, alloc, free|].
    rewrite (sdsalloc_at _ _ _ _ _ Hat). right. f_equal. lia. }
  fold (resize_type size would_regrow). destruct (resize_type_fits size would_regrow) as [Htt Htm]; [lia|].
  set (type := resize_type size would_regrow) in *. set (n := if size <? zlen bs then size else zlen bs).
  assert (Hn : 0 <= n <= size ∧ n <= zlen bs ∧ Z.to_nat n = Nat.min (Z.to_nat size) (length bs)) by (unfold n; case_cond; zl).
  destruct (zsplit n (bs ++ 0 :: free)) as (d & rest & Ed & Hd & Hrl); [zlr; lia|].
  replace (Z.min size (zlen bs)) with n by zl.
  replace (take (Z.to_nat size) bs) with d.
  2:{ assert (E : take (Z.to_nat n) (bs ++ 0 :: free) = d) by (rewrite Ed; apply take_app_length'; zl).
      rewrite <- E, take_app_le by zl. destruct (decide (size <= zlen bs)); [f_equal; zl|rewrite !take_ge by zl; done]. }
  rewrite Ed in Hat. pose proof (hdr_size_pos t Ht). pose proof (hdr_size_pos type Htt).
  assert (Hopt : size <= cap t (zlen bs) alloc →
    ∃ s', (s ← Ret s; s ← s_wr s n 0; s ← sdssetlen s n; sdssetalloc s size) = Ret s' ∧ rep s' d ∧
      (sdsalloc s' = Ret n ∨ sdsalloc s' = Ret size)).
  { intros Hle. zlr. destruct (zlen_pos rest) as (y & r & ->); [lia|]. zlr. run.
    apply (resize_end _ _ _ _ _ _ _ n size Hat); [done| |lia]. unfold cap in *. destruct (t =? SDS_TYPE_5); lia. }
  destruct ((t =? type) || (type <? t) && (SDS_TYPE_8 <? type)) eqn:Eu; cbn [andb];
    rewrite (wrapu_id 64) by lia; destruct (jemalloc && _) eqn:Eo; cbn [negb];
    try (apply Hopt; destruct jemalloc; naive_solver lia).
  - apply (resize_keep _ _ _ _ _ _ n size _ Hat); [done| |done].
    pose proof (max_size_mono type t Htt Ht). unfold SDS_TYPE_8 in *. lia.
  - apply (resize_move _ _ _ _ _ _ n type size _ Hat); [done..|lia|done].
Qed.

(** * Cutting *)

Lemma sdssubstr_spec s bs start len :
  rep s bs → 0 <= start → 0 <= len →
  ∃ s', sdssubstr s start len = Ret s' ∧ rep s' (take (Z.to_nat len) (drop (Z.to_nat start) bs)).
Proof.
  intros Hrep Hs Hl. pose proof (zlen_nonneg bs). unfold sdssubstr. rewrite (rep_len _ _ Hrep). run.
  set (st := if zlen bs <=? start then 0 else start). set (ln := if zlen bs <=? start then 0 else len).
  replace (if zlen bs <=? start then (0, 0) else (start, len)) with (st, ln) by (unfold st, ln; by case_cond).
  set (n := if zlen bs - st <? ln then zlen bs - st else ln).
  assert (Hn : 0 <= n ∧ st + n <= zlen bs ∧ 0 <= st) by (unfold n, ln, st; repeat case_cond; lia).
  destruct (zsplit st bs) as (b1 & b' & Eb & Hb1 & Hb'); [lia|].
  destruct (zsplit n b') as (m & b2 & -> & Hm & Hb2); [lia|].
  replace (take (Z.to_nat len) (drop (Z.to_nat start) bs)) with m.
  2:{ unfold n, ln, st in *. destruct (zlen bs <=? start) eqn:E.
      - rewrite drop_ge, take_nil by zl. apply zlen_zero. revert Hm. case_cond; lia.
      - rewrite Eb, drop_app_length' by zl. destruct (_ <? len) eqn:E2.
        + rewrite (zlen_zero b2), app_nil_r by lia. by rewrite take_ge by zl.
        + by rewrite take_app_length' by zl. }
  destruct Hrep as (t & alloc & free & Hb).
  destruct (buf_cut _ _ _ _ _ _ n Hb) as (m' & y & r & E & Hm' & Hmax & Hr); [destruct Hb; lia|].
  destruct Hb as [Hat _]. destruct (n =? 0) eqn:E0; run.
  - rewrite E in Hat. rewrite (zlen_zero m') in Hat by lia. rewrite (zlen_zero m) by lia.
    by apply (end_set_len _ _ _ _ _ _ _ n Hat); [rewrite zlen_nil; lia|..].
  - destruct (s_memmove_at s t (zlen bs) alloc b1 m (b2 ++ 0 :: free) [] m' (y :: r) 0 st n) as (s1 & -> & Hat1).
    + rewrite Eb in Hat at 2. revert Hat. by lapp.
    + done.
    + done.
    + simpl. rewrite <- E, Eb. by lapp.
    + done.
    + done.
    + run. by apply (end_set_len _ _ _ _ _ _ _ n Hat1).
Qed.

(** The part of [bs] between two positions, counted from the end when
    negative; a start before the first character selects nothing. *)
Definition range_of (bs : list Z) (start end_ : Z) : list Z :=
  let st := if start <? 0 then zlen bs + start else start in
  let en := if end_ <? 0 then zlen bs + end_ else end_ in
  if (st <? 0) || (en <? st) then []
  else take (Z.to_nat (en - st + 1)) (drop (Z.to_nat st) bs).

Lemma sdsrange_spec s bs start end_ :
  rep s bs → zlen bs < 2 ^ 62 → - 2 ^ 63 <= start < 2 ^ 63 → - 2 ^ 63 <= end_ < 2 ^ 63 →
  ∃ s', sdsrange s start end_ = Ret s' ∧ rep s' (range_of bs start end_).
Proof.
  intros Hrep Hlen Hs He. pose proof (zlen_nonneg bs). unfold sdsrange. rewrite (rep_len _ _ Hrep). run.
  destruct (zlen bs =? 0) eqn:E0.
  { assert (bs = []) as -> by (apply zlen_zero; lia). exists s. split; [done|]. unfold range_of.
    destruct (_ || _); [done|]. by rewrite drop_nil, take_nil. }
  set (st := if start <? 0 then s64 (zlen bs + start) else start).
  set (en := if end_ <? 0 then s64 (zlen bs + end_) else end_).
  assert (Est : st = if start <? 0 then zlen bs + start else start).
  { unfold st. case_cond; [|done]. rewrite wraps_id; lia. }
  assert (Een : en = if end_ <? 0 then zlen bs + end_ else end_).
  { unfold en. case_cond; [|done]. rewrite wraps_id; lia. }
  destruct (sdssubstr_spec s bs (u64 st) (if en <? st then 0 else u64 (en - st + 1)) Hrep) as (s' & -> & Hr').
  { pose proof (wrapu_range 64 st). lia. }
  { pose proof (wrapu_range 64 (en - st + 1)). case_cond; lia. }
  exists s'. split; [done|]. unfold range_of. rewrite <- Est, <- Een.
  assert (Hst : - 2 ^ 63 <= st < 2 ^ 63) by (rewrite Est; case_cond; lia).
  assert (Hen : - 2 ^ 63 <= en < 2 ^ 63) by (rewrite Een; case_cond; lia).
  destruct (st <? 0) eqn:E1; cbn [orb].
  - rewrite drop_ge, take_nil in Hr'; [done|].
    replace (u64 st) with (2 ^ 64 + st); [zl|]. unfold wrapu.
    rewrite <- (Z.mod_add st 1 (2 ^ 64)), Z.mod_small by lia. lia.
  - destruct (en <? st) eqn:E2; [done|]. by rewrite !wrapu_id in Hr' by lia.
Qed.

(** * Character-wise changes *)

Lemma map_loop_spec f s t len alloc d bs rest :
  hdr_at s t len alloc (d ++ bs ++ rest) →
  ∃ s', map_loop (length bs) f s (zlen d) = Ret s' ∧
    hdr_at s' t len alloc (d ++ ((λ c, u8 (f (s8 c))) <$> bs) ++ rest).
Proof.
  revert s d. induction bs as [|c bs IH]; intros s d Hat; [by exists s|]. cbn [length map_loop].
  rewrite (s_rd_at _ _ _ _ d c (bs ++ rest) _ Hat) by done. run.
  assert (Hw : ∃ s1, s_wr s (zlen d) (f (s8 c)) = Ret s1 ∧ hdr_at s1 t len alloc (d ++ u8 (f (s8 c)) :: bs ++ rest)).
  { apply (s_wrn_at _ _ _ _ d [c] (bs ++ rest) (zlen d) [u8 (f (s8 c))] Hat); done. }
  destruct Hw as (s1 & -> & Hat1). run.
  destruct (IH s1 (d ++ [u8 (f (s8 c))])) as (s2 & E & Hat2); [revert Hat1; by lapp|].
  exists s2. split; [|revert Hat2; by lapp]. rewrite <- E. f_equal. zlr. lia.
Qed.

Lemma map_loop_rep f s bs :
  rep s bs → ∃ s', map_loop (Z.to_nat (zlen bs)) f s 0 = Ret s' ∧ rep s' ((λ c, u8 (f (s8 c))) <$> bs).
Proof.
  intros (t & alloc & free & Hat & Hc). destruct (map_loop_spec f s t _ _ [] bs _ Hat) as (s' & E & Hat').
  exists s'. unfold zlen at 1. rewrite Nat2Z.id. split; [done|].
  assert (El : zlen ((λ c, u8 (f (s8 c))) <$> bs) = zlen bs) by (unfold zlen; by rewrite length_fmap).
  exists t, alloc, free. split; rewrite El; done.
Qed.

(** * Comparison *)

Fixpoint lex (a b : list Z) : comparison :=
  match a, b with
  | [], [] => Eq
  | [], _ => Lt
  | _, [] => Gt
  | x :: a, y :: b => match x ?= y with Eq => lex a b | c => c end
  end.

Definition sign_of (c : comparison) : Z := match c with Lt => -1 | Eq => 0 | Gt => 1 end.

Lemma lex_eq a b : lex a b = Eq ↔ a = b.
Proof.
  revert b. induction a as [|x a IH]; intros [|y b]; cbn; try done.
  destruct (Z.compare_spec x y) as [->|Hc|Hc]; [|naive_solver lia..]. rewrite IH. naive_solver.
Qed.

Lemma memcmp_lex a b n :
  n = Nat.min (length a) (length b) →
  sign_of (lex a b) = Z.sgn (let cmp := memcmp (take n a) (take n b) in
    if cmp =? 0 then if zlen b <? zlen a then 1 else if zlen a <? zlen b then -1 else 0 else cmp).
Proof.
  revert a b. induction n as [|n IH]; intros [|x a] [|y b] Hn; try (simpl in Hn; discriminate); try done.
  simpl in Hn. injection Hn as Hn. specialize (IH a b Hn). simpl.
  destruct (Z.compare_spec x y) as [->|Hxy|Hxy].
  - rewrite Z.eqb_refl, IH. simpl. f_equal. destruct (_ =? 0); [|done]. zlr.
    repeat case_cond; lia.
  - test (x =? y) false. test (x - y =? 0) false. simpl. symmetry. apply Z.sgn_neg. lia.
  - test (x =? y) false. test (x - y =? 0) false. simpl. symmetry. apply Z.sgn_pos. lia.
Qed.

Lemma sdscmp_spec s1 s2 b1 b2 :
  rep s1 b1 → rep s2 b2 → ∃ v, sdscmp s1 s2 = Ret v ∧ Z.sgn v = sign_of (lex b1 b2).
Proof.
  intros H1 H2. unfold sdscmp. rewrite (rep_len _ _ H1), (rep_len _ _ H2). run.
  set (n := if zlen b1 <? zlen b2 then zlen b1 else zlen b2).
  assert (Hr : ∀ s b, rep s b → 0 <= n <= zlen b → s_rdn s 0 n = Ret (take (Z.to_nat n) b)).
  { intros s b (t & alloc & free & Hat & _) Hn. destruct (zsplit n b) as (m & r & Em & Hm & _); [done|].
    rewrite Em at 1. rewrite Em in Hat at 2. rewrite take_app_length' by zl.
    apply (s_rdn_at s t (zlen b) alloc [] m (r ++ 0 :: free)); [revert Hat; by lapp|done..]. }
  pose proof (zlen_nonneg b1). pose proof (zlen_nonneg b2).
  rewrite (Hr _ _ H1), (Hr _ _ H2) by (unfold n; case_cond; lia). run. eexists. split; [done|].
  symmetry. rewrite (memcmp_lex b1 b2 (Z.to_nat n)); [done|]. unfold n. case_cond; zl.
Qed.

(** * Trimming *)

(** [strchr] finds the terminator too. *)
Definition in_cset (cs : list Z) (c : Z) : Prop := c ∈ cs ∨ c = 0.

Lemma strchr_spec cs r c : 0 ∉ cs → ∃ b, strchr (cs ++ 0 :: r) c = Ret b ∧ (b = true ↔ in_cset cs c).
Proof.
  unfold in_cset. induction cs as [|x cs IH]; intros Hn; cbn [strchr app].
  - destruct (Z.eqb_spec 0 c).
    + exists true. naive_solver.
    + exists false. split; [done|]. rewrite elem_of_nil. naive_solver lia.
  - rewrite not_elem_of_cons in Hn. destruct Hn as [Hx Hn]. setoid_rewrite elem_of_cons.
    destruct (Z.eqb_spec x c) as [->|Hc]; [exists true; naive_solver|].
    test (x =? 0) false. destruct (IH Hn) as (b & -> & Hb). exists b. naive_solver.
Qed.

Section trim.
Context (s : sds) (t alloc len : Z) (cs r : list Z).
Hypothesis Hcs : 0 ∉ cs.

Lemma trim_left_spec fuel l m e rest :
  hdr_at s t len alloc (l ++ m ++ rest) → e = zlen l + zlen m - 1 → (length m < fuel)%nat →
  ∃ m1 m2, m = m1 ++ m2 ∧ Forall (in_cset cs) m1 ∧ (∀ c, head m2 = Some c → ¬ in_cset cs c) ∧
    trim_left fuel s (cs ++ 0 :: r) (zlen l) e = Ret (zlen l + zlen m1).
Proof.
  revert l m. induction fuel as [|fuel IH]; intros l m Hat -> Hf; [lia|]. cbn [trim_left].
  destruct m as [|c m].
  { exists [], []. split_and!; [done|constructor|done|]. rewrite zlen_nil. test (zlen l <=? zlen l + 0 - 1) false. f_equal. lia. }
  rewrite zlen_cons. test (zlen l <=? zlen l + (1 + zlen m) - 1) true.
  rewrite (s_rd_at _ _ _ _ l c (m ++ rest) _ Hat) by done. run.
  destruct (strchr_spec cs r c Hcs) as (b & -> & Hb). run. destruct b.
  - destruct (IH (l ++ [c]) m) as (m1 & m2 & -> & Hm1 & Hm2 & E); [revert Hat; by lapp|zlr; lia|simpl in Hf; lia|].
    exists (c :: m1), m2. split_and!; [done|constructor; [tauto|done]|done|].
    replace (zlen l + 1) with (zlen (l ++ [c])) by (zlr; lia). rewrite zlen_cons in E. rewrite E. f_equal. zlr. lia.
  - exists [], (c :: m). split_and!; [done|constructor|naive_solver|]. f_equal. zl.
Qed.

Lemma trim_right_spec fuel l c m rest :
  hdr_at s t len alloc (l ++ (c :: m) ++ rest) → (length m < fuel)%nat → ¬ in_cset cs c →
  ∃ m1 m2, m = m1 ++ m2 ∧ Forall (in_cset cs) m2 ∧ (∀ d, last (c :: m1) = Some d → ¬ in_cset cs d) ∧
    trim_right fuel s (cs ++ 0 :: r) (zlen l) (zlen l + zlen m) = Ret (zlen l + zlen m1).
Proof.
  revert m rest. induction fuel as [|fuel IH]; intros m rest Hat Hf Hc; [lia|]. cbn [trim_right].
  destruct m as [|d m _] using rev_ind.
  { exists [], []. rewrite zlen_nil. test (zlen l <? zlen l + 0) false. split_and!; [done|constructor|naive_solver|done]. }
  zlr. pose proof (zlen_nonneg m). test (zlen l <? zlen l + (zlen m + (1 + 0))) true.
  rewrite (s_rd_at s t len alloc (l ++ c :: m) d rest); [|revert Hat; by lapp|zlr; lia]. run.
  destruct (strchr_spec cs r d Hcs) as (b & -> & Hb). run. rewrite length_app in Hf. simpl in Hf. destruct b.
  - destruct (IH m (d :: rest)) as (m1 & m2 & -> & Hm2 & Hl & E); [revert Hat; by lapp|lia|done|].
    exists m1, (m2 ++ [d]). split_and!; [by lapp| |done|].
    + apply Forall_app. split; [done|]. constructor; [tauto|done].
    + rewrite <- E. f_equal. lia.
  - exists (m ++ [d]), []. split_and!; [by rewrite app_nil_r|constructor| |f_equal; zlr; lia].
    intros d' E. rewrite app_comm_cons, last_snoc in E. naive_solver.
Qed.

End trim.

(** What [sdstrim] leaves of [bs]. *)
Definition trimmed (cs bs m : list Z) : Prop :=
  ∃ l r, bs = l ++ m ++ r ∧ Forall (in_cset cs) l ∧ Forall (in_cset cs) r ∧
    (∀ c, head m = Some c → ¬ in_cset cs c) ∧ (∀ c, last m = Some c → ¬ in_cset cs c).

Lemma trim_move s t len alloc l m rest sp n :
  hdr_at s t len alloc (l ++ m ++ rest) → zlen l = sp → zlen m = n → 0 < zlen rest →
  ∃ s' y r, (if sp =? 0 then Ret s else s_memmove s 0 sp n) = Ret s' ∧
    hdr_at s' t len alloc (m ++ y :: r) ∧ 1 + zlen r = zlen l + zlen rest.
Proof.
  intros Hat Hl Hm Hr. pose proof (zlen_nonneg l). pose proof (zlen_nonneg m). destruct (sp =? 0) eqn:E.
  - assert (l = []) as -> by (apply zlen_zero; lia). destruct (zlen_pos rest Hr) as (y & r & ->). exists s, y, r.
    split_and!; [done..|zlr; lia].
  - destruct (zsplit n (l ++ m ++ rest)) as (m' & r & E1 & Hm' & Hr'); [zlr; lia|]. zlr.
    destruct (s_memmove_at s t len alloc l m rest [] m' r 0 sp n Hat) as (s1 & -> & Hat1); [done..|].
    destruct (zlen_pos r) as (y & r' & ->); [lia|]. exists s1, y, r'. zlr. split_and!; [done..|lia].
Qed.

Lemma sdstrim_spec s bs cs r :
  rep s bs → 0 ∉ cs → ∃ s' m, sdstrim s (cs ++ 0 :: r) = Ret s' ∧ rep s' m ∧ trimmed cs bs m.
Proof.
  intros Hrep Hcs. pose proof (zlen_nonneg bs). unfold sdstrim. rewrite (rep_len _ _ Hrep). run.
  destruct Hrep as (t & alloc & free & Hb). destruct (buf_elim _ _ _ _ _ _ Hb) as [Hat Hroom].
  pose proof (zlen_nonneg free).
  destruct (trim_left_spec s t alloc (zlen bs) cs r Hcs (S (Z.to_nat (zlen bs))) [] bs (zlen bs - 1) (0 :: free) Hat)
    as (l & m & -> & Hl & Hh & E); [rewrite zlen_nil; lia|zl|]. change (zlen (@nil Z)) with 0 in E. rewrite E. clear E. run.
  pose proof (zlen_nonneg l).
  assert (Hright : ∃ m1 m2, m = m1 ++ m2 ∧ Forall (in_cset cs) m2 ∧ (∀ c, head m1 = Some c → ¬ in_cset cs c) ∧
     (∀ c, last m1 = Some c → ¬ in_cset cs c) ∧ ∃ ep, trim_right (S (Z.to_nat (zlen (l ++ m)))) s (cs ++ 0 :: r) (0 + zlen l) (zlen (l ++ m) - 1) = Ret ep ∧
     (if ep <? 0 + zlen l then 0 else ep - (0 + zlen l) + 1) = zlen m1).
  { destruct m as [|c m].
    - exists [], []. split_and!; [done|constructor|done|done|]. exists (zlen l - 1). cbn [trim_right]. rewrite app_nil_r.
      test (0 + zlen l <? zlen l - 1) false. split; [done|]. by test (zlen l - 1 <? 0 + zlen l) true.
    - destruct (trim_right_spec s t alloc (zlen (l ++ c :: m)) cs r Hcs (S (Z.to_nat (zlen (l ++ c :: m)))) l c m (0 :: free))
        as (m1 & m2 & -> & Hm2 & Hlast & E); [revert Hat; by lapp|zl|by apply Hh|].
      exists (c :: m1), m2. split_and!; [done..|]. exists (zlen l + zlen m1). pose proof (zlen_nonneg m1). split.
      + rewrite <- E. f_equal. zlr. lia.
      + test (zlen l + zlen m1 <? 0 + zlen l) false. zlr. lia. }
  destruct Hright as (m1 & m2 & -> & Hm2 & Hh1 & Hl1 & ep & -> & En). run. rewrite En. pose proof (zlen_nonneg m1).
  destruct (trim_move s t (zlen (l ++ m1 ++ m2)) alloc l m1 (m2 ++ 0 :: free) (0 + zlen l) (zlen m1))
    as (s1 & y & r1 & -> & Hat1 & Hr1); [revert Hat; by lapp|lia|done|zlr; pose proof (zlen_nonneg m2); lia|]. run. zlr.
  pose proof (zlen_nonneg m2).
  destruct (end_set_len _ _ _ _ _ _ _ (zlen m1) Hat1) as (s2 & -> & Hr2); [done| | |].
  - destruct Hat as (_ & _ & _ & ? & _). lia.
  - intros Ht0. specialize (Hroom Ht0). lia.
  - exists s2, m1. split_and!; [done..|]. by exists l, m2.
Qed.

End ops.
End SdsOps.
