(* ===== verification/SdsText.v ===== *)
(** Numbers, formatting, splitting, joining and quoting of [sds.c], against
    reference notions: [Util.dec] for numbers, [fmt_ok] for [sdscatfmt],
    [splits] and [join] for separators, [repr] for quoted strings. *)
From S2P Require Import Prelude Endianconv Util Sds SdsRep SdsOps.
Import Sds SdsRep SdsOps.

Module SdsText.

(** * Numbers *)

Lemma udec_19 v : 0 <= v < 10 ^ 19 → zlen (Util.udec v) <= 19.
Proof.
  intros Hv. unfold Util.udec. rewrite (Util.udec_n_enough 20 19) by lia.
  apply (Util.udec_n_max 19).
Qed.

Lemma ll2str_digits_spec fuel a m rest v :
  0 <= v < 2 ^ 64 → zlen m = zlen (Util.udec v) → (length (Util.udec v) <= fuel)%nat →
  ll2str_digits fuel (a ++ m ++ rest) (zlen a) v =
    Ret (a ++ reverse (Util.udec v) ++ rest, zlen a + zlen (Util.udec v)).
Proof.
  revert a m v. induction fuel as [|fuel IH]; intros a m v Hv Hm Hf; rewrite Util.udec_unfold in * by lia.
  { rewrite length_app in Hf. simpl in Hf. lia. }
  cbn [ll2str_digits]. rewrite length_app in Hf. simpl in Hf. zlr. dm v 10.
  set (ds := if v <? 10 then [] else Util.udec (v / 10)) in *. pose proof (zlen_nonneg ds).
  destruct (zlen_pos m) as (x & m' & ->); [lia|]. zlr.
  rewrite (wr_at _ _ _ a x (m' ++ rest)); [|by lapp|done|unfold is_byte; lia]. run.
  rewrite reverse_snoc. destruct (v / 10 =? 0) eqn:E; unfold ds in *.
  - assert (v < 10) by lia. replace (v <? 10) with true in * by lia. rewrite (zlen_zero m') by (zlr; lia).
    apply ret_pair; [by lapp|zlr; lia].
  - replace (v <? 10) with false in * by lia.
    replace (a ++ (48 + v mod 10) :: m' ++ rest) with ((a ++ [48 + v mod 10]) ++ m' ++ rest) by (by lapp).
    replace (zlen a + 1) with (zlen (a ++ [48 + v mod 10])) by (zlr; lia).
    rewrite (IH (a ++ [48 + v mod 10]) m' (v / 10)); [|lia|lia|lia].
    apply ret_pair; [by lapp|zlr; lia].
Qed.

Lemma ll2str_reverse_S fuel buf s p :
  ll2str_reverse (S fuel) buf s p =
    if s <? p then
      aux ← rd buf s; x ← rd buf p; buf ← wr buf s x; buf ← wr buf p aux;
      ll2str_reverse fuel buf (s + 1) (p - 1)
    else Ret buf.
Proof. reflexivity. Qed.

Lemma ll2str_reverse_spec fuel a m rest p :
  p = zlen a + zlen m - 1 → (length m <= fuel)%nat → bytes_ok m →
  ll2str_reverse (S fuel) (a ++ m ++ rest) (zlen a) p = Ret (a ++ reverse m ++ rest).
Proof.
  revert a m rest p. induction fuel as [|fuel IH]; intros a m rest p -> Hf Hb.
  { destruct m; simpl in Hf; [|lia]. rewrite ll2str_reverse_S. by test (zlen a <? zlen a + zlen (@nil Z) - 1) false. }
  rewrite ll2str_reverse_S. destruct m as [|x m]; [by test (zlen a <? zlen a + zlen (@nil Z) - 1) false|].
  destruct m as [|y m _] using rev_ind; [by test (zlen a <? zlen a + zlen [x] - 1) false|].
  zlr. pose proof (zlen_nonneg m). apply Forall_cons in Hb as [Hx [Hb Hy]%Forall_app].
  apply Forall_cons in Hy as [Hy _].
  test (zlen a <? zlen a + (1 + (zlen m + (1 + 0))) - 1) true.
  rewrite (rd_at _ (zlen a) x a ((m ++ [y]) ++ rest)); [|by lapp|done]. run.
  rewrite (rd_at _ _ y (a ++ x :: m) rest); [|by lapp|zlr; lia]. run.
  rewrite (wr_at _ _ y a x ((m ++ [y]) ++ rest)); [|by lapp|done|done]. run.
  rewrite (wr_at _ _ x (a ++ y :: m) y rest); [|by lapp|zlr; lia|done]. run.
  replace ((a ++ y :: m) ++ x :: rest) with ((a ++ [y]) ++ m ++ x :: rest) by (by lapp).
  replace (zlen a + 1) with (zlen (a ++ [y])) by (zlr; lia).
  rewrite IH; [|zlr; lia|simpl in Hf; rewrite length_app in Hf; simpl in Hf; lia|done].
  rewrite reverse_cons, reverse_snoc. by lapp.
Qed.

Lemma udec_bytes v : 0 <= v < 2 ^ 64 → bytes_ok (Util.udec v).
Proof.
  intros Hv. assert (Hn : ∀ n v, 0 <= v → bytes_ok (Util.udec_n n v)); [|by apply Hn; lia].
  induction n as [|n IH]; intros w Hw; [constructor|]. rewrite Util.udec_n_S. dm w 10.
  apply Forall_app. split; [case_cond; [constructor|apply IH; lia]|].
  constructor; [unfold is_byte; lia|constructor].
Qed.

Lemma sdsll2str_spec (b : list Z) v :
  Util.int64 v → zlen b = 21 →
  ∃ r, sdsll2str b v = Ret (Util.dec v ++ 0 :: r, zlen (Util.dec v)).
Proof.
  unfold Util.int64, Util.LLONG_MIN, Util.LLONG_MAX. intros Hv Hb. unfold sdsll2str, Util.dec.
  set (w := if v <? 0 then - v else v).
  assert (Hw : 0 <= w <= 2 ^ 63) by (unfold w; case_cond; lia).
  replace (if v <? 0 then u64 (- v) else v) with w by (unfold w; case_cond; [rewrite wrapu_id; lia|done]).
  pose proof (udec_19 w ltac:(lia)) as Hl. pose proof (Util.udec_bounds w ltac:(lia)).
  destruct (zsplit (zlen (Util.udec w)) b) as (m & rest & -> & Hm & Hr); [lia|].
  pose proof (ll2str_digits_spec 20 [] m rest w) as Ed. change (zlen (@nil Z)) with 0 in Ed. simpl app in Ed.
  rewrite Ed; [|lia|done|zl]. run.
  destruct (zlen_pos rest) as (x & rest' & ->); [lia|]. zlr. pose proof (udec_bytes w ltac:(lia)) as Hbytes.
  assert (Hrev : zlen (reverse (Util.udec w)) = zlen (Util.udec w)) by zl.
  destruct (v <? 0) eqn:E.
  - rewrite (wr_at _ _ 45 (reverse (Util.udec w)) x rest'); [|done|lia|by unfold is_byte]. run.
    destruct (zlen_pos rest') as (y & r & ->); [lia|]. zlr.
    rewrite (wr_at _ _ 0 (reverse (Util.udec w) ++ [45]) y r); [|by lapp|zlr; lia|by unfold is_byte]. run.
    pose proof (ll2str_reverse_spec 20 [] (reverse (Util.udec w) ++ [45]) (0 :: r) (0 + zlen (Util.udec w) + 1 - 1)) as Er.
    change (zlen (@nil Z)) with 0 in Er. simpl app in Er. rewrite <- app_assoc in Er |- *. rewrite Er; [|zlr; lia|zl|].
    + run. exists r. rewrite reverse_snoc, reverse_involutive. apply ret_pair; [done|]. unfold w. zlr. lia.
    + apply Forall_app. split; [by apply Forall_reverse|]. by constructor.
  - run. rewrite (wr_at _ _ 0 (reverse (Util.udec w)) x rest'); [|done|lia|by unfold is_byte]. run.
    pose proof (ll2str_reverse_spec 20 [] (reverse (Util.udec w)) (0 :: rest') (0 + zlen (Util.udec w) - 1)) as Er.
    change (zlen (@nil Z)) with 0 in Er. simpl app in Er. rewrite Er; [|zlr; lia|zl|by apply Forall_reverse].
    run. exists rest'. by rewrite reverse_involutive.
Qed.

Lemma sdsull2str_spec (b : list Z) v :
  0 <= v < 2 ^ 64 → zlen b = 21 →
  ∃ r, sdsull2str b v = Ret (Util.udec v ++ 0 :: r, zlen (Util.udec v)).
Proof.
  intros Hv Hb. unfold sdsull2str. pose proof (Util.udec_bounds v Hv).
  destruct (zsplit (zlen (Util.udec v)) b) as (m & rest & -> & Hm & Hr); [lia|].
  pose proof (ll2str_digits_spec 20 [] m rest v) as Ed. change (zlen (@nil Z)) with 0 in Ed. simpl app in Ed.
  rewrite Ed; [|done|done|zl]. run.
  destruct (zlen_pos rest) as (x & rest' & ->); [lia|]. zlr. pose proof (udec_bytes v Hv) as Hbytes.
  assert (Hrev : zlen (reverse (Util.udec v)) = zlen (Util.udec v)) by zl.
  rewrite (wr_at _ _ 0 (reverse (Util.udec v)) x rest'); [|done|lia|by unfold is_byte]. run.
  pose proof (ll2str_reverse_spec 20 [] (reverse (Util.udec v)) (0 :: rest') (0 + zlen (Util.udec v) - 1)) as Er.
  change (zlen (@nil Z)) with 0 in Er. simpl app in Er. rewrite Er; [|zlr; lia|zl|by apply Forall_reverse].
  run. exists rest'. by rewrite reverse_involutive.
Qed.

(** * Formatting *)

Section text.
Context {H : HostOrder} {A : Allocator} {L : AllocatorLaws A}.

(** The text a conversion character and its argument stand for. *)
Inductive conv_ok : Z → va_arg → list Z → Prop :=
| conv_s cs r : 0 ∉ cs → conv_ok 115 (VA_str (cs ++ 0 :: r)) cs
| conv_S t bs : rep t bs → conv_ok 83 (VA_sds t) bs
| conv_i v : - 2 ^ 31 <= v < 2 ^ 31 → conv_ok 105 (VA_int v) (Util.dec v)
| conv_I v : Util.int64 v → conv_ok 73 (VA_llong v) (Util.dec v)
| conv_u v : 0 <= v < 2 ^ 32 → conv_ok 117 (VA_uint v) (Util.udec v)
| conv_U v : 0 <= v < 2 ^ 64 → conv_ok 85 (VA_ullong v) (Util.udec v).

Definition is_conv (c : Z) : bool :=
  (c =? 115) || (c =? 83) || (c =? 105) || (c =? 73) || (c =? 117) || (c =? 85).

(** [fmt_ok fmt args out]: the format, which does not end in a lone [%], has
    an argument of the right type for each conversion and means [out]. *)
Inductive fmt_ok : list Z → list va_arg → list Z → Prop :=
| fmt_end args : fmt_ok [] args []
| fmt_lit c fmt args out :
    is_byte c → c ≠ 0 → c ≠ 37 → fmt_ok fmt args out → fmt_ok (c :: fmt) args (c :: out)
| fmt_arg x a txt fmt args out :
    conv_ok x a txt → fmt_ok fmt args out → fmt_ok (37 :: x :: fmt) (a :: args) (txt ++ out)
| fmt_other x fmt args out :
    is_byte x → x ≠ 0 → is_conv x = false → fmt_ok fmt args out →
    fmt_ok (37 :: x :: fmt) args (x :: out).

(** Writing behind the contents and moving the end; no terminator yet. *)
Lemma buf_append s t alloc bs x free w n :
  buf s t alloc bs (x :: free) → t ≠ 0 → zlen w = n → zlen bs + n <= alloc →
  ∃ s' y r, (s ← s_wrn s (zlen bs) w; sdsinclen s n) = Ret s' ∧ buf s' t alloc (bs ++ w) (y :: r).
Proof.
  intros Hb H0 Hw Hn. pose proof (zlen_nonneg w).
  destruct (buf_room _ _ _ _ _ _ n Hb) as (m & y & r & E & Hm & Hmax); [lia|by rewrite cap_long|].
  apply buf_elim in Hb as [Hat Hr]. specialize (Hr H0).
  assert (Hlen : 1 + zlen free = n + 1 + zlen r) by (rewrite <- zlen_cons with (x := x), E; zlr; lia).
  rewrite E in Hat. destruct (s_wrn_at _ _ _ _ bs m (y :: r) (zlen bs) w Hat) as (s1 & -> & Hat1); [done|lia|]. run.
  destruct (sdsinclen_at _ _ _ _ _ n Hat1) as (s2 & -> & Hat2); [lia..|].
  exists s2, y, r. split; [done|]. rewrite app_assoc in Hat2.
  replace (zlen bs + n) with (zlen (bs ++ w)) in Hat2 by (zlr; lia).
  apply buf_intro; [done|]. zlr. lia.
Qed.

Lemma fmt_char_spec s t alloc bs x free c :
  buf s t alloc bs (x :: free) → t ≠ 0 → is_byte c → zlen bs + 1 <= alloc →
  ∃ s' y r, fmt_char s (zlen bs) c = Ret (s', zlen (bs ++ [c])) ∧ buf s' t alloc (bs ++ [c]) (y :: r).
Proof.
  intros Hb H0 Hc Hn. destruct (buf_append s t alloc bs x free [c] 1 Hb H0) as (s' & y & r & E & Hb'); [done..|].
  exists s', y, r. split; [|done]. unfold fmt_char, s_wr, wr. rewrite wrapu_id by (unfold is_byte in Hc; lia).
  apply bind_inv in E as (s1 & Es & E). unfold s_wrn in Es. rewrite Es. run. rewrite E. run.
  apply ret_pair; [done|zlr; lia].
Qed.

Lemma fmt_put_spec s t alloc bs x free w rest n :
  buf s t alloc bs (x :: free) → t ≠ 0 → zlen w = n → zlen bs + n < 2 ^ 62 →
  ∃ s' t' alloc' y r, fmt_put s (zlen bs) (w ++ rest) n = Ret (s', zlen (bs ++ w)) ∧
    buf s' t' alloc' (bs ++ w) (y :: r).
Proof.
  intros Hb H0 Hw Hn. pose proof (zlen_nonneg w). pose proof (zlen_nonneg bs). unfold fmt_put.
  destruct (Hb) as [Hat Hc]. rewrite (sdsavail_at _ _ _ _ _ Hat) by lia. run.
  assert (Hroom : ∃ s1 t1 a1 f1, (if cap t (zlen bs) alloc - zlen bs <? n then sdsMakeRoomFor s n else Ret s) = Ret s1 ∧
      buf s1 t1 a1 bs (x :: f1) ∧ t1 ≠ 0 ∧ zlen bs + n <= a1).
  { rewrite cap_long in * by done. destruct (_ <? n) eqn:E.
    - destruct (sdsMakeRoomFor_spec _ _ _ _ _ _ n Hb) as (s1 & t1 & a1 & f1 & -> & Hb1 & Hc1); [lia..|].
      assert (Ht1 : t1 ≠ 0) by (intros ->; unfold cap in Hc1; simpl in Hc1; lia).
      rewrite cap_long in Hc1 by done. exists s1, t1, a1, f1. done.
    - exists s, t, alloc, free. split_and!; [done..|lia]. }
  destruct Hroom as (s1 & t1 & a1 & f1 & -> & Hb1 & Ht1 & Ha1). run.
  rewrite (rdn_app0 w rest) by done. run.
  destruct (buf_append _ _ _ _ _ _ w n Hb1) as (s2 & y & r & E & Hb2); [done..|].
  apply bind_inv in E as (s3 & -> & E). run. rewrite E. run.
  exists s2, t1, a1, y, r. split; [|done]. apply ret_pair; [done|zlr; lia].
Qed.

Lemma fmt_conv_spec s t alloc bs x free c a args txt :
  buf s t alloc bs (x :: free) → t ≠ 0 → conv_ok c a txt → zlen bs + zlen txt < 2 ^ 62 →
  ∃ s' t' alloc' y r, fmt_conv s (zlen bs) c (a :: args) = Ret (s', zlen (bs ++ txt), args) ∧
    buf s' t' alloc' (bs ++ txt) (y :: r).
Proof.
  intros Hb H0 Hc Hn. assert (Hbuf : zlen llstr_buf = 21) by (apply (zlen_zmalloc 21); lia).
  assert (Hput : ∀ w rest, zlen bs + zlen w < 2 ^ 62 → ∃ s' t' alloc' y r,
    ('(s, i) ← fmt_put s (zlen bs) (w ++ rest) (zlen w); Ret (s, i, args)) = Ret (s', zlen (bs ++ w), args) ∧
    buf s' t' alloc' (bs ++ w) (y :: r)).
  { intros w rest Hw. destruct (fmt_put_spec _ _ _ _ _ _ w rest (zlen w) Hb H0) as (s' & t' & a' & y & r & -> & Hb'); [done..|].
    run. by exists s', t', a', y, r. }
  destruct Hc as [cs r Hcs|t' bs' Hr|v Hv|v Hv|v Hv|v Hv]; unfold fmt_conv; simpl.
  - rewrite strlen_app by done. run. by apply Hput.
  - rewrite (rep_len _ _ Hr). run. rewrite (rep_read _ _ Hr). run. pose proof (Hput bs' []) as Hp.
    rewrite app_nil_r in Hp. by apply Hp.
  - destruct (sdsll2str_spec llstr_buf v) as (r & ->); [|done|].
    { unfold Util.int64, Util.LLONG_MIN, Util.LLONG_MAX. lia. } run. by apply Hput.
  - destruct (sdsll2str_spec llstr_buf v) as (r & ->); [done..|]. run. by apply Hput.
  - destruct (sdsull2str_spec llstr_buf v) as (r & ->); [lia|done|]. run. by apply Hput.
  - destruct (sdsull2str_spec llstr_buf v) as (r & ->); [done..|]. run. by apply Hput.
Qed.

Lemma fmt_conv_other s i c args :
  is_conv c = false → fmt_conv s i c args = '(s, i) ← fmt_char s i c; Ret (s, i, args).
Proof.
  intros Hcv. unfold fmt_conv. unfold is_conv in Hcv. test (c =? 115) false. test (c =? 83) false.
  test ((c =? 105) || (c =? 73)) false. by test ((c =? 117) || (c =? 85)) false.
Qed.

(** The room for one character that every round starts with. *)
Lemma fmt_room s t alloc bs x free :
  buf s t alloc bs (x :: free) → zlen bs + 1 < 2 ^ 62 →
  ∃ s1 t1 a1 f1, (avail ← sdsavail s; if avail =? 0 then sdsMakeRoomFor s 1 else Ret s) = Ret s1 ∧
    buf s1 t1 a1 bs (x :: f1) ∧ t1 ≠ 0 ∧ zlen bs + 1 <= a1.
Proof.
  intros Hb Hn. destruct (Hb) as [Hat Hc]. rewrite (sdsavail_at _ _ _ _ _ Hat) by lia. run.
  assert (Hlong : ∀ t a, zlen bs + 1 <= cap t (zlen bs) a → t ≠ 0 ∧ zlen bs + 1 <= a).
  { intros t' a' Hca. assert (t' ≠ 0) by (intros ->; unfold cap in Hca; simpl in Hca; lia).
    by rewrite cap_long in Hca. }
  destruct (_ =? 0) eqn:E.
  - destruct (sdsMakeRoomFor_spec _ _ _ _ _ _ 1 Hb) as (s1 & t1 & a1 & f1 & -> & Hb1 & Hc1); [lia..|].
    exists s1, t1, a1, f1. destruct (Hlong _ _ Hc1). done.
  - exists s, t, alloc, free. destruct (Hlong t alloc); [lia|]. done.
Qed.

(** The start and the end of a round. *)
Ltac fmt_open Hb s1 t1 a1 f1 :=
  let E := fresh in
  destruct (fmt_room _ _ _ _ _ _ Hb) as (s1 & t1 & a1 & f1 & E & ? & ? & ?); [lia|];
  apply bind_inv in E as (? & -> & E); run; rewrite E; run.
Ltac fmt_close f E3 Hb3 :=
  revert E3 Hb3; lapp; intros E3 Hb3;
  match type of E3 with fmt_loop _ _ _ _ ?g _ = fmt_loop ?f3 ?s3 _ _ _ ?g3 =>
    exists f3, g3, s3; do 4 eexists; split; [cbn [length]; lia|split; [|exact Hb3]];
    replace f with g by (zlr; lia)
  end;
  rewrite E3; f_equal; zlr; lia.

(** The rounds for the directives of [fmt], up to what follows them. *)
Lemma fmt_prefix fmt args out :
  fmt_ok fmt args out → ∀ fuel s t alloc bs x free pre r,
  buf s t alloc bs (x :: free) → zlen bs + zlen out + 1 < 2 ^ 62 → (length fmt < fuel)%nat →
  ∃ fuel' args' s' t' alloc' y free', (fuel <= fuel' + length fmt)%nat ∧
    fmt_loop fuel s (zlen bs) (pre ++ fmt ++ r) (zlen pre) args =
    fmt_loop fuel' s' (zlen (bs ++ out)) (pre ++ fmt ++ r) (zlen (pre ++ fmt)) args' ∧
    buf s' t' alloc' (bs ++ out) (y :: free').
Proof.
  induction 1 as [args|c fmt args out Hc Hc0 Hc37 Hf IH|c a txt fmt args out Hconv Hf IH|c fmt args out Hc Hc0 Hcv Hf IH];
    intros fuel s t alloc bs x free pre r Hb Hn Hfuel.
  - exists fuel, args, s, t, alloc, x, free. rewrite !app_nil_r. split; [simpl; lia|done].
  - destruct fuel as [|fuel]; [lia|]. cbn [fmt_loop].
    pose proof (zlen_nonneg out). simpl in Hfuel. zlr.
    rewrite (rd_at _ (zlen pre) c pre (fmt ++ r)) by done. run. test (c =? 0) false.
    fmt_open Hb s1 t1 a1 f1. test (c =? 37) false.
    destruct (fmt_char_spec s1 t1 a1 bs x f1 c) as (s2 & y & r2 & -> & Hb2); [done..|]. run.
    destruct (IH fuel s2 t1 a1 (bs ++ [c]) y r2 (pre ++ [c]) r Hb2)
      as (f3 & g3 & s3 & t3 & a3 & y3 & r3 & Hf3 & E3 & Hb3); [zlr; lia|lia|].
    fmt_close (zlen pre + 1) E3 Hb3.
  - destruct fuel as [|fuel]; [lia|]. cbn [fmt_loop].
    simpl in Hfuel. zlr. pose proof (zlen_nonneg txt). pose proof (zlen_nonneg out).
    rewrite (rd_at _ (zlen pre) 37 pre (c :: fmt ++ r)) by done. run.
    fmt_open Hb s1 t1 a1 f1.
    rewrite (rd_at _ (zlen pre + 1) c (pre ++ [37]) (fmt ++ r)); [|by lapp|zlr; lia]. run.
    destruct (fmt_conv_spec s1 t1 a1 bs x f1 c a args txt) as (s2 & t2 & a2 & y & r2 & -> & Hb2); [done|done|done|lia|]. run.
    destruct (IH fuel s2 t2 a2 (bs ++ txt) y r2 (pre ++ [37; c]) r Hb2)
      as (f3 & g3 & s3 & t3 & a3 & y3 & r3 & Hf3 & E3 & Hb3); [zlr; lia|lia|].
    fmt_close (zlen pre + 2) E3 Hb3.
  - destruct fuel as [|fuel]; [lia|]. cbn [fmt_loop].
    simpl in Hfuel. zlr. pose proof (zlen_nonneg out).
    rewrite (rd_at _ (zlen pre) 37 pre (c :: fmt ++ r)) by done. run.
    fmt_open Hb s1 t1 a1 f1.
    rewrite (rd_at _ (zlen pre + 1) c (pre ++ [37]) (fmt ++ r)); [|by lapp|zlr; lia]. run.
    rewrite fmt_conv_other by done.
    destruct (fmt_char_spec s1 t1 a1 bs x f1 c) as (s2 & y & r2 & -> & Hb2); [done..|]. run.
    destruct (IH fuel s2 t1 a1 (bs ++ [c]) y r2 (pre ++ [37; c]) r Hb2)
      as (f3 & g3 & s3 & t3 & a3 & y3 & r3 & Hf3 & E3 & Hb3); [zlr; lia|lia|].
    fmt_close (zlen pre + 2) E3 Hb3.
Qed.

Lemma fmt_loop_spec fmt args out fuel s t alloc bs x free r :
  fmt_ok fmt args out → buf s t alloc bs (x :: free) → zlen bs + zlen out + 1 < 2 ^ 62 → (length fmt < fuel)%nat →
  ∃ s' t' alloc' y free', fmt_loop fuel s (zlen bs) (fmt ++ 0 :: r) 0 args = Ret (s', zlen (bs ++ out)) ∧
    buf s' t' alloc' (bs ++ out) (y :: free').
Proof.
  intros Hf Hb Hn Hfuel.
  destruct (fmt_prefix _ _ _ Hf fuel s t alloc bs x free [] (0 :: r) Hb)
    as (f3 & g3 & s3 & t3 & a3 & y3 & r3 & Hf3 & E3 & Hb3); [done..|].
  change (zlen (@nil Z)) with 0 in E3. cbn [app] in E3. rewrite E3. destruct f3 as [|f3]; [lia|]. cbn [fmt_loop].
  rewrite (rd_at _ (zlen fmt) 0 fmt r) by done. run. eauto 10.
Qed.

Lemma rd_out b i : zlen b <= i → rd b i = Fault.
Proof. intros Hi. unfold rd. rewrite lookup_ge_None_2 by zl. by case_cond. Qed.

(** A [%] in front of the terminator: the terminator is taken for the
    directive, and the next round reads behind the block. *)
Lemma fmt_loop_percent fmt args out fuel s t alloc bs x free :
  fmt_ok fmt args out → buf s t alloc bs (x :: free) → zlen bs + zlen out + 1 < 2 ^ 62 → (length fmt + 1 < fuel)%nat →
  fmt_loop fuel s (zlen bs) (fmt ++ [37; 0]) 0 args = Fault.
Proof.
  intros Hf Hb Hn Hfuel. pose proof (zlen_nonneg bs). pose proof (zlen_nonneg out).
  destruct (fmt_prefix _ _ _ Hf fuel s t alloc bs x free [] [37; 0] Hb)
    as (f3 & g3 & s3 & t3 & a3 & y3 & r3 & Hf3 & E3 & Hb3); [done|lia|].
  change (zlen (@nil Z)) with 0 in E3. cbn [app] in E3. rewrite E3. destruct f3 as [|f3]; [lia|].
  cbn [fmt_loop]. rewrite (rd_at _ (zlen fmt) 37 fmt [0]) by done. run.
  assert (zlen (bs ++ out) + 1 < 2 ^ 62) by (zlr; lia).
  fmt_open Hb3 s4 t4 a4 f4.
  rewrite (rd_at _ (zlen fmt + 1) 0 (fmt ++ [37]) []); [|by lapp|zlr; lia]. run.
  rewrite fmt_conv_other by done.
  destruct (fmt_char_spec s4 t4 a4 (bs ++ out) y3 f4 0) as (s5 & y & r5 & -> & _); [done..|]. run.
  destruct f3 as [|f3]; [lia|]. cbn [fmt_loop].
  rewrite (rd_out _ (zlen fmt + 2)) by (zlr; lia). done.
Qed.

Lemma fmt_ok_nonzero fmt args out : fmt_ok fmt args out → 0 ∉ fmt.
Proof.
  induction 1 as [| |c a txt fmt args out Hc|]; rewrite ?not_elem_of_cons; [apply not_elem_of_nil|naive_solver| |naive_solver].
  split_and!; [done| |done]. by destruct Hc.
Qed.

Lemma sdscatfmt_spec s bs fmt r args out :
  rep s bs → fmt_ok fmt args out → zlen bs + 2 * zlen fmt + zlen out < 2 ^ 61 →
  ∃ s', sdscatfmt s (fmt ++ 0 :: r) args = Ret s' ∧ rep s' (bs ++ out).
Proof.
  intros Hrep Hf Hn. pose proof (zlen_nonneg bs). pose proof (zlen_nonneg fmt). pose proof (zlen_nonneg out).
  unfold sdscatfmt. rewrite (rep_len _ _ Hrep). run.
  rewrite strlen_app by (by eapply fmt_ok_nonzero). run. rewrite wrapu_id by lia.
  destruct Hrep as (t & alloc & free & Hb).
  destruct (sdsMakeRoomFor_spec _ _ _ _ _ _ (zlen fmt * 2) Hb) as (s1 & t1 & a1 & f1 & -> & Hb1 & _); [lia..|]. run.
  destruct (fmt_loop_spec _ _ _ (S (length (fmt ++ 0 :: r))) s1 t1 a1 bs 0 f1 r Hf Hb1)
    as (s2 & t2 & a2 & y & r2 & -> & Hb2); [lia|rewrite length_app; lia|]. run.
  apply buf_elim in Hb2 as [Hat Hr]. destruct (s_wr_at _ _ _ _ _ _ _ _ 0 Hat eq_refl) as (s3 & -> & Hat3); [by unfold is_byte|].
  exists s3. split; [done|]. by eapply sds_rep_intro.
Qed.

Lemma sdscatfmt_percent s bs fmt args out :
  rep s bs → fmt_ok fmt args out → zlen bs + 2 * zlen fmt + zlen out + 2 < 2 ^ 61 →
  sdscatfmt s (fmt ++ [37; 0]) args = Fault.
Proof.
  intros Hrep Hf Hn. pose proof (zlen_nonneg bs). pose proof (zlen_nonneg fmt). pose proof (zlen_nonneg out).
  unfold sdscatfmt. rewrite (rep_len _ _ Hrep). run.
  replace (fmt ++ [37; 0]) with ((fmt ++ [37]) ++ 0 :: []) by (by lapp). rewrite strlen_app.
  2: { rewrite not_elem_of_app. split; [by eapply fmt_ok_nonzero|]. set_solver. }
  run. rewrite wrapu_id by (zlr; lia). destruct Hrep as (t & alloc & free & Hb).
  destruct (sdsMakeRoomFor_spec _ _ _ _ _ _ (zlen (fmt ++ [37]) * 2) Hb) as (s1 & t1 & a1 & f1 & -> & Hb1 & _); [zlr; lia..|].
  run. lapp. by rewrite (fmt_loop_percent _ _ _ _ _ _ _ _ _ _ Hf Hb1); [|lia|rewrite length_app; simpl; lia].
Qed.

(** * Splitting and joining *)

Definition occurs_at (sep s : list Z) (j : Z) : Prop := ∃ a b, s = a ++ sep ++ b ∧ zlen a = j.

(** The pieces of [s] between the leftmost disjoint occurrences of [sep]. *)
Inductive splits (sep : list Z) : list Z → list (list Z) → Prop :=
| splits_last s : (∀ j, ¬ occurs_at sep s j) → splits sep s [s]
| splits_more p s ps :
    (∀ j, j < zlen p → ¬ occurs_at sep (p ++ sep ++ s) j) → splits sep s ps →
    splits sep (p ++ sep ++ s) (p :: ps).

Fixpoint join (sep : list Z) (ps : list (list Z)) : list Z :=
  match ps with
  | [] => []
  | p :: ps => p ++ match ps with [] => [] | _ => sep ++ join sep ps end
  end.

Lemma join_splits sep s ps : splits sep s ps → join sep ps = s.
Proof.
  induction 1 as [s|p s ps Hp Hs IH]; [apply app_nil_r|]. destruct Hs; simpl in *; by rewrite IH.
Qed.

Lemma memcmp_eq a b : zlen a = zlen b → (memcmp a b =? 0) = bool_decide (a = b).
Proof.
  revert b. induction a as [|x a IH]; intros [|y b] Hl; zlr; [done|pose proof (zlen_nonneg b); lia|pose proof (zlen_nonneg a); lia|].
  simpl. destruct (Z.eqb_spec x y) as [->|Hxy].
  - rewrite IH by lia. apply bool_decide_ext. naive_solver.
  - rewrite bool_decide_eq_false_2 by naive_solver. lia.
Qed.

Lemma sep_at_spec a rest sep j :
  zlen a = j → 0 < zlen sep <= zlen rest →
  ∃ b, sep_at (a ++ rest) j sep (zlen sep) = Ret b ∧ (b = true ↔ ∃ r, rest = sep ++ r).
Proof.
  intros Ha Hs. unfold sep_at. destruct (zsplit (zlen sep) rest) as (m & r & -> & Hm & _); [lia|].
  assert (Hex : (∃ r', m ++ r = sep ++ r') ↔ m = sep).
  { split; [intros (r' & E); by apply zapp_inj in E as [-> _]|intros ->; eauto]. }
  destruct (zlen_pos m) as (c & m' & Em); [lia|]. destruct (zlen_pos sep) as (c0 & s' & Es); [lia|].
  rewrite (rd_at _ j c a (m' ++ r)) by (subst; done). run.
  rewrite (rd_at sep 0 c0 [] s') by done. run.
  destruct ((zlen sep =? 1) && (c =? c0)) eqn:E.
  - exists true. split; [done|]. rewrite Hex. split; [|done]. intros _.
    rewrite Em, Es in *. zlr. rewrite (zlen_zero m'), (zlen_zero s') by lia. f_equal. lia.
  - rewrite (rdn_app a m r) by lia. run. rewrite rdn_all by done. run. eexists. split; [done|].
    rewrite memcmp_eq by done. rewrite bool_decide_eq_true. by rewrite Hex.
Qed.

(** What the loop has established when it stops. *)
(** The number of slots before it would not fit an [int]. *)
Definition MAX_SLOTS : Z := 5 * 2 ^ 28.

Definition split_done (sep s : list Z) (total : list Z) (slots : Z) (tokens : list sds)
    (out : outcome (Z * Z * list sds)) : Prop :=
  ∃ a' slots' tks ps last, out = Ret (zlen a', slots', tokens ++ tks) ∧
    Forall2 rep tks ps ∧ splits sep s (ps ++ [last]) ∧ total = a' ++ last ∧
    zlen (tokens ++ tks) < slots' <= MAX_SLOTS.

Lemma split_done_push sep p r total slots slots0 tokens t out :
  rep t p → (∀ j, j < zlen p → ¬ occurs_at sep (p ++ sep ++ r) j) →
  split_done sep r total slots (tokens ++ [t]) out →
  split_done sep (p ++ sep ++ r) total slots0 tokens out.
Proof.
  intros Ht Hno (a' & slots' & tks & ps & last & -> & HF & Hsp & -> & Hs & Hs').
  exists a', slots', (t :: tks), (p :: ps), last. rewrite <- app_assoc in *. split_and!; [done|by constructor| |done..].
  by constructor.
Qed.

Lemma no_occurs_step sep p c rest :
  (∀ j, j < zlen p → ¬ occurs_at sep (p ++ c :: rest) j) → ¬ (∃ r, c :: rest = sep ++ r) →
  ∀ j, j < zlen (p ++ [c]) → ¬ occurs_at sep ((p ++ [c]) ++ rest) j.
Proof.
  intros Hno Hc j Hj (x & y & E & Hx). rewrite <- app_assoc in E. zlr.
  destruct (decide (j < zlen p)) as [Hlt|Hge]; [apply (Hno j Hlt); by exists x, y|].
  apply zapp_inj in E as [-> E]; [eauto|lia].
Qed.

Lemma splits_nonempty sep s ps : splits sep s ps → 0 < zlen ps.
Proof. destruct 1; zlr; [lia|]. pose proof (zlen_nonneg ps). lia. Qed.

(** The first piece ends where the separator is found first. *)
Lemma splits_first sep p r ps :
  sep ≠ [] → (∀ j, j < zlen p → ¬ occurs_at sep (p ++ sep ++ r) j) → splits sep (p ++ sep ++ r) ps →
  ∃ ps', ps = p :: ps' ∧ splits sep r ps'.
Proof.
  intros Hsep Hno Hs. remember (p ++ sep ++ r) as s eqn:E. destruct Hs as [s Hn|p' s ps Hp Hs].
  { subst s. destruct (Hn (zlen p)). by exists p, r. }
  destruct (Z.lt_trichotomy (zlen p') (zlen p)) as [Hlt|[Heq|Hgt]].
  - destruct (Hno (zlen p') Hlt). by exists p', s.
  - apply zapp_inj in E as [-> E]; [|done]. apply app_inv_head in E as ->. eauto.
  - destruct (Hp (zlen p) Hgt). rewrite E. by exists p, r.
Qed.

Lemma splits_fun sep s ps qs : sep ≠ [] → splits sep s ps → splits sep s qs → ps = qs.
Proof.
  intros Hsep Hs. revert qs. induction Hs as [s Hn|p s ps Hp Hs IH]; intros qs Hq.
  - destruct Hq as [|q r rs Hq Hr]; [done|]. destruct (Hn (zlen q)). by exists q, r.
  - destruct (splits_first sep p s qs Hsep Hp Hq) as (qs' & -> & Hq'). f_equal. by apply IH.
Qed.

Lemma first_occurrence sep s : sep ≠ [] →
  (∃ p r, s = p ++ sep ++ r ∧ ∀ j, j < zlen p → ¬ occurs_at sep s j) ∨ ∀ j, ¬ occurs_at sep s j.
Proof.
  intros Hsep. induction s as [|c s IH].
  { right. intros j (a & b & E & _). destruct a, sep; done. }
  destruct (decide (sep `prefix_of` c :: s)) as [[r E]|Hno].
  { left. exists [], r. split; [done|]. intros j Hj (a & b & _ & Ha). pose proof (zlen_nonneg a). change (zlen (@nil Z)) with 0 in Hj. lia. }
  assert (Hstep : ∀ j, occurs_at sep (c :: s) j → occurs_at sep s (j - 1)).
  { intros j (a & b & E & Ha). destruct a as [|c' a]; [destruct Hno; by exists b|]. injection E as <- E.
    exists a, b. split; [done|]. revert Ha. zlr. lia. }
  destruct IH as [(p & r & -> & Hp)|Hn]; [left|right; intros j Hj; by apply (Hn (j - 1)), Hstep].
  exists (c :: p), r. split; [done|]. intros j Hj Ho. apply (Hp (j - 1)); [revert Hj; zlr; lia|by apply Hstep].
Qed.

Lemma splits_total sep s : sep ≠ [] → ∃ ps, splits sep s ps.
Proof.
  intros Hsep. induction s as [s IH] using (induction_ltof1 _ (@length Z)). unfold ltof in IH.
  destruct (first_occurrence sep s Hsep) as [(p & r & -> & Hp)|Hn]; [|exists [s]; by constructor].
  destruct (IH r) as [ps Hps]; [rewrite !length_app; destruct sep; [done|simpl; lia]|]. exists (p :: ps). by constructor.
Qed.

Lemma grow_slots_spec k slots n : 0 <= k <= 28 → slots = 5 * 2 ^ k → 0 <= n < slots →
  (∃ k', 0 <= k' <= 28 ∧ grow_slots slots n = Ret (5 * 2 ^ k') ∧ n + 2 <= 5 * 2 ^ k') ∨
  grow_slots slots n = Panic ∧ MAX_SLOTS <= n + 1.
Proof.
  intros Hk -> Hn. assert (2 ^ k <= 2 ^ 28) by (apply Z.pow_le_mono_r; lia). unfold grow_slots. rewrite (wraps_id 32) by (simpl; lia).
  destruct (Z.ltb_spec (5 * 2 ^ k) (n + 2)) as [Hg|Hg]; [|left; by exists k]. unfold realloc_pointers.
  destruct (decide (k = 28)) as [->|Hk28].
  - right. change (s32 (5 * 2 ^ 28 * 2)) with (-1610612736). split; [done|]. unfold MAX_SLOTS. lia.
  - left. assert (2 ^ k * 2 = 2 ^ (k + 1)) as E by (rewrite Z.pow_add_r by lia; lia).
    assert (2 ^ (k + 1) <= 2 ^ 28) by (apply Z.pow_le_mono_r; lia). rewrite <- Z.mul_assoc, E.
    rewrite wraps_id by (simpl; lia). pose proof (Z.pow_pos_nonneg 2 (k + 1)). test (5 * 2 ^ (k + 1) <? 0) false.
    exists (k + 1). split_and!; [lia..|done|lia].
Qed.

(** The next round of the loop in the form of the induction hypothesis. *)
Ltac step_to t :=
  match goal with |- context [split_loop ?f ?x ?l ?sep ?n ?j ?st ?sl ?tk] =>
    replace (split_loop f x l sep n j st sl tk) with t by (zlr; f_equal; [by lapp|lia..]) end.

Lemma split_loop_spec sep fuel a p rest k slots tokens :
  0 < zlen sep → zlen (a ++ p ++ rest) < 2 ^ 62 → (length rest < fuel)%nat → 0 <= k <= 28 → slots = 5 * 2 ^ k → zlen tokens < slots →
  (∀ j, j < zlen p → ¬ occurs_at sep (p ++ rest) j) →
  let out := split_loop fuel (a ++ p ++ rest) (zlen (a ++ p ++ rest)) sep (zlen sep) (zlen a + zlen p) (zlen a) slots tokens in
  split_done sep (p ++ rest) (a ++ p ++ rest) slots tokens out ∨
  out = Panic ∧ ∀ ps, splits sep (p ++ rest) ps → MAX_SLOTS <= zlen tokens + zlen ps.
Proof.
  intros Hsep. assert (sep ≠ []) as Hsep0 by (intros ->; done).
  revert a p rest k slots tokens. induction fuel as [|fuel IH]; intros a p rest k slots tokens Hlen Hf Hk Hsk Hsl Hno out; [lia|].
  unfold out. cbn [split_loop]. pose proof (zlen_nonneg a). pose proof (zlen_nonneg p). pose proof (zlen_nonneg rest). pose proof (zlen_nonneg tokens).
  assert (2 ^ k <= 2 ^ 28) by (apply Z.pow_le_mono_r; lia).
  destruct (_ <? _ - _) eqn:E.
  2:{ left. exists a, slots, [], [], (p ++ rest). rewrite app_nil_r. split_and!; [done|constructor| |done..|unfold MAX_SLOTS; lia]. zlr.
      constructor. intros j (x & y & Ex & Hx). apply (Hno j); [|by exists x, y].
      apply (f_equal zlen) in Ex. zlr. pose proof (zlen_nonneg y). lia. }
  zlr. destruct (grow_slots_spec k slots (zlen tokens) Hk Hsk) as [(k' & Hk' & -> & Hsl1)|[-> Hfull]]; [lia| |].
  2:{ right. split; [done|]. intros ps Hps%splits_nonempty. lia. }
  run. set (slots1 := 5 * 2 ^ k') in *.
  destruct (sep_at_spec (a ++ p) rest sep (zlen a + zlen p)) as (b & Eb & Hb); [zlr; lia|lia|].
  rewrite <- app_assoc in Eb. rewrite Eb. run. destruct b.
  - destruct Hb as [[r ->] _]; [done|].
    rewrite (rdn_app a p (sep ++ r)) by lia. run.
    destruct (sdsnew_bytes p [] (zlen a + zlen p - zlen a)) as (t & Et & Ht); [lia|lia|].
    rewrite app_nil_r in Et. rewrite Et. run. unfold put_token. test (zlen tokens <? slots1) true. run.
    step_to (split_loop fuel ((a ++ p ++ sep) ++ [] ++ r) (zlen ((a ++ p ++ sep) ++ [] ++ r)) sep (zlen sep)
      (zlen (a ++ p ++ sep) + zlen (@nil Z)) (zlen (a ++ p ++ sep)) slots1 (tokens ++ [t])).
    destruct (IH (a ++ p ++ sep) [] r k' slots1 (tokens ++ [t])) as [Hd|[Hp Hps]].
    + zlr. lia.
    + rewrite length_app in Hf. zl.
    + done.
    + done.
    + zlr. lia.
    + intros j Hj (x & y & _ & Hx). rewrite zlen_nil in Hj. pose proof (zlen_nonneg x). lia.
    + left. apply (split_done_push _ _ _ _ slots1 _ _ t); [done..|]. cbn [app] in Hd |- *. by rewrite <- !app_assoc in Hd |- *.
    + right. split; [exact Hp|]. intros ps Hs. destruct (splits_first sep p r ps Hsep0 Hno Hs) as (ps' & -> & Hs').
      specialize (Hps ps' Hs'). zlr. lia.
  - destruct (zlen_pos rest) as (c & rest' & ->); [lia|].
    step_to (split_loop fuel (a ++ (p ++ [c]) ++ rest') (zlen (a ++ (p ++ [c]) ++ rest')) sep (zlen sep)
      (zlen a + zlen (p ++ [c])) (zlen a) slots1 tokens).
    replace (p ++ c :: rest') with ((p ++ [c]) ++ rest') by (by lapp).
    destruct (IH a (p ++ [c]) rest' k' slots1 tokens) as [Hd|Hp].
    + zlr. lia.
    + simpl in Hf. lia.
    + done.
    + done.
    + lia.
    + apply no_occurs_step; [done|]. intros Hr. by apply Hb in Hr.
    + left. exact Hd.
    + right. exact Hp.
Qed.

Lemma sdssplitlen_spec s sep :
  s ≠ [] → sep ≠ [] → zlen s < 2 ^ 62 →
  (∃ tokens ps, sdssplitlen s (zlen s) sep (zlen sep) = Ret (Some tokens) ∧ splits sep s ps ∧ Forall2 rep tokens ps ∧ zlen ps <= MAX_SLOTS) ∨
  sdssplitlen s (zlen s) sep (zlen sep) = Panic ∧ ∀ ps, splits sep s ps → MAX_SLOTS <= zlen ps.
Proof.
  intros Hs Hsep Hlen. unfold sdssplitlen.
  assert (0 < zlen s) by (destruct s; [done|zl]). assert (0 < zlen sep) by (destruct sep; [done|zl]).
  test ((zlen sep <? 1) || (zlen s <? 0)) false. test (zlen s =? 0) false.
  destruct (split_loop_spec sep (S (Z.to_nat (zlen s))) [] [] s 0 5 []) as [(a' & sl & tks & ps & last & E & HF & Hsp & Et & Hsl & Hmax)|[E Hps]];
    [done|done|zl|done|done|done| | |].
  { intros j Hj (x & y & _ & Hx). rewrite zlen_nil in Hj. pose proof (zlen_nonneg x). lia. }
  2:{ right. cbn [app] in *. change (zlen (@nil Z)) with 0 in E. change (0 + 0) with 0 in E. rewrite E. by split. }
  left.
  cbn [app] in *. change (zlen (@nil Z)) with 0 in E. change (0 + 0) with 0 in E. rewrite E. run.
  pose proof (f_equal zlen Et) as Hz. zlr.
  rewrite (rdn_at s (zlen a') (zlen s - zlen a') last a' []); [|by rewrite app_nil_r|done|lia]. run.
  pose proof (zlen_nonneg a').
  destruct (sdsnew_bytes last [] (zlen s - zlen a')) as (t & Ent & Ht); [lia|lia|].
  rewrite app_nil_r in Ent. rewrite Ent. run. unfold put_token. test (zlen tks <? sl) true. run.
  exists (tks ++ [t]), (ps ++ [last]). split_and!; [done|done| |].
  { apply Forall2_app; [done|]. by constructor. }
  apply Forall2_length in HF. revert Hsl. zlr. unfold zlen. rewrite HF. lia.
Qed.

Lemma joinsds_loop_spec s acc argv ps sep rest :
  rep s acc → Forall2 rep argv ps → zlen acc + zlen (join sep ps) < 2 ^ 62 →
  ∃ s', joinsds_loop s argv (sep ++ rest) (zlen sep) = Ret s' ∧ rep s' (acc ++ join sep ps).
Proof.
  intros Hs HF. revert s acc Hs. induction HF as [|a p argv ps Ha HF IH]; intros s acc Hs Hn.
  { exists s. simpl. by rewrite app_nil_r. }
  cbn [joinsds_loop join] in *. zlr. unfold sdscatsds. rewrite (rep_len _ _ Ha). run. rewrite (rep_read _ _ Ha). run.
  set (tl := match ps with [] => [] | _ => sep ++ join sep ps end) in *. pose proof (zlen_nonneg tl).
  destruct (sdscatlen_spec s acc p [] (zlen p) Hs) as (s1 & E1 & Hs1); [done|lia|].
  rewrite app_nil_r in E1. rewrite E1. run. destruct HF as [|a' p' argv ps Ha' HF].
  - run. exists s1. unfold tl. by rewrite app_nil_r.
  - unfold tl in *. zlr. pose proof (zlen_nonneg (join sep (p' :: ps))).
    destruct (sdscatlen_spec s1 (acc ++ p) sep rest (zlen sep) Hs1) as (s2 & -> & Hs2); [done|zlr; lia|]. run.
    destruct (IH s2 ((acc ++ p) ++ sep) Hs2) as (s3 & -> & Hs3); [zlr; lia|].
    exists s3. split; [done|]. revert Hs3. by rewrite <- !app_assoc.
Qed.

Lemma sdsjoinsds_spec argv ps sep rest :
  Forall2 rep argv ps → zlen (join sep ps) < 2 ^ 62 →
  ∃ s, sdsjoinsds argv (sep ++ rest) (zlen sep) = Ret s ∧ rep s (join sep ps).
Proof.
  intros HF Hn. unfold sdsjoinsds. destruct sdsempty_spec as (s0 & -> & Hs0). run.
  by apply (joinsds_loop_spec s0 [] argv ps sep rest).
Qed.

Lemma sdscat_spec s bs t r :
  rep s bs → 0 ∉ t → zlen bs + zlen t < 2 ^ 62 →
  ∃ s', sdscat s (t ++ 0 :: r) = Ret s' ∧ rep s' (bs ++ t).
Proof. intros Hs Ht Hn. unfold sdscat. rewrite strlen_app by done. run. by apply sdscatlen_spec. Qed.

Lemma join_loop_spec s acc ps sep rest :
  rep s acc → Forall (λ p, 0 ∉ p) ps → 0 ∉ sep → zlen acc + zlen (join sep ps) < 2 ^ 62 →
  ∃ s', join_loop s ((λ p, p ++ [0]) <$> ps) (sep ++ 0 :: rest) = Ret s' ∧ rep s' (acc ++ join sep ps).
Proof.
  intros Hs HF Hsep. revert s acc Hs. induction HF as [|p ps Hp HF IH]; intros s acc Hs Hn.
  { exists s. simpl. by rewrite app_nil_r. }
  cbn [fmap list_fmap join_loop join] in *. zlr.
  set (tl := match ps with [] => [] | _ => sep ++ join sep ps end) in *. pose proof (zlen_nonneg tl).
  destruct (sdscat_spec s acc p [] Hs Hp) as (s1 & -> & Hs1); [lia|]. run. destruct HF as [|p' ps Hp' HF].
  - run. exists s1. unfold tl. by rewrite app_nil_r.
  - unfold tl in *. zlr. pose proof (zlen_nonneg (join sep (p' :: ps))). cbn [fmap list_fmap].
    destruct (sdscat_spec s1 (acc ++ p) sep rest Hs1 Hsep) as (s2 & -> & Hs2); [zlr; lia|]. run.
    destruct (IH s2 ((acc ++ p) ++ sep) Hs2) as (s3 & E & Hs3); [zlr; lia|].
    exists s3. split; [exact E|]. revert Hs3. by rewrite <- !app_assoc.
Qed.

(** * Quoted strings *)

(** What [sdscatrepr] writes for a character. *)
Definition esc (c : Z) : list Z :=
  if (c =? 92) || (c =? 34) then [92; c]
  else if c =? 10 then [92; 110]
  else if c =? 13 then [92; 114]
  else if c =? 9 then [92; 116]
  else if c =? 7 then [92; 97]
  else if c =? 8 then [92; 98]
  else if isprint (s8 c) then [c]
  else [92; 120] ++ fmt_02x c.

Definition repr (bs : list Z) : list Z := 34 :: (bs ≫= esc) ++ [34].

(** The buffer for [printf] is large enough for these formats at once. *)
Lemma sdscatprintf_spec s bs fmt out :
  rep s bs → 0 ∉ fmt → zlen fmt <= 512 → zlen out < 1024 → zlen bs + zlen out < 2 ^ 62 →
  ∃ s', sdscatprintf s (fmt ++ [0]) out = Ret s' ∧ rep s' (bs ++ out).
Proof.
  intros Hs Hf Hl Ho Hn. pose proof (zlen_nonneg fmt). pose proof (zlen_nonneg out).
  unfold sdscatprintf, sdscatvprintf. rewrite strlen_app by done. run. rewrite wrapu_id by lia.
  test (1024 <? zlen fmt * 2) false. run. cbn [vprintf_loop]. unfold vsnprintf.
  assert (Hb : zlen (junk 1024) = 1024) by (apply (zlen_zmalloc 1024); lia).
  rewrite take_ge by zl.
  destruct (zsplit (zlen out + 1) (junk 1024)) as (m & r & -> & Hm & _); [lia|].
  rewrite (wrn_app0 m r (out ++ [0])) by (zlr; lia). run. test (1024 <=? zlen out) false. run.
  rewrite <- app_assoc. by apply sdscatlen_spec.
Qed.

Lemma zlen_esc c : 1 <= zlen (esc c) <= 4.
Proof. unfold esc. repeat case_cond; by vm_compute. Qed.

Lemma repr_step s bs c :
  rep s bs → zlen bs + 4 < 2 ^ 62 →
  ∃ s', repr_loop s [c] = Ret s' ∧ rep s' (bs ++ esc c).
Proof.
  intros Hs Hn. pose proof (zlen_esc c). cbn [repr_loop]. unfold esc in *.
  assert (Hcat : ∀ t, zlen t = 2 → ∃ s', sdscatlen s t 2 = Ret s' ∧ rep s' (bs ++ t)).
  { intros t Ht. pose proof (sdscatlen_spec s bs t [] 2 Hs Ht ltac:(lia)) as Hc. by rewrite app_nil_r in Hc. }
  assert (Hpr : ∀ fmt t, 0 ∉ fmt → zlen fmt <= 512 → zlen t <= 4 → ∃ s', sdscatprintf s (fmt ++ [0]) t = Ret s' ∧ rep s' (bs ++ t)).
  { intros fmt t Hf Hf' Ht. apply sdscatprintf_spec; [done..|lia|lia]. }
  destruct ((c =? 92) || (c =? 34)).
  { destruct (Hpr (cstr "\%c") [92; c]) as (s1 & -> & Hs1); [set_solver|done|done|]. run. eauto. }
  destruct (c =? 10); [destruct (Hcat (cstr "\n")) as (s1 & -> & Hs1); [done|]; run; eauto|].
  destruct (c =? 13); [destruct (Hcat (cstr "\r")) as (s1 & -> & Hs1); [done|]; run; eauto|].
  destruct (c =? 9); [destruct (Hcat (cstr "\t")) as (s1 & -> & Hs1); [done|]; run; eauto|].
  destruct (c =? 7); [destruct (Hcat (cstr "\a")) as (s1 & -> & Hs1); [done|]; run; eauto|].
  destruct (c =? 8); [destruct (Hcat (cstr "\b")) as (s1 & -> & Hs1); [done|]; run; eauto|].
  destruct (isprint (s8 c)).
  - destruct (Hpr (cstr "%c") [c]) as (s1 & -> & Hs1); [set_solver|done|done|]. run. eauto.
  - destruct (Hpr (cstr "\x%02x") (cstr "\x" ++ fmt_02x c)) as (s1 & -> & Hs1); [set_solver|done|done|]. run. eauto.
Qed.

Lemma repr_loop_cons s c p :
  repr_loop s (c :: p) = (s ← repr_loop s [c]; repr_loop s p).
Proof. cbn [repr_loop]. rewrite bind_assoc. apply bind_ext. intros; by run. Qed.

Lemma repr_loop_spec s bs p :
  rep s bs → zlen bs + 4 * zlen p + 4 < 2 ^ 62 →
  ∃ s', repr_loop s p = Ret s' ∧ rep s' (bs ++ (p ≫= esc)).
Proof.
  revert s bs. induction p as [|c p IH]; intros s bs Hs Hn; [exists s; simpl; by rewrite app_nil_r|].
  zlr. pose proof (zlen_nonneg p). pose proof (zlen_esc c). rewrite repr_loop_cons.
  destruct (repr_step s bs c Hs) as (s1 & -> & Hs1); [lia|]. run.
  destruct (IH s1 (bs ++ esc c) Hs1) as (s2 & -> & Hs2); [zlr; lia|].
  exists s2. split; [done|]. by rewrite bind_cons, app_assoc.
Qed.

Lemma zlen_escs p : zlen p <= zlen (p ≫= esc) <= 4 * zlen p.
Proof.
  induction p as [|c p IH]; [done|]. rewrite bind_cons. zlr. pose proof (zlen_esc c). lia.
Qed.

Lemma sdscatrepr_spec s bs p rest :
  rep s bs → zlen bs + 4 * zlen p + 8 < 2 ^ 62 →
  ∃ s', sdscatrepr s (p ++ rest) (zlen p) = Ret s' ∧ rep s' (bs ++ repr p).
Proof.
  intros Hs Hn. pose proof (zlen_nonneg p). pose proof (zlen_escs p). unfold sdscatrepr, repr.
  destruct (sdscatlen_spec s bs [34] [] 1 Hs) as (s1 & E1 & Hs1); [done|lia|]. simpl app in E1. rewrite E1. run.
  rewrite rdn_app0 by done. run. destruct (repr_loop_spec s1 (bs ++ [34]) p Hs1) as (s2 & -> & Hs2); [zlr; lia|]. run.
  destruct (sdscatlen_spec s2 _ [34] [] 1 Hs2) as (s3 & E3 & Hs3); [done|zlr; lia|].
  exists s3. split; [exact E3|]. revert Hs3. by lapp.
Qed.

(** * Parsing quoted strings *)

Lemma catlen1 s bs c :
  rep s bs → zlen bs + 1 < 2 ^ 62 → ∃ s', sdscatlen s [c] 1 = Ret s' ∧ rep s' (bs ++ [c]).
Proof. intros Hs Hn. by apply (sdscatlen_spec s bs [c] []). Qed.

Lemma hex_char_ok d : 0 <= d < 16 → is_hex_digit (hex_char d) = true ∧ hex_digit_to_int (hex_char d) = d.
Proof.
  intros Hd. assert (Hall : Forall (λ d, is_hex_digit (hex_char d) = true ∧ hex_digit_to_int (hex_char d) = d) (seqZ 0 16)).
  { repeat constructor. }
  rewrite Forall_forall in Hall. apply Hall, elem_of_seqZ. lia.
Qed.

(** One escaped character is read in one round. *)
Lemma inq_step_esc pre c post s acc :
  is_byte c → rep s acc → zlen acc + 1 < 2 ^ 62 →
  ∃ s', inq_step (pre ++ esc c ++ post) (zlen pre) s = Ret (Some (zlen pre + zlen (esc c) - 1, s', false)) ∧
    rep s' (acc ++ [c]) ∧ last (esc c) ≠ Some 0.
Proof.
  intros Hc Hs Hn. unfold is_byte in Hc. destruct (catlen1 s acc c Hs Hn) as (s' & E & Hs'). exists s'.
  assert (Hpair : ∀ x, unescape x = c → x ≠ 0 → x ≠ 120 →
    inq_step (pre ++ [92; x] ++ post) (zlen pre) s = Ret (Some (zlen pre + 1, s', false))).
  { intros x Hx H0 H120. unfold inq_step, hex_escape.
    rewrite (rd_at _ (zlen pre) 92 pre (x :: post)) by done. run. cbn [cand Z.eqb Pos.eqb].
    rewrite (rd_at _ (zlen pre + 1) x (pre ++ [92]) post); [|by lapp|zlr; lia]. run.
    test (x =? 120) false. test (x =? 0) false. cbn [cand negb]. run. rewrite Hx, E. by run. }
  assert (Hpair' : ∀ x, unescape x = c → x ≠ 0 → x ≠ 120 →
    inq_step (pre ++ [92; x] ++ post) (zlen pre) s = Ret (Some (zlen pre + zlen [92; x] - 1, s', false))).
  { intros x Hx H0 H120. rewrite Hpair by done. change (zlen [92; x]) with 2.
    by replace (zlen pre + 2 - 1) with (zlen pre + 1) by lia. }
  unfold esc. destruct ((c =? 92) || (c =? 34)) eqn:E1.
  { split_and!; [|done|simpl; intros [= ?]; lia]. apply Hpair'; [|lia..].
    unfold unescape. repeat case_cond; lia. }
  destruct (c =? 10) eqn:E2; [split_and!; [apply Hpair'; [unfold unescape; simpl; lia|done..]|done..]|].
  destruct (c =? 13) eqn:E3; [split_and!; [apply Hpair'; [unfold unescape; simpl; lia|done..]|done..]|].
  destruct (c =? 9) eqn:E4; [split_and!; [apply Hpair'; [unfold unescape; simpl; lia|done..]|done..]|].
  destruct (c =? 7) eqn:E5; [split_and!; [apply Hpair'; [unfold unescape; simpl; lia|done..]|done..]|].
  destruct (c =? 8) eqn:E6; [split_and!; [apply Hpair'; [unfold unescape; simpl; lia|done..]|done..]|].
  destruct (isprint (s8 c)) eqn:E7.
  - assert (c ≠ 0) by (intros ->; done). split_and!; [|done|simpl; congruence].
    unfold inq_step, hex_escape. rewrite (rd_at _ (zlen pre) c pre post) by done. run.
    test (c =? 92) false. test (c =? 34) false. test (c =? 0) false. cbn [cand]. run. rewrite E. run.
    change (zlen [c]) with 1. by replace (zlen pre + 1 - 1) with (zlen pre) by lia.
  - unfold fmt_02x. dm c 16. destruct (hex_char_ok (c / 16)) as [Hh1 Hv1]; [lia|].
    destruct (hex_char_ok (c mod 16)) as [Hh2 Hv2]; [lia|]. simpl app.
    split_and!; [|done|simpl; intros [= E0]; rewrite E0 in Hh2; done].
    unfold inq_step, hex_escape.
    rewrite (rd_at _ (zlen pre) 92 pre (120 :: hex_char (c / 16) :: hex_char (c mod 16) :: post)) by done. run. cbn [cand Z.eqb Pos.eqb].
    rewrite (rd_at _ (zlen pre + 1) 120 (pre ++ [92]) (hex_char (c / 16) :: hex_char (c mod 16) :: post)); [|by lapp|zlr; lia]. run. cbn [cand Z.eqb Pos.eqb].
    rewrite (rd_at _ (zlen pre + 2) (hex_char (c / 16)) (pre ++ [92; 120]) (hex_char (c mod 16) :: post)); [|by lapp|zlr; lia]. run.
    rewrite Hh1. cbn [cand].
    rewrite (rd_at _ (zlen pre + 3) (hex_char (c mod 16)) (pre ++ [92; 120; hex_char (c / 16)]) post); [|by lapp|zlr; lia]. run.
    rewrite Hh2. run. rewrite Hv1, Hv2, wrapu_id by lia.
    replace (c / 16 * 16 + c mod 16) with c by lia. rewrite E. run.
    do 4 f_equal. zlr. lia.
Qed.

Lemma advance_at a x post p : zlen a = p → x ≠ 0 → advance (a ++ x :: post) p = Ret (p + 1).
Proof. intros Ha Hx. unfold advance. rewrite (rd_app a) by done. run. by test (x =? 0) false. Qed.

(** A quoted string is followed by a blank or the end of the line. *)
Definition ends (z : Z) : Prop := z = 0 ∨ isspace (s8 z) = true.

Lemma quoted_loop_spec fuel p pre z post s acc :
  bytes_ok p → rep s acc → zlen acc + zlen p + 1 < 2 ^ 62 → ends z → (length p < fuel)%nat →
  ∃ s', token_loop fuel (pre ++ (p ≫= esc) ++ 34 :: z :: post) (zlen pre) true false s =
      Ret (Some (zlen pre + zlen (p ≫= esc) + 1, s')) ∧ rep s' (acc ++ p).
Proof.
  intros Hp. revert fuel pre s acc. induction Hp as [|c p Hc Hp IH]; intros fuel pre s acc Hs Hn Hz Hf;
    (destruct fuel as [|fuel]; [lia|]); cbn [token_loop orb].
  - exists s. rewrite app_nil_r. split; [|done]. simpl app. change (zlen ([] ≫= esc)) with 0. unfold inq_step, hex_escape, closes.
    rewrite (rd_at _ (zlen pre) 34 pre (z :: post)) by done. run. cbn [cand Z.eqb Pos.eqb]. run.
    rewrite (rd_at _ (zlen pre + 1) z (pre ++ [34]) post); [|by lapp|zlr; lia]. run.
    replace ((z =? 0) || isspace (s8 z)) with true by (destruct Hz as [->| ->]; [done|by rewrite orb_true_r]). run.
    rewrite (advance_at pre 34) by done. run. by rewrite Z.add_0_r.
  - rewrite bind_cons, <- app_assoc. zlr. pose proof (zlen_nonneg p). pose proof (zlen_esc c).
    destruct (inq_step_esc pre c ((p ≫= esc) ++ 34 :: z :: post) s acc Hc Hs) as (s1 & -> & Hs1 & Hlast); [lia|]. run.
    destruct (esc c) as [|y e _] eqn:Ee using rev_ind; [change (zlen (@nil Z)) with 0 in *; lia|].
    rewrite last_snoc in Hlast. zlr.
    replace (pre ++ (e ++ [y]) ++ (p ≫= esc) ++ 34 :: z :: post) with ((pre ++ e) ++ y :: (p ≫= esc) ++ 34 :: z :: post) by (by lapp).
    rewrite advance_at; [|zlr; lia|congruence]. run.
    destruct (IH fuel (pre ++ e ++ [y]) s1 (acc ++ [c]) Hs1) as (s2 & E & Hs2); [zlr; lia|done|simpl in Hf; lia|].
    exists s2. split; [|revert Hs2; by lapp]. revert E. lapp. zlr. intros E.
    replace (zlen pre + (zlen e + (1 + 0)) - 1 + 1) with (zlen pre + (zlen e + (1 + 0))) by lia.
    rewrite E. do 3 f_equal. lia.
Qed.

(** One token: the opening quote, then the loop above. *)
Lemma repr_token fuel p pre z post s :
  bytes_ok p → rep s [] → zlen p + 1 < 2 ^ 62 → ends z → (S (length p) < fuel)%nat →
  ∃ s', token_loop fuel (pre ++ repr p ++ z :: post) (zlen pre) false false s =
      Ret (Some (zlen pre + zlen (repr p), s')) ∧ rep s' p.
Proof.
  intros Hp Hs Hn Hz Hf. destruct fuel as [|fuel]; [lia|]. cbn [token_loop orb]. unfold repr.
  rewrite (rd_at _ (zlen pre) 34 pre (((p ≫= esc) ++ [34]) ++ z :: post)) by done. run. cbn [Z.eqb Pos.eqb orb app]. run.
  rewrite (advance_at pre 34) by done. run.
  destruct (quoted_loop_spec fuel p (pre ++ [34]) z post s [] Hp Hs) as (s' & E & Hs'); [zlr; lia|done|lia|].
  exists s'. split; [|done]. revert E. zlr. lapp. intros E.
  replace (zlen pre + 1) with (zlen pre + (1 + 0)) by lia. rewrite E. do 3 f_equal. lia.
Qed.

(** The line with the quoted forms of [args], one blank between them. *)
Definition quoted_line (args : list (list Z)) : list Z := join [32] (repr <$> args).

Lemma skip_blank_spec fuel pre b c post :
  (b = [] ∨ b = [32]) → isspace (s8 c) = false → (1 < fuel)%nat →
  skip_blanks fuel (pre ++ b ++ c :: post) (zlen pre) = Ret (zlen (pre ++ b)).
Proof.
  intros Hb Hc Hf. destruct fuel as [|[|fuel]]; [lia..|].
  assert (Hstop : ∀ f a, skip_blanks (S f) (a ++ c :: post) (zlen a) = Ret (zlen a)).
  { intros f a. cbn [skip_blanks]. rewrite (rd_app a) by done. run. by rewrite Hc, andb_false_r. }
  destruct Hb as [->| ->]; [by rewrite app_nil_r, Hstop|].
  change (skip_blanks (S (S fuel)) (pre ++ [32] ++ c :: post) (zlen pre)) with
    (c0 ← rd (pre ++ [32] ++ c :: post) (zlen pre);
     if negb (c0 =? 0) && isspace (s8 c0) then skip_blanks (S fuel) (pre ++ [32] ++ c :: post) (zlen pre + 1) else Ret (zlen pre)).
  rewrite (rd_at _ (zlen pre) 32 pre (c :: post)) by done. run. change (negb (32 =? 0) && isspace (s8 32)) with true. cbn match.
  replace (zlen pre + 1) with (zlen (pre ++ [32])) by (zlr; lia).
  replace (pre ++ [32] ++ c :: post) with ((pre ++ [32]) ++ c :: post) by (by lapp). apply Hstop.
Qed.

Lemma quoted_line_cons a args :
  quoted_line (a :: args) = repr a ++ match args with [] => [] | _ => [32] ++ quoted_line args end.
Proof. by destruct args. Qed.

Lemma args_loop_spec fuel pre b args vec :
  (b = [] ∨ b = [32]) → (args = [] → b = []) → Forall bytes_ok args →
  zlen (quoted_line args) + 1 < 2 ^ 62 → (length args < fuel)%nat → zlen vec < 2 ^ 31 →
  let out := args_loop fuel (pre ++ b ++ quoted_line args ++ [0]) (zlen pre) vec in
  (zlen vec + zlen args < 2 ^ 31 → ∃ toks, out = Ret (Some (vec ++ toks)) ∧ Forall2 rep toks args) ∧
  (2 ^ 31 <= zlen vec + zlen args → out = Panic).
Proof.
  intros Hb Hb0 Hargs. revert fuel pre b vec Hb Hb0. induction Hargs as [|a args Ha Hargs IH];
    intros fuel pre b vec Hb Hb0 Hn Hf Hvec out; (destruct fuel as [|fuel]; [lia|]); unfold out; cbn [args_loop].
  { split; [|zlr; lia]. intros _. rewrite Hb0 by done. exists []. rewrite app_nil_r. split; [|constructor].
    rewrite (skip_blank_spec _ pre [] 0 []); [|by left|done|rewrite length_app; simpl; lia].
    run. rewrite app_nil_r, (rd_at _ (zlen pre) 0 pre []) by done. by run. }
  rewrite quoted_line_cons in *. set (tl := match args with [] => [] | _ => [32] ++ quoted_line args end) in *.
  set (line := pre ++ b ++ (repr a ++ tl) ++ [0]).
  assert (Hz : ∃ z post, tl ++ [0] = z :: post ∧ ends z).
  { unfold tl, ends. destruct args; [exists 0, []; auto|]. exists 32, (quoted_line (l :: args) ++ [0]). split; [done|by right]. }
  destruct Hz as (z & post & Ez & Hz). zlr. pose proof (zlen_escs a). pose proof (zlen_nonneg tl). pose proof (zlen_nonneg a).
  assert (Hrep : zlen (repr a) = 2 + zlen (a ≫= esc)) by (unfold repr; zlr; lia).
  assert (Eline : line = (pre ++ b) ++ repr a ++ z :: post) by (unfold line; rewrite <- Ez; by lapp).
  pose proof (skip_blank_spec (S (length line)) pre b 34 (((a ≫= esc) ++ [34]) ++ tl ++ [0]) Hb eq_refl) as Hsk.
  replace (pre ++ b ++ 34 :: ((a ≫= esc) ++ [34]) ++ tl ++ [0]) with line in Hsk by (unfold line, repr; by lapp).
  rewrite Hsk by (rewrite Eline; zl). run.
  rewrite (rd_at line _ 34 (pre ++ b) (((a ≫= esc) ++ [34]) ++ tl ++ [0])); [|unfold line, repr; by lapp|done]. run. cbn [Z.eqb].
  destruct sdsempty_spec as (s0 & -> & Hs0). run.
  destruct (repr_token (S (length line)) a (pre ++ b) z post s0 Ha Hs0) as (s1 & E1 & Hs1);
    [lia|done|rewrite Eline; zl|]. rewrite <- Eline in E1. rewrite E1. run.
  pose proof (zlen_nonneg args). pose proof (zlen_nonneg vec). unfold realloc_pointers. destruct (decide (zlen vec = 2 ^ 31 - 1)) as [Hv|Hv].
  { rewrite Hv. split; [intros Hl; exfalso; lia|done]. }
  rewrite (wraps_id 32) by (simpl; lia). test (zlen vec + 1 <? 0) false.
  destruct (IH fuel ((pre ++ b) ++ repr a) (match args with [] => [] | _ => [32] end) (vec ++ [s1])) as [Hok Hover].
  - destruct args; auto.
  - by intros ->.
  - revert Hn. unfold tl. destruct args; [done|]. zlr. pose proof (zlen_nonneg (repr a)). lia.
  - simpl in Hf. lia.
  - zlr. lia.
  - assert (Eout : args_loop fuel line (zlen (pre ++ b) + zlen (repr a)) (vec ++ [s1]) =
      args_loop fuel (((pre ++ b) ++ repr a) ++ match args with [] => [] | _ => [32] end ++ quoted_line args ++ [0])
        (zlen ((pre ++ b) ++ repr a)) (vec ++ [s1])).
    { f_equal; [|zlr; lia]. unfold line, tl. destruct args; by lapp. }
    zlr. rewrite Eout. split.
    + intros Hl. destruct Hok as (toks & E2 & HF); [lia|]. exists (s1 :: toks). split; [|by constructor].
      by rewrite <- (app_assoc vec) in E2.
    + intros Hl. apply Hover. lia.
Qed.

Lemma sdssplitargs_spec args :
  Forall bytes_ok args → zlen (quoted_line args) + 1 < 2 ^ 62 →
  (zlen args < 2 ^ 31 → ∃ toks, sdssplitargs (quoted_line args ++ [0]) = Ret (Some toks) ∧ Forall2 rep toks args) ∧
  (2 ^ 31 <= zlen args → sdssplitargs (quoted_line args ++ [0]) = Panic).
Proof.
  intros Ha Hn. unfold sdssplitargs.
  apply (args_loop_spec (S (length (quoted_line args ++ [0]))) [] [] args []); [by left|done|done|done| |done].
  assert (length args <= length (quoted_line args))%nat; [|rewrite length_app; lia].
  clear. induction args as [|a args IH]; [done|]. rewrite quoted_line_cons, length_app.
  assert (1 <= length (repr a))%nat by (simpl; lia). destruct args; [simpl in *; lia|]. rewrite length_app. simpl in *. lia.
Qed.

End text.
End SdsText.
