(* ===== verification/SdsSpec.v ===== *)
(** What the dynamic strings promise: [rep s bs] relates a block to the bytes
    it stands for, and every operation refines one on byte strings. *)
From S2P Require Import Prelude Endianconv Util Sds SdsRep SdsOps SdsText.
Import Sds SdsRep SdsOps SdsText.

Module SdsSpec.

(** The sizes for which no [size_t] computation of the code overflows. *)
Definition small (n : Z) : Prop := 0 <= n < 2 ^ 58.

(** A concrete string, "ab", in a block with two bytes to spare. *)
#[local] Instance ex_order : HostOrder := false.
Definition ex_sds : sds := Sds [2; 4; 1; 97; 98; 0; 170; 170] 3.

Lemma ex_sds_rep : rep ex_sds (cstr "ab").
Proof. exists 1, 4, [170; 170]. by repeat split. Qed.

(** 255 bytes behind an 8-bit header, in a block of 320 bytes. *)
Definition ex_full : sds := Sds ([255; 255; 1] ++ replicate 255 97 ++ 0 :: replicate 61 170) 3.

(** An allocator that rounds sizes up to a multiple of 64 bytes. *)
#[local] Instance round64 : Allocator := {|
  usable_size n := (n + 63) / 64 * 64;
  junk n := replicate (Z.to_nat n) 170;
  try_ok _ := true |}.

Lemma round64_laws : AllocatorLaws round64.
Proof.
  split; simpl; intros.
  - dm (n + 63) 64. lia.
  - dm (n + 63) 64. lia.
  - by rewrite length_replicate.
  - apply Forall_replicate. unfold is_byte. lia.
Qed.

Section spec.
Context {H : HostOrder} {A : Allocator} {L : AllocatorLaws A}.

(** The capacity field of an 8-bit header keeps one byte of what is stored. *)
Lemma sdssetalloc_wraps s len alloc data v :
  hdr_at s SDS_TYPE_8 len alloc data →
  ∃ s', sdssetalloc s v = Ret s' ∧ hdr_at s' SDS_TYPE_8 len (v mod 256) data.
Proof.
  intros Hat. exists (Sds (hdr SDS_TYPE_8 len (v mod 256) ++ data) (off s)). dm v 256.
  pose proof (set_sh_alloc_at _ _ _ _ _ v Hat) as Hs.
  unfold sdssetalloc. rewrite (flags_at _ _ _ _ _ Hat). run.
  destruct Hat as (Hm & Ho & Ht & Hl & Hal). rewrite hdr_flags_type by done. split.
  - change (hdr_width SDS_TYPE_8) with 1%nat in Hs. simpl. rewrite Hs by done. do 3 f_equal.
    rewrite !hdr_long by done. do 2 f_equal. unfold nat_enc, be_enc.
    change (hdr_width SDS_TYPE_8) with 1%nat. unfold le_enc. by rewrite Z.mod_mod.
  - split_and!; try done; change (sdsTypeMaxSize SDS_TYPE_8) with 255 in *; lia.
Qed.

(** C12. Two boundary behaviours.  With the jemalloc shortcut, resizing a
    string with an 8-bit header to 256 bytes or more inside its block returns
    a string of the same length whose capacity field is the new size modulo
    256: the capacity is below the length whenever that remainder is.  A
    format that ends in a lone [%], whatever well-formed directives come before
    it, makes [sdscatfmt] step over the terminator and read behind the
    format. *)
Theorem sds_boundaries s bs :
  rep s bs → zlen bs < 2 ^ 60 →
  (∀ alloc free size would_regrow,
     buf s SDS_TYPE_8 alloc bs (0 :: free) → 256 <= size < 2 ^ 16 - 1 →
     usable_size (sdsHdrSize SDS_TYPE_16 + size + 1) = zlen (mem s) →
     ∃ s', sdsResize true s size would_regrow = Ret s' ∧
       sdslen s' = Ret (zlen bs) ∧ sdsalloc s' = Ret (size mod 256) ∧
       s_rdn s' 0 (zlen bs + 1) = Ret (bs ++ [0])) ∧
  (∀ fmt args out, fmt_ok fmt args out → zlen fmt < 2 ^ 58 → zlen out < 2 ^ 58 →
     sdscatfmt s (fmt ++ [37; 0]) args = Fault).
Proof.
  intros Hrep Hn. split; [|intros; eapply sdscatfmt_percent; [done..|lia]].
  intros alloc free size w Hb Hs Hu. destruct (Hb) as [Hat Hc].
  assert (Hlt : zlen bs <= 255 ∧ alloc <= 255) by (destruct Hat as (_ & _ & _ & ? & ?); change (sdsTypeMaxSize SDS_TYPE_8) with 255 in *; lia).
  assert (Et : sdsReqType size = SDS_TYPE_16).
  { unfold sdsReqType. change (Z.shiftl 1 5) with 32. change (Z.shiftl 1 8) with 256. change (Z.shiftl 1 16) with 65536.
    test (size <? 32) false. test (size <? 256) false. by test (size <? 65536) true. }
  unfold sdsResize.
  rewrite (flags_at _ _ _ _ _ Hat), (sdslen_at _ _ _ _ _ Hat), (sdsalloc_at _ _ _ _ _ Hat). run.
  rewrite hdr_flags_type by (apply Hat). rewrite Et.
  change (cap SDS_TYPE_8 (zlen bs) alloc) with alloc. test (alloc =? size) false. test (size <? zlen bs) false.
  rewrite andb_false_r. simpl (_ || _).
  cbv beta iota. rewrite wrapu_id by (change (sdsHdrSize SDS_TYPE_16) with 5; lia).
  rewrite Hu, Z.eqb_refl. cbn [andb negb]. run.
  destruct (s_wr_at _ _ _ _ _ _ _ _ 0 Hat eq_refl) as (s1 & -> & Hat1); [by unfold is_byte|]. run.
  destruct (sdssetlen_at _ _ _ _ _ (zlen bs) Hat1) as (s2 & -> & Hat2); [apply Hat1|]. run.
  destruct (sdssetalloc_wraps _ _ _ _ size Hat2) as (s3 & -> & Hat3).
  exists s3. split; [done|]. rewrite (sdslen_at _ _ _ _ _ Hat3), (sdsalloc_at _ _ _ _ _ Hat3).
  split_and!; [done..|]. apply (s_rdn_at s3 SDS_TYPE_8 (zlen bs) (size mod 256) [] (bs ++ [0]) free); [|done|by zlr].
  revert Hat3. by lapp.
Qed.

(** C8. Creation: [sdsnewlen] returns a string with the given bytes, zeroes
    or arbitrary bytes, and [sdstrynewlen] does so or returns a null pointer;
    [sdsdup] copies.  Appending, overwriting, growing and clearing return a
    well-formed string with the expected contents, whatever header type the
    string has or needs. *)
Theorem sds_build_refines s bs t rest :
  rep s bs → small (zlen bs) → small (zlen t) →
  (∃ s', sdsnewlen (INIT_BYTES (t ++ rest)) (zlen t) = Ret s' ∧ rep s' t) ∧
  (sdstrynewlen (INIT_BYTES (t ++ rest)) (zlen t) = Ret None ∨
   ∃ s', sdstrynewlen (INIT_BYTES (t ++ rest)) (zlen t) = Ret (Some s') ∧ rep s' t) ∧
  (∃ s', sdsnewlen INIT_NULL (zlen t) = Ret s' ∧ rep s' (replicate (length t) 0)) ∧
  (∃ s', sdsdup s = Ret s' ∧ rep s' bs) ∧
  (∃ s', sdscatlen s (t ++ rest) (zlen t) = Ret s' ∧ rep s' (bs ++ t)) ∧
  (∃ s', sdscpylen s (t ++ rest) (zlen t) = Ret s' ∧ rep s' t) ∧
  (∃ s', sdsgrowzero s (zlen t) = Ret s' ∧ rep s' (bs ++ replicate (length t - length bs) 0)) ∧
  (∃ s', sdsupdatelen s = Ret s' ∧ rep s' (until0 bs)) ∧
  (∃ s', sdsclear s = Ret s' ∧ rep s' []).
Proof.
  intros Hs [Hb Hb'] [Ht Ht']. split_and!.
  - apply sdsnew_bytes; [done|lia].
  - pose proof (zlen_nonneg rest). unfold sdstrynewlen.
    destruct (sdsnewlen_raw (INIT_BYTES (t ++ rest)) (zlen t) true) as [[_ E]|(s' & bs' & E & Hi & Hr)];
      [lia|simpl; zlr; lia|by left|right]. simpl in Hi. rewrite take_app_length' in Hi by zl. subst. eauto.
  - destruct (sdsnewlen_spec INIT_NULL (zlen t)) as (s' & bs' & E & Hi & Hr); [lia|done|].
    simpl in Hi. subst. unfold zlen in Hr. rewrite Nat2Z.id in Hr. eauto.
  - apply sdsdup_spec; [done|lia].
  - apply sdscatlen_spec; [done..|lia].
  - by eapply sdscpylen_spec; [done..|lia].
  - destruct (sdsgrowzero_spec s bs (zlen t) Hs) as (s' & E & Hr); [lia|].
    exists s'. split; [done|]. by replace (length t - length bs)%nat with (Z.to_nat (zlen t - zlen bs)) by zl.
  - by apply sdsupdatelen_spec.
  - by eapply sdsclear_spec.
Qed.

(** The way callers read into a string without copying: after
    [sdsMakeRoomFor(s, addlen)] up to [addlen] bytes can be written behind
    the string, and [sdsIncrLen] makes them part of it; a negative increment
    cuts the string on the right. *)
Theorem sds_makeroom_incr s bs w addlen :
  rep s bs → small (zlen bs) → 0 < zlen w <= addlen → small addlen →
  (∃ s', (s ← sdsMakeRoomFor s addlen; s ← s_wrn s (zlen bs) w; sdsIncrLen s (zlen w)) = Ret s' ∧
     rep s' (bs ++ w)) ∧
  (∀ n, 0 < n <= zlen bs →
     ∃ s', sdsIncrLen s (- n) = Ret s' ∧ rep s' (take (Z.to_nat (zlen bs - n)) bs)).
Proof.
  intros Hs [Hb Hb'] Hw [_ Ha']. split.
  - destruct Hs as (t & alloc & free & Hbuf).
    destruct (sdsMakeRoomFor_spec _ _ _ _ _ _ addlen Hbuf) as (s1 & t1 & a1 & f1 & -> & Hb1 & Hc); [lia..|]. run.
    destruct (buf_room _ _ _ _ _ _ (zlen w) Hb1) as (m & y & r & E & Hm & Hmax); [lia..|].
    pose proof (f_equal zlen E) as El. zlr. destruct (Hb1) as [Hat Hcap]. rewrite E in Hat.
    destruct (s_wrn_at _ _ _ _ bs m (y :: r) (zlen bs) w Hat) as (s2 & -> & Hat2); [done|lia|]. run.
    destruct (zlen_pos w) as (x & w' & Ew); [lia|].
    destruct (sdsIncrLen_spec s2 t1 a1 bs x (w' ++ y :: r) (zlen w)) as (s3 & -> & Hs3); [|lia|lia|lia|].
    + split; [by rewrite Ew in Hat2; revert Hat2; lapp|]. rewrite Ew in *. zlr. lia.
    + exists s3. split; [done|]. revert Hs3.
      replace (bs ++ x :: w' ++ y :: r) with ((bs ++ w) ++ y :: r) by (rewrite Ew; by lapp).
      by rewrite take_app_length' by zl.
  - intros n Hn. destruct Hs as (t & alloc & free & Hbuf).
    destruct (sdsIncrLen_spec s t alloc bs 0 free (- n) Hbuf) as (s1 & -> & Hs1); [lia|destruct Hbuf; lia|lia|].
    exists s1. split; [done|]. by rewrite take_app_le in Hs1 by zl.
Qed.

(** [sdsrange] keeps the bytes between two inclusive positions, negative
    ones counting from the end, and nothing when the range is empty or starts
    before the string; [sdssubstr] keeps [len] bytes from [start]; [sdstrim]
    removes the longest prefix and suffix of characters of the set, to which
    the NUL byte always belongs. *)
Lemma sds_cut_spec s bs :
  rep s bs → small (zlen bs) →
  (∀ start end_, - 2 ^ 63 <= start < 2 ^ 63 → - 2 ^ 63 <= end_ < 2 ^ 63 →
     ∃ s', sdsrange s start end_ = Ret s' ∧ rep s' (range_of bs start end_)) ∧
  (∀ start len, 0 <= start → 0 <= len →
     ∃ s', sdssubstr s start len = Ret s' ∧ rep s' (take (Z.to_nat len) (drop (Z.to_nat start) bs))) ∧
  (∀ cset rest, 0 ∉ cset →
     ∃ s' m, sdstrim s (cset ++ 0 :: rest) = Ret s' ∧ rep s' m ∧ trimmed cset bs m).
Proof.
  intros Hs [Hb Hb']. split_and!; intros.
  - by apply sdsrange_spec; [|lia|..].
  - by apply sdssubstr_spec.
  - by apply sdstrim_spec.
Qed.

(** [sdsResize] keeps the bytes that fit and leaves a well-formed string:
    always without the jemalloc shortcut, and with it when the size does not
    exceed the current capacity; [sdsRemoveFreeSpace] is always safe and leaves
    no free space. *)
Theorem sdsResize_refines jemalloc s bs size would_regrow alloc :
  rep s bs → small (zlen bs) → small size → sdsalloc s = Ret alloc →
  (jemalloc = false ∨ size <= alloc) →
  (∃ s', sdsResize jemalloc s size would_regrow = Ret s' ∧ rep s' (take (Z.to_nat size) bs)) ∧
  (∃ s', sdsRemoveFreeSpace jemalloc s would_regrow = Ret s' ∧ rep s' bs ∧ sdsavail s' = Ret 0).
Proof.
  intros Hs [Hb Hb'] [Hz Hz'] Ha Hj. split.
  { destruct (sdsResize_spec jemalloc s bs size would_regrow alloc Hs) as (s' & E & Hs' & _); [lia|done..|by exists s']. }
  unfold sdsRemoveFreeSpace. rewrite (rep_len _ _ Hs). run.
  destruct (sdsResize_spec jemalloc s bs (zlen bs) would_regrow alloc Hs) as (s' & -> & Hs' & Ha'); [lia|done| |].
  - right. destruct Hs as (t & a & free & Hat & Hc). rewrite (sdsalloc_at _ _ _ _ _ Hat) in Ha. injection Ha as <-. lia.
  - exists s'. rewrite take_ge in Hs' by zl. split_and!; [done..|].
    rewrite Z.min_id in Ha'. destruct Hs' as (t & a & free & Hat & Hc).
    rewrite (sdsavail_at _ _ _ _ _ Hat) by lia. rewrite (sdsalloc_at _ _ _ _ _ Hat) in Ha'. f_equal. naive_solver lia.
Qed.

(** C9. Room: after [sdsMakeRoomFor(s, addlen)] up to [addlen] bytes can be
    written behind the string without copying, and [sdsIncrLen] makes them part
    of it; a negative increment cuts the string on the right.  [sdsResize] keeps
    the bytes that fit and leaves a well-formed string: always without the
    jemalloc shortcut, and with it when the size does not exceed the current
    capacity; [sdsRemoveFreeSpace] is always safe and leaves no free space.
    Cuts: [sdsrange] keeps the bytes between two inclusive positions, negative
    ones counting from the end, and nothing when the range is empty or starts
    before the string; [sdssubstr] keeps [len] bytes from [start]; [sdstrim] removes the longest
    prefix and suffix of characters of the set, to which the NUL byte always
    belongs. *)
Theorem sds_room_refines s bs :
  rep s bs → small (zlen bs) →
  (∀ w addlen, 0 < zlen w <= addlen → small addlen →
     ∃ s', (s ← sdsMakeRoomFor s addlen; s ← s_wrn s (zlen bs) w; sdsIncrLen s (zlen w)) = Ret s' ∧ rep s' (bs ++ w)) ∧
  (∀ n, 0 < n <= zlen bs →
     ∃ s', sdsIncrLen s (- n) = Ret s' ∧ rep s' (take (Z.to_nat (zlen bs - n)) bs)) ∧
  (∀ jemalloc size would_regrow alloc, small size → sdsalloc s = Ret alloc → (jemalloc = false ∨ size <= alloc) →
     (∃ s', sdsResize jemalloc s size would_regrow = Ret s' ∧ rep s' (take (Z.to_nat size) bs)) ∧
     (∃ s', sdsRemoveFreeSpace jemalloc s would_regrow = Ret s' ∧ rep s' bs ∧ sdsavail s' = Ret 0)) ∧
  (∀ start end_, - 2 ^ 63 <= start < 2 ^ 63 → - 2 ^ 63 <= end_ < 2 ^ 63 →
     ∃ s', sdsrange s start end_ = Ret s' ∧ rep s' (range_of bs start end_)) ∧
  (∀ start len, 0 <= start → 0 <= len →
     ∃ s', sdssubstr s start len = Ret s' ∧ rep s' (take (Z.to_nat len) (drop (Z.to_nat start) bs))) ∧
  (∀ cset rest, 0 ∉ cset →
     ∃ s' m, sdstrim s (cset ++ 0 :: rest) = Ret s' ∧ rep s' m ∧ trimmed cset bs m).
Proof.
  intros Hs Hb. split_and!.
  - intros w addlen Hw Ha. by destruct (sds_makeroom_incr s bs w addlen Hs Hb Hw Ha).
  - assert (Hw : 0 < zlen [0] <= 1) by done. assert (H1 : small 1) by done.
    by destruct (sds_makeroom_incr s bs [0] 1 Hs Hb Hw H1).
  - intros jemalloc size would_regrow alloc Hz Ha Hj. by apply (sdsResize_refines jemalloc s bs size would_regrow alloc).
  - by apply sds_cut_spec.
  - by apply sds_cut_spec.
  - by apply sds_cut_spec.
Qed.

(** [sdscmp] orders strings lexicographically by unsigned bytes, a proper
    prefix coming first. *)
Theorem sdscmp_exact s1 s2 b1 b2 :
  rep s1 b1 → rep s2 b2 → ∃ v, sdscmp s1 s2 = Ret v ∧ Z.sgn v = sign_of (lex b1 b2).
Proof. apply sdscmp_spec. Qed.

(** C10. [sdscatfmt] appends the text a format stands for, growing the string
    as it goes and converting numbers in its own buffer. *)
Theorem sdscatfmt_refines s bs fmt rest args out :
  rep s bs → fmt_ok fmt args out → small (zlen bs) → small (zlen fmt) → small (zlen out) →
  ∃ s', sdscatfmt s (fmt ++ 0 :: rest) args = Ret s' ∧ rep s' (bs ++ out).
Proof. intros Hs Hf [? ?] [? ?] [? ?]. apply sdscatfmt_spec; [done..|lia]. Qed.

(** The pieces, and their join. *)
Lemma split_join_spec s sep ps :
  splits sep s ps → s ≠ [] → sep ≠ [] → small (zlen s) →
  (zlen ps < MAX_SLOTS → ∃ tokens, sdssplitlen s (zlen s) sep (zlen sep) = Ret (Some tokens) ∧ Forall2 rep tokens ps ∧
     ∃ j, sdsjoinsds tokens sep (zlen sep) = Ret j ∧ rep j s) ∧
  (MAX_SLOTS < zlen ps → sdssplitlen s (zlen s) sep (zlen sep) = Panic).
Proof.
  intros Hsp Hs Hsep [? ?]. destruct (sdssplitlen_spec s sep Hs Hsep) as [(tokens & qs & E & Hq & HF & Hz)|[E Hq]]; [lia| |].
  - rewrite (splits_fun sep s qs ps) in * by done. split; [|lia]. intros _. exists tokens. split_and!; [done..|].
    pose proof (join_splits _ _ _ Hsp) as Hj. destruct (sdsjoinsds_spec tokens ps sep [] HF) as (j & Ej & Hr); [rewrite Hj; lia|].
    rewrite app_nil_r in Ej. rewrite Hj in Hr. eauto.
  - split; [|done]. intros Hlt. specialize (Hq ps Hsp). lia.
Qed.

(** C11. Every string has its pieces between the leftmost disjoint occurrences of a
    separator.  [sdssplitlen] returns them if there are less than 5 * 2^28, never
    writing past its token array, and [sdsjoinsds] with the same separator gives
    the original string back.  With more than 5 * 2^28 pieces the number of slots,
    an [int], overflows and the allocator aborts.

    Quoting and parsing are inverse: [sdscatrepr] writes the quoted form of a
    byte string, and [sdssplitargs] on a line of quoted forms returns exactly the
    byte strings, whatever bytes they hold, if there are less than 2^31, and
    aborts otherwise, since it counts them with an [int]. *)
Theorem sds_text_roundtrip :
  (∀ s sep, sep ≠ [] → ∃ ps, splits sep s ps) ∧
  (∀ s sep ps, splits sep s ps → s ≠ [] → sep ≠ [] → small (zlen s) → zlen sep < 2 ^ 31 →
   (zlen ps < MAX_SLOTS → ∃ tokens, sdssplitlen s (zlen s) sep (zlen sep) = Ret (Some tokens) ∧ Forall2 rep tokens ps ∧
      ∃ j, sdsjoinsds tokens sep (zlen sep) = Ret j ∧ rep j s) ∧
   (MAX_SLOTS < zlen ps → sdssplitlen s (zlen s) sep (zlen sep) = Panic)) ∧
  (∀ s p rest, rep s [] → bytes_ok p → small (zlen p) →
   ∃ s', sdscatrepr s (p ++ rest) (zlen p) = Ret s' ∧ rep s' (quoted_line [p])) ∧
  (∀ args, Forall bytes_ok args → small (zlen (quoted_line args)) →
   (zlen args < 2 ^ 31 →
    ∃ tokens, sdssplitargs (quoted_line args ++ [0]) = Ret (Some tokens) ∧ Forall2 rep tokens args) ∧
   (2 ^ 31 <= zlen args → sdssplitargs (quoted_line args ++ [0]) = Panic)).
Proof.
  split_and!.
  - intros s sep Hsep. by apply splits_total.
  - intros s sep ps Hsp Hs Hsep Hn _. by apply split_join_spec.
  - intros s p rest Hs Hp [? ?]. destruct (sdscatrepr_spec s [] p rest Hs) as (s' & E & Hr); [change (zlen (@nil Z)) with 0; lia|].
    exists s'. split; [done|]. unfold quoted_line. simpl. by rewrite app_nil_r.
  - intros args Ha [? ?]. apply sdssplitargs_spec; [done|lia].
Qed.

End spec.

(** * The promises on concrete strings *)

Lemma sds_boundaries_witness :
  (∃ s', sdsResize true ex_full 300 true = Ret s' ∧
     sdslen s' = Ret 255 ∧ sdsalloc s' = Ret 44 ∧
     s_rdn s' 0 256 = Ret (replicate 255 97 ++ [0])) ∧
  sdscatfmt ex_full (cstr "a" ++ [37; 0]) [] = Fault.
Proof.
  assert (Hb : buf ex_full SDS_TYPE_8 255 (replicate 255 97) (0 :: replicate 61 170)) by (by vm_compute).
  destruct (sds_boundaries (L := round64_laws) ex_full (replicate 255 97) ltac:(by do 3 eexists) ltac:(by vm_compute)) as [H1 H2].
  split.
  - exact (H1 255 (replicate 61 170) 300 true Hb ltac:(lia) ltac:(by vm_compute)).
  - refine (H2 (cstr "a") [] (cstr "a") _ ltac:(by vm_compute) ltac:(by vm_compute)).
    apply fmt_lit; [by unfold is_byte|done|done|]. apply fmt_end.
Defined.

Lemma sds_build_refines_witness :
  ∃ s', sdscatlen ex_sds (cstr "cde" ++ [0]) 3 = Ret s' ∧ rep s' (cstr "abcde").
Proof.
  exact (proj1 (proj2 (proj2 (proj2 (proj2
    (sds_build_refines (L := round64_laws) ex_sds (cstr "ab") (cstr "cde") [0]
       ex_sds_rep ltac:(by vm_compute) ltac:(by vm_compute))))))).
Defined.

Lemma sds_room_refines_witness :
  (∃ s', (s ← sdsMakeRoomFor ex_sds 10; s ← s_wrn s 2 (cstr "xyz"); sdsIncrLen s 3) = Ret s' ∧
    rep s' (cstr "abxyz")) ∧
  (∃ s', sdsResize true ex_sds 1 false = Ret s' ∧ rep s' (cstr "a")) ∧
  ∃ s', sdsrange ex_sds 1 (-1) = Ret s' ∧ rep s' (cstr "b").
Proof.
  destruct (sds_room_refines (L := round64_laws) ex_sds (cstr "ab") ex_sds_rep ltac:(by vm_compute)) as (H1 & _ & H3 & H4 & _).
  split; [exact (H1 (cstr "xyz") 10 ltac:(by vm_compute) ltac:(by vm_compute))|].
  split; [exact (proj1 (H3 true 1 false 4 ltac:(by vm_compute) eq_refl ltac:(right; lia)))|].
  exact (H4 1 (-1) ltac:(lia) ltac:(lia)).
Defined.

Lemma sdscmp_exact_witness : ∃ v, sdscmp ex_sds ex_sds = Ret v ∧ Z.sgn v = 0.
Proof. exact (sdscmp_exact ex_sds ex_sds (cstr "ab") (cstr "ab") ex_sds_rep ex_sds_rep). Defined.

Lemma sdscatfmt_refines_witness :
  ∃ s', sdscatfmt ex_sds (cstr "=%i%%" ++ [0]) [VA_int (-5)] = Ret s' ∧ rep s' (cstr "ab=-5%").
Proof.
  refine (sdscatfmt_refines (L := round64_laws) ex_sds (cstr "ab") (cstr "=%i%%") [] [VA_int (-5)] (cstr "=-5%")
    ex_sds_rep _ ltac:(by vm_compute) ltac:(by vm_compute) ltac:(by vm_compute)).
  apply fmt_lit; [by unfold is_byte|done|done|].
  apply (fmt_arg _ _ (Util.dec (-5)) _ _ (cstr "%")); [by apply conv_i|].
  apply fmt_other; [by unfold is_byte|done|done|]. apply fmt_end.
Defined.

Lemma sds_text_roundtrip_witness :
  (∃ tokens, sdssplitlen (cstr "a--b") 4 (cstr "--") 2 = Ret (Some tokens) ∧
     Forall2 rep tokens [cstr "a"; cstr "b"] ∧
     ∃ j, sdsjoinsds tokens (cstr "--") 2 = Ret j ∧ rep j (cstr "a--b")) ∧
  (∃ tokens, sdssplitargs (quoted_line [[0; 255]; cstr "x y"] ++ [0]) = Ret (Some tokens) ∧
     Forall2 rep tokens [[0; 255]; cstr "x y"]).
Proof.
  destruct (sds_text_roundtrip (L := round64_laws)) as (_ & Hsplit & _ & Hargs). split.
  - assert (splits (cstr "--") (cstr "a--b") [cstr "a"; cstr "b"]) as Hs.
    { apply (splits_more (cstr "--") (cstr "a") (cstr "b") [cstr "b"]); [|constructor].
      - intros j Hj (a & b & E & Ha). destruct a as [|x a]; [done|]. revert Ha Hj. change (zlen (cstr "a")) with 1. zlr. pose proof (zlen_nonneg a). lia.
      - intros j (a & b & E & Ha). by destruct a as [|x [|y a]]. }
    exact (proj1 (Hsplit (cstr "a--b") (cstr "--") _ Hs ltac:(done) ltac:(done) ltac:(by vm_compute) ltac:(by vm_compute)) ltac:(by vm_compute)).
  - exact (proj1 (Hargs [[0; 255]; cstr "x y"] ltac:(by repeat constructor) ltac:(by vm_compute)) ltac:(by vm_compute)).
Defined.

End SdsSpec.
