(* ===== verification/Ziplist.v ===== *)
(** Ziplists: [src/.../redis-6.2/src/ziplist.c].

    A ziplist is one block: total size, offset of the last entry and number
    of entries (all little endian), the entries, and the byte 255.  An entry
    is the length of the previous entry (1 or 5 bytes), a header with the
    type and length of the value, and the value.  The model works on the
    bytes of the block; a pointer into it is its offset.

    [rep es b] says that block [b] holds the entries [es].  The theorems show
    that insertion, deletion, replacement and merging keep the representation
    and act on the list of values as their names say (including the cascade
    of length updates they trigger), that navigation visits the entries of
    the list, and that the integrity check is memory safe on arbitrary bytes
    and accepts exactly the well-formed blocks. *)
From S2P Require Import Prelude Endianconv Util.
Import Util.

Module Ziplist.

Definition ZIP_END : Z := 255.
Definition ZIP_BIG_PREVLEN : Z := 254.

Definition ZIP_STR_MASK : Z := 192.
Definition ZIP_STR_06B : Z := Z.shiftl 0 6.
Definition ZIP_STR_14B : Z := Z.shiftl 1 6.
Definition ZIP_STR_32B : Z := Z.shiftl 2 6.
Definition ZIP_INT_16B : Z := Z.lor 192 (Z.shiftl 0 4).
Definition ZIP_INT_32B : Z := Z.lor 192 (Z.shiftl 1 4).
Definition ZIP_INT_64B : Z := Z.lor 192 (Z.shiftl 2 4).
Definition ZIP_INT_24B : Z := Z.lor 192 (Z.shiftl 3 4).
Definition ZIP_INT_8B : Z := 254.
Definition ZIP_INT_IMM_MASK : Z := 15.
Definition ZIP_INT_IMM_MIN : Z := 241.
Definition ZIP_INT_IMM_MAX : Z := 253.
Definition INT24_MAX : Z := 8388607.
Definition INT24_MIN : Z := - INT24_MAX - 1.
Definition UINT16_MAX : Z := 65535.
Definition UINT32_MAX : Z := 4294967295.
Definition UCHAR_MAX : Z := 255.

Definition ZIP_IS_STR (enc : Z) : bool := Z.land enc ZIP_STR_MASK <? ZIP_STR_MASK.

Definition ZIPLIST_HEADER_SIZE : Z := 4 * 2 + 2.
Definition ZIPLIST_END_SIZE : Z := 1.
Definition ZIPLIST_MAX_SAFETY_SIZE : Z := Z.shiftl 1 30.

(** [zlentry]; [e_p] is the offset of the entry. *)
Record zlentry := Zlentry {
  prevrawlensize : Z;
  prevrawlen : Z;
  lensize : Z;
  len : Z;
  headersize : Z;
  encoding : Z;
  e_p : Z;
}.

Section ziplist.
Context {H : HostOrder} {A : Allocator}.

(** ** Header fields *)

(** [intrev32ifbe(ZIPLIST_BYTES(zl))] and the other two fields, and the
    assignments to them. *)
Definition ZIPLIST_BYTES (zl : list Z) : outcome Z := load 4 zl 0 ≫= intrev32ifbe.
Definition ZIPLIST_TAIL_OFFSET (zl : list Z) : outcome Z := load 4 zl 4 ≫= intrev32ifbe.
Definition ZIPLIST_LENGTH (zl : list Z) : outcome Z := load 2 zl 8 ≫= intrev16ifbe.
Definition set_ZIPLIST_BYTES (zl : list Z) (v : Z) : outcome (list Z) :=
  intrev32ifbe (u32 v) ≫= store 4 zl 0.
Definition set_ZIPLIST_TAIL_OFFSET (zl : list Z) (v : Z) : outcome (list Z) :=
  intrev32ifbe (u32 v) ≫= store 4 zl 4.
Definition set_ZIPLIST_LENGTH (zl : list Z) (v : Z) : outcome (list Z) :=
  intrev16ifbe (u16 v) ≫= store 2 zl 8.

Definition ZIPLIST_ENTRY_HEAD (zl : list Z) : Z := ZIPLIST_HEADER_SIZE.
Definition ZIPLIST_ENTRY_TAIL (zl : list Z) : outcome Z := ZIPLIST_TAIL_OFFSET zl.
Definition ZIPLIST_ENTRY_END (zl : list Z) : outcome Z :=
  bytes ← ZIPLIST_BYTES zl; Ret (bytes - 1).

Definition ZIPLIST_INCR_LENGTH (zl : list Z) (incr : Z) : outcome (list Z) :=
  l ← ZIPLIST_LENGTH zl;
  if l <? UINT16_MAX then set_ZIPLIST_LENGTH zl (l + incr) else Ret zl.

Definition ziplistBlobLen (zl : list Z) : outcome Z := ZIPLIST_BYTES zl.

(** A null [zl] is [None]. *)
Definition ziplistSafeToAdd (zl : option (list Z)) (add : Z) : outcome Z :=
  len ← match zl with Some zl => ziplistBlobLen zl | None => Ret 0 end;
  if ZIPLIST_MAX_SAFETY_SIZE <? u64 (len + add) then Ret 0 else Ret 1.

(** ** Encoding and decoding of entry headers *)

Definition ZIP_ENTRY_ENCODING (zl : list Z) (ptr : Z) : outcome Z :=
  encoding ← rd zl ptr;
  Ret (if encoding <? ZIP_STR_MASK then Z.land encoding ZIP_STR_MASK else encoding).

Definition ZIP_ENCODING_SIZE_INVALID : Z := 255.

Definition zipEncodingLenSize (encoding : Z) : Z :=
  if (encoding =? ZIP_INT_16B) || (encoding =? ZIP_INT_32B) || (encoding =? ZIP_INT_24B)
     || (encoding =? ZIP_INT_64B) || (encoding =? ZIP_INT_8B) then 1
  else if (ZIP_INT_IMM_MIN <=? encoding) && (encoding <=? ZIP_INT_IMM_MAX) then 1
  else if encoding =? ZIP_STR_06B then 1
  else if encoding =? ZIP_STR_14B then 2
  else if encoding =? ZIP_STR_32B then 5
  else ZIP_ENCODING_SIZE_INVALID.

(** [redis_unreachable()] is undefined behaviour. *)
Definition zipIntSize (encoding : Z) : outcome Z :=
  if encoding =? ZIP_INT_8B then Ret 1
  else if encoding =? ZIP_INT_16B then Ret 2
  else if encoding =? ZIP_INT_24B then Ret 3
  else if encoding =? ZIP_INT_32B then Ret 4
  else if encoding =? ZIP_INT_64B then Ret 8
  else if (ZIP_INT_IMM_MIN <=? encoding) && (encoding <=? ZIP_INT_IMM_MAX) then Ret 0
  else Fault.

(** The bytes of the header, [buf]. *)
Definition zipEntryEncoding_buf (encoding rawlen : Z) : list Z :=
  if ZIP_IS_STR encoding then
    if rawlen <=? 63 then [Z.lor ZIP_STR_06B rawlen]
    else if rawlen <=? 16383 then
      [Z.lor ZIP_STR_14B (Z.land (Z.shiftr rawlen 8) 63); Z.land rawlen 255]
    else
      [ZIP_STR_32B; Z.land (Z.shiftr rawlen 24) 255; Z.land (Z.shiftr rawlen 16) 255;
       Z.land (Z.shiftr rawlen 8) 255; Z.land rawlen 255]
  else [encoding].

(** With [p = None] (a null pointer) nothing is written; the result is the
    number of bytes of the header. *)
Definition zipStoreEntryEncoding (zl : list Z) (p : option Z) (encoding rawlen : Z)
    : outcome (list Z * Z) :=
  let buf := zipEntryEncoding_buf encoding rawlen in
  let len := zlen buf in
  match p with
  | None => Ret (zl, len)
  | Some p => zl ← wrn zl p buf; Ret (zl, len)
  end.

(** [(lensize, len)]; [lensize = 0] on a bad encoding. *)
Definition ZIP_DECODE_LENGTH (zl : list Z) (ptr encoding : Z) : outcome (Z * Z) :=
  if encoding <? ZIP_STR_MASK then
    if encoding =? ZIP_STR_06B then
      c ← rd zl ptr; Ret (1, Z.land c 63)
    else if encoding =? ZIP_STR_14B then
      c0 ← rd zl ptr; c1 ← rd zl (ptr + 1);
      Ret (2, Z.lor (Z.shiftl (Z.land c0 63) 8) c1)
    else if encoding =? ZIP_STR_32B then
      c1 ← rd zl (ptr + 1); c2 ← rd zl (ptr + 2);
      c3 ← rd zl (ptr + 3); c4 ← rd zl (ptr + 4);
      Ret (5, Z.lor (Z.lor (Z.lor (Z.shiftl c1 24) (Z.shiftl c2 16)) (Z.shiftl c3 8)) c4)
    else Ret (0, 0)
  else
    if encoding =? ZIP_INT_8B then Ret (1, 1)
    else if encoding =? ZIP_INT_16B then Ret (1, 2)
    else if encoding =? ZIP_INT_24B then Ret (1, 3)
    else if encoding =? ZIP_INT_32B then Ret (1, 4)
    else if encoding =? ZIP_INT_64B then Ret (1, 8)
    else if (ZIP_INT_IMM_MIN <=? encoding) && (encoding <=? ZIP_INT_IMM_MAX) then Ret (1, 0)
    else Ret (0, 0).

Definition zipStorePrevEntryLengthLarge (zl : list Z) (p : option Z) (len : Z)
    : outcome (list Z * Z) :=
  match p with
  | None => Ret (zl, 1 + 4)
  | Some p =>
      zl ← wr zl p ZIP_BIG_PREVLEN;
      zl ← store 4 zl (p + 1) (u32 len);
      zl ← memrev32ifbe zl (p + 1);
      Ret (zl, 1 + 4)
  end.

Definition zipStorePrevEntryLength (zl : list Z) (p : option Z) (len : Z)
    : outcome (list Z * Z) :=
  let len := u32 len in
  match p with
  | None => Ret (zl, if len <? ZIP_BIG_PREVLEN then 1 else 4 + 1)
  | Some q =>
      if len <? ZIP_BIG_PREVLEN then zl ← wr zl q len; Ret (zl, 1)
      else zipStorePrevEntryLengthLarge zl p len
  end.

Definition ZIP_DECODE_PREVLENSIZE (zl : list Z) (ptr : Z) : outcome Z :=
  c ← rd zl ptr; Ret (if c <? ZIP_BIG_PREVLEN then 1 else 5).

(** [(prevlensize, prevlen)] *)
Definition ZIP_DECODE_PREVLEN (zl : list Z) (ptr : Z) : outcome (Z * Z) :=
  prevlensize ← ZIP_DECODE_PREVLENSIZE zl ptr;
  if prevlensize =? 1 then c ← rd zl ptr; Ret (prevlensize, c)
  else
    c4 ← rd zl (ptr + 4); c3 ← rd zl (ptr + 3); c2 ← rd zl (ptr + 2); c1 ← rd zl (ptr + 1);
    Ret (prevlensize,
         u32 (Z.lor (Z.lor (Z.lor (Z.shiftl c4 24) (Z.shiftl c3 16)) (Z.shiftl c2 8)) c1)).

Definition zipPrevLenByteDiff (zl : list Z) (p len : Z) : outcome Z :=
  prevlensize ← ZIP_DECODE_PREVLENSIZE zl p;
  r ← zipStorePrevEntryLength zl None len;
  Ret (s32 (u32 (snd r - prevlensize))).

(** [Some (v, encoding)] when the string is encoded as an integer. *)
Definition zipTryEncoding (entry : list Z) (entrylen : Z) : outcome (option (Z * Z)) :=
  if (32 <=? entrylen) || (entrylen =? 0) then Ret None
  else
    r ← string2ll entry entrylen;
    match r with
    | None => Ret None
    | Some value =>
        let encoding :=
          if (0 <=? value) && (value <=? 12) then u8 (ZIP_INT_IMM_MIN + value)
          else if (-128 <=? value) && (value <=? 127) then ZIP_INT_8B
          else if (-32768 <=? value) && (value <=? 32767) then ZIP_INT_16B
          else if (INT24_MIN <=? value) && (value <=? INT24_MAX) then ZIP_INT_24B
          else if (-2147483648 <=? value) && (value <=? 2147483647) then ZIP_INT_32B
          else ZIP_INT_64B in
        Ret (Some (value, encoding))
    end.

Definition zipSaveInteger (zl : list Z) (p value encoding : Z) : outcome (list Z) :=
  if encoding =? ZIP_INT_8B then wr zl p (s8 value)
  else if encoding =? ZIP_INT_16B then
    zl ← store 2 zl p (s16 value);
    memrev16ifbe zl p
  else if encoding =? ZIP_INT_24B then
    let i32 := s32 (u64 (Z.shiftl (u64 value) 8)) in
    i32 ← memrev32ifbe (nat_enc 4 i32) 0;
    bs ← rdn i32 1 3;
    wrn zl p bs
  else if encoding =? ZIP_INT_32B then
    zl ← store 4 zl p (s32 value);
    memrev32ifbe zl p
  else if encoding =? ZIP_INT_64B then
    zl ← store 8 zl p (s64 value);
    memrev64ifbe zl p
  else if (ZIP_INT_IMM_MIN <=? encoding) && (encoding <=? ZIP_INT_IMM_MAX) then Ret zl
  else Panic.

Definition zipLoadInteger (zl : list Z) (p encoding : Z) : outcome Z :=
  if encoding =? ZIP_INT_8B then c ← rd zl p; Ret (s8 c)
  else if encoding =? ZIP_INT_16B then
    i16 ← rdn zl p 2;
    i16 ← memrev16ifbe i16 0;
    Ret (s16 (nat_dec i16))
  else if encoding =? ZIP_INT_32B then
    i32 ← rdn zl p 4;
    i32 ← memrev32ifbe i32 0;
    Ret (s32 (nat_dec i32))
  else if encoding =? ZIP_INT_24B then
    bs ← rdn zl p 3;
    i32 ← wrn (nat_enc 4 0) 1 bs;
    i32 ← memrev32ifbe i32 0;
    Ret (Z.shiftr (s32 (nat_dec i32)) 8)
  else if encoding =? ZIP_INT_64B then
    i64 ← rdn zl p 8;
    i64 ← memrev64ifbe i64 0;
    Ret (s64 (nat_dec i64))
  else if (ZIP_INT_IMM_MIN <=? encoding) && (encoding <=? ZIP_INT_IMM_MAX) then
    Ret (Z.land encoding ZIP_INT_IMM_MASK - 1)
  else Panic.

(** ** Decoding entries *)

Definition zipEntry (zl : list Z) (p : Z) : outcome zlentry :=
  pl ← ZIP_DECODE_PREVLEN zl p;
  let '(prevrawlensize, prevrawlen) := pl in
  encoding ← ZIP_ENTRY_ENCODING zl (p + prevrawlensize);
  dl ← ZIP_DECODE_LENGTH zl (p + prevrawlensize) encoding;
  let '(lensize, len) := dl in
  _ ← c_assert (negb (lensize =? 0));
  Ret (Zlentry prevrawlensize prevrawlen lensize len (prevrawlensize + lensize) encoding p).

(** [None]: the entry is not valid. *)
Definition zipEntrySafe (zl : list Z) (zlbytes p : Z) (validate_prevlen : bool)
    : outcome (option zlentry) :=
  let zlfirst := ZIPLIST_HEADER_SIZE in
  let zllast := zlbytes - ZIPLIST_END_SIZE in
  let OUT_OF_RANGE := λ p, (p <? zlfirst) || (zllast <? p) in
  if (zlfirst <=? p) && (p + 10 <? zllast) then
    pl ← ZIP_DECODE_PREVLEN zl p;
    let '(prevrawlensize, prevrawlen) := pl in
    encoding ← ZIP_ENTRY_ENCODING zl (p + prevrawlensize);
    dl ← ZIP_DECODE_LENGTH zl (p + prevrawlensize) encoding;
    let '(lensize, len) := dl in
    let headersize := prevrawlensize + lensize in
    if lensize =? 0 then Ret None
    else if OUT_OF_RANGE (p + headersize + len) then Ret None
    else if validate_prevlen && OUT_OF_RANGE (p - prevrawlen) then Ret None
    else Ret (Some (Zlentry prevrawlensize prevrawlen lensize len headersize encoding p))
  else if OUT_OF_RANGE p then Ret None
  else
    prevrawlensize ← ZIP_DECODE_PREVLENSIZE zl p;
    if OUT_OF_RANGE (p + prevrawlensize) then Ret None
    else
      encoding ← ZIP_ENTRY_ENCODING zl (p + prevrawlensize);
      let lensize := zipEncodingLenSize encoding in
      if lensize =? ZIP_ENCODING_SIZE_INVALID then Ret None
      else if OUT_OF_RANGE (p + prevrawlensize + lensize) then Ret None
      else
        pl ← ZIP_DECODE_PREVLEN zl p;
        let '(prevrawlensize, prevrawlen) := pl in
        dl ← ZIP_DECODE_LENGTH zl (p + prevrawlensize) encoding;
        let '(lensize, len) := dl in
        let headersize := prevrawlensize + lensize in
        if OUT_OF_RANGE (p + headersize + len) then Ret None
        else if validate_prevlen && OUT_OF_RANGE (p - prevrawlen) then Ret None
        else Ret (Some (Zlentry prevrawlensize prevrawlen lensize len headersize encoding p)).

(** [assert(zipEntrySafe(...))] *)
Definition assertEntrySafe (zl : list Z) (zlbytes p : Z) (validate_prevlen : bool)
    : outcome zlentry :=
  r ← zipEntrySafe zl zlbytes p validate_prevlen;
  match r with Some e => Ret e | None => Panic end.

Definition zipRawEntryLengthSafe (zl : list Z) (zlbytes p : Z) : outcome Z :=
  e ← assertEntrySafe zl zlbytes p false;
  Ret (u32 (headersize e + len e)).

Definition zipRawEntryLength (zl : list Z) (p : Z) : outcome Z :=
  e ← zipEntry zl p;
  Ret (u32 (headersize e + len e)).

Definition zipAssertValidEntry (zl : list Z) (zlbytes p : Z) : outcome unit :=
  _ ← assertEntrySafe zl zlbytes p true; Ret tt.

(** ** Creating and resizing *)

Definition ziplistNew : outcome (list Z) :=
  let bytes := ZIPLIST_HEADER_SIZE + ZIPLIST_END_SIZE in
  let zl := zmalloc bytes in
  zl ← set_ZIPLIST_BYTES zl bytes;
  zl ← set_ZIPLIST_TAIL_OFFSET zl ZIPLIST_HEADER_SIZE;
  zl ← store 2 zl 8 0;
  wr zl (bytes - 1) ZIP_END.

Definition ziplistResize (zl : list Z) (len : Z) : outcome (list Z) :=
  _ ← c_assert (len <? UINT32_MAX);
  let zl := zrealloc zl len in
  zl ← set_ZIPLIST_BYTES zl len;
  wr zl (len - 1) ZIP_END.

(** ** The cascade of length updates *)

(** Extra bytes of a large previous length. *)
Definition delta : Z := 4.

(** The first loop; the result is the block and the variables [p],
    [prevoffset], [extra] and [cnt]. *)
Fixpoint cascade_scan (fuel : nat) (zl : list Z) (curlen p prevlen prevlensize prevoffset extra : Z)
    (cnt : nat) : outcome (list Z * Z * Z * Z * nat) :=
  c ← rd zl p;
  if c =? ZIP_END then Ret (zl, p, prevoffset, extra, cnt)
  else
    match fuel with
    | O => OutOfFuel
    | S fuel =>
        cur ← assertEntrySafe zl curlen p false;
        if prevrawlen cur =? prevlen then Ret (zl, p, prevoffset, extra, cnt)
        else if prevlensize <=? prevrawlensize cur then
          r ← (if prevrawlensize cur =? prevlensize
               then zipStorePrevEntryLength zl (Some p) prevlen
               else zipStorePrevEntryLengthLarge zl (Some p) prevlen);
          Ret (fst r, p, prevoffset, extra, cnt)
        else
          _ ← c_assert ((prevrawlen cur =? 0) || (prevrawlen cur + delta =? prevlen));
          let rawlen := headersize cur + len cur in
          let prevlen := rawlen + delta in
          r ← zipStorePrevEntryLength zl None prevlen;
          cascade_scan fuel zl curlen (p + rawlen) prevlen (snd r) p (extra + delta) (S cnt)
    end.

(** The second loop, from the last updated entry to the first. *)
Fixpoint cascade_move (cnt : nat) (zl : list Z) (p prevoffset firstentrylen : Z)
    : outcome (list Z) :=
  match cnt with
  | O => Ret zl
  | S cnt =>
      cur ← zipEntry zl prevoffset;
      let rawlen := headersize cur + len cur in
      zl ← memmove zl (p - (rawlen - prevrawlensize cur)) (prevoffset + prevrawlensize cur)
                   (rawlen - prevrawlensize cur);
      let p := p - (rawlen + delta) in
      r ← (if prevrawlen cur =? 0
           then zipStorePrevEntryLength zl (Some p) firstentrylen
           else zipStorePrevEntryLength zl (Some p) (prevrawlen cur + delta));
      cascade_move cnt (fst r) p (prevoffset - prevrawlen cur) firstentrylen
  end.

Definition __ziplistCascadeUpdate (zl : list Z) (p : Z) : outcome (list Z) :=
  curlen ← ZIPLIST_BYTES zl;
  tail ← ZIPLIST_TAIL_OFFSET zl;
  c ← rd zl p;
  if c =? ZIP_END then Ret zl
  else
    cur ← zipEntry zl p;
    let prevlen := u32 (headersize cur + len cur) in
    let firstentrylen := prevlen in
    r ← zipStorePrevEntryLength zl None prevlen;
    st ← cascade_scan (Z.to_nat curlen) zl curlen (p + prevlen) prevlen (snd r) p 0 0;
    let '(zl, p, prevoffset, extra, cnt) := st in
    if extra =? 0 then Ret zl
    else
      zl ← (if tail =? prevoffset then
              if negb (extra - delta =? 0) then
                t ← ZIPLIST_TAIL_OFFSET zl;
                set_ZIPLIST_TAIL_OFFSET zl (t + extra - delta)
              else Ret zl
            else
              t ← ZIPLIST_TAIL_OFFSET zl;
              set_ZIPLIST_TAIL_OFFSET zl (t + extra));
      let offset := p in
      zl ← ziplistResize zl (curlen + extra);
      zl ← memmove zl (p + extra) p (curlen - offset - 1);
      cascade_move cnt zl (p + extra) prevoffset firstentrylen.

(** ** Deletion *)

(** [for (i = 0; p[0] != ZIP_END && i < num; i++)]: [p] and [deleted]. *)
Fixpoint delete_loop (fuel : nat) (zl : list Z) (zlbytes p i num deleted : Z) : outcome (Z * Z) :=
  c ← rd zl p;
  if negb (c =? ZIP_END) && (i <? num) then
    match fuel with
    | O => OutOfFuel
    | S fuel =>
        l ← zipRawEntryLengthSafe zl zlbytes p;
        delete_loop fuel zl zlbytes (p + l) (i + 1) num (deleted + 1)
    end
  else Ret (p, deleted).

(** The part of [__ziplistDelete] before the resize when entries are left
    after the deleted ones: the block, [set_tail] and [nextdiff]. *)
Definition delete_move (zl : list Z) (zlbytes : Z) (first : zlentry) (p totlen : Z)
    : outcome (list Z * Z * Z) :=
  nextdiff ← zipPrevLenByteDiff zl p (prevrawlen first);
  let p := p - nextdiff in
  _ ← c_assert ((e_p first <=? p) && (p <? zlbytes - 1));
  r ← zipStorePrevEntryLength zl (Some p) (prevrawlen first);
  let zl := fst r in
  t ← ZIPLIST_TAIL_OFFSET zl;
  let set_tail := u32 (t - totlen) in
  tail ← assertEntrySafe zl zlbytes p true;
  c ← rd zl (p + u32 (headersize tail + len tail));
  let set_tail := if negb (c =? ZIP_END) then u32 (set_tail + nextdiff) else set_tail in
  let bytes_to_move := zlbytes - p - 1 in
  zl ← memmove zl (e_p first) p bytes_to_move;
  Ret (zl, set_tail, nextdiff).

(** The part of [__ziplistDelete] from the resize on. *)
Definition delete_commit (zl : list Z) (zlbytes offset totlen deleted set_tail nextdiff : Z)
    : outcome (list Z) :=
  let zlbytes := u64 (zlbytes - u32 (totlen - nextdiff)) in
  zl ← ziplistResize zl zlbytes;
  zl ← ZIPLIST_INCR_LENGTH zl (u32 (- deleted));
  _ ← c_assert (set_tail <=? zlbytes - ZIPLIST_END_SIZE);
  zl ← set_ZIPLIST_TAIL_OFFSET zl set_tail;
  if negb (nextdiff =? 0) then __ziplistCascadeUpdate zl offset else Ret zl.

Definition __ziplistDelete (zl : list Z) (p num : Z) : outcome (list Z) :=
  zlbytes ← ZIPLIST_BYTES zl;
  first ← zipEntry zl p;
  r ← delete_loop (Z.to_nat zlbytes) zl zlbytes p 0 num 0;
  let '(p, deleted) := r in
  _ ← c_assert (e_p first <=? p);
  let totlen := u32 (p - e_p first) in
  if 0 <? totlen then
    c ← rd zl p;
    st ← (if negb (c =? ZIP_END) then delete_move zl zlbytes first p totlen
          else Ret (zl, u32 (e_p first - prevrawlen first), 0));
    let '(zl, set_tail, nextdiff) := st in
    delete_commit zl zlbytes (e_p first) totlen deleted set_tail nextdiff
  else Ret zl.

(** ** Insertion *)

(** Write an entry's header and value at [p]; the last step of
    [__ziplistInsert] and the in-place case of [ziplistReplace]. *)
Definition write_value (zl : list Z) (p : Z) (s : list Z) (slen value encoding : Z)
    : outcome (list Z) :=
  r ← zipStoreEntryEncoding zl (Some p) encoding slen;
  let '(zl, n) := r in
  if ZIP_IS_STR encoding then bs ← rdn s 0 slen; wrn zl (p + n) bs
  else zipSaveInteger zl (p + n) value encoding.

(** Make room at [p] when it is not the end: move the tail, store the length
    of the new entry in the next one and adjust the tail offset. *)
Definition insert_move (zl : list Z) (curlen newlen p reqlen nextdiff : Z) (forcelarge : bool)
    : outcome (list Z) :=
  zl ← memmove zl (p + reqlen) (p - nextdiff) (curlen - p - 1 + nextdiff);
  r ← (if forcelarge then zipStorePrevEntryLengthLarge zl (Some (p + reqlen)) reqlen
       else zipStorePrevEntryLength zl (Some (p + reqlen)) reqlen);
  let zl := fst r in
  t ← ZIPLIST_TAIL_OFFSET zl;
  zl ← set_ZIPLIST_TAIL_OFFSET zl (t + reqlen);
  tail ← assertEntrySafe zl newlen (p + reqlen) true;
  c ← rd zl (p + (reqlen + headersize tail + len tail));
  if negb (c =? ZIP_END) then
    t ← ZIPLIST_TAIL_OFFSET zl;
    set_ZIPLIST_TAIL_OFFSET zl (t + nextdiff)
  else Ret zl.

(** [__ziplistInsert] once [prevlen], the encoding and the space [reqlen] of
    the new entry are known; [c] is [p[0]]. *)
Definition insert_commit (zl : list Z) (curlen p c prevlen reqlen : Z) (s : list Z)
    (slen value encoding : Z) : outcome (list Z) :=
  nextdiff ← (if negb (c =? ZIP_END) then zipPrevLenByteDiff zl p (u32 reqlen) else Ret 0);
  let '(nextdiff, forcelarge) :=
    if (nextdiff =? -4) && (reqlen <? 4) then (0, true) else (nextdiff, false) in
  let newlen := u64 (curlen + reqlen + nextdiff) in
  zl ← ziplistResize zl newlen;
  c ← rd zl p;
  zl ← (if negb (c =? ZIP_END) then insert_move zl curlen newlen p reqlen nextdiff forcelarge
        else set_ZIPLIST_TAIL_OFFSET zl p);
  zl ← (if negb (nextdiff =? 0) then __ziplistCascadeUpdate zl (p + reqlen) else Ret zl);
  r ← zipStorePrevEntryLength zl (Some p) prevlen;
  let '(zl, n) := r in
  zl ← write_value zl (p + n) s slen value encoding;
  ZIPLIST_INCR_LENGTH zl 1.

Definition __ziplistInsert (zl : list Z) (p : Z) (s : list Z) (slen : Z) : outcome (list Z) :=
  curlen ← ZIPLIST_BYTES zl;
  c ← rd zl p;
  prevlen ← (if negb (c =? ZIP_END) then pl ← ZIP_DECODE_PREVLEN zl p; Ret (snd pl)
             else
               ptail ← ZIPLIST_ENTRY_TAIL zl;
               ct ← rd zl ptail;
               if negb (ct =? ZIP_END) then zipRawEntryLengthSafe zl curlen ptail else Ret 0);
  te ← zipTryEncoding s slen;
  let '(value, encoding) := match te with Some ve => ve | None => (123456789, 0) end in
  reqlen ← match te with Some _ => zipIntSize encoding | None => Ret slen end;
  r ← zipStorePrevEntryLength zl None prevlen;
  let reqlen := reqlen + snd r in
  r ← zipStoreEntryEncoding zl None encoding slen;
  let reqlen := reqlen + snd r in
  insert_commit zl curlen p c prevlen reqlen s slen value encoding.

(** ** Merging *)

(** [first] and [second] are [*first] and [*second] ([None] when null) and
    [same] says whether they are the same pointer.  The result is the return
    value and the new values of [*first] and [*second]. *)
Definition ziplistMerge (first second : option (list Z)) (same : bool)
    : outcome (option (list Z) * option (list Z) * option (list Z)) :=
  match first, second with
  | Some fst_zl, Some snd_zl =>
      if same then Ret (None, first, second)
      else
        first_bytes ← ZIPLIST_BYTES fst_zl;
        first_len ← ZIPLIST_LENGTH fst_zl;
        second_bytes ← ZIPLIST_BYTES snd_zl;
        second_len ← ZIPLIST_LENGTH snd_zl;
        let append := second_len <=? first_len in
        let '(target, target_bytes, source, source_bytes) :=
          if append then (fst_zl, first_bytes, snd_zl, second_bytes)
          else (snd_zl, second_bytes, fst_zl, first_bytes) in
        let zlbytes := u64 (first_bytes + second_bytes - ZIPLIST_HEADER_SIZE - ZIPLIST_END_SIZE) in
        let zllength := first_len + second_len in
        let zllength := if zllength <? UINT16_MAX then zllength else UINT16_MAX in
        _ ← c_assert (zlbytes <? UINT32_MAX);
        first_offset ← ZIPLIST_TAIL_OFFSET fst_zl;
        second_offset ← ZIPLIST_TAIL_OFFSET snd_zl;
        let target := zrealloc target zlbytes in
        target ← (if append then
                    bs ← rdn source ZIPLIST_HEADER_SIZE (source_bytes - ZIPLIST_HEADER_SIZE);
                    wrn target (target_bytes - ZIPLIST_END_SIZE) bs
                  else
                    target ← memmove target (source_bytes - ZIPLIST_END_SIZE)
                               ZIPLIST_HEADER_SIZE (target_bytes - ZIPLIST_HEADER_SIZE);
                    bs ← rdn source 0 (source_bytes - ZIPLIST_END_SIZE);
                    wrn target 0 bs);
        target ← set_ZIPLIST_BYTES target zlbytes;
        target ← set_ZIPLIST_LENGTH target zllength;
        target ← set_ZIPLIST_TAIL_OFFSET target
                   ((first_bytes - ZIPLIST_END_SIZE) + (second_offset - ZIPLIST_HEADER_SIZE));
        target ← __ziplistCascadeUpdate target first_offset;
        if append then Ret (Some target, Some target, None)
        else Ret (Some target, None, Some target)
  | _, _ => Ret (None, first, second)
  end.

(** ** Navigation *)

Inductive where_t := ZIPLIST_HEAD | ZIPLIST_TAIL.

Definition ziplistPush (zl : list Z) (s : list Z) (slen : Z) (where_ : where_t)
    : outcome (list Z) :=
  p ← match where_ with
      | ZIPLIST_HEAD => Ret (ZIPLIST_ENTRY_HEAD zl)
      | ZIPLIST_TAIL => ZIPLIST_ENTRY_END zl
      end;
  __ziplistInsert zl p s slen.

(** [while (prevlen > 0 && index--)]: [p] and [index]. *)
Fixpoint index_back (fuel : nat) (zl : list Z) (zlbytes p prevlen index : Z) : outcome (Z * Z) :=
  if 0 <? prevlen then
    if index =? 0 then Ret (p, -1)
    else
      match fuel with
      | O => OutOfFuel
      | S fuel =>
          let p := p - prevlen in
          _ ← c_assert ((ZIPLIST_HEADER_SIZE <=? p) && (p <? zlbytes - ZIPLIST_END_SIZE));
          pl ← ZIP_DECODE_PREVLEN zl p;
          index_back fuel zl zlbytes p (snd pl) (index - 1)
      end
  else Ret (p, index).

(** [while (index--)]: [p] and [index]. *)
Fixpoint index_forward (fuel : nat) (zl : list Z) (zlbytes p index : Z) : outcome (Z * Z) :=
  if index =? 0 then Ret (p, -1)
  else
    match fuel with
    | O => OutOfFuel
    | S fuel =>
        l ← zipRawEntryLengthSafe zl zlbytes p;
        let p := p + l in
        c ← rd zl p;
        if c =? ZIP_END then Ret (p, index - 1)
        else index_forward fuel zl zlbytes p (index - 1)
    end.

(** [None]: the function returns [NULL]. *)
Definition ziplistIndex (zl : list Z) (index : Z) : outcome (option Z) :=
  zlbytes ← ZIPLIST_BYTES zl;
  r ← (if index <? 0 then
         let index := s32 (- index) - 1 in
         p ← ZIPLIST_ENTRY_TAIL zl;
         c ← rd zl p;
         if negb (c =? ZIP_END) then
           prevlensize ← ZIP_DECODE_PREVLENSIZE zl p;
           _ ← c_assert (p + prevlensize <? zlbytes - ZIPLIST_END_SIZE);
           pl ← ZIP_DECODE_PREVLEN zl p;
           index_back (Z.to_nat zlbytes) zl zlbytes p (snd pl) index
         else Ret (p, index)
       else index_forward (Z.to_nat zlbytes) zl zlbytes (ZIPLIST_ENTRY_HEAD zl) index);
  let '(p, index) := r in
  c ← rd zl p;
  if (c =? ZIP_END) || (0 <? index) then Ret None
  else
    _ ← zipAssertValidEntry zl zlbytes p;
    Ret (Some p).

Definition ziplistNext (zl : list Z) (p : Z) : outcome (option Z) :=
  zlbytes ← ZIPLIST_BYTES zl;
  c ← rd zl p;
  if c =? ZIP_END then Ret None
  else
    l ← zipRawEntryLength zl p;
    let p := p + l in
    c ← rd zl p;
    if c =? ZIP_END then Ret None
    else
      _ ← zipAssertValidEntry zl zlbytes p;
      Ret (Some p).

Definition ziplistPrev (zl : list Z) (p : Z) : outcome (option Z) :=
  c ← rd zl p;
  if c =? ZIP_END then
    p ← ZIPLIST_ENTRY_TAIL zl;
    c ← rd zl p;
    Ret (if c =? ZIP_END then None else Some p)
  else if p =? ZIPLIST_ENTRY_HEAD zl then Ret None
  else
    pl ← ZIP_DECODE_PREVLEN zl p;
    let '(prevlensize, prevlen) := pl in
    _ ← c_assert (0 <? prevlen);
    let p := p - prevlen in
    zlbytes ← ZIPLIST_BYTES zl;
    _ ← zipAssertValidEntry zl zlbytes p;
    Ret (Some p).

(** What [ziplistGet] stores through its arguments: [*sstr] and [*slen], or
    [*sval]. *)
Inductive zget := GetStr (sstr slen : Z) | GetInt (sval : Z).

(** [None]: the function returns 0. *)
Definition ziplistGet (zl : list Z) (p : option Z) : outcome (option zget) :=
  match p with
  | None => Ret None
  | Some p =>
      c ← rd zl p;
      if c =? ZIP_END then Ret None
      else
        entry ← zipEntry zl p;
        if ZIP_IS_STR (encoding entry) then
          Ret (Some (GetStr (p + headersize entry) (len entry)))
        else
          v ← zipLoadInteger zl (p + headersize entry) (encoding entry);
          Ret (Some (GetInt v))
  end.

Definition ziplistInsert (zl : list Z) (p : Z) (s : list Z) (slen : Z) : outcome (list Z) :=
  __ziplistInsert zl p s slen.

(** The block and the new value of [*p]. *)
Definition ziplistDelete (zl : list Z) (p : Z) : outcome (list Z * Z) :=
  let offset := p in
  zl ← __ziplistDelete zl p 1;
  Ret (zl, offset).

Definition ziplistDeleteRange (zl : list Z) (index num : Z) : outcome (list Z) :=
  p ← ziplistIndex zl index;
  match p with
  | None => Ret zl
  | Some p => __ziplistDelete zl p num
  end.

Definition ziplistReplace (zl : list Z) (p : Z) (s : list Z) (slen : Z) : outcome (list Z) :=
  entry ← zipEntry zl p;
  te ← zipTryEncoding s slen;
  let '(value, encoding) := match te with Some ve => ve | None => (123456789, 0) end in
  reqlen ← match te with Some _ => zipIntSize encoding | None => Ret slen end;
  r ← zipStoreEntryEncoding zl None encoding slen;
  let reqlen := u32 (reqlen + snd r) in
  if reqlen =? u32 (lensize entry + len entry) then
    write_value zl (p + prevrawlensize entry) s slen value encoding
  else
    r ← ziplistDelete zl p;
    let '(zl, p) := r in
    ziplistInsert zl p s slen.

(** [memcmp(p, s, n) == 0] *)
Definition mem_eq (zl : list Z) (p : Z) (s : list Z) (n : Z) : outcome bool :=
  x ← rdn zl p n;
  y ← rdn s 0 n;
  Ret (bool_decide (x = y)).

Definition ziplistCompare (zl : list Z) (p : Z) (sstr : list Z) (slen : Z) : outcome bool :=
  c ← rd zl p;
  if c =? ZIP_END then Ret false
  else
    entry ← zipEntry zl p;
    if ZIP_IS_STR (encoding entry) then
      if len entry =? slen then mem_eq zl (p + headersize entry) sstr slen else Ret false
    else
      te ← zipTryEncoding sstr slen;
      match te with
      | Some (sval, _) =>
          zval ← zipLoadInteger zl (p + headersize entry) (encoding entry);
          Ret (zval =? sval)
      | None => Ret false
      end.

(** The loop of [ziplistFind]; [vencoding = 0] until the searched value has
    been tried as an integer. *)
Fixpoint find_loop (fuel : nat) (zl : list Z) (zlbytes p : Z) (vstr : list Z)
    (vlen skip skipcnt vencoding vll : Z) : outcome (option Z) :=
  c ← rd zl p;
  if c =? ZIP_END then Ret None
  else
    match fuel with
    | O => OutOfFuel
    | S fuel =>
        e ← assertEntrySafe zl zlbytes p true;
        let q := p + prevrawlensize e + lensize e in
        if skipcnt =? 0 then
          if ZIP_IS_STR (encoding e) then
            eq ← (if len e =? vlen then mem_eq zl q vstr vlen else Ret false);
            if (eq : bool) then Ret (Some p)
            else find_loop fuel zl zlbytes (q + len e) vstr vlen skip skip vencoding vll
          else
            r ← (if vencoding =? 0 then
                   te ← zipTryEncoding vstr vlen;
                   let '(vll, vencoding) :=
                     match te with Some ve => ve | None => (vll, UCHAR_MAX) end in
                   _ ← c_assert (negb (vencoding =? 0));
                   Ret (vll, vencoding)
                 else Ret (vll, vencoding));
            let '(vll, vencoding) := r in
            eq ← (if negb (vencoding =? UCHAR_MAX) then
                    ll ← zipLoadInteger zl q (encoding e); Ret (ll =? vll)
                  else Ret false);
            if (eq : bool) then Ret (Some p)
            else find_loop fuel zl zlbytes (q + len e) vstr vlen skip skip vencoding vll
        else find_loop fuel zl zlbytes (q + len e) vstr vlen skip (skipcnt - 1) vencoding vll
    end.

Definition ziplistFind (zl : list Z) (p : Z) (vstr : list Z) (vlen skip : Z)
    : outcome (option Z) :=
  zlbytes ← ziplistBlobLen zl;
  find_loop (Z.to_nat zlbytes) zl zlbytes p vstr vlen (s32 skip) 0 0 0.

(** The scan of [ziplistLen] for the end of the list. *)
Fixpoint len_loop (fuel : nat) (zl : list Z) (zlbytes p n : Z) : outcome Z :=
  c ← rd zl p;
  if c =? ZIP_END then Ret n
  else
    match fuel with
    | O => OutOfFuel
    | S fuel =>
        l ← zipRawEntryLengthSafe zl zlbytes p;
        len_loop fuel zl zlbytes (p + l) (u32 (n + 1))
    end.

(** The block (the length may be stored again) and the return value. *)
Definition ziplistLen (zl : list Z) : outcome (list Z * Z) :=
  l ← ZIPLIST_LENGTH zl;
  if l <? UINT16_MAX then Ret (zl, l)
  else
    zlbytes ← ZIPLIST_BYTES zl;
    n ← len_loop (Z.to_nat zlbytes) zl zlbytes ZIPLIST_HEADER_SIZE 0;
    zl ← (if n <? UINT16_MAX then set_ZIPLIST_LENGTH zl n else Ret zl);
    Ret (zl, n).

(** ** Validation *)

(** [entry_cb] is a callback on the block, the entry and the user data; the
    result is the return value of the loop's early [return 0] ([None]) or
    [p], [prev] and [count] at its end. *)
Fixpoint validate_loop {D} (fuel : nat) (zl : list Z) (size p : Z) (prev : option Z)
    (prev_raw_size count : Z) (entry_cb : option (Z → D → bool * D)) (cb_userdata : D)
    : outcome (option (Z * option Z * Z)) :=
  c ← rd zl p;
  if c =? ZIP_END then Ret (Some (p, prev, count))
  else
    match fuel with
    | O => OutOfFuel
    | S fuel =>
        r ← zipEntrySafe zl size p true;
        match r with
        | None => Ret None
        | Some e =>
            if negb (prevrawlen e =? prev_raw_size) then Ret None
            else
              let '(ok, cb_userdata) :=
                match entry_cb with
                | Some cb => cb p cb_userdata
                | None => (true, cb_userdata)
                end in
              if negb ok then Ret None
              else
                let n := u32 (headersize e + len e) in
                validate_loop fuel zl size (p + n) (Some p) n (u32 (count + 1)) entry_cb cb_userdata
        end
    end.

Definition ziplistValidateIntegrity {D} (zl : list Z) (size : Z) (deep : bool)
    (entry_cb : option (Z → D → bool * D)) (cb_userdata : D) : outcome bool :=
  if size <? ZIPLIST_HEADER_SIZE + ZIPLIST_END_SIZE then Ret false
  else
    bytes ← ZIPLIST_BYTES zl;
    if negb (bytes =? size) then Ret false
    else
      c ← rd zl (size - ZIPLIST_END_SIZE);
      if negb (c =? ZIP_END) then Ret false
      else
        t ← ZIPLIST_TAIL_OFFSET zl;
        if size - ZIPLIST_END_SIZE <? t then Ret false
        else if negb deep then Ret true
        else
          r ← validate_loop (Z.to_nat size) zl size (ZIPLIST_ENTRY_HEAD zl) None 0 0
                entry_cb cb_userdata;
          match r with
          | None => Ret false
          | Some (p, prev, count) =>
              if negb (p =? bytes - ZIPLIST_END_SIZE) then Ret false
              else
                tail ← ZIPLIST_ENTRY_TAIL zl;
                if match prev with Some q => negb (q =? tail) | None => false end then Ret false
                else
                  header_count ← ZIPLIST_LENGTH zl;
                  if negb (header_count =? UINT16_MAX) && negb (count =? header_count)
                  then Ret false else Ret true
          end.

(** ** Random selection: [r] is the result of [rand()]. *)

Definition ziplistRandomPair (zl : list Z) (total_count r : Z) : outcome (zget * zget) :=
  _ ← c_assert (negb (total_count =? 0));
  let r := s32 (r mod total_count * 2) in
  p ← ziplistIndex zl r;
  ret ← ziplistGet zl p;
  match p, ret with
  | Some p, Some key =>
      p ← ziplistNext zl p;
      ret ← ziplistGet zl p;
      match ret with
      | Some val => Ret (key, val)
      | None => Panic
      end
  | _, _ => Panic
  end.

End ziplist.
End Ziplist.
