(* ===== verification/ZiplistRep.v ===== *)
(** The representation of a ziplist, and what decoding an entry returns.

    [layout t h es] is the block that holds the entries [es] with tail offset
    [t] and entry count [h]; [rep es b] fixes the tail offset to the start of
    the last entry and the count to the number of entries or to the "unknown"
    mark 65535. *)
From S2P Require Import Prelude Endianconv Util Ziplist.
Import Util Ziplist.

Module ZiplistRep.

(** ** Entries *)

(** The value of an entry. *)
Inductive zval := ZStr (s : list Z) | ZInt (v : Z).

(** [header enc n hdr]: the bytes [hdr] introduce a value of [n] bytes with
    the encoding [enc]. *)
Inductive header : Z → Z → list Z → Prop :=
| header_str6 n : 0 <= n < 64 → header 0 n [n]
| header_str14 n : 0 <= n < 16384 → header 64 n [64 + n / 256; n mod 256]
| header_str32 c n : 128 <= c < 192 → 0 <= n < 2 ^ 32 → header 128 n (c :: be_enc 4 n)
| header_int8 : header 254 1 [254]
| header_int16 : header 192 2 [192]
| header_int24 : header 240 3 [240]
| header_int32 : header 208 4 [208]
| header_int64 : header 224 8 [224]
| header_imm k : 241 <= k <= 253 → header k 0 [k].

(** An entry without the length of its predecessor: [big] says whether that
    length takes 5 bytes instead of 1. *)
Record entry := Entry { big : bool; enc : Z; hdr : list Z; data : list Z }.

Definition entry_wf (e : entry) : Prop :=
  header (enc e) (zlen (data e)) (hdr e) ∧ bytes_ok (data e).

Definition int_val (enc : Z) (data : list Z) : Z :=
  if (241 <=? enc) && (enc <=? 253) then enc - 241 else wraps (8 * zlen data) (le_dec data).

Definition e_val (e : entry) : zval :=
  if enc e <? 192 then ZStr (data e) else ZInt (int_val (enc e) (data e)).

Definition psize (big : bool) : Z := if big then 5 else 1.
Definition pbytes (big : bool) (prev : Z) : list Z :=
  if big then 254 :: le_enc 4 prev else [prev].
Definition pfits (big : bool) (prev : Z) : Prop :=
  0 <= prev < 2 ^ 32 ∧ (big = false → prev < 254).

Definition body (e : entry) : list Z := hdr e ++ data e.
Definition esize (e : entry) : Z := psize (big e) + zlen (body e).
Definition ebytes (prev : Z) (e : entry) : list Z := pbytes (big e) prev ++ body e.

(** ** Chains of entries, each preceded by the size of the one before *)

Fixpoint chain (prev : Z) (es : list entry) : list Z :=
  match es with
  | [] => []
  | e :: es => ebytes prev e ++ chain (esize e) es
  end.

Fixpoint chain_ok (prev : Z) (es : list entry) : Prop :=
  match es with
  | [] => True
  | e :: es => entry_wf e ∧ pfits (big e) prev ∧ chain_ok (esize e) es
  end.

Fixpoint csize (es : list entry) : Z :=
  match es with
  | [] => 0
  | e :: es => esize e + csize es
  end.

(** The size of the last entry, [prev] when there is none. *)
Definition lsize (prev : Z) (es : list entry) : Z := foldl (λ _ e, esize e) prev es.

(** The offset of entry [i]; past the last entry, of the end mark. *)
Definition offset (es : list entry) (i : nat) : Z := 10 + csize (take i es).
Definition tail_offset (es : list entry) : Z := offset es (pred (length es)).

Definition zhead (total t h : Z) : list Z := le_enc 4 total ++ le_enc 4 t ++ le_enc 2 h.

Definition layout (t h : Z) (es : list entry) : list Z :=
  zhead (11 + csize es) t h ++ chain 0 es ++ [255].

Definition count_ok (h : Z) (es : list entry) : Prop :=
  0 <= h <= 65535 ∧ (h = 65535 ∨ h = zlen es).

Definition rep (es : list entry) (b : list Z) : Prop :=
  chain_ok 0 es ∧ 11 + csize es < 2 ^ 32 ∧
  ∃ h, count_ok h es ∧ b = layout (tail_offset es) h es.

(** What the decoding functions return for an entry at [p]. *)
Definition zlentry_of (p prev : Z) (e : entry) : zlentry :=
  Zlentry (psize (big e)) prev (zlen (hdr e)) (zlen (data e))
    (psize (big e) + zlen (hdr e)) (enc e) p.

(** ** Bits *)

Lemma land_63 v : Z.land v 63 = v mod 64.
Proof. apply (Z.land_ones v 6). lia. Qed.

Lemma bytes4_lor c1 c2 c3 c4 :
  is_byte c1 → is_byte c2 → is_byte c3 → is_byte c4 →
  Z.lor (Z.lor (Z.lor (Z.shiftl c4 24) (Z.shiftl c3 16)) (Z.shiftl c2 8)) c1
  = le_dec [c1; c2; c3; c4].
Proof.
  unfold is_byte. intros H1 H2 H3 H4. change (le_dec [c1; c2; c3; c4])
    with (c1 + 256 * (c2 + 256 * (c3 + 256 * (c4 + 256 * 0)))).
  rewrite <- Z.lor_assoc, (lor_shiftl c2 c1 8) by lia.
  rewrite <- Z.lor_assoc, (lor_shiftl c3 _ 16) by lia.
  rewrite lor_shiftl by lia. lia.
Qed.

Lemma le_enc_4 v :
  le_enc 4 v = [v mod 256; v / 256 mod 256; v / 256 / 256 mod 256; v / 256 / 256 / 256 mod 256].
Proof. reflexivity. Qed.

Lemma be_enc_4 v :
  be_enc 4 v = [v / 256 / 256 / 256 mod 256; v / 256 / 256 mod 256; v / 256 mod 256; v mod 256].
Proof. reflexivity. Qed.

(** The string mask on a byte. *)
Lemma land_192 c : is_byte c → Z.land c 192 = c / 64 * 64.
Proof.
  unfold is_byte. intros Hc. change 192 with (Z.shiftl 3 6).
  apply Z.bits_inj'. intros i Hi. rewrite Z.land_spec.
  change 64 with (2 ^ 6). rewrite <- Z.shiftr_div_pow2, <- Z.shiftl_mul_pow2 by lia.
  rewrite !Z.shiftl_spec by done. destruct (Z.lt_ge_cases i 6).
  - rewrite !(Z.testbit_neg_r _ (i - 6)) by lia. by rewrite andb_false_r.
  - rewrite Z.shiftr_spec by lia. replace (i - 6 + 6) with i by lia.
    destruct (Z.lt_ge_cases i 8).
    + assert (i = 6 ∨ i = 7) as [->| ->] by lia; by rewrite andb_true_r.
    + rewrite <- (Z.mod_small c (2 ^ 8)), Z.mod_pow2_bits_high by lia. done.
Qed.

(** ** Decoding *)

(** The constants of the source as numbers. *)
Ltac zconst :=
  change ZIP_STR_06B with 0 in *; change ZIP_STR_14B with 64 in *;
  change ZIP_STR_32B with 128 in *; change ZIP_INT_16B with 192 in *;
  change ZIP_INT_32B with 208 in *; change ZIP_INT_64B with 224 in *;
  change ZIP_INT_24B with 240 in *;
  unfold ZIP_STR_MASK, ZIP_INT_8B, ZIP_INT_IMM_MIN, ZIP_INT_IMM_MAX, ZIP_END, ZIP_BIG_PREVLEN,
    ZIPLIST_HEADER_SIZE, ZIPLIST_END_SIZE, ZIP_ENCODING_SIZE_INVALID, UINT16_MAX, UINT32_MAX,
    UCHAR_MAX, INT24_MIN, INT24_MAX, delta in *;
  change (4 * 2 + 2) with 10 in *.

Lemma header_nonempty en n hd : header en n hd → 1 <= zlen hd <= 5.
Proof. destruct 1; zl. Qed.

Lemma header_len en n hd : header en n hd → 0 <= n < 2 ^ 32.
Proof. destruct 1; lia. Qed.

Lemma header_bytes en n hd : header en n hd → bytes_ok hd.
Proof.
  destruct 1; try (constructor; [unfold is_byte; lia|done]).
  - dm n 256. constructor; [|constructor; [|done]]; unfold is_byte; lia.
  - constructor; [unfold is_byte; lia|apply be_enc_bytes].
Qed.

(** Only the encodings of integers have both upper bits set. *)
Lemma header_is_str en n hd : header en n hd → ZIP_IS_STR en = (en <? 192).
Proof.
  unfold ZIP_IS_STR. zconst. destruct 1; try done.
  rewrite land_192 by (unfold is_byte; lia). test (k <? 192) false. dm k 64. lia.
Qed.

Lemma ZIP_ENTRY_ENCODING_at zl en n hd a c p :
  header en n hd → zl = a ++ hd ++ c → zlen a = p → ZIP_ENTRY_ENCODING zl p = Ret en.
Proof.
  intros Hh -> Hp. unfold ZIP_ENTRY_ENCODING. zconst.
  destruct Hh; cbn [app]; rewrite (rd_app a _ _ p) by done; run; try done.
  - test (n <? 192) true. rewrite land_192 by (unfold is_byte; lia). by rewrite Z.div_small.
  - dm n 256. test (64 + n / 256 <? 192) true. rewrite land_192 by (unfold is_byte; lia).
    dm (64 + n / 256) 64. f_equal. lia.
  - test (c0 <? 192) true. rewrite land_192 by (unfold is_byte; lia). dm c0 64. f_equal. lia.
  - by test (k <? 192) false.
Qed.

Lemma ZIP_DECODE_LENGTH_at zl en n hd a c p :
  header en n hd → zl = a ++ hd ++ c → zlen a = p →
  ZIP_DECODE_LENGTH zl p en = Ret (zlen hd, n).
Proof.
  intros Hh -> Hp. unfold ZIP_DECODE_LENGTH. zconst.
  destruct Hh; try done; cbn [app Z.ltb Z.eqb Z.compare Pos.compare Pos.compare_cont Pos.eqb].
  - rewrite (rd_app a _ _ p) by done. run. rewrite land_63, Z.mod_small by lia. done.
  - rewrite (rd_app a _ _ p) by done. run.
    rewrite (rd_at _ (p + 1) (n mod 256) (a ++ [64 + n / 256]) c) by (lapp; done || zl). run.
    dm n 256. rewrite land_63, lor_shiftl by lia. do 2 f_equal. dm (64 + n / 256) 64. lia.
  - rewrite be_enc_4. set (c1 := n / 256 / 256 / 256 mod 256). set (c2 := n / 256 / 256 mod 256).
    set (c3 := n / 256 mod 256). set (c4 := n mod 256). cbn [app].
    rewrite (rd_at _ (p + 1) c1 (a ++ [c0]) (c2 :: c3 :: c4 :: c)) by (lapp; done || zl). run.
    rewrite (rd_at _ (p + 2) c2 (a ++ [c0; c1]) (c3 :: c4 :: c)) by (lapp; done || zl). run.
    rewrite (rd_at _ (p + 3) c3 (a ++ [c0; c1; c2]) (c4 :: c)) by (lapp; done || zl). run.
    rewrite (rd_at _ (p + 4) c4 (a ++ [c0; c1; c2; c3]) c) by (lapp; done || zl). run.
    rewrite bytes4_lor by (apply Z.mod_pos_bound; lia).
    change [c4; c3; c2; c1] with (le_enc 4 n). rewrite le_dec_enc, Z.mod_small by lia. done.
  - test (k <? 192) false. test (k =? 254) false. test (k =? 192) false. test (k =? 240) false.
    test (k =? 208) false. test (k =? 224) false. by test ((241 <=? k) && (k <=? 253)) true.
Qed.

Lemma zipEncodingLenSize_ok en n hd : header en n hd → zipEncodingLenSize en = zlen hd.
Proof.
  unfold zipEncodingLenSize. zconst. destruct 1; try done.
  test ((k =? 192) || (k =? 208) || (k =? 240) || (k =? 224) || (k =? 254)) false.
  by test ((241 <=? k) && (k <=? 253)) true.
Qed.

Lemma zlen_pbytes bg prev : zlen (pbytes bg prev) = psize bg.
Proof. by destruct bg. Qed.

Lemma zlen_ebytes prev e : zlen (ebytes prev e) = esize e.
Proof. unfold ebytes, esize. by rewrite zlen_app, zlen_pbytes. Qed.

Lemma ZIP_DECODE_PREVLENSIZE_at zl bg prev a c p :
  pfits bg prev → zl = a ++ pbytes bg prev ++ c → zlen a = p →
  ZIP_DECODE_PREVLENSIZE zl p = Ret (psize bg).
Proof.
  intros [Hp Hs] -> Ha. unfold ZIP_DECODE_PREVLENSIZE. zconst.
  destruct bg; cbn [pbytes app]; rewrite (rd_app a _ _ p) by done; run; [done|].
  specialize (Hs eq_refl). by test (prev <? 254) true.
Qed.

Lemma ZIP_DECODE_PREVLEN_at zl bg prev a c p :
  pfits bg prev → zl = a ++ pbytes bg prev ++ c → zlen a = p →
  ZIP_DECODE_PREVLEN zl p = Ret (psize bg, prev).
Proof.
  intros Hf E Ha. unfold ZIP_DECODE_PREVLEN.
  rewrite (ZIP_DECODE_PREVLENSIZE_at zl bg prev a c) by done. run. subst zl.
  destruct Hf as [Hp _]. destruct bg; cbn [psize pbytes app]; [|by rewrite (rd_app a _ _ p) by done].
  change (5 =? 1) with false. cbv iota. rewrite le_enc_4.
  set (c4 := prev / 256 / 256 / 256 mod 256). set (c3 := prev / 256 / 256 mod 256).
  set (c2 := prev / 256 mod 256). set (c1 := prev mod 256). cbn [app].
  rewrite (rd_at _ (p + 4) c4 (a ++ [254; c1; c2; c3]) c) by (lapp; done || zl). run.
  rewrite (rd_at _ (p + 3) c3 (a ++ [254; c1; c2]) (c4 :: c)) by (lapp; done || zl). run.
  rewrite (rd_at _ (p + 2) c2 (a ++ [254; c1]) (c3 :: c4 :: c)) by (lapp; done || zl). run.
  rewrite (rd_at _ (p + 1) c1 (a ++ [254]) (c2 :: c3 :: c4 :: c)) by (lapp; done || zl). run.
  rewrite bytes4_lor by (apply Z.mod_pos_bound; lia).
  change [c1; c2; c3; c4] with (le_enc 4 prev). rewrite le_dec_enc, wrapu_id, Z.mod_small by
    (try apply Z.mod_pos_bound; lia). done.
Qed.

(** [zipEntry] decodes the entry it points at; the value is not read. *)
Lemma zipEntry_at zl prev e a c p :
  header (enc e) (zlen (data e)) (hdr e) → pfits (big e) prev →
  zl = a ++ pbytes (big e) prev ++ hdr e ++ c → zlen a = p →
  zipEntry zl p = Ret (zlentry_of p prev e).
Proof.
  intros Hh Hf E Ha. unfold zipEntry.
  rewrite (ZIP_DECODE_PREVLEN_at zl (big e) prev a (hdr e ++ c)) by done. run.
  assert (zl = (a ++ pbytes (big e) prev) ++ hdr e ++ c) as E' by (by rewrite E; lapp).
  pose proof (zlen_pbytes (big e) prev).
  rewrite (ZIP_ENTRY_ENCODING_at zl _ _ _ _ c _ Hh E') by zl. run.
  rewrite (ZIP_DECODE_LENGTH_at zl _ _ _ _ c _ Hh E') by zl. run.
  pose proof (header_nonempty _ _ _ Hh). by rewrite c_assert_true by lia.
Qed.

Lemma zipEntrySafe_at zl zlbytes prev e a c p (v : bool) :
  header (enc e) (zlen (data e)) (hdr e) → pfits (big e) prev →
  zl = a ++ ebytes prev e ++ c → zlen a = p → zlen zl = zlbytes →
  10 <= p → c ≠ [] → (v = true → prev <= p - 10) →
  zipEntrySafe zl zlbytes p v = Ret (Some (zlentry_of p prev e)).
Proof.
  intros Hh Hf E Ha Hz Hp Hc Hv. pose proof (header_nonempty _ _ _ Hh) as Hn.
  assert (1 <= zlen c) by (destruct c; [done|zl]).
  assert (zl = a ++ pbytes (big e) prev ++ hdr e ++ data e ++ c) as E1
    by (rewrite E; unfold ebytes, body; by lapp).
  assert (zl = (a ++ pbytes (big e) prev) ++ hdr e ++ data e ++ c) as E2 by (rewrite E1; by lapp).
  pose proof (zlen_pbytes (big e) prev) as Hps.
  assert (zlbytes = p + psize (big e) + zlen (hdr e) + zlen (data e) + zlen c) as Hb
    by (rewrite <- Hz, E1, !zlen_app; lia).
  pose proof (zlen_nonneg (data e)). destruct Hf as [Hf1 Hf2].
  assert (1 <= psize (big e) <= 5) by (destruct (big e); simpl; lia).
  unfold zipEntrySafe. zconst.
  rewrite (ZIP_DECODE_PREVLEN_at zl (big e) prev a (hdr e ++ data e ++ c)),
    (ZIP_DECODE_PREVLENSIZE_at zl (big e) prev a (hdr e ++ data e ++ c)) by done. run.
  rewrite (ZIP_ENTRY_ENCODING_at zl _ _ _ _ (data e ++ c) _ Hh E2) by zl. run.
  rewrite (ZIP_DECODE_LENGTH_at zl _ _ _ _ (data e ++ c) _ Hh E2) by zl. run.
  rewrite (zipEncodingLenSize_ok _ _ _ Hh).
  test (zlen (hdr e) =? 0) false. test (zlen (hdr e) =? 255) false.
  test ((p <? 10) || (zlbytes - 1 <? p)) false.
  test ((p + psize (big e) <? 10) || (zlbytes - 1 <? p + psize (big e))) false.
  test ((p + psize (big e) + zlen (hdr e) <? 10)
        || (zlbytes - 1 <? p + psize (big e) + zlen (hdr e))) false.
  test ((p + (psize (big e) + zlen (hdr e)) + zlen (data e) <? 10)
        || (zlbytes - 1 <? p + (psize (big e) + zlen (hdr e)) + zlen (data e))) false.
  replace (v && ((p - prev <? 10) || (zlbytes - 1 <? p - prev))) with false.
  - by destruct ((10 <=? p) && (p + 10 <? zlbytes - 1)).
  - destruct v; [|done]. specialize (Hv eq_refl). simpl. lia.
Qed.

Lemma assertEntrySafe_at zl zlbytes prev e a c p (v : bool) :
  header (enc e) (zlen (data e)) (hdr e) → pfits (big e) prev →
  zl = a ++ ebytes prev e ++ c → zlen a = p → zlen zl = zlbytes →
  10 <= p → c ≠ [] → (v = true → prev <= p - 10) →
  assertEntrySafe zl zlbytes p v = Ret (zlentry_of p prev e).
Proof. intros. unfold assertEntrySafe. by erewrite zipEntrySafe_at. Qed.

Lemma zipRawEntryLengthSafe_at zl zlbytes prev e a c p :
  header (enc e) (zlen (data e)) (hdr e) → pfits (big e) prev →
  zl = a ++ ebytes prev e ++ c → zlen a = p → zlen zl = zlbytes →
  10 <= p → c ≠ [] → esize e < 2 ^ 32 → zipRawEntryLengthSafe zl zlbytes p = Ret (esize e).
Proof.
  intros Hh Hf E Ha Hz Hp Hc He. unfold zipRawEntryLengthSafe.
  rewrite (assertEntrySafe_at zl zlbytes prev e a c p false) by done. run. simpl.
  pose proof (header_nonempty _ _ _ Hh). unfold esize, body in *. rewrite zlen_app in *.
  rewrite wrapu_id; [f_equal; lia|]. pose proof (zlen_nonneg (data e)). destruct (big e); simpl in *; lia.
Qed.

(** ** Header fields *)

Lemma zlen_zhead T t h : zlen (zhead T t h) = 10.
Proof. reflexivity. Qed.

Section header_fields.
Context {H : HostOrder}.
Context (zl X : list Z) (T t h : Z) (E : zl = zhead T t h ++ X).

Lemma ZIPLIST_BYTES_at : 0 <= T < 2 ^ 32 → ZIPLIST_BYTES zl = Ret T.
Proof.
  intros HT. unfold ZIPLIST_BYTES.
  rewrite (load32_at zl 0 [] (le_enc 4 T) (le_enc 4 t ++ le_enc 2 h ++ X));
    [|subst zl; unfold zhead; by lapp|done|done|apply le_enc_bytes].
  by rewrite le_dec_enc, Z.mod_small.
Qed.

Lemma ZIPLIST_TAIL_OFFSET_at : 0 <= t < 2 ^ 32 → ZIPLIST_TAIL_OFFSET zl = Ret t.
Proof.
  intros HT. unfold ZIPLIST_TAIL_OFFSET.
  rewrite (load32_at zl 4 (le_enc 4 T) (le_enc 4 t) (le_enc 2 h ++ X));
    [|subst zl; unfold zhead; by lapp|done|done|apply le_enc_bytes].
  by rewrite le_dec_enc, Z.mod_small.
Qed.

Lemma ZIPLIST_LENGTH_at : 0 <= h < 2 ^ 16 → ZIPLIST_LENGTH zl = Ret h.
Proof.
  intros HT. unfold ZIPLIST_LENGTH.
  rewrite (load16_at zl 8 (le_enc 4 T ++ le_enc 4 t) (le_enc 2 h) X);
    [|subst zl; unfold zhead; by lapp|done|done|apply le_enc_bytes].
  by rewrite le_dec_enc, Z.mod_small.
Qed.

Lemma set_ZIPLIST_BYTES_at v :
  0 <= v < 2 ^ 32 → set_ZIPLIST_BYTES zl v = Ret (zhead v t h ++ X).
Proof.
  intros Hv. unfold set_ZIPLIST_BYTES. rewrite wrapu_id by done.
  rewrite (store32_at zl 0 v [] (le_enc 4 T) (le_enc 4 t ++ le_enc 2 h ++ X));
    [unfold zhead; by lapp|subst zl; unfold zhead; by lapp|done|done|done].
Qed.

Lemma set_ZIPLIST_TAIL_OFFSET_at v :
  0 <= v < 2 ^ 32 → set_ZIPLIST_TAIL_OFFSET zl v = Ret (zhead T v h ++ X).
Proof.
  intros Hv. unfold set_ZIPLIST_TAIL_OFFSET. rewrite wrapu_id by done.
  rewrite (store32_at zl 4 v (le_enc 4 T) (le_enc 4 t) (le_enc 2 h ++ X));
    [unfold zhead; by lapp|subst zl; unfold zhead; by lapp|done|done|done].
Qed.

Lemma set_ZIPLIST_LENGTH_at v :
  0 <= v < 2 ^ 16 → set_ZIPLIST_LENGTH zl v = Ret (zhead T t v ++ X).
Proof.
  intros Hv. unfold set_ZIPLIST_LENGTH. rewrite wrapu_id by done.
  rewrite (store16_at zl 8 v (le_enc 4 T ++ le_enc 4 t) (le_enc 2 h) X);
    [unfold zhead; by lapp|subst zl; unfold zhead; by lapp|done|done|done].
Qed.

End header_fields.

(** ** Writing previous lengths *)

Section stores.
Context {H : HostOrder}.

Lemma zipStorePrevEntryLengthLarge_at zl a m c p v :
  zl = a ++ m ++ c → zlen a = p → zlen m = 5 → 0 <= v < 2 ^ 32 →
  zipStorePrevEntryLengthLarge zl (Some p) v = Ret (a ++ pbytes true v ++ c, 5).
Proof.
  intros E Ha Hm Hv. destruct m as [|x m]; [done|]. unfold zipStorePrevEntryLengthLarge. zconst.
  rewrite (wr_at zl p 254 a x (m ++ c)) by (done || unfold is_byte; lia). run.
  pose proof (store32_rev (a ++ 254 :: m ++ c) (p + 1) v (a ++ [254]) m c) as W.
  rewrite <- bind_assoc, wrapu_id, W by (done || (lapp; done) || zl). run. unfold pbytes. by lapp.
Qed.

(** Whether a length needs the 5-byte form. *)
Definition needs5 (v : Z) : bool := 254 <=? v.

Lemma zipStorePrevEntryLength_at zl a m c p v :
  zl = a ++ m ++ c → zlen a = p → zlen m = psize (needs5 v) → 0 <= v < 2 ^ 32 →
  zipStorePrevEntryLength zl (Some p) v = Ret (a ++ pbytes (needs5 v) v ++ c, psize (needs5 v)).
Proof.
  intros E Ha Hm Hv. unfold zipStorePrevEntryLength. rewrite wrapu_id by done. zconst.
  unfold needs5 in *. destruct (Z.ltb_spec v 254).
  - replace (254 <=? v) with false in * by lia. simpl psize in *. destruct m as [|x [|]]; try (exfalso; zl).
    rewrite (wr_at zl p v a x c) by (done || unfold is_byte; lia). done.
  - replace (254 <=? v) with true in * by lia. rewrite (zipStorePrevEntryLengthLarge_at zl a m c); done.
Qed.

Lemma zipStorePrevEntryLength_None zl v :
  0 <= v < 2 ^ 32 → zipStorePrevEntryLength zl None v = Ret (zl, psize (needs5 v)).
Proof.
  intros Hv. unfold zipStorePrevEntryLength. rewrite wrapu_id by done. zconst.
  unfold needs5. by destruct (Z.ltb_spec v 254), (Z.leb_spec 254 v); try lia.
Qed.

Lemma zipPrevLenByteDiff_at zl bg prev a c p v :
  pfits bg prev → zl = a ++ pbytes bg prev ++ c → zlen a = p → 0 <= v < 2 ^ 32 →
  zipPrevLenByteDiff zl p v = Ret (psize (needs5 v) - psize bg).
Proof.
  intros Hf E Ha Hv. unfold zipPrevLenByteDiff.
  rewrite (ZIP_DECODE_PREVLENSIZE_at zl bg prev a c) by done. run.
  rewrite zipStorePrevEntryLength_None by done. run. unfold snd.
  by destruct (needs5 v), bg.
Qed.

End stores.

(** ** Chains *)

Lemma esize_bounds e : entry_wf e → 2 <= esize e.
Proof.
  intros [Hh _]. apply header_nonempty in Hh. unfold esize, body. rewrite zlen_app.
  pose proof (zlen_nonneg (data e)). destruct (big e); simpl; lia.
Qed.

Lemma csize_nonneg es : 0 <= csize es.
Proof.
  induction es as [|e es IH]; simpl; [lia|]. unfold esize.
  pose proof (zlen_nonneg (body e)). destruct (big e); simpl; lia.
Qed.

Lemma zlen_chain prev es : zlen (chain prev es) = csize es.
Proof.
  revert prev. induction es as [|e es IH]; intros prev; [done|]. simpl.
  by rewrite zlen_app, zlen_ebytes, IH.
Qed.

Lemma csize_app es1 es2 : csize (es1 ++ es2) = csize es1 + csize es2.
Proof. induction es1; simpl; lia. Qed.

Lemma lsize_app prev es1 es2 : lsize prev (es1 ++ es2) = lsize (lsize prev es1) es2.
Proof. apply foldl_app. Qed.

Lemma chain_app prev es1 es2 :
  chain prev (es1 ++ es2) = chain prev es1 ++ chain (lsize prev es1) es2.
Proof.
  revert prev. induction es1 as [|e es1 IH]; intros prev; [done|]. simpl.
  by rewrite IH, app_assoc.
Qed.

Lemma chain_ok_app prev es1 es2 :
  chain_ok prev (es1 ++ es2) ↔ chain_ok prev es1 ∧ chain_ok (lsize prev es1) es2.
Proof.
  revert prev. induction es1 as [|e es1 IH]; intros prev; simpl; [tauto|].
  rewrite IH. change (lsize prev (e :: es1)) with (lsize (esize e) es1). tauto.
Qed.

Lemma lsize_bounds es : chain_ok 0 es → 0 <= lsize 0 es <= csize es.
Proof.
  destruct es as [|e es _] using rev_ind; [done|]. rewrite chain_ok_app, lsize_app, csize_app.
  intros [_ [He _]]. apply esize_bounds in He. simpl. pose proof (csize_nonneg es). lia.
Qed.

(** Only the first recorded length depends on the predecessor. *)
Lemma chain_ok_prev prev prev' e es :
  chain_ok prev (e :: es) → pfits (big e) prev' → chain_ok prev' (e :: es).
Proof. simpl. tauto. Qed.

Lemma csize_zlen prev es : chain_ok prev es → 2 * zlen es <= csize es.
Proof.
  revert prev. induction es as [|e es IH]; intros prev; [done|]. simpl. intros (He & _ & Hes).
  apply IH in Hes. apply esize_bounds in He. zlr. lia.
Qed.

Lemma pbytes_bytes bg prev : pfits bg prev → bytes_ok (pbytes bg prev).
Proof.
  intros [Hp Hs]. destruct bg; simpl; constructor.
  - unfold is_byte. lia.
  - apply le_enc_bytes.
  - specialize (Hs eq_refl). unfold is_byte. lia.
  - done.
Qed.

Lemma chain_bytes prev es : chain_ok prev es → bytes_ok (chain prev es).
Proof.
  revert prev. induction es as [|e es IH]; intros prev; [by constructor|]. simpl.
  intros ([Hh Hd] & Hf & Hes). unfold ebytes, body, bytes_ok in *. rewrite !Forall_app.
  repeat split; [by apply pbytes_bytes|by apply header_bytes in Hh|done|by apply IH].
Qed.

(** The first byte of an entry is not the end mark. *)
Lemma pbytes_head bg prev : pfits bg prev → ∃ c m, pbytes bg prev = c :: m ∧ c < 255 ∧ zlen m = psize bg - 1.
Proof.
  intros [Hp Hs]. destruct bg; simpl.
  - eexists _, _. split; [done|]. split; [lia|done].
  - specialize (Hs eq_refl). eexists _, _. split; [done|]. split; [lia|done].
Qed.

Lemma rd_entry zl a prev e c p :
  pfits (big e) prev → zl = a ++ ebytes prev e ++ c → zlen a = p →
  ∃ x, rd zl p = Ret x ∧ (x =? ZIP_END) = false.
Proof.
  intros Hf -> Ha. destruct (pbytes_head _ _ Hf) as (x & m & E & Hx & _). exists x.
  unfold ebytes. rewrite E. cbn [app]. rewrite (rd_app a _ _ p) by done. split; [done|]. zconst. lia.
Qed.

Lemma rd_end zl a c p : zl = a ++ 255 :: c → zlen a = p → rd zl p = Ret ZIP_END.
Proof. intros -> Ha. by apply rd_app. Qed.

Lemma offset_app es1 es2 : offset (es1 ++ es2) (length es1) = 10 + csize es1.
Proof. unfold offset. by rewrite take_app_length. Qed.

Lemma tail_offset_snoc es e : tail_offset (es ++ [e]) = 10 + csize es.
Proof.
  unfold tail_offset. replace (pred (length (es ++ [e]))) with (length es) by (len_norm; lia).
  apply offset_app.
Qed.

Lemma tail_offset_bounds es : chain_ok 0 es → 10 <= tail_offset es <= 10 + csize es.
Proof.
  destruct es as [|e es _] using rev_ind; [done|]. intros [_ [He _]]%chain_ok_app.
  apply esize_bounds in He. rewrite tail_offset_snoc, csize_app. pose proof (csize_nonneg es). simpl. lia.
Qed.

Lemma zlen_layout t h es : zlen (layout t h es) = 11 + csize es.
Proof. unfold layout. rewrite !zlen_app, zlen_zhead, zlen_chain. change (zlen [255]) with 1. lia. Qed.

End ZiplistRep.
