(* ===== verification/ZiplistCascade.v ===== *)
(** The cascade of length updates after an entry changed its size
    ([__ziplistCascadeUpdate]): on the list of entries it is [casc]. *)
From S2P Require Import Prelude Endianconv Util Ziplist ZiplistRep.
Import Util Ziplist ZiplistRep.

Module ZiplistCascade.

(** An entry whose previous length takes 5 bytes. *)
Definition grow (e : entry) : entry := Entry true (enc e) (hdr e) (data e).

(** The entries that have to grow when the predecessor of the list has size
    [prev], and the rest. *)
Fixpoint grown (prev : Z) (es : list entry) : list entry * list entry :=
  match es with
  | [] => ([], [])
  | e :: es' =>
      if big e || (prev <? 254) then ([], es)
      else let '(g, s) := grown (esize e + 4) es' in (e :: g, s)
  end.

(** The entries after the cascade. *)
Definition casc (prev : Z) (es : list entry) : list entry :=
  let '(g, s) := grown prev es in (grow <$> g) ++ s.

(** The size of the predecessor after the cascade went through [g]. *)
Definition nprev (prev : Z) (g : list entry) : Z := foldl (λ _ e, esize e + 4) prev g.

(** Every entry of [g] has a small field and a predecessor too large for it. *)
Fixpoint grow_ok (prev : Z) (g : list entry) : Prop :=
  match g with
  | [] => True
  | e :: g => big e = false ∧ 254 <= prev < 2 ^ 32 ∧ grow_ok (esize e + 4) g
  end.

(** The start of the last entry of [g] relative to the first; [d] if there is
    none. *)
Definition last_off (d P : Z) (g : list entry) : Z :=
  match g with [] => d | _ => P + csize (take (pred (length g)) g) end.

(** How the recorded length [old] of the first entry of the tail may differ
    from the size [prev] of its predecessor. *)
Definition seam (old prev : Z) : Prop := old = 0 ∨ prev = old + 4 ∨ prev <= old.

Lemma esize_grow e : big e = false → esize (grow e) = esize e + 4.
Proof. intros Hb. unfold esize, body. simpl. rewrite Hb. simpl. lia. Qed.

Lemma entry_wf_grow e : entry_wf e → entry_wf (grow e).
Proof. done. Qed.

Lemma e_val_grow e : e_val (grow e) = e_val e.
Proof. done. Qed.

Lemma grown_app prev es : let '(g, s) := grown prev es in es = g ++ s.
Proof.
  revert prev. induction es as [|e es IH]; intros prev; [done|]. simpl.
  destruct (big e || (prev <? 254)); [done|]. specialize (IH (esize e + 4)).
  destruct (grown (esize e + 4) es) as [g s]. simpl. by rewrite <- IH.
Qed.

Lemma nprev_snoc prev g e : nprev prev (g ++ [e]) = esize e + 4.
Proof. unfold nprev. by rewrite foldl_app. Qed.

Lemma grow_ok_snoc prev g e :
  grow_ok prev (g ++ [e]) ↔ grow_ok prev g ∧ big e = false ∧ 254 <= nprev prev g < 2 ^ 32.
Proof.
  revert prev. induction g as [|x g IH]; intros prev; simpl; [tauto|].
  rewrite IH. change (nprev prev (x :: g)) with (nprev (esize x + 4) g). tauto.
Qed.

(** Growing keeps the chain well formed, given room for the sizes. *)
Lemma casc_grown old prev es :
  chain_ok old es → 0 <= prev → prev + csize es + 4 * zlen es < 2 ^ 32 →
  let '(g, s) := grown prev es in
  grow_ok prev g ∧
  match s with [] => True | e :: _ => pfits (big e) (nprev prev g) end.
Proof.
  revert old prev. induction es as [|e es IH]; intros old prev; [done|]. cbn [chain_ok csize grown].
  intros (He & Hf & Hes) Hp Hs. apply esize_bounds in He. pose proof (csize_nonneg es). zlr.
  pose proof (zlen_nonneg es). destruct (big e || (prev <? 254)) eqn:E.
  - split; [done|]. simpl. split; [lia|]. intros Hb. rewrite Hb in E. simpl in E. lia.
  - apply orb_false_iff in E as [Hb Hlt]. specialize (IH (esize e) (esize e + 4) Hes).
    destruct (grown (esize e + 4) es) as [g s]. destruct IH as [Hg Hs']; [lia|lia|].
    split; [|done]. simpl. repeat split; (done || lia).
Qed.

Lemma csize_grow prev g : grow_ok prev g → csize (grow <$> g) = csize g + 4 * zlen g.
Proof.
  revert prev. induction g as [|e g IH]; intros prev; [done|]. rewrite fmap_cons. cbn [csize grow_ok].
  intros (Hb & _ & Hg). rewrite esize_grow, (IH _ Hg) by done. zlr. lia.
Qed.

Lemma lsize_grow prev g : grow_ok prev g → lsize prev (grow <$> g) = nprev prev g.
Proof.
  destruct g as [|e g _] using rev_ind; [done|]. rewrite grow_ok_snoc, fmap_app, lsize_app, nprev_snoc.
  intros (_ & Hb & _). simpl. by apply esize_grow.
Qed.

Lemma chain_ok_grow prev old g :
  chain_ok old g → grow_ok prev g → chain_ok prev (grow <$> g).
Proof.
  revert prev old. induction g as [|e g IH]; intros prev old; [done|]. rewrite fmap_cons.
  cbn [chain_ok grow_ok]. intros (He & Hf & Hes) (Hb & Hp & Hg). repeat split; try apply He; try lia; [done|].
  rewrite esize_grow by done. by eapply IH.
Qed.

Lemma casc_ok old prev es :
  chain_ok old es → 0 <= prev → prev + csize es + 4 * zlen es < 2 ^ 32 →
  chain_ok prev (casc prev es) ∧ e_val <$> casc prev es = e_val <$> es ∧
  csize es <= csize (casc prev es) <= csize es + 4 * zlen es.
Proof.
  intros Hes Hp Hs. pose proof (casc_grown old prev es Hes Hp Hs) as C.
  pose proof (grown_app prev es) as E. unfold casc. destruct (grown prev es) as [g s].
  destruct C as [Hg Hs']. subst es. apply chain_ok_app in Hes as [H1 H2].
  rewrite !csize_app, (csize_grow _ _ Hg), !fmap_app, zlen_app.
  pose proof (zlen_nonneg g). pose proof (zlen_nonneg s).
  split; [|split; [|lia]].
  - rewrite chain_ok_app, lsize_grow by done. split; [by eapply chain_ok_grow|].
    destruct s; [done|]. by eapply chain_ok_prev.
  - f_equal. rewrite <- list_fmap_compose. by apply list_fmap_ext.
Qed.

Section cascade.
Context {H : HostOrder} {A : Allocator} {L : AllocatorLaws A}.

(** *** The first loop *)

(** Storing the new length in the field an entry already has. *)
Lemma store_in_place zl P bg old prev R :
  zl = P ++ pbytes bg old ++ R → 0 <= prev < 2 ^ 32 → bg || (prev <? 254) = true →
  (psize (needs5 prev) <=? psize bg) = true ∧
  ∃ n, (if psize bg =? psize (needs5 prev) then zipStorePrevEntryLength zl (Some (zlen P)) prev
        else zipStorePrevEntryLengthLarge zl (Some (zlen P)) prev)
       = Ret (P ++ pbytes bg prev ++ R, n).
Proof.
  intros E Hp Hfit.
  destruct bg, (needs5 prev) eqn:Hn; [| |unfold needs5 in Hn; simpl in Hfit; lia|];
    (split; [done|eexists]); cbn [psize Z.eqb Pos.eqb].
  - erewrite zipStorePrevEntryLength_at; [by rewrite Hn|exact E|done|by rewrite Hn|lia].
  - erewrite zipStorePrevEntryLengthLarge_at; [done|exact E|done|done|lia].
  - erewrite zipStorePrevEntryLength_at; [by rewrite Hn|exact E|done|by rewrite Hn|lia].
Qed.

Lemma cascade_scan_spec fuel P old prev es d extra cnt :
  (length es <= fuel)%nat → 10 <= zlen P → chain_ok old es → 0 <= prev →
  prev + csize es + 4 * zlen es < 2 ^ 32 → seam old prev →
  let zl := P ++ chain old es ++ [255] in
  let '(g, s) := grown prev es in
  cascade_scan fuel zl (zlen zl) (zlen P) prev (psize (needs5 prev)) d extra cnt =
    Ret (P ++ chain old g ++ chain (nprev prev g) s ++ [255], zlen P + csize g,
         last_off d (zlen P) g, extra + 4 * zlen g, (length g + cnt)%nat).
Proof.
  revert P fuel old prev d extra cnt.
  induction es as [|e es IH]; intros P fuel old prev d extra cnt Hf HP Hes Hp Hs Hm zl.
  { simpl. destruct fuel; cbn [cascade_scan];
      rewrite (rd_end zl P []) by done; simpl; rewrite !Z.add_0_r; done. }
  destruct Hes as (He & Hfit & Hes). pose proof (csize_nonneg es). pose proof (zlen_nonneg es).
  pose proof (esize_bounds e He) as Hsz. cbn [csize] in Hs. zlr.
  assert (zl = P ++ ebytes old e ++ chain (esize e) es ++ [255]) as E
    by (unfold zl; simpl; by lapp).
  destruct fuel as [|fuel]; [simpl in Hf; lia|]. cbn [cascade_scan].
  destruct (rd_entry zl P old e _ (zlen P) Hfit E eq_refl) as (x & -> & Hx). run. rewrite Hx.
  rewrite (assertEntrySafe_at zl (zlen zl) old e P (chain (esize e) es ++ [255]) (zlen P) false);
    [|by apply He|done|done|done|done|done|by destruct (chain (esize e) es)|done].
  run. unfold zlentry_of, prevrawlen, prevrawlensize, headersize, len. zconst.
  assert (zl = P ++ pbytes (big e) old ++ body e ++ chain (esize e) es ++ [255]) as E'
    by (rewrite E; unfold ebytes; by lapp).
  cbn [grown]. destruct (big e || (prev <? 254)) eqn:Hstop.
  - (* the entry does not grow *)
    change (zlen (@nil entry)) with 0. cbn [chain csize app last_off length].
    rewrite !Z.add_0_r. change (nprev prev []) with prev.
    destruct (Z.eqb_spec old prev) as [->|Hne]; [rewrite E; by lapp|].
    assert (P ++ (ebytes prev e ++ chain (esize e) es) ++ [255] =
            P ++ pbytes (big e) prev ++ body e ++ chain (esize e) es ++ [255]) as ->
      by (unfold ebytes; by lapp).
    destruct (store_in_place zl P (big e) old prev _ E') as (-> & n & ->); [lia|done|done].
  - apply orb_false_iff in Hstop as [Hb Hlt]. to_prop. destruct Hfit as [Ho Hsmall].
    specialize (Hsmall Hb). test (old =? prev) false.
    assert (needs5 prev = true) as -> by (unfold needs5; lia). rewrite Hb.
    change (psize true <=? psize false) with false. cbv iota.
    rewrite c_assert_true by (unfold seam in Hm; lia). run.
    assert (psize false + zlen (hdr e) + zlen (data e) = esize e) as ->
      by (unfold esize, body; rewrite Hb, zlen_app; lia).
    rewrite zipStorePrevEntryLength_None by lia. run. unfold snd.
    specialize (IH (P ++ ebytes old e) fuel (esize e) (esize e + 4) (zlen P) (extra + 4) (S cnt)).
    destruct (grown (esize e + 4) es) as [g s].
    replace ((P ++ ebytes old e) ++ chain (esize e) es ++ [255]) with zl in IH
      by (rewrite E; by lapp).
    replace (zlen (P ++ ebytes old e)) with (zlen P + esize e) in IH by (rewrite zlen_app, zlen_ebytes; lia).
    rewrite IH; [|simpl in Hf; lia|lia|done|lia|lia|right; left; done].
    f_equal. f_equal; [f_equal; [f_equal; [f_equal|]|]|].
    + change (nprev prev (e :: g)) with (nprev (esize e + 4) g). simpl. by lapp.
    + simpl. lia.
    + destruct g as [|e' g']; simpl; lia.
    + zlr. lia.
    + simpl. lia.
Qed.

(** *** The second loop *)

(** One step: the entry after [Q] moves to the end of the gap [G] and grows. *)
Lemma cascade_move_step cnt Q v e G n R first :
  entry_wf e → big e = false → pfits false v → 0 <= n → zlen G = n + 4 →
  let new := if v =? 0 then first else v + 4 in
  254 <= new < 2 ^ 32 →
  ∃ G', zlen G' = n ∧
  cascade_move (S cnt) (Q ++ ebytes v e ++ G ++ R) (zlen Q + esize e + zlen G) (zlen Q) first =
  cascade_move cnt (Q ++ G' ++ ebytes new (grow e) ++ R) (zlen Q + n) (zlen Q - v) first.
Proof.
  intros He Hb Hf Hn HG new Hnew. cbn [cascade_move]. unfold ebytes. rewrite Hb.
  rewrite (zipEntry_at _ v e Q (data e ++ G ++ R)); [|by apply He|by rewrite Hb|rewrite Hb; unfold body; by lapp|done].
  run. unfold zlentry_of, headersize, len, prevrawlensize, prevrawlen. zconst. rewrite Hb.
  assert (esize e = 1 + zlen (body e)) as Hsz by (unfold esize; by rewrite Hb).
  assert (psize false + zlen (hdr e) + zlen (data e) = esize e) as ->
    by (rewrite Hsz; unfold body; rewrite zlen_app; simpl; lia).
  change (psize false) with 1. change (pbytes false v) with [v]. pose proof (zlen_nonneg (body e)).
  destruct (zsplit n ([v] ++ body e ++ G)) as (N1 & N & EN & HN1 & HN);
    [zlr; lia|]. zlr.
  destruct (zsplit 5 N) as (N2 & N3 & -> & HN2 & HN3); [lia|].
  assert (Q ++ ([v] ++ body e) ++ G ++ R = (Q ++ N1 ++ N2) ++ N3 ++ R) as EQ.
  { transitivity (Q ++ ([v] ++ body e ++ G) ++ R); [by lapp|]. rewrite EN. by lapp. }
  rewrite (memmove_app _ _ _ _ (Q ++ [v]) (body e) (G ++ R) (Q ++ N1 ++ N2) N3 R);
    [|by lapp|zl|lia|exact EQ|zl|lia]. run.
  replace (zlen Q + esize e + zlen G - (esize e + 4)) with (zlen (Q ++ N1)) by zl.
  assert (needs5 new = true) as Hn5 by (unfold needs5; lia).
  pose proof (zipStorePrevEntryLength_at ((Q ++ N1 ++ N2) ++ body e ++ R) (Q ++ N1) N2 (body e ++ R)
    (zlen (Q ++ N1)) new) as W. rewrite Hn5 in W.
  specialize (W ltac:(by lapp) eq_refl HN2 ltac:(lia)). exists N1. split; [done|].
  replace (zlen Q + n) with (zlen (Q ++ N1)) by zl.
  transitivity (r ← zipStorePrevEntryLength ((Q ++ N1 ++ N2) ++ body e ++ R) (Some (zlen (Q ++ N1))) new;
    cascade_move cnt r.1 (zlen (Q ++ N1)) (zlen Q - v) first).
  - unfold new. by destruct (v =? 0).
  - rewrite W. run. unfold fst. f_equal. unfold body. simpl. by lapp.
Qed.

Lemma nprev_lsize old first g :
  chain_ok old g → (old = 0 ∨ first = old + 4) →
  nprev first g = if lsize old g =? 0 then first else lsize old g + 4.
Proof.
  intros Hc Hold. destruct g as [|e g _] using rev_ind.
  - change (lsize old []) with old. change (nprev first []) with first.
    destruct (Z.eqb_spec old 0); lia.
  - rewrite nprev_snoc, lsize_app. simpl. apply chain_ok_app in Hc as [_ [He _]].
    apply esize_bounds in He. by test (esize e =? 0) false.
Qed.

Lemma last_off_snoc d P g e : last_off d P (g ++ [e]) = P + csize g.
Proof.
  unfold last_off. destruct (g ++ [e]) eqn:E; [by destruct g|]. rewrite <- E.
  replace (pred (length (g ++ [e]))) with (length g) by (len_norm; lia).
  by rewrite take_app_length.
Qed.

Lemma last_off_lsize d P old g e :
  chain_ok old (g ++ [e]) → g = [] ∨ P + csize g - lsize old g = last_off d P g.
Proof.
  destruct g as [|e' g _] using rev_ind; [by left|]. right.
  rewrite last_off_snoc, csize_app, lsize_app. simpl. lia.
Qed.

Lemma cascade_move_spec g P old first G R d :
  chain_ok old g → grow_ok first g → (old = 0 ∨ first = old + 4) → zlen G = 4 * zlen g →
  (g = [] ∨ d = last_off d (zlen P) g) →
  cascade_move (length g) (P ++ chain old g ++ G ++ R) (zlen P + csize g + 4 * zlen g) d first =
  Ret (P ++ chain first (grow <$> g) ++ R).
Proof.
  revert G R d. induction g as [|e g IH] using rev_ind; intros G R d Hc Hg Hold HG Hd.
  { apply zlen_zero in HG as ->. done. }
  destruct Hd as [Hd|Hd]; [by destruct g|]. rewrite last_off_snoc in Hd.
  pose proof (last_off_lsize (zlen P + csize g - lsize old g) (zlen P) old g e Hc) as Hlast.
  apply grow_ok_snoc in Hg as (Hg & Hb & Hn). apply chain_ok_app in Hc as [Hc [He [Hf _]]].
  rewrite Hb in Hf. rewrite (nprev_lsize old) in Hn by done.
  rewrite zlen_app in HG. change (zlen [e]) with 1 in HG. pose proof (zlen_nonneg g).
  destruct (cascade_move_step (length g) (P ++ chain old g) (lsize old g) e G (4 * zlen g) R first)
    as (G' & HG' & E); [done|done|done|lia|lia|done|].
  replace (zlen (P ++ chain old g)) with (zlen P + csize g) in E by (rewrite zlen_app, zlen_chain; lia).
  transitivity (cascade_move (S (length g)) ((P ++ chain old g) ++ ebytes (lsize old g) e ++ G ++ R)
    (zlen P + csize g + esize e + zlen G) (zlen P + csize g) first).
  { rewrite chain_app, csize_app, length_app, Nat.add_comm, zlen_app, Hd. simpl chain. simpl csize.
    change (zlen [e]) with 1. f_equal; [by lapp|lia]. }
  rewrite E. rewrite <- (nprev_lsize old) in * by done.
  specialize (IH G' (ebytes (nprev first g) (grow e) ++ R) (zlen P + csize g - lsize old g) Hc Hg Hold HG' Hlast).
  rewrite <- app_assoc. rewrite IH. f_equal. rewrite fmap_app, chain_app, lsize_grow by done.
  simpl. by lapp.
Qed.

(** *** Resizing *)

Lemma ziplistResize_grow zl T t h X n :
  zl = zhead T t h ++ X ++ [255] → zlen zl = T → T <= n < UINT32_MAX →
  ∃ J, zlen J = n - T ∧ (J = [] ∨ ∃ J', J = 255 :: J') ∧
    ziplistResize zl n = Ret (zhead n t h ++ X ++ J ++ [255]).
Proof.
  intros E HT Hn. pose proof (zlen_nonneg zl). zconst. unfold ziplistResize. zconst. rewrite c_assert_true by lia. run.
  destruct (zrealloc_grow zl n) as (g & -> & Hg & _); [lia|].
  rewrite (set_ZIPLIST_BYTES_at _ (X ++ [255] ++ g) T t h) by (lia || (subst zl; by lapp)). run.
  assert (zlen X + 11 = T) as HX by (rewrite <- HT, E; zlr; rewrite zlen_zhead; lia).
  destruct (zsplit (n - T) (255 :: g)) as (J & R & EJ & HJ & HR); [zlr; pose proof (zlen_nonneg g); lia|].
  destruct R as [|x [|]]; try (exfalso; zl). exists J. split; [done|]. split.
  { destruct J; [by left|right]. injection EJ as -> _. eauto. }
  rewrite (wr_at _ _ 255 (zhead n t h ++ X ++ J) x []); [by lapp| | |unfold is_byte; lia].
  - cbn [app]. rewrite EJ. by lapp.
  - zlr. rewrite zlen_zhead. lia.
Qed.

Lemma ziplistResize_shrink zl T t h X Y n :
  zl = zhead T t h ++ X ++ Y → Y ≠ [] → n = 11 + zlen X → n < UINT32_MAX →
  ziplistResize zl n = Ret (zhead n t h ++ X ++ [255]).
Proof.
  intros E HY Hn Hlt. zconst. unfold ziplistResize. zconst. rewrite c_assert_true by lia. run.
  destruct Y as [|y Y]; [done|]. pose proof (zlen_nonneg X).
  assert (zrealloc zl n = zhead T t h ++ X ++ [y]) as ->.
  { subst zl. replace (zhead T t h ++ X ++ y :: Y) with ((zhead T t h ++ X ++ [y]) ++ Y) by (by lapp).
    apply zrealloc_app. zlr. rewrite zlen_zhead. lia. }
  rewrite (set_ZIPLIST_BYTES_at _ (X ++ [y]) T t h) by (done || lia). run.
  rewrite (wr_at _ _ 255 (zhead n t h ++ X) y []); [by lapp|by lapp| |unfold is_byte; lia].
  zlr. rewrite zlen_zhead. lia.
Qed.

(** *** The whole update *)

(** The tail offset moves with the entries that grew before the last one. *)
Lemma last_off_casc d P prev g s :
  grow_ok prev g → g ≠ [] →
  last_off d P ((grow <$> g) ++ s) =
    last_off d P (g ++ s) + match s with [] => 4 * zlen g - 4 | _ => 4 * zlen g end.
Proof.
  intros Hg Hne. destruct s as [|x s _] using rev_ind.
  - rewrite !app_nil_r. destruct g as [|e g _] using rev_ind; [done|].
    apply grow_ok_snoc in Hg as [Hg _]. rewrite fmap_app. simpl.
    rewrite !last_off_snoc, (csize_grow prev) by done. zlr. lia.
  - rewrite !app_assoc, !last_off_snoc, !csize_app, (csize_grow prev) by done.
    destruct (s ++ [x]) eqn:E; [by destruct s|]. lia.
Qed.

Lemma last_off_lt d P g s old :
  chain_ok old (g ++ s) → g ≠ [] → s ≠ [] → last_off d P g < last_off d P (g ++ s).
Proof.
  intros Hc Hg Hs. destruct g as [|e g _] using rev_ind; [done|].
  destruct s as [|x s _] using rev_ind; [done|].
  rewrite app_assoc, !last_off_snoc, !csize_app. apply chain_ok_app in Hc as [[_ [He _]]%chain_ok_app _].
  apply esize_bounds in He. pose proof (csize_nonneg s). simpl. lia.
Qed.

(** The tail offset as the code updates it. *)
Lemma update_tail zl T t h X g s d P old prev :
  zl = zhead T t h ++ X → chain_ok old (g ++ s) → grow_ok prev g → g ≠ [] →
  t = last_off t P (g ++ s) → 0 <= t → t + 4 * zlen g < 2 ^ 32 →
  (if t =? last_off d P g then
     if negb (4 * zlen g - 4 =? 0)
     then t0 ← ZIPLIST_TAIL_OFFSET zl; set_ZIPLIST_TAIL_OFFSET zl (t0 + 4 * zlen g - 4)
     else Ret zl
   else t0 ← ZIPLIST_TAIL_OFFSET zl; set_ZIPLIST_TAIL_OFFSET zl (t0 + 4 * zlen g))
  = Ret (zhead T (last_off t P ((grow <$> g) ++ s)) h ++ X).
Proof.
  intros E Hc Hg Hne Ht Ht0 Hlt. assert (1 <= zlen g) by (destruct g; [done|zl]).
  rewrite (last_off_casc t P prev) by done. rewrite <- Ht.
  rewrite (ZIPLIST_TAIL_OFFSET_at zl X T t h) by (done || lia). run.
  rewrite !(set_ZIPLIST_TAIL_OFFSET_at zl X T t h) by (done || lia).
  assert (last_off d P g = last_off t P g) as -> by (by destruct g).
  destruct s as [|x s].
  - rewrite app_nil_r in Ht. test (t =? last_off t P g) true.
    destruct (Z.eqb_spec (4 * zlen g - 4) 0) as [E4|]; simpl negb; cbv iota.
    + by rewrite E4, Z.add_0_r, E.
    + by rewrite Z.add_sub_assoc.
  - pose proof (last_off_lt t P g (x :: s) old Hc Hne ltac:(done)).
    by test (t =? last_off t P g) false.
Qed.

(** Everything after the first loop, when entries have to grow. *)
Lemma cascade_apply T t h X g s old first d :
  let P := 10 + zlen X in
  let zl := zhead T t h ++ X ++ chain old g ++ chain (nprev first g) s ++ [255] in
  zlen zl = T → T + 4 * zlen g < UINT32_MAX → 0 <= t < T →
  chain_ok old (g ++ s) → grow_ok first g → g ≠ [] → seam old first →
  t = last_off t P (g ++ s) → d = last_off d P g →
  (zl ← (if t =? d then
           if negb (4 * zlen g - 4 =? 0)
           then t0 ← ZIPLIST_TAIL_OFFSET zl; set_ZIPLIST_TAIL_OFFSET zl (t0 + 4 * zlen g - 4)
           else Ret zl
         else t0 ← ZIPLIST_TAIL_OFFSET zl; set_ZIPLIST_TAIL_OFFSET zl (t0 + 4 * zlen g));
   zl ← ziplistResize zl (T + 4 * zlen g);
   zl ← memmove zl (P + csize g + 4 * zlen g) (P + csize g) (T - (P + csize g) - 1);
   cascade_move (length g) zl (P + csize g + 4 * zlen g) d first) =
  Ret (zhead (T + 4 * zlen g) (last_off t P ((grow <$> g) ++ s)) h ++ X ++
       chain first (grow <$> g) ++ chain (nprev first g) s ++ [255]).
Proof.
  intros P zl HT Hs Ht Hc Hg Hne Hseam Hoff Hd. zconst.
  pose proof (zlen_nonneg g). pose proof (zlen_nonneg s). pose proof (zlen_nonneg X).
  set (S := chain (nprev first g) s) in *.
  assert (T = P + csize g + csize s + 1) as HTe.
  { rewrite <- HT. unfold zl, S. rewrite !zlen_app, zlen_zhead, !zlen_chain.
    change (zlen [255]) with 1. lia. }
  rewrite Hd at 1. rewrite (update_tail zl T t h (X ++ chain old g ++ S ++ [255]) g s d P old first)
    by (done || lia).
  set (t' := last_off t P ((grow <$> g) ++ s)). run.
  destruct (ziplistResize_grow (zhead T t' h ++ X ++ chain old g ++ S ++ [255]) T t' h (X ++ chain old g ++ S) (T + 4 * zlen g))
    as (J & HJ & _ & ->); [by lapp|by rewrite <- HT|zconst; lia|]. run.
  set (T' := T + 4 * zlen g).
  destruct (memmove_shift (zhead T' t' h ++ X ++ chain old g) S J [255] (P + csize g + 4 * zlen g)
    (P + csize g) (T - (P + csize g) - 1)) as (J' & HJ' & E);
    [rewrite !zlen_app, zlen_zhead, zlen_chain; lia|unfold S; rewrite zlen_chain; lia|lia|].
  replace (zhead T' t' h ++ (X ++ chain old g ++ S) ++ J ++ [255])
    with ((zhead T' t' h ++ X ++ chain old g) ++ S ++ J ++ [255]) by (by lapp).
  rewrite E. run. apply chain_ok_app in Hc as [Hc _].
  pose proof (cascade_move_spec g (zhead T' t' h ++ X) old first J' (S ++ [255]) d Hc Hg) as M.
  rewrite zlen_app, zlen_zhead in M.
  transitivity (Ret ((zhead T' t' h ++ X) ++ chain first (grow <$> g) ++ S ++ [255])); [|f_equal; by lapp].
  rewrite <- M; [f_equal; by lapp| |lia|by right].
  destruct g as [|e g]; [done|]. destruct Hg as (Hb & Hfirst & _), Hc as (_ & [_ Hsm] & _).
  specialize (Hsm Hb). unfold seam in Hseam. lia.
Qed.

(** [__ziplistCascadeUpdate] on a block whose entries up to [cur] are in
    place and whose next recorded length is [old] instead of the size of
    [cur]: the recorded length is corrected and the entries that have to
    grow do. *)
Lemma __ziplistCascadeUpdate_spec zl T t h X pv cur old rest p :
  zl = zhead T t h ++ X ++ ebytes pv cur ++ chain old rest ++ [255] →
  zlen zl = T → 0 <= t < T → T + 4 * zlen rest < UINT32_MAX →
  entry_wf cur → pfits (big cur) pv → chain_ok old rest → seam old (esize cur) →
  p = 10 + zlen X → t = last_off t (p + esize cur) rest →
  let rest' := casc (esize cur) rest in
  __ziplistCascadeUpdate zl p =
    Ret (zhead (T + csize rest' - csize rest) (last_off t (p + esize cur) rest') h ++ X
         ++ ebytes pv cur ++ chain (esize cur) rest' ++ [255]).
Proof.
  intros E HT Ht Hs Hcur Hf Hc Hseam Hp Hoff rest'. zconst.
  pose proof (esize_bounds cur Hcur). pose proof (csize_nonneg rest). pose proof (zlen_nonneg X).
  pose proof (zlen_nonneg rest). pose proof (csize_zlen _ _ Hc).
  set (P := zhead T t h ++ X ++ ebytes pv cur).
  assert (zlen P = p + esize cur) as HP by (unfold P; rewrite !zlen_app, zlen_zhead, zlen_ebytes; lia).
  assert (zl = P ++ chain old rest ++ [255]) as E1 by (rewrite E; unfold P; by lapp).
  assert (T = p + esize cur + csize rest + 1) as HTe
    by (rewrite <- HT, E1, !zlen_app, HP, zlen_chain; change (zlen [255]) with 1; lia).
  unfold __ziplistCascadeUpdate. rewrite (ZIPLIST_BYTES_at zl _ T t h E) by lia. run.
  rewrite (ZIPLIST_TAIL_OFFSET_at zl _ T t h E) by lia. run.
  assert (zl = (zhead T t h ++ X) ++ ebytes pv cur ++ chain old rest ++ [255]) as E2
    by (rewrite E; by lapp).
  assert (zlen (zhead T t h ++ X) = p) as Hzp by (rewrite zlen_app, zlen_zhead; lia).
  destruct (rd_entry zl _ pv cur _ p Hf E2 Hzp) as (x & -> & Hx). run. rewrite Hx.
  rewrite (zipEntry_at zl pv cur (zhead T t h ++ X) (data cur ++ chain old rest ++ [255]));
    [|by apply Hcur|done|rewrite E; unfold ebytes, body; by lapp|done]. run.
  unfold zlentry_of, headersize, len.
  assert (psize (big cur) + zlen (hdr cur) + zlen (data cur) = esize cur) as ->
    by (unfold esize, body; rewrite zlen_app; lia).
  rewrite wrapu_id by lia. rewrite zipStorePrevEntryLength_None by lia. run. unfold snd.
  pose proof (cascade_scan_spec (Z.to_nat T) P old (esize cur) rest p 0 0) as S.
  cbv zeta in S. rewrite <- E1, HT, HP in S. unfold rest', casc.
  pose proof (grown_app (esize cur) rest) as Eg.
  pose proof (casc_grown old (esize cur) rest Hc) as Cg.
  destruct (grown (esize cur) rest) as [g s]. destruct Cg as [Hg _]; [lia|lia|].
  rewrite S; [|unfold zlen in *; lia|lia|done|lia|lia|done]. run. clear S.
  subst rest. rewrite zlen_app in *. rewrite Z.add_0_l, Nat.add_0_r. zconst. destruct g as [|e g].
  { change ([] ++ s) with s in *. change ((grow <$> []) ++ s) with s. rewrite <- Hoff.
    change (4 * zlen (@nil entry) =? 0) with true. cbv iota. change (nprev (esize cur) []) with (esize cur).
    replace (T + csize s - csize s) with T by lia. unfold P. by lapp. }
  assert (1 <= zlen (e :: g)) by zl. test (4 * zlen (e :: g) =? 0) false.
  pose proof (cascade_apply T t h (X ++ ebytes pv cur) (e :: g) s old (esize cur)
    (last_off p (p + esize cur) (e :: g))) as M. cbv zeta in M.
  replace (10 + zlen (X ++ ebytes pv cur)) with (p + esize cur) in M by (rewrite zlen_app, zlen_ebytes; lia).
  replace (zhead T t h ++ (X ++ ebytes pv cur) ++ chain old (e :: g) ++ chain (nprev (esize cur) (e :: g)) s ++ [255])
    with (P ++ chain old (e :: g) ++ chain (nprev (esize cur) (e :: g)) s ++ [255]) in M by (unfold P; by lapp).
  rewrite M; [|rewrite !zlen_app, HP, !zlen_chain; rewrite csize_app in *; change (zlen [255]) with 1; lia
    |zconst; pose proof (zlen_nonneg s); rewrite (zlen_app (e :: g) s) in Hs; lia|done|done|done|done|done|done|done].
  rewrite !csize_app, (csize_grow _ _ Hg), chain_app, (lsize_grow _ _ Hg).
  f_equal. f_equal; [f_equal; lia|by lapp].
Qed.

End cascade.
End ZiplistCascade.
