(* ===== verification/ZiplistValue.v ===== *)
(** Values of ziplist entries: a string that is the decimal representation of
    a 64-bit integer is stored as that integer, in the smallest of six integer
    encodings, and any other string as it is. *)
From S2P Require Import Prelude Endianconv Util Ziplist ZiplistRep.
Import Util Ziplist ZiplistRep.

Module ZiplistValue.

(** [stored s x]: the value [x] stands for the string [s]. *)
Definition stored (s : list Z) (x : zval) : Prop :=
  match x with
  | ZInt v => int64 v ∧ s = dec v
  | ZStr t => t = s ∧ ¬ ∃ v, int64 v ∧ s = dec v
  end.

(** The string a value stands for. *)
Definition zval_str (x : zval) : list Z :=
  match x with
  | ZInt v => dec v
  | ZStr t => t
  end.

Lemma stored_str s x : stored s x → zval_str x = s.
Proof. destruct x; by intros []. Qed.

(** The number of bytes of an integer encoding. *)
Inductive int_enc : Z → nat → Prop :=
| int_enc_8 : int_enc 254 1
| int_enc_16 : int_enc 192 2
| int_enc_24 : int_enc 240 3
| int_enc_32 : int_enc 208 4
| int_enc_64 : int_enc 224 8.

Lemma header_int en n : int_enc en n → header en (Z.of_nat n) [en].
Proof. destruct 1; constructor. Qed.

Lemma header_int_inv en n hd :
  header en n hd → 192 <= en →
  (∃ k, int_enc en k ∧ n = Z.of_nat k) ∨ (241 <= en <= 253 ∧ n = 0).
Proof.
  destruct 1; intros; try lia; try (left; eexists; split; [constructor|done]).
Qed.

Lemma int_val_enc en n v :
  int_enc en n → - 2 ^ (8 * Z.of_nat n - 1) <= v < 2 ^ (8 * Z.of_nat n - 1) →
  int_val en (le_enc n v) = v.
Proof.
  intros He Hv. unfold int_val.
  replace ((241 <=? en) && (en <=? 253)) with false by (by destruct He).
  rewrite zlen_le_enc, le_dec_enc. fold (wrapu (8 * Z.of_nat n) v).
  assert (0 < Z.of_nat n) by (destruct He; lia). rewrite wraps_wrapu, wraps_id by lia. done.
Qed.

Lemma le_enc_wrapu n w v : 8 * Z.of_nat n <= w → le_enc n (wrapu w v) = le_enc n v.
Proof.
  intros Hw. rewrite <- le_enc_mod, <- (le_enc_mod n v). f_equal. unfold wrapu.
  replace w with (8 * Z.of_nat n + (w - 8 * Z.of_nat n)) by lia.
  rewrite Z.pow_add_r, Z.rem_mul_r by lia.
  rewrite (Z.mul_comm (2 ^ (8 * Z.of_nat n))), Z.mod_add, Z.mod_mod by lia. done.
Qed.

Lemma le_enc_cons n v : le_enc (S n) (256 * v) = 0 :: le_enc n v.
Proof.
  change (le_enc (S n) (256 * v)) with ((256 * v) mod 256 :: le_enc n (256 * v / 256)).
  rewrite Z.mul_comm, Z.mod_mul, Z.div_mul by lia. done.
Qed.

Section value.
Context {H : HostOrder}.

Lemma zipSaveInteger_at zl a m c p v en n :
  int_enc en n → zl = a ++ m ++ c → zlen a = p → zlen m = Z.of_nat n →
  zipSaveInteger zl p v en = Ret (a ++ le_enc n v ++ c).
Proof.
  intros He E Ha Hm. unfold zipSaveInteger. zconst.
  destruct He; cbn [Z.eqb Pos.eqb].
  - destruct m as [|x [|]]; try (exfalso; zl). cbn [app] in E. unfold wr.
    rewrite (wrn_at zl p _ a [x] c) by done. do 2 f_equal. cbn [app].
    change (le_enc 1 v ++ c) with (v mod 256 :: c). f_equal.
    change (u8 (s8 v)) with ((s8 v) mod 2 ^ (8 * Z.of_nat 1)).
    pose proof (le_enc_wraps 1 v ltac:(lia)) as W. injection W as W. done.
  - by rewrite (store16_rev zl p (s16 v) a m c), (le_enc_wraps 2) by (done || lia).
  - rewrite memrev32ifbe_enc. run. rewrite (le_enc_wraps 4) by lia.
    rewrite le_enc_wrapu by lia. rewrite Z.shiftl_mul_pow2, Z.mul_comm by lia.
    change (2 ^ 8) with 256. rewrite le_enc_cons, le_enc_wrapu by lia.
    rewrite (rdn_at _ 1 3 (le_enc 3 v) [0] []); [|by lapp|done|done]. run.
    apply wrn_at with m; [done|done|by rewrite Hm].
  - by rewrite (store32_rev zl p (s32 v) a m c), (le_enc_wraps 4) by (done || lia).
  - by rewrite (store64_rev zl p (s64 v) a m c), (le_enc_wraps 8) by (done || lia).
Qed.

Lemma wraps_24 v : 0 <= v < 2 ^ 24 → Z.shiftr (s32 (256 * v)) 8 = wraps 24 v.
Proof.
  intros Hv. unfold wraps. rewrite Z.shiftr_div_pow2 by lia.
  change (32 - 1) with 31. change (24 - 1) with 23.
  change (2 ^ 32) with (256 * 2 ^ 24). replace (256 * v + 2 ^ 31) with (256 * (v + 2 ^ 23)) by lia.
  rewrite Z.mul_mod_distr_l by lia.
  replace (256 * ((v + 2 ^ 23) mod 2 ^ 24) - 2 ^ 31) with (((v + 2 ^ 23) mod 2 ^ 24 - 2 ^ 23) * 256) by lia.
  by rewrite Z.div_mul.
Qed.

Lemma zipLoadInteger_at zl a d c p en hd :
  header en (zlen d) hd → 192 <= en → bytes_ok d → zl = a ++ d ++ c → zlen a = p →
  zipLoadInteger zl p en = Ret (int_val en d).
Proof.
  intros Hh Hen Hd E Ha. unfold zipLoadInteger, int_val. zconst.
  destruct (header_int_inv _ _ _ Hh Hen) as [(k & He & Hn)|[He Hn]].
  - rewrite Hn. destruct He; cbn [Z.eqb Pos.eqb Z.leb Z.compare Pos.compare Pos.compare_cont andb].
    + destruct d as [|x [|]]; try (exfalso; zl). rewrite (rd_at zl p x a c) by done. run.
      unfold le_dec. by rewrite Z.mul_0_r, Z.add_0_r.
    + rewrite (rdn_at zl p 2 d a c) by done. run. by rewrite (memrev16ifbe_val d (λ v, Ret (s16 v))).
    + rewrite (rdn_at zl p 3 d a c) by done. run.
      assert (nat_enc 4 0 = [0; 0; 0; 0]) as -> by (unfold nat_enc; by destruct big_endian).
      rewrite (wrn_at _ 1 d [0] [0; 0; 0] []) by done. run. rewrite app_nil_r. cbn [app].
      rewrite (memrev32ifbe_val (0 :: d) (λ v, Ret (Z.shiftr (s32 v) 8))); [|zl|by constructor].
      change (le_dec (0 :: d)) with (0 + 256 * le_dec d). rewrite Z.add_0_l.
      pose proof (le_dec_range d Hd) as Hr. rewrite Hn in Hr. f_equal. by apply wraps_24.
    + rewrite (rdn_at zl p 4 d a c) by done. run. by rewrite (memrev32ifbe_val d (λ v, Ret (s32 v))).
    + rewrite (rdn_at zl p 8 d a c) by done. run. by rewrite (memrev64ifbe_val d (λ v, Ret (s64 v))).
  - test (en =? 254) false. test (en =? 192) false. test (en =? 240) false.
    test (en =? 208) false. test (en =? 224) false. test ((241 <=? en) && (en <=? 253)) true.
    unfold ZIP_INT_IMM_MASK. f_equal. change 15 with (Z.ones 4). rewrite Z.land_ones by lia.
    dm en (2 ^ 4). lia.
Qed.

(** Which strings are stored as integers, and how. *)
Lemma zipTryEncoding_spec s :
  ∃ te, zipTryEncoding s (zlen s) = Ret te ∧
    match te with
    | None => ¬ ∃ v, int64 v ∧ s = dec v
    | Some (v, en) =>
        int64 v ∧ s = dec v ∧
        ((∃ n, int_enc en n ∧ - 2 ^ (8 * Z.of_nat n - 1) <= v < 2 ^ (8 * Z.of_nat n - 1)) ∨
         (0 <= v <= 12 ∧ en = 241 + v))
    end.
Proof.
  unfold zipTryEncoding. destruct ((32 <=? zlen s) || (zlen s =? 0)) eqn:Hl.
  { exists None. split; [done|]. intros (v & Hv & ->). pose proof (zlen_dec_bounds v Hv). lia. }
  destruct (string2ll_spec s) as (o & -> & Ho). run. destruct o as [v|].
  2: { exists None. split; [done|]. intros (v & Hv). apply Ho in Hv. done. }
  destruct (proj1 (Ho v) eq_refl) as [Hv Hs]. eexists. split; [done|]. split; [done|]. split; [done|].
  zconst. unfold int64, LLONG_MIN, LLONG_MAX in Hv.
  destruct ((0 <=? v) && (v <=? 12)) eqn:E0; [right; rewrite wrapu_id by (cbn; lia); lia|]. left.
  destruct ((-128 <=? v) && (v <=? 127)) eqn:E1; [exists 1%nat; split; [constructor|simpl; lia]|].
  destruct ((-32768 <=? v) && (v <=? 32767)) eqn:E2; [exists 2%nat; split; [constructor|simpl; lia]|].
  destruct ((- (8388607) - 1 <=? v) && (v <=? 8388607)) eqn:E3; [exists 3%nat; split; [constructor|simpl; lia]|].
  destruct ((-2147483648 <=? v) && (v <=? 2147483647)) eqn:E4; [exists 4%nat; split; [constructor|simpl; lia]|].
  exists 8%nat. split; [constructor|simpl; lia].
Qed.

(** The header bytes written for a string. *)
Lemma zipEntryEncoding_buf_str n :
  0 <= n < 2 ^ 32 → ∃ en, en < 192 ∧ header en n (zipEntryEncoding_buf 0 n).
Proof.
  intros Hn. unfold zipEntryEncoding_buf. change (ZIP_IS_STR 0) with true. cbv iota. zconst.
  change (Z.lor 0 n) with n.
  destruct (Z.leb_spec n 63); [exists 0; split; [lia|apply header_str6; lia]|].
  rewrite !land_255, land_63, !Z.shiftr_div_pow2 by lia.
  change (2 ^ 8) with 256. change (2 ^ 16) with (256 * 256). change (2 ^ 24) with (256 * 256 * 256).
  destruct (Z.leb_spec n 16383).
  - exists 64. split; [lia|]. dm n 256. rewrite (Z.mod_small (n / 256)) by lia.
    change 64 with (Z.shiftl 1 6) at 2. rewrite lor_shiftl by lia. apply header_str14. lia.
  - exists 128. split; [lia|]. rewrite <- !Z.div_div by lia. rewrite <- be_enc_4.
    apply header_str32; lia.
Qed.

Lemma int_enc_range en n : int_enc en n → 192 <= en < 256 ∧ ~ (241 <= en <= 253) ∧ (1 <= n <= 8)%nat.
Proof. destruct 1; lia. Qed.

Lemma int_enc_not_str en n : int_enc en n → ZIP_IS_STR en = false.
Proof. by destruct 1. Qed.

Lemma zipIntSize_enc en n : int_enc en n → zipIntSize en = Ret (Z.of_nat n).
Proof. by destruct 1. Qed.

Lemma imm_enc v : 0 <= v <= 12 →
  ZIP_IS_STR (241 + v) = false ∧ zipIntSize (241 + v) = Ret 0 ∧
  ∀ zl p w, zipSaveInteger zl p w (241 + v) = Ret zl.
Proof.
  intros Hv. split; [rewrite (header_is_str _ 0 [241 + v]) by (constructor; lia); lia|].
  unfold zipIntSize, zipSaveInteger. zconst.
  test (241 + v =? 254) false. test (241 + v =? 192) false. test (241 + v =? 240) false.
  test (241 + v =? 208) false. test (241 + v =? 224) false.
  by test ((241 <=? 241 + v) && (241 + v <=? 253)) true.
Qed.

(** How a string is going to be stored: the entry, the space it takes and
    what [write_value] does. *)
Lemma value_plan s :
  bytes_ok s → zlen s < 2 ^ 32 →
  ∃ te en hd dt, zipTryEncoding s (zlen s) = Ret te ∧
    header en (zlen dt) hd ∧ bytes_ok dt ∧ stored s (e_val (Entry false en hd dt)) ∧
    zlen hd + zlen dt <= zlen s + 9 ∧
    let '(value, encoding) := match te with Some ve => ve | None => (123456789, 0) end in
    match te with Some _ => zipIntSize encoding | None => Ret (zlen s) end = Ret (zlen dt) ∧
    (∀ zl, zipStoreEntryEncoding zl None encoding (zlen s) = Ret (zl, zlen hd)) ∧
    (∀ a m c, zlen m = zlen hd + zlen dt →
      write_value (a ++ m ++ c) (zlen a) s (zlen s) value encoding = Ret (a ++ hd ++ dt ++ c)).
Proof.
  intros Hs Hlen. pose proof (zlen_nonneg s).
  destruct (zipTryEncoding_spec s) as (te & -> & Hte). exists te.
  destruct te as [[v en]|].
  - destruct Hte as (Hv & Hsv & [(n & He & Hr)|[Hr ->]]).
    + pose proof (int_enc_range en n He). exists en, [en], (le_enc n v). split; [done|].
      rewrite zlen_le_enc, (zipIntSize_enc en n He). split; [by apply header_int|].
      split; [apply le_enc_bytes|]. split.
      { unfold e_val. simpl. test (en <? 192) false. by rewrite int_val_enc. }
      split; [change (zlen [en]) with 1; lia|]. split; [done|].
      unfold write_value, zipStoreEntryEncoding, zipEntryEncoding_buf.
      rewrite (int_enc_not_str en n He). split; [done|]. intros a m c Hm.
      change (zlen [en]) with 1 in *. destruct m as [|x m]; [exfalso; zl|].
      rewrite (wrn_at _ (zlen a) [en] a [x] (m ++ c)) by done. run.
      rewrite (zipSaveInteger_at _ (a ++ [en]) m c (zlen a + 1) v en n He);
        [by lapp|by lapp|zl|zl].
    + destruct (imm_enc v Hr) as (Hstr & Hint & Hsave). exists (241 + v), [241 + v], [].
      split; [done|]. split; [by apply header_imm; lia|]. split; [by constructor|].
      split. { unfold e_val, int_val. simpl. test (241 + v <? 192) false.
        test ((241 <=? 241 + v) && (241 + v <=? 253)) true. by replace (241 + v - 241) with v by lia. }
      split; [change (zlen [241 + v]) with 1; change (zlen (@nil Z)) with 0; lia|].
      split; [done|]. unfold write_value, zipStoreEntryEncoding, zipEntryEncoding_buf.
      rewrite Hstr. split; [done|]. intros a m c Hm. rewrite (wrn_at _ (zlen a) [241 + v] a m c) by done.
      run. by rewrite Hsave.
  - destruct (zipEntryEncoding_buf_str (zlen s)) as (en & Hen & Hh); [lia|].
    exists en, (zipEntryEncoding_buf 0 (zlen s)), s. pose proof (header_nonempty _ _ _ Hh).
    split; [done|]. split; [done|]. split; [done|].
    split. { unfold e_val. simpl. by test (en <? 192) true. }
    split; [lia|]. split; [done|]. unfold write_value, zipStoreEntryEncoding.
    change (ZIP_IS_STR 0) with true. split; [done|]. intros a m c Hm.
    destruct (zsplit (zlen (zipEntryEncoding_buf 0 (zlen s))) m) as (m1 & m2 & -> & Hm1 & Hm2); [lia|].
    rewrite (wrn_at _ (zlen a) _ a m1 (m2 ++ c)) by (by lapp || lia). run.
    rewrite rdn_all by done. run.
    rewrite (wrn_at _ _ s (a ++ zipEntryEncoding_buf 0 (zlen s)) m2 c); [by lapp|by lapp|zl|zl].
Qed.

End value.
End ZiplistValue.
