(* ===== verification/ZiplistInsert.v ===== *)
(** Insertion into a ziplist ([__ziplistInsert]) keeps the representation and
    inserts the value at the position of the pointer. *)
From S2P Require Import Prelude Endianconv Util Ziplist ZiplistRep ZiplistCascade ZiplistValue.
Import Util Ziplist ZiplistRep ZiplistCascade ZiplistValue.

Module ZiplistInsert.

(** ** Representations by their parts *)

Lemma rep_intro es T t h zl :
  chain_ok 0 es → T = 11 + csize es → T < 2 ^ 32 → t = tail_offset es → count_ok h es →
  zl = zhead T t h ++ chain 0 es ++ [255] → rep es zl.
Proof. intros ? -> ? -> ? ->. repeat split; try done. by exists h. Qed.

Lemma tail_offset_app d es1 es2 :
  es2 ≠ [] → tail_offset (es1 ++ es2) = last_off d (10 + csize es1) es2.
Proof.
  destruct es2 as [|e es2 _] using rev_ind; [done|]. intros _.
  rewrite app_assoc, tail_offset_snoc, last_off_snoc, csize_app. lia.
Qed.

(** A chain that is well formed does not change. *)
Lemma casc_id prev es : chain_ok prev es → casc prev es = es.
Proof.
  intros Hc. unfold casc. destruct es as [|e es]; [done|]. cbn [grown].
  destruct Hc as (_ & [_ Hs] & _). replace (big e || (prev <? 254)) with true; [done|].
  destruct (big e); [done|]. specialize (Hs eq_refl). simpl. lia.
Qed.

Lemma length_casc prev es : length (casc prev es) = length es.
Proof.
  pose proof (grown_app prev es). unfold casc. destruct (grown prev es) as [g s]. subst es.
  by rewrite !length_app, length_fmap.
Qed.

(** Replacing the previous-length field of an entry. *)
Definition with_big (bg : bool) (e : entry) : entry := Entry bg (enc e) (hdr e) (data e).

Lemma esize_with_big bg e : esize (with_big bg e) = esize e + (psize bg - psize (big e)).
Proof. unfold esize, body. simpl. lia. Qed.

Lemma body_with_big bg e : body (with_big bg e) = body e.
Proof. done. Qed.

Lemma psize_bounds bg : 1 <= psize bg <= 5.
Proof. destruct bg; simpl; lia. Qed.

Lemma chain_ok_wf prev es : chain_ok prev es → Forall entry_wf es.
Proof. revert prev. induction es; intros prev; [by constructor|]. intros (? & _ & ?). constructor; eauto. Qed.

Lemma last_off_bounds d P es :
  Forall entry_wf es → es ≠ [] → P <= last_off d P es <= P + csize es - 2.
Proof.
  intros Hc Hne. destruct es as [|e es _] using rev_ind; [done|].
  apply Forall_app in Hc as [_ [He _]%Forall_cons_1]. apply esize_bounds in He.
  rewrite last_off_snoc, csize_app. simpl. pose proof (csize_nonneg es). lia.
Qed.

Lemma last_off_next d d' P e es :
  (es = [] → d = last_off d' P [e]) → last_off d (P + esize e) es = last_off d' P (e :: es).
Proof.
  intros Hd. destruct es as [|x es _] using rev_ind; [by rewrite <- Hd|].
  change (e :: es ++ [x]) with ((e :: es) ++ [x]). rewrite !last_off_snoc. simpl. lia.
Qed.

Lemma last_off_cons d P e es : es ≠ [] → last_off d P (e :: es) = last_off d P es + esize e.
Proof.
  intros Hne. destruct es as [|x es _] using rev_ind; [done|].
  change (e :: es ++ [x]) with ((e :: es) ++ [x]). rewrite !last_off_snoc. simpl. lia.
Qed.

Lemma last_off_shift d d' P k es : es ≠ [] → last_off d (P + k) es = last_off d' P es + k.
Proof. destruct es; [done|]. intros _. unfold last_off. lia. Qed.

Lemma bind3 {B C D F} (m1 : outcome B) (m2 : B → outcome C) (m3 : B → C → outcome D) (k : D → outcome F) :
  (a ← m1; b ← m2 a; d ← m3 a b; k d) = ((a ← m1; b ← m2 a; m3 a b) ≫= k).
Proof. destruct m1 as [a| | |]; [|done..]. simpl. by destruct (m2 a). Qed.

Lemma bind4 {B C D F G} (m1 : outcome B) (m2 : B → outcome C) (m3 : B → C → outcome D)
    (m4 : D → outcome F) (k : F → outcome G) :
  (a ← m1; b ← m2 a; d ← m3 a b; f ← m4 d; k f) = ((a ← m1; b ← m2 a; d ← m3 a b; m4 d) ≫= k).
Proof.
  destruct m1 as [a| | |]; [|done..]. simpl. destruct (m2 a) as [b| | |]; [|done..]. simpl.
  by destruct (m3 a b).
Qed.

Section insert.
Context {H : HostOrder} {A : Allocator} {L : AllocatorLaws A}.

(** ** The length of the predecessor of the insertion point *)
Lemma insert_prevlen zl T t h es1 es2 p :
  zl = zhead T t h ++ chain 0 (es1 ++ es2) ++ [255] → chain_ok 0 (es1 ++ es2) →
  T = 11 + csize (es1 ++ es2) → T < 2 ^ 32 → t = tail_offset (es1 ++ es2) → p = 10 + csize es1 →
  ∃ c, rd zl p = Ret c ∧ (c =? ZIP_END) = match es2 with [] => true | _ => false end ∧
  (if negb (c =? ZIP_END) then pl ← ZIP_DECODE_PREVLEN zl p; Ret (snd pl)
   else ptail ← ZIPLIST_ENTRY_TAIL zl;
        ct ← rd zl ptail;
        if negb (ct =? ZIP_END) then zipRawEntryLengthSafe zl T ptail else Ret 0)
  = Ret (lsize 0 es1).
Proof.
  intros E Hc HT HTlt Ht Hp. pose proof (tail_offset_bounds _ Hc) as Htb. rewrite csize_app in *.
  pose proof (csize_nonneg es1). pose proof (csize_nonneg es2).
  assert (zlen (zhead T t h ++ chain 0 es1) = p) as Hzp
    by (rewrite zlen_app, zlen_zhead, zlen_chain; lia).
  assert (zl = (zhead T t h ++ chain 0 es1) ++ chain (lsize 0 es1) es2 ++ [255]) as E1
    by (rewrite E, chain_app; by lapp).
  pose proof Hc as Hc'. apply chain_ok_app in Hc as [Hc1 Hc2]. destruct es2 as [|n r].
  - exists ZIP_END. rewrite (rd_end zl _ [] p E1 Hzp). split; [done|]. split; [done|].
    change (negb (ZIP_END =? ZIP_END)) with false. cbv iota.
    unfold ZIPLIST_ENTRY_TAIL. rewrite (ZIPLIST_TAIL_OFFSET_at zl _ T t h E) by lia. run.
    rewrite app_nil_r in *. destruct es1 as [|e es1 _] using rev_ind.
    + subst t. change (tail_offset []) with 10.
      simpl in Hp. subst p. by rewrite (rd_end zl _ [] 10 E1 Hzp).
    + rewrite tail_offset_snoc in Ht. apply chain_ok_app in Hc1 as [Hc1 (He & Hf & _)].
      assert (zl = (zhead T t h ++ chain 0 es1) ++ ebytes (lsize 0 es1) e ++ [255]) as E2
        by (rewrite E, chain_app; simpl; by lapp).
      assert (zlen (zhead T t h ++ chain 0 es1) = t) as Hzt
        by (rewrite zlen_app, zlen_zhead, zlen_chain; lia).
      destruct (rd_entry zl _ _ e _ t Hf E2 Hzt) as (x & -> & Hx). run. rewrite Hx. simpl negb. cbv iota.
      rewrite csize_app in *. simpl csize in *. pose proof (csize_nonneg es1).
      rewrite (zipRawEntryLengthSafe_at zl T (lsize 0 es1) e _ [255] t) by
        (done || apply He || lia || (rewrite E2, !zlen_app, zlen_zhead, zlen_chain, zlen_ebytes;
           change (zlen [255]) with 1; lia)).
      by rewrite lsize_app.
  - destruct Hc2 as (He & Hf & _).
    assert (zl = (zhead T t h ++ chain 0 es1) ++ ebytes (lsize 0 es1) n ++ chain (esize n) r ++ [255]) as E2
      by (rewrite E1; simpl; by lapp).
    destruct (rd_entry zl _ _ n _ p Hf E2 Hzp) as (x & -> & Hx). exists x. split; [done|]. split; [done|].
    rewrite Hx. simpl negb. cbv iota.
    rewrite (ZIP_DECODE_PREVLEN_at zl (big n) (lsize 0 es1) (zhead T t h ++ chain 0 es1) (body n ++ chain (esize n) r ++ [255]));
      [done|done|rewrite E2; unfold ebytes; by lapp|done].
Qed.

(** ** Writing the new entry into the space made for it *)
Lemma insert_finish T t h C Y R prev s value encoding hd dt en :
  zlen Y = esize (Entry (needs5 prev) en hd dt) → 0 <= prev < 2 ^ 32 → 0 <= h < 2 ^ 16 →
  (∀ a m c, zlen m = zlen hd + zlen dt →
      write_value (a ++ m ++ c) (zlen a) s (zlen s) value encoding = Ret (a ++ hd ++ dt ++ c)) →
  (r ← zipStorePrevEntryLength (zhead T t h ++ C ++ Y ++ R) (Some (10 + zlen C)) prev;
   let '(zl, n) := r in
   zl ← write_value zl (10 + zlen C + n) s (zlen s) value encoding;
   ZIPLIST_INCR_LENGTH zl 1) =
  Ret (zhead T t (if h <? 65535 then h + 1 else h) ++ C ++ ebytes prev (Entry (needs5 prev) en hd dt) ++ R).
Proof.
  intros HY Hp Hh Hw. pose proof (psize_bounds (needs5 prev)) as Hps.
  unfold esize, body in HY. simpl in HY. rewrite zlen_app in HY.
  pose proof (zlen_nonneg hd). pose proof (zlen_nonneg dt).
  destruct (zsplit (psize (needs5 prev)) Y) as (Y1 & Y2 & -> & HY1 & HY2); [lia|]. rewrite zlen_app in *.
  rewrite (zipStorePrevEntryLength_at _ (zhead T t h ++ C) Y1 (Y2 ++ R)) by
    (by lapp || lia || (rewrite zlen_app, zlen_zhead; lia)). run.
  pose proof (Hw (zhead T t h ++ C ++ pbytes (needs5 prev) prev) Y2 R ltac:(lia)) as W.
  rewrite !zlen_app, zlen_zhead, zlen_pbytes in W.
  replace ((zhead T t h ++ C ++ pbytes (needs5 prev) prev) ++ Y2 ++ R)
    with ((zhead T t h ++ C) ++ pbytes (needs5 prev) prev ++ Y2 ++ R) in W by (by lapp).
  replace (10 + (zlen C + psize (needs5 prev))) with (10 + zlen C + psize (needs5 prev)) in W by lia.
  rewrite W. run. unfold ZIPLIST_INCR_LENGTH. zconst.
  set (X := C ++ pbytes (needs5 prev) prev ++ hd ++ dt ++ R).
  replace ((zhead T t h ++ C ++ pbytes (needs5 prev) prev) ++ hd ++ dt ++ R) with (zhead T t h ++ X)
    by (unfold X; by lapp).
  rewrite (ZIPLIST_LENGTH_at _ X T t h) by (done || lia). run.
  assert (∀ h', Ret (zhead T t h' ++ X) = Ret (zhead T t h' ++ C ++ ebytes prev (Entry (needs5 prev) en hd dt) ++ R)) as EX
    by (intros; unfold X, ebytes, body; simpl; by lapp).
  destruct (Z.ltb_spec h 65535); [|apply EX].
  rewrite (set_ZIPLIST_LENGTH_at _ X T t h) by (done || lia). apply EX.
Qed.

Lemma count_ok_insert h (es es' : list entry) :
  count_ok h es → zlen es' = zlen es + 1 → count_ok (if h <? 65535 then h + 1 else h) es'.
Proof. unfold count_ok. intros [Hh Hc] Hl. destruct (Z.ltb_spec h 65535); lia. Qed.

(** ** Making room before an existing entry *)

(** The previous-length field of the entry after the new one: it is kept
    large when the new entry is too short to shrink into ([forcelarge]). *)
Definition next_big (reqlen : Z) (bg : bool) : bool :=
  needs5 reqlen || (bg && (reqlen <? 4)).

Lemma next_big_diff reqlen bg :
  let nd := psize (needs5 reqlen) - psize bg in
  (if (nd =? -4) && (reqlen <? 4) then (0, true) else (nd, false)) =
  (psize (next_big reqlen bg) - psize bg, (nd =? -4) && (reqlen <? 4)).
Proof.
  unfold next_big, needs5. destruct (Z.leb_spec 254 reqlen), bg; simpl; try done;
  by destruct (Z.ltb_spec reqlen 4); try lia.
Qed.

(** Storing the length of the new entry in the next one. *)
Lemma insert_store_next zl a K c reqlen bg p :
  zl = a ++ K ++ c → zlen a = p → zlen K = psize (next_big reqlen bg) → 0 <= reqlen < 2 ^ 32 →
  ∃ n, (if (psize (needs5 reqlen) - psize bg =? -4) && (reqlen <? 4)
        then zipStorePrevEntryLengthLarge zl (Some p) reqlen
        else zipStorePrevEntryLength zl (Some p) reqlen)
       = Ret (a ++ pbytes (next_big reqlen bg) reqlen ++ c, n).
Proof.
  intros E Ha HK Hr.
  assert ((psize (needs5 reqlen) - psize bg =? -4) && (reqlen <? 4) = negb (needs5 reqlen) && next_big reqlen bg) as ->.
  { unfold next_big, needs5. destruct (Z.leb_spec 254 reqlen), bg; simpl; try done;
    by destruct (Z.ltb_spec reqlen 4); try lia. }
  destruct (needs5 reqlen) eqn:Hn; cbn [negb andb].
  - assert (next_big reqlen bg = true) as Hb by (unfold next_big; by rewrite Hn). rewrite Hb in *.
    pose proof (zipStorePrevEntryLength_at zl a K c p reqlen E Ha) as W. rewrite Hn in W.
    rewrite W by done. eauto.
  - destruct (next_big reqlen bg) eqn:Hb.
    + rewrite (zipStorePrevEntryLengthLarge_at zl a K c p reqlen) by done. eauto.
    + pose proof (zipStorePrevEntryLength_at zl a K c p reqlen E Ha) as W. rewrite Hn in W.
      rewrite W by done. eauto.
Qed.

(** The tail offset after the move: the whole tail moved by [reqlen], and the
    entries after [n] by [nd] more. *)
Lemma insert_tail T t h C Y n r reqlen bg nd :
  let p := 10 + zlen C in
  let n' := with_big bg n in
  let zl := zhead T t h ++ C ++ Y ++ ebytes reqlen n' ++ chain (esize n) r ++ [255] in
  entry_wf n → chain_ok (esize n) r → pfits bg reqlen → nd = psize bg - psize (big n) →
  zlen Y = reqlen → zlen zl = T → p + esize n + csize r + reqlen + 5 < 2 ^ 32 →
  t = last_off t p (n :: r) →
  (t0 ← ZIPLIST_TAIL_OFFSET zl;
   zl ← set_ZIPLIST_TAIL_OFFSET zl (t0 + reqlen);
   tail ← assertEntrySafe zl T (p + reqlen) true;
   c ← rd zl (p + (reqlen + headersize tail + len tail));
   if negb (c =? ZIP_END) then
     t0 ← ZIPLIST_TAIL_OFFSET zl; set_ZIPLIST_TAIL_OFFSET zl (t0 + nd)
   else Ret zl) =
  Ret (zhead T (last_off t (p + reqlen) (n' :: r)) h ++
       C ++ Y ++ ebytes reqlen n' ++ chain (esize n) r ++ [255]).
Proof.
  intros p n' zl Hn Hr Hf Hnd HY HT Hlt Ht. unfold zl in *. set (S := chain (esize n) r) in *.
  pose proof (csize_nonneg r). pose proof (zlen_nonneg C). pose proof (esize_bounds n Hn).
  pose proof (psize_bounds bg). pose proof (psize_bounds (big n)).
  assert (p <= t <= p + (esize n + csize r) - 2) as Hb.
  { rewrite Ht. apply (last_off_bounds t p (n :: r)); [|done]. constructor; [done|].
    by eapply chain_ok_wf. }
  set (X := C ++ Y ++ ebytes reqlen n' ++ S ++ [255]) in *. destruct Hf as [Hf1 Hf2].
  rewrite (ZIPLIST_TAIL_OFFSET_at _ X T t h) by (done || lia). run.
  rewrite (set_ZIPLIST_TAIL_OFFSET_at _ X T t h) by (done || lia). run.
  set (p' := p + reqlen). set (Q := zhead T (t + reqlen) h ++ C ++ Y).
  assert (zlen Q = p') as HQ by (unfold Q; rewrite !zlen_app, zlen_zhead; unfold p', p; lia).
  assert (zhead T (t + reqlen) h ++ X = Q ++ ebytes reqlen n' ++ S ++ [255]) as EX
    by (unfold X, Q; by lapp).
  assert (zlen (zhead T (t + reqlen) h ++ X) = T) as HT'.
  { rewrite <- HT. rewrite !zlen_app, !zlen_zhead. done. }
  rewrite (assertEntrySafe_at _ T reqlen n' Q (S ++ [255]) p' true);
    [|apply Hn|done|exact EX|done|done|unfold p', p; lia|by destruct S|unfold p', p; lia].
  run. unfold zlentry_of, headersize, len.
  replace (p + (reqlen + (psize (big n') + zlen (hdr n')) + zlen (data n'))) with (p' + esize n')
    by (unfold esize, body; rewrite zlen_app; unfold p'; lia).
  assert (zlen (Q ++ ebytes reqlen n') = p' + esize n') as HX' by (rewrite zlen_app, zlen_ebytes; lia).
  destruct r as [|e r].
  - rewrite (rd_end (zhead T (t + reqlen) h ++ X) (Q ++ ebytes reqlen n') [] (p' + esize n'));
      [|rewrite EX; unfold S; by lapp|done].
    run. change (negb (ZIP_END =? ZIP_END)) with false. cbv iota.
    change (last_off t p' [n']) with (p' + 0). change (last_off t p [n]) with (p + 0) in Ht.
    by replace (p' + 0) with (t + reqlen) by (unfold p'; lia).
  - destruct Hr as (He & Hfe & _).
    destruct (rd_entry (zhead T (t + reqlen) h ++ X) (Q ++ ebytes reqlen n')
      (esize n) e (chain (esize e) r ++ [255]) (p' + esize n') Hfe) as (y & -> & Hy);
      [rewrite EX; unfold S; simpl; by lapp|done|]. run. rewrite Hy. simpl negb. cbv iota.
    rewrite last_off_cons in Ht by done.
    rewrite (ZIPLIST_TAIL_OFFSET_at _ X T (t + reqlen) h) by (done || lia). run.
    rewrite (set_ZIPLIST_TAIL_OFFSET_at _ X T (t + reqlen) h); [|done|lia].
    rewrite last_off_cons by done. unfold p'. rewrite (last_off_shift t t p reqlen) by done.
    unfold n'. rewrite esize_with_big. do 3 f_equal. lia.
Qed.

Lemma insert_move_spec T t h C prev n r J reqlen :
  let p := 10 + zlen C in
  let bg := next_big reqlen (big n) in
  let nd := psize bg - psize (big n) in
  let S := chain (esize n) r in
  let curlen := p + esize n + csize r + 1 in
  entry_wf n → pfits (big n) prev → chain_ok (esize n) r → 2 <= reqlen →
  zlen J = reqlen + nd → T = curlen + reqlen + nd → curlen + reqlen + 4 < 2 ^ 32 →
  t = last_off t p (n :: r) →
  ∃ Y, zlen Y = reqlen ∧
  insert_move (zhead T t h ++ C ++ ebytes prev n ++ S ++ J ++ [255]) curlen T p reqlen nd
    ((psize (needs5 reqlen) - psize (big n) =? -4) && (reqlen <? 4)) =
  Ret (zhead T (last_off t (p + reqlen) (with_big bg n :: r)) h ++
       C ++ Y ++ ebytes reqlen (with_big bg n) ++ S ++ [255]).
Proof.
  intros p bg nd S curlen Hn Hf Hr Hreq HJ HT HTlt Ht.
  pose proof (csize_nonneg r). pose proof (zlen_nonneg C). pose proof (zlen_nonneg (body n)).
  pose proof (psize_bounds bg). pose proof (psize_bounds (big n)).
  assert (zlen S = csize r) as HS by apply zlen_chain.
  assert (esize n = psize (big n) + zlen (body n)) as Hsz by done.
  assert (-4 <= nd <= 4) as Hnd by (unfold nd; destruct bg, (big n); simpl; lia).
  (* the source of the move *)
  destruct (zsplit (p - nd) (zhead T t h ++ C ++ pbytes (big n) prev)) as (Z1 & K & EZ & HZ1 & HK);
    [rewrite !zlen_app, zlen_zhead, zlen_pbytes; unfold p, nd; lia|].
  rewrite !zlen_app, zlen_zhead, zlen_pbytes in HK.
  assert (zlen K = psize bg) as HK' by (unfold nd in *; lia).
  (* its destination *)
  destruct (zsplit reqlen (ebytes prev n ++ S ++ J)) as (Y & W & EW & HY & HW);
    [rewrite !zlen_app, zlen_ebytes; unfold nd in *; lia|]. rewrite !zlen_app, zlen_ebytes in HW.
  exists Y. split; [done|]. unfold insert_move.
  rewrite (memmove_app _ _ _ _ Z1 (K ++ body n ++ S) (J ++ [255])
    (zhead T t h ++ C ++ Y) W [255]).
  2: { transitivity ((zhead T t h ++ C ++ pbytes (big n) prev) ++ body n ++ S ++ J ++ [255]);
       [unfold ebytes; by lapp|]. rewrite EZ. by lapp. }
  2: done. 2: { rewrite !zlen_app. unfold curlen, nd in *. lia. }
  2: { transitivity (zhead T t h ++ C ++ (ebytes prev n ++ S ++ J) ++ [255]); [by lapp|].
       rewrite EW. by lapp. }
  2: { rewrite !zlen_app, zlen_zhead. unfold p. lia. } 2: { unfold curlen, nd in *. lia. }
  run. destruct (insert_store_next ((zhead T t h ++ C ++ Y) ++ (K ++ body n ++ S) ++ [255])
    (zhead T t h ++ C ++ Y) K (body n ++ S ++ [255]) reqlen (big n) (p + reqlen)) as (x & ->);
    [by lapp|rewrite !zlen_app, zlen_zhead; unfold p; lia|done|lia|].
  run. unfold fst. fold bg.
  replace ((zhead T t h ++ C ++ Y) ++ pbytes bg reqlen ++ body n ++ S ++ [255]) with
    (zhead T t h ++ C ++ Y ++ ebytes reqlen (with_big bg n) ++ S ++ [255])
    by (unfold ebytes; simpl; by lapp).
  apply (insert_tail T t h C Y n r reqlen bg nd); try done.
  - split; [lia|]. unfold bg, next_big, needs5. lia.
  - rewrite !zlen_app, zlen_zhead, zlen_ebytes, esize_with_big. change (zlen [255]) with 1.
    fold S. unfold curlen, nd in *. lia.
  - fold p. lia.
Qed.

(** ** Insertion *)

(** At the end of the list. *)
Lemma insert_at_end T t h es1 reqlen :
  let zl := zhead T t h ++ chain 0 es1 ++ [255] in
  let p := 10 + csize es1 in
  T = p + 1 → 2 <= reqlen → T + reqlen < UINT32_MAX →
  ∃ Y, zlen Y = reqlen ∧
  (zl ← ziplistResize zl (u64 (T + reqlen + 0));
   c ← rd zl p;
   if negb (c =? ZIP_END) then insert_move zl T (u64 (T + reqlen + 0)) p reqlen 0 false
   else set_ZIPLIST_TAIL_OFFSET zl p) =
  Ret (zhead (T + reqlen) p h ++ chain 0 es1 ++ Y ++ [255]).
Proof.
  intros zl p HT Hreq Hlt. pose proof (csize_nonneg es1). zconst. rewrite Z.add_0_r.
  rewrite wrapu_id by lia.
  destruct (ziplistResize_grow zl T t h (chain 0 es1) (T + reqlen)) as (J & HJ & HJ' & ->);
    [done|unfold zl; rewrite !zlen_app, zlen_zhead, zlen_chain; change (zlen [255]) with 1; lia|zconst; lia|].
  run. exists J. split; [lia|]. destruct HJ' as [->|[J' ->]]; [change (zlen (@nil Z)) with 0 in HJ; lia|].
  rewrite (rd_end _ (zhead (T + reqlen) t h ++ chain 0 es1) (J' ++ [255]) p);
    [|by lapp|rewrite zlen_app, zlen_zhead, zlen_chain; done]. run.
  change (negb (ZIP_END =? ZIP_END)) with false. cbv iota.
  by rewrite (set_ZIPLIST_TAIL_OFFSET_at _ (chain 0 es1 ++ (255 :: J') ++ [255]) (T + reqlen) t h) by (done || lia).
Qed.

(** The cascade that starts at an entry [n] whose previous length has changed
    its size. *)
Lemma cascade_if T t h X pv n bg r p d :
  let n' := with_big bg n in
  let nd := psize bg - psize (big n) in
  let r' := casc (esize n') r in
  let zl := zhead T t h ++ X ++ ebytes pv n' ++ chain (esize n) r ++ [255] in
  entry_wf n → pfits bg pv → chain_ok (esize n) r → p = 10 + zlen X → zlen zl = T →
  T + 4 * zlen r < UINT32_MAX → t = last_off d p (n' :: r) →
  (if negb (nd =? 0) then __ziplistCascadeUpdate zl p else Ret zl) =
  Ret (zhead (11 + zlen X + esize n' + csize r') (last_off d p (n' :: r')) h ++ X
       ++ ebytes pv n' ++ chain (esize n') r' ++ [255]).
Proof.
  intros n' nd r' zl Hn Hf Hr Hp HT Hlt Ht. zconst.
  pose proof (csize_nonneg r). pose proof (zlen_nonneg r). pose proof (zlen_nonneg X).
  pose proof (esize_bounds n' Hn) as Hn2.
  assert (esize n' = esize n + nd) as Hn' by apply esize_with_big.
  assert (T = p + esize n' + csize r + 1) as HTe.
  { rewrite <- HT. unfold zl. rewrite !zlen_app, zlen_zhead, zlen_ebytes, zlen_chain.
    change (zlen [255]) with 1. lia. }
  assert (p <= t <= p + (esize n' + csize r) - 2) as Hb.
  { rewrite Ht. apply (last_off_bounds d p (n' :: r)); [|done]. constructor; [done|by eapply chain_ok_wf]. }
  destruct (Z.eqb_spec nd 0) as [Hnd0|Hnd0]; simpl negb; cbv iota.
  - assert (r' = r) as -> by (apply casc_id; by rewrite Hn', Hnd0, Z.add_0_r).
    replace (11 + zlen X + esize n' + csize r) with T by lia. rewrite <- Ht.
    unfold zl. by rewrite Hn', Hnd0, Z.add_0_r.
  - rewrite (__ziplistCascadeUpdate_spec zl T t h X pv n' (esize n) r p);
      [|done|done|lia|zconst; lia|done|done|done| |done|].
    + fold r'. assert (last_off t (p + esize n') r' = last_off d p (n' :: r')) as ->.
      { apply last_off_next. unfold r'. intros E0. apply (f_equal length) in E0.
        rewrite length_casc in E0. by destruct r. }
      by replace (T + csize r' - csize r) with (11 + zlen X + esize n' + csize r') by lia.
    + unfold seam. rewrite Hn'. unfold nd in *. destruct bg, (big n); simpl in *; lia.
    + rewrite Ht at 1. symmetry. apply last_off_next. by intros ->.
Qed.

(** Before an entry. *)
Lemma insert_before T t h es1 n r reqlen :
  let prev := lsize 0 es1 in
  let zl := zhead T t h ++ chain 0 es1 ++ chain prev (n :: r) ++ [255] in
  let p := 10 + csize es1 in
  let bg := next_big reqlen (big n) in
  let nd := psize bg - psize (big n) in
  let n' := with_big bg n in
  let r' := casc (esize n') r in
  chain_ok prev (n :: r) → T = p + esize n + csize r + 1 → t = last_off t p (n :: r) →
  2 <= reqlen → T + reqlen + 4 * zlen r + 8 < UINT32_MAX →
  ∃ Y, zlen Y = reqlen ∧
  (zl ← ziplistResize zl (u64 (T + reqlen + nd));
   c ← rd zl p;
   zl ← (if negb (c =? ZIP_END) then
           insert_move zl T (u64 (T + reqlen + nd)) p reqlen nd
             ((psize (needs5 reqlen) - psize (big n) =? -4) && (reqlen <? 4))
         else set_ZIPLIST_TAIL_OFFSET zl p);
   if negb (nd =? 0) then __ziplistCascadeUpdate zl (p + reqlen) else Ret zl) =
  Ret (zhead (11 + csize es1 + reqlen + csize (n' :: r')) (last_off t (p + reqlen) (n' :: r')) h
       ++ chain 0 es1 ++ Y ++ chain reqlen (n' :: r') ++ [255]).
Proof.
  intros prev zl p bg nd n' r' (Hn & Hf & Hr) HT Ht Hreq Hlt. zconst.
  pose proof (csize_nonneg es1). pose proof (csize_nonneg r). pose proof (zlen_nonneg r).
  pose proof (esize_bounds n Hn). pose proof (esize_bounds n' Hn) as Hn'2.
  assert (esize n' = esize n + nd) as Hn' by apply esize_with_big.
  assert (-4 <= nd <= 4) as Hnd by (unfold nd; destruct bg, (big n); simpl; lia).
  rewrite wrapu_id by lia.
  destruct (ziplistResize_grow zl T t h (chain 0 es1 ++ chain prev (n :: r)) (T + reqlen + nd))
    as (J & HJ & _ & ->).
  { unfold zl. by lapp. }
  { unfold zl. rewrite !zlen_app, zlen_zhead, !zlen_chain. change (zlen [255]) with 1. simpl. lia. }
  { zconst. split; [|lia]. unfold nd, bg, next_big, needs5.
    destruct (Z.leb_spec 254 reqlen), (Z.ltb_spec reqlen 4), (big n); simpl; lia. }
  run. set (T' := T + reqlen + nd) in *.
  assert (zhead T' t h ++ (chain 0 es1 ++ chain prev (n :: r)) ++ J ++ [255] =
    zhead T' t h ++ chain 0 es1 ++ ebytes prev n ++ chain (esize n) r ++ J ++ [255]) as -> by (simpl; by lapp).
  destruct (rd_entry (zhead T' t h ++ chain 0 es1 ++ ebytes prev n ++ chain (esize n) r ++ J ++ [255])
    (zhead T' t h ++ chain 0 es1) prev n (chain (esize n) r ++ J ++ [255]) p Hf) as (x & -> & Hx);
    [by lapp|by rewrite zlen_app, zlen_zhead, zlen_chain|]. run. zconst. rewrite Hx. simpl negb. cbv iota.
  destruct (insert_move_spec T' t h (chain 0 es1) prev n r J reqlen) as (Y & HY & E);
    rewrite ?zlen_chain; try done; fold bg; fold nd; try lia.
  rewrite zlen_chain in E. fold p bg nd in E. rewrite <- HT in E. rewrite E. run.
  exists Y. split; [done|]. fold n'. set (t' := last_off t (p + reqlen) (n' :: r)).
  assert (p + reqlen <= t' <= p + reqlen + (esize n' + csize r) - 2) as Hb.
  { apply (last_off_bounds t (p + reqlen) (n' :: r)); [|done]. constructor; [done|].
    by eapply chain_ok_wf. }
  assert (pfits bg reqlen) by (split; [lia|]; unfold bg, next_big, needs5; lia).
  pose proof (cascade_if T' t' h (chain 0 es1 ++ Y) reqlen n bg r (p + reqlen) t) as D.
  cbv zeta in D. rewrite <- !(app_assoc (chain 0 es1)), zlen_app, zlen_chain in D. fold nd n' r' in D.
  rewrite D; [|done|done|done|unfold p; lia| |zconst; lia|done].
  - cbn [csize chain]. replace (11 + (csize es1 + zlen Y) + esize n' + csize r')
      with (11 + csize es1 + reqlen + (esize n' + csize r')) by lia. by lapp.
  - rewrite !zlen_app, zlen_zhead, !zlen_chain, zlen_ebytes. change (zlen [255]) with 1. unfold p in *. lia.
Qed.

Lemma insert_rep T t h es1 prev e es2' zl h0 (es2 : list entry) :
  zl = zhead T t h ++ chain 0 es1 ++ ebytes prev e ++ chain (esize e) es2' ++ [255] →
  prev = lsize 0 es1 → chain_ok 0 es1 → entry_wf e → pfits (big e) prev → chain_ok (esize e) es2' →
  T = 11 + csize es1 + esize e + csize es2' → T < 2 ^ 32 →
  t = last_off 0 (10 + csize es1) (e :: es2') → count_ok h0 (es1 ++ es2) →
  h = (if h0 <? 65535 then h0 + 1 else h0) → length es2' = length es2 →
  rep (es1 ++ e :: es2') zl.
Proof.
  intros -> -> Hc1 He Hf Hc2 HT HTlt Ht Hh -> Hlen. eapply rep_intro; [| | | | |].
  - apply chain_ok_app. by split; [|split; [|split]].
  - rewrite csize_app. simpl. instantiate (1 := T). lia.
  - done.
  - rewrite (tail_offset_app 0) by done. exact Ht.
  - eapply count_ok_insert; [exact Hh|]. zl.
  - rewrite chain_app. simpl. by lapp.
Qed.

(** The second half of the insertion, for a planned entry [e]. *)
Section commit.
Context (es1 : list entry) (T t h : Z) (s : list Z) (value encoding en : Z) (hd dt : list Z).
Let prev := lsize 0 es1.
Let p := 10 + csize es1.
Let e := Entry (needs5 prev) en hd dt.
Hypothesis Hc1 : chain_ok 0 es1.
Hypothesis He : entry_wf e.
Hypothesis Hfe : pfits (big e) prev.
Hypothesis Hwr : ∀ a m c, zlen m = zlen hd + zlen dt →
  write_value (a ++ m ++ c) (zlen a) s (zlen s) value encoding = Ret (a ++ hd ++ dt ++ c).

Lemma insert_commit_end :
  let zl := zhead T t h ++ chain 0 es1 ++ [255] in
  count_ok h es1 → T = p + 1 → T + esize e < UINT32_MAX →
  ∃ zl', insert_commit zl T p ZIP_END prev (esize e) s (zlen s) value encoding = Ret zl' ∧
    rep (es1 ++ [e]) zl' ∧ zlen zl' = zlen zl + esize e.
Proof.
  intros zl Hh HT Hlt. zconst. pose proof (esize_bounds e He). pose proof (csize_nonneg es1).
  unfold insert_commit. change (negb (255 =? ZIP_END)) with false. cbv iota. run.
  change ((0 =? -4) && (esize e <? 4)) with false. cbv iota zeta. rewrite bind3.
  destruct (insert_at_end T t h es1 (esize e)) as (Y & HY & EY); [done|lia|zconst; lia|].
  fold p in EY. unfold zl. rewrite EY. run. cbn [negb Z.eqb]. run.
  pose proof (insert_finish (T + esize e) p h (chain 0 es1) Y [255] prev s value encoding
    hd dt en HY (proj1 Hfe) ltac:(unfold count_ok in Hh; lia) Hwr) as F.
  rewrite zlen_chain in F. fold p e in F. rewrite F. eexists. split; [done|]. split.
  - eapply (insert_rep (T + esize e) p _ es1 prev e [] _ h []);
      [done|done|done|done|done|done|unfold p in *; simpl; lia|lia|unfold p; simpl; lia
      |by rewrite app_nil_r|done|done].
  - rewrite !zlen_app, !zlen_zhead, zlen_chain, zlen_ebytes. change (zlen [255]) with 1. lia.
Qed.

Lemma insert_commit_before n r c :
  let zl := zhead T t h ++ chain 0 es1 ++ chain prev (n :: r) ++ [255] in
  chain_ok prev (n :: r) → count_ok h (es1 ++ n :: r) → T = p + esize n + csize r + 1 →
  t = last_off t p (n :: r) → T + esize e + 4 * zlen r + 8 < UINT32_MAX → (c =? ZIP_END) = false →
  ∃ es2' zl', insert_commit zl T p c prev (esize e) s (zlen s) value encoding = Ret zl' ∧
    rep (es1 ++ e :: es2') zl' ∧ e_val <$> es2' = e_val <$> (n :: r) ∧
    zlen zl' <= zlen zl + esize e + 4 * zlen r + 4.
Proof.
  intros zl Hnr Hh HT Ht Hlt Hc. pose proof Hnr as (Hn & Hfn & Hr). zconst.
  pose proof (esize_bounds e He). pose proof (csize_nonneg es1). pose proof (zlen_nonneg r).
  pose proof (csize_nonneg r). pose proof (esize_bounds n Hn).
  unfold insert_commit. zconst. rewrite Hc. cbn [negb]. rewrite wrapu_id by lia.
  rewrite (zipPrevLenByteDiff_at zl (big n) prev (zhead T t h ++ chain 0 es1) (body n ++ chain (esize n) r ++ [255]));
    [|done|unfold zl; simpl; unfold ebytes; by lapp|by rewrite zlen_app, zlen_zhead, zlen_chain|lia].
  run. rewrite next_big_diff. cbv iota zeta. rewrite bind4.
  destruct (insert_before T t h es1 n r (esize e)) as (Y & HY & EY);
    [done|done|done|lia|zconst; lia|].
  fold prev p zl in EY. zconst. rewrite EY. run. clear EY.
  set (n' := with_big (next_big (esize e) (big n)) n) in *. set (r' := casc (esize n') r) in *.
  pose proof (insert_finish (11 + csize es1 + esize e + csize (n' :: r')) (last_off t (p + esize e) (n' :: r'))
    h (chain 0 es1) Y (chain (esize e) (n' :: r') ++ [255]) prev s value encoding
    hd dt en HY (proj1 Hfe) ltac:(unfold count_ok in Hh; lia) Hwr) as F.
  rewrite zlen_chain in F. fold p e in F. rewrite F. clear F. exists (n' :: r'). eexists. split; [done|].
  assert (esize n' = esize n + (psize (big n') - psize (big n))) as Hn' by apply esize_with_big.
  pose proof (psize_bounds (big n')). pose proof (psize_bounds (big n)).
  pose proof (esize_bounds n' Hn) as Hn2.
  destruct (casc_ok (esize n) (esize n') r Hr ltac:(lia) ltac:(lia)) as (Hr' & Hv & Hcs). fold r' in Hr', Hv, Hcs.
  split; [|split; [by rewrite !fmap_cons, Hv|]].
  - eapply (insert_rep _ _ _ es1 prev e (n' :: r') _ h (n :: r));
      [done|done|done|done|done| |simpl; lia|simpl; unfold p in *; lia| |done|done
      |simpl; unfold r'; by rewrite length_casc].
    + split; [done|]. split; [|done]. split; [lia|]. simpl. unfold next_big, needs5. lia.
    + apply (last_off_next t 0 p e (n' :: r')). done.
  - unfold zl. rewrite !zlen_app, !zlen_zhead, !zlen_chain, zlen_ebytes. simpl csize. lia.
Qed.

End commit.

(** [__ziplistInsert] at the position of [es2]. *)
Lemma __ziplistInsert_spec es1 es2 zl s :
  rep (es1 ++ es2) zl → bytes_ok s → zlen zl + zlen s + 4 * zlen es2 + 32 < 2 ^ 32 →
  ∃ e es2' zl', __ziplistInsert zl (10 + csize es1) s (zlen s) = Ret zl' ∧
    rep (es1 ++ e :: es2') zl' ∧ stored s (e_val e) ∧ e_val <$> es2' = e_val <$> es2 ∧
    zlen zl' <= zlen zl + zlen s + 4 * zlen es2 + 18.
Proof.
  intros (Hc & HTlt & h & Hh & E) Hs Hroom.
  assert (zlen zl = 11 + csize (es1 ++ es2)) as Hzl by (rewrite E; apply zlen_layout).
  set (T := 11 + csize (es1 ++ es2)) in *. set (t := tail_offset (es1 ++ es2)) in *.
  assert (zl = zhead T t h ++ chain 0 (es1 ++ es2) ++ [255]) as E1 by done. clear E.
  assert (T = 11 + csize es1 + csize es2) as HT by (unfold T; rewrite csize_app; lia).
  destruct (insert_prevlen zl T t h es1 es2 (10 + csize es1) E1 Hc) as (c & Hc0 & Hce & Hpl);
    [done|done|done|done|]. pose proof (zlen_nonneg s).
  pose proof (zlen_nonneg es2). pose proof (csize_nonneg es1). pose proof (csize_nonneg es2).
  apply chain_ok_app in Hc as [Hc1 Hc2]. pose proof (lsize_bounds es1 Hc1) as Hlb.
  destruct (value_plan s Hs ltac:(lia)) as (te & en & hd & dt & Hte & Hhd & Hdt & Hst & Hsz & Hplan).
  unfold __ziplistInsert. rewrite (ZIPLIST_BYTES_at zl _ T t h E1) by lia. run.
  rewrite Hc0. run. rewrite Hpl. run. rewrite Hte. run.
  destruct (match te with Some ve => ve | None => (123456789, 0) end) as [value encoding].
  destruct Hplan as (Hint & Hsto & Hwr). rewrite Hint. run.
  rewrite zipStorePrevEntryLength_None by lia. run. rewrite Hsto. run. unfold snd.
  set (prev := lsize 0 es1) in *. set (e := Entry (needs5 prev) en hd dt). assert (entry_wf e) as He by done.
  pose proof (psize_bounds (needs5 prev)).
  assert (zlen dt + psize (needs5 prev) + zlen hd = esize e) as Hesz
    by (unfold esize, body; simpl; rewrite zlen_app; lia). rewrite Hesz. exists e.
  assert (pfits (big e) prev) as Hfe by (split; [lia|]; simpl; unfold needs5; lia).
  rewrite chain_app in E1. destruct es2 as [|n r].
  - apply Z.eqb_eq in Hce as ->. rewrite !app_nil_r in E1. rewrite app_nil_r in Hh.
    destruct (insert_commit_end es1 T t h s value encoding en hd dt Hc1 He Hfe Hwr Hh)
      as (zl' & E' & Hrep & Hl); [simpl in HT; lia|zconst; fold prev e; lia|].
    rewrite <- E1 in E', Hl. exists [], zl'. fold prev e in Hl.
    split; [done|]. split; [done|]. split; [done|]. split; [done|]. zlr. lia.
  - rewrite <- app_assoc in E1. simpl csize in *. zlr.
    destruct (insert_commit_before es1 T t h s value encoding en hd dt Hc1 He Hfe Hwr n r c)
      as (es2' & zl' & E' & Hrep & Hv & Hl);
      [done|done|lia|unfold t; by apply tail_offset_app|zconst; fold prev e; lia|done|].
    fold prev in E1, E', Hl. rewrite <- E1 in E', Hl. exists es2', zl'. fold e in E', Hl.
    split; [done|]. split; [done|]. split; [done|]. split; [done|]. lia.
Qed.

End insert.
End ZiplistInsert.
