(* ===== verification/ZiplistDelete.v ===== *)
(** Deletion from a ziplist ([__ziplistDelete]) keeps the representation and
    removes the entries from the position of the pointer on. *)
From S2P Require Import Prelude Endianconv Util Ziplist ZiplistRep ZiplistCascade ZiplistValue ZiplistInsert.
Import Util Ziplist ZiplistRep ZiplistCascade ZiplistValue ZiplistInsert.

Module ZiplistDelete.

Lemma tail_offset_lsize es : tail_offset es = 10 + csize es - lsize 0 es.
Proof.
  destruct es as [|e es _] using rev_ind; [done|].
  rewrite tail_offset_snoc, lsize_app, csize_app. simpl. lia.
Qed.

Lemma chain_nonempty prev es : es ≠ [] → chain prev es ++ [255] ≠ [255].
Proof.
  intros Hne E. apply (f_equal length) in E. destruct es as [|e es]; [done|].
  rewrite length_app in E. simpl in E. unfold ebytes in E. rewrite !length_app in E.
  destruct (big e); simpl in E; lia.
Qed.

Section delete.
Context {H : HostOrder} {A : Allocator} {L : AllocatorLaws A}.

Lemma delete_loop_spec fuel P prev dl rest i num del :
  let zl := P ++ chain prev (dl ++ rest) ++ [255] in
  (length dl <= fuel)%nat → 10 <= zlen P → chain_ok prev (dl ++ rest) → zlen zl < 2 ^ 32 →
  (i + zlen dl = num ∨ rest = [] ∧ i + zlen dl <= num) →
  delete_loop fuel zl (zlen zl) (zlen P) i num del = Ret (zlen P + csize dl, del + zlen dl).
Proof.
  revert fuel P prev i del. induction dl as [|e dl IH]; intros fuel P prev i del zl Hf HP Hc Hlt Hnum.
  - change (zlen (@nil entry)) with 0 in *. simpl csize. rewrite !Z.add_0_r in *. simpl app in *.
    destruct rest as [|e r].
    + destruct fuel; cbn [delete_loop]; rewrite (rd_end zl P []) by done; done.
    + destruct Hnum as [->|[]]; [|done]. destruct Hc as (He & Hfit & _).
      destruct (rd_entry zl P prev e (chain (esize e) r ++ [255]) (zlen P) Hfit) as (x & Hx & Hx');
        [unfold zl; simpl; by lapp|done|].
      destruct fuel; cbn [delete_loop]; rewrite Hx; run; rewrite Hx'; by test (num <? num) false.
  - destruct fuel as [|fuel]; [simpl in Hf; lia|]. destruct Hc as (He & Hfit & Hc). cbn [delete_loop].
    assert (zl = P ++ ebytes prev e ++ chain (esize e) (dl ++ rest) ++ [255]) as E
      by (unfold zl; simpl; by lapp).
    destruct (rd_entry zl P prev e _ (zlen P) Hfit E eq_refl) as (x & -> & Hx). run. rewrite Hx.
    rewrite zlen_cons in *. pose proof (zlen_nonneg dl). test (i <? num) true. simpl andb. cbv iota.
    assert (esize e < zlen zl) as Hes.
    { rewrite E, !zlen_app, zlen_ebytes, zlen_chain. pose proof (csize_nonneg (dl ++ rest)).
      change (zlen [255]) with 1. lia. }
    rewrite (zipRawEntryLengthSafe_at zl (zlen zl) prev e P (chain (esize e) (dl ++ rest) ++ [255]));
      [|apply He|done|done|done|done|done|by destruct (chain (esize e) (dl ++ rest))|lia]. run.
    specialize (IH fuel (P ++ ebytes prev e) (esize e) (i + 1) (del + 1)).
    replace ((P ++ ebytes prev e) ++ chain (esize e) (dl ++ rest) ++ [255]) with zl in IH by (rewrite E; by lapp).
    replace (zlen (P ++ ebytes prev e)) with (zlen P + esize e) in IH by (rewrite zlen_app, zlen_ebytes; lia).
    pose proof (esize_bounds e He). rewrite IH; [|simpl in Hf; lia|lia|done|done|destruct Hnum as [?|[? ?]]; [left; lia|right; split; [done|lia]]].
    f_equal. simpl. f_equal; lia.
Qed.

(** The deleted entries leave room for a larger previous length. *)
Lemma delete_room prev dl bg :
  chain_ok prev dl → dl ≠ [] →
  2 <= csize dl ∧ psize (needs5 prev) - psize bg + 2 <= csize dl.
Proof.
  intros Hcd Hne. destruct dl as [|x dl]; [done|]. destruct Hcd as ([Hh _] & [_ Hs] & _).
  apply header_nonempty in Hh. pose proof (csize_nonneg dl). pose proof (zlen_nonneg (data x)).
  simpl. unfold esize, body. rewrite zlen_app. unfold needs5.
  destruct (Z.leb_spec 254 prev), (big x), bg; simpl; try specialize (Hs eq_refl); lia.
Qed.

(** The bytes of the next entry move to the place of the deleted ones. *)
Lemma delete_move_spec T t h es1 dl n r d p :
  let prev := lsize 0 es1 in
  let bg := needs5 prev in
  let nd := psize bg - psize (big n) in
  let n' := with_big bg n in
  let zl := zhead T t h ++ chain 0 (es1 ++ dl ++ n :: r) ++ [255] in
  chain_ok 0 (es1 ++ dl ++ n :: r) → dl ≠ [] → zlen zl = T → T < 2 ^ 32 →
  t = last_off t (10 + csize es1 + csize dl) (n :: r) → prevrawlen d = prev → e_p d = p →
  p = 10 + csize es1 →
  ∃ Y, Y ≠ [] ∧
  delete_move zl T d (p + csize dl) (csize dl) =
    Ret (zhead T t h ++ chain 0 es1 ++ ebytes prev n' ++ chain (esize n) r ++ Y,
         last_off t p (n' :: r), nd).
Proof.
  intros prev bg nd n' zl Hc Hne HT HTlt Ht Hd Hp0 Hp.
  apply chain_ok_app in Hc as [Hc1 [Hcd (Hn & Hfn & Hr)]%chain_ok_app]. fold prev in Hcd, Hfn.
  pose proof (lsize_bounds es1 Hc1) as Hlb. fold prev in Hlb. set (pl := lsize prev dl) in *.
  set (C := zhead T t h ++ chain 0 es1). set (S := chain (esize n) r).
  assert (zlen C = p) as HC by (unfold C; rewrite zlen_app, zlen_zhead, zlen_chain; lia).
  assert (zl = C ++ chain prev dl ++ pbytes (big n) pl ++ body n ++ S ++ [255]) as E.
  { unfold zl, C, S. rewrite !chain_app. simpl. unfold ebytes. by lapp. }
  assert (zlen S = csize r) as HS by apply zlen_chain.
  assert (T = p + csize dl + esize n + csize r + 1) as HTe.
  { rewrite <- HT, E. rewrite !zlen_app, HC, !zlen_chain, zlen_pbytes. change (zlen [255]) with 1.
    unfold esize. lia. }
  pose proof (psize_bounds bg). pose proof (psize_bounds (big n)). pose proof (csize_nonneg r).
  pose proof (esize_bounds n Hn). pose proof (esize_bounds n' Hn) as Hn2.
  assert (esize n' = esize n + nd) as Hn' by apply esize_with_big.
  destruct (delete_room prev dl (big n) Hcd Hne) as [Hdl2 Hdl]. fold bg nd in Hdl.
  unfold delete_move. rewrite Hd, Hp0.
  rewrite (zipPrevLenByteDiff_at zl (big n) pl (C ++ chain prev dl) (body n ++ S ++ [255]));
    [|done|rewrite E; by lapp|rewrite zlen_app, zlen_chain; lia|lia]. run. fold bg nd.
  rewrite c_assert_true by lia. run.
  destruct (zsplit (csize dl - nd) (chain prev dl ++ pbytes (big n) pl)) as (D & K & ED & HD & HK);
    [rewrite zlen_app, zlen_chain, zlen_pbytes; unfold nd in *; lia|].
  rewrite zlen_app, zlen_chain, zlen_pbytes in HK.
  rewrite (zipStorePrevEntryLength_at zl (C ++ D) K (body n ++ S ++ [255]));
    [|rewrite E; rewrite (app_assoc (chain prev dl)), ED; by lapp|rewrite zlen_app; lia
     |fold bg; unfold nd in *; lia|lia].
  run. unfold fst. fold bg. set (X := chain 0 es1 ++ D ++ ebytes prev n' ++ S ++ [255]).
  assert ((C ++ D) ++ pbytes bg prev ++ body n ++ S ++ [255] = zhead T t h ++ X) as ->
    by (unfold X, C, ebytes, n'; simpl; by lapp).
  assert (10 + csize es1 + csize dl <= t <= 10 + csize es1 + csize dl + (esize n + csize r) - 2) as Hb.
  { rewrite Ht at 1 2. apply (last_off_bounds t _ (n :: r)); [|done]. constructor; [done|by eapply chain_ok_wf]. }
  rewrite (ZIPLIST_TAIL_OFFSET_at _ X T t h) by (done || lia). run. rewrite (wrapu_id 32 (t - csize dl)) by lia.
  assert (zhead T t h ++ X = (C ++ D) ++ ebytes prev n' ++ S ++ [255]) as EX by (unfold X, C; by lapp).
  rewrite (assertEntrySafe_at _ T prev n' (C ++ D) (S ++ [255]) (p + csize dl - nd) true);
    [|apply Hn| |exact EX|rewrite zlen_app; lia| |lia|by destruct S|lia].
  2: { split; [lia|]. simpl. unfold bg, needs5. lia. }
  2: { rewrite EX, !zlen_app, zlen_ebytes. change (zlen [255]) with 1. lia. }
  run. unfold zlentry_of, headersize, len.
  replace (psize (big n') + zlen (hdr n') + zlen (data n')) with (esize n')
    by (unfold esize, body; rewrite zlen_app; lia). rewrite (wrapu_id 32 (esize n')) by lia.
  destruct (zsplit (esize n' + csize r) (D ++ ebytes prev n' ++ S ++ [255])) as (W & Y & EW & HW & HY);
    [rewrite !zlen_app, zlen_ebytes; change (zlen [255]) with 1; lia|].
  rewrite !zlen_app, zlen_ebytes in HY. change (zlen [255]) with 1 in HY.
  exists Y. split; [intros ->; change (zlen (@nil Z)) with 0 in HY; lia|].
  assert (memmove (zhead T t h ++ X) p (p + csize dl - nd) (T - (p + csize dl - nd) - 1) =
    Ret (zhead T t h ++ chain 0 es1 ++ ebytes prev n' ++ S ++ Y)) as EM.
  { rewrite (memmove_app _ _ _ _ (C ++ D) (ebytes prev n' ++ S) [255] C W Y);
      [unfold C; by lapp|rewrite EX; by lapp|rewrite zlen_app; lia|rewrite zlen_app, zlen_ebytes; lia
      |rewrite EX, <- EW; by lapp|done|lia]. }
  assert (zlen ((C ++ D) ++ ebytes prev n') = p + csize dl - nd + esize n') as HX'
    by (rewrite !zlen_app, zlen_ebytes; lia).
  destruct r as [|e r].
  - rewrite (rd_end _ ((C ++ D) ++ ebytes prev n') []); [|rewrite EX; unfold S; by lapp|done].
    run. change (negb (ZIP_END =? ZIP_END)) with false. cbv iota. rewrite EM. run.
    do 3 f_equal. change (last_off t p [n']) with (p + 0). change (t = 10 + csize es1 + csize dl + 0) in Ht. lia.
  - pose proof (chain_ok_wf _ _ Hr) as Hwf. destruct Hr as (He & Hfe & _).
    destruct (rd_entry (zhead T t h ++ X) ((C ++ D) ++ ebytes prev n')
      (esize n) e (chain (esize e) r ++ [255]) (p + csize dl - nd + esize n') Hfe) as (y & -> & Hy);
      [rewrite EX; unfold S; simpl; by lapp|done|]. run. rewrite Hy. simpl negb. cbv iota. rewrite EM. run.
    rewrite last_off_cons in Ht by done. rewrite last_off_cons by done.
    rewrite (last_off_shift t t (10 + csize es1) (csize dl)), <- Hp in Ht by done.
    assert (p <= last_off t p (e :: r)) by (by apply last_off_bounds).
    do 3 f_equal. rewrite wrapu_id by lia. lia.
Qed.

(** The entry count after [k] entries are gone. *)
Lemma incr_length_delete T t h X k (es es' : list entry) :
  count_ok h es → zlen es' = zlen es - k → 0 <= k <= zlen es → k < 2 ^ 32 →
  ∃ h', count_ok h' es' ∧
    ZIPLIST_INCR_LENGTH (zhead T t h ++ X) (u32 (- k)) = Ret (zhead T t h' ++ X).
Proof.
  intros [Hh Hc] Hl Hk Hk32. unfold ZIPLIST_INCR_LENGTH. zconst.
  rewrite (ZIPLIST_LENGTH_at _ X T t h) by (done || lia). run. destruct (Z.ltb_spec h 65535).
  - exists (h - k). split; [unfold count_ok; lia|]. unfold set_ZIPLIST_LENGTH.
    assert (u16 (h + u32 (- k)) = h - k) as E.
    { unfold wrapu. change (2 ^ 32) with (2 ^ 16 * 2 ^ 16). rewrite Z.rem_mul_r by lia.
      rewrite Z.add_assoc, Z.mul_comm, Z.mod_add, Zplus_mod_idemp_r by lia.
      rewrite Z.mod_small by lia. lia. }
    rewrite E, <- (set_ZIPLIST_LENGTH_at (zhead T t h ++ X) X T t h eq_refl (h - k)) by lia.
    unfold set_ZIPLIST_LENGTH. by rewrite (wrapu_id 16 (h - k)) by lia.
  - exists h. split; [unfold count_ok; lia|done].
Qed.

Lemma delete_commit_spec T t h es1 M Y (es rest : list entry) p totlen k st nd :
  let zl := zhead T t h ++ chain 0 es1 ++ M ++ Y in
  Y ≠ [] → count_ok h es → zlen es1 + zlen rest = zlen es - k → 0 <= k <= zlen es → k < 2 ^ 32 →
  0 <= totlen - nd < 2 ^ 32 → T - (totlen - nd) = 11 + csize es1 + zlen M → T < UINT32_MAX →
  0 <= st < 11 + csize es1 + zlen M →
  ∃ h', count_ok h' (es1 ++ rest) ∧
  let zl' := zhead (T - (totlen - nd)) st h' ++ chain 0 es1 ++ M ++ [255] in
  delete_commit zl T p totlen k st nd =
    if negb (nd =? 0) then __ziplistCascadeUpdate zl' p else Ret zl'.
Proof.
  intros zl HY Hh Hl Hk Hk32 Hnd HT HTlt Hst. zconst. pose proof (csize_nonneg es1).
  pose proof (zlen_nonneg M). unfold delete_commit. zconst.
  rewrite (wrapu_id 32 (totlen - nd)), (wrapu_id 64) by lia.
  rewrite (ziplistResize_shrink zl T t h (chain 0 es1 ++ M) Y);
    [|unfold zl; by lapp|done|rewrite zlen_app, zlen_chain; lia|zconst; lia]. run.
  destruct (incr_length_delete (T - (totlen - nd)) t h ((chain 0 es1 ++ M) ++ [255]) k es (es1 ++ rest))
    as (h' & Hh' & ->); [done|rewrite zlen_app; lia|done|done|]. run.
  exists h'. split; [done|]. rewrite c_assert_true by lia. run.
  rewrite (set_ZIPLIST_TAIL_OFFSET_at _ ((chain 0 es1 ++ M) ++ [255]) (T - (totlen - nd)) t h') by (done || lia).
  run. by rewrite <- app_assoc.
Qed.

(** Up to the end of the list. *)
Lemma delete_to_end T t h es1 dl zl :
  let p := 10 + csize es1 in
  zl = zhead T t h ++ chain 0 (es1 ++ dl) ++ [255] → chain_ok 0 (es1 ++ dl) → dl ≠ [] →
  T = 11 + csize es1 + csize dl → T < UINT32_MAX → count_ok h (es1 ++ dl) →
  ∃ zl', delete_commit zl T p (csize dl) (zlen dl) (u32 (p - lsize 0 es1)) 0 = Ret zl' ∧
    rep es1 zl' ∧ zlen zl' <= zlen zl.
Proof.
  intros p E [Hc1 Hcd]%chain_ok_app Hne HT HTlt Hh. zconst. pose proof (lsize_bounds es1 Hc1).
  pose proof (csize_zlen _ _ Hcd). pose proof (zlen_nonneg dl). pose proof (zlen_nonneg es1).
  rewrite chain_app in E. rewrite wrapu_id by (unfold p; lia).
  destruct (delete_commit_spec T t h es1 [] (chain (lsize 0 es1) dl ++ [255]) (es1 ++ dl) [] p (csize dl)
    (zlen dl) (p - lsize 0 es1) 0) as (h' & Hh' & D);
    [by destruct (chain (lsize 0 es1) dl)|done|zlr; lia|zlr; lia|lia|lia
    |change (zlen (@nil Z)) with 0; lia|zconst; lia|change (zlen (@nil Z)) with 0; unfold p; lia|].
  assert (zl = zhead T t h ++ chain 0 es1 ++ [] ++ chain (lsize 0 es1) dl ++ [255]) as E'
    by (rewrite E; by lapp). rewrite <- E' in D. rewrite D. simpl negb. cbv iota. eexists. split; [done|].
  rewrite app_nil_r in Hh'. split.
  - eapply (rep_intro es1 (T - (csize dl - 0)) (p - lsize 0 es1) h'); [done|lia|lia| |done|done].
    by rewrite tail_offset_lsize.
  - rewrite E, !zlen_app, !zlen_zhead, !zlen_chain. zlr. lia.
Qed.

(** With entries left after the deleted ones. *)
Lemma delete_before T t h es1 dl n r zl d :
  let p := 10 + csize es1 in
  zl = zhead T t h ++ chain 0 (es1 ++ dl ++ n :: r) ++ [255] → chain_ok 0 (es1 ++ dl ++ n :: r) →
  dl ≠ [] → zlen zl = T → T + 4 * zlen r + 8 < UINT32_MAX → count_ok h (es1 ++ dl ++ n :: r) →
  t = tail_offset (es1 ++ dl ++ n :: r) → prevrawlen d = lsize 0 es1 → e_p d = p →
  ∃ rest' zl',
    (st ← delete_move zl T d (p + csize dl) (csize dl);
     let '(zl, set_tail, nextdiff) := st in
     delete_commit zl T p (csize dl) (zlen dl) set_tail nextdiff) = Ret zl' ∧
    rep (es1 ++ rest') zl' ∧ e_val <$> rest' = e_val <$> (n :: r) ∧ zlen zl' <= zlen zl + 4 * zlen r.
Proof.
  intros p E Hc Hne HTz Hlt Hh Ht0 Hdv Hdp. zconst. pose proof (zlen_nonneg r).
  assert (t = last_off t (p + csize dl) (n :: r)) as Ht.
  { rewrite Ht0 at 1. rewrite app_assoc, (tail_offset_app t), csize_app by done. f_equal. unfold p. lia. }
  destruct (delete_move_spec T t h es1 dl n r d p) as (Y & HY & M); try done; [by rewrite <- E|lia|].
  rewrite <- E in M. rewrite M. run. clear M.
  pose proof Hc as [Hc1 [Hcd (Hn & Hfn & Hr)]%chain_ok_app]%chain_ok_app.
  set (prev := lsize 0 es1) in *. set (bg := needs5 prev) in *. set (n' := with_big bg n) in *.
  pose proof (psize_bounds bg). pose proof (psize_bounds (big n)). pose proof (csize_nonneg r).
  pose proof (esize_bounds n Hn). pose proof (esize_bounds n' Hn) as Hn2. pose proof (lsize_bounds es1 Hc1) as Hlb.
  fold prev in Hlb. pose proof (csize_zlen _ _ Hcd). pose proof (zlen_nonneg dl). pose proof (csize_nonneg es1).
  pose proof (zlen_nonneg es1). pose proof (csize_nonneg dl).
  set (nd := psize bg - psize (big n)) in *.
  assert (esize n' = esize n + nd) as Hn' by apply esize_with_big.
  assert (-4 <= nd <= 4) as Hnd by (unfold nd; destruct bg, (big n); simpl; lia).
  assert (T = p + csize dl + esize n + csize r + 1) as HT.
  { rewrite <- HTz, E, !zlen_app, zlen_zhead, zlen_chain, !csize_app. change (zlen [255]) with 1. simpl. unfold p. lia. }
  assert (Forall entry_wf (n' :: r)) as Hwf by (constructor; [done|by eapply chain_ok_wf]).
  pose proof (last_off_bounds t p (n' :: r) Hwf ltac:(done)) as Hb. simpl csize in Hb.
  assert (pfits bg prev) as Hfn' by (split; [lia|]; unfold bg, needs5; lia).
  destruct (casc_ok (esize n) (esize n') r Hr ltac:(lia) ltac:(lia)) as (Hr' & Hv & Hcs).
  destruct (delete_room prev dl (big n) Hcd Hne) as [_ Hroom]. fold bg nd in Hroom.
  destruct (delete_commit_spec T t h es1 (ebytes prev n' ++ chain (esize n) r) Y (es1 ++ dl ++ n :: r) (n :: r) p (csize dl)
    (zlen dl) (last_off t p (n' :: r)) nd) as (h' & Hh' & D);
    [done|done|zlr; lia|zlr; lia|lia|lia|rewrite zlen_app, zlen_ebytes, zlen_chain; unfold p in *; lia
    |zconst; lia|rewrite zlen_app, zlen_ebytes, zlen_chain; unfold p in *; lia|].
  rewrite <- !(app_assoc (ebytes prev n')) in D. rewrite D. clear D.
  set (T' := T - (csize dl - nd)) in *. set (t' := last_off t p (n' :: r)) in *.
  set (r' := casc (esize n') r) in *.
  pose proof (cascade_if T' t' h' (chain 0 es1) prev n bg r p t) as C.
  cbv zeta in C. rewrite zlen_chain in C. fold nd n' r' in C.
  rewrite C; [|done|done|done|done| |zconst; unfold T'; lia|done].
  2: { rewrite !zlen_app, zlen_zhead, !zlen_chain, zlen_ebytes. change (zlen [255]) with 1. unfold T', p in *. lia. }
  exists (n' :: r'). eexists. split; [done|]. split; [|split; [by rewrite !fmap_cons, Hv|]].
  - eapply (rep_intro _ (11 + csize es1 + esize n' + csize r') (last_off t p (n' :: r')) h');
      [|rewrite csize_app; simpl; lia|unfold p in *; lia| | |rewrite chain_app; cbn [chain]; by lapp].
    + apply chain_ok_app. by split; [|split; [|split]].
    + symmetry. by apply tail_offset_app.
    + unfold count_ok in *. zlr. replace (zlen r') with (zlen r); [lia|].
      unfold r', zlen. by rewrite length_casc.
  - rewrite !zlen_app, zlen_zhead, !zlen_chain, zlen_ebytes.
    change (zlen [255]) with 1. unfold p in *. lia.
Qed.

(** [__ziplistDelete] of the entries [dl]. *)
Lemma __ziplistDelete_spec es1 dl rest zl num :
  rep (es1 ++ dl ++ rest) zl → dl ≠ [] → zlen zl + 4 * zlen rest + 8 < UINT32_MAX →
  (num = zlen dl ∨ rest = [] ∧ zlen dl <= num) →
  ∃ rest' zl', __ziplistDelete zl (10 + csize es1) num = Ret zl' ∧
    rep (es1 ++ rest') zl' ∧ e_val <$> rest' = e_val <$> rest ∧
    zlen zl' <= zlen zl + 4 * zlen rest.
Proof.
  intros (Hc & HTlt & h & Hh & E) Hne Hroom Hnum.
  assert (zlen zl = 11 + csize (es1 ++ dl ++ rest)) as Hzl by (rewrite E; apply zlen_layout).
  set (T := 11 + csize (es1 ++ dl ++ rest)) in *. set (t := tail_offset (es1 ++ dl ++ rest)) in *.
  assert (zl = zhead T t h ++ chain 0 (es1 ++ dl ++ rest) ++ [255]) as E1 by done. clear E.
  assert (T = 11 + csize es1 + csize dl + csize rest) as HT by (unfold T; rewrite !csize_app; lia).
  set (p := 10 + csize es1). set (prev := lsize 0 es1).
  pose proof Hc as [Hc1 [Hcd Hcr]%chain_ok_app]%chain_ok_app. fold prev in Hcd, Hcr.
  pose proof (csize_nonneg es1). pose proof (csize_nonneg rest). pose proof (zlen_nonneg rest).
  pose proof (csize_zlen _ _ Hcd) as Hdl. destruct (delete_room prev dl true Hcd Hne) as [Hdl2 _].
  assert (zl = (zhead T t h ++ chain 0 es1) ++ chain prev (dl ++ rest) ++ [255]) as E2
    by (rewrite E1, chain_app; by lapp).
  assert (zlen (zhead T t h ++ chain 0 es1) = p) as HP by (rewrite zlen_app, zlen_zhead, zlen_chain; done).
  unfold __ziplistDelete. rewrite (ZIPLIST_BYTES_at zl _ T t h E1) by lia. run.
  assert (∃ d, zipEntry zl p = Ret d ∧ e_p d = p ∧ prevrawlen d = prev) as (d & -> & Hdp & Hdv).
  { destruct dl as [|x dl]; [done|]. destruct Hcd as (Hx & Hfx & _). exists (zlentry_of p prev x).
    split; [|done]. eapply zipEntry_at; [apply Hx|done| |exact HP]. rewrite E2. simpl. unfold ebytes, body.
    rewrite <- !app_assoc. reflexivity. }
  run. pose proof (delete_loop_spec (Z.to_nat T) (zhead T t h ++ chain 0 es1) prev dl rest 0 num 0) as D.
  cbv zeta in D. rewrite <- E2, HP, Hzl in D.
  rewrite D; [|unfold zlen in *; lia|unfold p; lia|by apply chain_ok_app|lia|
    destruct Hnum as [?|[? ?]]; [left; lia|right; split; [done|lia]]]. clear D. run.
  rewrite Hdp. rewrite c_assert_true by lia. run. replace (p + csize dl - p) with (csize dl) by lia.
  rewrite (wrapu_id 32 (csize dl)) by lia. test (0 <? csize dl) true. rewrite Z.add_0_l.
  destruct rest as [|n r].
  - rewrite app_nil_r in *. rewrite (rd_end zl (zhead T t h ++ chain 0 (es1 ++ dl)) [] (p + csize dl));
      [|rewrite E1; by lapp|rewrite zlen_app, zlen_zhead, zlen_chain, csize_app; unfold p; lia].
    run. change (negb (ZIP_END =? ZIP_END)) with false. cbv iota. run. rewrite Hdv.
    destruct (delete_to_end T t h es1 dl zl E1 Hc Hne) as (zl' & D & Hrep & Hl);
      [simpl in HT; lia|zconst; simpl in *; lia|done|].
    exists [], zl'. rewrite app_nil_r. split; [done|]. split; [done|]. split; [done|].
    change (zlen (@nil entry)) with 0. lia.
  - destruct Hcr as (Hn & Hfn & Hr).
    destruct (rd_entry zl (zhead T t h ++ chain 0 (es1 ++ dl)) (lsize prev dl) n (chain (esize n) r ++ [255])
      (p + csize dl) Hfn) as (x & -> & Hx);
      [rewrite E1, !chain_app; simpl; by lapp|rewrite zlen_app, zlen_zhead, zlen_chain, csize_app; unfold p; lia|].
    run. rewrite Hx. simpl negb. cbv iota. rewrite zlen_cons in *.
    destruct (delete_before T t h es1 dl n r zl d E1 Hc Hne) as (rest' & zl' & D & Hrep & Hv & Hl);
      [done|zconst; lia|done|done|done|done|].
    exists rest', zl'. split; [done|]. split; [done|]. split; [done|]. lia.
Qed.

End delete.
End ZiplistDelete.
