(* ===== verification/ZiplistNav.v ===== *)
(** Navigation and lookup in a ziplist: every function that walks the entries
    visits the entries of the represented list. *)
From S2P Require Import Prelude Endianconv Util Ziplist ZiplistRep ZiplistCascade ZiplistValue ZiplistInsert.
Import Util Ziplist ZiplistRep ZiplistCascade ZiplistValue ZiplistInsert.

Module ZiplistNav.

Lemma rep_open es zl :
  rep es zl →
  ∃ h, chain_ok 0 es ∧ 11 + csize es < 2 ^ 32 ∧ count_ok h es ∧
    zl = zhead (11 + csize es) (tail_offset es) h ++ chain 0 es ++ [255] ∧ zlen zl = 11 + csize es.
Proof.
  intros (Hc & HT & h & Hh & E). exists h. split; [done|]. split; [done|]. split; [done|].
  split; [done|]. rewrite E. apply zlen_layout.
Qed.

Lemma offset_length es1 es2 : offset (es1 ++ es2) (length es1) = 10 + csize es1.
Proof. apply offset_app. Qed.

(** Where entry [e] is in the block. *)
Lemma rep_at es1 e es2 zl :
  rep (es1 ++ e :: es2) zl →
  entry_wf e ∧ pfits (big e) (lsize 0 es1) ∧ lsize 0 es1 <= csize es1 ∧
  esize e + csize es1 + 11 <= zlen zl ∧ zlen zl < 2 ^ 32 ∧
  ∃ a, zlen a = 10 + csize es1 ∧
    zl = a ++ ebytes (lsize 0 es1) e ++ chain (esize e) es2 ++ [255].
Proof.
  intros (h & Hc & HT & _ & E & Hzl)%rep_open. apply chain_ok_app in Hc as [Hc1 (He & Hf & Hc2)].
  pose proof (lsize_bounds es1 Hc1). pose proof (csize_nonneg es2). rewrite csize_app in *. simpl in *.
  split; [done|]. split; [done|]. split; [lia|]. split; [lia|]. split; [lia|].
  exists (zhead (11 + (csize es1 + (esize e + csize es2))) (tail_offset (es1 ++ e :: es2)) h ++ chain 0 es1).
  split; [by rewrite zlen_app, zlen_zhead, zlen_chain|]. rewrite E, chain_app. simpl. by lapp.
Qed.

Lemma rep_end es zl : rep es zl → ∃ a, zlen a = 10 + csize es ∧ zl = a ++ [255].
Proof.
  intros (h & _ & _ & _ & E & _)%rep_open.
  exists (zhead (11 + csize es) (tail_offset es) h ++ chain 0 es). split; [|rewrite E; by lapp].
  by rewrite zlen_app, zlen_zhead, zlen_chain.
Qed.

Section nav.
Context {H : HostOrder}.

Lemma rep_bytes es zl : rep es zl → ZIPLIST_BYTES zl = Ret (zlen zl).
Proof.
  intros (h & _ & HT & _ & E & Hl)%rep_open. rewrite Hl. eapply ZIPLIST_BYTES_at; [exact E|].
  pose proof (csize_nonneg es). lia.
Qed.

Lemma rep_tail es zl : rep es zl → ZIPLIST_TAIL_OFFSET zl = Ret (tail_offset es).
Proof.
  intros (h & Hc & HT & _ & E & Hl)%rep_open. eapply ZIPLIST_TAIL_OFFSET_at; [exact E|].
  pose proof (tail_offset_bounds es Hc). lia.
Qed.

Lemma rep_rd_end es zl : rep es zl → rd zl (10 + csize es) = Ret ZIP_END.
Proof. intros (a & Ha & E)%rep_end. by apply (rd_end zl a []). Qed.

Lemma rep_rd_entry es1 e es2 zl :
  rep (es1 ++ e :: es2) zl → ∃ c, rd zl (10 + csize es1) = Ret c ∧ (c =? ZIP_END) = false.
Proof. intros (_ & Hf & _ & _ & _ & a & Ha & E)%rep_at. by eapply rd_entry. Qed.

Lemma rep_zipEntry es1 e es2 zl :
  rep (es1 ++ e :: es2) zl → zipEntry zl (10 + csize es1) = Ret (zlentry_of (10 + csize es1) (lsize 0 es1) e).
Proof.
  intros (He & Hf & _ & _ & _ & a & Ha & E)%rep_at.
  apply (zipEntry_at zl _ e a (data e ++ chain (esize e) es2 ++ [255])); [apply He|done| |done].
  rewrite E. unfold ebytes, body. by lapp.
Qed.

Lemma rep_assertEntry es1 e es2 zl v :
  rep (es1 ++ e :: es2) zl →
  assertEntrySafe zl (zlen zl) (10 + csize es1) v = Ret (zlentry_of (10 + csize es1) (lsize 0 es1) e).
Proof.
  intros (He & Hf & Hl & _ & _ & a & Ha & E)%rep_at. pose proof (csize_nonneg es1).
  eapply assertEntrySafe_at; [apply He|done|exact E|done|done|lia|by destruct (chain (esize e) es2)|lia].
Qed.

Lemma rep_assertValid es1 e es2 zl :
  rep (es1 ++ e :: es2) zl → zipAssertValidEntry zl (zlen zl) (10 + csize es1) = Ret tt.
Proof. intros Hr. unfold zipAssertValidEntry. by rewrite (rep_assertEntry _ _ _ _ _ Hr). Qed.

Lemma zlentry_size p prev e :
  headersize (zlentry_of p prev e) + len (zlentry_of p prev e) = esize e.
Proof. unfold esize, body. simpl. rewrite zlen_app. lia. Qed.

Lemma rep_rawlen_safe es1 e es2 zl :
  rep (es1 ++ e :: es2) zl → zipRawEntryLengthSafe zl (zlen zl) (10 + csize es1) = Ret (esize e).
Proof.
  intros Hr. unfold zipRawEntryLengthSafe. rewrite (rep_assertEntry _ _ _ _ _ Hr). run.
  rewrite zlentry_size. apply rep_at in Hr as (He & _ & _ & Hs & Hlt & _).
  pose proof (csize_nonneg es1). pose proof (esize_bounds e He). by rewrite wrapu_id by lia.
Qed.

Lemma rep_rawlen es1 e es2 zl :
  rep (es1 ++ e :: es2) zl → zipRawEntryLength zl (10 + csize es1) = Ret (esize e).
Proof.
  intros Hr. unfold zipRawEntryLength. rewrite (rep_zipEntry _ _ _ _ Hr). run.
  rewrite zlentry_size. apply rep_at in Hr as (He & _ & _ & Hs & Hlt & _).
  pose proof (csize_nonneg es1). pose proof (esize_bounds e He). by rewrite wrapu_id by lia.
Qed.

Lemma rep_prevlen es1 e es2 zl :
  rep (es1 ++ e :: es2) zl →
  ZIP_DECODE_PREVLEN zl (10 + csize es1) = Ret (psize (big e), lsize 0 es1) ∧
  ZIP_DECODE_PREVLENSIZE zl (10 + csize es1) = Ret (psize (big e)).
Proof.
  intros (He & Hf & _ & _ & _ & a & Ha & E)%rep_at.
  assert (zl = a ++ pbytes (big e) (lsize 0 es1) ++ body e ++ chain (esize e) es2 ++ [255]) as E'
    by (rewrite E; unfold ebytes; by lapp).
  split; [by eapply ZIP_DECODE_PREVLEN_at|by eapply ZIP_DECODE_PREVLENSIZE_at].
Qed.

(** The byte at an entry, read and compared with the end mark. *)
Ltac not_end Hr :=
  let c := fresh "c" in let Hc := fresh "Hc" in
  destruct (rep_rd_entry _ _ _ _ Hr) as (c & -> & Hc); run; rewrite Hc.

(** The next position: the next entry or the end. *)
Lemma next_pos es1 e : 10 + csize es1 + esize e = 10 + csize (es1 ++ [e]).
Proof. rewrite csize_app. simpl. lia. Qed.

Lemma rep_snoc es1 e es2 zl : rep (es1 ++ e :: es2) zl → rep ((es1 ++ [e]) ++ es2) zl.
Proof. by rewrite <- app_assoc. Qed.

(** ** Stepping *)

Lemma ziplistNext_spec es1 e es2 zl :
  rep (es1 ++ e :: es2) zl →
  ziplistNext zl (10 + csize es1) =
    Ret (match es2 with [] => None | _ => Some (10 + csize (es1 ++ [e])) end).
Proof.
  intros Hr. unfold ziplistNext. rewrite (rep_bytes _ _ Hr). run.
  not_end Hr.
  rewrite (rep_rawlen _ _ _ _ Hr). run. rewrite next_pos. apply rep_snoc in Hr.
  destruct es2 as [|n es2].
  - rewrite app_nil_r in Hr. by rewrite (rep_rd_end _ _ Hr).
  - not_end Hr. by rewrite (rep_assertValid _ _ _ _ Hr).
Qed.

Lemma ziplistPrev_spec es1 es2 zl :
  rep (es1 ++ es2) zl →
  ziplistPrev zl (10 + csize es1) =
    Ret (match es1 with [] => None | _ => Some (10 + csize es1 - lsize 0 es1) end).
Proof.
  intros Hr. unfold ziplistPrev. pose proof (rep_bytes _ _ Hr) as Hb. destruct es2 as [|e es2].
  - rewrite app_nil_r in *. rewrite (rep_rd_end _ _ Hr). run. change (ZIP_END =? ZIP_END) with true. cbv iota.
    unfold ZIPLIST_ENTRY_TAIL. rewrite (rep_tail _ _ Hr). run. destruct es1 as [|x es1 _] using rev_ind.
    + change (tail_offset []) with (10 + csize []). by rewrite (rep_rd_end _ _ Hr).
    + rewrite tail_offset_snoc. not_end Hr.
      rewrite csize_app, lsize_app. destruct (es1 ++ [x]) eqn:E; [by destruct es1|]. do 2 f_equal. simpl. lia.
  - not_end Hr.
    destruct (rep_prevlen _ _ _ _ Hr) as [-> _]. run. unfold ZIPLIST_ENTRY_HEAD. zconst.
    destruct es1 as [|x es1 _] using rev_ind; [done|].
    rewrite lsize_app, csize_app. simpl foldl. simpl csize.
    apply rep_snoc in Hr as Hr'. rewrite <- !app_assoc in Hr. simpl in Hr. apply rep_at in Hr as Hx.
    destruct Hx as (Hx & _). pose proof (esize_bounds x Hx). pose proof (csize_nonneg es1).
    test (10 + (csize es1 + (esize x + 0)) =? 10) false. change (lsize (lsize 0 es1) [x]) with (esize x).
    rewrite c_assert_true by lia. run. rewrite Hb. run.
    replace (10 + (csize es1 + (esize x + 0)) - esize x) with (10 + csize es1) by lia.
    rewrite (rep_assertValid _ _ _ _ Hr). run. by destruct (es1 ++ [x]) eqn:E; [destruct es1|].
Qed.

(** ** Access by index *)

Lemma index_forward_spec fuel es1 es2 zl i :
  rep (es1 ++ es2) zl → (length es2 <= fuel)%nat → es2 ≠ [] → 0 <= i →
  ∃ k, index_forward fuel zl (zlen zl) (10 + csize es1) i =
    Ret (10 + csize (es1 ++ take (Z.to_nat i) es2), k) ∧ (i < zlen es2 → k <= 0).
Proof.
  revert fuel es1 i. induction es2 as [|e es2 IH]; intros fuel es1 i Hr Hf Hne Hi; [done|].
  destruct (Z.eq_dec i 0) as [->|Hi0].
  { exists (-1). rewrite app_nil_r. destruct fuel; split; (done || lia). }
  destruct fuel as [|fuel]; [simpl in Hf; lia|]. cbn [index_forward]. test (i =? 0) false.
  rewrite (rep_rawlen_safe _ _ _ _ Hr). run. rewrite next_pos. apply rep_snoc in Hr.
  replace (Z.to_nat i) with (S (Z.to_nat (i - 1))) by lia. cbn [take].
  replace (es1 ++ e :: take (Z.to_nat (i - 1)) es2) with ((es1 ++ [e]) ++ take (Z.to_nat (i - 1)) es2) by (by lapp).
  destruct es2 as [|n es2].
  - rewrite app_nil_r in Hr. rewrite (rep_rd_end _ _ Hr). run. rewrite take_nil, app_nil_r.
    exists (i - 1). split; [done|]. zlr. lia.
  - not_end Hr.
    destruct (IH fuel (es1 ++ [e]) (i - 1) Hr) as (k & -> & Hk); [simpl in *; lia|done|lia|].
    exists k. split; [done|]. zlr. lia.
Qed.

Lemma ziplistIndex_forward es zl i :
  rep es zl → 0 <= i → (es = [] → i = 0) →
  ziplistIndex zl i = Ret (if i <? zlen es then Some (offset es (Z.to_nat i)) else None).
Proof.
  intros Hr Hi He. unfold ziplistIndex. rewrite (rep_bytes _ _ Hr). run. test (i <? 0) false.
  unfold ZIPLIST_ENTRY_HEAD. destruct es as [|e es].
  { rewrite (He eq_refl).
    assert (∀ n, index_forward n zl (zlen zl) ZIPLIST_HEADER_SIZE 0 = Ret (10 + csize [], -1)) as -> by (by intros []).
    run. by rewrite (rep_rd_end _ _ Hr). }
  assert (length (e :: es) <= Z.to_nat (zlen zl))%nat as Hf.
  { apply rep_open in Hr as (h & Hc & _ & _ & _ & Hl). pose proof (csize_zlen _ _ Hc).
    unfold zlen in *. lia. }
  destruct (index_forward_spec (Z.to_nat (zlen zl)) [] (e :: es) zl i Hr Hf ltac:(done) Hi) as (k & E & Hk).
  change (10 + csize []) with ZIPLIST_HEADER_SIZE in E. rewrite E. run. cbn [app].
  destruct (Z.ltb_spec i (zlen (e :: es))) as [Hlt|Hge].
  - specialize (Hk Hlt). destruct (lookup_lt_is_Some_2 (e :: es) (Z.to_nat i)) as [x Hx]; [zl|].
    rewrite <- (take_drop_middle _ _ _ Hx) in Hr. not_end Hr.
    test (0 <? k) false. cbn [orb]. by rewrite (rep_assertValid _ _ _ _ Hr).
  - rewrite take_ge by zl. by rewrite (rep_rd_end _ _ Hr).
Qed.

(** Backwards: from entry [x], [i] steps to the front. *)
Lemma index_back_spec fuel es1 x es2 zl i :
  rep (es1 ++ x :: es2) zl → (length es1 <= fuel)%nat → 0 <= i →
  ∃ k, index_back fuel zl (zlen zl) (10 + csize es1) (lsize 0 es1) i =
    Ret (10 + csize (take (length es1 - Z.to_nat i) es1), k) ∧
    (k <= 0 ↔ i <= zlen es1).
Proof.
  revert fuel x es2 i. induction es1 as [|y es1 IH] using rev_ind; intros fuel x es2 i Hr Hf Hi.
  { exists i. split; [by destruct fuel|]. change (zlen (@nil entry)) with 0. done. }
  rewrite <- app_assoc in Hr. simpl in Hr. pose proof (rep_at _ _ _ _ Hr) as (Hy & _ & _ & Hs & _).
  pose proof (esize_bounds y Hy). pose proof (csize_nonneg es1).
  assert (lsize 0 (es1 ++ [y]) = esize y) as -> by (by rewrite lsize_app).
  rewrite length_app in *. simpl length in *. pose proof (zlen_nonneg es1).
  assert (zlen (es1 ++ [y]) = zlen es1 + 1) as Hzl by zl.
  destruct (Z.eq_dec i 0) as [->|Hi0].
  { exists (-1). rewrite take_ge by (rewrite length_app; simpl; lia).
    split; [|lia]. destruct fuel; cbn [index_back]; by test (0 <? esize y) true. }
  destruct fuel as [|fuel]; [lia|]. cbn [index_back]. test (0 <? esize y) true. test (i =? 0) false.
  rewrite csize_app. simpl csize. replace (10 + (csize es1 + (esize y + 0)) - esize y) with (10 + csize es1) by lia.
  rewrite c_assert_true by (zconst; lia). run. destruct (rep_prevlen _ _ _ _ Hr) as [-> _]. run. unfold snd.
  destruct (IH fuel y (x :: es2) (i - 1) Hr) as (k & -> & Hk); [lia|lia|].
  exists k. split; [|lia]. replace (length es1 + 1 - Z.to_nat i)%nat with (length es1 - Z.to_nat (i - 1))%nat by lia.
  by rewrite take_app_le by lia.
Qed.

Lemma ziplistIndex_backward es zl i :
  rep es zl → - 2 ^ 31 < i < 0 →
  ziplistIndex zl i =
    Ret (if - i <=? zlen es then Some (offset es (length es - Z.to_nat (- i))) else None).
Proof.
  intros Hr Hi. unfold ziplistIndex. rewrite (rep_bytes _ _ Hr). run. test (i <? 0) true.
  unfold ZIPLIST_ENTRY_TAIL. rewrite (rep_tail _ _ Hr). run. rewrite (wraps_id 32) by (simpl; lia).
  destruct es as [|x es _] using rev_ind.
  { change (tail_offset []) with (10 + csize []). rewrite (rep_rd_end _ _ Hr). run.
    change (negb (ZIP_END =? ZIP_END)) with false. cbv iota. run. rewrite (rep_rd_end _ _ Hr). run.
    change (zlen (@nil entry)) with 0. by test (- i <=? 0) false. }
  rewrite tail_offset_snoc. pose proof (rep_at _ _ _ _ Hr) as (Hx & _ & _ & Hs & _). not_end Hr. simpl negb. cbv iota.
  destruct (rep_prevlen _ _ _ _ Hr) as [E1 E2]. rewrite E2. run. pose proof (psize_bounds (big x)).
  rewrite c_assert_true.
  2: { zconst. destruct Hx as [Hh _]. apply header_nonempty in Hh. pose proof (zlen_nonneg (data x)).
       unfold esize, body in Hs. rewrite zlen_app in Hs. lia. }
  run. rewrite E1. run. unfold snd.
  assert (length es <= Z.to_nat (zlen zl))%nat as Hf.
  { apply rep_open in Hr as (h & Hco & _ & _ & _ & Hl). pose proof (csize_zlen _ _ Hco). zl. }
  destruct (index_back_spec (Z.to_nat (zlen zl)) es x [] zl (- i - 1) Hr Hf) as (k & -> & Hk); [lia|]. run.
  rewrite zlen_app in *. change (zlen [x]) with 1.
  set (j := (length es - Z.to_nat (- i - 1))%nat).
  destruct (lookup_lt_is_Some_2 (es ++ [x]) j) as [y Hy]; [rewrite length_app; simpl; lia|].
  pose proof Hr as Hr'. rewrite <- (take_drop_middle _ _ _ Hy) in Hr'.
  rewrite (take_app_le es [x] j) in Hr' by lia. not_end Hr'. cbn [orb].
  destruct (Z.leb_spec (- i) (zlen es + 1)).
  - test (0 <? k) false. rewrite (rep_assertValid _ _ _ _ Hr'). run. unfold offset.
    replace (length (es ++ [x]) - Z.to_nat (- i))%nat with j by (rewrite length_app; simpl; lia).
    by rewrite take_app_le by lia.
  - by test (0 <? k) true.
Qed.

(** ** Values *)

Lemma int_val_int64 en d hd : header en (zlen d) hd → 192 <= en → bytes_ok d → int64 (int_val en d).
Proof.
  intros Hh Hen Hd. unfold int_val, int64, LLONG_MIN, LLONG_MAX.
  destruct (header_int_inv _ _ _ Hh Hen) as [(k & He & ->)|[He _]].
  - replace ((241 <=? en) && (en <=? 253)) with false by (by destruct He).
    pose proof (wraps_range (8 * Z.of_nat k) (le_dec d) ltac:(destruct He; lia)) as Hr.
    destruct He; simpl in Hr; lia.
  - test ((241 <=? en) && (en <=? 253)) true. lia.
Qed.

(** The value of the entry at [es1]: the string or the integer. *)
Lemma rep_value es1 e es2 zl :
  rep (es1 ++ e :: es2) zl →
  let q := 10 + csize es1 + (psize (big e) + zlen (hdr e)) in
  ZIP_IS_STR (enc e) = (enc e <? 192) ∧
  rdn zl q (zlen (data e)) = Ret (data e) ∧
  (192 <= enc e → zipLoadInteger zl q (enc e) = Ret (int_val (enc e) (data e)) ∧
    int64 (int_val (enc e) (data e))).
Proof.
  intros ([Hh Hd] & Hf & _ & _ & _ & a & Ha & E)%rep_at q.
  assert (zl = (a ++ pbytes (big e) (lsize 0 es1) ++ hdr e) ++ data e ++ chain (esize e) es2 ++ [255]) as E'
    by (rewrite E; unfold ebytes, body; by lapp).
  assert (zlen (a ++ pbytes (big e) (lsize 0 es1) ++ hdr e) = q) as Hq
    by (rewrite !zlen_app, zlen_pbytes; unfold q; lia).
  split; [by eapply header_is_str|]. split; [by eapply rdn_at|]. intros Hen.
  split; [by eapply zipLoadInteger_at|by eapply int_val_int64].
Qed.

(** What [ziplistGet] stores for a value. *)
Definition get_val (zl : list Z) (x : zval) (g : zget) : Prop :=
  match x, g with
  | ZInt v, GetInt w => w = v
  | ZStr s, GetStr q n => n = zlen s ∧ rdn zl q n = Ret s
  | _, _ => False
  end.

Lemma ziplistGet_spec es1 e es2 zl :
  rep (es1 ++ e :: es2) zl →
  ∃ g, ziplistGet zl (Some (10 + csize es1)) = Ret (Some g) ∧ get_val zl (e_val e) g.
Proof.
  intros Hr. unfold ziplistGet. not_end Hr. rewrite (rep_zipEntry _ _ _ _ Hr). run.
  destruct (rep_value _ _ _ _ Hr) as (Hs & Hd & Hi). unfold zlentry_of, encoding, headersize, len.
  rewrite Hs. unfold e_val. destruct (Z.ltb_spec (enc e) 192).
  - eexists. split; [done|]. by split.
  - destruct (Hi ltac:(lia)) as [-> _]. run. by eexists.
Qed.

Lemma bool_decide_eqb (x y : Z) : (x =? y) = bool_decide (x = y).
Proof. destruct (Z.eqb_spec x y); by case_bool_decide. Qed.

(** Comparing the value of an integer entry with a string. *)
Lemma int_str_eq v s : int64 v → dec v = s ↔ ∃ w, int64 w ∧ s = dec w ∧ v = w.
Proof. intros Hv. split; [by intros <-; eauto|]. by intros (w & _ & -> & ->). Qed.

Lemma mem_eq_spec zl q d s :
  rdn zl q (zlen d) = Ret d → zlen d = zlen s → mem_eq zl q s (zlen s) = Ret (bool_decide (d = s)).
Proof. intros Hd Hl. unfold mem_eq. rewrite <- Hl, Hd. run. by rewrite rdn_all. Qed.

Lemma ziplistCompare_spec es1 e es2 zl s :
  rep (es1 ++ e :: es2) zl →
  ziplistCompare zl (10 + csize es1) s (zlen s) = Ret (bool_decide (zval_str (e_val e) = s)).
Proof.
  intros Hr. unfold ziplistCompare. not_end Hr. rewrite (rep_zipEntry _ _ _ _ Hr). run.
  destruct (rep_value _ _ _ _ Hr) as (Hs & Hd & Hi). unfold zlentry_of, encoding, headersize, len.
  rewrite Hs. unfold e_val. destruct (Z.ltb_spec (enc e) 192); cbn [zval_str].
  - destruct (Z.eqb_spec (zlen (data e)) (zlen s)); [by apply mem_eq_spec|].
    rewrite bool_decide_eq_false_2; [done|by intros <-].
  - destruct (Hi ltac:(lia)) as [E Hv]. destruct (zipTryEncoding_spec s) as (te & -> & Hte). run.
    destruct te as [[w en]|].
    + rewrite E. run. destruct Hte as (Hw & -> & _). f_equal. rewrite bool_decide_eqb.
      apply bool_decide_ext. split; [by intros ->|by apply dec_inj].
    + rewrite bool_decide_eq_false_2; [done|]. intros <-. apply Hte. eauto.
Qed.

(** ** Length *)

Lemma len_loop_spec fuel es1 es2 zl n :
  rep (es1 ++ es2) zl → (length es2 <= fuel)%nat → 0 <= n → n + zlen es2 < 2 ^ 32 →
  len_loop fuel zl (zlen zl) (10 + csize es1) n = Ret (n + zlen es2).
Proof.
  revert fuel es1 n. induction es2 as [|e es2 IH]; intros fuel es1 n Hr Hf Hn Hlt.
  - rewrite app_nil_r in Hr. change (zlen (@nil entry)) with 0. rewrite Z.add_0_r.
    destruct fuel; cbn [len_loop]; by rewrite (rep_rd_end _ _ Hr).
  - destruct fuel as [|fuel]; [simpl in Hf; lia|]. cbn [len_loop]. rewrite zlen_cons in *.
    pose proof (zlen_nonneg es2). not_end Hr. rewrite (rep_rawlen_safe _ _ _ _ Hr). run.
    rewrite next_pos, wrapu_id by lia. apply rep_snoc in Hr. rewrite (IH fuel) by (done || simpl in *; lia).
    f_equal. lia.
Qed.

Lemma ziplistLen_spec es zl :
  rep es zl → ∃ zl', ziplistLen zl = Ret (zl', zlen es) ∧ rep es zl'.
Proof.
  intros Hr. pose proof (rep_bytes _ _ Hr) as Hb. pose proof Hr as (h & Hc & HT & Hh & E & Hl)%rep_open.
  unfold ziplistLen. pose proof Hh as [Hh1 Hh2]. rewrite (ZIPLIST_LENGTH_at zl _ _ _ h E) by lia. run.
  zconst. destruct (Z.ltb_spec h 65535); [exists zl; split; [do 2 f_equal; lia|done]|].
  rewrite Hb. run. pose proof (csize_zlen _ _ Hc). pose proof (zlen_nonneg es). change 10 with (10 + csize []) at 1.
  rewrite (len_loop_spec _ [] es) by (done || unfold zlen in *; lia). run. rewrite Z.add_0_l.
  destruct (Z.ltb_spec (zlen es) 65535); [|by exists zl].
  rewrite (set_ZIPLIST_LENGTH_at zl _ _ _ h E) by lia. run. eexists. split; [done|].
  apply (rep_intro es (11 + csize es) (tail_offset es) (zlen es)); [done|done|done|done| |done].
  unfold count_ok. lia.
Qed.

Lemma ziplistNew_spec {A : Allocator} {L : AllocatorLaws A} : ∃ zl, ziplistNew = Ret zl ∧ rep [] zl.
Proof.
  unfold ziplistNew. zconst. set (m := zmalloc (10 + 1)).
  assert (zlen m = 11) as Hm by (by apply zlen_zmalloc).
  destruct (zsplit 4 m) as (b1 & r1 & E1 & H1 & Hr1); [lia|]. rewrite E1.
  destruct (zsplit 4 r1) as (b2 & r2 & -> & H2 & Hr2); [lia|].
  destruct (zsplit 2 r2) as (b3 & r3 & -> & H3 & Hr3); [lia|].
  destruct r3 as [|x [|]]; try (exfalso; zl).
  unfold set_ZIPLIST_BYTES, set_ZIPLIST_TAIL_OFFSET. rewrite !(wrapu_id 32) by lia.
  rewrite (store32_at _ 0 (10 + 1) [] b1 (b2 ++ b3 ++ [x])) by (done || lia). run.
  rewrite (store32_at _ 4 10 (le_enc 4 (10 + 1)) b2 (b3 ++ [x])) by (done || lia). run.
  unfold store. rewrite (wrn_at _ 8 (nat_enc 2 0) (le_enc 4 (10 + 1) ++ le_enc 4 10) b3 [x]);
    [|by lapp|done|by rewrite zlen_nat_enc]. run.
  assert (nat_enc 2 0 = le_enc 2 0) as -> by (unfold nat_enc; by destruct big_endian).
  rewrite (wr_at _ _ 255 ((le_enc 4 (10 + 1) ++ le_enc 4 10) ++ le_enc 2 0) x []) by (by lapp || done || (unfold is_byte; lia)).
  eexists. split; [done|]. split; [done|]. split; [simpl; lia|]. exists 0. split; [|done]. split; [lia|by right].
Qed.

(** ** Searching *)

(** Entry [j] of the rest of the list is compared when [j] is at distance [c]
    plus a multiple of [skip + 1]. *)
Definition compared (skip c j : Z) : Prop := c <= j ∧ (skip + 1 | j - c).

Definition find_result (v : list Z) (skip c base : Z) (es : list entry) (r : option Z) : Prop :=
  match r with
  | Some q => ∃ j e, es !! j = Some e ∧ q = base + csize (take j es) ∧ compared skip c (Z.of_nat j) ∧
      zval_str (e_val e) = v ∧
      ∀ j' e', (j' < j)%nat → es !! j' = Some e' → compared skip c (Z.of_nat j') → zval_str (e_val e') ≠ v
  | None => ∀ j e, es !! j = Some e → compared skip c (Z.of_nat j) → zval_str (e_val e) ≠ v
  end.

(** What is remembered about the searched value. *)
Definition known (v : list Z) (vencoding vll : Z) : Prop :=
  vencoding = 0 ∨ (vencoding = UCHAR_MAX ∧ ¬ ∃ w, int64 w ∧ v = dec w) ∨
  (vencoding ≠ 0 ∧ vencoding ≠ UCHAR_MAX ∧ int64 vll ∧ v = dec vll).

Lemma compared_skip skip c j : 0 < c → compared skip c (j + 1) ↔ compared skip (c - 1) j.
Proof. intros Hc. unfold compared. replace (j + 1 - c) with (j - (c - 1)) by lia. split; intros []; split; (done || lia). Qed.

Lemma compared_zero skip j : 0 <= skip → 0 <= j → compared skip 0 (j + 1) ↔ compared skip skip j.
Proof.
  intros Hs Hj. unfold compared. rewrite Z.sub_0_r.
  replace (j - skip) with (j + 1 - (skip + 1)) by lia. split.
  - intros [_ Hd]. split.
    + apply Z.divide_pos_le in Hd; lia.
    + apply Z.divide_sub_r; [done|by apply Z.divide_refl].
  - intros [Hle Hd]. split; [lia|]. replace (j + 1) with (j + 1 - (skip + 1) + (skip + 1)) by lia.
    apply Z.divide_add_r; [done|by apply Z.divide_refl].
Qed.

Lemma find_result_cons v skip c c' base e es r :
  (∀ j, 0 <= j → compared skip c (j + 1) ↔ compared skip c' j) →
  (compared skip c 0 → zval_str (e_val e) ≠ v) →
  find_result v skip c' (base + esize e) es r → find_result v skip c base (e :: es) r.
Proof.
  intros Hcmp Hne. destruct r as [q|]; simpl.
  - intros (j & x & Hj & -> & Hc & Hv & Hmin). exists (S j), x. split; [done|]. split; [simpl; lia|].
    split; [rewrite Nat2Z.inj_succ, <- Z.add_1_r; apply Hcmp; [lia|done]|]. split; [done|].
    intros [|j'] x' Hlt Hx' Hc'; [simpl in Hx'; simplify_eq; auto|].
    apply (Hmin j'); [lia|done|]. rewrite Nat2Z.inj_succ, <- Z.add_1_r in Hc'. apply Hcmp; [lia|done].
  - intros Hmin [|j] x Hj Hc; [simpl in Hj; simplify_eq; auto|].
    apply (Hmin j); [done|]. rewrite Nat2Z.inj_succ, <- Z.add_1_r in Hc. apply Hcmp; [lia|done].
Qed.

Lemma find_result_here v skip base e es :
  zval_str (e_val e) = v → find_result v skip 0 base (e :: es) (Some base).
Proof.
  intros Hv. exists 0%nat, e. split; [done|]. split; [simpl; lia|].
  split; [split; [lia|apply Z.divide_0_r]|]. split; [done|]. intros j' e' Hj. lia.
Qed.

(** Comparing an integer entry with the searched value, tried as an integer
    at most once. *)
Lemma find_int v vencoding vll x :
  known v vencoding vll → int64 x →
  ∃ vencoding' vll',
    (if vencoding =? 0 then
       te ← zipTryEncoding v (zlen v);
       let '(vll, vencoding) := match te with Some ve => ve | None => (vll, UCHAR_MAX) end in
       _ ← c_assert (negb (vencoding =? 0));
       Ret (vll, vencoding)
     else Ret (vll, vencoding)) = Ret (vll', vencoding') ∧
    known v vencoding' vll' ∧
    (if negb (vencoding' =? UCHAR_MAX) then (x =? vll') else false) = bool_decide (dec x = v).
Proof.
  intros Hk Hx.
  assert (∀ en w, known v en w → en ≠ 0 →
    (if negb (en =? UCHAR_MAX) then (x =? w) else false) = bool_decide (dec x = v)) as Hcmp.
  { intros en w [->|[[-> Hn]|(_ & Hen & Hw & ->)]] Hen0; [done| |].
    - symmetry. apply bool_decide_eq_false_2. intros <-. eauto.
    - test (en =? UCHAR_MAX) false. simpl. rewrite bool_decide_eqb. apply bool_decide_ext.
      split; [by intros ->|by apply dec_inj]. }
  destruct (Z.eqb_spec vencoding 0) as [->|Hne].
  - destruct (zipTryEncoding_spec v) as (te & -> & Hte). run. destruct te as [[w en]|].
    + destruct Hte as (Hw & Hv & Hen). assert (192 <= en ∧ en ≠ 255) as [Hen1 Hen2].
      { destruct Hen as [(n & Hen & _)|[? ->]]; [destruct Hen; lia|lia]. }
      rewrite c_assert_true by lia. run. exists en, w. split; [done|].
      assert (known v en w) by (right; right; split; [lia|split; [unfold UCHAR_MAX; lia|done]]).
      split; [done|]. apply Hcmp; [done|lia].
    + rewrite c_assert_true by done. run. exists UCHAR_MAX, vll.
      assert (known v UCHAR_MAX vll) by (by right; left).
      split; [done|]. split; [done|]. by apply Hcmp.
  - exists vencoding, vll. split; [done|]. split; [done|]. by apply Hcmp.
Qed.

Lemma find_loop_spec fuel es1 es2 zl v skip c vencoding vll :
  rep (es1 ++ es2) zl → (length es2 <= fuel)%nat → 0 <= skip → 0 <= c → known v vencoding vll →
  ∃ r, find_loop fuel zl (zlen zl) (10 + csize es1) v (zlen v) skip c vencoding vll = Ret r ∧
    find_result v skip c (10 + csize es1) es2 r.
Proof.
  revert fuel es1 c vencoding vll. induction es2 as [|e es2 IH]; intros fuel es1 c vencoding vll Hr Hf Hs Hc Hk.
  { rewrite app_nil_r in Hr. exists None. split; [|done].
    destruct fuel; cbn [find_loop]; by rewrite (rep_rd_end _ _ Hr). }
  destruct fuel as [|fuel]; [simpl in Hf; lia|]. cbn [find_loop]. not_end Hr.
  rewrite (rep_assertEntry _ _ _ _ _ Hr). run. destruct (rep_value _ _ _ _ Hr) as (Hstr & Hd & Hi).
  apply rep_snoc in Hr. unfold zlentry_of, prevrawlensize, lensize, len, encoding.
  replace (10 + csize es1 + psize (big e) + zlen (hdr e))
    with (10 + csize es1 + (psize (big e) + zlen (hdr e))) by lia.
  set (q := 10 + csize es1 + (psize (big e) + zlen (hdr e))) in *.
  replace (q + zlen (data e)) with (10 + csize (es1 ++ [e]))
    by (rewrite <- next_pos; unfold esize, body, q; rewrite zlen_app; lia).
  assert (∀ c' en w, 0 <= c' → known v en w →
    (∀ j, 0 <= j → compared skip c (j + 1) ↔ compared skip c' j) →
    (compared skip c 0 → zval_str (e_val e) ≠ v) →
    ∃ r, find_loop fuel zl (zlen zl) (10 + csize (es1 ++ [e])) v (zlen v) skip c' en w = Ret r ∧
      find_result v skip c (10 + csize es1) (e :: es2) r) as Hnext.
  { intros c' en w Hc' Hk' Hcmp Hne. destruct (IH fuel (es1 ++ [e]) c' en w Hr) as (r & -> & Hres);
      [simpl in Hf; lia|done|done|done|]. exists r. split; [done|].
    eapply find_result_cons; [exact Hcmp|exact Hne|]. by rewrite next_pos. }
  destruct (Z.eqb_spec c 0) as [->|Hcne].
  2: { apply Hnext; [lia|done|intros; apply compared_skip; lia|]. unfold compared. lia. }
  assert (∀ en w, known v en w → zval_str (e_val e) ≠ v →
    ∃ r, find_loop fuel zl (zlen zl) (10 + csize (es1 ++ [e])) v (zlen v) skip skip en w = Ret r ∧
      find_result v skip 0 (10 + csize es1) (e :: es2) r) as Hmiss.
  { intros en w Hk' Hne. apply Hnext; [done|done|intros; by apply compared_zero|done]. }
  rewrite Hstr. unfold e_val in *. destruct (Z.ltb_spec (enc e) 192); cbn [zval_str] in *.
  - assert ((if zlen (data e) =? zlen v then mem_eq zl q v (zlen v) else Ret false) =
      Ret (bool_decide (data e = v))) as ->.
    { destruct (Z.eqb_spec (zlen (data e)) (zlen v)); [by apply mem_eq_spec|].
      rewrite bool_decide_eq_false_2; [done|by intros <-]. }
    run. case_bool_decide as Hb; [|by apply Hmiss].
    eexists. split; [done|]. apply find_result_here. unfold e_val. by test (enc e <? 192) true.
  - destruct (Hi ltac:(lia)) as [Hload Hint].
    destruct (find_int v vencoding vll (int_val (enc e) (data e)) Hk Hint) as (en & w & -> & Hk' & Hcmp). run.
    assert ((if negb (en =? UCHAR_MAX) then ll ← zipLoadInteger zl q (enc e); Ret (ll =? w) else Ret false) =
      Ret (bool_decide (dec (int_val (enc e) (data e)) = v))) as ->.
    { rewrite <- Hcmp, Hload. by destruct (negb (en =? UCHAR_MAX)). }
    run. case_bool_decide as Hb; [|by apply Hmiss].
    eexists. split; [done|]. apply find_result_here. unfold e_val. by test (enc e <? 192) false.
Qed.

Lemma ziplistFind_spec es1 es2 zl v skip :
  rep (es1 ++ es2) zl → 0 <= skip < 2 ^ 31 →
  ∃ r, ziplistFind zl (10 + csize es1) v (zlen v) skip = Ret r ∧
    find_result v skip 0 (10 + csize es1) es2 r.
Proof.
  intros Hr Hs. unfold ziplistFind, ziplistBlobLen. rewrite (rep_bytes _ _ Hr). run.
  rewrite (wraps_id 32) by (simpl; lia). apply find_loop_spec; [done| |lia|done|by left].
  apply rep_open in Hr as (h & Hc & _ & _ & _ & Hl). apply chain_ok_app in Hc as [_ Hc].
  pose proof (csize_zlen _ _ Hc). rewrite csize_app in Hl. pose proof (csize_nonneg es1). unfold zlen in *. lia.
Qed.

End nav.
End ZiplistNav.
