(* ===== verification/ZiplistMerge.v ===== *)
(** Merging two ziplists ([ziplistMerge]) and replacing an entry
    ([ziplistReplace]). *)
From S2P Require Import Prelude Endianconv Util Ziplist ZiplistRep ZiplistCascade ZiplistValue ZiplistInsert ZiplistDelete ZiplistNav.
Import Util Ziplist ZiplistRep ZiplistCascade ZiplistValue ZiplistInsert ZiplistDelete ZiplistNav.

Module ZiplistMerge.
Section merge.
Context {H : HostOrder} {A : Allocator} {L : AllocatorLaws A}.

(** The concatenation of the two blocks, before the seam is repaired. *)
Lemma merge_bytes (append : bool) zl1 zl2 H1 H2 C1 C2 n :
  zl1 = H1 ++ C1 ++ [255] → zl2 = H2 ++ C2 ++ [255] → zlen H1 = 10 → zlen H2 = 10 →
  n = zlen zl1 + zlen zl2 - 10 - 1 →
  let '(target, target_bytes, source, source_bytes) :=
    if append then (zl1, zlen zl1, zl2, zlen zl2) else (zl2, zlen zl2, zl1, zlen zl1) in
  let target := zrealloc target n in
  (if append then
     bs ← rdn source 10 (source_bytes - 10);
     wrn target (target_bytes - 1) bs
   else
     target ← memmove target (source_bytes - 1) 10 (target_bytes - 10);
     bs ← rdn source 0 (source_bytes - 1);
     wrn target 0 bs) = Ret (H1 ++ C1 ++ C2 ++ [255]).
Proof.
  intros E1 E2 HH1 HH2 Hn. pose proof (zlen_nonneg C1). pose proof (zlen_nonneg C2).
  assert (zlen zl1 = 11 + zlen C1) as L1 by (rewrite E1, !zlen_app, HH1; change (zlen [255]) with 1; lia).
  assert (zlen zl2 = 11 + zlen C2) as L2 by (rewrite E2, !zlen_app, HH2; change (zlen [255]) with 1; lia).
  destruct append; cbv zeta.
  - destruct (zrealloc_grow zl1 n) as (g & -> & Hg & _); [lia|].
    rewrite (rdn_at zl2 10 (zlen zl2 - 10) (C2 ++ [255]) H2 []);
      [|rewrite E2; by lapp|done|rewrite zlen_app; change (zlen [255]) with 1; lia]. run.
    rewrite (wrn_at (zl1 ++ g) (zlen zl1 - 1) (C2 ++ [255]) (H1 ++ C1) ([255] ++ g) []);
      [by lapp|rewrite E1; by lapp|rewrite zlen_app; lia|zlr; lia].
  - destruct (zrealloc_grow zl2 n) as (g & -> & Hg & _); [lia|].
    destruct (zsplit (zlen zl1 - 1) (zl2 ++ g)) as (P & R & EP & HP & HR); [zlr; lia|]. zlr.
    rewrite (memmove_app (zl2 ++ g) _ _ _ H2 (C2 ++ [255]) g P R []);
      [|rewrite E2; by lapp|done|zlr; lia|rewrite app_nil_r; done|done|lia]. run.
    rewrite (rdn_at zl1 0 (zlen zl1 - 1) (H1 ++ C1) [] [255]);
      [|rewrite E1; by lapp|done|rewrite zlen_app; lia]. run.
    rewrite (wrn_at _ 0 (H1 ++ C1) [] P ((C2 ++ [255]) ++ [])); [by lapp|done|done|rewrite zlen_app; lia].
Qed.

Lemma merge_count h1 h2 (es1 es2 es : list entry) :
  count_ok h1 es1 → count_ok h2 es2 → zlen es = zlen es1 + zlen es2 →
  count_ok (if h1 + h2 <? 65535 then h1 + h2 else 65535) es.
Proof.
  unfold count_ok. intros [? ?] [? ?] ?. pose proof (zlen_nonneg es1). pose proof (zlen_nonneg es2).
  destruct (Z.ltb_spec (h1 + h2) 65535); lia.
Qed.

(** Repairing the seam. *)
Lemma merge_cascade T t h es1 es2 :
  let zl := zhead T t h ++ chain 0 es1 ++ chain 0 es2 ++ [255] in
  zlen zl = T → T + 4 * zlen es2 < UINT32_MAX → chain_ok 0 es1 → chain_ok 0 es2 → es2 ≠ [] →
  t = last_off t (10 + csize es1) es2 → 0 <= t < T → count_ok h (es1 ++ es2) →
  ∃ es2' zl', __ziplistCascadeUpdate zl (tail_offset es1) = Ret zl' ∧
    rep (es1 ++ es2') zl' ∧ e_val <$> es2' = e_val <$> es2.
Proof.
  intros zl HT Hlt Hc1 Hc2 Hne Ht Ht0 Hh. zconst.
  assert (T = 11 + csize es1 + csize es2) as HTe.
  { rewrite <- HT. unfold zl. rewrite !zlen_app, zlen_zhead, !zlen_chain. change (zlen [255]) with 1. lia. }
  pose proof (zlen_nonneg es2). pose proof (csize_nonneg es1). pose proof (csize_nonneg es2).
  destruct es1 as [|c es1 _] using rev_ind.
  - destruct es2 as [|n r]; [done|]. pose proof Hc2 as (Hn & Hf & Hr). change (tail_offset []) with 10.
    simpl csize in *. change (10 + 0) with 10 in Ht. zlr. pose proof (esize_bounds n Hn).
    rewrite (__ziplistCascadeUpdate_spec zl T t h [] 0 n (esize n) r 10);
      [|unfold zl; simpl; by lapp|done|done|zconst; lia|done|done|done|right; right; lia|done|].
    + rewrite casc_id by done. eexists (n :: r), _. split; [done|]. split; [|done].
      eapply (rep_intro (n :: r) T t h); [done|simpl; lia|lia| |done|].
      * rewrite Ht at 1. symmetry. by apply (tail_offset_app t []).
      * replace (T + csize r - csize r) with T by lia.
        assert (last_off t (10 + esize n) r = t) as -> by (rewrite Ht at 2; apply last_off_next; by intros ->).
        simpl. by lapp.
    + rewrite Ht at 1. symmetry. apply last_off_next. by intros ->.
  - pose proof Hc1 as [Hc1' (Hcc & Hfc & _)]%chain_ok_app. rewrite csize_app in *. simpl csize in *.
    pose proof (esize_bounds c Hcc). pose proof (csize_nonneg es1). rewrite tail_offset_snoc.
    destruct (casc_ok 0 (esize c) es2 Hc2 ltac:(lia) ltac:(lia)) as (Hr' & Hv & Hcs).
    set (es2' := casc (esize c) es2) in *.
    rewrite (__ziplistCascadeUpdate_spec zl T t h (chain 0 es1) (lsize 0 es1) c 0 es2 (10 + csize es1));
      [|unfold zl; rewrite chain_app; simpl; by lapp|done|done|zconst; lia|done|done|done|by left
       |by rewrite zlen_chain|rewrite Ht at 1; f_equal; lia].
    fold es2'. exists es2'. eexists. split; [done|]. split; [|done].
    assert (es2' ≠ []) as Hne'.
    { intros E. apply (f_equal length) in E. unfold es2' in E. rewrite length_casc in E. by destruct es2. }
    eapply (rep_intro _ (T + csize es2' - csize es2) _ h); [| |lia| | |rewrite chain_app, lsize_app, chain_app; simpl; by lapp].
    + apply chain_ok_app. split; [done|]. by rewrite lsize_app.
    + rewrite !csize_app. simpl. lia.
    + rewrite (tail_offset_app t) by done. rewrite csize_app. simpl. f_equal. lia.
    + unfold count_ok in *. zlr. replace (zlen es2') with (zlen es2); [done|].
      unfold es2', zlen. by rewrite length_casc.
Qed.

Lemma ziplistMerge_spec es1 es2 zl1 zl2 :
  rep es1 zl1 → rep es2 zl2 → es2 ≠ [] → zlen zl1 + zlen zl2 + 4 * zlen es2 < UINT32_MAX →
  ∃ es2' zl', rep (es1 ++ es2') zl' ∧ e_val <$> es2' = e_val <$> es2 ∧
    (ziplistMerge (Some zl1) (Some zl2) false = Ret (Some zl', Some zl', None) ∨
     ziplistMerge (Some zl1) (Some zl2) false = Ret (Some zl', None, Some zl')).
Proof.
  intros Hr1 Hr2 Hne Hlt.
  pose proof Hr1 as (h1 & Hc1 & _ & Hh1 & E1 & L1)%rep_open. pose proof Hr2 as (h2 & Hc2 & _ & Hh2 & E2 & L2)%rep_open.
  unfold ziplistMerge. rewrite (rep_bytes _ _ Hr1), (rep_bytes _ _ Hr2). run. zconst.
  rewrite (ZIPLIST_LENGTH_at zl1 _ _ _ h1 E1) by (unfold count_ok in Hh1; lia). run.
  rewrite (ZIPLIST_LENGTH_at zl2 _ _ _ h2 E2) by (unfold count_ok in Hh2; lia). run.
  pose proof (csize_nonneg es1). pose proof (csize_nonneg es2). pose proof (zlen_nonneg es2).
  set (n := zlen zl1 + zlen zl2 - 10 - 1) in *. rewrite (wrapu_id 64 n) by (unfold n; lia).
  pose proof (merge_bytes (h2 <=? h1) zl1 zl2 _ _ (chain 0 es1) (chain 0 es2) n E1 E2 eq_refl eq_refl eq_refl) as M.
  destruct (if h2 <=? h1 then (zl1, zlen zl1, zl2, zlen zl2) else (zl2, zlen zl2, zl1, zlen zl1))
    as [[[target tb] source] sb]. cbv zeta in M.
  rewrite c_assert_true by (unfold n; lia). run. rewrite (rep_tail _ _ Hr1), (rep_tail _ _ Hr2). run.
  rewrite M. run. clear M. set (C := chain 0 es1 ++ chain 0 es2 ++ [255]).
  pose proof (tail_offset_bounds es2 Hc2) as Ht2.
  set (h := if h1 + h2 <? 65535 then h1 + h2 else 65535).
  assert (0 <= h < 2 ^ 16) as Hhb by (unfold h, count_ok in *; destruct (Z.ltb_spec (h1 + h2) 65535); lia).
  rewrite (set_ZIPLIST_BYTES_at _ C (11 + csize es1) (tail_offset es1) h1) by (done || unfold n; lia). run.
  rewrite (set_ZIPLIST_LENGTH_at _ C n (tail_offset es1) h1) by (done || lia). run.
  set (t := zlen zl1 - 1 + (tail_offset es2 - 10)).
  rewrite (set_ZIPLIST_TAIL_OFFSET_at _ C n (tail_offset es1) h) by (done || unfold t; lia). run.
  unfold C. destruct (merge_cascade n t h es1 es2) as (es2' & zl' & -> & Hrep & Hv);
    [rewrite !zlen_app, zlen_zhead, !zlen_chain; change (zlen [255]) with 1; unfold n; lia
    |zconst; unfold n; lia|done|done|done| |unfold t, n; lia|eapply merge_count; [done|done|zlr; lia]|].
  - unfold t. rewrite <- (app_nil_l es2) at 1. rewrite (tail_offset_app t []) by done. simpl csize.
    rewrite (last_off_shift t t 10 (csize es1)) by done. change (10 + 0) with 10. lia.
  - run. exists es2', zl'. split; [done|]. split; [done|]. destruct (h2 <=? h1); [by left|by right].
Qed.

(** ** Replacing an entry *)

Lemma ziplistReplace_spec es1 d es2 zl s :
  rep (es1 ++ d :: es2) zl → bytes_ok s → zlen zl + zlen s + 8 * zlen es2 + 50 < 2 ^ 32 →
  ∃ e es2' zl', ziplistReplace zl (10 + csize es1) s (zlen s) = Ret zl' ∧
    rep (es1 ++ e :: es2') zl' ∧ stored s (e_val e) ∧ e_val <$> es2' = e_val <$> es2.
Proof.
  intros Hr Hs Hroom. unfold ziplistReplace. rewrite (rep_zipEntry _ _ _ _ Hr). run.
  pose proof (zlen_nonneg es2). pose proof (zlen_nonneg s).
  destruct (value_plan s Hs ltac:(pose proof (zlen_nonneg zl); lia))
    as (te & en & hd & dt & Hte & Hhd & Hdt & Hst & Hsz & Hplan).
  rewrite Hte. run. destruct (match te with Some ve => ve | None => (123456789, 0) end) as [value enc0].
  destruct Hplan as (Hint & Hsto & Hwr). rewrite Hint. run. rewrite Hsto. run.
  unfold zlentry_of, lensize, len, prevrawlensize, snd.
  pose proof (rep_at _ _ _ _ Hr) as (Hd & Hf & Hl & Hsize & Hzlt & a & Ha & E).
  pose proof (zlen_nonneg hd). pose proof (zlen_nonneg dt). pose proof (zlen_nonneg (hdr d)). pose proof (zlen_nonneg (data d)).
  pose proof (csize_nonneg es1). pose proof (zlen_nonneg zl). pose proof (psize_bounds (big d)).
  assert (esize d = psize (big d) + zlen (hdr d) + zlen (data d)) as Hesz by (unfold esize, body; rewrite zlen_app; lia).
  rewrite !wrapu_id by lia. destruct (Z.eqb_spec (zlen dt + zlen hd) (zlen (hdr d) + zlen (data d))) as [Heq|Hneq].
  - specialize (Hwr (a ++ pbytes (big d) (lsize 0 es1)) (body d) (chain (esize d) es2 ++ [255])).
    rewrite zlen_app, zlen_pbytes, Ha in Hwr.
    replace ((a ++ pbytes (big d) (lsize 0 es1)) ++ body d ++ chain (esize d) es2 ++ [255]) with zl in Hwr
      by (rewrite E; unfold ebytes; by lapp).
    rewrite Hwr by (unfold body; rewrite zlen_app; lia). set (e := Entry (big d) en hd dt).
    assert (esize e = esize d) as Hee by (unfold esize, body, e; simpl; rewrite !zlen_app; lia).
    exists e, es2. eexists. split; [done|]. split; [|done].
    pose proof Hr as (h & Hc & HT & Hh & E' & _)%rep_open.
    apply chain_ok_app in Hc as [Hc1 (_ & _ & Hc2)].
    eapply (rep_intro (es1 ++ e :: es2) (11 + csize (es1 ++ d :: es2)) (tail_offset (es1 ++ d :: es2)) h).
    + apply chain_ok_app. split; [done|]. split; [done|]. split; [done|]. by rewrite Hee.
    + rewrite !csize_app. cbn [csize]. by rewrite Hee.
    + done.
    + rewrite !(tail_offset_app 0) by done. destruct es2 as [|x es2]; [done|].
      rewrite (last_off_cons _ _ d), (last_off_cons _ _ e) by done. by rewrite Hee.
    + unfold count_ok in *. zlr. done.
    + assert (a = zhead (11 + csize (es1 ++ d :: es2)) (tail_offset (es1 ++ d :: es2)) h ++ chain 0 es1) as ->.
      { rewrite E', chain_app, app_assoc, app_assoc, <- app_assoc in E. apply zapp_inj in E as [? _]; [done|].
        rewrite zlen_app, zlen_zhead, zlen_chain. lia. }
      rewrite chain_app. cbn [chain]. rewrite Hee. unfold ebytes, body, e. cbn [big hdr data]. by lapp.
  - unfold ziplistDelete, ziplistInsert.
    destruct (__ziplistDelete_spec es1 [d] es2 zl 1) as (rest & zl1 & -> & Hr1 & Hv1 & Hl1);
      [done|done|zconst; lia|by left|]. run.
    assert (zlen rest = zlen es2) as Hlr.
    { apply (f_equal length) in Hv1. rewrite !length_fmap in Hv1. zl. }
    destruct (__ziplistInsert_spec es1 rest zl1 s Hr1 Hs) as (e & es2' & zl' & -> & Hr2 & Hst2 & Hv2 & _); [lia|].
    exists e, es2', zl'. split; [done|]. split; [done|]. split; [done|]. congruence.
Qed.

End merge.
End ZiplistMerge.
