(* ===== verification/ZiplistValid.v ===== *)
(** The integrity check of ziplists ([ziplistValidateIntegrity]) on arbitrary
    bytes: it stays inside the block and accepts exactly the blocks that
    hold a list of entries. *)
From S2P Require Import Prelude Endianconv Util Ziplist ZiplistRep ZiplistCascade ZiplistValue ZiplistInsert ZiplistNav.
Import Util Ziplist ZiplistRep ZiplistCascade ZiplistValue ZiplistInsert ZiplistNav.

Module ZiplistValid.

(** The size of the header that starts with byte [x]; 0 if there is none. *)
Definition hsize (x : Z) : Z :=
  if x <? 64 then 1 else if x <? 128 then 2 else if x <? 192 then 5
  else if (x =? 192) || (x =? 208) || (x =? 224) || (x =? 240) || (x =? 254)
          || ((241 <=? x) && (x <=? 253)) then 1 else 0.

Definition enc_of (x : Z) : Z :=
  if x <? 64 then 0 else if x <? 128 then 64 else if x <? 192 then 128 else x.

Lemma hsize_bounds x : 0 <= hsize x <= 5.
Proof. unfold hsize. repeat case_cond; lia. Qed.

Lemma byte_at zl q : bytes_ok zl → 0 <= q < zlen zl →
  ∃ x a c, rd zl q = Ret x ∧ zl = a ++ x :: c ∧ zlen a = q ∧ is_byte x.
Proof.
  intros Hb Hq. destruct (zsplit q zl) as (a & m & -> & Ha & Hm); [lia|].
  destruct m as [|x c]; [change (zlen (@nil Z)) with 0 in Hm; lia|].
  exists x, a, c. rewrite (rd_app a _ _ q) by done. repeat split; try done.
  all: unfold bytes_ok in Hb; rewrite Forall_app, Forall_cons in Hb; destruct Hb as (_ & [? ?] & _); lia.
Qed.

Lemma ZIP_ENTRY_ENCODING_byte zl q x :
  rd zl q = Ret x → is_byte x → ZIP_ENTRY_ENCODING zl q = Ret (enc_of x).
Proof.
  intros Hx Hb. unfold ZIP_ENTRY_ENCODING. rewrite Hx. run. zconst. unfold enc_of. rewrite land_192 by done.
  unfold is_byte in Hb. f_equal. dm x 64. repeat case_cond; to_prop; lia.
Qed.

Lemma zipEncodingLenSize_byte x :
  is_byte x → zipEncodingLenSize (enc_of x) = if hsize x =? 0 then 255 else hsize x.
Proof.
  unfold is_byte, zipEncodingLenSize, enc_of, hsize. zconst. intros Hb.
  destruct (Z.ltb_spec x 64); [done|]. destruct (Z.ltb_spec x 128); [done|].
  destruct (Z.ltb_spec x 192); [done|].
  destruct ((x =? 192) || (x =? 208) || (x =? 240) || (x =? 224) || (x =? 254)) eqn:E1.
  - replace ((x =? 192) || (x =? 208) || (x =? 224) || (x =? 240) || (x =? 254)
      || ((241 <=? x) && (x <=? 253))) with true by lia. done.
  - destruct ((241 <=? x) && (x <=? 253)) eqn:E2.
    + by rewrite orb_true_r.
    + replace ((x =? 192) || (x =? 208) || (x =? 224) || (x =? 240) || (x =? 254) || false) with false by lia.
      test (x =? 0) false. test (x =? 64) false. by test (x =? 128) false.
Qed.

Lemma ZIP_DECODE_LENGTH_bad zl q x :
  is_byte x → hsize x = 0 → ZIP_DECODE_LENGTH zl q (enc_of x) = Ret (0, 0).
Proof.
  unfold is_byte, ZIP_DECODE_LENGTH, enc_of, hsize. zconst. intros Hb.
  destruct (Z.ltb_spec x 64); [done|]. destruct (Z.ltb_spec x 128); [done|].
  destruct (Z.ltb_spec x 192); [done|]. case_cond; [done|]. intros _.
  test (x <? 192) false. test (x =? 254) false. test (x =? 192) false. test (x =? 240) false.
  test (x =? 208) false. test (x =? 224) false. by test ((241 <=? x) && (x <=? 253)) false.
Qed.

(** A valid first byte with enough bytes after it is a header. *)
Lemma header_parse zl a x c :
  bytes_ok zl → zl = a ++ x :: c → hsize x ≠ 0 → hsize x <= 1 + zlen c →
  ∃ hd n c', zl = a ++ hd ++ c' ∧ header (enc_of x) n hd ∧ zlen hd = hsize x.
Proof.
  intros Hb -> Hs Hc. unfold bytes_ok in Hb. rewrite Forall_app, Forall_cons in Hb.
  destruct Hb as (_ & Hx & Hb). unfold is_byte in Hx. revert Hs Hc. unfold hsize, enc_of.
  destruct (Z.ltb_spec x 64); [exists [x], x, c; split; [done|split; [constructor; lia|done]]|].
  destruct (Z.ltb_spec x 128).
  { intros _ Hl. destruct c as [|y c]; [change (zlen (@nil Z)) with 0 in Hl; lia|]. inv_bytes.
    exists [x; y], ((x - 64) * 256 + y), c. split; [done|]. split; [|done]. unfold is_byte in *.
    replace [x; y] with [64 + ((x - 64) * 256 + y) / 256; ((x - 64) * 256 + y) mod 256].
    - apply header_str14. lia.
    - rewrite Z.div_add_l, Z.div_small by lia. rewrite (Z.add_comm ((x - 64) * 256)), Z.mod_add, Z.mod_small by lia.
      f_equal. lia. }
  destruct (Z.ltb_spec x 192).
  { intros _ Hl. destruct (zsplit 4 c) as (m & c' & -> & Hm & _); [lia|].
    apply Forall_app in Hb as [Hb _].
    exists (x :: m), (be_dec m), c'. split; [by lapp|]. split; [|zl].
    assert (be_enc 4 (be_dec m) = m) as Em.
    { unfold be_enc, be_dec. replace 4%nat with (length (reverse m)) by zl.
      rewrite le_enc_dec, reverse_involutive; [done|by apply Forall_reverse]. }
    rewrite <- Em at 2. apply header_str32; [lia|].
    pose proof (le_dec_range (reverse m)) as Hr. replace (zlen (reverse m)) with 4 in Hr by zl.
    apply Hr. by apply Forall_reverse. }
  case_cond; [|done]. intros _ _. exists [x].
  assert (∃ n, header x n [x]) as [n Hn]; [|by exists n, c].
  destruct (Z.eqb_spec x 192) as [->|]; [eexists; constructor|].
  destruct (Z.eqb_spec x 208) as [->|]; [eexists; constructor|].
  destruct (Z.eqb_spec x 224) as [->|]; [eexists; constructor|].
  destruct (Z.eqb_spec x 240) as [->|]; [eexists; constructor|].
  destruct (Z.eqb_spec x 254) as [->|]; [eexists; constructor|]. exists 0. apply header_imm. lia.
Qed.

(** A previous length, unless the first byte is the end mark. *)
Lemma prevlen_parse zl a x c :
  bytes_ok zl → zl = a ++ x :: c → x ≠ 255 → psize (254 <=? x) <= 1 + zlen c →
  ∃ prev c', zl = a ++ pbytes (254 <=? x) prev ++ c' ∧ pfits (254 <=? x) prev.
Proof.
  intros Hb -> Hx Hc. unfold bytes_ok in Hb. rewrite Forall_app, Forall_cons in Hb.
  destruct Hb as (_ & Hxb & Hb). unfold is_byte in Hxb. destruct (Z.leb_spec 254 x) as [Hge|Hlt]; simpl in *.
  - assert (x = 254) as -> by lia. destruct (zsplit 4 c) as (m & c' & -> & Hm & _); [lia|].
    apply Forall_app in Hb as [Hb _]. exists (le_dec m), c'. split.
    + pose proof (le_enc_dec m Hb) as Em. replace (length m) with 4%nat in Em by zl.
      by rewrite <- Em at 1.
    + split; [|done]. pose proof (le_dec_range m Hb) as Hr. rewrite Hm in Hr. done.
  - exists x, c. split; [done|]. split; lia.
Qed.

Section valid.
Context {H : HostOrder}.

(** What [zipEntrySafe] finds at [p]. *)
Definition entry_at (zl : list Z) (p prev : Z) (e : entry) (v : bool) : Prop :=
  ∃ a c, zl = a ++ ebytes prev e ++ c ∧ zlen a = p ∧ c ≠ [] ∧ 10 <= p ∧ entry_wf e ∧
    pfits (big e) prev ∧ (v = true → prev <= p - 10).

(** The end of both paths of [zipEntrySafe], once the headers are decoded. *)
Lemma entry_finish zl a bg prev hd en n c p (v : bool) :
  bytes_ok zl → zl = (a ++ pbytes bg prev) ++ hd ++ c → zlen a = p → 10 <= p →
  header en n hd → pfits bg prev →
  let hs := psize bg + zlen hd in
  (if (p + hs + n <? 10) || (zlen zl - 1 <? p + hs + n) then Ret None
   else if v && ((p - prev <? 10) || (zlen zl - 1 <? p - prev)) then Ret None
   else Ret (Some (Zlentry (psize bg) prev (zlen hd) n hs en p))) =
  (Ret None : outcome (option zlentry)) ∨
  ∃ e, (if (p + hs + n <? 10) || (zlen zl - 1 <? p + hs + n) then Ret None
   else if v && ((p - prev <? 10) || (zlen zl - 1 <? p - prev)) then Ret None
   else Ret (Some (Zlentry (psize bg) prev (zlen hd) n hs en p))) = Ret (Some (zlentry_of p prev e)) ∧
   entry_at zl p prev e v.
Proof.
  intros Hb E Ha Hp Hh Hf hs. pose proof (psize_bounds bg). pose proof (header_len _ _ _ Hh) as Hn.
  destruct ((p + hs + n <? 10) || (zlen zl - 1 <? p + hs + n)) eqn:E1; [by left|].
  destruct (v && ((p - prev <? 10) || (zlen zl - 1 <? p - prev))) eqn:E2; [by left|]. right.
  apply orb_false_iff in E1 as [_ E1]. apply Z.ltb_ge in E1.
  assert (zlen zl = p + hs + zlen c) as Hzl by (rewrite E, !zlen_app, zlen_pbytes; unfold hs; lia).
  destruct (zsplit n c) as (d & c' & -> & Hd & Hc'); [lia|].
  exists (Entry bg en hd d). split; [unfold zlentry_of; simpl; by rewrite Hd|].
  exists a, c'. split; [rewrite E; unfold ebytes, body; simpl; by lapp|]. split; [done|].
  split; [intros ->; change (zlen (@nil Z)) with 0 in *; lia|]. split; [done|]. split.
  { split; [simpl; by rewrite Hd|]. rewrite E in Hb. unfold bytes_ok in *. rewrite !Forall_app in Hb. tauto. }
  split; [done|]. intros ->. simpl in E2. lia.
Qed.

Lemma zipEntrySafe_sound zl p (v : bool) :
  bytes_ok zl → 11 <= zlen zl → (∀ x, rd zl p = Ret x → x ≠ 255) →
  zipEntrySafe zl (zlen zl) p v = Ret None ∨
  ∃ prev e, zipEntrySafe zl (zlen zl) p v = Ret (Some (zlentry_of p prev e)) ∧ entry_at zl p prev e v.
Proof.
  intros Hb Hl Hx. unfold zipEntrySafe. zconst.
  destruct (Z.lt_ge_cases p 10) as [Hp|Hp];
    [left; test ((10 <=? p) && (p + 10 <? zlen zl - 1)) false; by test ((p <? 10) || (zlen zl - 1 <? p)) true|].
  destruct (Z.lt_ge_cases (zlen zl - 1) p) as [Hp2|Hp2];
    [left; test ((10 <=? p) && (p + 10 <? zlen zl - 1)) false; by test ((p <? 10) || (zlen zl - 1 <? p)) true|].
  destruct (byte_at zl p Hb) as (x & a & c & Hrd & E & Ha & Hxb); [lia|].
  specialize (Hx x Hrd). set (bg := 254 <=? x). pose proof (psize_bounds bg).
  assert (ZIP_DECODE_PREVLENSIZE zl p = Ret (psize bg)) as Hps.
  { unfold ZIP_DECODE_PREVLENSIZE. rewrite Hrd. run. zconst. unfold bg.
    by destruct (Z.ltb_spec x 254), (Z.leb_spec 254 x); try lia. }
  assert (zlen zl = p + 1 + zlen c) as Hzl by (rewrite E; zlr; lia).
  test ((p <? 10) || (zlen zl - 1 <? p)) false. rewrite Hps. run.
  destruct (Z.lt_ge_cases (zlen zl - 1) (p + psize bg)) as [Hq|Hq].
  { left. test ((10 <=? p) && (p + 10 <? zlen zl - 1)) false.
    by test ((p + psize bg <? 10) || (zlen zl - 1 <? p + psize bg)) true. }
  test ((p + psize bg <? 10) || (zlen zl - 1 <? p + psize bg)) false.
  destruct (prevlen_parse zl a x c Hb E Hx) as (prev & c1 & E1 & Hf); [fold bg; lia|]. fold bg in E1, Hf.
  rewrite (ZIP_DECODE_PREVLEN_at zl bg prev a c1 p) by done. run.
  destruct (byte_at zl (p + psize bg) Hb) as (y & a2 & c2 & Hrd2 & E2 & Ha2 & Hyb); [lia|].
  rewrite (ZIP_ENTRY_ENCODING_byte zl (p + psize bg) y) by done. run.
  rewrite (zipEncodingLenSize_byte y) by done. pose proof (hsize_bounds y) as Hhs.
  destruct (Z.eqb_spec (hsize y) 0) as [Hy0|Hy0].
  { left. rewrite (ZIP_DECODE_LENGTH_bad zl _ y) by done. run. by case_cond. }
  test (hsize y =? 255) false.
  destruct (Z.lt_ge_cases (zlen zl - 1) (p + psize bg + hsize y)) as [Hq2|Hq2].
  { left. test ((10 <=? p) && (p + 10 <? zlen zl - 1)) false.
    by test ((p + psize bg + hsize y <? 10) || (zlen zl - 1 <? p + psize bg + hsize y)) true. }
  test ((p + psize bg + hsize y <? 10) || (zlen zl - 1 <? p + psize bg + hsize y)) false.
  assert (zlen zl = p + psize bg + 1 + zlen c2) as Hzl2 by (rewrite E2; zlr; lia).
  destruct (header_parse zl a2 y c2 Hb E2 Hy0) as (hd & n & c3 & E3 & Hh & Hhd); [lia|].
  assert (a2 = a ++ pbytes bg prev) as ->.
  { rewrite E1, app_assoc in E3. apply zapp_inj in E3 as [? _]; [done|]. rewrite zlen_app, zlen_pbytes. lia. }
  rewrite (ZIP_DECODE_LENGTH_at zl _ n hd _ c3 _ Hh E3) by done. run.
  test (zlen hd =? 0) false.
  destruct (entry_finish zl a bg prev hd (enc_of y) n c3 p v Hb E3 Ha Hp Hh Hf) as [EF|(e & EF & He)];
    rewrite EF; [left; by case_cond|right; exists prev, e; split; [by case_cond|done]].
Qed.

(** ** The walk over the entries *)

(** The callback accepts every entry. *)
Fixpoint cb_accepts {D} (cb : option (Z → D → bool * D)) (d : D) (p : Z) (es : list entry) : bool :=
  match es with
  | [] => true
  | e :: es =>
      let '(ok, d) := match cb with Some f => f p d | None => (true, d) end in
      ok && cb_accepts cb d (p + esize e) es
  end.

(** The last entry of a list that starts at [p]. *)
Definition last_pos (d : option Z) (p : Z) (es : list entry) : option Z :=
  match es with [] => d | _ => Some (last_off 0 p es) end.

Lemma last_pos_cons d p e es : last_pos (Some p) (p + esize e) es = last_pos d p (e :: es).
Proof.
  unfold last_pos. destruct es as [|x es]; [simpl; by rewrite Z.add_0_r|]. f_equal.
  apply last_off_next. done.
Qed.

(** An entry decoded twice is the same entry up to its bytes. *)
Lemma zlentry_of_inj p prev prev' e e' :
  zlentry_of p prev e = zlentry_of p prev' e' → prev = prev' ∧ esize e = esize e'.
Proof.
  unfold zlentry_of, esize, body. intros [= Hp -> Hh Hd _ _]. rewrite !zlen_app. split; [done|]. lia.
Qed.

(** A chain that starts at [P] is decoded as its first entry. *)
Lemma chain_first zl a x c prev es a' P :
  zl = a ++ x :: c → zlen a = P → x ≠ 255 → zl = a' ++ chain prev es ++ [255] → zlen a' = P →
  chain_ok prev es → 10 <= P → prev <= P - 10 →
  ∃ e es', es = e :: es' ∧ chain_ok (esize e) es' ∧
    zipEntrySafe zl (zlen zl) P true = Ret (Some (zlentry_of P prev e)) ∧
    zl = (a' ++ ebytes prev e) ++ chain (esize e) es' ++ [255] ∧ zlen (a' ++ ebytes prev e) = P + esize e.
Proof.
  intros E Ha Hx E' Ha' Hc HP Hprev. destruct es as [|e es].
  { exfalso. rewrite E in E'. apply zapp_inj in E' as [_ E']; [|lia]. by injection E'. }
  destruct Hc as (He & Hf & Hc). exists e, es. split; [done|]. split; [done|]. simpl in E'. split.
  - apply (zipEntrySafe_at zl (zlen zl) prev e a' (chain (esize e) es ++ [255]));
      [apply He|done|rewrite E'; by lapp|done|done|done|by destruct (chain (esize e) es)|done].
  - split; [rewrite E'; by lapp|]. rewrite zlen_app, zlen_ebytes. lia.
Qed.

(** What the walk found. *)
Definition walked {D} (cb : option (Z → D → bool * D)) (zl : list Z) (P prev : Z) (d0 : option Z)
    (count : Z) (d : D) (r : option (Z * option Z * Z)) : Prop :=
  match r with
  | Some (q, last, n) =>
      ∃ es a c, zl = a ++ chain prev es ++ 255 :: c ∧ zlen a = P ∧ chain_ok prev es ∧
        cb_accepts cb d P es = true ∧ q = P + csize es ∧ last = last_pos d0 P es ∧ n = count + zlen es
  | None => ∀ es a, zl = a ++ chain prev es ++ [255] → zlen a = P → chain_ok prev es →
        cb_accepts cb d P es = false
  end.

Lemma validate_loop_spec {D} fuel zl P prev d0 count (cb : option (Z → D → bool * D)) d :
  bytes_ok zl → 11 <= zlen zl < 2 ^ 32 → 10 <= P < zlen zl →
  (Z.to_nat (zlen zl - P) <= fuel)%nat → 0 <= prev <= P - 10 → 0 <= count <= P →
  ∃ r, validate_loop fuel zl (zlen zl) P d0 prev count cb d = Ret r ∧
    walked cb zl P prev d0 count d r.
Proof.
  revert P prev d0 count d. induction fuel as [|fuel IH];
    intros P prev d0 count d Hb Hl HP Hf Hprev Hcount; [lia|].
  destruct (byte_at zl P Hb) as (x & a & c & Hrd & E & Ha & Hxb); [lia|].
  cbn [validate_loop]. rewrite Hrd. run. zconst. destruct (Z.eqb_spec x 255) as [->|Hx].
  { eexists. split; [done|]. exists [], a, c. repeat split; try done; [simpl; lia|].
    change (zlen (@nil entry)) with 0. lia. }
  assert (∀ es a', zl = a' ++ chain prev es ++ [255] → zlen a' = P → chain_ok prev es → _) as Hfirst
    by (intros es a' E' Ha' Hc; exact (chain_first zl a x c prev es a' P E Ha Hx E' Ha' Hc ltac:(lia) ltac:(lia))).
  destruct (zipEntrySafe_sound zl P true Hb ltac:(lia)) as [EZ|(prev' & e & EZ & He)];
    [intros y Hy; rewrite Hrd in Hy; congruence| |].
  { rewrite EZ. run. exists None. split; [done|]. intros es a' E' Ha' Hc.
    destruct (Hfirst es a' E' Ha' Hc) as (? & ? & _ & _ & EQ & _). by rewrite EZ in EQ. }
  rewrite EZ. run. change (prevrawlen (zlentry_of P prev' e)) with prev'.
  rewrite zlentry_size. destruct He as (a1 & c1 & E1 & Ha1 & Hc1 & _ & Hwf & Hfit & _).
  pose proof (esize_bounds e Hwf) as Hsz.
  assert (zlen zl = P + esize e + zlen c1) as Hzl by (rewrite E1, !zlen_app, zlen_ebytes; lia).
  assert (1 <= zlen c1) by (destruct c1; [done|zl]). rewrite !wrapu_id by lia.
  destruct (Z.eqb_spec prev' prev) as [->|Hne]; simpl negb; cbv iota.
  2: { exists None. split; [done|]. intros es a' E' Ha' Hc.
       destruct (Hfirst es a' E' Ha' Hc) as (e0 & es0 & _ & _ & EQ & _).
       rewrite EZ in EQ. assert (zlentry_of P prev' e = zlentry_of P prev e0) as EQ' by congruence.
       by apply zlentry_of_inj in EQ' as [? _]. }
  destruct (match cb with Some f => f P d | None => (true, d) end) as [ok d'] eqn:Ecb.
  destruct ok; simpl negb; cbv iota.
  2: { exists None. split; [done|]. intros es a' E' Ha' Hc.
       destruct (Hfirst es a' E' Ha' Hc) as (e0 & es0 & -> & _). simpl. by rewrite Ecb. }
  destruct (IH (P + esize e) (esize e) (Some P) (count + 1) d') as (r & -> & Hr); [done|lia|lia|lia|lia|lia|].
  exists r. split; [done|]. destruct r as [[[q last] n]|]; simpl in *.
  - destruct Hr as (es & a2 & c2 & E2 & Ha2 & Hc2 & Hcb & -> & -> & ->). exists (e :: es), a1, c2.
    assert (a2 = a1 ++ ebytes prev e) as ->.
    { rewrite E1, app_assoc in E2. apply zapp_inj in E2 as [? _]; [done|]. rewrite zlen_app, zlen_ebytes. lia. }
    split; [rewrite E2; simpl; by lapp|]. split; [done|]. split; [done|]. simpl. rewrite Ecb.
    split; [done|]. split; [lia|]. split; [apply (last_pos_cons d0)|]. zlr. lia.
  - intros es a' E' Ha' Hc. destruct (Hfirst es a' E' Ha' Hc) as (e0 & es0 & -> & Hc0 & EQ & E0 & Hl0).
    assert (esize e = esize e0) as Hes.
    { rewrite EZ in EQ. assert (zlentry_of P prev e = zlentry_of P prev e0) as EQ' by congruence.
      by apply zlentry_of_inj in EQ' as [_ ?]. }
    simpl. rewrite Ecb. simpl. rewrite <- Hes in *. by apply Hr with (a' ++ ebytes prev e0).
Qed.

(** ** Uniqueness: a block holds one list of entries *)

Lemma ebytes_inj prev e R prev' e' R' :
  entry_wf e → pfits (big e) prev → entry_wf e' → pfits (big e') prev' →
  ebytes prev e ++ R = ebytes prev' e' ++ R' → prev = prev' ∧ e = e' ∧ R = R'.
Proof.
  intros He Hf He' Hf' E.
  assert (zipEntry (ebytes prev e ++ R) 0 = Ret (zlentry_of 0 prev e)) as Z.
  { apply (zipEntry_at _ prev e [] (data e ++ R)); [apply He|done| |done]. unfold ebytes, body. by lapp. }
  assert (zipEntry (ebytes prev' e' ++ R') 0 = Ret (zlentry_of 0 prev' e')) as Z'.
  { apply (zipEntry_at _ prev' e' [] (data e' ++ R')); [apply He'|done| |done]. unfold ebytes, body. by lapp. }
  rewrite E, Z' in Z. unfold zlentry_of in Z. injection Z as Hps Hpv Hh Hd _ Hen.
  assert (big e = big e') as Hbig by (by destruct (big e), (big e')). subst prev'.
  unfold ebytes, body in E. rewrite Hbig, <- !app_assoc in E. apply app_inv_head in E.
  apply zapp_inj in E as [Ehd E]; [|done]. apply zapp_inj in E as [Edt E]; [|done].
  split; [done|]. split; [|done]. destruct e, e'. simpl in *. congruence.
Qed.

Lemma chain_unique prev es es' c c' :
  chain_ok prev es → chain_ok prev es' → chain prev es ++ 255 :: c = chain prev es' ++ 255 :: c' →
  es = es' ∧ c = c'.
Proof.
  assert (∀ e prev R R', pfits (big e) prev → ebytes prev e ++ R ≠ 255 :: R') as Hne.
  { intros e pv R R' Hf E. destruct (pbytes_head _ _ Hf) as (x & m & Ex & Hx & _).
    unfold ebytes in E. rewrite Ex in E. injection E as E _. lia. }
  revert prev es'. induction es as [|e es IH]; intros prev es' Hc Hc' E.
  - destruct es' as [|e' es']; [by injection E as ->|]. destruct Hc' as (_ & Hf' & _).
    simpl in E. rewrite <- app_assoc in E. symmetry in E. by apply Hne in E.
  - destruct Hc as (He & Hf & Hc). simpl in E. rewrite <- app_assoc in E.
    destruct es' as [|e' es']; [by apply Hne in E|]. destruct Hc' as (He' & Hf' & Hc').
    simpl in E. rewrite <- app_assoc in E. apply ebytes_inj in E as (_ & -> & E); [|done..].
    destruct (IH _ _ Hc Hc' E) as [-> ->]. done.
Qed.

(** ** The whole check *)

(** The blocks the check accepts: a list of entries, with the tail offset
    pointing at the last one; the tail offset of an empty list is only
    required to stay inside the block. *)
Definition valid_block (zl : list Z) (es : list entry) : Prop :=
  chain_ok 0 es ∧ 11 + csize es < 2 ^ 32 ∧
  ∃ t h, 0 <= t ∧ (es = [] → t <= 10) ∧ (es ≠ [] → t = tail_offset es) ∧ count_ok h es ∧
    zl = layout t h es.

Lemma rep_valid es zl : rep es zl → valid_block zl es.
Proof.
  intros (Hc & HT & h & Hh & E). split; [done|]. split; [done|]. exists (tail_offset es), h.
  pose proof (tail_offset_bounds es Hc). split; [lia|]. split; [by intros ->|]. done.
Qed.

Lemma valid_rep es zl : valid_block zl es → es ≠ [] → rep es zl.
Proof.
  intros (Hc & HT & t & h & _ & _ & Ht & Hh & E) Hne. split; [done|]. split; [done|]. exists h.
  by rewrite <- (Ht Hne).
Qed.

(** Any 10 bytes are a header. *)
Lemma zhead_parse zl : bytes_ok zl → 11 <= zlen zl →
  ∃ T t h X, zl = zhead T t h ++ X ∧ 0 <= T < 2 ^ 32 ∧ 0 <= t < 2 ^ 32 ∧ 0 <= h < 2 ^ 16.
Proof.
  intros Hb Hl. destruct (zsplit 4 zl) as (b1 & r & -> & H1 & _); [lia|]. zlr.
  destruct (zsplit 4 r) as (b2 & r2 & -> & H2 & _); [lia|]. zlr.
  destruct (zsplit 2 r2) as (b3 & X & -> & H3 & _); [lia|].
  unfold bytes_ok in Hb. rewrite !Forall_app in Hb. destruct Hb as (Hb1 & Hb2 & Hb3 & _).
  exists (le_dec b1), (le_dec b2), (le_dec b3), X.
  pose proof (le_dec_range b1 Hb1) as R1. pose proof (le_dec_range b2 Hb2) as R2. pose proof (le_dec_range b3 Hb3) as R3.
  rewrite H1 in R1. rewrite H2 in R2. rewrite H3 in R3. split; [|done]. unfold zhead.
  pose proof (le_enc_dec b1 Hb1) as E1. pose proof (le_enc_dec b2 Hb2) as E2. pose proof (le_enc_dec b3 Hb3) as E3.
  replace (length b1) with 4%nat in E1 by zl. replace (length b2) with 4%nat in E2 by zl.
  replace (length b3) with 2%nat in E3 by zl. rewrite E1, E2, E3. by lapp.
Qed.

Lemma zhead_inj T t h X T' t' h' X' :
  zhead T t h ++ X = zhead T' t' h' ++ X' →
  0 <= T < 2 ^ 32 → 0 <= t < 2 ^ 32 → 0 <= h < 2 ^ 16 →
  0 <= T' < 2 ^ 32 → 0 <= t' < 2 ^ 32 → 0 <= h' < 2 ^ 16 → T = T' ∧ t = t' ∧ h = h' ∧ X = X'.
Proof.
  intros E HT Ht Hh HT' Ht' Hh'.
  pose proof (ZIPLIST_BYTES_at _ X T t h eq_refl HT) as B1. pose proof (ZIPLIST_BYTES_at _ X' T' t' h' eq_refl HT') as B2.
  pose proof (ZIPLIST_TAIL_OFFSET_at _ X T t h eq_refl Ht) as C1.
  pose proof (ZIPLIST_TAIL_OFFSET_at _ X' T' t' h' eq_refl Ht') as C2.
  pose proof (ZIPLIST_LENGTH_at _ X T t h eq_refl Hh) as D1. pose proof (ZIPLIST_LENGTH_at _ X' T' t' h' eq_refl Hh') as D2.
  rewrite E in B1, C1, D1. apply zapp_inj in E as [_ E]; [|done].
  repeat split; congruence.
Qed.

(** The checks after the walk. *)
Lemma validate_end zl T t h es c :
  zl = zhead T t h ++ chain 0 es ++ 255 :: c → T = zlen zl → T < 2 ^ 32 → chain_ok 0 es →
  0 <= t <= zlen zl - 1 → 0 <= h < 2 ^ 16 →
  ∃ r, (if negb (10 + csize es =? T - 1) then Ret false
        else
          if match last_pos None 10 es with Some q => negb (q =? t) | None => false end then Ret false
          else
            header_count ← ZIPLIST_LENGTH zl;
            if negb (header_count =? 65535) && negb (0 + zlen es =? header_count)
            then Ret false else Ret true) = Ret r ∧
       (r = true ↔ c = [] ∧ (es ≠ [] → t = tail_offset es) ∧ (h = 65535 ∨ h = zlen es)).
Proof.
  intros E HT HTlt Hc Ht Hh. pose proof (zlen_nonneg c) as Hc0. pose proof (csize_nonneg es).
  assert (T = 11 + csize es + zlen c) as HTe
    by (rewrite HT, E, !zlen_app, zlen_zhead, zlen_chain, zlen_cons; lia).
  rewrite (ZIPLIST_LENGTH_at zl _ T t h E) by lia. run.
  destruct (Z.eqb_spec (10 + csize es) (T - 1)) as [Hq|Hq]; cbn [negb].
  2: { exists false. split; [done|]. split; [done|]. intros [-> _]. change (zlen (@nil Z)) with 0 in *. lia. }
  assert (c = []) as -> by (apply zlen_zero; lia).
  assert (match last_pos None 10 es with Some q => negb (q =? t) | None => false end =
    match es with [] => false | _ => negb (tail_offset es =? t) end) as ->.
  { destruct es as [|e es]; [done|].
    by assert (tail_offset (e :: es) = last_off 0 10 (e :: es)) as -> by (by apply (tail_offset_app 0 [])). }
  destruct (match es with [] => false | _ => negb (tail_offset es =? t) end) eqn:Etl.
  { exists false. split; [done|]. split; [done|]. intros (_ & Htl & _). destruct es; [done|]. rewrite Htl in Etl by done. lia. }
  rewrite Z.add_0_l. destruct (negb (h =? 65535) && negb (zlen es =? h)) eqn:Ec.
  { exists false. split; [done|]. split; [done|]. intros (_ & _ & Hcnt). lia. }
  exists true. split; [done|]. split; [|done]. intros _. split; [done|]. split; [|lia].
  intros Hne. destruct es; [done|]. lia.
Qed.

Lemma ziplistValidateIntegrity_spec {D} zl (cb : option (Z → D → bool * D)) d :
  bytes_ok zl →
  ∃ r, ziplistValidateIntegrity zl (zlen zl) true cb d = Ret r ∧
    (r = true ↔ ∃ es, valid_block zl es ∧ cb_accepts cb d 10 es = true).
Proof.
  intros Hb. unfold ziplistValidateIntegrity. zconst.
  assert (∀ es, valid_block zl es → zlen zl = 11 + csize es) as Hvl
    by (intros es (_ & _ & t & h & _ & _ & _ & _ & ->); apply zlen_layout).
  destruct (Z.ltb_spec (zlen zl) (10 + 1)).
  { exists false. split; [done|]. split; [done|]. intros (es & Hv & _). apply Hvl in Hv.
    pose proof (csize_nonneg es). lia. }
  destruct (zhead_parse zl Hb) as (T & t & h & X & E & HT & Ht & Hh); [lia|].
  rewrite (ZIPLIST_BYTES_at zl X T t h E HT). run.
  (* what an accepting list of entries says about the header *)
  assert (∀ es, valid_block zl es → T = zlen zl ∧ (∃ a, zl = a ++ [255]) ∧ t <= 10 + csize es ∧
    (es ≠ [] → t = tail_offset es) ∧ (h = 65535 ∨ h = zlen es) ∧
    X = chain 0 es ++ [255] ∧ chain_ok 0 es) as Hinv.
  { intros es Hv. pose proof (Hvl es Hv) as Hl. destruct Hv as (Hc & Hlt & t' & h' & Ht0 & Hte & Htn & [Hh1 Hh2] & E').
    unfold layout in E'. rewrite E in E'. pose proof (csize_nonneg es).
    assert (t' <= 10 + csize es) as Ht'.
    { destruct es as [|x es]; [simpl; auto|]. rewrite Htn by done. by apply tail_offset_bounds. }
    apply zhead_inj in E' as (-> & -> & -> & ->); [|lia..]. split; [done|]. split; [|done].
    exists (zhead (11 + csize es) t' h' ++ chain 0 es). rewrite E. by lapp. }
  assert (∀ P : Prop, (∀ es, valid_block zl es → cb_accepts cb d 10 es = true → P) → ¬ P →
    ∃ r, Ret false = Ret r ∧ (r = true ↔ ∃ es, valid_block zl es ∧ cb_accepts cb d 10 es = true)) as Hrej.
  { intros P HP HnP. exists false. split; [done|]. split; [done|]. intros (es & Hv & Ha). destruct HnP. by apply (HP es). }
  destruct (Z.eqb_spec T (zlen zl)) as [HTz|]; simpl negb; cbv iota;
    [|apply (Hrej (T = zlen zl)); [intros es Hv _; by apply Hinv in Hv as (? & _)|done]].
  destruct (byte_at zl (zlen zl - 1) Hb) as (x & a & c & -> & Ex & Ha & _); [lia|]. run.
  assert (c = []) as -> by (apply zlen_zero; apply (f_equal zlen) in Ex; zlr; lia).
  destruct (Z.eqb_spec x 255) as [->|Hx]; simpl negb; cbv iota.
  2: { apply (Hrej (x = 255)); [|done]. intros es Hv _. apply Hinv in Hv as (_ & (a' & Ea) & _).
       rewrite Ea in Ex. by apply app_inj_tail in Ex as [_ <-]. }
  unfold ZIPLIST_ENTRY_TAIL. rewrite !(ZIPLIST_TAIL_OFFSET_at zl X T t h E Ht). run.
  destruct (Z.ltb_spec (zlen zl - 1) t) as [Htl|Htl].
  { apply (Hrej (t <= zlen zl - 1)); [|lia]. intros es Hv _. pose proof (Hvl es Hv). apply Hinv in Hv. lia. }
  destruct (validate_loop_spec (Z.to_nat (zlen zl)) zl 10 0 None 0 cb d) as (r & Er & Hw); [done|lia|lia|lia|lia|lia|].
  unfold ZIPLIST_ENTRY_HEAD. zconst. cbn [negb]. rewrite Er. run. clear Er.
  assert (∀ es, X = chain 0 es ++ [255] → zl = zhead T t h ++ chain 0 es ++ [255]) as HX by (by intros es <-).
  destruct r as [[[q last] n]|].
  2: { apply (Hrej False); [|tauto]. intros es Hv Hcb. apply Hinv in Hv as (_ & _ & _ & _ & _ & HXe & Hc).
       specialize (Hw es (zhead T t h) (HX es HXe) eq_refl Hc). congruence. }
  destruct Hw as (es & b & c & Eb & Hlb & Hc & Hcb & -> & -> & ->).
  assert (zhead T t h = b ∧ X = chain 0 es ++ 255 :: c) as [<- EX].
  { rewrite E in Eb. apply zapp_inj in Eb as [? ?]; [done|]. by rewrite Hlb. }
  (* the only list that can be accepted is [es] *)
  assert (∀ es', valid_block zl es' → es' = es ∧ c = []) as Huniq.
  { intros es' Hv. apply Hinv in Hv as (_ & _ & _ & _ & _ & HXe & Hc'). rewrite EX in HXe.
    apply chain_unique in HXe; [|done..]. destruct HXe as [-> ->]. done. }
  rewrite EX in E. destruct (validate_end zl T t h es c E) as (r & -> & Hr); [done|lia|done|lia|done|].
  exists r. split; [done|]. rewrite Hr. split.
  - intros (-> & Htl2 & Hcnt). exists es. split; [|done]. pose proof (csize_nonneg es).
    assert (T = 11 + csize es) as HTe by (rewrite HTz, E, !zlen_app, zlen_zhead, zlen_chain; change (zlen [255]) with 1; lia).
    split; [done|]. split; [lia|]. exists t, h. split; [lia|]. split; [intros ->; simpl in *; lia|].
    split; [done|]. split; [unfold count_ok; lia|]. unfold layout. by rewrite <- HTe.
  - intros (es' & Hv & _). destruct (Huniq es' Hv) as [-> ->]. apply Hinv in Hv as (_ & _ & _ & Htl2 & Hcnt & _).
    done.
Qed.

(** Without [deep] only the header and the end mark are checked. *)
Lemma ziplistValidateIntegrity_shallow {D} zl (cb : option (Z → D → bool * D)) d :
  bytes_ok zl →
  ∃ r, ziplistValidateIntegrity zl (zlen zl) false cb d = Ret r.
Proof.
  intros Hb. unfold ziplistValidateIntegrity. zconst. destruct (Z.ltb_spec (zlen zl) (10 + 1)); [by exists false|].
  destruct (zhead_parse zl Hb) as (T & t & h & X & E & HT & Ht & Hh); [lia|].
  rewrite (ZIPLIST_BYTES_at zl X T t h E HT). run. destruct (T =? zlen zl); [|by exists false]. cbn [negb].
  destruct (byte_at zl (zlen zl - 1) Hb) as (x & a & c & -> & _); [lia|]. run.
  destruct (x =? 255); [|by exists false]. cbn [negb].
  rewrite (ZIPLIST_TAIL_OFFSET_at zl X T t h E Ht). run. case_cond; eauto.
Qed.

End valid.
End ZiplistValid.
