(* ===== verification/ZiplistSpec.v ===== *)
(** What the ziplist operations promise: refinement of operations on lists of
    values.  [vals es] are the values of the represented entries and
    [offset es i] is where entry [i] starts, the pointer the callers use. *)
From S2P Require Import Prelude Endianconv Util Ziplist ZiplistRep ZiplistCascade ZiplistValue ZiplistInsert ZiplistDelete ZiplistNav ZiplistMerge ZiplistValid.
Import Util Ziplist ZiplistRep ZiplistCascade ZiplistValue ZiplistInsert ZiplistDelete ZiplistNav ZiplistMerge ZiplistValid.

Module ZiplistSpec.

Definition vals (es : list entry) : list zval := e_val <$> es.

Lemma split_at (es : list entry) i :
  (i <= length es)%nat → ∃ es1 es2, es = es1 ++ es2 ∧ length es1 = i ∧ offset es i = 10 + csize es1.
Proof.
  intros Hi. exists (take i es), (drop i es). rewrite take_drop. split; [done|].
  split; [rewrite length_take; lia|done].
Qed.

Lemma split_entry (es : list entry) i e :
  es !! i = Some e → ∃ es1 es2, es = es1 ++ e :: es2 ∧ length es1 = i ∧ offset es i = 10 + csize es1.
Proof.
  intros He. exists (take i es), (drop (S i) es). rewrite take_drop_middle by done. split; [done|].
  apply lookup_lt_Some in He. split; [rewrite length_take; lia|done].
Qed.

Lemma offset_prefix (es1 es2 es2' : list entry) j :
  (j <= length es1)%nat → offset (es1 ++ es2) j = offset (es1 ++ es2') j.
Proof. intros Hj. unfold offset. by rewrite !take_app_le. Qed.

(** A concrete block: the string "ab" and the integer 300. *)
Definition ex_es : list entry := [Entry false 0 [2] (cstr "ab"); Entry false 192 [192] [44; 1]].
Definition ex_zl : list Z := layout 14 2 ex_es.

Lemma ex_rep : rep ex_es ex_zl.
Proof.
  split; [|split; [by vm_compute|]].
  - split; [|split; [by split|]]; [split; [by apply header_str6|]|].
    + repeat constructor; by vm_compute.
    + split; [|split; [by split|done]]. split; [by apply header_int16|]. repeat constructor; by vm_compute.
  - exists 2. split; [|done]. split; [done|]. by right.
Qed.

Section spec.
Context {H : HostOrder} {A : Allocator} {L : AllocatorLaws A}.

(** Inserting a string before entry [i] (or at the end) of a ziplist
    returns a well-formed ziplist whose values are the old ones with the new
    value at position [i]: the integer, when the string is the decimal
    representation of a 64-bit integer, and else the string.  The positions
    up to [i] stay where they are.  All header updates, the move of the tail
    and the cascade of growing length fields are covered. *)
Theorem ziplistInsert_refines es zl i s :
  rep es zl → (i <= length es)%nat → bytes_ok s → zlen zl + zlen s + 4 * zlen es + 32 < 2 ^ 32 →
  ∃ es' zl' x, ziplistInsert zl (offset es i) s (zlen s) = Ret zl' ∧ rep es' zl' ∧ stored s x ∧
    vals es' = take i (vals es) ++ x :: drop i (vals es) ∧
    ∀ j, (j <= i)%nat → offset es' j = offset es j.
Proof.
  intros Hr Hi Hs Hroom. destruct (split_at es i Hi) as (es1 & es2 & -> & Hl & ->).
  destruct (__ziplistInsert_spec es1 es2 zl s Hr Hs) as (e & es2' & zl' & E & Hr' & Hst & Hv & _).
  { rewrite zlen_app in Hroom. pose proof (zlen_nonneg es1). lia. }
  exists (es1 ++ e :: es2'), zl', (e_val e). split; [done|]. split; [done|]. split; [done|]. split.
  - unfold vals. rewrite !fmap_app, fmap_cons, Hv, <- Hl, <- (length_fmap e_val es1).
    by rewrite take_app_length, drop_app_length.
  - intros j Hj. apply offset_prefix. lia.
Qed.

(** Pushing at the head or the tail of a ziplist. *)
Theorem ziplistPush_refines es zl s w :
  rep es zl → bytes_ok s → zlen zl + zlen s + 4 * zlen es + 32 < 2 ^ 32 →
  ∃ es' zl' x, ziplistPush zl s (zlen s) w = Ret zl' ∧ rep es' zl' ∧ stored s x ∧
    vals es' = match w with ZIPLIST_HEAD => x :: vals es | ZIPLIST_TAIL => vals es ++ [x] end.
Proof.
  intros Hr Hs Hroom. unfold ziplistPush. pose proof (zlen_nonneg es). destruct w; run.
  - destruct (__ziplistInsert_spec [] es zl s Hr Hs) as (e & es2' & zl' & E & Hr' & Hst & Hv & _); [lia|].
    exists (e :: es2'), zl', (e_val e). split; [done|]. split; [done|]. split; [done|].
    unfold vals. by rewrite fmap_cons, Hv.
  - unfold ZIPLIST_ENTRY_END. rewrite (rep_bytes _ _ Hr). run.
    pose proof Hr as (h & _ & _ & _ & _ & ->)%rep_open. replace (11 + csize es - 1) with (10 + csize es) by lia.
    rewrite <- (app_nil_r es) in Hr.
    destruct (__ziplistInsert_spec es [] zl s Hr Hs) as (e & es2' & zl' & E & Hr' & Hst & Hv & _);
      [change (zlen (@nil entry)) with 0; lia|].
    exists (es ++ e :: es2'), zl', (e_val e). split; [done|]. split; [done|]. split; [done|].
    unfold vals. by rewrite fmap_app, fmap_cons, Hv.
Qed.

(** Deleting [num] entries from entry [i] on removes exactly these
    values (or all values from [i] on when fewer are left), and leaves the
    block well formed. *)
Theorem ziplistDelete_refines es zl i num :
  rep es zl → (i < length es)%nat → 0 < num < 2 ^ 32 → zlen zl + 4 * zlen es + 8 < UINT32_MAX →
  ∃ es' zl', __ziplistDelete zl (offset es i) num = Ret zl' ∧ rep es' zl' ∧
    vals es' = take i (vals es) ++ drop (i + Z.to_nat num) (vals es) ∧
    ∀ j, (j <= i)%nat → offset es' j = offset es j.
Proof.
  intros Hr Hi Hnum Hroom. destruct (split_at es i) as (es1 & es2 & -> & Hl & ->); [lia|].
  rewrite length_app in Hi. rewrite zlen_app in Hroom.
  rewrite <- (take_drop (Z.to_nat num) es2) in Hr.
  destruct (__ziplistDelete_spec es1 (take (Z.to_nat num) es2) (drop (Z.to_nat num) es2) zl num Hr)
    as (rest & zl' & E & Hr' & Hv & _).
  - intros E0. apply (f_equal length) in E0. rewrite length_take in E0. simpl in E0. lia.
  - zconst. pose proof (zlen_nonneg es1). len_norm. lia.
  - destruct (decide (Z.to_nat num <= length es2)%nat); [left; zl|right].
    split; [apply drop_ge; lia|zl].
  - exists (es1 ++ rest), zl'. split; [done|]. split; [done|]. split.
    + unfold vals. rewrite !fmap_app, Hv, fmap_drop, <- Hl, <- (length_fmap e_val es1), take_app_length.
      by rewrite drop_app_ge, Nat.add_comm, Nat.add_sub by lia.
    + intros j Hj. apply offset_prefix. lia.
Qed.

(** Replacing entry [i], in place or by deletion and insertion, changes
    that value and no other. *)
Theorem ziplistReplace_refines es zl i s :
  rep es zl → (i < length es)%nat → bytes_ok s → zlen zl + zlen s + 8 * zlen es + 50 < 2 ^ 32 →
  ∃ es' zl' x, ziplistReplace zl (offset es i) s (zlen s) = Ret zl' ∧ rep es' zl' ∧ stored s x ∧
    vals es' = <[i:=x]> (vals es).
Proof.
  intros Hr Hi Hs Hroom. destruct (lookup_lt_is_Some_2 es i Hi) as [d Hd].
  destruct (split_entry es i d Hd) as (es1 & es2 & -> & Hl & ->).
  destruct (ziplistReplace_spec es1 d es2 zl s Hr Hs) as (e & es2' & zl' & E & Hr' & Hst & Hv).
  { zlr. pose proof (zlen_nonneg es1). lia. }
  exists (es1 ++ e :: es2'), zl', (e_val e). split; [done|]. split; [done|]. split; [done|].
  unfold vals. rewrite !fmap_app, !fmap_cons, Hv. rewrite insert_app_r_alt by (rewrite length_fmap; lia).
  by rewrite length_fmap, Hl, Nat.sub_diag.
Qed.

(** Merging two ziplists, the second of which is not empty, gives a
    well-formed ziplist with the values of the first followed by those of the
    second; exactly one of the two pointers becomes null. *)
Lemma ziplistMerge_vals es1 es2 zl1 zl2 :
  rep es1 zl1 → rep es2 zl2 → es2 ≠ [] → zlen zl1 + zlen zl2 + 4 * zlen es2 < UINT32_MAX →
  ∃ es zl, rep es zl ∧ vals es = vals es1 ++ vals es2 ∧
    (ziplistMerge (Some zl1) (Some zl2) false = Ret (Some zl, Some zl, None) ∨
     ziplistMerge (Some zl1) (Some zl2) false = Ret (Some zl, None, Some zl)).
Proof.
  intros Hr1 Hr2 Hne Hlt. destruct (ziplistMerge_spec es1 es2 zl1 zl2 Hr1 Hr2 Hne Hlt) as (es2' & zl & Hr & Hv & E).
  exists (es1 ++ es2'), zl. split; [done|]. split; [|done]. unfold vals. by rewrite fmap_app, Hv.
Qed.

(** A new ziplist is empty, and the length and the size of a ziplist are
    the number of its entries and of its bytes, even when the count in the
    header is not known and the entries have to be counted. *)
Theorem ziplist_sizes es zl :
  rep es zl →
  (∃ zl0, ziplistNew = Ret zl0 ∧ rep [] zl0) ∧
  (∃ zl', ziplistLen zl = Ret (zl', zlen es) ∧ rep es zl') ∧
  ziplistBlobLen zl = Ret (zlen zl).
Proof.
  intros Hr. split; [apply ziplistNew_spec|]. split; [by apply ziplistLen_spec|by eapply rep_bytes].
Qed.

(** Navigation: by index from the head and from the tail, to the next
    and to the previous entry, always to the start of the right entry, and a
    null pointer exactly when there is none. *)
Theorem ziplist_steps es zl :
  rep es zl → es ≠ [] →
  (∀ i, 0 <= i →
     ziplistIndex zl i = Ret (if i <? zlen es then Some (offset es (Z.to_nat i)) else None)) ∧
  (∀ i, - 2 ^ 31 < i < 0 →
     ziplistIndex zl i =
       Ret (if - i <=? zlen es then Some (offset es (length es - Z.to_nat (- i))) else None)) ∧
  (∀ i, (i < length es)%nat →
     ziplistNext zl (offset es i) =
       Ret (if decide (S i < length es)%nat then Some (offset es (S i)) else None)) ∧
  (∀ i, (i <= length es)%nat →
     ziplistPrev zl (offset es i) = Ret (if decide (i = 0)%nat then None else Some (offset es (i - 1)))).
Proof.
  intros Hr Hne. split; [intros i Hi; by apply ziplistIndex_forward|].
  split; [intros i Hi; by apply ziplistIndex_backward|]. split.
  - intros i Hi. destruct (lookup_lt_is_Some_2 es i Hi) as [e He].
    destruct (split_entry es i e He) as (es1 & es2 & -> & Hl & ->).
    rewrite (ziplistNext_spec es1 e es2 zl Hr). unfold offset.
    rewrite length_app, <- Hl. destruct es2 as [|n es2]; simpl length; case_decide; try lia; [done|].
    replace (S (length es1)) with (length (es1 ++ [e])) by (rewrite length_app; simpl; lia).
    replace (es1 ++ e :: n :: es2) with ((es1 ++ [e]) ++ n :: es2) by (by lapp). by rewrite take_app_length.
  - intros i Hi. destruct (split_at es i Hi) as (es1 & es2 & -> & Hl & ->).
    rewrite (ziplistPrev_spec es1 es2 zl Hr). destruct es1 as [|e es1 _] using rev_ind.
    + simpl in Hl. subst i. done.
    + rewrite length_app in Hl. simpl in Hl. case_decide; [lia|].
      destruct (es1 ++ [e]) eqn:E; [by destruct es1|]. rewrite <- E. unfold offset.
      replace (i - 1)%nat with (length es1) by lia. rewrite <- app_assoc, take_app_length, csize_app, lsize_app.
      do 2 f_equal. simpl. lia.
Qed.

(** Reading and comparing entries: [ziplistGet] returns the value of the
    entry, and [ziplistCompare] decides whether the entry stands for a given
    string, however the entry is encoded. *)
Theorem ziplistGet_exact es zl i e s :
  rep es zl → es !! i = Some e →
  (∃ g, ziplistGet zl (Some (offset es i)) = Ret (Some g) ∧ get_val zl (e_val e) g) ∧
  ziplistCompare zl (offset es i) s (zlen s) = Ret (bool_decide (zval_str (e_val e) = s)).
Proof.
  intros Hr He. destruct (split_entry es i e He) as (es1 & es2 & -> & Hl & ->).
  split; [by eapply ziplistGet_spec|by eapply ziplistCompare_spec].
Qed.

(** [ziplistFind] returns the first entry that stands for the searched
    string among the entries it compares, which are every [skip + 1]-th entry
    from the start of the search on, and a null pointer when there is none. *)
Theorem ziplistFind_exact es zl i v skip :
  rep es zl → (i <= length es)%nat → 0 <= skip < 2 ^ 31 →
  let strs := zval_str <$> vals es in
  let hit k := (i <= k)%nat ∧ (skip + 1 | Z.of_nat (k - i)) ∧ strs !! k = Some v in
  ∃ r, ziplistFind zl (offset es i) v (zlen v) skip = Ret r ∧
  match r with
  | Some q => ∃ k, hit k ∧ q = offset es k ∧ ∀ k', (k' < k)%nat → ¬ hit k'
  | None => ∀ k, ¬ hit k
  end.
Proof.
  intros Hr Hi Hs strs hit. destruct (split_at es i Hi) as (es1 & es2 & -> & Hl & ->).
  destruct (ziplistFind_spec es1 es2 zl v skip Hr Hs) as (r & -> & Hres). exists r. split; [done|].
  assert (∀ k, hit k → ∃ j e, k = (i + j)%nat ∧ es2 !! j = Some e ∧ compared skip 0 (Z.of_nat j) ∧
    zval_str (e_val e) = v) as Hhit.
  { intros k (Hik & Hd & Hk). exists (k - i)%nat. unfold strs, vals in Hk.
    rewrite !list_lookup_fmap, lookup_app_r in Hk by lia. rewrite Hl in Hk.
    destruct (es2 !! (k - i)%nat) as [e|] eqn:E; [|done]. injection Hk as Hk. exists e.
    split; [lia|]. split; [done|]. split; [|done]. split; [lia|]. by rewrite Z.sub_0_r. }
  destruct r as [q|]; simpl in Hres.
  - destruct Hres as (j & e & Hj & -> & [_ Hc] & Hv & Hmin). rewrite Z.sub_0_r in Hc. exists (i + j)%nat. split.
    + split; [lia|]. split; [by replace (i + j - i)%nat with j by lia|]. unfold strs, vals.
      rewrite !list_lookup_fmap, lookup_app_r by lia. rewrite Hl. replace (i + j - i)%nat with j by lia.
      rewrite Hj. simpl. by rewrite Hv.
    + split.
      * unfold offset. rewrite take_app, Hl, (take_ge es1), csize_app by lia.
        replace (i + j - i)%nat with j by lia. lia.
      * intros k' Hlt (j' & e' & -> & Hj' & Hc' & Hv')%Hhit. eapply Hmin; [|done|done|done]. lia.
  - intros k (j & e & -> & Hj & Hc & Hv)%Hhit. by eapply Hres.
Qed.

(** C5. The integrity check of an untrusted payload always returns, so it
    never reads outside the payload, and accepts the payload exactly when it
    is a ziplist whose entries the callback accepts.  A nonempty ziplist that
    passes is in the state every other operation expects. *)
Theorem ziplistValidateIntegrity_exact {D} zl (cb : option (Z → D → bool * D)) d :
  bytes_ok zl →
  (∃ r, ziplistValidateIntegrity zl (zlen zl) true cb d = Ret r ∧
    (r = true ↔ ∃ es, valid_block zl es ∧ cb_accepts cb d 10 es = true)) ∧
  (∃ r, ziplistValidateIntegrity zl (zlen zl) false cb d = Ret r) ∧
  (∀ es, es ≠ [] → valid_block zl es ↔ rep es zl).
Proof.
  intros Hb. split; [by apply ziplistValidateIntegrity_spec|].
  split; [by apply ziplistValidateIntegrity_shallow|]. intros es Hne.
  split; [intros; by apply valid_rep|apply rep_valid].
Qed.

(** C4. Inserting a string before entry [i] (or at the end) of a ziplist returns
    a well-formed ziplist whose values are the old ones with the new value at
    position [i]: the integer, when the string is the decimal representation of
    a 64-bit integer, and else the string.  Deleting [num] entries from entry
    [i] on removes exactly these values (or all from [i] on when fewer are
    left), and replacing entry [i] changes that value and no other.  All header
    updates, the move of the tail and the cascade of length fields are covered;
    the positions up to [i] stay where they are.  Merging with a second ziplist
    that is not empty gives the values of the first followed by those of the
    second, and exactly one of the two pointers becomes null. *)
Theorem ziplist_edit_refines es zl : rep es zl →
  (∀ i s, (i <= length es)%nat → bytes_ok s → zlen zl + zlen s + 4 * zlen es + 32 < 2 ^ 32 →
    ∃ es' zl' x, ziplistInsert zl (offset es i) s (zlen s) = Ret zl' ∧ rep es' zl' ∧ stored s x ∧
      vals es' = take i (vals es) ++ x :: drop i (vals es) ∧ ∀ j, (j <= i)%nat → offset es' j = offset es j) ∧
  (∀ i num, (i < length es)%nat → 0 < num < 2 ^ 32 → zlen zl + 4 * zlen es + 8 < UINT32_MAX →
    ∃ es' zl', __ziplistDelete zl (offset es i) num = Ret zl' ∧ rep es' zl' ∧
      vals es' = take i (vals es) ++ drop (i + Z.to_nat num) (vals es) ∧ ∀ j, (j <= i)%nat → offset es' j = offset es j) ∧
  (∀ i s, (i < length es)%nat → bytes_ok s → zlen zl + zlen s + 8 * zlen es + 50 < 2 ^ 32 →
    ∃ es' zl' x, ziplistReplace zl (offset es i) s (zlen s) = Ret zl' ∧ rep es' zl' ∧ stored s x ∧
      vals es' = <[i:=x]> (vals es)) ∧
  (∀ es2 zl2, rep es2 zl2 → es2 ≠ [] → zlen zl + zlen zl2 + 4 * zlen es2 < UINT32_MAX →
    ∃ es' zl', rep es' zl' ∧ vals es' = vals es ++ vals es2 ∧
      (ziplistMerge (Some zl) (Some zl2) false = Ret (Some zl', Some zl', None) ∨
       ziplistMerge (Some zl) (Some zl2) false = Ret (Some zl', None, Some zl'))).
Proof.
  intros Hr. split_and!; intros.
  - by apply ziplistInsert_refines.
  - by apply ziplistDelete_refines.
  - by apply ziplistReplace_refines.
  - by apply ziplistMerge_vals.
Qed.

(** C6. Navigation: by index from the head and from the tail, to the next and to
    the previous entry, always to the start of the right entry, and a null
    pointer exactly when there is none.  [ziplistFind] returns the first entry
    that stands for the searched string among the entries it compares, which
    are every [skip + 1]-th entry from the start of the search on, and a null
    pointer when there is none.

    There are two boundaries with an empty ziplist.  Merging with an empty
    second ziplist leaves the tail offset pointing at the end mark: the result is
    rejected by the integrity check, although both arguments are accepted.
    Asking an empty ziplist for an entry past the first stops the process in an
    assertion instead of returning a null pointer. *)
Theorem ziplist_navigation :
  (∀ es zl,
   rep es zl → es ≠ [] →
   (∀ i, 0 <= i →
      ziplistIndex zl i = Ret (if i <? zlen es then Some (offset es (Z.to_nat i)) else None)) ∧
   (∀ i, - 2 ^ 31 < i < 0 →
      ziplistIndex zl i =
        Ret (if - i <=? zlen es then Some (offset es (length es - Z.to_nat (- i))) else None)) ∧
   (∀ i, (i < length es)%nat →
      ziplistNext zl (offset es i) =
        Ret (if decide (S i < length es)%nat then Some (offset es (S i)) else None)) ∧
   (∀ i, (i <= length es)%nat →
      ziplistPrev zl (offset es i) = Ret (if decide (i = 0)%nat then None else Some (offset es (i - 1)))) ∧
   (∀ i v skip, (i <= length es)%nat → 0 <= skip < 2 ^ 31 →
      let strs := zval_str <$> vals es in
      let hit k := (i <= k)%nat ∧ (skip + 1 | Z.of_nat (k - i)) ∧ strs !! k = Some v in
      ∃ r, ziplistFind zl (offset es i) v (zlen v) skip = Ret r ∧
      match r with
      | Some q => ∃ k, hit k ∧ q = offset es k ∧ ∀ k', (k' < k)%nat → ¬ hit k'
      | None => ∀ k, ¬ hit k
      end)) ∧
  ∃ zl0 zl, ziplistNew (H := false) (A := exact_alloc) = Ret zl0 ∧
    ziplistValidateIntegrity (H := false) zl0 (zlen zl0) true None tt = Ret true ∧
    ziplistValidateIntegrity (H := false) ex_zl (zlen ex_zl) true None tt = Ret true ∧
    ziplistMerge (H := false) (A := exact_alloc) (Some ex_zl) (Some zl0) false = Ret (Some zl, Some zl, None) ∧
    ziplistValidateIntegrity (H := false) zl (zlen zl) true None tt = Ret false ∧
    ziplistIndex (H := false) zl0 0 = Ret None ∧ ziplistIndex (H := false) zl0 1 = Panic.
Proof.
  split; [|by eexists _, _; repeat split; vm_compute; reflexivity].
  intros es zl Hr Hne. destruct (ziplist_steps es zl Hr Hne) as (H1 & H2 & H3 & H4). split_and!; [done..|].
  intros i v skip Hi Hs. by apply ziplistFind_exact.
Qed.

End spec.

#[local] Existing Instance exact_alloc.
#[local] Instance little_endian : HostOrder := false.

Lemma ex_empty : ∃ zl, ziplistNew = Ret zl ∧ zl = layout 10 0 [].
Proof. eexists. split; vm_compute; reflexivity. Qed.

(** ** Examples: the theorems at concrete blocks *)

Lemma ziplist_edit_refines_witness :
  (∃ es' zl' x, ziplistInsert ex_zl (offset ex_es 1) (cstr "77") 2 = Ret zl' ∧ rep es' zl' ∧
    stored (cstr "77") x ∧ vals es' = [ZStr (cstr "ab"); x; ZInt 300] ∧
    ∀ j, (j <= 1)%nat → offset es' j = offset ex_es j) ∧
  (∃ es' zl', __ziplistDelete ex_zl (offset ex_es 0) 1 = Ret zl' ∧ rep es' zl' ∧
    vals es' = [ZInt 300] ∧ ∀ j, (j <= 0)%nat → offset es' j = offset ex_es j) ∧
  (∃ es' zl' x, ziplistReplace ex_zl (offset ex_es 0) (cstr "xyz") 3 = Ret zl' ∧ rep es' zl' ∧
    stored (cstr "xyz") x ∧ vals es' = [x; ZInt 300]) ∧
  (∃ es zl, rep es zl ∧ vals es = [ZStr (cstr "ab"); ZInt 300; ZStr (cstr "ab"); ZInt 300] ∧
    (ziplistMerge (Some ex_zl) (Some ex_zl) false = Ret (Some zl, Some zl, None) ∨
     ziplistMerge (Some ex_zl) (Some ex_zl) false = Ret (Some zl, None, Some zl))).
Proof.
  destruct (ziplist_edit_refines (L := exact_alloc_laws) ex_es ex_zl ex_rep) as (HI & HD & HR & HM).
  split; [exact (HI 1%nat (cstr "77") ltac:(simpl; lia) ltac:(by repeat constructor) ltac:(by vm_compute))|].
  split; [exact (HD 0%nat 1 ltac:(simpl; lia) ltac:(lia) ltac:(by vm_compute))|].
  split; [exact (HR 0%nat (cstr "xyz") ltac:(simpl; lia) ltac:(by repeat constructor) ltac:(by vm_compute))|].
  exact (HM ex_es ex_zl ex_rep ltac:(done) ltac:(by vm_compute)).
Defined.

Lemma ziplistPush_refines_witness :
  ∃ es' zl' x, ziplistPush ex_zl (cstr "cd") 2 ZIPLIST_TAIL = Ret zl' ∧ rep es' zl' ∧
    stored (cstr "cd") x ∧ vals es' = [ZStr (cstr "ab"); ZInt 300; x].
Proof.
  exact (ziplistPush_refines (L := exact_alloc_laws) ex_es ex_zl (cstr "cd") ZIPLIST_TAIL ex_rep
    ltac:(by repeat constructor) ltac:(by vm_compute)).
Defined.

Lemma ziplist_sizes_witness :
  (∃ zl0, ziplistNew = Ret zl0 ∧ rep [] zl0) ∧
  (∃ zl', ziplistLen ex_zl = Ret (zl', 2) ∧ rep ex_es zl') ∧ ziplistBlobLen ex_zl = Ret 19.
Proof. exact (ziplist_sizes (L := exact_alloc_laws) ex_es ex_zl ex_rep). Defined.

Lemma ziplist_navigation_witness :
  ziplistIndex ex_zl 1 = Ret (Some 14) ∧ ziplistIndex ex_zl (-2) = Ret (Some 10) ∧
  ziplistNext ex_zl 10 = Ret (Some 14) ∧ ziplistPrev ex_zl 18 = Ret (Some 14) ∧
  ∃ r, ziplistFind ex_zl 10 (cstr "300") 3 0 = Ret r.
Proof.
  destruct (proj1 ziplist_navigation ex_es ex_zl ex_rep ltac:(done)) as (H1 & H2 & H3 & H4 & H5).
  split; [exact (H1 1 ltac:(lia))|]. split; [exact (H2 (-2) ltac:(lia))|].
  split; [exact (H3 0%nat ltac:(simpl; lia))|]. split; [exact (H4 2%nat ltac:(simpl; lia))|].
  destruct (H5 0%nat (cstr "300") 0 ltac:(simpl; lia) ltac:(lia)) as (r & E & _). exists r. exact E.
Defined.

Lemma ziplistGet_exact_witness :
  (∃ g, ziplistGet ex_zl (Some 14) = Ret (Some g) ∧ get_val ex_zl (ZInt 300) g) ∧
  ziplistCompare ex_zl 14 (cstr "300") 3 = Ret true.
Proof. exact (ziplistGet_exact ex_es ex_zl 1 _ (cstr "300") ex_rep eq_refl). Defined.

Lemma ziplistValidateIntegrity_exact_witness :
  ∃ r, ziplistValidateIntegrity [1; 2; 3] 3 true (None : option (Z → unit → bool * unit)) tt = Ret r.
Proof.
  destruct (ziplistValidateIntegrity_exact [1; 2; 3] (None : option (Z → unit → bool * unit)) tt
    ltac:(by repeat constructor)) as [(r & E & _) _]. exists r. exact E.
Defined.

End ZiplistSpec.
