(* ===== verification/Listpack.v ===== *)
(** Listpacks: [src/.../redis-6.2/src/listpack.c] with [listpack.h] and
    [listpack_malloc.h].

    A listpack is the list of the bytes of its allocation, all those
    [zmalloc_usable_size] reports; a pointer into it is an offset and a null
    pointer is [None]. *)
From S2P Require Import Prelude Util.

Module Listpack.
Import Util.

(** * Constants and macros *)

Definition LP_HDR_SIZE : Z := 6.
Definition LP_HDR_NUMELE_UNKNOWN : Z := 65535.
Definition LP_INTBUF_SIZE : Z := 21.

Definition LP_ENCODING_6BIT_STR : Z := 0x80.
Definition LP_ENCODING_13BIT_INT : Z := 0xC0.
Definition LP_ENCODING_12BIT_STR : Z := 0xE0.
Definition LP_ENCODING_32BIT_STR : Z := 0xF0.
Definition LP_ENCODING_16BIT_INT : Z := 0xF1.
Definition LP_ENCODING_24BIT_INT : Z := 0xF2.
Definition LP_ENCODING_32BIT_INT : Z := 0xF3.
Definition LP_ENCODING_64BIT_INT : Z := 0xF4.
Definition LP_EOF : Z := 0xFF.

Definition LP_ENCODING_IS_7BIT_UINT (byte : Z) : bool := Z.land byte 0x80 =? 0.
Definition LP_ENCODING_IS_6BIT_STR (byte : Z) : bool := Z.land byte 0xC0 =? LP_ENCODING_6BIT_STR.
Definition LP_ENCODING_IS_13BIT_INT (byte : Z) : bool := Z.land byte 0xE0 =? LP_ENCODING_13BIT_INT.
Definition LP_ENCODING_IS_12BIT_STR (byte : Z) : bool := Z.land byte 0xF0 =? LP_ENCODING_12BIT_STR.
Definition LP_ENCODING_IS_16BIT_INT (byte : Z) : bool := Z.land byte 0xFF =? LP_ENCODING_16BIT_INT.
Definition LP_ENCODING_IS_24BIT_INT (byte : Z) : bool := Z.land byte 0xFF =? LP_ENCODING_24BIT_INT.
Definition LP_ENCODING_IS_32BIT_INT (byte : Z) : bool := Z.land byte 0xFF =? LP_ENCODING_32BIT_INT.
Definition LP_ENCODING_IS_64BIT_INT (byte : Z) : bool := Z.land byte 0xFF =? LP_ENCODING_64BIT_INT.
Definition LP_ENCODING_IS_32BIT_STR (byte : Z) : bool := Z.land byte 0xFF =? LP_ENCODING_32BIT_STR.

(** Bytes joined by [|] and [<<], the first one lowest. *)
Fixpoint or_bytes (bs : list Z) : Z :=
  match bs with
  | [] => 0
  | c :: bs => Z.lor c (Z.shiftl (or_bytes bs) 8)
  end.

Definition LP_ENCODING_6BIT_STR_LEN (lp : list Z) (p : Z) : outcome Z :=
  c ← rd lp p; Ret (Z.land c 0x3F).
Definition LP_ENCODING_12BIT_STR_LEN (lp : list Z) (p : Z) : outcome Z :=
  c0 ← rd lp p; c1 ← rd lp (p + 1); Ret (Z.lor (Z.shiftl (Z.land c0 0xF) 8) c1).
Definition LP_ENCODING_32BIT_STR_LEN (lp : list Z) (p : Z) : outcome Z :=
  bs ← rdn lp (p + 1) 4; Ret (or_bytes bs).

Definition lpGetTotalBytes (lp : list Z) : outcome Z := bs ← rdn lp 0 4; Ret (or_bytes bs).
Definition lpGetNumElements (lp : list Z) : outcome Z := bs ← rdn lp 4 2; Ret (or_bytes bs).

Definition lpSetTotalBytes (lp : list Z) (v : Z) : outcome (list Z) :=
  lp ← wr lp 0 (Z.land v 0xff);
  lp ← wr lp 1 (Z.land (Z.shiftr v 8) 0xff);
  lp ← wr lp 2 (Z.land (Z.shiftr v 16) 0xff);
  wr lp 3 (Z.land (Z.shiftr v 24) 0xff).
Definition lpSetNumElements (lp : list Z) (v : Z) : outcome (list Z) :=
  lp ← wr lp 4 (Z.land v 0xff);
  wr lp 5 (Z.land (Z.shiftr v 8) 0xff).

Definition ASSERT_INTEGRITY (lp : list Z) (p : Z) : outcome unit :=
  t ← lpGetTotalBytes lp; c_assert ((LP_HDR_SIZE <=? p) && (p <? t)).
Definition ASSERT_INTEGRITY_LEN (lp : list Z) (p len : Z) : outcome unit :=
  t ← lpGetTotalBytes lp; c_assert ((LP_HDR_SIZE <=? p) && (p + len <? t)).

(** * Integers in strings *)

(** [while (plen < slen && p[0] >= '0' && p[0] <= '9')]; [None]: overflow. *)
Fixpoint lpStringToInt64_loop (fuel : nat) (s : list Z) (slen plen v : Z) : outcome (option (Z * Z)) :=
  if plen <? slen then
    match fuel with
    | O => OutOfFuel
    | S fuel =>
        c ← rd s plen;
        if (48 <=? c) && (c <=? 57) then
          if (2 ^ 64 - 1) / 10 <? v then Ret None
          else
            let v := u64 (v * 10) in
            if (2 ^ 64 - 1) - (c - 48) <? v then Ret None
            else lpStringToInt64_loop fuel s slen (plen + 1) (u64 (v + (c - 48)))
        else Ret (Some (plen, v))
    end
  else Ret (Some (plen, v)).

Definition lpStringToInt64 (s : list Z) (slen : Z) : outcome (option Z) :=
  if slen =? 0 then Ret None
  else
    c ← rd s 0;
    if (slen =? 1) && (c =? 48) then Ret (Some 0)
    else
      let negative := c =? 45 in
      let plen := if negative then 1 else 0 in
      if negative && (plen =? slen) then Ret None
      else
        c ← rd s plen;
        if (49 <=? c) && (c <=? 57) then
          r ← lpStringToInt64_loop (Z.to_nat slen) s slen (plen + 1) (c - 48);
          match r with
          | None => Ret None
          | Some (plen, v) =>
              if plen <? slen then Ret None
              else if negative then
                if 2 ^ 63 <? v then Ret None else Ret (Some (s64 (u64 (- v))))
              else if 2 ^ 63 - 1 <? v then Ret None else Ret (Some v)
          end
        else if (c =? 48) && (slen =? 1) then Ret (Some 0)
        else Ret None.

(** * Encoding of elements *)

(** The bytes of [intenc] for an integer. *)
Definition int_encoding (v : Z) : list Z :=
  if (0 <=? v) && (v <=? 127) then [u8 v]
  else if (-4096 <=? v) && (v <=? 4095) then
    let v := if v <? 0 then 2 ^ 13 + v else v in
    [u8 (Z.lor (Z.shiftr v 8) LP_ENCODING_13BIT_INT); Z.land v 0xff]
  else if (-32768 <=? v) && (v <=? 32767) then
    let v := if v <? 0 then 2 ^ 16 + v else v in
    [LP_ENCODING_16BIT_INT; Z.land v 0xff; u8 (Z.shiftr v 8)]
  else if (-8388608 <=? v) && (v <=? 8388607) then
    let v := if v <? 0 then 2 ^ 24 + v else v in
    [LP_ENCODING_24BIT_INT; Z.land v 0xff; Z.land (Z.shiftr v 8) 0xff; u8 (Z.shiftr v 16)]
  else if (-2147483648 <=? v) && (v <=? 2147483647) then
    let v := if v <? 0 then 2 ^ 32 + v else v in
    [LP_ENCODING_32BIT_INT; Z.land v 0xff; Z.land (Z.shiftr v 8) 0xff; Z.land (Z.shiftr v 16) 0xff;
     u8 (Z.shiftr v 24)]
  else
    let uv := u64 v in
    [LP_ENCODING_64BIT_INT; Z.land uv 0xff; Z.land (Z.shiftr uv 8) 0xff; Z.land (Z.shiftr uv 16) 0xff;
     Z.land (Z.shiftr uv 24) 0xff; Z.land (Z.shiftr uv 32) 0xff; Z.land (Z.shiftr uv 40) 0xff;
     Z.land (Z.shiftr uv 48) 0xff; u8 (Z.shiftr uv 56)].

(** [Some intenc] with [LP_ENCODING_INT], [None] with [LP_ENCODING_STRING]; and
    [enclen]. *)
Definition lpEncodeGetType (ele : list Z) : outcome (option (list Z) * Z) :=
  let size := zlen ele in
  o ← lpStringToInt64 ele size;
  match o with
  | Some v => Ret (Some (int_encoding v), zlen (int_encoding v))
  | None => Ret (None, if size <? 64 then 1 + size else if size <? 4096 then 2 + size else 5 + size)
  end.

(** The bytes written to [buf]; the function returns their number. *)
Definition lpEncodeBacklen (l : Z) : list Z :=
  if l <=? 127 then [u8 l]
  else if l <? 16383 then [u8 (Z.shiftr l 7); Z.lor (Z.land l 127) 128]
  else if l <? 2097151 then
    [u8 (Z.shiftr l 14); Z.lor (Z.land (Z.shiftr l 7) 127) 128; Z.lor (Z.land l 127) 128]
  else if l <? 268435455 then
    [u8 (Z.shiftr l 21); Z.lor (Z.land (Z.shiftr l 14) 127) 128; Z.lor (Z.land (Z.shiftr l 7) 127) 128;
     Z.lor (Z.land l 127) 128]
  else
    [u8 (Z.shiftr l 28); Z.lor (Z.land (Z.shiftr l 21) 127) 128; Z.lor (Z.land (Z.shiftr l 14) 127) 128;
     Z.lor (Z.land (Z.shiftr l 7) 127) 128; Z.lor (Z.land l 127) 128].

Fixpoint backlen_loop (fuel : nat) (lp : list Z) (p val shift : Z) : outcome Z :=
  match fuel with
  | O => OutOfFuel
  | S fuel =>
    c ← rd lp p;
    let val := Z.lor val (u64 (Z.shiftl (Z.land c 127) shift)) in
    if Z.land c 128 =? 0 then Ret val
    else
      let shift := shift + 7 in
      if 28 <? shift then Ret (2 ^ 64 - 1)
      else backlen_loop fuel lp (p - 1) val shift
  end.

Definition lpDecodeBacklen (lp : list Z) (p : Z) : outcome Z := backlen_loop 5 lp p 0 0.

(** [buf] is the block from [dst]. *)
Definition lpEncodeString (lp : list Z) (dst : Z) (s : list Z) : outcome (list Z) :=
  let len := zlen s in
  if len <? 64 then
    lp ← wr lp dst (Z.lor len LP_ENCODING_6BIT_STR);
    wrn lp (dst + 1) s
  else if len <? 4096 then
    lp ← wr lp dst (Z.lor (Z.shiftr len 8) LP_ENCODING_12BIT_STR);
    lp ← wr lp (dst + 1) (Z.land len 0xff);
    wrn lp (dst + 2) s
  else
    lp ← wr lp dst LP_ENCODING_32BIT_STR;
    lp ← wr lp (dst + 1) (Z.land len 0xff);
    lp ← wr lp (dst + 2) (Z.land (Z.shiftr len 8) 0xff);
    lp ← wr lp (dst + 3) (Z.land (Z.shiftr len 16) 0xff);
    lp ← wr lp (dst + 4) (Z.land (Z.shiftr len 24) 0xff);
    wrn lp (dst + 5) s.

(** * Sizes of encoded elements *)

Definition lpCurrentEncodedSizeUnsafe (lp : list Z) (p : Z) : outcome Z :=
  c ← rd lp p;
  if LP_ENCODING_IS_7BIT_UINT c then Ret 1
  else if LP_ENCODING_IS_6BIT_STR c then l ← LP_ENCODING_6BIT_STR_LEN lp p; Ret (u32 (1 + l))
  else if LP_ENCODING_IS_13BIT_INT c then Ret 2
  else if LP_ENCODING_IS_16BIT_INT c then Ret 3
  else if LP_ENCODING_IS_24BIT_INT c then Ret 4
  else if LP_ENCODING_IS_32BIT_INT c then Ret 5
  else if LP_ENCODING_IS_64BIT_INT c then Ret 9
  else if LP_ENCODING_IS_12BIT_STR c then l ← LP_ENCODING_12BIT_STR_LEN lp p; Ret (u32 (2 + l))
  else if LP_ENCODING_IS_32BIT_STR c then l ← LP_ENCODING_32BIT_STR_LEN lp p; Ret (u32 (5 + l))
  else if c =? LP_EOF then Ret 1
  else Ret 0.

Definition lpCurrentEncodedSizeBytes (lp : list Z) (p : Z) : outcome Z :=
  c ← rd lp p;
  Ret (if LP_ENCODING_IS_7BIT_UINT c then 1
       else if LP_ENCODING_IS_6BIT_STR c then 1
       else if LP_ENCODING_IS_13BIT_INT c then 1
       else if LP_ENCODING_IS_16BIT_INT c then 1
       else if LP_ENCODING_IS_24BIT_INT c then 1
       else if LP_ENCODING_IS_32BIT_INT c then 1
       else if LP_ENCODING_IS_64BIT_INT c then 1
       else if LP_ENCODING_IS_12BIT_STR c then 2
       else if LP_ENCODING_IS_32BIT_STR c then 5
       else if c =? LP_EOF then 1
       else 0).

Definition lpSkip (lp : list Z) (p : Z) : outcome Z :=
  entrylen ← lpCurrentEncodedSizeUnsafe lp p;
  Ret (p + (entrylen + zlen (lpEncodeBacklen entrylen))).

Definition lpBytes (lp : list Z) : outcome Z := lpGetTotalBytes lp.

(** * Validation *)

(** The result, and [*pp] after the call. *)
Definition lpValidateNext (lp : list Z) (pp : option Z) (lpbytes : Z) : outcome (bool * option Z) :=
  let OUT_OF_RANGE p := (p <? LP_HDR_SIZE) || (lpbytes - 1 <? p) in
  match pp with
  | None => Ret (false, None)
  | Some p =>
    if OUT_OF_RANGE p then Ret (false, Some p)
    else
      c ← rd lp p;
      if c =? LP_EOF then Ret (true, None)
      else
        lenbytes ← lpCurrentEncodedSizeBytes lp p;
        if lenbytes =? 0 then Ret (false, Some p)
        else if OUT_OF_RANGE (p + lenbytes) then Ret (false, Some p)
        else
          entrylen ← lpCurrentEncodedSizeUnsafe lp p;
          let encodedBacklen := zlen (lpEncodeBacklen entrylen) in
          let entrylen := entrylen + encodedBacklen in
          if OUT_OF_RANGE (p + entrylen) then Ret (false, Some p)
          else
            prevlen ← lpDecodeBacklen lp (p + entrylen - 1);
            if negb (u64 (prevlen + encodedBacklen) =? entrylen) then Ret (false, Some p)
            else Ret (true, Some (p + entrylen))
  end.

Definition lpAssertValidEntry (lp : list Z) (lpbytes p : Z) : outcome unit :=
  r ← lpValidateNext lp (Some p) lpbytes; c_assert (fst r).

(** [while(p && p[0] != LP_EOF)]: [None] when an entry is not valid. *)
Fixpoint validate_loop (fuel : nat) (lp : list Z) (bytes : Z) (p : option Z) (count : Z)
    : outcome (option (option Z * Z)) :=
  match p with
  | None => Ret (Some (None, count))
  | Some q =>
    c ← rd lp q;
    if c =? LP_EOF then Ret (Some (Some q, count))
    else
      match fuel with
      | O => OutOfFuel
      | S fuel =>
        '(ok, p) ← lpValidateNext lp (Some q) bytes;
        if negb ok then Ret None else validate_loop fuel lp bytes p (u32 (count + 1))
      end
  end.

Definition lpValidateIntegrity (lp : list Z) (size : Z) (deep : bool) : outcome bool :=
  if size <? LP_HDR_SIZE + 1 then Ret false
  else
    bytes ← lpGetTotalBytes lp;
    if negb (bytes =? size) then Ret false
    else
      c ← rd lp (size - 1);
      if negb (c =? LP_EOF) then Ret false
      else if negb deep then Ret true
      else
        r ← validate_loop (length lp) lp bytes (Some LP_HDR_SIZE) 0;
        match r with
        | None => Ret false
        | Some (p, count) =>
          if negb (bool_decide (p = Some (size - 1))) then Ret false
          else
            numele ← lpGetNumElements lp;
            if negb (numele =? LP_HDR_NUMELE_UNKNOWN) && negb (numele =? count) then Ret false
            else Ret true
        end.

Definition lpValidateFirst (lp : list Z) : outcome (option Z) :=
  c ← rd lp LP_HDR_SIZE;
  Ret (if c =? LP_EOF then None else Some LP_HDR_SIZE).

(** * Navigation *)

Definition lpNext (lp : list Z) (p : Z) : outcome (option Z) :=
  p ← lpSkip lp p;
  c ← rd lp p;
  if c =? LP_EOF then Ret None
  else
    b ← lpBytes lp;
    _ ← lpAssertValidEntry lp b p;
    Ret (Some p).

Definition lpPrev (lp : list Z) (p : Z) : outcome (option Z) :=
  if p =? LP_HDR_SIZE then Ret None
  else
    let p := p - 1 in
    prevlen ← lpDecodeBacklen lp p;
    let prevlen := u64 (prevlen + zlen (lpEncodeBacklen prevlen)) in
    let p := p - (prevlen - 1) in
    b ← lpBytes lp;
    _ ← lpAssertValidEntry lp b p;
    Ret (Some p).

Definition lpFirst (lp : list Z) : outcome (option Z) :=
  c ← rd lp LP_HDR_SIZE;
  if c =? LP_EOF then Ret None
  else
    b ← lpBytes lp;
    _ ← lpAssertValidEntry lp b LP_HDR_SIZE;
    Ret (Some LP_HDR_SIZE).

Definition lpLast (lp : list Z) : outcome (option Z) :=
  t ← lpGetTotalBytes lp; lpPrev lp (t - 1).

(** [while(p) { count++; p = lpNext(lp,p); }] *)
Fixpoint count_loop (fuel : nat) (lp : list Z) (p : option Z) (count : Z) : outcome Z :=
  match p with
  | None => Ret count
  | Some p =>
    match fuel with
    | O => OutOfFuel
    | S fuel => p ← lpNext lp p; count_loop fuel lp p (u32 (count + 1))
    end
  end.

(** The header is updated on the way. *)
Definition lpLength (lp : list Z) : outcome (list Z * Z) :=
  numele ← lpGetNumElements lp;
  if negb (numele =? LP_HDR_NUMELE_UNKNOWN) then Ret (lp, numele)
  else
    p ← lpFirst lp;
    count ← count_loop (length lp) lp p 0;
    lp ← (if count <? LP_HDR_NUMELE_UNKNOWN then lpSetNumElements lp count else Ret lp);
    Ret (lp, count).

(** [while (index > 0 && ele)] and [while (index < -1 && ele)]: [step] is
    [lpNext] or [lpPrev] and [n] the number of steps. *)
Fixpoint seek_loop (n : nat) (lp : list Z) (step : list Z → Z → outcome (option Z)) (ele : option Z)
    : outcome (option Z) :=
  match n, ele with
  | S n, Some p => ele ← step lp p; seek_loop n lp step ele
  | _, _ => Ret ele
  end.

Definition lpSeek (lp : list Z) (index : Z) : outcome (option Z) :=
  numele ← lpGetNumElements lp;
  let forward_from (lp : list Z) (index : Z) :=
    ele ← lpFirst lp; seek_loop (Z.to_nat index) lp lpNext ele in
  let backward_from (lp : list Z) (index : Z) :=
    ele ← lpLast lp; seek_loop (Z.to_nat (- 1 - index)) lp lpPrev ele in
  if negb (numele =? LP_HDR_NUMELE_UNKNOWN) then
    let index := if index <? 0 then numele + index else index in
    if index <? 0 then Ret None
    else if numele <=? index then Ret None
    else if numele / 2 <? index then backward_from lp (index - numele)
    else forward_from lp index
  else if index <? 0 then backward_from lp index
  else forward_from lp index.

(** * Access *)

(** The pointer returned: null, into the listpack, or the caller's buffer. *)
Inductive lpptr := PNull | PPack (p : Z) | PBuf.

(** [snprintf(buf, size, "%lld", v)]: the buffer and the return value. *)
Definition snprintf_lld (buf : list Z) (size v : Z) : outcome (list Z * Z) :=
  let text := dec v in
  buf ← wrn buf 0 (take (Z.to_nat (size - 1)) text ++ [0]);
  Ret (buf, zlen text).

(** The unsigned value of an integer encoding with [negstart] and [negmax]. *)
Definition get_integer (uval negstart negmax : Z) : Z :=
  if negstart <=? uval then
    let uval := u64 (negmax - uval) in
    - s64 uval - 1
  else s64 uval.

(** The pointer, [*count], and the caller's buffer. *)
Definition lpGet (lp : list Z) (p : Z) (intbuf : option (list Z)) : outcome (lpptr * Z * option (list Z)) :=
  let integer uval negstart negmax :=
    let val := get_integer uval negstart negmax in
    match intbuf with
    | Some buf => '(buf, n) ← snprintf_lld buf LP_INTBUF_SIZE val; Ret (PBuf, n, Some buf)
    | None => Ret (PNull, val, None)
    end in
  c ← rd lp p;
  if LP_ENCODING_IS_7BIT_UINT c then integer (Z.land c 0x7f) (2 ^ 64 - 1) 0
  else if LP_ENCODING_IS_6BIT_STR c then
    l ← LP_ENCODING_6BIT_STR_LEN lp p; Ret (PPack (p + 1), l, intbuf)
  else if LP_ENCODING_IS_13BIT_INT c then
    c1 ← rd lp (p + 1); integer (Z.lor (Z.shiftl (Z.land c 0x1f) 8) c1) (2 ^ 12) 8191
  else if LP_ENCODING_IS_16BIT_INT c then
    bs ← rdn lp (p + 1) 2; integer (or_bytes bs) (2 ^ 15) (2 ^ 16 - 1)
  else if LP_ENCODING_IS_24BIT_INT c then
    bs ← rdn lp (p + 1) 3; integer (or_bytes bs) (2 ^ 23) (Z.shiftr (2 ^ 32 - 1) 8)
  else if LP_ENCODING_IS_32BIT_INT c then
    bs ← rdn lp (p + 1) 4; integer (or_bytes bs) (2 ^ 31) (2 ^ 32 - 1)
  else if LP_ENCODING_IS_64BIT_INT c then
    bs ← rdn lp (p + 1) 8; integer (or_bytes bs) (2 ^ 63) (2 ^ 64 - 1)
  else if LP_ENCODING_IS_12BIT_STR c then
    l ← LP_ENCODING_12BIT_STR_LEN lp p; Ret (PPack (p + 2), l, intbuf)
  else if LP_ENCODING_IS_32BIT_STR c then
    l ← LP_ENCODING_32BIT_STR_LEN lp p; Ret (PPack (p + 5), l, intbuf)
  else integer (12345678900000000 + c) (2 ^ 64 - 1) 0.

(** * Changes *)

Section listpack.
Context {A : Allocator}.

(** A block has all the bytes [malloc_usable_size] reports. *)
Definition lp_malloc (n : Z) : list Z := zmalloc (usable_size n).
Definition lp_realloc (lp : list Z) (n : Z) : list Z := zrealloc lp (usable_size n).
Definition lp_malloc_size (lp : list Z) : Z := zlen lp.

Definition lpNew (capacity : Z) : outcome (list Z) :=
  let lp := lp_malloc (if LP_HDR_SIZE + 1 <? capacity then capacity else LP_HDR_SIZE + 1) in
  lp ← lpSetTotalBytes lp (LP_HDR_SIZE + 1);
  lp ← lpSetNumElements lp 0;
  wr lp LP_HDR_SIZE LP_EOF.

Definition lpShrinkToFit (lp : list Z) : outcome (list Z) :=
  size ← lpGetTotalBytes lp;
  Ret (if size <? lp_malloc_size lp then lp_realloc lp size else lp).

Inductive lpwhere := LP_BEFORE | LP_AFTER | LP_REPLACE.

(** [None]: a null pointer is returned.  The second part is [*newp]. *)
Definition lpInsert (lp : list Z) (ele : option (list Z)) (p : Z) (where_ : lpwhere)
    : outcome (option (list Z * option Z)) :=
  let where_ := match ele with None => LP_REPLACE | Some _ => where_ end in
  '(p, replace) ← (match where_ with
                   | LP_AFTER => p ← lpSkip lp p; _ ← ASSERT_INTEGRITY lp p; Ret (p, false)
                   | LP_BEFORE => Ret (p, false)
                   | LP_REPLACE => Ret (p, true)
                   end);
  let poff := p in
  '(intenc, enclen, backlen) ← (match ele with
                                | Some ele =>
                                  '(intenc, enclen) ← lpEncodeGetType ele;
                                  Ret (intenc, enclen, lpEncodeBacklen enclen)
                                | None => Ret (None, 0, [])
                                end);
  let backlen_size := zlen backlen in
  old_listpack_bytes ← lpGetTotalBytes lp;
  replaced_len ← (if replace : bool then
                    l ← lpCurrentEncodedSizeUnsafe lp p;
                    let l := u32 (l + zlen (lpEncodeBacklen l)) in
                    _ ← ASSERT_INTEGRITY_LEN lp p l;
                    Ret l
                  else Ret 0);
  let new_listpack_bytes := u64 (old_listpack_bytes + enclen + backlen_size - replaced_len) in
  if 2 ^ 32 - 1 <? new_listpack_bytes then Ret None
  else
    let lp := if (old_listpack_bytes <? new_listpack_bytes) && (lp_malloc_size lp <? new_listpack_bytes)
              then lp_realloc lp new_listpack_bytes else lp in
    let dst := poff in
    lp ← (if negb replace then
            memmove lp (dst + enclen + backlen_size) dst (old_listpack_bytes - poff)
          else
            let lendiff := s64 (u64 (enclen + backlen_size - replaced_len)) in
            memmove lp (dst + replaced_len + lendiff) (dst + replaced_len)
              (old_listpack_bytes - poff - replaced_len));
    let lp := if new_listpack_bytes <? old_listpack_bytes then lp_realloc lp new_listpack_bytes else lp in
    newp ← (match ele with
            | None => c ← rd lp dst; Ret (if c =? LP_EOF then None else Some dst)
            | Some _ => Ret (Some dst)
            end);
    lp ← (match ele with
          | Some ele =>
            lp ← (match intenc with
                  | Some intenc => wrn lp dst intenc
                  | None => lpEncodeString lp dst ele
                  end);
            wrn lp (dst + enclen) backlen
          | None => Ret lp
          end);
    lp ← (if negb replace || match ele with None => true | Some _ => false end then
            num_elements ← lpGetNumElements lp;
            if negb (num_elements =? LP_HDR_NUMELE_UNKNOWN) then
              match ele with
              | Some _ => lpSetNumElements lp (num_elements + 1)
              | None => lpSetNumElements lp (num_elements - 1)
              end
            else Ret lp
          else Ret lp);
    lp ← lpSetTotalBytes lp new_listpack_bytes;
    Ret (Some (lp, newp)).

Definition lpAppend (lp : list Z) (ele : list Z) : outcome (option (list Z * option Z)) :=
  listpack_bytes ← lpGetTotalBytes lp;
  lpInsert lp (Some ele) (listpack_bytes - 1) LP_BEFORE.

Definition lpDelete (lp : list Z) (p : Z) : outcome (option (list Z * option Z)) :=
  lpInsert lp None p LP_REPLACE.

End listpack.
End Listpack.
