(* ===== verification/ListpackRep.v ===== *)
(** Listpacks: the elements a block holds, and what the decoding functions
    return at an element. *)
From S2P Require Import Prelude Util Listpack.

Module ListpackRep.
Import Util Listpack.

(** * Elements *)

Inductive lpval := VInt (v : Z) | VStr (bs : list Z).

(** An element as a string. *)
Definition text (v : lpval) : list Z := match v with VInt v => dec v | VStr bs => bs end.

(** The integer encodings with a type byte, and the bytes they take. *)
Definition int_type (t n : Z) : Prop := t = 0xF1 ∧ n = 2 ∨ t = 0xF2 ∧ n = 3 ∨ t = 0xF3 ∧ n = 4 ∨ t = 0xF4 ∧ n = 8.

(** The encodings of an element, without the length that follows it. *)
Inductive encodes : list Z → lpval → Prop :=
  | en_uint7 c : 0 <= c < 128 → encodes [c] (VInt c)
  | en_str6 bs : zlen bs < 64 → encodes (128 + zlen bs :: bs) (VStr bs)
  | en_int13 h l : 0 <= h < 32 → 0 <= l < 256 → encodes [192 + h; l] (VInt (wraps 13 (256 * h + l)))
  | en_str12 h l bs : 0 <= h < 16 → 0 <= l < 256 → zlen bs = 256 * h + l → encodes (224 + h :: l :: bs) (VStr bs)
  | en_int t bs : int_type t (zlen bs) → encodes (t :: bs) (VInt (wraps (8 * zlen bs) (le_dec bs)))
  | en_str32 l4 bs : zlen l4 = 4 → le_dec l4 = zlen bs → encodes (0xF0 :: l4 ++ bs) (VStr bs).

(** An element with the bytes of the length behind it. *)
Abbreviation entry := (list Z * list Z)%type.
Definition bytes_of (x : entry) : list Z := x.1 ++ x.2.
Definition body (xs : list entry) : list Z := concat (bytes_of <$> xs).

(** The length can be read backwards from its end, without leaving the entry. *)
Record entry_ok (x : entry) (v : lpval) : Prop := {
  eo_bytes : bytes_ok (bytes_of x);
  eo_encodes : encodes x.1 v;
  eo_size : zlen x.2 = zlen (lpEncodeBacklen (zlen x.1));
  eo_back : lpDecodeBacklen (bytes_of x) (zlen (bytes_of x) - 1) = Ret (zlen x.1);
}.

(** A block: the header, the entries, the end mark and what is left of the
    allocation. *)
Definition layout (total num : Z) (xs : list entry) (slack : list Z) : list Z :=
  le_enc 4 total ++ le_enc 2 num ++ body xs ++ LP_EOF :: slack.

Definition num_ok (num : Z) (n : Z) : Prop := num = LP_HDR_NUMELE_UNKNOWN ∨ num = n ∧ n < LP_HDR_NUMELE_UNKNOWN.

(** Where the entry behind [xs] starts. *)
Definition pos (xs : list entry) : Z := LP_HDR_SIZE + zlen (body xs).

Record rep (lp : list Z) (xs : list entry) (vs : list lpval) : Prop := {
  rep_block : ∃ num slack, lp = layout (pos xs + 1) num xs slack ∧ num_ok num (zlen xs);
  rep_total : pos xs + 1 < 2 ^ 32;
  rep_entries : Forall2 entry_ok xs vs;
}.

(** * Bytes *)

Lemma or_bytes_le bs : bytes_ok bs → or_bytes bs = le_dec bs.
Proof.
  induction 1 as [|c bs Hc _ IH]; [done|]. cbn [or_bytes]. change (le_dec (c :: bs)) with (c + 256 * le_dec bs).
  rewrite IH, Z.lor_comm, lor_shiftl by (unfold is_byte in Hc; lia). lia.
Qed.

(** The class of an encoding is the range of its first byte. *)
Lemma enc_class c : is_byte c →
  LP_ENCODING_IS_7BIT_UINT c = (c <? 128) ∧ LP_ENCODING_IS_6BIT_STR c = ((128 <=? c) && (c <? 192)) ∧
  LP_ENCODING_IS_13BIT_INT c = ((192 <=? c) && (c <? 224)) ∧ LP_ENCODING_IS_12BIT_STR c = ((224 <=? c) && (c <? 240)) ∧
  LP_ENCODING_IS_32BIT_STR c = (c =? 0xF0) ∧ LP_ENCODING_IS_16BIT_INT c = (c =? 0xF1) ∧
  LP_ENCODING_IS_24BIT_INT c = (c =? 0xF2) ∧ LP_ENCODING_IS_32BIT_INT c = (c =? 0xF3) ∧
  LP_ENCODING_IS_64BIT_INT c = (c =? 0xF4).
Proof.
  intros Hc. split_and!; apply eqb_prop; revert c Hc; apply all_bytes; vm_compute; reflexivity.
Qed.

(** The low bits of the first byte. *)
Lemma low_bits c : is_byte c →
  Z.land c 0x7f = c mod 128 ∧ Z.land c 0x3F = c mod 64 ∧ Z.land c 0x1f = c mod 32 ∧ Z.land c 0xF = c mod 16.
Proof.
  intros _. split_and!; [apply (Z.land_ones c 7)|apply (Z.land_ones c 6)|apply (Z.land_ones c 5)|apply (Z.land_ones c 4)]; lia.
Qed.

(** * Lengths behind the entries *)

Lemma seven_bits m : 0 <= m < 128 →
  Z.land m 127 = m ∧ Z.land m 128 = 0 ∧ Z.land (Z.lor m 128) 127 = m ∧ Z.land (Z.lor m 128) 128 = 128 ∧
  Z.lor m 128 = m + 128.
Proof.
  intros Hm. assert (Hb : is_byte m) by (unfold is_byte; lia).
  assert (H : ∀ c, is_byte c → (128 <=? c) || ((Z.land c 127 =? c) && (Z.land c 128 =? 0) &&
    (Z.land (Z.lor c 128) 127 =? c) && (Z.land (Z.lor c 128) 128 =? 128) && (Z.lor c 128 =? c + 128)) = true).
  { apply all_bytes. vm_compute. reflexivity. }
  specialize (H m Hb). lia.
Qed.

Lemma backlen_step lp p m val shift f :
  rd lp p = Ret (Z.lor m 128) → 0 <= m < 128 → 0 <= val < 2 ^ shift → 0 <= shift <= 21 →
  backlen_loop (S f) lp p val shift = backlen_loop f lp (p - 1) (val + m * 2 ^ shift) (shift + 7).
Proof.
  intros R Hm Hv Hs. destruct (seven_bits m Hm) as (_ & _ & E1 & E2 & _). cbn [backlen_loop].
  rewrite R. run. rewrite E1, E2. cbn [Z.eqb]. test (28 <? shift + 7) false.
  rewrite wrapu_id, Z.lor_comm, lor_shiftl by (rewrite ?Z.shiftl_mul_pow2 by lia;
    pose proof (Z.pow_le_mono_r 2 shift 21); nia). f_equal. lia.
Qed.

Lemma backlen_stop lp p m val shift f :
  rd lp p = Ret m → 0 <= m < 128 → 0 <= val < 2 ^ shift → 0 <= shift <= 28 →
  backlen_loop (S f) lp p val shift = Ret (val + m * 2 ^ shift).
Proof.
  intros R Hm Hv Hs. destruct (seven_bits m Hm) as (E1 & E2 & _). cbn [backlen_loop].
  rewrite R. run. rewrite E1, E2. cbn [Z.eqb].
  rewrite wrapu_id, Z.lor_comm, lor_shiftl by (rewrite ?Z.shiftl_mul_pow2 by lia;
    pose proof (Z.pow_le_mono_r 2 shift 28); nia). f_equal. lia.
Qed.

(** What is read inside a block is read inside a larger one. *)
Lemma rd_inside a b c p v : rd b p = Ret v → rd (a ++ b ++ c) (zlen a + p) = Ret v.
Proof.
  intros (Hp & Hb)%rd_inv. unfold rd. pose proof (zlen_nonneg a). test (0 <=? zlen a + p) true.
  rewrite lookup_app_r by zl. rewrite lookup_app_l by zl.
  replace (Z.to_nat (zlen a + p) - length a)%nat with (Z.to_nat p) by zl. by rewrite Hb.
Qed.

Lemma backlen_inside a b c f p val shift v :
  backlen_loop f b p val shift = Ret v → backlen_loop f (a ++ b ++ c) (zlen a + p) val shift = Ret v.
Proof.
  revert p val shift. induction f as [|f IH]; intros p val shift; cbn [backlen_loop]; [done|].
  destruct (rd b p) as [x| | |] eqn:R; [|done..]. rewrite (rd_inside a b c p x R). run.
  destruct (Z.land x 128 =? 0); [done|]. case_cond; [done|].
  replace (zlen a + p - 1) with (zlen a + (p - 1)) by lia. apply IH.
Qed.

Lemma land_127 v : Z.land v 127 = v mod 128.
Proof. apply (Z.land_ones v 7). lia. Qed.

(** Groups of seven bits, the lowest first, and the highest one. *)
Fixpoint groups (ds : list Z) (h : Z) : Z := match ds with [] => h | d :: ds => d + 128 * groups ds h end.

Lemma backlen_chain ds pre post h val shift f :
  Forall (λ d, 0 <= d < 128) ds → 0 <= h < 128 → 0 <= val < 2 ^ shift → 0 <= shift → shift + 7 * zlen ds <= 28 →
  (length ds < f)%nat →
  backlen_loop f (pre ++ h :: reverse ((λ d, Z.lor d 128) <$> ds) ++ post) (zlen pre + zlen ds) val shift =
    Ret (val + groups ds h * 2 ^ shift).
Proof.
  intros HD Hh. revert post val shift f. induction HD as [|d ds Hd _ IH]; intros post val shift f Hv Hs Hsh Hf;
    (destruct f as [|f]; [cbn in Hf; lia|]).
  - apply backlen_stop; [|done|done|zlr; lia]. apply (rd_at _ _ _ pre ([] ++ post)); [done|zlr; lia].
  - cbn [fmap list_fmap groups]. rewrite reverse_cons, <- app_assoc. cbn [app]. zlr. pose proof (zlen_nonneg ds).
    rewrite (backlen_step _ _ d); [|eapply (rd_at _ _ _ (pre ++ h :: reverse ((λ d, Z.lor d 128) <$> ds)))|lia..].
    + replace (zlen pre + (1 + zlen ds) - 1) with (zlen pre + zlen ds) by lia.
      rewrite IH; [|split; [nia|]|lia|lia|cbn in Hf; lia].
      * f_equal. rewrite Z.pow_add_r by lia. lia.
      * rewrite Z.pow_add_r by lia. pose proof (Z.pow_pos_nonneg 2 shift). nia.
    + by rewrite <- app_assoc.
    + zlr. unfold zlen. rewrite length_reverse, length_fmap. lia.
Qed.

(** The bytes of a length are its groups. *)
Lemma backlen_groups l : 0 <= l < 2 ^ 35 →
  ∃ h ds, lpEncodeBacklen l = h :: reverse ((λ d, Z.lor d 128) <$> ds) ∧ 0 <= h < 128 ∧
    Forall (λ d, 0 <= d < 128) ds ∧ (length ds < 5)%nat ∧ groups ds h = l.
Proof.
  intros Hl. unfold lpEncodeBacklen. rewrite !land_127, !Z.shiftr_div_pow2 by lia.
  change (2 ^ 7) with 128. change (2 ^ 14) with (128 * 128). change (2 ^ 21) with (128 * 128 * 128).
  change (2 ^ 28) with (128 * 128 * 128 * 128). rewrite <- !Z.div_div by lia.
  dm l 128. set (l1 := l / 128) in *. dm l1 128. set (l2 := l1 / 128) in *. dm l2 128. set (l3 := l2 / 128) in *.
  dm l3 128. set (l4 := l3 / 128) in *.
  repeat case_cond; rewrite wrapu_id by (change (2 ^ 8) with 256; lia).
  - exists l, []. split_and!; [done|lia..|constructor|cbn; lia|done].
  - exists l1, [l mod 128]. split_and!; [done|lia..|repeat constructor; lia|cbn; lia|cbn; lia].
  - exists l2, [l mod 128; l1 mod 128]. split_and!; [done|lia..|repeat constructor; lia|cbn; lia|cbn; lia].
  - exists l3, [l mod 128; l1 mod 128; l2 mod 128]. split_and!; [done|lia..|repeat constructor; lia|cbn; lia|cbn; lia].
  - exists l4, [l mod 128; l1 mod 128; l2 mod 128; l3 mod 128].
    split_and!; [done|lia..|repeat constructor; lia|cbn; lia|cbn; lia].
Qed.

(** The length that is written is read back from its last byte. *)
Lemma backlen_roundtrip pre l : 0 <= l < 2 ^ 35 →
  let bl := lpEncodeBacklen l in
  bytes_ok bl ∧ 1 <= zlen bl <= 5 ∧ lpDecodeBacklen (pre ++ bl) (zlen (pre ++ bl) - 1) = Ret l.
Proof.
  intros (h & ds & -> & Hh & HD & HL & <-)%backlen_groups. split_and!.
  - constructor; [unfold is_byte; lia|]. apply Forall_reverse, Forall_fmap. eapply Forall_impl; [done|].
    intros d Hd. destruct (seven_bits d Hd) as (_ & _ & _ & _ & E). cbn in Hd |- *. unfold is_byte, compose. rewrite E. lia.
  - zlr. unfold zlen. lia.
  - unfold zlen. cbn. rewrite length_reverse, length_fmap. lia.
  - unfold lpDecodeBacklen. pose proof (backlen_chain ds pre [] h 0 0 5 HD Hh ltac:(done) ltac:(done)) as E.
    rewrite app_nil_r in E. replace (zlen (pre ++ _) - 1) with (zlen pre + zlen ds).
    + rewrite E by (unfold zlen; lia). f_equal. change (2 ^ 0) with 1. lia.
    + zlr. unfold zlen. rewrite length_reverse, length_fmap. lia.
Qed.

(** * Reading an element *)

(** The tests on the first byte decide which encoding it is. *)
Ltac classify c Hc :=
  let E7 := fresh in let E6 := fresh in let E13 := fresh in let E12 := fresh in let E32 := fresh in
  let I16 := fresh in let I24 := fresh in let I32 := fresh in let I64 := fresh in
  destruct (enc_class c Hc) as (E7 & E6 & E13 & E12 & E32 & I16 & I24 & I32 & I64);
  rewrite ?E7, ?E6, ?E13, ?E12, ?E32, ?I16, ?I24, ?I32, ?I64;
  clear E7 E6 E13 E12 E32 I16 I24 I32 I64.

(** Evaluate the tests of the goal that arithmetic decides. *)
Ltac decide_tests :=
  repeat match goal with
  | |- context [if ?b then _ else _] =>
      first [ replace b with true by (symmetry; lia) | replace b with false by (symmetry; lia) ]
  end.

Lemma encodes_cons e v : encodes e v → bytes_ok e → ∃ c e', e = c :: e' ∧ is_byte c ∧ c ≠ 255.
Proof.
  intros H Hb. inversion H as [? ?|? ?|? ? ? ?|? ? ? ? ? ?|? ? Ht|? ? ? ?]; subst; eexists _, _; (split; [done|]);
    apply Forall_cons in Hb as [Hc _]; (split; [done|]); unfold is_byte, int_type in *;
    try pose proof (zlen_nonneg bs); lia.
Qed.

(** The lengths a string encoding has. *)
Lemma str_len6 a c e' : is_byte c → LP_ENCODING_6BIT_STR_LEN (a ++ c :: e') (zlen a) = Ret (c mod 64).
Proof.
  intros Hc. unfold LP_ENCODING_6BIT_STR_LEN. rewrite rd_app by done. run.
  by destruct (low_bits c Hc) as (_ & -> & _).
Qed.

Lemma str_len12 a c l e' : is_byte c → is_byte l →
  LP_ENCODING_12BIT_STR_LEN (a ++ c :: l :: e') (zlen a) = Ret (256 * (c mod 16) + l).
Proof.
  intros Hc Hl. unfold LP_ENCODING_12BIT_STR_LEN. rewrite (rd_app a c (l :: e') _ eq_refl). run.
  rewrite (rd_at _ _ l (a ++ [c]) e') by (try (by rewrite <- app_assoc); zlr; lia). run.
  destruct (low_bits c Hc) as (_ & _ & _ & ->). rewrite lor_shiftl by (unfold is_byte in *; lia). f_equal. lia.
Qed.

Lemma str_len32 a c l4 e' : zlen l4 = 4 → bytes_ok l4 →
  LP_ENCODING_32BIT_STR_LEN (a ++ c :: l4 ++ e') (zlen a) = Ret (le_dec l4).
Proof.
  intros H4 Hb. unfold LP_ENCODING_32BIT_STR_LEN.
  rewrite (rdn_at _ _ _ l4 (a ++ [c]) e') by (try (by rewrite <- app_assoc); zlr; lia). run.
  by rewrite or_bytes_le.
Qed.

(** The first byte, and how the functions branch on it. *)
Lemma size_class a c0 e' : is_byte c0 →
  lpCurrentEncodedSizeUnsafe (a ++ c0 :: e') (zlen a) =
    (if c0 <? 128 then Ret 1
     else if c0 <? 192 then l ← LP_ENCODING_6BIT_STR_LEN (a ++ c0 :: e') (zlen a); Ret (u32 (1 + l))
     else if c0 <? 224 then Ret 2
     else if c0 <? 240 then l ← LP_ENCODING_12BIT_STR_LEN (a ++ c0 :: e') (zlen a); Ret (u32 (2 + l))
     else if c0 =? 0xF0 then l ← LP_ENCODING_32BIT_STR_LEN (a ++ c0 :: e') (zlen a); Ret (u32 (5 + l))
     else if c0 =? 0xF1 then Ret 3 else if c0 =? 0xF2 then Ret 4 else if c0 =? 0xF3 then Ret 5
     else if c0 =? 0xF4 then Ret 9 else if c0 =? 0xFF then Ret 1 else Ret 0) ∧
  lpCurrentEncodedSizeBytes (a ++ c0 :: e') (zlen a) =
    Ret (if c0 <? 224 then 1 else if c0 <? 240 then 2 else if c0 =? 0xF0 then 5
         else if (c0 <=? 0xF4) || (c0 =? 0xFF) then 1 else 0).
Proof.
  intros Hc. unfold lpCurrentEncodedSizeUnsafe, lpCurrentEncodedSizeBytes, LP_EOF.
  rewrite !(rd_app a c0 e' _ eq_refl). run. classify c0 Hc.
  split; repeat case_cond; try done; lia.
Qed.

Lemma size_at a e v c : encodes e v → bytes_ok e → zlen e < 2 ^ 32 →
  lpCurrentEncodedSizeUnsafe (a ++ e ++ c) (zlen a) = Ret (zlen e) ∧
  ∃ k, lpCurrentEncodedSizeBytes (a ++ e ++ c) (zlen a) = Ret k ∧ 1 <= k <= zlen e.
Proof.
  intros H Hb HL. destruct (encodes_cons e v H Hb) as (c0 & e' & -> & Hc & _). cbn [app].
  destruct (size_class a c0 (e' ++ c) Hc) as [-> ->].
  inversion H as [x Hx|bs Hx|h l Hh Hl|h l bs Hh Hl HB|t bs Ht|l4 bs H4 HB]; subst; zlr;
    try pose proof (zlen_nonneg e'); try pose proof (zlen_nonneg bs); unfold is_byte in Hc.
  - decide_tests. split; [f_equal; lia|]. eexists. split; [done|]. lia.
  - decide_tests. rewrite str_len6 by done. run. rewrite wrapu_id by (dm (128 + zlen e') 64; lia).
    split; [f_equal; dm (128 + zlen e') 64; lia|]. eexists. split; [done|]. lia.
  - decide_tests. split; [done|]. eexists. split; [done|]. lia.
  - decide_tests. cbn [app]. rewrite str_len12 by done. run.
    rewrite wrapu_id by (dm (224 + h) 16; lia). split; [f_equal; dm (224 + h) 16; lia|]. eexists. split; [done|]. lia.
  - unfold int_type in Ht. split; [|eexists; split; [done|]; repeat case_cond; lia].
    destruct Ht as [[-> E]|[[-> E]|[[-> E]|[-> E]]]]; cbn; f_equal; lia.
  - decide_tests. apply Forall_cons in Hb as [_ Hb]. apply Forall_app in Hb as [Hb4 _].
    rewrite <- app_assoc, str_len32 by done. run. rewrite HB, wrapu_id by lia.
    split; [f_equal; lia|]. eexists. split; [done|]. lia.
Qed.

Lemma get_integer_wraps n u : 1 <= n <= 64 → 0 <= u < 2 ^ n → get_integer u (2 ^ (n - 1)) (2 ^ n - 1) = wraps n u.
Proof.
  intros Hn Hu. unfold get_integer. pose proof (Z.pow_le_mono_r 2 n 64 ltac:(lia) ltac:(lia)) as HM.
  assert (E : 2 ^ n = 2 * 2 ^ (n - 1)) by (rewrite <- Z.pow_succ_r by lia; f_equal; lia).
  pose proof (Z.pow_le_mono_r 2 (n - 1) 63 ltac:(lia) ltac:(lia)). change (2 ^ 64) with (2 * 2 ^ 63) in HM.
  unfold wraps at 3. case_cond.
  - rewrite wrapu_id by lia. rewrite wraps_id by (change (64 - 1) with 63; lia).
    rewrite <- (Z.mod_unique_pos (u + 2 ^ (n - 1)) (2 ^ n) 1 (u + 2 ^ (n - 1) - 2 ^ n)) by lia. lia.
  - rewrite wraps_id by (change (64 - 1) with 63; lia). rewrite Z.mod_small by lia. lia.
Qed.

(** The integer a function returns, directly or printed into the buffer. *)
Definition int_result (n : Z) (buf : option (list Z)) : outcome (lpptr * Z * option (list Z)) :=
  match buf with
  | Some b => '(b, k) ← snprintf_lld b LP_INTBUF_SIZE n; Ret (PBuf, k, Some b)
  | None => Ret (PNull, n, None)
  end.

Lemma get_class a c0 e' buf : is_byte c0 → let lp := a ++ c0 :: e' in let p := zlen a in
  lpGet lp p buf =
    (if c0 <? 128 then int_result (get_integer (Z.land c0 0x7f) (2 ^ 64 - 1) 0) buf
     else if c0 <? 192 then l ← LP_ENCODING_6BIT_STR_LEN lp p; Ret (PPack (p + 1), l, buf)
     else if c0 <? 224 then
       c1 ← rd lp (p + 1); int_result (get_integer (Z.lor (Z.shiftl (Z.land c0 0x1f) 8) c1) (2 ^ 12) 8191) buf
     else if c0 <? 240 then l ← LP_ENCODING_12BIT_STR_LEN lp p; Ret (PPack (p + 2), l, buf)
     else if c0 =? 0xF0 then l ← LP_ENCODING_32BIT_STR_LEN lp p; Ret (PPack (p + 5), l, buf)
     else if c0 =? 0xF1 then bs ← rdn lp (p + 1) 2; int_result (get_integer (or_bytes bs) (2 ^ 15) (2 ^ 16 - 1)) buf
     else if c0 =? 0xF2 then
       bs ← rdn lp (p + 1) 3; int_result (get_integer (or_bytes bs) (2 ^ 23) (Z.shiftr (2 ^ 32 - 1) 8)) buf
     else if c0 =? 0xF3 then bs ← rdn lp (p + 1) 4; int_result (get_integer (or_bytes bs) (2 ^ 31) (2 ^ 32 - 1)) buf
     else if c0 =? 0xF4 then bs ← rdn lp (p + 1) 8; int_result (get_integer (or_bytes bs) (2 ^ 63) (2 ^ 64 - 1)) buf
     else int_result (get_integer (12345678900000000 + c0) (2 ^ 64 - 1) 0) buf).
Proof.
  intros Hc lp p. unfold lp, p, lpGet. rewrite !(rd_app a c0 e' _ eq_refl). run. classify c0 Hc.
  repeat case_cond; try done; lia.
Qed.

Lemma get_at a e v c buf : encodes e v → bytes_ok e →
  lpGet (a ++ e ++ c) (zlen a) buf =
    match v with
    | VInt n => int_result n buf
    | VStr bs => Ret (PPack (zlen a + (zlen e - zlen bs)), zlen bs, buf)
    end.
Proof.
  intros H Hb. destruct (encodes_cons e v H Hb) as (c0 & e' & -> & Hc & _). cbn [app].
  rewrite (get_class a c0 (e' ++ c) buf Hc). pose proof (Forall_cons_1 _ _ _ Hb) as [_ Hb'].
  destruct (low_bits c0 Hc) as (L7 & _ & L5 & _).
  inversion H as [x Hx|bs Hx|h l Hh Hl|h l bs Hh Hl HB|t bs Ht|l4 bs H4 HB]; subst; zlr;
    try pose proof (zlen_nonneg bs); try pose proof (zlen_nonneg e'); unfold is_byte in Hc.
  - decide_tests. rewrite L7, Z.mod_small by lia. unfold get_integer. decide_tests.
    by rewrite wraps_id by (change (64 - 1) with 63; lia).
  - decide_tests. rewrite str_len6 by done. run.
    replace ((128 + zlen e') mod 64) with (zlen e') by (dm (128 + zlen e') 64; lia). by repeat f_equal; lia.
  - decide_tests. cbn [app]. rewrite (rd_at _ _ l (a ++ [192 + h]) c) by (try (by rewrite <- app_assoc); zlr; lia). run.
    rewrite L5, lor_shiftl by lia. change (2 ^ 12) with (2 ^ (13 - 1)). change 8191 with (2 ^ 13 - 1).
    rewrite get_integer_wraps; [|lia|dm (192 + h) 32; change (2 ^ 8) with 256; change (2 ^ 13) with 8192; lia].
    do 2 f_equal. dm (192 + h) 32. change (2 ^ 8) with 256. lia.
  - decide_tests. cbn [app]. rewrite str_len12 by done. run.
    rewrite HB. replace ((224 + h) mod 16) with h by (dm (224 + h) 16; lia). by repeat f_equal; lia.
  - pose proof (le_dec_range e' Hb') as H1.
    assert (R : rdn (a ++ c0 :: e' ++ c) (zlen a + 1) (zlen e') = Ret e').
    { apply (rdn_at _ _ _ e' (a ++ [c0]) c); [by rewrite <- app_assoc|zlr; lia|done]. }
    unfold int_type in Ht.
    destruct Ht as [[-> E]|[[-> E]|[[-> E]|[-> E]]]]; cbn [Z.ltb Z.eqb Z.compare Pos.compare Pos.compare_cont Pos.eqb];
      rewrite E in *; rewrite R; run; rewrite or_bytes_le by done; f_equal.
    + exact (get_integer_wraps 16 _ ltac:(lia) H1).
    + exact (get_integer_wraps 24 _ ltac:(lia) H1).
    + exact (get_integer_wraps 32 _ ltac:(lia) H1).
    + exact (get_integer_wraps 64 _ ltac:(lia) H1).
  - decide_tests. apply Forall_app in Hb' as [Hb4 _].
    rewrite <- app_assoc, str_len32 by done. run. rewrite HB. by repeat f_equal; lia.
Qed.

(** Integers have 64 bits, and strings are where the pointer says. *)
Lemma encodes_int e n : encodes e (VInt n) → int64 n.
Proof.
  assert (W : ∀ k u, 0 < k <= 64 → int64 (wraps k u)).
  { intros k u Hk. pose proof (wraps_range k u ltac:(lia)).
    pose proof (Z.pow_le_mono_r 2 (k - 1) 63 ltac:(lia) ltac:(lia)). unfold int64, LLONG_MIN, LLONG_MAX. lia. }
  intros H. inversion H as [x Hx| |h l Hh Hl| |t bs Ht|]; subst.
  - unfold int64, LLONG_MIN, LLONG_MAX. lia.
  - apply W. lia.
  - apply W. unfold int_type in Ht. lia.
Qed.

Lemma encodes_str e bs : encodes e (VStr bs) → ∃ h, e = h ++ bs.
Proof.
  intros H. inversion H; subst; [by exists [128 + zlen bs]|by exists [224 + h; l]|by exists (0xF0 :: l4)].
Qed.

Lemma dec_len n : int64 n → zlen (dec n) <= 20.
Proof.
  unfold int64, LLONG_MIN, LLONG_MAX. intros Hn.
  assert (U : ∀ u, 0 <= u <= 2 ^ 63 → zlen (udec u) <= 19).
  { intros u Hu. rewrite <- digits10_udec by lia. destruct (digits10_count u ltac:(lia)) as (_ & _ & [->|H]); [done|].
    destruct (Z.le_gt_cases (digits10 u) 19) as [|HG]; [done|].
    pose proof (Z.pow_le_mono_r 10 19 (digits10 u - 1) ltac:(lia) ltac:(lia)). lia. }
  unfold dec. case_cond; zlr; [pose proof (U (- n))|pose proof (U n)]; lia.
Qed.

Lemma int_result_text n b : int64 n → 21 <= zlen b →
  ∃ b', int_result n (Some b) = Ret (PBuf, zlen (dec n), Some (dec n ++ 0 :: b')).
Proof.
  intros Hn Hb. pose proof (dec_len n Hn) as HL. pose proof (zlen_nonneg (dec n)).
  destruct (zsplit (zlen (dec n) + 1) b) as (m & r & -> & Hm & _); [lia|]. exists r.
  unfold int_result, snprintf_lld, LP_INTBUF_SIZE. rewrite take_ge by (unfold zlen in HL; lia).
  rewrite wrn_app0 by (zlr; lia). run. by rewrite <- app_assoc.
Qed.

End ListpackRep.
