(* ===== verification/ListpackNav.v ===== *)
(** Listpacks: the header and the walks over the entries.

    A block is [valid] when the length behind every entry reads back where it
    is: this is what the code checks of a block it did not write.  A block the
    code wrote satisfies the stronger [rep]. *)
From S2P Require Import Prelude Util Listpack ListpackRep.

Module ListpackNav.
Import Util Listpack ListpackRep.

Definition entry_shape (x : entry) (v : lpval) : Prop :=
  encodes x.1 v ∧ zlen x.2 = zlen (lpEncodeBacklen (zlen x.1)).

(** The pointer to the entry of an index, null outside the list. *)
Definition index_ptr (xs : list entry) (i : Z) : option Z :=
  if (0 <=? i) && (i <? zlen xs) then Some (pos (take (Z.to_nat i) xs)) else None.

Record valid (lp : list Z) (xs : list entry) (vs : list lpval) : Prop := {
  va_block : ∃ num slack, lp = layout (pos xs + 1) num xs slack ∧ num_ok num (zlen xs);
  va_bytes : bytes_ok (body xs);
  va_total : pos xs + 1 < 2 ^ 32;
  va_entries : Forall2 entry_shape xs vs;
  va_back : ∀ xs1 x xs2, xs = xs1 ++ x :: xs2 → lpDecodeBacklen lp (pos (xs1 ++ [x]) - 1) = Ret (zlen x.1);
}.

(** * The header *)

Lemma zlen_le4 v : zlen (le_enc 4 v) = 4.
Proof. done. Qed.

Lemma zlen_le2 v : zlen (le_enc 2 v) = 2.
Proof. done. Qed.

#[local] Hint Rewrite zlen_le4 zlen_le2 : zlen.

Lemma get_total total r : 0 <= total < 2 ^ 32 → lpGetTotalBytes (le_enc 4 total ++ r) = Ret total.
Proof.
  intros Ht. unfold lpGetTotalBytes. rewrite rdn_app0 by done. run.
  rewrite or_bytes_le, le_dec_enc by apply le_enc_bytes. by rewrite Z.mod_small.
Qed.

Lemma get_num t4 num r : zlen t4 = 4 → 0 <= num < 2 ^ 16 → lpGetNumElements (t4 ++ le_enc 2 num ++ r) = Ret num.
Proof.
  intros H4 Hn. unfold lpGetNumElements. rewrite (rdn_at _ _ _ (le_enc 2 num) t4 r) by done. run.
  rewrite or_bytes_le, le_dec_enc by apply le_enc_bytes. by rewrite Z.mod_small.
Qed.

Lemma le_enc2 v : le_enc 2 v = [Z.land v 0xff; Z.land (Z.shiftr v 8) 0xff].
Proof. cbn [le_enc]. by rewrite !land_255, Z.shiftr_div_pow2. Qed.

Lemma le_enc4 v :
  le_enc 4 v = [Z.land v 0xff; Z.land (Z.shiftr v 8) 0xff; Z.land (Z.shiftr v 16) 0xff; Z.land (Z.shiftr v 24) 0xff].
Proof.
  change (le_enc 4 v) with [v mod 256; v / 256 mod 256; v / 256 / 256 mod 256; v / 256 / 256 / 256 mod 256].
  rewrite !land_255, !Z.shiftr_div_pow2 by lia. by rewrite !Z.div_div by lia.
Qed.

Lemma lp_land_byte v : is_byte (Z.land v 0xff).
Proof. rewrite land_255. unfold is_byte. dm v 256. lia. Qed.

Lemma set_total t4 r v : zlen t4 = 4 → lpSetTotalBytes (t4 ++ r) v = Ret (le_enc 4 v ++ r).
Proof.
  intros H4%zlen_inv. destruct t4 as [|a [|b [|c [|d [|]]]]]; try done. unfold lpSetTotalBytes. cbn [app].
  rewrite le_enc4. pose proof (lp_land_byte v). pose proof (lp_land_byte (Z.shiftr v 8)).
  pose proof (lp_land_byte (Z.shiftr v 16)). pose proof (lp_land_byte (Z.shiftr v 24)).
  rewrite (wr_at (a :: b :: c :: d :: r) 0 _ [] a _ eq_refl) by done. run. cbn [app].
  rewrite (wr_at (_ :: b :: c :: d :: r) 1 _ [_] b _ eq_refl) by done. run. cbn [app].
  rewrite (wr_at (_ :: _ :: c :: d :: r) 2 _ [_; _] c _ eq_refl) by done. run. cbn [app].
  by rewrite (wr_at (_ :: _ :: _ :: d :: r) 3 _ [_; _; _] d _ eq_refl).
Qed.

Lemma set_num t4 n2 r v : zlen t4 = 4 → zlen n2 = 2 → lpSetNumElements (t4 ++ n2 ++ r) v = Ret (t4 ++ le_enc 2 v ++ r).
Proof.
  intros H4 H2%zlen_inv. destruct n2 as [|a [|b [|]]]; try done. unfold lpSetNumElements. cbn [app].
  rewrite le_enc2. pose proof (lp_land_byte v). pose proof (lp_land_byte (Z.shiftr v 8)).
  rewrite (wr_at _ _ _ t4 a _ eq_refl) by done. run.
  rewrite (wr_at _ _ _ (t4 ++ [Z.land v 0xff]) b r); [by lapp|by lapp|zlr; lia|done].
Qed.

(** * Positions *)

Lemma body_app xs ys : body (xs ++ ys) = body xs ++ body ys.
Proof. unfold body. by rewrite fmap_app, concat_app. Qed.

Lemma body_cons x xs : body (x :: xs) = x.1 ++ x.2 ++ body xs.
Proof. unfold body, bytes_of. cbn. by rewrite <- app_assoc. Qed.

Lemma lp_pos_app xs ys : pos (xs ++ ys) = pos xs + zlen (body ys).
Proof. unfold pos. rewrite body_app. zlr. lia. Qed.

Lemma lp_pos_snoc xs x : pos (xs ++ [x]) = pos xs + zlen x.1 + zlen x.2.
Proof. rewrite lp_pos_app, body_cons. zlr. unfold body. cbn. zlr. lia. Qed.

Lemma pos_ge xs : LP_HDR_SIZE <= pos xs.
Proof. unfold pos. pose proof (zlen_nonneg (body xs)). lia. Qed.

Lemma pos_mono xs ys : pos xs <= pos (xs ++ ys).
Proof. rewrite lp_pos_app. pose proof (zlen_nonneg (body ys)). lia. Qed.

Lemma layout_split total num xs1 xs2 slack :
  ∃ a, layout total num (xs1 ++ xs2) slack = a ++ body xs2 ++ LP_EOF :: slack ∧ zlen a = pos xs1.
Proof.
  exists (le_enc 4 total ++ le_enc 2 num ++ body xs1). split; [unfold layout; rewrite body_app; by lapp|].
  unfold pos, LP_HDR_SIZE. zlr. lia.
Qed.

Lemma backlen_size l : 1 <= zlen (lpEncodeBacklen l) <= 5.
Proof. unfold lpEncodeBacklen. repeat case_cond; done. Qed.

Section valid.
Context (lp : list Z) (xs : list entry) (vs : list lpval) (V : valid lp xs vs).

Lemma valid_total : lpGetTotalBytes lp = Ret (pos xs + 1).
Proof.
  destruct V as [(num & slack & -> & _) _ HT _ _]. apply get_total. pose proof (pos_ge xs). unfold LP_HDR_SIZE in *. lia.
Qed.

Lemma valid_num : ∃ num, lpGetNumElements lp = Ret num ∧ num_ok num (zlen xs).
Proof.
  destruct V as [(num & slack & -> & HN) _ _ _ _]. exists num. split; [|done]. apply get_num; [done|].
  pose proof (zlen_nonneg xs). unfold num_ok, LP_HDR_NUMELE_UNKNOWN in HN. lia.
Qed.

(** The block around an entry. *)
Lemma valid_split xs1 x xs2 : xs = xs1 ++ x :: xs2 → ∃ v a c,
  entry_shape x v ∧ bytes_ok x.1 ∧ lp = a ++ x.1 ++ x.2 ++ c ∧ zlen a = pos xs1 ∧
  0 < zlen x.1 < 2 ^ 32 ∧ pos (xs1 ++ [x]) <= pos xs ∧ vs !! length xs1 = Some v.
Proof.
  intros E. destruct V as [(num & slack & HL & _) HB HT HE _]. rewrite E in *.
  apply Forall2_app_inv_l in HE as (vs1 & vs2 & H1 & H2 & Ev).
  apply Forall2_cons_inv_l in H2 as (v & vs2' & Hx & _ & ->).
  destruct (layout_split (pos (xs1 ++ x :: xs2) + 1) num xs1 (x :: xs2) slack) as (a & EL & Ha). rewrite <- HL in EL.
  rewrite body_cons in EL. exists v, a, (body xs2 ++ LP_EOF :: slack).
  assert (Hx1 : bytes_ok x.1). { rewrite body_app, body_cons in HB. unfold bytes_ok in HB. rewrite !Forall_app in HB. tauto. }
  destruct (encodes_cons x.1 v (proj1 Hx) Hx1) as (c0 & e' & Ec & _).
  pose proof (lp_pos_snoc xs1 x). pose proof (pos_mono (xs1 ++ [x]) xs2) as HM. rewrite <- app_assoc in HM. cbn in HM.
  pose proof (pos_ge xs1). pose proof (zlen_nonneg x.2). pose proof (zlen_nonneg e').
  split_and!; try done.
  - by rewrite EL, <- !app_assoc.
  - rewrite Ec. zlr. lia.
  - unfold LP_HDR_SIZE in *. lia.
  - rewrite Ev, (Forall2_length _ _ _ H1). by rewrite list_lookup_middle.
Qed.

(** The byte where an entry starts tells whether there is one. *)
Lemma valid_mark xs1 xs2 : xs = xs1 ++ xs2 → ∃ c,
  rd lp (pos xs1) = Ret c ∧ is_byte c ∧ (c =? LP_EOF) = match xs2 with [] => true | _ => false end.
Proof.
  intros E. destruct xs2 as [|x xs2].
  - destruct V as [(num & slack & HL & _) _ _ _ _]. exists LP_EOF. split_and!; [|done..].
    destruct (layout_split (pos xs + 1) num xs1 [] slack) as (a & EL & Ha). rewrite <- E, <- HL in EL. rewrite EL.
    by apply rd_app.
  - destruct (valid_split xs1 x xs2 E) as (v & a & c & [He _] & Hb & HL & Ha & _).
    destruct (encodes_cons _ _ He Hb) as (c0 & e' & Ec & Hc & Hn). exists c0. split_and!; [|done|unfold LP_EOF; lia].
    rewrite HL, Ec. by apply rd_app.
Qed.

Lemma valid_size xs1 x xs2 : xs = xs1 ++ x :: xs2 →
  lpCurrentEncodedSizeUnsafe lp (pos xs1) = Ret (zlen x.1) ∧
  ∃ k, lpCurrentEncodedSizeBytes lp (pos xs1) = Ret k ∧ 1 <= k <= zlen x.1.
Proof.
  intros E. destruct (valid_split xs1 x xs2 E) as (v & a & c & [He _] & Hb & HL & Ha & Hn & _).
  rewrite HL, <- Ha. apply (size_at a x.1 v (x.2 ++ c)); done || lia.
Qed.

Lemma valid_skip xs1 x xs2 : xs = xs1 ++ x :: xs2 → lpSkip lp (pos xs1) = Ret (pos (xs1 ++ [x])).
Proof.
  intros E. destruct (valid_size xs1 x xs2 E) as [HS _].
  destruct (valid_split xs1 x xs2 E) as (v & a & c & [_ Hz] & _). unfold lpSkip. rewrite HS. run.
  rewrite lp_pos_snoc, <- Hz. f_equal. lia.
Qed.

Lemma valid_next xs1 xs2 : xs = xs1 ++ xs2 →
  lpValidateNext lp (Some (pos xs1)) (pos xs + 1) =
    Ret (true, match xs2 with [] => None | x :: _ => Some (pos (xs1 ++ [x])) end).
Proof.
  intros E. destruct (valid_mark xs1 xs2 E) as (c0 & R & _ & HE). unfold lpValidateNext.
  assert (HP : LP_HDR_SIZE <= pos xs1 <= pos xs) by (rewrite E; split; [apply pos_ge|apply pos_mono]).
  test ((pos xs1 <? LP_HDR_SIZE) || (pos xs + 1 - 1 <? pos xs1)) false. rewrite R. run. rewrite HE.
  destruct xs2 as [|x xs2]; [done|].
  destruct (valid_size xs1 x xs2 E) as (HS & k & HK & Hk).
  destruct (valid_split xs1 x xs2 E) as (v & a & c & [_ Hz] & _ & _ & _ & Hn & HM & _).
  pose proof (backlen_size (zlen x.1)). rewrite lp_pos_snoc in HM. rewrite HK. run.
  test (k =? 0) false. test ((pos xs1 + k <? LP_HDR_SIZE) || (pos xs + 1 - 1 <? pos xs1 + k)) false.
  rewrite HS. run. rewrite <- Hz.
  test ((pos xs1 + (zlen x.1 + zlen x.2) <? LP_HDR_SIZE) || (pos xs + 1 - 1 <? pos xs1 + (zlen x.1 + zlen x.2))) false.
  pose proof (va_back _ _ _ V xs1 x xs2 E) as HB. rewrite lp_pos_snoc in HB.
  replace (pos xs1 + (zlen x.1 + zlen x.2) - 1) with (pos xs1 + zlen x.1 + zlen x.2 - 1) by lia. rewrite HB. run.
  rewrite wrapu_id by lia. test (zlen x.1 + zlen x.2 =? zlen x.1 + zlen x.2) true. cbn [negb].
  rewrite lp_pos_snoc. by rewrite <- Z.add_assoc.
Qed.

Lemma valid_assert xs1 xs2 : xs = xs1 ++ xs2 → lpAssertValidEntry lp (pos xs + 1) (pos xs1) = Ret tt.
Proof. intros E. unfold lpAssertValidEntry. by rewrite (valid_next xs1 xs2 E). Qed.

Lemma valid_first_at xs1 xs2 : xs = xs1 ++ xs2 →
  (c ← rd lp (pos xs1);
   if c =? LP_EOF then Ret None else b ← lpBytes lp; _ ← lpAssertValidEntry lp b (pos xs1); Ret (Some (pos xs1))) =
    Ret (match xs2 with [] => None | _ => Some (pos xs1) end).
Proof.
  intros E. destruct (valid_mark xs1 xs2 E) as (c0 & -> & _ & HE). run. rewrite HE.
  destruct xs2; [done|]. unfold lpBytes. rewrite valid_total. run. by rewrite (valid_assert _ _ E).
Qed.

Lemma next_at xs1 x xs2 : xs = xs1 ++ x :: xs2 →
  lpNext lp (pos xs1) = Ret (match xs2 with [] => None | _ => Some (pos (xs1 ++ [x])) end).
Proof.
  intros E. unfold lpNext. rewrite (valid_skip xs1 x xs2 E). run. apply valid_first_at. by rewrite <- app_assoc.
Qed.

Lemma first_at : lpFirst lp = Ret (match xs with [] => None | _ => Some LP_HDR_SIZE end).
Proof. apply (valid_first_at [] xs eq_refl). Qed.

Lemma prev_at xs1 x xs2 : xs = xs1 ++ x :: xs2 → lpPrev lp (pos (xs1 ++ [x])) = Ret (Some (pos xs1)).
Proof.
  intros E. destruct (valid_split xs1 x xs2 E) as (v & a & c & [_ Hz] & _ & _ & _ & Hn & _).
  unfold lpPrev. pose proof (lp_pos_snoc xs1 x) as HP. pose proof (pos_ge xs1). pose proof (zlen_nonneg x.2).
  test (pos (xs1 ++ [x]) =? LP_HDR_SIZE) false. rewrite (va_back _ _ _ V xs1 x xs2 E). run. rewrite <- Hz.
  pose proof (backlen_size (zlen x.1)). rewrite wrapu_id by lia.
  replace (pos (xs1 ++ [x]) - 1 - (zlen x.1 + zlen x.2 - 1)) with (pos xs1) by lia.
  unfold lpBytes. rewrite valid_total. run. by rewrite (valid_assert _ _ E).
Qed.

Lemma prev_first : lpPrev lp (pos []) = Ret None.
Proof. done. Qed.

(** * Walks by index *)

Lemma index_split (i : Z) : 0 <= i < zlen xs →
  ∃ x, xs !! Z.to_nat i = Some x ∧ xs = take (Z.to_nat i) xs ++ x :: drop (S (Z.to_nat i)) xs ∧
    take (Z.to_nat (i + 1)) xs = take (Z.to_nat i) xs ++ [x].
Proof.
  intros Hi. destruct (lookup_lt_is_Some_2 xs (Z.to_nat i)) as [x Hx]; [unfold zlen in *; lia|].
  exists x. split_and!; [done|by rewrite take_drop_middle|].
  replace (Z.to_nat (i + 1)) with (S (Z.to_nat i)) by lia. by apply take_S_r.
Qed.

Lemma next_index i : 0 <= i < zlen xs → lpNext lp (pos (take (Z.to_nat i) xs)) = Ret (index_ptr xs (i + 1)).
Proof.
  intros Hi. destruct (index_split i Hi) as (x & _ & E & E1). rewrite (next_at _ _ _ E), <- E1.
  unfold index_ptr. f_equal. pose proof (length_drop xs (S (Z.to_nat i))) as HD.
  destruct (drop (S (Z.to_nat i)) xs) as [|y l]; cbn [length] in HD; [|test ((0 <=? i + 1) && (i + 1 <? zlen xs)) true; done].
  by test ((0 <=? i + 1) && (i + 1 <? zlen xs)) false.
Qed.

Lemma prev_index i : 0 <= i <= zlen xs → lpPrev lp (pos (take (Z.to_nat i) xs)) = Ret (index_ptr xs (i - 1)).
Proof.
  intros Hi. destruct (decide (i = 0)) as [->|Hn]; [done|].
  destruct (index_split (i - 1) ltac:(lia)) as (x & _ & E & E1). replace (i - 1 + 1) with i in E1 by lia.
  rewrite E1, (prev_at _ _ _ E). unfold index_ptr. by test ((0 <=? i - 1) && (i - 1 <? zlen xs)) true.
Qed.

Lemma first_index : lpFirst lp = Ret (index_ptr xs 0).
Proof.
  rewrite first_at. unfold index_ptr. destruct xs as [|x l]; [done|]. pose proof (zlen_nonneg l).
  by test ((0 <=? 0) && (0 <? zlen (x :: l))) true.
Qed.

Lemma last_index : lpLast lp = Ret (index_ptr xs (zlen xs - 1)).
Proof.
  unfold lpLast. rewrite valid_total. run. replace (pos xs + 1 - 1) with (pos (take (Z.to_nat (zlen xs)) xs)).
  - apply prev_index. pose proof (zlen_nonneg xs). lia.
  - rewrite take_ge by zl. lia.
Qed.

Lemma index_some i p : index_ptr xs i = Some p → 0 <= i < zlen xs ∧ p = pos (take (Z.to_nat i) xs).
Proof. unfold index_ptr. case_cond; [|done]. intros [= <-]. split; [lia|done]. Qed.

Lemma index_none i : index_ptr xs i = None → i < 0 ∨ zlen xs <= i.
Proof. unfold index_ptr. case_cond; [done|]. lia. Qed.

Lemma seek_next n i : 0 <= i → seek_loop n lp lpNext (index_ptr xs i) = Ret (index_ptr xs (i + Z.of_nat n)).
Proof.
  revert i. induction n as [|n IH]; intros i Hi; [by rewrite Z.add_0_r|]. cbn [seek_loop].
  destruct (index_ptr xs i) as [p|] eqn:E.
  - apply index_some in E as [Hx ->]. rewrite next_index by done. run. rewrite IH by lia. do 2 f_equal. lia.
  - apply index_none in E. unfold index_ptr. by test ((0 <=? i + Z.of_nat (S n)) && (i + Z.of_nat (S n) <? zlen xs)) false.
Qed.

Lemma seek_prev n i : i < zlen xs → seek_loop n lp lpPrev (index_ptr xs i) = Ret (index_ptr xs (i - Z.of_nat n)).
Proof.
  revert i. induction n as [|n IH]; intros i Hi; [by rewrite Z.sub_0_r|]. cbn [seek_loop].
  destruct (index_ptr xs i) as [p|] eqn:E.
  - apply index_some in E as [Hx ->]. rewrite prev_index by lia. run. rewrite IH by lia. do 2 f_equal. lia.
  - apply index_none in E. unfold index_ptr. by test ((0 <=? i - Z.of_nat (S n)) && (i - Z.of_nat (S n) <? zlen xs)) false.
Qed.

(** Negative indexes count from the end. *)
Lemma seek_index i : lpSeek lp i = Ret (index_ptr xs (if i <? 0 then zlen xs + i else i)).
Proof.
  unfold lpSeek. destruct valid_num as (num & -> & HN). run. rewrite first_index, last_index. run.
  pose proof (zlen_nonneg xs) as HX. unfold num_ok in HN.
  destruct HN as [->|[-> HN]]; [rewrite Z.eqb_refl|test (zlen xs =? LP_HDR_NUMELE_UNKNOWN) false]; cbn [negb].
  - case_cond; [rewrite seek_prev by lia|rewrite seek_next by lia]; do 2 f_equal; lia.
  - set (j := if i <? 0 then zlen xs + i else i). unfold index_ptr at 3. repeat case_cond; try (exfalso; lia); try done.
    + rewrite seek_prev by lia. replace (zlen xs - 1 - Z.of_nat (Z.to_nat (-1 - (j - zlen xs)))) with j by lia.
      unfold index_ptr. by test ((0 <=? j) && (j <? zlen xs)) true.
    + rewrite seek_next by lia. replace (0 + Z.of_nat (Z.to_nat j)) with j by lia.
      unfold index_ptr. by test ((0 <=? j) && (j <? zlen xs)) true.
Qed.

Lemma zlen_body ys : Forall (λ x : entry, 0 < zlen x.1 + zlen x.2) ys → zlen ys <= zlen (body ys).
Proof. induction 1 as [|y ys Hy _ IH]; [done|]. rewrite body_cons. zlr. lia. Qed.

Lemma zlen_entries : zlen xs <= zlen (body xs).
Proof.
  apply zlen_body, Forall_lookup. intros i x Hx.
  destruct (valid_split (take i xs) x (drop (S i) xs)) as (_ & _ & _ & _ & _ & _ & _ & Hn & _); [by rewrite take_drop_middle|].
  pose proof (zlen_nonneg x.2). lia.
Qed.

Lemma valid_zlen : pos xs + 1 <= zlen lp.
Proof.
  destruct (va_block _ _ _ V) as (num & slack & -> & _). unfold layout, pos, LP_HDR_SIZE. zlr.
  pose proof (zlen_nonneg slack). lia.
Qed.

Lemma count_index fuel i : 0 <= i <= zlen xs → zlen xs - i <= Z.of_nat fuel →
  count_loop fuel lp (index_ptr xs i) i = Ret (zlen xs).
Proof.
  revert i. induction fuel as [|f IH]; intros i Hi Hf; cbn [count_loop]; destruct (index_ptr xs i) as [p|] eqn:E;
    try (apply index_none in E; f_equal; lia); apply index_some in E as [Hx ->]; [lia|].
  rewrite next_index by done. run. pose proof zlen_entries. pose proof (va_total _ _ _ V). unfold pos, LP_HDR_SIZE in *.
  rewrite wrapu_id by lia. apply IH; lia.
Qed.

Lemma length_at : ∃ lp', lpLength lp = Ret (lp', zlen xs) ∧
  (lp' = lp ∨ zlen xs < LP_HDR_NUMELE_UNKNOWN ∧ lpSetNumElements lp (zlen xs) = Ret lp').
Proof.
  unfold lpLength. destruct valid_num as (num & -> & HN). run. rewrite first_index. run.
  pose proof zlen_entries. pose proof valid_zlen. unfold pos, LP_HDR_SIZE in *. pose proof (zlen_nonneg xs).
  rewrite count_index by (unfold zlen in *; lia). run.
  destruct HN as [->|[-> HN]]; [rewrite Z.eqb_refl|test (zlen xs =? LP_HDR_NUMELE_UNKNOWN) false]; cbn [negb]; [|eauto].
  case_cond; [|eexists; run; eauto].
  destruct (va_block _ _ _ V) as (num & slack & HL & _).
  assert (S : lpSetNumElements lp (zlen xs) = Ret (layout (pos xs + 1) (zlen xs) xs slack)).
  { rewrite HL. by apply set_num. }
  rewrite S. run. eauto with lia.
Qed.

(** * Values *)

Lemma get_index i v buf : 0 <= i → vs !! Z.to_nat i = Some v →
  ∃ a c e, lp = a ++ e ++ c ∧ zlen a = pos (take (Z.to_nat i) xs) ∧ encodes e v ∧ bytes_ok e ∧
    lpGet lp (pos (take (Z.to_nat i) xs)) buf =
    match v with
    | VInt n => int_result n buf
    | VStr bs => Ret (PPack (zlen a + (zlen e - zlen bs)), zlen bs, buf)
    end.
Proof.
  intros Hi Hv. pose proof (Forall2_length _ _ _ (va_entries _ _ _ V)) as HL. apply lookup_lt_Some in Hv as Hl.
  destruct (index_split i) as (x & _ & E & _); [unfold zlen; lia|].
  destruct (valid_split _ _ _ E) as (v' & a & c & [He _] & Hb & El & Ha & _ & _ & Hv').
  rewrite length_take_le in Hv' by lia. assert (v' = v) as -> by congruence.
  exists a, (x.2 ++ c), x.1. split_and!; try done. rewrite <- Ha, El. by apply get_at.
Qed.

End valid.

(** What the code wrote is valid. *)
Lemma lp_rep_valid lp xs vs : rep lp xs vs → valid lp xs vs.
Proof.
  intros [HB HT HE]. split; [done| |done| |].
  - clear HB HT. induction HE as [|x v xs vs [Hb _ _ _] _ IH]; [constructor|]. unfold bytes_ok, bytes_of in *.
    rewrite body_cons. rewrite !Forall_app in *. tauto.
  - eapply Forall2_impl; [done|]. by intros x v [_ ? ? _].
  - intros xs1 x xs2 ->. destruct HB as (num & slack & -> & _).
    destruct (layout_split (pos (xs1 ++ x :: xs2) + 1) num xs1 (x :: xs2) slack) as (a & -> & Ha).
    apply Forall2_app_inv_l in HE as (vs1 & vs2 & _ & (v & vs2' & [_ _ _ Hx] & _)%Forall2_cons_inv_l & _).
    rewrite body_cons. replace (a ++ _) with (a ++ bytes_of x ++ body xs2 ++ LP_EOF :: slack) by (unfold bytes_of; by lapp).
    replace (pos (xs1 ++ [x]) - 1) with (zlen a + (zlen (bytes_of x) - 1)).
    + by apply backlen_inside.
    + rewrite lp_pos_snoc, Ha. unfold bytes_of. zlr. lia.
Qed.

End ListpackNav.
