(* ===== verification/ListpackEdit.v ===== *)
(** Listpacks: what the encoding functions write, and how an insertion, a
    replacement and a deletion change the block. *)
From S2P Require Import Prelude Util Listpack ListpackRep ListpackNav.

Module ListpackEdit.
Import Util Listpack ListpackRep ListpackNav.

(** [lpInsert] from the place where the sizes are known. *)
Definition lp_splice {A : Allocator} (lp : list Z) (ele : option (list Z)) (intenc : option (list Z))
    (enclen : Z) (backlen : list Z) (replace : bool) (dst old_listpack_bytes replaced_len : Z)
    : outcome (option (list Z * option Z)) :=
  let new_listpack_bytes := u64 (old_listpack_bytes + enclen + zlen backlen - replaced_len) in
  if 2 ^ 32 - 1 <? new_listpack_bytes then Ret None
  else
    let lp := if (old_listpack_bytes <? new_listpack_bytes) && (lp_malloc_size lp <? new_listpack_bytes)
              then lp_realloc lp new_listpack_bytes else lp in
    lp ← (if negb replace then memmove lp (dst + enclen + zlen backlen) dst (old_listpack_bytes - dst)
          else
            let lendiff := s64 (u64 (enclen + zlen backlen - replaced_len)) in
            memmove lp (dst + replaced_len + lendiff) (dst + replaced_len)
              (old_listpack_bytes - dst - replaced_len));
    let lp := if new_listpack_bytes <? old_listpack_bytes then lp_realloc lp new_listpack_bytes else lp in
    newp ← (match ele with
            | None => c ← rd lp dst; Ret (if c =? LP_EOF then None else Some dst)
            | Some _ => Ret (Some dst)
            end);
    lp ← (match ele with
          | Some ele =>
            lp ← (match intenc with Some intenc => wrn lp dst intenc | None => lpEncodeString lp dst ele end);
            wrn lp (dst + enclen) backlen
          | None => Ret lp
          end);
    lp ← (if negb replace || match ele with None => true | Some _ => false end then
            num_elements ← lpGetNumElements lp;
            if negb (num_elements =? LP_HDR_NUMELE_UNKNOWN) then
              match ele with
              | Some _ => lpSetNumElements lp (num_elements + 1)
              | None => lpSetNumElements lp (num_elements - 1)
              end
            else Ret lp
          else Ret lp);
    lp ← lpSetTotalBytes lp new_listpack_bytes;
    Ret (Some (lp, newp)).

(** The entry [lpInsert] writes: none when it deletes. *)
Definition new_entry (ele o : option (list Z)) (enclen : Z) (backlen : list Z) (ns : list entry) : Prop :=
  match ele with
  | None => ns = [] ∧ enclen = 0 ∧ backlen = []
  | Some s => ∃ e, ns = [(e, backlen)] ∧ enclen = zlen e ∧ ∀ a m c, zlen m = zlen e →
      match o with Some i => wrn (a ++ m ++ c) (zlen a) i | None => lpEncodeString (a ++ m ++ c) (zlen a) s end =
      Ret (a ++ e ++ c)
  end.

(** The number of elements in the header, when it is known. *)
Definition count_change (num d : Z) : Z := if num =? LP_HDR_NUMELE_UNKNOWN then num else num + d.

(** * Integers in strings *)

Lemma int64_loop_same fuel s slen plen v : lpStringToInt64_loop fuel s slen plen v = string2ll_loop fuel s slen plen v.
Proof.
  revert plen v. induction fuel as [|f IH]; intros plen v; [done|]. cbn [lpStringToInt64_loop string2ll_loop].
  change (2 ^ 64 - 1) with ULLONG_MAX.   case_cond; [|done]. apply bind_ext. intros c _. repeat case_cond; done || apply IH.
Qed.

(** The parser of listpacks is that of the rest of the server. *)
Lemma lpStringToInt64_same s : lpStringToInt64 s (zlen s) = string2ll s (zlen s).
Proof.
  unfold lpStringToInt64, string2ll. case_cond; [done|]. apply bind_ext. intros c Rc.
  destruct ((zlen s =? 1) && (c =? 48)) eqn:E1; [done|].
  destruct ((c =? 45) && ((if c =? 45 then 1 else 0) =? zlen s)) eqn:E2; [done|].
  apply bind_ext. intros c' Rc'. destruct ((49 <=? c') && (c' <=? 57)).
  - rewrite int64_loop_same. apply bind_ext. by intros [[plen v]|] _.
  - destruct (c =? 45) eqn:E3; [|assert (c' = c) by congruence]; by test ((c' =? 48) && (zlen s =? 1)) false.
Qed.

(** * What is written for an element *)

(** The bytes of an integer behind a type byte. *)
Lemma encodes_le t (n : nat) v w : int_type t (Z.of_nat n) → w = v mod 2 ^ (8 * Z.of_nat n) →
  - 2 ^ (8 * Z.of_nat n - 1) <= v < 2 ^ (8 * Z.of_nat n - 1) →
  encodes (t :: le_enc n w) (VInt v) ∧ bytes_ok (t :: le_enc n w).
Proof.
  intros Ht -> Hv. rewrite le_enc_mod. split.
  - pose proof (en_int t (le_enc n v)) as E. rewrite zlen_le_enc, le_dec_enc in E. specialize (E Ht).
    change (v mod _) with (wrapu (8 * Z.of_nat n) v) in E. rewrite wraps_wrapu, wraps_id in E; [done|unfold int_type in Ht; lia..].
  - constructor; [unfold int_type in Ht; unfold is_byte; lia|apply le_enc_bytes].
Qed.

Lemma le_enc_S n v : le_enc (S n) v = v mod 256 :: le_enc n (v / 256).
Proof. done. Qed.

Lemma le_bytes w :
  le_enc 2 w = [Z.land w 0xff; u8 (Z.shiftr w 8)] ∧
  le_enc 3 w = [Z.land w 0xff; Z.land (Z.shiftr w 8) 0xff; u8 (Z.shiftr w 16)] ∧
  le_enc 4 w = [Z.land w 0xff; Z.land (Z.shiftr w 8) 0xff; Z.land (Z.shiftr w 16) 0xff; u8 (Z.shiftr w 24)] ∧
  le_enc 8 w = [Z.land w 0xff; Z.land (Z.shiftr w 8) 0xff; Z.land (Z.shiftr w 16) 0xff;
     Z.land (Z.shiftr w 24) 0xff; Z.land (Z.shiftr w 32) 0xff; Z.land (Z.shiftr w 40) 0xff;
     Z.land (Z.shiftr w 48) 0xff; u8 (Z.shiftr w 56)].
Proof.
  rewrite !land_255, !Z.shiftr_div_pow2 by lia. split_and!;
    rewrite !le_enc_S; rewrite ?Z.div_div by lia; reflexivity.
Qed.

(** The two's complement of a number of [n] bits. *)
Lemma neg_mod k v : 0 <= k → - 2 ^ k <= v < 2 ^ k → (if v <? 0 then 2 ^ k + v else v) = v mod 2 ^ k.
Proof.
  intros Hk Hv. case_cond; [|rewrite Z.mod_small; lia].
  apply (Z.mod_unique_pos v (2 ^ k) (-1)); lia.
Qed.

Lemma encodes_int_encoding v : int64 v → encodes (int_encoding v) (VInt v) ∧ bytes_ok (int_encoding v).
Proof.
  intros Hv. unfold int64, LLONG_MIN, LLONG_MAX in Hv. unfold int_encoding.
  case_cond; [|case_cond; [|case_cond; [|case_cond; [|case_cond]]]].
  - rewrite wrapu_id by (change (2 ^ 8) with 256; lia). split; [apply en_uint7; lia|].
    constructor; [unfold is_byte; lia|constructor].
  - rewrite neg_mod by lia. set (w := v mod 2 ^ 13).
    assert (Hw : 0 <= w < 8192) by (apply Z.mod_pos_bound; lia).
    dm w 256. rewrite land_255, Z.shiftr_div_pow2 by lia. change (2 ^ 8) with 256.
    change LP_ENCODING_13BIT_INT with (Z.shiftl 6 5). rewrite Z.lor_comm, lor_shiftl by lia.
    change (6 * 2 ^ 5) with 192. rewrite wrapu_id by lia.
    assert (E : encodes [192 + w / 256; w mod 256] (VInt (wraps 13 (256 * (w / 256) + w mod 256)))) by (apply en_int13; lia).
    replace (256 * (w / 256) + w mod 256) with (wrapu 13 v) in E by (unfold wrapu; lia).
    rewrite wraps_wrapu, wraps_id in E by lia. split; [done|]. repeat constructor; lia.
  - rewrite neg_mod by lia. destruct (le_bytes (v mod 2 ^ 16)) as (E & _). rewrite <- E. apply encodes_le; [by left|done|cbn; lia].
  - rewrite neg_mod by lia. destruct (le_bytes (v mod 2 ^ 24)) as (_ & E & _). rewrite <- E. apply encodes_le; [by right; left|done|cbn; lia].
  - rewrite neg_mod by lia. destruct (le_bytes (v mod 2 ^ 32)) as (_ & _ & E & _). rewrite <- E. apply encodes_le; [by right; right; left|done|cbn; lia].
  - destruct (le_bytes (u64 v)) as (_ & _ & _ & E). rewrite <- E. apply encodes_le; [by do 3 right|done|cbn; lia].
Qed.

(** [lpEncodeString] writes the header of the string and its bytes. *)
Lemma encode_string bs : bytes_ok bs → zlen bs < 2 ^ 32 → ∃ h,
  encodes (h ++ bs) (VStr bs) ∧ bytes_ok (h ++ bs) ∧
  zlen h = (if zlen bs <? 64 then 1 else if zlen bs <? 4096 then 2 else 5) ∧
  ∀ a m c, zlen m = zlen (h ++ bs) → lpEncodeString (a ++ m ++ c) (zlen a) bs = Ret (a ++ (h ++ bs) ++ c).
Proof.
  intros Hb HL. pose proof (zlen_nonneg bs). unfold lpEncodeString. case_cond; [|case_cond].
  - exists [128 + zlen bs]. split_and!; [apply en_str6; lia|constructor; [unfold is_byte; lia|done]|done|].
    intros a [|m0 m] c Hm; zlr; [lia|]. change LP_ENCODING_6BIT_STR with (Z.shiftl 2 6).
    rewrite Z.lor_comm, lor_shiftl by lia. cbn [app].
    rewrite (wr_at (a ++ m0 :: m ++ c) _ _ a m0 (m ++ c) eq_refl eq_refl) by (unfold is_byte; lia). run.
    rewrite (wrn_at _ _ bs (a ++ [2 * 2 ^ 6 + zlen bs]) m c) by (try (by lapp); zlr; lia). by lapp.
  - dm (zlen bs) 256. exists [224 + zlen bs / 256; zlen bs mod 256].
    split_and!; [apply en_str12; lia|repeat constructor; done || (unfold is_byte; lia)|done|].
    intros a [|m0 [|m1 m]] c Hm; zlr; [lia..|]. change LP_ENCODING_12BIT_STR with (Z.shiftl 14 4).
    rewrite Z.shiftr_div_pow2, land_255 by lia. change (2 ^ 8) with 256. rewrite Z.lor_comm, lor_shiftl by lia. cbn [app].
    rewrite (wr_at (a ++ m0 :: m1 :: m ++ c) _ _ a m0 _ eq_refl eq_refl) by (unfold is_byte; lia). run.
    rewrite (wr_at _ _ _ (a ++ [14 * 2 ^ 4 + zlen bs / 256]) m1 (m ++ c))
      by (try (by lapp); try (unfold is_byte; lia); zlr; lia). run.
    rewrite (wrn_at _ _ bs (a ++ [14 * 2 ^ 4 + zlen bs / 256; zlen bs mod 256]) m c) by (try (by lapp); zlr; lia). by lapp.
  - exists (0xF0 :: le_enc 4 (zlen bs)). split_and!.
    + apply en_str32; [done|]. rewrite le_dec_enc. apply Z.mod_small. cbn. lia.
    + constructor; [done|]. apply Forall_app. split; [apply le_enc_bytes|done].
    + done.
    + rewrite le_enc4. intros a [|m0 [|m1 [|m2 [|m3 [|m4 m]]]]] c Hm; zlr; [lia..|].
      set (b0 := Z.land (zlen bs) 0xff) in *. set (b1 := Z.land (Z.shiftr (zlen bs) 8) 0xff) in *.
      set (b2 := Z.land (Z.shiftr (zlen bs) 16) 0xff) in *. set (b3 := Z.land (Z.shiftr (zlen bs) 24) 0xff) in *. cbn [app].
      assert (is_byte b0 ∧ is_byte b1 ∧ is_byte b2 ∧ is_byte b3) as (H0 & H1 & H2 & H3) by (split_and!; apply lp_land_byte).
      rewrite (wr_at (a ++ m0 :: m1 :: m2 :: m3 :: m4 :: m ++ c) _ _ a m0 _ eq_refl eq_refl) by done. run.
      rewrite (wr_at _ _ b0 (a ++ [0xF0]) m1 (m2 :: m3 :: m4 :: m ++ c)) by (try (by lapp); try done; zlr; lia). run.
      rewrite (wr_at _ _ b1 (a ++ [0xF0; b0]) m2 (m3 :: m4 :: m ++ c)) by (try (by lapp); try done; zlr; lia). run.
      rewrite (wr_at _ _ b2 (a ++ [0xF0; b0; b1]) m3 (m4 :: m ++ c)) by (try (by lapp); try done; zlr; lia). run.
      rewrite (wr_at _ _ b3 (a ++ [0xF0; b0; b1; b2]) m4 (m ++ c)) by (try (by lapp); try done; zlr; lia). run.
      rewrite (wrn_at _ _ bs (a ++ [0xF0; b0; b1; b2; b3]) m c) by (try (by lapp); zlr; lia). by lapp.
Qed.

(** The encoding that is chosen is one of the element. *)
Lemma encode_type ele : bytes_ok ele → zlen ele < 2 ^ 32 → ∃ o e v,
  lpEncodeGetType ele = Ret (o, zlen e) ∧ encodes e v ∧ bytes_ok e ∧ text v = ele ∧ zlen e <= zlen ele + 9 ∧
  ∀ a m c, zlen m = zlen e →
    match o with Some i => wrn (a ++ m ++ c) (zlen a) i | None => lpEncodeString (a ++ m ++ c) (zlen a) ele end =
    Ret (a ++ e ++ c).
Proof.
  intros Hb HL. unfold lpEncodeGetType. rewrite lpStringToInt64_same.
  destruct (string2ll_spec ele) as ([v|] & -> & Ho); run.
  - destruct (proj1 (Ho v) eq_refl) as [Hv E]. destruct (encodes_int_encoding v Hv) as [He Hbe].
    exists (Some (int_encoding v)), (int_encoding v), (VInt v). split_and!; [done..| |].
    + pose proof (zlen_nonneg ele). assert (zlen (int_encoding v) <= 9); [|lia].
      unfold int_encoding. repeat case_cond; done.
    + intros a m c Hm. by apply wrn_app.
  - destruct (encode_string ele Hb HL) as (h & He & Hbe & Hh & Hw). exists None, (h ++ ele), (VStr ele).
    split_and!; try done; [|zlr; rewrite Hh; repeat case_cond; lia].
    rewrite zlen_app, Hh. do 2 f_equal. repeat case_cond; lia.
Qed.

Lemma Ret_inj {B} (x y : B) : Ret x = Ret y → x = y.
Proof. by intros [=]. Qed.

(** * The block around a change *)

Section edit.
Context {A : Allocator} {L : AllocatorLaws A}.

(** The bytes behind [old] move to make room for [n] bytes in its place. *)
Lemma splice_move pre old tail slack n : 0 <= n →
  let oldb := zlen pre + zlen old + zlen tail in
  let newb := zlen pre + n + zlen tail in
  let lp := pre ++ old ++ tail ++ slack in
  ∃ gap slack', zlen gap = n ∧
    (lp ← memmove (if (oldb <? newb) && (lp_malloc_size lp <? newb) then lp_realloc lp newb else lp)
            (zlen pre + n) (zlen pre + zlen old) (zlen tail);
     Ret (if newb <? oldb then lp_realloc lp newb else lp)) = Ret (pre ++ gap ++ tail ++ slack').
Proof.
  intros Hn oldb newb lp. unfold lp_malloc_size. assert (oldb = zlen pre + zlen old + zlen tail) by done.
  assert (newb = zlen pre + n + zlen tail) by done. clearbody oldb newb. pose proof (zlen_nonneg old). pose proof (zlen_nonneg tail). pose proof (zlen_nonneg pre).
  destruct (Z.le_gt_cases (zlen old) n) as [HG|HG].
  - test (newb <? oldb) false.
    assert (∃ j c, (if (oldb <? newb) && (zlen lp <? newb) then lp_realloc lp newb else lp) =
      (pre ++ old) ++ tail ++ j ++ c ∧ zlen j = n - zlen old) as (j & c & -> & Hj).
    { pose proof (zlen_nonneg slack). destruct (Z.le_gt_cases newb (zlen lp)) as [HZ|HZ].
      - test ((oldb <? newb) && (zlen lp <? newb)) false.
        destruct (zsplit (n - zlen old) slack) as (j & c & -> & Hj & _); [unfold lp in HZ; zlr; lia|].
        exists j, c. unfold lp. split; [by lapp|done].
      - assert (zlen lp = oldb + zlen slack) by (unfold lp; zlr; lia).
        test ((oldb <? newb) && (zlen lp <? newb)) true.
        pose proof (usable_size_ge newb ltac:(lia)). unfold lp_realloc.
        destruct (zrealloc_prefix (pre ++ old ++ tail) slack (usable_size newb)) as (r & Er & Hr); [zlr; lia|].
        replace ((pre ++ old ++ tail) ++ slack) with lp in Er by (unfold lp; by lapp). zlr.
        destruct (zsplit (n - zlen old) r) as (j & c & -> & Hj & _); [lia|].
        exists j, c. rewrite Er. split; [by lapp|done]. }
    destruct (memmove_shift (pre ++ old) tail j c (zlen pre + n) (zlen pre + zlen old) (zlen tail)) as (j' & Hj' & ->);
      [zlr; lia|done|lia|]. exists (old ++ j'), c. run. split; [zlr; lia|by lapp].
  - test (oldb <? newb) false. cbn [andb]. test (newb <? oldb) true.
    destruct (zsplit n old) as (o1 & o2 & -> & Ho1 & Ho2); [lia|]. zlr.
    destruct (zsplit (zlen tail) (o2 ++ tail)) as (m & r & Em & Hm & Hr); [zlr; lia|]. zlr.
    rewrite (memmove_app lp _ _ _ (pre ++ o1 ++ o2) tail slack (pre ++ o1) m (r ++ slack)).
    + run. pose proof (usable_size_ge newb ltac:(lia)). unfold lp_realloc.
      destruct (zrealloc_prefix (pre ++ o1 ++ tail) (r ++ slack) (usable_size newb)) as (r' & Er & _); [zlr; lia|].
      exists o1, r'. split; [done|]. f_equal.
      replace ((pre ++ o1) ++ tail ++ r ++ slack) with ((pre ++ o1 ++ tail) ++ r ++ slack) by (by lapp). rewrite Er. by lapp.
    + unfold lp. by lapp.
    + zlr. lia.
    + done.
    + unfold lp. rewrite <- app_assoc, (app_assoc o2 tail), Em. by lapp.
    + zlr. lia.
    + lia.
Qed.

(** The element and its length go into the gap. *)
Lemma write_entry ele o enclen backlen ns pre gap rest :
  new_entry ele o enclen backlen ns → zlen gap = zlen (body ns) →
  match ele with
  | Some s =>
    lp ← (match o with
          | Some i => wrn (pre ++ gap ++ rest) (zlen pre) i
          | None => lpEncodeString (pre ++ gap ++ rest) (zlen pre) s
          end);
    wrn lp (zlen pre + enclen) backlen
  | None => Ret (pre ++ gap ++ rest)
  end = Ret (pre ++ body ns ++ rest).
Proof.
  intros H HG. destruct ele as [s|]; cbn in H.
  - destruct H as (e & -> & -> & Hw). rewrite body_cons in *. cbn [fst snd] in *. unfold body in HG. cbn in HG.
    rewrite app_nil_r in HG. pose proof (zlen_nonneg e). pose proof (zlen_nonneg backlen).
    destruct (zsplit (zlen e) gap) as (g1 & g2 & -> & H1 & H2); [zlr; lia|].
    rewrite <- (app_assoc g1), (Hw pre g1 (g2 ++ rest) H1). run.
    rewrite (wrn_at _ _ backlen (pre ++ e) g2 rest) by (try (by lapp); zlr; lia). unfold body. cbn. by lapp.
  - destruct H as (-> & _ & _). apply zlen_zero in HG as ->. done.
Qed.

(** The count of the header follows. *)
Lemma write_count t4 num r (ele : option (list Z)) replace os ns o enclen backlen :
  new_entry ele o enclen backlen ns → @zlen entry os = b2z replace → (ele = None → replace = true) →
  zlen t4 = 4 → 0 <= num < 2 ^ 16 →
  (if negb replace || match ele with None => true | Some _ => false end then
     num_elements ← lpGetNumElements (t4 ++ le_enc 2 num ++ r);
     if negb (num_elements =? LP_HDR_NUMELE_UNKNOWN) then
       match ele with
       | Some _ => lpSetNumElements (t4 ++ le_enc 2 num ++ r) (num_elements + 1)
       | None => lpSetNumElements (t4 ++ le_enc 2 num ++ r) (num_elements - 1)
       end
     else Ret (t4 ++ le_enc 2 num ++ r)
   else Ret (t4 ++ le_enc 2 num ++ r)) = Ret (t4 ++ le_enc 2 (count_change num (zlen ns - zlen os)) ++ r).
Proof.
  intros H HO HR H4 Hn. unfold count_change. rewrite HO. destruct ele as [s|]; cbn in H.
  - destruct H as (e & -> & _). destruct replace; cbn [negb orb b2z]; zlr.
    + do 4 f_equal. case_cond; lia.
    + rewrite get_num by done. run. destruct (num =? LP_HDR_NUMELE_UNKNOWN); cbn [negb]; [done|]. rewrite set_num by done. do 4 f_equal.
  - destruct H as (-> & _ & _). rewrite (HR eq_refl) in *. cbn [negb orb b2z].
    rewrite get_num by done. run. destruct (num =? LP_HDR_NUMELE_UNKNOWN); cbn [negb]; [done|]. rewrite set_num by done. do 4 f_equal.
Qed.

Lemma splice_spec xs1 os ns xs2 num slack ele o enclen backlen replace :
  new_entry ele o enclen backlen ns → zlen os = b2z replace → (ele = None → replace = true) →
  0 <= num < 2 ^ 16 → pos (xs1 ++ os ++ xs2) + 1 < 2 ^ 32 → enclen < 2 ^ 33 → zlen backlen <= 5 →
  (∃ c r, body xs2 ++ [LP_EOF] = c :: r ∧ (c =? LP_EOF) = match xs2 with [] => true | _ => false end) →
  let newb := pos (xs1 ++ ns ++ xs2) + 1 in
  ∃ slack', lp_splice (layout (pos (xs1 ++ os ++ xs2) + 1) num (xs1 ++ os ++ xs2) slack) ele o enclen backlen replace
      (pos xs1) (pos (xs1 ++ os ++ xs2) + 1) (zlen (body os)) =
    Ret (if 2 ^ 32 - 1 <? newb then None
         else Some (layout newb (count_change num (zlen ns - zlen os)) (xs1 ++ ns ++ xs2) slack',
                    match ele, xs2 with None, [] => None | _, _ => Some (pos xs1) end)).
Proof.
  intros HN HO HR Hnum HT HE HB (c & r & Ec & Hc) newb.
  set (pre := le_enc 4 (pos (xs1 ++ os ++ xs2) + 1) ++ le_enc 2 num ++ body xs1).
  assert (HP : zlen pre = pos xs1) by (unfold pre, pos, LP_HDR_SIZE; zlr; lia).
  assert (HNS : enclen + zlen backlen = zlen (body ns)) by (destruct ele as [s|]; cbn in HN;
    [destruct HN as (e & -> & -> & _); unfold body, bytes_of; cbn; zlr; lia|by destruct HN as (-> & -> & ->)]).
  set (tail := body xs2 ++ [LP_EOF]). assert (HL : zlen tail = zlen (body xs2) + 1) by (unfold tail; zlr; lia).
  destruct (splice_move pre (body os) tail slack (zlen (body ns)) (zlen_nonneg _)) as (gap & slack' & HG & E).
  assert (PE : ∀ ys, pos (xs1 ++ ys ++ xs2) = pos xs1 + (zlen (body ys) + zlen (body xs2)))
    by (intros ys; rewrite lp_pos_app, body_app; zlr; lia).
  exists slack'. unfold newb. rewrite PE in HT. rewrite !PE. unfold lp_splice.
  pose proof (zlen_nonneg (body ns)). pose proof (zlen_nonneg (body os)). pose proof (zlen_nonneg (body xs2)).
  pose proof (pos_ge xs1). unfold LP_HDR_SIZE in *.
  rewrite wrapu_id by lia.
  replace (pos xs1 + (zlen (body os) + zlen (body xs2)) + 1 + enclen + zlen backlen - zlen (body os))
    with (zlen pre + zlen (body ns) + zlen tail) by lia.
  replace (pos xs1 + (zlen (body os) + zlen (body xs2)) + 1) with (zlen pre + zlen (body os) + zlen tail) by lia.
  replace (pos xs1 + (zlen (body ns) + zlen (body xs2)) + 1) with (zlen pre + zlen (body ns) + zlen tail) by lia.
  set (lp := layout _ _ _ _). replace (pre ++ body os ++ tail ++ slack) with lp in E.
  2: { unfold lp. replace (zlen pre + zlen (body os) + zlen tail) with (pos (xs1 ++ os ++ xs2) + 1) by (rewrite PE; lia).
       unfold layout, pre, tail. rewrite !body_app. by lapp. }
  case_cond; [done|]. apply bind_inv in E as (lp2 & EM & ER'). assert (ER := Ret_inj _ _ ER').
  match goal with |- context [mbind ?k (if negb replace then ?m1 else ?m2)] =>
    assert (EM' : (if negb replace then m1 else m2) = Ret lp2) end.
  { rewrite <- EM. destruct replace; cbn [negb b2z] in *.
    - rewrite wraps_wrapu, wraps_id by (change (64 - 1) with 63; lia). f_equal; lia.
    - apply zlen_zero in HO as ->. change (zlen (body [])) with 0 in *. f_equal; lia. }
  rewrite EM'. run. clear EM EM'. rewrite ER. clear ER ER' lp2.
  assert (EN : (match ele with
                | Some _ => Ret (Some (pos xs1))
                | None => c ← rd (pre ++ gap ++ tail ++ slack') (pos xs1);
                          Ret (if c =? LP_EOF then None else Some (pos xs1))
                end) = Ret (match ele, xs2 with None, [] => None | _, _ => Some (pos xs1) end)).
  { destruct ele as [s|]; [done|]. destruct HN as (-> & _ & _). apply zlen_zero in HG as ->. cbn [app].
    unfold tail. rewrite Ec. cbn [app]. rewrite rd_app by done. run. rewrite Hc. by destruct xs2. }
  rewrite EN. run. rewrite <- HP, (write_entry ele o enclen backlen ns pre gap (tail ++ slack') HN HG). run.
  unfold pre. rewrite <- !app_assoc.
  rewrite (write_count _ num _ ele replace os ns o enclen backlen) by done. run. rewrite set_total by done. run.
  unfold layout, tail. rewrite !body_app. by lapp.
Qed.

(** * The changes of [lpInsert] *)

Lemma lp_insert_before lp ele p :
  lpInsert lp (Some ele) p LP_BEFORE =
    ('(o, n) ← lpEncodeGetType ele; t ← lpGetTotalBytes lp;
     lp_splice lp (Some ele) o n (lpEncodeBacklen n) false p t 0).
Proof.
  unfold lpInsert. run. destruct (lpEncodeGetType ele) as [[o n]| | |]; [|done..]. run. by destruct (lpGetTotalBytes lp).
Qed.

Lemma insert_after lp ele p :
  lpInsert lp (Some ele) p LP_AFTER =
    (q ← lpSkip lp p; _ ← ASSERT_INTEGRITY lp q; lpInsert lp (Some ele) q LP_BEFORE).
Proof.
  unfold lpInsert at 1. destruct (lpSkip lp p) as [q| | |]; [|done..]. run.
  destruct (ASSERT_INTEGRITY lp q); [|done..]. run. by rewrite lp_insert_before; destruct (lpEncodeGetType ele) as [[o n]| | |].
Qed.

Lemma insert_replace lp ele p :
  lpInsert lp (Some ele) p LP_REPLACE =
    ('(o, n) ← lpEncodeGetType ele; t ← lpGetTotalBytes lp; l ← lpCurrentEncodedSizeUnsafe lp p;
     let l := u32 (l + zlen (lpEncodeBacklen l)) in
     _ ← ASSERT_INTEGRITY_LEN lp p l; lp_splice lp (Some ele) o n (lpEncodeBacklen n) true p t l).
Proof.
  unfold lpInsert. run. destruct (lpEncodeGetType ele) as [[o n]| | |]; [|done..]. run.
  destruct (lpGetTotalBytes lp); [|done..]. run. destruct (lpCurrentEncodedSizeUnsafe lp p) as [l| | |]; [|done..]. run.
  by destruct (ASSERT_INTEGRITY_LEN lp p _).
Qed.

Lemma insert_delete lp p :
  lpDelete lp p =
    (t ← lpGetTotalBytes lp; l ← lpCurrentEncodedSizeUnsafe lp p;
     let l := u32 (l + zlen (lpEncodeBacklen l)) in
     _ ← ASSERT_INTEGRITY_LEN lp p l; lp_splice lp None None 0 [] true p t l).
Proof.
  unfold lpDelete, lpInsert. run.
  destruct (lpGetTotalBytes lp); [|done..]. run. destruct (lpCurrentEncodedSizeUnsafe lp p) as [l| | |]; [|done..]. run.
  by destruct (ASSERT_INTEGRITY_LEN lp p _).
Qed.

(** The entries after the change are again those of a block. *)
Lemma splice_rep lp xs1 os ns xs2 vs1 ws us vs2 ele o enclen backlen replace :
  rep lp (xs1 ++ os ++ xs2) (vs1 ++ ws ++ vs2) →
  Forall2 entry_ok xs1 vs1 → Forall2 entry_ok ns us → Forall2 entry_ok xs2 vs2 →
  new_entry ele o enclen backlen ns → zlen os = b2z replace → (ele = None → replace = true) →
  enclen < 2 ^ 33 → zlen backlen <= 5 →
  let newb := pos (xs1 ++ ns ++ xs2) + 1 in
  ∃ lp', lp_splice lp ele o enclen backlen replace (pos xs1) (pos (xs1 ++ os ++ xs2) + 1) (zlen (body os)) =
    Ret (if 2 ^ 32 - 1 <? newb then None
         else Some (lp', match ele, xs2 with None, [] => None | _, _ => Some (pos xs1) end)) ∧
    (newb < 2 ^ 32 → rep lp' (xs1 ++ ns ++ xs2) (vs1 ++ us ++ vs2)).
Proof.
  intros [(num & slack & -> & HN) HT HE] H1 HNS H2 Hnew HO HR He Hb newb.
  assert (Hnum : 0 <= num < 2 ^ 16) by (pose proof (zlen_nonneg (xs1 ++ os ++ xs2)); unfold num_ok, LP_HDR_NUMELE_UNKNOWN in HN; lia).
  assert (HM : ∃ c r, body xs2 ++ [LP_EOF] = c :: r ∧ (c =? LP_EOF) = match xs2 with [] => true | _ => false end).
  { destruct H2 as [|x v xs2 vs2 [Hx Hv _ _] _]; [by exists LP_EOF, []|]. rewrite body_cons.
    apply Forall_app in Hx as [Hx _]. destruct (encodes_cons _ _ Hv Hx) as (c & e' & -> & _ & Hc).
    exists c, (e' ++ (x.2 ++ body xs2) ++ [LP_EOF]). split; [by lapp|]. unfold LP_EOF. lia. }
  destruct (splice_spec xs1 os ns xs2 num slack ele o enclen backlen replace Hnew HO HR Hnum HT He Hb HM) as (slack' & E).
  eexists. split; [exact E|]. intros HB. split; [|done|by repeat apply Forall2_app].
  eexists _, _. split; [done|]. unfold num_ok, count_change, LP_HDR_NUMELE_UNKNOWN in *. zlr.
  assert (zlen ns <= 1). { destruct ele; cbn in Hnew; [destruct Hnew as (e & -> & _)|destruct Hnew as (-> & _)]; done. }
  destruct HN as [->|[-> HN]]; [by left|]. pose proof (zlen_nonneg os). case_cond; lia.
Qed.

Lemma entry_new e v : encodes e v → bytes_ok e → zlen e < 2 ^ 35 → entry_ok (e, lpEncodeBacklen (zlen e)) v.
Proof.
  intros He Hb HL. pose proof (zlen_nonneg e). destruct (backlen_roundtrip e (zlen e)) as (H1 & _ & H2); [lia|].
  split; [by apply Forall_app|done|done|done].
Qed.

End edit.
End ListpackEdit.
