(* ===== verification/ListpackValid.v ===== *)
(** Listpacks: the integrity check reads only inside the block and accepts
    exactly the valid ones. *)
From S2P Require Import Prelude Util Listpack ListpackRep ListpackNav.

Module ListpackValid.
Import Util Listpack ListpackRep ListpackNav.

(** The entries [xs] have been checked. *)
Record walked (lp : list Z) (xs : list entry) (vs : list lpval) : Prop := {
  wa_block : ∃ h rest, lp = h ++ body xs ++ rest ∧ zlen h = LP_HDR_SIZE;
  wa_entries : Forall2 entry_shape xs vs;
  wa_back : ∀ xs1 x xs2, xs = xs1 ++ x :: xs2 → lpDecodeBacklen lp (pos (xs1 ++ [x]) - 1) = Ret (zlen x.1);
}.

(** * Lengths read backwards *)

(** The loop returns all ones or adds groups above [shift]. *)
Lemma backlen_loop_ok lp f p val shift : bytes_ok lp → Z.of_nat f - 1 <= p < zlen lp → shift = 7 * (5 - Z.of_nat f) → (0 < f <= 5)%nat →
  0 <= val < 2 ^ shift →
  ∃ v, backlen_loop f lp p val shift = Ret v ∧ (v = 2 ^ 64 - 1 ∨ 0 <= v < 2 ^ 35 ∧ v mod 2 ^ shift = val).
Proof.
  intros Hb. revert p val shift. induction f as [|f IH]; intros p val shift Hp Hs Hf Hv; [lia|].
  destruct (rd_ok lp p ltac:(lia)) as (c & R & Hc). pose proof (rd_byte lp p c Hb R) as HB.
  cbn [backlen_loop]. rewrite R. run. rewrite land_127. set (m := c mod 128).
  assert (Hm : 0 <= m < 128) by (apply Z.mod_pos_bound; lia).
  assert (E : Z.lor val (u64 (Z.shiftl m shift)) = val + m * 2 ^ shift).
  { rewrite wrapu_id, Z.lor_comm, lor_shiftl by (rewrite ?Z.shiftl_mul_pow2 by lia;
      pose proof (Z.pow_le_mono_r 2 shift 28 ltac:(lia) ltac:(lia)); nia). lia. }
  rewrite E. pose proof (Z.pow_pos_nonneg 2 shift ltac:(lia) ltac:(lia)).
  assert (HV : (val + m * 2 ^ shift) mod 2 ^ shift = val) by (rewrite Z.mod_add, Z.mod_small; lia).
  assert (HV2 : 0 <= val + m * 2 ^ shift < 2 ^ (shift + 7)) by (rewrite Z.pow_add_r by lia; nia).
  case_cond; [|case_cond].
  - eexists. split; [done|]. right. split; [|done].
    pose proof (Z.pow_le_mono_r 2 (shift + 7) 35 ltac:(lia) ltac:(lia)). lia.
  - eexists. split; [done|]. by left.
  - destruct (IH (p - 1) (val + m * 2 ^ shift) (shift + 7)) as (v & Ev & Hv'); [lia..|]. exists v. split; [done|].
    destruct Hv' as [?|[? Hv']]; [by left|right]. split; [done|]. rewrite <- HV, <- Hv'.
    rewrite Z.pow_add_r by lia. symmetry. apply Z.mod_mod_divide. by exists (2 ^ 7); rewrite Z.mul_comm.
Qed.

Lemma decode_ok lp p : bytes_ok lp → 4 <= p < zlen lp → ∃ v c,
  lpDecodeBacklen lp p = Ret v ∧ rd lp p = Ret c ∧ (v = 2 ^ 64 - 1 ∨ 0 <= v < 2 ^ 35 ∧ v mod 128 = c mod 128).
Proof.
  intros Hb Hp. destruct (rd_ok lp p ltac:(lia)) as (c & R & _). pose proof (rd_byte lp p c Hb R) as HB.
  unfold lpDecodeBacklen. cbn [backlen_loop]. rewrite R. run. rewrite Z.lor_0_l, land_127, Z.shiftl_0_r.
  assert (Hm : 0 <= c mod 128 < 128) by (apply Z.mod_pos_bound; lia). rewrite wrapu_id by lia.
  case_cond.
  - exists (c mod 128), c. split_and!; [done..|]. right. split; [lia|]. by rewrite Z.mod_mod.
  - cbn [Z.ltb Z.compare Z.add Pos.compare Pos.compare_cont].
    destruct (backlen_loop_ok lp 4 (p - 1) (c mod 128) 7 Hb) as (v & E & Hv); [lia..|]. exists v, c.
    split_and!; [exact E|done|done].
Qed.

(** * One entry *)

(** When the sum of five and the length wraps around. *)
Lemma wrapped_byte a l4 r : zlen l4 = 4 → bytes_ok l4 → 2 ^ 32 <= 5 + le_dec l4 →
  ∃ b, rd (a ++ 0xF0 :: l4 ++ r) (zlen a + (5 + le_dec l4 - 2 ^ 32)) = Ret b ∧ b mod 128 ≠ 5 + le_dec l4 - 2 ^ 32.
Proof.
  intros H4%zlen_inv Hb HW. destruct l4 as [|b0 [|b1 [|b2 [|b3 [|]]]]]; try done.
  change (le_dec [b0; b1; b2; b3]) with (b0 + 256 * (b1 + 256 * (b2 + 256 * (b3 + 256 * 0)))) in *.
  apply Forall_cons in Hb as [H0 Hb]. apply Forall_cons in Hb as [H1 Hb]. apply Forall_cons in Hb as [H2 Hb].
  apply Forall_cons in Hb as [H3 _]. unfold is_byte in *.
  assert (b1 = 255 ∧ b2 = 255 ∧ b3 = 255) as (-> & -> & ->) by lia. cbn [app].
  set (s := 5 + _ - 2 ^ 32). assert (s = b0 - 251) by (unfold s; lia). clearbody s.
  assert (s = 0 ∨ s = 1 ∨ s = 2 ∨ s = 3 ∨ s = 4) as [-> | [-> | [-> | [-> | ->]]]] by lia.
  - exists 0xF0. rewrite Z.add_0_r. split; [by apply rd_app|done].
  - exists b0. split; [by apply (rd_at _ _ _ (a ++ [0xF0]) (255 :: 255 :: 255 :: r)); [lapp|zlr; lia]|].
    by replace b0 with 252 by lia.
  - exists 255. split; [by apply (rd_at _ _ _ (a ++ [0xF0; b0]) (255 :: 255 :: r)); [lapp|zlr; lia]|done].
  - exists 255. split; [by apply (rd_at _ _ _ (a ++ [0xF0; b0; 255]) (255 :: r)); [lapp|zlr; lia]|done].
  - exists 255. split; [by apply (rd_at _ _ _ (a ++ [0xF0; b0; 255; 255]) r); [lapp|zlr; lia]|done].
Qed.

(** The size an entry claims, when its first bytes are there: if the bytes it
    covers are too, they encode an element; or the 32-bit sum wrapped around,
    and the byte where the length would be tells so. *)
Lemma entry_read a c0 r k : let lp := a ++ c0 :: r in
  bytes_ok lp → c0 ≠ LP_EOF → lpCurrentEncodedSizeBytes lp (zlen a) = Ret k → 0 < k <= zlen r →
  ∃ s, lpCurrentEncodedSizeUnsafe lp (zlen a) = Ret s ∧ 0 <= s < 2 ^ 32 ∧
    (s <= zlen (c0 :: r) →
      (∃ e v c, c0 :: r = e ++ c ∧ zlen e = s ∧ encodes e v) ∨
      (s < 5 ∧ ∃ b, rd lp (zlen a + s) = Ret b ∧ b mod 128 ≠ s)).
Proof.
  intros lp Hb Hc Ek Hk. apply Forall_app in Hb as [_ [Hc0 Hr]%Forall_cons]. unfold LP_EOF in Hc.
  destruct (size_class a c0 r Hc0) as [ES EB]. fold lp in ES, EB. rewrite EB in Ek. injection Ek as <-. rewrite ES.
  clear ES EB. unfold is_byte in Hc0.
  assert (SP : ∀ n, 0 <= n <= zlen r → ∃ e c, r = e ++ c ∧ zlen e = n).
  { intros n Hn. destruct (zsplit n r Hn) as (e & c & -> & ? & _). by exists e, c. }
  destruct (Z.ltb_spec c0 128); [|destruct (Z.ltb_spec c0 192); [|destruct (Z.ltb_spec c0 224); [|destruct (Z.ltb_spec c0 240)]]].
  - exists 1. split_and!; [done|lia|lia|]. intros _. left. exists [c0], (VInt c0), r. split_and!; [done..|]. apply en_uint7. lia.
  - unfold lp. rewrite str_len6 by done. run. dm c0 64. rewrite wrapu_id by lia. eexists. split_and!; [done|lia|lia|].
    intros Hs. zlr. left. destruct (SP (c0 mod 64)) as (e & c & -> & He); [lia|].
    exists (c0 :: e), (VStr e), c. split_and!; [done|zlr; lia|]. replace c0 with (128 + zlen e) by lia. apply en_str6. lia.
  - exists 2. split_and!; [done|lia|lia|]. intros Hs. zlr. left. destruct (SP 1) as (e & c & -> & He); [lia|].
    apply zlen_one in He as (l & ->). apply Forall_cons in Hr as [Hl _].
    exists [c0; l], (VInt (wraps 13 (256 * (c0 - 192) + l))), c. split_and!; [done..|].
    replace c0 with (192 + (c0 - 192)) at 1 by lia. apply en_int13; [lia|done].
  - destruct r as [|l r]; [zlr; lia|]. apply Forall_cons in Hr as Hr'. destruct Hr' as [Hl _].
    unfold lp. rewrite str_len12 by done. run. dm c0 16. unfold is_byte in Hl. rewrite wrapu_id by lia.
    eexists. split_and!; [done|lia|lia|]. intros Hs. left.
    destruct (SP (1 + (256 * (c0 mod 16) + l))) as (e & c & E & He); [zlr; lia|].
    destruct e as [|l' e]; zlr; [lia|]. injection E as <- ->.
    exists (c0 :: l :: e), (VStr e), c. split_and!; [done|zlr; lia|].
    replace c0 with (224 + (c0 - 224)) by lia. apply en_str12; lia.
  - assert (IN : ∀ n, int_type c0 n → ∃ s, Ret (1 + n) = Ret s ∧ 0 <= s < 2 ^ 32 ∧
      (s <= zlen (c0 :: r) → (∃ e v c, c0 :: r = e ++ c ∧ zlen e = s ∧ encodes e v) ∨
        (s < 5 ∧ ∃ b, rd lp (zlen a + s) = Ret b ∧ b mod 128 ≠ s))).
    { intros n Hn. exists (1 + n). unfold int_type in Hn. split_and!; [done|lia|lia|]. intros Hs. zlr. left.
      destruct (SP n) as (e & c & -> & He); [lia|].
      exists (c0 :: e), (VInt (wraps (8 * zlen e) (le_dec e))), c. split_and!; [done|zlr; lia|]. apply en_int. rewrite He. done. }
    unfold int_type in IN.
    destruct (Z.eqb_spec c0 0xF0) as [->|]; [|repeat (case_cond; [apply (IN 2) || apply (IN 3) || apply (IN 4) || apply (IN 8); lia|]);
      exfalso; revert Hk; repeat case_cond; lia].
    cbn in Hk. destruct (zsplit 4 r) as (l4 & bs & -> & H4 & _); [lia|]. apply Forall_app in Hr as [Hl4 _].
    unfold lp. rewrite str_len32 by done. run. pose proof (le_dec_range l4 Hl4) as HL. rewrite H4 in HL. change (8 * 4) with 32 in HL.
    exists (u32 (5 + le_dec l4)). split_and!; [done|apply wrapu_range; lia..|]. intros Hs. zlr.
    destruct (Z.lt_ge_cases (5 + le_dec l4) (2 ^ 32)) as [HW|HW].
    + left. rewrite wrapu_id in * by lia. destruct (zsplit (le_dec l4) bs) as (e & c & -> & He & _); [lia|].
      exists (0xF0 :: l4 ++ e), (VStr e), c. split_and!; [by lapp|zlr; lia|]. apply en_str32; [done|lia].
    + right. assert (ES : u32 (5 + le_dec l4) = 5 + le_dec l4 - 2 ^ 32)
        by (unfold wrapu; symmetry; apply (Z.mod_unique_pos _ _ 1); lia).
      rewrite ES. split; [lia|]. apply wrapped_byte; done || lia.
Qed.

(** One step of the check. *)
Lemma validate_step lp bytes p c0 : bytes_ok lp → bytes <= zlen lp → bytes < 2 ^ 32 → LP_HDR_SIZE <= p < bytes →
  rd lp p = Ret c0 → c0 ≠ LP_EOF →
  (∃ q, lpValidateNext lp (Some p) bytes = Ret (false, q)) ∨
  (∃ x v a c, lpValidateNext lp (Some p) bytes = Ret (true, Some (p + zlen x.1 + zlen x.2)) ∧
    lp = a ++ x.1 ++ x.2 ++ c ∧ zlen a = p ∧ entry_shape x v ∧ 0 < zlen x.1 ∧
    lpDecodeBacklen lp (p + zlen x.1 + zlen x.2 - 1) = Ret (zlen x.1) ∧ p + zlen x.1 + zlen x.2 < bytes).
Proof.
  intros Hb HZ HB Hp R Hc. unfold LP_HDR_SIZE in *. unfold lpValidateNext, LP_HDR_SIZE.
  test ((p <? 6) || (bytes - 1 <? p)) false. rewrite R. run. test (c0 =? LP_EOF) false.
  apply rd_inv in R as [_ R]. apply list_elem_of_split_length in R as (a & r & -> & Ha).
  assert (zlen a = p) by (unfold zlen; lia). subst p. zlr.
  assert (Hc0 : is_byte c0) by (by apply Forall_app in Hb as [_ [? _]%Forall_cons]).
  destruct (size_class a c0 r Hc0) as [_ EB]. rewrite EB. run. set (k := if c0 <? 224 then _ else _) in *.
  destruct (Z.eqb_spec k 0); [eauto|]. case_cond; [eauto|].
  destruct (entry_read a c0 r k Hb Hc EB) as (s & -> & Hs & HE); [unfold k in *; repeat case_cond; lia|]. run.
  pose proof (backlen_size s) as HS. case_cond; [eauto|].
  replace (zlen a + (s + zlen (lpEncodeBacklen s)) - 1) with (zlen a + s + zlen (lpEncodeBacklen s) - 1) by lia.
  destruct (decode_ok (a ++ c0 :: r) (zlen a + s + zlen (lpEncodeBacklen s) - 1) Hb) as (v & b & ED & Rb & Hv); [zlr; lia|].
  rewrite ED. run. destruct (Z.eqb_spec (u64 (v + zlen (lpEncodeBacklen s))) (s + zlen (lpEncodeBacklen s))) as [EV|]; [|cbn [negb]; eauto].
  assert (v = s) as ->.
  { destruct Hv as [->|[Hv _]]; [|rewrite wrapu_id in EV by lia; lia]. exfalso.
    unfold wrapu in EV. rewrite <- (Z.mod_unique_pos _ _ 1 (zlen (lpEncodeBacklen s) - 1)) in EV by lia. lia. }
  cbn [negb]. destruct HE as [(e & u & c & E & He & Hu)|(Hs5 & b' & Rb' & Hb')]; [zlr; lia| |].
  - right. destruct (zsplit (zlen (lpEncodeBacklen s)) c) as (x2 & c' & -> & H2 & _).
    { assert (HL : zlen (c0 :: r) = zlen (e ++ c)) by (by rewrite E). zlr. lia. }
    exists (e, x2), u, a, c'. cbn [fst snd]. rewrite He, H2. split_and!; try done.
    + do 3 f_equal. lia.
    + by rewrite E.
    + split; [done|]. cbn. by rewrite He.
    + destruct (encodes_cons e u Hu) as (c1 & e' & -> & _); [|zlr; pose proof (zlen_nonneg e'); lia].
      apply Forall_app in Hb as [_ Hb]. rewrite E in Hb. by apply Forall_app in Hb as [? _].
    + lia.
  - exfalso. assert (HS1 : zlen (lpEncodeBacklen s) = 1) by (unfold lpEncodeBacklen; by test (s <=? 127) true).
    rewrite HS1 in Rb. replace (zlen a + s + 1 - 1) with (zlen a + s) in Rb by lia.
    destruct Hv as [?|[_ Hv]]; [lia|]. assert (b = b') by congruence. subst b'. rewrite Z.mod_small in Hv by lia. lia.
Qed.

(** * The walk *)

Lemma walked_step lp xs vs x v a c : walked lp xs vs → lp = a ++ x.1 ++ x.2 ++ c → zlen a = pos xs → entry_shape x v →
  lpDecodeBacklen lp (pos xs + zlen x.1 + zlen x.2 - 1) = Ret (zlen x.1) → walked lp (xs ++ [x]) (vs ++ [v]).
Proof.
  intros [(h & rest & E & Hh) HE HB] E' Ha Hx HD. split.
  - exists h, c. split; [|done]. rewrite body_app, body_cons, E'. unfold pos in Ha. rewrite E in E'.
    rewrite app_assoc in E'. apply zapp_inj in E' as [<- _]; [|zlr; lia]. unfold body at 3. cbn. by lapp.
  - apply Forall2_app; [done|by constructor].
  - intros xs1 y xs2 EX. destruct xs2 as [|z xs2 _] using rev_ind.
    + apply app_inj_tail in EX as [<- <-]. by rewrite lp_pos_snoc.
    + rewrite app_comm_cons, app_assoc in EX. apply app_inj_tail in EX as [EX _]. by apply (HB xs1 y xs2).
Qed.

Lemma walked_count lp xs vs : walked lp xs vs → zlen xs <= zlen (body xs).
Proof.
  intros [_ HE _]. apply zlen_body. induction HE as [|x v xs vs [_ Hx] _ IH]; [constructor|]. constructor; [|done].
  pose proof (zlen_nonneg x.1). pose proof (backlen_size (zlen x.1)). lia.
Qed.

Lemma validate_walk lp bytes fuel xs vs : bytes_ok lp → bytes <= zlen lp → bytes < 2 ^ 32 →
  walked lp xs vs → pos xs < bytes → bytes - pos xs <= Z.of_nat fuel →
  ∃ r, validate_loop fuel lp bytes (Some (pos xs)) (zlen xs) = Ret r ∧ ∀ q n, r = Some (q, n) →
    ∃ ys us, walked lp ys us ∧ q = Some (pos ys) ∧ n = zlen ys ∧ rd lp (pos ys) = Ret LP_EOF ∧ pos ys < bytes.
Proof.
  intros Hb HZ HB. revert xs vs. induction fuel as [|f IH]; intros xs vs W HP HF; [lia|].
  pose proof (pos_ge xs) as HG. unfold LP_HDR_SIZE in HG. pose proof (walked_count _ _ _ W) as HC.
  destruct (rd_ok lp (pos xs) ltac:(lia)) as (c0 & R & _). cbn [validate_loop]. rewrite R. run.
  destruct (Z.eqb_spec c0 LP_EOF) as [->|Hc].
  { eexists. split; [done|]. intros q n [= <- <-]. by exists xs, vs. }
  destruct (validate_step lp bytes (pos xs) c0 Hb HZ HB ltac:(unfold LP_HDR_SIZE; lia) R Hc)
    as [(q & ->)|(x & v & a & c & -> & El & Ha & Hx & H0 & HD & HP')]; run; cbn [negb].
  { eexists. split; [done|]. by intros. }
  unfold pos, LP_HDR_SIZE in HP. rewrite wrapu_id by (pose proof (zlen_nonneg xs); lia).
  pose proof (walked_step lp xs vs x v a c W El Ha Hx HD) as W'. pose proof (zlen_nonneg x.2).
  destruct (IH (xs ++ [x]) (vs ++ [v]) W') as (r & E & Hr); [rewrite lp_pos_snoc; lia..|].
  exists r. split; [|done]. rewrite lp_pos_snoc, zlen_app in E. exact E.
Qed.

(** The walk over a valid block. *)
Lemma validate_valid lp xs vs fuel xs1 xs2 : valid lp xs vs → xs = xs1 ++ xs2 → zlen xs2 <= Z.of_nat fuel →
  validate_loop fuel lp (pos xs + 1) (Some (pos xs1)) (zlen xs1) = Ret (Some (Some (pos xs), zlen xs)).
Proof.
  intros V. revert xs1 fuel. induction xs2 as [|x xs2 IH]; intros xs1 fuel E HF;
    destruct (valid_mark _ _ _ V _ _ E) as (c & R & _ & HE).
  - rewrite app_nil_r in E. subst xs1. destruct fuel; cbn [validate_loop]; rewrite R; run; by rewrite HE.
  - zlr. destruct fuel as [|f]; [pose proof (zlen_nonneg xs2); lia|]. cbn [validate_loop]. rewrite R. run. rewrite HE.
    rewrite (valid_next _ _ _ V _ _ E). run. cbn [negb].
    pose proof (zlen_entries _ _ _ V). pose proof (va_total _ _ _ V). pose proof (zlen_nonneg xs1). pose proof (zlen_nonneg xs2).
    assert (zlen xs = zlen xs1 + (1 + zlen xs2)) by (rewrite E; by zlr). unfold pos, LP_HDR_SIZE in *.
    rewrite wrapu_id by lia. specialize (IH (xs1 ++ [x]) f). rewrite zlen_app in IH. apply IH; [by rewrite <- app_assoc|lia].
Qed.

Lemma total_ok lp : bytes_ok lp → 4 <= zlen lp → ∃ t r, lpGetTotalBytes lp = Ret t ∧ lp = le_enc 4 t ++ r ∧ 0 <= t < 2 ^ 32.
Proof.
  intros Hb HL. destruct (zsplit 4 lp) as (t4 & r & -> & H4 & _); [lia|]. apply Forall_app in Hb as [Hb _].
  exists (le_dec t4), r. unfold lpGetTotalBytes. rewrite rdn_app0 by done. run. rewrite or_bytes_le by done.
  pose proof (le_dec_range t4 Hb) as HR. rewrite H4 in HR. split_and!; [done| |lia|exact (proj2 HR)].
  pose proof (le_enc_dec t4 Hb) as E. rewrite (zlen_inv t4 4 H4) in E. change (Z.to_nat 4) with 4%nat in E. by rewrite E.
Qed.

Lemma num_read lp : bytes_ok lp → 6 <= zlen lp → ∃ t4 num r,
  lpGetNumElements lp = Ret num ∧ lp = t4 ++ le_enc 2 num ++ r ∧ zlen t4 = 4 ∧ 0 <= num < 2 ^ 16.
Proof.
  intros Hb HL. destruct (zsplit 4 lp) as (t4 & r' & -> & H4 & H'); [lia|]. destruct (zsplit 2 r') as (n2 & r & -> & H2 & _); [lia|].
  apply Forall_app in Hb as [_ Hb]. apply Forall_app in Hb as [Hb _].
  exists t4, (le_dec n2), r. unfold lpGetNumElements. rewrite (rdn_at _ _ _ n2 t4 r) by done. run. rewrite or_bytes_le by done.
  pose proof (le_dec_range n2 Hb) as HR. rewrite H2 in HR. split_and!; [done| |done|lia|exact (proj2 HR)].
  pose proof (le_enc_dec n2 Hb) as E. rewrite (zlen_inv n2 2 H2) in E. change (Z.to_nat 2) with 2%nat in E. by rewrite E.
Qed.

(** What the walk and the header tell. *)
Lemma walked_valid lp xs vs num : bytes_ok lp → walked lp xs vs → lpGetTotalBytes lp = Ret (pos xs + 1) →
  rd lp (pos xs) = Ret LP_EOF → lpGetNumElements lp = Ret num → num_ok num (zlen xs) → valid lp xs vs.
Proof.
  intros Hb [(h & rest & E & Hh) HE HB] HT HM HN HO. pose proof (zlen_nonneg (body xs)). pose proof (zlen_nonneg rest).
  assert (HL : 6 <= zlen lp) by (rewrite E; unfold LP_HDR_SIZE in Hh; zlr; lia).
  destruct (total_ok lp Hb ltac:(lia)) as (t & r & ET & EL & Ht). rewrite HT in ET. injection ET as <-.
  destruct (num_read lp Hb HL) as (t4 & num' & r' & EN & EL' & H4 & _). rewrite HN in EN. injection EN as <-.
  assert (E4 : le_enc 4 (pos xs + 1) = t4) by (rewrite EL in EL'; by apply zapp_inj in EL' as [? _]).
  assert (Eh : le_enc 4 (pos xs + 1) ++ le_enc 2 num = h).
  { assert (E2 : (t4 ++ le_enc 2 num) ++ r' = h ++ (body xs ++ rest)) by (rewrite <- app_assoc; congruence).
    apply zapp_inj in E2 as [<- _]; [by rewrite E4|]. rewrite zlen_app, zlen_le2, H4, Hh. done. }
  apply rd_inv in HM as [_ HM]. rewrite E, app_assoc in HM. unfold pos in HM.
  replace (Z.to_nat (LP_HDR_SIZE + zlen (body xs))) with (length (h ++ body xs) + 0)%nat in HM
    by (rewrite <- Hh, length_app; unfold zlen; lia).
  rewrite lookup_app_r in HM by lia. replace (length _ + 0 - length _)%nat with 0%nat in HM by lia.
  destruct rest as [|c slack]; [done|]. injection HM as ->. split; [|by rewrite E in Hb; apply Forall_app in Hb as [_ [? _]%Forall_app]|lia|done|done].
  exists num, slack. split; [|done]. unfold layout. by rewrite E, <- Eh, <- app_assoc.
Qed.

(** * The check *)

Lemma integrity_deep lp size : bytes_ok lp → size <= zlen lp →
  ∃ b, lpValidateIntegrity lp size true = Ret b ∧ (b = true ↔ ∃ xs vs, valid lp xs vs ∧ size = pos xs + 1).
Proof.
  intros Hb HS. unfold lpValidateIntegrity, LP_HDR_SIZE.
  assert (NO : (∀ xs vs, valid lp xs vs → size ≠ pos xs + 1) → ∃ b, Ret false = Ret b ∧
    (b = true ↔ ∃ xs vs, valid lp xs vs ∧ size = pos xs + 1)).
  { intros H. exists false. split; [done|]. split; [done|]. intros (xs & vs & V & E). by destruct (H xs vs V). }
  case_cond; [apply NO; intros xs vs _ ->; pose proof (pos_ge xs); unfold LP_HDR_SIZE in *; lia|].
  destruct (total_ok lp Hb ltac:(lia)) as (t & r & ET & EL & Ht). rewrite ET. run.
  destruct (Z.eqb_spec t size) as [->|Hne]; cbn [negb].
  2: { apply NO. intros xs vs V ->. rewrite (valid_total _ _ _ V) in ET. congruence. }
  destruct (rd_ok lp (size - 1) ltac:(lia)) as (c & R & _). rewrite R. run.
  destruct (Z.eqb_spec c LP_EOF) as [->|HcE]; cbn [negb].
  2: { apply NO. intros xs vs V ->. replace (pos xs + 1 - 1) with (pos xs) in R by lia.
       destruct (valid_mark _ _ _ V xs []) as (c' & R' & _ & E'); [by rewrite app_nil_r|]. assert (c = c') by congruence. lia. }
  assert (W0 : walked lp [] []).
  { split; [|constructor|by intros [|] ? ?]. destruct (zsplit 6 lp) as (h & rest & -> & Hh & _); [lia|]. by exists h, rest. }
  destruct (validate_walk lp size (length lp) [] [] Hb HS ltac:(lia) W0) as (rr & E & Hr);
    [change (pos []) with 6; unfold zlen in *; lia..|].
  assert (VA : ∀ xs vs, valid lp xs vs → size = pos xs + 1 → rr = Some (Some (pos xs), zlen xs)).
  { intros xs vs V ->. rewrite (validate_valid lp xs vs (length lp) [] xs V eq_refl) in E; [congruence|].
    pose proof (zlen_entries _ _ _ V). pose proof (valid_zlen _ _ _ V). unfold pos, LP_HDR_SIZE, zlen in *. lia. }
  change (validate_loop (length lp) lp size (Some 6) 0 = Ret rr) in E. rewrite E. run.
  destruct rr as [[q n]|]; [|apply NO; intros xs vs V HV; by specialize (VA xs vs V HV)].
  destruct (Hr q n eq_refl) as (ys & us & W & -> & -> & HM & HP). clear Hr.
  case_bool_decide as HQ; cbn [negb].
  2: { apply NO. intros xs vs V HV. specialize (VA xs vs V HV). apply HQ. injection VA as EP _. f_equal. lia. }
  assert (HQ' : size = pos ys + 1) by (injection HQ; lia). clear HQ.
  destruct (num_read lp Hb ltac:(lia)) as (t4 & num & r' & EN & _ & _ & Hn). rewrite EN. run.
  destruct ((negb (num =? LP_HDR_NUMELE_UNKNOWN)) && negb (num =? zlen ys)) eqn:HO.
  - apply NO. intros xs vs V HV. specialize (VA xs vs V HV). injection VA as _ EC.
    destruct (valid_num _ _ _ V) as (num' & EN' & HN'). assert (num = num') as <- by congruence.
    unfold num_ok in HN'. lia.
  - exists true. split; [done|]. split; [intros _|done]. exists ys, us. split; [|done].
    apply (walked_valid lp ys us num); try done; [by rewrite <- HQ'|]. unfold num_ok, LP_HDR_NUMELE_UNKNOWN in *. lia.
Qed.

(** A valid block is accepted. *)
Lemma valid_integrity lp xs vs : valid lp xs vs → lpValidateIntegrity lp (pos xs + 1) true = Ret true.
Proof.
  intros V. unfold lpValidateIntegrity. pose proof (pos_ge xs) as HP. unfold LP_HDR_SIZE in *.
  test (pos xs + 1 <? 6 + 1) false. rewrite (valid_total _ _ _ V). run. rewrite Z.eqb_refl. cbn [negb].
  replace (pos xs + 1 - 1) with (pos xs) by lia.
  destruct (valid_mark _ _ _ V xs []) as (c & -> & _ & HE); [by rewrite app_nil_r|]. run. rewrite HE. cbn [negb].
  pose proof (validate_valid lp xs vs (length lp) [] xs V eq_refl) as E. change (pos []) with 6 in E.
  pose proof (zlen_entries _ _ _ V). pose proof (valid_zlen _ _ _ V) as HZ. unfold pos, LP_HDR_SIZE in HZ, HP.
  change (zlen []) with 0 in E. rewrite E by (unfold zlen in *; lia). run. rewrite bool_decide_true by done. cbn [negb].
  destruct (valid_num _ _ _ V) as (num & -> & HN). run. unfold num_ok in HN.
  by test (negb (num =? LP_HDR_NUMELE_UNKNOWN) && negb (num =? zlen xs)) false.
Qed.

End ListpackValid.
