(* ===== verification/ListpackSpec.v ===== *)
(** Listpacks as lists of strings: what the operations promise. *)
From S2P Require Import Prelude Util Listpack ListpackRep ListpackNav ListpackEdit ListpackValid.

Module ListpackSpec.
Import Util Listpack ListpackRep ListpackNav ListpackEdit ListpackValid.

(** The block holds the strings [ts], and [p] points to the element [i], or to
    the end mark when [i] is their number. *)
Definition lp_at (lp : list Z) (ts : list (list Z)) (i : nat) (p : Z) : Prop :=
  ∃ xs vs, rep lp xs vs ∧ ts = text <$> vs ∧ (i <= length xs)%nat ∧ p = pos (take i xs).

(** A valid block with the strings [ts], which start at [ps]. *)
Definition lp_elements (lp : list Z) (ts : list (list Z)) (ps : list Z) : Prop :=
  ∃ xs vs, valid lp xs vs ∧ ts = text <$> vs ∧ ps = (λ i, pos (take i xs)) <$> seq 0 (length xs).

(** The element of an index, counted from the end when it is negative. *)
Definition at_index (ps : list Z) (i : Z) : option Z :=
  let i := if i <? 0 then zlen ps + i else i in if i <? 0 then None else ps !! Z.to_nat i.

(** The string [lpGet] returns. *)
Definition get_text (lp : list Z) (p : Z) (buf : list Z) : outcome (list Z) :=
  '(r, n, b) ← lpGet lp p (Some buf);
  match r, b with
  | PPack q, _ => rdn lp q n
  | PBuf, Some b => rdn b 0 n
  | _, _ => Panic
  end.

(** The result of a change that gives a block of [bytes] bytes with the strings
    [ts] and a pointer to the element [i]; a null pointer when the bytes do not
    fit the header. *)
Definition changed (r : outcome (option (list Z * option Z))) (bytes : Z) (ts : list (list Z)) (i : nat) (p : Z) : Prop :=
  if bytes <? 2 ^ 32 then ∃ lp, r = Ret (Some (lp, Some p)) ∧ lp_at lp ts i p ∧ lpBytes lp = Ret bytes
  else r = Ret None.

(** The blocks the operations can produce, with pointers obtained by [lpSeek]. *)
Inductive reachable {A : Allocator} : list Z → Prop :=
  | re_new cap lp : 0 <= cap → lpNew cap = Ret lp → reachable lp
  | re_insert lp ele i p w lp' q : reachable lp → bytes_ok ele → zlen ele < 2 ^ 32 → lpSeek lp i = Ret (Some p) →
      lpInsert lp (Some ele) p w = Ret (Some (lp', q)) → reachable lp'
  | re_append lp ele lp' q : reachable lp → bytes_ok ele → zlen ele < 2 ^ 32 →
      lpAppend lp ele = Ret (Some (lp', q)) → reachable lp'
  | re_delete lp i p lp' q : reachable lp → lpSeek lp i = Ret (Some p) →
      lpDelete lp p = Ret (Some (lp', q)) → reachable lp'
  | re_length lp lp' n : reachable lp → lpLength lp = Ret (lp', n) → reachable lp'
  | re_shrink lp lp' : reachable lp → lpShrinkToFit lp = Ret lp' → reachable lp'.

(** A block with the elements "ab" and "1000", the second as an integer. *)
Definition demo : list Z := [14; 0; 0; 0; 2; 0; 0x82; 97; 98; 3; 0xC3; 0xE8; 2; 0xFF].
Definition demo_entries : list entry := [([0x82; 97; 98], [3]); ([0xC3; 0xE8], [2])].

(** An empty string whose length has a bit too many, behind a header. *)
Definition demo_gap : list Z := [9; 0; 0; 0; 1; 0; 0x80; 0x81; 0xFF].

Section changes.
Context {A : Allocator} {L : AllocatorLaws A}.

Lemma rep_length lp xs vs : rep lp xs vs → length xs = length vs.
Proof. intros [_ _ H]. by eapply Forall2_length. Qed.

Lemma splice_at lp xs vs i k ns us ele o enclen backlen replace :
  rep lp xs vs → (i + k <= length xs)%nat → Z.of_nat k = b2z replace → Forall2 entry_ok ns us →
  new_entry ele o enclen backlen ns → (ele = None → replace = true) → enclen < 2 ^ 33 → zlen backlen <= 5 →
  let os := take k (drop i xs) in
  let bytes := pos xs + 1 + zlen (body ns) - zlen (body os) in
  ∃ lp', lp_splice lp ele o enclen backlen replace (pos (take i xs)) (pos xs + 1) (zlen (body os)) =
    Ret (if 2 ^ 32 - 1 <? bytes then None
         else Some (lp', match ele, drop (i + k) xs with None, [] => None | _, _ => Some (pos (take i xs)) end)) ∧
    (bytes < 2 ^ 32 → lp_at lp' (text <$> take i vs ++ us ++ drop (i + k) vs) i (pos (take i xs)) ∧ lpBytes lp' = Ret bytes).
Proof.
  intros R Hi Hk HU HN HE He Hb os bytes. pose proof (rep_length _ _ _ R) as HL.
  assert (Ex : ∀ {B} (l : list B), l = take i l ++ take k (drop i l) ++ drop (i + k) l).
  { intros B l. by rewrite <- drop_drop, take_drop, take_drop. }
  pose proof (rep_entries _ _ _ R) as HF.
  assert (HZ : pos (take i xs ++ ns ++ drop (i + k) xs) + 1 = bytes).
  { assert (pos xs = pos (take i xs) + (zlen (body os) + zlen (body (drop (i + k) xs)))).
    - rewrite (Ex _ xs) at 1. fold os. rewrite lp_pos_app, body_app. zlr. lia.
    - unfold bytes. rewrite lp_pos_app, body_app. zlr. lia. }
  rewrite (Ex _ xs), (Ex _ vs) in R. fold os in R.
  destruct (splice_rep lp (take i xs) os ns (drop (i + k) xs) (take i vs) (take k (drop i vs)) us (drop (i + k) vs)
    ele o enclen backlen replace R) as (lp' & E & HR); try done.
  { by apply Forall2_take. } { by apply Forall2_drop. }
  { rewrite <- Hk. unfold os, zlen. rewrite length_take, length_drop. lia. }
  unfold os in E. rewrite <- (Ex _ xs) in E. fold os in E. rewrite HZ in E, HR. exists lp'. split; [exact E|]. intros HB. specialize (HR HB). split.
  - eexists _, _. split; [exact HR|]. split_and!; [done|rewrite length_app, length_take; lia|].
    by rewrite take_app_length' by (rewrite length_take; lia).
  - unfold lpBytes. rewrite (valid_total _ _ _ (lp_rep_valid _ _ _ HR)). by rewrite HZ.
Qed.

(** The new entry of a string. *)
Lemma new_entry_of ele : bytes_ok ele → zlen ele < 2 ^ 32 → ∃ o n v ns,
  lpEncodeGetType ele = Ret (o, n) ∧ n < 2 ^ 33 ∧ text v = ele ∧ new_entry (Some ele) o n (lpEncodeBacklen n) ns ∧
  Forall2 entry_ok ns [v] ∧ zlen (body ns) = n + zlen (lpEncodeBacklen n).
Proof.
  intros Hb HL. destruct (encode_type ele Hb HL) as (o & e & v & ET & He & Hbe & Hv & Hl & Hw).
  exists o, (zlen e), v, [(e, lpEncodeBacklen (zlen e))]. split_and!; [done|lia|done|by exists e| |].
  - constructor; [apply entry_new; [done..|lia]|constructor].
  - rewrite body_cons. unfold body. cbn. zlr. lia.
Qed.

(** What [splice_at] gives is the change of the list. *)
Lemma changed_intro r bytes ts i p :
  (∃ lp, r = Ret (if 2 ^ 32 - 1 <? bytes then None else Some (lp, Some p)) ∧
    (bytes < 2 ^ 32 → lp_at lp ts i p ∧ lpBytes lp = Ret bytes)) → changed r bytes ts i p.
Proof.
  intros (lp & -> & H). unfold changed. case_cond.
  - test (2 ^ 32 - 1 <? bytes) false. exists lp. split; [done|]. apply H. lia.
  - by test (2 ^ 32 - 1 <? bytes) true.
Qed.

Lemma before_at lp xs vs i ele o n : rep lp xs vs → (i <= length xs)%nat → bytes_ok ele → zlen ele < 2 ^ 32 →
  lpEncodeGetType ele = Ret (o, n) →
  changed (lpInsert lp (Some ele) (pos (take i xs)) LP_BEFORE) (pos xs + 1 + (n + zlen (lpEncodeBacklen n)))
    (take i (text <$> vs) ++ ele :: drop i (text <$> vs)) i (pos (take i xs)).
Proof.
  intros R Hi Hb HL ET. destruct (new_entry_of ele Hb HL) as (o' & n' & v & ns & ET' & Hn & Hv & HN & HU & HZ).
  rewrite ET in ET'. injection ET' as <- <-. pose proof (backlen_size n).
  destruct (splice_at lp xs vs i 0 ns [v] (Some ele) o n (lpEncodeBacklen n) false R) as (lp' & E & H'); [lia|done..|lia|].
  apply changed_intro. exists lp'. rewrite lp_insert_before, ET. run. rewrite (valid_total _ _ _ (lp_rep_valid _ _ _ R)). run.
  cbn [take] in *. change (zlen (body [])) with 0 in *. rewrite HZ, Z.sub_0_r in *. split; [exact E|].
  rewrite Nat.add_0_r in *. intros HB. specialize (H' HB). rewrite !fmap_app, fmap_take, fmap_drop in H'. cbn in H'.
  by rewrite Hv in H'.
Qed.

(** A pointer to an element, and the one behind it. *)
Lemma skip_at lp xs vs i : rep lp xs vs → (i < length xs)%nat → ∃ x, xs !! i = Some x ∧
  lpSkip lp (pos (take i xs)) = Ret (pos (take (S i) xs)) ∧ take 1 (drop i xs) = [x] ∧
  pos (take (S i) xs) - pos (take i xs) = zlen x.1 + zlen (lpEncodeBacklen (zlen x.1)) ∧
  lpCurrentEncodedSizeUnsafe lp (pos (take i xs)) = Ret (zlen x.1) ∧
  LP_HDR_SIZE <= pos (take i xs) ∧ pos (take (S i) xs) <= pos xs.
Proof.
  intros R%lp_rep_valid Hi. destruct (lookup_lt_is_Some_2 xs i Hi) as [x Hx]. exists x.
  assert (E : xs = take i xs ++ x :: drop (S i) xs) by (by rewrite take_drop_middle).
  pose proof (take_S_r xs i x Hx) as ES. destruct (valid_size _ _ _ R _ _ _ E) as [HS _].
  destruct (valid_split _ _ _ R _ _ _ E) as (v & a & c & [_ Hz] & _ & _ & _ & _ & HP & _).
  rewrite ES. split_and!; [done|by apply (valid_skip _ _ _ R _ _ _ E)| |rewrite lp_pos_snoc; lia|done|apply pos_ge|done].
  by rewrite (drop_S xs x i Hx).
Qed.

Lemma after_at lp xs vs i ele o n : rep lp xs vs → (i < length xs)%nat → bytes_ok ele → zlen ele < 2 ^ 32 →
  lpEncodeGetType ele = Ret (o, n) →
  changed (lpInsert lp (Some ele) (pos (take i xs)) LP_AFTER) (pos xs + 1 + (n + zlen (lpEncodeBacklen n)))
    (take (S i) (text <$> vs) ++ ele :: drop (S i) (text <$> vs)) (S i) (pos (take (S i) xs)).
Proof.
  intros R Hi Hb HL ET. destruct (skip_at lp xs vs i R Hi) as (x & _ & HS & _ & _ & _ & H1 & H2).
  rewrite insert_after, HS. run. unfold ASSERT_INTEGRITY. rewrite (valid_total _ _ _ (lp_rep_valid _ _ _ R)). run.
  rewrite c_assert_true by (pose proof (pos_ge (take (S i) xs)); lia). run. by apply (before_at _ _ _ _ _ o).
Qed.

(** The length of the entry that is replaced. *)
Lemma replaced_at lp xs vs i : rep lp xs vs → (i < length xs)%nat → ∃ l,
  lpCurrentEncodedSizeUnsafe lp (pos (take i xs)) = Ret l ∧
  u32 (l + zlen (lpEncodeBacklen l)) = pos (take (S i) xs) - pos (take i xs) ∧
  zlen (body (take 1 (drop i xs))) = pos (take (S i) xs) - pos (take i xs) ∧
  ASSERT_INTEGRITY_LEN lp (pos (take i xs)) (pos (take (S i) xs) - pos (take i xs)) = Ret tt.
Proof.
  intros R Hi. destruct (skip_at lp xs vs i R Hi) as (x & Hx & _ & HT & HZ & HS & H1 & H2). exists (zlen x.1).
  pose proof (rep_total _ _ _ R). pose proof (zlen_nonneg x.1). pose proof (backlen_size (zlen x.1)).
  split_and!; [done| | |].
  - rewrite wrapu_id; unfold LP_HDR_SIZE in *; lia.
  - rewrite HT. pose proof (lp_pos_app (take i xs) [x]) as HQ. rewrite <- (take_S_r xs i x Hx) in HQ. lia.
  - unfold ASSERT_INTEGRITY_LEN. rewrite (valid_total _ _ _ (lp_rep_valid _ _ _ R)). run. apply c_assert_true. lia.
Qed.

Lemma replace_at lp xs vs i ele o n : rep lp xs vs → (i < length xs)%nat → bytes_ok ele → zlen ele < 2 ^ 32 →
  lpEncodeGetType ele = Ret (o, n) →
  changed (lpInsert lp (Some ele) (pos (take i xs)) LP_REPLACE)
    (pos xs + 1 + (n + zlen (lpEncodeBacklen n)) - (pos (take (S i) xs) - pos (take i xs)))
    (<[i := ele]> (text <$> vs)) i (pos (take i xs)).
Proof.
  intros R Hi Hb HL ET. destruct (new_entry_of ele Hb HL) as (o' & n' & v & ns & ET' & Hn & Hv & HN & HU & HZ).
  rewrite ET in ET'. injection ET' as <- <-. pose proof (backlen_size n).
  destruct (splice_at lp xs vs i 1 ns [v] (Some ele) o n (lpEncodeBacklen n) true R) as (lp' & E & H'); [lia|done..|lia|].
  destruct (replaced_at lp xs vs i R Hi) as (l & Hl & Eu & Ez & HA). rewrite Ez, HZ in E, H'.
  apply changed_intro. exists lp'. rewrite insert_replace, ET. run. rewrite (valid_total _ _ _ (lp_rep_valid _ _ _ R)). run.
  rewrite Hl. run. rewrite Eu, HA. run. split; [exact E|]. intros HB. specialize (H' HB).
  pose proof (rep_length _ _ _ R). rewrite insert_take_drop by (rewrite length_fmap; lia).
  rewrite !fmap_app, fmap_take, fmap_drop, Nat.add_1_r in H'. cbn in H'. by rewrite Hv in H'.
Qed.

Lemma delete_at lp xs vs i : rep lp xs vs → (i < length xs)%nat → ∃ lp',
  lpDelete lp (pos (take i xs)) = Ret (Some (lp', if decide (S i < length xs)%nat then Some (pos (take i xs)) else None)) ∧
  lp_at lp' (delete i (text <$> vs)) i (pos (take i xs)) ∧
  lpBytes lp' = Ret (pos xs + 1 - (pos (take (S i) xs) - pos (take i xs))).
Proof.
  intros R Hi.
  destruct (splice_at lp xs vs i 1 [] [] None None 0 [] true R) as (lp' & E & H'); [lia|done..|].
  destruct (replaced_at lp xs vs i R Hi) as (l & Hl & Eu & Ez & HA). rewrite Ez in E, H'.
  destruct (skip_at lp xs vs i R Hi) as (_ & _ & _ & _ & _ & _ & H1 & H2). pose proof (rep_total _ _ _ R).
  assert (HD : pos (take i xs) <= pos (take (S i) xs)).
  { replace (take i xs) with (take i (take (S i) xs)) by (rewrite take_take; f_equal; lia).
    rewrite <- (take_drop i (take (S i) xs)) at 2. apply pos_mono. }
  change (zlen (body [])) with 0 in *. rewrite Z.add_0_r in *.
  exists lp'. rewrite insert_delete, (valid_total _ _ _ (lp_rep_valid _ _ _ R)). run.
  rewrite Hl. run. rewrite Eu, HA. run. rewrite E, Nat.add_1_r in *. case_cond; [lia|]. split.
  - do 3 f_equal. pose proof (length_drop xs (S i)) as HL. destruct (drop (S i) xs); cbn in HL; case_decide; done || lia.
  - rewrite delete_take_drop, <- fmap_take, <- fmap_drop, <- fmap_app. apply H'. lia.
Qed.

Lemma append_at lp xs vs ele o n : rep lp xs vs → bytes_ok ele → zlen ele < 2 ^ 32 → lpEncodeGetType ele = Ret (o, n) →
  changed (lpAppend lp ele) (pos xs + 1 + (n + zlen (lpEncodeBacklen n))) ((text <$> vs) ++ [ele]) (length vs) (pos xs).
Proof.
  intros R Hb HL ET. unfold lpAppend. rewrite (valid_total _ _ _ (lp_rep_valid _ _ _ R)). run.
  pose proof (before_at lp xs vs (length xs) ele o n R ltac:(lia) Hb HL ET) as H. pose proof (rep_length _ _ _ R) as HV.
  rewrite (take_ge xs), take_ge, drop_ge in H by (rewrite ?length_fmap; lia).
  replace (pos xs + 1 - 1) with (pos xs) by lia. by rewrite <- HV.
Qed.

Lemma new_rep cap : 0 <= cap → ∃ lp, lpNew cap = Ret lp ∧ rep lp [] [].
Proof.
  intros Hc. unfold lpNew, lp_malloc. set (n := if LP_HDR_SIZE + 1 <? cap then cap else LP_HDR_SIZE + 1).
  assert (Hn : 7 <= n) by (unfold n; case_cond; unfold LP_HDR_SIZE in *; lia).
  pose proof (usable_size_ge n ltac:(lia)). assert (HZ : zlen (zmalloc (usable_size n)) = usable_size n) by (apply zlen_zmalloc; lia).
  destruct (zsplit 4 (zmalloc (usable_size n))) as (t4 & r & E & H4 & Hr); [lia|].
  rewrite E. clear E. destruct (zsplit 2 r) as (n2 & r' & -> & H2 & _); [lia|]. zlr. destruct r' as [|x slack]; [zlr; lia|].
  rewrite set_total by done. run. rewrite set_num by done. run.
  rewrite (wr_at _ _ _ (le_enc 4 7 ++ le_enc 2 0) x slack) by done.
  eexists. split; [done|]. split; [|done|constructor]. exists 0, slack. split; [done|]. right. done.
Qed.

Lemma shrink_rep lp xs vs : rep lp xs vs → ∃ lp', lpShrinkToFit lp = Ret lp' ∧ rep lp' xs vs ∧
  (pos xs + 1 < zlen lp → zlen lp' = usable_size (pos xs + 1)).
Proof.
  intros R. unfold lpShrinkToFit. rewrite (valid_total _ _ _ (lp_rep_valid _ _ _ R)). run. eexists. split; [done|].
  unfold lp_malloc_size. case_cond; [|split; [done|lia]]. pose proof (pos_ge xs). unfold LP_HDR_SIZE in *.
  pose proof (usable_size_ge (pos xs + 1) ltac:(lia)). unfold lp_realloc. split; [|intros _; apply zlen_zrealloc; lia].
  destruct R as [(num & slack & E & HN) HT HE].
  destruct (zrealloc_prefix (le_enc 4 (pos xs + 1) ++ le_enc 2 num ++ body xs ++ [LP_EOF]) slack (usable_size (pos xs + 1)))
    as (r & Er & _); [unfold pos, LP_HDR_SIZE in *; zlr; lia|].
  split; [|done|done]. exists num, r. split; [|done].
  replace lp with ((le_enc 4 (pos xs + 1) ++ le_enc 2 num ++ body xs ++ [LP_EOF]) ++ slack) by (rewrite E; unfold layout; by lapp).
  rewrite Er. unfold layout. by lapp.
Qed.

Lemma length_rep lp xs vs : rep lp xs vs → ∃ lp', lpLength lp = Ret (lp', zlen xs) ∧ rep lp' xs vs.
Proof.
  intros R. destruct (length_at _ _ _ (lp_rep_valid _ _ _ R)) as (lp' & E & H'). exists lp'. split; [done|].
  destruct H' as [->|[HL HS]]; [done|]. destruct R as [(num & slack & -> & HN) HT HE].
  unfold layout in HS. rewrite set_num in HS by done. injection HS as <-.
  split; [|done|done]. exists (zlen xs), slack. split; [done|]. by right.
Qed.

End changes.

(** * Elements and pointers *)

Lemma positions_lookup xs i : ((λ i, pos (take i xs)) <$> seq 0 (length xs)) !! i =
  if decide (i < length xs)%nat then Some (pos (take i xs)) else None.
Proof.
  rewrite list_lookup_fmap. case_decide.
  - by rewrite lookup_seq_lt by done.
  - by rewrite lookup_seq_ge by lia.
Qed.

Lemma index_positions xs i : index_ptr xs i =
  if i <? 0 then None else ((λ i, pos (take i xs)) <$> seq 0 (length xs)) !! Z.to_nat i.
Proof.
  rewrite positions_lookup. unfold index_ptr, zlen. repeat (case_cond || case_decide); done || lia.
Qed.

Lemma at_elements lp xs vs : rep lp xs vs → let ps := (λ i, pos (take i xs)) <$> seq 0 (length xs) in
  lp_elements lp (text <$> vs) ps ∧ ∀ j q, (ps ++ [pos xs]) !! j = Some q → lp_at lp (text <$> vs) j q.
Proof.
  intros R ps. split; [exists xs, vs; split_and!; [by apply lp_rep_valid|done..]|]. intros j q Hq.
  exists xs, vs. split_and!; [done..| |].
  - apply lookup_lt_Some in Hq. unfold ps in Hq. rewrite length_app, length_fmap, length_seq in Hq. cbn in Hq. lia.
  - destruct (decide (j < length xs)%nat) as [Hj|Hj].
    + rewrite lookup_app_l in Hq by (unfold ps; by rewrite length_fmap, length_seq). unfold ps in Hq.
      rewrite positions_lookup, decide_True in Hq by done. congruence.
    + rewrite lookup_app_r in Hq by (unfold ps; rewrite length_fmap, length_seq; lia).
      apply list_lookup_singleton_Some in Hq as [_ <-]. by rewrite take_ge by lia.
Qed.

Lemma get_text_at lp xs vs i t buf : valid lp xs vs → (text <$> vs) !! i = Some t → 21 <= zlen buf →
  get_text lp (pos (take i xs)) buf = Ret t ∧
  ((∃ n, int64 n ∧ t = dec n ∧ lpGet lp (pos (take i xs)) None = Ret (PNull, n, None)) ∨
   (∃ q, lpGet lp (pos (take i xs)) None = Ret (PPack q, zlen t, None) ∧ rdn lp q (zlen t) = Ret t)).
Proof.
  intros V Ht HB. rewrite list_lookup_fmap in Ht. destruct (vs !! i) as [v|] eqn:Hv; [|done]. injection Ht as <-.
  unfold get_text. rewrite <- (Nat2Z.id i) in Hv |- *. 
  destruct (get_index lp xs vs V (Z.of_nat i) v (Some buf) ltac:(lia) Hv) as (a & c & e & El & Ha & He & Hb & ->).
  destruct (get_index lp xs vs V (Z.of_nat i) v None ltac:(lia) Hv) as (a' & c' & e' & El' & Ha' & He' & Hb' & ->).
  destruct v as [n|bs]; cbn [text].
  - pose proof (encodes_int _ _ He) as Hn. destruct (int_result_text n buf Hn HB) as (b' & ->). run.
    rewrite rdn_app0 by done. split; [done|]. left. by exists n.
  - destruct (encodes_str _ _ He) as (h & ->). destruct (encodes_str _ _ He') as (h' & ->). run. split.
    + rewrite El. apply (rdn_at _ _ _ bs (a ++ h) c); [by lapp|zlr; lia|done].
    + right. eexists. split; [done|]. rewrite El'. apply (rdn_at _ _ _ bs (a' ++ h') c'); [by lapp|zlr; lia|done].
Qed.

Section reach.
Context {A : Allocator} {L : AllocatorLaws A}.

Lemma seek_at lp xs vs i p : rep lp xs vs → lpSeek lp i = Ret (Some p) → ∃ j, (j < length xs)%nat ∧ p = pos (take j xs).
Proof.
  intros R H. rewrite (seek_index _ _ _ (lp_rep_valid _ _ _ R)) in H. injection H as H.
  apply index_some in H as [Hi ->]. eexists. split; [|done]. unfold zlen in *. lia.
Qed.

Lemma changed_inv r bytes ts i p lp q : changed r bytes ts i p → r = Ret (Some (lp, q)) → lp_at lp ts i p.
Proof. unfold changed. case_cond; [|congruence]. intros (lp' & -> & H & _) [= <- <-]. done. Qed.

Lemma reachable_rep lp : reachable lp → ∃ xs vs, rep lp xs vs.
Proof.
  induction 1 as [cap lp Hc E|lp ele i p w lp' q _ (xs & vs & R) Hb HL HS E|lp ele lp' q _ (xs & vs & R) Hb HL E
                 |lp i p lp' q _ (xs & vs & R) HS E|lp lp' n _ (xs & vs & R) E|lp lp' _ (xs & vs & R) E].
  - destruct (new_rep cap Hc) as (lp' & E' & R). assert (lp' = lp) as -> by congruence. eauto.
  - destruct (seek_at _ _ _ _ _ R HS) as (j & Hj & ->).
    destruct (new_entry_of ele Hb HL) as (o & n & _ & _ & ET & _). destruct w.
    + by destruct (changed_inv _ _ _ _ _ _ _ (before_at lp xs vs j ele o n R ltac:(lia) Hb HL ET) E) as (? & ? & ? & _); eauto.
    + by destruct (changed_inv _ _ _ _ _ _ _ (after_at lp xs vs j ele o n R Hj Hb HL ET) E) as (? & ? & ? & _); eauto.
    + by destruct (changed_inv _ _ _ _ _ _ _ (replace_at lp xs vs j ele o n R Hj Hb HL ET) E) as (? & ? & ? & _); eauto.
  - destruct (new_entry_of ele Hb HL) as (o & n & _ & _ & ET & _).
    by destruct (changed_inv _ _ _ _ _ _ _ (append_at lp xs vs ele o n R Hb HL ET) E) as (? & ? & ? & _); eauto.
  - destruct (seek_at _ _ _ _ _ R HS) as (j & Hj & ->).
    destruct (delete_at lp xs vs j R Hj) as (lp2 & E2 & (xs' & vs' & R' & _) & _). rewrite E2 in E. injection E as <- _. eauto.
  - destruct (length_rep lp xs vs R) as (lp2 & E2 & R'). assert (lp2 = lp') as <- by congruence. eauto.
  - destruct (shrink_rep lp xs vs R) as (lp2 & E2 & R' & _). assert (lp2 = lp') as <- by congruence. eauto.
Qed.

End reach.

Lemma lp_demo_rep : rep demo demo_entries [VStr [97; 98]; VInt 1000].
Proof.
  split.
  - exists 2, []. split; [reflexivity|]. by right.
  - done.
  - constructor; [|constructor; [|constructor]].
    + split; [by repeat constructor|apply (en_str6 [97; 98]); done|reflexivity|reflexivity].
    + split; [by repeat constructor|apply (en_int13 3 0xE8); done|reflexivity|reflexivity].
Defined.

(** * Properties *)

(** C29. A listpack is a list of strings.  [lpInsert] puts an element before or
    behind the one a pointer names or in its place, [lpDelete] removes it,
    [lpAppend] adds one at the end; the others are unchanged, the pointer
    returned is that of the new element (of the next one after a deletion, null
    at the end), and the header has the new size.  A null pointer is returned
    exactly when that size exceeds 32 bits.  [lpNew] makes an empty list,
    [lpLength] counts and [lpShrinkToFit] gives memory back, both without
    changing the list. *)
Theorem listpack_refines {A : Allocator} {L : AllocatorLaws A} :
  (∀ cap, 0 <= cap → ∃ lp, lpNew cap = Ret lp ∧ lp_at lp [] 0 LP_HDR_SIZE) ∧
  ∀ lp ts i p, lp_at lp ts i p → ∃ t ps, lpBytes lp = Ret t ∧ lp_elements lp ts ps ∧
  (∀ j q, (ps ++ [t - 1]) !! j = Some q → lp_at lp ts j q) ∧
  (∃ lp', lpLength lp = Ret (lp', zlen ts) ∧ lp_at lp' ts i p) ∧
  (∃ lp', lpShrinkToFit lp = Ret lp' ∧ lp_at lp' ts i p ∧ (t < zlen lp → zlen lp' = usable_size t)) ∧
  (∀ ele, bytes_ok ele → zlen ele < 2 ^ 32 → ∃ o n, lpEncodeGetType ele = Ret (o, n) ∧
    let need := n + zlen (lpEncodeBacklen n) in
    changed (lpInsert lp (Some ele) p LP_BEFORE) (t + need) (take i ts ++ ele :: drop i ts) i p ∧
    changed (lpAppend lp ele) (t + need) (ts ++ [ele]) (length ts) (t - 1) ∧
    ((i < length ts)%nat → ∃ q, lpSkip lp p = Ret q ∧
      changed (lpInsert lp (Some ele) p LP_AFTER) (t + need) (take (S i) ts ++ ele :: drop (S i) ts) (S i) q ∧
      changed (lpInsert lp (Some ele) p LP_REPLACE) (t + need - (q - p)) (<[i := ele]> ts) i p)) ∧
  ((i < length ts)%nat → ∃ q lp', lpSkip lp p = Ret q ∧
    lpDelete lp p = Ret (Some (lp', if decide (S i < length ts)%nat then Some p else None)) ∧
    lp_at lp' (delete i ts) i p ∧ lpBytes lp' = Ret (t - (q - p))).
Proof.
  split.
  { intros cap Hc. destruct (new_rep cap Hc) as (lp & E & R). exists lp. split; [done|]. by exists [], []. }
  intros lp ts i p (xs & vs & R & -> & Hi & ->). pose proof (rep_length _ _ _ R) as HL.
  assert (HZ : zlen (text <$> vs) = zlen xs) by (unfold zlen; by rewrite length_fmap, HL).
  destruct (at_elements lp xs vs R) as [HE HA]. eexists (pos xs + 1), _. replace (pos xs + 1 - 1) with (pos xs) by lia.
  split_and!; [apply (valid_total _ _ _ (lp_rep_valid _ _ _ R))|exact HE|exact HA| | | |].
  - destruct (length_rep lp xs vs R) as (lp' & E & R'). exists lp'. rewrite HZ. split; [done|]. by exists xs, vs.
  - destruct (shrink_rep lp xs vs R) as (lp' & E & R' & HS). exists lp'. split_and!; [done|by exists xs, vs|done].
  - intros ele Hb HB. destruct (new_entry_of ele Hb HB) as (o & n & _ & _ & ET & _). exists o, n.
    split; [done|]. cbv zeta. split_and!; [by apply (before_at _ _ _ _ _ o)|rewrite length_fmap; by apply (append_at _ _ _ _ o)|].
    rewrite length_fmap. intros Hi'. destruct (skip_at lp xs vs i R) as (x & _ & HS & _); [lia|]. eexists. split; [exact HS|].
    split; [apply (after_at _ _ _ _ _ o)|apply (replace_at _ _ _ _ _ o)]; done || lia.
  - rewrite length_fmap, <- HL. intros Hi'. destruct (skip_at lp xs vs i R) as (x & _ & HS & _); [lia|].
    destruct (delete_at lp xs vs i R) as (lp' & E & HA' & HB'); [lia|]. eexists _, lp'. split; [exact HS|]. done.
Qed.

(** C30. The navigation functions walk a block that the integrity check accepts:
    [lpFirst], [lpLast], [lpNext], [lpPrev] and [lpSeek] return the pointers of
    the elements in their order and null at the ends, without failing an
    assertion or reading outside; [lpGet] returns each element, integers printed
    into the buffer or returned as such; [lpLength] counts them. *)
Theorem listpack_navigation lp ts ps : lp_elements lp ts ps →
  length ps = length ts ∧ lpFirst lp = Ret (ps !! 0%nat) ∧ lpLast lp = Ret (last ps) ∧
  (∀ i, lpSeek lp i = Ret (at_index ps i)) ∧ (∃ lp', lpLength lp = Ret (lp', zlen ts)) ∧
  ∀ i p, ps !! i = Some p →
    lpNext lp p = Ret (ps !! S i) ∧ lpPrev lp p = Ret (match i with O => None | S j => ps !! j end) ∧
    ∃ t, ts !! i = Some t ∧ ∀ buf, 21 <= zlen buf →
      get_text lp p buf = Ret t ∧
      ((∃ n, int64 n ∧ t = dec n ∧ lpGet lp p None = Ret (PNull, n, None)) ∨
       (∃ q, lpGet lp p None = Ret (PPack q, zlen t, None) ∧ rdn lp q (zlen t) = Ret t)).
Proof.
  intros (xs & vs & V & -> & ->). pose proof (Forall2_length _ _ _ (va_entries _ _ _ V)) as HL.
  set (ps := (λ i, pos (take i xs)) <$> seq 0 (length xs)).
  assert (HP : length ps = length xs) by (unfold ps; by rewrite length_fmap, length_seq).
  assert (HZ : zlen ps = zlen xs) by (unfold zlen; by rewrite HP).
  split_and!.
  - by rewrite length_fmap, HP.
  - by rewrite (first_index _ _ _ V), index_positions.
  - rewrite (last_index _ _ _ V), index_positions. fold ps. rewrite last_lookup. f_equal.
    replace (Nat.pred (length ps)) with (Z.to_nat (zlen xs - 1)) by (rewrite HP; unfold zlen; lia).
    case_cond; [|done]. symmetry. apply lookup_ge_None. pose proof (zlen_nonneg xs). unfold zlen in *. lia.
  - intros i. rewrite (seek_index _ _ _ V), index_positions. unfold at_index. by rewrite HZ.
  - destruct (length_at _ _ _ V) as (lp' & E & _). exists lp'. rewrite E. unfold zlen. by rewrite length_fmap, HL.
  - intros i p Hp. unfold ps in Hp. rewrite positions_lookup in Hp. case_decide as Hi; [|done]. injection Hp as <-.
    pose proof (next_index _ _ _ V (Z.of_nat i) ltac:(unfold zlen; lia)) as HN.
    pose proof (prev_index _ _ _ V (Z.of_nat i) ltac:(unfold zlen; lia)) as HQ. rewrite Nat2Z.id in HN, HQ.
    rewrite HN, HQ, !index_positions. fold ps. split_and!.
    + case_cond; [lia|]. do 2 f_equal. lia.
    + f_equal. destruct i as [|j]; [done|]. case_cond; [lia|]. f_equal. lia.
    + destruct (lookup_lt_is_Some_2 (text <$> vs) i) as [t Ht]; [rewrite length_fmap; lia|]. exists t. split; [done|].
      intros buf HB. by apply (get_text_at _ _ vs).
Qed.

(** C31. [lpValidateIntegrity] never reads outside a block of the given size,
    whatever its bytes, and the deep check accepts it exactly when it is a
    listpack of that size whose lengths read back and whose count is right.

    The check has a gap: the length behind the first entry may be read through
    the header, so that it reads back only as long as the header stays as it is.
    The block [demo_gap] passes the check, but with an element inserted in front
    of that entry the server stops in [lpLast]. *)
Theorem lpValidateIntegrity_exact :
  (∀ lp size, bytes_ok lp → size <= zlen lp →
   ∃ b, lpValidateIntegrity lp size true = Ret b ∧
     (b = true ↔ (∃ ts ps, lp_elements lp ts ps) ∧ lpBytes lp = Ret size)) ∧
  (lpValidateIntegrity demo_gap (zlen demo_gap) true = Ret true ∧ lpLast demo_gap = Ret (Some 6) ∧
   ∃ lp, @lpInsert exact_alloc demo_gap (Some [97]) 6 LP_BEFORE = Ret (Some (lp, Some 6)) ∧ lpLast lp = Panic).
Proof.
  split.
  2: { split_and!; [by vm_compute..|]. exists [12; 0; 0; 0; 2; 0; 0x81; 97; 2; 0x80; 0x81; 0xFF]. split; by vm_compute. }
  intros lp size Hb HS. destruct (integrity_deep lp size Hb HS) as (b & E & HB). exists b. split; [done|]. rewrite HB. split.
  - intros (xs & vs & V & ->). split; [by eexists _, _, xs, vs|]. apply (valid_total _ _ _ V).
  - intros [(ts & ps & xs & vs & V & _) HT]. exists xs, vs. split; [done|].
    unfold lpBytes in HT. rewrite (valid_total _ _ _ V) in HT. congruence.
Qed.

(** C32. Every block made by [lpNew] and changed by the operations is well formed:
    it passes the deep integrity check, whatever the sequence. *)
Theorem listpack_well_formed {A : Allocator} {L : AllocatorLaws A} lp : reachable lp →
  ∃ t, lpBytes lp = Ret t ∧ lpValidateIntegrity lp t true = Ret true.
Proof.
  intros (xs & vs & R%lp_rep_valid)%reachable_rep. exists (pos xs + 1). split; [apply (valid_total _ _ _ R)|].
  by apply (valid_integrity _ _ vs).
Qed.

Lemma listpack_refines_witness :
  lp_at demo [[97; 98]; [49; 48; 48; 48]] 1 10 ∧
  changed (@lpInsert exact_alloc demo (Some [120]) 10 LP_BEFORE) 17 [[97; 98]; [120]; [49; 48; 48; 48]] 1 10.
Proof.
  assert (H : lp_at demo [[97; 98]; [49; 48; 48; 48]] 1 10)
    by (exists demo_entries, [VStr [97; 98]; VInt 1000]; split; [exact lp_demo_rep|]; split; [reflexivity|]; split; [cbn; lia|reflexivity]).
  split; [exact H|].
  destruct (proj2 (@listpack_refines exact_alloc exact_alloc_laws) demo _ 1%nat 10 H) as (t & ps & Ht & _ & _ & _ & _ & HI & _).
  destruct (HI [120] ltac:(by repeat constructor) ltac:(done)) as (o & n & En & HB & _).
  vm_compute in Ht. injection Ht as <-. vm_compute in En. injection En as <- <-. exact HB.
Defined.

Lemma listpack_navigation_witness :
  lp_elements demo [[97; 98]; [49; 48; 48; 48]] [6; 10] ∧ lpSeek demo (-1) = Ret (Some 10).
Proof.
  assert (H : lp_elements demo [[97; 98]; [49; 48; 48; 48]] [6; 10])
    by (exists demo_entries, [VStr [97; 98]; VInt 1000]; split; [apply lp_rep_valid, lp_demo_rep|split; reflexivity]).
  split; [exact H|]. destruct (listpack_navigation demo _ _ H) as (_ & _ & _ & HS & _). exact (HS (-1)).
Defined.

Lemma lpValidateIntegrity_exact_witness :
  bytes_ok demo ∧ zlen demo <= zlen demo ∧ ∃ b, lpValidateIntegrity demo (zlen demo) true = Ret b.
Proof.
  assert (Hb : bytes_ok demo) by (by repeat constructor).
  split; [exact Hb|]. split; [reflexivity|].
  destruct (proj1 lpValidateIntegrity_exact demo (zlen demo) Hb ltac:(reflexivity)) as (b & E & _). by exists b.
Defined.

Lemma listpack_well_formed_witness :
  ∃ lp, @reachable exact_alloc lp ∧ ∃ t, lpBytes lp = Ret t ∧ lpValidateIntegrity lp t true = Ret true.
Proof.
  exists [7; 0; 0; 0; 0; 0; 255].
  assert (H : @reachable exact_alloc [7; 0; 0; 0; 0; 0; 255]) by (apply (re_new 0); [lia|by vm_compute]).
  split; [exact H|]. exact (@listpack_well_formed exact_alloc exact_alloc_laws _ H).
Defined.

End ListpackSpec.
