(* ===== verification/Lzf.v ===== *)
(** LZF compression: [src/.../redis-6.2/src/lzf_c.c] and [lzf_d.c] with the
    settings of [lzfP.h] on a 64-bit host: [VERY_FAST], no [ULTRA_FAST],
    [CHECK_INPUT], offsets in the hash table.

    A pointer into the input or the output is an offset.  The hash table is a
    local array that is not initialised ([INIT_HTAB] is 0), so its contents are
    an argument. *)
From S2P Require Import Prelude.

Module Lzf.

(** * Constants and macros *)

Definition HLOG : Z := 16.
Definition HSIZE : Z := Z.shiftl 1 HLOG.
Definition MAX_LIT : Z := Z.shiftl 1 5.
Definition MAX_OFF : Z := Z.shiftl 1 13.
Definition MAX_REF : Z := Z.shiftl 1 8 + Z.shiftl 1 3.

Definition FRST (in_data : list Z) (p : Z) : outcome Z :=
  c0 ← rd in_data p; c1 ← rd in_data (p + 1); Ret (Z.lor (Z.shiftl c0 8) c1).
Definition NEXT (in_data : list Z) (v p : Z) : outcome Z :=
  c2 ← rd in_data (p + 2); Ret (Z.lor (u32 (Z.shiftl v 8)) c2).
Definition IDX (h : Z) : Z := Z.land (u32 (Z.shiftr h (3 * 8 - HLOG) - u32 (h * 5))) (HSIZE - 1).

(** * Compression *)

(** The local variables of [lzf_compress] that its loop changes, with the
    output buffer. *)
Record cstate := CState { ip : Z; op : Z; lit : Z; out : list Z; hval : Z; htab : list Z }.

(** [len++; if (ref [len] != ip [len]) break;] [n] times: the length, and
    whether the code left the loop. *)
Fixpoint same_unrolled (n : nat) (in_data : list Z) (ref ip len : Z) : outcome (Z * bool) :=
  match n with
  | O => Ret (len, false)
  | S n =>
    let len := len + 1 in
    a ← rd in_data (ref + len);
    b ← rd in_data (ip + len);
    if negb (a =? b) then Ret (len, true) else same_unrolled n in_data ref ip len
  end.

(** [do len++; while (len < maxlen && ref[len] == ip[len]);] *)
Fixpoint same_loop (fuel : nat) (in_data : list Z) (ref ip len maxlen : Z) : outcome Z :=
  match fuel with
  | O => OutOfFuel
  | S fuel =>
    let len := len + 1 in
    if len <? maxlen then
      a ← rd in_data (ref + len);
      b ← rd in_data (ip + len);
      if a =? b then same_loop fuel in_data ref ip len maxlen else Ret len
    else Ret len
  end.

Definition match_length (in_data : list Z) (ref ip maxlen : Z) : outcome Z :=
  '(len, stop) ← (if 16 <? maxlen then same_unrolled 16 in_data ref ip 2 else Ret (2, false));
  if stop : bool then Ret len else same_loop (Z.to_nat MAX_REF) in_data ref ip len maxlen.

(** The condition under which a match is used, for the [slot] read from the
    hash table: [Some off]. *)
Definition find_match (in_data : list Z) (slot ip : Z) : outcome (option Z) :=
  let ref := slot in
  let off := u64 (ip - ref - 1) in
  if (off <? MAX_OFF) && (0 <? ref) then
    r2 ← rd in_data (ref + 2);
    c2 ← rd in_data (ip + 2);
    if r2 =? c2 then
      r ← rdn in_data ref 2;
      c ← rdn in_data ip 2;
      Ret (if bool_decide (r = c) then Some off else None)
    else Ret None
  else Ret None.

(** [op [- lit - 1] = lit - 1; /* stop run */] *)
Definition stop_run (out : list Z) (op lit : Z) : outcome (list Z) := wr out (op - lit - 1) (u8 (lit - 1)).

(** The reference that is written for a match of [len + 2] bytes. *)
Definition put_ref (out : list Z) (op off len : Z) : outcome (list Z * Z) :=
  '(out, op) ← (if len <? 7 then
                  out ← wr out op (u8 (Z.shiftr off 8 + Z.shiftl len 5)); Ret (out, op + 1)
                else
                  out ← wr out op (u8 (Z.shiftr off 8 + Z.shiftl 7 5));
                  out ← wr out (op + 1) (u8 (len - 7)); Ret (out, op + 2));
  out ← wr out op (u8 off);
  Ret (out, op + 1).

(** What a round of the loop does: return 0, leave the loop, go on. *)
Inductive round := Return0 (out : list Z) | Leave (st : cstate) | Continue (st : cstate).

(** [lit++; *op++ = *ip++;] and the end of a full run. *)
Definition put_literal (in_data : list Z) (st : cstate) : outcome cstate :=
  let lit := lit st + 1 in
  c ← rd in_data (ip st);
  out ← wr (out st) (op st) c;
  let op := op st + 1 in
  if lit =? MAX_LIT then
    out ← stop_run out op lit;
    Ret (CState (ip st + 1) (op + 1) 0 out (hval st) (htab st))
  else Ret (CState (ip st + 1) op lit out (hval st) (htab st)).

(** The block of [lzf_compress] for a match at [ref], at distance [off + 1]. *)
Definition put_match (in_data : list Z) (in_end out_end ref off : Z) (st : cstate) : outcome round :=
  let ip := ip st in
  let maxlen := u32 (in_end - ip - 2) in
  let maxlen := if MAX_REF <? maxlen then MAX_REF else maxlen in
  let no_lit := b2z (lit st =? 0) in
  if (out_end <=? op st + 3 + 1) && (out_end <=? op st - no_lit + 3 + 1) then Ret (Return0 (out st))
  else
    out ← stop_run (out st) (op st) (lit st);
    let op := op st - no_lit in
    len ← match_length in_data ref ip maxlen;
    let len := len - 2 in
    let ip := ip + 1 in
    '(out, op) ← put_ref out op off len;
    let op := op + 1 in
    let ip := ip + (len + 1) in
    if in_end - 2 <=? ip then Ret (Leave (CState ip op 0 out (hval st) (htab st)))
    else
      let ip := ip - 2 in
      hval ← FRST in_data ip;
      hval ← NEXT in_data hval ip;
      htab ← wrn (htab st) (IDX hval) [u32 ip];
      let ip := ip + 1 in
      hval ← NEXT in_data hval ip;
      htab ← wrn htab (IDX hval) [u32 ip];
      let ip := ip + 1 in
      Ret (Continue (CState ip op 0 out hval htab)).

Definition compress_round (in_data : list Z) (in_end out_end : Z) (st : cstate) : outcome round :=
  hval ← NEXT in_data (hval st) (ip st);
  slot ← rd (htab st) (IDX hval);
  htab ← wrn (htab st) (IDX hval) [u32 (ip st)];
  let st := CState (ip st) (op st) (lit st) (out st) hval htab in
  o ← find_match in_data slot (ip st);
  match o with
  | Some off => put_match in_data in_end out_end slot off st
  | None =>
    if out_end <=? op st then Ret (Return0 (out st))
    else st ← put_literal in_data st; Ret (Continue st)
  end.

(** [while (ip < in_end - 2)]; [inl]: 0 is returned. *)
Fixpoint compress_loop (fuel : nat) (in_data : list Z) (in_end out_end : Z) (st : cstate)
    : outcome (list Z + cstate) :=
  if ip st <? in_end - 2 then
    match fuel with
    | O => OutOfFuel
    | S fuel =>
      r ← compress_round in_data in_end out_end st;
      match r with
      | Return0 out => Ret (inl out)
      | Leave st => Ret (inr st)
      | Continue st => compress_loop fuel in_data in_end out_end st
      end
    end
  else Ret (inr st).

(** [while (ip < in_end)] *)
Fixpoint rest_loop (fuel : nat) (in_data : list Z) (in_end : Z) (st : cstate) : outcome cstate :=
  if ip st <? in_end then
    match fuel with
    | O => OutOfFuel
    | S fuel => st ← put_literal in_data st; rest_loop fuel in_data in_end st
    end
  else Ret st.

(** The output buffer after the call, and the value returned. *)
Definition lzf_compress (in_data : list Z) (in_len : Z) (out_data : list Z) (out_len : Z) (htab0 : list Z)
    : outcome (list Z * Z) :=
  if (in_len =? 0) || (out_len =? 0) then Ret (out_data, 0)
  else
    hval ← FRST in_data 0;
    r ← compress_loop (Z.to_nat in_len) in_data in_len out_len (CState 0 1 0 out_data hval htab0);
    match r with
    | inl out => Ret (out, 0)
    | inr st =>
      if out_len <? op st + 3 then Ret (out st, 0)
      else
        st ← rest_loop 3 in_data in_len st;
        out ← stop_run (out st) (op st) (lit st);
        Ret (out, op st - b2z (lit st =? 0))
    end.

(** * Decompression *)

Inductive errno := E2BIG | EINVAL.

(** [*op++ = *ip++;] [n] times, from the input. *)
Fixpoint copy_literals (n : nat) (in_data out : list Z) (ip op : Z) : outcome (list Z) :=
  match n with
  | O => Ret out
  | S n => c ← rd in_data ip; out ← wr out op c; copy_literals n in_data out (ip + 1) (op + 1)
  end.

(** [*op++ = *ref++;] [n] times, inside the output. *)
Fixpoint copy_ref (n : nat) (out : list Z) (ref op : Z) : outcome (list Z) :=
  match n with
  | O => Ret out
  | S n => c ← rd out ref; out ← wr out op c; copy_ref n out (ref + 1) (op + 1)
  end.

(** The copy of [len + 2] bytes: [memcpy] for long disjoint areas. *)
Definition copy_back (out : list Z) (ref op len : Z) : outcome (list Z) :=
  if 9 <? len then
    let len := len + 2 in
    if ref + len <=? op then bs ← rdn out ref len; wrn out op bs
    else copy_ref (Z.to_nat len) out ref op
  else copy_ref (Z.to_nat (len + 2)) out ref op.

(** The output buffer, the value returned and [errno] when it is set. *)
Fixpoint decompress_loop (fuel : nat) (in_data : list Z) (in_end : Z) (out : list Z) (out_end ip op : Z)
    : outcome (list Z * Z * option errno) :=
  if ip <? in_end then
    match fuel with
    | O => OutOfFuel
    | S fuel =>
      ctrl ← rd in_data ip;
      let ip := ip + 1 in
      if ctrl <? Z.shiftl 1 5 then
        let ctrl := ctrl + 1 in
        if out_end <? op + ctrl then Ret (out, 0, Some E2BIG)
        else if in_end <? ip + ctrl then Ret (out, 0, Some EINVAL)
        else
          out ← copy_literals (Z.to_nat ctrl) in_data out ip op;
          decompress_loop fuel in_data in_end out out_end (ip + ctrl) (op + ctrl)
      else
        let len := Z.shiftr ctrl 5 in
        let ref := op - Z.shiftl (Z.land ctrl 0x1f) 8 - 1 in
        if in_end <=? ip then Ret (out, 0, Some EINVAL)
        else
          '(len, ip, bad) ← (if len =? 7 then
                               c ← rd in_data ip;
                               let ip := ip + 1 in
                               Ret (len + c, ip, in_end <=? ip)
                             else Ret (len, ip, false));
          if bad : bool then Ret (out, 0, Some EINVAL)
          else
            c ← rd in_data ip;
            let ref := ref - c in
            let ip := ip + 1 in
            if out_end <? op + len + 2 then Ret (out, 0, Some E2BIG)
            else if ref <? 0 then Ret (out, 0, Some EINVAL)
            else
              out ← copy_back out ref op len;
              decompress_loop fuel in_data in_end out out_end ip (op + (len + 2))
    end
  else Ret (out, op, None).

Definition lzf_decompress (in_data : list Z) (in_len : Z) (out_data : list Z) (out_len : Z)
    : outcome (list Z * Z * option errno) :=
  decompress_loop (Z.to_nat in_len) in_data in_len out_data out_len 0 0.

End Lzf.
