(* ===== verification/LzfFormat.v ===== *)
(** LZF: the compressed format, and that [lzf_decompress] reads it. *)
From S2P Require Import Prelude Lzf.

Module LzfFormat.
Import Lzf.

(** [n] bytes copied one by one from [off + 1] bytes behind the end, possibly
    from those just copied. *)
Fixpoint back (n : nat) (acc : list Z) (off : Z) : list Z :=
  match n with
  | O => acc
  | S n => back n (acc ++ [nth (Z.to_nat (zlen acc - off - 1)) acc 0]) off
  end.

(** The compressed format: reading [cs] when [acc] is already there gives [r].
    Literal runs of up to 32 bytes, and references of 3 to 264 bytes to the last
    8192 ones. *)
Inductive expands : list Z → list Z → list Z → Prop :=
  | ex_nil acc : expands [] acc acc
  | ex_lit c ls cs acc r : 0 <= c < 32 → zlen ls = c + 1 → expands cs (acc ++ ls) r → expands (c :: ls ++ cs) acc r
  | ex_short c lo cs acc r : 32 <= c < 224 → is_byte lo → 256 * (c mod 32) + lo < zlen acc →
      expands cs (back (Z.to_nat (c / 32 + 2)) acc (256 * (c mod 32) + lo)) r → expands (c :: lo :: cs) acc r
  | ex_long c x lo cs acc r : 224 <= c < 256 → is_byte x → is_byte lo → 256 * (c mod 32) + lo < zlen acc →
      expands cs (back (Z.to_nat (7 + x + 2)) acc (256 * (c mod 32) + lo)) r → expands (c :: x :: lo :: cs) acc r.

(** What [lzf_decompress] may return for a stream [cs] when the output starts
    with [acc] and has room for [out_len] bytes. *)
Definition decompressed (cs acc : list Z) (out_len : Z) (r : list Z * Z * option errno) : Prop :=
  let '(out, n, e) := r in
  zlen out = out_len ∧
  match e with
  | None => ∃ s t, expands cs acc s ∧ n = zlen s ∧ out = s ++ t
  | Some E2BIG => n = 0 ∧ ∀ s, expands cs acc s → out_len < zlen s
  | Some EINVAL => n = 0 ∧ ∀ s, ¬ expands cs acc s
  end.

(** * The format *)

Lemma zlen_back n acc off : zlen (back n acc off) = zlen acc + Z.of_nat n.
Proof. revert acc. induction n as [|n IH]; intros acc; cbn [back]; [lia|]. rewrite IH. zlr. lia. Qed.

Lemma back_bytes n acc off : bytes_ok acc → bytes_ok (back n acc off).
Proof.
  revert acc. induction n as [|n IH]; intros acc Ha; cbn [back]; [done|]. apply IH, Forall_app. split; [done|].
  constructor; [|constructor]. destruct (nth_in_or_default (Z.to_nat (zlen acc - off - 1)) acc 0) as [HI| ->]; [|done].
  unfold bytes_ok in Ha. rewrite Forall_forall in Ha. by apply Ha, list_elem_of_In.
Qed.

Lemma expands_app cs1 cs2 acc1 acc2 acc3 : expands cs1 acc1 acc2 → expands cs2 acc2 acc3 → expands (cs1 ++ cs2) acc1 acc3.
Proof.
  intros H1 H2. induction H1 as [acc|c ls cs acc r Hc Hl _ IH|c lo cs acc r Hc Hl Ho _ IH|c x lo cs acc r Hc Hx Hl Ho _ IH].
  - done.
  - cbn [app]. rewrite <- app_assoc. apply ex_lit; auto.
  - cbn [app]. apply ex_short; auto.
  - cbn [app]. apply ex_long; auto.
Qed.

Lemma expands_longer cs acc r : expands cs acc r → zlen acc <= zlen r.
Proof.
  induction 1 as [acc|c ls cs acc r Hc Hl _ IH|c lo cs acc r Hc Hl Ho _ IH|c x lo cs acc r Hc Hx Hl Ho _ IH];
    rewrite ?zlen_back in *; zlr; lia.
Qed.

(** A stream has at most one meaning. *)
Lemma expands_fun cs acc r1 r2 : expands cs acc r1 → expands cs acc r2 → r1 = r2.
Proof.
  intros H1. revert r2. induction H1 as [acc|c ls cs acc r Hc Hl _ IH|c lo cs acc r Hc Hl Ho _ IH|c x lo cs acc r Hc Hx Hl Ho _ IH];
    intros r2 H2; inversion H2; subst; try lia; auto.
  assert (ls = ls0 ∧ cs = cs0) as [-> ->] by (apply zapp_inj; [congruence|lia]). auto.
Qed.

(** * Copies *)

Lemma copy_literals_spec ls a c acc m r : bytes_ok ls → zlen m = zlen ls →
  copy_literals (length ls) (a ++ ls ++ c) (acc ++ m ++ r) (zlen a) (zlen acc) = Ret (acc ++ ls ++ r).
Proof.
  intros Hb. revert a acc m. induction Hb as [|x ls Hx _ IH]; intros a acc m Hm; zlr.
  - apply zlen_zero in Hm as ->. done.
  - destruct m as [|y m]; zlr; [pose proof (zlen_nonneg ls); lia|]. cbn [copy_literals length app].
    rewrite (rd_app a x (ls ++ c) _ eq_refl). run. rewrite (wr_at _ _ x acc y (m ++ r)) by done. run.
    specialize (IH (a ++ [x]) (acc ++ [x]) m ltac:(lia)). rewrite !zlen_app, <- !app_assoc in IH. exact IH.
Qed.

Lemma copy_ref_spec n acc m r off : bytes_ok acc → zlen m = Z.of_nat n → 0 <= off < zlen acc →
  copy_ref n (acc ++ m ++ r) (zlen acc - off - 1) (zlen acc) = Ret (back n acc off ++ r).
Proof.
  revert acc m. induction n as [|n IH]; intros acc m Hb Hm Ho.
  - apply zlen_zero in Hm as ->. done.
  - destruct m as [|y m]; zlr; [lia|]. cbn [copy_ref back app]. set (c := nth _ acc 0).
    assert (Hc : acc !! Z.to_nat (zlen acc - off - 1) = Some c) by (unfold c; rewrite nth_lookup;
      by destruct (lookup_lt_is_Some_2 acc (Z.to_nat (zlen acc - off - 1)) ltac:(unfold zlen in *; lia)) as [x ->]).
    assert (R : rd (acc ++ y :: m ++ r) (zlen acc - off - 1) = Ret c).
    { unfold rd. test (0 <=? zlen acc - off - 1) true. rewrite lookup_app_l by (unfold zlen in *; lia). by rewrite Hc. }
    assert (Hx : is_byte c) by (eapply Forall_lookup_1; done).
    rewrite R. run. rewrite (wr_at _ _ c acc y (m ++ r)) by done. run.
    specialize (IH (acc ++ [c]) m ltac:(by apply Forall_app_2, Forall_singleton) ltac:(lia) ltac:(zlr; lia)).
    rewrite <- IH. rewrite zlen_app, <- app_assoc. cbn [app]. f_equal; zlr; lia.
Qed.

(** Disjoint areas can be copied at once. *)
Lemma back_disjoint s a b : back (length s) (a ++ s ++ b) (zlen (s ++ b) - 1) = (a ++ s ++ b) ++ s.
Proof.
  revert a b. induction s as [|x s IH]; intros a b; [by rewrite app_nil_r|]. cbn [length back app].
  replace (nth _ _ _) with x.
  - specialize (IH (a ++ [x]) (b ++ [x])). replace (zlen (s ++ b ++ [x]) - 1) with (zlen (x :: s ++ b) - 1) in IH by (zlr; lia).
    replace ((a ++ [x]) ++ s ++ b ++ [x]) with ((a ++ x :: s ++ b) ++ [x]) in IH by (by lapp). rewrite IH. by lapp.
  - replace (Z.to_nat _) with (length a) by (rewrite zlen_app; unfold zlen; lia).
    by rewrite app_nth2, Nat.sub_diag by lia.
Qed.

Lemma copy_back_spec acc m r off len : bytes_ok acc → zlen m = len + 2 → 1 <= len → 0 <= off < zlen acc →
  copy_back (acc ++ m ++ r) (zlen acc - off - 1) (zlen acc) len = Ret (back (Z.to_nat (len + 2)) acc off ++ r).
Proof.
  intros Hb Hm Hl Ho. unfold copy_back. case_cond; [|apply (copy_ref_spec _ _ m); done || lia].
  case_cond; [|apply (copy_ref_spec _ _ m); done || lia].
  destruct (zsplit (zlen acc - off - 1) acc) as (a & t & -> & Ha & Ht); [lia|].
  destruct (zsplit (len + 2) t) as (s & b & -> & Hs & Hb'); [lia|].
  rewrite (rdn_at _ _ _ s a (b ++ m ++ r)) by (try (by lapp); lia). run.
  rewrite (wrn_at _ _ s (a ++ s ++ b) m r) by (done || lia). f_equal.
  pose proof (back_disjoint s a b) as E. replace (length s) with (Z.to_nat (len + 2)) in E by (unfold zlen in *; lia).
  replace (zlen (s ++ b) - 1) with off in E by (zlr; lia). rewrite E. by lapp.
Qed.

(** * Decompression *)

(** A step of the loop: the meaning of the stream does not change. *)
Lemma decompressed_step cs cs' acc acc' out_len r : (∀ s, expands cs' acc' s ↔ expands cs acc s) →
  decompressed cs' acc' out_len r → decompressed cs acc out_len r.
Proof.
  intros H. destruct r as [[out n] [[]|]]; cbn.
  - intros (? & ? & HS). split_and!; [done..|]. intros s Hs. by apply HS, H.
  - intros (? & ? & HS). split_and!; [done..|]. intros s Hs. by apply (HS s), H.
  - intros (? & s & t & HS & ? & ?). split; [done|]. exists s, t. by rewrite <- H.
Qed.

Lemma expands_lit_inv c cs acc s : expands (c :: cs) acc s → c < 32 →
  ∃ ls cs', cs = ls ++ cs' ∧ zlen ls = c + 1 ∧ expands cs' (acc ++ ls) s.
Proof. intros H Hc. inversion H; subst; try lia. eauto. Qed.

Lemma expands_ref_inv c cs acc s : expands (c :: cs) acc s → 32 <= c →
  (∃ lo cs', cs = lo :: cs' ∧ c < 224 ∧ 256 * (c mod 32) + lo < zlen acc ∧
     expands cs' (back (Z.to_nat (c / 32 + 2)) acc (256 * (c mod 32) + lo)) s) ∨
  (∃ x lo cs', cs = x :: lo :: cs' ∧ 224 <= c ∧ 256 * (c mod 32) + lo < zlen acc ∧
     expands cs' (back (Z.to_nat (7 + x + 2)) acc (256 * (c mod 32) + lo)) s).
Proof. intros H Hc. inversion H; subst; [lia|left; eauto 10 with lia|right; eauto 10 with lia]. Qed.

Lemma expands_lit_iff c ls cs acc s : 0 <= c < 32 → zlen ls = c + 1 → expands cs (acc ++ ls) s ↔ expands (c :: ls ++ cs) acc s.
Proof.
  intros Hc Hl. split; [by apply ex_lit|]. intros H. inversion H; subst; try lia.
  assert (ls = ls0 ∧ cs = cs0) as [-> ->] by (by apply zapp_inj; [|lia]). done.
Qed.

Lemma expands_short_iff c lo cs acc s : 32 <= c < 224 → is_byte lo → 256 * (c mod 32) + lo < zlen acc →
  expands cs (back (Z.to_nat (c / 32 + 2)) acc (256 * (c mod 32) + lo)) s ↔ expands (c :: lo :: cs) acc s.
Proof. intros Hc Hl Ho. split; [by apply ex_short|]. intros H. inversion H; subst; done || lia. Qed.

Lemma expands_long_iff c x lo cs acc s : 224 <= c < 256 → is_byte x → is_byte lo → 256 * (c mod 32) + lo < zlen acc →
  expands cs (back (Z.to_nat (7 + x + 2)) acc (256 * (c mod 32) + lo)) s ↔ expands (c :: x :: lo :: cs) acc s.
Proof. intros Hc Hx Hl Ho. split; [by apply ex_long|]. intros H. inversion H; subst; done || lia. Qed.

(** The end of a round: the copy of a reference of [len + 2] bytes. *)
Lemma decompress_back f pre cs acc m off len : bytes_ok acc → 1 <= len → 0 <= off →
  (∀ acc' m', bytes_ok acc' → ∃ r, decompress_loop f (pre ++ cs) (zlen (pre ++ cs)) (acc' ++ m') (zlen (acc' ++ m')) (zlen pre) (zlen acc') = Ret r ∧
     decompressed cs acc' (zlen (acc' ++ m')) r) →
  ∃ r, (if zlen (acc ++ m) <? zlen acc + len + 2 then Ret (acc ++ m, 0, Some E2BIG)
        else if zlen acc - off - 1 <? 0 then Ret (acc ++ m, 0, Some EINVAL)
        else
          out ← copy_back (acc ++ m) (zlen acc - off - 1) (zlen acc) len;
          decompress_loop f (pre ++ cs) (zlen (pre ++ cs)) out (zlen (acc ++ m)) (zlen pre) (zlen acc + (len + 2))) = Ret r ∧
    ((∃ acc', acc' = back (Z.to_nat (len + 2)) acc off ∧ off < zlen acc ∧ decompressed cs acc' (zlen (acc ++ m)) r) ∨
     (r = (acc ++ m, 0, Some E2BIG) ∧ zlen (acc ++ m) < zlen acc + len + 2) ∨
     (r = (acc ++ m, 0, Some EINVAL) ∧ zlen acc <= off)).
Proof.
  intros Ha Hl Ho IH. case_cond; [eexists; split; [done|]; right; left; split; [done|lia]|].
  case_cond; [eexists; split; [done|]; right; right; split; [done|lia]|]. zlr.
  destruct (zsplit (len + 2) m) as (m1 & m2 & -> & Hm1 & Hm2); [lia|]. zlr.
  rewrite (copy_back_spec acc m1 m2 off len) by (done || lia). run.
  destruct (IH (back (Z.to_nat (len + 2)) acc off) m2) as (r & E & Hr); [by apply back_bytes|].
  rewrite !zlen_app, zlen_back in E, Hr. replace (zlen acc + Z.of_nat (Z.to_nat (len + 2))) with (zlen acc + (len + 2)) in E, Hr by lia.
  exists r. replace (zlen acc + (zlen m1 + zlen m2)) with (zlen acc + (len + 2) + zlen m2) by lia. split; [exact E|].
  left. eexists. split_and!; [done|lia|done].
Qed.

(** The loop with [f] rounds left decodes what follows. *)
Definition decodes (f : nat) : Prop := ∀ pre cs acc m, bytes_ok cs → bytes_ok acc → zlen cs <= Z.of_nat f →
  ∃ r, decompress_loop f (pre ++ cs) (zlen (pre ++ cs)) (acc ++ m) (zlen (acc ++ m)) (zlen pre) (zlen acc) = Ret r ∧
    decompressed cs acc (zlen (acc ++ m)) r.

(** A round that starts with a literal run. *)
Lemma decode_literal f pre c cs acc m : decodes f → is_byte c → bytes_ok cs → bytes_ok acc → zlen cs <= Z.of_nat f → c < 32 →
  ∃ r, decompress_loop (S f) (pre ++ c :: cs) (zlen (pre ++ c :: cs)) (acc ++ m) (zlen (acc ++ m)) (zlen pre) (zlen acc) = Ret r ∧
    decompressed (c :: cs) acc (zlen (acc ++ m)) r.
Proof.
  intros IH Hc Hb Ha Hf HL. unfold is_byte in Hc. pose proof (zlen_nonneg cs). cbn [decompress_loop].
  test (zlen pre <? zlen (pre ++ c :: cs)) true. rewrite (rd_app pre c cs _ eq_refl). run.
  change (Z.shiftl 1 5) with 32. test (c <? 32) true.
  case_cond; [|case_cond].
  - eexists. split; [done|]. split_and!; [done..|]. intros s Hs.
    destruct (expands_lit_inv _ _ _ _ Hs HL) as (ls & cs' & _ & HZ & HE). pose proof (expands_longer _ _ _ HE). zlr. lia.
  - eexists. split; [done|]. split_and!; [done..|]. intros s Hs.
    destruct (expands_lit_inv _ _ _ _ Hs HL) as (ls & cs' & -> & HZ & _). pose proof (zlen_nonneg cs'). zlr. lia.
  - zlr. destruct (zsplit (c + 1) cs) as (ls & cs' & -> & Hls & _); [lia|].
    destruct (zsplit (c + 1) m) as (m1 & m2 & -> & Hm1 & _); [lia|]. apply Forall_app in Hb as [Hbl Hb].
    pose proof (copy_literals_spec ls (pre ++ [c]) cs' acc m1 m2 Hbl ltac:(lia)) as E.
    replace (length ls) with (Z.to_nat (c + 1)) in E by (unfold zlen in *; lia). rewrite zlen_app in E.
    rewrite <- (app_assoc pre) in E. cbn [app] in E. change (zlen [c]) with 1 in E. rewrite E. run.
    destruct (IH (pre ++ c :: ls) cs' (acc ++ ls) m2 Hb) as (r & Er & Hr); [by apply Forall_app|zlr; lia|].
    exists r. rewrite <- !app_assoc in Er, Hr. cbn [app] in Er. zlr. split.
    + rewrite <- Er. f_equal; try lia. by rewrite app_assoc.
    + apply (decompressed_step _ cs' acc (acc ++ ls)); [intros s; apply expands_lit_iff; lia|].
      by replace (zlen acc + (zlen m1 + zlen m2)) with (zlen acc + (zlen ls + zlen m2)) by lia.
Qed.

(** A round that starts with a reference. *)
Lemma decode_reference f pre c cs acc m : decodes f → is_byte c → bytes_ok cs → bytes_ok acc → zlen cs <= Z.of_nat f → 32 <= c →
  ∃ r, decompress_loop (S f) (pre ++ c :: cs) (zlen (pre ++ c :: cs)) (acc ++ m) (zlen (acc ++ m)) (zlen pre) (zlen acc) = Ret r ∧
    decompressed (c :: cs) acc (zlen (acc ++ m)) r.
Proof.
  intros IH Hc Hb Ha Hf HL. unfold is_byte in Hc. pose proof (zlen_nonneg cs). cbn [decompress_loop].
  test (zlen pre <? zlen (pre ++ c :: cs)) true. rewrite (rd_app pre c cs _ eq_refl). run.
  change (Z.shiftl 1 5) with 32. test (c <? 32) false.
  rewrite Z.shiftr_div_pow2 by lia. change (2 ^ 5) with 32. change 0x1f with (Z.ones 5). rewrite Z.land_ones by lia.
  change (2 ^ 5) with 32. rewrite Z.shiftl_mul_pow2 by lia. change (2 ^ 8) with 256.
  dm c 32. case_cond.
  { assert (cs = []) as -> by (apply zlen_zero; zlr; lia). eexists. split; [done|]. split_and!; [done..|]. intros s Hs.
    by destruct (expands_ref_inv _ _ _ _ Hs HL) as [(? & ? & ? & _)|(? & ? & ? & ? & _)]. }
  zlr. destruct cs as [|x cs]; [zlr; lia|]. apply Forall_cons in Hb as [Hx Hb]. unfold is_byte in Hx. zlr. pose proof (zlen_nonneg cs).
  assert (RX : rd (pre ++ c :: x :: cs) (zlen pre + 1) = Ret x) by (apply (rd_at _ _ _ (pre ++ [c]) cs); [by lapp|zlr; lia]).
  case_cond; rewrite ?RX; run.
  - destruct cs as [|lo cs].
    { zlr. test (zlen pre + (1 + (1 + 0)) <=? zlen pre + 1 + 1) true. eexists. split; [done|]. split_and!; [by zlr|done|]. intros s Hs.
      by destruct (expands_ref_inv _ _ _ _ Hs HL) as [(? & ? & ? & ? & _)|(? & ? & ? & ? & _)]; [lia|]. }
    apply Forall_cons in Hb as [Hlo Hb]. unfold is_byte in Hlo. zlr. pose proof (zlen_nonneg cs).
    test (zlen pre + (1 + (1 + (1 + zlen cs))) <=? zlen pre + 1 + 1) false.
    rewrite (rd_at _ _ lo (pre ++ [c; x]) cs) by (try (by lapp); zlr; lia). run.
    destruct (decompress_back f (pre ++ [c; x; lo]) cs acc m (256 * (c mod 32) + lo) (7 + x)) as (r & E & Hr);
      [done|lia|lia|intros acc' m' Hb'; apply IH; [done..|lia]|].
    rewrite <- app_assoc in E. cbn [app] in E. zlr. exists r. split.
    { replace (c / 32) with 7 by lia. replace (zlen acc - c mod 32 * 256 - 1 - lo) with (zlen acc - (256 * (c mod 32) + lo) - 1) by lia.
      replace (zlen pre + 1 + 1 + 1) with (zlen pre + (1 + (1 + (1 + 0)))) by lia.
      exact E. }
    destruct Hr as [(acc' & -> & Ho & Hr)|[[-> Hr]|[-> Hr]]].
    + apply (decompressed_step _ cs acc (back (Z.to_nat (7 + x + 2)) acc (256 * (c mod 32) + lo))); [|done].
      intros s. apply expands_long_iff; [lia|done|done|done].
    + split_and!; [by zlr|done|]. intros s Hs.
      destruct (expands_ref_inv _ _ _ _ Hs HL) as [(? & ? & _ & ? & _)|(x' & lo' & cs' & [= <- <- <-] & _ & _ & HE)]; [lia|].
      pose proof (expands_longer _ _ _ HE) as HX. rewrite zlen_back in HX. lia.
    + split_and!; [by zlr|done|]. intros s Hs.
      destruct (expands_ref_inv _ _ _ _ Hs HL) as [(? & ? & _ & ? & _)|(x' & lo' & cs' & [= <- <- <-] & _ & ? & HE)]; lia.
  - rewrite RX. run.
    destruct (decompress_back f (pre ++ [c; x]) cs acc m (256 * (c mod 32) + x) (c / 32)) as (r & E & Hr);
      [done|lia|lia|intros acc' m' Hb'; apply IH; [done..|lia]|].
    rewrite <- app_assoc in E. cbn [app] in E. zlr. exists r. split.
    { replace (zlen acc - c mod 32 * 256 - 1 - x) with (zlen acc - (256 * (c mod 32) + x) - 1) by lia.
      replace (zlen pre + 1 + 1) with (zlen pre + (1 + (1 + 0))) by lia.
      exact E. }
    destruct Hr as [(acc' & -> & Ho & Hr)|[[-> Hr]|[-> Hr]]].
    + apply (decompressed_step _ cs acc (back (Z.to_nat (c / 32 + 2)) acc (256 * (c mod 32) + x))); [|done].
      intros s. apply expands_short_iff; [lia|done|done].
    + split_and!; [by zlr|done|]. intros s Hs.
      destruct (expands_ref_inv _ _ _ _ Hs HL) as [(lo' & cs' & [= <- <-] & _ & _ & HE)|(? & ? & ? & _ & ? & _)]; [|lia].
      pose proof (expands_longer _ _ _ HE) as HX. rewrite zlen_back in HX. lia.
    + split_and!; [by zlr|done|]. intros s Hs.
      destruct (expands_ref_inv _ _ _ _ Hs HL) as [(lo' & cs' & [= <- <-] & _ & ? & HE)|(? & ? & ? & _ & ? & _)]; lia.
Qed.

Lemma decompress_spec fuel : decodes fuel.
Proof.
  induction fuel as [|f IH]; intros pre [|c cs] acc m Hb Ha Hf;
    [|zlr; pose proof (zlen_nonneg cs); lia|..];
    [cbn [decompress_loop]; rewrite app_nil_r, Z.ltb_irrefl; eexists; split; [done|]; split; [done|];
     exists acc, m; split; [constructor|done]..|].
  apply Forall_cons in Hb as [Hc Hb]. rewrite zlen_cons in Hf.
  destruct (Z.lt_ge_cases c 32); [apply decode_literal|apply decode_reference]; done || lia.
Qed.

End LzfFormat.
