(* ===== verification/LzfCompress.v ===== *)
(** LZF: what [lzf_compress] writes. *)
From S2P Require Import Prelude Lzf LzfFormat.

Module LzfCompress.
Import Lzf LzfFormat.

(** The input has the same [n] bytes at two places. *)
Definition agree (I : list Z) (ref ip n : Z) : Prop :=
  ∀ j, 0 <= j < n → I !! Z.to_nat (ref + j) = I !! Z.to_nat (ip + j).

(** The literals of the run that is open. *)
Definition run_of (I : list Z) (ip lit : Z) : list Z := take (Z.to_nat lit) (drop (Z.to_nat (ip - lit)) I).

(** The output: [C] stands for the input before the open run, whose literals
    follow a byte left for its length. *)
Record written (I : list Z) (out_len ip op lit : Z) (out C : list Z) : Prop := {
  wr_ip : 0 <= lit <= ip ∧ ip <= zlen I ∧ lit <= MAX_LIT;
  wr_op : zlen C = op - lit - 1;
  wr_out : ∃ R, out = C ++ R ∧ (R = [] ∧ lit = 0 ∨ ∃ h rest, R = h :: run_of I ip lit ++ rest);
  wr_len : zlen out = out_len;
  wr_mean : expands C [] (take (Z.to_nat (ip - lit)) I);
  wr_bytes : bytes_ok C;
}.

(** The state between two rounds. *)
Definition table_ok (htab : list Z) : Prop := zlen htab = HSIZE ∧ Forall (λ v, 0 <= v < 2 ^ 32) htab.

Definition cinv (I : list Z) (out_len : Z) (st : cstate) : Prop :=
  (∃ C, written I out_len (ip st) (op st) (lit st) (out st) C) ∧ lit st < MAX_LIT ∧ table_ok (htab st).

(** * Matches *)

Lemma rd_agree I ref ip n j : agree I ref ip n → 0 <= j < n → 0 <= ref → 0 <= ip → rd I (ref + j) = rd I (ip + j).
Proof.
  intros H Hj Hr Hi. unfold rd. test (0 <=? ref + j) true. test (0 <=? ip + j) true. by rewrite (H j Hj).
Qed.

Lemma rdn_lookup b i n m j : rdn b i n = Ret m → 0 <= j < n → b !! Z.to_nat (i + j) = m !! Z.to_nat j.
Proof.
  intros (Hi & Hn & _ & a & c & -> & Ha & Hm)%rdn_inv Hj. rewrite lookup_app_r by (unfold zlen in *; lia).
  rewrite lookup_app_l by (unfold zlen in *; lia). f_equal. unfold zlen in *. lia.
Qed.

Lemma agree_snoc I ref ip n a : agree I ref ip n → 0 <= ref → 0 <= ip → 0 <= n →
  rd I (ref + n) = Ret a → rd I (ip + n) = Ret a → agree I ref ip (n + 1).
Proof.
  intros H Hr Hi Hn [_ R1]%rd_inv [_ R2]%rd_inv j Hj. destruct (decide (j = n)) as [->|]; [congruence|]. apply H. lia.
Qed.

Lemma same_unrolled_spec I ref ip n len : 0 <= ref < ip → 0 <= len → agree I ref ip (len + 1) →
  ip + len + Z.of_nat n < zlen I →
  ∃ len' stop, same_unrolled n I ref ip len = Ret (len', stop) ∧ agree I ref ip len' ∧ len <= len' ∧ len' <= len + Z.of_nat n ∧
    (stop = true → len < len') ∧ (stop = false → len' = len + Z.of_nat n ∧ agree I ref ip (len' + 1)).
Proof.
  intros Hr. revert len. induction n as [|n IH]; intros len Hl HA HZ.
  - exists len, false. split_and!; [done|intros j Hj; apply HA; lia|lia|lia|done|intros _; split; [lia|done]].
  - cbn [same_unrolled]. destruct (rd_ok I (ref + (len + 1)) ltac:(lia)) as (a & Ra & _).
    destruct (rd_ok I (ip + (len + 1)) ltac:(lia)) as (b & Rb & _). rewrite Ra, Rb. run.
    destruct (Z.eqb_spec a b) as [->|Hn]; cbn [negb].
    + destruct (IH (len + 1)) as (len' & stop & E & H1 & H2 & H3 & H4 & H5); [lia|by eapply agree_snoc; eauto with lia|lia|].
      exists len', stop. split_and!; [done|done|lia|lia|intros HS; specialize (H4 HS); lia|].
      intros HS. destruct (H5 HS) as [? ?]. split; [lia|done].
    + exists (len + 1), true. split_and!; [done|done|lia|lia|lia|done].
Qed.

Lemma same_loop_spec I ref ip fuel len maxlen : 0 <= ref < ip → 0 <= len → agree I ref ip (len + 1) →
  ip + maxlen <= zlen I → maxlen - len <= Z.of_nat fuel → (0 < fuel)%nat →
  ∃ len', same_loop fuel I ref ip len maxlen = Ret len' ∧ agree I ref ip len' ∧ len + 1 <= len' ∧ len' <= Z.max (len + 1) maxlen.
Proof.
  intros Hr. revert len. induction fuel as [|f IH]; intros len Hl HA HZ HF H0; [lia|]. cbn [same_loop].
  case_cond; [|exists (len + 1); split_and!; done || lia].
  destruct (rd_ok I (ref + (len + 1)) ltac:(lia)) as (a & Ra & _).
  destruct (rd_ok I (ip + (len + 1)) ltac:(lia)) as (b & Rb & _). rewrite Ra, Rb. run.
  destruct (Z.eqb_spec a b) as [->|Hn]; [|exists (len + 1); split_and!; done || lia].
  destruct (IH (len + 1)) as (len' & E & H1 & H2 & H3); [lia|by eapply agree_snoc; eauto with lia|lia..|].
  exists len'. split_and!; done || lia.
Qed.

(** The match that is found is a match, within the bounds of the format. *)
Lemma match_length_spec I ref ip : 0 <= ref < ip → agree I ref ip 3 → ip + 2 < zlen I →
  let m := u32 (zlen I - ip - 2) in let m := if MAX_REF <? m then MAX_REF else m in zlen I < 2 ^ 32 →
  ∃ len, match_length I ref ip m = Ret len ∧ agree I ref ip len ∧ 3 <= len <= MAX_REF ∧ ip + len <= zlen I.
Proof.
  intros Hr HA HZ m0 m HI. assert (Hm : 1 <= m <= MAX_REF ∧ m <= zlen I - ip - 2).
  { unfold m, m0. rewrite wrapu_id by lia. change MAX_REF with 264. case_cond; lia. }
  clearbody m. clear m0. unfold match_length. change MAX_REF with 264 in *. case_cond.
  - destruct (same_unrolled_spec I ref ip 16 2 Hr ltac:(lia) HA ltac:(lia)) as (len & stop & -> & H1 & H2 & H3 & H4 & H5). run.
    destruct stop; [exists len; specialize (H4 eq_refl); split_and!; done || lia|].
    destruct (H5 eq_refl) as [-> H6]. change (2 + Z.of_nat 16) with 18 in *.
    destruct (same_loop_spec I ref ip (Z.to_nat 264) 18 m Hr ltac:(lia) H6) as (len & E & ? & ? & ?); [lia..|].
    exists len. split_and!; done || lia.
  - run. destruct (same_loop_spec I ref ip (Z.to_nat 264) 2 m Hr ltac:(lia) HA) as (len & E & ? & ? & ?); [lia..|].
    exists len. split_and!; done || lia.
Qed.

Lemma find_match_spec I slot ip : 0 <= slot < 2 ^ 32 → 0 <= ip → ip + 2 < zlen I → zlen I < 2 ^ 32 →
  ∃ o, find_match I slot ip = Ret o ∧
    ∀ off, o = Some off → 0 <= off < MAX_OFF ∧ slot = ip - off - 1 ∧ 0 < slot ∧ agree I slot ip 3.
Proof.
  intros Hs Hi HZ HI. unfold find_match. change MAX_OFF with 8192.
  case_cond; [|exists None; done].
  assert (HO : u64 (ip - slot - 1) = ip - slot - 1).
  { destruct (Z.le_gt_cases 0 (ip - slot - 1)); [apply wrapu_id; lia|].
    assert (u64 (ip - slot - 1) = ip - slot - 1 + 2 ^ 64); [|lia].
    unfold wrapu. symmetry. apply (Z.mod_unique_pos _ _ (-1)); lia. }
  pose proof (wrapu_range 64 (ip - slot - 1) ltac:(lia)) as HP. rewrite HO in HP, Hc. rewrite HO. destruct (rd_ok I (slot + 2) ltac:(lia)) as (a & Ra & _).
  destruct (rd_ok I (ip + 2) ltac:(lia)) as (b & Rb & _). rewrite Ra, Rb. run.
  case_cond; [|exists None; done].
  destruct (rdn_ok I slot 2) as (a1 & r & c1 & _ & _ & _ & Er); [lia..|].
  destruct (rdn_ok I ip 2) as (a2 & c & c2 & _ & _ & _ & Ec); [lia..|]. rewrite Er, Ec. run.
  eexists. split; [done|]. intros off. case_bool_decide as HE; [|done]. intros [= <-]. subst c.
  split_and!; [lia..|]. intros j Hj. destruct (decide (j = 2)) as [->|].
  - apply rd_inv in Ra as [_ Ra]. apply rd_inv in Rb as [_ Rb]. rewrite Ra, Rb. f_equal. lia.
  - by rewrite (rdn_lookup _ _ _ _ j Er), (rdn_lookup _ _ _ _ j Ec) by lia.
Qed.

(** Copying a match gives the input. *)
Lemma back_agree I ref ip off n : agree I ref ip (Z.of_nat n) → ref = ip - off - 1 → 0 <= ref → 0 <= off →
  ip + Z.of_nat n <= zlen I → ∀ k, 0 <= k <= Z.of_nat n →
  back (n - Z.to_nat k) (take (Z.to_nat (ip + k)) I) off = take (Z.to_nat (ip + Z.of_nat n)) I.
Proof.
  intros HA Hr H0 Ho HZ k Hk. remember (n - Z.to_nat k)%nat as d eqn:Ed. revert k Hk Ed.
  induction d as [|d IH]; intros k Hk Ed; cbn [back]; [do 2 f_equal; lia|].
  assert (HL : zlen (take (Z.to_nat (ip + k)) I) = ip + k) by (apply zlen_take; lia). rewrite HL.
  destruct (lookup_lt_is_Some_2 I (Z.to_nat (ip + k))) as [c Hc]; [unfold zlen in *; lia|].
  replace (nth _ _ 0) with c.
  - rewrite <- take_S_r by done. rewrite <- (IH (k + 1)) by lia. do 2 f_equal. lia.
  - rewrite nth_lookup, lookup_take_lt by lia. replace (ip + k - off - 1) with (ref + k) by lia. by rewrite (HA k), Hc by lia.
Qed.

(** * The open run *)

Lemma run_length I ip lit : 0 <= lit <= ip → ip <= zlen I → zlen (run_of I ip lit) = lit.
Proof. intros Hl Hi. unfold run_of. rewrite zlen_take; [done|]. rewrite zlen_drop by lia. lia. Qed.

Lemma run_take I ip lit : 0 <= lit <= ip → take (Z.to_nat (ip - lit)) I ++ run_of I ip lit = take (Z.to_nat ip) I.
Proof. intros Hl. unfold run_of. rewrite take_take_drop. f_equal. lia. Qed.

Lemma run_snoc I ip lit c : 0 <= lit <= ip → I !! Z.to_nat ip = Some c → run_of I (ip + 1) (lit + 1) = run_of I ip lit ++ [c].
Proof.
  intros Hl Hc. unfold run_of. replace (ip + 1 - (lit + 1)) with (ip - lit) by lia.
  replace (Z.to_nat (lit + 1)) with (S (Z.to_nat lit)) by lia. apply take_S_r. rewrite lookup_drop.
  replace (Z.to_nat (ip - lit) + Z.to_nat lit)%nat with (Z.to_nat ip) by lia. done.
Qed.

Lemma run_bytes I ip lit : bytes_ok I → bytes_ok (run_of I ip lit).
Proof. intros Hb. unfold run_of. by apply Forall_take, Forall_drop. Qed.

(** The run is closed, or taken back when it is empty. *)
Lemma stop_run_spec I out_len ip op lit out C : written I out_len ip op lit out C → bytes_ok I → zlen C < out_len →
  ∃ C' R, stop_run out op lit = Ret (C' ++ R) ∧ zlen C' = op - b2z (lit =? 0) ∧ zlen (C' ++ R) = out_len ∧
    expands C' [] (take (Z.to_nat ip) I) ∧ bytes_ok C'.
Proof.
  intros [(HL & HI & HM) HO (R & -> & HR) HZ HE HC] Hb HN. unfold stop_run. change MAX_LIT with 32 in HM.
  destruct HR as [[-> _]|(h & rest & ->)]; [rewrite app_nil_r in HZ; lia|].
  pose proof (run_length I ip lit HL HI) as HR. pose proof (wrapu_range 8 (lit - 1) ltac:(lia)) as HW.
  rewrite (wr_at _ _ (u8 (lit - 1)) C h (run_of I ip lit ++ rest)) by (done || lia).
  destruct (Z.eqb_spec lit 0) as [->|H0]; cbn [b2z].
  - exists C, (u8 (0 - 1) :: run_of I ip 0 ++ rest). split_and!; [done|lia|zlr; lia| |done].
    by rewrite Z.sub_0_r in HE.
  - rewrite wrapu_id by lia. exists (C ++ lit - 1 :: run_of I ip lit), rest. split_and!; [by lapp|zlr; lia|zlr; lia| |].
    + eapply expands_app; [done|]. rewrite <- (app_nil_r (run_of I ip lit)). apply ex_lit; [lia|lia|].
      rewrite run_take by lia. constructor.
    + apply Forall_app. split; [done|]. constructor; [unfold is_byte; lia|by apply run_bytes].
Qed.

(** A byte of output written through [wr] is truncated to a byte already. *)
Lemma put_literal_spec I out_len st : cinv I out_len st → bytes_ok I → ip st < zlen I → op st < out_len →
  ∃ st', put_literal I st = Ret st' ∧ cinv I out_len st' ∧ ip st' = ip st + 1 ∧
    op st' = op st + 1 + b2z (lit st + 1 =? MAX_LIT) ∧ lit st' = (if lit st + 1 =? MAX_LIT then 0 else lit st + 1).
Proof.
  intros ((C & HW) & HM & HH) Hb Hi Ho. pose proof HW as [(HL & HI & _) HO (R & ER & HR) HZ HE HC].
  destruct (rd_ok I (ip st) ltac:(lia)) as (c & Rc & Hc). pose proof (rd_byte _ _ _ Hb Rc) as Hcb.
  pose proof (run_length I (ip st) (lit st) HL HI) as HR'.
  destruct HR as [[-> H0]|(h & rest & ->)]; [rewrite app_nil_r in ER; rewrite ER in HZ; lia|].
  rewrite ER in HZ. zlr. destruct rest as [|x rest]; [zlr; lia|].
  unfold put_literal. rewrite Rc. run. rewrite ER.
  rewrite (wr_at _ _ c (C ++ h :: run_of I (ip st) (lit st)) x rest) by (try (by lapp); try done; zlr; lia). run.
  assert (W : written I out_len (ip st + 1) (op st + 1) (lit st + 1)
    ((C ++ h :: run_of I (ip st) (lit st)) ++ c :: rest) C).
  { split; [lia|lia| |zlr; lia| |done].
    - eexists. split; [by rewrite <- app_assoc|]. right. exists h, rest. rewrite (run_snoc I (ip st) (lit st) c) by done. by lapp.
    - by replace (ip st + 1 - (lit st + 1)) with (ip st - lit st) by lia. }
  destruct (lit st + 1 =? MAX_LIT) eqn:HM'; cbn [b2z].
  - destruct (stop_run_spec _ _ _ _ _ _ _ W Hb) as (C' & R' & -> & HC' & HZ' & HE' & HB'); [zlr; lia|]. run.
    replace (lit st + 1 =? 0) with false in HC' by lia. cbn [b2z] in HC'.
    eexists. split; [done|]. cbn [ip op lit]. split; [|split_and!; [done|lia|done]]. split; [|done]. cbn [ip op lit out].
    exists C'. split; [change MAX_LIT with 32; lia|lia| |done|by rewrite Z.sub_0_r|done].
    exists R'. split; [done|]. destruct R' as [|h' R']; [by left|right]. by exists h', R'.
  - eexists. split; [done|]. cbn [ip op lit]. split; [|split_and!; [done|lia|done]]. split; [|split; [cbn; lia|done]]. by exists C.
Qed.

(** * References *)

Lemma put_ref_spec C R off len : 0 <= off < MAX_OFF → 1 <= len <= MAX_REF - 2 → 3 <= zlen R → ∃ cs R',
  put_ref (C ++ R) (zlen C) off len = Ret ((C ++ cs) ++ R', zlen (C ++ cs)) ∧ zlen cs + zlen R' = zlen R ∧ bytes_ok cs ∧
  ∀ acc, off < zlen acc → expands cs acc (back (Z.to_nat (len + 2)) acc off).
Proof.
  change MAX_OFF with 8192. change MAX_REF with 264. intros Ho Hl HR. destruct R as [|r0 [|r1 [|r2 R]]]; zlr; try lia.
  unfold put_ref. rewrite Z.shiftr_div_pow2, !Z.shiftl_mul_pow2 by lia. change (2 ^ 8) with 256. change (2 ^ 5) with 32.
  change (u8 off) with (off mod 256). dm off 256. case_cond.
  - rewrite wrapu_id by lia. set (c := off / 256 + len * 32). assert (HcR : 32 <= c < 224) by lia.
    rewrite (wr_at _ _ c C r0 (r1 :: r2 :: R)) by (done || (unfold is_byte; lia)). run.
    rewrite (wr_at _ _ (off mod 256) (C ++ [c]) r1 (r2 :: R)) by (try (by lapp); try (zlr; lia); unfold is_byte; lia). run.
    exists [c; off mod 256], (r2 :: R). split_and!; [f_equal; f_equal; [by lapp|zlr; lia]|zlr; lia| |].
    + repeat constructor; unfold is_byte; lia.
    + intros acc Ha. assert (c / 32 = len ∧ c mod 32 = off / 256) as [E1 E2] by (dm c 32; lia).
      pose proof (ex_short c (off mod 256) [] acc (back (Z.to_nat (len + 2)) acc off)) as X. rewrite E1, E2 in X.
      replace (256 * (off / 256) + off mod 256) with off in X by lia. apply X; [lia|unfold is_byte; lia|lia|constructor].
  - rewrite !wrapu_id by lia. set (c := off / 256 + 7 * 32). assert (HcR : 224 <= c < 256) by lia.
    rewrite (wr_at _ _ c C r0 (r1 :: r2 :: R)) by (done || (unfold is_byte; lia)). run.
    rewrite (wr_at _ _ (len - 7) (C ++ [c]) r1 (r2 :: R)) by (try (by lapp); try (zlr; lia); unfold is_byte; lia). run.
    rewrite (wr_at _ _ (off mod 256) (C ++ [c; len - 7]) r2 R) by (try (by lapp); try (zlr; lia); unfold is_byte; lia). run.
    exists [c; len - 7; off mod 256], R. split_and!; [f_equal; f_equal; [by lapp|zlr; lia]|zlr; lia| |].
    + repeat constructor; unfold is_byte; lia.
    + intros acc Ha. assert (c mod 32 = off / 256) as E2 by (dm c 32; lia).
      pose proof (ex_long c (len - 7) (off mod 256) [] acc (back (Z.to_nat (len + 2)) acc off)) as X. rewrite E2 in X.
      replace (256 * (off / 256) + off mod 256) with off in X by lia.
      replace (7 + (len - 7) + 2) with (len + 2) in X by lia. apply X; [lia|unfold is_byte; lia..|lia|constructor].
Qed.

(** * The hash table *)

Lemma IDX_range h : 0 <= IDX h < HSIZE.
Proof.
  unfold IDX. change (HSIZE - 1) with (Z.ones 16). rewrite Z.land_ones by lia. change HSIZE with (2 ^ 16).
  apply Z.mod_pos_bound. lia.
Qed.

Lemma table_set htab h p : table_ok htab → ∃ htab', wrn htab (IDX h) [u32 p] = Ret htab' ∧ table_ok htab'.
Proof.
  intros [HZ HF]. pose proof (IDX_range h).
  destruct (zsplit (IDX h) htab) as (a & t & -> & Ha & Ht); [lia|]. zlr. destruct t as [|x t]; [zlr; lia|].
  exists (a ++ [u32 p] ++ t). split; [by apply (wrn_at _ _ _ a [x] t)|].
  split; [zlr; lia|]. apply Forall_app in HF as [H1 H2]. apply Forall_cons in H2 as [_ H2].
  apply Forall_app. split; [done|]. constructor; [apply wrapu_range; lia|done].
Qed.

Lemma table_get htab h : table_ok htab → ∃ v, rd htab (IDX h) = Ret v ∧ 0 <= v < 2 ^ 32.
Proof.
  intros [HZ HF]. pose proof (IDX_range h). destruct (rd_ok htab (IDX h)) as (v & R & Hv); [lia|]. exists v.
  split; [done|]. by eapply Forall_lookup_1 in HF.
Qed.

Lemma FRST_ok I p : 0 <= p → p + 1 < zlen I → ∃ v, FRST I p = Ret v.
Proof.
  intros H0 H1. unfold FRST. destruct (rd_ok I p) as (a & -> & _); [lia|].
  destruct (rd_ok I (p + 1)) as (b & -> & _); [lia|]. run. eauto.
Qed.

Lemma NEXT_ok I v p : 0 <= p → p + 2 < zlen I → ∃ v', NEXT I v p = Ret v'.
Proof. intros H0 H1. unfold NEXT. destruct (rd_ok I (p + 2)) as (a & -> & _); [lia|]. run. eauto. Qed.

(** * Rounds *)

(** What a round may leave. *)
Definition round_ok (I : list Z) (out_len ip0 : Z) (r : round) : Prop :=
  match r with
  | Return0 out => zlen out = out_len
  | Leave st => cinv I out_len st ∧ zlen I - 2 <= ip st
  | Continue st => cinv I out_len st ∧ ip0 < ip st
  end.

(** After a reference has been written. *)
Lemma written_ref I out_len ip' C R : 0 <= ip' <= zlen I → zlen (C ++ R) = out_len →
  expands C [] (take (Z.to_nat ip') I) → bytes_ok C → written I out_len ip' (zlen C + 1) 0 (C ++ R) C.
Proof.
  intros Hi HZ HE HC. split; [change MAX_LIT with 32; lia|lia| |done|by rewrite Z.sub_0_r|done].
  exists R. split; [done|]. destruct R as [|h R]; [by left|right]. by exists h, R.
Qed.

Lemma put_match_spec I out_len ref off st : cinv I out_len st → bytes_ok I → ip st + 2 < zlen I → zlen I < 2 ^ 32 →
  0 <= off < MAX_OFF → ref = ip st - off - 1 → 0 < ref → agree I ref (ip st) 3 →
  ∃ r, put_match I (zlen I) out_len ref off st = Ret r ∧ round_ok I out_len (ip st) r.
Proof.
  intros ((C & HW) & HM & HH) Hb Hi HI Ho Er Hr HA. pose proof HW as [(HL & _ & _) HO _ HZ _ _].
  unfold put_match. case_cond; [by exists (Return0 (out st))|].
  assert (HN : op st - b2z (lit st =? 0) + 4 < out_len) by (unfold b2z in *; destruct (lit st =? 0); lia).
  destruct (stop_run_spec _ _ _ _ _ _ _ HW Hb) as (C1 & R1 & -> & HC1 & HZ1 & HE1 & HB1);
    [unfold b2z in HN; case_match; lia|]. run.
  destruct (match_length_spec I ref (ip st) ltac:(lia) HA Hi HI) as (len & -> & HA' & Hlen & Hend). run.
  rewrite <- HC1 in *. zlr.
  destruct (put_ref_spec C1 R1 off (len - 2) Ho ltac:(lia) ltac:(lia)) as (cs & R2 & -> & HR2 & Hcs & Hexp). run.
  set (ip' := ip st + 1 + (len - 2 + 1)). assert (Hip : ip' = ip st + len) by lia. clearbody ip'.
  assert (W : written I out_len ip' (zlen (C1 ++ cs) + 1) 0 ((C1 ++ cs) ++ R2) (C1 ++ cs)).
  { apply written_ref; [lia|zlr; lia| |by apply Forall_app]. eapply expands_app; [done|].
    pose proof (back_agree I ref (ip st) off (Z.to_nat len)) as X. rewrite Z2Nat.id in X by lia.
    specialize (X HA' Er ltac:(lia) ltac:(lia) ltac:(lia) 0 ltac:(lia)).
    rewrite Z.add_0_r, Nat.sub_0_r in X. replace (len - 2 + 2) with len in Hexp by lia.
    rewrite Hip, <- X. apply Hexp.
    rewrite zlen_take by lia. lia. }
  case_cond.
  - eexists. split; [done|]. split; [|cbn; lia]. split; [by exists (C1 ++ cs)|done].
  - destruct (FRST_ok I (ip' - 2)) as (v1 & ->); [lia..|]. run.
    destruct (NEXT_ok I v1 (ip' - 2)) as (v2 & ->); [lia..|]. run.
    destruct (table_set (htab st) v2 (ip' - 2) HH) as (h1 & -> & H1). run.
    destruct (NEXT_ok I v2 (ip' - 2 + 1)) as (v3 & ->); [lia..|]. run.
    destruct (table_set h1 v3 (ip' - 2 + 1) H1) as (h2 & -> & H2). run.
    eexists. split; [done|]. replace (ip' - 2 + 1 + 1) with ip' by lia. split; [|cbn; lia]. split; [by exists (C1 ++ cs)|done].
Qed.

Lemma round_spec I out_len st : cinv I out_len st → bytes_ok I → ip st + 2 < zlen I → zlen I < 2 ^ 32 →
  ∃ r, compress_round I (zlen I) out_len st = Ret r ∧ round_ok I out_len (ip st) r.
Proof.
  intros (HW & HM & HH) Hb Hi HI. unfold compress_round.
  assert (H0 : 0 <= ip st) by (destruct HW as (C & [? _ _ _ _ _]); lia).
  destruct (NEXT_ok I (hval st) (ip st)) as (v & ->); [lia..|]. run.
  destruct (table_get (htab st) v HH) as (slot & -> & Hs). run.
  destruct (table_set (htab st) v (ip st) HH) as (h & -> & Hh). run. cbn [ip op lit out hval htab].
  destruct (find_match_spec I slot (ip st) Hs H0 Hi HI) as (o & -> & Ho). run. destruct o as [off|].
  - destruct (Ho off eq_refl) as (H1 & H2 & H3 & H4).
    apply (put_match_spec I out_len slot off (CState (ip st) (op st) (lit st) (out st) v h)); try done.
  - case_cond.
    + eexists. split; [done|]. destruct HW as (C & [_ _ _ ? _ _]). done.
    + destruct (put_literal_spec I out_len (CState (ip st) (op st) (lit st) (out st) v h)) as (st' & -> & HC & Hip & _);
        [done|done|cbn; lia|cbn; lia|]. run. eexists. split; [done|]. split; [done|]. cbn in Hip. lia.
Qed.

Lemma compress_loop_spec I out_len fuel st : cinv I out_len st → bytes_ok I → zlen I < 2 ^ 32 →
  zlen I - 2 - ip st <= Z.of_nat fuel →
  ∃ r, compress_loop fuel I (zlen I) out_len st = Ret r ∧
    match r with inl out => zlen out = out_len | inr st => cinv I out_len st ∧ zlen I - 2 <= ip st end.
Proof.
  intros HC Hb HI. revert st HC. induction fuel as [|f IH]; intros st HC HF; cbn [compress_loop].
  - test (ip st <? zlen I - 2) false. eexists. split; [done|]. split; [done|lia].
  - case_cond; [|eexists; split; [done|]; split; [done|lia]].
    destruct (round_spec I out_len st HC Hb ltac:(lia) HI) as (r & -> & Hr). run. destruct r as [out|st'|st']; cbn in Hr.
    + by eexists.
    + by eexists.
    + apply IH; [apply Hr|lia].
Qed.

(** At most one run is closed behind the loop, so what was checked is enough. *)
Lemma rest_loop_spec I out_len fuel st : cinv I out_len st → bytes_ok I → zlen I - ip st <= Z.of_nat fuel → zlen I - ip st < MAX_LIT →
  op st + (zlen I - ip st) + b2z (MAX_LIT <=? lit st + (zlen I - ip st)) <= out_len →
  ∃ st', rest_loop fuel I (zlen I) st = Ret st' ∧ cinv I out_len st' ∧ ip st' = zlen I ∧ op st' <= out_len.
Proof.
  change MAX_LIT with 32. intros HC Hb. revert st HC. induction fuel as [|f IH]; intros st HC HF HT HO; cbn [rest_loop];
    (assert (HI : 0 <= lit st ∧ ip st <= zlen I) by (destruct HC as ((C & [? _ _ _ _ _]) & _); lia));
    (assert (HL : lit st < 32) by apply HC).
  - test (ip st <? zlen I) false. exists st. split_and!; [done|done|lia|]. unfold b2z in HO. case_match; lia.
  - case_cond; [|exists st; split_and!; [done|done|lia|unfold b2z in HO; case_match; lia]].
    destruct (put_literal_spec I out_len st HC Hb) as (st' & -> & HC' & Hip & Hop & Hlit); [lia|unfold b2z in HO; case_match; lia|].
    run. change MAX_LIT with 32 in Hop, Hlit. apply IH; [done|lia|lia|]. rewrite Hip, Hop.
    unfold b2z in *. destruct (lit st + 1 =? 32) eqn:E; rewrite Hlit; repeat case_cond; try lia; repeat case_match; lia.
Qed.

(** * The whole function *)

Lemma compress_spec I out0 htab0 : bytes_ok I → 2 <= zlen I < 2 ^ 32 → table_ok htab0 →
  ∃ out n, lzf_compress I (zlen I) out0 (zlen out0) htab0 = Ret (out, n) ∧ zlen out = zlen out0 ∧
    (n = 0 ∨ ∃ C R, out = C ++ R ∧ zlen C = n ∧ 0 < n ∧ bytes_ok C ∧ expands C [] I).
Proof.
  intros Hb HI HH. unfold lzf_compress. destruct ((zlen I =? 0) || (zlen out0 =? 0)) eqn:E0; [exists out0, 0; auto|].
  destruct (FRST_ok I 0) as (v & ->); [lia..|]. run. pose proof (zlen_nonneg out0).
  assert (HC : cinv I (zlen out0) (CState 0 1 0 out0 v htab0)).
  { split; [|done]. exists []. cbn [ip op lit out]. apply (written_ref I (zlen out0) 0 [] out0); [lia|done|constructor|constructor]. }
  destruct (compress_loop_spec I (zlen out0) (Z.to_nat (zlen I)) _ HC Hb ltac:(lia)) as (r & -> & Hr); [cbn; lia|]. run.
  destruct r as [out|st]; [exists out, 0; auto|]. destruct Hr as [HC' Hip].
  destruct (zlen out0 <? op st + 3) eqn:E1.
  { exists (out st), 0. split_and!; [done|by destruct HC' as ((C & [_ _ _ ? _ _]) & _)|by left]. }
  assert (HI' : 0 <= lit st ∧ ip st <= zlen I) by (destruct HC' as ((C & [? _ _ _ _ _]) & _); lia).
  destruct (rest_loop_spec I (zlen out0) 3 st HC' Hb) as (st' & -> & ((C & HW) & HM & _) & Hip' & Hop'); [lia|change MAX_LIT with 32; lia| |].
  { unfold b2z. case_cond; lia. }
  run. pose proof HW as [(HL & _ & _) HO _ HZ _ _].
  destruct (stop_run_spec _ _ _ _ _ _ _ HW Hb ltac:(lia)) as (C' & R' & -> & HC'' & HZ' & HE & HB). run.
  eexists _, _. split; [done|]. split; [done|]. right. exists C', R'. split_and!; [done|done| |done|].
  - destruct C'; [|zlr; pose proof (zlen_nonneg C'); lia]. exfalso. rewrite Hip' in HE.
    assert (HN : take (Z.to_nat (zlen I)) I = []) by (by inversion HE). rewrite take_ge in HN by zl. subst I. zlr. lia.
  - rewrite Hip' in HE. by rewrite take_ge in HE by zl.
Qed.

End LzfCompress.
