(* ===== verification/LzfFrame.v ===== *)
(** LZF: [lzf_compress] works on the bytes its lengths tell it of, whatever is
    behind them in the two blocks. *)
From S2P Require Import Prelude Lzf LzfFormat LzfCompress.

Module LzfFrame.
Import Lzf LzfFormat LzfCompress.

Lemma rd_frame b c i v : rd b i = Ret v → rd (b ++ c) i = Ret v.
Proof.
  unfold rd. case_cond; [|done]. destruct (b !! Z.to_nat i) eqn:E; [|done]. intros [= <-]. by rewrite (lookup_app_l_Some _ _ _ _ E).
Qed.

Lemma rdn_frame b c i n m : rdn b i n = Ret m → rdn (b ++ c) i n = Ret m.
Proof.
  unfold rdn. case_cond; [|done]. to_prop. intros [= <-]. pose proof (zlen_nonneg c).
  test ((0 <=? i) && (0 <=? n) && (i + n <=? zlen (b ++ c))) true.
  rewrite drop_app_le, take_app_le by (rewrite ?length_drop; unfold zlen in *; lia). done.
Qed.

Lemma wrn_frame b c i bs b' : wrn b i bs = Ret b' → wrn (b ++ c) i bs = Ret (b' ++ c).
Proof.
  unfold wrn. case_cond; [|done]. to_prop. intros [= <-]. pose proof (zlen_nonneg c).
  test ((0 <=? i) && (i + zlen bs <=? zlen (b ++ c))) true.
  rewrite take_app_le, drop_app_le by (unfold zlen in *; lia). by rewrite <- !app_assoc.
Qed.

Lemma wr_frame b c i v b' : wr b i v = Ret b' → wr (b ++ c) i v = Ret (b' ++ c).
Proof. apply wrn_frame. Qed.

(** One call after the other: the result on the smaller block is the result on
    the larger one. *)
Create HintDb frame.
#[export] Hint Resolve rd_frame rdn_frame wrn_frame wr_frame : frame.
Ltac frame E :=
  repeat (apply bind_inv in E as (? & ? & E));
  repeat match goal with
  | |- (?e ≫= _) = _ => let E' := fresh in eassert (e = Ret _) as E' by (eauto with frame); rewrite E'; clear E'; run
  end.

Section reads.
Context (I J : list Z).

Lemma FRST_frame p v : FRST I p = Ret v → FRST (I ++ J) p = Ret v.
Proof. unfold FRST. intros E. frame E. done. Qed.

Lemma NEXT_frame w p v : NEXT I w p = Ret v → NEXT (I ++ J) w p = Ret v.
Proof. unfold NEXT. intros E. frame E. done. Qed.

Lemma same_unrolled_frame n ref ip len r :
  same_unrolled n I ref ip len = Ret r → same_unrolled n (I ++ J) ref ip len = Ret r.
Proof.
  revert len. induction n as [|n IH]; intros len E; [done|]. cbn [same_unrolled] in *. frame E. case_cond; auto.
Qed.

Lemma same_loop_frame fuel ref ip len maxlen r :
  same_loop fuel I ref ip len maxlen = Ret r → same_loop fuel (I ++ J) ref ip len maxlen = Ret r.
Proof.
  revert len. induction fuel as [|fuel IH]; intros len E; [done|]. cbn [same_loop] in *. case_cond; [|done].
  frame E. case_cond; auto.
Qed.

Lemma match_length_frame ref ip maxlen r :
  match_length I ref ip maxlen = Ret r → match_length (I ++ J) ref ip maxlen = Ret r.
Proof.
  unfold match_length. intros E. apply bind_inv in E as ([len stop] & E1 & E2).
  assert ((if 16 <? maxlen then same_unrolled 16 (I ++ J) ref ip 2 else Ret (2, false)) = Ret (len, stop)) as ->.
  { case_cond; [by apply same_unrolled_frame|done]. }
  run. destruct stop; [done|]. by apply same_loop_frame.
Qed.

Lemma find_match_frame slot ip r : find_match I slot ip = Ret r → find_match (I ++ J) slot ip = Ret r.
Proof.
  unfold find_match. case_cond; [|done]. intros E. frame E. case_cond; [|done]. frame E. done.
Qed.

End reads.
#[export] Hint Resolve FRST_frame NEXT_frame match_length_frame find_match_frame : frame.

Section writes.
Context (I J P : list Z).

(** The state with [P] behind the output. *)
Definition widen (st : cstate) : cstate := CState (ip st) (op st) (lit st) (out st ++ P) (hval st) (htab st).
Definition widen_round (r : round) : round :=
  match r with Return0 o => Return0 (o ++ P) | Leave st => Leave (widen st) | Continue st => Continue (widen st) end.

Lemma stop_run_frame o op lit o' : stop_run o op lit = Ret o' → stop_run (o ++ P) op lit = Ret (o' ++ P).
Proof. apply wr_frame. Qed.

Lemma put_ref_frame o op off len o' op' :
  put_ref o op off len = Ret (o', op') → put_ref (o ++ P) op off len = Ret (o' ++ P, op').
Proof.
  unfold put_ref. intros E. apply bind_inv in E as ([o1 op1] & E1 & E2).
  assert ((if len <? 7 then
      out ← wr (o ++ P) op (u8 (Z.shiftr off 8 + Z.shiftl len 5)); Ret (out, op + 1)
    else
      out ← wr (o ++ P) op (u8 (Z.shiftr off 8 + Z.shiftl 7 5));
      out ← wr out (op + 1) (u8 (len - 7)); Ret (out, op + 2)) = Ret (o1 ++ P, op1)) as ->.
  { case_cond; frame E1; by injection E1 as <- <-. }
  run. frame E2. by injection E2 as <- <-.
Qed.

Lemma put_literal_frame st st' : put_literal I st = Ret st' → put_literal (I ++ J) (widen st) = Ret (widen st').
Proof.
  unfold put_literal. cbn [widen ip op lit out hval htab]. intros E. apply bind_inv in E as (c & E1 & E).
  apply bind_inv in E as (o & E2 & E). rewrite (rd_frame _ J _ _ E1). run. rewrite (wr_frame _ P _ _ _ E2). run.
  case_cond; [|by injection E as <-]. apply bind_inv in E as (o' & E3 & E). rewrite (stop_run_frame _ _ _ _ E3). run.
  by injection E as <-.
Qed.

Lemma put_match_frame in_end out_end ref off st r :
  put_match I in_end out_end ref off st = Ret r →
  put_match (I ++ J) in_end out_end ref off (widen st) = Ret (widen_round r).
Proof.
  unfold put_match. cbn [widen ip op lit out hval htab]. case_cond; [by intros [= <-]|]. intros E.
  apply bind_inv in E as (o & E1 & E). apply bind_inv in E as (len & E2 & E). apply bind_inv in E as ([o' op'] & E3 & E).
  rewrite (stop_run_frame _ _ _ _ E1). run. rewrite (match_length_frame _ J _ _ _ _ E2). run.
  rewrite (put_ref_frame _ _ _ _ _ _ E3). run. case_cond; [by injection E as <-|].
  frame E. by injection E as <-.
Qed.

Lemma compress_round_frame in_end out_end st r :
  compress_round I in_end out_end st = Ret r →
  compress_round (I ++ J) in_end out_end (widen st) = Ret (widen_round r).
Proof.
  unfold compress_round. cbn [widen ip op lit out hval htab]. intros E.
  apply bind_inv in E as (hv & E1 & E). apply bind_inv in E as (slot & E2 & E). apply bind_inv in E as (ht & E3 & E).
  apply bind_inv in E as (o & E4 & E). rewrite (NEXT_frame _ J _ _ _ E1). run. rewrite E2. run. rewrite E3. run.
  rewrite (find_match_frame _ J _ _ _ E4). run. destruct o as [off|].
  - by apply (put_match_frame _ _ _ _ (CState _ _ _ _ _ _)).
  - case_cond; [by injection E as <-|]. apply bind_inv in E as (st' & E5 & E).
    pose proof (put_literal_frame _ _ E5) as E5'. unfold widen in E5'. cbn [ip op lit out hval htab] in E5'.
    rewrite E5'. run. by injection E as <-.
Qed.

Lemma compress_loop_frame fuel in_end out_end st r :
  compress_loop fuel I in_end out_end st = Ret r →
  compress_loop fuel (I ++ J) in_end out_end (widen st) = Ret (sum_map (λ o, o ++ P) widen r).
Proof.
  revert st. induction fuel as [|fuel IH]; intros st; cbn [compress_loop widen ip];
    (case_cond; [|by intros [= <-]]); [done|]. intros E.
  apply bind_inv in E as (rd & E1 & E). rewrite (compress_round_frame _ _ _ _ E1). run. destruct rd; [by injection E as <-..|]. by apply IH.
Qed.

Lemma rest_loop_frame fuel in_end st st' :
  rest_loop fuel I in_end st = Ret st' → rest_loop fuel (I ++ J) in_end (widen st) = Ret (widen st').
Proof.
  revert st. induction fuel as [|fuel IH]; intros st; cbn [rest_loop widen ip];
    (case_cond; [|by intros [= <-]]); [done|]. intros E.
  apply bind_inv in E as (st1 & E1 & E). rewrite (put_literal_frame _ _ E1). run. by apply IH.
Qed.

Lemma lzf_compress_frame in_len o out_len htab0 o' n :
  lzf_compress I in_len o out_len htab0 = Ret (o', n) →
  lzf_compress (I ++ J) in_len (o ++ P) out_len htab0 = Ret (o' ++ P, n).
Proof.
  unfold lzf_compress. case_cond; [by intros [= <- <-]|]. intros E.
  apply bind_inv in E as (hv & E1 & E). apply bind_inv in E as (r & E2 & E).
  rewrite (FRST_frame _ J _ _ E1). run. pose proof (compress_loop_frame _ _ _ _ _ E2) as E2'. unfold widen at 1 in E2'.
  cbn [ip op lit out hval htab] in E2'. rewrite E2'. run. destruct r as [o1|st]; cbn [sum_map]; [by injection E as <- <-|].
  cbn [widen op out]. case_cond; [by injection E as <- <-|].
  apply bind_inv in E as (st1 & E3 & E). rewrite (rest_loop_frame _ _ _ _ E3). run. apply bind_inv in E as (o1 & E4 & E). cbn [widen op out lit].
  rewrite (stop_run_frame _ _ _ _ E4). run. by injection E as <- <-.
Qed.

End writes.

(** One byte: the input is looked at behind it. *)
Lemma compress_one b0 b1 o0 o1 m htab0 :
  is_byte b0 → 4 <= m → lzf_compress [b0; b1] 1 [o0; o1] m htab0 = Ret ([0; b0], 2).
Proof.
  intros Hb Hm. unfold lzf_compress. test (m =? 0) false. change ((1 =? 0) || false) with false. cbv iota.
  set (v := Z.lor (Z.shiftl b0 8) b1). assert (FRST [b0; b1] 0 = Ret v) as -> by reflexivity. run.
  assert (∀ st, ip st = 0 → compress_loop (Z.to_nat 1) [b0; b1] 1 m st = Ret (inr st)) as Hl by (intros [] Hi; cbn in Hi; by subst).
  rewrite Hl by done. run. cbn [op]. test (m <? 1 + 3) false.
  assert (rest_loop 3 [b0; b1] 1 (CState 0 1 0 [o0; o1] v htab0) = Ret (CState 1 2 1 [o0; u8 b0] v htab0)) as -> by reflexivity.
  run. rewrite (wrapu_id 8 b0) by (unfold is_byte in Hb; lia). reflexivity.
Qed.

(** A string of any length and the 32-bit lengths made of it. *)
Lemma compress_cut bs rest out htab0 :
  bytes_ok bs → table_ok htab0 → 4 < zlen bs → zlen out = zlen bs - 3 →
  ∃ out' n, lzf_compress (bs ++ rest) (u32 (zlen bs)) out (u32 (zlen bs - 4)) htab0 = Ret (out', n) ∧
    (n = 0 ∧ u32 (zlen bs) ≠ 1 ∨
     ∃ C R, out' = C ++ R ∧ zlen C = n ∧ 0 < n <= zlen bs - 4 ∧ bytes_ok C ∧
       expands C [] (take (Z.to_nat (u32 (zlen bs))) bs)).
Proof.
  intros Hb Ht H4 Ho. pose proof (wrapu_range 32 (zlen bs) ltac:(lia)) as Hu. pose proof (wrapu_range 32 (zlen bs - 4) ltac:(lia)) as Hv.
  assert (u32 (zlen bs) <= zlen bs) by (unfold wrapu; apply Z.mod_le; lia).
  assert (u32 (zlen bs - 4) <= zlen bs - 4) by (unfold wrapu; apply Z.mod_le; lia).
  destruct (decide (u32 (zlen bs) = 0)) as [E0|Hu0].
  { exists out, 0. rewrite E0. split; [by unfold lzf_compress|]. by left. }
  destruct (decide (u32 (zlen bs) = 1)) as [E1|Hu1].
  - assert (4 <= u32 (zlen bs - 4)) as Hm.
    { revert E1. unfold wrapu. dm (zlen bs) (2 ^ 32). dm (zlen bs - 4) (2 ^ 32). intros. nia. }
    destruct bs as [|b0 [|b1 bs]]; [zlr; lia..|]. destruct out as [|o0 [|o1 out]]; [zlr; lia..|].
    rewrite E1 in *. assert (is_byte b0) as Hb0 by (by apply Forall_cons in Hb as [? _]).
    pose proof (lzf_compress_frame _ (bs ++ rest) out _ _ _ _ _ _ (compress_one b0 b1 o0 o1 _ htab0 Hb0 Hm)) as E. cbn [app] in E |- *.
    eexists _, _. split; [exact E|]. right. exists [0; b0], out. split_and!; [done|done|lia|lia| |].
    { apply Forall_cons. split; [by unfold is_byte|]. apply Forall_cons. by split; [|constructor]. }
    apply (expands_lit_iff 0 [b0] []); [lia|done|]. constructor.
  - destruct (zsplit (u32 (zlen bs)) bs) as (d & e & E & Hd & He); [lia|].
    destruct (zsplit (u32 (zlen bs - 4)) out) as (o & p & Eo & Hlo & Hp); [lia|].
    assert (bytes_ok d) as Hbd by (rewrite E in Hb; by apply Forall_app in Hb as [? _]).
    destruct (compress_spec d o htab0 Hbd) as (out' & n & Ec & Hzo & Hn); [lia|done|].
    rewrite Hd, Hlo in Ec. apply (lzf_compress_frame _ (e ++ rest) p) in Ec.
    exists (out' ++ p), n. split; [by rewrite E at 1; rewrite Eo, <- app_assoc|].
    destruct Hn as [->|(C & R & -> & HC & Hn0 & HbC & HE)]; [by left|]. right. exists C, (R ++ p). zlr. pose proof (zlen_nonneg R).
    split_and!; [by rewrite <- app_assoc|done|lia|lia|done|].
    replace (take (Z.to_nat (u32 (zlen bs))) bs) with d; [done|]. rewrite <- Hd, E. unfold zlen. by rewrite Nat2Z.id, take_app_length.
Qed.

End LzfFrame.
