(* ===== verification/LzfSpec.v ===== *)
(** LZF: compression and decompression are inverse, and decompression of any
    bytes is safe and exact. *)
From S2P Require Import Prelude Lzf LzfFormat LzfCompress.

Module LzfSpec.
Import Lzf LzfFormat LzfCompress.

(** A text with repetitions, and a table of zeroes. *)
Definition demo_text : list Z := [122; 97; 98; 99; 97; 98; 99; 97; 98; 99; 97; 98; 99; 97; 98; 99; 97; 98; 99; 122].
Definition demo_htab : list Z := replicate (Z.to_nat HSIZE) 0.

Lemma decompress_ok cs dst : bytes_ok cs →
  ∃ r, lzf_decompress cs (zlen cs) dst (zlen dst) = Ret r ∧ decompressed cs [] (zlen dst) r.
Proof.
  intros Hb. unfold lzf_decompress. apply (decompress_spec (Z.to_nat (zlen cs)) [] cs [] dst Hb); [constructor|].
  pose proof (zlen_nonneg cs). lia.
Qed.

(** What stands for [s] decompresses to it. *)
Lemma decompress_expands cs s dst : bytes_ok cs → expands cs [] s → zlen s <= zlen dst →
  ∃ t, lzf_decompress cs (zlen cs) dst (zlen dst) = Ret (s ++ t, zlen s, None) ∧ zlen (s ++ t) = zlen dst.
Proof.
  intros Hb HE HL. destruct (decompress_ok cs dst Hb) as ([[out n] e] & -> & HZ & He). destruct e as [[]|].
  - destruct He as [_ He]. specialize (He s HE). lia.
  - destruct He as [_ He]. by destruct (He s).
  - destruct He as (s' & t & HE' & -> & ->). rewrite (expands_fun _ _ _ _ HE HE'). by exists t.
Qed.

(** * Properties *)

(** C33. Whatever the hash table holds when [lzf_compress] starts, the function
    stays inside the input and the output buffer, and when it does not return 0
    the bytes it wrote decompress to the input, in any buffer with room for it;
    in a smaller one [lzf_decompress] reports [E2BIG].  An input of a single
    byte is read past its end. *)
Theorem lzf_roundtrip :
  (∀ data out htab, bytes_ok data → 2 <= zlen data < 2 ^ 32 →
    zlen htab = HSIZE → Forall (λ v, 0 <= v < 2 ^ 32) htab →
    ∃ out' n, lzf_compress data (zlen data) out (zlen out) htab = Ret (out', n) ∧
      zlen out' = zlen out ∧ 0 <= n <= zlen out ∧
      (n ≠ 0 → ∀ dst, 
        (zlen data <= zlen dst → ∃ t,
           lzf_decompress (take (Z.to_nat n) out') n dst (zlen dst) = Ret (data ++ t, zlen data, None)) ∧
        (zlen dst < zlen data → ∃ dst',
           lzf_decompress (take (Z.to_nat n) out') n dst (zlen dst) = Ret (dst', 0, Some E2BIG)))) ∧
  (∀ x out htab, out ≠ [] → lzf_compress [x] 1 out (zlen out) htab = Fault).
Proof.
  split.
  - intros data out htab Hb HI HZ HF. destruct (compress_spec data out htab Hb HI (conj HZ HF)) as (out' & n & -> & HO & Hn).
    exists out', n. split; [done|]. split; [done|]. pose proof (zlen_nonneg out). destruct Hn as [->|(C & R & -> & HC & H0 & HB & HE)]; [split; [lia|done]|].
    pose proof (zlen_nonneg R). zlr. split; [lia|]. intros _ dst.
    rewrite take_app_length' by (unfold zlen in *; lia). rewrite <- HC. split.
    + intros HL. destruct (decompress_expands C data dst HB HE HL) as (t & -> & _). by exists t.
    + intros HL. destruct (decompress_ok C dst HB) as ([[o k] e] & -> & HZ' & He). destruct e as [[]|].
      * destruct He as [-> _]. by exists o.
      * destruct He as [_ He]. by destruct (He data).
      * destruct He as (s & t & HE' & -> & ->). rewrite <- (expands_fun _ _ _ _ HE HE') in HZ'. pose proof (zlen_nonneg t). zlr. lia.
  - intros x out htab Ho. unfold lzf_compress. destruct out as [|y out]; [done|]. pose proof (zlen_nonneg out).
    by test ((1 =? 0) || (zlen (y :: out) =? 0)) false.
Qed.

(** C34. [lzf_decompress] returns for any bytes and any buffer and stays inside
    both; it returns the length of what the format says the bytes stand for,
    with that at the start of the buffer, when it fits, and 0 otherwise: [E2BIG]
    only if there is no room for it and [EINVAL] only if the bytes stand for
    nothing. *)
Theorem lzf_decompress_exact cs dst : bytes_ok cs →
  ∃ out n e, lzf_decompress cs (zlen cs) dst (zlen dst) = Ret (out, n, e) ∧ zlen out = zlen dst ∧
  match e with
  | None => ∃ s t, expands cs [] s ∧ n = zlen s ∧ out = s ++ t
  | Some E2BIG => n = 0 ∧ ∀ s, expands cs [] s → zlen dst < zlen s
  | Some EINVAL => n = 0 ∧ ∀ s, ¬ expands cs [] s
  end.
Proof. intros Hb. destruct (decompress_ok cs dst Hb) as ([[out n] e] & E & HZ & He). by exists out, n, e. Qed.

(** * Examples *)

Lemma lzf_roundtrip_witness :
  ∃ out, lzf_compress demo_text (zlen demo_text) (replicate 16 0) 16 demo_htab = Ret (out, 11) ∧
    ∃ t, lzf_decompress (take 11 out) 11 (replicate 20 0) 20 = Ret (demo_text ++ t, 20, None).
Proof.
  assert (HB : bytes_ok demo_text) by (by repeat constructor).
  assert (H2 : 2 <= zlen demo_text < 2 ^ 32) by (by vm_compute).
  assert (HZ : zlen demo_htab = HSIZE) by (unfold demo_htab; rewrite zlen_replicate; apply Z2Nat.id; done).
  assert (HF : Forall (λ v, 0 <= v < 2 ^ 32) demo_htab) by (unfold demo_htab; apply Forall_replicate; lia).
  destruct (proj1 lzf_roundtrip demo_text (replicate 16 0) demo_htab HB H2 HZ HF) as (out & n & E & _ & _ & HD). clear HZ HF.
  assert (En : n = 11) by (clear HD; vm_compute in E; congruence). subst n. exists out. split; [exact E|]. clear E.
  destruct (HD ltac:(lia) (replicate 20 0)) as [H1 _]. apply H1. discriminate.
Defined.

Lemma lzf_decompress_exact_witness : ∃ out n e, lzf_decompress [1; 7] 2 [0; 0] 2 = Ret (out, n, e) ∧ e = Some EINVAL.
Proof.
  destruct (lzf_decompress_exact [1; 7] [0; 0]) as (out & n & e & E & _); [by repeat constructor|].
  exists out, n, e. split; [exact E|]. revert E. vm_compute. congruence.
Defined.

End LzfSpec.
