(* ===== verification/Object.v ===== *)
(** String objects: the creation, sharing, encoding and comparison of the
    objects of [object.c] that hold strings, with the structure of [server.h].

    The objects are a heap from addresses to records.  The field [ptr] holds a
    number, a string, the block of a compact collection or a value of one of
    the types that are not modelled; a string belongs to its object and goes
    away with it.  Errors the functions report to a client are values. *)
From stdpp Require Import gmap.
From S2P Require Import Prelude Endianconv Util Sds.
Import Util Sds.

Module Object.

(** * server.h *)

Definition OBJ_STRING : Z := 0.
Definition OBJ_LIST : Z := 1.
Definition OBJ_SET : Z := 2.
Definition OBJ_ZSET : Z := 3.
Definition OBJ_HASH : Z := 4.
Definition OBJ_MODULE : Z := 5.
Definition OBJ_STREAM : Z := 6.

Definition OBJ_ENCODING_RAW : Z := 0.
Definition OBJ_ENCODING_INT : Z := 1.
Definition OBJ_ENCODING_HT : Z := 2.
Definition OBJ_ENCODING_ZIPLIST : Z := 5.
Definition OBJ_ENCODING_INTSET : Z := 6.
Definition OBJ_ENCODING_SKIPLIST : Z := 7.
Definition OBJ_ENCODING_EMBSTR : Z := 8.
Definition OBJ_ENCODING_QUICKLIST : Z := 9.
Definition OBJ_ENCODING_STREAM : Z := 10.

Definition OBJ_SHARED_INTEGERS : Z := 10000.
Definition OBJ_ENCODING_EMBSTR_SIZE_LIMIT : Z := 44.
Definition INT_MIN : Z := - 2 ^ 31.
Definition INT_MAX : Z := 2 ^ 31 - 1.
Definition OBJ_SHARED_REFCOUNT : Z := INT_MAX.
Definition OBJ_STATIC_REFCOUNT : Z := INT_MAX - 1.
Definition OBJ_FIRST_SPECIAL_REFCOUNT : Z := OBJ_STATIC_REFCOUNT.

Definition MAXMEMORY_FLAG_LRU : Z := 1.
Definition MAXMEMORY_FLAG_LFU : Z := 2.
Definition MAXMEMORY_FLAG_NO_SHARED_INTEGERS : Z := Z.lor MAXMEMORY_FLAG_LRU MAXMEMORY_FLAG_LFU.
Definition LRU_CLOCK_MAX : Z := Z.shiftl 1 24 - 1.
Definition LRU_CLOCK_RESOLUTION : Z := 1000.
Definition LFU_INIT_VAL : Z := 5.

(** What the [void *] of an object points to. *)
Inductive obj_ptr :=
| P_NULL
| P_INT (v : Z)
| P_SDS (s : sds)
| P_BLOB (b : list Z)
| P_OTHER.

Record robj := Robj {
  type : Z;
  encoding : Z;
  lru : Z;
  refcount : Z;
  ptr : obj_ptr;
}.

Abbreviation heap := (gmap Z robj).

(** The address of a new object. *)
Class ObjAlloc := new_obj : gset Z → Z.
Class ObjAllocLaws (N : ObjAlloc) : Prop :=
  new_obj_fresh : ∀ X, (new_obj X ∉ X) ∧ new_obj X ≠ 0.

(** The fields of [struct redisServer] the functions read, the current time in
    milliseconds, and the array [shared.integers]. *)
Class Server := {
  maxmemory : Z;
  maxmemory_policy : Z;
  hz : Z;
  lruclock : Z;
  unixtime : Z;
  mstime : Z;
  integers : list Z;
}.

Definition deref (h : heap) (p : Z) : outcome robj :=
  match h !! p with Some o => Ret o | None => Fault end.
Definition set_refcount (o : robj) (n : Z) : robj := Robj (type o) (encoding o) (lru o) n (ptr o).
Definition set_encoding (o : robj) (e : Z) : robj := Robj (type o) e (lru o) (refcount o) (ptr o).
Definition set_ptr (o : robj) (p : obj_ptr) : robj := Robj (type o) (encoding o) (lru o) (refcount o) p.

(** [(long) o->ptr] and [(sds) o->ptr]. *)
Definition as_long (p : obj_ptr) : outcome Z :=
  match p with P_INT v => Ret v | P_NULL => Ret 0 | _ => Fault end.
Definition as_sds (p : obj_ptr) : outcome sds :=
  match p with P_SDS s => Ret s | _ => Fault end.

Definition sdsEncodedObject (o : robj) : bool :=
  (encoding o =? OBJ_ENCODING_RAW) || (encoding o =? OBJ_ENCODING_EMBSTR).

Definition shared_integer {V : Server} (value : Z) : outcome Z :=
  match integers !! Z.to_nat value with Some p => Ret p | None => Fault end.

(** * evict.c: the value of the field [lru] *)

Definition getLRUClock {V : Server} : Z := Z.land (Z.quot mstime LRU_CLOCK_RESOLUTION) LRU_CLOCK_MAX.

Definition LRU_CLOCK {V : Server} : Z :=
  if Z.quot 1000 hz <=? LRU_CLOCK_RESOLUTION then lruclock else getLRUClock.

Definition LFUGetTimeInMinutes {V : Server} : Z := Z.land (Z.quot unixtime 60) 65535.

(** * Creation and release *)

Section objects.
Context {H : HostOrder} {A : Allocator} {N : ObjAlloc} {V : Server}.

(** The first value of [lru], a field of 24 bits. *)
Definition new_lru : Z :=
  wrapu 24 (if negb (Z.land maxmemory_policy MAXMEMORY_FLAG_LFU =? 0)
            then Z.lor (Z.shiftl LFUGetTimeInMinutes 8) LFU_INIT_VAL else LRU_CLOCK).

Definition createObject (h : heap) (ty : Z) (p : obj_ptr) : heap * Z :=
  let o := new_obj (dom h) in
  (<[o := Robj ty OBJ_ENCODING_RAW new_lru 1 p]> h, o).

Definition makeObjectShared (h : heap) (o : Z) : outcome (heap * Z) :=
  obj ← deref h o;
  _ ← c_assert (refcount obj =? 1);
  Ret (<[o := set_refcount obj OBJ_SHARED_REFCOUNT]> h, o).

Definition createRawStringObject (h : heap) (init : sds_init) (len : Z) : outcome (heap * Z) :=
  s ← sdsnewlen init len;
  Ret (createObject h OBJ_STRING (P_SDS s)).

Definition sizeof_robj : Z := 16.
Definition sizeof_sdshdr8 : Z := 3.

(** The object and its string are one chunk: the string is what follows the
    fields of the object. *)
Definition createEmbeddedStringObject (h : heap) (init : sds_init) (len : Z) : outcome (heap * Z) :=
  let chunk := zmalloc (u64 (sizeof_robj + sizeof_sdshdr8 + len + 1)) in
  sh ← rdn chunk sizeof_robj (zlen chunk - sizeof_robj);
  let o := new_obj (dom h) in
  let s := Sds sh sizeof_sdshdr8 in
  s ← set_sh_len 1 s len;
  s ← set_sh_alloc 1 s len;
  s ← s_wr s (-1) SDS_TYPE_8;
  s ← match init with
      | SDS_NOINIT => s_wr s len 0
      | INIT_BYTES bs => bs ← rdn bs 0 len; s ← s_wrn s 0 bs; s_wr s len 0
      | INIT_NULL => s_wrn s 0 (replicate (Z.to_nat (len + 1)) 0)
      end;
  Ret (<[o := Robj OBJ_STRING OBJ_ENCODING_EMBSTR new_lru 1 (P_SDS s)]> h, o).

Definition createStringObject (h : heap) (init : sds_init) (len : Z) : outcome (heap * Z) :=
  if len <=? OBJ_ENCODING_EMBSTR_SIZE_LIMIT then createEmbeddedStringObject h init len
  else createRawStringObject h init len.

Definition tryCreateRawStringObject (h : heap) (init : sds_init) (len : Z) : outcome (heap * option Z) :=
  str ← sdstrynewlen init len;
  match str with
  | None => Ret (h, None)
  | Some str => let '(h, o) := createObject h OBJ_STRING (P_SDS str) in Ret (h, Some o)
  end.

Definition tryCreateStringObject (h : heap) (init : sds_init) (len : Z) : outcome (heap * option Z) :=
  if len <=? OBJ_ENCODING_EMBSTR_SIZE_LIMIT
  then '(h, o) ← createEmbeddedStringObject h init len; Ret (h, Some o)
  else tryCreateRawStringObject h init len.

Definition incrRefCount (h : heap) (o : Z) : outcome heap :=
  obj ← deref h o;
  if refcount obj <? OBJ_FIRST_SPECIAL_REFCOUNT
  then Ret (<[o := set_refcount obj (refcount obj + 1)]> h)
  else if refcount obj =? OBJ_SHARED_REFCOUNT then Ret h
  else if refcount obj =? OBJ_STATIC_REFCOUNT then Panic
  else Ret h.

(** [sdsfree] and [zfree]: the pointer is null or one they take. *)
Definition sdsfree (p : obj_ptr) : outcome unit :=
  match p with P_NULL => Ret tt | P_SDS s => _ ← s_rd s (-1); Ret tt | _ => Fault end.
Definition zfree (p : obj_ptr) : outcome unit :=
  match p with P_NULL | P_BLOB _ => Ret tt | _ => Fault end.
(** The release of a value whose type is not modelled. *)
Definition release_other (p : obj_ptr) : outcome unit :=
  match p with P_OTHER => Ret tt | _ => Fault end.

Definition freeStringObject (obj : robj) : outcome unit :=
  if encoding obj =? OBJ_ENCODING_RAW then sdsfree (ptr obj) else Ret tt.

Definition freeListObject (obj : robj) : outcome unit :=
  if encoding obj =? OBJ_ENCODING_QUICKLIST then release_other (ptr obj) else Panic.

Definition freeSetObject (obj : robj) : outcome unit :=
  if encoding obj =? OBJ_ENCODING_HT then release_other (ptr obj)
  else if encoding obj =? OBJ_ENCODING_INTSET then zfree (ptr obj)
  else Panic.

Definition freeZsetObject (obj : robj) : outcome unit :=
  if encoding obj =? OBJ_ENCODING_SKIPLIST then release_other (ptr obj)
  else if encoding obj =? OBJ_ENCODING_ZIPLIST then zfree (ptr obj)
  else Panic.

Definition freeHashObject (obj : robj) : outcome unit :=
  if encoding obj =? OBJ_ENCODING_HT then release_other (ptr obj)
  else if encoding obj =? OBJ_ENCODING_ZIPLIST then zfree (ptr obj)
  else Panic.

Definition freeModuleObject (obj : robj) : outcome unit := release_other (ptr obj).
Definition freeStreamObject (obj : robj) : outcome unit := release_other (ptr obj).

Definition decrRefCount (h : heap) (o : Z) : outcome heap :=
  obj ← deref h o;
  if refcount obj =? 1 then
    _ ← (if type obj =? OBJ_STRING then freeStringObject obj
         else if type obj =? OBJ_LIST then freeListObject obj
         else if type obj =? OBJ_SET then freeSetObject obj
         else if type obj =? OBJ_ZSET then freeZsetObject obj
         else if type obj =? OBJ_HASH then freeHashObject obj
         else if type obj =? OBJ_MODULE then freeModuleObject obj
         else if type obj =? OBJ_STREAM then freeStreamObject obj
         else Panic);
    Ret (delete o h)
  else if refcount obj <=? 0 then Panic
  else if negb (refcount obj =? OBJ_SHARED_REFCOUNT)
       then Ret (<[o := set_refcount obj (refcount obj - 1)]> h) else Ret h.

Definition shared_integers_allowed : bool :=
  (maxmemory =? 0) || (Z.land maxmemory_policy MAXMEMORY_FLAG_NO_SHARED_INTEGERS =? 0).

Definition createStringObjectFromLongLongWithOptions (h : heap) (value : Z) (valueobj : bool) : outcome (heap * Z) :=
  let valueobj := if shared_integers_allowed then false else valueobj in
  if (0 <=? value) && (value <? OBJ_SHARED_INTEGERS) && negb valueobj then
    o ← shared_integer value;
    h ← incrRefCount h o;
    Ret (h, o)
  else if (LONG_MIN <=? value) && (value <=? LONG_MAX) then
    let '(h, o) := createObject h OBJ_STRING P_NULL in
    obj ← deref h o;
    Ret (<[o := set_ptr (set_encoding obj OBJ_ENCODING_INT) (P_INT value)]> h, o)
  else
    s ← sdsfromlonglong value;
    Ret (createObject h OBJ_STRING (P_SDS s)).

Definition createStringObjectFromLongLong (h : heap) (value : Z) : outcome (heap * Z) :=
  createStringObjectFromLongLongWithOptions h value false.

Definition createStringObjectFromLongLongForValue (h : heap) (value : Z) : outcome (heap * Z) :=
  createStringObjectFromLongLongWithOptions h value true.

(** The bytes of a string as the source of a copy. *)
Definition sds_bytes (s : sds) (len : Z) : outcome sds_init := bs ← s_rdn s 0 len; Ret (INIT_BYTES bs).

Definition dupStringObject (h : heap) (o : Z) : outcome (heap * Z) :=
  obj ← deref h o;
  _ ← c_assert (type obj =? OBJ_STRING);
  if encoding obj =? OBJ_ENCODING_RAW then
    s ← as_sds (ptr obj); len ← sdslen s; src ← sds_bytes s len; createRawStringObject h src len
  else if encoding obj =? OBJ_ENCODING_EMBSTR then
    s ← as_sds (ptr obj); len ← sdslen s; src ← sds_bytes s len; createEmbeddedStringObject h src len
  else if encoding obj =? OBJ_ENCODING_INT then
    let '(h, d) := createObject h OBJ_STRING P_NULL in
    dobj ← deref h d;
    Ret (<[d := set_ptr (set_encoding dobj OBJ_ENCODING_INT) (ptr obj)]> h, d)
  else Panic.

(** The loop of [createSharedObjects] (server.c) that fills [shared.integers]. *)
Fixpoint shared_integers_loop (n : nat) (h : heap) (j : Z) : outcome (heap * list Z) :=
  match n with
  | O => Ret (h, [])
  | S n =>
    let '(h, o) := createObject h OBJ_STRING (P_INT j) in
    '(h, o) ← makeObjectShared h o;
    obj ← deref h o;
    let h := <[o := set_encoding obj OBJ_ENCODING_INT]> h in
    '(h, os) ← shared_integers_loop n h (j + 1);
    Ret (h, o :: os)
  end.

Definition createSharedIntegers (h : heap) : outcome (heap * list Z) :=
  shared_integers_loop (Z.to_nat OBJ_SHARED_INTEGERS) h 0.

(** * Encoding and decoding *)

Definition isSdsRepresentableAsLongLong (s : sds) : outcome (option Z) :=
  len ← sdslen s; bs ← s_rdn s 0 len; string2ll bs len.

(** [C_OK] with the value, or [C_ERR]. *)
Definition isObjectRepresentableAsLongLong (h : heap) (o : Z) : outcome (option Z) :=
  obj ← deref h o;
  _ ← c_assert (type obj =? OBJ_STRING);
  if encoding obj =? OBJ_ENCODING_INT then v ← as_long (ptr obj); Ret (Some v)
  else s ← as_sds (ptr obj); isSdsRepresentableAsLongLong s.

(** [use_jemalloc] is the build flag [USE_JEMALLOC]. *)
Definition trimStringObjectIfNeeded (use_jemalloc : bool) (h : heap) (o : Z) : outcome heap :=
  obj ← deref h o;
  if encoding obj =? OBJ_ENCODING_RAW then
    s ← as_sds (ptr obj);
    avail ← sdsavail s;
    len ← sdslen s;
    if Z.quot len 10 <? avail then
      s ← sdsRemoveFreeSpace use_jemalloc s false;
      Ret (<[o := set_ptr obj (P_SDS s)]> h)
    else Ret h
  else Ret h.

Definition tryObjectEncoding (use_jemalloc : bool) (h : heap) (o : Z) : outcome (heap * Z) :=
  obj ← deref h o;
  _ ← c_assert (type obj =? OBJ_STRING);
  if negb (sdsEncodedObject obj) then Ret (h, o)
  else if 1 <? refcount obj then Ret (h, o)
  else
    s ← as_sds (ptr obj);
    len ← sdslen s;
    value ← (if len <=? 20 then bs ← s_rdn s 0 len; string2l bs len else Ret None);
    let try_embstr :=
      if len <=? OBJ_ENCODING_EMBSTR_SIZE_LIMIT then
        if encoding obj =? OBJ_ENCODING_EMBSTR then Ret (h, o)
        else
          len ← sdslen s;
          src ← sds_bytes s len;
          '(h, emb) ← createEmbeddedStringObject h src len;
          h ← decrRefCount h o;
          Ret (h, emb)
      else
        h ← trimStringObjectIfNeeded use_jemalloc h o;
        Ret (h, o) in
    match value with
    | None => try_embstr
    | Some value =>
      if shared_integers_allowed && (0 <=? value) && (value <? OBJ_SHARED_INTEGERS) then
        h ← decrRefCount h o;
        p ← shared_integer value;
        h ← incrRefCount h p;
        Ret (h, p)
      else if encoding obj =? OBJ_ENCODING_RAW then
        _ ← sdsfree (ptr obj);
        Ret (<[o := set_ptr (set_encoding obj OBJ_ENCODING_INT) (P_INT value)]> h, o)
      else if encoding obj =? OBJ_ENCODING_EMBSTR then
        h ← decrRefCount h o;
        createStringObjectFromLongLongForValue h value
      else try_embstr
    end.

Definition getDecodedObject (h : heap) (o : Z) : outcome (heap * Z) :=
  obj ← deref h o;
  if sdsEncodedObject obj then h ← incrRefCount h o; Ret (h, o)
  else if (type obj =? OBJ_STRING) && (encoding obj =? OBJ_ENCODING_INT) then
    v ← as_long (ptr obj);
    '(buf, _) ← ll2string (junk 32) 32 v;
    len ← strlen buf;
    createStringObject h (INIT_BYTES buf) len
  else Panic.

(** * Comparison *)

Definition REDIS_COMPARE_BINARY : Z := 1.
Definition REDIS_COMPARE_COLL : Z := 2.

(** The block, the offset in it and the length of the text of an object; the
    numbers are printed into a buffer of 128 bytes. *)
Definition string_of (obj : robj) : outcome (list Z * Z * Z) :=
  if sdsEncodedObject obj then
    s ← as_sds (ptr obj); len ← sdslen s; Ret (mem s, off s, len)
  else
    v ← as_long (ptr obj); '(buf, len) ← ll2string (junk 128) 128 v; Ret (buf, 0, len).

(** [strcoll] compares C strings in the order of the locale. *)
Definition compareStringObjectsWithFlags (strcoll : list Z → list Z → Z) (h : heap) (a b flags : Z) : outcome Z :=
  aobj ← deref h a;
  bobj ← deref h b;
  _ ← c_assert ((type aobj =? OBJ_STRING) && (type bobj =? OBJ_STRING));
  if a =? b then Ret 0
  else
    '(astr, aoff, alen) ← string_of aobj;
    '(bstr, boff, blen) ← string_of bobj;
    if negb (Z.land flags REDIS_COMPARE_COLL =? 0) then
      Ret (strcoll (drop (Z.to_nat aoff) astr) (drop (Z.to_nat boff) bstr))
    else
      let minlen := if alen <? blen then alen else blen in
      x ← rdn astr aoff minlen;
      y ← rdn bstr boff minlen;
      let cmp := memcmp x y in
      if cmp =? 0 then Ret (s32 (u64 (alen - blen))) else Ret cmp.

Definition compareStringObjects (strcoll : list Z → list Z → Z) (h : heap) (a b : Z) : outcome Z :=
  compareStringObjectsWithFlags strcoll h a b REDIS_COMPARE_BINARY.

Definition collateStringObjects (strcoll : list Z → list Z → Z) (h : heap) (a b : Z) : outcome Z :=
  compareStringObjectsWithFlags strcoll h a b REDIS_COMPARE_COLL.

Definition equalStringObjects (strcoll : list Z → list Z → Z) (h : heap) (a b : Z) : outcome bool :=
  aobj ← deref h a;
  bobj ← deref h b;
  if (encoding aobj =? OBJ_ENCODING_INT) && (encoding bobj =? OBJ_ENCODING_INT) then
    x ← as_long (ptr aobj); y ← as_long (ptr bobj); Ret (x =? y)
  else
    cmp ← compareStringObjects strcoll h a b; Ret (cmp =? 0).

Definition stringObjectLen (h : heap) (o : Z) : outcome Z :=
  obj ← deref h o;
  _ ← c_assert (type obj =? OBJ_STRING);
  if sdsEncodedObject obj then s ← as_sds (ptr obj); sdslen s
  else v ← as_long (ptr obj); Ret (sdigits10 v).

(** * Numbers from objects *)

(** The argument may be a null pointer. *)
Definition getLongLongFromObject (h : heap) (o : option Z) : outcome (option Z) :=
  match o with
  | None => Ret (Some 0)
  | Some o =>
    obj ← deref h o;
    _ ← c_assert (type obj =? OBJ_STRING);
    if sdsEncodedObject obj then
      s ← as_sds (ptr obj); len ← sdslen s; bs ← s_rdn s 0 len; string2ll bs len
    else if encoding obj =? OBJ_ENCODING_INT then v ← as_long (ptr obj); Ret (Some v)
    else Panic
  end.

(** The calls that report an error to the client. *)
Inductive reply :=
| addReplyError (err : list Z)
| addReplyErrorFormat (fmt : list Z) (args : list Z).

Definition getLongLongFromObjectOrReply (h : heap) (o : option Z) (msg : option (list Z)) : outcome (reply + Z) :=
  r ← getLongLongFromObject h o;
  match r with
  | None => Ret (inl (addReplyError (default (cstr "value is not an integer or out of range") msg)))
  | Some value => Ret (inr value)
  end.

Definition getLongFromObjectOrReply (h : heap) (o : option Z) (msg : option (list Z)) : outcome (reply + Z) :=
  r ← getLongLongFromObjectOrReply h o msg;
  match r with
  | inl e => Ret (inl e)
  | inr value =>
    if (value <? LONG_MIN) || (LONG_MAX <? value)
    then Ret (inl (addReplyError (default (cstr "value is out of range") msg)))
    else Ret (inr value)
  end.

Definition getRangeLongFromObjectOrReply (h : heap) (o : option Z) (min max : Z) (msg : option (list Z))
    : outcome (reply + Z) :=
  r ← getLongFromObjectOrReply h o msg;
  match r with
  | inl e => Ret (inl e)
  | inr target =>
    if (target <? min) || (max <? target) then
      Ret (inl match msg with
               | Some msg => addReplyError msg
               | None => addReplyErrorFormat
                   (cstr "value is out of range, value must between %ld and %ld") [min; max]
               end)
    else Ret (inr target)
  end.

Definition getPositiveLongFromObjectOrReply (h : heap) (o : option Z) (msg : option (list Z)) : outcome (reply + Z) :=
  match msg with
  | Some msg => getRangeLongFromObjectOrReply h o 0 LONG_MAX (Some msg)
  | None => getRangeLongFromObjectOrReply h o 0 LONG_MAX (Some (cstr "value is out of range, must be positive"))
  end.

Definition getIntFromObjectOrReply (h : heap) (o : option Z) (msg : option (list Z)) : outcome (reply + Z) :=
  getRangeLongFromObjectOrReply h o INT_MIN INT_MAX msg.

End objects.

End Object.
