(* ===== verification/ObjectSpec.v ===== *)
(** What the string objects promise: whatever its encoding, an object stands
    for a byte string, and the functions of [object.c] depend only on it. *)
From stdpp Require Import gmap.
From S2P Require Import Prelude Endianconv Util Sds SdsRep SdsOps SdsText SdsSpec Object.
Import Util Sds SdsRep SdsOps SdsText SdsSpec Object.

Module ObjectSpec.

(** * The meaning of an object *)

Section meaning.
Context {H : HostOrder}.

(** How the object holds its bytes. *)
Inductive holds : robj → list Z → Prop :=
| holds_int l r v : int64 v → holds (Robj OBJ_STRING OBJ_ENCODING_INT l r (P_INT v)) (dec v)
| holds_raw l r s bs : rep s bs → holds (Robj OBJ_STRING OBJ_ENCODING_RAW l r (P_SDS s)) bs
| holds_emb l r s bs : rep s bs → zlen bs <= OBJ_ENCODING_EMBSTR_SIZE_LIMIT →
    holds (Robj OBJ_STRING OBJ_ENCODING_EMBSTR l r (P_SDS s)) bs.

Definition string_obj (h : heap) (p : Z) (bs : list Z) : Prop := ∃ o, h !! p = Some o ∧ holds o bs.

(** Every number below the limit has its shared object. *)
Definition shared_at (ps : list Z) (h : heap) : Prop :=
  ∀ v, 0 <= v < OBJ_SHARED_INTEGERS → ∃ p l, ps !! Z.to_nat v = Some p ∧
    h !! p = Some (Robj OBJ_STRING OBJ_ENCODING_INT l OBJ_SHARED_REFCOUNT (P_INT v)).
Definition shared_ok {V : Server} (h : heap) : Prop := shared_at integers h.

(** [h'] differs from [h] in the object [p'] that took the place of [p]. *)
Record replaces (h : heap) (p : Z) (h' : heap) (p' : Z) : Prop := {
  rp_gone : p' ≠ p → h' !! p = None;
  rp_new : p' ≠ p → h !! p' = None ∨ h' !! p' = h !! p';
  rp_rest : ∀ q, q ≠ p → q ≠ p' → h' !! q = h !! q;
}.

(** Eviction policies that need the idle time or the access frequency of every
    key (bits 0 and 1) rule out sharing, once memory is limited. *)
Definition may_share {V : Server} : Prop :=
  maxmemory = 0 ∨ Z.testbit maxmemory_policy 0 = false ∧ Z.testbit maxmemory_policy 1 = false.
#[global] Instance may_share_dec {V : Server} : Decision may_share := _.

(** The object [o'] at [p'] is the most compact form of the bytes the object [o]
    at [p] has: the shared number, or a number of its own where there is none or
    it must not be used; a short string in the chunk of its object; a long one
    in place, without its free space if that was more than a tenth. *)
Record compact {V : Server} (p : Z) (o : robj) (bs : list Z) (p' : Z) (o' : robj) : Prop := {
  cp_number v : int64 v → bs = dec v →
    encoding o' = OBJ_ENCODING_INT ∧
    if decide (may_share ∧ 0 <= v < OBJ_SHARED_INTEGERS) then integers !! Z.to_nat v = Some p' else refcount o' = 1;
  cp_text : (∀ v, int64 v → bs ≠ dec v) →
    refcount o' = 1 ∧
    if decide (zlen bs <= OBJ_ENCODING_EMBSTR_SIZE_LIMIT) then encoding o' = OBJ_ENCODING_EMBSTR
    else encoding o' = OBJ_ENCODING_RAW ∧ p' = p ∧
      ∃ s s' avail, ptr o = P_SDS s ∧ ptr o' = P_SDS s' ∧ sdsavail s = Ret avail ∧
        sdsavail s' = Ret (if zlen bs / 10 <? avail then 0 else avail);
}.

Lemma holds_string o bs : holds o bs → type o = OBJ_STRING.
Proof. by destruct 1. Qed.

Lemma holds_set_refcount o bs n : holds o bs → holds (set_refcount o n) bs.
Proof. destruct 1; by constructor. Qed.

Lemma holds_sds o bs :
  holds o bs → sdsEncodedObject o = true → ∃ s, ptr o = P_SDS s ∧ rep s bs.
Proof. destruct 1; [done|eauto..]. Qed.

Lemma holds_num o bs :
  holds o bs → sdsEncodedObject o = false → ∃ v, ptr o = P_INT v ∧ int64 v ∧ bs = dec v ∧ encoding o = OBJ_ENCODING_INT.
Proof. destruct 1; [eauto 6|done..]. Qed.

Lemma replaces_refl h p o : h !! p = Some o → replaces h p h p.
Proof. by split. Qed.

Lemma replaces_self h p o : replaces h p (<[p:=o]> h) p.
Proof. split; [done..|]. intros q Hq _. by rewrite lookup_insert_ne. Qed.

End meaning.

(** The decimal forms of two numbers differ. *)
Lemma string2l_spec bs : ∃ o, string2l bs (zlen bs) = Ret o ∧ ∀ v, o = Some v ↔ int64 v ∧ bs = dec v.
Proof.
  destruct (string2ll_spec bs) as (o & E & Ho). unfold string2l. rewrite E. run.
  destruct o as [v|]; [|by exists None]. destruct (proj1 (Ho v) eq_refl) as [Hv _].
  unfold int64, LLONG_MIN, LLONG_MAX in Hv. unfold LONG_MIN, LONG_MAX.
  test ((v <? - 2 ^ 63) || (2 ^ 63 - 1 <? v)) false. by exists (Some v).
Qed.

(** * Creation *)

Section creation.
Context {H : HostOrder} {A : Allocator} {L : AllocatorLaws A} {N : ObjAlloc} {NL : ObjAllocLaws N} {V : Server}.

Lemma new_obj_None h : (h : heap) !! new_obj (dom h) = None.
Proof. apply not_elem_of_dom. by destruct (new_obj_fresh (dom h)). Qed.

Lemma replaces_new h p o o' : h !! p = Some o →
  replaces h p (delete p (<[new_obj (dom h) := o']> h)) (new_obj (dom h)).
Proof.
  intros Hp. pose proof (new_obj_None h) as Hn. assert (new_obj (dom h) ≠ p) by congruence. split.
  - intros _. by rewrite lookup_delete_eq.
  - intros _. by left.
  - intros q Hq Hq'. by rewrite lookup_delete_ne, lookup_insert_ne by done.
Qed.

Lemma embedded_sds init n chunk :
  0 <= n <= 255 → init_fits init n → zlen chunk = n + 4 →
  ∃ s bs, (s ← set_sh_len 1 (Sds chunk sizeof_sdshdr8) n;
           s ← set_sh_alloc 1 s n;
           s ← s_wr s (-1) SDS_TYPE_8;
           match init with
           | SDS_NOINIT => s_wr s n 0
           | INIT_BYTES bs => bs ← rdn bs 0 n; s ← s_wrn s 0 bs; s_wr s n 0
           | INIT_NULL => s_wrn s 0 (replicate (Z.to_nat (n + 1)) 0)
           end) = Ret s ∧ init_ok init n bs ∧ rep s bs.
Proof.
  intros Hn Hf Hc. destruct (zsplit 3 chunk) as (b & d & -> & Hb & Hd); [lia|].
  destruct (zsplit n d) as (m & e & -> & Hm & He); [lia|]. destruct (zlen_one e) as [x ->]; [lia|].
  destruct (init_hdr SDS_TYPE_8 b (m ++ [x]) n n) as (s & E & Hat); [done|done|done|done|].
  assert (Hgo : ∀ s2 bs, zlen bs = n → hdr_at s2 SDS_TYPE_8 n n (bs ++ [0]) → rep s2 bs).
  { intros s2 bs Hbs H2. exists SDS_TYPE_8, n, []. split; [by rewrite Hbs|]. change (cap SDS_TYPE_8 (zlen bs) n) with n. zlr. lia. }
  assert (Hend : ∀ s1 m1, hdr_at s1 SDS_TYPE_8 n n (m1 ++ [x]) → zlen m1 = n → ∃ s2, s_wr s1 n 0 = Ret s2 ∧ rep s2 m1).
  { intros s1 m1 H1 Hm1. destruct (s_wr_at _ _ _ _ _ _ _ _ 0 H1 Hm1) as (s2 & -> & H2); [by unfold is_byte|]. eauto. }
  change (SDS_TYPE_8 =? SDS_TYPE_5) with false in E. cbv iota in E. change (hdr_width SDS_TYPE_8) with 1%nat in E.
  change (sdsHdrSize SDS_TYPE_8) with sizeof_sdshdr8 in E.
  revert E. destruct (set_sh_len 1 _ n) as [s1| | |]; [|done..]. run.
  destruct (set_sh_alloc 1 s1 n) as [s2| | |]; [|done..]. run. intros ->. run. destruct init as [| |c].
  - destruct (Hend s m Hat Hm) as (s3 & -> & Hr). by exists s3, m.
  - destruct (s_wrn_at s SDS_TYPE_8 n n [] (m ++ [x]) [] 0 (replicate (Z.to_nat (n + 1)) 0)) as (s3 & -> & H3);
      [by rewrite app_nil_r|done|zlr; lia|]. exists s3, (replicate (Z.to_nat n) 0). split_and!; [done..|].
    apply Hgo; [zlr; lia|]. revert H3. rewrite Z2Nat.inj_add, replicate_add by lia. cbn [app]. by rewrite app_nil_r.
  - simpl in Hf. destruct (zsplit n c) as (c1 & c2 & -> & H1 & H2); [lia|].
    rewrite (rdn_at _ _ _ c1 [] c2) by done. run.
    destruct (s_wrn_at s SDS_TYPE_8 n n [] m [x] 0 c1 Hat) as (s3 & -> & H3); [done|lia|]. run.
    destruct (Hend s3 c1 H3 H1) as (s4 & -> & Hr). exists s4, c1. split_and!; [done| |done].
    simpl. by rewrite take_app_length' by zl.
Qed.

Lemma createEmbedded_spec h init n :
  0 <= n <= 255 → init_fits init n →
  ∃ s bs, createEmbeddedStringObject h init n =
    Ret (<[new_obj (dom h) := Robj OBJ_STRING OBJ_ENCODING_EMBSTR new_lru 1 (P_SDS s)]> h, new_obj (dom h)) ∧
    init_ok init n bs ∧ rep s bs.
Proof.
  intros Hn Hf. unfold createEmbeddedStringObject, sizeof_robj. change (u64 (16 + sizeof_sdshdr8 + n + 1)) with (u64 (16 + 3 + n + 1)). rewrite wrapu_id by lia.
  assert (zlen (zmalloc (16 + 3 + n + 1)) = n + 20) as Hz by (unfold zmalloc, zlen; rewrite junk_length; lia).
  destruct (zsplit 16 (zmalloc (16 + 3 + n + 1))) as (a & chunk & E & Ha & Hc); [lia|].
  rewrite (rdn_at _ _ _ chunk a []); [|by rewrite app_nil_r|done|lia]. run.
  destruct (embedded_sds init n chunk Hn Hf) as (s & bs & Es & Hi & Hr); [lia|].
  exists s, bs. split; [|done]. revert Es. destruct (set_sh_len 1 _ n) as [s1| | |]; [|done..]. run.
  destruct (set_sh_alloc 1 s1 n) as [s2| | |]; [|done..]. run.
  destruct (s_wr s2 (-1) SDS_TYPE_8) as [s3| | |]; [|done..]. run. intros ->. done.
Qed.

(** A new object with one reference. *)
Definition new_string (e : Z) (p : obj_ptr) : robj := Robj OBJ_STRING e new_lru 1 p.
Definition added (h : heap) (o : robj) : heap * Z := (<[new_obj (dom h) := o]> h, new_obj (dom h)).

Lemma createRaw_spec h init n :
  0 <= n < 2 ^ 62 → init_fits init n →
  ∃ s bs, createRawStringObject h init n = Ret (added h (new_string OBJ_ENCODING_RAW (P_SDS s))) ∧
    init_ok init n bs ∧ rep s bs.
Proof.
  intros Hn Hf. destruct (sdsnewlen_spec init n Hn Hf) as (s & bs & E & Hi & Hr). exists s, bs. split; [|done].
  unfold createRawStringObject. by rewrite E.
Qed.

Lemma init_ok_len init n bs : 0 <= n → init_fits init n → init_ok init n bs → zlen bs = n.
Proof.
  intros Hn Hf Hi. destruct init; simpl in *; subst; [done|zlr; lia|].
  unfold zlen in *. rewrite length_take. lia.
Qed.

Lemma createStringObject_spec h init n :
  0 <= n < 2 ^ 62 → init_fits init n →
  ∃ o bs, createStringObject h init n = Ret (added h o) ∧ init_ok init n bs ∧ holds o bs ∧
    sdsEncodedObject o = true ∧ refcount o = 1.
Proof.
  intros Hn Hf. unfold createStringObject. change OBJ_ENCODING_EMBSTR_SIZE_LIMIT with 44. case_cond; to_prop.
  - destruct (createEmbedded_spec h init n) as (s & bs & -> & Hi & Hr); [lia|done|].
    exists (new_string OBJ_ENCODING_EMBSTR (P_SDS s)), bs. split_and!; [done..| |done|done]. constructor; [done|].
    rewrite (init_ok_len init n bs) by (done || lia). done.
  - destruct (createRaw_spec h init n) as (s & bs & -> & Hi & Hr); [lia|done|].
    exists (new_string OBJ_ENCODING_RAW (P_SDS s)), bs. split_and!; [done..| |done|done]. by constructor.
Qed.

Lemma shared_integers_allowed_spec : shared_integers_allowed = bool_decide may_share.
Proof.
  unfold shared_integers_allowed, may_share. apply eq_bool_prop_intro. rewrite bool_decide_spec, orb_True, !Is_true_true, !Z.eqb_eq.
  apply or_iff_compat_l. change MAXMEMORY_FLAG_NO_SHARED_INTEGERS with 3. split.
  - intros E. split; [apply (f_equal (λ n, Z.testbit n 0)) in E|apply (f_equal (λ n, Z.testbit n 1)) in E];
      rewrite Z.land_spec in E; by rewrite andb_true_r in E.
  - intros [E0 E1]. apply Z.bits_inj_0. intros n. rewrite Z.land_spec. destruct (decide (n < 0)); [by rewrite Z.testbit_neg_r|].
    destruct (decide (n = 0)) as [->|]; [by rewrite E0|]. destruct (decide (n = 1)) as [->|]; [by rewrite E1|].
    rewrite (Z.bits_above_log2 3) by (simpl; lia). by rewrite andb_false_r.
Qed.

(** A number gets its shared object or a new one. *)
Lemma createFromLongLong_spec h v valueobj :
  shared_ok h → int64 v →
  if decide (0 <= v < OBJ_SHARED_INTEGERS ∧ (may_share ∨ valueobj = false)) then
    ∃ p l, createStringObjectFromLongLongWithOptions h v valueobj = Ret (h, p) ∧
      h !! p = Some (Robj OBJ_STRING OBJ_ENCODING_INT l OBJ_SHARED_REFCOUNT (P_INT v))
  else createStringObjectFromLongLongWithOptions h v valueobj = Ret (added h (new_string OBJ_ENCODING_INT (P_INT v))).
Proof.
  intros Hs Hv. unfold createStringObjectFromLongLongWithOptions. rewrite shared_integers_allowed_spec. case_decide as Hd.
  - destruct (Hs v) as (p & l & Ei & Ep); [lia|]. exists p, l. split; [|done].
    test ((0 <=? v) && (v <? OBJ_SHARED_INTEGERS)) true. cbn [andb].
    assert (negb (if bool_decide may_share then false else valueobj) = true) as ->.
    { case_bool_decide; [done|]. destruct Hd as (_ & [?| ->]); done. }
    unfold shared_integer. rewrite Ei. run. unfold incrRefCount, deref. rewrite Ep. done.
  - assert ((0 <=? v) && (v <? OBJ_SHARED_INTEGERS) && negb (if bool_decide may_share then false else valueobj) = false) as ->.
    { apply andb_false_iff. destruct (decide (0 <= v < OBJ_SHARED_INTEGERS)); [right|left; lia].
      case_bool_decide; [tauto|]. destruct valueobj; [done|tauto]. }
    unfold int64, LLONG_MIN, LLONG_MAX in Hv. unfold LONG_MIN, LONG_MAX.
    test ((- 2 ^ 63 <=? v) && (v <=? 2 ^ 63 - 1)) true. unfold createObject, deref. cbv zeta.
    rewrite lookup_insert_eq. run. unfold added. by rewrite insert_insert_eq.
Qed.

(** * Reference counts *)

Lemma decr_last h p o bs :
  h !! p = Some o → holds o bs → refcount o = 1 → decrRefCount h p = Ret (delete p h).
Proof.
  intros Hp Ho Hr. unfold decrRefCount, deref. rewrite Hp. run. rewrite Hr, Z.eqb_refl, (holds_string _ _ Ho), Z.eqb_refl.
  unfold freeStringObject. destruct Ho as [|l r s bs (t & a & f & Hat & _)|]; [done| |done]. cbn [encoding ptr sdsfree].
  change (OBJ_ENCODING_RAW =? OBJ_ENCODING_RAW) with true. cbv iota. by rewrite (flags_at _ _ _ _ _ Hat).
Qed.

Lemma replaces_shared h p o h' p' :
  shared_ok h → h !! p = Some o → refcount o ≠ OBJ_SHARED_REFCOUNT → replaces h p h' p' → shared_ok h'.
Proof.
  intros Hs Hp Hr Hrp v Hv. destruct (Hs v Hv) as (q & l & Ei & Eq). exists q, l. split; [done|].
  assert (q ≠ p) by (intros ->; rewrite Eq in Hp; by simplify_eq). rewrite <- Eq.
  destruct (decide (q = p')) as [->|Hq]; [|by apply (rp_rest _ _ _ _ Hrp)].
  destruct (rp_new _ _ _ _ Hrp) as [Hn| ->]; [done|congruence|done].
Qed.

(** * Encoding *)

(** Removing the free space of a long string. *)
Lemma trim_spec jemalloc h p l r s bs :
  h !! p = Some (Robj OBJ_STRING OBJ_ENCODING_RAW l r (P_SDS s)) → rep s bs → small (zlen bs) →
  ∃ h' s', trimStringObjectIfNeeded jemalloc h p = Ret h' ∧
    h' = <[p := Robj OBJ_STRING OBJ_ENCODING_RAW l r (P_SDS s')]> h ∧ rep s' bs ∧
    ∃ avail, sdsavail s = Ret avail ∧ sdsavail s' = Ret (if zlen bs / 10 <? avail then 0 else avail).
Proof.
  intros Hp Hr Hb. unfold trimStringObjectIfNeeded, deref. rewrite Hp. run. cbn [encoding ptr as_sds].
  change (OBJ_ENCODING_RAW =? OBJ_ENCODING_RAW) with true. cbv iota. run. rewrite (rep_len _ _ Hr).
  destruct (Hr) as (t & a & f & Hat & Hc). pose proof (zlen_nonneg bs).
  pose proof (sdsavail_at _ _ _ _ _ Hat) as Eav. rewrite Eav by lia. run. rewrite Z.quot_div_nonneg by lia.
  set (avail := cap t (zlen bs) a - zlen bs) in *. destruct (_ <? avail) eqn:Ea.
  - destruct (sdsResize_refines jemalloc s bs 0 false (cap t (zlen bs) a) Hr Hb) as [_ (s' & -> & Hs' & Ha')]; [done|by eapply sdsalloc_at|right; lia|].
    run. exists (<[p := Robj OBJ_STRING OBJ_ENCODING_RAW l r (P_SDS s')]> h), s'. split_and!; [done..|].
    exists avail. rewrite ?Eav, Ea by lia. done.
  - exists h, s. rewrite insert_id by done. split_and!; [done..|]. exists avail. rewrite ?Eav, Ea by lia. done.
Qed.

(** The result of encoding an object whose only reference is given up. *)
Record encoded (h : heap) (p : Z) (o : robj) (bs : list Z) (h' : heap) (p' : Z) : Prop := {
  enc_obj : ∃ o', h' !! p' = Some o' ∧ holds o' bs ∧ compact p o bs p' o';
  enc_heap : replaces h p h' p';
}.

Lemma encoded_new h p o bs o' h' p' :
  h !! p = Some o → added h o' = (h', p') → holds o' bs → compact p o bs p' o' →
  encoded h p o bs (delete p h') p'.
Proof.
  intros Hp [= <- <-] Ho Hb. pose proof (new_obj_None h). split; [|by eapply replaces_new].
  exists o'. split_and!; [|done..]. rewrite lookup_delete_ne by congruence. by rewrite lookup_insert_eq.
Qed.

Lemma encoded_self h p o bs o' : holds o' bs → compact p o bs p o' → encoded h p o bs (<[p:=o']> h) p.
Proof. intros Ho Hb. split; [|apply replaces_self]. exists o'. by rewrite lookup_insert_eq. Qed.

Lemma compact_number p o p' o' v :
  int64 v → encoding o' = OBJ_ENCODING_INT →
  (if decide (may_share ∧ 0 <= v < OBJ_SHARED_INTEGERS) then integers !! Z.to_nat v = Some p' else refcount o' = 1) →
  compact p o (dec v) p' o'.
Proof.
  intros Hv He Hs. split.
  - intros w Hw E. apply dec_inj in E as <-; done.
  - intros Hn. by destruct (Hn v Hv).
Qed.

Lemma compact_short p o bs p' o' :
  (∀ v, int64 v → bs ≠ dec v) → zlen bs <= OBJ_ENCODING_EMBSTR_SIZE_LIMIT → encoding o' = OBJ_ENCODING_EMBSTR → refcount o' = 1 →
  compact p o bs p' o'.
Proof. intros Hno Hl He Hr. split; [intros v Hv E; by destruct (Hno v Hv)|]. intros _. by rewrite decide_True. Qed.

(** The last part of [tryObjectEncoding], for bytes that are no number. *)
Lemma try_embstr_spec jemalloc h p o s bs :
  h !! p = Some o → holds o bs → ptr o = P_SDS s → rep s bs → refcount o = 1 → small (zlen bs) →
  (∀ v, int64 v → bs ≠ dec v) →
  ∃ h' p', (if zlen bs <=? OBJ_ENCODING_EMBSTR_SIZE_LIMIT then
      if encoding o =? OBJ_ENCODING_EMBSTR then Ret (h, p)
      else
        src ← sds_bytes s (zlen bs);
        '(h, emb) ← createEmbeddedStringObject h src (zlen bs);
        h ← decrRefCount h p;
        Ret (h, emb)
    else
      h ← trimStringObjectIfNeeded jemalloc h p;
      Ret (h, p)) = Ret (h', p') ∧ encoded h p o bs h' p'.
Proof.
  intros Hp Ho Es Hr H1 Hsm Hno. change OBJ_ENCODING_EMBSTR_SIZE_LIMIT with 44.
  pose proof (zlen_nonneg bs). destruct (zlen bs <=? 44) eqn:Hl; to_prop.
  - destruct (Z.eqb_spec (encoding o) OBJ_ENCODING_EMBSTR) as [He|He].
    { exists h, p. split; [done|]. split; [|by eapply replaces_refl]. exists o. split_and!; [done..|]. by apply compact_short. }
    unfold sds_bytes. rewrite (rep_read _ _ Hr). run.
    destruct (createEmbedded_spec h (INIT_BYTES bs) (zlen bs)) as (s' & bs' & -> & Hi & Hr'); [lia|by simpl|].
    simpl in Hi. rewrite take_ge in Hi by zl. subst bs'. run. pose proof (new_obj_None h).
    rewrite (decr_last _ p o bs); [|rewrite lookup_insert_ne by congruence; done|done..]. run.
    eexists _, _. split; [done|].
    apply (encoded_new h p o bs (new_string OBJ_ENCODING_EMBSTR (P_SDS s')) _ _ Hp eq_refl); [by constructor|by apply compact_short].
  - destruct Ho as [|l r s0 bs|l r s0 bs]; [done| |exfalso; change OBJ_ENCODING_EMBSTR_SIZE_LIMIT with 44 in *; lia].
    injection Es as ->. destruct (trim_spec jemalloc h p l r s bs Hp Hr Hsm) as (h' & s' & -> & -> & Hs' & avail & Ea & Ea'). run.
    eexists _, _. split; [done|]. apply encoded_self; [by constructor|]. split; [intros v Hv E; by destruct (Hno v Hv)|].
    intros _. split; [done|]. rewrite decide_False by (change OBJ_ENCODING_EMBSTR_SIZE_LIMIT with 44; lia).
    split_and!; [done..|]. by exists s, s', avail.
Qed.

Lemma shared_delete h p o :
  shared_ok h → h !! p = Some o → refcount o ≠ OBJ_SHARED_REFCOUNT → shared_ok (delete p h).
Proof.
  intros Hs Hp Hr v Hv. destruct (Hs v Hv) as (q & l & Ei & Eq). exists q, l. split; [done|].
  rewrite lookup_delete_ne; [done|]. intros <-. rewrite Eq in Hp. by simplify_eq.
Qed.

(** The bytes of a number: the shared object, or the object itself or a new one
    with the number in it. *)
Lemma try_number_spec h p o s v :
  shared_ok h → h !! p = Some o → holds o (dec v) → sdsEncodedObject o = true → ptr o = P_SDS s → rep s (dec v) →
  refcount o = 1 → int64 v →
  ∃ h' p', (if shared_integers_allowed && (0 <=? v) && (v <? OBJ_SHARED_INTEGERS) then
        h ← decrRefCount h p;
        p ← shared_integer v;
        h ← incrRefCount h p;
        Ret (h, p)
      else if encoding o =? OBJ_ENCODING_RAW then
        _ ← sdsfree (ptr o);
        Ret (<[p := set_ptr (set_encoding o OBJ_ENCODING_INT) (P_INT v)]> h, p)
      else
        h ← decrRefCount h p;
        createStringObjectFromLongLongForValue h v) = Ret (h', p') ∧ encoded h p o (dec v) h' p'.
Proof.
  intros Hs Hp Ho He Es Hr H1 Hv. pose proof (decr_last _ _ _ _ Hp Ho H1) as Hd. rewrite shared_integers_allowed_spec.
  destruct (bool_decide may_share && (0 <=? v) && (v <? OBJ_SHARED_INTEGERS)) eqn:Hsh; to_prop.
  - apply bool_decide_eq_true in H0. rewrite Hd. run. destruct (Hs v) as (q & l & Ei & Eq); [lia|].
    assert (q ≠ p) by (intros ->; rewrite Eq in Hp; by simplify_eq).
    unfold shared_integer. rewrite Ei. run. unfold incrRefCount, deref. rewrite lookup_delete_ne, Eq by done. run.
    exists (delete p h), q. split; [done|]. split.
    + eexists. rewrite lookup_delete_ne by done. split; [exact Eq|]. split; [by constructor|].
      apply compact_number; [done..|]. by rewrite decide_True by (split; [done|lia]).
    + split; [intros _; by rewrite lookup_delete_eq|right; by rewrite lookup_delete_ne|]. intros q' ? ?. by rewrite lookup_delete_ne.
  - assert (Hno : ¬ (may_share ∧ 0 <= v < OBJ_SHARED_INTEGERS)).
    { intros [Hm Hv']. rewrite bool_decide_true in Hsh by done. cbn [andb] in Hsh. lia. }
    destruct (Z.eqb_spec (encoding o) OBJ_ENCODING_RAW) as [Er|Er].
    + rewrite Es. cbn [sdsfree]. destruct Hr as (t & a & f & Hat & _). rewrite (flags_at _ _ _ _ _ Hat). run.
      eexists _, _. split; [done|]. pose proof (holds_string _ _ Ho) as Ht. destruct o as [ty e l r po].
      cbn in H1, Ht. subst. apply encoded_self; [by constructor|]. apply compact_number; [done..|]. by rewrite decide_False.
    + rewrite Hd. run. unfold createStringObjectFromLongLongForValue.
      pose proof (createFromLongLong_spec (delete p h) v true (shared_delete _ _ _ Hs Hp ltac:(by rewrite H1)) Hv) as E.
      rewrite decide_False in E by naive_solver. rewrite E. pose proof (new_obj_None (delete p h)) as Hn.
      eexists _, _. split; [done|]. split.
      * eexists. rewrite lookup_insert_eq. split; [done|]. split; [by constructor|].
        apply compact_number; [done..|]. by rewrite decide_False.
      * split.
        -- intros Hne. rewrite lookup_insert_ne by done. by rewrite lookup_delete_eq.
        -- intros Hne. left. by rewrite lookup_delete_ne in Hn by done.
        -- intros q Hq Hq'. rewrite lookup_insert_ne, lookup_delete_ne by done. done.
Qed.

Lemma zlen_dec_20 v : int64 v → zlen (dec v) <= 20.
Proof.
  unfold int64, LLONG_MIN, LLONG_MAX, dec. intros Hv. case_cond; to_prop; zlr.
  - pose proof (udec_19 (- v)). lia.
  - pose proof (udec_19 v). lia.
Qed.

Lemma tryObjectEncoding_spec jemalloc h p o bs :
  shared_ok h → h !! p = Some o → holds o bs → 1 <= refcount o → small (zlen bs) →
  ∃ h' p', tryObjectEncoding jemalloc h p = Ret (h', p') ∧
    if sdsEncodedObject o && (refcount o =? 1) then encoded h p o bs h' p' else h' = h ∧ p' = p.
Proof.
  intros Hs Hp Ho H1 Hsm. unfold tryObjectEncoding, deref. rewrite Hp. run.
  rewrite (holds_string _ _ Ho), c_assert_true by done. run. destruct (sdsEncodedObject o) eqn:He; cbn [negb andb]; [|by exists h, p].
  destruct (holds_sds _ _ Ho He) as (s & Es & Hr). destruct (Z.ltb_spec 1 (refcount o)).
  { exists h, p. split; [done|]. by test (refcount o =? 1) false. }
  test (refcount o =? 1) true. assert (refcount o = 1) as H1' by lia. rewrite Es. cbn [as_sds]. run.
  rewrite (rep_len _ _ Hr). run. rewrite <- Es.
  assert (∃ r, (if zlen bs <=? 20 then b ← s_rdn s 0 (zlen bs); string2l b (zlen bs) else Ret None) = Ret r ∧
    ∀ v, r = Some v ↔ int64 v ∧ bs = dec v) as (r & -> & Hv).
  { case_cond; to_prop.
    - rewrite (rep_read _ _ Hr). run. by apply string2l_spec.
    - exists None. split; [done|]. intros v. split; [done|]. intros [Hv ->]. pose proof (zlen_dec_20 v Hv). lia. }
  run. destruct r as [v|].
  - destruct (proj1 (Hv v) eq_refl) as [Hi ->].
    destruct (try_number_spec h p o s v Hs Hp Ho He Es Hr H1' Hi) as (h' & p' & E & Henc).
    exists h', p'. split; [|done]. rewrite <- E. case_cond; [done|]. case_cond; [done|].
    unfold sdsEncodedObject in He. rewrite Hc0 in He. cbn [orb] in He. by rewrite He.
  - apply (try_embstr_spec jemalloc h p o s bs); try done. intros v Hi ->. by pose proof (proj2 (Hv v) (conj Hi eq_refl)).
Qed.

(** * Decoding and copies *)

Lemma udec_n_digits n v : 0 <= v → Forall is_digit (udec_n n v).
Proof.
  revert v. induction n as [|n IH]; intros v Hv; [constructor|]. rewrite udec_n_S. apply Forall_app. split.
  - case_cond; [constructor|]. apply IH. apply Z.div_pos; lia.
  - apply Forall_singleton. unfold is_digit. dm v 10. lia.
Qed.

Lemma dec_no_nul v : 0 ∉ dec v.
Proof.
  assert (∀ w, 0 <= w → 0 ∉ udec w) as Hu.
  { intros w Hw Hin. pose proof (udec_n_digits 20 w Hw) as Hd. eapply Forall_forall in Hd; [|exact Hin]. unfold is_digit in Hd. lia. }
  unfold dec. case_cond; to_prop; [apply not_elem_of_cons; split; [done|]|]; apply Hu; lia.
Qed.

(** The number of an integer-encoded object as a new string object. *)
Lemma dec_string h v :
  int64 v → ∃ o, ('(buf, _) ← ll2string (junk 32) 32 v; len ← strlen buf; createStringObject h (INIT_BYTES buf) len) =
    Ret (added h o) ∧ holds o (dec v) ∧ sdsEncodedObject o = true ∧ refcount o = 1.
Proof.
  intros Hv. pose proof (zlen_dec_20 v Hv). pose proof (zlen_dec_bounds v Hv).
  rewrite ll2string_spec; [|done|unfold zlen; rewrite junk_length; lia]. test (zlen (dec v) <? 32) true. run.
  rewrite strlen_app by apply dec_no_nul. run.
  destruct (createStringObject_spec h (INIT_BYTES (dec v ++ 0 :: drop (length (dec v) + 1) (junk 32))) (zlen (dec v)))
    as (o & bs & -> & Hi & Ho & He & Hr); [lia| |].
  { cbn [init_fits]. pose proof (zlen_nonneg (drop (length (dec v) + 1) (junk 32))). zlr. lia. }
  simpl in Hi. rewrite take_app_length' in Hi by zl. subst bs. eauto.
Qed.

Lemma getDecodedObject_spec h p o bs :
  h !! p = Some o → holds o bs → 1 <= refcount o → refcount o ≠ OBJ_STATIC_REFCOUNT →
  ∃ h' p' o', getDecodedObject h p = Ret (h', p') ∧ h' !! p' = Some o' ∧ holds o' bs ∧ sdsEncodedObject o' = true ∧
    (∀ q, q ≠ p' → h' !! q = h !! q) ∧ (p' = p ∨ h !! p' = None).
Proof.
  intros Hp Ho Hr Hst. unfold getDecodedObject, deref. rewrite Hp. run. destruct (sdsEncodedObject o) eqn:He.
  - unfold incrRefCount, deref. rewrite Hp. run. unfold OBJ_FIRST_SPECIAL_REFCOUNT. case_cond; to_prop.
    + eexists _, p, _. split; [done|]. rewrite lookup_insert_eq. split; [done|]. split; [by apply holds_set_refcount|].
      split; [done|]. split; [|by left]. intros q Hq. by rewrite lookup_insert_ne.
    + exists h, p, o. split; [|by auto 6]. case_cond; [done|]. by test (refcount o =? OBJ_STATIC_REFCOUNT) false.
  - destruct (holds_num _ _ Ho He) as (v & Ev & Hv & -> & Een). rewrite (holds_string _ _ Ho), Een, Ev.
    change ((OBJ_STRING =? OBJ_STRING) && (OBJ_ENCODING_INT =? OBJ_ENCODING_INT)) with true. cbv iota. cbn [as_long]. run.
    destruct (dec_string h v Hv) as (o' & -> & Ho' & He' & _). eexists _, _, o'. split; [done|].
    rewrite lookup_insert_eq. split; [done|]. split; [done|]. split; [done|]. split; [|right; apply new_obj_None].
    intros q Hq. by rewrite lookup_insert_ne.
Qed.

Lemma dupStringObject_spec h p o bs :
  h !! p = Some o → holds o bs → zlen bs < 2 ^ 62 →
  ∃ o', dupStringObject h p = Ret (added h o') ∧ holds o' bs ∧ encoding o' = encoding o ∧ refcount o' = 1.
Proof.
  intros Hp Ho Hn. unfold dupStringObject, deref. rewrite Hp. run. rewrite (holds_string _ _ Ho), c_assert_true by done. run.
  pose proof (zlen_nonneg bs). destruct Ho as [l r v Hv|l r s bs Hr|l r s bs Hr Hb]; cbn [encoding ptr as_sds].
  - change (OBJ_ENCODING_INT =? OBJ_ENCODING_RAW) with false. change (OBJ_ENCODING_INT =? OBJ_ENCODING_EMBSTR) with false.
    change (OBJ_ENCODING_INT =? OBJ_ENCODING_INT) with true. cbv iota. unfold createObject. cbv zeta.
    rewrite lookup_insert_eq. run. rewrite insert_insert_eq. exists (new_string OBJ_ENCODING_INT (P_INT v)).
    split_and!; [done| |done..]. by constructor.
  - change (OBJ_ENCODING_RAW =? OBJ_ENCODING_RAW) with true. cbv iota. run. rewrite (rep_len _ _ Hr). run.
    unfold sds_bytes. rewrite (rep_read _ _ Hr). run.
    destruct (createRaw_spec h (INIT_BYTES bs) (zlen bs)) as (s' & bs' & -> & Hi & Hr'); [lia|by simpl|].
    simpl in Hi. rewrite take_ge in Hi by zl. subst bs'. eexists. split; [done|]. split; [by constructor|done].
  - change (OBJ_ENCODING_EMBSTR =? OBJ_ENCODING_RAW) with false. change (OBJ_ENCODING_EMBSTR =? OBJ_ENCODING_EMBSTR) with true.
    cbv iota. run. rewrite (rep_len _ _ Hr). run. unfold sds_bytes. rewrite (rep_read _ _ Hr). run.
    change OBJ_ENCODING_EMBSTR_SIZE_LIMIT with 44 in Hb.
    destruct (createEmbedded_spec h (INIT_BYTES bs) (zlen bs)) as (s' & bs' & -> & Hi & Hr'); [lia|by simpl|].
    simpl in Hi. rewrite take_ge in Hi by zl. subst bs'. exists (new_string OBJ_ENCODING_EMBSTR (P_SDS s')).
    split; [done|]. split; [by constructor|done].
Qed.

(** * Comparison *)

Lemma rep_inj s x y : rep s x → rep s y → x = y.
Proof.
  intros Hx Hy. pose proof (rep_len _ _ Hx) as Ex. rewrite (rep_len _ _ Hy) in Ex. injection Ex as Ex.
  pose proof (rep_read _ _ Hx) as Rx. rewrite <- Ex, (rep_read _ _ Hy) in Rx. by injection Rx.
Qed.

Lemma holds_inj o x y : holds o x → holds o y → x = y.
Proof. destruct 1; inversion 1; subst; [done|by eapply rep_inj..]. Qed.

Lemma string_of_spec o bs :
  holds o bs → ∃ m i, string_of o = Ret (m, i, zlen bs) ∧ ∀ n, 0 <= n <= zlen bs → rdn m i n = Ret (take (Z.to_nat n) bs).
Proof.
  intros Ho. unfold string_of. destruct (sdsEncodedObject o) eqn:He.
  - destruct (holds_sds _ _ Ho He) as (s & -> & Hr). cbn [as_sds]. run. rewrite (rep_len _ _ Hr). run.
    exists (mem s), (off s). split; [done|]. intros n Hn. destruct Hr as (t & a & f & Hat & _).
    destruct (zsplit n bs) as (b1 & b2 & -> & H1 & H2); [done|]. rewrite take_app_length' by zl.
    pose proof (s_rdn_at s t (zlen (b1 ++ b2)) a [] b1 (b2 ++ 0 :: f) 0 n) as E. unfold s_rdn in E. rewrite Z.add_0_r in E.
    apply E; [revert Hat; by lapp|done..].
  - destruct (holds_num _ _ Ho He) as (v & -> & Hv & -> & _). cbn [as_long]. run.
    pose proof (zlen_dec_20 v Hv). pose proof (zlen_dec_bounds v Hv).
    rewrite ll2string_spec; [|done|unfold zlen; rewrite junk_length; lia]. test (zlen (dec v) <? 128) true. run.
    eexists _, 0. split; [done|]. intros n Hn. destruct (zsplit n (dec v)) as (b1 & b2 & E & HL1 & HL2); [done|]. rewrite E.
    rewrite take_app_length' by zl. apply (rdn_at _ _ _ b1 [] (b2 ++ 0 :: drop (length (b1 ++ b2) + 1) (junk 128))); [by lapp|done..].
Qed.

Lemma s32_u64 d : s32 (u64 d) = s32 d.
Proof.
  unfold wraps, wrapu. f_equal. rewrite Z.add_mod, Z.mod_mod_divide, <- Z.add_mod by (try lia; by exists (2 ^ 32)). done.
Qed.

Lemma compare_spec strcoll h a b oa ob x y :
  h !! a = Some oa → h !! b = Some ob → holds oa x → holds ob y → a ≠ b →
  compareStringObjects strcoll h a b =
    Ret (let n := Nat.min (length x) (length y) in let cmp := memcmp (take n x) (take n y) in
         if cmp =? 0 then s32 (zlen x - zlen y) else cmp).
Proof.
  intros Ha Hb Hx Hy Hne. unfold compareStringObjects, compareStringObjectsWithFlags, deref. rewrite Ha, Hb. run.
  rewrite (holds_string _ _ Hx), (holds_string _ _ Hy), c_assert_true by done. run. test (a =? b) false.
  destruct (string_of_spec _ _ Hx) as (m & i & -> & Hm). destruct (string_of_spec _ _ Hy) as (k & j & -> & Hk). run.
  change (negb (Z.land REDIS_COMPARE_BINARY REDIS_COMPARE_COLL =? 0)) with false. cbv iota.
  pose proof (zlen_nonneg x). pose proof (zlen_nonneg y).
  rewrite Hm, Hk by (case_cond; lia). run. rewrite s32_u64.
  replace (Z.to_nat (if zlen x <? zlen y then zlen x else zlen y)) with (Nat.min (length x) (length y)) by (case_cond; zl).
  cbv zeta. by case_cond.
Qed.

Lemma lex_refl x : lex x x = Eq.
Proof. induction x as [|c x IH]; [done|]. simpl. by rewrite Z.compare_refl. Qed.

Lemma memcmp_refl x : memcmp x x = 0.
Proof. induction x as [|c x IH]; [done|]. simpl. by rewrite Z.eqb_refl. Qed.

(** The order of the byte strings, unless their lengths are too far apart for
    the [int] that is returned. *)
Lemma compare_sign strcoll h a b x y :
  string_obj h a x → string_obj h b y → - 2 ^ 31 <= zlen x - zlen y < 2 ^ 31 →
  ∃ v, compareStringObjects strcoll h a b = Ret v ∧ Z.sgn v = sign_of (lex x y).
Proof.
  intros (oa & Ha & Hx) (ob & Hb & Hy) Hd. destruct (decide (a = b)) as [<-|Hne].
  - exists 0. rewrite Ha in Hb. injection Hb as <-. rewrite (holds_inj _ _ _ Hx Hy), lex_refl. split; [|done].
    unfold compareStringObjects, compareStringObjectsWithFlags, deref. rewrite Ha. run.
    rewrite (holds_string _ _ Hx), c_assert_true by done. run. by rewrite Z.eqb_refl.
  - rewrite (compare_spec strcoll h a b oa ob x y) by done. eexists. split; [done|].
    rewrite (memcmp_lex x y _ eq_refl). cbv zeta. case_cond; [|done]. rewrite wraps_id by (simpl; lia).
    repeat case_cond; to_prop; lia.
Qed.

Lemma equal_spec strcoll h a b x y :
  string_obj h a x → string_obj h b y → - 2 ^ 31 <= zlen x - zlen y < 2 ^ 31 →
  equalStringObjects strcoll h a b = Ret (bool_decide (x = y)).
Proof.
  intros Hx Hy Hd. destruct (compare_sign strcoll h a b x y Hx Hy Hd) as (v & E & Hs).
  destruct Hx as (oa & Ha & Hx), Hy as (ob & Hb & Hy).
  unfold equalStringObjects, deref. rewrite Ha, Hb. run. rewrite E. run. case_cond; to_prop.
  - destruct Hx as [l r v' Hv| |]; [|done..]. destruct Hy as [l' r' w Hw| |]; [|done..]. cbn [ptr as_long]. run. f_equal.
    destruct (Z.eqb_spec v' w) as [->|Hn]; [by rewrite bool_decide_eq_true_2|]. rewrite bool_decide_eq_false_2; [done|].
    intros Ed. by apply Hn, dec_inj.
  - f_equal. destruct (Z.eqb_spec v 0) as [->|Hn].
    + rewrite bool_decide_eq_true_2; [done|]. apply lex_eq. by destruct (lex x y).
    + rewrite bool_decide_eq_false_2; [done|]. intros ->. rewrite lex_refl in Hs. apply Hn. by destruct v.
Qed.

(** The lengths are subtracted modulo 2^32. *)
Lemma equal_wraps strcoll h a b y t :
  string_obj h a (y ++ t) → string_obj h b y → (2 ^ 32 | zlen t) → equalStringObjects strcoll h a b = Ret true.
Proof.
  intros Hsa Hsb [k Ht]. pose proof (zlen_nonneg y). pose proof (zlen_nonneg t).
  destruct (decide (k = 0)) as [->|Hk].
  { assert (t = []) as -> by (apply zlen_zero; lia). rewrite app_nil_r in Hsa. rewrite (equal_spec strcoll h a b y y Hsa Hsb) by lia.
    by rewrite bool_decide_eq_true_2. }
  destruct Hsa as (oa & Ha & Hx), Hsb as (ob & Hb & Hy).
  assert (a ≠ b) as Hne.
  { intros ->. rewrite Ha in Hb. injection Hb as <-. pose proof (holds_inj _ _ _ Hx Hy) as E. apply (f_equal zlen) in E. zlr. lia. }
  unfold equalStringObjects, deref. rewrite Ha, Hb. run. rewrite (compare_spec strcoll h a b oa ob (y ++ t) y) by done.
  assert (encoding oa ≠ OBJ_ENCODING_INT) as He.
  { remember (y ++ t) as yt eqn:Eyt. destruct Hx as [l r v Hv| |]; [|done..]. exfalso. pose proof (zlen_dec_20 v Hv) as Hl. rewrite Eyt in Hl. zlr. lia. }
  test (encoding oa =? OBJ_ENCODING_INT) false. cbn [andb]. run. rewrite length_app.
  replace (Nat.min (length y + length t) (length y)) with (length y) by lia.
  rewrite take_app_length, firstn_all, memcmp_refl. simpl. do 2 f_equal.
  replace (zlen (y ++ t) - zlen y) with (k * 2 ^ 32) by (zlr; lia).
  unfold wraps. rewrite Z.add_comm, Z.mod_add by done. done.
Qed.

Lemma getLongLong_spec h p bs :
  string_obj h p bs → ∃ r, getLongLongFromObject h (Some p) = Ret r ∧ ∀ v, r = Some v ↔ int64 v ∧ bs = dec v.
Proof.
  intros (o & Hp & Ho). unfold getLongLongFromObject, deref. rewrite Hp. run. rewrite (holds_string _ _ Ho), c_assert_true by done.
  run. destruct (sdsEncodedObject o) eqn:He.
  - destruct (holds_sds _ _ Ho He) as (s & -> & Hr). cbn [as_sds]. run. rewrite (rep_len _ _ Hr). run.
    rewrite (rep_read _ _ Hr). run. apply string2ll_spec.
  - destruct (holds_num _ _ Ho He) as (v & -> & Hv & -> & ->). cbn [as_long]. run. exists (Some v). split; [done|].
    intros w. split; [by intros [= <-]|]. intros [Hw E]. by rewrite (dec_inj v w Hv Hw E).
Qed.

Lemma stringObjectLen_spec h p bs : string_obj h p bs → stringObjectLen h p = Ret (zlen bs).
Proof.
  intros (o & Hp & Ho). unfold stringObjectLen, deref. rewrite Hp. run. rewrite (holds_string _ _ Ho), c_assert_true by done.
  run. destruct (sdsEncodedObject o) eqn:He.
  - destruct (holds_sds _ _ Ho He) as (s & -> & Hr). cbn [as_sds]. run. by rewrite (rep_len _ _ Hr).
  - destruct (holds_num _ _ Ho He) as (v & -> & Hv & -> & _). cbn [as_long]. run. f_equal.
    by apply (digits10_spec 0 v).
Qed.

(** * The shared integers *)

Lemma shared_integers_loop_spec n h j :
  ∃ h' ps, shared_integers_loop n h j = Ret (h', ps) ∧ h ⊆ h' ∧
    ∀ k, (k < n)%nat → ∃ p l, ps !! k = Some p ∧
      h' !! p = Some (Robj OBJ_STRING OBJ_ENCODING_INT l OBJ_SHARED_REFCOUNT (P_INT (j + Z.of_nat k))).
Proof.
  revert h j. induction n as [|n IH]; intros h j; cbn [shared_integers_loop].
  { exists h, []. split; [done|]. split; [done|]. lia. }
  unfold createObject. cbv zeta. unfold makeObjectShared, deref. rewrite lookup_insert_eq. run. cbn [refcount].
  rewrite c_assert_true by done. run. rewrite lookup_insert_eq. run. rewrite !insert_insert_eq.
  unfold set_refcount, set_encoding. cbn [type encoding lru refcount ptr].
  set (o := Robj OBJ_STRING OBJ_ENCODING_INT new_lru OBJ_SHARED_REFCOUNT (P_INT j)).
  destruct (IH (<[new_obj (dom h) := o]> h) (j + 1)) as (h' & ps & -> & Hsub & Hps). run.
  assert (h' !! new_obj (dom h) = Some o) as Ho by (eapply lookup_weaken; [apply lookup_insert_eq|done]).
  eexists h', _. split; [done|]. split.
  - etransitivity; [|exact Hsub]. apply insert_subseteq, new_obj_None.
  - intros [|k] Hk.
    + eexists _, _. split; [done|]. by rewrite Z.add_0_r.
    + destruct (Hps k) as (p & l & Ep & Eh); [lia|]. exists p, l. split; [done|]. rewrite Eh. do 3 f_equal. lia.
Qed.

Lemma createSharedIntegers_spec h :
  ∃ h' ps, createSharedIntegers h = Ret (h', ps) ∧ h ⊆ h' ∧ shared_at ps h'.
Proof.
  destruct (shared_integers_loop_spec (Z.to_nat OBJ_SHARED_INTEGERS) h 0) as (h' & ps & E & Hsub & Hps).
  exists h', ps. split_and!; [done..|]. intros v Hv. destruct (Hps (Z.to_nat v)) as (p & l & Ep & Eh); [lia|].
  exists p, l. split; [done|]. by rewrite Z2Nat.id in Eh by lia.
Qed.

(** * Claims *)

(** C35. An object stands for its bytes whatever its encoding: [compareStringObjects]
    orders objects as their bytes and [equalStringObjects] decides the equality
    of the bytes, as long as the lengths are less than 2^31 apart;
    [stringObjectLen] is their number, [getLongLongFromObject] returns the
    number they are the canonical decimal form of, or an error, and
    [dupStringObject] makes a new object with the same bytes and encoding.  The
    difference of the lengths is cut to an [int]: a string and the same string
    followed by more bytes are reported to be equal when the number of these is
    a multiple of 2^32. *)
Theorem string_objects_agree strcoll h a b x y :
  string_obj h a x → string_obj h b y →
  (- 2 ^ 31 <= zlen x - zlen y < 2 ^ 31 →
     (∃ v, compareStringObjects strcoll h a b = Ret v ∧ Z.sgn v = sign_of (lex x y)) ∧
     equalStringObjects strcoll h a b = Ret (bool_decide (x = y))) ∧
  stringObjectLen h a = Ret (zlen x) ∧
  (∃ r, getLongLongFromObject h (Some a) = Ret r ∧ ∀ v, r = Some v ↔ int64 v ∧ x = dec v) ∧
  (small (zlen x) → ∃ h' p oa o, dupStringObject h a = Ret (h', p) ∧ h !! a = Some oa ∧ h !! p = None ∧
     h' = <[p := o]> h ∧ holds o x ∧ encoding o = encoding oa ∧ refcount o = 1) ∧
  (∀ t, x = y ++ t → (2 ^ 32 | zlen t) → equalStringObjects strcoll h a b = Ret true).
Proof.
  intros Hx Hy. split_and!.
  - intros Hd. split; [by apply compare_sign|by apply equal_spec].
  - by apply stringObjectLen_spec.
  - by apply getLongLong_spec.
  - intros Hs. destruct Hx as (oa & Ha & Hx). destruct (dupStringObject_spec h a oa x Ha Hx) as (o & -> & Ho & He & Hr).
    { unfold small in Hs. lia. }
    eexists _, _, oa, o. split; [done|]. split; [done|]. split; [apply new_obj_None|done].
  - intros t -> Ht. by eapply equal_wraps.
Qed.

(** C36. [createSharedObjects] makes an immortal object for every number below
    10000.  With these in place [tryObjectEncoding] leaves an object with other
    references, or one that holds a number, as it is; otherwise it gives up the
    caller's only reference and returns an object with the same bytes in the
    most compact encoding: for a number below 10000 the shared object, unless
    memory is limited by a policy that needs the idle time or the frequency of
    every key; for another number, and where sharing is ruled out, an integer
    object with one reference; for up to 44 bytes a string in the chunk of its
    object; and beyond them the same object, whose free space is removed when it
    is more than a tenth of the length.  The old object is released when another
    one takes its place, the shared objects and all others stay as they were.
    [getDecodedObject] returns a string with the same bytes: the object itself
    with one more reference, or a new one. *)
Theorem tryObjectEncoding_refines jemalloc h p o bs :
  shared_ok h → h !! p = Some o → holds o bs → 1 <= refcount o → small (zlen bs) →
  (∃ h' p', tryObjectEncoding jemalloc h p = Ret (h', p') ∧ string_obj h' p' bs ∧ shared_ok h' ∧
     if sdsEncodedObject o && (refcount o =? 1)
     then replaces h p h' p' ∧ ∃ o', h' !! p' = Some o' ∧ compact p o bs p' o'
     else h' = h ∧ p' = p) ∧
  (refcount o ≠ OBJ_STATIC_REFCOUNT →
   ∃ h' p' o', getDecodedObject h p = Ret (h', p') ∧ h' !! p' = Some o' ∧ holds o' bs ∧ sdsEncodedObject o' = true ∧
     (∀ q, q ≠ p' → h' !! q = h !! q) ∧ (p' = p ∨ h !! p' = None)) ∧
  (∀ h0, ∃ h1 ps, createSharedIntegers h0 = Ret (h1, ps) ∧ h0 ⊆ h1 ∧ shared_at ps h1).
Proof.
  intros Hs Hp Ho H1 Hsm. split_and!.
  - destruct (tryObjectEncoding_spec jemalloc h p o bs Hs Hp Ho H1 Hsm) as (h' & p' & E & Hc). exists h', p'. split; [done|].
    destruct (sdsEncodedObject o && (refcount o =? 1)) eqn:Ec; to_prop.
    + destruct Hc as [(o' & Eo & Ho' & Hb) Hrp]. split; [by exists o'|]. split; [|by eauto].
      eapply replaces_shared; [done..| |done]. by replace (refcount o) with 1 by lia.
    + destruct Hc as [-> ->]. split; [by exists o|done].
  - intros Hst. by eapply getDecodedObject_spec.
  - apply createSharedIntegers_spec.
Qed.

End creation.

(** * Examples *)

#[local] Instance ex_host : HostOrder := false.
#[local] Instance ex_objs : ObjAlloc := λ X, fresh ({[0]} ∪ X).

Lemma ex_objs_laws : ObjAllocLaws ex_objs.
Proof. intros X. pose proof (is_fresh ({[0]} ∪ X)) as Hf. rewrite not_elem_of_union, not_elem_of_singleton in Hf. unfold new_obj, ex_objs. tauto. Qed.

(** A server that does not limit its memory, before and after it made its shared
    objects. *)
Definition ex_boot : Server := Build_Server 0 0 10 100 6000 100000 [].
Definition ex_shared : outcome (heap * list Z) := createSharedIntegers (N := ex_objs) (V := ex_boot) ∅.
Definition result_list (r : outcome (heap * list Z)) : list Z := match r with Ret (_, ps) => ps | _ => [] end.
#[local] Instance ex_server : Server := Build_Server 0 0 10 100 6000 100000 (result_list ex_shared).

(** The text of a number and a number, in a heap with the shared objects. *)
Definition ex_text : robj := Robj OBJ_STRING OBJ_ENCODING_RAW 0 1 (P_SDS (Sds [3; 4; 1; 49; 50; 51; 0; 170] 3)).
Definition ex_number : robj := Robj OBJ_STRING OBJ_ENCODING_INT 0 1 (P_INT 123).

Lemma ex_text_holds : holds ex_text (cstr "123").
Proof. constructor. exists 1, 4, [170]. by repeat split. Qed.

Lemma ex_heap_shared : ∃ h : heap, shared_ok h.
Proof.
  destruct (createSharedIntegers_spec (NL := ex_objs_laws) (V := ex_boot) ∅) as (h & ps & E & _ & Hs).
  exists h. unfold shared_ok, integers, ex_server, ex_shared. rewrite E. exact Hs.
Qed.

Lemma string_objects_agree_witness :
  equalStringObjects (A := round64) (λ _ _, 0) (<[1 := ex_text]> {[2 := ex_number]}) 1 2 = Ret true.
Proof.
  exact (proj2 (proj1 (string_objects_agree (A := round64) (L := round64_laws) (NL := ex_objs_laws) (λ _ _, 0)
    (<[1 := ex_text]> {[2 := ex_number]}) 1 2 (cstr "123") (dec 123)
    ltac:(exists ex_text; split; [done|exact ex_text_holds])
    ltac:(exists ex_number; split; [done|constructor; by vm_compute])) ltac:(by vm_compute))).
Defined.

Lemma tryObjectEncoding_refines_witness :
  ∃ (h : heap) p h' p', h !! p = Some ex_text ∧ tryObjectEncoding (A := round64) true h p = Ret (h', p') ∧
    string_obj h' p' (cstr "123") ∧ integers !! Z.to_nat 123 = Some p' ∧
    ∃ o', h' !! p' = Some o' ∧ encoding o' = OBJ_ENCODING_INT.
Proof.
  destruct ex_heap_shared as [h0 Hs0]. pose proof (new_obj_None (NL := ex_objs_laws) h0) as Hn.
  set (p := new_obj (dom h0)) in *. exists (<[p := ex_text]> h0), p.
  assert (shared_ok (<[p := ex_text]> h0)) as Hs.
  { intros v Hv. destruct (Hs0 v Hv) as (q & l & Ei & Eq). exists q, l. split; [done|]. rewrite lookup_insert_ne by congruence. done. }
  destruct (tryObjectEncoding_refines (A := round64) (L := round64_laws) (NL := ex_objs_laws) true (<[p := ex_text]> h0) p
    ex_text (cstr "123") Hs (lookup_insert_eq _ _ _) ex_text_holds ltac:(by vm_compute) ltac:(by vm_compute))
    as [(h' & p' & E & Hst & _ & _ & o' & Eo & Hb & _) _].
  destruct (Hb 123 ltac:(by vm_compute) ltac:(by vm_compute)) as [He Hi].
  destruct (decide _) as [_|Hno] in Hi; [|by destruct Hno; split; [left|]].
  exists h', p'. split; [apply lookup_insert_eq|]. split; [exact E|]. split; [exact Hst|]. split; [exact Hi|].
  exists o'. split; [exact Eo|exact He].
Defined.

End ObjectSpec.
