(* ===== verification/Rio.v ===== *)
(** Streams: [rio.h] and the parts of [rio.c] that do not belong to one
    operating-system interface, with the in-memory backend.

    A stream is a backend, the function pointers of [struct _rio] on the state
    in its field [io], and the fields every stream has.  The functions below
    the class [Backend] work for any of them; the backends for files, sockets
    and pipes are thin layers over the C library and the kernel. *)
From S2P Require Import Prelude Endianconv Util Crc Sds.
Import Util Sds.

Module Rio.

Definition RIO_FLAG_READ_ERROR : Z := Z.shiftl 1 0.
Definition RIO_FLAG_WRITE_ERROR : Z := Z.shiftl 1 1.

(** The backend functions; reading gives the bytes, or nothing on error. *)
Class Backend (T : Type) := {
  io_read : T → Z → outcome (T * option (list Z));
  io_write : T → list Z → Z → outcome (T * bool);
  io_tell : T → outcome Z;
  io_flush : T → outcome (T * bool);
}.

(** [struct _rio]; the method for checksums gives the new value of [cksum]. *)
Record rio (T : Type) := Rio {
  io : T;
  update_cksum : option (Z → list Z → outcome Z);
  cksum : Z;
  flags : Z;
  processed_bytes : Z;
  max_processing_chunk : Z;
}.
Arguments Rio {T}.
Arguments io {T}.
Arguments update_cksum {T}.
Arguments cksum {T}.
Arguments flags {T}.
Arguments processed_bytes {T}.
Arguments max_processing_chunk {T}.

Section stream.
Context {T : Type} {B : Backend T}.

Definition set_io (r : rio T) (s : T) : rio T :=
  Rio s (update_cksum r) (cksum r) (flags r) (processed_bytes r) (max_processing_chunk r).
Definition set_cksum (r : rio T) (v : Z) : rio T :=
  Rio (io r) (update_cksum r) v (flags r) (processed_bytes r) (max_processing_chunk r).
Definition set_flags (r : rio T) (v : Z) : rio T :=
  Rio (io r) (update_cksum r) (cksum r) v (processed_bytes r) (max_processing_chunk r).
Definition set_processed (r : rio T) (v : Z) : rio T :=
  Rio (io r) (update_cksum r) (cksum r) (flags r) v (max_processing_chunk r).

Definition has_flag (r : rio T) (f : Z) : bool := negb (Z.land (flags r) f =? 0).

Definition chunk_size (r : rio T) (len : Z) : Z :=
  if negb (max_processing_chunk r =? 0) && (max_processing_chunk r <? len) then max_processing_chunk r else len.

Definition call_update_cksum (r : rio T) (buf : list Z) : outcome (rio T) :=
  match update_cksum r with
  | None => Ret r
  | Some f => v ← f (cksum r) buf; Ret (set_cksum r v)
  end.

(** [while (len)] *)
Fixpoint write_loop (fuel : nat) (r : rio T) (buf : list Z) (len : Z) : outcome (rio T * bool) :=
  if len =? 0 then Ret (r, true)
  else
    match fuel with
    | O => OutOfFuel
    | S fuel =>
      let bytes_to_write := chunk_size r len in
      chunk ← rdn buf 0 bytes_to_write;
      r ← call_update_cksum r chunk;
      '(s, ok) ← io_write (io r) buf bytes_to_write;
      let r := set_io r s in
      if ok : bool then
        write_loop fuel (set_processed r (u64 (processed_bytes r + bytes_to_write)))
          (drop (Z.to_nat bytes_to_write) buf) (len - bytes_to_write)
      else Ret (set_flags r (Z.lor (flags r) RIO_FLAG_WRITE_ERROR), false)
    end.

Definition rioWrite (r : rio T) (buf : list Z) (len : Z) : outcome (rio T * bool) :=
  if has_flag r RIO_FLAG_WRITE_ERROR then Ret (r, false)
  else write_loop (Z.to_nat len) r buf len.

(** [acc] are the bytes read so far. *)
Fixpoint read_loop (fuel : nat) (r : rio T) (acc : list Z) (len : Z) : outcome (rio T * option (list Z)) :=
  if len =? 0 then Ret (r, Some acc)
  else
    match fuel with
    | O => OutOfFuel
    | S fuel =>
      let bytes_to_read := chunk_size r len in
      '(s, got) ← io_read (io r) bytes_to_read;
      let r := set_io r s in
      match got with
      | None => Ret (set_flags r (Z.lor (flags r) RIO_FLAG_READ_ERROR), None)
      | Some buf =>
        r ← call_update_cksum r buf;
        read_loop fuel (set_processed r (u64 (processed_bytes r + bytes_to_read)))
          (acc ++ buf) (len - bytes_to_read)
      end
    end.

(** The rounds the loop needs: the number of chunks. *)
Definition read_rounds (r : rio T) (len : Z) : nat :=
  if max_processing_chunk r =? 0 then 1 else Z.to_nat (len / max_processing_chunk r + 1).

Definition rioRead (r : rio T) (len : Z) : outcome (rio T * option (list Z)) :=
  if has_flag r RIO_FLAG_READ_ERROR then Ret (r, None)
  else read_loop (read_rounds r len) r [] len.

Definition rioTell (r : rio T) : outcome Z := io_tell (io r).

Definition rioFlush (r : rio T) : outcome (rio T * bool) :=
  '(s, ok) ← io_flush (io r); Ret (set_io r s, ok).

Definition rioGetReadError (r : rio T) : bool := has_flag r RIO_FLAG_READ_ERROR.
Definition rioGetWriteError (r : rio T) : bool := has_flag r RIO_FLAG_WRITE_ERROR.
Definition rioClearErrors (r : rio T) : rio T :=
  set_flags r (Z.land (flags r) (u64 (Z.lnot (Z.lor RIO_FLAG_READ_ERROR RIO_FLAG_WRITE_ERROR)))).

(** * Writing the protocol *)

Context {A : Allocator}.

(** These return the number of bytes, 0 on error. *)
Definition rioWriteBulkCount (r : rio T) (prefix count : Z) : outcome (rio T * Z) :=
  cbuf ← wr (junk 128) 0 prefix;
  num ← rdn cbuf 1 127;
  '(num, n) ← ll2string num 127 count;
  cbuf ← wrn cbuf 1 num;
  let clen := 1 + n in
  cbuf ← wr cbuf clen 13;
  let clen := clen + 1 in
  cbuf ← wr cbuf clen 10;
  let clen := clen + 1 in
  '(r, ok) ← rioWrite r cbuf clen;
  Ret (r, if ok : bool then clen else 0).

Definition rioWriteBulkString (r : rio T) (buf : list Z) (len : Z) : outcome (rio T * Z) :=
  '(r, nwritten) ← rioWriteBulkCount r 36 (s64 len);
  if nwritten =? 0 then Ret (r, 0)
  else
    '(r, ok) ← (if 0 <? len then rioWrite r buf len else Ret (r, true));
    if negb ok then Ret (r, 0)
    else
      '(r, ok) ← rioWrite r [13; 10; 0] 2;
      if negb ok then Ret (r, 0) else Ret (r, u64 (nwritten + len + 2)).

Definition rioWriteBulkLongLong (r : rio T) (l : Z) : outcome (rio T * Z) :=
  '(lbuf, llen) ← ll2string (junk 32) 32 l;
  rioWriteBulkString r lbuf llen.

End stream.

(** The checksum of everything read or written; [next] is the address of the
    buffer, which the table-driven routine looks at. *)
Definition rioGenericUpdateChecksum {H : HostOrder} (crc64_table : list (list Z)) (next : Z)
    (cksum : Z) (buf : list Z) : outcome Z :=
  Crc.crc64 crc64_table cksum next buf.

(** * The in-memory backend *)

Record buffer := Buffer { b_ptr : sds; b_pos : Z }.

Section buffer.
Context {H : HostOrder} {A : Allocator}.

Definition rioBufferWrite (b : buffer) (buf : list Z) (len : Z) : outcome (buffer * bool) :=
  s ← sdscatlen (b_ptr b) buf len;
  Ret (Buffer s (s64 (b_pos b + len)), true).

Definition rioBufferRead (b : buffer) (len : Z) : outcome (buffer * option (list Z)) :=
  l ← sdslen (b_ptr b);
  if u64 (l - b_pos b) <? len then Ret (b, None)
  else
    bs ← s_rdn (b_ptr b) (b_pos b) len;
    Ret (Buffer (b_ptr b) (s64 (b_pos b + len)), Some bs).

Definition rioBufferTell (b : buffer) : outcome Z := Ret (b_pos b).

Definition rioBufferFlush (b : buffer) : outcome (buffer * bool) := Ret (b, true).

Definition rioBufferIO : Backend buffer := {|
  io_read := rioBufferRead;
  io_write := rioBufferWrite;
  io_tell := rioBufferTell;
  io_flush := rioBufferFlush;
|}.

Definition rioInitWithBuffer (s : sds) : rio buffer := Rio (Buffer s 0) None 0 0 0 0.

End buffer.

End Rio.
