(* ===== verification/RioSpec.v ===== *)
(** What the streams promise.  The classes [WriteLaws] and [ReadLaws] say what
    a backend promises to the functions of [rio.h]; [writing] and [reading] are
    what these promise to their callers, whatever the size of the chunks and
    the method for checksums.  The in-memory backend keeps the first promise. *)
From S2P Require Import Prelude Endianconv Util Crc CrcSpec Sds SdsRep SdsOps SdsSpec Rio.
Import Util Sds SdsRep SdsOps Rio.

Module RioSpec.

(** [wrote s bs]: the bytes [bs] have been written to [s]. *)
Class WriteLaws {T} (B : Backend T) := {
  wrote : T → list Z → Prop;
  wrote_ok : ∀ s bs t rest, wrote s bs → t ≠ [] → zlen bs + zlen t < 2 ^ 62 →
    ∃ s', io_write s (t ++ rest) (zlen t) = Ret (s', true) ∧ wrote s' (bs ++ t);
}.

(** [to_read s u]: the bytes that can still be read from [s] are [u]. *)
Class ReadLaws {T} (B : Backend T) := {
  to_read : T → list Z → Prop;
  to_read_ok : ∀ s t u, to_read s (t ++ u) → t ≠ [] →
    ∃ s', io_read s (zlen t) = Ret (s', Some t) ∧ to_read s' u;
  to_read_short : ∀ s u n, to_read s u → zlen u < n < 2 ^ 64 → ∃ s', io_read s n = Ret (s', None);
}.

Section link.
Context {T : Type} {B : Backend T}.

(** The method for checksums adds the bytes one after the other with [upd]. *)
Definition sums_with (upd : Z → Z → Z) (r : rio T) : Prop :=
  match update_cksum r with
  | None => ∀ c x, upd c x = c
  | Some f => ∃ P : Z → Prop, P (cksum r) ∧
      ∀ c buf, P c → bytes_ok buf → f c buf = Ret (foldl upd c buf) ∧ P (foldl upd c buf)
  end.

(** A stream to which [h] has been written behind [pre]; its checksum was [c0]. *)
Record writing `{!WriteLaws B} (upd : Z → Z → Z) (c0 : Z) (pre : list Z) (r : rio T) (h : list Z) : Prop := {
  w_wrote : wrote (io r) (pre ++ h);
  w_flag : has_flag r RIO_FLAG_WRITE_ERROR = false;
  w_chunk : 0 <= max_processing_chunk r;
  w_sums : sums_with upd r;
  w_cksum : cksum r = foldl upd c0 h;
}.

(** A stream from which [h] has been read and [u] can be read. *)
Record reading `{!ReadLaws B} (upd : Z → Z → Z) (c0 : Z) (r : rio T) (h u : list Z) : Prop := {
  r_to_read : to_read (io r) u;
  r_flag : has_flag r RIO_FLAG_READ_ERROR = false;
  r_chunk : 0 <= max_processing_chunk r;
  r_sums : sums_with upd r;
  r_cksum : cksum r = foldl upd c0 h;
  r_bytes : bytes_ok u;
}.

Lemma chunk_size_range (r : rio T) len : 0 <= max_processing_chunk r → 0 < len → 0 < chunk_size r len <= len.
Proof. intros Hc Hl. unfold chunk_size. case_cond; lia. Qed.

Lemma call_cksum_spec upd (r : rio T) buf : sums_with upd r → bytes_ok buf →
  ∃ r', call_update_cksum r buf = Ret r' ∧ sums_with upd r' ∧ cksum r' = foldl upd (cksum r) buf ∧
    io r' = io r ∧ flags r' = flags r ∧ max_processing_chunk r' = max_processing_chunk r ∧ processed_bytes r' = processed_bytes r.
Proof.
  unfold call_update_cksum, sums_with. destruct (update_cksum r) as [f|] eqn:E.
  - intros (P & HP & Hf) Hb. destruct (Hf (cksum r) buf HP Hb) as [-> HP']. run. eexists. split; [done|]. cbn. rewrite E.
    split; [|done]. by exists P.
  - intros Hu _. exists r. split; [done|]. rewrite E. split; [done|]. split; [|done].
    generalize (cksum r). induction buf as [|x buf IH]; intros c; [done|]. simpl. by rewrite Hu.
Qed.

Section writes.
Context {W : WriteLaws B}.

Lemma write_loop_spec upd c0 pre fuel r h t rest :
  writing upd c0 pre r h → bytes_ok t → zlen pre + zlen h + zlen t < 2 ^ 62 → (length t <= fuel)%nat →
  ∃ r', write_loop fuel r (t ++ rest) (zlen t) = Ret (r', true) ∧ writing upd c0 pre r' (h ++ t).
Proof.
  revert r h t. induction fuel as [|fuel IH]; intros r h t Hw Hb Hn Hf.
  { destruct t; [|simpl in Hf; lia]. exists r. by rewrite app_nil_r. }
  cbn [write_loop]. destruct (Z.eqb_spec (zlen t) 0) as [E|E].
  { apply zlen_zero in E as ->. exists r. by rewrite app_nil_r. }
  pose proof (zlen_nonneg t). destruct (chunk_size_range r (zlen t)) as [Hc0 Hc]; [apply Hw|lia|].
  cbv zeta. remember (chunk_size r (zlen t)) as n eqn:En. clear En. destruct (zsplit n t) as (t1 & t2 & -> & H1 & H2); [lia|].
  apply Forall_app in Hb as [Hb1 Hb2]. rewrite <- app_assoc, (rdn_app0 t1) by done. run.
  destruct (call_cksum_spec upd r t1) as (r1 & -> & Hs & Hck & Hio & Hfl & Hmx & Hpr); [apply Hw|done|]. run.
  destruct (wrote_ok (io r) (pre ++ h) t1 (t2 ++ rest)) as (s & Es & Hwr); [apply Hw|intros ->; zlr; lia|zlr; lia|].
  rewrite H1 in Es. rewrite Hio, Es. run. rewrite drop_app_length' by (unfold zlen in *; lia).
  replace (zlen (t1 ++ t2) - n) with (zlen t2) by (zlr; lia). rewrite (app_assoc h t1 t2).
  apply IH; [|done|zlr; lia|rewrite length_app in Hf; unfold zlen in *; lia]. destruct Hw as [_ Hflag Hchunk _ Hsum].
  split; cbn; [by rewrite app_assoc|by unfold has_flag in *; cbn; rewrite Hfl|by rewrite Hmx|done|].
  by rewrite Hck, Hsum, foldl_app.
Qed.

Lemma rioWrite_spec upd c0 pre r h t rest n :
  writing upd c0 pre r h → bytes_ok t → zlen t = n → zlen pre + zlen h + n < 2 ^ 62 →
  ∃ r', rioWrite r (t ++ rest) n = Ret (r', true) ∧ writing upd c0 pre r' (h ++ t).
Proof.
  intros Hw Hb <- Hn. unfold rioWrite. rewrite (w_flag _ _ _ _ _ Hw).
  apply write_loop_spec; [done..|]. unfold zlen. lia.
Qed.

End writes.

Section reads.
Context {R : ReadLaws B}.

(** What a call for [n] bytes gives. *)
Definition read_result (upd : Z → Z → Z) (c0 : Z) (h u acc : list Z) (n : Z) (r' : rio T) (got : option (list Z)) : Prop :=
  if n <=? zlen u
  then got = Some (acc ++ take (Z.to_nat n) u) ∧ reading upd c0 r' (h ++ take (Z.to_nat n) u) (drop (Z.to_nat n) u)
  else got = None ∧ has_flag r' RIO_FLAG_READ_ERROR = true.

Lemma set_error_flag (r : rio T) f : f = RIO_FLAG_READ_ERROR ∨ f = RIO_FLAG_WRITE_ERROR →
  has_flag (set_flags r (Z.lor (flags r) f)) f = true.
Proof.
  intros Hf. unfold has_flag. cbn. rewrite Z.land_lor_distr_l, Z.land_diag.
  assert (0 < f) as H0 by (destruct Hf as [-> | ->]; by vm_compute).
  destruct (Z.eqb_spec (Z.lor (Z.land (flags r) f) f) 0) as [E|]; [|done]. apply Z.lor_eq_0_iff in E. lia.
Qed.

Lemma read_loop_spec upd c0 fuel r h u acc n :
  reading upd c0 r h u → 0 <= n < 2 ^ 64 →
  (n = 0 ∨ max_processing_chunk r = 0 ∧ (0 < fuel)%nat ∨
   0 < max_processing_chunk r ∧ n <= Z.of_nat fuel * max_processing_chunk r) →
  ∃ r' got, read_loop fuel r acc n = Ret (r', got) ∧ read_result upd c0 h u acc n r' got.
Proof.
  revert r h u acc n. induction fuel as [|fuel IH]; intros r h u acc n Hr Hn Hf; cbn [read_loop];
    destruct (Z.eqb_spec n 0) as [->|E]; try lia;
    try (exists r, (Some acc); split; [done|]; unfold read_result; pose proof (zlen_nonneg u); test (0 <=? zlen u) true;
      cbn [Z.to_nat take drop]; by rewrite !app_nil_r).
  destruct (chunk_size_range r n) as [Hc0 Hc]; [apply Hr|lia|]. pose proof (zlen_nonneg u).
  assert (chunk_size r n = n ∨ chunk_size r n = max_processing_chunk r ∧ 0 < max_processing_chunk r) as Hcs.
  { unfold chunk_size. pose proof (r_chunk _ _ _ _ _ Hr). case_cond; lia. }
  cbv zeta. remember (chunk_size r n) as k eqn:Ek. clear Ek. destruct (Z.leb_spec k (zlen u)) as [Hle|Hgt].
  - destruct (zsplit k u) as (t & v & -> & Ht & Hv); [lia|].
    assert (bytes_ok t ∧ bytes_ok v) as [Hbt Hbv] by (apply Forall_app, Hr).
    destruct (to_read_ok (io r) t v) as (s & Es & Hs); [apply Hr|intros ->; zlr; lia|]. rewrite Ht in Es. rewrite Es. run.
    destruct (call_cksum_spec upd (set_io r s) t) as (r1 & -> & Hsm & Hck & Hio & Hfl & Hmx & Hpr); [apply Hr|done|]. run.
    match goal with |- context [read_loop fuel ?r2 ?a ?m] => destruct (IH r2 (h ++ t) v a m) as (r' & got & -> & Hres) end.
    + destruct Hr as [_ Hflag Hchunk _ Hsum _].
      split; cbn; [by rewrite Hio|by unfold has_flag in *; cbn; rewrite Hfl|by rewrite Hmx|done| |done].
      rewrite Hck. cbn. by rewrite Hsum, foldl_app.
    + lia.
    + cbn. rewrite Hmx. cbn. destruct Hcs as [->|[-> ?]]; [left; lia|right; right; nia].
    + exists r', got. split; [done|]. revert Hres. unfold read_result. zlr.
      replace (n - k <=? zlen v) with (n <=? zlen t + zlen v) by lia. case_cond; [|done].
      rewrite take_app_ge, drop_app_ge, <- !app_assoc by (unfold zlen in *; lia).
      by replace (Z.to_nat n - length t)%nat with (Z.to_nat (n - k)) by (unfold zlen in *; lia).
  - destruct (to_read_short (io r) u k) as (s & ->); [apply Hr|lia|]. run. eexists _, _. split; [done|]. unfold read_result.
    test (n <=? zlen u) false. split; [done|]. apply set_error_flag. by left.
Qed.

Lemma rioRead_any upd c0 r h u n :
  reading upd c0 r h u → 0 <= n < 2 ^ 64 →
  ∃ r' got, rioRead r n = Ret (r', got) ∧ read_result upd c0 h u [] n r' got.
Proof.
  intros Hr Hn. unfold rioRead. rewrite (r_flag _ _ _ _ _ Hr). apply read_loop_spec; [done..|].
  pose proof (r_chunk _ _ _ _ _ Hr). unfold read_rounds. destruct (Z.eqb_spec (max_processing_chunk r) 0); [lia|].
  right. right. split; [lia|]. dm n (max_processing_chunk r). pose proof (Z.div_pos n (max_processing_chunk r)). nia.
Qed.

Lemma rioRead_spec upd c0 r h t u n :
  reading upd c0 r h (t ++ u) → zlen t = n → n < 2 ^ 64 →
  ∃ r', rioRead r n = Ret (r', Some t) ∧ reading upd c0 r' (h ++ t) u.
Proof.
  intros Hr Ht Hn. pose proof (zlen_nonneg t). destruct (rioRead_any upd c0 r h (t ++ u) n Hr) as (r' & got & E & Hg); [lia|].
  pose proof (zlen_nonneg u). unfold read_result in Hg. rewrite (proj2 (Z.leb_le n (zlen (t ++ u)))) in Hg by (zlr; lia).
  rewrite take_app_length', drop_app_length' in Hg by (unfold zlen in *; lia). destruct Hg as [-> Hg]. by exists r'.
Qed.

Lemma rioRead_split upd c0 r h u n :
  reading upd c0 r h u → 0 <= n < 2 ^ 64 →
  (∃ r', rioRead r n = Ret (r', None) ∧ has_flag r' RIO_FLAG_READ_ERROR = true) ∨
  ∃ r' t v, u = t ++ v ∧ zlen t = n ∧ rioRead r n = Ret (r', Some t) ∧ reading upd c0 r' (h ++ t) v.
Proof.
  intros Hr Hn. destruct (rioRead_any upd c0 r h u n Hr Hn) as (r' & got & E & Hg). unfold read_result in Hg.
  case_match; to_prop; destruct Hg as [-> Hg]; [right|left; by exists r'].
  exists r', (take (Z.to_nat n) u), (drop (Z.to_nat n) u). rewrite take_drop. split_and!; [done|apply zlen_take; lia|done..].
Qed.

End reads.

(** * The protocol *)

Context {A : Allocator} {L : AllocatorLaws A} {W : WriteLaws B}.

Definition crlf : list Z := [13; 10].
(** "<prefix><count>\r\n" and "$<length>\r\n<bytes>\r\n" *)
Definition bulk_count (prefix count : Z) : list Z := prefix :: dec count ++ crlf.
Definition bulk_string (bs : list Z) : list Z := bulk_count 36 (zlen bs) ++ bs ++ crlf.

Lemma dec_bytes v : bytes_ok (dec v).
Proof.
  assert (∀ n w, 0 <= w → bytes_ok (udec_n n w)) as Hu.
  { induction n as [|n IH]; intros w Hw; [constructor|]. rewrite udec_n_S. apply Forall_app. split.
    - case_cond; [constructor|]. apply IH. apply Z.div_pos; lia.
    - apply Forall_singleton. unfold is_byte. dm w 10. lia. }
  unfold dec. case_cond; to_prop; [constructor; [by unfold is_byte|]|]; apply Hu; lia.
Qed.

Lemma bulk_count_bytes prefix count : is_byte prefix → bytes_ok (bulk_count prefix count).
Proof. intros Hp. constructor; [done|]. apply Forall_app. split; [apply dec_bytes|]. by repeat constructor. Qed.

Lemma zlen_bulk_count prefix count : zlen (bulk_count prefix count) = zlen (dec count) + 3.
Proof. unfold bulk_count, crlf. zlr. lia. Qed.

Lemma rioWriteBulkCount_spec upd c0 pre r h prefix count :
  writing upd c0 pre r h → is_byte prefix → int64 count → zlen pre + zlen h < 2 ^ 61 →
  ∃ r', rioWriteBulkCount r prefix count = Ret (r', zlen (bulk_count prefix count)) ∧
    writing upd c0 pre r' (h ++ bulk_count prefix count).
Proof.
  intros Hw Hp Hc Hn. pose proof (zlen_dec_bounds count Hc) as Hd. unfold rioWriteBulkCount.
  assert (zlen (junk 128) = 128) as Hj by (unfold zlen; rewrite junk_length; lia).
  destruct (zsplit 1 (junk 128)) as (a & m & E0 & Ha & Hm); [lia|].
  rewrite E0. rewrite Hj in Hm. clear E0 Hj. destruct (zlen_one a) as [x ->]; [done|].
  rewrite (wr_byte_app [] x m 0) by done. run. cbn [app].
  rewrite (rdn_at _ _ _ m [prefix] []); [|by rewrite app_nil_r|done|lia]. run.
  rewrite ll2string_spec by (done || lia). test (zlen (dec count) <? 127) true. run.
  destruct (zsplit (zlen (dec count) + 3) m) as (m1 & m2 & -> & H1 & H2); [lia|].
  destruct (zsplit (zlen (dec count)) m1) as (d & [|y0 [|y1 [|y2 [|? ?]]]] & -> & H3 & H4); [lia|zlr; try lia..].
  2: { pose proof (zlen_nonneg l). lia. }
  assert (drop (length (dec count) + 1) ((d ++ [y0; y1; y2]) ++ m2) = y1 :: y2 :: m2) as ->.
  { replace (length (dec count) + 1)%nat with (length (d ++ [y0])) by (rewrite length_app; unfold zlen in *; simpl; lia).
    replace ((d ++ [y0; y1; y2]) ++ m2) with ((d ++ [y0]) ++ y1 :: y2 :: m2) by by lapp. apply drop_app_length. }
  change (prefix :: (d ++ [y0; y1; y2]) ++ m2) with ([prefix] ++ (d ++ [y0; y1; y2]) ++ m2).
  rewrite (wrn_at _ _ _ [prefix] ((d ++ [y0; y1; y2]) ++ m2) []); [|by rewrite app_nil_r|done|zlr; lia]. run.
  rewrite app_nil_r, (wr_at _ _ 13 ([prefix] ++ dec count) 0 (y1 :: y2 :: m2)); [|by lapp|zlr; lia|by unfold is_byte]. run.
  rewrite (wr_at _ _ 10 ([prefix] ++ dec count ++ [13]) y1 (y2 :: m2)); [|by lapp|zlr; lia|by unfold is_byte]. run.
  destruct (rioWrite_spec upd c0 pre r h (bulk_count prefix count) (y2 :: m2) (zlen (bulk_count prefix count)) Hw) as (r' & E & Hw');
    [by apply bulk_count_bytes|done|rewrite zlen_bulk_count; lia|].
  exists r'. split; [|done]. rewrite zlen_bulk_count in E |- *.
  replace (1 + zlen (dec count) + 1 + 1) with (zlen (dec count) + 3) by lia.
  replace (([prefix] ++ dec count ++ [13]) ++ 10 :: y2 :: m2) with (bulk_count prefix count ++ y2 :: m2) by (unfold bulk_count, crlf; by lapp).
  rewrite E. done.
Qed.

Lemma rioWriteBulkString_spec upd c0 pre r h bs rest n :
  writing upd c0 pre r h → bytes_ok bs → zlen bs = n → zlen pre + zlen h + n < 2 ^ 60 →
  ∃ r', rioWriteBulkString r (bs ++ rest) n = Ret (r', zlen (bulk_string bs)) ∧ writing upd c0 pre r' (h ++ bulk_string bs).
Proof.
  intros Hw Hb Hl Hn. pose proof (zlen_nonneg bs). pose proof (zlen_nonneg pre). pose proof (zlen_nonneg h).
  assert (int64 n) as Hi by (unfold int64, LLONG_MIN, LLONG_MAX; lia). pose proof (zlen_dec_bounds n Hi).
  unfold rioWriteBulkString. rewrite wraps_id by (simpl; lia).
  destruct (rioWriteBulkCount_spec upd c0 pre r h 36 n Hw) as (r1 & -> & HW1); [by unfold is_byte|done|lia|]. run.
  pose proof (zlen_bulk_count 36 n) as Hz. test (zlen (bulk_count 36 n) =? 0) false.
  assert (∃ r2, (if 0 <? n then rioWrite r1 (bs ++ rest) n else Ret (r1, true)) = Ret (r2, true) ∧
    writing upd c0 pre r2 ((h ++ bulk_count 36 n) ++ bs)) as (r2 & -> & HW2).
  { case_cond; to_prop; [apply rioWrite_spec; [done..|zlr; lia]|]. exists r1. rewrite (zlen_zero bs) by lia. by rewrite app_nil_r. }
  run. cbn [negb]. destruct (rioWrite_spec upd c0 pre r2 _ crlf [0] 2 HW2) as (r3 & E3 & HW3);
    [by repeat constructor|done|zlr; lia|]. cbn [crlf app] in E3. rewrite E3. run. cbn [negb].
  exists r3. unfold bulk_string. rewrite Hl. split; [|by rewrite !app_assoc].
  change (zlen crlf) with 2 in *. rewrite wrapu_id; [do 2 f_equal|]; zlr; change (zlen crlf) with 2; lia.
Qed.

Lemma rioWriteBulkLongLong_spec upd c0 pre r h v :
  writing upd c0 pre r h → int64 v → zlen pre + zlen h < 2 ^ 59 →
  ∃ r', rioWriteBulkLongLong r v = Ret (r', zlen (bulk_string (dec v))) ∧ writing upd c0 pre r' (h ++ bulk_string (dec v)).
Proof.
  intros Hw Hv Hn. pose proof (zlen_dec_bounds v Hv). unfold rioWriteBulkLongLong.
  rewrite ll2string_spec by (done || (unfold zlen; rewrite junk_length; lia)). test (zlen (dec v) <? 32) true. run.
  apply rioWriteBulkString_spec; [done|apply dec_bytes|done|lia].
Qed.

End link.

(** * The in-memory backend *)

Section buffer.
Context {H : HostOrder} {A : Allocator} {L : AllocatorLaws A}.

#[export] Program Instance buffer_write : WriteLaws rioBufferIO := {|
  wrote b bs := rep (b_ptr b) bs;
|}.
Next Obligation.
  intros b bs t rest Hr _ Hn. cbn. unfold rioBufferWrite.
  destruct (sdscatlen_spec (b_ptr b) bs t rest (zlen t) Hr eq_refl Hn) as (s & -> & Hs). run. by eexists.
Qed.

#[export] Program Instance buffer_read : ReadLaws rioBufferIO := {|
  to_read b u := ∃ bs, rep (b_ptr b) (bs ++ u) ∧ b_pos b = zlen bs ∧ zlen bs + zlen u < 2 ^ 62;
|}.
Next Obligation.
  intros b t u (bs & Hr & Hp & Hn) _. cbn. unfold rioBufferRead. rewrite (rep_len _ _ Hr). run. rewrite Hp. zlr.
  pose proof (zlen_nonneg bs). pose proof (zlen_nonneg t). pose proof (zlen_nonneg u).
  replace (zlen bs + (zlen t + zlen u) - zlen bs) with (zlen t + zlen u) by lia. rewrite wrapu_id by lia.
  test (zlen t + zlen u <? zlen t) false. destruct (Hr) as (ty & a & f & Hat & Hc).
  rewrite (s_rdn_at (b_ptr b) ty (zlen (bs ++ t ++ u)) a bs t (u ++ 0 :: f)); [|revert Hat; by lapp|done..]. run.
  eexists. split; [done|]. exists (bs ++ t). cbn. rewrite wraps_id by (simpl; lia). zlr. split_and!; [|lia..].
  by rewrite <- app_assoc.
Qed.
Next Obligation.
  intros b u n (bs & Hr & Hp & Hn) Hlt. cbn. unfold rioBufferRead. rewrite (rep_len _ _ Hr). run. rewrite Hp. zlr.
  pose proof (zlen_nonneg bs). pose proof (zlen_nonneg u).
  replace (zlen bs + zlen u - zlen bs) with (zlen u) by lia. rewrite wrapu_id by lia. test (zlen u <? n) true. by eexists.
Qed.

(** Without a method for checksums the value stays. *)
Lemma init_writing s bs : rep s bs → writing (B := rioBufferIO) (λ c _, c) 0 bs (rioInitWithBuffer s) [].
Proof. intros Hr. split; cbn; [by rewrite app_nil_r|done..]. Qed.

Lemma init_reading s u : rep s u → bytes_ok u → zlen u < 2 ^ 62 → reading (B := rioBufferIO) (λ c _, c) 0 (rioInitWithBuffer s) [] u.
Proof. intros Hr Hb Hn. split; cbn; [exists []; cbn; zlr; split_and!; [done..|lia]|done..]. Qed.

End buffer.

End RioSpec.
