(* ===== verification/Rdb.v ===== *)
(** Values in the dump format: lengths, times and strings of [rdb.c] on a
    stream, and the footer of a dumped value ([cluster.c]).

    Strings are saved as numbers, compressed or as they are.  A stream that is
    a null pointer makes the functions count the bytes only.  A function that
    fails while the server loads a file ends the process, which is [Panic]
    here; outside of loading (the command RESTORE) it returns an error. *)
From S2P Require Import Prelude Endianconv Util Crc Sds Lzf Rio Object.
Import Util Sds Rio Object.

Module Rdb.

(** * rdb.h *)

Definition RDB_VERSION : Z := 9.
Definition RDB_6BITLEN : Z := 0.
Definition RDB_14BITLEN : Z := 1.
Definition RDB_32BITLEN : Z := 0x80.
Definition RDB_64BITLEN : Z := 0x81.
Definition RDB_ENCVAL : Z := 3.
Definition RDB_LENERR : Z := 2 ^ 64 - 1.

Definition RDB_ENC_INT8 : Z := 0.
Definition RDB_ENC_INT16 : Z := 1.
Definition RDB_ENC_INT32 : Z := 2.
Definition RDB_ENC_LZF : Z := 3.

Definition RDB_TYPE_STRING : Z := 0.
Definition RDB_TYPE_SET : Z := 2.
Definition RDB_TYPE_HASH : Z := 4.
Definition RDB_TYPE_ZSET_2 : Z := 5.
Definition RDB_TYPE_MODULE_2 : Z := 7.
Definition RDB_TYPE_SET_INTSET : Z := 11.
Definition RDB_TYPE_ZSET_ZIPLIST : Z := 12.
Definition RDB_TYPE_HASH_ZIPLIST : Z := 13.
Definition RDB_TYPE_LIST_QUICKLIST : Z := 14.
Definition RDB_TYPE_STREAM_LISTPACKS : Z := 15.

Definition rdbIsObjectType (t : Z) : bool := ((0 <=? t) && (t <=? 7)) || ((9 <=? t) && (t <=? 15)).

Definition RDB_LOAD_NONE : Z := 0.
Definition RDB_LOAD_ENC : Z := Z.shiftl 1 0.
Definition RDB_LOAD_PLAIN : Z := Z.shiftl 1 1.
Definition RDB_LOAD_SDS : Z := Z.shiftl 1 2.

(** The global state the functions look at. *)
Class RdbServer := {
  loading : bool;
  rdb_compression : bool;
  skip_checksum_validation : bool;
  rdbCheckMode : bool;
  rdbFileBeingLoaded : bool;
}.

(** What a loading function returns: a null pointer, a block, a string or an
    object, according to its flags. *)
Inductive loaded :=
| L_NULL
| L_PLAIN (b : list Z)
| L_SDS (s : sds)
| L_OBJ (o : Z).

(** * The C library *)

Definition isspace (c : Z) : bool := (c =? 32) || ((9 <=? c) && (c <=? 13)).

Fixpoint skip_spaces (s : list Z) (i : Z) : outcome (list Z * Z) :=
  match s with
  | [] => Fault
  | c :: t => if isspace c then skip_spaces t (i + 1) else Ret (s, i)
  end.

(** The value of the digits at the start of [s] after [acc], and their number. *)
Fixpoint scan_digits (s : list Z) (acc n : Z) : outcome (Z * Z) :=
  match s with
  | [] => Fault
  | c :: t => if (48 <=? c) && (c <=? 57) then scan_digits t (acc * 10 + (c - 48)) (n + 1) else Ret (acc, n)
  end.

(** [strtoll(s, &endptr, 10)] on a C string: the value, cut to the range of the
    type, and the offset of [endptr], which is 0 when there is no number. *)
Definition strtoll (s : list Z) : outcome (Z * Z) :=
  '(t, i) ← skip_spaces s 0;
  let '(neg, t, i) :=
    match t with
    | c :: t' => if c =? 45 then (true, t', i + 1) else if c =? 43 then (false, t', i + 1) else (false, t, i)
    | [] => (false, t, i)
    end in
  '(v, n) ← scan_digits t 0 0;
  if n =? 0 then Ret (0, 0)
  else Ret (Z.max LLONG_MIN (Z.min LLONG_MAX (if neg : bool then - v else v)), i + n).

(** [htonl] and [ntohl]: the bytes of the result are in network order. *)
Definition htonl {H : HostOrder} (v : Z) : Z := nat_dec (be_enc 4 v).
Definition ntohl {H : HostOrder} (v : Z) : Z := be_dec (nat_enc 4 v).

(** endianconv.h *)
Definition htonu64 {H : HostOrder} (v : Z) : outcome Z := if big_endian then Ret v else intrev64 v.
Definition ntohu64 {H : HostOrder} (v : Z) : outcome Z := if big_endian then Ret v else intrev64 v.

Definition ztrymalloc {A : Allocator} (n : Z) : option (list Z) := if try_ok n then Some (zmalloc n) else None.

(** * Errors, types and times *)

Section rdb.
Context {H : HostOrder} {A : Allocator} {N : ObjAlloc} {V : Server} {G : RdbServer}.
Context {T : Type} {B : Backend T}.

(** It returns, or ends the process. *)
Definition rdbReportError (corruption_error : bool) : outcome unit :=
  if negb loading then Ret tt
  else if rdbCheckMode then Panic
  else if rdbFileBeingLoaded then Panic
  else if corruption_error then Panic
  else Ret tt.

Definition rdbReportCorruptRDB : outcome unit := rdbReportError true.

(** The stream and the value returned. *)
Definition rdbWriteRaw (rdb : option (rio T)) (p : list Z) (len : Z) : outcome (option (rio T) * Z) :=
  match rdb with
  | None => Ret (None, s64 len)
  | Some r => '(r, ok) ← rioWrite r p len; Ret (Some r, if ok : bool then s64 len else -1)
  end.

Definition rdbSaveType (rdb : option (rio T)) (type : Z) : outcome (option (rio T) * Z) :=
  rdbWriteRaw rdb [u8 type] 1.

Definition rdbLoadType (rdb : rio T) : outcome (rio T * Z) :=
  '(rdb, got) ← rioRead rdb 1;
  match got with
  | None => Ret (rdb, -1)
  | Some buf => type ← rd buf 0; Ret (rdb, type)
  end.

Definition rdbLoadTime (rdb : rio T) : outcome (rio T * Z) :=
  '(rdb, got) ← rioRead rdb 4;
  match got with
  | None => Ret (rdb, -1)
  | Some buf => Ret (rdb, s32 (nat_dec buf))
  end.

Definition rdbSaveMillisecondTime (rdb : option (rio T)) (t : Z) : outcome (option (rio T) * Z) :=
  t64 ← memrev64ifbe (nat_enc 8 t) 0;
  rdbWriteRaw rdb t64 8.

Definition rdbLoadMillisecondTime (rdb : rio T) (rdbver : Z) : outcome (rio T * Z) :=
  '(rdb, got) ← rioRead rdb 8;
  match got with
  | None => Ret (rdb, LLONG_MAX)
  | Some buf =>
    buf ← (if 9 <=? rdbver then memrev64ifbe buf 0 else Ret buf);
    Ret (rdb, s64 (nat_dec buf))
  end.

(** The bits of a floating-point number are saved in little-endian order. *)
Definition rdbSaveBinaryDoubleValue (rdb : option (rio T)) (bits : Z) : outcome (option (rio T) * Z) :=
  val ← memrev64ifbe (nat_enc 8 bits) 0; rdbWriteRaw rdb val 8.

Definition rdbLoadBinaryDoubleValue (rdb : rio T) : outcome (rio T * option Z) :=
  '(rdb, got) ← rioRead rdb 8;
  match got with
  | None => Ret (rdb, None)
  | Some val => val ← memrev64ifbe val 0; Ret (rdb, Some (nat_dec val))
  end.

Definition rdbSaveBinaryFloatValue (rdb : option (rio T)) (bits : Z) : outcome (option (rio T) * Z) :=
  val ← memrev32ifbe (nat_enc 4 bits) 0; rdbWriteRaw rdb val 4.

Definition rdbLoadBinaryFloatValue (rdb : rio T) : outcome (rio T * option Z) :=
  '(rdb, got) ← rioRead rdb 4;
  match got with
  | None => Ret (rdb, None)
  | Some val => val ← memrev32ifbe val 0; Ret (rdb, Some (nat_dec val))
  end.

Definition rdbSaveObjectType (h : heap) (rdb : option (rio T)) (o : Z) : outcome (option (rio T) * Z) :=
  obj ← deref h o;
  if type obj =? OBJ_STRING then rdbSaveType rdb RDB_TYPE_STRING
  else if type obj =? OBJ_LIST then
    if encoding obj =? OBJ_ENCODING_QUICKLIST then rdbSaveType rdb RDB_TYPE_LIST_QUICKLIST else Panic
  else if type obj =? OBJ_SET then
    if encoding obj =? OBJ_ENCODING_INTSET then rdbSaveType rdb RDB_TYPE_SET_INTSET
    else if encoding obj =? OBJ_ENCODING_HT then rdbSaveType rdb RDB_TYPE_SET
    else Panic
  else if type obj =? OBJ_ZSET then
    if encoding obj =? OBJ_ENCODING_ZIPLIST then rdbSaveType rdb RDB_TYPE_ZSET_ZIPLIST
    else if encoding obj =? OBJ_ENCODING_SKIPLIST then rdbSaveType rdb RDB_TYPE_ZSET_2
    else Panic
  else if type obj =? OBJ_HASH then
    if encoding obj =? OBJ_ENCODING_ZIPLIST then rdbSaveType rdb RDB_TYPE_HASH_ZIPLIST
    else if encoding obj =? OBJ_ENCODING_HT then rdbSaveType rdb RDB_TYPE_HASH
    else Panic
  else if type obj =? OBJ_STREAM then rdbSaveType rdb RDB_TYPE_STREAM_LISTPACKS
  else if type obj =? OBJ_MODULE then rdbSaveType rdb RDB_TYPE_MODULE_2
  else Panic.

Definition rdbLoadObjectType (rdb : rio T) : outcome (rio T * Z) :=
  '(rdb, type) ← rdbLoadType rdb;
  if type =? -1 then Ret (rdb, -1)
  else if negb (rdbIsObjectType type) then Ret (rdb, -1)
  else Ret (rdb, type).

(** * Lengths *)

Definition rdbSaveLen (rdb : option (rio T)) (len : Z) : outcome (option (rio T) * Z) :=
  if len <? Z.shiftl 1 6 then
    '(rdb, n) ← rdbWriteRaw rdb [Z.lor (Z.land len 0xFF) (Z.shiftl RDB_6BITLEN 6)] 1;
    if n =? -1 then Ret (rdb, -1) else Ret (rdb, 1)
  else if len <? Z.shiftl 1 14 then
    '(rdb, n) ← rdbWriteRaw rdb
      [Z.lor (Z.land (Z.shiftr len 8) 0xFF) (Z.shiftl RDB_14BITLEN 6); Z.land len 0xFF] 2;
    if n =? -1 then Ret (rdb, -1) else Ret (rdb, 2)
  else if len <=? 2 ^ 32 - 1 then
    '(rdb, n) ← rdbWriteRaw rdb [RDB_32BITLEN] 1;
    if n =? -1 then Ret (rdb, -1)
    else
      let len32 := htonl len in
      '(rdb, n) ← rdbWriteRaw rdb (nat_enc 4 len32) 4;
      if n =? -1 then Ret (rdb, -1) else Ret (rdb, 1 + 4)
  else
    '(rdb, n) ← rdbWriteRaw rdb [RDB_64BITLEN] 1;
    if n =? -1 then Ret (rdb, -1)
    else
      len ← htonu64 len;
      '(rdb, n) ← rdbWriteRaw rdb (nat_enc 8 len) 8;
      if n =? -1 then Ret (rdb, -1) else Ret (rdb, 1 + 8).

(** 0 with [*isencoded] and [*lenptr], or -1. *)
Definition rdbLoadLenByRef (rdb : rio T) : outcome (rio T * option (bool * Z)) :=
  '(rdb, got) ← rioRead rdb 1;
  match got with
  | None => Ret (rdb, None)
  | Some buf =>
    b0 ← rd buf 0;
    let type := Z.shiftr (Z.land b0 0xC0) 6 in
    if type =? RDB_ENCVAL then Ret (rdb, Some (true, Z.land b0 0x3F))
    else if type =? RDB_6BITLEN then Ret (rdb, Some (false, Z.land b0 0x3F))
    else if type =? RDB_14BITLEN then
      '(rdb, got) ← rioRead rdb 1;
      match got with
      | None => Ret (rdb, None)
      | Some buf => b1 ← rd buf 0; Ret (rdb, Some (false, Z.lor (Z.shiftl (Z.land b0 0x3F) 8) b1))
      end
    else if b0 =? RDB_32BITLEN then
      '(rdb, got) ← rioRead rdb 4;
      match got with
      | None => Ret (rdb, None)
      | Some buf => Ret (rdb, Some (false, ntohl (nat_dec buf)))
      end
    else if b0 =? RDB_64BITLEN then
      '(rdb, got) ← rioRead rdb 8;
      match got with
      | None => Ret (rdb, None)
      | Some buf => len ← ntohu64 (nat_dec buf); Ret (rdb, Some (false, len))
      end
    else _ ← rdbReportCorruptRDB; Ret (rdb, None)
  end.

(** [*isencoded] and the length, [RDB_LENERR] on error. *)
Definition rdbLoadLen (rdb : rio T) : outcome (rio T * bool * Z) :=
  '(rdb, r) ← rdbLoadLenByRef rdb;
  Ret match r with Some (isencoded, len) => (rdb, isencoded, len) | None => (rdb, false, RDB_LENERR) end.

(** * Numbers *)

(** The buffer after the call, and the number of bytes, 0 if it does not fit. *)
Definition rdbEncodeInteger (value : Z) (enc : list Z) : outcome (list Z * Z) :=
  if (- Z.shiftl 1 7 <=? value) && (value <=? Z.shiftl 1 7 - 1) then
    enc ← wr enc 0 (Z.lor (Z.shiftl RDB_ENCVAL 6) RDB_ENC_INT8);
    enc ← wr enc 1 (Z.land value 0xFF);
    Ret (enc, 2)
  else if (- Z.shiftl 1 15 <=? value) && (value <=? Z.shiftl 1 15 - 1) then
    enc ← wr enc 0 (Z.lor (Z.shiftl RDB_ENCVAL 6) RDB_ENC_INT16);
    enc ← wr enc 1 (Z.land value 0xFF);
    enc ← wr enc 2 (Z.land (Z.shiftr value 8) 0xFF);
    Ret (enc, 3)
  else if (- Z.shiftl 1 31 <=? value) && (value <=? Z.shiftl 1 31 - 1) then
    enc ← wr enc 0 (Z.lor (Z.shiftl RDB_ENCVAL 6) RDB_ENC_INT32);
    enc ← wr enc 1 (Z.land value 0xFF);
    enc ← wr enc 2 (Z.land (Z.shiftr value 8) 0xFF);
    enc ← wr enc 3 (Z.land (Z.shiftr value 16) 0xFF);
    enc ← wr enc 4 (Z.land (Z.shiftr value 24) 0xFF);
    Ret (enc, 5)
  else Ret (enc, 0).

Definition is_flag (flags f : Z) : bool := negb (Z.land flags f =? 0).

Definition LONG_STR_SIZE : Z := 21.

(** The heap of objects, the stream, the pointer returned and [*lenptr], if it
    has been set. *)
Definition load_result : Type := heap * rio T * loaded * option Z.

(** The end of [rdbLoadIntegerObject], with the value [val]. *)
Definition integer_result (h : heap) (rdb : rio T) (flags val : Z) : outcome load_result :=
  let plain := is_flag flags RDB_LOAD_PLAIN in
  let sds := is_flag flags RDB_LOAD_SDS in
  let encode := is_flag flags RDB_LOAD_ENC in
  if plain || sds then
    '(buf, len) ← ll2string (junk LONG_STR_SIZE) LONG_STR_SIZE val;
    text ← rdn buf 0 len;
    if plain then p ← wrn (zmalloc len) 0 text; Ret (h, rdb, L_PLAIN p, Some len)
    else p ← sdsnewlen SDS_NOINIT len; p ← s_wrn p 0 text; Ret (h, rdb, L_SDS p, Some len)
  else if encode then
    '(h, o) ← createStringObjectFromLongLongForValue h val; Ret (h, rdb, L_OBJ o, None)
  else
    s ← sdsfromlonglong val;
    let '(h, o) := createObject h OBJ_STRING (P_SDS s) in Ret (h, rdb, L_OBJ o, None).

Definition rdbLoadIntegerObject (h : heap) (rdb : rio T) (enctype flags : Z) : outcome load_result :=
  if enctype =? RDB_ENC_INT8 then
    '(rdb, got) ← rioRead rdb 1;
    match got with
    | None => Ret (h, rdb, L_NULL, None)
    | Some enc => e0 ← rd enc 0; integer_result h rdb flags (s8 e0)
    end
  else if enctype =? RDB_ENC_INT16 then
    '(rdb, got) ← rioRead rdb 2;
    match got with
    | None => Ret (h, rdb, L_NULL, None)
    | Some enc =>
      e0 ← rd enc 0;
      e1 ← rd enc 1;
      let v := u16 (Z.lor e0 (Z.shiftl e1 8)) in
      integer_result h rdb flags (s16 v)
    end
  else if enctype =? RDB_ENC_INT32 then
    '(rdb, got) ← rioRead rdb 4;
    match got with
    | None => Ret (h, rdb, L_NULL, None)
    | Some enc =>
      e0 ← rd enc 0;
      e1 ← rd enc 1;
      e2 ← rd enc 2;
      e3 ← rd enc 3;
      let v := u32 (Z.lor (Z.lor (Z.lor e0 (Z.shiftl e1 8)) (Z.shiftl e2 16)) (Z.shiftl e3 24)) in
      integer_result h rdb flags (s32 v)
    end
  else
    _ ← rdbReportCorruptRDB; Ret (h, rdb, L_NULL, None).

(** [s] is a block that starts with the [len] bytes of the string. *)
Definition rdbTryIntegerEncoding (s : list Z) (len : Z) (enc : list Z) : outcome (list Z * Z) :=
  '(value, endptr) ← strtoll s;
  c ← rd s endptr;
  if negb (c =? 0) then Ret (enc, 0)
  else
    '(buf, _) ← ll2string (junk 32) 32 value;
    n ← strlen buf;
    if negb (n =? len) then Ret (enc, 0)
    else
      a ← rdn buf 0 len;
      b ← rdn s 0 len;
      if negb (memcmp a b =? 0) then Ret (enc, 0)
      else rdbEncodeInteger value enc.

(** * Compressed strings *)

Definition rdbSaveLzfBlob (rdb : option (rio T)) (data : list Z) (compress_len original_len : Z)
    : outcome (option (rio T) * Z) :=
  let byte := Z.lor (Z.shiftl RDB_ENCVAL 6) RDB_ENC_LZF in
  '(rdb, n) ← rdbWriteRaw rdb [byte] 1;
  if n =? -1 then Ret (rdb, -1)
  else
    let nwritten := n in
    '(rdb, n) ← rdbSaveLen rdb compress_len;
    if n =? -1 then Ret (rdb, -1)
    else
      let nwritten := nwritten + n in
      '(rdb, n) ← rdbSaveLen rdb original_len;
      if n =? -1 then Ret (rdb, -1)
      else
        let nwritten := nwritten + n in
        '(rdb, n) ← rdbWriteRaw rdb data compress_len;
        if n =? -1 then Ret (rdb, -1) else Ret (rdb, nwritten + n).

(** [lzf_compress] takes 32-bit lengths; [htab] is its uninitialised table. *)
Definition rdbSaveLzfStringObject (htab : list Z) (rdb : option (rio T)) (s : list Z) (len : Z)
    : outcome (option (rio T) * Z) :=
  if len <=? 4 then Ret (rdb, 0)
  else
    let outlen := len - 4 in
    let out := zmalloc (u64 (outlen + 1)) in
    '(out, comprlen) ← Lzf.lzf_compress s (u32 len) out (u32 outlen) htab;
    if comprlen =? 0 then Ret (rdb, 0)
    else rdbSaveLzfBlob rdb out comprlen len.

(** The memory a string is loaded into. *)
Inductive target := T_PLAIN (b : list Z) | T_SDS (s : sds).

Definition new_target (plain : bool) (len : Z) : outcome (option target) :=
  if plain then Ret (option_map T_PLAIN (ztrymalloc len))
  else s ← sdstrynewlen SDS_NOINIT len; Ret (option_map T_SDS s).

(** [lzf_decompress(c, clen, val, len)], on the bytes its 32-bit lengths allow. *)
Definition decompress_to (c : list Z) (clen : Z) (val : target) (len : Z) : outcome (target * Z) :=
  in_data ← rdn c 0 (u32 clen);
  out_data ← match val with T_PLAIN b => rdn b 0 (u32 len) | T_SDS s => s_rdn s 0 (u32 len) end;
  '(out_data, n, _) ← Lzf.lzf_decompress in_data (u32 clen) out_data (u32 len);
  val ← match val with
        | T_PLAIN b => b ← wrn b 0 out_data; Ret (T_PLAIN b)
        | T_SDS s => s ← s_wrn s 0 out_data; Ret (T_SDS s)
        end;
  Ret (val, n).

(** The part of [rdbLoadLzfStringObject] behind the two lengths. *)
Definition load_lzf (h : heap) (rdb : rio T) (flags clen len : Z) : outcome load_result :=
  let plain := is_flag flags RDB_LOAD_PLAIN in
  let sds := is_flag flags RDB_LOAD_SDS in
  match ztrymalloc clen with
  | None => Ret (h, rdb, L_NULL, None)
  | Some _ =>
    val ← new_target plain len;
    match val with
    | None => Ret (h, rdb, L_NULL, None)
    | Some val =>
      '(rdb, got) ← rioRead rdb clen;
      match got with
      | None => Ret (h, rdb, L_NULL, Some len)
      | Some c =>
        '(val, n) ← decompress_to c clen val len;
        if negb (n =? len) then
          _ ← rdbReportCorruptRDB; Ret (h, rdb, L_NULL, Some len)
        else
          match val with
          | T_PLAIN b => Ret (h, rdb, L_PLAIN b, Some len)
          | T_SDS s =>
            if sds then Ret (h, rdb, L_SDS s, Some len)
            else let '(h, o) := createObject h OBJ_STRING (P_SDS s) in Ret (h, rdb, L_OBJ o, Some len)
          end
      end
    end
  end.

Definition rdbLoadLzfStringObject (h : heap) (rdb : rio T) (flags : Z) : outcome load_result :=
  '(rdb, _, clen) ← rdbLoadLen rdb;
  if clen =? RDB_LENERR then Ret (h, rdb, L_NULL, None)
  else
    '(rdb, _, len) ← rdbLoadLen rdb;
    if len =? RDB_LENERR then Ret (h, rdb, L_NULL, None)
    else load_lzf h rdb flags clen len.

(** * Strings *)

Definition rdbSaveRawString (htab : list Z) (rdb : option (rio T)) (s : list Z) (len : Z)
    : outcome (option (rio T) * Z) :=
  '(buf, enclen) ← (if len <=? 11 then rdbTryIntegerEncoding s len (junk 5) else Ret ([], 0));
  if 0 <? enclen then
    '(rdb, n) ← rdbWriteRaw rdb buf enclen;
    if n =? -1 then Ret (rdb, -1) else Ret (rdb, enclen)
  else
    '(rdb, n) ← (if rdb_compression && (20 <? len) then rdbSaveLzfStringObject htab rdb s len else Ret (rdb, 0));
    if n =? -1 then Ret (rdb, -1)
    else if 0 <? n then Ret (rdb, n)
    else
      '(rdb, n) ← rdbSaveLen rdb len;
      if n =? -1 then Ret (rdb, -1)
      else
        let nwritten := n in
        if 0 <? len then
          '(rdb, n) ← rdbWriteRaw rdb s len;
          if n =? -1 then Ret (rdb, -1) else Ret (rdb, nwritten + s64 len)
        else Ret (rdb, nwritten).

Definition rdbSaveLongLongAsStringObject (rdb : option (rio T)) (value : Z) : outcome (option (rio T) * Z) :=
  '(buf, enclen) ← rdbEncodeInteger value (junk 32);
  if 0 <? enclen then rdbWriteRaw rdb buf enclen
  else
    '(buf, enclen) ← ll2string buf 32 value;
    _ ← c_assert (enclen <? 32);
    '(rdb, n) ← rdbSaveLen rdb enclen;
    if n =? -1 then Ret (rdb, -1)
    else
      let nwritten := n in
      '(rdb, n) ← rdbWriteRaw rdb buf enclen;
      if n =? -1 then Ret (rdb, -1) else Ret (rdb, nwritten + n).

(** The bytes from the first one of a string on. *)
Definition sds_block (s : sds) : list Z := drop (Z.to_nat (off s)) (mem s).

Definition rdbSaveStringObject (htab : list Z) (h : heap) (rdb : option (rio T)) (o : Z)
    : outcome (option (rio T) * Z) :=
  obj ← deref h o;
  if encoding obj =? OBJ_ENCODING_INT then
    v ← as_long (ptr obj); rdbSaveLongLongAsStringObject rdb v
  else
    _ ← c_assert (sdsEncodedObject obj);
    s ← as_sds (ptr obj);
    len ← sdslen s;
    rdbSaveRawString htab rdb (sds_block s) len.

(** Reading the bytes into the string of a new object. *)
Definition read_into (h : heap) (o : Z) (bs : list Z) : outcome heap :=
  obj ← deref h o;
  s ← as_sds (ptr obj);
  s ← s_wrn s 0 bs;
  Ret (<[o := set_ptr obj (P_SDS s)]> h).

(** The end of [rdbGenericLoadStringObject], for a string saved as it is. *)
Definition load_verbatim (h : heap) (rdb : rio T) (flags len : Z) : outcome load_result :=
  let encode := is_flag flags RDB_LOAD_ENC in
  let plain := is_flag flags RDB_LOAD_PLAIN in
  let sds := is_flag flags RDB_LOAD_SDS in
  if plain || sds then
    buf ← new_target plain len;
    match buf with
    | None => Ret (h, rdb, L_NULL, None)
    | Some buf =>
      '(rdb, got) ← (if negb (len =? 0) then rioRead rdb len else Ret (rdb, Some []));
      match got with
      | None => Ret (h, rdb, L_NULL, Some len)
      | Some bs =>
        match buf with
        | T_PLAIN b => b ← wrn b 0 bs; Ret (h, rdb, L_PLAIN b, Some len)
        | T_SDS s => s ← s_wrn s 0 bs; Ret (h, rdb, L_SDS s, Some len)
        end
      end
    end
  else
    '(h, o) ← (if encode then tryCreateStringObject h SDS_NOINIT len else tryCreateRawStringObject h SDS_NOINIT len);
    match o with
    | None => Ret (h, rdb, L_NULL, None)
    | Some o =>
      '(rdb, got) ← (if negb (len =? 0) then rioRead rdb len else Ret (rdb, Some []));
      match got with
      | None => h ← decrRefCount h o; Ret (h, rdb, L_NULL, None)
      | Some bs => h ← read_into h o bs; Ret (h, rdb, L_OBJ o, None)
      end
    end.

Definition rdbGenericLoadStringObject (h : heap) (rdb : rio T) (flags : Z) : outcome load_result :=
  '(rdb, isencoded, len) ← rdbLoadLen rdb;
  if len =? RDB_LENERR then Ret (h, rdb, L_NULL, None)
  else if isencoded : bool then
    if (len =? RDB_ENC_INT8) || (len =? RDB_ENC_INT16) || (len =? RDB_ENC_INT32) then
      rdbLoadIntegerObject h rdb len flags
    else if len =? RDB_ENC_LZF then rdbLoadLzfStringObject h rdb flags
    else _ ← rdbReportCorruptRDB; Ret (h, rdb, L_NULL, None)
  else load_verbatim h rdb flags len.

Definition rdbLoadStringObject (h : heap) (rdb : rio T) : outcome load_result :=
  rdbGenericLoadStringObject h rdb RDB_LOAD_NONE.

Definition rdbLoadEncodedStringObject (h : heap) (rdb : rio T) : outcome load_result :=
  rdbGenericLoadStringObject h rdb RDB_LOAD_ENC.

(** aof.c *)
Definition rioWriteBulkObject (h : heap) (r : rio T) (o : Z) : outcome (rio T * Z) :=
  obj ← deref h o;
  if encoding obj =? OBJ_ENCODING_INT then
    v ← as_long (ptr obj); '(r, n) ← rioWriteBulkLongLong r v; Ret (r, s32 n)
  else if sdsEncodedObject obj then
    s ← as_sds (ptr obj); len ← sdslen s;
    '(r, n) ← rioWriteBulkString r (sds_block s) len; Ret (r, s32 n)
  else Panic.

End rdb.

(** * The footer of a dumped value (cluster.c) *)

Section dump.
Context {H : HostOrder} {A : Allocator} {G : RdbServer}.

(** The last part of [createDumpPayload]; [table] is that of [crc64] and [next]
    the address of the bytes. *)
Definition dump_footer (table : list (list Z)) (next : Z) (payload : sds) : outcome sds :=
  let buf := [Z.land RDB_VERSION 0xff; Z.land (Z.shiftr RDB_VERSION 8) 0xff] in
  payload ← sdscatlen payload buf 2;
  len ← sdslen payload;
  bs ← s_rdn payload 0 len;
  crc ← Crc.crc64 table 0 next bs;
  crc ← memrev64ifbe (nat_enc 8 crc) 0;
  sdscatlen payload crc 8.

(** [true] for [C_OK]. *)
Definition verifyDumpPayload (table : list (list Z)) (next : Z) (p : list Z) (len : Z) : outcome bool :=
  if len <? 10 then Ret false
  else
    let footer := len - 10 in
    f1 ← rd p (footer + 1);
    f0 ← rd p footer;
    let rdbver := u16 (Z.lor (Z.shiftl f1 8) f0) in
    if RDB_VERSION <? rdbver then Ret false
    else if skip_checksum_validation then Ret true
    else
      bs ← rdn p 0 (len - 8);
      crc ← Crc.crc64 table 0 next bs;
      crc ← memrev64ifbe (nat_enc 8 crc) 0;
      f ← rdn p (footer + 2) 8;
      Ret (memcmp crc f =? 0).

End dump.

End Rdb.
