(* ===== verification/RdbLen.v ===== *)
(** The dump format: types, times, lengths and numbers.  [len_form] and
    [int_form] say which bytes stand for a length and for a number. *)
From S2P Require Import Prelude Endianconv Util Sds SdsRep SdsOps SdsText Object ObjectSpec Rio RioSpec Rdb.
Import Util Sds SdsRep Object ObjectSpec Rio RioSpec Rdb.

Module RdbLen.

(** * The format *)

(** [len_form t e n]: [t] is read as the number [n], which is a length or, for
    [e = true], the kind of a special encoding. *)
Inductive len_form : list Z → bool → Z → Prop :=
| len_enc b : 192 <= b < 256 → len_form [b] true (b - 192)
| len_6 b : 0 <= b < 64 → len_form [b] false b
| len_14 b c : 64 <= b < 128 → is_byte c → len_form [b; c] false ((b - 64) * 256 + c)
| len_32 bs : bytes_ok bs → zlen bs = 4 → len_form (RDB_32BITLEN :: bs) false (be_dec bs)
| len_64 bs : bytes_ok bs → zlen bs = 8 → len_form (RDB_64BITLEN :: bs) false (be_dec bs).

(** The form the code writes, the shortest one. *)
Definition len_bytes (n : Z) : list Z :=
  if n <? 2 ^ 6 then [n]
  else if n <? 2 ^ 14 then [64 + n / 256; n mod 256]
  else if n <? 2 ^ 32 then RDB_32BITLEN :: be_enc 4 n
  else RDB_64BITLEN :: be_enc 8 n.

Lemma zlen_be_enc n v : zlen (be_enc n v) = Z.of_nat n.
Proof. unfold zlen. by rewrite length_be_enc. Qed.

Lemma len_bytes_form n : 0 <= n < 2 ^ 64 → len_form (len_bytes n) false n.
Proof.
  intros Hn. unfold len_bytes. repeat case_cond; to_prop.
  - constructor. lia.
  - dm n 256. replace n with ((64 + n / 256 - 64) * 256 + n mod 256) at 3 by lia. constructor; [lia|unfold is_byte; lia].
  - replace n with (be_dec (be_enc 4 n)) at 2 by (rewrite be_dec_enc; apply Z.mod_small; lia).
    constructor; [apply be_enc_bytes|apply zlen_be_enc].
  - replace n with (be_dec (be_enc 8 n)) at 2 by (rewrite be_dec_enc; apply Z.mod_small; lia).
    constructor; [apply be_enc_bytes|apply zlen_be_enc].
Qed.

Lemma be_dec_range bs : bytes_ok bs → 0 <= be_dec bs < 2 ^ (8 * zlen bs).
Proof.
  intros Hb. unfold be_dec. replace (zlen bs) with (zlen (reverse bs)) by (unfold zlen; by rewrite length_reverse).
  apply le_dec_range. by apply Forall_reverse.
Qed.

Lemma len_form_range t e n : len_form t e n → 0 <= n < 2 ^ 64 ∧ bytes_ok t ∧ 1 <= zlen t <= 9.
Proof.
  destruct 1 as [b Hb|b Hb|b c Hb Hc|bs Hb Hz|bs Hb Hz]; zlr; unfold is_byte in *.
  - split_and!; try lia; repeat constructor; unfold is_byte; lia.
  - split_and!; try lia; repeat constructor; unfold is_byte; lia.
  - split_and!; try lia; repeat constructor; unfold is_byte; lia.
  - pose proof (be_dec_range bs Hb) as Hr. rewrite Hz in Hr. split_and!; try lia; constructor; [by unfold is_byte|done].
  - pose proof (be_dec_range bs Hb) as Hr. rewrite Hz in Hr. split_and!; try lia; constructor; [by unfold is_byte|done].
Qed.

Lemma len_bytes_ok n : 0 <= n < 2 ^ 64 → bytes_ok (len_bytes n) ∧ 1 <= zlen (len_bytes n) <= 9.
Proof. intros Hn. by destruct (len_form_range _ _ _ (len_bytes_form n Hn)). Qed.

(** * Byte order *)

Section order.
Context {H : HostOrder}.

Lemma htonl_bytes v : nat_enc 4 (htonl v) = be_enc 4 v.
Proof. unfold htonl. rewrite <- (length_be_enc 4 v) at 1. apply nat_enc_dec, be_enc_bytes. Qed.

Lemma ntohl_val bs : bytes_ok bs → zlen bs = 4 → ntohl (nat_dec bs) = be_dec bs.
Proof. intros Hb Hz. unfold ntohl. replace 4%nat with (length bs) by (unfold zlen in Hz; lia). by rewrite nat_enc_dec. Qed.

Lemma intrev64_rev bs : bytes_ok bs → zlen bs = 8 → intrev64 (nat_dec bs) = Ret (nat_dec (reverse bs)).
Proof.
  intros Hb Hz. unfold intrev64. replace 8%nat with (length bs) by (unfold zlen in Hz; lia). rewrite nat_enc_dec by done.
  pose proof (memrev64_app [] bs [] 0) as E. rewrite !app_nil_r in E. simpl in E. by rewrite E.
Qed.

Lemma htonu64_bytes v : 0 <= v < 2 ^ 64 → ∃ w, htonu64 v = Ret w ∧ nat_enc 8 w = be_enc 8 v.
Proof.
  intros Hv. unfold htonu64. destruct big_endian eqn:Eb; [exists v; split; [done|]; unfold nat_enc; by rewrite Eb|].
  assert (v = nat_dec (le_enc 8 v)) as Ev by (unfold nat_dec; rewrite Eb, le_dec_enc, Z.mod_small by done; done).
  pose proof (intrev64_rev (le_enc 8 v) (le_enc_bytes 8 v) (zlen_le_enc 8 v)) as E. rewrite <- Ev in E. rewrite E. eexists. split; [done|].
  pose proof (length_be_enc 8 v) as Hl. unfold be_enc in Hl |- *. rewrite <- Hl at 1. apply nat_enc_dec.
  apply Forall_reverse, le_enc_bytes.
Qed.

Lemma ntohu64_val bs : bytes_ok bs → zlen bs = 8 → ntohu64 (nat_dec bs) = Ret (be_dec bs).
Proof.
  intros Hb Hz. unfold ntohu64. destruct big_endian eqn:Eb; [unfold nat_dec; by rewrite Eb|].
  rewrite intrev64_rev by done. unfold nat_dec, be_dec. by rewrite Eb.
Qed.

Lemma memrev64ifbe_enc v : memrev64ifbe (nat_enc 8 v) 0 = Ret (le_enc 8 v).
Proof.
  rewrite <- (nat_enc_rev 8 v). unfold memrev64ifbe. destruct big_endian; [|done].
  pose proof (memrev64_app [] (nat_enc 8 v) [] 0) as E. rewrite !app_nil_r in E. simpl in E.
  apply E; [done|apply zlen_nat_enc|apply nat_enc_bytes].
Qed.

End order.

(** * Saving *)

Section saving.
Context {H : HostOrder} {A : Allocator} {T : Type} {B : Backend T} {W : WriteLaws B}.
Context (upd : Z → Z → Z) (c0 : Z) (pre : list Z).

(** A stream to which [h] has been written, or, for [c = true], a null pointer. *)
Definition saved (c : bool) (rdb : option (rio T)) (h : list Z) : Prop :=
  match rdb with Some r => c = false ∧ writing upd c0 pre r h | None => c = true end.

(** The room the backends promise. *)
Definition room (h : list Z) (n : Z) : Prop := zlen pre + zlen h + n < 2 ^ 60.

Lemma writeRaw_spec c rdb h t rest n :
  saved c rdb h → bytes_ok t → zlen t = n → room h n →
  ∃ rdb', rdbWriteRaw rdb (t ++ rest) n = Ret (rdb', n) ∧ saved c rdb' (h ++ t).
Proof.
  intros Hs Hb Hz Hn. pose proof (zlen_nonneg t). pose proof (zlen_nonneg pre). pose proof (zlen_nonneg h). unfold room in Hn.
  destruct rdb as [r|]; cbn in Hs |- *; rewrite wraps_id by (simpl; lia).
  - destruct Hs as [-> Hw]. destruct (rioWrite_spec upd c0 pre r h t rest n Hw Hb Hz) as (r' & -> & Hw'); [lia|]. run.
    by exists (Some r').
  - by exists None.
Qed.

Lemma writeRaw_all c rdb h t n :
  saved c rdb h → bytes_ok t → zlen t = n → room h n →
  ∃ rdb', rdbWriteRaw rdb t n = Ret (rdb', n) ∧ saved c rdb' (h ++ t).
Proof. pose proof (writeRaw_spec c rdb h t [] n) as E. by rewrite app_nil_r in E. Qed.

Lemma saveLen_spec c rdb h n :
  saved c rdb h → 0 <= n < 2 ^ 64 → room h 16 →
  ∃ rdb', rdbSaveLen rdb n = Ret (rdb', zlen (len_bytes n)) ∧ saved c rdb' (h ++ len_bytes n).
Proof.
  intros Hs Hn Hr. unfold room in Hr. unfold rdbSaveLen, len_bytes. change (Z.shiftl 1 6) with (2 ^ 6).
  change (Z.shiftl 1 14) with (2 ^ 14). change (Z.shiftl RDB_6BITLEN 6) with 0. change (Z.shiftl RDB_14BITLEN 6) with 64.
  rewrite Z.lor_0_r, !land_255.
  destruct (Z.ltb_spec n (2 ^ 6)).
  { rewrite (Z.mod_small n) by lia. destruct (writeRaw_all c rdb h [n] 1 Hs) as (rdb' & -> & Hs');
      [repeat constructor; lia|done|unfold room; lia|]. run. by exists rdb'. }
  destruct (Z.ltb_spec n (2 ^ 14)).
  { rewrite Z.shiftr_div_pow2 by lia. change (2 ^ 8) with 256. dm n 256. rewrite (Z.mod_small (n / 256)) by lia.
    assert (Z.lor (n / 256) 64 = 64 + n / 256) as ->.
    { rewrite Z.lor_comm. change 64 with (Z.shiftl 1 6) at 1. rewrite lor_shiftl by lia. lia. }
    destruct (writeRaw_all c rdb h [64 + n / 256; n mod 256] 2 Hs) as (rdb' & -> & Hs');
      [repeat constructor; lia|done|unfold room; lia|]. run. by exists rdb'. }
  replace (n <=? 2 ^ 32 - 1) with (n <? 2 ^ 32) by lia. destruct (Z.ltb_spec n (2 ^ 32)).
  - destruct (writeRaw_all c rdb h [RDB_32BITLEN] 1 Hs) as (r1 & -> & Hs1); [by repeat constructor|done|unfold room; lia|]. run.
    change (1 =? -1) with false. cbv iota. rewrite htonl_bytes.
    destruct (writeRaw_all c r1 _ (be_enc 4 n) 4 Hs1) as (r2 & -> & Hs2); [apply be_enc_bytes|apply zlen_be_enc|unfold room; zlr; lia|].
    run. change (4 =? -1) with false. cbv iota. exists r2. rewrite <- app_assoc in Hs2. split; [|done]. zlr. by rewrite zlen_be_enc.
  - destruct (writeRaw_all c rdb h [RDB_64BITLEN] 1 Hs) as (r1 & -> & Hs1); [by repeat constructor|done|unfold room; lia|]. run.
    change (1 =? -1) with false. cbv iota. destruct (htonu64_bytes n Hn) as (w & -> & Ew). run. rewrite Ew.
    destruct (writeRaw_all c r1 _ (be_enc 8 n) 8 Hs1) as (r2 & -> & Hs2); [apply be_enc_bytes|apply zlen_be_enc|unfold room; zlr; lia|].
    run. change (8 =? -1) with false. cbv iota. exists r2. rewrite <- app_assoc in Hs2. split; [|done]. zlr. by rewrite zlen_be_enc.
Qed.

(** The other values of fixed size. *)
Lemma saveTime_spec c rdb h t :
  saved c rdb h → room h 8 →
  ∃ rdb', rdbSaveMillisecondTime rdb t = Ret (rdb', 8) ∧ saved c rdb' (h ++ le_enc 8 t).
Proof.
  intros Hs Hr. unfold rdbSaveMillisecondTime. rewrite memrev64ifbe_enc. run.
  apply writeRaw_all; [done|apply le_enc_bytes|apply zlen_le_enc|done].
Qed.

Lemma saveDouble_spec c rdb h bits :
  saved c rdb h → room h 8 →
  ∃ rdb', rdbSaveBinaryDoubleValue rdb bits = Ret (rdb', 8) ∧ saved c rdb' (h ++ le_enc 8 bits).
Proof. apply saveTime_spec. Qed.

Lemma saveFloat_spec c rdb h bits :
  saved c rdb h → room h 4 →
  ∃ rdb', rdbSaveBinaryFloatValue rdb bits = Ret (rdb', 4) ∧ saved c rdb' (h ++ le_enc 4 bits).
Proof.
  intros Hs Hr. unfold rdbSaveBinaryFloatValue. rewrite memrev32ifbe_enc. run.
  apply writeRaw_all; [done|apply le_enc_bytes|apply zlen_le_enc|done].
Qed.

Lemma saveType_spec c rdb h ty :
  saved c rdb h → is_byte ty → room h 1 → ∃ rdb', rdbSaveType rdb ty = Ret (rdb', 1) ∧ saved c rdb' (h ++ [ty]).
Proof.
  intros Hs Ht Hr. unfold rdbSaveType. rewrite wrapu_id by (unfold is_byte in Ht; lia).
  apply writeRaw_all; [done|by apply Forall_singleton|done|done].
Qed.

End saving.

(** * Loading *)

Section loading.
Context {H : HostOrder} {G : RdbServer} {T : Type} {B : Backend T} {R : ReadLaws B}.
Context (upd : Z → Z → Z) (c0 : Z).

Lemma type_bits b : is_byte b → Z.shiftr (Z.land b 0xC0) 6 = b / 64.
Proof.
  intros Hb. apply Z.eqb_eq. revert b Hb. apply (all_bytes (λ b, Z.shiftr (Z.land b 0xC0) 6 =? b / 64)). by vm_compute.
Qed.

Lemma len_low_bits b : Z.land b 0x3F = b mod 64.
Proof. apply (Z.land_ones b 6). lia. Qed.

Lemma rd_first x (l : list Z) : rd (x :: l) 0 = Ret x.
Proof. done. Qed.

Lemma loadLen_spec r h t e n u :
  reading upd c0 r h (t ++ u) → len_form t e n →
  ∃ r', rdbLoadLenByRef r = Ret (r', Some (e, n)) ∧ reading upd c0 r' (h ++ t) u.
Proof.
  intros Hr Hf. unfold rdbLoadLenByRef.
  assert (∃ b t', t = b :: t' ∧ is_byte b) as (b & t' & -> & Hb).
  { destruct (len_form_range _ _ _ Hf) as (_ & Hb & Hz). destruct t as [|b t']; [zlr; lia|]. inversion Hb. eauto. }
  destruct (rioRead_spec upd c0 r h [b] (t' ++ u) 1 Hr) as (r1 & -> & Hr1); [done|lia|]. run. rewrite rd_first. run.
  rewrite type_bits, len_low_bits by done. unfold is_byte in Hb. dm b 64.
  change RDB_ENCVAL with 3. change RDB_6BITLEN with 0. change RDB_14BITLEN with 1.
  clear Hr. remember (b :: t') as t0 eqn:Et.
  destruct Hf as [x ?|x ?|x c ? Hc|bs Hbs Hz|bs Hbs Hz]; injection Et as <- <-; cbn [app] in Hr1 |- *.
  - test (x / 64 =? 3) true. exists r1. split; [do 4 f_equal; lia|done].
  - test (x / 64 =? 3) false. test (x / 64 =? 0) true. exists r1. split; [do 4 f_equal; lia|done].
  - test (x / 64 =? 3) false. test (x / 64 =? 0) false. test (x / 64 =? 1) true.
    destruct (rioRead_spec upd c0 r1 (h ++ [x]) [c] u 1 Hr1) as (r2 & -> & Hr2); [done|lia|]. run. rewrite rd_first. run.
    exists r2. rewrite <- app_assoc in Hr2. split; [|done]. unfold is_byte in Hc. rewrite lor_shiftl by lia. do 4 f_equal. lia.
  - change RDB_32BITLEN with 128 in *. change (128 / 64 =? 3) with false. change (128 / 64 =? 0) with false.
    change (128 / 64 =? 1) with false. change (128 =? 128) with true. cbv iota.
    destruct (rioRead_spec upd c0 r1 (h ++ [128]) bs u 4 Hr1) as (r2 & -> & Hr2); [done|lia|]. run. rewrite ntohl_val by done.
    exists r2. by rewrite <- app_assoc in Hr2.
  - change RDB_64BITLEN with 129 in *. change RDB_32BITLEN with 128 in *. change (129 / 64 =? 3) with false.
    change (129 / 64 =? 0) with false. change (129 / 64 =? 1) with false. change (129 =? 128) with false.
    change (129 =? 129) with true. cbv iota.
    destruct (rioRead_spec upd c0 r1 (h ++ [129]) bs u 8 Hr1) as (r2 & -> & Hr2); [done|lia|]. run. rewrite ntohu64_val by done. run.
    exists r2. by rewrite <- app_assoc in Hr2.
Qed.

(** A length read from any bytes, when errors are reported to the caller. *)
Lemma loadLen_any r h u :
  reading upd c0 r h u → loading = false →
  ∃ r' o, rdbLoadLenByRef r = Ret (r', o) ∧
    ∀ e n, o = Some (e, n) → ∃ t v, u = t ++ v ∧ len_form t e n ∧ reading upd c0 r' (h ++ t) v.
Proof.
  intros Hr Hl.
  assert (∀ t v e n, u = t ++ v → len_form t e n → ∃ r' o, rdbLoadLenByRef r = Ret (r', o) ∧
    ∀ e n, o = Some (e, n) → ∃ t v, u = t ++ v ∧ len_form t e n ∧ reading upd c0 r' (h ++ t) v) as Hgood.
  { intros t v e n -> Hf. destruct (loadLen_spec r h t e n v Hr Hf) as (r' & -> & Hr'). exists r', (Some (e, n)). split; [done|].
    intros ? ? [= <- <-]. eauto 6. }
  unfold rdbLoadLenByRef in *.
  destruct (rioRead_split upd c0 r h u 1 Hr) as [(r1 & E1 & _)|(r1 & t & v & -> & Ht & E1 & Hr1)]; [lia|rewrite E1; run; by eexists _, None|].
  destruct (zlen_one t Ht) as [b ->]. assert (is_byte b ∧ bytes_ok v) as [Hb Hv] by (pose proof (r_bytes _ _ _ _ _ Hr) as Hx; by inversion Hx).
  rewrite E1 in Hgood |- *. revert Hgood. run. rewrite rd_first. run. rewrite type_bits, len_low_bits by done.
  unfold is_byte in Hb. dm b 64. change RDB_ENCVAL with 3. change RDB_6BITLEN with 0. change RDB_14BITLEN with 1.
  intros Hgood. destruct (Z.eqb_spec (b / 64) 3); [apply (Hgood [b] v true (b - 192) eq_refl); constructor; lia|].
  destruct (Z.eqb_spec (b / 64) 0); [apply (Hgood [b] v false b eq_refl); constructor; lia|].
  destruct (Z.eqb_spec (b / 64) 1).
  { destruct (rioRead_split upd c0 r1 (h ++ [b]) v 1 Hr1) as [(r2 & E2 & _)|(r2 & t & w & -> & Ht2 & E2 & Hr2)];
      [lia|rewrite E2; run; by eexists _, None|].
    destruct (zlen_one t Ht2) as [c ->]. apply (Hgood [b; c] w false ((b - 64) * 256 + c) eq_refl). constructor; [lia|]. by inversion Hv. }
  destruct (Z.eqb_spec b RDB_32BITLEN) as [->|].
  { destruct (rioRead_split upd c0 r1 (h ++ [RDB_32BITLEN]) v 4 Hr1) as [(r2 & E2 & _)|(r2 & t & w & -> & Ht2 & E2 & Hr2)];
      [lia|rewrite E2; run; by eexists _, None|].
    apply (Hgood (RDB_32BITLEN :: t) w false (be_dec t) eq_refl). constructor; [by apply Forall_app in Hv as [? _]|done]. }
  destruct (Z.eqb_spec b RDB_64BITLEN) as [->|].
  { destruct (rioRead_split upd c0 r1 (h ++ [RDB_64BITLEN]) v 8 Hr1) as [(r2 & E2 & _)|(r2 & t & w & -> & Ht2 & E2 & Hr2)];
      [lia|rewrite E2; run; by eexists _, None|].
    apply (Hgood (RDB_64BITLEN :: t) w false (be_dec t) eq_refl). constructor; [by apply Forall_app in Hv as [? _]|done]. }
  unfold rdbReportCorruptRDB, rdbReportError. rewrite Hl. run. by eexists _, None.
Qed.

End loading.
End RdbLen.
