(* ===== verification/RdbInt.v ===== *)
(** The dump format: numbers. *)
From S2P Require Import Prelude Endianconv Util Sds SdsRep SdsOps SdsText Object ObjectSpec Rio RioSpec Rdb RdbLen.
Import Util Sds SdsRep SdsOps SdsText Object ObjectSpec Rio RioSpec Rdb RdbLen.

Module RdbInt.

(** The bytes that stand for a number of at most 32 bits. *)
Definition int_bytes (v : Z) : option (list Z) :=
  if (- 2 ^ 7 <=? v) && (v <? 2 ^ 7) then Some (192 :: le_enc 1 v)
  else if (- 2 ^ 15 <=? v) && (v <? 2 ^ 15) then Some (193 :: le_enc 2 v)
  else if (- 2 ^ 31 <=? v) && (v <? 2 ^ 31) then Some (194 :: le_enc 4 v)
  else None.

Lemma int_bytes_ok v t : int_bytes v = Some t → bytes_ok t ∧ 2 <= zlen t <= 5.
Proof.
  unfold int_bytes. repeat case_cond; intros [= <-];
    (split; [constructor; [by unfold is_byte|apply (le_enc_bytes _ v)]|by vm_compute]).
Qed.

Lemma zlen_dec_32 v t : int_bytes v = Some t → zlen (dec v) <= 11.
Proof.
  intros Hv. assert (- 2 ^ 31 <= v < 2 ^ 31) as Hr by (revert Hv; unfold int_bytes; repeat case_cond; to_prop; [lia..|done]).
  assert (∀ w, 0 <= w < 10 ^ 10 → zlen (udec w) <= 10) as Hu.
  { intros w Hw. unfold udec. rewrite (udec_n_enough 20 10) by lia. apply (udec_n_max 10). }
  unfold dec. case_cond; to_prop; zlr; [pose proof (Hu (- v))|pose proof (Hu v)]; lia.
Qed.

Lemma shiftr_byte v k : 0 <= k → Z.land (Z.shiftr v k) 0xFF = (v / 2 ^ k) mod 256.
Proof. intros Hk. by rewrite land_255, Z.shiftr_div_pow2. Qed.

Lemma rdbEncodeInteger_spec v enc : int64 v → 5 <= zlen enc →
  ∃ enc', rdbEncodeInteger v enc = Ret (enc', default 0 (zlen <$> int_bytes v)) ∧
    match int_bytes v with Some t => ∃ rest, enc' = t ++ rest | None => enc' = enc end.
Proof.
  intros Hv He. destruct enc as [|x0 [|x1 [|x2 [|x3 [|x4 enc]]]]]; zlr; try lia. clear He. unfold rdbEncodeInteger, int_bytes.
  replace ((- Z.shiftl 1 7 <=? v) && (v <=? Z.shiftl 1 7 - 1)) with ((- 2 ^ 7 <=? v) && (v <? 2 ^ 7)) by (change (Z.shiftl 1 7) with 128; lia).
  replace ((- Z.shiftl 1 15 <=? v) && (v <=? Z.shiftl 1 15 - 1)) with ((- 2 ^ 15 <=? v) && (v <? 2 ^ 15)) by (change (Z.shiftl 1 15) with 32768; lia).
  replace ((- Z.shiftl 1 31 <=? v) && (v <=? Z.shiftl 1 31 - 1)) with ((- 2 ^ 31 <=? v) && (v <? 2 ^ 31)) by (change (Z.shiftl 1 31) with 2147483648; lia).
  rewrite !shiftr_byte, land_255 by lia. change (2 ^ 8) with 256. change (2 ^ 16) with (256 * 256). change (2 ^ 24) with (256 * 256 * 256).
  rewrite <- !Z.div_div by lia.
  assert (∀ w, is_byte (w mod 256)) as Hb by (intros w; unfold is_byte; dm w 256; lia).
  repeat case_cond.
  - rewrite (wr_at _ _ 192 [] x0 (x1 :: x2 :: x3 :: x4 :: enc)) by done. run.
    rewrite (wr_at _ _ (v mod 256) [192] x1 (x2 :: x3 :: x4 :: enc)) by done. run. eexists. split; [done|]. by eexists.
  - rewrite (wr_at _ _ 193 [] x0 (x1 :: x2 :: x3 :: x4 :: enc)) by done. run.
    rewrite (wr_at _ _ (v mod 256) [193] x1 (x2 :: x3 :: x4 :: enc)) by done. run.
    rewrite (wr_at _ _ (v / 256 mod 256) [193; v mod 256] x2 (x3 :: x4 :: enc)) by done. run. eexists. split; [done|]. by eexists.
  - rewrite (wr_at _ _ 194 [] x0 (x1 :: x2 :: x3 :: x4 :: enc)) by done. run.
    rewrite (wr_at _ _ (v mod 256) [194] x1 (x2 :: x3 :: x4 :: enc)) by done. run.
    rewrite (wr_at _ _ (v / 256 mod 256) [194; v mod 256] x2 (x3 :: x4 :: enc)) by done. run.
    rewrite (wr_at _ _ (v / 256 / 256 mod 256) [194; v mod 256; v / 256 mod 256] x3 (x4 :: enc)) by done. run.
    rewrite (wr_at _ _ (v / 256 / 256 / 256 mod 256) [194; v mod 256; v / 256 mod 256; v / 256 / 256 mod 256] x4 enc) by done. run.
    eexists. split; [done|]. by eexists.
  - by eexists.
Qed.

(** * [strtoll] *)

Lemma scan_digits_end l r acc n : ∃ v k, scan_digits (l ++ 0 :: r) acc n = Ret (v, n + k) ∧ 0 <= k <= zlen l.
Proof.
  revert acc n. induction l as [|c l IH]; intros acc n; cbn [scan_digits app].
  { exists acc, 0. split; [do 2 f_equal; lia|done]. }
  case_cond; [|exists acc, 0; split; [do 2 f_equal; lia|zlr; pose proof (zlen_nonneg l); lia]].
  destruct (IH (acc * 10 + (c - 48)) (n + 1)) as (v & k & -> & Hk). exists v, (k + 1). zlr. split; [do 2 f_equal; lia|lia].
Qed.

Lemma scan_digits_all ds r acc n :
  Forall is_digit ds → scan_digits (ds ++ 0 :: r) acc n = Ret (dval acc ds, n + zlen ds).
Proof.
  intros Hd. revert acc n. induction Hd as [|c ds Hc _ IH]; intros acc n; cbn [scan_digits app].
  { do 2 f_equal. change (zlen (@nil Z)) with 0. lia. }
  unfold is_digit in Hc. test ((48 <=? c) && (c <=? 57)) true. rewrite IH. unfold dval. cbn [fold_left]. zlr. do 2 f_equal. lia.
Qed.

Lemma skip_spaces_end l r i : ∃ a b, l = a ++ b ∧ skip_spaces (l ++ 0 :: r) i = Ret (b ++ 0 :: r, i + zlen a).
Proof.
  revert i. induction l as [|c l IH]; intros i; cbn [skip_spaces app].
  { exists [], []. split; [done|]. do 2 f_equal. change (zlen (@nil Z)) with 0. lia. }
  destruct (isspace c).
  - destruct (IH (i + 1)) as (a & b & -> & ->). exists (c :: a), b. split; [done|]. zlr. do 2 f_equal. lia.
  - exists [], (c :: l). split; [done|]. do 2 f_equal. change (zlen (@nil Z)) with 0. lia.
Qed.

(** It stops inside the string. *)
Lemma strtoll_end l r : ∃ v e, strtoll (l ++ 0 :: r) = Ret (v, e) ∧ 0 <= e <= zlen l ∧ int64 v.
Proof.
  unfold strtoll. destruct (skip_spaces_end l r 0) as (a & b & -> & ->). run.
  assert (∀ neg b' j, 0 <= j → zlen (a ++ b) = j + zlen b' →
    ∃ v e, ('(v, n) ← scan_digits (b' ++ 0 :: r) 0 0;
       if n =? 0 then Ret (0, 0)
       else Ret (Z.max LLONG_MIN (Z.min LLONG_MAX (if neg : bool then - v else v)), j + n)) = Ret (v, e) ∧
     0 <= e <= zlen (a ++ b) ∧ int64 v) as Hgo.
  { intros neg b' j Hj Hz. destruct (scan_digits_end b' r 0 0) as (v & k & -> & Hk). run.
    unfold int64, LLONG_MIN, LLONG_MAX in *. pose proof (zlen_nonneg (a ++ b)).
    case_cond; eexists _, _; (split; [done|]); lia. }
  zlr. pose proof (zlen_nonneg a). destruct b as [|c b]; cbn [app].
  - apply (Hgo false []); [lia|zlr; lia].
  - destruct (c =? 45); [apply (Hgo true b); [lia|zlr; lia]|].
    destruct (c =? 43); [apply (Hgo false b); [lia|zlr; lia]|]. apply (Hgo false (c :: b)); [lia|zlr; lia].
Qed.

Lemma udec_dval0 v : 0 <= v < 10 ^ 20 → dval 0 (udec v) = v ∧ Forall is_digit (udec v).
Proof.
  intros Hv. destruct (decide (v = 0)) as [->|]; [split; [done|]; by repeat constructor|].
  destruct (udec_inv v) as (c & ds & -> & Hc & Hd & E); [lia|]. split; [exact E|]. constructor; [unfold is_digit; lia|done].
Qed.

Lemma strtoll_dec v r : int64 v → strtoll (dec v ++ 0 :: r) = Ret (v, zlen (dec v)).
Proof.
  intros Hv. pose proof (zlen_dec_bounds v Hv) as Hz. unfold int64, LLONG_MIN, LLONG_MAX in Hv.
  unfold strtoll, dec in *. destruct (Z.ltb_spec v 0).
  - cbn [app skip_spaces]. change (isspace 45) with false. cbv iota. run. change (45 =? 45) with true. cbv iota.
    destruct (udec_dval0 (- v)) as [E Hd]; [lia|]. rewrite scan_digits_all by done. run. rewrite E. zlr.
    pose proof (udec_bounds (- v) ltac:(lia)).
    test (0 + zlen (udec (- v)) =? 0) false. unfold LLONG_MIN, LLONG_MAX. do 2 f_equal; lia.
  - destruct (udec_dval0 v) as [E Hd]; [lia|]. destruct (udec v) as [|c ds] eqn:Eu; [zlr; lia|].
    assert (is_digit c) as Hc by by inversion Hd. unfold is_digit in Hc. cbn [app skip_spaces].
    assert (isspace c = false) as -> by (unfold isspace; lia). run. test (c =? 45) false. test (c =? 43) false.
    change (c :: ds ++ 0 :: r) with ((c :: ds) ++ 0 :: r). rewrite scan_digits_all by done. run. rewrite E.
    test (0 + zlen (c :: ds) =? 0) false. unfold LLONG_MIN, LLONG_MAX. do 2 f_equal; lia.
Qed.

(** * Saving numbers *)

Section saving.
Context {A : Allocator} {L : AllocatorLaws A}.

(** Exactly the decimal forms of the numbers of 32 bits are encoded. *)
Lemma tryInteger_spec bs r enc :
  5 <= zlen enc →
  ∃ enc' k, rdbTryIntegerEncoding (bs ++ 0 :: r) (zlen bs) enc = Ret (enc', k) ∧
    ((k = 0 ∧ ∀ v t, int_bytes v = Some t → bs ≠ dec v) ∨
     ∃ v t rest, bs = dec v ∧ int_bytes v = Some t ∧ enc' = t ++ rest ∧ k = zlen t).
Proof.
  intros He. unfold rdbTryIntegerEncoding.
  assert (∀ v t, int_bytes v = Some t → int64 v) as Hi.
  { intros v t. unfold int_bytes, int64, LLONG_MIN, LLONG_MAX. repeat case_cond; to_prop; [lia..|done]. }
  destruct (strtoll_end bs r) as (v & e & Es & Hen & Hv). rewrite Es. run.
  destruct (rd_ok (bs ++ 0 :: r) e) as (c & Ec & _); [zlr; pose proof (zlen_nonneg r); lia|]. rewrite Ec. run.
  assert (∀ w, int64 w → bs = dec w → c = 0 ∧ v = w) as Hdec.
  { intros w Hw ->. rewrite strtoll_dec in Es by done. injection Es as <- <-. rewrite (rd_app _ 0 r) in Ec by done. by injection Ec. }
  destruct (Z.eqb_spec c 0) as [->|Hc]; cbn [negb].
  2: { exists enc, 0. split; [done|]. left. split; [done|]. intros w t Hw ->. by destruct (Hdec w (Hi _ _ Hw)). }
  pose proof (zlen_dec_bounds v Hv). rewrite ll2string_spec by (done || (unfold zlen; rewrite junk_length; lia)).
  test (zlen (dec v) <? 32) true. run. rewrite strlen_app by apply dec_no_nul. run.
  destruct (Z.eqb_spec (zlen (dec v)) (zlen bs)) as [El|El]; cbn [negb].
  2: { exists enc, 0. split; [done|]. left. split; [done|]. intros w t Hw ->. destruct (Hdec w (Hi _ _ Hw)) as [_ ->]; done. }
  rewrite (rdn_app0 (dec v)), (rdn_app0 bs) by done. run.
  rewrite memcmp_eq by done. destruct (bool_decide_reflect (dec v = bs)) as [Em|Em]; cbn [negb].
  2: { exists enc, 0. split; [done|]. left. split; [done|]. intros w t Hw ->. destruct (Hdec w (Hi _ _ Hw)) as [_ ->]; done. }
  subst bs.
  destruct (rdbEncodeInteger_spec v enc Hv He) as (enc' & -> & Henc). eexists _, _. split; [done|].
  destruct (int_bytes v) as [t|] eqn:Et; cbn [fmap option_fmap option_map default].
  - right. destruct Henc as [rest ->]. by exists v, t, rest.
  - left. split; [done|]. intros w t Hw Ed. apply dec_inj in Ed as ->; [congruence|done|by eapply Hi].
Qed.

End saving.
End RdbInt.
