(* ===== verification/RdbSave.v ===== *)
(** The dump format: what is written for a string. *)
From S2P Require Import Prelude Endianconv Util Sds SdsRep SdsOps SdsText Lzf LzfFormat LzfCompress LzfFrame.
From S2P Require Import Object ObjectSpec Rio RioSpec Rdb RdbLen RdbInt.
Import Util Sds SdsRep SdsOps SdsText LzfFormat Object ObjectSpec Rio RioSpec Rdb RdbLen RdbInt.

Module RdbSave.

(** [saved_form t bs]: [t] is written for the string [bs]: the number it is the
    decimal form of, or the string as it is, or, if it has more than 20 bytes
    and compression is on, bytes that decompress to it. *)
Definition no_number (bs : list Z) : Prop := ∀ v t, int_bytes v = Some t → bs ≠ dec v.

Definition lzf_form (t C bs : list Z) : Prop :=
  t = 195 :: len_bytes (zlen C) ++ len_bytes (zlen bs) ++ C ∧ bytes_ok C ∧ 0 < zlen C <= zlen bs - 4 ∧
  expands C [] (take (Z.to_nat (u32 (zlen bs))) bs).

Definition saved_form {G : RdbServer} (t bs : list Z) : Prop :=
  (∃ v, bs = dec v ∧ int_bytes v = Some t) ∨
  no_number bs ∧
    (t = len_bytes (zlen bs) ++ bs ∨ rdb_compression = true ∧ 20 < zlen bs ∧ ∃ C, lzf_form t C bs).

(** A length that is one more than a multiple of 2^32 is cut to one byte, for
    which compression seems to pay. *)
Definition squeezed {G : RdbServer} (t bs : list Z) : Prop :=
  rdb_compression = true → 20 < zlen bs → u32 (zlen bs) = 1 → ∃ C, lzf_form t C bs.

Section saving.
Context {H : HostOrder} {A : Allocator} {L : AllocatorLaws A} {N : ObjAlloc} {V : Server} {G : RdbServer}.
Context {T : Type} {B : Backend T} {W : WriteLaws B} (upd : Z → Z → Z) (c0 : Z) (pre : list Z).

Lemma room_less h n m : room pre h n → m <= n → room pre h m.
Proof. unfold room. lia. Qed.

Lemma not_minus_one n : 0 <= n → (n =? -1) = false.
Proof. lia. Qed.

(** The string as it is, or nothing for the empty one. *)
Lemma save_verbatim c rdb h bs rest :
  saved upd c0 pre c rdb h → bytes_ok bs → room pre h (zlen bs + 32) →
  ∃ rdb', ('(rdb, n) ← rdbSaveLen rdb (zlen bs);
      if n =? -1 then Ret (rdb, -1)
      else
        let nwritten := n in
        if 0 <? zlen bs then
          '(rdb, n) ← rdbWriteRaw rdb (bs ++ rest) (zlen bs);
          if n =? -1 then Ret (rdb, -1) else Ret (rdb, nwritten + s64 (zlen bs))
        else Ret (rdb, nwritten)) = Ret (rdb', zlen (len_bytes (zlen bs) ++ bs)) ∧
    saved upd c0 pre c rdb' (h ++ len_bytes (zlen bs) ++ bs).
Proof.
  intros Hs Hb Hr. unfold room in Hr. pose proof (zlen_nonneg bs). pose proof (zlen_nonneg pre). pose proof (zlen_nonneg h).
  destruct (len_bytes_ok (zlen bs)) as [_ Hl]; [lia|].
  destruct (saveLen_spec upd c0 pre c rdb h (zlen bs) Hs) as (r1 & -> & Hs1); [lia|unfold room; lia|]. run.
  rewrite not_minus_one by lia. cbv zeta. case_cond; to_prop.
  - destruct (writeRaw_spec upd c0 pre c r1 _ bs rest (zlen bs) Hs1 Hb eq_refl) as (r2 & -> & Hs2); [unfold room; zlr; lia|]. run.
    rewrite not_minus_one, wraps_id by (simpl; lia). exists r2. rewrite <- app_assoc in Hs2. split; [|done]. by zlr.
  - exists r1. assert (bs = []) as -> by (apply zlen_zero; lia). by rewrite app_nil_r.
Qed.

Lemma saveLzfBlob_spec c rdb h C rest n :
  saved upd c0 pre c rdb h → bytes_ok C → 0 <= n < 2 ^ 64 → room pre h (zlen C + 64) →
  ∃ rdb', rdbSaveLzfBlob rdb (C ++ rest) (zlen C) n = Ret (rdb', zlen (195 :: len_bytes (zlen C) ++ len_bytes n ++ C)) ∧
    saved upd c0 pre c rdb' (h ++ 195 :: len_bytes (zlen C) ++ len_bytes n ++ C).
Proof.
  intros Hs Hb Hn Hr. unfold room in Hr. pose proof (zlen_nonneg C). pose proof (zlen_nonneg pre). pose proof (zlen_nonneg h).
  destruct (len_bytes_ok (zlen C)) as [_ HlC]; [lia|]. destruct (len_bytes_ok n Hn) as [_ Hln]. unfold rdbSaveLzfBlob.
  change (Z.lor (Z.shiftl RDB_ENCVAL 6) RDB_ENC_LZF) with 195.
  destruct (writeRaw_all upd c0 pre c rdb h [195] 1 Hs) as (r1 & -> & Hs1); [by repeat constructor|done|unfold room; lia|]. run.
  change (1 =? -1) with false. cbv iota zeta.
  destruct (saveLen_spec upd c0 pre c r1 _ (zlen C) Hs1) as (r2 & -> & Hs2); [lia|unfold room; zlr; lia|]. run.
  rewrite not_minus_one by lia.
  destruct (saveLen_spec upd c0 pre c r2 _ n Hs2) as (r3 & -> & Hs3); [lia|unfold room; zlr; lia|]. run.
  rewrite not_minus_one by lia.
  destruct (writeRaw_spec upd c0 pre c r3 _ C rest (zlen C) Hs3 Hb eq_refl) as (r4 & -> & Hs4); [unfold room; zlr; lia|]. run.
  rewrite not_minus_one by lia. exists r4. split; [zlr; do 2 f_equal; lia|]. revert Hs4. by rewrite <- !app_assoc.
Qed.

(** Compression: nothing is written when it does not pay. *)
Lemma saveLzfString_spec c rdb h bs rest htab :
  saved upd c0 pre c rdb h → bytes_ok bs → LzfCompress.table_ok htab → 4 < zlen bs → room pre h (zlen bs + 64) →
  ∃ rdb' n, rdbSaveLzfStringObject htab rdb (bs ++ rest) (zlen bs) = Ret (rdb', n) ∧
    (n = 0 ∧ saved upd c0 pre c rdb' h ∧ u32 (zlen bs) ≠ 1 ∨
     ∃ t C, lzf_form t C bs ∧ n = zlen t ∧ saved upd c0 pre c rdb' (h ++ t)).
Proof.
  intros Hs Hb Ht H4 Hr. pose proof Hr as Hr'. unfold room in Hr'. pose proof (zlen_nonneg pre). pose proof (zlen_nonneg h).
  unfold rdbSaveLzfStringObject. test (zlen bs <=? 4) false. cbv zeta. rewrite (wrapu_id 64) by lia.
  destruct (LzfFrame.compress_cut bs rest (zmalloc (zlen bs - 4 + 1)) htab Hb Ht H4) as (out & n & -> & Hn).
  { unfold zmalloc, zlen in *. rewrite junk_length. lia. }
  run. destruct Hn as [[-> Hu1]|(C & R & -> & HC & Hn & HbC & HE)]; [exists rdb, 0; by auto|].
  rewrite (proj2 (Z.eqb_neq n 0)) by lia. rewrite <- HC.
  destruct (saveLzfBlob_spec c rdb h C R (zlen bs) Hs HbC) as (rdb' & -> & Hs'); [lia|eapply room_less; [done|lia]|].
  eexists _, _. split; [done|]. right. eexists _, C. split; [|by split]. split_and!; [done|done|lia|lia|done].
Qed.

Lemma saveRawString_spec c rdb h bs r htab :
  saved upd c0 pre c rdb h → bytes_ok bs → LzfCompress.table_ok htab → room pre h (zlen bs + 64) →
  ∃ rdb' t, rdbSaveRawString htab rdb (bs ++ 0 :: r) (zlen bs) = Ret (rdb', zlen t) ∧
    saved upd c0 pre c rdb' (h ++ t) ∧ saved_form t bs ∧ squeezed t bs.
Proof.
  intros Hs Hb Ht Hr. pose proof Hr as Hr'. unfold room in Hr'. pose proof (zlen_nonneg pre). pose proof (zlen_nonneg h).
  unfold rdbSaveRawString.
  assert (∃ buf k, (if zlen bs <=? 11 then rdbTryIntegerEncoding (bs ++ 0 :: r) (zlen bs) (junk 5) else Ret ([], 0)) = Ret (buf, k) ∧
    (k = 0 ∧ no_number bs ∨ ∃ v t rest, bs = dec v ∧ int_bytes v = Some t ∧ buf = t ++ rest ∧ k = zlen t)) as (buf & k & -> & Hk).
  { case_cond; to_prop; [apply tryInteger_spec; unfold zlen; rewrite junk_length; lia|]. exists [], 0. split; [done|]. left.
    split; [done|]. intros v t Hv ->. pose proof (zlen_dec_32 v t Hv). lia. }
  run. destruct Hk as [[-> Hno]|(v & t & rest & -> & Hv & -> & ->)].
  2: { destruct (int_bytes_ok v t Hv) as [Hbt Hzt]. pose proof (zlen_nonneg (dec v)). test (0 <? zlen t) true.
       destruct (writeRaw_spec upd c0 pre c rdb h t rest (zlen t) Hs Hbt eq_refl) as (rdb' & -> & Hs'); [eapply room_less; [done|lia]|]. run.
       rewrite not_minus_one by lia. exists rdb', t. split_and!; [done..|left; by exists v|]. intros _ H20. pose proof (zlen_dec_32 v t Hv). lia. }
  change (0 <? 0) with false. cbv iota.
  assert (∃ rdb1 n, (if rdb_compression && (20 <? zlen bs) then rdbSaveLzfStringObject htab rdb (bs ++ 0 :: r) (zlen bs) else Ret (rdb, 0)) =
    Ret (rdb1, n) ∧ (n = 0 ∧ saved upd c0 pre c rdb1 h ∧ (rdb_compression = true → 20 < zlen bs → u32 (zlen bs) ≠ 1) ∨
      rdb_compression = true ∧ 20 < zlen bs ∧ ∃ t C, lzf_form t C bs ∧ n = zlen t ∧ saved upd c0 pre c rdb1 (h ++ t))) as (rdb1 & n & -> & Hn).
  { destruct (rdb_compression && (20 <? zlen bs)) eqn:Ec.
    2: { exists rdb, 0. split; [done|]. left. split_and!; [done..|]. intros Hc H20. rewrite Hc in Ec. cbn [andb] in Ec. lia. }
    to_prop. destruct (saveLzfString_spec c rdb h bs (0 :: r) htab Hs Hb Ht) as (rdb1 & n & E & Hn); [lia|done|].
    exists rdb1, n. split; [done|]. destruct Hn as [(? & ? & ?)|Hn]; [by left|right]. by split_and!; [..|lia|]. }
  run. destruct Hn as [(-> & Hs1 & Hu1)|(Hc & H20 & t & C & Hf & -> & Hs1)].
  - change (0 =? -1) with false. change (0 <? 0) with false. cbv iota.
    destruct (save_verbatim c rdb1 h bs (0 :: r) Hs1 Hb) as (rdb2 & E & Hs2); [eapply room_less; [done|lia]|]. cbv zeta in E. rewrite E.
    eexists _, _. split; [done|]. split; [done|]. split; [right; split; [done|]; by left|]. intros ? ? ?. by destruct Hu1.
  - assert (0 < zlen t) by (destruct Hf as [-> _]; zlr; pose proof (zlen_nonneg (len_bytes (zlen C) ++ len_bytes (zlen bs) ++ C)); zlr; lia).
    rewrite not_minus_one by lia. test (0 <? zlen t) true. exists rdb1, t.
    split_and!; [done..| |intros _ _ _; eauto]. right. split; [done|]. right. eauto.
Qed.

Lemma int_bytes_none v : int64 v → int_bytes v = None → no_number (dec v).
Proof.
  intros Hv Hn w t Hw E. apply dec_inj in E as ->; [congruence|done|].
  revert Hw. unfold int_bytes, int64, LLONG_MIN, LLONG_MAX. repeat case_cond; to_prop; [lia..|done].
Qed.

Lemma saveLongLong_spec c rdb h v :
  saved upd c0 pre c rdb h → int64 v → room pre h 100 →
  ∃ rdb' t, rdbSaveLongLongAsStringObject rdb v = Ret (rdb', zlen t) ∧
    saved upd c0 pre c rdb' (h ++ t) ∧ saved_form t (dec v).
Proof.
  intros Hs Hv Hr. pose proof Hr as Hr'. unfold room in Hr'. pose proof (zlen_nonneg pre). pose proof (zlen_nonneg h).
  pose proof (zlen_dec_bounds v Hv) as Hd. unfold rdbSaveLongLongAsStringObject.
  destruct (rdbEncodeInteger_spec v (junk 32) Hv) as (buf & -> & Hbuf); [unfold zlen; rewrite junk_length; lia|]. run.
  destruct (int_bytes v) as [t|] eqn:Et.
  - change (default 0 (zlen <$> Some t)) with (zlen t). destruct Hbuf as [rest ->]. destruct (int_bytes_ok v t Et) as [Hbt Hzt]. test (0 <? zlen t) true.
    destruct (writeRaw_spec upd c0 pre c rdb h t rest (zlen t) Hs Hbt eq_refl) as (rdb' & -> & Hs'); [eapply room_less; [done|lia]|].
    exists rdb', t. split_and!; [done..|]. left. by exists v.
  - subst buf. change (0 <? default 0 (zlen <$> @None (list Z))) with false. cbv iota.
    rewrite ll2string_spec by (done || (unfold zlen; rewrite junk_length; lia)). test (zlen (dec v) <? 32) true. run.
    rewrite c_assert_true by lia. run.
    destruct (len_bytes_ok (zlen (dec v))) as [_ Hl]; [lia|].
    destruct (saveLen_spec upd c0 pre c rdb h (zlen (dec v)) Hs) as (r1 & -> & Hs1); [lia|unfold room; lia|]. run.
    rewrite not_minus_one by lia. cbv zeta.
    destruct (writeRaw_spec upd c0 pre c r1 _ (dec v) (0 :: drop (length (dec v) + 1) (junk 32)) (zlen (dec v)) Hs1 (dec_bytes v) eq_refl)
      as (r2 & -> & Hs2); [unfold room; zlr; lia|]. run. rewrite not_minus_one by lia.
    exists r2, (len_bytes (zlen (dec v)) ++ dec v). rewrite <- app_assoc in Hs2. split_and!; [by zlr|done|]. right.
    split; [by apply int_bytes_none|by left].
Qed.

Lemma saveStringObject_spec c rdb h hp o bs htab :
  saved upd c0 pre c rdb h → string_obj hp o bs → bytes_ok bs → LzfCompress.table_ok htab →
  room pre h (zlen bs + 100) →
  ∃ rdb' t, rdbSaveStringObject htab hp rdb o = Ret (rdb', zlen t) ∧
    saved upd c0 pre c rdb' (h ++ t) ∧ saved_form t bs ∧ squeezed t bs.
Proof.
  intros Hs (ob & Ho & Hh) Hb Ht Hr. unfold rdbSaveStringObject, deref. rewrite Ho. run.
  pose proof (zlen_nonneg bs). destruct (sdsEncodedObject ob) eqn:He.
  - destruct (holds_sds _ _ Hh He) as (s & Es & Hrep).
    assert ((encoding ob =? OBJ_ENCODING_INT) = false) as -> by (by destruct Hh).
    rewrite c_assert_true by done. run. rewrite Es. cbn [as_sds]. run. rewrite (rep_len _ _ Hrep). run.
    destruct (sds_rep_tail _ _ Hrep) as [free Ef]. unfold sds_block. rewrite Ef.
    apply saveRawString_spec; [done..|eapply room_less; [done|lia]].
  - destruct (holds_num _ _ Hh He) as (v & Ev & Hv & -> & Een). rewrite Een, Ev. change (OBJ_ENCODING_INT =? OBJ_ENCODING_INT) with true.
    cbn [as_long]. run. destruct (saveLongLong_spec c rdb h v Hs Hv) as (rdb' & t & E & Hs' & Hf); [eapply room_less; [done|lia]|].
    exists rdb', t. split_and!; [done..|]. intros _ H20. pose proof (zlen_dec_20 v Hv). lia.
Qed.

Lemma bulkObject_spec r h hp o bs :
  writing upd c0 pre r h → string_obj hp o bs → bytes_ok bs → zlen pre + zlen h < 2 ^ 59 → zlen bs < 2 ^ 59 →
  ∃ r', rioWriteBulkObject hp r o = Ret (r', s32 (zlen (bulk_string bs))) ∧ writing upd c0 pre r' (h ++ bulk_string bs).
Proof.
  intros Hw (ob & Ho & Hh) Hb Hn Hl. unfold rioWriteBulkObject, deref. rewrite Ho. run. pose proof (zlen_nonneg bs).
  assert (int64 (zlen bs)) as Hi by (unfold int64, LLONG_MIN, LLONG_MAX; lia). pose proof (zlen_dec_bounds _ Hi).
  destruct (sdsEncodedObject ob) eqn:He.
  - destruct (holds_sds _ _ Hh He) as (s & Es & Hrep).
    assert ((encoding ob =? OBJ_ENCODING_INT) = false) as -> by (by destruct Hh).
    rewrite Es. cbn [as_sds]. run. rewrite (rep_len _ _ Hrep). run.
    destruct (sds_rep_tail _ _ Hrep) as [free Ef]. unfold sds_block. rewrite Ef.
    destruct (rioWriteBulkString_spec upd c0 pre r h bs (0 :: free) (zlen bs) Hw Hb eq_refl) as (r' & -> & Hw'); [lia|]. run.
    by exists r'.
  - destruct (holds_num _ _ Hh He) as (v & Ev & Hv & -> & Een). rewrite Een, Ev. change (OBJ_ENCODING_INT =? OBJ_ENCODING_INT) with true.
    cbn [as_long]. run. destruct (rioWriteBulkLongLong_spec upd c0 pre r h v Hw Hv) as (r' & -> & Hw'); [lia|]. run.
    by exists r'.
Qed.

End saving.
End RdbSave.
