(* ===== verification/RdbLoad.v ===== *)
(** The dump format: what is loaded from any bytes. *)
From stdpp Require Import gmap.
From S2P Require Import Prelude Endianconv Util Sds SdsRep SdsOps SdsText Lzf LzfFormat LzfSpec.
From S2P Require Import Object ObjectSpec Rio RioSpec Rdb RdbLen RdbInt RdbSave.
Import Util Sds SdsRep SdsOps SdsText LzfFormat Object ObjectSpec Rio RioSpec Rdb RdbLen RdbInt RdbSave.

Module RdbLoad.

(** The bytes a compressed string stands for; an empty one is not looked at,
    since 0 is also what [lzf_decompress] returns on error. *)
Definition lzf_holds (c bs : list Z) : Prop :=
  zlen bs < 2 ^ 32 ∧ (bs = [] ∨ expands (take (Z.to_nat (u32 (zlen c))) c) [] bs).

(** [string_form t bs]: the bytes [t] are read as the string [bs]. *)
Inductive string_form : list Z → list Z → Prop :=
| form_int e k t : e = 0 ∧ k = 1 ∨ e = 1 ∧ k = 2 ∨ e = 2 ∧ k = 4 → bytes_ok t → zlen t = k →
    string_form ((192 + e) :: t) (dec (wraps (8 * k) (le_dec t)))
| form_lzf t1 e1 t2 e2 c bs : len_form t1 e1 (zlen c) → len_form t2 e2 (zlen bs) → bytes_ok c →
    lzf_holds c bs → string_form (195 :: t1 ++ t2 ++ c) bs
| form_raw t bs : len_form t false (zlen bs) → bytes_ok bs → string_form (t ++ bs) bs.

(** No allocation of 2^62 bytes or more succeeds. *)
Class TryLaws (A : Allocator) : Prop := try_bound : ∀ n, try_ok n = true → n < 2 ^ 62.

(** Allocations of up to [k] bytes succeed. *)
Definition avail {A : Allocator} (k : Z) : Prop := ∀ m, 0 <= m <= k → try_ok m = true.

Section loading.
Context {H : HostOrder} {A : Allocator} {L : AllocatorLaws A} {TL : TryLaws A}.
Context {N : ObjAlloc} {NL : ObjAllocLaws N} {V : Server} {G : RdbServer}.
Context {T : Type} {B : Backend T} {R : ReadLaws B} (upd : Z → Z → Z) (c0 : Z).

(** A result that holds the bytes, of the kind the flags ask for. *)
Definition loads (hp : heap) (flags : Z) (l : loaded) (bs : list Z) : Prop :=
  let plain := is_flag flags RDB_LOAD_PLAIN in
  let sds := is_flag flags RDB_LOAD_SDS in
  match l with
  | L_NULL => False
  | L_PLAIN b => plain = true ∧ b = bs
  | L_SDS s => plain = false ∧ sds = true ∧ rep s bs
  | L_OBJ o => plain = false ∧ sds = false ∧ string_obj hp o bs
  end.

(** The outcome of a load from a stream with the bytes [u] left: null, with
    [why], or what the bytes at the start of [u] stand for according to [form]. *)
Definition outcome_ok (hp : heap) (flags : Z) (h u : list Z) (form : list Z → list Z → Prop) (why : Prop)
    (m : outcome (load_result (T := T))) : Prop :=
  ∃ hp' r' l lp, m = Ret (hp', r', l, lp) ∧
    (l = L_NULL ∧ hp' = hp ∧ why ∨
     ∃ t v bs, u = t ++ v ∧ form t bs ∧ loads hp' flags l bs ∧ hp ⊆ hp' ∧ reading upd c0 r' (h ++ t) v ∧
       (is_flag flags RDB_LOAD_PLAIN || is_flag flags RDB_LOAD_SDS = true → lp = Some (zlen bs))).

Lemma outcome_weaken hp flags h u form form' why why' m :
  outcome_ok hp flags h u form why m → (∀ t v bs, u = t ++ v → form t bs → form' t bs) → (why → why') →
  outcome_ok hp flags h u form' why' m.
Proof.
  intros (hp' & r' & l & lp & E & Ho) Hf Hw. exists hp', r', l, lp. split; [done|].
  destruct Ho as [(? & ? & ?)|(t & v & bs & Eu & Ht & ?)]; [left; auto|right]. exists t, v, bs. split; [done|]. split; [by eapply Hf|done].
Qed.

(** What has been read before [u] is part of the form. *)
Lemma outcome_after hp flags h a u form form' why m :
  outcome_ok hp flags (h ++ a) u form why m → (∀ t bs, form t bs → form' (a ++ t) bs) →
  outcome_ok hp flags h (a ++ u) form' why m.
Proof.
  intros (hp' & r' & l & lp & E & Ho) Hf. exists hp', r', l, lp. split; [done|].
  destruct Ho as [?|(t & v & bs & -> & Ht & Hl & Hs & Hr & Hp)]; [by left|right]. exists (a ++ t), v, bs.
  split; [by rewrite app_assoc|]. split; [by apply Hf|]. split_and!; [done..| |done]. by rewrite app_assoc.
Qed.

Lemma loads_obj hp flags o bs :
  is_flag flags RDB_LOAD_PLAIN || is_flag flags RDB_LOAD_SDS = false → string_obj hp o bs → loads hp flags (L_OBJ o) bs.
Proof. intros [? ?]%orb_false_iff ?. done. Qed.

(** * Memory *)

Lemma rep_write_part s b1 b2 t :
  rep s (b1 ++ b2) → zlen t = zlen b1 → ∃ s', s_wrn s 0 t = Ret s' ∧ rep s' (t ++ b2).
Proof.
  intros (ty & a & f & Hat & Hc) Hz. rewrite <- app_assoc in Hat.
  destruct (s_wrn_at s ty (zlen (b1 ++ b2)) a [] b1 (b2 ++ 0 :: f) 0 t Hat) as (s' & E & Hat'); [done|lia|].
  exists s'. split; [done|]. exists ty, a, f. replace (zlen (b1 ++ b2)) with (zlen (t ++ b2)) in * by (zlr; lia).
  split; [|done]. by rewrite <- app_assoc.
Qed.

Lemma rep_write s bs t : rep s bs → zlen t = zlen bs → ∃ s', s_wrn s 0 t = Ret s' ∧ rep s' t.
Proof. pose proof (rep_write_part s bs [] t) as E. by rewrite !app_nil_r in E. Qed.

Lemma rep_read_part s b1 b2 : rep s (b1 ++ b2) → s_rdn s 0 (zlen b1) = Ret b1.
Proof.
  intros (ty & a & f & Hat & Hc). rewrite <- app_assoc in Hat. by apply (s_rdn_at s ty _ a [] b1 (b2 ++ 0 :: f) 0 _ Hat).
Qed.

Lemma type_64 n : 2 ^ 32 <= n → sdsReqType n = SDS_TYPE_64.
Proof.
  intros Hn. unfold sdsReqType. change (Z.shiftl 1 5) with 32. change (Z.shiftl 1 8) with 256. change (Z.shiftl 1 16) with 65536.
  change (Z.shiftl 1 32) with (2 ^ 32). repeat case_cond; to_prop; lia || done.
Qed.

Lemma sdstrynewlen_over n : 2 ^ 64 - 18 <= n < 2 ^ 64 → sdstrynewlen SDS_NOINIT n = Panic.
Proof.
  intros Hn. unfold sdstrynewlen, _sdsnewlen. rewrite type_64 by lia. change (SDS_TYPE_64 =? SDS_TYPE_5) with false.
  cbn [andb]. change (sdsHdrSize SDS_TYPE_64) with 17. cbv zeta.
  replace (u64 (n + 17 + 1)) with (n + 18 - 2 ^ 64) by (unfold wrapu; apply (Z.mod_unique_pos _ _ 1); lia).
  unfold c_assert. by test (n <? n + 18 - 2 ^ 64) false.
Qed.

Lemma sdstrynewlen_any n : 0 <= n < 2 ^ 64 →
  2 ^ 64 - 18 <= n ∧ sdstrynewlen SDS_NOINIT n = Panic ∨
  sdstrynewlen SDS_NOINIT n = Ret None ∧ ¬ avail (n + 64) ∨
  ∃ s bs, sdstrynewlen SDS_NOINIT n = Ret (Some s) ∧ zlen bs = n ∧ rep s bs.
Proof.
  intros Hn. destruct (Z.lt_ge_cases n (2 ^ 62)) as [Hlt|Hge].
  - assert (0 <= n < 2 ^ 62) as Hn' by lia. destruct (sdsnewlen_raw SDS_NOINIT n false Hn') as [[? _]|(s & bs & E & Hi & Hr)]; [done..|].
    right. unfold sdstrynewlen, _sdsnewlen in *. destruct (new_type_fits n ltac:(lia)) as [Ht _]. fold (new_type n) in *.
    pose proof (hdr_size_pos _ Ht). rewrite (wrapu_id 64 (sdsHdrSize (new_type n) + n + 1)) in * by lia.
    rewrite (wrapu_id 64 (n + sdsHdrSize (new_type n) + 1)), c_assert_true in * by lia. revert E. run. cbn [andb].
    destruct (try_ok (sdsHdrSize (new_type n) + n + 1)) eqn:Et; cbn [negb].
    + intros ->. right. by exists s, bs.
    + intros _. left. split; [done|]. intros Ha. rewrite Ha in Et; [done|lia].
  - destruct (Z.lt_ge_cases n (2 ^ 64 - 18)) as [Hlt'|Hge']; [|left; split; [lia|apply sdstrynewlen_over; lia]]. right. left.
    unfold sdstrynewlen, _sdsnewlen. rewrite type_64 by lia. change (SDS_TYPE_64 =? SDS_TYPE_5) with false.
    cbn [andb]. change (sdsHdrSize SDS_TYPE_64) with 17. cbv zeta.
    rewrite (wrapu_id 64 (n + 17 + 1)), (wrapu_id 64 (17 + n + 1)), c_assert_true by lia. run.
    destruct (try_ok (17 + n + 1)) eqn:Et; [apply try_bound in Et; lia|]. cbn [negb]. split; [done|].
    intros Ha. rewrite Ha in Et; [done|lia].
Qed.

Definition target_ok (plain : bool) (n : Z) (val : target) : Prop :=
  match val with
  | T_PLAIN b => plain = true ∧ zlen b = n
  | T_SDS s => plain = false ∧ ∃ bs, zlen bs = n ∧ rep s bs
  end.

Lemma new_target_any plain n : 0 <= n < 2 ^ 64 →
  plain = false ∧ 2 ^ 64 - 18 <= n ∧ new_target plain n = Panic ∨
  new_target plain n = Ret None ∧ ¬ avail (n + 64) ∨
  ∃ val, new_target plain n = Ret (Some val) ∧ target_ok plain n val.
Proof.
  intros Hn. unfold new_target. destruct plain.
  - right. unfold ztrymalloc. destruct (try_ok n) eqn:Et; cbn [option_map].
    + right. eexists. split; [done|]. split; [done|]. unfold zmalloc, zlen. rewrite junk_length. lia.
    + left. split; [done|]. intros Ha. rewrite Ha in Et; [done|lia].
  - destruct (sdstrynewlen_any n Hn) as [[? ->]|[[-> ?]|(s & bs & -> & Hz & Hr)]]; [by left|by right; left|right; right].
    exists (T_SDS s). split; [done|]. split; [done|]. by exists bs.
Qed.

Lemma new_object_any hp (encode : bool) n : 0 <= n < 2 ^ 64 →
  let m := if encode then tryCreateStringObject hp SDS_NOINIT n else tryCreateRawStringObject hp SDS_NOINIT n in
  2 ^ 64 - 18 <= n ∧ m = Panic ∨
  m = Ret (hp, None) ∧ ¬ avail (n + 64) ∨
  ∃ e s bs, m = Ret (<[new_obj (dom hp) := new_string e (P_SDS s)]> hp, Some (new_obj (dom hp))) ∧ zlen bs = n ∧ rep s bs ∧
    (e = OBJ_ENCODING_RAW ∨ e = OBJ_ENCODING_EMBSTR ∧ n <= OBJ_ENCODING_EMBSTR_SIZE_LIMIT).
Proof.
  intros Hn m.
  assert (Hraw : let m := tryCreateRawStringObject hp SDS_NOINIT n in
    2 ^ 64 - 18 <= n ∧ m = Panic ∨ m = Ret (hp, None) ∧ ¬ avail (n + 64) ∨
    ∃ e s bs, m = Ret (<[new_obj (dom hp) := new_string e (P_SDS s)]> hp, Some (new_obj (dom hp))) ∧ zlen bs = n ∧ rep s bs ∧
      (e = OBJ_ENCODING_RAW ∨ e = OBJ_ENCODING_EMBSTR ∧ n <= OBJ_ENCODING_EMBSTR_SIZE_LIMIT)).
  { unfold tryCreateRawStringObject.
    destruct (sdstrynewlen_any n Hn) as [[? ->]|[[-> ?]|(s & bs & -> & Hz & Hr)]]; [by left|by right; left|right; right].
    exists OBJ_ENCODING_RAW, s, bs. split; [done|]. by auto. }
  unfold m. destruct encode; [|done]. unfold tryCreateStringObject. case_cond; [to_prop|done].
  change OBJ_ENCODING_EMBSTR_SIZE_LIMIT with 44 in *. right. right.
  destruct (createEmbedded_spec hp SDS_NOINIT n) as (s & bs & -> & Hz & Hr); [lia|done|]. run.
  exists OBJ_ENCODING_EMBSTR, s, bs. split; [done|]. split_and!; [done..|]. by right.
Qed.

(** * Strings that are saved as they are *)

Lemma read_opt r h u n : reading upd c0 r h u → 0 <= n < 2 ^ 64 →
  zlen u < n ∧ (∃ r', (if negb (n =? 0) then rioRead r n else Ret (r, Some [])) = Ret (r', None)) ∨
  ∃ r' t v, u = t ++ v ∧ zlen t = n ∧ (if negb (n =? 0) then rioRead r n else Ret (r, Some [])) = Ret (r', Some t) ∧
    reading upd c0 r' (h ++ t) v.
Proof.
  intros Hr Hn. destruct (Z.eqb_spec n 0) as [->|H0]; cbn [negb].
  { right. exists r, [], u. by rewrite app_nil_r. }
  destruct (Z.le_gt_cases n (zlen u)) as [Hle|Hgt].
  - right. destruct (zsplit n u) as (t & v & -> & Ht & _); [lia|].
    destruct (rioRead_spec upd c0 r h t v n Hr Ht) as (r' & -> & Hr'); [lia|]. by exists r', t, v.
  - left. split; [lia|]. destruct (rioRead_any upd c0 r h u n Hr Hn) as (r' & got & -> & Hg). unfold read_result in Hg.
    rewrite (proj2 (Z.leb_gt n (zlen u))) in Hg by lia. destruct Hg as [-> _]. by exists r'.
Qed.

Lemma verbatim_spec hp r flags h u n :
  reading upd c0 r h u → 0 <= n < 2 ^ 64 →
  is_flag flags RDB_LOAD_PLAIN = false ∧ 2 ^ 64 - 18 <= n ∧ load_verbatim hp r flags n = Panic ∨
  outcome_ok hp flags h u (λ t bs, t = bs ∧ zlen bs = n) (¬ (n <= zlen u ∧ avail (n + 64))) (load_verbatim hp r flags n).
Proof.
  intros Hr Hn. unfold load_verbatim. cbv zeta. destruct (is_flag flags RDB_LOAD_PLAIN || is_flag flags RDB_LOAD_SDS) eqn:Ef.
  - destruct (new_target_any (is_flag flags RDB_LOAD_PLAIN) n Hn) as [(Hp & Hbig & ->)|[[-> Hna]|(val & -> & Hval)]]; [by left|right..].
    { run. eexists _, _, _, _. split; [done|]. left. split_and!; [done..|]. tauto. }
    run. destruct (read_opt r h u n Hr Hn) as [[Hs (r' & ->)]|(r' & t & v & -> & Ht & -> & Hr')]; run.
    { eexists _, _, _, _. split; [done|]. left. split_and!; [done..|]. lia. }
    destruct val as [b|s]; cbn in Hval.
    + destruct Hval as [Hp Hz]. assert (wrn b 0 t = Ret t) as ->.
      { pose proof (wrn_app0 b [] t) as E. rewrite !app_nil_r in E. apply E. lia. }
      run. eexists _, _, _, _. split; [done|]. right. exists t, v, t. split_and!; try done. intros _. by rewrite Ht.
    + destruct Hval as [Hp (bs & Hz & Hrep)]. destruct (rep_write s bs t Hrep) as (s' & -> & Hrep'); [lia|]. run.
      eexists _, _, _, _. split; [done|]. right. exists t, v, t. rewrite Hp in Ef. split_and!; try done. intros _. by rewrite Ht.
  - assert (is_flag flags RDB_LOAD_PLAIN = false) as Hp by by apply orb_false_iff in Ef as [? _].
    destruct (new_object_any hp (is_flag flags RDB_LOAD_ENC) n Hn) as [[Hbig ->]|[[-> Hna]|(e & s & bs & -> & Hz & Hrep & He)]];
      [by left|right; run..].
    { eexists _, _, _, _. split; [done|]. left. split_and!; [done..|]. tauto. }
    pose proof (new_obj_None hp) as Hnew. set (p := new_obj (dom hp)) in *.
    assert (Hholds : ∀ s1 b1, rep s1 b1 → zlen b1 = n → holds (new_string e (P_SDS s1)) b1).
    { intros s1 b1 H1 Hz1. destruct He as [-> |[-> He]]; constructor; [done..|lia]. }
    destruct (read_opt r h u n Hr Hn) as [[Hs (r' & ->)]|(r' & t & v & -> & Ht & -> & Hr')]; run.
    + rewrite (decr_last _ p (new_string e (P_SDS s)) bs); [|apply lookup_insert_eq|by apply Hholds|done]. run.
      eexists _, _, _, _. split; [done|]. left. split_and!; [done| |lia]. by rewrite delete_insert_id.
    + unfold read_into, deref. rewrite lookup_insert_eq. run. cbn [ptr new_string as_sds]. run.
      destruct (rep_write s bs t Hrep) as (s' & -> & Hrep'); [lia|]. run. rewrite insert_insert_eq.
      eexists _, _, _, _. split; [done|]. right. exists t, v, t. split; [done|]. split; [done|]. split.
      { apply loads_obj; [done|]. exists (new_string e (P_SDS s')). rewrite lookup_insert_eq. split; [done|]. by apply Hholds. }
      split_and!; [by apply insert_subseteq|done|]. intros. congruence.
Qed.

(** * Numbers *)

Lemma sdsfromlonglong_spec v : int64 v → ∃ s, sdsfromlonglong v = Ret s ∧ rep s (dec v).
Proof.
  intros Hv. unfold sdsfromlonglong. pose proof (zlen_dec_bounds v Hv).
  destruct (sdsll2str_spec llstr_buf v Hv) as (r & ->); [unfold llstr_buf, zlen; rewrite junk_length; done|]. run.
  apply sdsnew_bytes; [done|lia].
Qed.

Lemma integer_result_spec hp (r : rio T) flags v :
  shared_ok hp → int64 v →
  ∃ hp' l lp, integer_result hp r flags v = Ret (hp', r, l, lp) ∧ loads hp' flags l (dec v) ∧ hp ⊆ hp' ∧
    (is_flag flags RDB_LOAD_PLAIN || is_flag flags RDB_LOAD_SDS = true → lp = Some (zlen (dec v))).
Proof.
  intros Hsh Hv. pose proof (zlen_dec_bounds v Hv). pose proof (zlen_dec_20 v Hv). unfold integer_result. cbv zeta.
  destruct (is_flag flags RDB_LOAD_PLAIN || is_flag flags RDB_LOAD_SDS) eqn:Ef.
  - change LONG_STR_SIZE with 21. rewrite ll2string_spec by (done || (unfold zlen; rewrite junk_length; lia)).
    test (zlen (dec v) <? 21) true. run. rewrite rdn_app0 by done. run. destruct (is_flag flags RDB_LOAD_PLAIN) eqn:Ep.
    + assert (wrn (zmalloc (zlen (dec v))) 0 (dec v) = Ret (dec v)) as ->.
      { pose proof (wrn_app0 (zmalloc (zlen (dec v))) [] (dec v)) as E. rewrite !app_nil_r in E. apply E.
        unfold zmalloc, zlen. rewrite junk_length. lia. }
      run. eexists _, _, _. split; [done|]. split; [by split|]. done.
    + destruct (sdsnewlen_spec SDS_NOINIT (zlen (dec v))) as (s & bs & -> & Hz & Hrep); [lia|done|]. run.
      destruct (rep_write s bs (dec v) Hrep) as (s' & -> & Hrep'); [by rewrite Hz|]. run.
      eexists _, _, _. split; [done|]. split; [|done]. cbn. by rewrite Ep.
  - destruct (is_flag flags RDB_LOAD_ENC).
    + unfold createStringObjectFromLongLongForValue.
      pose proof (createFromLongLong_spec hp v true Hsh Hv) as E.
      case_decide; [destruct E as (p & l & -> & Ep)|rewrite E]; run; eexists _, _, _; (split; [done|]).
      * split; [|done]. apply loads_obj; [done|]. eexists. split; [exact Ep|]. by constructor.
      * split; [|split; [apply insert_subseteq, new_obj_None|done]]. apply loads_obj; [done|]. eexists. rewrite lookup_insert_eq.
        split; [done|]. by constructor.
    + destruct (sdsfromlonglong_spec v Hv) as (s & -> & Hrep). run. eexists _, _, _. split; [done|].
      split; [|split; [apply insert_subseteq, new_obj_None|done]]. apply loads_obj; [done|]. eexists. rewrite lookup_insert_eq.
      split; [done|]. by constructor.
Qed.

Lemma wraps_int64 k v : 0 < k <= 64 → int64 (wraps k v).
Proof.
  intros Hk. pose proof (wraps_range k v ltac:(lia)). unfold int64, LLONG_MIN, LLONG_MAX.
  assert (2 ^ (k - 1) <= 2 ^ 63) by (apply Z.pow_le_mono_r; lia). lia.
Qed.

Lemma loadInteger_spec hp r flags h u e k :
  reading upd c0 r h u → shared_ok hp → e = 0 ∧ k = 1 ∨ e = 1 ∧ k = 2 ∨ e = 2 ∧ k = 4 →
  outcome_ok hp flags h u (λ t bs, zlen t = k ∧ bs = dec (wraps (8 * k) (le_dec t))) (zlen u < k) (rdbLoadIntegerObject hp r e flags).
Proof.
  intros Hr Hsh Hek.
  assert (Hread : zlen u < k ∧ (∃ r', rioRead r k = Ret (r', None)) ∨
    ∃ r' t v, u = t ++ v ∧ zlen t = k ∧ bytes_ok t ∧ rioRead r k = Ret (r', Some t) ∧ reading upd c0 r' (h ++ t) v).
  { destruct (read_opt r h u k Hr) as [[Hs (r' & E)]|(r' & t & v & Eu & Ht & E & Hr')]; [lia| |];
      rewrite (proj2 (Z.eqb_neq k 0)) in E by lia; [left; eauto|right]. exists r', t, v. split_and!; try done.
    pose proof (r_bytes _ _ _ _ _ Hr) as Hb. rewrite Eu in Hb. by apply Forall_app in Hb as [? _]. }
  assert (Hfin : ∀ r' t v, u = t ++ v → zlen t = k → reading upd c0 r' (h ++ t) v →
    outcome_ok hp flags h u (λ t bs, zlen t = k ∧ bs = dec (wraps (8 * k) (le_dec t))) (zlen u < k)
      (integer_result hp r' flags (wraps (8 * k) (le_dec t)))).
  { intros r' t v Eu Ht Hr'. destruct (integer_result_spec hp r' flags (wraps (8 * k) (le_dec t)) Hsh) as (hp' & l & lp & -> & Hl & Hsub & Hlp);
      [apply wraps_int64; lia|]. eexists _, _, _, _. split; [done|]. right. eexists t, v, _. by split_and!. }
  unfold rdbLoadIntegerObject. destruct Hek as [[-> ->]|[[-> ->]|[-> ->]]];
    [change (0 =? RDB_ENC_INT8) with true|change (1 =? RDB_ENC_INT8) with false; change (1 =? RDB_ENC_INT16) with true|
     change (2 =? RDB_ENC_INT8) with false; change (2 =? RDB_ENC_INT16) with false; change (2 =? RDB_ENC_INT32) with true]; cbv iota;
    (destruct Hread as [[Hs (r' & ->)]|(r' & t & v & Eu & Ht & Hb & -> & Hr')]; run; [by eexists _, _, _, _; split; [done|left]|]).
  - destruct (zlen_one t Ht) as [a ->]. change (rd [a] 0) with (Ret a). run. specialize (Hfin r' [a] v Eu Ht Hr').
    change (le_dec [a]) with (a + 256 * 0) in Hfin. replace (a + 256 * 0) with a in Hfin by lia. exact Hfin.
  - destruct t as [|a [|b [|? t]]]; zlr; try lia; [|pose proof (zlen_nonneg t); lia]. change (rd [a; b] 0) with (Ret a).
    change (rd [a; b] 1) with (Ret b). run. specialize (Hfin r' [a; b] v Eu Ht Hr'). inversion Hb as [|? ? Ha Hb']; subst.
    inversion Hb' as [|? ? Hb'' _]; subst. unfold is_byte in *. rewrite Z.lor_comm, lor_shiftl by lia. cbv zeta.
    rewrite wraps_wrapu by lia. change (le_dec [a; b]) with (a + 256 * (b + 256 * 0)) in Hfin.
    replace (b * 2 ^ 8 + a) with (a + 256 * (b + 256 * 0)) by lia. exact Hfin.
  - destruct t as [|a [|b [|c [|d [|? t]]]]]; zlr; try lia; [|pose proof (zlen_nonneg t); lia].
    change (rd [a; b; c; d] 0) with (Ret a). change (rd [a; b; c; d] 1) with (Ret b). change (rd [a; b; c; d] 2) with (Ret c).
    change (rd [a; b; c; d] 3) with (Ret d). run. specialize (Hfin r' [a; b; c; d] v Eu Ht Hr').
    unfold bytes_ok in Hb. rewrite !Forall_cons in Hb. destruct Hb as (Ha & Hbb & Hc & Hd & _). unfold is_byte in *.
    rewrite (Z.lor_comm a), (lor_shiftl b a 8), (Z.lor_comm _ (Z.shiftl c 16)), (lor_shiftl c _ 16), (Z.lor_comm _ (Z.shiftl d 24)),
      (lor_shiftl d _ 24) by lia. cbv zeta. rewrite wraps_wrapu by lia.
    change (le_dec [a; b; c; d]) with (a + 256 * (b + 256 * (c + 256 * (d + 256 * 0)))) in Hfin.
    replace (d * 2 ^ 24 + (c * 2 ^ 16 + (b * 2 ^ 8 + a))) with (a + 256 * (b + 256 * (c + 256 * (d + 256 * 0)))) by lia. exact Hfin.
Qed.

(** * Compressed strings *)

Definition target_holds (plain : bool) (val : target) (bs : list Z) : Prop :=
  match val with
  | T_PLAIN b => plain = true ∧ b = bs
  | T_SDS s => plain = false ∧ rep s bs
  end.

(** What [lzf_decompress] makes of a block that starts with [o]. *)
Lemma decompress_lent c clen len o :
  zlen c = clen → bytes_ok c → 0 <= len → zlen o = u32 len →
  ∃ d out n e, rdn c 0 (u32 clen) = Ret d ∧ Lzf.lzf_decompress d (u32 clen) o (u32 len) = Ret (out, n, e) ∧ zlen out = zlen o ∧
    (n = len ∧ zlen out = len ∧ lzf_holds c out ∨ n ≠ len ∧ ∀ bs, zlen bs = len → ¬ lzf_holds c bs).
Proof.
  intros Hc Hb Hl Ho. pose proof (zlen_nonneg c).
  pose proof (wrapu_range 32 clen ltac:(lia)) as Hu. pose proof (wrapu_range 32 len ltac:(lia)) as Hv.
  assert (u32 clen <= clen) by (unfold wrapu; apply Z.mod_le; lia). assert (u32 len <= len) by (unfold wrapu; apply Z.mod_le; lia).
  assert (zlen (take (Z.to_nat (u32 clen)) c) = u32 clen) as Hd by (apply zlen_take; lia).
  set (d := take (Z.to_nat (u32 clen)) c) in *. exists d.
  assert (rdn c 0 (u32 clen) = Ret d) as ->.
  { rewrite <- (take_drop (Z.to_nat (u32 clen)) c). by apply rdn_app0. }
  destruct (LzfSpec.decompress_ok d o) as ([[out n] e] & E & Hz & He); [by apply Forall_take|]. rewrite Hd, Ho in E.
  exists out, n, e. split; [done|]. split; [done|]. split; [lia|]. unfold lzf_holds. rewrite Hc. fold d.
  pose proof (zlen_nonneg out). destruct e as [[]|].
  - destruct He as [-> He]. destruct (decide (len = 0)) as [->|].
    + left. split; [done|]. rewrite (zlen_zero out) by lia. change (zlen (@nil Z)) with 0. split_and!; [done..|by left].
    + right. split; [done|]. intros bs Hbs [H32 [->|HE]]; [zlr; lia|]. specialize (He bs HE). rewrite Ho, wrapu_id in He by lia. lia.
  - destruct He as [-> He]. destruct (decide (len = 0)) as [->|].
    + left. split; [done|]. rewrite (zlen_zero out) by lia. change (zlen (@nil Z)) with 0. split_and!; [done..|by left].
    + right. split; [done|]. intros bs Hbs [H32 [->|HE]]; [zlr; lia|]. by destruct (He bs).
  - destruct He as (s & t & HE & -> & ->). zlr. pose proof (zlen_nonneg s). pose proof (zlen_nonneg t).
    destruct (decide (zlen s = len)) as [Es|Es].
    + left. assert (t = []) as -> by (apply zlen_zero; lia). rewrite app_nil_r. change (zlen (@nil Z)) with 0. split_and!; [done|lia|lia|by right].
    + right. split; [done|]. intros bs Hbs [H32 [->|HE']]; [zlr; lia|]. apply Es. by rewrite (expands_fun _ _ _ _ HE HE').
Qed.

Lemma decompress_to_spec c clen val plain len :
  zlen c = clen → bytes_ok c → 0 <= len → target_ok plain len val →
  ∃ val' n, decompress_to c clen val len = Ret (val', n) ∧
    (n = len ∧ (∃ bs, zlen bs = len ∧ lzf_holds c bs ∧ target_holds plain val' bs) ∨
     n ≠ len ∧ ∀ bs, zlen bs = len → ¬ lzf_holds c bs).
Proof.
  intros Hc Hb Hl Hval. pose proof (wrapu_range 32 len ltac:(lia)) as Hv.
  assert (u32 len <= len) by (unfold wrapu; apply Z.mod_le; lia). unfold decompress_to. destruct val as [b|s]; cbn in Hval.
  - destruct Hval as [-> Hz]. destruct (zsplit (u32 len) b) as (o & p & -> & Ho & Hp); [lia|].
    destruct (decompress_lent c clen len o Hc Hb Hl Ho) as (d & out & n & e & -> & E & Hzo & Hn). run. rewrite rdn_app0 by done. run.
    rewrite E. run. rewrite wrn_app0 by lia. run. eexists _, n. split; [done|].
    destruct Hn as [(-> & Hn & Hh)|Hn]; [left|by right]. split; [done|]. exists out. split_and!; [done..|]. split; [done|].
    assert (p = []) as -> by (apply zlen_zero; zlr; lia). by rewrite app_nil_r.
  - destruct Hval as [-> (bs & Hz & Hrep)]. destruct (zsplit (u32 len) bs) as (o & p & -> & Ho & Hp); [lia|].
    destruct (decompress_lent c clen len o Hc Hb Hl Ho) as (d & out & n & e & -> & E & Hzo & Hn). run.
    pose proof (rep_read_part _ _ _ Hrep) as Er. rewrite Ho in Er. rewrite Er. run. rewrite E. run.
    destruct (rep_write_part s o p out Hrep Hzo) as (s' & -> & Hrep'). run. eexists _, n. split; [done|].
    destruct Hn as [(-> & Hn & Hh)|Hn]; [left|by right]. split; [done|]. exists out. split_and!; [done..|]. split; [done|].
    assert (p = []) as -> by (apply zlen_zero; zlr; lia). by rewrite app_nil_r in Hrep'.
Qed.

(** Bytes that a compressed string of [clen] bytes stands for at the start of [u]. *)
Definition lzf_good (u : list Z) (clen len : Z) : Prop :=
  clen <= zlen u ∧ ∃ bs, zlen bs = len ∧ lzf_holds (take (Z.to_nat clen) u) bs.

Lemma load_lzf_spec hp r flags h u clen len :
  reading upd c0 r h u → 0 <= clen < 2 ^ 64 → 0 <= len < 2 ^ 64 → loading = false ∨ lzf_good u clen len →
  is_flag flags RDB_LOAD_PLAIN = false ∧ 2 ^ 64 - 18 <= len ∧ load_lzf hp r flags clen len = Panic ∨
  outcome_ok hp flags h u (λ t bs, zlen t = clen ∧ zlen bs = len ∧ lzf_holds t bs)
    (¬ (lzf_good u clen len ∧ avail (clen + 64) ∧ avail (len + 64))) (load_lzf hp r flags clen len).
Proof.
  intros Hr Hcl Hl Hload. unfold load_lzf. cbv zeta. unfold ztrymalloc. destruct (try_ok clen) eqn:Et.
  2: { right. eexists _, _, _, _. split; [done|]. left. split_and!; [done..|]. intros (_ & Ha & _). rewrite Ha in Et; [done|lia]. }
  destruct (new_target_any (is_flag flags RDB_LOAD_PLAIN) len Hl) as [(Hp & Hbig & ->)|[[-> Hna]|(val & -> & Hval)]]; [by left|right..].
  { run. eexists _, _, _, _. split; [done|]. left. split_and!; [done..|]. tauto. }
  run. destruct (rioRead_split upd c0 r h u clen Hr Hcl) as [(r' & E & _)|(r' & c & v & Eu & Hc & -> & Hr')].
  { rewrite E. run. eexists _, _, _, _. split; [done|]. left. split_and!; [done..|]. intros ([Hle _] & _).
    destruct (zsplit clen u) as (t & v & -> & Ht & _); [lia|]. destruct (rioRead_spec upd c0 r h t v clen Hr Ht) as (? & E' & _); [lia|]. congruence. }
  run. assert (bytes_ok c) as Hb by (pose proof (r_bytes _ _ _ _ _ Hr) as Hb; rewrite Eu in Hb; by apply Forall_app in Hb as [? _]).
  assert (take (Z.to_nat clen) u = c) as Etake by (rewrite Eu; apply take_app_length'; unfold zlen in Hc; lia).
  destruct (decompress_to_spec c clen val (is_flag flags RDB_LOAD_PLAIN) len Hc Hb) as (val' & n & -> & Hn); [lia|done|]. run.
  destruct Hn as [(-> & bs & Hz & Hh & Ht)|[Hne Hno]].
  - rewrite Z.eqb_refl. cbn [negb]. destruct val' as [b|s]; cbn in Ht.
    + destruct Ht as [Hp ->]. eexists _, _, _, _. split; [done|]. right. exists c, v, bs. split_and!; try done. intros _. by rewrite Hz.
    + destruct Ht as [Hp Hrep]. destruct (is_flag flags RDB_LOAD_SDS) eqn:Es.
      * eexists _, _, _, _. split; [done|]. right. exists c, v, bs. split_and!; try done. intros _. by rewrite Hz.
      * eexists _, _, _, _. split; [done|]. right. exists c, v, bs. split; [done|]. split; [done|]. split.
        { apply loads_obj; [by rewrite Hp, Es|]. eexists. rewrite lookup_insert_eq. split; [done|]. by constructor. }
        split_and!; [apply insert_subseteq, new_obj_None|done|]. intros. congruence.
  - rewrite (proj2 (Z.eqb_neq n len)) by done. cbn [negb].
    assert (¬ lzf_good u clen len) as Hng by (intros (_ & bs & Hbs & Hh); rewrite Etake in Hh; by destruct (Hno bs)).
    destruct Hload as [Hload|Hload]; [|done]. unfold rdbReportCorruptRDB, rdbReportError. rewrite Hload. run.
    eexists _, _, _, _. split; [done|]. left. split_and!; [done..|]. tauto.
Qed.

(** * Any string *)

Lemma rdbLoadLen_any r h u :
  reading upd c0 r h u → loading = false →
  ∃ r' e n, rdbLoadLen r = Ret (r', e, n) ∧
    (n = RDB_LENERR ∨ n ≠ RDB_LENERR ∧ ∃ t v, u = t ++ v ∧ len_form t e n ∧ reading upd c0 r' (h ++ t) v).
Proof.
  intros Hr Hl. unfold rdbLoadLen. destruct (loadLen_any upd c0 r h u Hr Hl) as (r' & [[e n]|] & -> & Ho); run; eexists r', _, _; (split; [done|]).
  - destruct (decide (n = RDB_LENERR)); [by left|right]. split; [done|]. by apply Ho.
  - by left.
Qed.

Lemma rdbLoadLen_form r h t e n u :
  reading upd c0 r h (t ++ u) → len_form t e n → ∃ r', rdbLoadLen r = Ret (r', e, n) ∧ reading upd c0 r' (h ++ t) u.
Proof. intros Hr Hf. unfold rdbLoadLen. destruct (loadLen_spec upd c0 r h t e n u Hr Hf) as (r' & -> & Hr'). run. by exists r'. Qed.

(** A length for which the size of a new sds string overflows. *)
Inductive oversized : list Z → Prop :=
| over_raw t n v : len_form t false n → 2 ^ 64 - 18 <= n < RDB_LENERR → oversized (t ++ v)
| over_lzf t1 e1 m t2 e2 n v : len_form t1 e1 m → len_form t2 e2 n → 2 ^ 64 - 18 <= n < RDB_LENERR → oversized (195 :: t1 ++ t2 ++ v).

Lemma len_enc_inv t n : len_form t true n → t = [192 + n] ∧ 0 <= n < 64.
Proof. inversion 1; subst. split; [f_equal; lia|lia]. Qed.

Lemma loadLzf_any hp r flags h u :
  reading upd c0 r h u → loading = false →
  is_flag flags RDB_LOAD_PLAIN = false ∧ oversized (195 :: u) ∧ rdbLoadLzfStringObject hp r flags = Panic ∨
  outcome_ok hp flags h u (λ t bs, string_form (195 :: t) bs) True (rdbLoadLzfStringObject hp r flags).
Proof.
  intros Hr Hl. unfold rdbLoadLzfStringObject.
  assert (Hnull : ∀ r', outcome_ok hp flags h u (λ t bs, string_form (195 :: t) bs) True (Ret (hp, r', L_NULL, None)))
    by (intros; eexists _, _, _, _; split; [done|by left]).
  destruct (rdbLoadLen_any r h u Hr Hl) as (r1 & e1 & clen & -> & [->|(Hne1 & t1 & u1 & -> & Hf1 & Hr1)]); run; [rewrite Z.eqb_refl; by right|].
  rewrite (proj2 (Z.eqb_neq clen RDB_LENERR)) by done.
  destruct (rdbLoadLen_any r1 _ u1 Hr1 Hl) as (r2 & e2 & len & -> & [->|(Hne2 & t2 & u2 & -> & Hf2 & Hr2)]); run; [rewrite Z.eqb_refl; by right|].
  rewrite (proj2 (Z.eqb_neq len RDB_LENERR)) by done.
  destruct (len_form_range _ _ _ Hf1) as (Hc & _ & _). destruct (len_form_range _ _ _ Hf2) as (Hn & _ & _).
  destruct (load_lzf_spec hp r2 flags _ u2 clen len Hr2 Hc Hn (or_introl Hl)) as [(Hp & Hbig & ->)|Ho]; [left|right].
  - split_and!; [done| |done]. eapply over_lzf; [done..|]. change RDB_LENERR with (2 ^ 64 - 1) in *. lia.
  - apply (outcome_after hp flags h t1 (t2 ++ u2) (λ t bs, string_form (195 :: t1 ++ t) bs)); [|done].
    pose proof (r_bytes _ _ _ _ _ Hr2) as Hb.
    apply (outcome_after hp flags (h ++ t1) t2 u2 (λ t bs, bytes_ok t ∧ zlen t = clen ∧ zlen bs = len ∧ lzf_holds t bs)).
    + eapply outcome_weaken; [apply Ho| |done]. intros t v bs -> ?. apply Forall_app in Hb as [? _]. done.
    + intros t bs (Hbt & <- & <- & Hh). by eapply form_lzf.
Qed.

(** Whatever the bytes are, loading a string from them ends in one of three
    ways: null, with the heap as it was; a string that the bytes stand for; or,
    for an sds string or an object of nearly 2^64 bytes, an assertion fails. *)
Lemma generic_any hp r flags h u :
  reading upd c0 r h u → loading = false → shared_ok hp →
  is_flag flags RDB_LOAD_PLAIN = false ∧ oversized u ∧ rdbGenericLoadStringObject hp r flags = Panic ∨
  outcome_ok hp flags h u string_form True (rdbGenericLoadStringObject hp r flags).
Proof.
  intros Hr Hl Hsh. unfold rdbGenericLoadStringObject.
  assert (Hnull : ∀ r', outcome_ok hp flags h u string_form True (Ret (hp, r', L_NULL, None)))
    by (intros; eexists _, _, _, _; split; [done|by left]).
  destruct (rdbLoadLen_any r h u Hr Hl) as (r1 & e & n & -> & [->|(Hne & t1 & u1 & -> & Hf & Hr1)]); run; [rewrite Z.eqb_refl; by right|].
  rewrite (proj2 (Z.eqb_neq n RDB_LENERR)) by done. pose proof (r_bytes _ _ _ _ _ Hr1) as Hb. destruct e.
  - apply len_enc_inv in Hf as [-> Hn].
    destruct ((n =? RDB_ENC_INT8) || (n =? RDB_ENC_INT16) || (n =? RDB_ENC_INT32)) eqn:Ei; [right|].
    + change RDB_ENC_INT8 with 0 in Ei. change RDB_ENC_INT16 with 1 in Ei. change RDB_ENC_INT32 with 2 in Ei.
      assert (∃ k, n = 0 ∧ k = 1 ∨ n = 1 ∧ k = 2 ∨ n = 2 ∧ k = 4) as [k Hk].
      { assert (n = 0 ∨ n = 1 ∨ n = 2) as [->|[->| ->]] by lia; eexists; eauto. }
      apply (outcome_after hp flags h [192 + n] u1 (λ t bs, bytes_ok t ∧ zlen t = k ∧ bs = dec (wraps (8 * k) (le_dec t)))).
      * eapply outcome_weaken; [by apply (loadInteger_spec hp r1 flags _ u1 n k)| |done]. intros t v bs -> ?.
        apply Forall_app in Hb as [? _]. done.
      * intros t bs (Hbt & Hz & ->). by eapply form_int.
    + destruct (Z.eqb_spec n RDB_ENC_LZF) as [->|].
      * destruct (loadLzf_any hp r1 flags _ u1 Hr1 Hl) as [?|Ho]; [by left|right]. by eapply outcome_after; [apply Ho|].
      * right. unfold rdbReportCorruptRDB, rdbReportError. rewrite Hl. run. apply Hnull.
  - destruct (len_form_range _ _ _ Hf) as (Hn & _ & _).
    destruct (verbatim_spec hp r1 flags _ u1 n Hr1 Hn) as [(Hp & Hbig & ->)|Ho]; [left|right].
    + split_and!; [done| |done]. eapply over_raw; [done|]. change RDB_LENERR with (2 ^ 64 - 1) in *. lia.
    + apply (outcome_after hp flags h t1 u1 (λ t bs, bytes_ok t ∧ t = bs ∧ zlen bs = n)).
      * eapply outcome_weaken; [apply Ho| |done]. intros t v bs -> ?. apply Forall_app in Hb as [? _]. done.
      * intros t bs (Hbt & -> & <-). by constructor.
Qed.

(** * Strings that are there *)

(** The load takes [t] from the stream and gives the string [bs]. *)
Definition loaded_as (hp : heap) (flags : Z) (h t u bs : list Z) (m : outcome (load_result (T := T))) : Prop :=
  ∃ hp' r' l lp, m = Ret (hp', r', l, lp) ∧ loads hp' flags l bs ∧ hp ⊆ hp' ∧ reading upd c0 r' (h ++ t) u ∧
    (is_flag flags RDB_LOAD_PLAIN || is_flag flags RDB_LOAD_SDS = true → lp = Some (zlen bs)).

Lemma outcome_exact hp flags h a t u bs form why m :
  outcome_ok hp flags (h ++ a) (t ++ u) form why m → ¬ why → (∀ t' bs', zlen t' = zlen t → t' = t → form t' bs' → bs' = bs) →
  (∀ t' bs', form t' bs' → zlen t' = zlen t) → loaded_as hp flags h (a ++ t) u bs m.
Proof.
  intros (hp' & r' & l & lp & -> & [(_ & _ & Hw)|(t' & v & bs' & Eu & Ht & Hl & Hs & Hr & Hp)]) Hnw Hfun Hlen; [done|].
  exists hp', r', l, lp. split; [done|]. pose proof (Hlen _ _ Ht) as Hz.
  apply app_inj_1 in Eu as [<- <-]; [|unfold zlen in Hz; lia]. rewrite (Hfun t bs') in * by done. rewrite app_assoc. done.
Qed.

Lemma take_zlen {X} (l1 l2 : list X) : take (Z.to_nat (zlen l1)) (l1 ++ l2) = l1.
Proof. apply take_app_length'. unfold zlen. lia. Qed.

Lemma lzf_holds_fun c b1 b2 : lzf_holds c b1 → lzf_holds c b2 → zlen b1 = zlen b2 → b1 = b2.
Proof.
  intros [_ H1] [_ H2] Hz. destruct H1 as [->|H1]; [by rewrite (zlen_zero b2) by (rewrite <- Hz; done)|].
  destruct H2 as [->|H2]; [by rewrite (zlen_zero b1) by (rewrite Hz; done)|]. by rewrite (expands_fun _ _ _ _ H1 H2).
Qed.

Lemma avail_small {X} (l : list X) : avail (zlen l + 64) → zlen l + 64 < 2 ^ 62.
Proof. intros Ha. apply try_bound, Ha. pose proof (zlen_nonneg l). lia. Qed.

Lemma loadLzf_exact hp r flags h t1 e1 t2 e2 c bs u :
  reading upd c0 r (h ++ [195]) (t1 ++ t2 ++ c ++ u) → len_form t1 e1 (zlen c) → len_form t2 e2 (zlen bs) → lzf_holds c bs →
  avail (zlen c + 64) → avail (zlen bs + 64) →
  loaded_as hp flags h (195 :: t1 ++ t2 ++ c) u bs (rdbLoadLzfStringObject hp r flags).
Proof.
  intros Hr Hf1 Hf2 Hh Ac Ab. pose proof (zlen_nonneg c) as Zc. pose proof (zlen_nonneg bs) as Zb.
  pose proof (avail_small _ Ac). pose proof (avail_small _ Ab).
  unfold rdbLoadLzfStringObject. change RDB_LENERR with (2 ^ 64 - 1).
  destruct (rdbLoadLen_form r _ t1 e1 (zlen c) _ Hr Hf1) as (r1 & -> & Hr1). run. test (zlen c =? 2 ^ 64 - 1) false.
  destruct (rdbLoadLen_form r1 _ t2 e2 (zlen bs) _ Hr1 Hf2) as (r2 & -> & Hr2). run. test (zlen bs =? 2 ^ 64 - 1) false.
  assert (lzf_good (c ++ u) (zlen c) (zlen bs)) as Hg.
  { split; [zlr; pose proof (zlen_nonneg u); lia|]. exists bs. by rewrite take_zlen. }
  replace (195 :: t1 ++ t2 ++ c) with ((195 :: t1 ++ t2) ++ c) by (cbn; by rewrite <- app_assoc).
  replace (((h ++ [195]) ++ t1) ++ t2) with (h ++ 195 :: t1 ++ t2) in Hr2 by (rewrite <- !app_assoc; done).
  destruct (load_lzf_spec hp r2 flags _ (c ++ u) (zlen c) (zlen bs) Hr2 ltac:(lia) ltac:(lia) (or_intror Hg)) as [(_ & ? & _)|Ho]; [lia|].
  eapply outcome_exact; [apply Ho|tauto| |by intros ? ? [? _]].
  intros t' bs' _ -> (_ & Hz & Hh'). by eapply lzf_holds_fun.
Qed.

Lemma generic_exact hp r flags h t bs u :
  reading upd c0 r h (t ++ u) → shared_ok hp → string_form t bs → avail (zlen t + 64) → avail (zlen bs + 64) →
  loaded_as hp flags h t u bs (rdbGenericLoadStringObject hp r flags).
Proof.
  intros Hr Hsh Hf At Ab. unfold rdbGenericLoadStringObject. change RDB_LENERR with (2 ^ 64 - 1).
  pose proof (avail_small _ Ab). destruct Hf as [e k t Hek Hbt Hz|t1 e1 t2 e2 c bs Hf1 Hf2 Hbc Hh|t bs Hf Hbt].
  - assert (len_form [192 + e] true e) as Hf by (replace e with (192 + e - 192) at 2 by lia; constructor; lia).
    change ((192 + e) :: t) with ([192 + e] ++ t) in *. rewrite <- app_assoc in Hr.
    destruct (rdbLoadLen_form r _ _ _ _ _ Hr Hf) as (r1 & -> & Hr1). run. test (e =? 2 ^ 64 - 1) false.
    change RDB_ENC_INT8 with 0. change RDB_ENC_INT16 with 1. change RDB_ENC_INT32 with 2. test ((e =? 0) || (e =? 1) || (e =? 2)) true.
    eapply outcome_exact; [by apply (loadInteger_spec hp r1 flags _ (t ++ u) e k)|zlr; pose proof (zlen_nonneg u); lia| |].
    + by intros t' bs' _ -> [_ ->].
    + intros t' bs' [-> _]. done.
  - change (195 :: t1 ++ t2 ++ c) with ([195] ++ t1 ++ t2 ++ c) in Hr. rewrite <- !app_assoc in Hr.
    destruct (rdbLoadLen_form r _ [195] true 3 _ Hr (len_enc 195 ltac:(lia))) as (r1 & -> & Hr1). run.
    change (3 =? 2 ^ 64 - 1) with false. cbn -[rdbLoadLzfStringObject].
    eapply loadLzf_exact; try done. intros m Hm. apply At. zlr. pose proof (zlen_nonneg t1). pose proof (zlen_nonneg t2). lia.
  - rewrite <- app_assoc in Hr. destruct (rdbLoadLen_form r _ _ _ _ _ Hr Hf) as (r1 & -> & Hr1). run.
    pose proof (zlen_nonneg bs). pose proof (zlen_nonneg u). test (zlen bs =? 2 ^ 64 - 1) false.
    destruct (verbatim_spec hp r1 flags _ (bs ++ u) (zlen bs) Hr1 ltac:(lia)) as [(_ & ? & _)|Ho]; [lia|].
    eapply outcome_exact; [apply Ho|zlr; intros Hn; apply Hn; split; [lia|done]| |].
    + by intros t' bs' _ -> [<- _].
    + by intros t' bs' [-> ->].
Qed.

(** What is written for a string is one of its forms. *)
Lemma saved_form_loads t bs : saved_form t bs → bytes_ok bs → zlen bs < 2 ^ 32 → string_form t bs.
Proof.
  intros [(v & -> & Hv)|[_ [->|(_ & H20 & C & -> & HbC & HzC & HE)]]] Hb Hl.
  - assert (Hint : ∀ e k, Z.of_nat e = 0 ∧ k = 1%nat ∨ Z.of_nat e = 1 ∧ k = 2%nat ∨ Z.of_nat e = 2 ∧ k = 4%nat →
      - 2 ^ (8 * Z.of_nat k - 1) <= v < 2 ^ (8 * Z.of_nat k - 1) → string_form ((192 + Z.of_nat e) :: le_enc k v) (dec v)).
    { intros e k He Hr. replace v with (wraps (8 * Z.of_nat k) (le_dec (le_enc k v))) at 2.
      - apply form_int; [lia|apply le_enc_bytes|]. apply zlen_le_enc.
      - rewrite le_dec_enc. change (v mod _) with (wrapu (8 * Z.of_nat k) v). rewrite wraps_wrapu by lia. apply wraps_id; [lia|done]. }
    revert Hv. unfold int_bytes. repeat case_cond; intros [= <-]; to_prop.
    + apply (Hint 0%nat 1%nat); [by left|simpl; lia].
    + apply (Hint 1%nat 2%nat); [by right; left|simpl; lia].
    + apply (Hint 2%nat 4%nat); [by right; right|simpl; lia].
  - constructor; [|done]. apply len_bytes_form. pose proof (zlen_nonneg bs). lia.
  - rewrite wrapu_id, take_ge in HE by (unfold zlen in *; lia).
    eapply form_lzf; [apply len_bytes_form; lia..|done|]. split; [done|]. right.
    by rewrite wrapu_id, take_ge by (unfold zlen in *; lia).
Qed.

End loading.
End RdbLoad.
