(* ===== verification/RdbDump.v ===== *)
(** The footer of a dumped value: what [verifyDumpPayload] accepts, and that a
    changed byte is found. *)
From S2P Require Import Prelude Endianconv Util Sds SdsRep SdsOps SdsText Bits Crc CrcSpec Object Rio RioSpec Rdb RdbLen.
Import Sds SdsRep SdsOps SdsText Bits Crc CrcSpec Rdb RdbLen.

Module RdbDump.

(** * The checksum tells strings apart that differ in a byte *)

Lemma divide_inj v w : is_word v → is_word w → divide v = divide w → v = w.
Proof.
  intros Hv Hw E. assert (∀ x, is_word x → Z.testbit (divide x) 63 = Z.testbit x 0) as H63.
  { intros x Hx. unfold divide. rewrite Z.lxor_spec, Z.shiftr_spec by lia.
    rewrite (testbit_word 64 x) by (unfold is_word in Hx; lia). destruct (Z.testbit x 0); by vm_compute. }
  assert (Z.testbit v 0 = Z.testbit w 0) as E0 by (by rewrite <- !H63, E).
  assert (Z.shiftr v 1 = Z.shiftr w 1) as E1.
  { unfold divide in E. rewrite E0 in E. apply Z.bits_inj'. intros n Hn. assert (Hb := f_equal (λ x, Z.testbit x n) E).
    cbv beta in Hb. rewrite !Z.lxor_spec in Hb. revert Hb. repeat destruct (Z.testbit _ n); done. }
  apply Z.bits_inj'. intros n Hn. destruct (decide (n = 0)) as [->|]; [done|].
  assert (Hb := f_equal (λ x, Z.testbit x (n - 1)) E1). cbv beta in Hb. rewrite !Z.shiftr_spec in Hb by lia.
  by replace (n - 1 + 1) with n in Hb by lia.
Qed.

Lemma iterate_inj n v w : is_word v → is_word w → iterate n divide v = iterate n divide w → v = w.
Proof.
  revert v w. induction n as [|n IH]; intros v w Hv Hw E; [done|].
  apply divide_inj; [done..|]. apply IH; [by apply divide_word..|exact E].
Qed.

Lemma update_lxor v w a b : is_word v → is_word w → is_byte a → is_byte b → update v a = update w b → Z.lxor v a = Z.lxor w b.
Proof. intros Hv Hw Ha%byte_word Hb%byte_word. unfold update. apply iterate_inj; apply lxor_word; (lia || done). Qed.

Lemma updates_inj v w data : is_word v → is_word w → bytes_ok data → foldl update v data = foldl update w data → v = w.
Proof.
  intros Hv Hw Hd. revert v w Hv Hw. induction Hd as [|c data Hc Hd IH]; intros v w Hv Hw E; [done|].
  apply IH in E; [|by apply update_word..]. apply update_lxor in E; [|done..].
  apply (f_equal (λ x, Z.lxor x c)) in E. by rewrite !Z.lxor_assoc, Z.lxor_nilpotent, !Z.lxor_0_r in E.
Qed.

Lemma updates_byte v s a b u : is_word v → bytes_ok (s ++ a :: u) → is_byte b →
  foldl update v (s ++ a :: u) = foldl update v (s ++ b :: u) → a = b.
Proof.
  intros Hv [Hs [Ha Hu]%Forall_cons]%Forall_app Hb. rewrite !foldl_app. cbn [foldl]. pose proof (updates_word v s Hv Hs) as Hw.
  intros E. apply updates_inj in E; [|by apply update_word..|done]. apply update_lxor in E; [|done..].
  apply (f_equal (Z.lxor (foldl update v s))) in E. by rewrite <- !Z.lxor_assoc, Z.lxor_nilpotent, !Z.lxor_0_l in E.
Qed.

Definition checksum (bs : list Z) : Z := _crc64 0 bs.

Lemma checksum_updates bs : bytes_ok bs → checksum bs = foldl update 0 bs.
Proof. intros Hb. unfold checksum. rewrite _crc64_update by done. by replace (crc_reflect 0 64) with 0 by (by vm_compute). Qed.

Lemma checksum_byte s a b u : bytes_ok (s ++ a :: u) → is_byte b → checksum (s ++ a :: u) = checksum (s ++ b :: u) → a = b.
Proof.
  intros Hb Hbb. rewrite !checksum_updates; [by apply updates_byte| |done].
  apply Forall_app in Hb as [? [? ?]%Forall_cons]. apply Forall_app. split; [done|]. by constructor.
Qed.

Lemma checksum_word bs : bytes_ok bs → is_word (checksum bs).
Proof. intros Hb. rewrite checksum_updates by done. by apply updates_word. Qed.

(** * The footer *)

Section dump.
Context {H : HostOrder} {A : Allocator} {L : AllocatorLaws A} {G : RdbServer}.

(** [dumped p]: [p] ends in a version this server knows and, unless that is not
    to be looked at, the checksum of all that is before it. *)
Definition dumped (p : list Z) : Prop :=
  ∃ s a b c, p = s ++ a :: b :: c ∧ zlen c = 8 ∧ a + 256 * b <= RDB_VERSION ∧
    (skip_checksum_validation = true ∨ c = le_enc 8 (checksum (s ++ [a; b]))).

(** The table [crc64] uses. *)
Definition crc_table_ok (t : list (list Z)) : Prop :=
  ∀ next data, bytes_ok data → crc64 t 0 next data = Ret (checksum data).

Lemma crc_table_init : ∃ t, crc64_init = Ret t ∧ crc_table_ok t.
Proof.
  destruct crc64_native as (t & E & Ht). exists t. split; [done|]. intros next data Hb. rewrite Ht by done. by rewrite checksum_updates.
Qed.

Lemma footer_spec t next payload bs :
  crc_table_ok t → rep payload bs → bytes_ok bs → zlen bs < 2 ^ 61 →
  ∃ s', dump_footer t next payload = Ret s' ∧ rep s' (bs ++ [9; 0] ++ le_enc 8 (checksum (bs ++ [9; 0]))).
Proof.
  intros Ht Hr Hb Hz. unfold dump_footer. cbv zeta. change (Z.land RDB_VERSION 0xff) with 9. change (Z.land (Z.shiftr RDB_VERSION 8) 0xff) with 0.
  destruct (sdscatlen_spec payload bs [9; 0] [] 2 Hr) as (s1 & E1 & Hr1); [done|lia|]. rewrite app_nil_r in E1. rewrite E1. run. rewrite (rep_len _ _ Hr1). run.
  rewrite (rep_read _ _ Hr1). run. rewrite Ht by (apply Forall_app; split; [done|by repeat constructor]). run. rewrite memrev64ifbe_enc. run.
  pose proof (sdscatlen_spec s1 _ (le_enc 8 (checksum (bs ++ [9; 0]))) [] 8 Hr1) as E. rewrite app_nil_r in E.
  destruct E as (s2 & -> & Hr2); [apply zlen_le_enc|zlr; lia|]. exists s2. split; [done|]. by rewrite <- app_assoc in Hr2.
Qed.

Lemma verify_spec t next p :
  crc_table_ok t → bytes_ok p → ∃ b, verifyDumpPayload t next p (zlen p) = Ret b ∧ (b = true ↔ dumped p).
Proof.
  intros Ht Hb. unfold verifyDumpPayload. pose proof (zlen_nonneg p). destruct (Z.ltb_spec (zlen p) 10) as [Hs|Hs].
  { exists false. split; [done|]. split; [done|]. intros (s & a & b & c & -> & Hc & _). pose proof (zlen_nonneg s). zlr. lia. }
  destruct (zsplit (zlen p - 10) p) as (s & f & Ep & Hzs & Hzf); [lia|]. destruct (zsplit 2 f) as (ab & c & -> & Hab & Hc); [lia|].
  destruct ab as [|a [|b [|? ab]]]; zlr; try (pose proof (zlen_nonneg ab); lia); try lia. clear Hab. cbv zeta.
  assert (zlen c = 8) as Hc8 by lia. replace (zlen p - 10) with (zlen s) by lia. replace (zlen p - 8) with (zlen (s ++ [a; b])) by (zlr; lia).
  rewrite (rd_at p (zlen s + 1) b (s ++ [a]) c) by (by (rewrite <- app_assoc) || (zlr; lia)). run. rewrite (rd_at p (zlen s) a s (b :: c)) by done. run.
  assert (is_byte a ∧ is_byte b ∧ bytes_ok (s ++ [a; b]) ∧ bytes_ok c) as (Ha & Hbb & Hsab & Hbc).
  { subst p. apply Forall_app in Hb as [? [? [? ?]%Forall_cons]%Forall_cons]. split_and!; [done..| |done]. apply Forall_app. by rewrite !Forall_cons. }
  unfold is_byte in Ha, Hbb. rewrite lor_shiftl, wrapu_id by lia. change (2 ^ 8) with 256.
  assert (Hd : dumped p ↔ a + 256 * b <= RDB_VERSION ∧ (skip_checksum_validation = true ∨ c = le_enc 8 (checksum (s ++ [a; b])))).
  { split; [|by exists s, a, b, c]. intros (s' & a' & b' & c' & E & Hc' & Hx). rewrite Ep in E. apply app_inj_2 in E as [<- [= <- <- <-]]; [done|].
    unfold zlen in *. simpl. lia. }
  destruct (Z.ltb_spec RDB_VERSION (b * 256 + a)) as [Hv|Hv]; [exists false; split; [done|]; split; [done|intros [? _]%Hd; lia]|].
  destruct skip_checksum_validation eqn:Esk; [exists true; split; [done|]; split; [intros _; apply Hd; split; [lia|by left]|done]|].
  rewrite (rdn_at p 0 _ (s ++ [a; b]) [] c) by (by (rewrite Ep, <- app_assoc) || done). run. rewrite Ht by done. run. rewrite memrev64ifbe_enc. run.
  rewrite (rdn_at p (zlen s + 2) 8 c (s ++ [a; b]) []) by (by (rewrite Ep, <- !app_assoc, app_nil_r) || (zlr; lia)). run.
  rewrite memcmp_eq by (by rewrite zlen_le_enc, Hc8). eexists. split; [done|]. rewrite bool_decide_eq_true, Hd. split; [intros <-; split; [lia|by right]|].
  by intros [_ [?| ->]].
Qed.

(** A dumped value in which one byte is replaced is refused. *)
Lemma dumped_byte s a b u :
  skip_checksum_validation = false → bytes_ok (s ++ a :: u) → is_byte b → dumped (s ++ a :: u) → dumped (s ++ b :: u) → a = b.
Proof.
  intros Hsk Hb Hbb (s1 & a1 & b1 & c1 & E1 & Hc1 & _ & [?|Hk1]) (s2 & a2 & b2 & c2 & E2 & Hc2 & _ & [?|Hk2]); try congruence.
  set (q1 := s1 ++ [a1; b1]) in *. set (q2 := s2 ++ [a2; b2]) in *.
  assert (s ++ a :: u = q1 ++ c1) as Eq1 by (unfold q1; by rewrite <- app_assoc).
  assert (s ++ b :: u = q2 ++ c2) as Eq2 by (unfold q2; by rewrite <- app_assoc).
  pose proof (zlen_nonneg q1). destruct (Z.lt_ge_cases (zlen u) 8) as [Hu|Hu].
  - assert (zlen (s ++ a :: u) = zlen q1 + 8) as Hz by (rewrite Eq1; zlr; lia). zlr.
    destruct (zsplit (zlen q1) s) as (q & w & -> & Hq & Hw); [lia|]. rewrite <- app_assoc in Eq1, Eq2.
    apply app_inj_2 in Eq1 as [<- <-]; [|unfold zlen in *; simpl; rewrite length_app in *; simpl in *; lia].
    apply app_inj_2 in Eq2 as [<- <-]; [|unfold zlen in *; rewrite !length_app in *; simpl in *; lia].
    rewrite <- Hk2 in Hk1. by apply app_inv_head in Hk1 as [= ->].
  - destruct (zsplit (zlen u - 8) u) as (w & c & -> & Hw & Hc); [lia|].
    assert (∀ x, s ++ x :: w ++ c = (s ++ x :: w) ++ c) as Ew by (intros; by rewrite <- app_assoc). rewrite Ew in Eq1, Eq2, Hb.
    apply app_inj_2 in Eq1 as [<- <-]; [|unfold zlen in *; lia]. apply app_inj_2 in Eq2 as [<- <-]; [|unfold zlen in *; lia].
    apply Forall_app in Hb as [Hb _]. apply (checksum_byte s a b w Hb Hbb). rewrite Hk1 in Hk2. apply (f_equal le_dec) in Hk2.
    assert (bytes_ok (s ++ b :: w)) as Hb2.
    { apply Forall_app in Hb as [? [? ?]%Forall_cons]. apply Forall_app. split; [done|by constructor]. }
    rewrite !le_dec_enc in Hk2. pose proof (checksum_word _ Hb) as W1. pose proof (checksum_word _ Hb2) as W2. unfold is_word in W1, W2.
    rewrite !Z.mod_small in Hk2 by (simpl; lia). done.
Qed.

End dump.
End RdbDump.
