(* ===== verification/RdbSpec.v ===== *)
(** What the dump format promises: values that are saved are loaded, whatever
    the backend and the byte order; loading any bytes is safe; and the footer
    of a dumped value detects a changed byte. *)
From stdpp Require Import gmap.
From S2P Require Import Prelude Endianconv Util Sds SdsRep SdsOps SdsText Crc CrcSpec Lzf LzfFormat LzfCompress.
From S2P Require Import Object ObjectSpec Rio RioSpec Rdb RdbLen RdbInt RdbSave RdbLoad RdbDump.
Import Util Sds SdsRep SdsOps SdsText Crc CrcSpec Object ObjectSpec Rio RioSpec Rdb RdbLen RdbInt RdbSave RdbLoad RdbDump.

Module RdbSpec.

Section values.
Context {H : HostOrder} {G : RdbServer} {T : Type} {B : Backend T} {W : WriteLaws B} {R : ReadLaws B}.
Context (upd : Z → Z → Z) (c0 : Z).

(** [save] writes [t] and returns its length, also without a stream. *)
Definition saves_as (save : option (rio T) → outcome (option (rio T) * Z)) (t : list Z) : Prop :=
  ∀ pre c rdb h, saved upd c0 pre c rdb h → room pre h 16 →
    ∃ rdb', save rdb = Ret (rdb', zlen t) ∧ saved upd c0 pre c rdb' (h ++ t).

(** [load] takes [t] from the stream and returns [x]. *)
Definition loads_as {X} (load : rio T → outcome (rio T * X)) (t : list Z) (x : X) : Prop :=
  ∀ r h u, reading upd c0 r h (t ++ u) → ∃ r', load r = Ret (r', x) ∧ reading upd c0 r' (h ++ t) u.

(** A value of [k] bytes that is computed from the bytes. *)
Lemma loads_fixed {X} k (f : list Z → outcome X) (none : X) t x :
  zlen t = k → k < 2 ^ 64 → f t = Ret x →
  loads_as (λ r, '(r, got) ← rioRead r k; match got with None => Ret (r, none) | Some b => y ← f b; Ret (r, y) end) t x.
Proof.
  intros Hz Hk Hf r h u Hr. destruct (rioRead_spec upd c0 r h t u k Hr Hz Hk) as (r' & E & Hr'). rewrite E. run. rewrite Hf. run. by exists r'.
Qed.

Lemma loadType_spec ty : loads_as rdbLoadType [ty] ty.
Proof. by apply (loads_fixed 1 (λ b, rd b 0) (-1) [ty] ty). Qed.

Lemma loadTime_spec ver bs v : zlen bs = 8 → bytes_ok bs → v = s64 (if 9 <=? ver then le_dec bs else nat_dec bs) →
  loads_as (λ r, rdbLoadMillisecondTime r ver) bs v.
Proof.
  intros Hz Hb -> r h u Hr. unfold rdbLoadMillisecondTime.
  destruct (rioRead_spec upd c0 r h bs u 8 Hr Hz) as (r' & -> & Hr'); [lia|]. run. exists r'. split; [|done].
  destruct (9 <=? ver); [|done]. by rewrite (memrev64ifbe_val bs (λ y, Ret (r', s64 y))).
Qed.

Lemma loadDouble_spec bits : 0 <= bits < 2 ^ 64 → loads_as rdbLoadBinaryDoubleValue (le_enc 8 bits) (Some bits).
Proof.
  intros Hb r h u Hr. unfold rdbLoadBinaryDoubleValue.
  destruct (rioRead_spec upd c0 r h (le_enc 8 bits) u 8 Hr) as (r' & -> & Hr'); [apply zlen_le_enc|lia|]. run. exists r'. split; [|done].
  rewrite (memrev64ifbe_val _ (λ y, Ret (r', Some y))) by (apply zlen_le_enc || apply le_enc_bytes). by rewrite le_dec_enc, Z.mod_small.
Qed.

Lemma loadFloat_spec bits : 0 <= bits < 2 ^ 32 → loads_as rdbLoadBinaryFloatValue (le_enc 4 bits) (Some bits).
Proof.
  intros Hb r h u Hr. unfold rdbLoadBinaryFloatValue.
  destruct (rioRead_spec upd c0 r h (le_enc 4 bits) u 4 Hr) as (r' & -> & Hr'); [apply zlen_le_enc|lia|]. run. exists r'. split; [|done].
  rewrite (memrev32ifbe_val _ (λ y, Ret (r', Some y))) by (apply zlen_le_enc || apply le_enc_bytes). by rewrite le_dec_enc, Z.mod_small.
Qed.

End values.

Section strings.
Context {H : HostOrder} {A : Allocator} {L : AllocatorLaws A} {TL : TryLaws A}.
Context {N : ObjAlloc} {NL : ObjAllocLaws N} {V : Server} {G : RdbServer}.
Context {T : Type} {B : Backend T} {R : ReadLaws B} (upd : Z → Z → Z) (c0 : Z).

Lemma saved_form_length t bs : saved_form t bs → 0 <= zlen bs < 2 ^ 64 → zlen t <= zlen bs + 16.
Proof.
  intros [(v & -> & Hv)|[_ [->|(_ & H20 & C & -> & HbC & HzC & HE)]]] Hb.
  - apply int_bytes_ok in Hv as [_ Hv]. pose proof (zlen_nonneg (dec v)). lia.
  - zlr. destruct (len_bytes_ok (zlen bs) Hb) as [_ ?]. lia.
  - zlr. destruct (len_bytes_ok (zlen bs) Hb) as [_ ?]. destruct (len_bytes_ok (zlen C)) as [_ ?]; lia.
Qed.

(** What is saved of a string of at least 2^32 bytes that was compressed. *)
Lemma lzf_form_lost hp r flags h t C bs u :
  reading upd c0 r h (t ++ u) → shared_ok hp → loading = false → lzf_form t C bs → 2 ^ 32 <= zlen bs < 2 ^ 62 →
  ∃ r' lp, rdbGenericLoadStringObject hp r flags = Ret (hp, r', L_NULL, lp).
Proof.
  intros Hr Hsh Hl (-> & HbC & HzC & _) Hbig. change (195 :: ?x) with ([195] ++ x) in Hr. rewrite <- !app_assoc in Hr.
  unfold rdbGenericLoadStringObject. change RDB_LENERR with (2 ^ 64 - 1).
  destruct (rdbLoadLen_form upd c0 r _ [195] true 3 _ Hr (len_enc 195 ltac:(lia))) as (r1 & -> & Hr1). run.
  change (3 =? 2 ^ 64 - 1) with false. cbn -[rdbLoadLzfStringObject]. unfold rdbLoadLzfStringObject. change RDB_LENERR with (2 ^ 64 - 1).
  destruct (rdbLoadLen_form upd c0 r1 _ _ _ _ _ Hr1 (len_bytes_form (zlen C) ltac:(lia))) as (r2 & -> & Hr2). run.
  test (zlen C =? 2 ^ 64 - 1) false.
  destruct (rdbLoadLen_form upd c0 r2 _ _ _ _ _ Hr2 (len_bytes_form (zlen bs) ltac:(lia))) as (r3 & -> & Hr3). run.
  test (zlen bs =? 2 ^ 64 - 1) false.
  destruct (load_lzf_spec upd c0 hp r3 flags _ _ (zlen C) (zlen bs) Hr3 ltac:(lia) ltac:(lia) (or_introl Hl))
    as [(_ & ? & _)|(hp' & r' & l & lp & -> & [(-> & -> & _)|(t & v & bs' & _ & (_ & Hz & [Hlt _]) & _)])]; [lia|eauto|lia].
Qed.

(** A length for which the size of an sds string overflows. *)
Lemma oversized_panics hp r flags h n u :
  reading upd c0 r h ((RDB_64BITLEN :: be_enc 8 n) ++ u) → 2 ^ 64 - 18 <= n < 2 ^ 64 - 1 → is_flag flags RDB_LOAD_PLAIN = false →
  rdbGenericLoadStringObject hp r flags = Panic.
Proof.
  intros Hr Hn Hp. unfold rdbGenericLoadStringObject. change RDB_LENERR with (2 ^ 64 - 1).
  assert (len_form (RDB_64BITLEN :: be_enc 8 n) false n) as Hf.
  { pose proof (len_bytes_form n ltac:(lia)) as Hf. unfold len_bytes in Hf.
    rewrite !(proj2 (Z.ltb_ge n _)) in Hf by lia. done. }
  destruct (rdbLoadLen_form upd c0 r _ _ _ _ _ Hr Hf) as (r1 & -> & Hr1). run. test (n =? 2 ^ 64 - 1) false.
  pose proof (sdstrynewlen_over n ltac:(lia)) as E.
  unfold load_verbatim. cbv zeta. rewrite Hp. cbn [orb]. unfold new_target, tryCreateStringObject, tryCreateRawStringObject.
  change OBJ_ENCODING_EMBSTR_SIZE_LIMIT with 44. test (n <=? 44) false. rewrite E. by repeat case_match.
Qed.

End strings.
(** The checksum of a stream that uses [rioGenericUpdateChecksum]. *)
Lemma crc_sums {H : HostOrder} {T : Type} {B : Backend T} : ∃ table, crc64_init = Ret table ∧
  ∀ next (r : rio T), update_cksum r = Some (rioGenericUpdateChecksum table next) → is_word (cksum r) → sums_with update r.
Proof.
  destruct crc64_native as (table & E & Ht). exists table. split; [done|]. intros next r Er Hw. unfold sums_with. rewrite Er.
  exists is_word. split; [done|]. intros c buf Hc Hb. split; [by apply Ht|by apply updates_word].
Qed.

(** * Properties *)

(** C37. On a stream of any backend, in chunks of any size and on a host of either
    byte order, a length that is saved takes the shortest form, [rdbLoadLenByRef]
    reads exactly the five forms, and what it reads is what was saved; the same
    holds for types, for times in milliseconds, which were in the byte order of
    the host before version 9, and for binary floating-point numbers.  Without a
    stream the saving functions return the same lengths.  The checksum of a
    stream that is set up with [rioGenericUpdateChecksum] is the CRC-64 of the
    bytes that went through it. *)
Theorem rdb_values_roundtrip {H : HostOrder} {G : RdbServer} {T : Type} {B : Backend T} {W : WriteLaws B} {R : ReadLaws B}
    (upd : Z → Z → Z) (c0 : Z) :
  (∀ n, 0 <= n < 2 ^ 64 → saves_as upd c0 (λ rdb, rdbSaveLen rdb n) (len_bytes n) ∧
     loads_as upd c0 rdbLoadLenByRef (len_bytes n) (Some (false, n))) ∧
  (∀ t e n, len_form t e n → loads_as upd c0 rdbLoadLenByRef t (Some (e, n))) ∧
  (loading = false → ∀ r h u, reading upd c0 r h u → ∃ r' o, rdbLoadLenByRef r = Ret (r', o) ∧
     ∀ e n, o = Some (e, n) → ∃ t v, u = t ++ v ∧ len_form t e n ∧ reading upd c0 r' (h ++ t) v) ∧
  (∀ ty, is_byte ty → saves_as upd c0 (λ rdb, rdbSaveType rdb ty) [ty] ∧ loads_as upd c0 rdbLoadType [ty] ty) ∧
  (∀ v, int64 v → saves_as upd c0 (λ rdb, rdbSaveMillisecondTime rdb v) (le_enc 8 v) ∧
     ∀ ver, loads_as upd c0 (λ r, rdbLoadMillisecondTime r ver) (if 9 <=? ver then le_enc 8 v else nat_enc 8 v) v) ∧
  (∀ bits, 0 <= bits < 2 ^ 64 → saves_as upd c0 (λ rdb, rdbSaveBinaryDoubleValue rdb bits) (le_enc 8 bits) ∧
     loads_as upd c0 rdbLoadBinaryDoubleValue (le_enc 8 bits) (Some bits)) ∧
  (∀ bits, 0 <= bits < 2 ^ 32 → saves_as upd c0 (λ rdb, rdbSaveBinaryFloatValue rdb bits) (le_enc 4 bits) ∧
     loads_as upd c0 rdbLoadBinaryFloatValue (le_enc 4 bits) (Some bits)) ∧
  (∃ table, crc64_init = Ret table ∧
     ∀ next (r : rio T), update_cksum r = Some (rioGenericUpdateChecksum table next) → is_word (cksum r) → sums_with update r).
Proof.
  assert (∀ v, int64 v → s64 v = v) as Hs by (intros v Hv; apply wraps_id; [lia|unfold int64, LLONG_MIN, LLONG_MAX in Hv; lia]).
  split_and!.
  - intros n Hn. split; [intros pre c rdb h Hw Hr; by apply saveLen_spec|]. intros r h u Hr. apply loadLen_spec; [done|by apply len_bytes_form].
  - intros t e n Hf r h u Hr. by apply loadLen_spec.
  - intros Hl r h u Hr. by apply loadLen_any.
  - intros ty Ht. split; [|apply loadType_spec]. intros pre c rdb h Hw Hr. apply saveType_spec; [done..|by unfold room in *; lia].
  - intros v Hv. split; [intros pre c rdb h Hw Hr; rewrite zlen_le_enc; apply saveTime_spec; [done|unfold room in *; lia]|].
    intros ver. apply loadTime_spec; destruct (9 <=? ver).
    + apply zlen_le_enc.
    + apply zlen_nat_enc.
    + apply le_enc_bytes.
    + apply nat_enc_bytes.
    + rewrite le_dec_enc. change (v mod _) with (u64 v). rewrite wraps_wrapu by lia. by rewrite Hs.
    + rewrite nat_dec_enc. change (v mod _) with (u64 v). rewrite wraps_wrapu by lia. by rewrite Hs.
  - intros bits Hb. split; [|by apply loadDouble_spec]. intros pre c rdb h Hw Hr. rewrite zlen_le_enc. apply saveDouble_spec; [done|unfold room in *; lia].
  - intros bits Hb. split; [|by apply loadFloat_spec]. intros pre c rdb h Hw Hr. rewrite zlen_le_enc. apply saveFloat_spec; [done|unfold room in *; lia].
  - apply crc_sums.
Qed.

(** The form of a long string that was compressed is not the string as it is. *)
Lemma lzf_form_not_raw t C bs : lzf_form t C bs → 2 ^ 32 <= zlen bs → t ≠ len_bytes (zlen bs) ++ bs.
Proof.
  intros [-> _] Hb. unfold len_bytes. rewrite !(proj2 (Z.ltb_ge (zlen bs) _)) by lia. intros E. discriminate E.
Qed.

Lemma saved_form_big {G : RdbServer} t bs :
  saved_form t bs → 2 ^ 32 <= zlen bs → t = len_bytes (zlen bs) ++ bs ∨ ∃ C, lzf_form t C bs.
Proof.
  intros [(v & -> & Hv)|[_ [->|(_ & _ & HC)]]] Hb; [|by left|by right]. pose proof (zlen_dec_32 v t Hv). lia.
Qed.

(** The length of a string in the form of the protocol, as an [int]. *)
Lemma bulk_result bs :
  (zlen bs <= 2 ^ 31 - 16 → s32 (zlen (bulk_string bs)) = zlen (bulk_string bs)) ∧
  (zlen bs = 2 ^ 32 - 15 → s32 (zlen (bulk_string bs)) = 0).
Proof.
  unfold bulk_string, bulk_count, crlf. pose proof (zlen_nonneg bs). split; intros Hb.
  - assert (zlen (dec (zlen bs)) <= 10).
    { unfold dec. test (zlen bs <? 0) false. unfold udec. rewrite (udec_n_enough 20 10) by lia. apply (udec_n_max 10). }
    pose proof (zlen_nonneg (dec (zlen bs))). apply wraps_id; [lia|]. zlr. lia.
  - zlr. rewrite Hb. by vm_compute.
Qed.

(** C38. What [rdbSaveStringObject] writes for a string object of any encoding
    and length, and the length it returns, also without a stream, is the number
    the string is the decimal form of, or the string as it is, or, if compression
    is on, bytes that decompress to it, or to what is left of it when its length
    is cut to 32 bits.  With any flags and in any state of the server these bytes
    are loaded as the string, if there is memory for it and the string has less
    than 2^32 bytes or was written as it is.  A longer string that was compressed
    is refused; every string is compressed whose length is one more than a
    multiple of 2^32.  [rioWriteBulkObject] writes the string in the form of the
    protocol, but its result is cut to an [int]: it is the number of bytes up to
    2^31 - 16 bytes of string, and 0, which stands for an error, for 2^32 - 15. *)
Theorem rdb_string_roundtrip {H : HostOrder} {A : Allocator} {L : AllocatorLaws A} {TL : TryLaws A}
    {N : ObjAlloc} {NL : ObjAllocLaws N} {V : Server} {G : RdbServer}
    {T : Type} {B : Backend T} {W : WriteLaws B} {R : ReadLaws B} (upd : Z → Z → Z) (c0 : Z) :
  (∀ pre c rdb h hp o bs htab,
     saved upd c0 pre c rdb h → string_obj hp o bs → bytes_ok bs → LzfCompress.table_ok htab → room pre h (zlen bs + 100) →
     ∃ rdb' t, rdbSaveStringObject htab hp rdb o = Ret (rdb', zlen t) ∧ saved upd c0 pre c rdb' (h ++ t) ∧ saved_form t bs ∧
       (∀ hp2 r h2 u flags, reading upd c0 r h2 (t ++ u) → shared_ok hp2 →
          (zlen bs < 2 ^ 32 ∨ t = len_bytes (zlen bs) ++ bs → avail (zlen bs + 128) →
             loaded_as upd c0 hp2 flags h2 t u bs (rdbGenericLoadStringObject hp2 r flags)) ∧
          (2 ^ 32 <= zlen bs → t ≠ len_bytes (zlen bs) ++ bs → loading = false →
             ∃ r' lp, rdbGenericLoadStringObject hp2 r flags = Ret (hp2, r', L_NULL, lp))) ∧
       (rdb_compression = true → 2 ^ 32 <= zlen bs → zlen bs mod 2 ^ 32 = 1 → t ≠ len_bytes (zlen bs) ++ bs)) ∧
  (∀ pre r h hp o bs,
     writing upd c0 pre r h → string_obj hp o bs → bytes_ok bs → zlen pre + zlen h < 2 ^ 59 → zlen bs < 2 ^ 59 →
     (∃ r', rioWriteBulkObject hp r o = Ret (r', s32 (zlen (bulk_string bs))) ∧ writing upd c0 pre r' (h ++ bulk_string bs)) ∧
     (zlen bs <= 2 ^ 31 - 16 → s32 (zlen (bulk_string bs)) = zlen (bulk_string bs)) ∧
     (zlen bs = 2 ^ 32 - 15 → s32 (zlen (bulk_string bs)) = 0)).
Proof.
  split.
  2: { intros. split; [by apply bulkObject_spec|apply bulk_result]. }
  intros pre c rdb h hp o bs htab Hs Ho Hb Ht Hr. pose proof (zlen_nonneg bs).
  assert (zlen bs < 2 ^ 62) as Hmax by (unfold room in Hr; pose proof (zlen_nonneg pre); pose proof (zlen_nonneg h); lia).
  destruct (saveStringObject_spec upd c0 pre c rdb h hp o bs htab Hs Ho Hb Ht Hr) as (rdb' & t & E & Hs' & Hf & Hq).
  exists rdb', t. split_and!; [done..| |].
  - intros hp2 r h2 u flags Hr2 Hsh. split.
    + intros Hl Ha. pose proof (saved_form_length t bs Hf ltac:(lia)). pose proof (zlen_nonneg t).
      apply generic_exact; [done|done| |intros m Hm; apply Ha; lia..].
      destruct Hl as [Hl| ->]; [by apply saved_form_loads|]. constructor; [|done]. apply len_bytes_form. lia.
    + intros Hbig Hne Hl. destruct (saved_form_big t bs Hf Hbig) as [?|[C HC]]; [done|]. by eapply lzf_form_lost.
  - intros Hc Hbig H1. destruct (Hq Hc) as [C HC]; [lia|done|]. by eapply lzf_form_not_raw.
Qed.

(** C39. Loading a string from any bytes, as [RESTORE] does, ends in one of three
    ways: null, with the heap as it was; a string that the bytes at the front
    stand for, in a new object or a shared one or, if the flags ask for it, a
    plain block or an sds string; or, for a length of nearly 2^64, a failed
    assertion.  Every form of a string is loaded if there is memory for it.  The
    assertion is the one on the size of a new sds string, which is there before
    the allocation that may fail. *)
Theorem rdb_load_safe {H : HostOrder} {A : Allocator} {L : AllocatorLaws A} {TL : TryLaws A}
    {N : ObjAlloc} {NL : ObjAllocLaws N} {V : Server} {G : RdbServer}
    {T : Type} {B : Backend T} {R : ReadLaws B} (upd : Z → Z → Z) (c0 : Z) (hp : heap) (r : rio T) (flags : Z) (h u : list Z) :
  reading upd c0 r h u → shared_ok hp →
  (loading = false →
     is_flag flags RDB_LOAD_PLAIN = false ∧ oversized u ∧ rdbGenericLoadStringObject hp r flags = Panic ∨
     outcome_ok upd c0 hp flags h u string_form True (rdbGenericLoadStringObject hp r flags)) ∧
  (∀ t v bs, u = t ++ v → string_form t bs → avail (zlen t + 64) → avail (zlen bs + 64) →
     loaded_as upd c0 hp flags h t v bs (rdbGenericLoadStringObject hp r flags)) ∧
  (∀ n v, u = (RDB_64BITLEN :: be_enc 8 n) ++ v → 2 ^ 64 - 18 <= n < 2 ^ 64 - 1 → is_flag flags RDB_LOAD_PLAIN = false →
     rdbGenericLoadStringObject hp r flags = Panic).
Proof.
  intros Hr Hsh. split_and!.
  - intros Hl. by apply generic_any.
  - intros t v bs -> Hf At Ab. by apply generic_exact.
  - intros n v -> Hn Hp. by eapply oversized_panics.
Qed.

(** C40. [verifyDumpPayload] accepts exactly the strings that end in a version of
    at most [RDB_VERSION] and, unless the server skips that, the CRC-64 of
    everything before it in little-endian order.  The footer that
    [createDumpPayload] adds makes it accept, and a payload it accepts is refused
    after any one byte of it is replaced by another one. *)
Theorem dump_payload_verified {H : HostOrder} {A : Allocator} {L : AllocatorLaws A} {G : RdbServer} :
  ∃ table, crc64_init = Ret table ∧
    (∀ next p, bytes_ok p → ∃ b, verifyDumpPayload table next p (zlen p) = Ret b ∧ (b = true ↔ dumped p)) ∧
    (∀ next next' payload bs, rep payload bs → bytes_ok bs → zlen bs < 2 ^ 61 →
       ∃ s p, dump_footer table next payload = Ret s ∧ rep s (bs ++ p) ∧ zlen p = 10 ∧
         verifyDumpPayload table next' (bs ++ p) (zlen (bs ++ p)) = Ret true) ∧
    (∀ next next' s a b u, skip_checksum_validation = false → bytes_ok (s ++ a :: u) → is_byte b → a ≠ b →
       verifyDumpPayload table next (s ++ a :: u) (zlen (s ++ a :: u)) = Ret true →
       verifyDumpPayload table next' (s ++ b :: u) (zlen (s ++ b :: u)) = Ret false).
Proof.
  destruct crc_table_init as (table & E & Ht). exists table. split; [done|]. split_and!.
  - intros. by apply verify_spec.
  - intros next next' payload bs Hr Hb Hz. destruct (footer_spec table next payload bs Ht Hr Hb Hz) as (s & -> & Hs).
    eexists s, _. split_and!; [done|exact Hs|done|]. set (k := le_enc 8 _) in *.
    destruct (verify_spec table next' (bs ++ [9; 0] ++ k) Ht) as (b & -> & Hv).
    { unfold bytes_ok. rewrite !Forall_app. split_and!; [done|by repeat constructor|apply le_enc_bytes]. }
    f_equal. apply Hv. exists bs, 9, 0, k. split_and!; [done|apply zlen_le_enc|done|by right].
  - intros next next' s a b u Hsk Hb Hbb Hab Hv.
    assert (bytes_ok (s ++ b :: u)) as Hb2 by (unfold bytes_ok in *; rewrite !Forall_app, !Forall_cons in *; tauto).
    destruct (verify_spec table next _ Ht Hb) as (x & Ex & Hx). destruct (verify_spec table next' _ Ht Hb2) as ([] & -> & Hy); [|done].
    destruct Hab. apply (dumped_byte s a b u Hsk Hb Hbb); [apply Hx; congruence|by apply Hy].
Qed.

(** * Examples *)

#[local] Instance ex_order : HostOrder := true.
#[local] Instance ex_memory : Allocator := {| usable_size n := n; junk n := replicate (Z.to_nat n) 0; try_ok n := n <? 2 ^ 62 |}.
#[local] Instance ex_objects : ObjAlloc := ex_objs.
#[local] Instance ex_state : Server := ex_server.
#[local] Instance ex_rdb : RdbServer := Build_RdbServer false true false false false.
#[local] Instance ex_stream : Backend buffer := rioBufferIO.

#[local] Instance ex_memory_laws : AllocatorLaws ex_memory.
Proof.
  split; simpl; intros; [lia|lia|apply length_replicate|]. apply Forall_replicate. by unfold is_byte.
Qed.

#[local] Instance ex_memory_try : TryLaws ex_memory.
Proof. intros n Hn. simpl in Hn. lia. Qed.

(** An empty string, and the string [abc] as it is saved. *)
Definition ex_empty : sds := Sds [0; 0; 1; 0] 3.
Definition ex_saved : sds := Sds [4; 4; 1; 3; 97; 98; 99; 0] 3.

Lemma ex_empty_rep : rep ex_empty [].
Proof. exists 1, 0, []. by repeat split. Qed.

Lemma ex_saved_rep : rep ex_saved ([3; 97; 98; 99] ++ []).
Proof. exists 1, 4, []. by repeat split. Qed.

Lemma ex_text_big : holds ex_text (cstr "123").
Proof. constructor. exists 1, 4, [170]. by repeat split. Qed.

Definition ex_table : list Z := replicate (Z.to_nat Lzf.HSIZE) 0.

Lemma ex_table_ok : LzfCompress.table_ok ex_table.
Proof.
  split.
  - unfold ex_table. rewrite zlen_replicate. by vm_compute.
  - unfold ex_table. apply Forall_replicate. lia.
Qed.

Lemma ex_avail k : k < 2 ^ 62 → avail k.
Proof. intros Hk m Hm. simpl. lia. Qed.

Lemma rdb_values_roundtrip_witness :
  ∃ rdb', rdbSaveLen (Some (rioInitWithBuffer ex_empty)) 300 = Ret (rdb', 2) ∧
    saved (λ c _, c) 0 [] false rdb' [65; 44].
Proof.
  destruct (rdb_values_roundtrip (B := ex_stream) (W := buffer_write) (R := buffer_read) (λ c _, c) 0) as [Hlen _].
  destruct (Hlen 300 ltac:(lia)) as [Hs _].
  exact (Hs [] false (Some (rioInitWithBuffer ex_empty)) [] (conj eq_refl (init_writing _ _ ex_empty_rep)) ltac:(by vm_compute)).
Defined.

Lemma rdb_string_roundtrip_witness :
  ∃ rdb' t, rdbSaveStringObject ex_table {[1 := ex_text]} (Some (rioInitWithBuffer ex_empty)) 1 = Ret (rdb', zlen t) ∧
    saved_form t (cstr "123") ∧
    ∀ s hp, rep s (t ++ []) → bytes_ok (t ++ []) → zlen (t ++ []) < 2 ^ 62 → shared_ok hp →
      loaded_as (λ c _, c) 0 hp RDB_LOAD_NONE [] t [] (cstr "123") (rdbGenericLoadStringObject hp (rioInitWithBuffer s) RDB_LOAD_NONE).
Proof.
  destruct (rdb_string_roundtrip (B := ex_stream) (NL := ex_objs_laws) (W := buffer_write) (R := buffer_read) (λ c _, c) 0) as [Hrt _].
  destruct (Hrt [] false (Some (rioInitWithBuffer ex_empty)) [] {[1 := ex_text]} 1 (cstr "123") ex_table
    (conj eq_refl (init_writing _ _ ex_empty_rep)) ltac:(exists ex_text; split; [done|exact ex_text_big]) ltac:(by repeat constructor)
    ex_table_ok ltac:(by vm_compute))
    as (rdb' & t & E & _ & Hf & Hload & _).
  exists rdb', t. split; [exact E|]. split; [exact Hf|]. intros s hp Hr Hb Hz Hsh.
  pose proof (init_reading s (t ++ []) Hr Hb Hz) as Hread. pose proof (ex_avail (zlen (cstr "123") + 128) ltac:(by vm_compute)) as Ha.
  assert (zlen (cstr "123") < 2 ^ 32) as Hl by (by vm_compute).
  exact (proj1 (Hload hp (rioInitWithBuffer s) [] [] RDB_LOAD_NONE Hread Hsh) (or_introl Hl) Ha).
Defined.

Lemma rdb_load_safe_witness :
  ∃ hp, shared_ok hp ∧ loaded_as (λ c _, c) 0 hp RDB_LOAD_NONE [] [3; 97; 98; 99] [] (cstr "abc")
    (rdbGenericLoadStringObject hp (rioInitWithBuffer ex_saved) RDB_LOAD_NONE).
Proof.
  destruct ex_heap_shared as [hp Hsh]. exists hp. split; [exact Hsh|].
  destruct (rdb_load_safe (B := ex_stream) (NL := ex_objs_laws) (R := buffer_read) (λ c _, c) 0 hp (rioInitWithBuffer ex_saved) RDB_LOAD_NONE []
    _ (init_reading _ _ ex_saved_rep ltac:(by repeat constructor) ltac:(by vm_compute)) Hsh) as (_ & Hload & _).
  apply (Hload [3; 97; 98; 99] [] (cstr "abc") eq_refl); [|apply ex_avail; by vm_compute..].
  apply (form_raw [3] (cstr "abc")); [|by repeat constructor]. exact (len_6 3 ltac:(lia)).
Defined.

Lemma dump_payload_verified_witness :
  ∃ table s p, crc64_init = Ret table ∧ dump_footer table 0 ex_saved = Ret s ∧ rep s ([3; 97; 98; 99] ++ p) ∧
    verifyDumpPayload table 7 ([3; 97; 98; 99] ++ p) (zlen ([3; 97; 98; 99] ++ p)) = Ret true.
Proof.
  destruct dump_payload_verified as (table & E & _ & Hfoot & _). exists table.
  destruct (Hfoot 0 7 ex_saved [3; 97; 98; 99] ex_saved_rep ltac:(by repeat constructor) ltac:(by vm_compute)) as (s & p & Es & Hr & _ & Hv).
  exists s, p. split_and!; assumption.
Defined.

End RdbSpec.
