(* ===== verification/Skiplist.v ===== *)
(** Skip lists: the low-level part of [src/.../redis-6.2/src/t_zset.c], with the
    structures of [server.h].

    The nodes live in a heap of their own and a null pointer is 0; the header is
    a node.  Scores are [double]s of which only the order is used: a type with a
    comparison ([Score]).  Elements are dynamic strings compared by [sdscmp]: a
    type with that comparison ([Element]).  The numbers [random] returns are an
    argument, and so are the addresses and the contents of new nodes. *)
From stdpp Require Import gmap.
From S2P Require Import Prelude.

Module Skiplist.

(** * Interfaces *)

(** The scores with the operators [<], [==] and [isnan]. *)
Class Score := {
  score : Type;
  score_lt : score → score → bool;
  score_eq : score → score → bool;
  isnan : score → bool;
  score_zero : score;
}.

(** What IEEE comparison promises of numbers: a strict weak order ([-0] and [0]
    are equal and not the same). *)
Class ScoreLaws (SC : Score) : Prop := {
  score_lt_irrefl : ∀ a, score_lt a a = false;
  score_lt_trans : ∀ a b c, score_lt a b = true → score_lt b c = true → score_lt a c = true;
  score_lt_weak : ∀ a b c, isnan b = false → score_lt a c = true → score_lt a b = true ∨ score_lt b c = true;
  score_eq_lt : ∀ a b, isnan a = false → isnan b = false →
    score_eq a b = negb (score_lt a b) && negb (score_lt b a);
}.

(** The elements, with the result of [sdscmp]. *)
Class Element := {
  element : Type;
  elecmp : element → element → Z;
}.

Class ElementLaws (EL : Element) : Prop := {
  elecmp_eq : ∀ a b, elecmp a b = 0 ↔ a = b;
  elecmp_anti : ∀ a b, elecmp a b < 0 ↔ 0 < elecmp b a;
  elecmp_trans : ∀ a b c, elecmp a b < 0 → elecmp b c < 0 → elecmp a c < 0;
}.

(** * Data (server.h) *)

Record zskiplistLevel := Level { forward : Z; span : Z }.

Record zskiplistNode {SC : Score} {EL : Element} := ZNode {
  ele : option element;
  zscore : score;
  backward : Z;
  level : list zskiplistLevel;
}.
Arguments ZNode {_ _}.

Record zskiplist := Zsl { header : Z; tail : Z; zlength : Z; zlevel : nat }.

Abbreviation heap := (gmap Z zskiplistNode).

(** The address of a new node, and what its fields hold before they are set. *)
Class ZslAlloc := {
  znew : gset Z → Z;
  zjunk_level : nat → list zskiplistLevel;
  zjunk_backward : Z;
}.
Class ZslAllocLaws (A : ZslAlloc) : Prop := {
  znew_fresh : ∀ X, (znew X ∉ X) ∧ znew X ≠ 0;
  zjunk_level_length : ∀ n, length (zjunk_level n) = n;
}.

Definition ZSKIPLIST_MAXLEVEL : nat := 32.

Record zrangespec {SC : Score} := Range { rmin : score; rmax : score; minex : bool; maxex : bool }.
Arguments Range {_}.

(** A bound of a lexicographic range; the shared strings are the infinite ones. *)
Inductive lexbound {EL : Element} := Minstring | Maxstring | Bound (e : element).
Record zlexrangespec {EL : Element} := LexRange { lmin : lexbound; lmax : lexbound; lminex : bool; lmaxex : bool }.
Arguments LexRange {_}.

Section operations.
Context {SC : Score} {EL : Element} {A : ZslAlloc}.

(** * Access to nodes *)

Definition deref (h : heap) (x : Z) : outcome zskiplistNode :=
  match h !! x with Some n => Ret n | None => Fault end.

(** [x->level[i]] and assignments to its fields. *)
Definition get_level (h : heap) (x : Z) (i : nat) : outcome zskiplistLevel :=
  n ← deref h x;
  match level n !! i with Some l => Ret l | None => Fault end.
Definition set_level (h : heap) (x : Z) (i : nat) (l : zskiplistLevel) : outcome heap :=
  n ← deref h x;
  if bool_decide (i < length (level n))%nat
  then Ret (<[x := ZNode (ele n) (zscore n) (backward n) (<[i := l]> (level n))]> h) else Fault.
Definition set_forward (h : heap) (x : Z) (i : nat) (f : Z) : outcome heap :=
  l ← get_level h x i; set_level h x i (Level f (span l)).
Definition set_span (h : heap) (x : Z) (i : nat) (s : Z) : outcome heap :=
  l ← get_level h x i; set_level h x i (Level (forward l) s).
Definition set_backward (h : heap) (x b : Z) : outcome heap :=
  n ← deref h x; Ret (<[x := ZNode (ele n) (zscore n) b (level n)]> h).
Definition set_score (h : heap) (x : Z) (s : score) : outcome heap :=
  n ← deref h x; Ret (<[x := ZNode (ele n) s (backward n) (level n)]> h).

(** The element of a node that is not the header. *)
Definition node_ele (n : zskiplistNode) : outcome element :=
  match ele n with Some e => Ret e | None => Fault end.

(** An entry of the array [update] or [rank]. *)
Definition slot (l : list Z) (i : nat) : outcome Z :=
  match l !! i with Some v => Ret v | None => Fault end.

(** * Creation and release *)

Definition zslCreateNode (h : heap) (lv : nat) (s : score) (e : option element) : heap * Z :=
  let zn := znew (dom h) in
  (<[zn := ZNode e s zjunk_backward (zjunk_level lv)]> h, zn).

(** [for (j = 0; j < ZSKIPLIST_MAXLEVEL; j++)]; [n] levels are left from [j]. *)
Fixpoint clear_levels (n j : nat) (h : heap) (x : Z) : outcome heap :=
  match n with
  | O => Ret h
  | S n =>
    h ← set_forward h x j 0;
    h ← set_span h x j 0;
    clear_levels n (S j) h x
  end.

Definition zslCreate (h : heap) : outcome (heap * zskiplist) :=
  let '(h, hd) := zslCreateNode h ZSKIPLIST_MAXLEVEL score_zero None in
  h ← clear_levels ZSKIPLIST_MAXLEVEL 0 h hd;
  h ← set_backward h hd 0;
  Ret (h, Zsl hd 0 0 1).

Definition zslFreeNode (h : heap) (x : Z) : heap := delete x h.

(** [while(node)] *)
Fixpoint free_loop (fuel : nat) (h : heap) (node : Z) : outcome heap :=
  match fuel with
  | O => OutOfFuel
  | S fuel =>
    if node =? 0 then Ret h
    else l ← get_level h node 0; free_loop fuel (zslFreeNode h node) (forward l)
  end.

Definition zslFree (h : heap) (zsl : zskiplist) : outcome heap :=
  l ← get_level h (header zsl) 0;
  free_loop (S (Z.to_nat (zlength zsl))) (delete (header zsl) h) (forward l).

(** * Search *)

(** [while (x->level[i].forward && cond) { acc += span; x = forward; }] *)
Fixpoint walk (fuel : nat) (h : heap) (wrap : Z → Z)
    (cond : Z → zskiplistLevel → zskiplistNode → bool) (i : nat) (x acc : Z) : outcome (Z * Z) :=
  match fuel with
  | O => OutOfFuel
  | S fuel =>
    l ← get_level h x i;
    if forward l =? 0 then Ret (x, acc)
    else
      f ← deref h (forward l);
      if cond acc l f then walk fuel h wrap cond i (forward l) (wrap (acc + span l))
      else Ret (x, acc)
  end.

Definition walk_fuel (zsl : zskiplist) : nat := S (Z.to_nat (zlength zsl)).

(** [for (i = zsl->level-1; i >= 0; i--)]: the levels below [n]; the arrays
    [update] and [rank] have the entry of level 0 first. *)
Fixpoint descend (n fuel : nat) (h : heap) (wrap : Z → Z)
    (cond : Z → zskiplistLevel → zskiplistNode → bool) (x acc : Z) : outcome (list Z * list Z) :=
  match n with
  | O => Ret ([], [])
  | S i =>
    '(x, acc) ← walk fuel h wrap cond i x acc;
    '(update, rank) ← descend i fuel h wrap cond x acc;
    Ret (update ++ [x], rank ++ [acc])
  end.

(** The node is before the score and the element. *)
Definition node_lt (s : score) (e : element) (_ : Z) (_ : zskiplistLevel) (f : zskiplistNode) : bool :=
  score_lt (zscore f) s ||
  (score_eq (zscore f) s && match ele f with Some e' => elecmp e' e <? 0 | None => false end).
Definition node_le (s : score) (e : element) (_ : Z) (_ : zskiplistLevel) (f : zskiplistNode) : bool :=
  score_lt (zscore f) s ||
  (score_eq (zscore f) s && match ele f with Some e' => elecmp e' e <=? 0 | None => false end).

(** * Insertion *)

(** [while ((random()&0xFFFF) < (ZSKIPLIST_P * 0xFFFF)) level += 1;]: the bound is
    0.25 times 65535, which an integer is below when it is at most 16383. *)
Fixpoint random_loop (draws : list Z) (lv : nat) : outcome (nat * list Z) :=
  match draws with
  | [] => OutOfFuel
  | r :: draws =>
    if Z.land r 0xFFFF <=? 16383 then random_loop draws (S lv) else Ret (lv, draws)
  end.

Definition zslRandomLevel (draws : list Z) : outcome (nat * list Z) :=
  '(lv, draws) ← random_loop draws 1;
  Ret (if (lv <? ZSKIPLIST_MAXLEVEL)%nat then lv else ZSKIPLIST_MAXLEVEL, draws).

(** [for (i = zsl->level; i < level; i++)]; [n] levels are left from [i]. *)
Fixpoint raise_loop (n i : nat) (h : heap) (zsl : zskiplist) (update rank : list Z)
    : outcome (heap * list Z * list Z) :=
  match n with
  | O => Ret (h, update, rank)
  | S n =>
    h ← set_span h (header zsl) i (zlength zsl);
    raise_loop n (S i) h zsl (update ++ [header zsl]) (rank ++ [0])
  end.

(** [for (i = 0; i < level; i++)] *)
Fixpoint link_loop (n i : nat) (h : heap) (x : Z) (update rank : list Z) : outcome heap :=
  match n with
  | O => Ret h
  | S n =>
    u ← slot update i;
    r0 ← slot rank 0;
    r ← slot rank i;
    lu ← get_level h u i;
    h ← set_forward h x i (forward lu);
    h ← set_forward h u i x;
    lu ← get_level h u i;
    h ← set_span h x i (u64 (span lu - u32 (r0 - r)));
    h ← set_span h u i (u32 (u32 (r0 - r) + 1));
    link_loop n (S i) h x update rank
  end.

(** [for (i = level; i < zsl->level; i++)] *)
Fixpoint untouched_loop (n i : nat) (h : heap) (update : list Z) : outcome heap :=
  match n with
  | O => Ret h
  | S n =>
    u ← slot update i;
    lu ← get_level h u i;
    h ← set_span h u i (u64 (span lu + 1));
    untouched_loop n (S i) h update
  end.

Definition zslInsert (h : heap) (zsl : zskiplist) (s : score) (e : element) (draws : list Z)
    : outcome (heap * zskiplist * Z * list Z) :=
  _ ← c_assert (negb (isnan s));
  '(update, rank) ← descend (zlevel zsl) (walk_fuel zsl) h (wrapu 32) (node_lt s e) (header zsl) 0;
  '(lv, draws) ← zslRandomLevel draws;
  '(h, update, rank, zl) ←
    (if (zlevel zsl <? lv)%nat then
       '(h, update, rank) ← raise_loop (lv - zlevel zsl) (zlevel zsl) h zsl update rank;
       Ret (h, update, rank, lv)
     else Ret (h, update, rank, zlevel zsl));
  let '(h, x) := zslCreateNode h lv s (Some e) in
  h ← link_loop lv 0 h x update rank;
  h ← untouched_loop (zl - lv) lv h update;
  u0 ← slot update 0;
  h ← set_backward h x (if u0 =? header zsl then 0 else u0);
  l0 ← get_level h x 0;
  '(h, tl) ← (if negb (forward l0 =? 0) then h ← set_backward h (forward l0) x; Ret (h, tail zsl)
              else Ret (h, x));
  Ret (h, Zsl (header zsl) tl (u64 (zlength zsl + 1)) zl, x, draws).

(** * Deletion *)

(** [for (i = 0; i < zsl->level; i++)]; [n] levels are left from [i]. *)
Fixpoint unlink_levels (n i : nat) (h : heap) (x : Z) (update : list Z) : outcome heap :=
  match n with
  | O => Ret h
  | S n =>
    u ← slot update i;
    lu ← get_level h u i;
    h ← (if forward lu =? x then
           lx ← get_level h x i;
           h ← set_span h u i (u64 (span lu + (span lx - 1)));
           set_forward h u i (forward lx)
         else set_span h u i (u64 (span lu - 1)));
    unlink_levels n (S i) h x update
  end.

(** [while(zsl->level > 1 && zsl->header->level[zsl->level-1].forward == NULL)] *)
Fixpoint lower_loop (lv : nat) (h : heap) (hd : Z) : outcome nat :=
  match lv with
  | S (S lv' as lv1) =>
    l ← get_level h hd lv1;
    if forward l =? 0 then lower_loop lv1 h hd else Ret lv
  | _ => Ret lv
  end.

Definition zslDeleteNode (h : heap) (zsl : zskiplist) (x : Z) (update : list Z) : outcome (heap * zskiplist) :=
  h ← unlink_levels (zlevel zsl) 0 h x update;
  nx ← deref h x;
  l0 ← get_level h x 0;
  '(h, tl) ← (if negb (forward l0 =? 0) then h ← set_backward h (forward l0) (backward nx); Ret (h, tail zsl)
              else Ret (h, backward nx));
  lv ← lower_loop (zlevel zsl) h (header zsl);
  Ret (h, Zsl (header zsl) tl (u64 (zlength zsl - 1)) lv).

(** [x->score == s && sdscmp(x->ele, e) == 0] *)
Definition same_node (n : zskiplistNode) (s : score) (e : element) : bool :=
  score_eq s (zscore n) && match ele n with Some e' => elecmp e' e =? 0 | None => false end.

(** The node that was deleted, or 0; it is kept when the caller asks for it. *)
Definition zslDelete (h : heap) (zsl : zskiplist) (s : score) (e : element) (keep : bool)
    : outcome (heap * zskiplist * Z) :=
  '(update, _) ← descend (zlevel zsl) (walk_fuel zsl) h (λ a, a) (node_lt s e) (header zsl) 0;
  u0 ← slot update 0;
  l ← get_level h u0 0;
  let x := forward l in
  if x =? 0 then Ret (h, zsl, 0)
  else
    n ← deref h x;
    if same_node n s e then
      '(h, zsl) ← zslDeleteNode h zsl x update;
      Ret (if keep then h else zslFreeNode h x, zsl, x)
    else Ret (h, zsl, 0).

Definition zslUpdateScore (h : heap) (zsl : zskiplist) (curscore : score) (e : element) (newscore : score)
    (draws : list Z) : outcome (heap * zskiplist * Z * list Z) :=
  '(update, _) ← descend (zlevel zsl) (walk_fuel zsl) h (λ a, a) (node_lt curscore e) (header zsl) 0;
  u0 ← slot update 0;
  l ← get_level h u0 0;
  let x := forward l in
  _ ← c_assert (negb (x =? 0));
  n ← deref h x;
  _ ← c_assert (same_node n curscore e);
  before ← (if backward n =? 0 then Ret true
            else b ← deref h (backward n); Ret (score_lt (zscore b) newscore));
  lx ← get_level h x 0;
  stays ← (if before : bool then
             (if forward lx =? 0 then Ret true
              else f ← deref h (forward lx); Ret (score_lt newscore (zscore f)))
           else Ret false);
  if stays : bool then h ← set_score h x newscore; Ret (h, zsl, x, draws)
  else
    '(h, zsl) ← zslDeleteNode h zsl x update;
    e' ← node_ele n;
    '(h, zsl, newnode, draws) ← zslInsert h zsl newscore e' draws;
    Ret (zslFreeNode h x, zsl, newnode, draws).

(** * Ranges *)

Definition score_le (a b : score) : bool := score_lt a b || score_eq a b.

Definition zslValueGteMin (v : score) (spec : zrangespec) : bool :=
  if minex spec then score_lt (rmin spec) v else score_le (rmin spec) v.
Definition zslValueLteMax (v : score) (spec : zrangespec) : bool :=
  if maxex spec then score_lt v (rmax spec) else score_le v (rmax spec).

Definition zslIsInRange (h : heap) (zsl : zskiplist) (range : zrangespec) : outcome bool :=
  if score_lt (rmax range) (rmin range) ||
     (score_eq (rmin range) (rmax range) && (minex range || maxex range)) then Ret false
  else
    let x := tail zsl in
    t ← (if x =? 0 then Ret false else n ← deref h x; Ret (zslValueGteMin (zscore n) range));
    if negb t then Ret false
    else
      l ← get_level h (header zsl) 0;
      if forward l =? 0 then Ret false
      else n ← deref h (forward l); Ret (zslValueLteMax (zscore n) range).

Definition below_min (range : zrangespec) (_ : Z) (_ : zskiplistLevel) (f : zskiplistNode) : bool :=
  negb (zslValueGteMin (zscore f) range).
Definition upto_max (range : zrangespec) (_ : Z) (_ : zskiplistLevel) (f : zskiplistNode) : bool :=
  zslValueLteMax (zscore f) range.

Definition zslFirstInRange (h : heap) (zsl : zskiplist) (range : zrangespec) : outcome Z :=
  b ← zslIsInRange h zsl range;
  if negb b then Ret 0
  else
    '(update, _) ← descend (zlevel zsl) (walk_fuel zsl) h (λ a, a) (below_min range) (header zsl) 0;
    u0 ← slot update 0;
    l ← get_level h u0 0;
    let x := forward l in
    _ ← c_assert (negb (x =? 0));
    n ← deref h x;
    if negb (zslValueLteMax (zscore n) range) then Ret 0 else Ret x.

Definition zslLastInRange (h : heap) (zsl : zskiplist) (range : zrangespec) : outcome Z :=
  b ← zslIsInRange h zsl range;
  if negb b then Ret 0
  else
    '(update, _) ← descend (zlevel zsl) (walk_fuel zsl) h (λ a, a) (upto_max range) (header zsl) 0;
    x ← slot update 0;
    _ ← c_assert (negb (x =? 0));
    n ← deref h x;
    if negb (zslValueGteMin (zscore n) range) then Ret 0 else Ret x.

(** [while (x && ...)]: delete nodes while the test holds; [dictDelete] acts on
    the hash table of the sorted set. *)
Fixpoint delete_while {D} (dictDelete : D → element → D) (fuel : nat) (h : heap) (zsl : zskiplist) (d : D)
    (test : Z → zskiplistNode → bool) (update : list Z) (x traversed removed : Z)
    : outcome (heap * zskiplist * D * Z) :=
  match fuel with
  | O => OutOfFuel
  | S fuel =>
    if x =? 0 then Ret (h, zsl, d, removed)
    else
      n ← deref h x;
      if test traversed n then
        l ← get_level h x 0;
        '(h, zsl) ← zslDeleteNode h zsl x update;
        e ← node_ele n;
        delete_while dictDelete fuel (zslFreeNode h x) zsl (dictDelete d e) test update (forward l)
          (u64 (traversed + 1)) (u64 (removed + 1))
      else Ret (h, zsl, d, removed)
  end.

Definition zslDeleteRangeByScore {D} (dictDelete : D → element → D) (h : heap) (zsl : zskiplist)
    (range : zrangespec) (d : D) : outcome (heap * zskiplist * D * Z) :=
  '(update, _) ← descend (zlevel zsl) (walk_fuel zsl) h (λ a, a) (below_min range) (header zsl) 0;
  u0 ← slot update 0;
  l ← get_level h u0 0;
  delete_while dictDelete (walk_fuel zsl) h zsl d (λ _ n, zslValueLteMax (zscore n) range) update (forward l) 0 0.

(** Start and end are 1-based and inclusive. *)
Definition zslDeleteRangeByRank {D} (dictDelete : D → element → D) (h : heap) (zsl : zskiplist)
    (start fin : Z) (d : D) : outcome (heap * zskiplist * D * Z) :=
  '(update, rank) ← descend (zlevel zsl) (walk_fuel zsl) h (wrapu 64)
    (λ traversed l _, u64 (traversed + span l) <? start) (header zsl) 0;
  u0 ← slot update 0;
  traversed ← slot rank 0;
  l ← get_level h u0 0;
  delete_while dictDelete (walk_fuel zsl) h zsl d (λ traversed _, traversed <=? fin) update (forward l)
    (u64 (traversed + 1)) 0.

(** * Ranks *)

Fixpoint rank_loop (n fuel : nat) (h : heap) (s : score) (e : element) (x rank : Z) : outcome Z :=
  match n with
  | O => Ret 0
  | S i =>
    '(x, rank) ← walk fuel h (wrapu 64) (node_le s e) i x rank;
    nx ← deref h x;
    if match ele nx with Some e' => elecmp e' e =? 0 | None => false end then Ret rank
    else rank_loop i fuel h s e x rank
  end.

Definition zslGetRank (h : heap) (zsl : zskiplist) (s : score) (e : element) : outcome Z :=
  rank_loop (zlevel zsl) (walk_fuel zsl) h s e (header zsl) 0.

Fixpoint element_loop (n fuel : nat) (h : heap) (rank x traversed : Z) : outcome Z :=
  match n with
  | O => Ret 0
  | S i =>
    '(x, traversed) ← walk fuel h (wrapu 64) (λ traversed l _, u64 (traversed + span l) <=? rank) i x traversed;
    if traversed =? rank then Ret x else element_loop i fuel h rank x traversed
  end.

Definition zslGetElementByRank (h : heap) (zsl : zskiplist) (rank : Z) : outcome Z :=
  element_loop (zlevel zsl) (walk_fuel zsl) h rank (header zsl) 0.

(** * Lexicographic ranges *)

Definition sdscmplex (a b : lexbound) : Z :=
  match a, b with
  | Minstring, Minstring | Maxstring, Maxstring => 0
  | Minstring, _ | _, Maxstring => -1
  | Maxstring, _ | _, Minstring => 1
  | Bound a, Bound b => elecmp a b
  end.

Definition zslLexValueGteMin (v : element) (spec : zlexrangespec) : bool :=
  if lminex spec then 0 <? sdscmplex (Bound v) (lmin spec) else 0 <=? sdscmplex (Bound v) (lmin spec).
Definition zslLexValueLteMax (v : element) (spec : zlexrangespec) : bool :=
  if lmaxex spec then sdscmplex (Bound v) (lmax spec) <? 0 else sdscmplex (Bound v) (lmax spec) <=? 0.

(** The test of a node by its element; only the header has none, and no forward
    pointer leads to it. *)
Definition below_lex (range : zlexrangespec) (_ : Z) (_ : zskiplistLevel) (f : zskiplistNode) : bool :=
  match ele f with Some e => negb (zslLexValueGteMin e range) | None => false end.
Definition lex_lte (range : zlexrangespec) (f : zskiplistNode) : bool :=
  match ele f with Some e => zslLexValueLteMax e range | None => false end.
Definition upto_lex (range : zlexrangespec) (_ : Z) (_ : zskiplistLevel) (f : zskiplistNode) : bool :=
  lex_lte range f.

Definition zslDeleteRangeByLex {D} (dictDelete : D → element → D) (h : heap) (zsl : zskiplist)
    (range : zlexrangespec) (d : D) : outcome (heap * zskiplist * D * Z) :=
  '(update, _) ← descend (zlevel zsl) (walk_fuel zsl) h (λ a, a) (below_lex range) (header zsl) 0;
  u0 ← slot update 0;
  l ← get_level h u0 0;
  delete_while dictDelete (walk_fuel zsl) h zsl d (λ _ n, lex_lte range n) update (forward l) 0 0.

Definition zslIsInLexRange (h : heap) (zsl : zskiplist) (range : zlexrangespec) : outcome bool :=
  let cmp := sdscmplex (lmin range) (lmax range) in
  if (0 <? cmp) || ((cmp =? 0) && (lminex range || lmaxex range)) then Ret false
  else
    let x := tail zsl in
    t ← (if x =? 0 then Ret false
         else n ← deref h x; e ← node_ele n; Ret (zslLexValueGteMin e range));
    if negb t then Ret false
    else
      l ← get_level h (header zsl) 0;
      if forward l =? 0 then Ret false
      else n ← deref h (forward l); e ← node_ele n; Ret (zslLexValueLteMax e range).

Definition zslFirstInLexRange (h : heap) (zsl : zskiplist) (range : zlexrangespec) : outcome Z :=
  b ← zslIsInLexRange h zsl range;
  if negb b then Ret 0
  else
    '(update, _) ← descend (zlevel zsl) (walk_fuel zsl) h (λ a, a) (below_lex range) (header zsl) 0;
    u0 ← slot update 0;
    l ← get_level h u0 0;
    let x := forward l in
    _ ← c_assert (negb (x =? 0));
    n ← deref h x;
    e ← node_ele n;
    if negb (zslLexValueLteMax e range) then Ret 0 else Ret x.

Definition zslLastInLexRange (h : heap) (zsl : zskiplist) (range : zlexrangespec) : outcome Z :=
  b ← zslIsInLexRange h zsl range;
  if negb b then Ret 0
  else
    '(update, _) ← descend (zlevel zsl) (walk_fuel zsl) h (λ a, a) (upto_lex range) (header zsl) 0;
    x ← slot update 0;
    _ ← c_assert (negb (x =? 0));
    n ← deref h x;
    e ← node_ele n;
    if negb (zslLexValueGteMin e range) then Ret 0 else Ret x.

End operations.

End Skiplist.
