(* ===== verification/SkiplistRep.v ===== *)
(** Skip lists: what a heap must hold for a skip list to represent a list of
    nodes, and how the searches move along it. *)
From stdpp Require Import gmap.
From S2P Require Import Prelude Skiplist.

Module SkiplistRep.
Import Skiplist.

(** * The list behind a skip list *)

(** A node as an element of the list: its address, its contents and its height. *)
Record anode {SC : Score} {EL : Element} := AN { addr : Z; asc : score; ael : element; ht : nat }.
Arguments AN {_ _}.

Section representation.
Context {SC : Score} {EL : Element}.
Implicit Types (h F : heap) (A B ns : list anode) (a : anode).

(** What level [i] of a node holds when [B] are the nodes after it: the first one
    that reaches the level and its distance, or a null pointer and the number of
    nodes that are left. *)
Fixpoint fwd (i : nat) (B : list anode) : zskiplistLevel :=
  match B with
  | [] => Level 0 0
  | a :: B => if bool_decide (i < ht a)%nat then Level (addr a) 1
              else Level (forward (fwd i B)) (1 + span (fwd i B))
  end.

(** The node at the end of a prefix of the list: the header for the empty one. *)
Definition pos (hd : Z) (A : list anode) : Z := match last A with Some a => addr a | None => hd end.
(** The number of levels in use of that node, and its backward pointer. *)
Definition top (lv : nat) (A : list anode) : nat := match last A with Some a => ht a | None => lv end.
Definition back (A : list anode) : Z := pos 0 A.

(** The fields of a node other than its levels, with the number of levels. *)
Definition info (n : zskiplistNode) : option element * score * Z * nat :=
  (ele n, zscore n, backward n, length (level n)).
Definition ainfo (A : list anode) (a : anode) : option element * score * Z * nat :=
  (Some (ael a), asc a, back A, ht a).

(** One level of one node of the heap. *)
Definition cell h (x : Z) (i : nat) : option zskiplistLevel := n ← h !! x; level n !! i.

(** The heap holds the skip list [zsl] of the nodes [ns], and [F] apart from it. *)
Record Rep F h (zsl : zskiplist) (ns : list anode) : Prop := {
  rep_nodup : NoDup (header zsl :: (addr <$> ns));
  rep_nonnull : 0 ∉ header zsl :: (addr <$> ns);
  rep_header : info <$> h !! header zsl = Some (None, score_zero, 0, ZSKIPLIST_MAXLEVEL);
  rep_info : ∀ A a B, ns = A ++ a :: B → info <$> h !! addr a = Some (ainfo A a);
  rep_cell : ∀ A B i, ns = A ++ B → (i < top (zlevel zsl) A)%nat →
    cell h (pos (header zsl) A) i = Some (fwd i B);
  rep_high : ∀ i, (zlevel zsl ≤ i < ZSKIPLIST_MAXLEVEL)%nat →
    forward <$> cell h (header zsl) i = Some 0;
  rep_level : (1 ≤ zlevel zsl ≤ ZSKIPLIST_MAXLEVEL)%nat;
  rep_ht : Forall (λ a, (1 ≤ ht a ≤ zlevel zsl)%nat) ns;
  rep_tail : tail zsl = back ns;
  rep_length : zlength zsl = zlen ns;
  rep_apart : ∀ p, p ∈ header zsl :: (addr <$> ns) → F !! p = None;
  rep_frame : ∀ p, p ∉ header zsl :: (addr <$> ns) → h !! p = F !! p;
}.

(** No level is kept that no node reaches. *)
Definition tight (zsl : zskiplist) ns : Prop :=
  zlevel zsl = 1%nat ∨ Exists (λ a, ht a = zlevel zsl) ns.

(** The prefix of [A] that ends with its last node that reaches level [i]. *)
Fixpoint reach (i : nat) (A : list anode) : list anode :=
  match A with
  | [] => []
  | a :: A => match reach i A with
              | [] => if bool_decide (i < ht a)%nat then [a] else []
              | R => a :: R
              end
  end.

Definition beyond (i : nat) (A : list anode) : list anode := drop (length (reach i A)) A.

Definition short (i : nat) (S : list anode) : Prop := Forall (λ a, (ht a ≤ i)%nat) S.

(** * Properties of the views *)

Lemma pos_snoc hd A a : pos hd (A ++ [a]) = addr a.
Proof. unfold pos. by rewrite last_snoc. Qed.
Lemma top_snoc lv A a : top lv (A ++ [a]) = ht a.
Proof. unfold top. by rewrite last_snoc. Qed.

Lemma pos_app hd A B : B ≠ [] → pos hd (A ++ B) = pos hd B.
Proof. destruct B as [|b B _] using rev_ind; [done|]. intros _. by rewrite (assoc_L (++)), !pos_snoc. Qed.
Lemma top_app lv A B : B ≠ [] → top lv (A ++ B) = top lv B.
Proof. destruct B as [|b B _] using rev_ind; [done|]. intros _. by rewrite (assoc_L (++)), !top_snoc. Qed.

Lemma pos_in hd A B : pos hd A ∈ hd :: (addr <$> A ++ B).
Proof.
  destruct A as [|a A _] using rev_ind; [left|]. rewrite pos_snoc. right.
  apply list_elem_of_fmap. exists a. split; [done|]. set_solver.
Qed.

(** A prefix of a list without duplicates is known by its last node. *)
Lemma pos_inj hd A1 B1 A2 B2 :
  A1 ++ B1 = A2 ++ B2 → NoDup (hd :: (addr <$> A1 ++ B1)) → pos hd A1 = pos hd A2 → A1 = A2.
Proof.
  intros E N P. assert (K : ∀ A B, (hd :: (addr <$> A ++ B)) !! length A = Some (pos hd A)).
  { intros A B. destruct A as [|a A _] using rev_ind; [done|].
    rewrite pos_snoc, length_app, Nat.add_1_r.
    change ((addr <$> (A ++ [a]) ++ B) !! length A = Some (addr a)).
    rewrite list_lookup_fmap, <- (assoc_L (++)).
    by rewrite lookup_app_r, Nat.sub_diag by lia. }
  assert (L : length A1 = length A2).
  { apply (NoDup_lookup _ _ _ (pos hd A1) N); [apply K|]. rewrite E, P. apply K. }
  by apply app_inj_1 in E as [-> _].
Qed.

Lemma short_fwd i S B : short i S →
  fwd i (S ++ B) = Level (forward (fwd i B)) (zlen S + span (fwd i B)).
Proof.
  induction 1 as [|a S Ha _ IH]; cbn [app fwd]; [by destruct (fwd i B)|].
  rewrite bool_decide_eq_false_2 by lia. rewrite IH. cbn. f_equal. zlr. lia.
Qed.

Lemma fwd_tall i a B : (i < ht a)%nat → fwd i (a :: B) = Level (addr a) 1.
Proof. intros H. cbn. by rewrite bool_decide_eq_true_2. Qed.

Lemma short_end i S : short i S → fwd i S = Level 0 (zlen S).
Proof. intros H. rewrite <- (app_nil_r S), short_fwd by done. cbn. f_equal. zlr. lia. Qed.

Lemma short_dec i B : short i B ∨ ∃ S a B', B = S ++ a :: B' ∧ short i S ∧ (i < ht a)%nat.
Proof.
  induction B as [|b B IH]; [by left; constructor|].
  destruct (decide (i < ht b)%nat); [right; exists [], b, B; split_and!; [done|constructor|done]|].
  destruct IH as [IH|(S & a & B' & -> & HS & Ha)]; [left; constructor; [lia|done]|].
  right. exists (b :: S), a, B'. split_and!; [done|constructor; [lia|done]|done].
Qed.

(** A null pointer means that no node is left at the level. *)
Lemma fwd_null i B : 0 ∉ addr <$> B → forward (fwd i B) = 0 ↔ short i B.
Proof.
  intros N. destruct (short_dec i B) as [H|(S & a & B' & -> & HS & Ha)].
  { rewrite short_end by done. done. }
  rewrite short_fwd, fwd_tall by done. cbn. split; [set_solver|].
  intros H. apply Forall_app in H as [_ H]. apply Forall_cons in H as [H _]. lia.
Qed.

Lemma fwd_span i B : 0 <= span (fwd i B) <= zlen B.
Proof. induction B as [|b B IH]; cbn; [done|]. zlr. pose proof (zlen_nonneg B). case_bool_decide; cbn; lia. Qed.

(** Levels of a node do not depend on what comes after the next node of the level. *)
Lemma fwd_stop i S B B' : ¬ short i S → fwd i (S ++ B) = fwd i (S ++ B').
Proof.
  destruct (short_dec i S) as [H|(S1 & a & S2 & -> & HS & Ha)]; [done|]. intros _.
  rewrite <- !(assoc_L (++)). cbn [app]. by rewrite !short_fwd, !fwd_tall by done.
Qed.

Lemma reach_split i A : ∃ S, A = reach i A ++ S ∧ short i S ∧ (reach i A = [] ∨ (i < top 0 (reach i A))%nat).
Proof.
  induction A as [|a A (S & E & HS & HR)]; [exists []; split_and!; [done|constructor|by left]|].
  cbn [reach]. destruct (reach i A) as [|b R] eqn:ER.
  - cbn in E. subst S. case_bool_decide.
    + exists A. split_and!; [done|done|by right].
    + exists (a :: A). split_and!; [done|constructor; [lia|done]|by left].
  - exists S. split_and!; [by rewrite E at 1|done|]. right. destruct HR as [?|HR]; [done|].
    change (a :: b :: R) with ([a] ++ b :: R). by rewrite top_app.
Qed.

Lemma beyond_eq i A S : A = reach i A ++ S → beyond i A = S.
Proof. unfold beyond. generalize (reach i A). intros R ->. apply drop_app_length. Qed.
Lemma reach_beyond i A : A = reach i A ++ beyond i A.
Proof. destruct (reach_split i A) as (S & E & _). by rewrite (beyond_eq _ _ _ E). Qed.
Lemma beyond_short i A : short i (beyond i A).
Proof. destruct (reach_split i A) as (S & E & H & _). by rewrite (beyond_eq _ _ _ E). Qed.

Lemma reach_short i S : short i S → reach i S = [].
Proof. induction 1 as [|a S Ha _ IH]; cbn; [done|]. rewrite IH. by rewrite bool_decide_eq_false_2 by lia. Qed.

Lemma reach_app i A S : short i S → (A = [] ∨ (i < top 0 A)%nat) → reach i (A ++ S) = A.
Proof.
  intros HS. induction A as [|a A IH]; intros HA; [by apply reach_short|].
  destruct HA as [?|HA]; [done|]. cbn [app reach]. destruct A as [|b A].
  - cbn [app]. rewrite reach_short by done. by rewrite bool_decide_eq_true_2.
  - rewrite IH; [done|]. right. change (a :: b :: A) with ([a] ++ b :: A) in HA. by rewrite top_app in HA.
Qed.

Lemma top_nonempty lv A : A ≠ [] → top lv A = top 0 A.
Proof. destruct A as [|b B _] using rev_ind; [done|]. by rewrite !top_snoc. Qed.

Lemma reach_top lv i A : (i < lv)%nat → (i < top lv (reach i A))%nat.
Proof.
  intros Hi. destruct (reach_split i A) as (S & _ & _ & [->|H]); [done|].
  destruct (decide (reach i A = [])) as [->|N]; [done|]. by rewrite top_nonempty.
Qed.

Lemma reach_tall lv i A S : short i S → (i < top lv A)%nat → reach i (A ++ S) = A.
Proof.
  intros HS HA. apply reach_app; [done|]. destruct (decide (A = [])); [by left|].
  right. by rewrite <- (top_nonempty lv).
Qed.

(** * The heap seen through [info] and [cell] *)

Definition put h (x : Z) (i : nat) (l : zskiplistLevel) : heap :=
  alter (λ n, ZNode (ele n) (zscore n) (backward n) (<[i := l]> (level n))) x h.

Lemma heap_ext h h' p : info <$> h !! p = info <$> h' !! p → (∀ i, cell h p i = cell h' p i) → h !! p = h' !! p.
Proof.
  unfold cell. destruct (h !! p) as [[e s b l]|], (h' !! p) as [[e' s' b' l']|]; try done. cbn.
  intros [= -> -> -> L] H. f_equal. f_equal. by apply list_eq.
Qed.

Lemma cell_deref h x i l : cell h x i = Some l → ∃ n, h !! x = Some n ∧ level n !! i = Some l.
Proof. intros (n & ? & ?)%bind_Some. eauto. Qed.

Lemma get_level_cell h x i l : cell h x i = Some l → get_level h x i = Ret l.
Proof.
  intros (n & Hx & Hi)%cell_deref. unfold get_level, deref. rewrite Hx. run. by rewrite Hi.
Qed.

Lemma set_level_cell h x i l l0 : cell h x i = Some l0 → set_level h x i l = Ret (put h x i l).
Proof.
  intros (n & Hx & Hi)%cell_deref. unfold set_level, deref. rewrite Hx. run.
  rewrite bool_decide_eq_true_2 by by eapply lookup_lt_Some. f_equal. unfold put.
  apply map_eq. intros q. destruct (decide (q = x)) as [->|]; by simplify_map_eq.
Qed.

Lemma info_put h x i l y : info <$> put h x i l !! y = info <$> h !! y.
Proof.
  unfold put. destruct (decide (y = x)) as [->|]; [|by rewrite lookup_alter_ne].
  rewrite lookup_alter_eq. destruct (h !! x); cbn; [|done]. unfold info. cbn. by rewrite length_insert.
Qed.

Lemma cell_put h x i l l0 y k : cell h x i = Some l0 →
  cell (put h x i l) y k = if decide (y = x ∧ k = i) then Some l else cell h y k.
Proof.
  intros (n & Hx & Hi)%cell_deref. unfold cell, put. destruct (decide (y = x)) as [->|].
  - rewrite lookup_alter_eq, Hx. cbn. destruct (decide (k = i)) as [->|].
    + rewrite decide_True by done. rewrite list_lookup_insert_eq; [done|]. by eapply lookup_lt_Some.
    + rewrite decide_False by naive_solver. by rewrite list_lookup_insert_ne.
  - rewrite lookup_alter_ne by done. by rewrite decide_False by naive_solver.
Qed.

Lemma set_forward_cell h x i f l : cell h x i = Some l → set_forward h x i f = Ret (put h x i (Level f (span l))).
Proof. intros H. unfold set_forward. rewrite (get_level_cell _ _ _ _ H). run. by eapply set_level_cell. Qed.
Lemma set_span_cell h x i s l : cell h x i = Some l → set_span h x i s = Ret (put h x i (Level (forward l) s)).
Proof. intros H. unfold set_span. rewrite (get_level_cell _ _ _ _ H). run. by eapply set_level_cell. Qed.

Definition setb h (x b : Z) : heap := alter (λ n, ZNode (ele n) (zscore n) b (level n)) x h.

Lemma set_backward_ok h x b v : info <$> h !! x = Some v → set_backward h x b = Ret (setb h x b).
Proof.
  unfold set_backward, deref. destruct (h !! x) as [n|] eqn:Hx; [|done]. intros _. run. f_equal. unfold setb.
  apply map_eq. intros q. destruct (decide (q = x)) as [->|]; by simplify_map_eq.
Qed.

Lemma cell_setb h x b y k : cell (setb h x b) y k = cell h y k.
Proof.
  unfold cell, setb. destruct (decide (y = x)) as [->|]; [|by rewrite lookup_alter_ne].
  rewrite lookup_alter_eq. by destruct (h !! x).
Qed.

Lemma info_setb h x b y : info <$> setb h x b !! y =
  if decide (y = x) then (λ '(e, s, _, l), (e, s, b, l)) <$> (info <$> h !! y) else info <$> h !! y.
Proof.
  unfold setb. destruct (decide (y = x)) as [->|]; [|by rewrite lookup_alter_ne].
  rewrite lookup_alter_eq. by destruct (h !! x).
Qed.

Lemma put_apart h x i l p : p ≠ x → put h x i l !! p = h !! p.
Proof. intros. unfold put. by rewrite lookup_alter_ne. Qed.

(** * Searches *)

(** The test of a search holds of the nodes of [A] and of no other node: it may
    use the rank at which it is asked. *)
Definition splits (cond : Z → zskiplistLevel → zskiplistNode → bool) (ns A : list anode) : Prop :=
  ∀ P a Q acc l n, ns = P ++ a :: Q → info n = ainfo P a → acc + span l = zlen P + 1 →
  cond acc l n = bool_decide (length P < length A)%nat.

Section search.
Context (F h : heap) (zsl : zskiplist) (ns : list anode) (R : Rep F h zsl ns).

Lemma rep_deref A a B : ns = A ++ a :: B → ∃ n, deref h (addr a) = Ret n ∧ h !! addr a = Some n ∧ info n = ainfo A a.
Proof.
  intros E. pose proof (rep_info _ _ _ _ R _ _ _ E) as H. unfold deref.
  destruct (h !! addr a) as [n|]; [|done]. apply (inj Some) in H. eauto.
Qed.

Lemma rep_addr A a B : ns = A ++ a :: B → addr a ≠ 0.
Proof. intros ->. pose proof (rep_nonnull _ _ _ _ R). set_solver. Qed.

Lemma rep_get A B i : ns = A ++ B → (i < top (zlevel zsl) A)%nat →
  get_level h (pos (header zsl) A) i = Ret (fwd i B).
Proof. intros E Hi. apply get_level_cell. by apply (rep_cell _ _ _ _ R). Qed.

Context (wrap : Z → Z) (cond : Z → zskiplistLevel → zskiplistNode → bool) (A B : list anode).
Context (EN : ns = A ++ B) (HC : splits cond ns A) (HW : ∀ v, 0 <= v <= zlen ns → wrap v = v).

Lemma walk_spec fuel i A1 A2 :
  A = A1 ++ A2 → (i < top (zlevel zsl) A1)%nat → (length A2 < fuel)%nat →
  walk fuel h wrap cond i (pos (header zsl) A1) (zlen A1) =
    Ret (pos (header zsl) (reach i A), zlen (reach i A)).
Proof.
  revert A1 A2. induction fuel as [|fuel IH]; intros A1 A2 EA Hi HF; [lia|]. cbn [walk].
  rewrite (rep_get A1 (A2 ++ B) i) by (subst; by rewrite ?(assoc_L (++))). run.
  destruct (short_dec i A2) as [HS|(S & a & A2' & -> & HS & Ha)].
  - assert (reach i A = A1) as -> by (subst A; by eapply reach_tall).
    rewrite short_fwd by done. cbn [forward].
    destruct (short_dec i B) as [HB|(S & b & B' & -> & HB & Hb)]; [by rewrite short_end|].
    rewrite short_fwd, fwd_tall by done. cbn [forward span].
    assert (E : ns = (A ++ S) ++ b :: B') by (subst; by rewrite <- !(assoc_L (++))).
    pose proof (rep_addr _ _ _ E). test (addr b =? 0) false.
    destruct (rep_deref _ _ _ E) as (n & -> & _ & Hn). run.
    rewrite (HC _ _ _ _ _ _ E Hn) by (subst A; cbn; zlr; lia).
    by rewrite bool_decide_eq_false_2 by (rewrite length_app; lia).
  - rewrite <- (assoc_L (++)), short_fwd by done. cbn [app]. rewrite fwd_tall by done. cbn [forward span].
    assert (E : ns = (A1 ++ S) ++ a :: A2' ++ B) by (subst; by rewrite <- !(assoc_L (++))).
    pose proof (rep_addr _ _ _ E). test (addr a =? 0) false.
    destruct (rep_deref _ _ _ E) as (n & -> & _ & Hn). run.
    rewrite (HC _ _ _ _ _ _ E Hn) by (cbn; zlr; lia).
    rewrite bool_decide_eq_true_2 by (subst A; rewrite !length_app; cbn; lia).
    rewrite HW by (subst ns A; zlr; pose proof (zlen_nonneg A2'); pose proof (zlen_nonneg B);
                   pose proof (zlen_nonneg A1); pose proof (zlen_nonneg S); lia).
    rewrite <- (pos_snoc (header zsl) (A1 ++ S) a).
    replace (zlen A1 + (zlen S + 1)) with (zlen ((A1 ++ S) ++ [a])) by (zlr; lia).
    apply (IH _ A2'); [subst A; by rewrite <- !(assoc_L (++))|by rewrite top_snoc|].
    rewrite length_app in HF. cbn in HF. lia.
Qed.

(** The arrays a search leaves: for every level the last node of [A] that reaches
    it, and its rank. *)
Definition updates (n : nat) (A : list anode) : list Z := (λ i, pos (header zsl) (reach i A)) <$> seq 0 n.
Definition ranks (n : nat) (A : list anode) : list Z := (λ i, zlen (reach i A)) <$> seq 0 n.

Lemma descend_from fuel n A1 A2 :
  A = A1 ++ A2 → (n ≤ zlevel zsl)%nat → (n ≤ top (zlevel zsl) A1)%nat → (length A < fuel)%nat →
  descend n fuel h wrap cond (pos (header zsl) A1) (zlen A1) = Ret (updates n A, ranks n A).
Proof.
  intros EA HZ HT HF. revert A1 A2 EA HT. induction n as [|i IH]; intros A1 A2 EA HT; [done|].
  cbn [descend]. rewrite (walk_spec fuel i A1 A2) by (try done; subst A; rewrite ?length_app in *; lia). run.
  destruct (reach_split i A) as (S & E & _ & _).
  rewrite (IH ltac:(lia) (reach i A) S E) by (pose proof (reach_top (zlevel zsl) i A); lia). run.
  unfold updates, ranks. by rewrite seq_S, !fmap_app.
Qed.

Lemma walk_fuel_ok : (length A < walk_fuel zsl)%nat.
Proof.
  unfold walk_fuel. rewrite (rep_length _ _ _ _ R), EN. unfold zlen. rewrite Nat2Z.id, length_app. lia.
Qed.

Lemma descend_spec :
  descend (zlevel zsl) (walk_fuel zsl) h wrap cond (header zsl) 0 =
    Ret (updates (zlevel zsl) A, ranks (zlevel zsl) A).
Proof. apply (descend_from _ _ [] A); auto using walk_fuel_ok. Qed.

End search.

End representation.
End SkiplistRep.
