(* ===== verification/SkiplistUpdate.v ===== *)
(** Skip lists: insertion and removal of one node keep the representation. *)
From stdpp Require Import gmap.
From S2P Require Import Prelude Skiplist SkiplistRep.

Module SkiplistUpdate.
Import Skiplist SkiplistRep.

Section update.
Context {SC : Score} {EL : Element}.
Implicit Types (h F : heap) (A B ns : list anode) (a : anode).

(** * One level after another *)

(** From [h] to [h'] the levels [i] to [i + n - 1] are those [w] says, where it
    says anything; nothing else changed. *)
Definition writes h h' (i n : nat) (w : nat → Z → option zskiplistLevel) : Prop :=
  (∀ y, info <$> h' !! y = info <$> h !! y) ∧
  ∀ y k, cell h' y k = if decide (i ≤ k < i + n)%nat then from_option Some (cell h y k) (w k y) else cell h y k.

Lemma writes_nil h i w : writes h h i 0 w.
Proof. split; [done|]. intros y k. by rewrite decide_False by lia. Qed.

Lemma writes_step h h1 h' i n w : writes h h1 i 1 w → writes h1 h' (S i) n w → writes h h' i (S n) w.
Proof.
  intros [I1 C1] [I2 C2]. split; [intros y; by rewrite I2|]. intros y k. rewrite C2, C1.
  repeat case_decide; try lia; [|done..]. done.
Qed.

Lemma writes_above h h1 i w y k : writes h h1 i 1 w → (i < k)%nat → cell h1 y k = cell h y k.
Proof. intros [_ C] H. rewrite C. by rewrite decide_False by lia. Qed.

Lemma writes_put h x i l l0 w : cell h x i = Some l0 →
  (∀ y, w i y = if decide (y = x) then Some l else None) → writes h (put h x i l) i 1 w.
Proof.
  intros H W. split; [intros; apply info_put|]. intros y k. rewrite (cell_put _ _ _ _ _ _ _ H).
  destruct (decide (k = i)) as [->|].
  - rewrite (decide_True (P := (i ≤ i < i + 1)%nat)) by lia. rewrite W.
    destruct (decide (y = x)) as [->|]; [by rewrite decide_True|by rewrite decide_False by naive_solver].
  - by rewrite !decide_False by (lia || naive_solver).
Qed.

(** The level [k] of the last node of [A] that reaches it, when [B] follows [A]. *)
Definition relink (hd : Z) A B (k : nat) (y : Z) : option zskiplistLevel :=
  if decide (y = pos hd (reach k A)) then Some (fwd k (beyond k A ++ B)) else None.

(** What the loops over levels find in the heap. *)
Definition linked h (hd : Z) A B (lo hi : nat) (update : list Z) : Prop :=
  ∀ k, (lo ≤ k < hi)%nat → update !! k = Some (pos hd (reach k A)) ∧
  cell h (pos hd (reach k A)) k = Some (fwd k (beyond k A ++ B)).

Lemma linked_above h h1 hd A B i hi update w :
  writes h h1 i 1 w → linked h hd A B i hi update → linked h1 hd A B (S i) hi update.
Proof.
  intros W H k Hk. rewrite (writes_above _ _ _ _ _ _ W) by lia. apply H. lia.
Qed.

Lemma slot_ok l i v : l !! i = Some v → slot l i = Ret v.
Proof. intros H. unfold slot. by rewrite H. Qed.

Lemma beyond_len k A : 0 <= zlen (beyond k A) ∧ zlen A - zlen (reach k A) = zlen (beyond k A).
Proof. rewrite (reach_beyond k A) at 2. zlr. pose proof (zlen_nonneg (beyond k A)). lia. Qed.

Section link.
Context (hd : Z) (A B : list anode) (a : anode) (update rank : list Z).
Context (HN : zlen A + zlen B + 1 < 2 ^ 32).

(** The new node takes over what the levels it reaches led to. *)
Definition link_cells (k : nat) (y : Z) : option zskiplistLevel :=
  if decide (y = addr a) then Some (fwd k B) else relink hd A (a :: B) k y.

Lemma link_one h i :
  (i < ht a)%nat → pos hd (reach i A) ≠ addr a → is_Some (cell h (addr a) i) →
  linked h hd A B i (S i) update → rank !! 0%nat = Some (zlen A) → rank !! i = Some (zlen (reach i A)) →
  ∀ n, ∃ h1, writes h h1 i 1 link_cells ∧
    link_loop (S n) i h (addr a) update rank = link_loop n (S i) h1 (addr a) update rank.
Proof.
  intros Hi Hu [lx Hx] HL R0 Ri n. destruct (HL i) as [U C]; [lia|].
  destruct (beyond_len i A) as [D1 D2]. pose proof (fwd_span i B) as HS.
  pose proof (zlen_nonneg (reach i A)) as HR. pose proof (zlen_nonneg A) as HA.
  rewrite short_fwd in C by apply beyond_short.
  set (u := pos hd (reach i A)) in *. set (d := zlen (beyond i A)) in *.
  cbn [link_loop]. rewrite (slot_ok _ _ _ U), (slot_ok _ _ _ R0), (slot_ok _ _ _ Ri). run.
  rewrite (get_level_cell _ _ _ _ C). run. cbn [forward].
  rewrite (set_forward_cell _ _ _ _ _ Hx). run.
  set (h1 := put h (addr a) i _).
  assert (C1 : cell h1 u i = Some (Level (forward (fwd i B)) (d + span (fwd i B)))).
  { unfold h1. rewrite (cell_put _ _ _ _ _ _ _ Hx). rewrite decide_False by naive_solver. done. }
  rewrite (set_forward_cell _ _ _ _ _ C1). run. cbn [span].
  set (h2 := put h1 u i _).
  assert (C2 : ∀ y k, cell h2 y k = if decide (y = u ∧ k = i) then _ else cell h1 y k)
    by (intros; apply (cell_put _ _ _ _ _ _ _ C1)).
  rewrite (get_level_cell h2 u i (Level (addr a) (d + span (fwd i B)))) by (rewrite C2; by rewrite decide_True).
  run. cbn [span]. rewrite D2.
  rewrite (wrapu_id 32 d), (wrapu_id 32 (d + 1)), (wrapu_id 64) by lia.
  assert (X2 : cell h2 (addr a) i = Some (Level (forward (fwd i B)) (span lx))).
  { rewrite C2, decide_False by naive_solver. unfold h1. rewrite (cell_put _ _ _ _ _ _ _ Hx).
    by rewrite decide_True. }
  rewrite (set_span_cell _ _ _ _ _ X2). run. cbn [forward].
  set (h3 := put h2 (addr a) i _).
  assert (C3 : cell h3 u i = Some (Level (addr a) (d + span (fwd i B)))).
  { unfold h3. rewrite (cell_put _ _ _ _ _ _ _ X2), decide_False by naive_solver.
    rewrite C2. by rewrite decide_True. }
  rewrite (set_span_cell _ _ _ _ _ C3). run. cbn [forward].
  eexists. split; [|done]. split.
  { intros y. unfold h3, h2, h1. by rewrite !info_put. }
  intros y k. rewrite (cell_put _ _ _ _ _ _ _ C3). unfold h3. rewrite (cell_put _ _ _ _ _ _ _ X2), C2.
  unfold h1. rewrite (cell_put _ _ _ _ _ _ _ Hx). unfold link_cells, relink.
  destruct (decide (k = i)) as [->|Hk].
  2:{ by rewrite !decide_False by (lia || naive_solver). }
  rewrite (decide_True (P := (i ≤ i < i + 1)%nat)) by lia. fold u.
  rewrite short_fwd, fwd_tall by (done || apply beyond_short). fold d. cbn [forward span].
  destruct (decide (y = addr a)) as [->|Hy].
  - rewrite decide_False by naive_solver. rewrite decide_True by done. cbn. f_equal.
    destruct (fwd i B); cbn. f_equal. lia.
  - destruct (decide (y = u)) as [->|]; [by rewrite decide_True|]. by rewrite !decide_False by naive_solver.
Qed.

Lemma link_spec n i h :
  (i + n ≤ ht a)%nat → (∀ k, pos hd (reach k A) ≠ addr a) → (∀ k, (k < ht a)%nat → is_Some (cell h (addr a) k)) →
  linked h hd A B i (i + n) update → rank !! 0%nat = Some (zlen A) →
  (∀ k, (k < ht a)%nat → rank !! k = Some (zlen (reach k A))) →
  ∃ h', link_loop n i h (addr a) update rank = Ret h' ∧ writes h h' i n link_cells.
Proof.
  revert i h. induction n as [|n IH]; intros i h Hi Hu Hx HL R0 Ri.
  { exists h. split; [done|apply writes_nil]. }
  destruct (link_one h i) with (n := n) as (h1 & W1 & E1); [lia|done|apply Hx; lia| |done|apply Ri; lia|].
  { intros k Hk. apply HL. lia. }
  destruct (IH (S i) h1) as (h' & E' & W'); [lia|done| | |done|done|].
  - intros k Hk. destruct W1 as [_ W1]. rewrite W1. case_decide; [|by apply Hx].
    unfold link_cells. by rewrite decide_True.
  - eapply linked_above; [done|]. by rewrite Nat.add_succ_comm.
  - exists h'. rewrite E1, E'. split; [done|]. by eapply writes_step.
Qed.

Lemma untouched_spec n i h :
  (ht a ≤ i)%nat → linked h hd A B i (i + n) update →
  ∃ h', untouched_loop n i h update = Ret h' ∧ writes h h' i n (relink hd A (a :: B)).
Proof.
  revert i h. induction n as [|n IH]; intros i h Hi HL.
  { exists h. split; [done|apply writes_nil]. }
  destruct (HL i) as [U C]; [lia|]. cbn [untouched_loop]. rewrite (slot_ok _ _ _ U). run.
  rewrite (get_level_cell _ _ _ _ C). run. rewrite (set_span_cell _ _ _ _ _ C). run.
  rewrite (short_fwd i (beyond i A)) by apply beyond_short. cbn [forward span].
  pose proof (fwd_span i B). pose proof (beyond_len i A). pose proof (zlen_nonneg (reach i A)).
  rewrite wrapu_id by lia.
  assert (W : writes h (put h (pos hd (reach i A)) i
    (Level (forward (fwd i B)) (zlen (beyond i A) + span (fwd i B) + 1))) i 1 (relink hd A (a :: B))).
  { eapply writes_put; [done|]. intros y. unfold relink. case_decide; [|done]. f_equal.
    rewrite short_fwd by apply beyond_short. cbn [fwd]. rewrite bool_decide_eq_false_2 by lia.
    cbn. f_equal. lia. }
  edestruct (IH (S i)) as (h' & E' & W'); [lia|eapply linked_above; [apply W|]; by rewrite Nat.add_succ_comm|].
  exists h'. split; [done|]. by eapply writes_step.
Qed.

End link.

Section unlink.
Context (hd : Z) (A B : list anode) (a : anode) (update : list Z).
Context (HN : zlen A + zlen B + 1 < 2 ^ 64) (H0 : addr a ∉ addr <$> B).

Lemma unlink_one h i :
  linked h hd A (a :: B) i (S i) update → pos hd (reach i A) ≠ addr a →
  ((i < ht a)%nat → cell h (addr a) i = Some (fwd i B)) → addr a ≠ 0 →
  ∀ n, ∃ h1, writes h h1 i 1 (relink hd A B) ∧
    unlink_levels (S n) i h (addr a) update = unlink_levels n (S i) h1 (addr a) update.
Proof.
  intros HL Hu Hx Hz n. destruct (HL i) as [U C]; [lia|]. cbn [unlink_levels].
  rewrite (slot_ok _ _ _ U). run. rewrite (get_level_cell _ _ _ _ C). run.
  pose proof (fwd_span i B) as HS. pose proof (beyond_len i A). pose proof (zlen_nonneg (reach i A)).
  rewrite short_fwd in C |- * by apply beyond_short.
  set (u := pos hd (reach i A)) in *. cbn [fwd] in C |- *. cbn [forward span].
  assert (K : ∀ y, relink hd A B i y = if decide (y = u) then
      Some (Level (forward (fwd i B)) (zlen (beyond i A) + span (fwd i B))) else None).
  { intros y. unfold relink. fold u. by rewrite short_fwd by apply beyond_short. }
  destruct (decide (i < ht a)%nat) as [Ht|Ht].
  - rewrite bool_decide_eq_true_2 in C |- * by done. cbn [forward span] in *.
    test (addr a =? addr a) true. rewrite (get_level_cell _ _ _ _ (Hx Ht)). run.
    rewrite wrapu_id by lia. rewrite (set_span_cell _ _ _ _ _ C). run. cbn [forward].
    set (h1 := put h u i _).
    assert (C1 : cell h1 u i = Some (Level (addr a) (zlen (beyond i A) + 1 + (span (fwd i B) - 1)))).
    { unfold h1. rewrite (cell_put _ _ _ _ _ _ _ C). by rewrite decide_True. }
    rewrite (set_forward_cell _ _ _ _ _ C1). run. cbn [span]. eexists. split; [|done].
    split; [intros; unfold h1; by rewrite !info_put|]. intros y k.
    rewrite (cell_put _ _ _ _ _ _ _ C1). unfold h1. rewrite (cell_put _ _ _ _ _ _ _ C).
    destruct (decide (k = i)) as [->|]; [|by rewrite !decide_False by (lia || naive_solver)].
    rewrite (decide_True (P := (i ≤ i < i + 1)%nat)) by lia. rewrite K.
    destruct (decide (y = u)) as [->|]; [|by rewrite !decide_False by naive_solver].
    rewrite decide_True by done. cbn. do 2 f_equal. lia.
  - rewrite bool_decide_eq_false_2 in C |- * by done. cbn [forward span] in *.
    assert ((forward (fwd i B) =? addr a) = false) as ->.
    { apply Z.eqb_neq. destruct (short_dec i B) as [HB|(S & b & B' & -> & HB & Hb)].
      - rewrite short_end by done. cbn. lia.
      - rewrite short_fwd, fwd_tall by done. cbn. set_solver. }
    rewrite wrapu_id by lia. rewrite (set_span_cell _ _ _ _ _ C). run. cbn [forward].
    eexists. split; [|done]. eapply writes_put; [done|]. intros y. rewrite K. case_decide; [|done].
    do 2 f_equal. lia.
Qed.

Lemma unlink_spec n i h :
  linked h hd A (a :: B) i (i + n) update → (∀ k, pos hd (reach k A) ≠ addr a) →
  (∀ k, (k < ht a)%nat → cell h (addr a) k = Some (fwd k B)) → addr a ≠ 0 →
  ∃ h', unlink_levels n i h (addr a) update = Ret h' ∧ writes h h' i n (relink hd A B).
Proof.
  intros HL Hu Hx Hz. revert i h HL Hx. induction n as [|n IH]; intros i h HL Hx.
  { exists h. split; [done|apply writes_nil]. }
  destruct (unlink_one h i) with (n := n) as (h1 & W1 & E1); [|done|apply Hx|done|].
  { intros k Hk. apply HL. lia. }
  destruct (IH (S i) h1) as (h' & E' & W').
  - eapply linked_above; [done|]. by rewrite Nat.add_succ_comm.
  - intros k Hk. destruct W1 as [_ W1]. rewrite W1. case_decide; [|by apply Hx].
    unfold relink. rewrite decide_False by (intros ?; by eapply Hu). by apply Hx.
  - exists h'. rewrite E1, E'. split; [done|]. by eapply writes_step.
Qed.

End unlink.

Lemma reach_in hd k A B : pos hd (reach k A) ∈ hd :: (addr <$> A ++ B).
Proof. rewrite (reach_beyond k A) at 2. rewrite <- (assoc_L (++)). apply pos_in. Qed.

(** * The representation after the levels were written *)

Lemma rep_linked F h zsl A B : Rep F h zsl (A ++ B) →
  linked h (header zsl) A B 0 (zlevel zsl) (updates zsl (zlevel zsl) A).
Proof.
  intros R k Hk. split.
  - unfold updates. rewrite list_lookup_fmap, lookup_seq_lt by lia. done.
  - apply (rep_cell _ _ _ _ R); [by rewrite (assoc_L (++)), <- reach_beyond|]. apply reach_top. lia.
Qed.

Section relinked.
Context (F h : heap) (zsl : zskiplist) (A B : list anode).
Context (R : Rep F h zsl (A ++ B)).

Lemma reach_prefix k : ∃ S, A ++ B = reach k A ++ S ++ B ∧ A = reach k A ++ S.
Proof. exists (beyond k A). by rewrite (assoc_L (++)), <- !reach_beyond. Qed.

(** The nodes of [A] see the change, at the levels where they are the last ones. *)
Lemma relink_prefix A1 S i : A = A1 ++ S → (i < top (zlevel zsl) A1)%nat → (i < zlevel zsl)%nat →
  ∀ B', from_option Some (cell h (pos (header zsl) A1) i) (relink (header zsl) A B' i (pos (header zsl) A1)) =
  Some (fwd i (S ++ B')).
Proof.
  intros E Hi Hz B'. unfold relink.
  assert (EB : A ++ B = A1 ++ S ++ B) by (rewrite E; by rewrite <- (assoc_L (++))).
  destruct (reach_prefix i) as (S' & E1 & E2). case_decide as D; cbn.
  - apply (pos_inj _ _ (S ++ B) _ (S' ++ B)) in D; [|by rewrite <- EB|].
    2:{ rewrite <- EB. apply (rep_nodup _ _ _ _ R). }
    rewrite (beyond_eq i A S); [done|]. by rewrite <- D.
  - rewrite (rep_cell _ _ _ _ R A1 (S ++ B)) by done. f_equal. apply fwd_stop. intros HS. apply D.
    rewrite E. by rewrite (reach_tall (zlevel zsl)).
Qed.

(** The nodes of [B] do not. *)
Lemma relink_suffix B1 B2 i : B = B1 ++ B2 → B1 ≠ [] →
  ∀ B', relink (header zsl) A B' i (pos (header zsl) (A ++ B1)) = None.
Proof.
  intros EB HB B'. unfold relink. rewrite decide_False; [done|]. intros D.
  destruct (reach_prefix i) as (S' & E1 & E2).
  apply (pos_inj _ (A ++ B1) B2 _ (S' ++ B)) in D.
  - pose proof (f_equal length E2) as L. apply (f_equal length) in D. rewrite length_app in D, L.
    destruct B1; [done|]. cbn in D. lia.
  - by rewrite <- (assoc_L (++)), <- EB.
  - rewrite <- (assoc_L (++)), <- EB. apply (rep_nodup _ _ _ _ R).
Qed.

Lemma relink_apart p i : p ∉ header zsl :: (addr <$> A ++ B) → ∀ B', relink (header zsl) A B' i p = None.
Proof.
  intros Hp B'. unfold relink. rewrite decide_False; [done|]. intros ->. apply Hp, reach_in.
Qed.

Lemma top_le A1 B1 : A ++ B = A1 ++ B1 → (top (zlevel zsl) A1 ≤ zlevel zsl)%nat.
Proof.
  intros E. pose proof (rep_ht _ _ _ _ R) as H. rewrite E in H.
  destruct A1 as [|a A1 _] using rev_ind; [done|]. rewrite top_snoc.
  apply Forall_app in H as [H _]. apply Forall_app in H as [_ H]. apply Forall_cons in H as [H _]. lia.
Qed.

End relinked.

(** A prefix of a list with a node in the middle ends before the node or after it. *)
Lemma prefix_cases A a B A' B' : A ++ a :: B = A' ++ B' →
  (∃ S, A = A' ++ S ∧ B' = S ++ a :: B) ∨ (∃ B1, A' = A ++ a :: B1 ∧ B = B1 ++ B').
Proof.
  intros [(S & -> & ->)|(K & -> & E)]%app_eq_inv; [left; eauto|].
  destruct K as [|k K]; cbn in E; [left; exists []; by rewrite !app_nil_r|].
  injection E as -> ->. right. eauto.
Qed.

(** The backward pointer of the first node of [B] becomes [b]. *)
Definition rebacked h h' B (b : Z) : Prop :=
  ∀ y, info <$> h' !! y = if decide (addr <$> head B = Some y)
                          then (λ '(e, s, _, l), (e, s, b, l)) <$> (info <$> h !! y) else info <$> h !! y.

Lemma pos_back hd A : hd ∉ addr <$> A → (if pos hd A =? hd then 0 else pos hd A) = back A.
Proof.
  unfold back. destruct A as [|a A _] using rev_ind; [change (pos hd []) with hd; by rewrite Z.eqb_refl|].
  rewrite !pos_snoc. intros H. assert (addr a ≠ hd) by set_solver. by test (addr a =? hd) false.
Qed.

Section insert.
Context (F h h' : heap) (zsl : zskiplist) (A B : list anode) (a : anode).
Context (R : Rep F h zsl (A ++ B)) (HF : addr a ∉ header zsl :: (addr <$> A ++ B)) (HZ : addr a ≠ 0).
Context (HT : (1 ≤ ht a ≤ zlevel zsl)%nat) (Fa : F !! addr a = None).
Context (Ia : info <$> h' !! addr a = Some (ainfo A a)).
Context (Io : ∀ y, y ≠ addr a → info <$> h' !! y =
  if decide (addr <$> head B = Some y) then (λ '(e, s, _, l), (e, s, addr a, l)) <$> (info <$> h !! y)
  else info <$> h !! y).
Context (Ca : ∀ k, (k < ht a)%nat → cell h' (addr a) k = Some (fwd k B)).
Context (Co : ∀ y k, y ≠ addr a → cell h' y k =
  if decide (k < zlevel zsl)%nat then from_option Some (cell h y k) (relink (header zsl) A (a :: B) k y)
  else cell h y k).

Lemma insert_perm : header zsl :: (addr <$> A ++ a :: B) ≡ₚ addr a :: header zsl :: (addr <$> A ++ B).
Proof. rewrite !fmap_app, fmap_cons. by rewrite <- Permutation_middle, Permutation_swap. Qed.

Lemma insert_header : header zsl ≠ addr a ∧ addr <$> head B ≠ Some (header zsl).
Proof.
  split; [set_solver|]. pose proof (rep_nodup _ _ _ _ R) as N. destruct B; cbn; [done|]. intros [= E].
  apply NoDup_cons in N as [N _]. apply N. rewrite fmap_app, <- E. set_solver.
Qed.

Lemma insert_info A1 a1 B1 : A ++ a :: B = A1 ++ a1 :: B1 → info <$> h' !! addr a1 = Some (ainfo A1 a1).
Proof.
  pose proof (rep_nodup _ _ _ _ R) as N. apply NoDup_cons in N as [_ N]. rewrite fmap_app in N.
  intros [(S & EA & EB)|(B2 & -> & EB)]%prefix_cases.
  - destruct S as [|s S]; cbn in EB; injection EB as -> ->; [by rewrite EA, app_nil_r in Ia|].
    rewrite Io by (subst A; set_solver). rewrite decide_False.
    + apply (rep_info _ _ _ _ R A1 s (S ++ B)). subst A. by rewrite <- (assoc_L (++)).
    + intros E. destruct B as [|b B']; [done|]. injection E as E. apply NoDup_app in N as (_ & N & _).
      apply (N (addr s)); [subst A; set_solver|]. cbn. rewrite E. left.
  - rewrite Io by (subst B; set_solver).
    rewrite (rep_info _ _ _ _ R (A ++ B2) a1 B1) by (subst B; by rewrite <- (assoc_L (++))).
    destruct B2 as [|b B2]; cbn in EB.
    + rewrite EB. cbn. rewrite decide_True by done. unfold ainfo, back. by rewrite pos_snoc.
    + rewrite decide_False.
      * unfold ainfo, back. change (a :: b :: B2) with ([a] ++ b :: B2). rewrite (assoc_L (++)). by rewrite !pos_app.
      * rewrite EB. cbn. intros [= E]. apply NoDup_app in N as (_ & _ & N). rewrite EB in N. cbn in N.
        apply NoDup_cons in N as [N _]. apply N. rewrite E. set_solver.
Qed.

Lemma insert_cell A1 B1 i : A ++ a :: B = A1 ++ B1 → (i < top (zlevel zsl) A1)%nat →
  cell h' (pos (header zsl) A1) i = Some (fwd i B1).
Proof.
  intros [(S & EA & EB)|(B2 & -> & EB)]%prefix_cases Hi.
  - assert (EN : A ++ B = A1 ++ S ++ B) by (rewrite EA; by rewrite <- (assoc_L (++))).
    pose proof (top_le _ _ _ _ _ R A1 (S ++ B) EN). rewrite Co, decide_True by (try lia; intros E; apply HF;
      rewrite <- E, EN; apply pos_in).
    rewrite (relink_prefix _ _ _ _ _ R A1 S) by (done || lia). by rewrite EB.
  - destruct B2 as [|b B2]; [rewrite pos_snoc; rewrite top_snoc in Hi; rewrite Ca by done; by rewrite EB|].
    assert (EN : A ++ B = (A ++ b :: B2) ++ B1) by (rewrite EB; by rewrite <- (assoc_L (++))).
    change (a :: b :: B2) with ([a] ++ b :: B2) in *. rewrite (assoc_L (++)) in *.
    rewrite pos_app in * by done. rewrite top_app in Hi by done.
    rewrite <- (pos_app _ A) by done. rewrite <- (top_app _ A) in Hi by done.
    rewrite Co by (intros E; apply HF; rewrite <- E, EN; apply pos_in).
    rewrite (relink_suffix _ _ _ _ _ R (b :: B2) B1) by done. cbn [from_option].
    rewrite (rep_cell _ _ _ _ R _ B1) by done. by case_decide.
Qed.

Lemma zinsert_rep :
  Rep F h' (Zsl (header zsl) (if B is [] then addr a else tail zsl) (zlength zsl + 1) (zlevel zsl)) (A ++ a :: B).
Proof.
  destruct insert_header as [N1 N2]. constructor; cbn [header tail zlength zlevel].
  - rewrite insert_perm. apply NoDup_cons. split; [done|apply (rep_nodup _ _ _ _ R)].
  - rewrite insert_perm. pose proof (rep_nonnull _ _ _ _ R). set_solver.
  - rewrite Io, decide_False by done. apply (rep_header _ _ _ _ R).
  - apply insert_info.
  - apply insert_cell.
  - intros i Hi. rewrite Co, decide_False by (done || lia). by apply (rep_high _ _ _ _ R).
  - apply (rep_level _ _ _ _ R).
  - pose proof (rep_ht _ _ _ _ R) as H. apply Forall_app in H as [? ?]. apply Forall_app; auto.
  - unfold back. destruct B as [|b B']; [by rewrite pos_snoc|]. rewrite (rep_tail _ _ _ _ R). unfold back.
    change (a :: b :: B') with ([a] ++ b :: B'). rewrite (assoc_L (++)). by rewrite !pos_app.
  - rewrite (rep_length _ _ _ _ R). zlr. lia.
  - intros p. rewrite insert_perm. intros [->|Hp]%elem_of_cons; [done|]. by apply (rep_apart _ _ _ _ R).
  - intros p. rewrite insert_perm. intros [Hpa Hp]%not_elem_of_cons. rewrite <- (rep_frame _ _ _ _ R) by done.
    apply heap_ext.
    + rewrite Io, decide_False; [done| |done]. destruct B; cbn; [done|]. intros [= E]. apply Hp. set_solver.
    + intros i. rewrite Co by done. rewrite (relink_apart _ _ _ _ _ Hp). by case_decide.
Qed.

End insert.

Section delete.
Context (F h h' : heap) (zsl : zskiplist) (A B : list anode) (a : anode) (n : zskiplistNode).
Context (R : Rep F h zsl (A ++ a :: B)).
Context (Hn : h' !! addr a = Some n).
Context (Io : rebacked h h' B (back A)).
Context (Co : ∀ y k, cell h' y k =
  if decide (k < zlevel zsl)%nat then from_option Some (cell h y k) (relink (header zsl) A B k y)
  else cell h y k).

Lemma delete_fresh : (addr a ∉ header zsl :: (addr <$> A ++ B)) ∧ NoDup (header zsl :: (addr <$> A ++ B)).
Proof. pose proof (rep_nodup _ _ _ _ R) as N. rewrite insert_perm in N. by apply NoDup_cons in N. Qed.

Lemma delete_info A1 a1 B1 : A ++ B = A1 ++ a1 :: B1 → info <$> h' !! addr a1 = Some (ainfo A1 a1).
Proof.
  destruct delete_fresh as [_ N]. apply NoDup_cons in N as [_ N]. rewrite fmap_app in N.
  apply NoDup_app in N as (_ & N1 & N2).
  intros [(S & EA & EB)|(S & -> & EB)]%app_eq_inv.
  - destruct S as [|s S]; cbn in EB.
    + rewrite app_nil_r in EA. subst A1. rewrite Io, <- EB. cbn. rewrite decide_True by done.
      rewrite (rep_info _ _ _ _ R (A ++ [a]) a1 B1); [done|]. by rewrite <- (assoc_L (++)), EB.
    + injection EB as -> ->. rewrite Io, decide_False.
      * apply (rep_info _ _ _ _ R A1 s (S ++ a :: B)). subst A. by rewrite <- (assoc_L (++)).
      * intros E. destruct B as [|b B']; [done|]. injection E as E.
        apply (N1 (addr s)); [subst A; set_solver|]. cbn. rewrite E. left.
  - rewrite Io. rewrite (rep_info _ _ _ _ R (A ++ a :: S) a1 B1) by (rewrite EB; by rewrite <- (assoc_L (++))).
    destruct S as [|s S]; rewrite EB; cbn.
    + rewrite decide_True by done. unfold ainfo. by rewrite app_nil_r.
    + rewrite decide_False.
      * unfold ainfo, back. change (a :: s :: S) with ([a] ++ s :: S). rewrite (assoc_L (++)). by rewrite !pos_app.
      * intros [= E]. rewrite EB in N2. cbn in N2. apply NoDup_cons in N2 as [N2 _]. apply N2. rewrite E. set_solver.
Qed.

Lemma delete_cell A1 B1 i : A ++ B = A1 ++ B1 → (i < top (zlevel zsl) A1)%nat →
  cell h' (pos (header zsl) A1) i = Some (fwd i B1).
Proof.
  intros E Hi. assert (∃ S, A = A1 ++ S ∧ B1 = S ++ B ∨ A1 = A ++ S ∧ B = S ++ B1 ∧ S ≠ []) as (S & [[EA EB]|(-> & EB & HS)]).
  { apply app_eq_inv in E as [(S & -> & ->)|(S & -> & E)]; [eauto|]. destruct S as [|s S]; [|eauto].
    exists []. left. rewrite !app_nil_r. by rewrite E. }
  - assert (EN : A ++ a :: B = A1 ++ S ++ a :: B) by (rewrite EA; by rewrite <- (assoc_L (++))).
    pose proof (top_le _ _ _ _ _ R _ _ EN). rewrite Co, decide_True by lia.
    rewrite (relink_prefix _ _ _ _ _ R A1 S) by (done || lia). by rewrite EB.
  - assert (EN : a :: B = (a :: S) ++ B1) by (by rewrite EB).
    assert (pos (header zsl) (A ++ S) = pos (header zsl) (A ++ a :: S)) as EP.
    { change (a :: S) with ([a] ++ S). rewrite (assoc_L (++)). by rewrite !(pos_app _ _ S). }
    rewrite EP, Co. rewrite (relink_suffix _ _ _ _ _ R (a :: S) B1) by done. cbn [from_option].
    rewrite (rep_cell _ _ _ _ R (A ++ a :: S) B1); [by case_decide|by rewrite EN, (assoc_L (++))|].
    change (a :: S) with ([a] ++ S). rewrite (assoc_L (++)), top_app by done. by rewrite top_app in Hi.
Qed.

Lemma delete_rep :
  Rep (<[addr a := n]> F) h' (Zsl (header zsl) (if B is [] then back A else tail zsl) (zlength zsl - 1) (zlevel zsl))
    (A ++ B).
Proof.
  destruct delete_fresh as [N1 N2]. constructor; cbn [header tail zlength zlevel].
  - done.
  - pose proof (rep_nonnull _ _ _ _ R) as H. rewrite insert_perm in H. set_solver.
  - rewrite Io, decide_False; [apply (rep_header _ _ _ _ R)|]. destruct B; cbn; [done|]. intros [= E].
    apply NoDup_cons in N2 as [N2 _]. apply N2. rewrite fmap_app, <- E. set_solver.
  - apply delete_info.
  - apply delete_cell.
  - intros i Hi. rewrite Co, decide_False by lia. by apply (rep_high _ _ _ _ R).
  - apply (rep_level _ _ _ _ R).
  - pose proof (rep_ht _ _ _ _ R) as H. apply Forall_app in H as [? H]. apply Forall_cons in H as [_ H].
    apply Forall_app; auto.
  - unfold back. destruct B as [|b B']; [by rewrite app_nil_r|]. rewrite (rep_tail _ _ _ _ R). unfold back.
    change (a :: b :: B') with ([a] ++ b :: B'). rewrite (assoc_L (++)). by rewrite !pos_app.
  - rewrite (rep_length _ _ _ _ R). zlr. lia.
  - intros p Hp. rewrite lookup_insert_ne by set_solver. apply (rep_apart _ _ _ _ R). rewrite insert_perm. by right.
  - intros p Hp. destruct (decide (p = addr a)) as [->|Hpa]; [by rewrite lookup_insert_eq|].
    assert (HP : p ∉ header zsl :: (addr <$> A ++ a :: B)) by (rewrite insert_perm; set_solver).
    rewrite lookup_insert_ne, <- (rep_frame _ _ _ _ R) by done. apply heap_ext.
    + rewrite Io, decide_False; [done|]. destruct B; cbn; [done|]. intros [= E]. apply Hp. set_solver.
    + intros i. rewrite Co. rewrite (relink_apart _ _ _ _ _ HP). by case_decide.
Qed.

End delete.

End update.
End SkiplistUpdate.
