(* ===== verification/SkiplistOps.v ===== *)
(** Skip lists: the functions of [t_zset.c] on a represented list. *)
From stdpp Require Import gmap.
From S2P Require Import Prelude Skiplist SkiplistRep SkiplistUpdate.

Module SkiplistOps.
Import Skiplist SkiplistRep SkiplistUpdate.

Section operations.
Context {SC : Score} {EL : Element} {AL : ZslAlloc} {LAWS : ZslAllocLaws AL}.
Implicit Types (h F : heap) (A B ns : list anode) (a : anode).

(** * Levels *)

(** Some number that was drawn ends the loop. *)
Definition draws_ok (draws : list Z) : Prop := Exists (λ r, 16383 < Z.land r 0xFFFF) draws.

Lemma random_loop_spec draws lv : draws_ok draws →
  ∃ lv' rest, random_loop draws lv = Ret (lv', rest) ∧ (lv ≤ lv')%nat.
Proof.
  intros H. revert lv. induction H as [r draws Hr|r draws _ IH]; intros lv; cbn [random_loop].
  - test (Z.land r 65535 <=? 16383) false. eauto.
  - case_cond; [|eauto]. destruct (IH (S lv)) as (lv' & rest & -> & ?). eauto with lia.
Qed.

Lemma zslRandomLevel_spec draws : draws_ok draws →
  ∃ lv rest, zslRandomLevel draws = Ret (lv, rest) ∧ (1 ≤ lv ≤ ZSKIPLIST_MAXLEVEL)%nat.
Proof.
  intros (lv & rest & E & H)%(random_loop_spec _ 1). unfold zslRandomLevel. rewrite E. run.
  eexists _, rest. split; [done|]. unfold ZSKIPLIST_MAXLEVEL. case_cond; lia.
Qed.

(** The same list with another number of levels in use. *)
Definition with_level (zsl : zskiplist) (lv : nat) : zskiplist := Zsl (header zsl) (tail zsl) (zlength zsl) lv.

Lemma ht_short F h zsl ns i : Rep F h zsl ns → (zlevel zsl ≤ i)%nat → short i ns.
Proof. intros R H. eapply Forall_impl; [apply (rep_ht _ _ _ _ R)|]. cbn. lia. Qed.

Lemma raise_one F h zsl ns : Rep F h zsl ns → (zlevel zsl < ZSKIPLIST_MAXLEVEL)%nat →
  ∃ h1, set_span h (header zsl) (zlevel zsl) (zlength zsl) = Ret h1 ∧
  Rep F h1 (with_level zsl (S (zlevel zsl))) ns.
Proof.
  intros R Hl. pose proof (rep_high _ _ _ _ R (zlevel zsl) ltac:(lia)) as H.
  destruct (cell h (header zsl) (zlevel zsl)) as [[f s]|] eqn:C; [|done]. injection H as ->.
  rewrite (set_span_cell _ _ _ _ _ C). eexists. split; [done|]. cbn [forward].
  pose proof (rep_length _ _ _ _ R) as L. pose proof (rep_nodup _ _ _ _ R) as N.
  constructor; cbn [with_level header tail zlength zlevel]; try apply R.
  - rewrite info_put. apply R.
  - intros. rewrite info_put. by eapply (rep_info _ _ _ _ R).
  - intros A B i EN Hi. rewrite (cell_put _ _ _ _ _ _ _ C). case_decide as D.
    + destruct D as [D ->]. rewrite L. f_equal. symmetry.
      assert (A = []) as -> by (eapply (pos_inj (header zsl) A B [] ns); by rewrite <- ?EN).
      cbn in EN. subst B. apply short_end. by eapply ht_short.
    + apply (rep_cell _ _ _ _ R); [done|]. destruct A as [|a A _] using rev_ind.
      * unfold top, pos in *. cbn in *. destruct (decide (i = zlevel zsl)); [naive_solver|lia].
      * by rewrite top_snoc in *.
  - intros i Hi. rewrite (cell_put _ _ _ _ _ _ _ C), decide_False by lia. apply R. lia.
  - lia.
  - eapply Forall_impl; [apply R|]. cbn. lia.
  - intros p Hp. rewrite put_apart by set_solver. by apply R.
Qed.

Lemma updates_snoc F h zsl A B zl : Rep F h zsl (A ++ B) → (zlevel zsl ≤ zl)%nat →
  updates zsl (S zl) A = updates zsl zl A ++ [header zsl] ∧ ranks (S zl) A = ranks zl A ++ [0].
Proof.
  intros R H. unfold updates, ranks. rewrite seq_S, !fmap_app. cbn.
  rewrite (reach_short zl A); [done|]. eapply ht_short in H; [|done]. by apply Forall_app in H as [? _].
Qed.

Lemma raise_loop_level n i h zsl l u r : raise_loop n i h (with_level zsl l) u r = raise_loop n i h zsl u r.
Proof. revert i h u r. induction n as [|n IH]; intros; cbn [raise_loop]; [done|]. apply bind_ext. auto. Qed.

Lemma raise_spec F h zsl A B n : Rep F h zsl (A ++ B) → (zlevel zsl + n ≤ ZSKIPLIST_MAXLEVEL)%nat →
  let lv := (zlevel zsl + n)%nat in
  ∃ h1, raise_loop n (zlevel zsl) h zsl (updates zsl (zlevel zsl) A) (ranks (zlevel zsl) A) =
    Ret (h1, updates zsl lv A, ranks lv A) ∧ Rep F h1 (with_level zsl lv) (A ++ B).
Proof.
  revert h zsl. induction n as [|n IH]; intros h zsl R Hn; cbn zeta.
  { rewrite Nat.add_0_r. exists h. split; [done|]. by destruct zsl. }
  destruct (raise_one _ _ _ _ R ltac:(lia)) as (h1 & E1 & R1). cbn [raise_loop]. rewrite E1. run.
  destruct (updates_snoc _ _ _ _ _ (zlevel zsl) R ltac:(lia)) as [<- <-].
  destruct (IH h1 _ R1) as (h2 & E2 & R2); [cbn; lia|]. exists h2.
  rewrite Nat.add_succ_r. split; [|done]. by rewrite raise_loop_level in E2.
Qed.

(** * Insertion *)

Lemma rep_dom F h zsl ns p : Rep F h zsl ns → p ∈ header zsl :: (addr <$> ns) → p ∈ dom h.
Proof.
  intros R Hp. apply elem_of_dom. enough (is_Some (info <$> h !! p)) as [v Hv].
  { destruct (h !! p); [eauto|done]. }
  apply elem_of_cons in Hp as [->|(a & -> & Ha)%list_elem_of_fmap]; [by rewrite (rep_header _ _ _ _ R)|].
  apply list_elem_of_split in Ha as (A & B & ->). by rewrite (rep_info _ _ _ _ R A a B).
Qed.

Lemma reach_zero F h zsl A B : Rep F h zsl (A ++ B) → reach 0 A = A.
Proof.
  intros R. pose proof (rep_ht _ _ _ _ R) as H. apply Forall_app in H as [H _].
  rewrite <- (app_nil_r A) at 1. apply reach_app; [constructor|].
  destruct A as [|a A _] using rev_ind; [by left|]. right. rewrite top_snoc.
  apply Forall_app in H as [_ H]. apply Forall_cons in H as [H _]. lia.
Qed.

Lemma ranks_lookup n A k : (k < n)%nat → ranks n A !! k = Some (zlen (reach k A)).
Proof. intros. unfold ranks. by rewrite list_lookup_fmap, lookup_seq_lt. Qed.

(** The node is created and its levels and those before it are written. *)
Lemma create_link F h zsl A B s e lv :
  Rep F h zsl (A ++ B) → (1 ≤ lv ≤ zlevel zsl)%nat → zlen A + zlen B + 1 < 2 ^ 32 →
  let '(h1, x) := zslCreateNode h lv s (Some e) in let a := AN x s e lv in
  (x ∉ header zsl :: (addr <$> A ++ B)) ∧ x ≠ 0 ∧ F !! x = None ∧
  ∃ h2 h3, link_loop lv 0 h1 x (updates zsl (zlevel zsl) A) (ranks (zlevel zsl) A) = Ret h2 ∧
    untouched_loop (zlevel zsl - lv) lv h2 (updates zsl (zlevel zsl) A) = Ret h3 ∧
    info <$> h3 !! x = Some (Some e, s, zjunk_backward, lv) ∧
    (∀ y, y ≠ x → info <$> h3 !! y = info <$> h !! y) ∧
    (∀ k, (k < lv)%nat → cell h3 x k = Some (fwd k B)) ∧
    ∀ y k, y ≠ x → cell h3 y k =
      if decide (k < zlevel zsl)%nat then from_option Some (cell h y k) (relink (header zsl) A (a :: B) k y)
      else cell h y k.
Proof.
  intros R Hlv HN. unfold zslCreateNode. set (x := znew (dom h)). set (a := AN x s e lv).
  destruct (znew_fresh (dom h)) as [Hx Hx0]. fold x in Hx, Hx0.
  set (h1 := <[x := _]> h). assert (Hxs : x ∉ header zsl :: (addr <$> A ++ B)).
  { intros H. apply Hx. by eapply rep_dom. }
  assert (C1 : ∀ y k, y ≠ x → cell h1 y k = cell h y k).
  { intros y k Hy. unfold cell, h1. by rewrite lookup_insert_ne. }
  assert (U : ∀ k, pos (header zsl) (reach k A) ≠ x).
  { intros k E. apply Hxs. rewrite <- E. apply reach_in. }
  assert (L1 : linked h1 (header zsl) A B 0 (zlevel zsl) (updates zsl (zlevel zsl) A)).
  { intros k Hk. rewrite C1 by apply U. by apply (rep_linked _ _ _ _ _ R). }
  split_and!; [done|done| |].
  { rewrite <- (rep_frame _ _ _ _ R) by done. by apply not_elem_of_dom. }
  destruct (link_spec (header zsl) A B a (updates zsl (zlevel zsl) A) (ranks (zlevel zsl) A) HN lv 0 h1)
    as (h2 & E2 & I2 & C2); [cbn; lia|done| |intros k ?; apply L1; lia| | |].
  { intros k Hk. unfold cell, h1. rewrite lookup_insert_eq. cbn in Hk |- *. apply lookup_lt_is_Some.
    by rewrite zjunk_level_length. }
  { rewrite ranks_lookup by lia. by rewrite (reach_zero _ _ _ _ _ R). }
  { cbn. intros k Hk. apply ranks_lookup. lia. }
  destruct (untouched_spec (header zsl) A B a (updates zsl (zlevel zsl) A) HN (zlevel zsl - lv) lv h2)
    as (h3 & E3 & I3 & C3); [done| |].
  { intros k Hk. rewrite C2, decide_False by lia. apply L1. lia. }
  exists h2, h3. split_and!; [done|done| | | |].
  - rewrite I3, I2. unfold h1. rewrite lookup_insert_eq. unfold info. cbn. by rewrite zjunk_level_length.
  - intros y Hy. rewrite I3, I2. unfold h1. by rewrite lookup_insert_ne.
  - intros k Hk. rewrite C3, decide_False by lia. rewrite C2, decide_True by lia.
    unfold link_cells. by rewrite decide_True.
  - intros y k Hy. rewrite C3, C2, C1 by done. unfold link_cells. cbn [addr a].
    rewrite (decide_False (P := y = x)) by done. repeat case_decide; done || lia.
Qed.

(** The levels are raised to the height of the new node where it is higher. *)
Lemma raise_if F h zsl A B lv :
  Rep F h zsl (A ++ B) → (1 ≤ lv ≤ ZSKIPLIST_MAXLEVEL)%nat →
  ∃ h1 zl, (if (zlevel zsl <? lv)%nat then
      '(h, update, rank) ← raise_loop (lv - zlevel zsl) (zlevel zsl) h zsl
         (updates zsl (zlevel zsl) A) (ranks (zlevel zsl) A);
      Ret (h, update, rank, lv)
    else Ret (h, updates zsl (zlevel zsl) A, ranks (zlevel zsl) A, zlevel zsl)) =
    Ret (h1, updates zsl zl A, ranks zl A, zl) ∧
  Rep F h1 (with_level zsl zl) (A ++ B) ∧ zl = Nat.max lv (zlevel zsl).
Proof.
  intros R Hlv. case_cond.
  - destruct (raise_spec _ _ _ _ _ (lv - zlevel zsl) R ltac:(lia)) as (h1 & E1 & R1).
    replace (zlevel zsl + (lv - zlevel zsl))%nat with lv in * by lia.
    exists h1, lv. rewrite E1. run. split_and!; [done..|lia].
  - exists h, (zlevel zsl). split_and!; [done|by destruct zsl|lia].
Qed.

Lemma fwd_zero F h zsl A B : Rep F h zsl (A ++ B) →
  fwd 0 B = match B with [] => Level 0 0 | b :: _ => Level (addr b) 1 end.
Proof.
  intros R. destruct B as [|b B]; [done|]. apply fwd_tall. pose proof (rep_ht _ _ _ _ R) as H.
  apply Forall_app in H as [_ H]. apply Forall_cons in H as [H _]. lia.
Qed.

(** The end of an insertion: the backward pointers and the tail. *)
Lemma zinsert_tail F h h3 zsl A B a v :
  Rep F h zsl (A ++ B) → (addr a ∉ header zsl :: (addr <$> A ++ B)) → addr a ≠ 0 → F !! addr a = None →
  (1 ≤ ht a ≤ zlevel zsl)%nat →
  info <$> h3 !! addr a = Some (Some (ael a), asc a, v, ht a) →
  (∀ y, y ≠ addr a → info <$> h3 !! y = info <$> h !! y) →
  (∀ k, (k < ht a)%nat → cell h3 (addr a) k = Some (fwd k B)) →
  (∀ y k, y ≠ addr a → cell h3 y k =
      if decide (k < zlevel zsl)%nat then from_option Some (cell h y k) (relink (header zsl) A (a :: B) k y)
      else cell h y k) →
  ∃ h5 tl, (h4 ← set_backward h3 (addr a) (back A);
    l0 ← get_level h4 (addr a) 0;
    '(h5, tl) ← (if negb (forward l0 =? 0) then h5 ← set_backward h4 (forward l0) (addr a); Ret (h5, tail zsl)
                else Ret (h4, addr a));
    Ret (h5, tl)) = Ret (h5, tl) ∧
  Rep F h5 (Zsl (header zsl) tl (zlength zsl + 1) (zlevel zsl)) (A ++ a :: B).
Proof.
  intros R Hx Hx0 HF HT Ia Io Ca Co. rewrite (set_backward_ok _ _ _ _ Ia). run.
  rewrite (get_level_cell _ _ _ (fwd 0 B)) by (rewrite cell_setb; apply Ca; lia). run.
  rewrite (fwd_zero _ _ _ _ _ R). destruct B as [|b B]; cbn [forward].
  - test (negb (0 =? 0)) false. run. eexists _, _. split; [done|].
    eapply (zinsert_rep F h _ zsl A [] a R); try done.
    + rewrite info_setb, decide_True, Ia by done. done.
    + intros y Hy. rewrite info_setb, decide_False by done. cbn. by apply Io.
    + intros k Hk. rewrite cell_setb. by apply Ca.
    + intros y k Hy. rewrite cell_setb. by apply Co.
  - assert (addr b ≠ addr a) by set_solver. pose proof (rep_addr _ _ _ _ R A b B eq_refl).
    test (negb (addr b =? 0)) true.
    rewrite (set_backward_ok _ _ _ (ainfo A b)).
    2:{ rewrite info_setb, decide_False, Io by done. by apply (rep_info _ _ _ _ R A b B). }
    run. eexists _, _. split; [done|].
    eapply (zinsert_rep F h _ zsl A (b :: B) a R); try done.
    + rewrite !info_setb, decide_False, decide_True, Ia by done. done.
    + intros y Hy. rewrite info_setb, info_setb, (decide_False (P := y = addr a)), Io by done.
      cbn. repeat case_decide; congruence.
    + intros k Hk. rewrite !cell_setb. by apply Ca.
    + intros y k Hy. rewrite !cell_setb. by apply Co.
Qed.

Lemma zslInsert_spec F h zsl A B s e draws :
  Rep F h zsl (A ++ B) → splits (node_lt s e) (A ++ B) A → isnan s = false → draws_ok draws →
  zlen A + zlen B + 1 < 2 ^ 32 →
  ∃ h' zsl' a rest, zslInsert h zsl s e draws = Ret (h', zsl', addr a, rest) ∧
    asc a = s ∧ ael a = e ∧ F !! addr a = None ∧ h !! addr a = None ∧
    Rep F h' zsl' (A ++ a :: B) ∧ (tight zsl (A ++ B) → tight zsl' (A ++ a :: B)).
Proof.
  intros R HS Hs HD HN. unfold zslInsert. rewrite Hs. cbn [negb c_assert]. run.
  pose proof (rep_length _ _ _ _ R) as HL. pose proof (zlen_nonneg A). pose proof (zlen_nonneg B). zlr.
  rewrite (descend_spec _ _ _ _ R (wrapu 32) (node_lt s e) A B eq_refl HS)
    by (intros v Hv; zlr; apply wrapu_id; lia). run.
  destruct (zslRandomLevel_spec _ HD) as (lv & rest & -> & Hlv). run.
  destruct (raise_if _ _ _ _ _ lv R Hlv) as (h1 & zl & -> & R1 & Hzl). run.
  pose proof (create_link F h1 (with_level zsl zl) A B s e lv R1 ltac:(cbn; lia) HN) as CL.
  destruct (zslCreateNode h1 lv s (Some e)) as [h2 x] eqn:Ecr.
  destruct CL as (Hx & Hx0 & HFx & h3 & h4 & E3 & E4 & Ia & Io & Ca & Co). cbn [with_level zlevel] in *.
  change (updates (with_level zsl zl)) with (updates zsl) in *. rewrite E3. run. rewrite E4. run.
  rewrite (slot_ok _ 0 (pos (header zsl) A)).
  2:{ unfold updates. rewrite list_lookup_fmap, lookup_seq_lt by lia. cbn. by rewrite (reach_zero _ _ _ _ _ R). }
  run. rewrite pos_back.
  2:{ pose proof (rep_nodup _ _ _ _ R) as N. apply NoDup_cons in N as [N _]. rewrite fmap_app in N. set_solver. }
  destruct (zinsert_tail F h1 h4 (with_level zsl zl) A B (AN x s e lv) zjunk_backward R1) as (h5 & tl & E5 & R5);
    try done; [cbn; lia|].
  exists h5, (Zsl (header zsl) tl (zlength zsl + 1) zl), (AN x s e lv), rest. cbn [addr] in E5 |- *.
  split_and!; try done.
  - destruct (set_backward h4 x (back A)) as [h6| | |]; try done. cbn in E5 |- *.
    destruct (get_level h6 x 0) as [l0| | |]; try done. cbn in E5 |- *.
    rewrite wrapu_id by lia. destruct (negb (forward l0 =? 0)).
    + destruct (set_backward h6 (forward l0) x); try done. cbn in E5 |- *. by injection E5 as -> ->.
    + cbn in E5 |- *. by injection E5 as -> ->.
  - rewrite (rep_frame _ _ _ _ R); [done|]. done.
  - intros T. unfold tight. cbn [zlevel]. destruct (decide (lv ≤ zlevel zsl)%nat).
    + replace zl with (zlevel zsl) by lia. destruct T as [T|T]; [by left|right].
      rewrite Exists_app in *. destruct T; [by left|right]. by constructor.
    + right. apply Exists_app. right. constructor. cbn. lia.
Qed.

(** * Deletion *)

Lemma lower_one F h zsl ns l : Rep F h zsl ns → zlevel zsl = S (S l) → short (S l) ns →
  Rep F h (with_level zsl (S l)) ns.
Proof.
  intros R HZ HS. pose proof (rep_ht _ _ _ _ R) as HT. pose proof (rep_level _ _ _ _ R) as HL.
  constructor; cbn [with_level header tail zlength zlevel]; try apply R.
  - intros A B i E Hi. apply (rep_cell _ _ _ _ R); [done|].
    destruct A as [|a A _] using rev_ind; [cbn in *; lia|by rewrite top_snoc in *].
  - intros i Hi. destruct (decide (i = S l)) as [->|]; [|apply (rep_high _ _ _ _ R); lia].
    change (header zsl) with (pos (header zsl) []).
    rewrite (rep_cell _ _ _ _ R [] ns) by (done || (cbn; lia)). cbn. by rewrite short_end.
  - lia.
  - apply Forall_forall. intros a Ha. unfold short in HS. rewrite Forall_forall in HT, HS.
    specialize (HT _ Ha). specialize (HS _ Ha). cbn in *. lia.
Qed.

Lemma lower_loop_step h hd l : lower_loop (S (S l)) h hd =
  l0 ← get_level h hd (S l); if forward l0 =? 0 then lower_loop (S l) h hd else Ret (S (S l)).
Proof. done. Qed.

Lemma lower_spec F h zsl ns : Rep F h zsl ns →
  ∃ lv, lower_loop (zlevel zsl) h (header zsl) = Ret lv ∧ (lv ≤ zlevel zsl)%nat ∧
    Rep F h (with_level zsl lv) ns ∧ tight (with_level zsl lv) ns.
Proof.
  remember (zlevel zsl) as z eqn:EZ. revert zsl EZ. induction z as [|z IH]; intros zsl EZ R.
  { pose proof (rep_level _ _ _ _ R). lia. }
  assert (RZ : Rep F h (with_level zsl (S z)) ns) by (rewrite EZ; by destruct zsl).
  destruct z as [|l].
  { exists 1%nat. split_and!; [done|done|done|by left]. }
  pose proof (rep_get _ _ _ _ R [] ns (S l) eq_refl ltac:(cbn; lia)) as G.
  change (pos (header zsl) []) with (header zsl) in G. rewrite lower_loop_step, G. run.
  pose proof (rep_nonnull _ _ _ _ R) as N. rewrite not_elem_of_cons in N.
  destruct (forward (fwd (S l) ns) =? 0) eqn:Hc.
  - assert (HS : short (S l) ns) by (apply fwd_null; [apply N|by apply Z.eqb_eq]).
    pose proof (lower_one _ _ _ _ l R (eq_sym EZ) HS) as R1.
    destruct (IH (with_level zsl (S l)) eq_refl R1) as (lv & E & HL & R2 & T).
    exists lv. split_and!; [exact E|lia|done|done].
  - exists (S (S l)). split_and!; [done|done|done|]. right. cbn.
    destruct (short_dec (S l) ns) as [HS|(S & a & B & -> & _ & Ha)].
    { apply fwd_null in HS; [lia|apply N]. }
    apply Exists_app. right. constructor. pose proof (rep_ht _ _ _ _ R) as HT.
    apply Forall_app in HT as [_ HT]. apply Forall_cons in HT as [HT _]. lia.
Qed.

(** The first entries of an array are those a search for the end of [A] leaves. *)
Definition leads (zsl : zskiplist) A (update : list Z) : Prop :=
  ∀ k, (k < zlevel zsl)%nat → update !! k = Some (pos (header zsl) (reach k A)).

Lemma leads_updates zsl A : leads zsl A (updates zsl (zlevel zsl) A).
Proof. intros k Hk. unfold updates. by rewrite list_lookup_fmap, lookup_seq_lt. Qed.

Lemma node_info h x e s b l : info <$> h !! x = Some (e, s, b, l) →
  ∃ n, deref h x = Ret n ∧ h !! x = Some n ∧ info n = (e, s, b, l) ∧ ele n = e ∧ zscore n = s ∧ backward n = b.
Proof.
  unfold deref. destruct (h !! x) as [n|]; [|done]. intros H. apply (inj Some) in H. exists n.
  split_and!; try done; injection H; auto.
Qed.

(** What a deletion leaves: the node is still in the heap. *)
Definition deleted F (h' : heap) (zsl zsl' : zskiplist) A a B : Prop :=
  ∃ n, h' !! addr a = Some n ∧ ele n = Some (ael a) ∧ Rep (<[addr a := n]> F) h' zsl' (A ++ B) ∧
    tight zsl' (A ++ B) ∧ header zsl' = header zsl ∧ (zlevel zsl' ≤ zlevel zsl)%nat.

Lemma deleted_intro F h h' zsl A a B :
  Rep F h zsl (A ++ a :: B) → rebacked h h' B (back A) →
  (∀ y k, cell h' y k = if decide (k < zlevel zsl)%nat
     then from_option Some (cell h y k) (relink (header zsl) A B k y) else cell h y k) →
  ∃ lv, lower_loop (zlevel zsl) h' (header zsl) = Ret lv ∧
    deleted F h' zsl (Zsl (header zsl) (if B is [] then back A else tail zsl) (zlength zsl - 1) lv) A a B.
Proof.
  intros R I C. pose proof (rep_info _ _ _ _ R A a B eq_refl) as Ha.
  pose proof (rep_nodup _ _ _ _ R) as N. rewrite insert_perm in N. apply NoDup_cons in N as [N _].
  assert (Ha' : info <$> h' !! addr a = Some (ainfo A a)).
  { rewrite I, decide_False; [done|]. destruct B as [|b B]; cbn; [done|]. intros [= E]. apply N. set_solver. }
  apply node_info in Ha' as (n & _ & Hn & _ & En & _ & _).
  pose proof (delete_rep F h h' zsl A B a n R Hn I C) as R'.
  destruct (lower_spec _ _ _ _ R') as (lv & E & HL & R2 & T). exists lv. split; [exact E|].
  exists n. split_and!; try done.
Qed.

Lemma zslDeleteNode_spec F h zsl A a B update :
  Rep F h zsl (A ++ a :: B) → leads zsl A update → zlen A + zlen B + 1 < 2 ^ 64 →
  ∃ h' zsl', zslDeleteNode h zsl (addr a) update = Ret (h', zsl') ∧ deleted F h' zsl zsl' A a B.
Proof.
  intros R HL HN. pose proof (rep_nodup _ _ _ _ R) as N. rewrite insert_perm in N. apply NoDup_cons in N as [N N2].
  assert (Hu : ∀ k, pos (header zsl) (reach k A) ≠ addr a) by (intros k E; apply N; rewrite <- E; apply reach_in).
  assert (Hx : ∀ k, (k < ht a)%nat → cell h (addr a) k = Some (fwd k B)).
  { intros k Hk. rewrite <- (pos_snoc (header zsl) A a). apply (rep_cell _ _ _ _ R); [by rewrite <- (assoc_L (++))|].
    by rewrite top_snoc. }
  destruct (unlink_spec (header zsl) A B a update HN ltac:(rewrite fmap_app in N; set_solver) (zlevel zsl) 0 h)
    as (h1 & E1 & I1 & C1); [|done|done|by eapply (rep_addr _ _ _ _ R)|].
  { intros k Hk. split; [apply HL; lia|]. apply (rep_linked _ _ _ _ _ R). lia. }
  unfold zslDeleteNode. rewrite E1. run.
  assert (Ha : info <$> h1 !! addr a = Some (ainfo A a)) by (rewrite I1; by apply (rep_info _ _ _ _ R A a B)).
  destruct (node_info _ _ _ _ _ _ Ha) as (nx & -> & _ & _ & _ & _ & Hb). run.
  pose proof (rep_ht _ _ _ _ R) as HT. apply Forall_app in HT as [_ HT]. apply Forall_cons in HT as [HT HTB].
  assert (C0 : cell h1 (addr a) 0 = Some (fwd 0 B)).
  { rewrite C1. case_decide; [|apply Hx; lia]. unfold relink.
    rewrite decide_False by (intros E; by eapply Hu). apply Hx. lia. }
  rewrite (get_level_cell _ _ _ _ C0). run.
  rewrite (fwd_zero _ _ _ (A ++ [a]) B) by (rewrite <- (assoc_L (++)); done).
  pose proof (rep_length _ _ _ _ R) as HLen. zlr. rewrite wrapu_id by (pose proof (zlen_nonneg A); pose proof (zlen_nonneg B); lia).
  destruct B as [|b B]; cbn [forward].
  - test (negb (0 =? 0)) false. run.
    destruct (deleted_intro F h h1 zsl A a [] R) as (lv & E & D).
    { intros y. by rewrite I1. }
    { intros y k. rewrite C1. repeat case_decide; done || lia. }
    rewrite E. run. rewrite Hb. eauto.
  - pose proof (rep_info _ _ _ _ R (A ++ [a]) b B ltac:(by rewrite <- (assoc_L (++)))) as Ib.
    pose proof (rep_addr _ _ _ _ R (A ++ [a]) b B ltac:(by rewrite <- (assoc_L (++)))).
    test (negb (addr b =? 0)) true. rewrite (set_backward_ok _ _ _ _ (eq_trans (I1 _) Ib)). run. rewrite Hb.
    destruct (deleted_intro F h (setb h1 (addr b) (back A)) zsl A a (b :: B) R) as (lv & E & D).
    { intros y. rewrite info_setb, I1. cbn. repeat case_decide; congruence. }
    { intros y k. rewrite cell_setb, C1. repeat case_decide; done || lia. }
    rewrite E. run. eauto.
Qed.

(** Freeing a node that is not part of the list. *)
Lemma zrep_free F h zsl ns x n : Rep (<[x := n]> F) h zsl ns → F !! x = None → Rep F (delete x h) zsl ns.
Proof.
  intros R HF. assert (D : ∀ p, p ∈ header zsl :: (addr <$> ns) → p ≠ x).
  { intros p Hp ->. apply (rep_apart _ _ _ _ R) in Hp. by rewrite lookup_insert_eq in Hp. }
  assert (C : ∀ p i, p ∈ header zsl :: (addr <$> ns) → cell (delete x h) p i = cell h p i).
  { intros p i Hp. unfold cell. by rewrite lookup_delete_ne by (symmetry; auto). }
  constructor; try apply R.
  - rewrite lookup_delete_ne by (symmetry; apply D; left). apply R.
  - intros A a B ->. rewrite lookup_delete_ne by (symmetry; apply D; set_solver). by apply (rep_info _ _ _ _ R A a B).
  - intros A B i -> Hi. rewrite C by apply pos_in. by apply R.
  - intros i Hi. rewrite C by left. by apply R.
  - intros p Hp. pose proof (rep_apart _ _ _ _ R p Hp) as H. by rewrite lookup_insert_ne in H by (symmetry; auto).
  - intros p Hp. destruct (decide (p = x)) as [->|]; [by rewrite lookup_delete_eq|].
    rewrite lookup_delete_ne, (rep_frame _ _ _ _ R) by done. by rewrite lookup_insert_ne.
Qed.

(** * Creation and release *)

Lemma clear_spec n j h x : (∀ k, (j ≤ k < j + n)%nat → is_Some (cell h x k)) →
  ∃ h', clear_levels n j h x = Ret h' ∧
    writes h h' j n (λ _ y, if decide (y = x) then Some (Level 0 0) else None).
Proof.
  revert j h. induction n as [|n IH]; intros j h H; [exists h; split; [done|apply writes_nil]|].
  destruct (H j ltac:(lia)) as [l C]. cbn [clear_levels]. rewrite (set_forward_cell _ _ _ _ _ C). run.
  assert (C1 : cell (put h x j (Level 0 (span l))) x j = Some (Level 0 (span l))).
  { rewrite (cell_put _ _ _ _ _ _ _ C). by rewrite decide_True. }
  rewrite (set_span_cell _ _ _ _ _ C1). run. cbn [forward]. set (h1 := put _ x j (Level 0 0)).
  assert (W : writes h h1 j 1 (λ _ y, if decide (y = x) then Some (Level 0 0) else None)).
  { split; [intros; unfold h1; by rewrite !info_put|]. intros y k. unfold h1.
    rewrite (cell_put _ _ _ _ _ _ _ C1), (cell_put _ _ _ _ _ _ _ C).
    destruct (decide (k = j)) as [->|]; [|by rewrite !decide_False by (lia || naive_solver)].
    rewrite (decide_True (P := (j ≤ j < j + 1)%nat)) by lia.
    destruct (decide (y = x)); [by rewrite decide_True|by rewrite !decide_False by naive_solver]. }
  destruct (IH (S j) h1) as (h' & E & W').
  { intros k Hk. rewrite (writes_above _ _ _ _ _ _ W) by lia. apply H. lia. }
  exists h'. split; [done|]. by eapply writes_step.
Qed.

(** A new list is empty, and the rest of the heap is as it was. *)
Lemma zslCreate_spec h : ∃ h' zsl, zslCreate h = Ret (h', zsl) ∧ Rep h h' zsl [] ∧ tight zsl [].
Proof.
  unfold zslCreate, zslCreateNode. set (x := znew (dom h)). destruct (znew_fresh (dom h)) as [Hx Hx0].
  fold x in Hx, Hx0. apply not_elem_of_dom in Hx. set (h0 := <[x := _]> h).
  destruct (clear_spec ZSKIPLIST_MAXLEVEL 0 h0 x) as (h1 & E & I & C).
  { intros k Hk. unfold cell, h0. rewrite lookup_insert_eq. cbn. apply lookup_lt_is_Some.
    rewrite zjunk_level_length. lia. }
  rewrite E. run. assert (Ix : info <$> h1 !! x = Some (None, score_zero, zjunk_backward, ZSKIPLIST_MAXLEVEL)).
  { rewrite I. unfold h0. rewrite lookup_insert_eq. unfold info. cbn. by rewrite zjunk_level_length. }
  rewrite (set_backward_ok _ _ _ _ Ix). run. eexists _, _. split; [done|]. split; [|by left].
  assert (Cx : ∀ k, (k < ZSKIPLIST_MAXLEVEL)%nat → cell (setb h1 x 0) x k = Some (Level 0 0)).
  { intros k Hk. rewrite cell_setb, C, decide_True by lia. by rewrite decide_True. }
  constructor; cbn [header tail zlength zlevel fmap list_fmap].
  - apply NoDup_singleton.
  - set_solver.
  - rewrite info_setb, decide_True, Ix by done. done.
  - intros [] ? ? [=].
  - intros A B i EN Hi. symmetry in EN. apply app_nil in EN as [-> ->]. cbn in Hi |- *.
    apply Cx. unfold ZSKIPLIST_MAXLEVEL. lia.
  - intros i Hi. rewrite Cx by lia. done.
  - unfold ZSKIPLIST_MAXLEVEL. lia.
  - constructor.
  - done.
  - done.
  - set_solver.
  - intros p Hp. assert (p ≠ x) by set_solver. apply heap_ext.
    + rewrite info_setb, decide_False, I by done. unfold h0. by rewrite lookup_insert_ne.
    + intros i. rewrite cell_setb, C. rewrite (decide_False (P := p = x)) by done. unfold cell, h0.
      rewrite lookup_insert_ne by done. by case_decide.
Qed.

(** The nodes are freed one after another and nothing else is. *)
Lemma free_loop_spec ns fuel h :
  NoDup (addr <$> ns) → 0 ∉ addr <$> ns → (length ns < fuel)%nat →
  (∀ A a B, ns = A ++ a :: B → cell h (addr a) 0 = Some (fwd 0 B)) → Forall (λ a, (1 ≤ ht a)%nat) ns →
  ∃ h', free_loop fuel h (forward (fwd 0 ns)) = Ret h' ∧
    ∀ p, h' !! p = if decide (p ∈ addr <$> ns) then None else h !! p.
Proof.
  revert fuel h. induction ns as [|a ns IH]; intros fuel h N N0 HF HC HT; (destruct fuel as [|fuel]; [cbn in HF; lia|]).
  { cbn. eexists. split; [done|]. intros p. rewrite decide_False; [done|set_solver]. }
  apply Forall_cons in HT as [Ha HT]. cbn [fmap list_fmap] in N, N0. apply NoDup_cons in N as [Na N].
  rewrite not_elem_of_cons in N0. destruct N0 as [N0a N0].
  rewrite fwd_tall by lia. cbn [forward free_loop]. test (addr a =? 0) false.
  rewrite (get_level_cell _ _ _ _ (HC [] a ns eq_refl)). run.
  destruct (IH fuel (zslFreeNode h (addr a))) as (h' & E & H'); [done|done|cbn in HF; lia| |done|].
  { intros A b B ->. unfold cell, zslFreeNode. rewrite lookup_delete_ne by set_solver. by apply (HC (a :: A) b B). }
  exists h'. split; [done|]. intros p. rewrite H'. unfold zslFreeNode. cbn [fmap list_fmap].
  destruct (decide (p = addr a)) as [->|].
  - rewrite lookup_delete_eq. rewrite (decide_True (P := addr a ∈ addr a :: _)) by left. by case_decide.
  - rewrite lookup_delete_ne by done. repeat case_decide; set_solver.
Qed.

Lemma zslFree_spec F h zsl ns : Rep F h zsl ns → zslFree h zsl = Ret F.
Proof.
  intros R. unfold zslFree. pose proof (rep_level _ _ _ _ R).
  pose proof (rep_get _ _ _ _ R [] ns 0 eq_refl ltac:(cbn; lia)) as G. change (pos (header zsl) []) with (header zsl) in G.
  rewrite G. run. pose proof (rep_nodup _ _ _ _ R) as N. apply NoDup_cons in N as [N1 N2].
  pose proof (rep_nonnull _ _ _ _ R) as N0. rewrite not_elem_of_cons in N0. destruct N0 as [_ N0].
  destruct (free_loop_spec ns (S (Z.to_nat (zlength zsl))) (delete (header zsl) h)) as (h' & E & H'); [done|done| | | |].
  - rewrite (rep_length _ _ _ _ R). unfold zlen. lia.
  - intros A a B EN. unfold cell. rewrite lookup_delete_ne.
    + change (cell h (addr a) 0 = Some (fwd 0 B)). rewrite <- (pos_snoc (header zsl) A a).
      apply (rep_cell _ _ _ _ R); [by rewrite EN, <- (assoc_L (++))|]. rewrite top_snoc.
      pose proof (rep_ht _ _ _ _ R) as HT. rewrite EN in HT. apply Forall_app in HT as [_ HT].
      apply Forall_cons in HT as [HT _]. lia.
    + intros E. apply N1. rewrite E, EN, fmap_app. set_solver.
  - eapply Forall_impl; [apply R|]. cbn. lia.
  - rewrite E. f_equal. apply map_eq. intros p. rewrite H'. pose proof (rep_apart _ _ _ _ R p) as HA.
    pose proof (rep_frame _ _ _ _ R p) as HF. destruct (decide (p = header zsl)) as [->|].
    + rewrite lookup_delete_eq, HA by left. by case_decide.
    + rewrite lookup_delete_ne by done. case_decide as D; [by rewrite HA by (by right)|].
      apply HF. by apply not_elem_of_cons.
Qed.

End operations.
End SkiplistOps.
