(* ===== verification/SkiplistOrder.v ===== *)
(** Skip lists: the order of the nodes, and the sorted list of scores and
    elements that a skip list stands for. *)
From stdpp Require Import gmap sorting.
From S2P Require Import Prelude Skiplist SkiplistRep.

Module SkiplistOrder.
Import Skiplist SkiplistRep.

(** * Keys and their order *)

Abbreviation key := (score * element)%type.

Section order.
Context {SC : Score} {EL : Element}.

(** Before in the order of the skip list: by score, then by element. *)
Definition kless (k k' : key) : bool :=
  score_lt k.1 k'.1 || (score_eq k.1 k'.1 && (elecmp k.2 k'.2 <? 0)).
Definition ksame (k k' : key) : bool := score_eq k'.1 k.1 && (elecmp k.2 k'.2 =? 0).
Definition key_of (a : anode) : key := (asc a, ael a).
Definition number (k : key) : Prop := isnan k.1 = false.

(** What the skip list of a sorted set holds: numbers as scores, in order, every
    element once. *)
Record zset_ok (l : list key) : Prop := {
  zo_number : Forall number l;
  zo_sorted : StronglySorted (λ k k', kless k k' = true) l;
  zo_unique : NoDup l.*2;
}.

(** * The operations on the sorted list *)

Fixpoint kinsert (k : key) (l : list key) : list key :=
  match l with
  | [] => [k]
  | x :: l => if kless x k then x :: kinsert k l else k :: x :: l
  end.

Definition kdelete (k : key) (l : list key) : list key := filter (λ x, ksame x k = false) l.

Definition in_zrange (range : zrangespec) (k : key) : bool :=
  zslValueGteMin k.1 range && zslValueLteMax k.1 range.
Definition in_zlexrange (range : zlexrangespec) (k : key) : bool :=
  zslLexValueGteMin k.2 range && zslLexValueLteMax k.2 range.

Context {SL : ScoreLaws SC} {LL : ElementLaws EL}.

(** * The order *)

Lemma score_lt_asym a b : score_lt a b = true → score_lt b a = false.
Proof.
  intros H. destruct (score_lt b a) eqn:E; [|done].
  by rewrite <- (score_lt_irrefl a), (score_lt_trans _ _ _ H E).
Qed.

Lemma score_eq_refl a : isnan a = false → score_eq a a = true.
Proof. intros. by rewrite score_eq_lt, score_lt_irrefl. Qed.
Lemma score_eq_sym a b : isnan a = false → isnan b = false → score_eq a b = score_eq b a.
Proof. intros. rewrite !score_eq_lt by done. apply andb_comm. Qed.

Lemma score_eq_trans a b c : isnan a = false → isnan b = false → isnan c = false →
  score_eq a b = true → score_eq b c = true → score_eq a c = true.
Proof.
  intros Ha Hb Hc. rewrite !score_eq_lt by done. intros H1 H2.
  apply andb_true_iff. split; apply negb_true_iff; apply not_true_is_false; intros E;
    destruct (score_lt_weak _ b _ Hb E) as [K|K]; rewrite K in *; cbn in *; rewrite ?andb_false_r in *; done.
Qed.

Lemma score_lt_eq a b c : isnan a = false → isnan b = false → isnan c = false →
  score_lt a b = true → score_eq b c = true → score_lt a c = true.
Proof.
  intros Ha Hb Hc H. rewrite score_eq_lt by done. intros E. destruct (score_lt_weak _ c _ Hc H) as [K|K]; [done|].
  rewrite K, andb_false_r in E. done.
Qed.
Lemma score_eq_lt_trans a b c : isnan a = false → isnan b = false → isnan c = false →
  score_eq a b = true → score_lt b c = true → score_lt a c = true.
Proof.
  intros Ha Hb Hc E H. rewrite score_eq_lt in E by done. destruct (score_lt_weak _ a _ Ha H) as [K|K]; [|done].
  rewrite K, andb_false_r in E. done.
Qed.

Lemma kless_true k k' : kless k k' = true ↔
  score_lt k.1 k'.1 = true ∨ score_eq k.1 k'.1 = true ∧ elecmp k.2 k'.2 < 0.
Proof. unfold kless. rewrite orb_true_iff, andb_true_iff. by rewrite Z.ltb_lt. Qed.

Lemma ksame_true k k' : ksame k k' = true ↔ score_eq k'.1 k.1 = true ∧ k.2 = k'.2.
Proof. unfold ksame. rewrite andb_true_iff, Z.eqb_eq. by rewrite elecmp_eq. Qed.

Lemma kless_irrefl k : kless k k = false.
Proof.
  apply not_true_is_false. intros [H|[_ H]]%kless_true; [by rewrite score_lt_irrefl in H|].
  assert (elecmp k.2 k.2 = 0) by by apply elecmp_eq. lia.
Qed.

Lemma kless_trans a b c : number a → number b → number c →
  kless a b = true → kless b c = true → kless a c = true.
Proof.
  unfold number. intros Ha Hb Hc. rewrite !kless_true. intros [H1|[H1 E1]] [H2|[H2 E2]].
  - left. by eapply score_lt_trans.
  - left. by eapply (score_lt_eq _ b.1).
  - left. by eapply (score_eq_lt_trans _ b.1).
  - right. split; [by eapply (score_eq_trans _ b.1)|by eapply elecmp_trans].
Qed.

Lemma kless_asym a b : number a → number b → kless a b = true → kless b a = false.
Proof.
  intros Ha Hb H. destruct (kless b a) eqn:E; [|done].
  by rewrite <- (kless_irrefl a), (kless_trans a b a Ha Hb Ha H E).
Qed.

(** Two keys are in order one way or the other, or the same. *)
Lemma kless_total a b : number a → number b → kless a b = false → ksame a b = false → kless b a = true.
Proof.
  unfold number. intros Ha Hb H1 H2. apply kless_true. unfold kless, ksame in H1, H2.
  rewrite (score_eq_sym b.1 a.1) in * by done. rewrite score_eq_lt in * by done.
  apply orb_false_iff in H1 as [H1 H3]. rewrite H1 in *. cbn in *.
  destruct (score_lt b.1 a.1); [by left|]. cbn in *. right. split; [done|]. apply elecmp_anti. lia.
Qed.

Lemma kless_same a b c : number a → number b → number c → ksame a b = true →
  kless a c = kless b c ∧ kless c a = kless c b.
Proof.
  unfold number. intros Ha Hb Hc [E1 E2]%ksame_true.
  assert (E3 : score_eq a.1 b.1 = true) by by rewrite score_eq_sym.
  split; apply eq_true_iff_eq; rewrite !kless_true, E2; split; intros [H|[H ?]].
  - left. by eapply (score_eq_lt_trans _ a.1).
  - right. split; [by eapply (score_eq_trans _ a.1)|done].
  - left. by eapply (score_eq_lt_trans _ b.1).
  - right. split; [by eapply (score_eq_trans _ b.1)|done].
  - left. by eapply (score_lt_eq _ a.1).
  - right. split; [by eapply (score_eq_trans _ a.1)|done].
  - left. by eapply (score_lt_eq _ b.1).
  - right. split; [by eapply (score_eq_trans _ b.1)|done].
Qed.

(** * Ranges *)

(** The bounds of a range are numbers. *)
Definition range_ok (r : zrangespec) : Prop := isnan (rmin r) = false ∧ isnan (rmax r) = false.

Lemma score_le_lt a b : isnan a = false → isnan b = false → score_le a b = negb (score_lt b a).
Proof.
  intros Ha Hb. unfold score_le. rewrite score_eq_lt by done. destruct (score_lt a b) eqn:E; [|done].
  by rewrite (score_lt_asym _ _ E).
Qed.

Lemma kless_le x y : number x → number y → kless x y = true → score_lt y.1 x.1 = false.
Proof.
  intros X Y [H|[H _]]%kless_true; [by apply score_lt_asym|]. rewrite score_eq_lt in H by done.
  apply andb_true_iff in H as [_ H]. by apply negb_true_iff.
Qed.

Lemma score_lt_le a b c : isnan b = false → score_lt a c = true → score_lt b c = false → score_lt a b = true.
Proof. intros Hb H E. destruct (score_lt_weak _ b _ Hb H); congruence. Qed.
Lemma score_le_lt_trans a b c : isnan b = false → score_lt a c = true → score_lt a b = false → score_lt b c = true.
Proof. intros Hb H E. destruct (score_lt_weak _ b _ Hb H); congruence. Qed.

Lemma gte_up r x y : range_ok r → number x → number y → kless x y = true →
  zslValueGteMin x.1 r = true → zslValueGteMin y.1 r = true.
Proof.
  intros [M _] X Y H. pose proof (kless_le x y X Y H) as L. unfold zslValueGteMin. destruct (minex r).
  - intros E. by apply (score_lt_le _ _ x.1).
  - rewrite !score_le_lt by done. rewrite !negb_true_iff. intros E. apply not_true_is_false. intros E'.
    by rewrite (score_le_lt_trans y.1 x.1 (rmin r)) in E.
Qed.

Lemma lte_down r x y : range_ok r → number x → number y → kless x y = true →
  zslValueLteMax y.1 r = true → zslValueLteMax x.1 r = true.
Proof.
  intros [_ M] X Y H. pose proof (kless_le x y X Y H) as L. unfold zslValueLteMax. destruct (maxex r).
  - intros E. by apply (score_le_lt_trans y.1 x.1).
  - rewrite !score_le_lt by done. rewrite !negb_true_iff. intros E. apply not_true_is_false. intros E'.
    by rewrite (score_lt_le _ y.1 x.1) in E.
Qed.

(** Lexicographic ranges are for lists with one score. *)
Definition one_score (l : list key) : Prop := ∀ x y, x ∈ l → y ∈ l → score_eq x.1 y.1 = true.

Lemma lexcmp_mono b x y : elecmp x y < 0 →
  (0 <= sdscmplex (Bound x) b → 0 < sdscmplex (Bound y) b) ∧ (sdscmplex (Bound y) b <= 0 → sdscmplex (Bound x) b < 0).
Proof.
  intros H. destruct b as [| |b]; cbn; [lia..|].
  pose proof (elecmp_anti x y). pose proof (elecmp_anti b x). pose proof (elecmp_anti b y). split; intros K.
  - destruct (Z.eq_dec (elecmp x b) 0) as [<-%elecmp_eq|]; [lia|].
    pose proof (elecmp_trans b x y ltac:(lia) H). lia.
  - destruct (Z.eq_dec (elecmp y b) 0) as [<-%elecmp_eq|]; [lia|]. apply (elecmp_trans x y b); lia.
Qed.

(** * Sorted lists *)

Lemma sublist_Forall {X} (P : X → Prop) l l' : sublist l' l → Forall P l → Forall P l'.
Proof. rewrite !Forall_forall. eauto using elem_of_sublist. Qed.

Lemma zset_ok_sublist l l' : sublist l' l → zset_ok l → zset_ok l'.
Proof.
  intros S [N O U]. split.
  - by eapply sublist_Forall.
  - clear N U. induction S as [|x l1 l2 S IH|x l1 l2 S IH]; [done| |].
    + apply StronglySorted_cons in O as [H O]. apply StronglySorted_cons. split; [by eapply sublist_Forall|auto].
    + apply StronglySorted_cons in O as [_ O]. auto.
  - eapply sublist_NoDup; [done|]. by apply fmap_sublist.
Qed.

(** A test that holds of what is before a key when it holds of the key. *)
Definition closed (p : key → bool) (l : list key) : Prop :=
  ∀ x y, x ∈ l → y ∈ l → kless x y = true → p y = true → p x = true.

Lemma closed_less l k : Forall number l → number k → closed (λ x, kless x k) l.
Proof. rewrite Forall_forall. intros N K x y Hx Hy H H'. apply (kless_trans x y k); auto. Qed.

Lemma range_closed r l : range_ok r → zset_ok l →
  closed (λ k, negb (zslValueGteMin k.1 r)) l ∧ closed (λ k, zslValueLteMax k.1 r) l.
Proof.
  intros HR [N _ _]. rewrite Forall_forall in N. split; intros x y Hx Hy H.
  - rewrite !negb_true_iff. intros E. apply not_true_is_false. intros E'. by rewrite (gte_up r x y) in E by auto.
  - apply lte_down; auto.
Qed.

Lemma lex_closed r l : one_score l → zset_ok l →
  closed (λ k, negb (zslLexValueGteMin k.2 r)) l ∧ closed (λ k, zslLexValueLteMax k.2 r) l.
Proof.
  intros HS [N _ _]. rewrite Forall_forall in N. split; intros x y Hx Hy [H|[_ H]]%kless_true.
  1,3: pose proof (HS x y Hx Hy) as E; rewrite score_eq_lt, H in E by (by apply N); done.
  - unfold zslLexValueGteMin. destruct (lexcmp_mono (lmin r) _ _ H) as [M _]. destruct (lminex r); lia.
  - unfold zslLexValueLteMax. destruct (lexcmp_mono (lmax r) _ _ H) as [_ M]. destruct (lmaxex r); lia.
Qed.

Lemma closed_split p ns :
  zset_ok (key_of <$> ns) → closed p (key_of <$> ns) →
  ∃ A B, ns = A ++ B ∧ Forall (λ a, p (key_of a) = true) A ∧ Forall (λ a, p (key_of a) = false) B.
Proof.
  intros [_ O _] C. induction ns as [|a ns IH]; [by exists [], []|].
  cbn in O. apply StronglySorted_cons in O as [H O]. rewrite Forall_forall in H.
  destruct (p (key_of a)) eqn:E.
  - destruct IH as (A & B & -> & HA & HB); [done| |].
    { intros x y Hx Hy. apply C; by right. }
    exists (a :: A), B. split_and!; [done|by constructor|done].
  - exists [], (a :: ns). split_and!; [done|constructor|]. constructor; [done|]. apply Forall_forall.
    intros b Hb. apply not_true_is_false. intros P.
    assert (p (key_of a) = true); [|congruence]. assert (key_of b ∈ key_of <$> ns) by by apply list_elem_of_fmap_2.
    apply (C (key_of a) (key_of b)); [left|by right|by apply H|]. done.
Qed.

Lemma kinsert_split A B k : Forall (λ x, kless x k = true) A → Forall (λ x, kless x k = false) B →
  kinsert k (A ++ B) = A ++ k :: B.
Proof.
  induction 1 as [|a A Ha _ IH]; intros HB; cbn [app kinsert]; [|by rewrite Ha, IH].
  destruct HB as [|b B Hb HB]; cbn; [done|]. by rewrite Hb.
Qed.

Lemma kinsert_elem k l x : x ∈ kinsert k l ↔ x = k ∨ x ∈ l.
Proof. induction l as [|y l IH]; cbn; [set_solver|]. destruct (kless y k); set_solver. Qed.

Lemma kinsert_ok k l : zset_ok l → number k → k.2 ∉ l.*2 → zset_ok (kinsert k l).
Proof.
  intros Z K U. destruct Z as [N O D]. split.
  - apply Forall_forall. intros x [->|Hx]%kinsert_elem; [done|]. by eapply Forall_forall.
  - induction l as [|y l IH]; cbn; [by repeat constructor|].
    apply Forall_cons in N as [Ny N]. apply StronglySorted_cons in O as [H O]. cbn in D, U.
    apply NoDup_cons in D as [_ D]. destruct (kless y k) eqn:E; apply StronglySorted_cons.
    + split; [|apply IH; set_solver]. apply Forall_forall. intros x [->|Hx]%kinsert_elem; [done|].
      by eapply (Forall_forall _ l) in H.
    + assert (kless k y = true) as KY.
      { apply kless_total; try done. apply not_true_is_false. intros [_ ?]%ksame_true. set_solver. }
      split; [|by apply StronglySorted_cons]. constructor; [done|]. rewrite Forall_forall in H, N |- *.
      intros x Hx. apply (kless_trans k y x); auto.
  - clear N O. induction l as [|y l IH]; cbn; [apply NoDup_singleton|]. cbn in D, U.
    apply NoDup_cons in D as [Dy D]. destruct (kless y k); cbn; apply NoDup_cons.
    2:{ split; [set_solver|by apply NoDup_cons]. }
    split; [|apply IH; set_solver]. intros (x & E & [->|Hx]%kinsert_elem)%list_elem_of_fmap; [set_solver|].
    apply Dy. rewrite E. by apply list_elem_of_fmap_2.
Qed.

End order.
End SkiplistOrder.
