(* ===== verification/SkiplistSet.v ===== *)
(** Skip lists: the functions of [t_zset.c] on the sorted list of scores and
    elements a skip list stands for. *)
From stdpp Require Import gmap sorting.
From S2P Require Import Prelude Skiplist SkiplistRep SkiplistUpdate SkiplistOps SkiplistOrder.

Module SkiplistSet.
Import Skiplist SkiplistRep SkiplistUpdate SkiplistOps SkiplistOrder.

Section sorted.
Context {SC : Score} {EL : Element} {AL : ZslAlloc}.
Context {LAWS : ZslAllocLaws AL} {SL : ScoreLaws SC} {LL : ElementLaws EL}.
Implicit Types (h F : heap) (A B ns : list anode) (a : anode).

(** The skip list holds the nodes [ns], in order; [F] is the rest of the heap. *)
Record holds F h (zsl : zskiplist) ns : Prop := {
  ho_rep : Rep F h zsl ns;
  ho_tight : tight zsl ns;
  ho_ok : zset_ok (key_of <$> ns);
}.

(** * Searches *)

Lemma splits_pred (p : anode → bool) cond A B :
  (∀ P a acc l n, info n = ainfo P a → cond acc l n = p a) →
  Forall (λ a, p a = true) A → Forall (λ a, p a = false) B → splits cond (A ++ B) A.
Proof.
  intros H HA HB P a Q acc l n E I _. rewrite (H _ _ _ _ _ I).
  apply app_eq_inv in E as [(S & -> & ES)|(S & -> & ->)].
  - destruct S as [|s S]; cbn in ES.
    + subst B. apply Forall_cons in HB as [-> _]. rewrite app_nil_r. by rewrite bool_decide_eq_false_2 by lia.
    + injection ES as -> ->. apply Forall_app in HA as [_ HA]. apply Forall_cons in HA as [-> _].
      rewrite bool_decide_eq_true_2; [done|]. rewrite length_app. cbn. lia.
  - apply Forall_app in HB as [_ HB]. apply Forall_cons in HB as [-> _].
    rewrite bool_decide_eq_false_2; [done|]. rewrite length_app. lia.
Qed.

(** Split at the place of a key. *)
Lemma less_split ns k : zset_ok (key_of <$> ns) → number k →
  ∃ A B, ns = A ++ B ∧ Forall (λ a, kless (key_of a) k = true) A ∧ Forall (λ a, kless (key_of a) k = false) B ∧
  splits (node_lt k.1 k.2) ns A.
Proof.
  intros Z K. destruct (closed_split (λ x, kless x k) ns Z) as (A & B & -> & HA & HB).
  { apply closed_less; [apply Z|done]. }
  exists A, B. split_and!; try done. apply (splits_pred (λ a, kless (key_of a) k)); [|done..].
  intros P a acc l n I. injection I as I1 I2 _ _. unfold node_lt, kless. by rewrite I1, I2.
Qed.

(** What the loops of a function find, before its own work. *)
Lemma seek F h zsl A B wrap cond :
  Rep F h zsl (A ++ B) → splits cond (A ++ B) A → (∀ v, 0 <= v <= zlen (A ++ B) → wrap v = v) →
  descend (zlevel zsl) (walk_fuel zsl) h wrap cond (header zsl) 0 =
    Ret (updates zsl (zlevel zsl) A, ranks (zlevel zsl) A) ∧
  slot (updates zsl (zlevel zsl) A) 0 = Ret (pos (header zsl) A) ∧
  slot (ranks (zlevel zsl) A) 0 = Ret (zlen A) ∧
  get_level h (pos (header zsl) A) 0 = Ret (fwd 0 B).
Proof.
  intros R S W. pose proof (rep_level _ _ _ _ R). split_and!.
  - by apply (descend_spec _ _ _ _ R wrap cond A B eq_refl S W).
  - apply slot_ok. rewrite (leads_updates zsl A) by lia. by rewrite (reach_zero _ _ _ _ _ R).
  - apply slot_ok. rewrite ranks_lookup by lia. by rewrite (reach_zero _ _ _ _ _ R).
  - apply (rep_get _ _ _ _ R A B 0 eq_refl). rewrite <- (reach_zero _ _ _ _ _ R). apply reach_top. lia.
Qed.

(** The node a search stops before. *)
Lemma next_node F h zsl A b B : Rep F h zsl (A ++ b :: B) →
  forward (fwd 0 (b :: B)) = addr b ∧ addr b ≠ 0 ∧
  ∃ n, deref h (addr b) = Ret n ∧ ele n = Some (ael b) ∧ zscore n = asc b ∧ backward n = back A.
Proof.
  intros R. rewrite (fwd_zero _ _ _ _ _ R). split_and!; [done|by eapply (rep_addr _ _ _ _ R)|].
  destruct (node_info _ _ _ _ _ _ (rep_info _ _ _ _ R A b B eq_refl)) as (n & ? & _ & _ & ? & ? & ?). eauto.
Qed.

(** * Insertion *)

Lemma kinsert_nodes A B a k : key_of a = k →
  Forall (λ a, kless (key_of a) k = true) A → Forall (λ a, kless (key_of a) k = false) B →
  key_of <$> A ++ a :: B = kinsert k (key_of <$> A ++ B).
Proof.
  intros <- HA HB. rewrite !fmap_app, fmap_cons. symmetry. apply kinsert_split; by apply Forall_fmap.
Qed.

Lemma zslInsert_holds F h zsl ns s e draws :
  holds F h zsl ns → isnan s = false → e ∉ ael <$> ns → draws_ok draws → zlen ns + 1 < 2 ^ 32 →
  ∃ h' zsl' a rest ns', zslInsert h zsl s e draws = Ret (h', zsl', addr a, rest) ∧
    holds F h' zsl' ns' ∧ key_of <$> ns' = kinsert (s, e) (key_of <$> ns) ∧ a ∈ ns' ∧ key_of a = (s, e) ∧
    h !! addr a = None.
Proof.
  intros [R T Z] K U HD HN. destruct (less_split ns (s, e) Z K) as (A & B & -> & HA & HB & HS). zlr.
  destruct (zslInsert_spec F h zsl A B s e draws R HS K HD ltac:(lia))
    as (h' & zsl' & a & rest & E & Es & Ee & _ & Hf & R' & T').
  assert (EK : key_of <$> A ++ a :: B = kinsert (s, e) (key_of <$> A ++ B)).
  { apply kinsert_nodes; [unfold key_of; by rewrite Es, Ee|done..]. }
  exists h', zsl', a, rest, (A ++ a :: B). split_and!; [done| |done|set_solver|unfold key_of; by rewrite Es, Ee|done].
  split; [done|by apply T'|]. rewrite EK. apply kinsert_ok; [done|done|]. by rewrite <- list_fmap_compose.
Qed.

(** * Deletion *)

Lemma kdelete_none k l : Forall (λ x, ksame x k = false) l → kdelete k l = l.
Proof.
  unfold kdelete. induction 1 as [|x l Hx _ IH]; [done|]. rewrite filter_cons_True by done. by rewrite IH.
Qed.

Lemma less_not_same x k : number x → number k → kless x k = true → ksame x k = false.
Proof.
  intros X K H. apply not_true_is_false. intros S. destruct (kless_same x k k X K K S) as [E _].
  by rewrite E, kless_irrefl in H.
Qed.
Lemma more_not_same x k : number x → number k → kless k x = true → ksame x k = false.
Proof.
  intros X K H. apply not_true_is_false. intros S. destruct (kless_same x k k X K K S) as [_ E].
  by rewrite E, kless_irrefl in H.
Qed.

(** The first node that is not before a key is the only one that can be the key. *)
Lemma kdelete_split A b B k : let l := key_of <$> A ++ b :: B in
  zset_ok l → number k → Forall (λ a, kless (key_of a) k = true) A → kless (key_of b) k = false →
  kdelete k l = if ksame (key_of b) k then key_of <$> A ++ B else l.
Proof.
  intros l [N O _] K HA Hb. unfold l in *. rewrite fmap_app in N, O. cbn in N, O.
  apply Forall_app in N as [NA N]. apply Forall_cons in N as [Nb NB].
  apply StronglySorted_app in O as (_ & _ & O). apply StronglySorted_cons in O as [O _].
  rewrite !fmap_app. cbn [fmap list_fmap]. unfold kdelete. rewrite filter_app.
  fold (kdelete k (key_of <$> A)). rewrite (kdelete_none k (key_of <$> A)).
  2:{ rewrite Forall_fmap in NA |- *. rewrite Forall_forall in *. intros a Ha. apply less_not_same; [by apply NA|done|by apply HA]. }
  assert (KB : kdelete k (key_of <$> B) = key_of <$> B).
  { apply kdelete_none. rewrite Forall_forall in *. intros x Hx. apply more_not_same; [auto|done|].
    destruct (ksame (key_of b) k) eqn:E.
    - destruct (kless_same _ _ x Nb K ltac:(auto) E) as [<- _]. by apply O.
    - apply (kless_trans k (key_of b) x); auto. by apply kless_total. }
  destruct (ksame (key_of b) k) eqn:E.
  - rewrite filter_cons_False by congruence. fold (kdelete k (key_of <$> B)). by rewrite KB.
  - rewrite filter_cons_True by done. fold (kdelete k (key_of <$> B)). by rewrite KB.
Qed.

Lemma same_node_key b n s e : ele n = Some (ael b) → zscore n = asc b → same_node n s e = ksame (key_of b) (s, e).
Proof. intros E S. unfold same_node, ksame. cbn. by rewrite E, S. Qed.

Lemma holds_sub F h' zsl' A a B : zset_ok (key_of <$> A ++ a :: B) → Rep F h' zsl' (A ++ B) →
  tight zsl' (A ++ B) → holds F h' zsl' (A ++ B).
Proof.
  intros Z R T. split; [done..|]. eapply zset_ok_sublist; [|done]. apply fmap_sublist.
  apply sublist_app; [done|]. by apply sublist_cons.
Qed.

Lemma zslDelete_holds F h zsl ns s e keep :
  holds F h zsl ns → isnan s = false → zlen ns < 2 ^ 64 →
  ∃ h' zsl' x ns', zslDelete h zsl s e keep = Ret (h', zsl', x) ∧
    key_of <$> ns' = kdelete (s, e) (key_of <$> ns) ∧
    ((x = 0 ∧ ns' = ns ∧ h' = h ∧ zsl' = zsl) ∨
     (∃ a n, a ∈ ns ∧ ksame (key_of a) (s, e) = true ∧ x = addr a ∧ ele n = Some (ael a) ∧
        holds (if keep then <[x := n]> F else F) h' zsl' ns')).
Proof.
  intros [R T Z] K HN. destruct (less_split ns (s, e) Z K) as (A & B & -> & HA & HB & HS).
  destruct (seek _ _ _ _ _ (λ v, v) _ R HS ltac:(done)) as (E1 & E2 & _ & E3).
  unfold zslDelete. cbn [fst snd] in E1. rewrite E1. run. rewrite E2. run. rewrite E3. run.
  destruct B as [|b B].
  { cbn [fwd forward]. test (0 =? 0) true. eexists _, _, _, _. split; [done|]. split; [|by left].
    rewrite app_nil_r in *. symmetry. apply kdelete_none. destruct Z as [N _ _]. rewrite Forall_fmap in N |- *.
    rewrite Forall_forall in *. intros a Ha. apply less_not_same; [by apply N|done|by apply HA]. }
  destruct (next_node _ _ _ _ _ _ R) as (-> & Hb0 & n & En & Hn1 & Hn2 & _). test (addr b =? 0) false.
  rewrite En. run. rewrite (same_node_key b n s e Hn1 Hn2).
  apply Forall_cons in HB as [Hb _]. pose proof (kdelete_split A b B (s, e) Z K HA Hb) as KD.
  destruct (ksame (key_of b) (s, e)) eqn:S.
  - destruct (zslDeleteNode_spec F h zsl A b B _ R (leads_updates zsl A)) as (h' & zsl' & E & D).
    { zlr. lia. }
    rewrite E. run. destruct D as (n' & Hn' & He & R' & T' & _).
    eexists _, _, _, (A ++ B). split; [done|]. split; [done|]. right. exists b, n'.
    split_and!; [set_solver|done..|]. destruct keep; eapply holds_sub; try done.
    eapply zrep_free; [done|]. apply (rep_apart _ _ _ _ R). rewrite fmap_app. set_solver.
  - eexists _, _, _, _. split; [done|]. split; [done|by left].
Qed.

(** * Another score for a node *)

Definition rescore a (s : score) : anode := AN (addr a) s (ael a) (ht a).

Lemma fwd_rescore i S a s B : fwd i (S ++ rescore a s :: B) = fwd i (S ++ a :: B).
Proof. induction S as [|b S IH]; cbn; [done|]. by rewrite IH. Qed.

Lemma last_rescore {X} (f : anode → X) (d : X) A a s B : (∀ a, f (rescore a s) = f a) →
  match last (A ++ rescore a s :: B) with Some a => f a | None => d end =
  match last (A ++ a :: B) with Some a => f a | None => d end.
Proof.
  intros Hf. destruct B as [|b B _] using rev_ind; [by rewrite !last_snoc|].
  rewrite !app_comm_cons, !(assoc_L (++)). by rewrite !last_snoc.
Qed.

Lemma rescore_rep F h zsl A a B s :
  Rep F h zsl (A ++ a :: B) → ∃ h', set_score h (addr a) s = Ret h' ∧ Rep F h' zsl (A ++ rescore a s :: B).
Proof.
  intros R. destruct (node_info _ _ _ _ _ _ (rep_info _ _ _ _ R A a B eq_refl)) as (n & En & Hn & In & _).
  unfold set_score. rewrite En. run. eexists. split; [done|].
  set (h' := <[addr a := _]> h).
  assert (C : ∀ y k, cell h' y k = cell h y k).
  { intros y k. unfold cell, h'. destruct (decide (y = addr a)) as [->|]; simplify_map_eq; done. }
  assert (P : addr <$> A ++ rescore a s :: B = addr <$> A ++ a :: B) by (by rewrite !fmap_app).
  pose proof (rep_nodup _ _ _ _ R) as N.
  assert (NE : ∀ A1 a1 B1, A ++ a :: B = A1 ++ a1 :: B1 → length A1 ≠ length A → addr a1 ≠ addr a).
  { intros A1 a1 B1 E HL EA. apply HL. apply NoDup_cons in N as [_ N]. eapply (NoDup_lookup (addr <$> A ++ a :: B)); [done| |].
    - rewrite E, list_lookup_fmap, list_lookup_middle by done. cbn. by rewrite EA.
    - rewrite list_lookup_fmap, list_lookup_middle by done. done. }
  assert (IO : ∀ y, y ≠ addr a → info <$> h' !! y = info <$> h !! y).
  { intros y Hy. unfold h'. by rewrite lookup_insert_ne. }
  constructor; rewrite ?P; try apply R.
  - rewrite IO; [apply R|]. apply NoDup_cons in N as [N _]. intros E. apply N. rewrite E, fmap_app. set_solver.
  - intros A1 a1 B1 [(S & EA & EB)|(B2 & -> & EB)]%prefix_cases.
    + destruct S as [|s' S]; cbn in EB; injection EB as -> ->.
      * rewrite app_nil_r in EA. subst A1. unfold h'. cbn [addr rescore]. rewrite lookup_insert_eq.
        injection In as I1 I2 I3 I4. unfold info, ainfo. cbn. by rewrite I1, I3, I4.
      * rewrite IO; [apply (rep_info _ _ _ _ R A1 s' (S ++ a :: B)); subst A; by rewrite <- (assoc_L (++))|].
        eapply (NE A1 _ (S ++ a :: B)); subst A; [by rewrite <- (assoc_L (++))|]. rewrite length_app. cbn. lia.
    + rewrite IO by (eapply (NE (A ++ a :: B2) _ B1); [subst B; by rewrite <- (assoc_L (++))|rewrite length_app; cbn; lia]).
      rewrite (rep_info _ _ _ _ R (A ++ a :: B2) a1 B1) by (subst B; by rewrite <- (assoc_L (++))).
      unfold ainfo, back, pos. by rewrite (last_rescore addr).
  - intros A1 B1 i [(S & EA & EB)|(B2 & -> & EB)]%prefix_cases Hi; rewrite C.
    + rewrite (rep_cell _ _ _ _ R A1 (S ++ a :: B)); [|subst A; by rewrite <- (assoc_L (++))|done].
      by rewrite EB, fwd_rescore.
    + unfold pos, top in *. rewrite (last_rescore addr) by done. rewrite (last_rescore ht) in Hi by done.
      apply (rep_cell _ _ _ _ R (A ++ a :: B2) B1); [subst B; by rewrite <- (assoc_L (++))|done].
  - intros i Hi. rewrite C. by apply R.
  - pose proof (rep_ht _ _ _ _ R) as H. apply Forall_app in H as [? H]. apply Forall_cons in H as [? ?].
    apply Forall_app. split; [done|]. by constructor.
  - rewrite (rep_tail _ _ _ _ R). unfold back, pos. by rewrite (last_rescore addr).
  - rewrite (rep_length _ _ _ _ R). zlr. done.
  - intros p Hp. unfold h'. rewrite lookup_insert_ne by (rewrite fmap_app in Hp; set_solver). by apply R.
Qed.

(** The scores of the neighbours of a node. *)
Definition fits_after A (s : score) : bool := match last A with Some p => score_lt (asc p) s | None => true end.
Definition fits_before B (s : score) : bool := match head B with Some c => score_lt s (asc c) | None => true end.

(** A score between those of the neighbours keeps the place of the node. *)
Lemma fits_place A b B s e : zset_ok (key_of <$> A ++ b :: B) → isnan s = false →
  fits_after A s = true → fits_before B s = true →
  Forall (λ a, kless (key_of a) (s, e) = true) A ∧ Forall (λ a, kless (key_of a) (s, e) = false) B.
Proof.
  intros [N O _] K HA HB. rewrite Forall_fmap in N. rewrite fmap_app in O. cbn in O.
  apply Forall_app in N as [NA N]. apply Forall_cons in N as [_ NB].
  apply StronglySorted_app in O as (_ & OA & OB). apply StronglySorted_cons in OB as [_ OB].
  assert (NK : number (s, e)) by done. split.
  - destruct A as [|p A _] using rev_ind; [done|]. unfold fits_after in HA. rewrite last_snoc in HA.
    rewrite fmap_app in OA. apply StronglySorted_app in OA as (OA & _ & _).
    apply Forall_app in NA as [NA NP]. apply Forall_cons in NP as [NP _].
    assert (P : kless (key_of p) (s, e) = true) by (apply kless_true; by left).
    apply Forall_app. split; [|by constructor]. rewrite Forall_forall in *. intros a Ha.
    apply (kless_trans _ (key_of p)); [by apply NA|done|done| |done]. apply OA; [by apply list_elem_of_fmap_2|left].
  - destruct B as [|c B]; [done|]. cbn in HB, OB. apply StronglySorted_cons in OB as [OB _].
    apply Forall_cons in NB as [NC NB].
    assert (P : kless (s, e) (key_of c) = true) by (apply kless_true; by left).
    constructor; [by apply kless_asym|]. rewrite Forall_forall in *. intros a Ha.
    apply kless_asym; [done|by apply NB|]. apply (kless_trans _ (key_of c)); [done..|by apply NB|done|].
    rewrite Forall_fmap, Forall_forall in OB. by apply OB.
Qed.

Lemma read_neighbours F h zsl A b B s n :
  Rep F h zsl (A ++ b :: B) → backward n = back A →
  (before ← (if backward n =? 0 then Ret true
             else b ← deref h (backward n); Ret (score_lt (zscore b) s));
   lx ← get_level h (addr b) 0;
   if before : bool then
     (if forward lx =? 0 then Ret true else f ← deref h (forward lx); Ret (score_lt s (zscore f)))
   else Ret false) = Ret (fits_after A s && fits_before B s).
Proof.
  intros R ->. pose proof (rep_get _ _ _ _ R (A ++ [b]) B 0 ltac:(by rewrite <- (assoc_L (++)))) as G.
  rewrite pos_snoc, top_snoc in G.
  assert (G' : get_level h (addr b) 0 = Ret (fwd 0 B)).
  { apply G. pose proof (rep_ht _ _ _ _ R) as H. apply Forall_app in H as [_ H].
    apply Forall_cons in H as [H _]. lia. }
  rewrite (assoc_L (++) A [b] B : A ++ b :: B = _) in R. pose proof (fwd_zero _ _ _ _ _ R) as E0.
  assert (HB : ∀ x : bool, (if x then if forward (fwd 0 B) =? 0 then Ret true
      else f ← deref h (forward (fwd 0 B)); Ret (score_lt s (zscore f)) else Ret false) =
    Ret (x && fits_before B s)).
  { intros []; [|done]. rewrite E0. destruct B as [|c B]; [done|]. cbn [forward].
    destruct (next_node _ _ _ _ _ _ R) as (_ & Hc & m & -> & _ & Hm & _). test (addr c =? 0) false.
    run. unfold fits_before. cbn. by rewrite Hm. }
  unfold fits_after, back, pos. destruct A as [|p A _] using rev_ind.
  - cbn [last]. test (0 =? 0) true. run. rewrite G'. run. apply (HB true).
  - rewrite last_snoc. rewrite <- !(assoc_L (++)) in R.
    destruct (next_node _ _ _ _ _ _ R) as (_ & Hp & m & -> & _ & Hm & _). test (addr p =? 0) false.
    run. rewrite G'. run. rewrite Hm. apply HB.
Qed.

(** The node of a key that is in the list. *)
Lemma same_split ns k : zset_ok (key_of <$> ns) → number k → Exists (λ a, ksame (key_of a) k = true) ns →
  ∃ A b B, ns = A ++ b :: B ∧ Forall (λ a, kless (key_of a) k = true) A ∧ splits (node_lt k.1 k.2) ns A ∧
    ksame (key_of b) k = true ∧ kdelete k (key_of <$> ns) = key_of <$> A ++ B.
Proof.
  intros Z K HE. destruct (less_split ns k Z K) as (A & B & -> & HA & HB & HS).
  pose proof (zo_number _ Z) as N. rewrite Forall_fmap, Forall_app in N. destruct N as [NA _].
  assert (EB : Exists (λ a, ksame (key_of a) k = true) B).
  { apply Exists_app in HE as [HE|HE]; [|done]. apply Exists_exists in HE as (a & Ha & E).
    rewrite Forall_forall in *. by rewrite (less_not_same _ _ (NA a Ha) K (HA a Ha)) in E. }
  destruct B as [|b B]; [by apply Exists_nil in EB|]. apply Forall_cons in HB as [Hb _].
  pose proof (kdelete_split A b B k Z K HA Hb) as KD.
  destruct (ksame (key_of b) k) eqn:E; [by exists A, b, B|].
  apply Exists_exists in EB as (a & Ha & Ea). exfalso.
  assert (H : key_of a ∈ kdelete k (key_of <$> A ++ b :: B)).
  { rewrite KD. apply list_elem_of_fmap_2. set_solver. }
  unfold kdelete in H. apply list_elem_of_filter in H as [H _]. congruence.
Qed.

Lemma zslUpdateScore_holds F h zsl ns cur e new draws :
  holds F h zsl ns → isnan cur = false → isnan new = false → draws_ok draws → zlen ns < 2 ^ 32 →
  Exists (λ a, ksame (key_of a) (cur, e) = true) ns →
  ∃ h' zsl' x rest ns', zslUpdateScore h zsl cur e new draws = Ret (h', zsl', x, rest) ∧
    holds F h' zsl' ns' ∧ key_of <$> ns' = kinsert (new, e) (kdelete (cur, e) (key_of <$> ns)).
Proof.
  intros [R T Z] K K' HD HN HE.
  destruct (same_split ns (cur, e) Z K HE) as (A & b & B & -> & HA & HS & Sb & KD). rewrite KD.
  destruct (seek _ _ _ _ _ (λ v, v) _ R HS ltac:(done)) as (E1 & E2 & _ & E3).
  unfold zslUpdateScore. cbn [fst snd] in E1. rewrite E1. run. rewrite E2. run. rewrite E3. run.
  destruct (next_node _ _ _ _ _ _ R) as (-> & Hb0 & n & En & Hn1 & Hn2 & Hn3).
  test (negb (addr b =? 0)) true. cbn [c_assert]. run. rewrite En. run.
  rewrite (same_node_key b n cur e Hn1 Hn2), Sb. cbn [c_assert]. run.
  pose proof (read_neighbours _ _ _ _ _ _ new n R Hn3) as RN.
  destruct (if backward n =? 0 then _ else _) as [before| | |]; try done. revert RN. run. intros RN.
  destruct (get_level h (addr b) 0) as [lx| | |]; try done. revert RN. run. intros ->. run.
  assert (Eb : ael b = e) by (apply ksame_true in Sb as [_ Sb]; done).
  assert (Z' : zset_ok (key_of <$> A ++ B)).
  { eapply zset_ok_sublist; [|done]. apply fmap_sublist, sublist_app; [done|]. by apply sublist_cons. }
  assert (U : e ∉ ael <$> A ++ B).
  { pose proof (zo_unique _ Z) as D. rewrite <- list_fmap_compose, fmap_app in D. cbn in D. rewrite Eb in D.
    apply NoDup_app in D as (_ & D1 & D2). apply NoDup_cons in D2 as [D2 _]. rewrite fmap_app, elem_of_app.
    intros [H|H]; [|by apply D2]. apply (D1 e H). left. }
  destruct (fits_after A new && fits_before B new) eqn:EF.
  - apply andb_true_iff in EF as [F1 F2]. destruct (fits_place A b B new e Z K' F1 F2) as [P1 P2].
    destruct (rescore_rep F h zsl A b B new R) as (h' & E & R'). rewrite E. run.
    assert (EK : key_of <$> A ++ rescore b new :: B = kinsert (new, e) (key_of <$> A ++ B)).
    { apply kinsert_nodes; [|done..]. unfold key_of. cbn. by rewrite Eb. }
    eexists _, _, _, _, _. split; [done|]. split; [|done]. split; [done| |].
    + destruct T as [T|T]; [by left|right]. rewrite Exists_app, Exists_cons in *. by destruct T as [?|[?|?]]; auto.
    + rewrite EK. apply kinsert_ok; [done|done|]. by rewrite <- list_fmap_compose.
  - destruct (zslDeleteNode_spec F h zsl A b B _ R (leads_updates zsl A)) as (h1 & zsl1 & E & D).
    { zlr. lia. }
    rewrite E. run. unfold node_ele. rewrite Hn1. run. destruct D as (n' & Hn' & He & R1 & T1 & _). rewrite Eb.
    destruct (zslInsert_holds (<[addr b := n']> F) h1 zsl1 (A ++ B) new e draws) as (h2 & zsl2 & a & rest & ns' & E' & H' & K2 & _);
      [by split|done|done|done|zlr; lia|].
    rewrite E'. run. eexists _, _, _, _, ns'. split; [done|]. split; [|done]. destruct H' as [R2 T2 Z2].
    split; [|done..]. eapply zrep_free; [done|]. apply (rep_apart _ _ _ _ R). rewrite fmap_app. set_solver.
Qed.

(** * Deletion of a range *)

(** The test of a loop holds of the nodes of [C], asked one after another from
    [t], and not of the node after them. *)
Definition stops (test : Z → zskiplistNode → bool) (t : Z) (C B : list anode) : Prop :=
  (∀ C1 c C2 n, C = C1 ++ c :: C2 → ele n = Some (ael c) → zscore n = asc c → test (t + zlen C1) n = true) ∧
  (∀ b B' n, B = b :: B' → ele n = Some (ael b) → zscore n = asc b → test (t + zlen C) n = false).

Lemma delete_while_spec {D} (del : D → element → D) F test A B update C fuel h zsl d t r :
  holds F h zsl (A ++ C ++ B) → leads zsl A update → stops test t C B → (length C < fuel)%nat →
  0 <= t → t + zlen C < 2 ^ 64 → 0 <= r → r + zlen C < 2 ^ 64 → zlen (A ++ C ++ B) < 2 ^ 64 →
  ∃ h' zsl', delete_while del fuel h zsl d test update (forward (fwd 0 (C ++ B))) t r =
    Ret (h', zsl', foldl del d (ael <$> C), r + zlen C) ∧ holds F h' zsl' (A ++ B).
Proof.
  revert fuel h zsl d t r. induction C as [|c C IH]; intros fuel h zsl d t r [R T Z] HL [S1 S2] HF Ht Ht' Hr Hr' HN;
    (destruct fuel as [|fuel]; [cbn in HF; lia|]); cbn [app delete_while].
  - zlr. rewrite !Z.add_0_r in *. cbn [app] in *. destruct B as [|b B].
    { cbn [fwd forward]. test (0 =? 0) true. eauto using Build_holds. }
    destruct (next_node _ _ _ _ _ _ R) as (-> & Hb & n & -> & Hn1 & Hn2 & _). test (addr b =? 0) false. run.
    rewrite (S2 b B n eq_refl Hn1 Hn2). eauto using Build_holds.
  - cbn [app] in R, T, Z, HN. destruct (next_node _ _ _ _ _ _ R) as (-> & Hc & n & -> & Hn1 & Hn2 & _).
    test (addr c =? 0) false. run. pose proof (S1 [] c C n eq_refl Hn1 Hn2) as TC.
    rewrite zlen_nil, Z.add_0_r in TC. rewrite TC.
    pose proof (rep_get _ _ _ _ R (A ++ [c]) (C ++ B) 0 ltac:(by rewrite <- (assoc_L (++)))) as G.
    rewrite pos_snoc, top_snoc in G. rewrite G.
    2:{ pose proof (rep_ht _ _ _ _ R) as H. apply Forall_app in H as [_ H]. apply Forall_cons in H as [H _]. lia. }
    run. destruct (zslDeleteNode_spec F h zsl A c (C ++ B) update R HL) as (h1 & zsl1 & E & DL); [zlr; lia|].
    rewrite E. run. unfold node_ele. rewrite Hn1. run. zlr.
    pose proof (zlen_nonneg C). rewrite !wrapu_id by lia.
    destruct DL as (n' & Hn' & He & R1 & T1 & Hh & Hv).
    destruct (IH fuel (delete (addr c) h1) zsl1 (del d (ael c)) (t + 1) (r + 1)) as (h' & zsl' & E' & H').
    + eapply holds_sub; [done| |done]. eapply zrep_free; [done|]. apply (rep_apart _ _ _ _ R). rewrite fmap_app. set_solver.
    + intros k Hk. rewrite Hh. apply HL. lia.
    + split.
      * intros C1 c' C2 m -> Hm1 Hm2. rewrite <- (S1 (c :: C1) c' C2 m eq_refl Hm1 Hm2). f_equal. zlr. lia.
      * intros b B' m -> Hm1 Hm2. rewrite <- (S2 b B' m eq_refl Hm1 Hm2). f_equal. zlr. lia.
    + cbn in HF. lia.
    + lia.
    + lia.
    + lia.
    + lia.
    + zlr. lia.
    + exists h', zsl'. cbn [fmap list_fmap foldl]. split; [|done]. unfold zslFreeNode. rewrite E'.
      replace (r + 1 + zlen C) with (r + (1 + zlen C)) by lia. done.
Qed.

Lemma zlen_fmap {X Y} (f : X → Y) l : zlen (f <$> l) = zlen l.
Proof. unfold zlen. by rewrite length_fmap. Qed.

(** The loop of a range function, after its search. *)
Lemma delete_range {D} (del : D → element → D) F h zsl A C B test d t :
  holds F h zsl (A ++ C ++ B) → stops test t C B → 0 <= t → t + zlen C < 2 ^ 64 → zlen (A ++ C ++ B) < 2 ^ 64 →
  ∃ h' zsl', delete_while del (walk_fuel zsl) h zsl d test (updates zsl (zlevel zsl) A) (forward (fwd 0 (C ++ B))) t 0 =
    Ret (h', zsl', foldl del d (ael <$> C), zlen C) ∧ holds F h' zsl' (A ++ B).
Proof.
  intros H ST Ht Ht' HN. pose proof (ho_rep _ _ _ _ H) as R.
  pose proof (zlen_nonneg A). pose proof (zlen_nonneg B). pose proof (zlen_nonneg C). zlr.
  apply (delete_while_spec del F test A B _ C _ _ _ d t 0); try done; try lia.
  - apply leads_updates.
  - unfold walk_fuel. rewrite (rep_length _ _ _ _ R). unfold zlen. rewrite Nat2Z.id, !length_app. lia.
  - zlr. lia.
Qed.

(** The part of a list between two tests that are monotone in its order. *)
Lemma range_split (ge le : key → bool) ns : zset_ok (key_of <$> ns) →
  closed (λ k, negb (ge k)) (key_of <$> ns) → closed le (key_of <$> ns) →
  ∃ A C B, ns = A ++ C ++ B ∧ Forall (λ a, ge (key_of a) = false) A ∧
    Forall (λ a, ge (key_of a) = true) (C ++ B) ∧ Forall (λ a, le (key_of a) = true) C ∧
    Forall (λ a, le (key_of a) = false) B.
Proof.
  intros Z HG HL. destruct (closed_split _ _ Z HG) as (A & CB & -> & HA & HCB).
  rewrite fmap_app in Z, HL. destruct (closed_split le CB) as (C & B & -> & HC & HB).
  - eapply zset_ok_sublist; [|done]. by apply sublist_inserts_l.
  - intros x y Hx Hy. apply HL; apply elem_of_app; by right.
  - exists A, C, B. split_and!; try done.
    + eapply Forall_impl; [done|]. cbn. intros a. by rewrite negb_true_iff.
    + eapply Forall_impl; [done|]. cbn. intros a. by rewrite negb_false_iff.
Qed.

Lemma filter_all {X} (p : X → Prop) `{!∀ x, Decision (p x)} l : Forall p l → filter p l = l.
Proof. induction 1 as [|x l Hx _ IH]; [done|]. by rewrite filter_cons_True, IH. Qed.
Lemma filter_none {X} (p : X → Prop) `{!∀ x, Decision (p x)} l : Forall (λ x, ¬ p x) l → filter p l = [].
Proof. induction 1 as [|x l Hx _ IH]; [done|]. by rewrite filter_cons_False. Qed.

Lemma range_filter (ge le : key → bool) A C B :
  Forall (λ a, ge (key_of a) = false) A → Forall (λ a, ge (key_of a) = true) (C ++ B) →
  Forall (λ a, le (key_of a) = true) C → Forall (λ a, le (key_of a) = false) B →
  filter (λ k, ge k && le k = false) (key_of <$> A ++ C ++ B) = key_of <$> A ++ B ∧
  filter (λ k, ge k && le k = true) (key_of <$> A ++ C ++ B) = key_of <$> C.
Proof.
  intros HA HG HC HB. apply Forall_app in HG as [G1 G2].
  assert (KA : Forall (λ a, ge (key_of a) && le (key_of a) = false) A).
  { eapply Forall_impl; [done|]. by intros a ->. }
  assert (KC : Forall (λ a, ge (key_of a) && le (key_of a) = true) C).
  { rewrite Forall_forall in *. intros a Ha. by rewrite G1, HC. }
  assert (KB : Forall (λ a, ge (key_of a) && le (key_of a) = false) B).
  { rewrite Forall_forall in *. intros a Ha. by rewrite G2, HB. }
  rewrite !fmap_app, !filter_app. split.
  - rewrite (filter_all _ (key_of <$> A)), (filter_none _ (key_of <$> C)), (filter_all _ (key_of <$> B));
      [done|by apply Forall_fmap| |by apply Forall_fmap]. apply Forall_fmap. eapply Forall_impl; [done|]. cbn. congruence.
  - rewrite (filter_none _ (key_of <$> A)), (filter_all _ (key_of <$> C)), (filter_none _ (key_of <$> B)).
    + by rewrite app_nil_r.
    + apply Forall_fmap. eapply Forall_impl; [done|]. cbn. congruence.
    + by apply Forall_fmap.
    + apply Forall_fmap. eapply Forall_impl; [done|]. cbn. congruence.
Qed.

Lemma splits_ge (ge : key → bool) cond A R :
  (∀ P a acc l n, info n = ainfo P a → cond acc l n = negb (ge (key_of a))) →
  Forall (λ a, ge (key_of a) = false) A → Forall (λ a, ge (key_of a) = true) R → splits cond (A ++ R) A.
Proof.
  intros H HA HR. apply (splits_pred (λ a, negb (ge (key_of a)))); [done| |];
    (eapply Forall_impl; [done|]); cbn; by intros a ->.
Qed.

(** The test of the loop looks at the key of the node. *)
Lemma stops_le (le : key → bool) (test : Z → zskiplistNode → bool) t C B :
  (∀ t a n, ele n = Some (ael a) → zscore n = asc a → test t n = le (key_of a)) →
  Forall (λ a, le (key_of a) = true) C → Forall (λ a, le (key_of a) = false) B → stops test t C B.
Proof.
  intros H HC HB. split.
  - intros C1 c C2 n -> E S. rewrite (H _ c) by done. apply Forall_app in HC as [_ HC]. by apply Forall_cons in HC as [? _].
  - intros b B' n -> E S. rewrite (H _ b) by done. by apply Forall_cons in HB as [? _].
Qed.

(** A function removed the keys of a test from the list and from the dictionary. *)
Definition removed {D} (del : D → element → D) (p : key → bool) F ns (d : D)
    (r : outcome (heap * zskiplist * D * Z)) : Prop :=
  ∃ h' zsl' ns', let gone := filter (λ k, p k = true) (key_of <$> ns) in
    r = Ret (h', zsl', foldl del d gone.*2, zlen gone) ∧ holds F h' zsl' ns' ∧
    key_of <$> ns' = filter (λ k, p k = false) (key_of <$> ns).

Lemma removed_intro {D} (del : D → element → D) (ge le : key → bool) F h zsl A C B cond test d :
  holds F h zsl (A ++ C ++ B) → zlen (A ++ C ++ B) < 2 ^ 64 →
  (∀ P a acc l n, info n = ainfo P a → cond acc l n = negb (ge (key_of a))) →
  (∀ t a n, ele n = Some (ael a) → zscore n = asc a → test t n = le (key_of a)) →
  Forall (λ a, ge (key_of a) = false) A → Forall (λ a, ge (key_of a) = true) (C ++ B) →
  Forall (λ a, le (key_of a) = true) C → Forall (λ a, le (key_of a) = false) B →
  removed del (λ k, ge k && le k) F (A ++ C ++ B) d
    ('(update, _) ← descend (zlevel zsl) (walk_fuel zsl) h (λ v, v) cond (header zsl) 0;
     u0 ← slot update 0;
     l ← get_level h u0 0;
     delete_while del (walk_fuel zsl) h zsl d test update (forward l) 0 0).
Proof.
  intros H HN Hc Ht HA HG HC HB. pose proof (ho_rep _ _ _ _ H) as R.
  destruct (seek _ _ _ _ _ (λ v, v) cond R (splits_ge ge cond A (C ++ B) Hc HA HG) ltac:(done)) as (E1 & E2 & _ & E4).
  rewrite E1. run. rewrite E2. run. rewrite E4. run.
  pose proof (zlen_nonneg A). pose proof (zlen_nonneg B).
  destruct (delete_range del F h zsl A C B test d 0 H) as (h' & zsl' & E & H'); [by apply (stops_le le)|done|zlr; lia|done|].
  destruct (range_filter ge le A C B HA HG HC HB) as [F1 F2].
  exists h', zsl', (A ++ B). cbn zeta. rewrite F2. split_and!; [|done|by rewrite F1].
  rewrite E, <- list_fmap_compose. by rewrite zlen_fmap.
Qed.

Lemma zslDeleteRangeByScore_holds {D} (del : D → element → D) F h zsl ns r d :
  holds F h zsl ns → range_ok r → zlen ns < 2 ^ 64 →
  removed del (in_zrange r) F ns d (zslDeleteRangeByScore del h zsl r d).
Proof.
  intros H HR HN. destruct (range_closed r _ HR (ho_ok _ _ _ _ H)) as [CG CL].
  destruct (range_split (λ k, zslValueGteMin k.1 r) (λ k, zslValueLteMax k.1 r) ns (ho_ok _ _ _ _ H) CG CL)
    as (A & C & B & -> & HA & HG & HC & HB).
  eapply (removed_intro del _ _ F h zsl A C B (below_min r)); try done.
  - intros P a acc l n I. injection I as _ I _ _. unfold below_min. by rewrite I.
  - intros t a n _ E. cbn. by rewrite E.
Qed.

Lemma zslDeleteRangeByLex_holds {D} (del : D → element → D) F h zsl ns r d :
  holds F h zsl ns → one_score (key_of <$> ns) → zlen ns < 2 ^ 64 →
  removed del (in_zlexrange r) F ns d (zslDeleteRangeByLex del h zsl r d).
Proof.
  intros H HR HN. destruct (lex_closed r _ HR (ho_ok _ _ _ _ H)) as [CG CL].
  destruct (range_split (λ k, zslLexValueGteMin k.2 r) (λ k, zslLexValueLteMax k.2 r) ns (ho_ok _ _ _ _ H) CG CL)
    as (A & C & B & -> & HA & HG & HC & HB).
  unfold zslDeleteRangeByLex.
  eapply (removed_intro del _ _ F h zsl A C B (below_lex r)); try done.
  - intros P a acc l n I. injection I as I _ _ _. unfold below_lex. by rewrite I.
  - intros t a n E _. unfold lex_lte. by rewrite E.
Qed.

(** A search by rank stops after as many nodes as the ranks it passes. *)
Lemma splits_rank (k : nat) cond ns :
  (∀ acc l n v, acc + span l = v → 1 <= v <= zlen ns → cond acc l n = (v <=? Z.of_nat k)) →
  splits cond ns (take k ns).
Proof.
  intros H P a Q acc l n -> _ E. pose proof (zlen_nonneg P). pose proof (zlen_nonneg Q).
  rewrite (H _ _ _ _ E) by (zlr; lia). rewrite length_take, length_app. cbn. unfold zlen in *.
  case_bool_decide; lia.
Qed.

Lemma zslDeleteRangeByRank_holds {D} (del : D → element → D) F h zsl ns start fin d :
  holds F h zsl ns → 1 <= start <= fin + 1 → zlen ns + fin + 1 < 2 ^ 64 →
  let l := key_of <$> ns in
  let gone := take (Z.to_nat (fin - (start - 1))) (drop (Z.to_nat (start - 1)) l) in
  ∃ h' zsl' ns', zslDeleteRangeByRank del h zsl start fin d =
      Ret (h', zsl', foldl del d gone.*2, zlen gone) ∧ holds F h' zsl' ns' ∧
    key_of <$> ns' = take (Z.to_nat (start - 1)) l ++ drop (Z.to_nat fin) l.
Proof.
  intros H HS HN l gone. pose proof (zlen_nonneg ns) as HL0.
  set (i := Z.to_nat (start - 1)). set (j := Z.to_nat (fin - (start - 1))) in *.
  set (A := take i ns). set (C := take j (drop i ns)). set (B := drop j (drop i ns)).
  assert (EN : A ++ C ++ B = ns) by (unfold A, C, B; by rewrite !take_drop).
  assert (EB : B = drop (Z.to_nat fin) ns) by (unfold B; rewrite drop_drop; f_equal; lia).
  assert (LA : length A = (i `min` length ns)%nat) by apply length_take.
  assert (LC : length C = (j `min` (length ns - i))%nat) by (unfold C; by rewrite length_take, length_drop).
  assert (LB : length B = (length ns - i - j)%nat) by (unfold B; by rewrite !length_drop).
  pose proof (ho_rep _ _ _ _ H) as R. rewrite <- EN in R.
  destruct (seek F h zsl A (C ++ B) (wrapu 64) (λ traversed l _, u64 (traversed + span l) <? start) R)
    as (E1 & E2 & E3 & E4).
  { rewrite EN. apply splits_rank. intros acc lv n v <- Hv. rewrite wrapu_id by lia. lia. }
  { rewrite EN. intros v Hv. apply wrapu_id. lia. }
  unfold zslDeleteRangeByRank. rewrite E1. run. rewrite E2. run. rewrite E3. run. rewrite E4. run.
  rewrite wrapu_id by (unfold zlen in *; lia).
  destruct (delete_range del F h zsl A C B (λ traversed _, traversed <=? fin) d (zlen A + 1)) as (h' & zsl' & E & H').
  - by rewrite EN.
  - split.
    + intros C1 c C2 n EC _ _. apply (f_equal length) in EC. rewrite length_app in EC. cbn in EC. unfold zlen. lia.
    + intros b B' n HB _ _. apply (f_equal length) in HB. cbn in HB. unfold zlen. lia.
  - unfold zlen. lia.
  - unfold zlen in *. lia.
  - rewrite EN. lia.
  - exists h', zsl', (A ++ B). split_and!; [|done|].
    + assert (gone = key_of <$> C) as -> by (unfold gone, l, C; by rewrite fmap_take, fmap_drop).
      by rewrite E, <- list_fmap_compose, zlen_fmap.
    + rewrite fmap_app, EB. unfold A, l. by rewrite fmap_take, fmap_drop.
Qed.

(** * Queries *)

(** The address of the first node and of the last node of a test. *)
Definition first_of (p : key → bool) ns : Z :=
  match filter (λ a, p (key_of a) = true) ns with a :: _ => addr a | [] => 0 end.
Definition last_of (p : key → bool) ns : Z := back (filter (λ a, p (key_of a) = true) ns).

Lemma first_of_split (ge le : key → bool) A b R :
  Forall (λ a, ge (key_of a) = false) A → ge (key_of b) = true →
  Forall (λ a, le (key_of a) = true → le (key_of b) = true) R →
  first_of (λ k, ge k && le k) (A ++ b :: R) = if le (key_of b) then addr b else 0.
Proof.
  intros HA Hb HR. unfold first_of. rewrite filter_app, (filter_none _ A).
  2:{ eapply Forall_impl; [done|]. cbn. by intros a ->. }
  cbn [app]. destruct (le (key_of b)) eqn:E.
  - by rewrite filter_cons_True by (by rewrite Hb, E).
  - rewrite filter_cons_False by (by rewrite Hb, E). rewrite filter_none; [done|].
    eapply Forall_impl; [done|]. cbn. intros a K. rewrite andb_true_iff. intros [_ ?]. naive_solver.
Qed.

Lemma last_of_split (ge le : key → bool) A b B :
  Forall (λ a, ge (key_of a) = true → ge (key_of b) = true) A → le (key_of b) = true →
  Forall (λ a, le (key_of a) = false) B →
  last_of (λ k, ge k && le k) (A ++ b :: B) = if ge (key_of b) then addr b else 0.
Proof.
  intros HA Hb HB. unfold last_of. rewrite filter_app. destruct (ge (key_of b)) eqn:E.
  - rewrite filter_cons_True by (by rewrite Hb, E). rewrite (filter_none _ B).
    2:{ eapply Forall_impl; [done|]. cbn. intros a ->. by rewrite andb_false_r. }
    unfold back. by rewrite pos_snoc.
  - rewrite filter_cons_False by (by rewrite Hb, E). rewrite !filter_none; [done| |].
    + eapply Forall_impl; [done|]. cbn. intros a ->. by rewrite andb_false_r.
    + eapply Forall_impl; [done|]. cbn. intros a K. rewrite andb_true_iff. naive_solver.
Qed.

Lemma first_of_none p ns : Forall (λ a, p (key_of a) = false) ns → first_of p ns = 0 ∧ last_of p ns = 0.
Proof.
  intros H. unfold first_of, last_of. rewrite filter_none; [done|].
  eapply Forall_impl; [done|]. cbn. by intros a ->.
Qed.

(** The test whether a range can have a node: the last node is not below it and
    the first one is not above it. *)
Definition touches (ge le : key → bool) ns : bool :=
  match head ns, last ns with
  | Some a, Some z => ge (key_of z) && le (key_of a)
  | _, _ => false
  end.

Lemma touches_none ge le ns : zset_ok (key_of <$> ns) →
  closed (λ k, negb (ge k)) (key_of <$> ns) → closed le (key_of <$> ns) → touches ge le ns = false →
  Forall (λ a, ge (key_of a) && le (key_of a) = false) ns.
Proof.
  intros [_ O _] HG HL HT. apply Forall_forall. intros a Ha. apply not_true_is_false. intros [G L]%andb_true_iff.
  apply list_elem_of_split in Ha as (A & B & ->).
  assert (∃ f, head (A ++ a :: B) = Some f ∧ le (key_of f) = true) as (f & Hf & Lf).
  { destruct A as [|f A]; [by exists a|]. exists f. split; [done|]. cbn in O. apply StronglySorted_cons in O as [O _].
    rewrite Forall_fmap, Forall_forall in O. apply (HL (key_of f) (key_of a)); [left| |apply O; set_solver|done].
    apply list_elem_of_fmap_2. set_solver. }
  assert (∃ z, last (A ++ a :: B) = Some z ∧ ge (key_of z) = true) as (z & Hz & Gz).
  { destruct B as [|z B _] using rev_ind; [exists a; by rewrite last_snoc|]. exists z.
    rewrite app_comm_cons, (assoc_L (++)) in O |- *. rewrite last_snoc. split; [done|].
    rewrite fmap_app in O. apply StronglySorted_app in O as (O & _ & _).
    apply not_false_is_true. intros E. specialize (HG (key_of a) (key_of z)). cbn beta in HG. rewrite G, E in HG. cbn in HG.
    assert (false = true); [|done]. apply HG; [(apply list_elem_of_fmap_2; set_solver)..| |done].
    apply O; apply list_elem_of_fmap_2; set_solver. }
  unfold touches in HT. by rewrite Hf, Hz, Gz, Lf in HT.
Qed.

Section places.
Context (ge le : key → bool) (ns : list anode) (Z : zset_ok (key_of <$> ns)).
Context (HG : closed (λ k, negb (ge k)) (key_of <$> ns)) (HL : closed le (key_of <$> ns)).
Context (HT : touches ge le ns = true).

(** Where the searches for the ends of a range stop. *)
Lemma first_place : ∃ A b R, ns = A ++ b :: R ∧ Forall (λ a, ge (key_of a) = false) A ∧
  Forall (λ a, ge (key_of a) = true) (b :: R) ∧
  first_of (λ k, ge k && le k) ns = if le (key_of b) then addr b else 0.
Proof.
  destruct (closed_split _ _ Z HG) as (A & R & EN & HA & HR).
  assert (HA' : Forall (λ a, ge (key_of a) = false) A) by (eapply Forall_impl; [done|]; intros a; apply negb_true_iff).
  assert (HR' : Forall (λ a, ge (key_of a) = true) R) by (eapply Forall_impl; [done|]; intros a; apply negb_false_iff).
  destruct R as [|b R].
  { exfalso. unfold touches in HT. destruct (head ns); [|done]. destruct (last ns) as [z|] eqn:E; [|done].
    apply last_Some in E as [l' E]. rewrite EN, app_nil_r in E. rewrite E in HA'.
    apply Forall_app in HA' as [_ H]. apply Forall_cons in H as [H _]. by rewrite H in HT. }
  exists A, b, R. split_and!; [done..|]. pose proof (zo_sorted _ Z) as O. rewrite EN in HL, O |- *.
  apply Forall_cons in HR' as [Hb _]. apply first_of_split; [done|done|]. apply Forall_forall. intros a Ha K.
  rewrite fmap_app, fmap_cons in O. apply StronglySorted_app in O as (_ & _ & O).
  apply StronglySorted_cons in O as [O _]. rewrite Forall_fmap, Forall_forall in O.
  apply (HL (key_of b) (key_of a)); [apply list_elem_of_fmap_2; set_solver..|by apply O|done].
Qed.

Lemma last_place : ∃ A b B, ns = (A ++ [b]) ++ B ∧ Forall (λ a, le (key_of a) = true) (A ++ [b]) ∧
  Forall (λ a, le (key_of a) = false) B ∧
  last_of (λ k, ge k && le k) ns = if ge (key_of b) then addr b else 0.
Proof.
  destruct (closed_split _ _ Z HL) as (A & B & EN & HA & HB).
  destruct A as [|b A _] using rev_ind.
  { exfalso. unfold touches in HT. destruct (head ns) as [a|] eqn:E; [|done]. destruct (last ns); [|done].
    rewrite EN in E. cbn in E. destruct B; [done|]. injection E as ->.
    apply Forall_cons in HB as [H _]. by rewrite H, andb_false_r in HT. }
  exists A, b, B. split_and!; [done..|]. pose proof (zo_sorted _ Z) as O. rewrite EN, <- (assoc_L (++)) in HG, O |- *.
  apply Forall_app in HA as [_ Hb]. apply Forall_cons in Hb as [Hb _].
  apply last_of_split; [|done|done]. apply Forall_forall. intros a Ha K.
  rewrite fmap_app in O. apply StronglySorted_app in O as (O & _ & _).
  apply not_false_is_true. intros E. specialize (HG (key_of a) (key_of b)). cbn beta in HG. rewrite K, E in HG.
  assert (false = true); [|done]. apply HG; [(apply list_elem_of_fmap_2; set_solver)..| |done].
  apply O; apply list_elem_of_fmap_2; set_solver.
Qed.

End places.

(** The two reads at the ends of the list. *)
Lemma read_ends F h zsl ns : Rep F h zsl ns →
  get_level h (header zsl) 0 = Ret (fwd 0 ns) ∧
  match head ns with
  | Some a => forward (fwd 0 ns) = addr a ∧ addr a ≠ 0 ∧
      ∃ n, deref h (addr a) = Ret n ∧ ele n = Some (ael a) ∧ zscore n = asc a
  | None => forward (fwd 0 ns) = 0
  end ∧
  match last ns with
  | Some z => tail zsl = addr z ∧ addr z ≠ 0 ∧
      ∃ n, deref h (addr z) = Ret n ∧ ele n = Some (ael z) ∧ zscore n = asc z
  | None => tail zsl = 0
  end.
Proof.
  intros R. split_and!.
  - apply (rep_get _ _ _ _ R [] ns 0 eq_refl). pose proof (rep_level _ _ _ _ R). cbn. lia.
  - destruct ns as [|a ns]; [done|]. cbn [head].
    destruct (next_node F h zsl [] a ns R) as (-> & ? & n & ? & ? & ? & _). eauto 10.
  - rewrite (rep_tail _ _ _ _ R). unfold back, pos. destruct (last ns) as [z|] eqn:E; [|done].
    apply last_Some in E as [l' ->]. destruct (next_node F h zsl l' z [] R) as (_ & ? & n & ? & ? & ? & _). eauto 10.
Qed.

Definition empty_range (r : zrangespec) : bool :=
  score_lt (rmax r) (rmin r) || (score_eq (rmin r) (rmax r) && (minex r || maxex r)).
Definition empty_lex (r : zlexrangespec) : bool :=
  let cmp := sdscmplex (lmin r) (lmax r) in (0 <? cmp) || ((cmp =? 0) && (lminex r || lmaxex r)).

Lemma zslIsInRange_spec F h zsl ns r : Rep F h zsl ns →
  zslIsInRange h zsl r = Ret (negb (empty_range r) &&
    touches (λ k, zslValueGteMin k.1 r) (λ k, zslValueLteMax k.1 r) ns).
Proof.
  intros R. destruct (read_ends _ _ _ _ R) as (E & H & T). unfold zslIsInRange, touches. fold (empty_range r).
  destruct (empty_range r); [done|]. cbn [negb andb].
  destruct (last ns) as [z|] eqn:ELast; [|rewrite T; test (0 =? 0) true; run; by destruct (head ns)].
  destruct T as (-> & Hz & n & -> & _ & Sn). test (addr z =? 0) false. run. rewrite Sn. cbn [key_of fst].
  destruct (head ns) as [a|] eqn:EH; [|by rewrite head_None in EH; subst].
  destruct (zslValueGteMin (asc z) r); [|done]. cbn [negb]. rewrite E. run.
  destruct H as (-> & Ha & n' & -> & _ & Sn'). test (addr a =? 0) false. run. by rewrite Sn'.
Qed.

Lemma zslIsInLexRange_spec F h zsl ns r : Rep F h zsl ns →
  zslIsInLexRange h zsl r = Ret (negb (empty_lex r) &&
    touches (λ k, zslLexValueGteMin k.2 r) (λ k, zslLexValueLteMax k.2 r) ns).
Proof.
  intros R. destruct (read_ends _ _ _ _ R) as (E & H & T). unfold zslIsInLexRange, touches. cbn zeta. fold (empty_lex r).
  destruct (empty_lex r); [done|]. cbn [negb andb].
  destruct (last ns) as [z|] eqn:ELast; [|rewrite T; test (0 =? 0) true; run; by destruct (head ns)].
  destruct T as (-> & Hz & n & -> & Sn & _). test (addr z =? 0) false. unfold node_ele. run. rewrite Sn. run. cbn [key_of snd].
  destruct (head ns) as [a|] eqn:EH; [|by rewrite head_None in EH; subst].
  destruct (zslLexValueGteMin (ael z) r); [|done]. cbn [negb]. rewrite E. run.
  destruct H as (-> & Ha & n' & -> & Sn' & _). test (addr a =? 0) false. run. rewrite Sn'. done.
Qed.

End sorted.
End SkiplistSet.
