(* ===== verification/SkiplistQuery.v ===== *)
(** Skip lists: the ends of ranges and the ranks of [t_zset.c]. *)
From stdpp Require Import gmap sorting.
From S2P Require Import Prelude Skiplist SkiplistRep SkiplistUpdate SkiplistOps SkiplistOrder SkiplistSet.

Module SkiplistQuery.
Import Skiplist SkiplistRep SkiplistUpdate SkiplistOps SkiplistOrder SkiplistSet.

Section queries.
Context {SC : Score} {EL : Element} {AL : ZslAlloc}.
Context {LAWS : ZslAllocLaws AL} {SL : ScoreLaws SC} {LL : ElementLaws EL}.
Implicit Types (h F : heap) (A B ns : list anode) (a : anode).

(** * Ends of ranges *)

Lemma empty_none r k : range_ok r → number k → empty_range r = true → in_zrange r k = false.
Proof.
  intros [Hm HM] K E. apply not_true_is_false. unfold in_zrange. rewrite andb_true_iff.
  unfold zslValueGteMin, zslValueLteMax. rewrite !score_le_lt by done.
  assert (W1 := score_lt_weak (rmax r) k.1 (rmin r) K). assert (W2 := score_lt_weak (rmin r) (rmax r) k.1 HM).
  assert (W3 := score_lt_weak k.1 (rmin r) (rmax r) Hm).
  assert (A1 := score_lt_asym (rmin r) k.1). assert (A2 := score_lt_asym k.1 (rmax r)).
  unfold empty_range in E. rewrite score_eq_lt in E by done.
  destruct (score_lt (rmax r) (rmin r)), (score_lt (rmin r) (rmax r)), (score_lt k.1 (rmin r)), (score_lt (rmin r) k.1),
    (score_lt k.1 (rmax r)), (score_lt (rmax r) k.1), (minex r), (maxex r); cbn in *; naive_solver.
Qed.

Lemma empty_lex_none r k : empty_lex r = true → in_zlexrange r k = false.
Proof.
  unfold empty_lex, in_zlexrange, zslLexValueGteMin, zslLexValueLteMax. cbn zeta. intros E.
  apply not_true_is_false. rewrite andb_true_iff.
  destruct (lmin r) as [| |a] eqn:Ea, (lmax r) as [| |b] eqn:Eb; cbn in *; try (destruct (lminex r), (lmaxex r); cbn in *; lia).
  set (v := k.2). pose proof (elecmp_anti v a). pose proof (elecmp_anti a v). pose proof (elecmp_anti b v).
  pose proof (elecmp_anti a b). pose proof (elecmp_eq v a). pose proof (elecmp_eq v b). pose proof (elecmp_eq a b).
  intros [K1 K2]. destruct (Z.eq_dec (elecmp v a) 0) as [<-%elecmp_eq|].
  - destruct (lminex r), (lmaxex r); lia.
  - destruct (Z.eq_dec (elecmp v b) 0) as [<-%elecmp_eq|]; [destruct (lminex r), (lmaxex r); lia|].
    pose proof (elecmp_trans a v b). destruct (lminex r), (lmaxex r); lia.
Qed.

(** A function that gives up when the range cannot have a node and otherwise
    searches for one of its ends. *)
Section ends.
Context (ge le : key → bool) (empty : bool) (ns : list anode) (ZO : zset_ok (key_of <$> ns)).
Context (CG : closed (λ k, negb (ge k)) (key_of <$> ns)) (CL : closed le (key_of <$> ns)).
Context (HE : empty = true → Forall (λ a, ge (key_of a) && le (key_of a) = false) ns).

Lemma first_end (search : outcome Z) :
  (∀ A b R, ns = A ++ b :: R → Forall (λ a, ge (key_of a) = false) A → Forall (λ a, ge (key_of a) = true) (b :: R) →
     search = Ret (if le (key_of b) then addr b else 0)) →
  (if negb (negb empty && touches ge le ns) then Ret 0 else search) = Ret (first_of (λ k, ge k && le k) ns).
Proof.
  intros H. destruct empty; cbn [negb andb]; [by destruct (first_of_none (λ k, ge k && le k) ns (HE eq_refl)) as [-> _]|].
  destruct (touches ge le ns) eqn:ET; cbn [negb].
  - destruct (first_place ge le ns ZO CG CL ET) as (A & b & R & E & HA & HB & ->). by apply (H A b R).
  - by destruct (first_of_none (λ k, ge k && le k) ns (touches_none ge le ns ZO CG CL ET)) as [-> _].
Qed.

Lemma last_end (search : outcome Z) :
  (∀ A b B, ns = (A ++ [b]) ++ B → Forall (λ a, le (key_of a) = true) (A ++ [b]) → Forall (λ a, le (key_of a) = false) B →
     search = Ret (if ge (key_of b) then addr b else 0)) →
  (if negb (negb empty && touches ge le ns) then Ret 0 else search) = Ret (last_of (λ k, ge k && le k) ns).
Proof.
  intros H. destruct empty; cbn [negb andb]; [by destruct (first_of_none (λ k, ge k && le k) ns (HE eq_refl)) as [_ ->]|].
  destruct (touches ge le ns) eqn:ET; cbn [negb].
  - destruct (last_place ge le ns ZO CG CL ET) as (A & b & B & E & HA & HB & ->). by apply (H A b B).
  - by destruct (first_of_none (λ k, ge k && le k) ns (touches_none ge le ns ZO CG CL ET)) as [_ ->].
Qed.

End ends.

Lemma empty_forall r ns : range_ok r → zset_ok (key_of <$> ns) → empty_range r = true →
  Forall (λ a, in_zrange r (key_of a) = false) ns.
Proof.
  intros HR Z E. pose proof (zo_number _ Z) as N. rewrite Forall_fmap in N.
  eapply Forall_impl; [done|]. intros a Ha. by apply empty_none.
Qed.

Lemma zslFirstInRange_spec F h zsl ns r : holds F h zsl ns → range_ok r →
  zslFirstInRange h zsl r = Ret (first_of (in_zrange r) ns).
Proof.
  intros [R _ Z] HR. destruct (range_closed r _ HR Z) as [CG CL]. unfold zslFirstInRange.
  rewrite (zslIsInRange_spec _ _ _ _ _ R). run. apply (first_end (λ k, zslValueGteMin k.1 r) (λ k, zslValueLteMax k.1 r)); [done..|by apply empty_forall|].
  intros A b B -> HA HB.
  destruct (seek F h zsl A (b :: B) (λ v, v) (below_min r) R) as (E1 & E2 & _ & E3); [|done|].
  { apply (splits_ge (λ k, zslValueGteMin k.1 r)); [|done..].
    intros P a acc l n I. injection I as _ I _ _. unfold below_min. by rewrite I. }
  rewrite E1. run. rewrite E2. run. rewrite E3. run.
  destruct (next_node _ _ _ _ _ _ R) as (-> & Hb & n & -> & _ & Hn & _).
  test (negb (addr b =? 0)) true. cbn [c_assert]. run. rewrite Hn. cbn [key_of fst].
  by destruct (zslValueLteMax (asc b) r).
Qed.

Lemma zslLastInRange_spec F h zsl ns r : holds F h zsl ns → range_ok r →
  zslLastInRange h zsl r = Ret (last_of (in_zrange r) ns).
Proof.
  intros [R _ Z] HR. destruct (range_closed r _ HR Z) as [CG CL]. unfold zslLastInRange.
  rewrite (zslIsInRange_spec _ _ _ _ _ R). run. apply (last_end (λ k, zslValueGteMin k.1 r) (λ k, zslValueLteMax k.1 r)); [done..|by apply empty_forall|].
  intros A b B -> HA HB.
  destruct (seek F h zsl (A ++ [b]) B (λ v, v) (upto_max r) R) as (E1 & E2 & _ & E3); [|done|].
  { eapply (splits_pred (λ a, zslValueLteMax (asc a) r)); [|done..].
    intros P a acc l n I. injection I as _ I _ _. unfold upto_max. by rewrite I. }
  rewrite E1. run. rewrite E2, pos_snoc. run. rewrite <- (assoc_L (++)) in R.
  destruct (next_node F h zsl A b B R) as (_ & Hb & n & -> & _ & Hn & _).
  test (negb (addr b =? 0)) true. cbn [c_assert]. run. rewrite Hn. cbn [key_of fst].
  by destruct (zslValueGteMin (asc b) r).
Qed.

Lemma zslFirstInLexRange_spec F h zsl ns r : holds F h zsl ns → one_score (key_of <$> ns) →
  zslFirstInLexRange h zsl r = Ret (first_of (in_zlexrange r) ns).
Proof.
  intros [R _ Z] HR. destruct (lex_closed r _ HR Z) as [CG CL]. unfold zslFirstInLexRange.
  rewrite (zslIsInLexRange_spec _ _ _ _ _ R). run.
  apply (first_end (λ k, zslLexValueGteMin k.2 r) (λ k, zslLexValueLteMax k.2 r)); [done..|intros E; apply Forall_true; intros a; by apply empty_lex_none|].
  intros A b B -> HA HB.
  destruct (seek F h zsl A (b :: B) (λ v, v) (below_lex r) R) as (E1 & E2 & _ & E3); [|done|].
  { apply (splits_ge (λ k, zslLexValueGteMin k.2 r)); [|done..].
    intros P a acc l n I. injection I as I _ _ _. unfold below_lex. by rewrite I. }
  rewrite E1. run. rewrite E2. run. rewrite E3. run.
  destruct (next_node _ _ _ _ _ _ R) as (-> & Hb & n & -> & Hn & _ & _).
  test (negb (addr b =? 0)) true. cbn [c_assert]. unfold node_ele. run. rewrite Hn. run. cbn [key_of snd].
  by destruct (zslLexValueLteMax (ael b) r).
Qed.

Lemma zslLastInLexRange_spec F h zsl ns r : holds F h zsl ns → one_score (key_of <$> ns) →
  zslLastInLexRange h zsl r = Ret (last_of (in_zlexrange r) ns).
Proof.
  intros [R _ Z] HR. destruct (lex_closed r _ HR Z) as [CG CL]. unfold zslLastInLexRange.
  rewrite (zslIsInLexRange_spec _ _ _ _ _ R). run.
  apply (last_end (λ k, zslLexValueGteMin k.2 r) (λ k, zslLexValueLteMax k.2 r)); [done..|intros E; apply Forall_true; intros a; by apply empty_lex_none|].
  intros A b B -> HA HB.
  destruct (seek F h zsl (A ++ [b]) B (λ v, v) (upto_lex r) R) as (E1 & E2 & _ & E3); [|done|].
  { eapply (splits_pred (λ a, zslLexValueLteMax (ael a) r)); [|done..].
    intros P a acc l n I. injection I as I _ _ _. unfold upto_lex, lex_lte. by rewrite I. }
  rewrite E1. run. rewrite E2, pos_snoc. run. rewrite <- (assoc_L (++)) in R.
  destruct (next_node F h zsl A b B R) as (_ & Hb & n & -> & Hn & _ & _).
  test (negb (addr b =? 0)) true. cbn [c_assert]. unfold node_ele. run. rewrite Hn. run. cbn [key_of snd].
  by destruct (zslLexValueGteMin (ael b) r).
Qed.

(** * Ranks *)

Section ranks.
Context (F h : heap) (zsl : zskiplist) (A B : list anode) (R : Rep F h zsl (A ++ B)).
Context (HN : zlen (A ++ B) < 2 ^ 64).

Lemma wrap_rank v : 0 <= v <= zlen (A ++ B) → wrapu 64 v = v.
Proof. intros. apply wrapu_id. lia. Qed.

(** The search for an element stops where a level ends with it. *)
Lemma rank_loop_spec s e n A1 A2 :
  splits (node_le s e) (A ++ B) A → A = A1 ++ A2 → (n ≤ zlevel zsl)%nat → (n ≤ top (zlevel zsl) A1)%nat →
  ∃ r, rank_loop n (walk_fuel zsl) h s e (pos (header zsl) A1) (zlen A1) = Ret r ∧
    ((r = 0 ∧ ∀ i P a, (i < n)%nat → reach i A = P ++ [a] → ael a ≠ e) ∨
     (∃ i P a, (i < n)%nat ∧ reach i A = P ++ [a] ∧ ael a = e ∧ r = zlen P + 1)).
Proof.
  intros HS. revert A1 A2. induction n as [|i IH]; intros A1 A2 EA Hn Ht; [exists 0; split; [done|left; split; [done|lia]]|].
  cbn [rank_loop]. pose proof (walk_fuel_ok _ _ _ _ R A B eq_refl) as WF.
  rewrite (walk_spec F h zsl (A ++ B) R (wrapu 64) (node_le s e) A B eq_refl HS wrap_rank _ i A1 A2)
    by (done || (rewrite EA, length_app in WF; lia)). run.
  destruct (reach_split i A) as (S & ES & _ & _).
  destruct (IH (reach i A) S ES ltac:(lia)) as (r & E & HR).
  { pose proof (reach_top (zlevel zsl) i A). lia. }
  assert (NX : ∃ n, deref h (pos (header zsl) (reach i A)) = Ret n ∧
    ele n = match last (reach i A) with Some a => Some (ael a) | None => None end).
  { destruct (reach i A) as [|a P _] eqn:ER using rev_ind.
    - pose proof (rep_header _ _ _ _ R) as H. apply node_info in H as (n & ? & _ & _ & ? & _). eauto.
    - rewrite pos_snoc, last_snoc. pose proof (rep_info _ _ _ _ R P a (S ++ B)) as H.
      rewrite ES, <- !(assoc_L (++)) in H. apply node_info in H as (n & ? & _ & _ & ? & _); eauto. }
  destruct NX as (n & -> & En). run. rewrite En. clear n En.
  destruct (reach i A) as [|a P _] eqn:ER using rev_ind.
  - cbn [last]. exists r. split; [done|]. destruct HR as [[-> HR]|(k & P & a & ? & HR)].
    + left. split; [done|]. intros k P a Hk. destruct (decide (k = i)) as [->|]; [rewrite ER; by destruct P|apply HR; lia].
    + right. exists k, P, a. split; [lia|done].
  - rewrite last_snoc. destruct (elecmp (ael a) e =? 0) eqn:EC.
    + apply Z.eqb_eq, elecmp_eq in EC. exists (zlen (P ++ [a])). split; [done|]. right. exists i, P, a.
      split_and!; [lia|done|done|]. zlr. lia.
    + exists r. split; [done|]. assert (ael a ≠ e) by (rewrite <- elecmp_eq; lia).
      destruct HR as [[-> HR]|(k & P' & a' & ? & HR)].
      * left. split; [done|]. intros k P' a' Hk. destruct (decide (k = i)) as [->|]; [|apply HR; lia].
        rewrite ER. by intros [-> [= ->]]%app_inj_2.
      * right. exists k, P', a'. split; [lia|done].
Qed.

Lemma reach_all i : zlen (reach i A) = zlen A → reach i A = A.
Proof.
  intros H. pose proof (reach_beyond i A) as E. pose proof (f_equal zlen E) as L. rewrite zlen_app in L.
  rewrite E at 2. by rewrite (zlen_zero (beyond i A)), app_nil_r by lia.
Qed.

(** The search for a rank stops where a level ends with the node of the rank. *)
Lemma element_loop_spec rank n A1 A2 :
  splits (λ traversed l _, u64 (traversed + span l) <=? rank) (A ++ B) A → zlen A <= rank → A = A1 ++ A2 →
  (n ≤ zlevel zsl)%nat → (n ≤ top (zlevel zsl) A1)%nat → (0 < n)%nat →
  element_loop n (walk_fuel zsl) h rank (pos (header zsl) A1) (zlen A1) =
    Ret (if zlen A =? rank then pos (header zsl) A else 0).
Proof.
  intros HS HA. revert A1 A2. induction n as [|i IH]; intros A1 A2 EA Hn Ht H0; [lia|].
  cbn [element_loop]. pose proof (walk_fuel_ok _ _ _ _ R A B eq_refl) as WF.
  rewrite (walk_spec F h zsl (A ++ B) R (wrapu 64) _ A B eq_refl HS wrap_rank _ i A1 A2)
    by (done || (rewrite EA, length_app in WF; lia)). run.
  destruct (reach_split i A) as (S & ES & _ & _). pose proof (f_equal zlen ES) as L. rewrite zlen_app in L. pose proof (zlen_nonneg S).
  destruct (zlen (reach i A) =? rank) eqn:E.
  - rewrite (reach_all i) by lia. test (zlen A =? rank) true. done.
  - destruct i as [|i].
    + rewrite (reach_zero _ _ _ _ _ R) in E. rewrite E. done.
    + apply (IH (reach (Datatypes.S i) A) S ES); [lia| |lia].
      pose proof (reach_top (zlevel zsl) (Datatypes.S i) A). lia.
Qed.

End ranks.

(** Not after a key. *)
Definition kle (k k' : key) : bool :=
  score_lt k.1 k'.1 || (score_eq k.1 k'.1 && (elecmp k.2 k'.2 <=? 0)).

Lemma kle_cases k k' : number k → number k' → kle k k' = kless k k' || ksame k k'.
Proof.
  intros N K. unfold kle, kless, ksame. rewrite (score_eq_sym k'.1) by done.
  destruct (score_lt _ _), (score_eq _ _); cbn; lia.
Qed.

Lemma kle_closed l k : Forall number l → number k → closed (λ x, kle x k) l.
Proof.
  rewrite Forall_forall. intros N K x y Hx Hy H. rewrite !kle_cases, !orb_true_iff by auto. intros [L|S]; left.
  - apply (kless_trans x y k); auto.
  - destruct (kless_same y k x) as [_ <-]; auto.
Qed.

Lemma element_unique P a Q P' a' Q' : NoDup (key_of <$> P ++ a :: Q).*2 → P ++ a :: Q = P' ++ a' :: Q' →
  ael a = ael a' → length P = length P'.
Proof.
  rewrite <- list_fmap_compose. intros D E H. apply (NoDup_lookup _ _ _ (ael a) D).
  - by rewrite list_lookup_fmap, list_lookup_middle.
  - by rewrite E, list_lookup_fmap, list_lookup_middle, H.
Qed.

(** The last node that is not after a key of the list is the node of the key. *)
Lemma rank_last A B P a Q k : A ++ B = P ++ a :: Q → zset_ok (key_of <$> A ++ B) → number k →
  Forall (λ a, kle (key_of a) k = true) A → Forall (λ a, kle (key_of a) k = false) B →
  ksame (key_of a) k = true → A = P ++ [a].
Proof.
  intros EN [N O _] K HA HB S. rewrite EN, Forall_fmap, Forall_app, Forall_cons in N. destruct N as (_ & Na & NQ).
  rewrite EN, fmap_app, fmap_cons in O. apply StronglySorted_app in O as (_ & _ & O).
  apply StronglySorted_cons in O as [O _]. rewrite Forall_fmap, Forall_forall in O.
  assert (KA : kle (key_of a) k = true) by (rewrite kle_cases by done; by rewrite S, orb_true_r).
  apply app_eq_inv in EN as [(T & -> & ET)|(T & -> & ->)].
  - destruct T as [|t T]; cbn in ET; [subst B; apply Forall_cons in HB as [HB _]; congruence|].
    injection ET as -> ->. destruct T as [|u T]; [done|]. exfalso.
    apply Forall_app in HA as [_ HA]. apply Forall_cons in HA as [_ HA]. apply Forall_cons in HA as [HA _].
    cbn in NQ. apply Forall_cons in NQ as [NU _]. rewrite kle_cases in HA by done.
    assert (L : kless k (key_of u) = true).
    { destruct (kless_same (key_of t) k (key_of u)) as [<- _]; [done..|]. apply O. set_solver. }
    by rewrite (kless_asym k (key_of u)), (more_not_same (key_of u) k) in HA.
  - apply Forall_app in HB as [_ HB]. apply Forall_cons in HB as [HB _]. congruence.
Qed.

(** The rank is that of the element, or 0; with the score of the element it is
    not 0. *)
Lemma zslGetRank_spec F h zsl ns s e : holds F h zsl ns → isnan s = false → zlen ns < 2 ^ 64 →
  ∃ r, zslGetRank h zsl s e = Ret r ∧
    (r ≠ 0 → ∃ P a Q, ns = P ++ a :: Q ∧ ael a = e ∧ kle (key_of a) (s, e) = true ∧ r = zlen P + 1) ∧
    (∀ P a Q, ns = P ++ a :: Q → ksame (key_of a) (s, e) = true → r = zlen P + 1).
Proof.
  intros [R _ Z] K HN. pose proof (zo_number _ Z) as N.
  destruct (closed_split _ ns Z (kle_closed _ (s, e) N K)) as (A & B & -> & HA & HB).
  assert (HS : splits (node_le s e) (A ++ B) A).
  { apply (splits_pred (λ a, kle (key_of a) (s, e))); [|done..]. intros P a acc l n I.
    injection I as I1 I2 _ _. unfold node_le, kle. by rewrite I1, I2. }
  pose proof (rep_level _ _ _ _ R). pose proof (zo_unique _ Z) as D.
  destruct (rank_loop_spec F h zsl A B R HN s e (zlevel zsl) [] A HS eq_refl) as (r & E & HR); [done|cbn; done|].
  exists r. split; [exact E|]. destruct HR as [[-> HR]|(i & P' & a' & Hi & ER & Ea & ->)].
  - split; [done|]. intros P a Q EN S. exfalso.
    pose proof (rank_last A B P a Q (s, e) EN Z K HA HB S) as ->.
    apply (HR 0%nat P a); [lia|by apply (reach_zero _ _ _ _ _ R)|]. by apply ksame_true in S as [_ ?].
  - destruct (reach_split i A) as (S & EA & _). rewrite ER, <- (assoc_L (++)) in EA.
    assert (EN : A ++ B = P' ++ a' :: S ++ B) by (rewrite EA; by rewrite <- (assoc_L (++))). split.
    + intros _. exists P', a', (S ++ B). split_and!; [done..| |done]. rewrite EA in HA.
      apply Forall_app in HA as [_ HA]. by apply Forall_cons in HA as [? _].
    + intros P a Q EN' Sa. apply ksame_true in Sa as [_ Sa]. cbn in Sa.
      rewrite EN' in D, EN. unfold zlen. rewrite (element_unique P a Q P' a' (S ++ B) D EN) by congruence. lia.
Qed.

Lemma zslGetElementByRank_spec F h zsl ns rank : holds F h zsl ns → 1 <= rank < 2 ^ 64 → zlen ns < 2 ^ 64 →
  zslGetElementByRank h zsl rank =
    Ret (match ns !! Z.to_nat (rank - 1) with Some a => addr a | None => 0 end).
Proof.
  intros [R _ _] HK HN. set (A := take (Z.to_nat rank) ns). set (B := drop (Z.to_nat rank) ns).
  assert (EN : A ++ B = ns) by apply take_drop. rewrite <- EN in R, HN.
  assert (LA : length A = (Z.to_nat rank `min` length ns)%nat) by apply length_take.
  unfold zslGetElementByRank. pose proof (rep_level _ _ _ _ R).
  pose proof (element_loop_spec F h zsl A B R HN rank (zlevel zsl) [] A) as E.
  change (zlen []) with 0 in E. change (pos (header zsl) []) with (header zsl) in E.
  rewrite E; clear E; [|..|done|done|cbn; lia|lia].
  - f_equal. destruct (ns !! Z.to_nat (rank - 1)) as [a|] eqn:E.
    + apply lookup_lt_Some in E as L. assert ((zlen A =? rank) = true) as -> by (unfold zlen; lia).
      unfold pos. rewrite last_lookup, LA. unfold A. rewrite lookup_take.
      replace (pred (Z.to_nat rank `min` length ns)) with (Z.to_nat (rank - 1)) by lia. rewrite decide_True by lia. by rewrite E.
    + apply lookup_ge_None in E. by assert ((zlen A =? rank) = false) as -> by (unfold zlen; lia).
  - rewrite EN. apply splits_rank. intros acc l n v <- Hv. rewrite EN in HN. rewrite wrapu_id by lia. lia.
  - unfold zlen. lia.
Qed.

End queries.
End SkiplistQuery.
