(* ===== verification/SkiplistSpec.v ===== *)
(** Skip lists: the scores are the binary floating-point numbers, the elements
    byte strings; what the functions of [t_zset.c] promise. *)
From stdpp Require Import gmap sorting.
From Stdlib Require Import SpecFloat.
From S2P Require Import Prelude SdsOps.
From S2P Require Import Skiplist SkiplistRep SkiplistUpdate SkiplistOps SkiplistOrder SkiplistSet SkiplistQuery.

Module SkiplistSpec.
Import Skiplist SkiplistRep SkiplistUpdate SkiplistOps SkiplistOrder SkiplistSet SkiplistQuery.

(** * Instances *)

(** Scores are [double]s, compared as IEEE 754 says. *)
Definition is_nan (f : spec_float) : bool := match f with S754_nan => true | _ => false end.
#[export] Instance double_score : Score := {
  score := spec_float;
  score_lt := SFltb;
  score_eq := SFeqb;
  isnan := is_nan;
  score_zero := S754_zero false;
}.

(** Elements are byte strings in the order [sdscmp] gives them. *)
#[export] Instance sds_element : Element := { element := list Z; elecmp := λ a b, SdsOps.sign_of (SdsOps.lex a b) }.

(** An allocator that gives the least free address. *)
#[local] Instance ex_zsl : ZslAlloc := {
  znew X := fresh ({[0]} ∪ X);
  zjunk_level n := replicate n (Level 77 99);
  zjunk_backward := 55;
}.

(** * Sequences of changes *)

Section changes.
Context {SC : Score} {EL : Element} {AL : ZslAlloc}.

Inductive zop :=
  | ZInsert (s : score) (e : element) (draws : list Z)
  | ZDelete (s : score) (e : element)
  | ZUpdate (cur : score) (e : element) (new : score) (draws : list Z)
  | ZDeleteRange (r : zrangespec)
  | ZDeleteRank (start fin : Z)
  | ZDeleteLex (r : zlexrangespec).

(** One call on a skip list; the last part of the state are the elements that
    were deleted from the dictionary. *)
Definition zsl_step (st : heap * zskiplist * list element) (op : zop) : outcome (heap * zskiplist * list element) :=
  let '(h, zsl, gone) := st in
  let del := λ d e, d ++ [e] in
  match op with
  | ZInsert s e draws => '(h, zsl, _, _) ← zslInsert h zsl s e draws; Ret (h, zsl, gone)
  | ZDelete s e => '(h, zsl, _) ← zslDelete h zsl s e false; Ret (h, zsl, gone)
  | ZUpdate cur e new draws => '(h, zsl, _, _) ← zslUpdateScore h zsl cur e new draws; Ret (h, zsl, gone)
  | ZDeleteRange r => '(h, zsl, gone, _) ← zslDeleteRangeByScore del h zsl r gone; Ret (h, zsl, gone)
  | ZDeleteRank start fin => '(h, zsl, gone, _) ← zslDeleteRangeByRank del h zsl start fin gone; Ret (h, zsl, gone)
  | ZDeleteLex r => '(h, zsl, gone, _) ← zslDeleteRangeByLex del h zsl r gone; Ret (h, zsl, gone)
  end.

Fixpoint zsl_run (st : heap * zskiplist * list element) (ops : list zop) : outcome (heap * zskiplist * list element) :=
  match ops with
  | [] => Ret st
  | op :: ops => st ← zsl_step st op; zsl_run st ops
  end.

(** The same change of the sorted list. *)
Definition zspec_step (st : list key * list element) (op : zop) : list key * list element :=
  let '(l, gone) := st in
  let without p := (filter (λ k : key, p k = false) l, gone ++ (filter (λ k : key, p k = true) l).*2) in
  match op with
  | ZInsert s e _ => (kinsert (s, e) l, gone)
  | ZDelete s e => (kdelete (s, e) l, gone)
  | ZUpdate cur e new _ => (kinsert (new, e) (kdelete (cur, e) l), gone)
  | ZDeleteRange r => without (in_zrange r)
  | ZDeleteRank start fin =>
      (take (Z.to_nat (start - 1)) l ++ drop (Z.to_nat fin) l,
       gone ++ (take (Z.to_nat (fin - (start - 1))) (drop (Z.to_nat (start - 1)) l)).*2)
  | ZDeleteLex r => without (in_zlexrange r)
  end.

(** What the callers guarantee: numbers as scores and bounds, a new element is
    not in the list, an updated one is, a lexicographic range is for one score;
    and the list has fewer nodes than an [unsigned int] counts. *)
Definition draws_end (draws : list Z) : bool := existsb (λ r, 16383 <? Z.land r 0xFFFF) draws.
Definition zlegal (l : list key) (op : zop) : bool :=
  (zlen l + 1 <? 2 ^ 32) &&
  match op with
  | ZInsert s e draws => negb (isnan s) && negb (existsb (λ k : key, elecmp k.2 e =? 0) l) && draws_end draws
  | ZDelete s e => negb (isnan s)
  | ZUpdate cur e new draws =>
      negb (isnan cur) && negb (isnan new) && existsb (λ k, ksame k (cur, e)) l && draws_end draws
  | ZDeleteRange r => negb (isnan (rmin r)) && negb (isnan (rmax r))
  | ZDeleteRank start fin => (1 <=? start) && (start <=? fin + 1) && (fin <? 2 ^ 32)
  | ZDeleteLex r => forallb (λ k : key, forallb (λ k' : key, score_eq k.1 k'.1) l) l
  end.

Fixpoint zlegal_run (st : list key * list element) (ops : list zop) : bool :=
  match ops with
  | [] => true
  | op :: ops => zlegal st.1 op && zlegal_run (zspec_step st op) ops
  end.

End changes.

(** * The instances are lawful *)

(** The order of numbers as the order of triples. *)
Definition fkey (f : spec_float) : Z * Z * Z :=
  match f with
  | S754_infinity true => (-2, 0, 0)
  | S754_finite true m e => (-1, - e, - Z.pos m)
  | S754_zero _ | S754_nan => (0, 0, 0)
  | S754_finite false m e => (1, e, Z.pos m)
  | S754_infinity false => (2, 0, 0)
  end.
Definition flt (a b : Z * Z * Z) : Prop :=
  a.1.1 < b.1.1 ∨ a.1.1 = b.1.1 ∧ (a.1.2 < b.1.2 ∨ a.1.2 = b.1.2 ∧ a.2 < b.2).

Lemma SFltb_key a b : SFltb a b = true ↔ is_nan a = false ∧ is_nan b = false ∧ flt (fkey a) (fkey b).
Proof.
  unfold SFltb, SFcompare, flt.
  destruct a as [[]|[]| |[] m e], b as [[]|[]| |[] m' e']; cbn [is_nan fkey fst snd];
    try (split; [done|naive_solver lia]); try (split; [intros _; split_and!; [done..|lia]|done]).
  - change (Pos.compare_cont Eq m m') with (Z.pos m ?= Z.pos m').
    destruct (Z.compare_spec e e'), (Z.compare_spec (Z.pos m) (Z.pos m')); cbn; naive_solver lia.
  - change (Pos.compare_cont Eq m m') with (Z.pos m ?= Z.pos m').
    destruct (Z.compare_spec e e'), (Z.compare_spec (Z.pos m) (Z.pos m')); cbn; naive_solver lia.
Qed.

Lemma SFeqb_key a b : is_nan a = false → is_nan b = false →
  SFeqb a b = negb (SFltb a b) && negb (SFltb b a).
Proof.
  intros Ha Hb. unfold SFeqb, SFltb, SFcompare.
  destruct a as [[]|[]| |[] m e], b as [[]|[]| |[] m' e']; try done.
  - change (Pos.compare_cont Eq m m') with (Z.pos m ?= Z.pos m').
    change (Pos.compare_cont Eq m' m) with (Z.pos m' ?= Z.pos m).
    rewrite (Z.compare_antisym e e'), (Z.compare_antisym (Z.pos m) (Z.pos m')).
    by destruct (e ?= e'), (Z.pos m ?= Z.pos m').
  - change (Pos.compare_cont Eq m m') with (Z.pos m ?= Z.pos m').
    change (Pos.compare_cont Eq m' m) with (Z.pos m' ?= Z.pos m).
    rewrite (Z.compare_antisym e e'), (Z.compare_antisym (Z.pos m) (Z.pos m')).
    by destruct (e ?= e'), (Z.pos m ?= Z.pos m').
Qed.

#[export] Instance double_laws : ScoreLaws double_score.
Proof.
  split; cbn; unfold score in *; cbn in *.
  - intros a. apply not_true_is_false. rewrite SFltb_key. unfold flt. lia.
  - intros a b c. rewrite !SFltb_key. unfold flt. naive_solver lia.
  - intros a b c Hb. rewrite !SFltb_key. unfold flt. intros (-> & -> & H). rewrite Hb.
    destruct (decide (flt (fkey a) (fkey b))) as [|N]; [by left|]. right. split_and!; try done. unfold flt in *. lia.
  - apply SFeqb_key.
Qed.

Lemma lex_anti a b : SdsOps.lex b a = CompOpp (SdsOps.lex a b).
Proof.
  revert b. induction a as [|x a IH]; intros [|y b]; cbn; try done.
  rewrite (Z.compare_antisym x y). destruct (x ?= y); [apply IH|done..].
Qed.
Lemma lex_trans a b c : SdsOps.lex a b = Lt → SdsOps.lex b c = Lt → SdsOps.lex a c = Lt.
Proof.
  revert b c. induction a as [|x a IH]; intros [|y b] [|z c]; cbn; try done.
  destruct (Z.compare_spec x y), (Z.compare_spec y z), (Z.compare_spec x z); try done; try lia. apply IH.
Qed.

#[export] Instance sds_element_laws : ElementLaws sds_element.
Proof.
  split; cbn.
  - intros a b. rewrite <- SdsOps.lex_eq. by destruct (SdsOps.lex a b).
  - intros a b. rewrite (lex_anti a b). by destruct (SdsOps.lex a b).
  - intros a b c. pose proof (lex_trans a b c). destruct (SdsOps.lex a b), (SdsOps.lex b c); cbn; try done.
    intros _ _. by rewrite H.
Qed.

Lemma ex_zsl_laws : ZslAllocLaws ex_zsl.
Proof.
  split.
  - intros X. pose proof (is_fresh ({[0]} ∪ X)) as Hf. rewrite not_elem_of_union, not_elem_of_singleton in Hf.
    unfold znew, ex_zsl. tauto.
  - intros n. apply length_replicate.
Qed.

(** * Theorems *)

Section theorems.
Context {SC : Score} {EL : Element} {AL : ZslAlloc}.
Context {LAWS : ZslAllocLaws AL} {SL : ScoreLaws SC} {LL : ElementLaws EL}.

Lemma draws_end_ok draws : draws_end draws = true → draws_ok draws.
Proof.
  unfold draws_end. rewrite existsb_exists. intros (r & Hr%list_elem_of_In & H). apply Exists_exists.
  exists r. split; [done|]. lia.
Qed.

Lemma absent_ok ns e : existsb (λ k : key, elecmp k.2 e =? 0) (key_of <$> ns) = false → e ∉ ael <$> ns.
Proof.
  intros H (a & -> & Ha)%list_elem_of_fmap. apply not_true_iff_false in H. apply H, existsb_exists.
  exists (key_of a). split; [by apply list_elem_of_In, list_elem_of_fmap_2|]. cbn. apply Z.eqb_eq. by apply elecmp_eq.
Qed.

Lemma foldl_snoc {X} (l l' : list X) : foldl (λ d e, d ++ [e]) l l' = l ++ l'.
Proof.
  revert l. induction l' as [|x l' IH]; intros l; cbn; [by rewrite app_nil_r|]. by rewrite IH, <- (assoc_L (++)).
Qed.

Lemma removed_step (p : key → bool) F ns gone r :
  removed (λ d e, d ++ [e]) p F ns gone r →
  ∃ h' zsl' ns', ('(h, zsl, gone, _) ← r; Ret (h, zsl, gone)) =
    Ret (h', zsl', gone ++ (filter (λ k, p k = true) (key_of <$> ns)).*2) ∧
    holds F h' zsl' ns' ∧ key_of <$> ns' = filter (λ k, p k = false) (key_of <$> ns).
Proof.
  intros (h' & zsl' & ns' & -> & H & E). exists h', zsl', ns'. run. by rewrite foldl_snoc.
Qed.

Lemma zsl_step_spec F h zsl ns gone op :
  holds F h zsl ns → zlegal (key_of <$> ns) op = true →
  ∃ h' zsl' gone' ns', zsl_step (h, zsl, gone) op = Ret (h', zsl', gone') ∧ holds F h' zsl' ns' ∧
    (key_of <$> ns', gone') = zspec_step (key_of <$> ns, gone) op.
Proof.
  intros H HL. unfold zlegal in HL. rewrite zlen_fmap in HL. apply andb_true_iff in HL as [HN HL].
  destruct op as [s e draws|s e|cur e new draws|r|start fin|r]; cbn [zsl_step zspec_step].
  - rewrite !andb_true_iff, !negb_true_iff in HL. destruct HL as [[K U] D].
    destruct (zslInsert_holds F h zsl ns s e draws H K (absent_ok ns e U) (draws_end_ok _ D) ltac:(lia))
      as (h' & zsl' & a & rest & ns' & -> & H' & E & _). run. rewrite <- E. eauto 10.
  - rewrite negb_true_iff in HL.
    destruct (zslDelete_holds F h zsl ns s e false H HL ltac:(lia)) as (h' & zsl' & x & ns' & -> & E & HC). run.
    rewrite <- E. destruct HC as [(_ & -> & -> & ->)|(a & n & _ & _ & _ & _ & H')]; eauto 10.
  - rewrite !andb_true_iff, !negb_true_iff in HL. destruct HL as [[[K K'] U] D].
    destruct (zslUpdateScore_holds F h zsl ns cur e new draws H K K' (draws_end_ok _ D) ltac:(lia))
      as (h' & zsl' & x & rest & ns' & -> & H' & E).
    { apply existsb_exists in U as (k & Hk%list_elem_of_In & S). apply list_elem_of_fmap in Hk as (a & -> & Ha).
      apply Exists_exists. eauto. }
    run. rewrite <- E. eauto 10.
  - rewrite !andb_true_iff, !negb_true_iff in HL.
    pose proof (zslDeleteRangeByScore_holds (λ d e, d ++ [e]) F h zsl ns r gone H HL ltac:(lia)) as HR.
    apply removed_step in HR as (h' & zsl' & ns' & -> & H' & <-). eauto 10.
  - destruct (zslDeleteRangeByRank_holds (λ d e, d ++ [e]) F h zsl ns start fin gone H ltac:(lia) ltac:(lia))
      as (h' & zsl' & ns' & -> & H' & <-). run. rewrite foldl_snoc. eauto 10.
  - pose proof (zslDeleteRangeByLex_holds (λ d e, d ++ [e]) F h zsl ns r gone H) as HR.
    apply removed_step in HR as (h' & zsl' & ns' & -> & H' & <-); [eauto 10| |lia].
    intros x y Hx Hy. rewrite forallb_forall in HL. specialize (HL x ltac:(by apply list_elem_of_In)).
    rewrite forallb_forall in HL. by apply HL, list_elem_of_In.
Qed.

Lemma zsl_run_spec F h zsl ns gone ops :
  holds F h zsl ns → zlegal_run (key_of <$> ns, gone) ops = true →
  ∃ h' zsl' gone' ns', zsl_run (h, zsl, gone) ops = Ret (h', zsl', gone') ∧ holds F h' zsl' ns' ∧
    (key_of <$> ns', gone') = foldl zspec_step (key_of <$> ns, gone) ops.
Proof.
  revert h zsl ns gone. induction ops as [|op ops IH]; intros h zsl ns gone H HL; [eauto 10|].
  cbn [zlegal_run] in HL. apply andb_true_iff in HL as [H1 H2].
  destruct (zsl_step_spec F h zsl ns gone op H H1) as (h1 & zsl1 & gone1 & ns1 & E & H' & ES).
  cbn [zsl_run foldl]. rewrite E. run. rewrite <- ES in H2 |- *. by apply IH.
Qed.

(** C27. A skip list refines a sorted list of scores and elements: after any
    sequence of insertions, deletions, score updates and range deletions that
    starts with an empty list and respects what the callers guarantee, no
    assertion has failed and no pointer was wrong, the nodes are those of the
    sorted list in order, with every level, span, backward pointer, the tail, the
    length and the number of levels right, the elements deleted from the
    dictionary are those of the ranges, and freeing the list gives back the heap
    there was before. *)
Theorem zsl_refines (h : heap) (ops : list zop) :
  zlegal_run ([], []) ops = true →
  ∃ h' zsl gone ns, ('(h, zsl) ← zslCreate h; zsl_run (h, zsl, []) ops) = Ret (h', zsl, gone) ∧
    (key_of <$> ns, gone) = foldl zspec_step ([], []) ops ∧
    holds h h' zsl ns ∧ zslFree h' zsl = Ret h.
Proof.
  intros HL. destruct (zslCreate_spec h) as (h0 & zsl0 & -> & R & T). run.
  destruct (zsl_run_spec h h0 zsl0 [] [] ops) as (h' & zsl & gone & ns & E & H & ES); [|done|].
  - split; [done..|]. split; constructor.
  - exists h', zsl, gone, ns. split_and!; try done. eapply zslFree_spec. apply H.
Qed.

(** C28. The queries of a skip list: the rank of a node counts the nodes before
    it and the node of a rank is found from it, for an element that is not in the
    list and for a rank beyond the end the answer is 0, and the functions that
    look for the ends of a range by score, or by element in a list with one
    score, return the first and the last node of the range, or 0 when there is
    none. *)
Theorem zsl_queries (F h : heap) (zsl : zskiplist) (ns : list anode) :
  holds F h zsl ns → zlen ns < 2 ^ 64 →
  (∀ P a Q, ns = P ++ a :: Q → zslGetRank h zsl (asc a) (ael a) = Ret (zlen P + 1) ∧
     zslGetElementByRank h zsl (zlen P + 1) = Ret (addr a)) ∧
  (∀ s e, isnan s = false → e ∉ ael <$> ns → zslGetRank h zsl s e = Ret 0) ∧
  (∀ rank, zlen ns < rank < 2 ^ 64 → zslGetElementByRank h zsl rank = Ret 0) ∧
  (∀ r, range_ok r → zslFirstInRange h zsl r = Ret (first_of (in_zrange r) ns) ∧
     zslLastInRange h zsl r = Ret (last_of (in_zrange r) ns)) ∧
  (∀ r, one_score (key_of <$> ns) → zslFirstInLexRange h zsl r = Ret (first_of (in_zlexrange r) ns) ∧
     zslLastInLexRange h zsl r = Ret (last_of (in_zlexrange r) ns)).
Proof.
  intros H HN. pose proof (zo_number _ (ho_ok _ _ _ _ H)) as N. split_and!.
  - intros P a Q E. rewrite E, Forall_fmap, Forall_app, Forall_cons in N. destruct N as (_ & N & _).
    destruct (zslGetRank_spec F h zsl ns (asc a) (ael a) H N HN) as (r & -> & _ & HR). split.
    + f_equal. apply (HR P a Q E), ksame_true. split; [by apply score_eq_refl|done].
    + rewrite E in HN. zlr. pose proof (zlen_nonneg P). pose proof (zlen_nonneg Q).
      rewrite (zslGetElementByRank_spec F h zsl ns) by (done || (rewrite ?E; zlr; lia)).
      rewrite E, list_lookup_middle by (unfold zlen; lia). done.
  - intros s e K U. destruct (zslGetRank_spec F h zsl ns s e H K HN) as (r & -> & HR & _). f_equal.
    destruct (Z.eq_dec r 0) as [|NZ]; [done|]. destruct (HR NZ) as (P & a & Q & -> & <- & _).
    exfalso. apply U. rewrite fmap_app. set_solver.
  - intros rank HR. pose proof (zlen_nonneg ns). rewrite (zslGetElementByRank_spec F h zsl ns) by (done || lia).
    rewrite lookup_ge_None_2; [done|]. unfold zlen in *. lia.
  - intros r HR. split; [by eapply zslFirstInRange_spec|by eapply zslLastInRange_spec].
  - intros r HR. split; [by eapply zslFirstInLexRange_spec|by eapply zslLastInLexRange_spec].
Qed.

End theorems.

(** * Examples *)

Definition double (n : Z) : spec_float := binary_normalize 53 1024 n 0 false.

Definition ex_ops : list zop := [
  ZInsert (double 2) [98] [70000; 50000];
  ZInsert (double 1) [97] [3; 7; 65535];
  ZInsert (double 2) [97; 97] [65535];
  ZInsert (S754_infinity false) [99] [1; 2; 3; 4; 20000];
  ZInsert (double (-3)) [100] [20000];
  ZUpdate (double 1) [97] (double 4) [0; 30000];
  ZDelete (double 7) [98];
  ZDeleteRange (Range (S754_infinity true) (double 2) true true);
  ZInsert (S754_zero true) [] [65535] ].

Lemma zsl_refines_witness :
  zlegal_run ([], []) ex_ops = true ∧
  ∃ h' zsl gone ns, ('(h, zsl) ← zslCreate ∅; zsl_run (h, zsl, []) ex_ops) = Ret (h', zsl, gone) ∧
    key_of <$> ns = [(S754_zero true, []); (double 2, [97; 97]); (double 2, [98]); (double 4, [97]);
                     (S754_infinity false, [99])] ∧
    gone = [[100]] ∧ holds ∅ h' zsl ns ∧ zslFree h' zsl = Ret ∅.
Proof.
  assert (L : zlegal_run ([], []) ex_ops = true) by (vm_compute; reflexivity). split; [exact L|].
  destruct (zsl_refines (LAWS := ex_zsl_laws) ∅ ex_ops L) as (h' & zsl & gone & ns & E & ES & H & HF).
  exists h', zsl, gone, ns. split; [exact E|].
  assert (K : foldl zspec_step ([], []) ex_ops =
    ([(S754_zero true, []); (double 2, [97; 97]); (double 2, [98]); (double 4, [97]); (S754_infinity false, [99])],
     [[100]])) by (vm_compute; reflexivity).
  rewrite K in ES. apply pair_equal_spec in ES as [E1 E2].
  split; [exact E1|]. split; [exact E2|]. split; [exact H|exact HF].
Defined.

Definition ex_range : zrangespec := Range (double 1) (double 3) false true.
Definition ex_reversed : zrangespec := Range (double 3) (double 1) false false.

Lemma zsl_queries_witness :
  ∃ h zsl gone a0 a1 a2 a3 a4, let ns := [a0; a1; a2; a3; a4] in
    ('(h, zsl) ← zslCreate ∅; zsl_run (h, zsl, []) ex_ops) = Ret (h, zsl, gone) ∧
    holds ∅ h zsl ns ∧ zlen ns < 2 ^ 64 ∧ key_of a2 = (double 2, [98]) ∧
    zslGetRank h zsl (double 2) [98] = Ret 3 ∧ zslGetElementByRank h zsl 3 = Ret (addr a2) ∧
    zslGetRank h zsl (double 1) [100] = Ret 0 ∧ zslGetElementByRank h zsl 6 = Ret 0 ∧
    zslFirstInRange h zsl ex_range = Ret (addr a1) ∧
    zslLastInRange h zsl ex_range = Ret (addr a2) ∧
    zslFirstInRange h zsl ex_reversed = Ret 0.
Proof.
  destruct (zslCreate_spec (LAWS := ex_zsl_laws) (∅ : heap)) as (h0 & zsl0 & E0 & R & T).
  destruct (zsl_run_spec (LAWS := ex_zsl_laws) ∅ h0 zsl0 [] [] ex_ops) as (h & zsl & gone & ns & E & H & ES).
  { split; [exact R|exact T|split; constructor]. }
  { vm_compute; reflexivity. }
  assert (K : key_of <$> ns = [(S754_zero true, []); (double 2, [97; 97]); (double 2, [98]); (double 4, [97]);
                     (S754_infinity false, [99])]).
  { apply (f_equal fst) in ES. etransitivity; [exact ES|]. vm_compute. reflexivity. }
  destruct ns as [|a0 [|a1 [|a2 [|a3 [|a4 [|a5 ns]]]]]]; try discriminate K.
  injection K as K0 K1 K2 K3 K4 K5 K6 K7 K8 K9.
  destruct a0 as [p0 s0 e0 l0], a1 as [p1 s1 e1 l1], a2 as [p2 s2 e2 l2], a3 as [p3 s3 e3 l3], a4 as [p4 s4 e4 l4].
  cbn in K0, K1, K2, K3, K4, K5, K6, K7, K8, K9. subst.
  destruct (zsl_queries (LAWS := ex_zsl_laws) ∅ h zsl _ H ltac:(vm_compute; reflexivity)) as (Q1 & Q2 & Q3 & Q4 & _).
  eexists h, zsl, gone, _, _, _, _, _. cbn zeta.
  split; [rewrite E0; exact E|]. split; [exact H|]. split; [vm_compute; reflexivity|]. split; [reflexivity|].
  split; [apply (Q1 [_; _] _ [_; _] eq_refl)|]. split; [apply (Q1 [_; _] _ [_; _] eq_refl)|].
  split. { apply Q2; [reflexivity|]. intros K.
    do 5 (apply elem_of_cons in K as [K|K]; [discriminate K|]). by apply not_elem_of_nil in K. }
  split; [apply Q3; vm_compute; split; reflexivity|].
  split; [rewrite (proj1 (Q4 ex_range ltac:(split; reflexivity))); vm_compute; reflexivity|].
  split; [rewrite (proj2 (Q4 ex_range ltac:(split; reflexivity))); vm_compute; reflexivity|].
  rewrite (proj1 (Q4 ex_reversed ltac:(split; reflexivity))). vm_compute. reflexivity.
Defined.

End SkiplistSpec.
